(* ===== verification/_CoqProject ===== *)
-Q . S2P
Prelude.v
Ordered.v
Schema.v
Read.v
Machine.v
Validate.v
Engine.v
Log.v
Home.v
Attempt.v
Steps.v
Ensure.v
Lifecycle.v
Placement.v
Convoy.v
Consumer.v
AgentSession.v
Message.v
Receipts.v
AwaitingReply.v
ConvoySteps.v
ConvoyInv.v
ConvoyExamples.v
Examples.v
Text.v
Encoding.v
Address.v
Names.v
Resolve.v
Condition.v
AddressExamples.v
Cbor.v
InboxStore.v
Inbox.v
InboxSpec.v
InboxInv.v
InboxRefine.v
InboxCalls.v
InboxWatch.v
InboxRecover.v
InboxExamples.v
Effects.v
Kinds.v
Inverted.v
MessageIndex.v
QueryIndex.v
Digest.v
MemStore.v
MemInv.v
MemWatch.v
MemReplica.v
MemConverge.v
MemReplace.v
MemReplicas.v
MemExamples.v
MemQuery.v
MemQueryExact.v
MemQueryExamples.v
Merge.v
MergeFacts.v
MergeFleet.v
MergeSerial.v
MergeExamples.v
