(* ===== verification/Prelude.v ===== *)
(** * Flotilla: its state-machine engine, addresses and wire format, verified

    Flotilla coordinates crews of agents. Its core is the crate
    [crates/flotilla-state-machines]: a small engine that runs declared state
    machines, and the machines that say what a convoy, a vessel, a message, an
    agent session or an ensured resource may do next. Every write of the system goes through one call,
    [Home::apply]: the machine's declaration finds the edge, its gate reads the
    world through a recording handle and passes or refuses, its effect returns
    the next state and the record writes, the log persists the edge and gives
    it a version, and only then does the resource change. This library models
    that engine and its machines, and proves what makes them correct. Around it
    it models two crates every other one uses: [crates/flotilla-address], the
    addresses, references and conditions that name every resource, and
    [crates/flotilla-cbor], the canonical wire format and its frames; and the
    service built on the engine, [crates/flotilla-inbox], the inboxes messages
    are sent to, claimed from and watched in. Beside them it models the resource
    store controllers write to, in memory ([crates/flotilla-store-memory], with
    the queries and digests of [flotilla-store] and [flotilla-resources]), and the
    definitions that several roots author and every root reads merged
    ([flotilla-store]'s [definition.rs]). The engine's Quint specifications ([specs/primitives/machines]) are the abstract
    machines of the refinement theorems.

    ** The parts and the files

    - [Prelude] (this file): results with their monad, machine integers with
      their saturating operations, iteration of ordered maps and sets, shared
      tactics and the hint database [flotilla].
    - [Schema]: the values of [crates/flotilla-schema] the engine holds:
      timestamps, record tables ([records.rs]), materialised states, edge
      events, references. An address, and a condition, is its canonical text.
    - [Read]: [read.rs]. Kinds, references, sources, the memory [Table], the
      read record.
    - [Machine]: [machine.rs], [code.rs] and the handles of [read.rs]. A machine
      is a [MachineSig] (the associated types of the [Machine] trait) with a
      [Machine] instance (its two functions). Gates and effects are functions
      of the handle: [HM] computes through it, [GM] may refuse; [do!], [let!]
      and [try!] sequence them. [step] is [MachineDef::step].
    - [Validate]: [MachineDef::validate] with every rule, the reachability
      worklist included. [Engine]: what a step does, for any declaration.
    - [Log]: [log.rs]. The [Log] trait as a class of operations, [LogLaws] as
      what a home relies on, [MemoryLog] as the instance that satisfies them.
    - [Home]: [home.rs]. [create], [restore], [apply], [evict], [judge] over any
      machine and any log. [StampedWrites] and [MachineInv] state what a machine
      promises its home.
    - [Attempt]: [attempt.rs], tallies, backoff and retries. [Steps]: shared
      lemmas and tactics that read a declared step off its gate and effect.
    - [Ensure], [Lifecycle]: [machines/ensure.rs], [machines/lifecycle.rs], each
      with its Quint machine and the refinement. [Placement]:
      [machines/vessel.rs] and [placement.rs], the ledger of hosts and leases
      and the composed placement home.
    - [Convoy]: [machines/convoy.rs], the whole machine. [ConvoySteps]: what its
      steps decide and write. [ConvoyInv]: what holds of every convoy.
    - [Consumer]: [machines/consumer.rs], [machines/person.rs]: receivers and the
      class a consuming machine implements for the receipt reader, with the
      person; [AgentSession]: [machines/agent_session.rs], its other instance.
    - [Message]: [machines/message.rs], the envelope, the machine, admission and
      [pending_for]. [Receipts]: its [ReceiptLog], over store entries.
      [AwaitingReply]: [machines/awaiting_reply.rs], the sender's half.
      [AgentSession], [Message] and [AwaitingReply] carry their Quint machines.
    - [ConvoyExamples], [Examples]: concrete runs the theorems are applied to.
    - [Text]: the parts of Rust's [str] and [u8] the address crate uses, over
      lists of bytes: UTF-8 validity, splitting, trimming, decimal numbers,
      lowercasing. [Encoding]: [kind.rs] (kinds and which may follow which),
      [error.rs] and [encoding.rs] (percent encoding).
    - [Address]: [forge.rs], [address.rs] and [reference.rs]: building, parsing
      and printing addresses, parents, prefixes and their byte range. [Names]:
      [record.rs] (record names) and [completion.rs]. [Resolve]: [resolve.rs],
      the lenient reading of typed or pasted text. [Condition]: [condition.rs],
      conditions and templates with their strict and lenient parsers.
      [AddressExamples]: concrete addresses the theorems are applied to.
    - [Cbor]: [flotilla-cbor]'s [lib.rs], [scan.rs] and [frame.rs]: the canonical
      scan of a message, its encoding and decoding, and the frame around it.
    - [Ordered]: lists sorted by key, ranges of ordered maps, sums over maps.
    - [InboxStore]: [flotilla-inbox]'s [storage.rs] and its names and changes:
      the class [InboxLog], the memory store as its instance, and
      [InboxLogLaws], what an inbox relies on, which the store satisfies.
    - [Inbox]: [lib.rs] and the charges of [resident.rs]: the backend's state (a
      home of messages, a bounded cache of values, receipts and pending orders,
      bindings, consumers and byte counters) and every operation on it, in a
      state and error monad; a panic is an outcome of its own.
    - [InboxSpec]: the same operations with no cache: what an inbox promises.
      [InboxInv]: the invariant that ties cache, orders, counts and counters to
      the log. [InboxRefine]: the simulation, operation by operation.
      [InboxCalls]: the operations as one interface, served in sequence.
    - [InboxWatch]: the watch stream, beside an inbox that keeps serving.
      [InboxRecover]: opening over an existing log, and the state it leaves.
      [InboxExamples]: an inbox over the memory store at work.
    - [Effects]: computations over a state that return, fail or panic. [Kinds]:
      [flotilla-resources]' objects, metadata, errors and kind descriptors, with
      the serde of JSON trees as classes ([Json], [Serde]). [Inverted]: inverted
      indexes; [MessageIndex], [QueryIndex], [Digest]: the store's message index,
      declared queries ([query.rs]) and hash tree ([digest.rs]), each with what it
      promises of the objects it indexes.
    - [MemStore]: [in_memory.rs], one partition: objects, versions, the bounded
      event log, the watch channel ([Broadcast]), every operation on it and
      watches. [MemInv]: its invariant, and that an operation only appends the
      events it commits. [MemWatch]: what clients rely on.
    - [MemReplica]: the replicas of other roots: snapshots, relayed events,
      cursors, digests. [MemConverge]: relayed events as candidates of a total
      order. [MemReplace]: the pass of a snapshot. [MemReplicas]: what holds
      after any of them. [MemExamples]: a store and replicas at work.
    - [MemQuery]: the whole store ([Backend]): its partitions and its replicas, and
      declared queries over both ([query_rows], [query_values_raw] of
      [in_memory.rs]; [validate_at], [resolve_semijoins] of [query.rs]).
      [MemQueryExact]: what a query means, and that the answer is that.
      [MemQueryExamples]: convoys selected through the projects they name.
    - [Merge]: [definition.rs]: the causal dots and contexts of the fields of a
      definition, the causally maximal values ([causally_maximal]), the merged
      object with its conflicts ([merge_sources]), and what an apply, a delete and
      a metadata update write ([plan_apply], [plan_delete], [plan_metadata]).
      [MergeFacts]: what a merge gives, whatever the order of its sources.
      [MergeFleet]: roots that write a definition and receive each other's records,
      with the invariant of their history. [MergeSerial]: the register such a
      fleet is when its edits are made one after the other. [MergeExamples]: two
      kinds of definition, merged.

    ** What the theorems show

    - The engine: validation accepts exactly the well-declared machines
      ([Validate.validate_accepts], [reach_complete]); a step succeeds exactly
      when its declaration allows it ([Engine.step_moves_iff]), and a validated,
      built declaration never reports an undeclared edge; an applied edge
      is what the log was given and commits its step, its writes and its event at
      the log's version and nothing else, a failed one changes nothing
      ([Home.apply_commits], [failed_apply_changes_nothing]);
      a machine's invariant holds in every reachable home
      ([home_keeps_invariant]); the memory log appends, numbers and pages
      histories ([Log]).
    - Attempts: the saturating tally stands for the attempt history, the
      backoff loop for a capped exponential.
    - Ensure and lifecycle: each step is a stated function, agrees with the
      Quint machine on every branch, refusals included, and so every resource
      of every reachable home stands for a state the specification reaches.
    - Placement: a vessel is placed exactly when quota, capacity and priority
      allow; hosts are never oversubscribed; leases and live vessels agree
      through every call, and after a restart too but for the vessels it reports
      as unplaced ([placements_stay_consistent]); failures undo.
    - Convoy: ownership, key, seat-tree and delivery invariants hold in every
      reachable home ([convoy_homes_well_formed]); no call on a home declares a
      promise id its convoy has had ([promise_id_never_reused]); settled promises
      never change, quotas never shrink, limits hold. Their proofs read each of
      the fifteen edges as the pure function [convoy_next].
    - Messages: the message, session and awaiting-reply machines agree with
      their Quint machines on every branch; a message is claimed once, by one
      receiver, and its state is sound for its envelope in every reachable home;
      the receipt reader serves exactly the receipts in the log, so a delivery
      is accepted exactly on the receiver's own [Receive] edge; a reply in the
      sender's inbox wins over a passed deadline.
    - Progress: a lifecycle request whose attempts keep failing can always be
      given up once the policy is spent ([failing_requests_give_up]).
    - Addresses: the strict parser accepts exactly the printed form of whole
      addresses ([address_parse_exact], [constructed_round_trip],
      [reference_round_trip]); lying under a prefix, and the byte range of a
      stored prefix query, are the prefix relation on segments
      ([under_is_segment_prefix], [descendant_bounds_exact]); what resolution
      gives is whole and resolves to itself ([resolve_whole],
      [resolve_stable]); completion places a partial address at the deepest
      ancestor that may take it and never invents one ([place_deepest],
      [completion_sound]); record names of change requests and issues tell
      addresses apart ([forge_record_names_injective]), those of usage accounts
      do not ([usage_record_names_collide]).
    - Conditions and templates: the strict parsers accept exactly what the
      printers write, the lenient ones at least that ([condition_round_trip],
      [template_round_trip], [lenient_reads_printed]).
    - CBOR: the scan accepts exactly the data items of the profile's grammar,
      an inductive definition ([scan_accepts_grammar], [scan_terminates]);
      frames round-trip, their prefixes are truncated, and a frame is read from
      a stream however it is cut ([frame_round_trip], [read_any_chunking]).
    - Inboxes: any sequence of calls is answered as the specification answers
      it, whatever the budgets, and none panics ([inbox_serves]); caches, orders,
      counts and byte counters are exactly the log's ([inbox_caches_exact]); a
      message a consumer has taken is not handed to it again ([taken_once]); a
      send under an id is admitted once ([enqueue_as_once]); a message dropped
      as undeliverable has its dead letter, retries included
      ([undeliverable_has_letter]); a watcher gets each change once, in order,
      and catches up ([watch_exact], [watch_catches_up]); opening over a log of
      another process leaves such an inbox, with every owed letter
      ([open_recovers]).
    - The resource store: a client that lists and resumes a watch is delivered
      exactly the events committed since, each once and in order, and so holds
      the collection as it is, or is told to list again ([list_then_watch]); a stale version never overwrites
      ([no_lost_update]); indexes and digests answer for exactly the objects
      ([store_indexes_exact], [replica_indexes_exact]); finalizers hold an object
      ([finalizers_hold]). Replicas converge in any order of events
      ([replicas_converge]), a snapshot replaces exactly what it is about
      ([snapshot_replaces]), a bucket is accepted only complete
      ([digest_snapshot_complete]) and a confirmed digest means the origin's
      versions ([confirmed_replica]). A declared query reads exactly the rows
      it describes, of the store and of the replicas it may see, each once, and
      answers with them in order, merged where it asks for that, or fails with the
      error of one ([query_exact]).
    - Merged definitions: of the sources that have one of a field's causally
      maximal values the first by origin stands for it, the merged object takes
      the one with the least dot, and the conflicts are exactly the fields with
      several ([merge_exact]); the fields a write asks for are what its root reads
      next, whatever was written elsewhere, if what is merged decodes
      ([write_takes_effect]); edits made one after the other that leave out no
      field behave as one register, in every order of deliveries
      ([serial_edits_are_a_register]). Concurrent edits may lose a conflict and
      bring an overwritten value back ([lost_conflict], [overwritten_returns]),
      and a field left out when empty cannot be cleared ([clear_undone]).

    ** Modelling decisions

    A [u32], [u64] or [i64] is a [Z] with its saturation written out; a
    [BTreeMap] or [BTreeSet] is a [gmap] or [gset], iterated in key order by
    [map_iter] and [set_iter]; a record table is its list of rows. A machine's
    world is any record of lookups: theorems hold for every world. A log is any
    instance of [Log]; theorems about homes hold for every log that keeps
    [LogLaws], which are of one whose create stores the admitted spec as it is. Fuel bounds the reachability worklist ([reach_complete]), the
    seat climb ([acyclic_decides_forest]), the field path and argument loops of
    a condition, by the length of the text ([path_loop_fuel],
    [args_loop_fuel]), the climb of completion, by the number of segments
    ([place_deepest] covers it), and the nesting of the CBOR scan, by its
    depth limit of at most 255 ([scan_terminates]); each is proved enough. In an
    inbox, fuel bounds the eviction loop, by the entries of the cache
    ([shrink_runs]), the walks over pending orders and change pages, by the
    log's sequence ([blocked_sim], [pending_sim], [poll_gives]), and the
    start-up pages, by twice the sequence, since recovery adds at most one
    letter for each message ([recover_pages_stores]): running out is a panic,
    and neither a call nor opening panics.
    The home's clock and evidence ([Observations]), [Supervision], consumer
    ports ([ConsumerPort], [LocalPort] for one that keeps to its own resource),
    the hash of a body ([Freeze]) and the allocation sizes ([Residence]) are
    parameters of the inbox. Its theorems ask that sequence numbers are left for
    what a call commits, that an unkeyed name is not in use and that a dropped
    message's name is an address; byte counters are unbounded integers, and a
    debug assertion on the declared read set is left out.
    A Rust [str] is a list of bytes that is valid UTF-8 where the source has
    the type's guarantee.
    Unicode lowercasing ([Lowercase]), SHA-256 ([Sha256]), JSON strings
    ([JsonString]) and the CBOR library and serde ([CborCore], [Message],
    [MessageRound]) are parameters, with the documented facts the code relies on
    as the classes' laws; each has a concrete instance the witnesses use. The
    detail text of a CBOR error is dropped, its kind is kept. Where the address
    code could panic on an address with no segment, the model gives [None].
    Where the source panics ([expect] on a request of more than 2^32 rows), the
    model leaves the table as it is and the theorems assume the request fits
    ([request_fits]). Decoding the CBOR arguments of a stored edge is a
    parameter of the receipt reader ([CborEdge]); its theorems hold for every
    decoding. In the resource store a hash map is iterated in key order, where
    its source order is not specified and no theorem depends on it; a version
    counter that would overflow is a panic; stored trees, the serde of objects,
    JSON text, broadcast channels and the validators of a kind are parameters
    ([Json], [Serde], [JsonText], [Broadcast], [ResourceKind]), as are the values an
    index takes from a tree ([IndexedSpecs]), and theorems about
    hashes ask that the two inputs at hand do not collide ([no_collision]).
    A query's maps are lists of entries, each key once ([keyed_once]); the
    registered kinds are a list that tells them apart by path. A query does not
    both join a field and ask values of it ([joins_apart]): the code then looks
    for one value that meets both ([values_intersected]). What merges the rows of
    a query that asks for it is a parameter ([DefinitionMerge]).
    A kind of definition is its serde and the fields it always writes
    ([DefinitionKind]), with JSON objects built by [JsonBuild]. A fleet is about one
    name; what the store's create or update leaves is [committed], with no status
    at first, the spec as given and nothing refused; a delivery copies the
    origin's record as it is then ([FReceive]), and each call is one step. Its
    theorems ask for fewer than 2^64 steps, and the register's that no apply
    leaves out a field the definition has ([keeps_fields]).

    ** Not modelled

    Storage columns and encodings ([Columns], [StoredWrite], [kinds.rs],
    [stored.rs]), serde, the display of most errors, CBOR's [Bytes] wrapper, and
    the crates around the engine (stores over SQL and HTTP, network replication,
    daemon, user interfaces, providers), which are I/O over it. Of the memory
    store: diagnostics, the program's built-in definitions, a composed durable
    replica store and read accounting. Of merged definitions:
    built-in definitions, the engine records beside them, the validation of
    hierarchies and siblings, declared queries over them, and two applies
    interleaved at one root. *)

(** ** Shared vocabulary: results, machine integers, ordered iteration over
    maps and sets, tactics and hints. *)

From Stdlib Require Export ZArith Lia.
From stdpp Require Export base tactics gmap strings sorting numbers option list.

#[global] Open Scope Z_scope.
#[global] Open Scope string_scope.
#[global] Open Scope list_scope.

Declare Scope flotilla_scope.
Delimit Scope flotilla_scope with flotilla.

(** * Results *)

(** Rust's [Result<A, E>], with the error first so that [result E] is a monad. *)
Inductive result (E A : Type) : Type :=
| Ok (a : A)
| Err (e : E).
Arguments Ok {E A} a.
Arguments Err {E A} e.

#[export] Instance result_ret {E} : MRet (result E) := fun A a => Ok a.
#[export] Instance result_bind {E} : MBind (result E) :=
  fun A B f r => match r with Ok a => f a | Err e => Err e end.
#[export] Instance result_fmap {E} : FMap (result E) :=
  fun A B f r => match r with Ok a => Ok (f a) | Err e => Err e end.

#[export] Instance result_eq_dec {E A} `{EqDecision E, EqDecision A} : EqDecision (result E A).
Proof. solve_decision. Defined.

Definition map_err {E F A} (f : E -> F) (r : result E A) : result F A :=
  match r with Ok a => Ok a | Err e => Err (f e) end.

Definition ok_or {E A} (o : option A) (e : E) : result E A :=
  match o with Some a => Ok a | None => Err e end.

Definition is_ok {E A} (r : result E A) : bool :=
  match r with Ok _ => true | Err _ => false end.

Lemma ok_or_Ok {E A} (o : option A) (e : E) a : ok_or o e = Ok a <-> o = Some a.
Proof. destruct o; cbn; split; congruence. Qed.

(** Rust's [try_fold]: the first error stops the fold. *)
Fixpoint try_fold {E A B} (f : A -> B -> result E A) (a : A) (l : list B) : result E A :=
  match l with
  | [] => Ok a
  | b :: l => match f a b with Ok a' => try_fold f a' l | Err e => Err e end
  end.

Lemma try_fold_app {E A B} (f : A -> B -> result E A) a l1 l2 :
  try_fold f a (l1 ++ l2) =
  match try_fold f a l1 with Ok a' => try_fold f a' l2 | Err e => Err e end.
Proof. revert a. induction l1 as [|b l1 IH]; intros a; cbn; [done|]. by destruct (f a b). Qed.

(** * Machine integers *)

Definition u32_max : Z := 4294967295.
Definition u64_max : Z := 18446744073709551615.
Definition i64_max : Z := 9223372036854775807.
Definition i64_min : Z := -9223372036854775808.

Definition is_u32 (n : Z) : Prop := 0 <= n <= u32_max.
Definition is_u64 (n : Z) : Prop := 0 <= n <= u64_max.
Definition is_i64 (n : Z) : Prop := i64_min <= n <= i64_max.

(** The saturating operations of [u32], [u64] and [i64]. *)
Definition u32_saturating_add (a b : Z) : Z := Z.min (a + b) u32_max.
Definition u64_saturating_add (a b : Z) : Z := Z.min (a + b) u64_max.
Definition i64_clamp (n : Z) : Z := Z.max i64_min (Z.min i64_max n).
Definition i64_saturating_add (a b : Z) : Z := i64_clamp (a + b).
Definition i64_saturating_sub (a b : Z) : Z := i64_clamp (a - b).
Definition i64_saturating_mul (a b : Z) : Z := i64_clamp (a * b).
(** [u32::checked_sub]. *)
Definition u32_checked_sub (a b : Z) : option Z := if decide (b <= a) then Some (a - b) else None.
(** [u32::try_from(len)] for a [usize]: [None] when the value does not fit. *)
Definition u32_try_from (n : nat) : option Z :=
  if decide (Z.of_nat n <= u32_max) then Some (Z.of_nat n) else None.

Ltac unfold_ints :=
  unfold is_u32, is_u64, is_i64, u32_saturating_add, u64_saturating_add, i64_saturating_add,
    i64_saturating_sub, i64_saturating_mul, i64_clamp, u32_max, u64_max, i64_max, i64_min in *.

(** * Ordered iteration *)

(** The key order a [BTreeMap] or [BTreeSet] iterates in. *)
Class TotalOrd (A : Type) := {
  ord_le : relation A;
  ord_dec :: RelDecision ord_le;
  ord_po :: PartialOrder ord_le;
  ord_total :: Total ord_le;
}.

#[export] Program Instance string_ord : TotalOrd string := {| ord_le := String.le |}.

#[export] Program Instance Z_ord : TotalOrd Z := {| ord_le := Z.le |}.

(** A type ordered through an injective projection, as the derived [Ord] of a newtype. *)
Program Definition ord_by {A B} `{TotalOrd B} (f : A -> B) `{!Inj (=) (=) f} : TotalOrd A :=
  {| ord_le := fun x y => ord_le (f x) (f y) |}.
Next Obligation. intros A B ? f ? x y. cbn. apply _. Defined.
Next Obligation.
  intros A B ? f Hinj. repeat split.
  - intros x. reflexivity.
  - intros x y z ??. by etrans.
  - intros x y ??. apply Hinj. by apply (anti_symm ord_le).
Qed.
Next Obligation. intros A B ? f ? x y. apply (total ord_le). Qed.

Section ordered_iteration.
Context {K : Type} `{Countable K} `{!TotalOrd K}.

(** A [BTreeSet]'s iteration: its elements in key order. *)
Definition set_iter (s : gset K) : list K := merge_sort ord_le (elements s).

(** A [BTreeMap]'s iteration: its entries in key order. *)
Definition key_le {V} (p q : K * V) : Prop := ord_le p.1 q.1.
#[export] Instance key_le_dec {V} : RelDecision (@key_le V).
Proof. intros p q. unfold key_le. apply _. Defined.
Definition map_iter {V} (m : gmap K V) : list (K * V) := merge_sort key_le (map_to_list m).

Lemma set_iter_perm s : set_iter s ≡ₚ elements s.
Proof. apply merge_sort_Permutation. Qed.

Lemma elem_of_set_iter x s : x ∈ set_iter s <-> x ∈ s.
Proof. by rewrite set_iter_perm, elem_of_elements. Qed.

Lemma map_iter_perm {V} (m : gmap K V) : map_iter m ≡ₚ map_to_list m.
Proof. apply merge_sort_Permutation. Qed.

Lemma elem_of_map_iter {V} (m : gmap K V) k v : (k, v) ∈ map_iter m <-> m !! k = Some v.
Proof. by rewrite map_iter_perm, elem_of_map_to_list. Qed.

Lemma NoDup_map_iter_fst {V} (m : gmap K V) : NoDup (map_iter m).*1.
Proof. rewrite map_iter_perm. apply NoDup_fst_map_to_list. Qed.

Lemma map_iter_insert_perm {V} (m : gmap K V) k v :
  m !! k = None -> map_iter (<[k := v]> m) ≡ₚ (k, v) :: map_iter m.
Proof. intros Hk. by rewrite !map_iter_perm, map_to_list_insert. Qed.

Lemma map_iter_sorted {V} (m : gmap K V) : Sorted key_le (map_iter m).
Proof. apply Sorted_merge_sort. intros p q. apply (total ord_le). Qed.
End ordered_iteration.

(** * Tactics and hints *)

Create HintDb flotilla.

(** Splits the [match]es and [if]s of the goal and hypotheses, closing the
    branches that contradict. *)
Ltac split_cases :=
  repeat first
    [ progress simplify_eq/=
    | case_match
    | case_decide ].

(** One step of a fallible computation that must succeed. *)
Ltac run_step := lazymatch goal with
  | |- mbind _ ?r = Ok _ -> _ => let x := fresh "x" in let E := fresh "E" in destruct r as [x|] eqn:E; [cbn [mbind result_bind]|done]
  end.

(** Decides a boolean built from [bool_decide], [&&], [||] and [negb]. *)
Lemma bool_decide_iff {P} `{Decision P} : bool_decide P = true <-> P.
Proof. apply bool_decide_eq_true. Qed.

Lemma forallb_elem {A} (f : A -> bool) l : forallb f l = true <-> forall x, x ∈ l -> f x = true.
Proof. rewrite forallb_forall. by setoid_rewrite list_elem_of_In. Qed.

Lemma existsb_elem {A} (f : A -> bool) l : existsb f l = true <-> exists x, x ∈ l /\ f x = true.
Proof. rewrite existsb_exists. by setoid_rewrite list_elem_of_In. Qed.

Lemma forallb_false {A} (f : A -> bool) l : forallb f l = false <-> exists x, x ∈ l /\ f x = false.
Proof.
  induction l as [|a l IH]; cbn; [set_solver|]. rewrite andb_false_iff, IH. set_solver.
Qed.

Lemma existsb_false {A} (f : A -> bool) l : existsb f l = false <-> forall x, x ∈ l -> f x = false.
Proof.
  induction l as [|a l IH]; cbn; [set_solver|]. rewrite orb_false_iff, IH. set_solver.
Qed.

(** Lexicographic order on pairs, the derived [Ord] of a tuple. *)
Section pair_order.
Context {A B : Type} `{!TotalOrd A, !TotalOrd B}.

Definition pair_le (p q : A * B) : Prop :=
  ord_le p.1 q.1 /\ (p.1 = q.1 -> ord_le p.2 q.2).

#[export] Instance pair_le_dec `{!EqDecision A} : RelDecision pair_le.
Proof. intros p q. unfold pair_le. apply _. Defined.

#[export] Program Instance pair_ord `{!EqDecision A} : TotalOrd (A * B) := {| ord_le := pair_le |}.
Next Obligation.
  intros _. repeat split; unfold pair_le.
  - done.
  - done.
  - destruct H, H0. by etrans.
  - intros Hxz. destruct H as [H1 H2], H0 as [H3 H4].
    assert (x.1 = y.1) as Hxy by (apply (anti_symm ord_le); [done|by rewrite Hxz]).
    trans y.2; [by apply H2|]. apply H4. congruence.
  - intros [a b] [c d] [H1 H2] [H3 H4]. cbn in *.
    assert (a = c) as -> by by apply (anti_symm ord_le). f_equal.
    apply (anti_symm ord_le); auto.
Qed.
Next Obligation.
  intros Heq [a b] [c d]. unfold pair_le. cbn.
  destruct (decide (a = c)) as [->|Hne].
  - destruct (total ord_le b d); [left|right]; by split.
  - destruct (total ord_le a c); [left|right]; split; [done|congruence|done|congruence].
Qed.
End pair_order.
