(* ===== verification/Ordered.v ===== *)
(** Lists in key order, ranges of ordered maps and sums over maps: what the
    logs, the stores and their byte accounting share. *)

From S2P Require Import Prelude.

(** * Lists in strict key order *)

Section by_key.
Context {V : Type}.
Implicit Types (l : list (Z * V)) (p q : Z * V).

Definition by_key p q : Prop := p.1 < q.1.

Lemma by_key_NoDup l : StronglySorted by_key l -> NoDup l.
Proof.
  induction 1 as [|p l Hs IH Hall]; constructor; [|done]. intros Hp. rewrite Forall_forall in Hall.
  apply Hall in Hp. unfold by_key in Hp. lia.
Qed.

(** Two such lists with the same entries are one list. *)
Lemma by_key_unique l1 l2 :
  StronglySorted by_key l1 -> StronglySorted by_key l2 -> (forall p, p ∈ l1 <-> p ∈ l2) -> l1 = l2.
Proof.
  intros H1 H2 He. eapply (StronglySorted_unique_strong by_key); [|done|done|].
  - intros p q _ _. unfold by_key. lia.
  - by apply NoDup_Permutation; auto using by_key_NoDup.
Qed.

Lemma by_key_snoc l p : StronglySorted by_key l -> (forall q, q ∈ l -> by_key q p) -> StronglySorted by_key (l ++ [p]).
Proof.
  induction 1 as [|q l Hs IH Hall]; intros Hp; cbn; [by repeat constructor|].
  constructor; [apply IH; set_solver|]. apply Forall_app. split; [done|]. repeat constructor. apply Hp. set_solver.
Qed.

Lemma by_key_app l1 l2 p q : StronglySorted by_key (l1 ++ l2) -> p ∈ l1 -> q ∈ l2 -> by_key p q.
Proof.
  induction l1 as [|x l1 IH]; cbn; intros Hs; [set_solver|]. apply StronglySorted_cons in Hs as [Hall Hs].
  rewrite Forall_forall in Hall. intros [->|Hp]%elem_of_cons Hq; [apply Hall; set_solver|auto].
Qed.

Lemma by_key_app_r l1 l2 : StronglySorted by_key (l1 ++ l2) -> StronglySorted by_key l2.
Proof. induction l1 as [|x l1 IH]; cbn; [done|]. intros [_ Hs]%StronglySorted_cons. auto. Qed.

Lemma by_key_filter (P : Z * V -> Prop) `{!forall p, Decision (P p)} l : StronglySorted by_key l -> StronglySorted by_key (filter P l).
Proof.
  induction 1 as [|p l Hs IH Hall]; [constructor|]. rewrite filter_cons. case_decide; [|done].
  constructor; [done|]. rewrite Forall_forall in *. intros q [_ Hq]%list_elem_of_filter. auto.
Qed.

(** The entries above a key. *)
Definition above (after : Z) l : list (Z * V) := filter (fun p => after < p.1) l.

Lemma elem_of_above after l p : p ∈ above after l <-> p ∈ l /\ after < p.1.
Proof. unfold above. rewrite list_elem_of_filter. naive_solver. Qed.
Lemma above_sorted after l : StronglySorted by_key l -> StronglySorted by_key (above after l).
Proof. apply by_key_filter. Qed.
Lemma above_all after l : (forall p, p ∈ l -> after < p.1) -> above after l = l.
Proof.
  intros H. unfold above. induction l as [|p l IH]; [done|]. rewrite filter_cons_True by set_solver.
  f_equal. apply IH. set_solver.
Qed.
Lemma above_app after l1 l2 : above after (l1 ++ l2) = above after l1 ++ above after l2.
Proof. apply filter_app. Qed.
Lemma above_none after l : (forall p, p ∈ l -> p.1 <= after) -> above after l = [].
Proof.
  intros H. unfold above. induction l as [|p l IH]; [done|]. rewrite filter_cons_False; [apply IH; set_solver|].
  specialize (H p). cbn. assert (p.1 <= after) by (apply H; set_solver). lia.
Qed.

(** Paging: above the last key of a page lies what follows the page. *)
Lemma above_last l1 p l2 : StronglySorted by_key (l1 ++ [p] ++ l2) -> above p.1 (l1 ++ [p] ++ l2) = l2.
Proof.
  intros Hs. rewrite !above_app. rewrite (above_none _ l1), (above_none _ [p]); cbn.
  - apply above_all. intros q Hq. rewrite app_assoc in Hs. eapply (by_key_app _ _ p q Hs); set_solver.
  - intros q Hq%list_elem_of_singleton. subst. done.
  - intros q Hq. assert (by_key q p) as H by (eapply (by_key_app _ _ q p Hs); set_solver). unfold by_key in H. lia.
Qed.
Lemma above_above a b l : a <= b -> above b (above a l) = above b l.
Proof. intros Hab. unfold above. rewrite list_filter_filter. apply list_filter_iff. intros p. lia. Qed.
Lemma above_tail after l p rest : StronglySorted by_key l -> above after l = p :: rest -> above p.1 l = rest.
Proof.
  intros Hl Ha. assert (after < p.1) as Hp by (assert (p ∈ above after l) as [_ ?]%elem_of_above by (rewrite Ha; set_solver); done).
  rewrite <-(above_above after p.1) by lia. rewrite Ha. apply (above_last [] p rest). cbn. rewrite <-Ha. by apply above_sorted.
Qed.
End by_key.

(** * Ranges of a map keyed by a name and a sequence *)

Section ranges.
Context {A V : Type} `{Countable A} `{!TotalOrd A}.
Implicit Types (m : gmap (A * Z) V).

(** The range [Excluded((name, after)) .. Included((name, u64::MAX))]. *)
Definition in_range (name : A) (after : Z) (k : A * Z) : Prop :=
  ord_le (name, after) k /\ k <> (name, after) /\ ord_le k (name, u64_max).
#[export] Instance in_range_dec name after k : Decision (in_range name after k).
Proof. unfold in_range. apply _. Defined.

(** What it iterates, each entry by its sequence. *)
Definition range_iter m (name : A) (after : Z) : list (Z * V) :=
  map (fun p => (p.1.2, p.2)) (filter (fun p => in_range name after p.1) (map_iter m)).

Lemma in_range_iff name after k : in_range name after k <-> k.1 = name /\ after < k.2 <= u64_max.
Proof.
  destruct k as [n s]. unfold in_range. cbn. unfold pair_le. cbn. split.
  - intros ([H1 H2] & Hne & [H3 H4]). assert (n = name) as -> by by apply (anti_symm ord_le).
    split; [done|]. specialize (H2 eq_refl). specialize (H4 eq_refl).
    assert (s <> after) by congruence. lia.
  - intros (-> & H1 & H2). split_and!; try done; try lia. intros [= ->]. lia.
Qed.

Lemma elem_of_range_iter m name after s v :
  (s, v) ∈ range_iter m name after <-> m !! (name, s) = Some v /\ after < s <= u64_max.
Proof.
  unfold range_iter. rewrite list_elem_of_fmap. split.
  - intros ([[n s'] v'] & [= -> ->] & Hin). apply list_elem_of_filter in Hin as [Hr Hin].
    apply in_range_iff in Hr as [<- Hr]. by rewrite elem_of_map_iter in Hin.
  - intros [He Hr]. exists ((name, s), v). split; [done|]. apply list_elem_of_filter.
    split; [by apply in_range_iff|by apply elem_of_map_iter].
Qed.

Lemma range_iter_sorted m name after : StronglySorted by_key (range_iter m name after).
Proof.
  unfold range_iter. pose proof (map_iter_sorted m) as Hs.
  apply Sorted_StronglySorted in Hs; [|intros p q r; apply (transitivity (R := ord_le))].
  pose proof (NoDup_map_iter_fst m) as Hn. revert Hs Hn.
  generalize (map_iter m) as ps. induction ps as [|[[n s] e] ps IH]; intros Hs Hn; [constructor|].
  apply StronglySorted_cons in Hs as [Hall Hs]. cbn in Hn. apply NoDup_cons in Hn as [Hx Hn].
  rewrite filter_cons. case_decide as Hr; [|by apply IH]. cbn. constructor; [by apply IH|].
  apply Forall_forall. intros [v e'] Hin. apply list_elem_of_fmap in Hin as ([[n' s'] e''] & [= -> ->] & Hin).
  apply list_elem_of_filter in Hin as [Hr' Hin]. apply in_range_iff in Hr as [Hn1 _], Hr' as [Hn2 _].
  cbn in Hn1, Hn2. subst. rewrite Forall_forall in Hall. destruct (Hall _ Hin) as [_ Hle].
  specialize (Hle eq_refl). cbn in Hle. unfold by_key. cbn.
  assert (s' <> s); [|lia]. intros ->. apply Hx. by apply (list_elem_of_fmap_2 fst _ _ Hin).
Qed.

(** A list in sequence order with the range's entries is the range. *)
Lemma range_iter_unique m name after l :
  StronglySorted by_key l -> (forall s v, (s, v) ∈ l <-> m !! (name, s) = Some v /\ after < s <= u64_max) -> l = range_iter m name after.
Proof.
  intros Hs He. apply by_key_unique; [done|apply range_iter_sorted|]. intros [s v]. by rewrite He, elem_of_range_iter.
Qed.

(** An entry above the others of its name goes last, and into no other range. *)
Lemma range_iter_insert m name s v name' after : after < s <= u64_max ->
  (forall s' v', m !! (name, s') = Some v' -> s' < s) ->
  range_iter (<[(name, s) := v]> m) name' after =
  range_iter m name' after ++ (if bool_decide (name' = name) then [(s, v)] else []).
Proof.
  intros Hs Hm. symmetry. apply range_iter_unique.
  - case_bool_decide; [|rewrite app_nil_r; apply range_iter_sorted]. apply by_key_snoc; [apply range_iter_sorted|].
    intros [s' v'] [Hin _]%elem_of_range_iter. subst. by apply Hm in Hin.
  - intros s' v'. rewrite elem_of_app, elem_of_range_iter, lookup_insert_Some. split.
    + intros [[Hin Hr]|Hin].
      * split; [|done]. right. split; [|done]. intros [= <- <-]. apply Hm in Hin. lia.
      * case_bool_decide as Hn; [|by apply not_elem_of_nil in Hin]. apply list_elem_of_singleton in Hin as [= -> ->].
        subst name'. split; [by left|done].
    + intros [[[[= <- <-] <-]|[Hne Hin]] Hr]; [right|by left]. rewrite bool_decide_eq_true_2 by done. set_solver.
Qed.
Lemma range_iter_delete m name s name' after :
  range_iter (delete (name, s) m) name' after = filter (fun p => ~ (name' = name /\ p.1 = s)) (range_iter m name' after).
Proof.
  symmetry. apply range_iter_unique; [apply by_key_filter, range_iter_sorted|].
  intros s' v'. rewrite list_elem_of_filter, elem_of_range_iter, lookup_delete_Some. cbn. naive_solver.
Qed.
End ranges.

(** The entries of a map keyed by a sequence, in order. *)
Lemma map_iter_by_key {V} (m : gmap Z V) : StronglySorted by_key (map_iter m).
Proof.
  pose proof (map_iter_sorted m) as Hs. apply Sorted_StronglySorted in Hs; [|intros p q r; apply (transitivity (R := ord_le))].
  pose proof (NoDup_map_iter_fst m) as Hn. induction Hs as [|p l Hs IH Hall]; [constructor|].
  cbn in Hn. apply NoDup_cons in Hn as [Hx Hn]. constructor; [by apply IH|]. rewrite Forall_forall in *.
  intros q Hq. pose proof (Hall q Hq) as Hle. unfold key_le in Hle. cbn in Hle. unfold by_key.
  assert (p.1 <> q.1); [|lia]. intros Heq. apply Hx. rewrite Heq. by apply list_elem_of_fmap_2.
Qed.
Lemma map_iter_insert_last {V} (m : gmap Z V) s v : (forall s' v', m !! s' = Some v' -> s' < s) ->
  map_iter (<[s := v]> m) = map_iter m ++ [(s, v)].
Proof.
  intros Hm. apply by_key_unique; [apply map_iter_by_key| |].
  - apply by_key_snoc; [apply map_iter_by_key|]. intros [s' v'] Hq%elem_of_map_iter. by apply Hm in Hq.
  - intros [s' v']. rewrite elem_of_map_iter, elem_of_app, elem_of_map_iter, list_elem_of_singleton, lookup_insert_Some. split.
    + intros [[-> ->]|[_ Hin]]; auto.
    + intros [Hin|[= -> ->]]; [right|by left]. split; [|done]. intros <-. apply Hm in Hin. lia.
Qed.

(** * Sums over a map *)

Section sums.
Context {K V : Type} `{Countable K}.

Definition map_sum (f : K -> V -> Z) (m : gmap K V) : Z := map_fold (fun k v acc => f k v + acc) 0 m.

Lemma map_sum_empty f : map_sum f ∅ = 0.
Proof. done. Qed.
Lemma map_sum_insert f m k v : m !! k = None -> map_sum f (<[k := v]> m) = f k v + map_sum f m.
Proof. intros Hk. unfold map_sum. rewrite map_fold_insert_L; [done| |done]. intros; lia. Qed.
Lemma map_sum_delete f m k v : m !! k = Some v -> map_sum f m = f k v + map_sum f (delete k m).
Proof. intros Hk. rewrite <-(insert_delete_id m k v) at 1 by done. by rewrite map_sum_insert by apply lookup_delete_eq. Qed.
Lemma map_sum_update f m k v : map_sum f (<[k := v]> m) = f k v + map_sum f m - from_option (f k) 0 (m !! k).
Proof.
  destruct (m !! k) as [w|] eqn:Hk; cbn; [|rewrite map_sum_insert by done; lia].
  rewrite <-insert_delete_eq, map_sum_insert by apply lookup_delete_eq. rewrite (map_sum_delete f m k w) by done. lia.
Qed.
Lemma map_sum_remove f m k : map_sum f (delete k m) = map_sum f m - from_option (f k) 0 (m !! k).
Proof.
  destruct (m !! k) as [w|] eqn:Hk; cbn; [rewrite (map_sum_delete f m k w) by done; lia|]. rewrite delete_id by done. lia.
Qed.
Lemma map_sum_ext f g m : (forall k v, m !! k = Some v -> f k v = g k v) -> map_sum f m = map_sum g m.
Proof.
  revert f g. induction m as [|k v m Hk IH] using map_ind; intros f g Hfg; [done|]. rewrite !map_sum_insert by done.
  rewrite (Hfg k v) by apply lookup_insert_eq. f_equal. apply IH. intros k' v' Hm. apply Hfg.
  rewrite lookup_insert_ne; [done|]. intros ->. congruence.
Qed.
Lemma map_sum_fmap {W} (g : W -> V) f (m : gmap K W) : map_sum f (g <$> m) = map_fold (fun k w acc => f k (g w) + acc) 0 m.
Proof. unfold map_sum. by rewrite map_fold_fmap. Qed.
Lemma map_sum_nonneg f m : (forall k v, m !! k = Some v -> 0 <= f k v) -> 0 <= map_sum f m.
Proof.
  induction m as [|k v m Hk IH] using map_ind; intros Hf; [done|]. rewrite map_sum_insert by done.
  pose proof (Hf k v (lookup_insert_eq m k v)). assert (0 <= map_sum f m); [|lia]. apply IH. intros k' v' Hm. apply (Hf k').
  rewrite lookup_insert_ne; [done|]. intros ->. congruence.
Qed.
Lemma map_sum_le f m k v : (forall k v, m !! k = Some v -> 0 <= f k v) -> m !! k = Some v -> f k v <= map_sum f m.
Proof.
  intros Hf Hk. rewrite (map_sum_delete f m k v Hk). assert (0 <= map_sum f (delete k m)); [|lia]. apply map_sum_nonneg.
  intros k' v' [_ Hm]%lookup_delete_Some. by eapply Hf.
Qed.
End sums.

(** Maps whose entries come to the same at every key have the same sum. *)
Lemma map_sum_agree {K V W} `{Countable K} (f : K -> V -> Z) (g : K -> W -> Z) (m1 : gmap K V) (m2 : gmap K W) :
  (forall k, from_option (f k) 0 (m1 !! k) = from_option (g k) 0 (m2 !! k)) -> map_sum f m1 = map_sum g m2.
Proof.
  assert (forall m : gmap K W, (forall k, from_option (g k) 0 (m !! k) = 0) -> map_sum g m = 0) as Hz.
  { induction m as [|k v m Hk IH] using map_ind; intros Hf; [done|]. rewrite map_sum_insert by done.
    rewrite IH; [specialize (Hf k); rewrite lookup_insert_eq in Hf; cbn in Hf; lia|]. intros k'. specialize (Hf k').
    destruct (decide (k' = k)) as [->|Hne]; [by rewrite Hk|]. by rewrite lookup_insert_ne in Hf. }
  revert m2. induction m1 as [|k v m1 Hk IH] using map_ind; intros m2 Hfg; [symmetry; apply Hz; intros k; by rewrite <-Hfg, lookup_empty|].
  rewrite map_sum_insert by done. rewrite (IH (delete k m2)).
  - rewrite map_sum_remove, <-(Hfg k), lookup_insert_eq. cbn. lia.
  - intros k'. destruct (decide (k' = k)) as [->|Hne]; [by rewrite Hk, lookup_delete_eq|]. rewrite lookup_delete_ne by done.
    rewrite <-Hfg, lookup_insert_ne by done. done.
Qed.
