(* ===== verification/Schema.v ===== *)
(** The value types of [crates/flotilla-schema] the state-machine engine is
    built on: timestamps ([time.rs]), append-only records ([records.rs]),
    materialised states ([state.rs]), edge events ([history.rs]), references
    ([reference.rs]) and frozen documents ([frozen.rs]); and addresses
    ([crates/flotilla-address]), whose identity is their canonical text. *)

From S2P Require Import Prelude.

(** * Time: microseconds in an [i64] *)

Abbreviation Timestamp := Z (only parsing).

Definition ts_saturating_add (t micros : Timestamp) : Timestamp := i64_saturating_add t micros.

Definition ts_since (t earlier : Timestamp) : Z := i64_saturating_sub t earlier.

(** In range the two are inverse, as [arithmetic_saturates_and_since_inverts_add] samples. *)
Lemma ts_since_add t d : is_i64 t -> is_i64 d -> is_i64 (t + d) -> ts_since (ts_saturating_add t d) t = d.
Proof. unfold ts_since, ts_saturating_add. unfold_ints. lia. Qed.

Lemma ts_saturating_add_range t d : is_i64 (ts_saturating_add t d).
Proof. unfold ts_saturating_add. unfold_ints. lia. Qed.

(** * Addresses, references, frozen documents *)

(** An [Address] compares, orders and hashes by its canonical text. *)
Record Address : Type := mkAddress { address_text : string }.

#[export] Instance Address_eq_dec : EqDecision Address.
Proof. solve_decision. Defined.
#[export] Instance Address_countable : Countable Address.
Proof. apply (inj_countable' address_text mkAddress). by intros []. Defined.
#[export] Instance address_text_inj : Inj (=) (=) address_text.
Proof. by intros [a] [b] [= ->]. Qed.
#[export] Instance Address_ord : TotalOrd Address := ord_by address_text.

(** [flotilla_address::Condition], by its canonical text: printing it is
    injective, and the engine only prints and compares conditions. *)
Record Condition : Type := mkCondition { condition_text : string }.

#[export] Instance Condition_eq_dec : EqDecision Condition.
Proof. solve_decision. Defined.

(** A reference to a stored resource: its name and home; the kind is the type's. *)
Record SRef : Type := mkSRef { sref_name : string; sref_home : string }.

#[export] Instance SRef_eq_dec : EqDecision SRef.
Proof. solve_decision. Defined.
#[export] Instance SRef_countable : Countable SRef.
Proof.
  apply (inj_countable' (fun r => (sref_name r, sref_home r)) (fun p => mkSRef p.1 p.2)).
  by intros [].
Defined.

(** A frozen document and the content hash it compares by. *)
Record Frozen (T : Type) : Type := mkFrozen { frozen_hash : string; frozen_value : T }.
Arguments mkFrozen {T}.
Arguments frozen_hash {T}.
Arguments frozen_value {T}.

(** * Materialised state *)

(** A state value and the time its label was entered. *)
Record State (E : Type) : Type := mkState { value : E; since : Timestamp }.
Arguments mkState {E}.
Arguments value {E}.
Arguments since {E}.

(** * Edge events *)

Record EdgeEvent (L K P : Type) : Type := mkEdgeEvent {
  ev_edge : K;
  ev_from : L;
  ev_to : L;
  ev_at : Timestamp;
  ev_arguments : P;
}.
Arguments mkEdgeEvent {L K P}.
Arguments ev_edge {L K P}.
Arguments ev_from {L K P}.
Arguments ev_to {L K P}.
Arguments ev_at {L K P}.
Arguments ev_arguments {L K P}.

(** * Records *)

(** A row's position: a [u32], as the index of the row in its table. *)
Record RecordRow (R : Type) : Type := mkRow { position : Z; row_version : Z; record : R }.
Arguments mkRow {R}.
Arguments position {R}.
Arguments row_version {R}.
Arguments record {R}.

Record Records (R : Type) : Type := mkRecords { rows : list (RecordRow R) }.
Arguments mkRecords {R}.
Arguments rows {R}.

(** Every position of a record table is taken. *)
Inductive RecordsFull : Type := records_full.

Section records.
Context {R : Type}.

Definition records_new : Records R := mkRecords [].

(** [Records::append]: refuses once every [u32] position is taken. *)
Definition records_append (r : Records R) (version : Z) (x : R) : result RecordsFull (Records R) :=
  match u32_try_from (length (rows r)) with
  | None => Err records_full
  | Some pos => Ok (mkRecords (rows r ++ [mkRow pos version x]))
  end.

(** [Records::restamp]. *)
Definition records_restamp (r : Records R) (version : Z) : Records R :=
  mkRecords (map (fun row => mkRow (position row) version (record row)) (rows r)).

Definition records_is_full (r : Records R) : bool :=
  match u32_try_from (length (rows r)) with Some _ => false | None => true end.

Definition records_len (r : Records R) : nat := length (rows r).
Definition records_is_empty (r : Records R) : bool := bool_decide (records_len r = 0)%nat.

(** [Records::get]: the row at an index. *)
Definition records_get (r : Records R) (pos : Z) : option (RecordRow R) := rows r !! Z.to_nat pos.

(** [Records::get_mut] followed by an assignment: the record at [pos]
    replaced by [f] of it, its position and stamp kept; no row, no change. *)
Definition records_alter (r : Records R) (pos : Z) (f : R -> R) : Records R :=
  mkRecords (alter (fun row => mkRow (position row) (row_version row) (f (record row)))
    (Z.to_nat pos) (rows r)).

(** [Deserialize for Records]: refuses positions that are not dense. *)
Definition records_deserialize (l : list (RecordRow R)) : option (Records R) :=
  if forallb (fun p => bool_decide (position p.2 = Z.of_nat p.1)) (imap pair l)
  then Some (mkRecords l) else None.

(** The records without their positions and stamps, in order. *)
Definition values (r : Records R) : list R := map record (rows r).

(** Positions are dense, starting at zero, and fit a [u32]. *)
Definition dense (r : Records R) : Prop :=
  (forall i row, rows r !! i = Some row -> position row = Z.of_nat i) /\
  Z.of_nat (length (rows r)) <= u32_max + 1.

Lemma dense_new : dense records_new.
Proof. split; [done|]. cbn. unfold u32_max. lia. Qed.

Lemma append_dense r v x r' : dense r -> records_append r v x = Ok r' -> dense r'.
Proof.
  unfold records_append, u32_try_from. intros [Hd Hl] H. case_decide; [|done]. simplify_eq/=.
  split; cbn.
  - intros i row Hi. apply lookup_app_Some in Hi as [Hi|[Hge Hi]]; [by apply Hd|].
    apply list_lookup_singleton_Some in Hi as [Hi <-]. cbn. lia.
  - rewrite length_app. cbn. lia.
Qed.

Lemma alter_dense r pos f : dense r -> dense (records_alter r pos f).
Proof.
  intros [Hd Hl]. split; cbn; [|by rewrite length_alter].
  intros i row Hi. rewrite list_lookup_alter in Hi. destruct (decide _) as [<-|]; [|by apply Hd].
  apply fmap_Some in Hi as (row' & Hi & ->). cbn. by apply Hd.
Qed.

(** A table refuses exactly when it is full, and then holds [2^32] rows. *)
Lemma append_refuses_iff r v x : records_append r v x = Err records_full <-> records_is_full r = true.
Proof. unfold records_append, records_is_full. destruct (u32_try_from _); split; congruence. Qed.

Lemma append_values r v x r' : records_append r v x = Ok r' -> values r' = values r ++ [x].
Proof.
  unfold records_append, values. intros H. destruct (u32_try_from _); simplify_eq/=.
  by rewrite map_app.
Qed.

(** What [Serialize] writes, [Deserialize] reads back. *)
Lemma deserialize_dense r : dense r -> records_deserialize (rows r) = Some r.
Proof.
  intros [Hd _]. unfold records_deserialize. destruct r as [l]. cbn in *.
  enough (forallb (fun p : nat * RecordRow R => bool_decide (position p.2 = Z.of_nat p.1)) (imap pair l) = true) as -> by done.
  apply forallb_forall. intros [i row] Hin. apply list_elem_of_In, elem_of_lookup_imap in Hin as (j & row' & [= -> ->] & Hj).
  cbn. apply bool_decide_eq_true. by apply Hd.
Qed.
End records.

#[export] Hint Resolve dense_new append_dense alter_dense : flotilla.

(** * Properties *)

(** appending to a dense record table either adds the record at the next
    position, keeping the table dense and readable back from its rows, or
    refuses, exactly when all 2^32 positions are taken. *)
Theorem records_append_total {R} (r : Records R) v x : dense r ->
  match records_append r v x with
  | Ok r' => dense r' /\ values r' = values r ++ [x] /\ records_deserialize (rows r') = Some r'
  | Err _ => Z.of_nat (records_len r) = u32_max + 1
  end.
Proof.
  intros Hd. destruct (records_append r v x) as [r'|] eqn:Ha.
  - assert (dense r') by by eapply append_dense. split; [done|]. split; [by eapply append_values|by apply deserialize_dense].
  - unfold records_append, u32_try_from in Ha. case_decide as Hlen; [done|]. destruct Hd as [_ Hd].
    unfold records_len. unfold u32_max in *. lia.
Qed.

Lemma one_row_dense : dense (mkRecords [mkRow 0 7 "a"]).
Proof. split; [|cbn; unfold u32_max; lia]. intros [|i] row Hi; cbn in Hi; [by injection Hi as <-|done]. Qed.

Lemma records_append_total_witness :
  dense (mkRecords [mkRow 0 7 "a"; mkRow 1 8 "b"]) /\
  records_deserialize [mkRow 0 7 "a"; mkRow 1 8 "b"] = Some (mkRecords [mkRow 0 7 "a"; mkRow 1 8 "b"]).
Proof.
  destruct (records_append_total (mkRecords [mkRow 0 7 "a"]) 8 "b" one_row_dense) as (Hd & _ & Hs).
  split; [exact Hd|exact Hs].
Defined.

(** reading a stored table back refuses rows whose positions are not
    [0, 1, 2, ...] and otherwise returns the rows unchanged. *)
Theorem records_deserialize_iff {R} (l : list (RecordRow R)) r :
  records_deserialize l = Some r <-> rows r = l /\ forall i row, l !! i = Some row -> position row = Z.of_nat i.
Proof.
  unfold records_deserialize. destruct (forallb _ _) eqn:Hb.
  - rewrite forallb_elem in Hb. split.
    + intros [= <-]. split; [done|]. intros i row Hi. specialize (Hb (i, row)). cbn in Hb. apply (bool_decide_eq_true_1 _), Hb.
      apply elem_of_lookup_imap. eauto.
    + intros [<- _]. by destruct r.
  - apply forallb_false in Hb as ([i row] & Hin & Hp). apply elem_of_lookup_imap in Hin as (j & row' & [= -> ->] & Hj).
    apply bool_decide_eq_false in Hp. split; [done|]. intros [_ H]. by destruct Hp; apply H.
Qed.
