(* ===== verification/Read.v ===== *)
(** Typed reads ([crates/flotilla-state-machines/src/read.rs]): references,
    versions, the sources that serve them, the in-memory [Table], and what a
    recorded read and a judgement hold. *)

From S2P Require Import Prelude Schema.

(** * References and kinds *)

(** A version at a home: a [u64]. *)
Abbreviation Version := Z (only parsing).

(** A typed reference: the name alone, the kind is the type's. *)
Record Ref (K : Type) : Type := mkRef { ref_name : string }.
Arguments mkRef {K}.
Arguments ref_name {K}.

#[export] Instance Ref_eq_dec {K} : EqDecision (Ref K).
Proof. solve_decision. Defined.
#[export] Instance Ref_countable {K} : Countable (Ref K).
Proof. apply (inj_countable' ref_name mkRef). by intros []. Defined.
#[export] Instance ref_name_inj {K} : Inj (=) (=) (@ref_name K).
Proof. by intros [a] [b] [= ->]. Qed.
#[export] Instance Ref_ord {K} : TotalOrd (Ref K) := ord_by ref_name.

(** Something a gate or judgement can read. *)
Class Kind (K : Type) : Type := {
  kind_NAME : string;
  kind_Value : Type;
}.
Arguments kind_NAME K {_}.
Arguments kind_Value K {_}.

(** Serves typed reads of kind [K] from the home's local, versioned state. *)
Class Source (W K : Type) `{Kind K} : Type :=
  source_lookup : W -> Ref K -> option (Version * kind_Value K).

(** The value a lookup finds, without its version. *)
Definition seen {W K} `{Kind K, !Source W K} (w : W) (reference : Ref K) : option (kind_Value K) :=
  snd <$> source_lookup w reference.
#[global] Arguments seen : simpl never.

(** [Version::next], which saturates. *)
Definition version_next (v : Version) : Version := u64_saturating_add v 1.

(** * The in-memory table *)

Record Table (K : Type) `{Kind K} : Type := mkTable {
  table_rows : gmap string (Version * kind_Value K);
  table_clock : Version;
}.
Arguments mkTable {K _}.
Arguments table_rows {K _}.
Arguments table_clock {K _}.

Section table.
Context {K : Type} `{Kind K}.

Definition table_new : Table K := mkTable ∅ 0.

(** [Table::select]: only the declared read set, versions preserved. *)
Definition table_select (t : Table K) (names : list string) : Table K :=
  mkTable
    (list_to_map (omap (fun n => (fun row => (n, row)) <$> table_rows t !! n) names))
    (table_clock t).

(** [Table::put]: the version given is newer than any issued. *)
Definition table_put (t : Table K) (reference : Ref K) (v : kind_Value K) : Version * Table K :=
  let clock := version_next (table_clock t) in
  (clock, mkTable (<[ref_name reference := (clock, v)]> (table_rows t)) clock).

(** [Table::put_at]: as read at [version] from its own source. *)
Definition table_put_at (t : Table K) (reference : Ref K) (v : kind_Value K) (version : Version) : Table K :=
  mkTable (<[ref_name reference := (version, v)]> (table_rows t)) (Z.max (table_clock t) version).

Definition table_remove (t : Table K) (reference : Ref K) : option (kind_Value K) * Table K :=
  (snd <$> table_rows t !! ref_name reference,
   mkTable (delete (ref_name reference) (table_rows t)) (table_clock t)).

Definition table_lookup (t : Table K) (reference : Ref K) : option (Version * kind_Value K) :=
  table_rows t !! ref_name reference.

(** No row is newer than the clock. *)
Definition table_ok (t : Table K) : Prop :=
  is_u64 (table_clock t) /\
  forall n version v, table_rows t !! n = Some (version, v) -> 0 <= version <= table_clock t.

Lemma table_ok_new : table_ok table_new.
Proof. split; [unfold_ints; cbn; lia|]. intros n version v Hn. cbn in Hn. by rewrite lookup_empty in Hn. Qed.

Lemma table_put_ok t r v : table_ok t -> table_ok (table_put t r v).2.
Proof.
  intros [Hc Ht]. unfold table_put, version_next. split; cbn.
  - unfold_ints. lia.
  - intros n version w Hn. apply lookup_insert_Some in Hn as [[_ [= <- <-]]|[_ Hn]].
    + unfold_ints. lia.
    + apply Ht in Hn. unfold_ints. lia.
Qed.

Lemma table_put_at_ok t r v version : is_u64 version -> table_ok t -> table_ok (table_put_at t r v version).
Proof.
  intros Hv [Hc Ht]. unfold table_put_at. split; cbn.
  - unfold_ints. lia.
  - intros n version' w Hn. apply lookup_insert_Some in Hn as [[_ [= <- <-]]|[_ Hn]].
    + unfold_ints. lia.
    + apply Ht in Hn. lia.
Qed.

Lemma table_remove_ok t r : table_ok t -> table_ok (table_remove t r).2.
Proof.
  intros [Hc Ht]. split; cbn; [done|]. intros n version w Hn.
  apply lookup_delete_Some in Hn as [_ Hn]. by apply Ht in Hn.
Qed.

(** A fresh version is newer than every row's, short of [u64::MAX]. *)
Lemma table_put_newer t r v n version w :
  table_ok t -> table_clock t < u64_max ->
  table_rows t !! n = Some (version, w) -> version < (table_put t r v).1.
Proof. intros [_ Ht] Hlt Hn. apply Ht in Hn. cbn. unfold version_next. unfold_ints. lia. Qed.

(** A selected table serves exactly the declared names, at the same versions. *)
Lemma table_select_lookup t names (r : Ref K) :
  table_lookup (table_select t names) r =
  if bool_decide (ref_name r ∈ names) then table_lookup t r else None.
Proof.
  unfold table_lookup, table_select. cbn. generalize (ref_name r) as n. intros n.
  induction names as [|m names IH]; [done|]. cbn [omap list_omap].
  destruct (table_rows t !! m) as [row|] eqn:Hm; cbn [fmap option_fmap option_map].
  - rewrite list_to_map_cons, lookup_insert. destruct (decide (m = n)) as [->|Hne]; cbn.
    + rewrite bool_decide_eq_true_2 by set_solver. by rewrite Hm.
    + rewrite IH. repeat case_bool_decide; set_solver.
  - rewrite IH. repeat case_bool_decide; set_solver.
Qed.
End table.

#[export] Hint Resolve table_ok_new table_put_ok table_put_at_ok table_remove_ok : flotilla.

#[export] Instance table_source {K} `{Kind K} : Source (Table K) K := table_lookup.

(** * Recorded reads and judgements *)

(** One recorded read: what was read and the version seen, or an absence. *)
Record InputRead : Type := mkInputRead {
  ir_kind : string;
  ir_name : string;
  ir_version : option Version;
}.

#[export] Instance InputRead_eq_dec : EqDecision InputRead.
Proof. solve_decision. Defined.

(** The read a lookup of [reference] in [w] records. *)
Definition input_read {W K} `{Kind K, !Source W K} (w : W) (reference : Ref K) : InputRead :=
  mkInputRead (kind_NAME K) (ref_name reference) (fst <$> source_lookup w reference).

(** Recording is idempotent: a gate and an effect reading the same value at
    the same version relied on one input. *)
Definition record_read (reads : list InputRead) (r : InputRead) : list InputRead :=
  if bool_decide (r ∈ reads) then reads else reads ++ [r].

Lemma record_read_NoDup reads r : NoDup reads -> NoDup (record_read reads r).
Proof.
  intros H. unfold record_read. case_bool_decide; [done|].
  apply NoDup_app. repeat split; [done|set_solver|apply NoDup_singleton].
Qed.

Lemma elem_of_record_read x reads r : x ∈ record_read reads r <-> x ∈ reads \/ x = r.
Proof. unfold record_read. case_bool_decide; set_solver. Qed.

(** A judgement's value, when it could next change by time alone, and the
    reads it depended on. *)
Record Judged (T : Type) : Type := mkJudged {
  j_value : T;
  j_valid_until : option Timestamp;
  j_reads : list InputRead;
}.
Arguments mkJudged {T}.
Arguments j_value {T}.
Arguments j_valid_until {T}.
Arguments j_reads {T}.

(** * Properties *)

(** a put into a memory table is read back, at a version above every
    version the table held, and leaves every other reference as it was; the
    table stays well-formed. *)
Theorem table_put_spec {K} `{Kind K} (t : Table K) (r : Ref K) v : table_ok t -> table_clock t < u64_max ->
  let '(version, t') := table_put t r v in
  table_ok t' /\ table_lookup t' r = Some (version, v) /\
  (forall r', r' <> r -> table_lookup t' r' = table_lookup t r') /\
  (forall r' old x, table_lookup t r' = Some (old, x) -> old < version).
Proof.
  intros Hok Hc. pose proof (table_put_ok t r v Hok) as Hok'. cbn in Hok' |- *. split; [done|]. unfold table_lookup. cbn.
  split; [apply lookup_insert_eq|]. split.
  - intros r' Hne. apply lookup_insert_ne. intros Heq. apply Hne. symmetry. by apply (inj ref_name).
  - intros r' old x Hl. by eapply (table_put_newer t r v).
Qed.

Inductive SampleKind : Type := .
#[export] Instance sample_kind : Kind SampleKind := {| kind_NAME := "sample"; kind_Value := bool |}.

Lemma table_put_spec_witness :
  table_lookup (table_put (table_put (table_new (K := SampleKind)) (mkRef "a") true).2 (mkRef "b") false).2 (mkRef "a") = Some (1, true).
Proof.
  pose proof (table_put_spec (table_put (table_new (K := SampleKind)) (mkRef "a") true).2 (mkRef "b") false) as H.
  destruct H as (_ & _ & Hother & _); [apply table_put_ok, table_ok_new|reflexivity|].
  rewrite Hother by discriminate. reflexivity.
Defined.
