(* ===== verification/Machine.v ===== *)
(** Declaring a machine and taking one pure step
    ([crates/flotilla-state-machines/src/code.rs], [machine.rs], and the
    [Handle] and [Admission] of [read.rs]).

    The [Machine] trait's associated types and the operations its macros derive
    are the record [MachineSig]; its [definition] and [admit] (here [admits]) are the class
    [Machine]. A gate, an effect or a judgement is a state-passing function
    over the recording [Handle]. *)

From S2P Require Import Prelude Schema Read.

(** * Codes and signatures *)

(** A fieldless enum with stable codes: a state label or an edge kind. *)
Class Coded (A : Type) : Type := {
  coded_eq_dec :: EqDecision A;
  coded_ALL : list A;
  coded_name : A -> string;
  coded_code : A -> string;
  coded_complete : forall a, a ∈ coded_ALL;
  coded_NoDup : NoDup coded_ALL;
}.
Arguments coded_ALL A {_}.

(** A write reached a resource in an end state. *)
Record Ended (L : Type) : Type := mkEnded { ended_state : L; ended_reason : string }.
Arguments mkEnded {L}.
Arguments ended_state {L}.
Arguments ended_reason {L}.

(** An edge was attempted from a state it does not leave. *)
Record WrongState (L K : Type) : Type := mkWrongState { ws_state : L; ws_edge : K }.
Arguments mkWrongState {L K}.
Arguments ws_state {L K}.
Arguments ws_edge {L K}.

(** The associated types of a machine, its state value ([StateValue]), its
    edge kinds ([Edge]), its record writes ([RecordWrite]) and the conversions
    of engine refusals. [Datum] is the disjoint sum of the types its data
    have, so that equality on it is [Datum::same]: same type and same value. *)
Record MachineSig : Type := mkMachineSig {
  M_NAME : string;
  Request : Type;
  Spec : Type;
  MState : Type;
  Label : Type;
  Datum : Type;
  Edge : Type;
  EdgeKind : Type;
  Write : Type;
  Refusal : Type;
  World : Type;
  label_coded :: Coded Label;
  kind_coded :: Coded EdgeKind;
  datum_eq_dec :: EqDecision Datum;
  label : MState -> Label;
  data : MState -> list (string * Datum);
  fields : Label -> list string;
  edge_kind : Edge -> EdgeKind;
  write_field : Write -> string;
  write_apply : Write -> Spec -> Version -> result RecordsFull Spec;
  of_ended : Ended Label -> Refusal;
  of_wrong_state : WrongState Label EdgeKind -> Refusal;
}.
#[export] Existing Instance label_coded.
#[export] Existing Instance kind_coded.
#[export] Existing Instance datum_eq_dec.

(** [changed]: the data [next] carries that [previous] lacks or holds with
    another value, as a set of names ([BTreeSet]: in order, without repeats). *)
Definition changed (M : MachineSig) (previous next : MState M) : list string :=
  set_iter (list_to_set (C := gset string)
    (omap (fun nv => if bool_decide (nv ∈ data M previous) then None else Some nv.1) (data M next))).

(** The writes of a machine whose spec holds no records: there are none. *)
Inductive NoRecords : Type := .

Definition no_records_field (w : NoRecords) : string := match w with end.
Definition no_records_apply {S} (w : NoRecords) (_ : S) (_ : Version) : result RecordsFull S := match w with end.

(** * Resources *)

Record Resource (M : MachineSig) : Type := mkResource {
  r_name : string;
  r_spec : Spec M;
  r_state : State (MState M);
  r_version : Version;
}.
Arguments mkResource {M}.
Arguments r_name {M}.
Arguments r_spec {M}.
Arguments r_state {M}.
Arguments r_version {M}.

Definition r_label {M} (r : Resource M) : Label M := label M (value (r_state r)).

Definition with_state {M} (r : Resource M) (s : State (MState M)) : Resource M :=
  mkResource (r_name r) (r_spec r) s (r_version r).
Definition with_spec {M} (r : Resource M) (s : Spec M) : Resource M :=
  mkResource (r_name r) s (r_state r) (r_version r).
Definition with_version {M} (r : Resource M) (v : Version) : Resource M :=
  mkResource (r_name r) (r_spec r) (r_state r) v.

(** * The recording handle *)

Record Handle (M : MachineSig) : Type := mkHandle {
  h_name : string;
  h_spec : Spec M;
  h_state : MState M;
  h_world : World M;
  h_now : Timestamp;
  h_reads : list InputRead;
  h_valid_until : option Timestamp;
  h_writes : list (Write M);
}.
Arguments mkHandle {M}.
Arguments h_name {M}.
Arguments h_spec {M}.
Arguments h_state {M}.
Arguments h_world {M}.
Arguments h_now {M}.
Arguments h_reads {M}.
Arguments h_valid_until {M}.
Arguments h_writes {M}.

(** [Handle::new]: a pure handle, whose name is empty. *)
Definition handle_new {M : MachineSig} (spec : Spec M) (state : MState M) (world : World M) (now : Timestamp) : Handle M :=
  mkHandle EmptyString spec state world now [] None [].

(** [Handle::on]: a handle on a resource. *)
Definition handle_on {M : MachineSig} (r : Resource M) (world : World M) (now : Timestamp) : Handle M :=
  mkHandle (r_name r) (r_spec r) (value (r_state r)) world now [] None [].

(** A computation through the handle, and one that may refuse. *)
Definition HM (M : MachineSig) (A : Type) : Type := Handle M -> A * Handle M.
Definition GM (M : MachineSig) (A : Type) : Type := Handle M -> result (Refusal M) A * Handle M.

Definition hret {M : MachineSig} {A} (a : A) : HM M A := fun h => (a, h).
Definition hbind {M : MachineSig} {A B} (c : HM M A) (f : A -> HM M B) : HM M B := fun h => let (a, h') := c h in f a h'.
Definition gret {M : MachineSig} {A} (a : A) : GM M A := fun h => (Ok a, h).
Definition gbind {M : MachineSig} {A B} (c : GM M A) (f : A -> GM M B) : GM M B := fun h =>
  match c h with (Ok a, h') => f a h' | (Err e, h') => (Err e, h') end.
(** A gate's use of a computation that cannot refuse. *)
Definition glet {M : MachineSig} {A B} (c : HM M A) (f : A -> GM M B) : GM M B := fun h => let (a, h') := c h in f a h'.

Notation "'do!' x := c 'in' f" := (hbind c (fun x => f)) (at level 10, x pattern, f at level 200).
Notation "'let!' x := c 'in' f" := (glet c (fun x => f)) (at level 10, x pattern, f at level 200).
Notation "'try!' x := c 'in' f" := (gbind c (fun x => f)) (at level 10, x pattern, f at level 200).

Definition refuse {M : MachineSig} {A} (r : Refusal M) : GM M A := fun h => (Err r, h).
Arguments refuse {M A} & r.
(** Reads the handle's fixed parts: own name, spec, state and time. *)
Definition ask {M} : HM M (Handle M) := fun h => (h, h).

(** [Handle::read]: records the reference and the version seen, or the absence. *)
Definition h_read {M : MachineSig} {K} `{Kind K, !Source (World M) K} (reference : Ref K) : HM M (option (kind_Value K)) :=
  fun h => (seen (h_world h) reference,
    mkHandle (h_name h) (h_spec h) (h_state h) (h_world h) (h_now h)
      (record_read (h_reads h) (input_read (h_world h) reference)) (h_valid_until h) (h_writes h)).

(** [Handle::until]: the earliest declared moment wins. *)
Definition h_until {M} (moment : Timestamp) : HM M unit :=
  fun h => (tt, mkHandle (h_name h) (h_spec h) (h_state h) (h_world h) (h_now h) (h_reads h)
    (Some (match h_valid_until h with Some current => Z.min current moment | None => moment end)) (h_writes h)).

(** [Handle::write]. *)
Definition h_write {M : MachineSig} (w : Write M) : HM M unit :=
  fun h => (tt, mkHandle (h_name h) (h_spec h) (h_state h) (h_world h) (h_now h) (h_reads h)
    (h_valid_until h) (h_writes h ++ [w])).
Arguments h_write {M} & w.

(** [Handle::judged]. *)
Definition h_judged {M T} (h : Handle M) (v : T) : Judged T := mkJudged v (h_valid_until h) (h_reads h).

(** * The recording admission handle *)

Record Admission (M : MachineSig) : Type := mkAdmission {
  ad_world : World M;
  ad_now : Timestamp;
  ad_reads : list InputRead;
}.
Arguments mkAdmission {M}.
Arguments ad_world {M}.
Arguments ad_now {M}.
Arguments ad_reads {M}.

Definition AM (M : MachineSig) (A : Type) : Type := Admission M -> result (Refusal M) A * Admission M.
Definition aret {M : MachineSig} {A} (a : A) : AM M A := fun h => (Ok a, h).
Definition abind {M : MachineSig} {A B} (c : AM M A) (f : A -> AM M B) : AM M B := fun h =>
  match c h with (Ok a, h') => f a h' | (Err e, h') => (Err e, h') end.
Notation "'adm!' x := c 'in' f" := (abind c (fun x => f)) (at level 10, x pattern, f at level 200).
Definition a_refuse {M : MachineSig} {A} (r : Refusal M) : AM M A := fun a => (Err r, a).
Arguments a_refuse {M A} & r.
Definition a_now {M : MachineSig} : AM M Timestamp := fun a => (Ok (ad_now a), a).

(** [Admission::read]. *)
Definition a_read {M : MachineSig} {K} `{Kind K, !Source (World M) K} (reference : Ref K) : AM M (option (kind_Value K)) :=
  fun a => (Ok (seen (ad_world a) reference),
    mkAdmission (ad_world a) (ad_now a) (record_read (ad_reads a) (input_read (ad_world a) reference))).

(** * Declaring edges *)

(** What an edge checks before it moves. *)
Inductive Check (M : MachineSig) : Type :=
| CheckGate (doc : string) (gate : Edge M -> HM M (option (result (Refusal M) unit)))
| CheckUngated (reason : string).
Arguments CheckGate {M}.
Arguments CheckUngated {M}.

(** The argument struct of exactly one edge variant. *)
Class EdgeArg (M : MachineSig) (A : Type) : Type := {
  arg_KIND : EdgeKind M;
  arg_project : Edge M -> option A;
  arg_into : A -> Edge M;
  arg_project_kind : forall e a, arg_project e = Some a -> edge_kind M e = arg_KIND;
  arg_kind_project : forall e, edge_kind M e = arg_KIND -> is_Some (arg_project e);
  arg_into_project : forall a, arg_project (arg_into a) = Some a;
}.
Arguments arg_KIND {M} A {_}.
Arguments arg_project {M A _}.
Arguments arg_into {M A _}.

(** One edge under construction, typed on its argument struct. *)
Record EdgeDef (M : MachineSig) (A : Type) : Type := mkEdgeDef {
  ed_from : list (Label M);
  ed_to : list (Label M);
  ed_changes : list string;
  ed_writes : list string;
  ed_check : option (Check M);
  ed_effect : option (MState M -> Edge M -> HM M (option (MState M)));
  ed_master : option (Edge M -> option string);
}.
Arguments mkEdgeDef {M A}.
Arguments ed_from {M A}.
Arguments ed_to {M A}.
Arguments ed_changes {M A}.
Arguments ed_writes {M A}.
Arguments ed_check {M A}.
Arguments ed_effect {M A}.
Arguments ed_master {M A}.

Section edge_builder.
Context {M : MachineSig} {A : Type} `{!EdgeArg M A}.

Definition edge_new : EdgeDef M A := mkEdgeDef [] [] [] [] None None None.

Definition from (labels : list (Label M)) (d : EdgeDef M A) : EdgeDef M A :=
  mkEdgeDef (ed_from d ++ labels) (ed_to d) (ed_changes d) (ed_writes d) (ed_check d) (ed_effect d) (ed_master d).

Definition to (labels : list (Label M)) (d : EdgeDef M A) : EdgeDef M A :=
  mkEdgeDef (ed_from d) (ed_to d ++ labels) (ed_changes d) (ed_writes d) (ed_check d) (ed_effect d) (ed_master d).

Definition changes (names : list string) (d : EdgeDef M A) : EdgeDef M A :=
  mkEdgeDef (ed_from d) (ed_to d) (ed_changes d ++ names) (ed_writes d) (ed_check d) (ed_effect d) (ed_master d).

Definition writes (names : list string) (d : EdgeDef M A) : EdgeDef M A :=
  mkEdgeDef (ed_from d) (ed_to d) (ed_changes d) (ed_writes d ++ names) (ed_check d) (ed_effect d) (ed_master d).

(** The projection of the edge to its argument; a release build reports a
    projection that misses as [None]. *)
Definition gate (doc : string) (g : A -> GM M unit) (d : EdgeDef M A) : EdgeDef M A :=
  mkEdgeDef (ed_from d) (ed_to d) (ed_changes d) (ed_writes d)
    (Some (CheckGate doc (fun edge h =>
      match arg_project edge with
      | Some a => let (r, h') := g a h in (Some r, h')
      | None => (None, h)
      end)))
    (ed_effect d) (ed_master d).

Definition ungated (reason : string) (d : EdgeDef M A) : EdgeDef M A :=
  mkEdgeDef (ed_from d) (ed_to d) (ed_changes d) (ed_writes d) (Some (CheckUngated reason)) (ed_effect d) (ed_master d).

Definition effect (f : MState M -> A -> HM M (MState M)) (d : EdgeDef M A) : EdgeDef M A :=
  mkEdgeDef (ed_from d) (ed_to d) (ed_changes d) (ed_writes d) (ed_check d)
    (Some (fun state edge h =>
      match arg_project edge with
      | Some a => let (s, h') := f state a h in (Some s, h')
      | None => (None, h)
      end))
    (ed_master d).

Definition about (master : A -> string) (d : EdgeDef M A) : EdgeDef M A :=
  mkEdgeDef (ed_from d) (ed_to d) (ed_changes d) (ed_writes d) (ed_check d) (ed_effect d)
    (Some (fun edge => master <$> arg_project edge)).
End edge_builder.

(** The argument type is known from the edge being declared. *)
Arguments from {M A} & labels d.
Arguments to {M A} & labels d.
Arguments changes {M A} & names d.
Arguments writes {M A} & names d.
Arguments gate {M A _} & doc g d.
Arguments ungated {M A} & reason d.
Arguments effect {M A _} & f d.
Arguments about {M A _} & master d.

(** One declared edge, after its argument type has been checked. *)
Record DeclaredEdge (M : MachineSig) : Type := mkDeclaredEdge {
  de_kind : EdgeKind M;
  de_from : list (Label M);
  de_to : list (Label M);
  de_changes : list string;
  de_writes : list string;
  de_check : option (Check M);
  de_effect : option (MState M -> Edge M -> HM M (option (MState M)));
  de_master : option (Edge M -> option string);
}.
Arguments mkDeclaredEdge {M}.
Arguments de_kind {M}.
Arguments de_from {M}.
Arguments de_to {M}.
Arguments de_changes {M}.
Arguments de_writes {M}.
Arguments de_check {M}.
Arguments de_effect {M}.
Arguments de_master {M}.

(** An end state and the reason shown to anyone whose late write is refused. *)
Record EndDef (L : Type) : Type := mkEndDef { end_state : L; end_doc : string }.
Arguments mkEndDef {L}.
Arguments end_state {L}.
Arguments end_doc {L}.

(** A machine's declaration. [md_by_kind] maps each kind to the index of its
    first declaration. *)
Record MachineDef (M : MachineSig) : Type := mkMachineDef {
  md_initial : Label M;
  md_edges : list (DeclaredEdge M);
  md_ends : list (EndDef (Label M));
  md_by_kind : list (EdgeKind M * nat);
}.
Arguments mkMachineDef {M}.
Arguments md_initial {M}.
Arguments md_edges {M}.
Arguments md_ends {M}.
Arguments md_by_kind {M}.

(** The [Machine] trait's two functions. *)
Class Machine (M : MachineSig) : Type := {
  definition : MachineDef M;
  admits : Request M -> AM M (Spec M * MState M);
}.
Arguments definition M {_}.
Arguments admits {M _}.

Section machine_def.
Context {M : MachineSig}.

Definition def_new (initial : Label M) : MachineDef M := mkMachineDef initial [] [] [].

(** [by_kind.get]. *)
Fixpoint by_kind_get (l : list (EdgeKind M * nat)) (k : EdgeKind M) : option nat :=
  match l with
  | [] => None
  | (k', i) :: l => if bool_decide (k' = k) then Some i else by_kind_get l k
  end.

(** [by_kind.entry(k).or_insert(i)]: the first declaration of a kind wins. *)
Definition by_kind_or_insert (l : list (EdgeKind M * nat)) (k : EdgeKind M) (i : nat) : list (EdgeKind M * nat) :=
  match by_kind_get l k with Some _ => l | None => l ++ [(k, i)] end.

Definition declare_edge {A} `{!EdgeArg M A} (e : EdgeDef M A) : DeclaredEdge M :=
  mkDeclaredEdge (arg_KIND A) (ed_from e) (ed_to e) (ed_changes e) (ed_writes e) (ed_check e) (ed_effect e) (ed_master e).

Definition def_edge {A} `{!EdgeArg M A} (e : EdgeDef M A) (d : MachineDef M) : MachineDef M :=
  mkMachineDef (md_initial d) (md_edges d ++ [declare_edge e]) (md_ends d)
    (by_kind_or_insert (md_by_kind d) (arg_KIND A) (length (md_edges d))).

Definition def_end (state : Label M) (reason : string) (d : MachineDef M) : MachineDef M :=
  mkMachineDef (md_initial d) (md_edges d) (md_ends d ++ [mkEndDef state reason]) (md_by_kind d).

Definition find (d : MachineDef M) (k : EdgeKind M) : option (DeclaredEdge M) :=
  i ← by_kind_get (md_by_kind d) k; md_edges d !! i.

(** The master [edge] names, when its declaration has one. *)
Definition master (d : MachineDef M) (edge : Edge M) : option string :=
  e ← find d (edge_kind M edge); m ← de_master e; m edge.

Definition end_reason (d : MachineDef M) (l : Label M) : option string :=
  end_doc <$> List.find (fun e => bool_decide (end_state e = l)) (md_ends d).

End machine_def.

Arguments def_end {M} & state reason d.

(** Reads like the source's builder chains. *)
Notation "d '|>' f" := (f d) (at level 50, left associativity, only parsing) : flotilla_scope.

(** * One pure step *)

(** A declaration fault found while stepping. *)
Inductive Fault (L K : Type) : Type :=
| FaultUndeclared (edge : K)
| FaultTarget (edge : K) (target : L)
| FaultChanges (edge : K) (names : list string)
| FaultWrites (edge : K) (names : list string)
| FaultInitial (state : L).
Arguments FaultUndeclared {L K}.
Arguments FaultTarget {L K}.
Arguments FaultChanges {L K}.
Arguments FaultWrites {L K}.
Arguments FaultInitial {L K}.

(** Why a pure step did not move. *)
Inductive StepError (M : MachineSig) : Type :=
| Refused (r : Refusal M)
| Faulted (f : Fault (Label M) (EdgeKind M)).
Arguments Refused {M}.
Arguments Faulted {M}.

Section step.
Context {M : MachineSig}.

(** The check of a declared edge: the gate, or nothing for an ungated edge. *)
Definition run_check (c : option (Check M)) (edge : Edge M) (h : Handle M) : result (StepError M) unit * Handle M :=
  let undeclared := Err (Faulted (FaultUndeclared (edge_kind M edge))) in
  match c with
  | None => (undeclared, h)
  | Some (CheckUngated _) => (Ok tt, h)
  | Some (CheckGate _ gate) =>
      match gate edge h with
      | (None, h') => (undeclared, h')
      | (Some (Err r), h') => (Err (Refused r), h')
      | (Some (Ok _), h') => (Ok tt, h')
      end
  end.

Definition run_effect (f : option (MState M -> Edge M -> HM M (option (MState M)))) (state : MState M)
    (edge : Edge M) (h : Handle M) : result (StepError M) (MState M) * Handle M :=
  let undeclared := Err (Faulted (FaultUndeclared (edge_kind M edge))) in
  match f with
  | None => (undeclared, h)
  | Some f => match f state edge h with (None, h') => (undeclared, h') | (Some next, h') => (Ok next, h') end
  end.

(** The names in [names] that are not in [declared]. *)
Definition stray (names declared : list string) : list string :=
  filter (fun n => n ∉ declared) names.

(** The checks of an effect's result against the edge's declaration. *)
Definition check_result (declared : DeclaredEdge M) (kind : EdgeKind M) (state next : MState M) (written : list (Write M)) :
    result (StepError M) (MState M) :=
  match stray (map (write_field M) written) (de_writes declared) with
  | _ :: _ as s => Err (Faulted (FaultWrites kind s))
  | [] =>
      if bool_decide (label M next ∈ de_to declared) then
        match stray (changed M state next) (de_changes declared) with
        | _ :: _ as s => Err (Faulted (FaultChanges kind s))
        | [] => Ok next
        end
      else Err (Faulted (FaultTarget kind (label M next)))
  end.

(** [MachineDef::step]: the end check, the from-label, the gate, the effect,
    then the declared writes, targets and changes. *)
Definition step (d : MachineDef M) (edge : Edge M) (h : Handle M) : result (StepError M) (MState M) * Handle M :=
  let state := h_state h in
  let l := label M state in
  let kind := edge_kind M edge in
  match end_reason d l with
  | Some reason => (Err (Refused (of_ended M (mkEnded l reason))), h)
  | None =>
      match find d kind with
      | None => (Err (Faulted (FaultUndeclared kind)), h)
      | Some declared =>
          if bool_decide (l ∈ de_from declared) then
            let written := length (h_writes h) in
            match run_check (de_check declared) edge h with
            | (Err e, h1) => (Err e, h1)
            | (Ok _, h1) =>
                if bool_decide (length (h_writes h1) = written) then
                  match run_effect (de_effect declared) state edge h1 with
                  | (Err e, h2) => (Err e, h2)
                  | (Ok next, h2) => (check_result declared kind state next (drop written (h_writes h2)), h2)
                  end
                else (Err (Faulted (FaultWrites kind (map (write_field M) (drop written (h_writes h1))))), h1)
            end
          else (Err (Refused (of_wrong_state M (mkWrongState l kind))), h)
      end
  end.

End step.
