(* ===== verification/Validate.v ===== *)
(** [MachineDef::validate] ([machine.rs]): the declaration rules, the errors a
    broken one reports, the reachability worklist, and what acceptance means. *)

From S2P Require Import Prelude Schema Read Machine.
From stdpp Require Import finite.
From Stdlib Require Import Ascii.
#[local] Open Scope Z_scope.

#[export] Program Instance coded_finite {A} `{Coded A} : Finite A := {| enum := coded_ALL A |}.
Next Obligation. intros A ?. apply coded_NoDup. Qed.
Next Obligation. intros A ? x. apply coded_complete. Qed.

(** * Declaration errors *)

Inductive DefError : Type :=
| DuplicateEdge (name : string)
| UndeclaredEdge (name : string)
| NameClash (name : string)
| UngatedEdge (name : string)
| UngatedWithoutReason (name : string)
| EdgeWithoutEffect (name : string)
| EdgeWithoutTarget (name : string)
| EdgeWithoutSource (name : string)
| InertEdge (name : string)
| UnknownData (edge data : string)
| EdgeLeavesEnd (edge end_ : string)
| EndWithoutReason (name : string)
| DuplicateEnd (name : string)
| UnreachableState (name : string)
| DeadState (name : string)
| DuplicateStateCode (code : string)
| DuplicateEdgeCode (code : string).

(** The derived [Ord]: the variant, then its fields in order. *)
Definition def_error_key (e : DefError) : Z * (string * string) :=
  match e with
  | DuplicateEdge n => (0, (n, EmptyString))
  | UndeclaredEdge n => (1, (n, EmptyString))
  | NameClash n => (2, (n, EmptyString))
  | UngatedEdge n => (3, (n, EmptyString))
  | UngatedWithoutReason n => (4, (n, EmptyString))
  | EdgeWithoutEffect n => (5, (n, EmptyString))
  | EdgeWithoutTarget n => (6, (n, EmptyString))
  | EdgeWithoutSource n => (7, (n, EmptyString))
  | InertEdge n => (8, (n, EmptyString))
  | UnknownData n d => (9, (n, d))
  | EdgeLeavesEnd n d => (10, (n, d))
  | EndWithoutReason n => (11, (n, EmptyString))
  | DuplicateEnd n => (12, (n, EmptyString))
  | UnreachableState n => (13, (n, EmptyString))
  | DeadState n => (14, (n, EmptyString))
  | DuplicateStateCode n => (15, (n, EmptyString))
  | DuplicateEdgeCode n => (16, (n, EmptyString))
  end.

#[export] Instance def_error_key_inj : Inj (=) (=) def_error_key.
Proof. intros [] []; cbn; congruence. Qed.
#[export] Instance DefError_eq_dec : EqDecision DefError.
Proof. solve_decision. Defined.
Definition def_error_of_key (k : Z * (string * string)) : option DefError :=
  let '(i, (n, d)) := k in
  match i with
  | 0 => Some (DuplicateEdge n)
  | 1 => Some (UndeclaredEdge n)
  | 2 => Some (NameClash n)
  | 3 => Some (UngatedEdge n)
  | 4 => Some (UngatedWithoutReason n)
  | 5 => Some (EdgeWithoutEffect n)
  | 6 => Some (EdgeWithoutTarget n)
  | 7 => Some (EdgeWithoutSource n)
  | 8 => Some (InertEdge n)
  | 9 => Some (UnknownData n d)
  | 10 => Some (EdgeLeavesEnd n d)
  | 11 => Some (EndWithoutReason n)
  | 12 => Some (DuplicateEnd n)
  | 13 => Some (UnreachableState n)
  | 14 => Some (DeadState n)
  | 15 => Some (DuplicateStateCode n)
  | 16 => Some (DuplicateEdgeCode n)
  | _ => None
  end.
#[export] Instance DefError_countable : Countable DefError.
Proof. apply (inj_countable def_error_key def_error_of_key). by intros []. Defined.
#[export] Instance DefError_ord : TotalOrd DefError := ord_by def_error_key.

(** * Words *)

Definition lower (c : ascii) : ascii :=
  let n := nat_of_ascii c in
  if (Nat.leb 65 n && Nat.leb n 90)%bool then ascii_of_nat (n + 32) else c.

(** Underscores removed, ASCII letters in lower case. *)
Fixpoint squash (s : string) : string :=
  match s with
  | EmptyString => EmptyString
  | String c s => if Ascii.eqb c "_"%char then squash s else String (lower c) (squash s)
  end.

(** [s.trim().is_empty()]: only characters with the Unicode [White_Space]
    property, read from their UTF-8 bytes. *)
Fixpoint blank_bytes (l : list nat) : bool :=
  match l with
  | [] => true
  | 9%nat :: l | 10%nat :: l | 11%nat :: l | 12%nat :: l | 13%nat :: l | 32%nat :: l => blank_bytes l
  | 194%nat :: b :: l => ((b =? 133)%nat || (b =? 160)%nat) && blank_bytes l
  | 225%nat :: b :: c :: l => (b =? 154)%nat && (c =? 128)%nat && blank_bytes l
  | 226%nat :: b :: c :: l =>
      ((b =? 128)%nat && (((128 <=? c)%nat && (c <=? 138)%nat) || (c =? 168)%nat || (c =? 169)%nat || (c =? 175)%nat)
       || (b =? 129)%nat && (c =? 159)%nat) && blank_bytes l
  | 227%nat :: b :: c :: l => (b =? 128)%nat && (c =? 128)%nat && blank_bytes l
  | _ => false
  end%bool.

Definition is_blank (s : string) : bool := blank_bytes (map nat_of_ascii (String.list_ascii_of_string s)).

(** * The declaration rules *)

Section validate.
Context {M : MachineSig}.

(** [if b { errors.insert(e); }]. *)
Definition note (b : bool) (e : DefError) (errors : gset DefError) : gset DefError :=
  if b then {[e]} ∪ errors else errors.

Definition label_words : gset string := list_to_set (map (fun l => squash (coded_name l)) (coded_ALL (Label M))).

Definition note_check (name : string) (c : option (Check M)) (errors : gset DefError) : gset DefError :=
  match c with
  | None => note true (UngatedEdge name) errors
  | Some (CheckUngated reason) => note (is_blank reason) (UngatedWithoutReason name) errors
  | Some (CheckGate _ _) => errors
  end.

(** Neither changes data, writes records nor leaves its label, and names no master. *)
Definition inert (edge : DeclaredEdge M) : bool :=
  bool_decide (de_changes edge = []) && bool_decide (de_writes edge = []) &&
  match de_master edge with None => true | Some _ => false end &&
  bool_decide (de_from edge <> []) && bool_decide (de_to edge <> []) &&
  forallb (fun from => forallb (fun to => bool_decide (from = to)) (de_to edge)) (de_from edge).

Definition unknown_data (edge : DeclaredEdge M) (data : string) : bool :=
  negb (existsb (fun l => bool_decide (data ∈ fields M l)) (de_to edge)).

(** One turn of the loop over the edges: [declared] and [errors] so far. *)
Definition validate_edge (d : MachineDef M) (acc : gset (EdgeKind M) * gset DefError) (edge : DeclaredEdge M) :
    gset (EdgeKind M) * gset DefError :=
  let '(declared, errors) := acc in
  let name := coded_name (de_kind edge) in
  let errors := note (bool_decide (de_kind edge ∈ declared)) (DuplicateEdge name) errors in
  let errors := note (bool_decide (squash name ∈ label_words)) (NameClash name) errors in
  let errors := note_check name (de_check edge) errors in
  let errors := note (match de_effect edge with None => true | Some _ => false end) (EdgeWithoutEffect name) errors in
  let errors := note (bool_decide (de_to edge = [])) (EdgeWithoutTarget name) errors in
  let errors := note (bool_decide (de_from edge = [])) (EdgeWithoutSource name) errors in
  let errors := note (inert edge) (InertEdge name) errors in
  let errors := foldl (fun errors data => note (unknown_data edge data) (UnknownData name data) errors) errors (de_changes edge) in
  let errors := foldl (fun errors e =>
    note (bool_decide (end_state e ∈ de_from edge)) (EdgeLeavesEnd name (coded_name (end_state e))) errors) errors (md_ends d) in
  ({[de_kind edge]} ∪ declared, errors).

Definition validate_end (acc : gset (Label M) * gset DefError) (e : EndDef (Label M)) : gset (Label M) * gset DefError :=
  let '(ends, errors) := acc in
  let errors := note (bool_decide (end_state e ∈ ends)) (DuplicateEnd (coded_name (end_state e))) errors in
  let errors := note (is_blank (end_doc e)) (EndWithoutReason (coded_name (end_state e))) errors in
  ({[end_state e]} ∪ ends, errors).

(** The labels the edges leaving [l] may reach, in declaration order. *)
Definition out (d : MachineDef M) (l : Label M) : list (Label M) :=
  flat_map de_to (filter (fun e => l ∈ de_from e) (md_edges d)).

(** The [while let Some(label) = frontier.pop()] loop. The frontier is kept
    with the end of the [Vec] first. [None]: out of fuel. *)
Fixpoint reach (d : MachineDef M) (fuel : nat) (reached : gset (Label M)) (frontier : list (Label M)) : option (gset (Label M)) :=
  match fuel with
  | O => None
  | S fuel =>
      match frontier with
      | [] => Some reached
      | l :: frontier =>
          if bool_decide (l ∈ reached) then reach d fuel reached frontier
          else reach d fuel ({[l]} ∪ reached) (rev (out d l) ++ frontier)
      end
  end.

(** Each label is expanded once, so the loop pops at most this often. *)
Definition reach_fuel (d : MachineDef M) : nat :=
  2 + sum_list_with (fun l => length (out d l)) (coded_ALL (Label M)).

Definition reached (d : MachineDef M) : gset (Label M) :=
  default ∅ (reach d (reach_fuel d) ∅ [md_initial d]).

Definition validate_label (d : MachineDef M) (reached ends : gset (Label M)) (errors : gset DefError) (l : Label M) : gset DefError :=
  let errors := note (bool_decide (l ∉ reached)) (UnreachableState (coded_name l)) errors in
  note (bool_decide (l ∉ ends) && negb (existsb (fun e => bool_decide (l ∈ de_from e)) (md_edges d)))
    (DeadState (coded_name l)) errors.

(** [if !codes.insert(code) { errors.insert(..) }]. *)
Definition validate_code (mk : string -> DefError) (acc : gset string * gset DefError) (code : string) : gset string * gset DefError :=
  let '(codes, errors) := acc in
  ({[code]} ∪ codes, note (bool_decide (code ∈ codes)) (mk code) errors).

(** Every error of the declaration. *)
Definition def_errors (d : MachineDef M) : gset DefError :=
  let '(declared, errors) := foldl (validate_edge d) (∅, ∅) (md_edges d) in
  let errors := foldl (fun errors k => note (bool_decide (k ∉ declared)) (UndeclaredEdge (coded_name k)) errors)
    errors (coded_ALL (EdgeKind M)) in
  let '(ends, errors) := foldl validate_end (∅, errors) (md_ends d) in
  let errors := foldl (validate_label d (reached d) ends) errors (coded_ALL (Label M)) in
  let errors := (foldl (validate_code DuplicateStateCode) (∅, errors) (map coded_code (coded_ALL (Label M)))).2 in
  (foldl (validate_code DuplicateEdgeCode) (∅, errors) (map coded_code (coded_ALL (EdgeKind M)))).2.

(** [MachineDef::validate]: all violations, sorted. *)
Definition validate (d : MachineDef M) : result (list DefError) unit :=
  let errors := def_errors d in
  if bool_decide (errors = ∅) then Ok tt else Err (set_iter errors).

(** ** The worklist *)

(** One declared move between labels. *)
Definition moves (d : MachineDef M) (a b : Label M) : Prop := b ∈ out d a.

Lemma elem_of_out d a b : b ∈ out d a <-> exists e, e ∈ md_edges d /\ a ∈ de_from e /\ b ∈ de_to e.
Proof.
  unfold out. rewrite list_elem_of_In, in_flat_map. split.
  - intros (e & He & Hb). apply list_elem_of_In, list_elem_of_filter in He as [??].
    exists e. by rewrite (list_elem_of_In (de_to e)).
  - intros (e & ? & ? & ?). exists e. rewrite <-!list_elem_of_In, list_elem_of_filter. auto.
Qed.

(** What the labels not yet reached may still push. *)
Definition unexpanded (d : MachineDef M) (reached : gset (Label M)) (ls : list (Label M)) : nat :=
  sum_list_with (fun l => if bool_decide (l ∈ reached) then 0%nat else length (out d l)) ls.

Lemma unexpanded_cons d s x ls :
  unexpanded d s (x :: ls) = ((if bool_decide (x ∈ s) then 0 else length (out d x)) + unexpanded d s ls)%nat.
Proof. done. Qed.

Lemma unexpanded_notin d s l ls : l ∉ ls -> unexpanded d ({[l]} ∪ s) ls = unexpanded d s ls.
Proof.
  intros Hl. induction ls as [|x ls IH]; [done|]. rewrite !unexpanded_cons, IH by set_solver. f_equal.
  assert (x <> l) by set_solver.
  by assert (bool_decide (x ∈ {[l]} ∪ s) = bool_decide (x ∈ s)) as -> by (apply bool_decide_ext; set_solver).
Qed.

Lemma unexpanded_insert d s l ls :
  NoDup ls -> l ∈ ls -> l ∉ s -> (length (out d l) + unexpanded d ({[l]} ∪ s) ls = unexpanded d s ls)%nat.
Proof.
  intros Hnd Hl Hs. induction Hnd as [|x ls Hx Hnd IH]; [set_solver|]. rewrite !unexpanded_cons.
  apply elem_of_cons in Hl as [<-|Hl].
  - rewrite unexpanded_notin by done. rewrite bool_decide_eq_true_2, bool_decide_eq_false_2 by set_solver. lia.
  - assert (x <> l) by set_solver. specialize (IH Hl).
    assert (bool_decide (x ∈ {[l]} ∪ s) = bool_decide (x ∈ s)) as -> by (apply bool_decide_ext; set_solver). lia.
Qed.

Lemma reach_enough d fuel s fr :
  (length fr + unexpanded d s (coded_ALL (Label M)) < fuel)%nat -> is_Some (reach d fuel s fr).
Proof.
  revert s fr. induction fuel as [|fuel IH]; intros s fr Hf; [lia|]. cbn.
  destruct fr as [|l fr]; [done|]. case_bool_decide as Hl; apply IH.
  - cbn in Hf. lia.
  - rewrite length_app, length_rev.
    pose proof (unexpanded_insert d s l _ coded_NoDup (coded_complete l) Hl). cbn in Hf. lia.
Qed.

Lemma unexpanded_empty d ls : unexpanded d ∅ ls = sum_list_with (fun l => length (out d l)) ls.
Proof. induction ls as [|x ls IH]; [done|]. rewrite unexpanded_cons, IH. by rewrite bool_decide_eq_false_2 by set_solver. Qed.

Lemma reach_returns d : is_Some (reach d (reach_fuel d) ∅ [md_initial d]).
Proof. apply reach_enough. rewrite unexpanded_empty. unfold reach_fuel. cbn [length]. lia. Qed.

Lemma reach_sound d fuel s fr s' x :
  reach d fuel s fr = Some s' -> x ∈ s' -> x ∈ s \/ exists y, y ∈ fr /\ rtc (moves d) y x.
Proof.
  revert s fr. induction fuel as [|fuel IH]; intros s fr H Hx; [done|]. cbn in H.
  destruct fr as [|l fr]; [simplify_eq; by left|]. case_bool_decide as Hl.
  - destruct (IH _ _ H Hx) as [?|(y & ? & ?)]; [by left|]. right. exists y. set_solver.
  - destruct (IH _ _ H Hx) as [Hs|(y & Hy & Hr)].
    + apply elem_of_union in Hs as [Hs|]; [|by left]. apply elem_of_singleton in Hs as ->.
      right. exists l. split; [set_solver|apply rtc_refl].
    + right. apply elem_of_app in Hy as [Hy|Hy]; [|exists y; set_solver].
      exists l. split; [set_solver|]. eapply rtc_l; [|exact Hr].
      unfold moves. rewrite list_elem_of_In in Hy. apply in_rev in Hy. by apply list_elem_of_In.
Qed.

Lemma reach_closed d fuel s fr s' :
  reach d fuel s fr = Some s' ->
  (forall x y, x ∈ s -> moves d x y -> y ∈ s \/ y ∈ fr) ->
  (forall x, x ∈ s \/ x ∈ fr -> x ∈ s') /\ (forall x y, x ∈ s' -> moves d x y -> y ∈ s').
Proof.
  revert s fr. induction fuel as [|fuel IH]; intros s fr H Hinv; [done|]. cbn in H.
  destruct fr as [|l fr].
  - simplify_eq. split; [set_solver|]. intros x y Hx Hm. destruct (Hinv x y Hx Hm); set_solver.
  - case_bool_decide as Hl.
    + destruct (IH _ _ H) as [H1 H2]; [intros x y Hx Hm; destruct (Hinv x y Hx Hm); set_solver|].
      split; [|done]. intros x [?|Hx]; [auto|]. apply elem_of_cons in Hx as [->|]; auto.
    + destruct (IH _ _ H) as [H1 H2].
      * intros x y Hx Hm. apply elem_of_union in Hx as [Hx|Hx].
        -- apply elem_of_singleton in Hx as ->. right. apply elem_of_app. left.
           apply list_elem_of_In, in_rev. rewrite rev_involutive. by apply list_elem_of_In.
        -- destruct (Hinv x y Hx Hm); set_solver.
      * split; [|done]. intros x Hx. apply H1. set_solver.
Qed.

(** The worklist computes the labels reachable from the initial one. *)
Lemma elem_of_reached d l : l ∈ reached d <-> rtc (moves d) (md_initial d) l.
Proof.
  unfold reached. destruct (reach_returns d) as [s Hs]. rewrite Hs. cbn. split.
  - intros Hl. destruct (reach_sound _ _ _ _ _ _ Hs Hl) as [|(y & Hy & Hr)]; [set_solver|].
    apply list_elem_of_singleton in Hy as ->. done.
  - destruct (reach_closed _ _ _ _ _ Hs) as [H1 H2]; [set_solver|].
    assert (md_initial d ∈ s) as Hi by (apply H1; right; set_solver).
    intros Hr. revert Hi. clear -H2 Hr. induction Hr as [|x y z Hxy Hyz IH]; [done|]. intros Hx. apply IH. by eapply H2.
Qed.

(** ** What acceptance means *)

Definition check_stated (c : option (Check M)) : Prop :=
  match c with
  | None => False
  | Some (CheckUngated reason) => is_blank reason = false
  | Some (CheckGate _ _) => True
  end.

(** The rules one edge of [d] keeps. *)
Record edge_ok (d : MachineDef M) (e : DeclaredEdge M) : Prop := mkEdgeOk {
  eo_word : forall l : Label M, squash (coded_name l) <> squash (coded_name (de_kind e));
  eo_check : check_stated (de_check e);
  eo_effect : is_Some (de_effect e);
  eo_to : de_to e <> [];
  eo_from : de_from e <> [];
  eo_acts : de_changes e <> [] \/ de_writes e <> [] \/ is_Some (de_master e) \/
    exists a b, a ∈ de_from e /\ b ∈ de_to e /\ a <> b;
  eo_data : forall x, x ∈ de_changes e -> exists l, l ∈ de_to e /\ x ∈ fields M l;
  eo_ends : forall n, n ∈ md_ends d -> end_state n ∉ de_from e;
}.

(** The declaration rules as one predicate. *)
Record well_declared (d : MachineDef M) : Prop := mkWellDeclared {
  wd_edges : Forall (edge_ok d) (md_edges d);
  wd_once : NoDup (map de_kind (md_edges d));
  wd_all : forall k, k ∈ map de_kind (md_edges d);
  wd_ends_once : NoDup (map end_state (md_ends d));
  wd_ends_reason : Forall (fun n => is_blank (end_doc n) = false) (md_ends d);
  wd_reachable : forall l, rtc (moves d) (md_initial d) l;
  wd_live : forall l, l ∈ map end_state (md_ends d) \/ exists e, e ∈ md_edges d /\ l ∈ de_from e;
  wd_state_codes : NoDup (map coded_code (coded_ALL (Label M)));
  wd_edge_codes : NoDup (map coded_code (coded_ALL (EdgeKind M)));
}.

Lemma note_empty b e errors : note b e errors = ∅ <-> b = false /\ errors = ∅.
Proof. unfold note. destruct b; split; [set_solver|by intros []|done|by intros []]. Qed.

Lemma fold_note_empty {A} (f : A -> bool) (mk : A -> DefError) l errors :
  foldl (fun errors a => note (f a) (mk a) errors) errors l = ∅ <-> Forall (fun a => f a = false) l /\ errors = ∅.
Proof.
  revert errors. induction l as [|a l IH]; intros errors; cbn.
  - split; [by split|by intros []].
  - rewrite IH, note_empty, Forall_cons. tauto.
Qed.

Lemma note_check_empty name c errors : note_check name c errors = ∅ <-> check_stated c /\ errors = ∅.
Proof. destruct c as [[]|]; cbn; [tauto|apply note_empty|set_solver]. Qed.

Lemma clash_iff name : bool_decide (squash name ∈ label_words) = false <-> forall l : Label M, squash (coded_name l) <> squash name.
Proof.
  rewrite bool_decide_eq_false. unfold label_words. rewrite elem_of_list_to_set, list_elem_of_fmap. split.
  - intros H l Hl. apply H. exists l. split; [done|apply coded_complete].
  - intros H (l & Hl & _). by apply (H l).
Qed.

Lemma unknown_data_iff e x : unknown_data e x = false <-> exists l, l ∈ de_to e /\ x ∈ fields M l.
Proof.
  unfold unknown_data. rewrite negb_false_iff, existsb_exists. split; intros (l & H1 & H2); exists l.
  - rewrite list_elem_of_In. by rewrite bool_decide_eq_true in H2.
  - rewrite list_elem_of_In in H1. by rewrite bool_decide_eq_true.
Qed.

Lemma inert_iff e : de_to e <> [] -> de_from e <> [] ->
  (inert e = false) <-> (de_changes e <> [] \/ de_writes e <> [] \/ is_Some (de_master e) \/
    exists a b, a ∈ de_from e /\ b ∈ de_to e /\ a <> b).
Proof.
  intros Hto Hfrom. unfold inert. rewrite !andb_false_iff, !bool_decide_eq_false. split.
  - intros [[[[[H|H]|H]|H]|H]|H]; [by left|by right; left| |done|done|].
    + right; right; left. by destruct (de_master e).
    + right; right; right. apply forallb_false in H as (a & Ha & H). apply forallb_false in H as (b & Hb & H).
      exists a, b. by rewrite bool_decide_eq_false in H.
  - intros [H|[H|[[m H]|(a & b & Ha & Hb & H)]]]; [tauto|tauto|rewrite H; tauto|].
    right. apply forallb_false. exists a. split; [done|]. apply forallb_false. exists b.
    by rewrite bool_decide_eq_false.
Qed.

(** One turn of the edge loop adds no error exactly when the edge keeps its rules. *)
Lemma validate_edge_empty d s errors e :
  (validate_edge d (s, errors) e).2 = ∅ <-> (de_kind e ∉ s) /\ edge_ok d e /\ errors = ∅.
Proof.
  unfold validate_edge. cbn -[note note_check]. rewrite !fold_note_empty, !note_empty, note_check_empty, !note_empty, clash_iff, !bool_decide_eq_false.
  split.
  - intros (Hends & Hdata & Hin & Hfrom & Hto & Heff & Hchk & Hword & Hdup & Herr). split_and!; [done| |done].
    constructor; try done.
    + by destruct (de_effect e).
    + by apply inert_iff.
    + intros x Hx. apply unknown_data_iff. by eapply Forall_forall in Hdata.
    + intros n Hn. eapply Forall_forall in Hends; [|done]. by apply bool_decide_eq_false in Hends.
  - intros (Hdup & [Hword Hchk Heff Hto Hfrom Hact Hdata Hends] & Herr).
    split_and!; try done.
    + apply Forall_forall. intros n Hn. apply bool_decide_eq_false. auto.
    + apply Forall_forall. intros x Hx. apply unknown_data_iff. auto.
    + by apply inert_iff.
    + by destruct Heff as [f ->].
Qed.

Lemma validate_edges_fst d s errors es :
  (foldl (validate_edge d) (s, errors) es).1 = list_to_set (map de_kind es) ∪ s.
Proof.
  revert s errors. induction es as [|e es IH]; intros s errors; cbn -[validate_edge]; [set_solver|].
  destruct (validate_edge d (s, errors) e) as [s' errors'] eqn:He. rewrite IH. cbn in He. simplify_eq. set_solver.
Qed.

Lemma validate_edges_empty d s errors es :
  (foldl (validate_edge d) (s, errors) es).2 = ∅ <->
  Forall (edge_ok d) es /\ NoDup (map de_kind es) /\ (forall k, k ∈ map de_kind es -> k ∉ s) /\ errors = ∅.
Proof.
  revert s errors. induction es as [|e es IH]; intros s errors; cbn -[validate_edge].
  - rewrite NoDup_nil, Forall_nil. set_solver.
  - destruct (validate_edge d (s, errors) e) as [s' errors'] eqn:He.
    rewrite IH, Forall_cons, NoDup_cons.
    pose proof (validate_edge_empty d s errors e) as Hv. rewrite He in Hv. cbn in Hv. rewrite Hv.
    assert (s' = {[de_kind e]} ∪ s) as -> by (cbn in He; congruence). set_solver.
Qed.

Lemma validate_ends_fst s errors ns :
  (foldl validate_end (s, errors) ns).1 = list_to_set (map end_state ns) ∪ s.
Proof.
  revert s errors. induction ns as [|e ns IH]; intros s errors; cbn; [set_solver|].
  rewrite IH. set_solver.
Qed.

Lemma validate_ends_empty s errors ns :
  (foldl validate_end (s, errors) ns).2 = ∅ <->
  Forall (fun n => is_blank (end_doc n) = false) ns /\ NoDup (map end_state ns) /\
  (forall l, l ∈ map end_state ns -> l ∉ s) /\ errors = ∅.
Proof.
  revert s errors. induction ns as [|e ns IH]; intros s errors; cbn -[note].
  - rewrite NoDup_nil, Forall_nil. set_solver.
  - rewrite IH, Forall_cons, NoDup_cons, !note_empty, bool_decide_eq_false. set_solver.
Qed.

Lemma validate_codes_empty mk s errors cs :
  (foldl (validate_code mk) (s, errors) cs).2 = ∅ <-> NoDup cs /\ (forall c, c ∈ cs -> c ∉ s) /\ errors = ∅.
Proof.
  revert s errors. induction cs as [|c cs IH]; intros s errors; cbn -[note].
  - rewrite NoDup_nil. set_solver.
  - rewrite IH, NoDup_cons, note_empty, bool_decide_eq_false. set_solver.
Qed.

Lemma validate_labels_empty d s ends errors ls :
  foldl (validate_label d s ends) errors ls = ∅ <->
  Forall (fun l => l ∈ s /\ (l ∈ ends \/ exists e, e ∈ md_edges d /\ l ∈ de_from e)) ls /\ errors = ∅.
Proof.
  revert errors. induction ls as [|l ls IH]; intros errors; cbn -[note].
  - rewrite Forall_nil. tauto.
  - rewrite IH, Forall_cons. unfold validate_label at 1.
    rewrite !note_empty, andb_false_iff, negb_false_iff, existsb_elem, !bool_decide_eq_false.
    setoid_rewrite bool_decide_eq_true. assert (Hs : forall A : Prop, Decision A -> (~ ~ A <-> A)) by (intros A []; tauto).
    rewrite !Hs by apply _. tauto.
Qed.

Lemma def_errors_empty d : def_errors d = ∅ <-> well_declared d.
Proof.
  unfold def_errors.
  destruct (foldl (validate_edge d) (∅, ∅) (md_edges d)) as [declared e1] eqn:H1.
  pose proof (validate_edges_empty d ∅ ∅ (md_edges d)) as V1. pose proof (validate_edges_fst d ∅ ∅ (md_edges d)) as F1.
  rewrite H1 in V1, F1. cbn in V1, F1.
  set (e2 := foldl _ e1 _).
  destruct (foldl validate_end (∅, e2) (md_ends d)) as [ends e3] eqn:H3.
  pose proof (validate_ends_empty ∅ e2 (md_ends d)) as V3. pose proof (validate_ends_fst ∅ e2 (md_ends d)) as F3.
  rewrite H3 in V3, F3. cbn in V3, F3. cbn -[validate_code].
  rewrite !validate_codes_empty, validate_labels_empty, V3. unfold e2. rewrite fold_note_empty, V1, !Forall_forall, F1, F3.
  setoid_rewrite elem_of_reached. setoid_rewrite bool_decide_eq_false. split.
  - intros (Hec & _ & Hsc & _ & Hl & Hr & Hend & _ & Hk & He & Hdup & _).
    constructor; try done.
    + by apply Forall_forall.
    + intros k. specialize (Hk k (coded_complete k)). apply dec_stable in Hk. set_solver.
    + by apply Forall_forall.
    + intros l. by apply Hl, coded_complete.
    + intros l. destruct (Hl l (coded_complete l)) as [_ [?|?]]; [left; set_solver|by right].
  - intros [He Hdup Hk Hend Hr Hreach Hlive Hsc Hec]. rewrite Forall_forall in He. rewrite Forall_forall in Hr.
    assert (forall (A : Type) (x : A) `{Countable A}, x ∉ (∅ : gset A)) as Hno by set_solver.
    split_and!; auto.
    + intros l _. split; [done|]. destruct (Hlive l) as [Hl|]; [left|by right].
      apply elem_of_union. left. by apply elem_of_list_to_set.
    + intros k _ Hn. apply Hn. apply elem_of_union. left. by apply elem_of_list_to_set.
Qed.
End validate.

(** * Properties *)

(** C33: [MachineDef::validate] accepts a declaration exactly when it satisfies
    every rule: each edge declared once, checked, with an effect, sources and
    targets, doing something, changing only data of its targets and leaving no
    end; no word names both a state and an edge; each end stated once with a
    reason; every state reachable from the initial one, and every state an end
    or the source of an edge; codes distinct. *)
Theorem validate_accepts {M : MachineSig} (d : MachineDef M) : validate d = Ok tt <-> well_declared d.
Proof.
  rewrite <-def_errors_empty. unfold validate. case_bool_decide; split; congruence.
Qed.

(** C40: the worklist that finds the reachable states returns within its fuel
    (one step per label expanded and per target queued), and what it returns is
    exactly the states a path of declared moves reaches from the initial one. *)
Theorem reach_complete {M : MachineSig} (d : MachineDef M) :
  exists s, reach d (reach_fuel d) ∅ [md_initial d] = Some s /\ forall l, l ∈ s <-> rtc (moves d) (md_initial d) l.
Proof.
  destruct (reach_returns d) as [s Hs]. exists s. split; [done|]. intros l. rewrite <-elem_of_reached.
  unfold reached. by rewrite Hs.
Qed.
