(* ===== verification/Engine.v ===== *)
(** What a pure step guarantees ([MachineDef::step]): the order of its checks,
    the shape of a move, and that a declaration built with the builder and
    accepted by [validate] never reports an undeclared edge. *)

From S2P Require Import Prelude Schema Read Machine Validate.

Section engine.
Context {M : MachineSig}.
Implicit Types (d : MachineDef M) (h : Handle M) (edge : Edge M).

(** ** The shape of a move *)

(** What a successful step establishes. *)
Inductive moved (d : MachineDef M) (edge : Edge M) (h : Handle M) (next : MState M) (h' : Handle M) : Prop :=
| mkMoved (declared : DeclaredEdge M) (h1 : Handle M)
    (mv_not_end : end_reason d (label M (h_state h)) = None)
    (mv_find : find d (edge_kind M edge) = Some declared)
    (mv_from : label M (h_state h) ∈ de_from declared)
    (mv_check : run_check (de_check declared) edge h = (Ok tt, h1))
    (mv_gate_writes : length (h_writes h1) = length (h_writes h))
    (mv_effect : run_effect (de_effect declared) (h_state h) edge h1 = (Ok next, h'))
    (mv_to : label M next ∈ de_to declared)
    (mv_changes : forall x, x ∈ changed M (h_state h) next -> x ∈ de_changes declared)
    (mv_writes : forall w, w ∈ drop (length (h_writes h)) (h_writes h') -> write_field M w ∈ de_writes declared).

Lemma stray_nil names declared : stray names declared = [] <-> forall n, n ∈ names -> n ∈ declared.
Proof.
  unfold stray. split.
  - intros H n Hn. destruct (decide (n ∈ declared)); [done|].
    assert (n ∈ filter (fun n => n ∉ declared) names) as Hf by by apply list_elem_of_filter.
    rewrite H in Hf. by apply not_elem_of_nil in Hf.
  - intros H. destruct (filter _ names) as [|x l] eqn:Hf; [done|].
    assert (x ∈ filter (fun n => n ∉ declared) names) as Hx by (rewrite Hf; left).
    apply list_elem_of_filter in Hx as [Hn Hx]. by apply H in Hx.
Qed.

Lemma check_result_Ok declared kind state next written s :
  check_result declared kind state next written = Ok s <->
  s = next /\ label M next ∈ de_to declared /\
  (forall x, x ∈ changed M state next -> x ∈ de_changes declared) /\
  (forall w, w ∈ written -> write_field M w ∈ de_writes declared).
Proof.
  unfold check_result.
  destruct (stray (map _ written) _) eqn:Hw.
  - rewrite stray_nil in Hw. case_bool_decide as Hl; [|split; [done|tauto]].
    destruct (stray (changed _ _ _) _) eqn:Hc.
    + rewrite stray_nil in Hc. split; [|by intros (-> & _)]. intros [= <-].
      split_and!; [done..|]. intros w Hin. apply Hw. by apply list_elem_of_fmap_2.
    + split; [done|]. intros (_ & _ & H & _). apply stray_nil in H. congruence.
  - split; [done|]. intros (_ & _ & _ & H).
    assert (stray (map (write_field M) written) (de_writes declared) = []) as Hn; [|congruence].
    apply stray_nil. intros n Hn. apply list_elem_of_fmap in Hn as (w & -> & Hin). auto.
Qed.

(** A step succeeds exactly when each check passes in turn. *)
Lemma step_Ok d edge h next h' : step d edge h = (Ok next, h') <-> moved d edge h next h'.
Proof.
  unfold step. split.
  - intros H. destruct (end_reason d _) eqn:He; [done|]. destruct (find d _) as [declared|] eqn:Hf; [|done].
    case_bool_decide as Hl; [|done]. destruct (run_check _ _ _) as [[[]|] h1] eqn:Hc; [|done].
    case_bool_decide as Hw; [|done]. destruct (run_effect _ _ _ _) as [[s|] h2] eqn:Hr; [|done].
    injection H as H ->. apply check_result_Ok in H as (-> & ? & ? & ?). by eapply mkMoved.
  - intros [declared h1 He Hf Hl Hc Hw Hr Ht Hch Hwr]. rewrite He, Hf, bool_decide_eq_true_2 by done.
    rewrite Hc, bool_decide_eq_true_2, Hr by done. f_equal. by apply check_result_Ok.
Qed.

(** A resource in an end state refuses every edge with the end's reason, and
    the refusal reads nothing. *)
Lemma step_ended d edge h reason :
  end_reason d (label M (h_state h)) = Some reason ->
  step d edge h = (Err (Refused (of_ended M (mkEnded (label M (h_state h)) reason))), h).
Proof. intros He. unfold step. by rewrite He. Qed.

(** An edge that does not leave the current label is refused before its gate. *)
Lemma step_wrong_state d edge h declared :
  end_reason d (label M (h_state h)) = None ->
  find d (edge_kind M edge) = Some declared ->
  label M (h_state h) ∉ de_from declared ->
  step d edge h = (Err (Refused (of_wrong_state M (mkWrongState (label M (h_state h)) (edge_kind M edge)))), h).
Proof. intros He Hf Hl. unfold step. by rewrite He, Hf, bool_decide_eq_false_2. Qed.

(** ** Declarations made with the builder *)

(** The erased gate and effect of an edge never miss an edge of its kind. *)
Definition typed_check (k : EdgeKind M) (c : option (Check M)) : Prop :=
  match c with
  | Some (CheckGate _ g) => forall edge h, edge_kind M edge = k -> is_Some (g edge h).1
  | _ => True
  end.
Definition typed_effect (k : EdgeKind M) (f : option (MState M -> Edge M -> HM M (option (MState M)))) : Prop :=
  match f with Some f => forall s edge h, edge_kind M edge = k -> is_Some (f s edge h).1 | None => True end.

Definition typed_edge (e : DeclaredEdge M) : Prop :=
  typed_check (de_kind e) (de_check e) /\ typed_effect (de_kind e) (de_effect e).

(** A definition whose edges are typed and whose index finds, for each kind,
    an edge of that kind. *)
Record built (d : MachineDef M) : Prop := mkBuilt {
  bt_typed : Forall typed_edge (md_edges d);
  bt_sound : forall k i, by_kind_get (md_by_kind d) k = Some i -> exists e, md_edges d !! i = Some e /\ de_kind e = k;
  bt_complete : forall e, e ∈ md_edges d -> is_Some (by_kind_get (md_by_kind d) (de_kind e));
}.

Section builder.
Context {A : Type} `{!EdgeArg M A}.

Definition typed_def (e : EdgeDef M A) : Prop :=
  typed_check (arg_KIND A) (ed_check e) /\ typed_effect (arg_KIND A) (ed_effect e).

Lemma typed_new : typed_def edge_new.
Proof. by split. Qed.
Lemma typed_from ls e : typed_def e -> typed_def (from ls e).
Proof. done. Qed.
Lemma typed_to ls e : typed_def e -> typed_def (to ls e).
Proof. done. Qed.
Lemma typed_changes ls e : typed_def e -> typed_def (changes ls e).
Proof. done. Qed.
Lemma typed_writes ls e : typed_def e -> typed_def (writes ls e).
Proof. done. Qed.
Lemma typed_about f e : typed_def e -> typed_def (about f e).
Proof. done. Qed.
Lemma typed_ungated r e : typed_def e -> typed_def (ungated r e).
Proof. by intros [_ H]. Qed.
Lemma typed_gate doc g e : typed_def e -> typed_def (gate doc g e).
Proof.
  intros [_ H]. split; [|done]. intros edge h Hk. apply arg_kind_project in Hk as [a Ha]. cbn. rewrite Ha.
  by destruct (g a h).
Qed.
Lemma typed_eff f e : typed_def e -> typed_def (effect f e).
Proof.
  intros [H _]. split; [done|]. intros s edge h Hk. apply arg_kind_project in Hk as [a Ha]. cbn. rewrite Ha.
  by destruct (f s a h).
Qed.
End builder.

Lemma by_kind_get_insert l k i k' :
  by_kind_get (by_kind_or_insert (M := M) l k i) k' =
  match by_kind_get l k' with Some j => Some j | None => if bool_decide (k = k') then Some i else None end.
Proof.
  unfold by_kind_or_insert. destruct (by_kind_get l k) as [j|] eqn:Hk.
  - destruct (by_kind_get l k') eqn:Hk'; [done|]. case_bool_decide; congruence.
  - clear Hk. induction l as [|[k0 i0] l IH]; cbn; [done|]. by destruct (bool_decide (k0 = k')).
Qed.

Lemma built_new l : built (def_new l).
Proof. constructor; [by constructor|done|]. intros e He. by apply not_elem_of_nil in He. Qed.

Lemma built_end d l r : built d -> built (def_end l r d).
Proof. intros []. by constructor. Qed.

Lemma built_edge {A} `{!EdgeArg M A} d (e : EdgeDef M A) : built d -> typed_def e -> built (def_edge e d).
Proof.
  intros [Ht Hs Hc] [H1 H2]. constructor; cbn.
  - apply Forall_app. split; [done|]. by repeat constructor.
  - intros k i. rewrite by_kind_get_insert. destruct (by_kind_get _ k) as [j|] eqn:Hk.
    + intros [= ->]. destruct (Hs _ _ Hk) as (e' & He' & ?). exists e'. split; [|done]. by apply lookup_app_l_Some.
    + case_bool_decide as Hk'; [|done]. intros [= <-]. exists (declare_edge e). split; [|done]. apply list_lookup_middle. done.
  - intros e'. rewrite elem_of_app, list_elem_of_singleton, by_kind_get_insert. intros [He| ->].
    + destruct (Hc _ He) as [j ->]. eauto.
    + destruct (by_kind_get _ _); [eauto|]. rewrite bool_decide_eq_true_2 by done. eauto.
Qed.

Lemma built_find d k e : built d -> find d k = Some e -> e ∈ md_edges d /\ de_kind e = k.
Proof.
  intros [_ Hs _] Hf. unfold find in Hf. apply bind_Some in Hf as (i & Hi & He).
  destruct (Hs _ _ Hi) as (e' & He' & Hk). assert (e = e') as -> by congruence.
  split; [by eapply list_elem_of_lookup_2|done].
Qed.

Lemma built_declared d k : built d -> k ∈ map de_kind (md_edges d) -> is_Some (find d k).
Proof.
  intros [_ Hs Hc] Hk. apply list_elem_of_fmap in Hk as (e & -> & He). destruct (Hc _ He) as [i Hi].
  unfold find. rewrite Hi. cbn. destruct (Hs _ _ Hi) as (e' & -> & _). eauto.
Qed.

(** What an accepted edge runs: its gate's and effect's own outcome, never a
    declaration that is missing. *)
Lemma run_check_declared d e edge h :
  well_declared d -> built d -> e ∈ md_edges d -> de_kind e = edge_kind M edge ->
  exists r h', run_check (de_check e) edge h = (r, h') /\ forall f, r <> Err (Faulted f).
Proof.
  intros [Hok _ _ _ _ _ _ _ _] [Ht _ _] He Hk. rewrite Forall_forall in Hok. rewrite Forall_forall in Ht.
  destruct (Hok _ He) as [_ Hs _ _ _ _ _ _]. destruct (Ht _ He) as [Htc _]. unfold run_check.
  destruct (de_check e) as [[doc g|reason]|]; [|by eauto|done].
  destruct (Htc edge h) as [r Hr]; [done|]. destruct (g edge h) as [o h']. cbn in Hr. subst o.
  destruct r; eauto.
Qed.

Lemma run_effect_declared d e s edge h :
  well_declared d -> built d -> e ∈ md_edges d -> de_kind e = edge_kind M edge ->
  exists next h', run_effect (de_effect e) s edge h = (Ok next, h').
Proof.
  intros [Hok _ _ _ _ _ _ _ _] [Ht _ _] He Hk. rewrite Forall_forall in Hok. rewrite Forall_forall in Ht.
  destruct (Hok _ He) as [_ _ [f Hf] _ _ _ _ _]. destruct (Ht _ He) as [_ Hte]. unfold run_effect.
  rewrite Hf in Hte |- *. destruct (Hte s edge h) as [r Hr]; [done|].
  destruct (f s edge h) as [o h']. cbn in Hr. subst o. eauto.
Qed.
End engine.

#[export] Hint Resolve typed_new typed_from typed_to typed_changes typed_writes typed_about typed_ungated
  typed_gate typed_eff built_new built_end built_edge : flotilla.

(** * Properties *)

(** a step moves exactly when the state is not an end, the edge is declared
    from its label, its gate passes without writing, and its effect lands on a
    declared target, changing only declared data and writing only declared
    record fields. *)
Theorem step_moves_iff {M : MachineSig} (d : MachineDef M) edge h next h' :
  step d edge h = (Ok next, h') <-> moved d edge h next h'.
Proof. apply step_Ok. Qed.

(** stepping a declaration that validates and was made with the builder
    never faults for an edge that is not declared, has no check or no effect,
    or whose argument does not project: a fault is about what the effect did. *)
Theorem validated_step_is_declared {M : MachineSig} (d : MachineDef M) edge h k :
  validate d = Ok tt -> built d -> (step d edge h).1 <> Err (Faulted (FaultUndeclared k)).
Proof.
  intros Hv Hb Hs. assert (well_declared d) as Hw.
  { apply def_errors_empty. unfold validate in Hv. by case_bool_decide. }
  destruct (built_declared d (edge_kind M edge) Hb (wd_all _ Hw _)) as [e He].
  destruct (built_find d _ e Hb He) as [Hin Hk]. unfold step in Hs.
  destruct (end_reason _ _); [done|]. rewrite He in Hs. destruct (bool_decide _); [|done].
  destruct (run_check_declared d e edge h Hw Hb Hin Hk) as (r & h1 & Hr & Hnf). rewrite Hr in Hs.
  destruct r as [[]|er]; [|cbn in Hs; simplify_eq; by eapply Hnf].
  case_bool_decide; [|by simplify_eq].
  destruct (run_effect_declared d e (h_state h) edge h1 Hw Hb Hin Hk) as (nx & h2 & Heff). rewrite Heff in Hs.
  unfold check_result in Hs. repeat case_match; by simplify_eq/=.
Qed.
