(* ===== verification/Log.v ===== *)
(** Where a home's writes go ([crates/flotilla-state-machines/src/log.rs],
    [record.rs]): the [Log] interface and its defaults, the in-memory log with
    its paged history, and the decoding of a store entry's edge event. *)

From S2P Require Import Prelude Ordered Schema Read Machine.

(** * Edge events of a machine *)

(** The edge with the reads its gate and effect relied on. *)
Record EdgePayload (E : Type) : Type := mkEdgePayload { pl_edge : E; pl_reads : list InputRead }.
Arguments mkEdgePayload {E}.
Arguments pl_edge {E}.
Arguments pl_reads {E}.

Definition EdgeEventOf (M : MachineSig) : Type := EdgeEvent (Label M) (EdgeKind M) (EdgePayload (Edge M)).

(** * The interface *)

(** Two log errors are equal when they say the same thing: their text. *)
Record LogError : Type := mkLogError { log_error_text : string }.

(** Persists a home's writes and gives each its sequence; each operation
    returns the log as it leaves it. *)
Class Log (M : MachineSig) (L : Type) : Type := {
  log_create : L -> string -> Timestamp -> Resource M -> list InputRead -> result LogError Version * L;
  log_create_resource : L -> string -> Timestamp -> Resource M -> list InputRead -> result LogError (Resource M) * L;
  log_edge : L -> string -> State (MState M) -> Resource M -> EdgeEventOf M -> result LogError Version * L;
  log_edge_with_writes :
    L -> string -> State (MState M) -> Resource M -> EdgeEventOf M -> list (Write M) -> result LogError Version * L;
}.

Section defaults.
Context {M : MachineSig} {L : Type}.

(** The trait's default [create_resource]: the resource takes the version the
    create was given. *)
Definition create_resource_default (create : L -> string -> Timestamp -> Resource M -> list InputRead -> result LogError Version * L)
    (l : L) (writer : string) (at_ : Timestamp) (r : Resource M) (reads : list InputRead) : result LogError (Resource M) * L :=
  let (v, l') := create l writer at_ r reads in (with_version r <$> v, l').

(** The trait's default [edge_with_writes]: refuses any write rather than drop it. *)
Definition edge_with_writes_default (edge : L -> string -> State (MState M) -> Resource M -> EdgeEventOf M -> result LogError Version * L)
    (l : L) (writer : string) (previous : State (MState M)) (next : Resource M) (event : EdgeEventOf M) (ws : list (Write M)) :
    result LogError Version * L :=
  match ws with
  | _ :: _ => (Err (mkLogError "this log does not store records writes"), l)
  | [] => edge l writer previous next event
  end.
End defaults.

(** What a home relies on: a create publishes the admitted identity, spec and
    state; an edge is given a version above the resource's (or the last one). The
    trait lets an adapter assign fields of the spec that no admission and no gate
    reads: the laws are of a log that assigns none, as its default does. *)
Class LogLaws (M : MachineSig) (L : Type) `{!Log M L} : Prop := {
  create_keeps : forall l writer at_ r reads r' l',
    log_create_resource l writer at_ r reads = (Ok r', l') ->
    r_name r' = r_name r /\ r_spec r' = r_spec r /\ r_state r' = r_state r;
  edge_rises : forall l writer previous next event ws v l',
    log_edge_with_writes l writer previous next event ws = (Ok v, l') ->
    r_version next < v \/ v = u64_max;
}.

(** * The memory log *)

Record MemoryLog (M : MachineSig) : Type := mkMemoryLog {
  sequence : Z;
  edges : gmap (string * Z) (EdgeEventOf M);
}.
Arguments mkMemoryLog {M}.
Arguments sequence {M}.
Arguments edges {M}.

Section memory_log.
Context {M : MachineSig}.
Implicit Types (l : MemoryLog M).

Definition memory_log_new : MemoryLog M := mkMemoryLog 0 ∅.

(** [MemoryLog::next]: above every sequence given, and above [version]. *)
Definition next (l : MemoryLog M) (version : Version) : Version * MemoryLog M :=
  let s := u64_saturating_add (Z.max (sequence l) version) 1 in (s, mkMemoryLog s (edges l)).

Definition memory_create (l : MemoryLog M) (_ : string) (_ : Timestamp) (_ : Resource M) (_ : list InputRead) :
    result LogError Version * MemoryLog M :=
  let (v, l') := next l 0 in (Ok v, l').

Definition memory_edge (l : MemoryLog M) (_ : string) (_ : State (MState M)) (nxt : Resource M) (event : EdgeEventOf M) :
    result LogError Version * MemoryLog M :=
  let (v, l') := next l (r_version nxt) in
  (Ok v, mkMemoryLog (sequence l') (<[(r_name nxt, v) := event]> (edges l'))).

(** The memory log keeps events only; the home holds the records the writes change. *)
Definition memory_edge_with_writes (l : MemoryLog M) (writer : string) (previous : State (MState M)) (nxt : Resource M)
    (event : EdgeEventOf M) (_ : list (Write M)) : result LogError Version * MemoryLog M :=
  memory_edge l writer previous nxt event.

#[export] Instance memory_log : Log M (MemoryLog M) := {|
  log_create := memory_create;
  log_create_resource := create_resource_default memory_create;
  log_edge := memory_edge;
  log_edge_with_writes := memory_edge_with_writes;
|}.

(** [MemoryLog::history]: up to [limit] events after [after], in sequence order. *)
Definition history (l : MemoryLog M) (name : string) (after : Version) (limit : nat) : list (Version * EdgeEventOf M) :=
  map (fun p => (p.1.2, p.2)) (take limit (filter (fun p => in_range name after p.1) (map_iter (edges l)))).

(** Every event is filed under a sequence the log has given. *)
Definition log_ok (l : MemoryLog M) : Prop :=
  is_u64 (sequence l) /\ forall name s e, edges l !! (name, s) = Some e -> 0 < s <= sequence l.

Lemma next_above l version : is_u64 version -> log_ok l ->
  version < (next l version).1 \/ (next l version).1 = u64_max.
Proof. intros Hv [Hs _]. cbn. unfold_ints. lia. Qed.

Lemma log_ok_new : log_ok memory_log_new.
Proof. split; [unfold_ints; cbn; lia|]. intros name s e He. cbn in He. by rewrite lookup_empty in He. Qed.

Lemma log_ok_next l version : 0 <= version -> log_ok l -> log_ok (next l version).2.
Proof.
  intros Hv [Hs He]. split; cbn; [unfold_ints; lia|].
  intros name s e Hin. apply He in Hin. unfold_ints. lia.
Qed.

Lemma log_ok_edge l writer previous nxt event : 0 <= r_version nxt -> log_ok l -> log_ok (memory_edge l writer previous nxt event).2.
Proof.
  intros Hv Hl. pose proof (log_ok_next l _ Hv Hl) as [Hs He]. destruct Hl as [Hs0 _]. split; cbn in *; [done|].
  intros name s e Hin. apply lookup_insert_Some in Hin as [[[= <- <-] _]|[_ Hin]]; [unfold_ints; lia|by eapply He].
Qed.

#[export] Instance memory_log_laws : LogLaws M (MemoryLog M).
Proof.
  split.
  - intros l writer at_ r reads r' l' H. cbn in H. by simplify_eq/=.
  - intros l writer previous nxt event ws v l' H. cbn in H. simplify_eq/=. unfold_ints. lia.
Qed.

(** ** History as a sorted list *)

(** The whole history after a version. *)
Definition events (l : MemoryLog M) (name : string) (after : Version) : list (Version * EdgeEventOf M) := range_iter (edges l) name after.

Lemma history_events l name after limit : history l name after limit = take limit (events l name after).
Proof. unfold history, events, range_iter. apply fmap_take. Qed.

(** Below the last sequence, a write appends its event to its resource's
    history and to no other. *)
Lemma events_edge l writer previous nxt event name after :
  log_ok l -> is_u64 (r_version nxt) -> sequence l < u64_max -> r_version nxt < u64_max ->
  after <= Z.max (sequence l) (r_version nxt) ->
  let '(v, l') := memory_edge l writer previous nxt event in
  v = Ok (Z.max (sequence l) (r_version nxt) + 1) /\
  events l' name after =
    events l name after ++
    (if bool_decide (name = r_name nxt) then [(Z.max (sequence l) (r_version nxt) + 1, event)] else []).
Proof.
  intros [Hs He] Hv Hlt1 Hlt2 Hafter. cbn. unfold u64_saturating_add. rewrite Z.min_l by (unfold_ints; lia).
  set (v := Z.max _ _ + 1). split; [done|]. unfold events. apply range_iter_insert; [unfold v; unfold_ints; lia|].
  intros s' e' Hin. apply He in Hin. unfold v. lia.
Qed.

(** Paging: passing the last version back continues where the page ended. *)
Lemma events_after_page l name after n v e ps :
  take n (events l name after) = ps ++ [(v, e)] -> events l name v = drop n (events l name after).
Proof.
  intros Ht. assert (events l name after = ps ++ [(v, e)] ++ drop n (events l name after)) as Hev
    by (rewrite app_assoc, <-Ht; symmetry; apply take_drop).
  pose proof (range_iter_sorted (edges l) name after) as Hs. fold (events l name after) in Hs.
  assert (after < v) as Hav.
  { assert ((v, e) ∈ events l name after) as Hin by (rewrite Hev; set_solver). by apply elem_of_range_iter in Hin as (_ & ? & _). }
  rewrite Hev in Hs. rewrite <-(above_last _ _ _ Hs), <-Hev. cbn. symmetry. apply range_iter_unique.
  - apply above_sorted, range_iter_sorted.
  - intros s' v'. unfold events. rewrite elem_of_above, elem_of_range_iter. cbn. naive_solver lia.
Qed.
End memory_log.

#[export] Hint Resolve log_ok_new log_ok_next log_ok_edge : flotilla.

(** * Store entries *)

(** Why a store entry was written; an edge carries the kind's codes. *)
Inductive Cause : Type :=
| CauseCreate
| CauseEdit
| CauseEdge (edge from to : string)
| CauseDelete
| CauseExpunge.

Inductive EntryError (E : Type) : Type :=
| UnknownCode (machine what code : string)
| MissingArguments
| ArgumentsError (e : E).
Arguments UnknownCode {E}.
Arguments MissingArguments {E}.
Arguments ArgumentsError {E}.

Section entries.
Context {M : MachineSig} {E : Type}.

Definition coded {C} `{Coded C} (what code : string) : result (EntryError E) C :=
  ok_or (List.find (fun v => bool_decide (coded_code v = code)) (coded_ALL C)) (UnknownCode (M_NAME M) what code).

(** [edge_event]: [arguments] is the entry's decoded argument document. *)
Definition edge_event (cause : Cause) (arguments : option (result E (Edge M))) (at_ : Timestamp) :
    result (EntryError E) (option (EdgeEvent (Label M) (EdgeKind M) (Edge M))) :=
  match cause with
  | CauseEdge edge from to =>
      a ← ok_or arguments MissingArguments;
      a ← map_err ArgumentsError a;
      edge ← coded (C := EdgeKind M) "edge" edge;
      from ← coded (C := Label M) "label" from;
      to ← coded (C := Label M) "label" to;
      mret (Some (mkEdgeEvent edge from to at_ a))
  | _ => Ok None
  end.

Lemma coded_code_of {C} `{Coded C} what (c : C) :
  NoDup (map coded_code (coded_ALL C)) -> coded what (coded_code c) = Ok c.
Proof.
  intros Hn. unfold coded. apply ok_or_Ok. pose proof (coded_complete c) as Hc.
  induction (coded_ALL C) as [|x l IH]; [set_solver|]. cbn in Hn. apply NoDup_cons in Hn as [Hx Hn]. cbn.
  case_bool_decide as Hcode.
  - f_equal. apply elem_of_cons in Hc as [->|Hc]; [done|]. destruct Hx. rewrite Hcode. by apply list_elem_of_fmap_2.
  - apply elem_of_cons in Hc as [->|Hc]; [done|]. auto.
Qed.
End entries.

(** * Properties *)

(** an edge written to the memory log is given the next version, above the
    resource's and the log's, and every resource's history is its history
    before, with the event appended to the history of the resource it moved. *)
Theorem memory_edge_appends {M : MachineSig} (l : MemoryLog M) writer previous nxt event name after :
  log_ok l -> is_u64 (r_version nxt) -> sequence l < u64_max -> r_version nxt < u64_max ->
  after <= Z.max (sequence l) (r_version nxt) ->
  let v := Z.max (sequence l) (r_version nxt) + 1 in
  exists l', log_edge l writer previous nxt event = (Ok v, l') /\ log_ok l' /\
  forall limit, history l' name after limit =
    take limit (events l name after ++ (if bool_decide (name = r_name nxt) then [(v, event)] else [])).
Proof.
  intros Hl Hr Hs Hv Ha. pose proof (events_edge l writer previous nxt event name after Hl Hr Hs Hv Ha) as H.
  pose proof (log_ok_edge l writer previous nxt event) as Hok. destruct Hr as [Hr0 _]. specialize (Hok Hr0 Hl).
  cbn [log_edge memory_log]. destruct (memory_edge l writer previous nxt event) as [v l']. destruct H as [-> He].
  exists l'. split; [done|]. split; [done|]. intros limit. by rewrite history_events, He.
Qed.

(** paging a history loses and repeats nothing: the page after the last
    version of a page continues where it stopped. *)
Theorem history_pages {M : MachineSig} (l : MemoryLog M) name after n m ps v e :
  history l name after n = ps ++ [(v, e)] ->
  history l name after n ++ history l name v m = history l name after (n + m).
Proof.
  rewrite !history_events. intros H. pose proof (events_after_page l name after n v e ps H) as ->.
  rewrite <-take_take_drop. done.
Qed.

(** a stored edge entry decodes to the event it was written from: codes of
    edges and labels are read back as the values they stand for. *)
Theorem edge_entry_roundtrip {M : MachineSig} {E : Type} (k : EdgeKind M) (a b : Label M) (edge : Edge M) at_ :
  NoDup (map coded_code (coded_ALL (EdgeKind M))) -> NoDup (map coded_code (coded_ALL (Label M))) ->
  edge_event (E := E) (CauseEdge (coded_code k) (coded_code a) (coded_code b)) (Some (Ok edge)) at_ =
  Ok (Some (mkEdgeEvent k a b at_ edge)).
Proof. intros Hk Hl. unfold edge_event. cbn. by rewrite !coded_code_of. Qed.
