(* ===== verification/Home.v ===== *)
(** The single writer ([crates/flotilla-state-machines/src/home.rs]): a home
    admits, restores, evicts and applies edges to one machine's resources,
    writing through its log. *)

From S2P Require Import Prelude Schema Read Machine Validate Engine Log.

(** * Why a write did not happen *)

Inductive WriteError (M : MachineSig) : Type :=
| Unknown (name : string)
| Exists (name : string)
| WRefused (r : Refusal M)
| WFault (f : Fault (Label M) (EdgeKind M))
| WLog (e : LogError).
Arguments Unknown {M}.
Arguments Exists {M}.
Arguments WRefused {M}.
Arguments WFault {M}.
Arguments WLog {M}.

(** [From<StepError> for WriteError]. *)
Definition of_step_error {M} (e : StepError M) : WriteError M :=
  match e with Refused r => WRefused r | Faulted f => WFault f end.

(** [LogError::new(RecordsFull)]. *)
Definition full_error : LogError := mkLogError "a record table holds at most u32::MAX + 1 rows".

Record Home (M : MachineSig) (L : Type) : Type := mkHome {
  home_writer : string;
  home_definition : MachineDef M;
  home_resources : gmap string (Resource M);
  home_log : L;
}.
Arguments mkHome {M L}.
Arguments home_writer {M L}.
Arguments home_definition {M L}.
Arguments home_resources {M L}.
Arguments home_log {M L}.

(** * Operations *)

Section home.
Context {M : MachineSig} {L : Type} `{!Machine M, !Log M L}.
Implicit Types (h : Home M L).

(** [Home::with_log]: refuses a declaration that breaks the rules. *)
Definition with_log (writer : string) (log : L) : result (list DefError) (Home M L) :=
  _ ← validate (definition M); mret (mkHome writer (definition M) ∅ log).

Definition home_get (h : Home M L) (name : string) : option (Resource M) := home_resources h !! name.

Definition evict (h : Home M L) (name : string) : option (Resource M) * Home M L :=
  (home_resources h !! name,
   mkHome (home_writer h) (home_definition h) (delete name (home_resources h)) (home_log h)).

(** A created resource and the reads its admission relied on. *)
Record Created : Type := mkCreated { created : Resource M; created_reads : list InputRead }.

(** [Home::create]. *)
Definition create (h : Home M L) (name : string) (request : Request M) (world : World M) (now : Timestamp) :
    result (WriteError M) Created * Home M L :=
  match home_resources h !! name with
  | Some _ => (Err (Exists name), h)
  | None =>
      match admits request (mkAdmission world now []) with
      | (Err r, _) => (Err (WRefused r), h)
      | (Ok (spec, state), admission) =>
          if bool_decide (label M state = md_initial (home_definition h)) then
            let resource := mkResource name spec (mkState state now) 0 in
            let reads := ad_reads admission in
            match log_create_resource (home_log h) (home_writer h) now resource reads with
            | (Err e, log) => (Err (WLog e), mkHome (home_writer h) (home_definition h) (home_resources h) log)
            | (Ok resource, log) =>
                (Ok (mkCreated resource reads),
                 mkHome (home_writer h) (home_definition h) (<[name := resource]> (home_resources h)) log)
            end
          else (Err (WFault (FaultInitial (label M state))), h)
      end
  end.

(** [Home::restore]: places a stored resource, unless the name is resident. *)
Definition restore (h : Home M L) (r : Resource M) : result (WriteError M) (Resource M) * Home M L :=
  match home_resources h !! r_name r with
  | Some _ => (Err (Exists (r_name r)), h)
  | None => (Ok r, mkHome (home_writer h) (home_definition h) (<[r_name r := r]> (home_resources h)) (home_log h))
  end.

(** The writes on a copy of the spec: a full record table refuses them all. *)
Definition trial (spec : Spec M) (ws : list (Write M)) (version : Version) : result RecordsFull (Spec M) :=
  try_fold (fun s w => write_apply M w s version) spec ws.

(** The writes on the resource's spec, each one's refusal discarded. *)
Definition apply_writes (spec : Spec M) (ws : list (Write M)) (version : Version) : Spec M :=
  foldl (fun s w => match write_apply M w s version with Ok s' => s' | Err _ => s end) spec ws.

(** [Home::apply]. *)
Definition apply (h : Home M L) (name : string) (edge : Edge M) (world : World M) (now : Timestamp) :
    result (WriteError M) (EdgeEventOf M) * Home M L :=
  match home_resources h !! name with
  | None => (Err (Unknown name), h)
  | Some resource =>
      match step (home_definition h) edge (handle_on resource world now) with
      | (Err e, _) => (Err (of_step_error e), h)
      | (Ok nxt, handle) =>
          let ws := h_writes handle in
          let reads := h_reads handle in
          match trial (r_spec resource) ws 0 with
          | Err _ => (Err (WLog full_error), h)
          | Ok _ =>
              let from := r_label resource in
              let to := label M nxt in
              let s := if bool_decide (from = to) then since (r_state resource) else now in
              let previous := r_state resource in
              let moved := with_state resource (mkState nxt s) in
              let event := mkEdgeEvent (edge_kind M edge) from to now (mkEdgePayload edge reads) in
              match log_edge_with_writes (home_log h) (home_writer h) previous moved event ws with
              | (Ok version, log) =>
                  let written := with_spec (with_version moved version) (apply_writes (r_spec resource) ws version) in
                  (Ok event, mkHome (home_writer h) (home_definition h) (<[name := written]> (home_resources h)) log)
              | (Err e, log) =>
                  (Err (WLog e),
                   mkHome (home_writer h) (home_definition h)
                     (<[name := with_state moved previous]> (home_resources h)) log)
              end
          end
      end
  end.

(** [Resource::judge] and [Home::judge]. *)
Definition resource_judge {T} (r : Resource M) (world : World M) (now : Timestamp) (judgement : HM M T) : Judged T :=
  let (v, handle) := judgement (handle_on r world now) in h_judged handle v.

Definition judge {T} (h : Home M L) (name : string) (world : World M) (now : Timestamp) (judgement : HM M T) :
    result (WriteError M) (Judged T) :=
  r ← ok_or (home_get h name) (Unknown name); mret (resource_judge r world now judgement).
End home.

Arguments Created M : clear implicits.
Arguments trial M spec ws version : clear implicits.
Arguments apply_writes M spec ws version : clear implicits.

(** * Record writes and their stamps *)

(** The stamp a write's row takes never decides whether the write fits: specs
    that differ in stamps alone take the same writes. This is what the trial
    at version 0 relies on. *)
Class StampedWrites (M : MachineSig) : Type := {
  unstamped : relation (Spec M);
  unstamped_equiv :: Equivalence unstamped;
  write_unstamped : forall w s s' v v' t,
    unstamped s s' -> write_apply M w s v = Ok t ->
    exists t', write_apply M w s' v' = Ok t' /\ unstamped t t';
}.

Section trial.
Context {M : MachineSig} `{!StampedWrites M}.

Lemma trial_unstamped ws s s' v v' t :
  unstamped s s' -> trial M s ws v = Ok t -> exists t', trial M s' ws v' = Ok t' /\ unstamped t t'.
Proof.
  revert s s'. induction ws as [|w ws IH]; intros s s' Hs H; cbn in *; [simplify_eq; eauto|].
  destruct (write_apply M w s v) as [s1|] eqn:Hw; [|done].
  destruct (write_unstamped w s s' v v' s1 Hs Hw) as (s1' & -> & Hs1). by eapply IH.
Qed.

Lemma trial_apply_writes s ws v t : trial M s ws v = Ok t -> apply_writes M s ws v = t.
Proof.
  revert s. induction ws as [|w ws IH]; intros s H; cbn in *; [congruence|].
  destruct (write_apply M w s v); [by apply IH|done].
Qed.

(** The trial's success is the real application's: no write is lost. *)
Lemma trial_commits s ws v v' t : trial M s ws v = Ok t -> trial M s ws v' = Ok (apply_writes M s ws v').
Proof.
  intros H. destruct (trial_unstamped ws s s v v' t) as (t' & Ht' & _); [reflexivity|done|].
  by rewrite (trial_apply_writes _ _ _ _ Ht').
Qed.
End trial.

(** * What the operations do *)

Section operations.
Context {M : MachineSig} {L : Type} `{!Machine M, !Log M L}.
Implicit Types (h : Home M L).

Lemma with_state_id (r : Resource M) s : with_state (with_state r s) (r_state r) = r.
Proof. by destruct r. Qed.

(** A write that fails leaves every resource as it was. *)
Lemma apply_failed h name edge world now e h' :
  apply h name edge world now = (Err e, h') -> home_resources h' = home_resources h.
Proof.
  unfold apply. intros H. destruct (home_resources h !! name) as [r|] eqn:Hr; [|by simplify_eq].
  destruct (step _ _ _) as [[nxt|er] hd]; [|by simplify_eq].
  destruct (trial _ _ _ _); [|by simplify_eq].
  destruct (log_edge_with_writes _ _ _ _ _ _) as [[v|er] log]; [done|]. simplify_eq/=.
  rewrite with_state_id. by apply insert_id.
Qed.

Lemma create_failed h name request world now e h' :
  create h name request world now = (Err e, h') -> home_resources h' = home_resources h.
Proof. unfold create. intros H. by split_cases. Qed.

(** What one applied edge leaves. *)
Inductive applied (h : Home M L) (name : string) (edge : Edge M) (world : World M) (now : Timestamp)
    (ev : EdgeEventOf M) (h' : Home M L) : Prop :=
| mkApplied (r : Resource M) (nxt : MState M) (hd : Handle M) (spec0 : Spec M) (v : Version) (log' : L)
    (ap_lookup : home_resources h !! name = Some r)
    (ap_step : step (home_definition h) edge (handle_on r world now) = (Ok nxt, hd))
    (ap_trial : trial M (r_spec r) (h_writes hd) 0 = Ok spec0)
    (ap_log : log_edge_with_writes (home_log h) (home_writer h) (r_state r)
      (with_state r (mkState nxt (if bool_decide (r_label r = label M nxt) then since (r_state r) else now)))
      ev (h_writes hd) = (Ok v, log'))
    (ap_event : ev = mkEdgeEvent (edge_kind M edge) (r_label r) (label M nxt) now (mkEdgePayload edge (h_reads hd)))
    (ap_home : h' = mkHome (home_writer h) (home_definition h)
      (<[name := mkResource (r_name r) (apply_writes M (r_spec r) (h_writes hd) v)
         (mkState nxt (if bool_decide (r_label r = label M nxt) then since (r_state r) else now)) v]>
       (home_resources h)) log').

Lemma apply_Ok h name edge world now ev h' :
  apply h name edge world now = (Ok ev, h') -> applied h name edge world now ev h'.
Proof.
  unfold apply. intros H. destruct (home_resources h !! name) as [r|] eqn:Hr; [|done].
  destruct (step _ _ _) as [[nxt|er] hd] eqn:Hs; [|done].
  destruct (trial _ _ _ _) as [spec0|] eqn:Ht; [|done].
  destruct (log_edge_with_writes _ _ _ _ _ _) as [[v|er] log] eqn:Hl; [|done]. simplify_eq.
  by econstructor.
Qed.

Lemma create_Ok h name request world now c h' :
  create h name request world now = (Ok c, h') ->
  home_resources h !! name = None /\
  exists spec state ad log',
    admits request (mkAdmission world now []) = (Ok (spec, state), ad) /\
    label M state = md_initial (home_definition h) /\
    log_create_resource (home_log h) (home_writer h) now (mkResource name spec (mkState state now) 0) (ad_reads ad) = (Ok (created c), log') /\
    created_reads c = ad_reads ad /\
    h' = mkHome (home_writer h) (home_definition h) (<[name := created c]> (home_resources h)) log'.
Proof.
  unfold create. intros H. destruct (home_resources h !! name) eqn:Hr; [done|]. split; [done|].
  destruct (admits _ _) as [[[spec state]|] ad] eqn:Ha; [|done]. case_bool_decide as Hl; [|done].
  destruct (log_create_resource _ _ _ _ _) as [[r|] log'] eqn:Hc; [|done]. simplify_eq/=. eauto 10.
Qed.
End operations.

(** * Invariants of a machine, and of every home that runs it *)

(** What a machine promises its home: [Inv] holds of what admission returns,
    for the requests a caller may make, and every step keeps it, record writes
    included, whatever stamp they take. *)
Class MachineInv (M : MachineSig) `{!Machine M} (may : Request M -> Prop) (Inv : Spec M -> MState M -> Prop) : Prop := {
  admit_inv : forall request world now spec state ad, may request ->
    admits request (mkAdmission world now []) = (Ok (spec, state), ad) -> Inv spec state;
  step_inv : forall r world now edge nxt hd v spec',
    Inv (r_spec r) (value (r_state r)) ->
    step (definition M) edge (handle_on r world now) = (Ok nxt, hd) ->
    trial M (r_spec r) (h_writes hd) v = Ok spec' -> Inv spec' nxt;
}.

Section invariant.
Context {M : MachineSig} {L : Type} `{!Machine M, !Log M L}.

(** One call on a home; [may] says which requests a caller may make, [stored]
    which resources storage may restore. *)
Inductive home_step (may : Request M -> Prop) (stored : Resource M -> Prop) (h : Home M L) : Home M L -> Prop :=
| hs_create name request world now r h' : may request -> create h name request world now = (r, h') -> home_step may stored h h'
| hs_apply name edge world now r h' : apply h name edge world now = (r, h') -> home_step may stored h h'
| hs_evict name r h' : evict h name = (r, h') -> home_step may stored h h'
| hs_restore res r h' : stored res -> restore h res = (r, h') -> home_step may stored h h'.

Context (may : Request M -> Prop) (Inv : Spec M -> MState M -> Prop) `{!MachineInv M may Inv, !StampedWrites M, !LogLaws M L}.

Definition resource_ok (r : Resource M) : Prop := Inv (r_spec r) (value (r_state r)).

(** Each resident resource is filed under its own name and keeps [Inv]. *)
Definition home_ok (h : Home M L) : Prop :=
  home_definition h = definition M /\
  map_Forall (fun name r => r_name r = name /\ resource_ok r) (home_resources h).

Lemma home_ok_new writer log h : with_log writer log = Ok h -> home_ok h.
Proof.
  unfold with_log. intros H. destruct (validate _); [|done]. injection H as <-. split; [done|]. apply map_Forall_empty.
Qed.

Lemma create_ok h name request world now r h' :
  may request -> home_ok h -> create h name request world now = (r, h') -> home_ok h'.
Proof.
  intros Hmay [Hd Hr] Hc. destruct r as [c|e].
  - apply create_Ok in Hc as (Hn & spec & state & ad & log' & Ha & Hl & Hlog & _ & ->).
    split; [done|]. apply map_Forall_insert_2; [|done].
    apply create_keeps in Hlog as (-> & Hs & Hst). split; [done|]. unfold resource_ok. rewrite Hs, Hst. by eapply admit_inv.
  - pose proof (create_failed _ _ _ _ _ _ _ Hc) as Hres. split; [|by rewrite Hres].
    revert Hc. unfold create. by repeat case_match; intros; simplify_eq/=.
Qed.

Lemma apply_ok h name edge world now r h' :
  home_ok h -> apply h name edge world now = (r, h') -> home_ok h'.
Proof.
  intros [Hd Hr] Ha. destruct r as [ev|e].
  - apply apply_Ok in Ha as [r nxt hd spec0 v log' Hl Hs Ht _ _ ->]. split; [done|].
    apply map_Forall_insert_2; [|done]. apply Hr in Hl as [Hn Hok]. split; [done|]. unfold resource_ok. cbn.
    rewrite Hd in Hs. eapply step_inv; [exact Hok|exact Hs|]. by eapply trial_commits.
  - pose proof (apply_failed _ _ _ _ _ _ _ Ha) as Hres. split; [|by rewrite Hres].
    revert Ha. unfold apply. by repeat case_match; intros; simplify_eq/=.
Qed.

Lemma evict_ok h name : home_ok h -> home_ok (evict h name).2.
Proof. intros [Hd Hr]. split; [done|]. by apply map_Forall_delete. Qed.

Lemma restore_ok h res r h' : resource_ok res -> home_ok h -> restore h res = (r, h') -> home_ok h'.
Proof.
  intros Hok [Hd Hr]. unfold restore. destruct (home_resources h !! r_name res); intros H; simplify_eq; [done|].
  split; [done|]. by apply map_Forall_insert_2.
Qed.

Lemma home_step_ok h h' : home_step may resource_ok h h' -> home_ok h -> home_ok h'.
Proof.
  intros Hs H0. destruct Hs; eauto using create_ok, apply_ok, restore_ok. pose proof (evict_ok h name H0) as He. by rewrite H in He.
Qed.
(** A call that leaves a name resident leaves its resource as it was, or took a
    step of it. *)
Lemma resident_step h h' name r : home_ok h -> home_step may resource_ok h h' -> home_resources h !! name = Some r -> is_Some (home_resources h' !! name) ->
  exists r', home_resources h' !! name = Some r' /\
    (r' = r \/ exists edge world now hd, step (definition M) edge (handle_on r world now) = (Ok (value (r_state r')), hd) /\ trial M (r_spec r) (h_writes hd) (r_version r') = Ok (r_spec r')).
Proof.
  intros [Hd _] Hs Hl His. destruct Hs as [n request world now [c|e] h' _ Hc|n edge world now [ev|e] h' Ha|n res h' He|res o h' _ Hr].
  - apply create_Ok in Hc as (Hn & spec & state & ad & log' & _ & _ & _ & _ & ->). exists r. split; [|by left]. cbn. by rewrite lookup_insert_ne by congruence.
  - rewrite (create_failed _ _ _ _ _ _ _ Hc). eauto.
  - apply apply_Ok in Ha as [r0 nxt hd spec0 v log' Hl0 Hst Ht _ _ ->]. cbn. destruct (decide (n = name)) as [->|Hne]; [|exists r; by rewrite lookup_insert_ne; auto].
    rewrite Hl in Hl0. injection Hl0 as <-. eexists. split; [apply lookup_insert_eq|]. right. rewrite Hd in Hst. exists edge, world, now, hd. cbn. split; [done|by eapply trial_commits].
  - rewrite (apply_failed _ _ _ _ _ _ _ Ha). eauto.
  - unfold evict in He. injection He as _ <-. cbn in *. destruct His as [r' Hr']. exists r'. split; [done|]. apply lookup_delete_Some in Hr' as [_ Hr']. left. congruence.
  - unfold restore in Hr. destruct (home_resources h !! r_name res) eqn:Hn; injection Hr as <- <-; [eauto|]. exists r. split; [|by left]. cbn. by rewrite lookup_insert_ne by congruence.
Qed.
(** Every home reached from a new one keeps the machine's invariant. *)
Lemma home_reachable_ok writer log h0 h :
  with_log writer log = Ok h0 -> rtc (home_step may resource_ok) h0 h -> home_ok h.
Proof.
  intros H0 Hr. apply home_ok_new in H0. induction Hr as [|h1 h2 h3 Hs _ IH]; [done|]. apply IH. by eapply home_step_ok.
Qed.
End invariant.

(** The writes of a machine without records. *)
Ltac no_records :=
  refine {| unstamped := eq |}; by intros [].

(** * Properties *)

Section properties.
Context {M : MachineSig} {L : Type} `{!Machine M, !Log M L}.

(** a refused, faulted or unlogged edge leaves every resource of the home
    exactly as it was, state and version included. *)
Theorem failed_apply_changes_nothing (h : Home M L) name edge world now e h' :
  apply h name edge world now = (Err e, h') -> home_resources h' = home_resources h.
Proof. apply apply_failed. Qed.

(** C32: an applied edge commits the step it took. The log is given the state
    left, the resource moved, the event and the step's record writes, and what
    it leaves is the home's log; the resource takes the version it answers with,
    which rises, and the step's next state, entered now when the label changed and
    before otherwise; every record write of the step is applied, stamped with
    that version, none lost; the event names the edge, both labels, the time and
    every input read; no other resource changes, nor the home's writer or
    declaration. *)
Theorem apply_commits `{!StampedWrites M, !LogLaws M L} (h : Home M L) name edge world now ev h' :
  apply h name edge world now = (Ok ev, h') ->
  exists r r' hd,
    home_resources h !! name = Some r /\ home_resources h' = <[name := r']> (home_resources h) /\
    step (home_definition h) edge (handle_on r world now) = (Ok (value (r_state r')), hd) /\
    log_edge_with_writes (home_log h) (home_writer h) (r_state r) (with_state r (r_state r')) ev (h_writes hd) = (Ok (r_version r'), home_log h') /\
    trial M (r_spec r) (h_writes hd) (r_version r') = Ok (r_spec r') /\
    since (r_state r') = (if bool_decide (r_label r = r_label r') then since (r_state r) else now) /\
    (r_version r < r_version r' \/ r_version r' = u64_max) /\ r_name r' = r_name r /\
    ev = mkEdgeEvent (edge_kind M edge) (r_label r) (r_label r') now (mkEdgePayload edge (h_reads hd)) /\
    home_writer h' = home_writer h /\ home_definition h' = home_definition h.
Proof.
  intros H. apply apply_Ok in H as [r nxt hd spec0 v log' Hl Hs Ht Hlog Hev ->]. eexists r, _, hd. cbn.
  split; [done|]. split; [reflexivity|]. cbn. split; [done|]. split; [done|]. split; [by eapply trial_commits|]. split; [done|].
  split; [by eapply edge_rises in Hlog|]. done.
Qed.

(** whatever a machine's admission establishes and its steps keep, every
    resource of every home reached by creating, applying, evicting and
    restoring keeps, and is filed under its own name. *)
Theorem home_keeps_invariant (may : Request M -> Prop) (Inv : Spec M -> MState M -> Prop)
    `{!MachineInv M may Inv, !StampedWrites M, !LogLaws M L} writer log (h0 h : Home M L) :
  with_log writer log = Ok h0 -> rtc (home_step may (resource_ok Inv)) h0 h ->
  forall name r, home_resources h !! name = Some r -> r_name r = name /\ Inv (r_spec r) (value (r_state r)).
Proof.
  intros H0 Hr name r Hl. destruct (home_reachable_ok may Inv writer log h0 h H0 Hr) as [_ Hall]. by apply (Hall name r).
Qed.

End properties.
