(* ===== verification/Attempt.v ===== *)
(** Attempts ([crates/flotilla-state-machines/src/attempt.rs]): the tally an
    attempt leaves, the backoff policy, and the retry judgement. *)

From S2P Require Import Prelude Schema Read Machine.

Inductive CauseCategory : Type := Transient | CRefused | Misconfigured | MissingCapability | External.

Record Cause : Type := mkCause { category : CauseCategory; detail : string }.

Inductive Outcome : Type :=
| Succeeded
| Failed (cause : Cause) (retryable : bool).

(** The latest failure of the current attempt window. *)
Record Failure : Type := mkFailure { f_at : Timestamp; f_cause : Cause; f_retryable : bool }.

#[export] Instance CauseCategory_eq_dec : EqDecision CauseCategory.
Proof. solve_decision. Defined.
#[export] Instance Cause_eq_dec : EqDecision Cause.
Proof. solve_decision. Defined.
#[export] Instance Failure_eq_dec : EqDecision Failure.
Proof. solve_decision. Defined.
#[export] Instance Outcome_eq_dec : EqDecision Outcome.
Proof. solve_decision. Defined.

(** A success clears the window's failures; a failure adds one, saturating at
    [u32::MAX], and becomes the latest. *)
Definition tally (failures : Z) (outcome : Outcome) (at_ : Timestamp) : Z * option Failure :=
  match outcome with
  | Succeeded => (0, None)
  | Failed cause retryable => (u32_saturating_add failures 1, Some (mkFailure at_ cause retryable))
  end.

(** [max_failures] and [factor] are [u32], [base] and [cap] are [i64]. *)
Record AttemptPolicy : Type := mkPolicy { max_failures : Z; base : Z; factor : Z; cap : Z }.

Definition immediate (max_failures : Z) : AttemptPolicy := mkPolicy max_failures 0 1 0.

(** The loop of [backoff]: [n] further failures, stopping at the cap. *)
Fixpoint backoff_loop (p : AttemptPolicy) (n : nat) (delay : Z) : Z :=
  match n with
  | O => delay
  | S n => if decide (delay >= cap p) then delay
           else backoff_loop p n (i64_saturating_mul delay (Z.max (factor p) 1))
  end.

(** The delay after the [failures]-th consecutive failure. *)
Definition backoff (p : AttemptPolicy) (failures : Z) : Z :=
  Z.min (backoff_loop p (Z.to_nat (failures - 1)) (Z.max (base p) 0)) (Z.max (cap p) 0).

Inductive Schedule : Type := Now | At (moment : Timestamp) | Exhausted.
#[export] Instance Schedule_eq_dec : EqDecision Schedule.
Proof. solve_decision. Defined.

Record Retry : Type := mkRetry { rt_failures : Z; schedule : Schedule; last_cause : option Cause }.

Definition exhausted (r : Retry) : bool := bool_decide (schedule r = Exhausted).

Definition due (r : Retry) (now : Timestamp) : bool :=
  match schedule r with Now => true | At moment => bool_decide (now >= moment) | Exhausted => false end.

(** The retry judgement for the current window, from the state's tally. *)
Definition retry {M} (policy : AttemptPolicy) (failures : Z) (last : option Failure) : HM M Retry :=
  match last with
  | Some last =>
      if decide (failures > 0) then
        if negb (f_retryable last) || bool_decide (failures >= Z.max (max_failures policy) 1) then
          hret (mkRetry failures Exhausted (Some (f_cause last)))
        else
          let moment := ts_saturating_add (f_at last) (backoff policy failures) in
          do! _ := h_until moment in
          hret (mkRetry failures (At moment) (Some (f_cause last)))
      else hret (mkRetry 0 Now None)
  | None => hret (mkRetry 0 Now None)
  end.

(** * The backoff in closed form *)

Definition policy_ok (p : AttemptPolicy) : Prop :=
  is_u32 (max_failures p) /\ is_i64 (base p) /\ is_u32 (factor p) /\ is_i64 (cap p).

Lemma backoff_loop_min p n delay :
  policy_ok p -> 0 <= delay <= i64_max ->
  Z.min (backoff_loop p n delay) (Z.max (cap p) 0) = Z.min (delay * Z.max (factor p) 1 ^ Z.of_nat n) (Z.max (cap p) 0).
Proof.
  intros (_ & _ & Hf & Hc) Hd. revert delay Hd. induction n as [|n IH]; intros delay Hd; cbn -[Z.pow].
  - by rewrite Z.pow_0_r, Z.mul_1_r.
  - set (f := Z.max (factor p) 1) in *. assert (0 < f ^ Z.of_nat n) as Hp0 by (apply Z.pow_pos_nonneg; unfold f; lia).
    rewrite Nat2Z.inj_succ, Z.pow_succ_r by lia. assert (1 <= f) as Hf1 by (unfold f; lia). clearbody f.
    assert (1 <= f * f ^ Z.of_nat n) as Hp1 by nia.
    case_decide as Hge.
    + assert (delay <= delay * (f * f ^ Z.of_nat n)) by nia. lia.
    + assert (0 <= delay * f) as Hdf by nia.
      rewrite IH by (unfold i64_saturating_mul, i64_clamp; revert Hdf; generalize (delay * f); unfold_ints; lia).
      destruct (Z.le_gt_cases (delay * f) i64_max) as [Hle|Hgt].
      * assert (i64_saturating_mul delay f = delay * f) as -> by (unfold i64_saturating_mul; unfold_ints; lia).
        by rewrite Z.mul_assoc.
      * assert (i64_saturating_mul delay f = i64_max) as -> by (unfold i64_saturating_mul; unfold_ints; lia).
        assert (i64_max <= i64_max * f ^ Z.of_nat n) by (unfold_ints; nia).
        assert (i64_max <= delay * (f * f ^ Z.of_nat n)) by nia. unfold_ints. lia.
Qed.

(** The loop with its early stop is the capped geometric delay. *)
Lemma backoff_closed p n : policy_ok p -> 1 <= n ->
  backoff p n = Z.min (Z.max (base p) 0 * Z.max (factor p) 1 ^ (n - 1)) (Z.max (cap p) 0).
Proof.
  intros Hp Hn. unfold backoff. rewrite backoff_loop_min; [|done|destruct Hp as (_ & ? & _); unfold_ints; lia].
  by rewrite Z2Nat.id by lia.
Qed.

Lemma backoff_range p n : policy_ok p -> 0 <= backoff p n <= Z.max (cap p) 0.
Proof.
  intros Hp. unfold backoff. rewrite backoff_loop_min; [|done|destruct Hp as (_ & ? & _); unfold_ints; lia].
  split; [|lia]. apply Z.min_glb; [|lia]. apply Z.mul_nonneg_nonneg; [lia|]. apply Z.pow_nonneg. lia.
Qed.

Lemma backoff_mono p n m : policy_ok p -> 1 <= n <= m -> backoff p n <= backoff p m.
Proof.
  intros Hp Hn. rewrite !backoff_closed by (done || lia). apply Z.min_le_compat_r.
  apply Z.mul_le_mono_nonneg_l; [lia|]. apply Z.pow_le_mono_r; lia.
Qed.

(** * The retry judgement *)

Lemma tally_range n o at_ : is_u32 n -> is_u32 (tally n o at_).1.
Proof. destruct o; cbn; unfold_ints; lia. Qed.

(** The window's latest failure is there exactly when its count is positive. *)
Definition tally_ok (failures : Z) (last : option Failure) : Prop :=
  is_u32 failures /\ (0 < failures <-> is_Some last).

Lemma tally_keeps n last o at_ : tally_ok n last -> tally_ok (tally n o at_).1 (tally n o at_).2.
Proof.
  intros [Hn _]. split; [by apply tally_range|]. destruct o; cbn.
  - split; [lia|by intros []].
  - split; [by eauto|]. unfold_ints. lia.
Qed.

Lemma retry_exhausted {M} p n last (h : Handle M) :
  exhausted (retry p n last h).1 = true <->
  0 < n /\ exists f, last = Some f /\ (f_retryable f = false \/ Z.max (max_failures p) 1 <= n).
Proof.
  unfold retry, exhausted. destruct last as [f|]; [|split; [done|by intros (_ & ? & ? & _)]].
  case_decide as Hn; [|split; [done|lia]].
  destruct (f_retryable f) eqn:Hf; cbn; [|split; [intros _; split; [lia|by eauto]|done]].
  destruct (bool_decide (n >= Z.max (max_failures p) 1)) eqn:Hm; cbn.
  - apply bool_decide_eq_true in Hm. split; [|done]. intros _. split; [lia|]. exists f. split; [done|]. right. lia.
  - apply bool_decide_eq_false in Hm. split; [done|]. intros (_ & f' & [= <-] & [?|?]); [congruence|lia].
Qed.

(** * Counting attempts in a history *)

(** How the machine specifications count: the failures of the current window,
    from index [window] on, that no later success follows. *)
Section counting.
Context {A : Type} (failed : A -> bool).

Definition counts (h : list A) (window i : nat) : bool :=
  (window <=? i)%nat && match h !! i with Some a => failed a | None => false end &&
  negb (existsb (fun j => (i <? j)%nat && match h !! j with Some a => negb (failed a) | None => false end) (seq 0 (length h))).

Definition failure_count (h : list A) (window : nat) : Z :=
  Z.of_nat (length (List.filter (counts h window) (seq 0 (length h)))).

Lemma existsb_ext_elem {B} (f g : B -> bool) l : (forall x, x ∈ l -> f x = g x) -> existsb f l = existsb g l.
Proof. induction l as [|x l IH]; intros H; [done|]. cbn. rewrite H, IH by set_solver. done. Qed.

Lemma filter_ext_elem {B} (f g : B -> bool) l : (forall x, x ∈ l -> f x = g x) -> List.filter f l = List.filter g l.
Proof. induction l as [|i l IH]; intros H; [done|]. cbn. rewrite H, IH by set_solver. done. Qed.

Lemma counts_snoc h a n i : failed a = true -> (i < length h)%nat -> counts (h ++ [a]) n i = counts h n i.
Proof.
  intros Ha Hi. unfold counts. rewrite lookup_app_l by done. f_equal. f_equal.
  rewrite length_app. cbn [length]. rewrite seq_app, existsb_app. cbn [seq existsb].
  rewrite list_lookup_middle, Ha, andb_false_r, !orb_false_r by lia.
  apply existsb_ext_elem. intros j Hj. apply elem_of_seq in Hj. by rewrite lookup_app_l by lia.
Qed.

Lemma failure_count_failed h a n : failed a = true -> (n <= length h)%nat ->
  failure_count (h ++ [a]) n = failure_count h n + 1.
Proof.
  intros Ha Hn. unfold failure_count. rewrite length_app. cbn [length].
  rewrite seq_app, List.filter_app, length_app. cbn [seq List.filter].
  assert (counts (h ++ [a]) n (0 + length h) = true) as ->.
  { unfold counts. cbn [Nat.add]. rewrite list_lookup_middle, Ha by done.
    apply andb_true_iff. split; [rewrite andb_true_r; by apply Nat.leb_le|]. apply negb_true_iff, existsb_false.
    intros j Hj. apply elem_of_seq in Hj. rewrite length_app in Hj. cbn in Hj.
    assert ((length h <? j)%nat = false) as -> by (apply Nat.ltb_ge; lia). done. }
  cbn [length]. rewrite Nat2Z.inj_add. f_equal. f_equal. f_equal. apply filter_ext_elem.
  intros j Hj. apply elem_of_seq in Hj. apply counts_snoc; [done|lia].
Qed.

Lemma failure_count_succeeded h a n : failed a = false -> failure_count (h ++ [a]) n = 0.
Proof.
  intros Ha. unfold failure_count. rewrite (filter_ext_elem _ (fun _ => false)); [by induction (seq _ _)|].
  intros j Hj. apply elem_of_seq in Hj. rewrite length_app in Hj. cbn in Hj. unfold counts.
  destruct (decide (j = length h)) as [->|Hne].
  - rewrite list_lookup_middle, Ha by done. by rewrite andb_false_r.
  - apply andb_false_iff. right. apply negb_false_iff, existsb_elem. exists (length h).
    rewrite elem_of_seq, length_app, list_lookup_middle, Ha by done. cbn. split; [lia|].
    rewrite andb_true_r. apply Nat.ltb_lt. lia.
Qed.

Lemma failure_count_opened h : failure_count h (length h) = 0.
Proof.
  unfold failure_count. rewrite (filter_ext_elem _ (fun _ => false)); [by induction (seq _ _)|].
  intros j Hj. apply elem_of_seq in Hj. unfold counts.
  assert ((length h <=? j)%nat = false) as -> by (apply Nat.leb_gt; lia). done.
Qed.
End counting.

(** Whether the retry judgement is exhausted, from the tally alone. *)
Definition spent (p : AttemptPolicy) (n : Z) (last : option Failure) : bool :=
  match last with
  | Some f => bool_decide (0 < n) && (negb (f_retryable f) || bool_decide (Z.max (max_failures p) 1 <= n))
  | None => false
  end.

Lemma retry_spent {M} p n last (h : Handle M) : exhausted (retry p n last h).1 = spent p n last.
Proof.
  apply eq_iff_eq_true. rewrite retry_exhausted. unfold spent. destruct last as [f|]; [|by split; [intros (_ & ? & ? & _)|]].
  rewrite andb_true_iff, orb_true_iff, negb_true_iff, !bool_decide_eq_true. split.
  - by intros (? & ? & [= <-] & ?).
  - intros [??]. eauto.
Qed.

Lemma tally_ok_open : tally_ok 0 None.
Proof. split; [unfold_ints; lia|]. split; [lia|by intros []]. Qed.

(** The tally stands for the history's current window. *)
Section window.
Context {A : Type} (failed : A -> bool) (stands : A -> Failure -> Prop).

Record tallied (h : list A) (window : nat) (n : Z) (lf : option Failure) : Prop := mkTallied {
  td_window : (window <= length h)%nat;
  td_failures : n = Z.min (failure_count failed h window) u32_max;
  td_some : forall f, lf = Some f -> (window < length h)%nat /\ exists a, last h = Some a /\ failed a = true /\ stands a f;
  td_none : lf = None -> (length h <= window)%nat \/ exists a, last h = Some a /\ failed a = false;
  td_ok : tally_ok n lf;
}.

Lemma tallied_open h : tallied h (length h) 0 None.
Proof.
  constructor; [done|by rewrite failure_count_opened|done|by left|apply tally_ok_open].
Qed.

Lemma tallied_success h a w n lf : failed a = false -> tallied h w n lf -> tallied (h ++ [a]) w 0 None.
Proof.
  intros Ha [Hw Hn Hs He Hok]. constructor; [rewrite length_app; lia|by rewrite failure_count_succeeded|done| |apply tally_ok_open].
  intros _. right. exists a. by rewrite last_snoc.
Qed.

Lemma tallied_failure h a w n lf f : failed a = true -> stands a f -> tallied h w n lf ->
  tallied (h ++ [a]) w (u32_saturating_add n 1) (Some f).
Proof.
  intros Ha Hst [Hw Hn Hs He [Hr _]]. constructor; [rewrite length_app; lia| | |done|].
  - rewrite failure_count_failed by done. rewrite Hn. unfold_ints. lia.
  - intros f' [= <-]. split; [rewrite length_app; cbn; lia|]. exists a. by rewrite last_snoc.
  - split; [unfold_ints; lia|]. split; [eauto|]. unfold_ints. lia.
Qed.

(** The judgement over the tally is the rule over the history: the count
    reaches the bound, or the window's last attempt failed beyond retry. *)
Lemma tallied_spent p h w n lf (retryable : A -> bool) : policy_ok p -> tallied h w n lf ->
  (forall a f, stands a f -> f_retryable f = retryable a) ->
  spent p n lf = bool_decide (Z.max (max_failures p) 1 <= failure_count failed h w) ||
    (bool_decide (w < length h)%nat && match last h with Some a => failed a && negb (retryable a) | None => false end).
Proof.
  intros (Hm & _) [Hw Hn Hs He [_ Ht]] Hst. apply eq_iff_eq_true. unfold spent.
  rewrite orb_true_iff, andb_true_iff, !bool_decide_eq_true. destruct lf as [f|].
  - rewrite andb_true_iff, orb_true_iff, negb_true_iff, !bool_decide_eq_true.
    destruct (Hs f eq_refl) as (Hwin & a & Hl & Ha & Haf). rewrite Hl, Ha, (Hst _ _ Haf). cbn. rewrite negb_true_iff.
    assert (0 < n) by (apply Ht; eauto). rewrite Hn in *. unfold_ints. intuition lia.
  - assert (~ 0 < n) as Hz by (intros Hp; apply Ht in Hp as [? ?]; congruence). split; [done|].
    rewrite Hn in Hz. intros [Hge|[Hwin Hlast]]; [unfold_ints; lia|].
    destruct (He eq_refl) as [?|(a & Hl & Ha)]; [lia|]. by rewrite Hl, Ha in Hlast.
Qed.
End window.

(** * Properties *)

(** the delay before another try is [base * factor^(n-1)] capped at [cap],
    with negative settings read as zero and a factor of zero as one: saturating
    multiplication and the early exit of the loop never change the result. *)
Theorem backoff_is_capped_exponential (p : AttemptPolicy) n : policy_ok p -> 1 <= n ->
  backoff p n = Z.min (Z.max (base p) 0 * Z.max (factor p) 1 ^ (n - 1)) (Z.max (cap p) 0).
Proof. apply backoff_closed. Qed.

Lemma backoff_is_capped_exponential_witness : backoff (mkPolicy 5 1000000 2 60000000) 4 = 8000000.
Proof.
  rewrite (backoff_is_capped_exponential (mkPolicy 5 1000000 2 60000000) 4); [reflexivity| |lia].
  unfold policy_ok. cbn. unfold_ints. lia.
Defined.

(** The retry rule on the tally that a sequence of attempts leaves, each attempt
    with the time it ended. *)
Definition after_attempts {M} (outcomes : list (Outcome * Timestamp)) (p : AttemptPolicy) : HM M Retry :=
  let t := foldl (fun t o => tally t.1 o.1 o.2) (0, None) outcomes in retry p t.1 t.2.

Definition outcome_failed (o : Outcome * Timestamp) : bool := match o.1 with Failed _ _ => true | Succeeded => false end.
Definition outcome_retryable (o : Outcome * Timestamp) : bool := match o.1 with Failed _ r => r | Succeeded => true end.

Lemma tallied_attempts outcomes :
  let t := foldl (fun t o => tally t.1 o.1 o.2) (0, None) outcomes in
  tallied outcome_failed (fun o f => f_retryable f = outcome_retryable o) outcomes 0 t.1 t.2.
Proof.
  induction outcomes as [|[o at_] outcomes IH] using rev_ind; [apply (tallied_open _ _ [])|].
  rewrite foldl_app. cbn in *. destruct o as [|c r]; cbn; [by eapply tallied_success|by eapply tallied_failure].
Qed.

(** the retry rule over the tally alone agrees with the history it stands
    for: after any sequence of attempts, retries are exhausted exactly when the
    trailing failures reach the policy's limit (at least one), or the last
    attempt failed in a way that cannot be retried. *)
Theorem retry_agrees_with_history {M} (p : AttemptPolicy) (outcomes : list (Outcome * Timestamp)) (h : Handle M) : policy_ok p ->
  exhausted (after_attempts outcomes p h).1 =
  bool_decide (Z.max (max_failures p) 1 <= failure_count outcome_failed outcomes 0) ||
  match last outcomes with Some o => outcome_failed o && negb (outcome_retryable o) | None => false end.
Proof.
  intros Hp. unfold after_attempts. rewrite retry_spent.
  rewrite (tallied_spent _ _ p outcomes 0 _ _ outcome_retryable Hp (tallied_attempts outcomes)) by done.
  f_equal. destruct outcomes; [done|]. by rewrite bool_decide_eq_true_2 by (cbn; lia).
Qed.
