(* ===== verification/Steps.v ===== *)
(** Shared lemmas and tactics for reasoning about one machine's steps: what
    reading through the handle leaves alone, what a step changes, and the
    case analysis over labels and edges. *)

From S2P Require Import Prelude Schema Read Machine Validate Engine Log Home Attempt.

(** * Reading leaves the rest of the handle alone *)

Section frame.
Context {M : MachineSig}.

(** The handle's fixed parts, and the writes so far, are the same. *)
Record same_fixed (h h' : Handle M) : Prop := mkSameFixed {
  sf_name : h_name h' = h_name h;
  sf_spec : h_spec h' = h_spec h;
  sf_state : h_state h' = h_state h;
  sf_world : h_world h' = h_world h;
  sf_now : h_now h' = h_now h;
  sf_writes : h_writes h' = h_writes h;
}.

#[export] Instance same_fixed_preorder : PreOrder same_fixed.
Proof. split; [by constructor|]. intros h1 h2 h3 [] []. constructor; congruence. Qed.

Definition reads_only {A} (c : HM M A) : Prop := forall h, same_fixed h (c h).2.

Lemma reads_only_hret {A} (a : A) : reads_only (hret (M := M) a).
Proof. by intros h. Qed.
Lemma reads_only_hbind {A B} (c : HM M A) (f : A -> HM M B) :
  reads_only c -> (forall a, reads_only (f a)) -> reads_only (hbind c f).
Proof.
  intros Hc Hf h. unfold hbind. specialize (Hc h). destruct (c h) as [a h']. cbn in Hc.
  etrans; [exact Hc|apply Hf].
Qed.
Lemma reads_only_gret {A} (a : A) : reads_only (gret (M := M) a).
Proof. by intros h. Qed.
Lemma reads_only_gbind {A B} (c : GM M A) (f : A -> GM M B) :
  reads_only c -> (forall a, reads_only (f a)) -> reads_only (gbind c f).
Proof.
  intros Hc Hf h. unfold gbind. specialize (Hc h). destruct (c h) as [[a|e] h']; cbn in Hc; [|done].
  etrans; [exact Hc|apply Hf].
Qed.
Lemma reads_only_glet {A B} (c : HM M A) (f : A -> GM M B) :
  reads_only c -> (forall a, reads_only (f a)) -> reads_only (glet c f).
Proof. apply reads_only_hbind. Qed.
Lemma reads_only_refuse {A} (r : Refusal M) : reads_only (refuse (A := A) r).
Proof. by intros h. Qed.
Lemma reads_only_ask : reads_only (@ask M).
Proof. by intros h. Qed.
Lemma reads_only_read {K} `{Kind K, !Source (World M) K} (r : Ref K) : reads_only (h_read (M := M) r).
Proof. by intros h. Qed.
Lemma reads_only_until moment : reads_only (@h_until M moment).
Proof. by intros h. Qed.
End frame.

(** The value of a sequence, by the value and the handle of its first part. *)
Lemma glet_eq {M A B} (c : HM M A) (f : A -> GM M B) h : glet c f h = f (c h).1 (c h).2.
Proof. unfold glet. by destruct (c h). Qed.
Lemma hbind_eq {M A B} (c : HM M A) (f : A -> HM M B) h : hbind c f h = f (c h).1 (c h).2.
Proof. unfold hbind. by destruct (c h). Qed.

#[export] Hint Resolve reads_only_hret reads_only_hbind reads_only_gret reads_only_gbind reads_only_glet
  reads_only_refuse reads_only_ask reads_only_read reads_only_until : flotilla.

(** * What a step changes *)

Section changes.
Context {M : MachineSig}.

Lemma elem_of_changed (s s' : MState M) x :
  x ∈ changed M s s' <-> exists v, (x, v) ∈ data M s' /\ (x, v) ∉ data M s.
Proof.
  unfold changed. rewrite elem_of_set_iter, elem_of_list_to_set, list_elem_of_omap. split.
  - intros ([y v] & Hin & Hx). case_bool_decide; simplify_eq/=. eauto.
  - intros (v & Hin & Hout). exists (x, v). split; [done|]. by rewrite bool_decide_eq_false_2.
Qed.

(** The moves of a step, from its parts. *)
Lemma step_moves (d : MachineDef M) edge h declared h1 nxt h2 :
  end_reason d (label M (h_state h)) = None ->
  find d (edge_kind M edge) = Some declared ->
  label M (h_state h) ∈ de_from declared ->
  run_check (de_check declared) edge h = (Ok tt, h1) ->
  length (h_writes h1) = length (h_writes h) ->
  run_effect (de_effect declared) (h_state h) edge h1 = (Ok nxt, h2) ->
  label M nxt ∈ de_to declared ->
  (forall x, x ∈ changed M (h_state h) nxt -> x ∈ de_changes declared) ->
  (forall w, w ∈ drop (length (h_writes h)) (h_writes h2) -> write_field M w ∈ de_writes declared) ->
  step d edge h = (Ok nxt, h2).
Proof. intros. apply step_Ok. by econstructor. Qed.

(** A gate's refusal is the step's. *)
Lemma step_gate_refuses (d : MachineDef M) edge h declared e h1 :
  end_reason d (label M (h_state h)) = None ->
  find d (edge_kind M edge) = Some declared ->
  label M (h_state h) ∈ de_from declared ->
  run_check (de_check declared) edge h = (Err e, h1) ->
  step d edge h = (Err e, h1).
Proof. intros He Hf Hl Hc. unfold step. by rewrite He, Hf, bool_decide_eq_true_2, Hc. Qed.

Context {A : Type} `{!EdgeArg M A}.

(** The erased gate and effect of an edge, on an edge of its kind. *)
Lemma run_check_pass doc (g : A -> GM M unit) edge a h h1 :
  arg_project edge = Some a -> g a h = (Ok tt, h1) ->
  run_check (Some (CheckGate doc (fun edge h =>
    match arg_project edge with Some a => let (r, h') := g a h in (Some r, h') | None => (None, h) end))) edge h = (Ok tt, h1).
Proof. intros Ha Hg. cbn. by rewrite Ha, Hg. Qed.

Lemma run_check_refuse doc (g : A -> GM M unit) edge a h r h1 :
  arg_project edge = Some a -> g a h = (Err r, h1) ->
  run_check (Some (CheckGate doc (fun edge h =>
    match arg_project edge with Some a => let (r, h') := g a h in (Some r, h') | None => (None, h) end))) edge h = (Err (Refused r), h1).
Proof. intros Ha Hg. cbn. by rewrite Ha, Hg. Qed.

Lemma run_effect_run (f : MState M -> A -> HM M (MState M)) edge a s h nxt h1 :
  arg_project edge = Some a -> f s a h = (nxt, h1) ->
  run_effect (Some (fun state edge h =>
    match arg_project edge with Some a => let (s, h') := f state a h in (Some s, h') | None => (None, h) end)) s edge h = (Ok nxt, h1).
Proof. intros Ha Hf. cbn. by rewrite Ha, Hf. Qed.

(** The handle after further record writes. *)
Definition wrote (h : Handle M) (ws : list (Write M)) : Handle M :=
  mkHandle (h_name h) (h_spec h) (h_state h) (h_world h) (h_now h) (h_reads h) (h_valid_until h) (h_writes h ++ ws).

(** A gated edge, from what its gate decides and what its effect computes and
    writes; the effect may read. *)
Lemma step_gated_by (d : MachineDef M) edge h declared (g : GM M unit) (f : HM M (MState M)) v nxt ws :
  end_reason d (label M (h_state h)) = None ->
  find d (edge_kind M edge) = Some declared ->
  label M (h_state h) ∈ de_from declared ->
  (forall h, run_check (de_check declared) edge h = (map_err Refused (g h).1, (g h).2)) ->
  (forall h', run_effect (de_effect declared) (h_state h) edge h' = (Ok (f h').1, (f h').2)) ->
  reads_only g -> (g h).1 = v ->
  (forall h', same_fixed h h' -> (f h').1 = nxt /\ h_writes (f h').2 = h_writes h' ++ ws) ->
  label M nxt ∈ de_to declared ->
  (forall x, x ∈ changed M (h_state h) nxt -> x ∈ de_changes declared) ->
  (forall w, w ∈ ws -> write_field M w ∈ de_writes declared) ->
  match v with
  | Ok _ => exists h', step d edge h = (Ok nxt, h') /\ h_writes h' = h_writes h ++ ws
  | Err r => (step d edge h).1 = Err (Refused r)
  end.
Proof.
  intros He Hf Hfrom Hck Heff Hro <- Hrun Hto Hch Hw. pose proof (Hro h) as Hfix. specialize (Hck h).
  destruct (g h) as [v h1]. cbn in *. specialize (Heff h1). destruct (Hrun h1 Hfix) as [H1 H2].
  destruct (f h1) as [n h2]. cbn in *. subst n. destruct v as [[]|r].
  - exists h2. rewrite H2, (sf_writes _ _ Hfix). split; [|done].
    eapply step_moves; [done|done|done|exact Hck|by rewrite (sf_writes _ _ Hfix)|exact Heff|done|done|].
    rewrite H2, (sf_writes _ _ Hfix), drop_app_length. done.
  - erewrite step_gate_refuses; [reflexivity|done|done|done|]. exact Hck.
Qed.

(** The same of an effect that only writes. *)
Lemma step_gated (d : MachineDef M) edge h declared (g : GM M unit) (f : HM M (MState M)) v nxt ws :
  end_reason d (label M (h_state h)) = None ->
  find d (edge_kind M edge) = Some declared ->
  label M (h_state h) ∈ de_from declared ->
  (forall h, run_check (de_check declared) edge h = (map_err Refused (g h).1, (g h).2)) ->
  (forall h', run_effect (de_effect declared) (h_state h) edge h' = (Ok (f h').1, (f h').2)) ->
  reads_only g -> (g h).1 = v ->
  (forall h', same_fixed h h' -> f h' = (nxt, wrote h' ws)) ->
  label M nxt ∈ de_to declared ->
  (forall x, x ∈ changed M (h_state h) nxt -> x ∈ de_changes declared) ->
  (forall w, w ∈ ws -> write_field M w ∈ de_writes declared) ->
  match v with
  | Ok _ => exists h', step d edge h = (Ok nxt, h') /\ h_writes h' = h_writes h ++ ws
  | Err r => (step d edge h).1 = Err (Refused r)
  end.
Proof. intros ???? ? ?? Hrun ???. eapply step_gated_by; try done. intros h' Hh. by rewrite (Hrun h' Hh). Qed.

(** The same of an effect that only reads: the step is the gate's verdict. *)
Lemma step_gated_reads (d : MachineDef M) edge h declared (g : GM M unit) (f : HM M (MState M)) v nxt :
  end_reason d (label M (h_state h)) = None ->
  find d (edge_kind M edge) = Some declared ->
  label M (h_state h) ∈ de_from declared ->
  (forall h, run_check (de_check declared) edge h = (map_err Refused (g h).1, (g h).2)) ->
  (forall h', run_effect (de_effect declared) (h_state h) edge h' = (Ok (f h').1, (f h').2)) ->
  reads_only g -> (g h).1 = v ->
  reads_only f -> (forall h', same_fixed h h' -> (f h').1 = nxt) ->
  label M nxt ∈ de_to declared ->
  (forall x, x ∈ changed M (h_state h) nxt -> x ∈ de_changes declared) ->
  (step d edge h).1 = map_err (@Refused M) ((fun _ => nxt) <$> v).
Proof.
  intros He Hfi Hfr Hck Hef Hro Hv Hf Hn Hto Hch.
  pose proof (step_gated_by d edge h declared g f v nxt [] He Hfi Hfr Hck Hef Hro Hv) as H.
  assert (forall h', same_fixed h h' -> (f h').1 = nxt /\ h_writes (f h').2 = h_writes h' ++ []) as Hrun.
  { intros h' Hh. rewrite app_nil_r. split; [by apply Hn|]. apply (sf_writes _ _ (Hf h')). }
  specialize (H Hrun Hto Hch). destruct v as [[]|r].
  - destruct H as (h' & -> & _); [by intros w ?%not_elem_of_nil|done].
  - apply H. by intros w ?%not_elem_of_nil.
Qed.
End changes.

Lemma no_records_nil (l : list NoRecords) : l = [].
Proof. by destruct l as [|[]]. Qed.

Lemma no_records_length (l l' : list NoRecords) : length l = length l'.
Proof. by rewrite (no_records_nil l), (no_records_nil l'). Qed.

(** An invariant of a machine without records, from the function its steps
    compute where the invariant holds. *)
Lemma machine_inv_by_next (M : MachineSig) `{!Machine M}
    (nxt : string -> Spec M -> World M -> Timestamp -> MState M -> Edge M -> result (Refusal M) (MState M))
    (may : Request M -> Prop) (Inv : Spec M -> MState M -> Prop) :
  (Write M -> False) ->
  (forall r e w now, Inv (r_spec r) (value (r_state r)) ->
    (step (definition M) e (handle_on r w now)).1 = map_err Refused (nxt (r_name r) (r_spec r) w now (value (r_state r)) e)) ->
  (forall request world now spec state ad, may request ->
    admits request (mkAdmission world now []) = (Ok (spec, state), ad) -> Inv spec state) ->
  (forall name spec w now s e s', Inv spec s -> nxt name spec w now s e = Ok s' -> Inv spec s') ->
  MachineInv M may Inv.
Proof.
  intros Hno Hstep Hadmit Hnext. split; [eauto|]. intros r world now edge s' hd v spec' Hi Hs Ht.
  destruct (h_writes hd) as [|w ws]; [|by destruct (Hno w)]. cbn in Ht. simplify_eq.
  specialize (Hstep r edge world now Hi). rewrite Hs in Hstep. cbn in Hstep.
  destruct (nxt _ _ _ _ _ _) eqn:Hn; cbn in Hstep; simplify_eq. by eapply Hnext.
Qed.

(** * Tactics *)

(** Proves the laws of a [Coded] instance over a fieldless enum. *)
Ltac coded_complete_tac := intros []; apply (bool_decide_eq_true_1 _); reflexivity.
Ltac coded_nodup_tac := apply (bool_decide_eq_true_1 _); reflexivity.

(** Proves the laws of an [EdgeArg] instance. *)
Ltac edge_arg_tac :=
  match goal with
  | |- forall e a, _ = Some _ -> _ => intros [] ? ?; simplify_eq/=; reflexivity
  | |- forall e, _ = _ -> is_Some _ => intros [] ?; simplify_eq/=; eexists; reflexivity
  | |- _ => reflexivity
  end.

Notation "'edge_arg' M k p c" :=
  (Build_EdgeArg M _ k p c ltac:(edge_arg_tac) ltac:(edge_arg_tac) ltac:(edge_arg_tac))
  (at level 10, M at level 9, k at level 9, p at level 9, c at level 9, only parsing).

(** Decides a closed [x ∈ l] by evaluating it. *)
Ltac elem_compute := apply (bool_decide_eq_true_1 _); reflexivity.
Ltac not_elem_compute := apply (bool_decide_eq_false_1 _); reflexivity.

(** [reads_only] of a gate written with the handle's combinators. *)
Ltac reads_only_tac :=
  intros; repeat first
    [ apply reads_only_hret | apply reads_only_gret | apply reads_only_refuse | apply reads_only_ask
    | apply reads_only_read | apply reads_only_until
    | apply reads_only_glet; [|intros ?] | apply reads_only_gbind; [|intros ?] | apply reads_only_hbind; [|intros ?]
    | progress cbv zeta | case_match | solve [auto with flotilla] ].

(** The three ways a step ends, by evaluating the declaration: the state's
    label and the edge's kind must be constructors. [fl] finds the edge. *)
Ltac step_is_ended := erewrite step_ended by (vm_compute; reflexivity).
Ltac step_is_wrong fl :=
  erewrite step_wrong_state; [|vm_compute; reflexivity|apply fl|cbn; not_elem_compute].
Ltac step_is_refused fl Hg :=
  erewrite step_gate_refuses;
    [|vm_compute; reflexivity|apply fl|cbn; elem_compute|eapply run_check_refuse; [reflexivity|exact Hg]].

(** A step changes only declared data: each datum of the next state is
    declared or held before. *)
Ltac only_changes :=
  let x := fresh "x" in let v := fresh "v" in let H1 := fresh "H1" in let H2 := fresh "H2" in
  intros x H1; apply elem_of_changed in H1 as (v & H1 & H2); cbn in H1, H2 |- *;
  repeat (apply elem_of_cons in H1 as [H1|H1];
    [injection H1 as -> ->; first [set_solver | exfalso; apply H2; set_solver] |]);
  by apply not_elem_of_nil in H1.

(** The step moves: the gate passed by [Hg] (or there is none), no records. *)
Ltac step_is_moved_by fl check :=
  erewrite step_moves;
    [|vm_compute; reflexivity|apply fl|cbn; elem_compute
     |check
     |apply no_records_length
     |eapply run_effect_run; [reflexivity|cbn; reflexivity]|cbn; elem_compute|cbn; only_changes
     |intros []].
Ltac step_is_moved fl Hg :=
  step_is_moved_by fl ltac:(eapply run_check_pass; [reflexivity|exact Hg]).
Ltac step_is_ungated fl := step_is_moved_by fl ltac:(reflexivity).

(** A gated edge of a machine without records: whichever way the gate [g]
    decides (its value by [Hval], its frame by [Hro]), the step follows it. *)
Ltac step_by_gate fl g Hval Hro :=
  match goal with
  | |- context [step _ ?e ?h] =>
      let a := match e with _ ?a => a end in
      let v := fresh "v" in let h1 := fresh "h1" in let Hg := fresh "Hg" in
      let Hv := fresh "Hv" in let Hfix := fresh "Hfix" in
      pose proof (Hval a h) as Hv; pose proof (Hro a h) as Hfix;
      destruct (g a h) as [v h1] eqn:Hg; cbn [fst snd h_world h_spec h_state h_now handle_on r_spec r_state value] in Hv;
      destruct Hfix as [_ _ _ _ Hfix _]; cbn in Hfix;
      destruct v as [[]|?];
      [ step_is_moved fl Hg | step_is_refused fl Hg ]; cbn in Hv |- *; rewrite <-?Hv, ?Hfix; reflexivity
  end.

Lemma retry_reads {M} p n lf : reads_only (@retry M p n lf).
Proof. unfold retry. reads_only_tac. Qed.
#[export] Hint Resolve retry_reads : flotilla.
