(* ===== verification/Ensure.v ===== *)
(** Ensure ([crates/flotilla-state-machines/src/machines/ensure.rs]): keeps
    one fulfiller bound, and its refinement of
    [specs/primitives/machines/ensure.qnt]. *)

From S2P Require Import Prelude Schema Read Machine Validate Engine Log Home Steps Attempt.

Module Ensure.

(** * Kinds read *)

Inductive FulfillerPhase : Type := PRequested | PRealised | PGone | PGaveUp.
#[export] Instance FulfillerPhase_eq_dec : EqDecision FulfillerPhase.
Proof. solve_decision. Defined.

Record FulfillerStatus : Type := mkStatus { phase : FulfillerPhase; can_receive : bool }.

Inductive Fulfiller : Type := .
Inductive Drain : Type := .
Inductive Authority : Type := .
Inductive Teardown : Type := .
#[export] Instance fulfiller_kind : Kind Fulfiller := {| kind_NAME := "fulfiller"; kind_Value := FulfillerStatus |}.
#[export] Instance drain_kind : Kind Drain := {| kind_NAME := "drain"; kind_Value := bool |}.
#[export] Instance authority_kind : Kind Authority := {| kind_NAME := "authority"; kind_Value := bool |}.
#[export] Instance teardown_kind : Kind Teardown := {| kind_NAME := "teardown"; kind_Value := bool |}.

(** [dyn EnsureWorld]: a source of each kind. *)
Record EnsureWorld : Type := mkWorld {
  w_fulfiller : Ref Fulfiller -> option (Version * FulfillerStatus);
  w_drain : Ref Drain -> option (Version * bool);
  w_authority : Ref Authority -> option (Version * bool);
  w_teardown : Ref Teardown -> option (Version * bool);
}.
#[export] Instance source_fulfiller : Source EnsureWorld Fulfiller := w_fulfiller.
#[export] Instance source_drain : Source EnsureWorld Drain := w_drain.
#[export] Instance source_authority : Source EnsureWorld Authority := w_authority.
#[export] Instance source_teardown : Source EnsureWorld Teardown := w_teardown.

(** [MemoryEnsureWorld]. *)
Record MemoryEnsureWorld : Type := mkMemoryWorld {
  fulfillers : Table Fulfiller;
  drains : Table Drain;
  authorities : Table Authority;
  teardowns : Table Teardown;
}.
Definition memory_world (w : MemoryEnsureWorld) : EnsureWorld :=
  mkWorld (table_lookup (fulfillers w)) (table_lookup (drains w))
    (table_lookup (authorities w)) (table_lookup (teardowns w)).

(** * States *)

Abbreviation Fulfillers := (gset (Ref Fulfiller)) (only parsing).

Inductive EnsureState : Type :=
| Unfulfilled (recorded created : Fulfillers) (failures : Z) (last_failure : option Failure)
| Fulfilled (recorded created : Fulfillers) (failures : Z) (last_failure : option Failure) (bound : Ref Fulfiller)
| Held (recorded created : Fulfillers) (failures : Z) (last_failure : option Failure)
| Retired (recorded created : Fulfillers) (failures : Z) (last_failure : option Failure).

Inductive EnsureLabel : Type := LUnfulfilled | LFulfilled | LHeld | LRetired.
#[export] Instance EnsureLabel_eq_dec : EqDecision EnsureLabel.
Proof. solve_decision. Defined.

#[export] Program Instance ensure_label_coded : Coded EnsureLabel := {|
  coded_ALL := [LUnfulfilled; LFulfilled; LHeld; LRetired];
  coded_name l := match l with LUnfulfilled => "Unfulfilled" | LFulfilled => "Fulfilled" | LHeld => "Held" | LRetired => "Retired" end;
  coded_code l := match l with LUnfulfilled => "un" | LFulfilled => "fu" | LHeld => "he" | LRetired => "rt" end;
|}.
Next Obligation. coded_complete_tac. Qed.
Next Obligation. coded_nodup_tac. Qed.

Inductive EnsureDatum : Type :=
| DFulfillers (s : Fulfillers)
| DCount (n : Z)
| DFailure (f : option Failure)
| DFulfiller (r : Ref Fulfiller).
#[export] Instance EnsureDatum_eq_dec : EqDecision EnsureDatum.
Proof. solve_decision. Defined.

Definition ensure_label (s : EnsureState) : EnsureLabel :=
  match s with
  | Unfulfilled _ _ _ _ => LUnfulfilled
  | Fulfilled _ _ _ _ _ => LFulfilled
  | Held _ _ _ _ => LHeld
  | Retired _ _ _ _ => LRetired
  end.

Definition ensure_data (s : EnsureState) : list (string * EnsureDatum) :=
  match s with
  | Unfulfilled r c n f | Held r c n f | Retired r c n f =>
      [("recorded", DFulfillers r); ("created", DFulfillers c); ("failures", DCount n); ("last_failure", DFailure f)]
  | Fulfilled r c n f b =>
      [("recorded", DFulfillers r); ("created", DFulfillers c); ("failures", DCount n); ("last_failure", DFailure f);
       ("bound", DFulfiller b)]
  end.

Definition ensure_fields (l : EnsureLabel) : list string :=
  match l with
  | LFulfilled => ["recorded"; "created"; "failures"; "last_failure"; "bound"]
  | _ => ["recorded"; "created"; "failures"; "last_failure"]
  end.

(** The spec's [Work], whatever the label. *)
Record Work : Type := mkWork { wk_recorded : Fulfillers; wk_created : Fulfillers; wk_failures : Z; wk_last : option Failure }.

Definition work (s : EnsureState) : Work :=
  match s with
  | Unfulfilled r c n f | Fulfilled r c n f _ | Held r c n f | Retired r c n f => mkWork r c n f
  end.

Definition recorded (s : EnsureState) : Fulfillers := wk_recorded (work s).
Definition created (s : EnsureState) : Fulfillers := wk_created (work s).
Definition failures (s : EnsureState) : Z := wk_failures (work s).
Definition last_failure (s : EnsureState) : option Failure := wk_last (work s).
Definition bound (s : EnsureState) : option (Ref Fulfiller) :=
  match s with Fulfilled _ _ _ _ b => Some b | _ => None end.

Definition unfulfilled (w : Work) : EnsureState := Unfulfilled (wk_recorded w) (wk_created w) (wk_failures w) (wk_last w).
Definition fulfilled (w : Work) (b : Ref Fulfiller) : EnsureState :=
  Fulfilled (wk_recorded w) (wk_created w) (wk_failures w) (wk_last w) b.
Definition held (w : Work) : EnsureState := Held (wk_recorded w) (wk_created w) (wk_failures w) (wk_last w).
Definition retired (w : Work) : EnsureState := Retired (wk_recorded w) (wk_created w) (wk_failures w) (wk_last w).

Record EnsureSpec : Type := mkSpec { inbox : Address; policy : AttemptPolicy }.

(** * Edges *)

Record Record_ : Type := mkRecord { rc_fulfiller : Ref Fulfiller }.
Record Create : Type := mkCreate { cr_fulfiller : Ref Fulfiller }.
Record Bind : Type := mkBind { bi_fulfiller : Ref Fulfiller }.
Inductive UnbindReason : Type := Gone | Replaced.
Record Unbind : Type := mkUnbind { ub_reason : UnbindReason; ub_fulfiller : Ref Fulfiller }.
Record Attempted : Type := mkAttempted { at_fulfiller : Ref Fulfiller; at_outcome : Outcome }.
Inductive Hold : Type := hold.
Record Resume : Type := mkResume { rs_by : string; rs_authority : Ref Authority }.
Record Retire : Type := mkRetire { rt_by : string; rt_authority : Ref Authority; rt_teardown : Ref Teardown }.

Inductive EnsureEdge : Type :=
| ERecord (a : Record_)
| ECreate (a : Create)
| EBind (a : Bind)
| EUnbind (a : Unbind)
| EHold (a : Hold)
| EResume (a : Resume)
| ERetire (a : Retire)
| EAttempted (a : Attempted).

Inductive EnsureEdgeKind : Type := KRecord | KCreate | KBind | KUnbind | KHold | KResume | KRetire | KAttempted.
#[export] Instance EnsureEdgeKind_eq_dec : EqDecision EnsureEdgeKind.
Proof. solve_decision. Defined.

#[export] Program Instance ensure_kind_coded : Coded EnsureEdgeKind := {|
  coded_ALL := [KRecord; KCreate; KBind; KUnbind; KHold; KResume; KRetire; KAttempted];
  coded_name k := match k with
    | KRecord => "record" | KCreate => "create" | KBind => "bind" | KUnbind => "unbind"
    | KHold => "hold" | KResume => "resume" | KRetire => "retire" | KAttempted => "attempted" end;
  coded_code k := match k with
    | KRecord => "rc" | KCreate => "cr" | KBind => "bi" | KUnbind => "ub"
    | KHold => "ho" | KResume => "rs" | KRetire => "rt" | KAttempted => "at" end;
|}.
Next Obligation. coded_complete_tac. Qed.
Next Obligation. coded_nodup_tac. Qed.

Definition ensure_edge_kind (e : EnsureEdge) : EnsureEdgeKind :=
  match e with
  | ERecord _ => KRecord | ECreate _ => KCreate | EBind _ => KBind | EUnbind _ => KUnbind
  | EHold _ => KHold | EResume _ => KResume | ERetire _ => KRetire | EAttempted _ => KAttempted
  end.

Inductive EnsureRefusal : Type :=
| EEnded (reason : string)
| EWrongState
| NotRecorded
| FulfillerLive
| MissingEvidence
| NotExhausted
| Unauthorised.

Definition sig : MachineSig := {|
  M_NAME := "Ensure";
  Request := EnsureSpec;
  Spec := EnsureSpec;
  MState := EnsureState;
  Label := EnsureLabel;
  Datum := EnsureDatum;
  Edge := EnsureEdge;
  EdgeKind := EnsureEdgeKind;
  Write := NoRecords;
  Refusal := EnsureRefusal;
  World := EnsureWorld;
  label := ensure_label;
  data := ensure_data;
  fields := ensure_fields;
  edge_kind := ensure_edge_kind;
  write_field := no_records_field;
  write_apply := no_records_apply;
  of_ended e := EEnded (ended_reason e);
  of_wrong_state _ := EWrongState;
|}.

#[export] Instance arg_record : EdgeArg sig Record_ :=
  edge_arg sig KRecord (fun e => match e with ERecord a => Some a | _ => None end) ERecord.
#[export] Instance arg_create : EdgeArg sig Create :=
  edge_arg sig KCreate (fun e => match e with ECreate a => Some a | _ => None end) ECreate.
#[export] Instance arg_bind : EdgeArg sig Bind :=
  edge_arg sig KBind (fun e => match e with EBind a => Some a | _ => None end) EBind.
#[export] Instance arg_unbind : EdgeArg sig Unbind :=
  edge_arg sig KUnbind (fun e => match e with EUnbind a => Some a | _ => None end) EUnbind.
#[export] Instance arg_hold : EdgeArg sig Hold :=
  edge_arg sig KHold (fun e => match e with EHold a => Some a | _ => None end) EHold.
#[export] Instance arg_resume : EdgeArg sig Resume :=
  edge_arg sig KResume (fun e => match e with EResume a => Some a | _ => None end) EResume.
#[export] Instance arg_retire : EdgeArg sig Retire :=
  edge_arg sig KRetire (fun e => match e with ERetire a => Some a | _ => None end) ERetire.
#[export] Instance arg_attempted : EdgeArg sig Attempted :=
  edge_arg sig KAttempted (fun e => match e with EAttempted a => Some a | _ => None end) EAttempted.

(** * Gates and effects *)

Abbreviation H := (HM sig) (only parsing).
Abbreviation G := (GM sig) (only parsing).
Abbreviation read_fulfiller := (@h_read sig Fulfiller fulfiller_kind source_fulfiller) (only parsing).
Abbreviation read_drain := (@h_read sig Drain drain_kind source_drain) (only parsing).
Abbreviation read_authority := (@h_read sig Authority authority_kind source_authority) (only parsing).
Abbreviation read_teardown := (@h_read sig Teardown teardown_kind source_teardown) (only parsing).

Definition is_live (status : option FulfillerStatus) : bool :=
  match status with
  | Some s => match phase s with PRequested | PRealised => true | _ => false end
  | None => false
  end.

Definition record (state : EnsureState) (edge : Record_) : H EnsureState :=
  let w := work state in
  hret (unfulfilled (mkWork ({[rc_fulfiller edge]} ∪ wk_recorded w) (wk_created w) (wk_failures w) (wk_last w))).

(** [recorded.iter().any(..)]: in name order, stopping at the first live one. *)
Fixpoint any_live (l : list (Ref Fulfiller)) : H bool :=
  match l with
  | [] => hret false
  | f :: l => do! s := read_fulfiller f in if is_live s then hret true else any_live l
  end.

Definition gate_create (edge : Create) : G unit :=
  let! h := @ask sig in
  let recorded := recorded (h_state h) in
  if bool_decide (cr_fulfiller edge ∈ recorded) then
    let! any := any_live (set_iter recorded) in
    let! found := read_fulfiller (cr_fulfiller edge) in
    let absent := match found with None => true | Some _ => false end in
    if any || negb absent then refuse FulfillerLive else gret tt
  else refuse NotRecorded.

Definition create (state : EnsureState) (edge : Create) : H EnsureState :=
  let w := work state in
  hret (unfulfilled (mkWork (wk_recorded w) ({[cr_fulfiller edge]} ∪ wk_created w) (wk_failures w) (wk_last w))).

Definition is_true (v : option bool) : bool := match v with Some true => true | _ => false end.

Definition gate_bind (edge : Bind) : G unit :=
  let! h := @ask sig in
  if bool_decide (bi_fulfiller edge ∈ recorded (h_state h)) then
    let! found := read_fulfiller (bi_fulfiller edge) in
    let ready := match found with Some s => bool_decide (phase s = PRealised) && can_receive s | None => false end in
    if ready then
      let! drained := read_drain (mkRef (address_text (inbox (h_spec h)))) in
      if is_true drained then gret tt else refuse MissingEvidence
    else refuse MissingEvidence
  else refuse NotRecorded.

Definition bind (state : EnsureState) (edge : Bind) : H EnsureState :=
  hret (fulfilled (work state) (bi_fulfiller edge)).

Definition gate_unbind (edge : Unbind) : G unit :=
  let! h := @ask sig in
  let! found := read_fulfiller (ub_fulfiller edge) in
  let is_bound := bool_decide (bound (h_state h) = Some (ub_fulfiller edge)) in
  let gone := match found with Some s => bool_decide (phase s = PGone) | None => false end in
  if is_bound && gone then gret tt else refuse MissingEvidence.

Definition attempted (state : EnsureState) (edge : Attempted) : H EnsureState :=
  do! h := @ask sig in
  let w := work state in
  let t := tally (wk_failures w) (at_outcome edge) (h_now h) in
  hret (unfulfilled (mkWork (wk_recorded w) (wk_created w) t.1 t.2)).

Definition gate_hold (_ : Hold) : G unit :=
  let! h := @ask sig in
  let! r := @retry sig (policy (h_spec h)) (failures (h_state h)) (last_failure (h_state h)) in
  if exhausted r then gret tt else refuse NotExhausted.

Definition gate_resume (edge : Resume) : G unit :=
  let! a := read_authority (rs_authority edge) in
  if is_true a then gret tt else refuse Unauthorised.

Definition resume (state : EnsureState) (_ : Resume) : H EnsureState :=
  let w := work state in hret (unfulfilled (mkWork (wk_recorded w) (wk_created w) 0 None)).

Definition gate_retire (edge : Retire) : G unit :=
  let! a := read_authority (rt_authority edge) in
  if is_true a then
    let! t := read_teardown (rt_teardown edge) in
    if is_true t then gret tt else refuse MissingEvidence
  else refuse Unauthorised.

(** * The declaration *)

Local Open Scope flotilla_scope.

Definition record_edge : EdgeDef sig Record_ :=
  edge_new |> from [LUnfulfilled] |> to [LUnfulfilled] |> changes ["recorded"]
  |> ungated "naming a fulfiller before asking for it promises nothing, so any may be recorded"
  |> effect record.
Definition create_edge : EdgeDef sig Create :=
  edge_new |> from [LUnfulfilled] |> to [LUnfulfilled] |> changes ["created"]
  |> gate "the fulfiller is recorded, none recorded is live, and it does not exist" gate_create
  |> effect create.
Definition bind_edge : EdgeDef sig Bind :=
  edge_new |> from [LUnfulfilled] |> to [LFulfilled] |> changes ["bound"]
  |> gate "the fulfiller is recorded, realised, can receive, and the inbox has drained" gate_bind
  |> effect bind.
Definition unbind_edge : EdgeDef sig Unbind :=
  edge_new |> from [LFulfilled] |> to [LUnfulfilled]
  |> gate "the bound fulfiller is observed gone" gate_unbind
  |> effect (fun state _ => hret (unfulfilled (work state))).
Definition attempted_edge : EdgeDef sig Attempted :=
  edge_new |> from [LUnfulfilled] |> to [LUnfulfilled] |> changes ["failures"; "last_failure"]
  |> ungated "an attempt reports how a try ended; the hold gate judges the window it leaves"
  |> effect attempted.
Definition hold_edge : EdgeDef sig Hold :=
  edge_new |> from [LUnfulfilled] |> to [LHeld]
  |> gate "the window's consecutive failures reach the policy's limit, or the last failure cannot be retried" gate_hold
  |> effect (fun state _ => hret (held (work state))).
Definition resume_edge : EdgeDef sig Resume :=
  edge_new |> from [LHeld] |> to [LUnfulfilled] |> changes ["failures"; "last_failure"]
  |> gate "the resumer is authorised" gate_resume
  |> effect resume.
Definition retire_edge : EdgeDef sig Retire :=
  edge_new |> from [LUnfulfilled; LFulfilled; LHeld] |> to [LRetired]
  |> gate "the retirer is authorised and the teardown is complete" gate_retire
  |> effect (fun state _ => hret (retired (work state))).

Definition ensure_definition : MachineDef sig :=
  @def_new sig LUnfulfilled
  |> def_edge record_edge |> def_edge create_edge |> def_edge bind_edge |> def_edge unbind_edge
  |> def_edge attempted_edge |> def_edge hold_edge |> def_edge resume_edge |> def_edge retire_edge
  |> def_end LRetired "the ensure is retired".

Definition ensure_admit (spec : EnsureSpec) : AM sig (EnsureSpec * EnsureState) :=
  aret (spec, unfulfilled (mkWork ∅ ∅ 0 None)).

#[export] Instance machine : Machine sig := {| definition := ensure_definition; admits := ensure_admit |}.
#[export] Instance stamped : StampedWrites sig.
Proof. no_records. Defined.

Lemma ensure_validates : validate (definition sig) = Ok tt.
Proof. vm_compute. reflexivity. Qed.

(** * Steps *)

(** The declaration an edge finds. *)
Definition declared (e : EnsureEdge) : DeclaredEdge sig :=
  match e with
  | ERecord _ => declare_edge record_edge
  | ECreate _ => declare_edge create_edge
  | EBind _ => declare_edge bind_edge
  | EUnbind _ => declare_edge unbind_edge
  | EHold _ => declare_edge hold_edge
  | EResume _ => declare_edge resume_edge
  | ERetire _ => declare_edge retire_edge
  | EAttempted _ => declare_edge attempted_edge
  end.

Lemma ensure_find (e : EnsureEdge) : find (definition sig) (edge_kind sig e) = Some (declared e).
Proof. by destruct e. Qed.

(** What the world says of a fulfiller. *)
Definition status (w : EnsureWorld) (f : Ref Fulfiller) : option FulfillerStatus := seen w f.
#[global] Arguments status : simpl never.
Definition live (w : EnsureWorld) (f : Ref Fulfiller) : bool := is_live (status w f).

Lemma any_live_reads l : reads_only (any_live l).
Proof. induction l; cbn; reads_only_tac. Qed.
#[local] Hint Resolve any_live_reads : flotilla.

Lemma any_live_val l h : (any_live l h).1 = existsb (live (h_world h)) l.
Proof.
  revert h. induction l as [|f l IH]; intros h; [done|]. cbn [any_live existsb].
  unfold hbind, live, status. cbn -[any_live].
  destruct (is_live _); [done|]. by rewrite IH.
Qed.

(** What each gate decides, as a function of the spec, the state and the world. *)
Definition create_ok (w : EnsureWorld) (s : EnsureState) (a : Create) : result EnsureRefusal unit :=
  if bool_decide (cr_fulfiller a ∈ recorded s) then
    if existsb (live w) (set_iter (recorded s)) || match status w (cr_fulfiller a) with Some _ => true | None => false end
    then Err FulfillerLive else Ok tt
  else Err NotRecorded.

Lemma gate_create_reads a : reads_only (gate_create a).
Proof. unfold gate_create. reads_only_tac. Qed.
Lemma gate_create_val a h : (gate_create a h).1 = create_ok (h_world h) (h_state h) a.
Proof.
  unfold gate_create, create_ok, glet, ask. cbn -[set_iter any_live]. case_bool_decide; [|done].
  pose proof (any_live_val (set_iter (recorded (h_state h))) h) as Hv. pose proof (any_live_reads (set_iter (recorded (h_state h))) h) as [_ _ _ Hw _ _].
  destruct (any_live _ h) as [v h1]. cbn in *. rewrite Hv, Hw. destruct (existsb _ _); [done|]. cbn.
  unfold status. by destruct (seen _ _).
Qed.

Definition ready (w : EnsureWorld) (f : Ref Fulfiller) : bool :=
  match status w f with Some s => bool_decide (phase s = PRealised) && can_receive s | None => false end.
Definition drained (w : EnsureWorld) (spec : EnsureSpec) : bool :=
  is_true (@seen _ Drain drain_kind source_drain w (mkRef (address_text (inbox spec)))).
Definition bind_ok (w : EnsureWorld) (spec : EnsureSpec) (s : EnsureState) (a : Bind) : result EnsureRefusal unit :=
  if bool_decide (bi_fulfiller a ∈ recorded s) then
    if ready w (bi_fulfiller a) && drained w spec then Ok tt else Err MissingEvidence
  else Err NotRecorded.

Lemma gate_bind_reads a : reads_only (gate_bind a).
Proof. unfold gate_bind. reads_only_tac. Qed.
Lemma gate_bind_val a h : (gate_bind a h).1 = bind_ok (h_world h) (h_spec h) (h_state h) a.
Proof.
  unfold gate_bind, bind_ok, ready, drained, status, glet, ask. cbn. case_bool_decide; [|done].
  destruct (seen _ _) as [st|]; cbn; [|done].
  destruct (bool_decide (phase st = PRealised) && can_receive st); [|done]. cbn. by destruct (is_true _).
Qed.

Definition gone (w : EnsureWorld) (f : Ref Fulfiller) : bool :=
  match status w f with Some s => bool_decide (phase s = PGone) | None => false end.
Definition unbind_ok (w : EnsureWorld) (s : EnsureState) (a : Unbind) : result EnsureRefusal unit :=
  if bool_decide (bound s = Some (ub_fulfiller a)) && gone w (ub_fulfiller a) then Ok tt else Err MissingEvidence.

Lemma gate_unbind_reads a : reads_only (gate_unbind a).
Proof. unfold gate_unbind. reads_only_tac. Qed.
Lemma gate_unbind_val a h : (gate_unbind a h).1 = unbind_ok (h_world h) (h_state h) a.
Proof.
  unfold gate_unbind, unbind_ok, gone, status, glet, ask. cbn. destruct (seen _ _) as [st|]; cbn; by case_match.
Qed.

Definition hold_ok (spec : EnsureSpec) (s : EnsureState) : result EnsureRefusal unit :=
  if spent (policy spec) (failures s) (last_failure s) then Ok tt else Err NotExhausted.

Lemma gate_hold_reads a : reads_only (gate_hold a).
Proof. unfold gate_hold. reads_only_tac. Qed.
Lemma gate_hold_val a h : (gate_hold a h).1 = hold_ok (h_spec h) (h_state h).
Proof.
  unfold gate_hold, hold_ok, glet, ask. rewrite <-(retry_spent _ _ _ h).
  destruct (retry _ _ _ h) as [r h1]. cbn. by destruct (exhausted r).
Qed.

Definition allowed (w : EnsureWorld) (a : Ref Authority) : bool := is_true (@seen _ Authority authority_kind source_authority w a).
Definition torn_down (w : EnsureWorld) (t : Ref Teardown) : bool := is_true (@seen _ Teardown teardown_kind source_teardown w t).
Definition resume_ok (w : EnsureWorld) (a : Resume) : result EnsureRefusal unit :=
  if allowed w (rs_authority a) then Ok tt else Err Unauthorised.
Definition retire_ok (w : EnsureWorld) (a : Retire) : result EnsureRefusal unit :=
  if allowed w (rt_authority a) then if torn_down w (rt_teardown a) then Ok tt else Err MissingEvidence
  else Err Unauthorised.

Lemma gate_resume_reads a : reads_only (gate_resume a).
Proof. unfold gate_resume. reads_only_tac. Qed.
Lemma gate_resume_val a h : (gate_resume a h).1 = resume_ok (h_world h) a.
Proof. unfold gate_resume, resume_ok, allowed, glet. cbn. by destruct (is_true _). Qed.
Lemma gate_retire_reads a : reads_only (gate_retire a).
Proof. unfold gate_retire. reads_only_tac. Qed.
Lemma gate_retire_val a h : (gate_retire a h).1 = retire_ok (h_world h) a.
Proof.
  unfold gate_retire, retire_ok, allowed, torn_down, glet. cbn. destruct (is_true _); [|done].
  cbn. by destruct (is_true _).
Qed.

(** What a step does, on every branch, as a function of the spec, the world,
    the time, the state and the edge. *)
Definition ensure_next (spec : EnsureSpec) (w : EnsureWorld) (now : Timestamp) (s : EnsureState) (e : EnsureEdge) :
    result EnsureRefusal EnsureState :=
  match s, e with
  | Retired _ _ _ _, _ => Err (EEnded "the ensure is retired")
  | Unfulfilled r c n f, ERecord a => Ok (Unfulfilled ({[rc_fulfiller a]} ∪ r) c n f)
  | Unfulfilled r c n f, ECreate a => _ ← create_ok w s a; Ok (Unfulfilled r ({[cr_fulfiller a]} ∪ c) n f)
  | Unfulfilled r c n f, EAttempted a =>
      let t := tally n (at_outcome a) now in Ok (Unfulfilled r c t.1 t.2)
  | Unfulfilled r c n f, EBind a => _ ← bind_ok w spec s a; Ok (Fulfilled r c n f (bi_fulfiller a))
  | Unfulfilled r c n f, EHold _ => _ ← hold_ok spec s; Ok (Held r c n f)
  | Fulfilled r c n f b, EUnbind a => _ ← unbind_ok w s a; Ok (Unfulfilled r c n f)
  | Held r c n f, EResume a => _ ← resume_ok w a; Ok (Unfulfilled r c 0 None)
  | Unfulfilled r c n f, ERetire a | Held r c n f, ERetire a | Fulfilled r c n f _, ERetire a =>
      _ ← retire_ok w a; Ok (Retired r c n f)
  | _, _ => Err EWrongState
  end.

Lemma ensure_step_next (r : Resource sig) (edge : EnsureEdge) (world : EnsureWorld) now :
  (step (definition sig) edge (handle_on r world now)).1 =
  map_err (@Refused sig) (ensure_next (r_spec r) world now (value (r_state r)) edge).
Proof.
  destruct r as [name spec [s since] version]. cbn -[step definition ensure_next].
  destruct s, edge;
    try (step_is_ended; reflexivity); try (step_is_wrong ensure_find; reflexivity);
    try (step_is_ungated ensure_find; reflexivity);
    first [ step_by_gate ensure_find gate_create gate_create_val gate_create_reads
          | step_by_gate ensure_find gate_bind gate_bind_val gate_bind_reads
          | step_by_gate ensure_find gate_unbind gate_unbind_val gate_unbind_reads
          | step_by_gate ensure_find gate_hold gate_hold_val gate_hold_reads
          | step_by_gate ensure_find gate_resume gate_resume_val gate_resume_reads
          | step_by_gate ensure_find gate_retire gate_retire_val gate_retire_reads ].
Qed.

(** * The abstract machine: [specs/primitives/machines/ensure.qnt] *)

Module Quint.

Inductive AttemptOutcome : Type := QSucceeded | QFailed (retryable : bool).
Record Attempt : Type := mkAttempt { q_id : Ref Fulfiller; q_outcome : AttemptOutcome }.
Record QWork : Type := mkQWork {
  q_recorded : Fulfillers; q_created : Fulfillers; q_history : list Attempt; q_window : nat }.
Inductive QState : Type :=
| QUnfulfilled (w : QWork)
| QFulfilled (w : QWork) (b : Ref Fulfiller)
| QHeld (w : QWork)
| QRetired (w : QWork).
Inductive Event : Type :=
| QRecord (i : Ref Fulfiller)
| QCreate (i : Ref Fulfiller) (noLive absent : bool)
| QAttempted (a : Attempt)
| QBind (i : Ref Fulfiller) (realised canReceive : bool)
| QUnbind (observed : Ref Fulfiller) (gone : bool)
| QHold
| QResume (authorised : bool)
| QRetire (authorised teardownComplete : bool).
Inductive QRefusal : Type := QEnded | QWrongState | QNotRecorded | QFulfillerLive | QMissingEvidence | QNotExhausted | QUnauthorised.
Inductive Next : Type := Moved (s : QState) | QRefused (r : QRefusal).

Definition qwork (s : QState) : QWork :=
  match s with QUnfulfilled w | QFulfilled w _ | QHeld w | QRetired w => w end.

Definition failed (a : Attempt) : bool := match q_outcome a with QFailed _ => true | QSucceeded => false end.
Definition retryable (a : Attempt) : bool := match q_outcome a with QFailed r => r | QSucceeded => true end.

(** Only the suffix after the latest success in the current window counts. *)
Definition failureCount (w : QWork) : Z := failure_count failed (q_history w) (q_window w).

(** [MAX_FAILURES] is the resource's policy bound. *)
Definition q_exhausted (max : Z) (w : QWork) : bool :=
  bool_decide (max <= failureCount w) ||
  (bool_decide (q_window w < length (q_history w))%nat &&
   match last (q_history w) with Some a => failed a && negb (retryable a) | None => false end).

Definition qstep (max : Z) (s : QState) (e : Event) : Next :=
  let w := qwork s in
  match s with
  | QRetired _ => QRefused QEnded
  | _ =>
      match e with
      | QRetire authorised teardownComplete =>
          if negb authorised then QRefused QUnauthorised
          else if negb teardownComplete then QRefused QMissingEvidence else Moved (QRetired w)
      | QResume authorised =>
          match s with
          | QHeld _ =>
              if authorised
              then Moved (QUnfulfilled (mkQWork (q_recorded w) (q_created w) (q_history w) (length (q_history w))))
              else QRefused QUnauthorised
          | _ => QRefused QWrongState
          end
      | QUnbind observed gone =>
          match s with
          | QFulfilled _ b => if gone && bool_decide (observed = b) then Moved (QUnfulfilled w) else QRefused QMissingEvidence
          | _ => QRefused QWrongState
          end
      | _ =>
          match s with
          | QUnfulfilled _ =>
              match e with
              | QRecord i => Moved (QUnfulfilled (mkQWork ({[i]} ∪ q_recorded w) (q_created w) (q_history w) (q_window w)))
              | QCreate i noLive absent =>
                  if negb (bool_decide (i ∈ q_recorded w)) then QRefused QNotRecorded
                  else if negb noLive || negb absent then QRefused QFulfillerLive
                  else Moved (QUnfulfilled (mkQWork (q_recorded w) ({[i]} ∪ q_created w) (q_history w) (q_window w)))
              | QAttempted a => Moved (QUnfulfilled (mkQWork (q_recorded w) (q_created w) (q_history w ++ [a]) (q_window w)))
              | QBind i realised canReceive =>
                  if negb (bool_decide (i ∈ q_recorded w)) then QRefused QNotRecorded
                  else if realised && canReceive then Moved (QFulfilled w i) else QRefused QMissingEvidence
              | QHold => if q_exhausted max w then Moved (QHeld w) else QRefused QNotExhausted
              | _ => QRefused QWrongState
              end
          | _ => QRefused QWrongState
          end
      end
  end.

End Quint.

(** * Refinement *)

Import Quint.

Definition abs_outcome (o : Outcome) : AttemptOutcome :=
  match o with Succeeded => QSucceeded | Failed _ r => QFailed r end.

(** The tally stands for the window's suffix: the count of its trailing
    failures, saturated at [u32::MAX], and the latest of them. *)
Definition stands (a : Attempt) (f : Failure) : Prop := f_retryable f = retryable a.

Record abs_work (q : QWork) (w : Work) : Prop := mkAbsWork {
  aw_recorded : wk_recorded w = q_recorded q;
  aw_created : wk_created w = q_created q;
  aw_tally : tallied failed stands (q_history q) (q_window q) (wk_failures w) (wk_last w);
}.

Definition abs_state (q : QState) (s : EnsureState) : Prop :=
  match q, s with
  | QUnfulfilled w, Unfulfilled r c n f | QHeld w, Held r c n f | QRetired w, Retired r c n f => abs_work w (mkWork r c n f)
  | QFulfilled w b, Fulfilled r c n f b' => b = b' /\ abs_work w (mkWork r c n f)
  | _, _ => False
  end.

(** The edge with what the gates observe of the world. *)
Definition observe (w : EnsureWorld) (spec : EnsureSpec) (s : EnsureState) (e : EnsureEdge) : Event :=
  match e with
  | ERecord a => QRecord (rc_fulfiller a)
  | ECreate a => QCreate (cr_fulfiller a) (negb (existsb (live w) (set_iter (recorded s))))
      (match status w (cr_fulfiller a) with None => true | Some _ => false end)
  | EAttempted a => QAttempted (mkAttempt (at_fulfiller a) (abs_outcome (at_outcome a)))
  | EBind a => QBind (bi_fulfiller a)
      (match status w (bi_fulfiller a) with Some s => bool_decide (phase s = PRealised) | None => false end)
      (match status w (bi_fulfiller a) with Some s => can_receive s | None => false end && drained w spec)
  | EUnbind a => QUnbind (ub_fulfiller a) (gone w (ub_fulfiller a))
  | EHold _ => QHold
  | EResume a => QResume (allowed w (rs_authority a))
  | ERetire a => QRetire (allowed w (rt_authority a)) (torn_down w (rt_teardown a))
  end.

Definition abs_refusal (r : EnsureRefusal) : QRefusal :=
  match r with
  | EEnded _ => QEnded
  | EWrongState => QWrongState
  | NotRecorded => QNotRecorded
  | FulfillerLive => QFulfillerLive
  | MissingEvidence => QMissingEvidence
  | NotExhausted => QNotExhausted
  | Unauthorised => QUnauthorised
  end.

Definition max_of (spec : EnsureSpec) : Z := Z.max (max_failures (policy spec)) 1.

(** A step and the abstract step agree: both move to related states, or both
    refuse alike; a fault never happens. *)
Definition agrees (r : result (StepError sig) EnsureState) (n : Next) : Prop :=
  match r with
  | Ok s' => exists q', n = Moved q' /\ abs_state q' s'
  | Err (Refused rf) => n = QRefused (abs_refusal rf)
  | Err (Faulted _) => False
  end.

Lemma abs_exhausted p q w : policy_ok p -> abs_work q w ->
  spent p (wk_failures w) (wk_last w) = q_exhausted (Z.max (max_failures p) 1) q.
Proof. intros Hp [_ _ Ht]. eapply tallied_spent; [done|exact Ht|done]. Qed.

Lemma abs_attempted q w i o at_ : abs_work q w ->
  abs_work (mkQWork (q_recorded q) (q_created q) (q_history q ++ [mkAttempt i (abs_outcome o)]) (q_window q))
    (mkWork (wk_recorded w) (wk_created w) (tally (wk_failures w) o at_).1 (tally (wk_failures w) o at_).2).
Proof.
  intros [Hr Hc Ht]. constructor; [done|done|]. cbn. destruct o; cbn.
  - by eapply tallied_success.
  - by eapply tallied_failure.
Qed.

Lemma abs_resumed q w : abs_work q w ->
  abs_work (mkQWork (q_recorded q) (q_created q) (q_history q) (length (q_history q))) (mkWork (wk_recorded w) (wk_created w) 0 None).
Proof. intros [Hr Hc Ht]. constructor; [done|done|apply tallied_open]. Qed.

Lemma abs_recorded q r c n f i : abs_work q (mkWork r c n f) -> abs_work (mkQWork ({[i]} ∪ q_recorded q) (q_created q) (q_history q) (q_window q)) (mkWork ({[i]} ∪ r) c n f).
Proof. intros []. constructor; cbn in *; congruence || done. Qed.

Lemma abs_created q r c n f i : abs_work q (mkWork r c n f) -> abs_work (mkQWork (q_recorded q) ({[i]} ∪ q_created q) (q_history q) (q_window q)) (mkWork r ({[i]} ∪ c) n f).
Proof. intros []. constructor; cbn in *; congruence || done. Qed.

Ltac moves_to := eexists; split; [reflexivity|]; cbn; auto using abs_recorded, abs_created, abs_resumed.

Lemma ensure_refines_core spec q s edge world now :
  policy_ok (policy spec) -> abs_state q s ->
  agrees (map_err (@Refused sig) (ensure_next spec world now s edge)) (qstep (max_of spec) q (observe world spec s edge)).
Proof.
  intros Hp Hq. destruct q as [q|q b0|q|q], s as [r c n f|r c n f b|r c n f|r c n f]; try done;
    cbn in Hq; try destruct Hq as [<- Hq]; destruct edge as [a|a|a|a|a|a|a|a]; try reflexivity;
    cbn -[q_exhausted]; unfold create_ok, bind_ok, hold_ok, unbind_ok, resume_ok, retire_ok, ready, recorded; cbn -[q_exhausted].
  - moves_to.
  - pose proof (aw_recorded _ _ Hq) as Hr. cbn in Hr. subst r. case_bool_decide; [|done]. cbn. rewrite negb_involutive.
    destruct (existsb _ _); [done|]. destruct (status _ _); [done|]. moves_to.
  - pose proof (aw_recorded _ _ Hq) as Hr. cbn in Hr. subst r. case_bool_decide; [|done]. cbn.
    destruct (status _ _) as [st|]; cbn; [|done]. rewrite <-andb_assoc. case_match; [moves_to|done].
  - unfold max_of. rewrite <-(abs_exhausted (policy spec) q (mkWork r c n f)) by done. cbn. case_match; [moves_to|done].
  - destruct (allowed _ _); [|done]. destruct (torn_down _ _); [moves_to|done].
  - moves_to. apply (abs_attempted q (mkWork r c n f)). done.
  - rewrite (andb_comm (gone _ _)). assert (bool_decide (Some b0 = Some (ub_fulfiller a)) = bool_decide (ub_fulfiller a = b0)) as ->
      by (apply bool_decide_ext; naive_solver). case_match; [moves_to|done].
  - destruct (allowed _ _); [|done]. destruct (torn_down _ _); [moves_to|done].
  - destruct (allowed _ _); [|done]. moves_to. by apply (abs_resumed q (mkWork r c n f)).
  - destruct (allowed _ _); [|done]. destruct (torn_down _ _); [moves_to|done].
Qed.

(** * Invariants *)

(** Whatever is asked for or bound was recorded first, and the tally holds the
    latest failure exactly while its count is positive. *)
Record ensure_inv (spec : EnsureSpec) (s : EnsureState) : Prop := mkEnsureInv {
  ei_created : created s ⊆ recorded s;
  ei_bound : forall b, bound s = Some b -> b ∈ recorded s;
  ei_tally : tally_ok (failures s) (last_failure s);
}.

Lemma ensure_next_inv spec w now s e s' : ensure_inv spec s -> ensure_next spec w now s e = Ok s' -> ensure_inv spec s'.
Proof.
  intros [Hc Hb Ht] Hn. unfold created, recorded, failures, last_failure in *.
  destruct s as [r c n f|r c n f b|r c n f|r c n f], e; cbn in Hn, Hc, Ht; try done;
    repeat match goal with
    | H : (?c ≫= _) = Ok _ |- _ => destruct c eqn:?; [|done]; cbn in H
    end; simplify_eq; constructor; unfold created, recorded, failures, last_failure; cbn; try done; try set_solver;
    eauto using tally_keeps, tally_ok_open.
  - unfold create_ok in *. case_bool_decide; [|done]. set_solver.
  - intros b' [= <-]. unfold bind_ok in *. by case_bool_decide.
Qed.

#[export] Instance ensure_machine_inv : MachineInv sig (fun _ => True) ensure_inv.
Proof.
  apply (machine_inv_by_next sig (fun _ => ensure_next)); [by intros []|intros; apply ensure_step_next| |intros ?; apply ensure_next_inv].
  intros request world now spec state ad _ H. injection H as <- <- <-.
  constructor; cbn; [done|done|apply tally_ok_open].
Qed.

(** The states the abstract machine reaches from its start. *)
Definition q_start : QState := QUnfulfilled (mkQWork ∅ ∅ [] 0).
Definition q_move (max : Z) (q q' : QState) : Prop := exists e, qstep max q e = Moved q'.

(** A state that abstracts one the abstract machine reaches. *)
Definition refines (spec : EnsureSpec) (s : EnsureState) : Prop :=
  policy_ok (policy spec) -> exists q, rtc (q_move (max_of spec)) q_start q /\ abs_state q s.

Lemma abs_start : abs_state q_start (unfulfilled (mkWork ∅ ∅ 0 None)).
Proof. constructor; [done|done|]. apply (tallied_open _ _ []). Qed.

Lemma ensure_next_refines spec w now s e s' : refines spec s -> ensure_next spec w now s e = Ok s' -> refines spec s'.
Proof.
  intros Hr Hn Hp. destruct (Hr Hp) as (q & Hq & Ha).
  pose proof (ensure_refines_core spec q s e w now Hp Ha) as H. rewrite Hn in H. destruct H as (q' & Hs & Ha').
  exists q'. split; [|done]. eapply rtc_r; [exact Hq|]. by eexists.
Qed.

#[export] Instance ensure_machine_refines : MachineInv sig (fun _ => True) refines.
Proof.
  apply (machine_inv_by_next sig (fun _ => ensure_next)); [by intros []|intros; apply ensure_step_next| |intros ?; apply ensure_next_refines].
  intros request world now spec state ad _ H. injection H as <- <- <-. intros _. exists q_start. split; [apply rtc_refl|apply abs_start].
Qed.

(** * Properties *)

(** A concrete ensure with one recorded fulfiller, and a world in which it is
    realised and can receive. *)
Definition sample_spec : EnsureSpec :=
  mkSpec (mkAddress "flotilla:inbox/a") (mkPolicy 3 1000000 2 60000000).
Definition sample_work : EnsureState := Unfulfilled {[mkRef "v1"]} ∅ 1 (Some (mkFailure 5 (mkCause Transient "timeout") true)).
Definition sample_ensure : Resource sig := mkResource "ensure-a" (sample_spec : Spec sig) (mkState (sample_work : MState sig) 5) 1.
Definition sample_world : EnsureWorld :=
  memory_world (mkMemoryWorld (table_put (table_new (K := Fulfiller)) (mkRef "v1") (mkStatus PRealised true)).2
    (table_put (table_new (K := Drain)) (mkRef "flotilla:inbox/a") true).2
    (table_put (table_new (K := Authority)) (mkRef "op") true).2 table_new).

(** A home run: the ensure created, a fulfiller recorded, then bound. *)
Definition sample_home : Home sig (MemoryLog sig) := mkHome "home-a" (definition sig) ∅ memory_log_new.
Definition sample_created : Home sig (MemoryLog sig) := (Home.create sample_home "ensure-a" (sample_spec : Request sig) (sample_world : World sig) 1).2.
Definition sample_recorded : Home sig (MemoryLog sig) :=
  (apply sample_created "ensure-a" (ERecord (mkRecord (mkRef "v1")) : Edge sig) (sample_world : World sig) 2).2.
Definition sample_bound : Home sig (MemoryLog sig) :=
  (apply sample_recorded "ensure-a" (EBind (mkBind (mkRef "v1")) : Edge sig) (sample_world : World sig) 3).2.
Lemma sample_home_new : with_log "home-a" (memory_log_new (M := sig)) = Ok sample_home.
Proof. unfold with_log. by rewrite ensure_validates. Qed.

Lemma sample_reached stored : rtc (home_step (fun _ => True) stored) sample_home sample_bound.
Proof.
  eapply rtc_l; [eapply (hs_create _ _ _ "ensure-a" (sample_spec : Request sig) (sample_world : World sig) 1 _ sample_created); [done|apply surjective_pairing]|].
  eapply rtc_l; [eapply (hs_apply _ _ _ "ensure-a" (ERecord (mkRecord (mkRef "v1")) : Edge sig) (sample_world : World sig) 2 _ sample_recorded); apply surjective_pairing|].
  eapply rtc_l; [eapply (hs_apply _ _ _ "ensure-a" (EBind (mkBind (mkRef "v1")) : Edge sig) (sample_world : World sig) 3 _ sample_bound); apply surjective_pairing|].
  apply rtc_refl.
Qed.

Lemma sample_bound_lookup : exists r, home_resources sample_bound !! "ensure-a" = Some r /\
  r_spec r = sample_spec /\ r_version r = 3 /\ bound (value (r_state r)) = Some (mkRef "v1").
Proof.
  assert ((fun r : Resource sig => (r_spec r, r_version r, bound (value (r_state r)))) <$> home_resources sample_bound !! "ensure-a" =
    Some (sample_spec, 3, Some (mkRef "v1"))) as H by (vm_compute; reflexivity).
  apply fmap_Some in H as (r & Hl & [= Hs Hv Hb]). eauto.
Qed.

(** one step of the ensure machine, on every state and edge, is the function
    [ensure_next]: a retired ensure refuses everything; an edge outside its
    source states is refused as such; otherwise the gate's own refusal, or the
    next state. It never faults. *)
Theorem ensure_step_is (r : Resource sig) (edge : EnsureEdge) (world : EnsureWorld) now :
  (step (definition sig) edge (handle_on r world now)).1 =
  map_err (@Refused sig) (ensure_next (r_spec r) world now (value (r_state r)) edge).
Proof. apply ensure_step_next. Qed.

(** C1: the ensure machine refines its specification. From a state that stands
    for an abstract one (its tally for the attempts since the window opened),
    a step moves exactly when the abstract machine moves, to a state standing
    for its next, and refuses exactly when it refuses, with the same refusal. *)
Theorem ensure_step_refines (r : Resource sig) (q : QState) (edge : EnsureEdge) (world : EnsureWorld) now :
  policy_ok (policy (r_spec r)) -> abs_state q (value (r_state r)) ->
  agrees (step (definition sig) edge (handle_on r world now)).1
    (qstep (max_of (r_spec r)) q (observe world (r_spec r) (value (r_state r)) edge)).
Proof. intros Hp Hq. rewrite ensure_step_next. by apply ensure_refines_core. Qed.

Definition sample_abstract : QState := QUnfulfilled (mkQWork {[mkRef "v1"]} ∅ [mkAttempt (mkRef "v1") (QFailed true)] 0).

Lemma sample_stands : abs_state sample_abstract sample_work.
Proof.
  constructor; [done|done|]. apply (tallied_failure _ _ [] _ 0 0 None); [done|done|apply (tallied_open _ _ [])].
Qed.

Lemma ensure_step_refines_witness :
  exists q', qstep 3 sample_abstract (observe sample_world sample_spec sample_work (EBind (mkBind (mkRef "v1")))) = Moved q' /\
    abs_state q' (Fulfilled {[mkRef "v1"]} ∅ 1 (Some (mkFailure 5 (mkCause Transient "timeout") true)) (mkRef "v1")).
Proof.
  pose proof (ensure_step_refines sample_ensure sample_abstract (EBind (mkBind (mkRef "v1"))) sample_world 9) as H.
  rewrite ensure_step_next in H. apply H; [unfold policy_ok; cbn; unfold_ints; lia|apply sample_stands].
Defined.

(** in every home reached by creating, applying, evicting and restoring
    ensures, whatever the world answers and whatever the log does, each
    resident ensure stands for a state its specification reaches. *)
Theorem ensure_homes_refine {L} `{!Log sig L, !LogLaws sig L} writer log (h0 h : Home sig L) name r :
  with_log writer log = Ok h0 -> rtc (home_step (fun _ => True) (resource_ok (M := sig) refines)) h0 h ->
  home_resources h !! name = Some r -> policy_ok (policy (r_spec r)) ->
  exists q, rtc (q_move (max_of (r_spec r))) q_start q /\ abs_state q (value (r_state r)).
Proof.
  intros H0 Hr Hl Hp. destruct (home_reachable_ok (M := sig) (fun _ => True) refines writer log h0 h H0 Hr) as [_ Hall].
  destruct (Hall name r Hl) as [_ Hok]. by apply Hok.
Qed.

Lemma ensure_homes_refine_witness : exists r q, home_resources sample_bound !! "ensure-a" = Some r /\
  rtc (q_move 3) q_start q /\ abs_state q (value (r_state r)).
Proof.
  destruct sample_bound_lookup as (r & Hl & Hs & _).
  destruct (ensure_homes_refine "home-a" memory_log_new sample_home sample_bound "ensure-a" r) as (q & Hq & Ha);
    [apply sample_home_new|apply sample_reached|exact Hl|rewrite Hs; unfold policy_ok; cbn; unfold_ints; lia|].
  exists r, q. rewrite Hs in Hq. split; [exact Hl|split; [exact Hq|exact Ha]].
Defined.

(** in every such home, whatever an ensure asked to create or is bound to
    was recorded before, and its tally holds a failure exactly while its count,
    a [u32], is positive. *)
Theorem ensure_homes_recorded {L} `{!Log sig L, !LogLaws sig L} writer log (h0 h : Home sig L) name r :
  with_log writer log = Ok h0 -> rtc (home_step (fun _ => True) (resource_ok (M := sig) ensure_inv)) h0 h ->
  home_resources h !! name = Some r -> ensure_inv (r_spec r) (value (r_state r)).
Proof.
  intros H0 Hr Hl. destruct (home_reachable_ok (M := sig) (fun _ => True) ensure_inv writer log h0 h H0 Hr) as [_ Hall].
  by destruct (Hall name r Hl) as [_ Hok].
Qed.

Lemma ensure_homes_recorded_witness : exists r, home_resources sample_bound !! "ensure-a" = Some r /\
  mkRef "v1" ∈ recorded (value (r_state r)).
Proof.
  destruct sample_bound_lookup as (r & Hl & _ & _ & Hb). exists r. split; [exact Hl|].
  pose proof (ensure_homes_recorded "home-a" memory_log_new sample_home sample_bound "ensure-a" r sample_home_new (sample_reached _) Hl) as Hi.
  apply (ei_bound _ _ Hi). exact Hb.
Defined.

End Ensure.
