(* ===== verification/Lifecycle.v ===== *)
(** The shared lifecycle ([crates/flotilla-state-machines/src/machines/lifecycle.rs]):
    requested, realised once observed, gone once released or absent, given up
    when its attempts are spent; and its refinement of
    [specs/primitives/machines/lifecycle.qnt]. *)

From S2P Require Import Prelude Schema Read Machine Validate Engine Log Home Attempt Steps.

Module Lifecycle.

(** One kind sharing the lifecycle: its name, opaque request and retry policy. *)
Record LifecycleKind : Type := mkKind { lk_NAME : string; lk_Request : Type; lk_policy : AttemptPolicy }.

Definition SECOND : Z := 1000000.
Definition DEFAULT_POLICY : AttemptPolicy := mkPolicy 3 SECOND 2 (60 * SECOND).

(** * States *)

Inductive Ending : Type := Released | ELost | EFailed (reason : string).
#[export] Instance Ending_eq_dec : EqDecision Ending.
Proof. solve_decision. Defined.

Inductive VanishCause : Type := Lost | VFailed (reason : string).

(** [From<&VanishCause> for Ending]. *)
Definition ending_of (c : VanishCause) : Ending := match c with Lost => ELost | VFailed r => EFailed r end.

Inductive LifecycleState : Type :=
| Requested (failures : Z) (last_failure : option Failure)
| Realised (identity : string)
| Gone (ending : Ending)
| GaveUp (cause : Cause).

Inductive LifecycleLabel : Type := LRequested | LRealised | LGone | LGaveUp.
#[export] Instance LifecycleLabel_eq_dec : EqDecision LifecycleLabel.
Proof. solve_decision. Defined.

#[export] Program Instance lifecycle_label_coded : Coded LifecycleLabel := {|
  coded_ALL := [LRequested; LRealised; LGone; LGaveUp];
  coded_name l := match l with LRequested => "Requested" | LRealised => "Realised" | LGone => "Gone" | LGaveUp => "GaveUp" end;
  coded_code l := match l with LRequested => "rq" | LRealised => "rl" | LGone => "go" | LGaveUp => "gu" end;
|}.
Next Obligation. coded_complete_tac. Qed.
Next Obligation. coded_nodup_tac. Qed.

Inductive LifecycleDatum : Type :=
| DCount (v : Z)
| DFailure (v : option Failure)
| DText (v : string)
| DEnding (v : Ending)
| DCause (v : Cause).
#[export] Instance LifecycleDatum_eq_dec : EqDecision LifecycleDatum.
Proof. solve_decision. Defined.

Definition lifecycle_label (s : LifecycleState) : LifecycleLabel :=
  match s with Requested _ _ => LRequested | Realised _ => LRealised | Gone _ => LGone | GaveUp _ => LGaveUp end.

Definition lifecycle_data (s : LifecycleState) : list (string * LifecycleDatum) :=
  match s with
  | Requested x0 x1 => [("failures", DCount x0); ("last_failure", DFailure x1)]
  | Realised x0 => [("identity", DText x0)]
  | Gone x0 => [("ending", DEnding x0)]
  | GaveUp x0 => [("cause", DCause x0)]
  end.

Definition lifecycle_fields (l : LifecycleLabel) : list string :=
  match l with
  | LRequested => ["failures"; "last_failure"]
  | LRealised => ["identity"]
  | LGone => ["ending"]
  | LGaveUp => ["cause"]
  end.
Definition requested : LifecycleState := Requested 0 None.

Definition live (s : LifecycleState) : bool := match s with Requested _ _ | Realised _ => true | _ => false end.
Definition realised (s : LifecycleState) : bool := match s with Realised _ => true | _ => false end.
Definition gone (s : LifecycleState) : bool := match s with Gone _ => true | _ => false end.
Definition identity (s : LifecycleState) : option string := match s with Realised i => Some i | _ => None end.
Definition cause (s : LifecycleState) : option Cause := match s with GaveUp c => Some c | _ => None end.

(** * Kinds read *)

Record Observed : Type := mkObserved { ob_identity : string }.

Inductive Realisation : Type := .
Inductive Teardown : Type := .
Inductive Absence : Type := .
#[export] Instance realisation_kind : Kind Realisation := {| kind_NAME := "realisation"; kind_Value := Observed |}.
#[export] Instance teardown_kind : Kind Teardown := {| kind_NAME := "teardown"; kind_Value := bool |}.
#[export] Instance absence_kind : Kind Absence := {| kind_NAME := "absence"; kind_Value := bool |}.

(** [dyn LifecycleWorld]: a source of each kind. *)
Record LifecycleWorld : Type := mkWorld {
  w_realisation : Ref Realisation -> option (Version * Observed);
  w_teardown : Ref Teardown -> option (Version * bool);
  w_absence : Ref Absence -> option (Version * bool);
}.
#[export] Instance source_realisation : Source LifecycleWorld Realisation := w_realisation.
#[export] Instance source_teardown : Source LifecycleWorld Teardown := w_teardown.
#[export] Instance source_absence : Source LifecycleWorld Absence := w_absence.

(** [MemoryLifecycleWorld]. *)
Record MemoryLifecycleWorld : Type := mkMemoryWorld {
  realisations : Table Realisation;
  teardowns : Table Teardown;
  absences : Table Absence;
}.
Definition memory_world (w : MemoryLifecycleWorld) : LifecycleWorld :=
  mkWorld (table_lookup (realisations w)) (table_lookup (teardowns w)) (table_lookup (absences w)).

(** * Edges *)

Record Realise : Type := mkRealise { rl_identity : string; rl_observed : Ref Realisation }.
Record Release : Type := mkRelease { rs_teardown : Ref Teardown }.
Record Vanish : Type := mkVanish { va_cause : VanishCause; va_observed : Ref Absence }.
Record Attempted : Type := mkAttempted { at_outcome : Outcome }.
Record GiveUp : Type := mkGiveUp { gu_cause : Cause }.

Inductive LifecycleEdge : Type :=
| ERealise (a : Realise)
| ERelease (a : Release)
| EVanish (a : Vanish)
| EGiveUp (a : GiveUp)
| EAttempted (a : Attempted).

Inductive LifecycleEdgeKind : Type := KRealise | KRelease | KVanish | KGiveUp | KAttempted.
#[export] Instance LifecycleEdgeKind_eq_dec : EqDecision LifecycleEdgeKind.
Proof. solve_decision. Defined.

#[export] Program Instance lifecycle_kind_coded : Coded LifecycleEdgeKind := {|
  coded_ALL := [KRealise; KRelease; KVanish; KGiveUp; KAttempted];
  coded_name k := match k with KRealise => "realise" | KRelease => "release" | KVanish => "vanish" | KGiveUp => "give_up" | KAttempted => "attempted" end;
  coded_code k := match k with KRealise => "rl" | KRelease => "rs" | KVanish => "va" | KGiveUp => "gu" | KAttempted => "at" end;
|}.
Next Obligation. coded_complete_tac. Qed.
Next Obligation. coded_nodup_tac. Qed.

Definition lifecycle_edge_kind (e : LifecycleEdge) : LifecycleEdgeKind :=
  match e with ERealise _ => KRealise | ERelease _ => KRelease | EVanish _ => KVanish | EGiveUp _ => KGiveUp | EAttempted _ => KAttempted end.

Inductive LifecycleRefusal : Type := LEnded (reason : string) | LWrongState | MissingEvidence.

Section lifecycle.
Context (K : LifecycleKind).

Definition sig : MachineSig := {|
  M_NAME := lk_NAME K;
  Request := lk_Request K;
  Spec := lk_Request K;
  MState := LifecycleState;
  Label := LifecycleLabel;
  Datum := LifecycleDatum;
  Edge := LifecycleEdge;
  EdgeKind := LifecycleEdgeKind;
  Write := NoRecords;
  Refusal := LifecycleRefusal;
  World := LifecycleWorld;
  label := lifecycle_label;
  data := lifecycle_data;
  fields := lifecycle_fields;
  edge_kind := lifecycle_edge_kind;
  write_field := no_records_field;
  write_apply := no_records_apply;
  of_ended e := LEnded (ended_reason e);
  of_wrong_state e := LWrongState;
|}.

#[export] Instance arg_realise : EdgeArg sig Realise :=
  edge_arg sig KRealise (fun e => match e with ERealise a => Some a | _ => None end) ERealise.
#[export] Instance arg_release : EdgeArg sig Release :=
  edge_arg sig KRelease (fun e => match e with ERelease a => Some a | _ => None end) ERelease.
#[export] Instance arg_vanish : EdgeArg sig Vanish :=
  edge_arg sig KVanish (fun e => match e with EVanish a => Some a | _ => None end) EVanish.
#[export] Instance arg_give_up : EdgeArg sig GiveUp :=
  edge_arg sig KGiveUp (fun e => match e with EGiveUp a => Some a | _ => None end) EGiveUp.
#[export] Instance arg_attempted : EdgeArg sig Attempted :=
  edge_arg sig KAttempted (fun e => match e with EAttempted a => Some a | _ => None end) EAttempted.

(** * Gates and effects *)

Abbreviation H := (HM sig) (only parsing).
Abbreviation G := (GM sig) (only parsing).
Abbreviation read_realisation := (@h_read sig Realisation realisation_kind source_realisation) (only parsing).
Abbreviation read_teardown := (@h_read sig Teardown teardown_kind source_teardown) (only parsing).
Abbreviation read_absence := (@h_read sig Absence absence_kind source_absence) (only parsing).

Definition gate_realise (edge : Realise) : G unit :=
  let! found := read_realisation (rl_observed edge) in
  match found with
  | Some o => if bool_decide (ob_identity o = rl_identity edge) then gret tt else refuse MissingEvidence
  | None => refuse MissingEvidence
  end.

Definition is_true (v : option bool) : bool := match v with Some true => true | _ => false end.

Definition gate_release (edge : Release) : G unit :=
  let! t := read_teardown (rs_teardown edge) in
  if is_true t then gret tt else refuse MissingEvidence.

Definition gate_vanish (edge : Vanish) : G unit :=
  let! a := read_absence (va_observed edge) in
  if is_true a then gret tt else refuse MissingEvidence.

Definition attempted (state : LifecycleState) (edge : Attempted) : H LifecycleState :=
  do! h := @ask sig in
  let t := match state with
    | Requested n _ => tally n (at_outcome edge) (h_now h)
    | _ => tally 0 (at_outcome edge) (h_now h)
    end in
  hret (Requested t.1 t.2).

Definition gate_give_up (edge : GiveUp) : G unit :=
  let! h := @ask sig in
  let '(n, lf) := match h_state h with Requested n lf => (n, lf) | _ => (0, None) end in
  let! r := @retry sig (lk_policy K) n lf in
  if exhausted r && bool_decide (last_cause r = Some (gu_cause edge)) then gret tt else refuse MissingEvidence.

(** * The declaration *)

Local Open Scope flotilla_scope.

Definition realise_edge : EdgeDef sig Realise :=
  edge_new |> from [LRequested] |> to [LRealised] |> changes ["identity"]
  |> gate "the home observes the thing under the given identity" gate_realise
  |> effect (fun _ a => hret (Realised (rl_identity a))).
Definition release_edge : EdgeDef sig Release :=
  edge_new |> from [LRequested; LRealised] |> to [LGone]
  |> gate "the teardown is complete" gate_release
  |> changes ["ending"]
  |> effect (fun _ _ => hret (Gone Released)).
Definition vanish_edge : EdgeDef sig Vanish :=
  edge_new |> from [LRealised] |> to [LGone]
  |> gate "the home observes the thing absent" gate_vanish
  |> changes ["ending"]
  |> effect (fun _ a => hret (Gone (ending_of (va_cause a)))).
Definition attempted_edge : EdgeDef sig Attempted :=
  edge_new |> from [LRequested] |> to [LRequested] |> changes ["failures"; "last_failure"]
  |> ungated "an attempt reports how a try ended; giving up judges the tally it leaves"
  |> effect attempted.
Definition give_up_edge : EdgeDef sig GiveUp :=
  edge_new |> from [LRequested] |> to [LGaveUp] |> changes ["cause"]
  |> gate "the attempts are exhausted, the last failing with this cause" gate_give_up
  |> effect (fun _ a => hret (GaveUp (gu_cause a))).

Definition lifecycle_definition : MachineDef sig :=
  @def_new sig LRequested
  |> def_edge realise_edge |> def_edge release_edge |> def_edge vanish_edge
  |> def_edge attempted_edge |> def_edge give_up_edge
  |> def_end LGone "the thing is gone" |> def_end LGaveUp "the request gave up".

(** Every request is admitted. *)
Definition lifecycle_admit (request : lk_Request K) : AM sig (lk_Request K * LifecycleState) :=
  aret (request, requested).

#[export] Instance machine : Machine sig := {| definition := lifecycle_definition; admits := lifecycle_admit |}.
#[export] Instance stamped : StampedWrites sig.
Proof. no_records. Defined.

Lemma lifecycle_validates : validate (definition sig) = Ok tt.
Proof. vm_compute. reflexivity. Qed.

(** * Steps *)

Definition declared (e : LifecycleEdge) : DeclaredEdge sig :=
  match e with
  | ERealise _ => declare_edge realise_edge
  | ERelease _ => declare_edge release_edge
  | EVanish _ => declare_edge vanish_edge
  | EGiveUp _ => declare_edge give_up_edge
  | EAttempted _ => declare_edge attempted_edge
  end.

Lemma lifecycle_find (e : LifecycleEdge) : find (definition sig) (edge_kind sig e) = Some (declared e).
Proof. by destruct e. Qed.

(** What each gate decides of the world. *)
Definition observed_as (w : LifecycleWorld) (a : Realise) : bool :=
  match @seen _ Realisation realisation_kind source_realisation w (rl_observed a) with
  | Some o => bool_decide (ob_identity o = rl_identity a) | None => false end.
Definition torn_down (w : LifecycleWorld) (t : Ref Teardown) : bool := is_true (@seen _ Teardown teardown_kind source_teardown w t).
Definition absent (w : LifecycleWorld) (t : Ref Absence) : bool := is_true (@seen _ Absence absence_kind source_absence w t).
Definition evidence (b : bool) : result LifecycleRefusal unit := if b then Ok tt else Err MissingEvidence.
#[local] Arguments evidence : simpl never.
Definition given_up (s : LifecycleState) (a : GiveUp) : bool :=
  match s with
  | Requested n lf => spent (lk_policy K) n lf && bool_decide (f_cause <$> lf = Some (gu_cause a))
  | _ => false
  end.

Lemma gate_realise_reads a : reads_only (gate_realise a).
Proof. unfold gate_realise. reads_only_tac. Qed.
Lemma gate_realise_val a h : (gate_realise a h).1 = evidence (observed_as (h_world h) a).
Proof. unfold gate_realise, observed_as, glet. cbn. destruct (seen _ _); [|done]. by case_bool_decide. Qed.
Lemma gate_release_reads a : reads_only (gate_release a).
Proof. unfold gate_release. reads_only_tac. Qed.
Lemma gate_release_val a h : (gate_release a h).1 = evidence (torn_down (h_world h) (rs_teardown a)).
Proof. unfold gate_release, torn_down, glet. cbn. by destruct (is_true _). Qed.
Lemma gate_vanish_reads a : reads_only (gate_vanish a).
Proof. unfold gate_vanish. reads_only_tac. Qed.
Lemma gate_vanish_val a h : (gate_vanish a h).1 = evidence (absent (h_world h) (va_observed a)).
Proof. unfold gate_vanish, absent, glet. cbn. by destruct (is_true _). Qed.
Lemma gate_give_up_reads a : reads_only (gate_give_up a).
Proof. unfold gate_give_up. reads_only_tac. Qed.

Lemma retry_cause {M} p n lf (h : Handle M) : exhausted (retry p n lf h).1 = true -> last_cause (retry p n lf h).1 = f_cause <$> lf.
Proof. unfold retry. destruct lf; [|done]. case_decide; [|done]. by case_match. Qed.

Lemma gate_give_up_val a h : (gate_give_up a h).1 = evidence (given_up (h_state h) a).
Proof.
  unfold gate_give_up, given_up, glet, ask. cbn. destruct (h_state h) as [n lf| | |]; try done.
  rewrite <-(retry_spent _ _ _ h). pose proof (retry_cause (lk_policy K) n lf h) as Hc.
  destruct (retry _ _ _ h) as [r h1]. cbn in *. destruct (exhausted r); [|done]. rewrite Hc by done. cbn. by case_bool_decide.
Qed.

(** What a step does, on every branch. *)
Definition lifecycle_next (_ : lk_Request K) (w : LifecycleWorld) (now : Timestamp) (s : LifecycleState) (e : LifecycleEdge) :
    result LifecycleRefusal LifecycleState :=
  match s, e with
  | Gone _, _ => Err (LEnded "the thing is gone")
  | GaveUp _, _ => Err (LEnded "the request gave up")
  | Requested _ _, ERealise a => _ ← evidence (observed_as w a); Ok (Realised (rl_identity a))
  | Requested n _, EAttempted a => let t := tally n (at_outcome a) now in Ok (Requested t.1 t.2)
  | Requested _ _, EGiveUp a => _ ← evidence (given_up s a); Ok (GaveUp (gu_cause a))
  | Requested _ _, ERelease a | Realised _, ERelease a => _ ← evidence (torn_down w (rs_teardown a)); Ok (Gone Released)
  | Realised _, EVanish a => _ ← evidence (absent w (va_observed a)); Ok (Gone (ending_of (va_cause a)))
  | _, _ => Err LWrongState
  end.

Lemma lifecycle_step_next (r : Resource sig) (edge : LifecycleEdge) (world : LifecycleWorld) now :
  (step (definition sig) edge (handle_on r world now)).1 =
  map_err (@Refused sig) (lifecycle_next (r_spec r) world now (value (r_state r)) edge).
Proof.
  destruct r as [name spec [s since] version]. cbn -[step definition lifecycle_next].
  destruct s, edge;
    try (step_is_ended; reflexivity); try (step_is_wrong lifecycle_find; reflexivity);
    try (step_is_ungated lifecycle_find; reflexivity);
    first [ step_by_gate lifecycle_find gate_realise gate_realise_val gate_realise_reads
          | step_by_gate lifecycle_find gate_release gate_release_val gate_release_reads
          | step_by_gate lifecycle_find gate_vanish gate_vanish_val gate_vanish_reads
          | step_by_gate lifecycle_find gate_give_up gate_give_up_val gate_give_up_reads ].
Qed.

(** * The abstract machine: [specs/primitives/machines/lifecycle.qnt] *)

Inductive AttemptOutcome : Type := QSucceeded | QAttemptFailed (retryable : bool) (c : Cause).
Inductive QState : Type := QRequested (h : list AttemptOutcome) | QRealised (i : string) | QGone (e : Ending) | QGaveUp (c : Cause).
Inductive Event : Type :=
| QRealise (present matches : bool) (i : string)
| QRelease (teardownComplete : bool)
| QVanish (is_absent : bool) (c : VanishCause)
| QAttempted (o : AttemptOutcome)
| QGiveUp (c : Cause).
Inductive QRefusal : Type := QEnded | QWrongState | QMissingEvidence.
Inductive Next : Type := Moved (s : QState) | QRefused (r : QRefusal).

Definition failed (o : AttemptOutcome) : bool := match o with QAttemptFailed _ _ => true | QSucceeded => false end.
Definition retryable (o : AttemptOutcome) : bool := match o with QAttemptFailed r _ => r | QSucceeded => true end.
(** The lifecycle has no [Resume]: its one window is the whole history. *)
Definition failureCount (h : list AttemptOutcome) : Z := failure_count failed h 0.
Definition q_exhausted (max : Z) (h : list AttemptOutcome) : bool :=
  bool_decide (max <= failureCount h) ||
  (bool_decide (0 < length h)%nat && match last h with Some a => failed a && negb (retryable a) | None => false end).
Definition lastCauseIs (h : list AttemptOutcome) (c : Cause) : bool :=
  match last h with Some (QAttemptFailed _ c') => bool_decide (c' = c) | _ => false end.

Definition qstep (max : Z) (s : QState) (e : Event) : Next :=
  match s with
  | QGone _ | QGaveUp _ => QRefused QEnded
  | _ =>
      match e with
      | QRealise present matches i =>
          match s with
          | QRequested _ => if present && matches then Moved (QRealised i) else QRefused QMissingEvidence
          | _ => QRefused QWrongState
          end
      | QRelease complete => if complete then Moved (QGone Released) else QRefused QMissingEvidence
      | QVanish ab c =>
          match s with
          | QRealised _ => if ab then Moved (QGone (ending_of c)) else QRefused QMissingEvidence
          | _ => QRefused QWrongState
          end
      | QAttempted o =>
          match s with QRequested h => Moved (QRequested (h ++ [o])) | _ => QRefused QWrongState end
      | QGiveUp c =>
          match s with
          | QRequested h => if q_exhausted max h && lastCauseIs h c then Moved (QGaveUp c) else QRefused QMissingEvidence
          | _ => QRefused QWrongState
          end
      end
  end.

(** * Refinement *)

Definition abs_outcome (o : Outcome) : AttemptOutcome :=
  match o with Succeeded => QSucceeded | Failed c r => QAttemptFailed r c end.

Definition stands (a : AttemptOutcome) (f : Failure) : Prop := a = QAttemptFailed (f_retryable f) (f_cause f).

Definition abs_state (q : QState) (s : LifecycleState) : Prop :=
  match q, s with
  | QRequested h, Requested n lf => tallied failed stands h 0 n lf
  | QRealised i, Realised i' => i = i'
  | QGone e, Gone e' => e = e'
  | QGaveUp c, GaveUp c' => c = c'
  | _, _ => False
  end.

Definition observe (w : LifecycleWorld) (e : LifecycleEdge) : Event :=
  match e with
  | ERealise a => QRealise
      (match @seen _ Realisation realisation_kind source_realisation w (rl_observed a) with Some _ => true | None => false end)
      (observed_as w a) (rl_identity a)
  | ERelease a => QRelease (torn_down w (rs_teardown a))
  | EVanish a => QVanish (absent w (va_observed a)) (va_cause a)
  | EAttempted a => QAttempted (abs_outcome (at_outcome a))
  | EGiveUp a => QGiveUp (gu_cause a)
  end.

Definition abs_refusal (r : LifecycleRefusal) : QRefusal :=
  match r with LEnded _ => QEnded | LWrongState => QWrongState | MissingEvidence => QMissingEvidence end.

Definition agrees (r : result (StepError sig) LifecycleState) (n : Next) : Prop :=
  match r with
  | Ok s' => exists q', n = Moved q' /\ abs_state q' s'
  | Err (Refused rf) => n = QRefused (abs_refusal rf)
  | Err (Faulted _) => False
  end.

Lemma abs_given_up h n lf a : policy_ok (lk_policy K) -> tallied failed stands h 0 n lf ->
  given_up (Requested n lf) a = q_exhausted (Z.max (max_failures (lk_policy K)) 1) h && lastCauseIs h (gu_cause a).
Proof.
  intros Hp Ht. unfold given_up, q_exhausted, failureCount.
  rewrite (tallied_spent failed stands (lk_policy K) h 0 n lf retryable Hp Ht) by (by intros ? ? ->).
  destruct lf as [f|].
  - destruct (td_some _ _ _ _ _ _ Ht f eq_refl) as (_ & o & Hl & _ & ->). unfold lastCauseIs. rewrite Hl. f_equal.
    cbn. apply bool_decide_ext. split; congruence.
  - cbn [fmap option_fmap option_map]. rewrite (bool_decide_eq_false_2 (None = Some (gu_cause a))), andb_false_r by done. symmetry. apply andb_false_iff. right. unfold lastCauseIs.
    destruct (td_none _ _ _ _ _ _ Ht eq_refl) as [Hlen|(o & -> & Ho)]; [by destruct h; cbn in Hlen; [|lia]|by destruct o].
Qed.

Lemma lifecycle_refines_core spec q s edge world now :
  policy_ok (lk_policy K) -> abs_state q s ->
  agrees (map_err (@Refused sig) (lifecycle_next spec world now s edge)) (qstep (Z.max (max_failures (lk_policy K)) 1) q (observe world edge)).
Proof.
  intros Hp Hq. destruct q as [h|i|e|c], s as [n lf|i'|e'|c']; try done; cbn in Hq; subst;
    destruct edge as [a|a|a|a|a]; try reflexivity; cbn -[given_up q_exhausted]; unfold evidence.
  - unfold observed_as. destruct (seen _ _) as [o|]; [|done]. destruct (bool_decide _); [by eexists|done].
  - destruct (torn_down _ _); [by eexists|done].
  - rewrite (abs_given_up h n lf a Hp Hq). destruct (_ && _); [by eexists|done].
  - eexists. split; [reflexivity|]. cbn. destruct (at_outcome a); [by eapply tallied_success|by eapply tallied_failure].
  - destruct (torn_down _ _); [by eexists|done].
  - destruct (absent _ _); [by eexists|done].
Qed.

(** * Invariants *)

Definition q_start : QState := QRequested [].
Definition q_move (q q' : QState) : Prop := exists e, qstep (Z.max (max_failures (lk_policy K)) 1) q e = Moved q'.

(** A state that abstracts one the abstract machine reaches. *)
Definition refines (_ : lk_Request K) (s : LifecycleState) : Prop :=
  policy_ok (lk_policy K) -> exists q, rtc q_move q_start q /\ abs_state q s.

#[export] Instance lifecycle_machine_refines : MachineInv sig (fun _ => True) refines.
Proof.
  apply (machine_inv_by_next sig (fun _ => lifecycle_next)); [by intros []|intros; apply lifecycle_step_next| |].
  - intros request world now spec state ad _ H. injection H as <- <- <-. intros _. exists q_start.
    split; [apply rtc_refl|apply (tallied_open _ _ [])].
  - intros _ spec w now s e s' Hr Hn Hp. destruct (Hr Hp) as (q & Hq & Ha).
    pose proof (lifecycle_refines_core spec q s e w now Hp Ha) as H. rewrite Hn in H. destruct H as (q' & Hs & Ha').
    exists q'. split; [|done]. eapply rtc_r; [exact Hq|]. by eexists.
Qed.

(** Once not live, a thing stays as it ended: every edge is refused. *)
Lemma lifecycle_ended_refuses spec w now s e : live s = false -> exists reason, lifecycle_next spec w now s e = Err (LEnded reason).
Proof. destruct s; cbn; intros; try done; eauto. Qed.
End lifecycle.

Arguments sig : simpl never.

(** * Properties *)

(** for every kind of managed thing, one step of its lifecycle, on every
    state and edge, is the function [lifecycle_next]: a thing that is gone or
    given up refuses everything, an edge outside its source states is refused
    as such, missing evidence refuses, and no step faults. *)
Theorem lifecycle_step_is (K : LifecycleKind) (r : Resource (sig K)) (edge : LifecycleEdge) (world : LifecycleWorld) now :
  (step (definition (sig K)) (edge : Edge (sig K)) (handle_on r (world : World (sig K)) now)).1 =
  map_err (@Refused (sig K)) (lifecycle_next K (r_spec r) world now (value (r_state r)) edge).
Proof. apply lifecycle_step_next. Qed.

(** C36: the lifecycle machine refines its specification: from related states a
    step and the abstract step both move, to related states, or both refuse,
    alike; the tally of failures stands for the whole history of attempts. *)
Theorem lifecycle_step_refines (K : LifecycleKind) (r : Resource (sig K)) (q : QState) (edge : LifecycleEdge) (world : LifecycleWorld) now :
  policy_ok (lk_policy K) -> abs_state q (value (r_state r)) ->
  agrees K (step (definition (sig K)) (edge : Edge (sig K)) (handle_on r (world : World (sig K)) now)).1
    (qstep (Z.max (max_failures (lk_policy K)) 1) q (observe world edge)).
Proof. intros Hp Hq. rewrite lifecycle_step_next. by apply lifecycle_refines_core. Qed.

Lemma default_policy_ok : policy_ok DEFAULT_POLICY.
Proof. unfold policy_ok, DEFAULT_POLICY, SECOND. cbn. unfold_ints. lia. Qed.

Definition sample_lifecycle : LifecycleKind := mkKind "Sample" unit DEFAULT_POLICY.
Definition sample_failure (n : Z) : Failure := mkFailure n (mkCause External "no host") true.
Definition sample_thing : Resource (sig sample_lifecycle) :=
  mkResource "t" (tt : Spec (sig sample_lifecycle)) (mkState (Requested 3 (Some (sample_failure 3)) : MState (sig sample_lifecycle)) 0) 1.

Lemma lifecycle_step_refines_witness :
  qstep 3 (QRequested (replicate 3 (QAttemptFailed true (mkCause External "no host")))) (QGiveUp (mkCause External "no host")) =
  Moved (QGaveUp (mkCause External "no host")).
Proof.
  pose proof (lifecycle_step_refines sample_lifecycle sample_thing (QRequested (replicate 3 (QAttemptFailed true (mkCause External "no host"))))
    (EGiveUp (mkGiveUp (mkCause External "no host"))) (memory_world (mkMemoryWorld table_new table_new table_new)) 9) as H.
  rewrite lifecycle_step_next in H. destruct H as (q' & Hq & Ha).
  - apply default_policy_ok.
  - cbn. apply (tallied_failure _ _ [_; _] _ 0 2 (Some (sample_failure 2)) (sample_failure 3)); [done|done|].
    apply (tallied_failure _ _ [_] _ 0 1 (Some (sample_failure 1))); [done|done|].
    apply (tallied_failure _ _ [] _ 0 0 None); [done|done|]. apply (tallied_open _ _ []).
  - exact Hq || (destruct q'; try done; cbn in Ha; subst; exact Hq).
Defined.

(** a thing that is no longer live is final: whatever the edge, the world
    and the time, the step is refused with the reason its end declares. *)
Theorem lifecycle_end_is_final (K : LifecycleKind) (r : Resource (sig K)) (edge : LifecycleEdge) (world : LifecycleWorld) now :
  live (value (r_state r)) = false ->
  exists reason, (step (definition (sig K)) (edge : Edge (sig K)) (handle_on r (world : World (sig K)) now)).1 = Err (@Refused (sig K) (LEnded reason)) /\
    end_reason (definition (sig K)) (label (sig K) (value (r_state r))) = Some reason.
Proof.
  intros Hl. destruct r as [name spec [s since] v]. cbn -[step definition handle_on end_reason] in *.
  destruct s; try done; eexists; (split; [erewrite step_ended by (vm_compute; reflexivity); reflexivity|vm_compute; reflexivity]).
Qed.

Lemma lifecycle_end_is_final_witness :
  exists reason, (step (definition (sig sample_lifecycle)) (ERelease (mkRelease (mkRef "td")) : Edge (sig sample_lifecycle))
    (handle_on (mkResource "t" (tt : Spec (sig sample_lifecycle)) (mkState (Gone Released : MState (sig sample_lifecycle)) 0) 1)
      (memory_world (mkMemoryWorld table_new table_new table_new) : World (sig sample_lifecycle)) 9)).1 =
    Err (@Refused (sig sample_lifecycle) (LEnded reason)).
Proof.
  destruct (lifecycle_end_is_final sample_lifecycle
    (mkResource "t" (tt : Spec (sig sample_lifecycle)) (mkState (Gone Released : MState (sig sample_lifecycle)) 0) 1)
    (ERelease (mkRelease (mkRef "td"))) (memory_world (mkMemoryWorld table_new table_new table_new)) 9) as (reason & H & _);
    [reflexivity|exists reason; exact H].
Defined.

(** in every home of any kind of lifecycle, reached by creating, applying,
    evicting and restoring, each resident stands for a state the specification
    reaches. *)
Theorem lifecycle_homes_refine (K : LifecycleKind) {L} `{!Log (sig K) L, !LogLaws (sig K) L} writer log (h0 h : Home (sig K) L) name r :
  policy_ok (lk_policy K) -> with_log writer log = Ok h0 ->
  rtc (home_step (fun _ => True) (resource_ok (M := sig K) (refines K))) h0 h -> home_resources h !! name = Some r ->
  exists q, rtc (q_move K) q_start q /\ abs_state q (value (r_state r)).
Proof.
  intros Hp H0 Hr Hl. destruct (home_reachable_ok (M := sig K) (fun _ => True) (refines K) writer log h0 h H0 Hr) as [_ Hall].
  destruct (Hall name r Hl) as [_ Hok]. by apply Hok.
Qed.

Definition sample_home : Home (sig sample_lifecycle) (MemoryLog (sig sample_lifecycle)) := mkHome "h" (definition (sig sample_lifecycle)) ∅ memory_log_new.
Definition sample_world : World (sig sample_lifecycle) := memory_world (mkMemoryWorld table_new table_new table_new).
Definition sample_created : Home (sig sample_lifecycle) (MemoryLog (sig sample_lifecycle)) :=
  (create sample_home "t" (tt : Request (sig sample_lifecycle)) sample_world 1).2.

Lemma lifecycle_homes_refine_witness : exists r q, home_resources sample_created !! "t" = Some r /\
  rtc (q_move sample_lifecycle) q_start q /\ abs_state q (value (r_state r)).
Proof.
  destruct (home_resources sample_created !! "t") as [r|] eqn:Hl; [|vm_compute in Hl; discriminate].
  destruct (lifecycle_homes_refine sample_lifecycle "h" memory_log_new sample_home sample_created "t" r) as (q & Hq & Ha).
  - apply default_policy_ok.
  - unfold with_log. rewrite lifecycle_validates. reflexivity.
  - eapply rtc_l; [|apply rtc_refl].
    eapply (hs_create _ _ _ "t" (tt : Request (sig sample_lifecycle)) sample_world 1 _ sample_created); [done|apply surjective_pairing].
  - exact Hl.
  - exists r, q. split; [reflexivity|]. split; [exact Hq|exact Ha].
Defined.

(** ** Requests end *)

(** A run of edges, each in its own world at its own time, from a resource:
    the state it comes to, or the first error. *)
Definition Move : Type := LifecycleEdge * LifecycleWorld * Timestamp.
Definition move_on (K : LifecycleKind) (r : Resource (sig K)) (m : Move) : result (StepError (sig K)) (Resource (sig K)) :=
  let '(e, w, now) := m in
  s ← (step (definition (sig K)) (e : Edge (sig K)) (handle_on r (w : World (sig K)) now)).1;
  Ok (mkResource (r_name r) (r_spec r) (mkState s now) (r_version r)).
Definition attempt_failed (f : Cause * bool * LifecycleWorld * Timestamp) : Move :=
  let '(c, retryable, w, now) := f in (EAttempted (mkAttempted (Failed c retryable)), w, now).

Lemma failing_attempts_tally (K : LifecycleKind) (fails : list (Cause * bool * LifecycleWorld * Timestamp)) : forall (r : Resource (sig K)) n lf, value (r_state r) = Requested n lf -> is_u32 n ->
  exists r', try_fold (move_on K) r (map attempt_failed fails) = Ok r' /\
    value (r_state r') = Requested (Z.min (n + Z.of_nat (length fails)) u32_max)
      (match last fails with Some (c, b, _, now) => Some (mkFailure now c b) | None => lf end).
Proof.
  induction fails as [|[[[c b] w] now] fails IH] using rev_ind; intros r n lf Hs Hn.
  - exists r. cbn. split; [done|]. rewrite Hs. f_equal. unfold_ints. lia.
  - rewrite map_app, try_fold_app. destruct (IH r n lf Hs Hn) as (r1 & -> & Hs1). cbn [map try_fold]. unfold move_on at 1, attempt_failed.
    rewrite lifecycle_step_next, Hs1. cbn -[u32_max]. eexists. split; [reflexivity|]. cbn -[u32_max]. rewrite last_snoc, length_app. cbn [length].
    f_equal. unfold u32_saturating_add. unfold_ints. lia.
Qed.

(** C35: A request whose attempts keep failing comes to an end: from any number of
    failures so far, in any worlds and at any times, once the attempts reach the
    policy's limit, or the last cause is not worth a retry, giving up for that
    last cause is accepted, and the request has given up. *)
Theorem failing_requests_give_up (K : LifecycleKind) (r : Resource (sig K)) n lf (fails : list (Cause * bool * LifecycleWorld * Timestamp)) c retryable w now w' now' :
  policy_ok (lk_policy K) -> value (r_state r) = Requested n lf -> is_u32 n -> last fails = Some (c, retryable, w, now) ->
  Z.max (max_failures (lk_policy K)) 1 <= n + Z.of_nat (length fails) \/ retryable = false ->
  exists r', try_fold (move_on K) r (map attempt_failed fails ++ [(EGiveUp (mkGiveUp c), w', now')]) = Ok r' /\ value (r_state r') = GaveUp c.
Proof.
  intros [Hmax _] Hs Hn Hl Hspent. destruct (failing_attempts_tally K fails r n lf Hs Hn) as (r1 & Hr1 & Hs1). rewrite Hl in Hs1.
  rewrite try_fold_app, Hr1. cbn [try_fold]. unfold move_on at 1. rewrite lifecycle_step_next, Hs1. cbn -[u32_max given_up].
  assert (0 < Z.of_nat (length fails)) as Hlen by (destruct fails; [done|cbn; lia]).
  assert (given_up K (Requested (Z.min (n + Z.of_nat (length fails)) u32_max) (Some (mkFailure now c retryable))) (mkGiveUp c) = true) as ->.
  { unfold given_up, spent. cbn [f_retryable f_cause fmap option_fmap option_map gu_cause]. rewrite (bool_decide_true (Some c = Some c)), andb_true_r by done.
    rewrite bool_decide_true by (unfold_ints; lia). destruct Hspent as [Hm| ->]; [|done]. rewrite bool_decide_true; [apply orb_true_r|]. unfold_ints. lia. }
  cbn. eexists. split; [reflexivity|]. done.
Qed.

Definition sample_request : Resource (sig sample_lifecycle) :=
  mkResource "t" (tt : Spec (sig sample_lifecycle)) (mkState (Requested 0 None : MState (sig sample_lifecycle)) 0) 1.
Lemma failing_requests_give_up_witness :
  exists r', try_fold (move_on sample_lifecycle) sample_request
    (map attempt_failed (replicate 3 (mkCause External "no host", true, sample_world, 5)) ++ [(EGiveUp (mkGiveUp (mkCause External "no host")), sample_world, 6)]) = Ok r' /\
    value (r_state r') = GaveUp (mkCause External "no host").
Proof.
  refine (failing_requests_give_up sample_lifecycle sample_request 0 None (replicate 3 (mkCause External "no host", true, sample_world, 5))
    (mkCause External "no host") true sample_world 5 sample_world 6 default_policy_ok eq_refl _ eq_refl _).
  - vm_compute. split; discriminate.
  - left. vm_compute. discriminate.
Defined.

End Lifecycle.
