(* ===== verification/Placement.v ===== *)
(** Placement ([crates/flotilla-state-machines/src/placement.rs]) and the
    vessels it leases ([machines/vessel.rs]): the placement rule, the host
    ledger, and the composed placement home. *)

From S2P Require Import Prelude Schema Read Machine Validate Engine Log Home Attempt Steps Lifecycle.

(** * Requests and leases *)

(** A convoy by name and home; a vessel class, a host and a vessel by their
    text; a capacity dimension, a priority and a count of units as [u32]. *)
Abbreviation ConvoyId := SRef (only parsing).
Abbreviation VesselClass := string (only parsing).
Abbreviation Priority := Z (only parsing).
Abbreviation Quota := (gmap string Z) (only parsing).
Abbreviation Host := string (only parsing).
Abbreviation Dimension := Z (only parsing).
Abbreviation Units := (gmap Z Z) (only parsing).
Abbreviation VesselId := string (only parsing).

Record Request : Type := mkRequest { convoy : ConvoyId; class : VesselClass; shape : Units; priority : Priority }.

Record Evidence : Type := mkEvidence {
  ev_host : Host; ev_available : Units; ev_waiting : list Request; ev_live : Z; ev_cap : Z; ev_admitted : bool }.

Record Lease : Type := mkLease { lease_request : Request; lease_host : Host }.

Inductive PlacementRefusal : Type :=
| PWrongState | NotAdmitted | QuotaExceeded | DoesNotFit | HigherPriorityWaiting | PMissingEvidence.

(** Every dimension of the shape is available and large enough. *)
Definition fits (r : Request) (available : Units) : bool :=
  forallb (fun p => match available !! p.1 with Some free => bool_decide (p.2 <= free) | None => false end) (map_iter (shape r)).

(** The [Place] rule, checked in its order. *)
Definition place_rule (r : Request) (e : Evidence) : result PlacementRefusal Lease :=
  if negb (ev_admitted e) then Err NotAdmitted
  else if bool_decide (ev_live e >= ev_cap e) then Err QuotaExceeded
  else if negb (fits r (ev_available e)) then Err DoesNotFit
  else if existsb (fun w => bool_decide (priority w > priority r) && fits w (ev_available e)) (ev_waiting e) then Err HigherPriorityWaiting
  else Ok (mkLease r (ev_host e)).

(** * The ledger *)

Inductive LVessel : Type := VWaiting (r : Request) | VLeased (l : Lease).

Inductive LedgerError : Type :=
| UnknownVessel (id : VesselId)
| UnknownHost (host : Host)
| DuplicateHost (host : Host)
| UnknownDimension (host : Host) (dimension : Dimension)
| DuplicateRequest (id : VesselId)
| NotWaiting (id : VesselId)
| NotLeased (id : VesselId)
| CapacityUnderflow (host : Host) (dimension : Dimension)
| LRefused (r : PlacementRefusal).

Record Ledger : Type := mkLedger { hosts : gmap Host Units; caps : gmap ConvoyId Quota; vessels : gmap VesselId LVessel }.

Definition ledger_new : Ledger := mkLedger ∅ ∅ ∅.

Definition add_host (l : Ledger) (host : Host) (capacity : Units) : result LedgerError unit * Ledger :=
  match hosts l !! host with
  | Some _ => (Err (DuplicateHost host), l)
  | None => (Ok tt, mkLedger (<[host := capacity]> (hosts l)) (caps l) (vessels l))
  end.

Definition set_caps (l : Ledger) (convoy : ConvoyId) (quota : Quota) : Ledger :=
  mkLedger (hosts l) (<[convoy := quota]> (caps l)) (vessels l).

Definition set_cap (l : Ledger) (convoy : ConvoyId) (class : VesselClass) (cap : Z) : Ledger :=
  mkLedger (hosts l) (<[convoy := <[class := cap]> (default ∅ (caps l !! convoy))]> (caps l)) (vessels l).

Definition with_vessels (l : Ledger) (v : gmap VesselId LVessel) : Ledger := mkLedger (hosts l) (caps l) v.

Definition request (l : Ledger) (id : VesselId) (r : Request) : result LedgerError unit * Ledger :=
  match vessels l !! id with
  | Some _ => (Err (DuplicateRequest id), l)
  | None => (Ok tt, with_vessels l (<[id := VWaiting r]> (vessels l)))
  end.

(** The live leases, by vessel, in vessel order. *)
Definition leases (l : Ledger) : list (VesselId * Lease) :=
  omap (fun p => match p.2 with VLeased lease => Some (p.1, lease) | VWaiting _ => None end) (map_iter (vessels l)).

(** One dimension of a shape taken from what is available. *)
Definition take_unit (host : Host) (available : Units) (p : Dimension * Z) : result LedgerError Units :=
  match available !! p.1 with
  | None => Err (UnknownDimension host p.1)
  | Some free =>
      match u32_checked_sub free p.2 with
      | None => Err (CapacityUnderflow host p.1)
      | Some rest => Ok (<[p.1 := rest]> available)
      end
  end.

Definition take_shape (host : Host) (available : Units) (s : Units) : result LedgerError Units :=
  try_fold (take_unit host) available (map_iter s).

(** The shapes leased on [host]. *)
Definition shapes_on (l : Ledger) (host : Host) : list Units :=
  omap (fun p => if bool_decide (lease_host p.2 = host) then Some (shape (lease_request p.2)) else None) (leases l).

(** The host's capacity less the shapes leased on it. *)
Definition available (l : Ledger) (host : Host) : result LedgerError Units :=
  match hosts l !! host with
  | None => Err (UnknownHost host)
  | Some capacity => try_fold (take_shape host) capacity (shapes_on l host)
  end.

(** The convoy's cap for a class; zero when it holds none. *)
Definition ledger_cap (l : Ledger) (convoy : ConvoyId) (class : VesselClass) : Z :=
  default 0 (quota ← caps l !! convoy; quota !! class).

(** Leased vessels of the convoy and class, on any host. *)
Definition live_count (l : Ledger) (c : ConvoyId) (k : VesselClass) : Z :=
  Z.min (Z.of_nat (length (filter (fun p => convoy (lease_request p.2) = c /\ class (lease_request p.2) = k) (leases l)))) u32_max.

Definition waiting (l : Ledger) (id : VesselId) : result LedgerError Request :=
  match vessels l !! id with
  | Some (VWaiting r) => Ok r
  | Some (VLeased _) => Err (NotWaiting id)
  | None => Err (UnknownVessel id)
  end.

(** The other requests waiting for placement. *)
Definition others (l : Ledger) (id : VesselId) : list Request :=
  omap (fun p => match p.2 with VWaiting r => if bool_decide (p.1 <> id) then Some r else None | VLeased _ => None end) (map_iter (vessels l)).

Definition evidence (l : Ledger) (id : VesselId) (host : Host) : result LedgerError Evidence :=
  r ← waiting l id;
  a ← available l host;
  let cap := ledger_cap l (convoy r) (class r) in
  mret (mkEvidence host a (others l id) (live_count l (convoy r) (class r)) cap (bool_decide (cap > 0))).

(** [Ledger::place]. *)
Definition ledger_place (l : Ledger) (id : VesselId) (host : Host) : result LedgerError Lease * Ledger :=
  match (e ← evidence l id host; r ← waiting l id; map_err LRefused (place_rule r e)) with
  | Err e => (Err e, l)
  | Ok lease => (Ok lease, with_vessels l (<[id := VLeased lease]> (vessels l)))
  end.

(** [Ledger::restore]: puts back a live vessel's lease; a refusal undoes it. *)
Definition ledger_restore (l : Ledger) (id : VesselId) (lease : Lease) : result LedgerError unit * Ledger :=
  match vessels l !! id with
  | Some _ => (Err (DuplicateRequest id), l)
  | None =>
      let l' := with_vessels l (<[id := VLeased lease]> (vessels l)) in
      match available l' (lease_host lease) with
      | Err e => (Err e, with_vessels l' (delete id (vessels l')))
      | Ok _ => (Ok tt, l')
      end
  end.

(** [Ledger::release]. *)
Definition release (l : Ledger) (id : VesselId) : result LedgerError Lease * Ledger :=
  match vessels l !! id with
  | Some (VLeased lease) => (Ok lease, with_vessels l (delete id (vessels l)))
  | Some waiting => (Err (NotLeased id), with_vessels l (<[id := waiting]> (delete id (vessels l))))
  | None => (Err (UnknownVessel id), with_vessels l (delete id (vessels l)))
  end.

(** * Vessels *)

(** The granted lease as the vessel's spec. *)
Record VesselSpec : Type := mkVesselSpec {
  vs_convoy : ConvoyId; vs_class : VesselClass; vs_shape : Units; vs_priority : Priority; vs_host : Host }.

Definition spec_lease (s : VesselSpec) : Lease :=
  mkLease (mkRequest (vs_convoy s) (vs_class s) (vs_shape s) (vs_priority s)) (vs_host s).

(** [From<Lease> for VesselSpec]. *)
Definition lease_spec (l : Lease) : VesselSpec :=
  let r := lease_request l in mkVesselSpec (convoy r) (class r) (shape r) (priority r) (lease_host l).

Definition VesselKind : Lifecycle.LifecycleKind := Lifecycle.mkKind "Vessel" VesselSpec Lifecycle.DEFAULT_POLICY.
Definition Vessel : MachineSig := Lifecycle.sig VesselKind.

#[export] Instance vessel_machine : Machine Vessel := Lifecycle.machine VesselKind.
#[export] Instance vessel_stamped : StampedWrites Vessel := Lifecycle.stamped VesselKind.

Definition vessel_spec (v : Resource Vessel) : VesselSpec := r_spec v.
Definition vessel_state (v : Resource Vessel) : Lifecycle.LifecycleState := value (r_state v).

(** Each live vessel with its lease, by the vessel's name. *)
Definition live_leases (vs : list (Resource Vessel)) : list (VesselId * Lease) :=
  omap (fun v => if Lifecycle.live (vessel_state v) then Some (r_name v, spec_lease (vessel_spec v)) else None) vs.

Lemma spec_lease_spec l : spec_lease (lease_spec l) = l.
Proof. by destruct l as [[] ?]. Qed.

(** * The placement home *)

Inductive PlacementError : Type := PLedger (e : LedgerError) | PWrite (e : WriteError Vessel).

Definition placement_refusal (e : PlacementError) : option PlacementRefusal :=
  match e with
  | PLedger (LRefused r) => Some r
  | PWrite (WRefused _) => Some PMissingEvidence
  | _ => None
  end.

Section placements.
Context {L : Type} `{!Log Vessel L}.

Record Placements : Type := mkPlacements { p_ledger : Ledger; p_home : Home Vessel L }.

(** [home.resources()]: the values in name order. *)
Definition home_values (h : Home Vessel L) : list (Resource Vessel) := (map_iter (home_resources h)).*2.

(** One live vessel's lease put back, or listed as unplaced with the reason. *)
Definition put_back (acc : Ledger * list (VesselId * LedgerError)) (p : VesselId * Lease) : Ledger * list (VesselId * LedgerError) :=
  match ledger_restore acc.1 p.1 p.2 with
  | (Ok _, l) => (l, acc.2)
  | (Err e, l) => (l, acc.2 ++ [(p.1, e)])
  end.

Definition add_hosts (l : Ledger) (hs : list (Host * Units)) : result LedgerError Ledger :=
  try_fold (fun l p => match add_host l p.1 p.2 with (Ok _, l) => Ok l | (Err e, _) => Err e end) l hs.

(** [Placements::new]. *)
Definition placements_new (h : Home Vessel L) (hs : list (Host * Units)) :
    result LedgerError (Placements * list (VesselId * LedgerError)) :=
  l ← add_hosts ledger_new hs;
  let '(l, unplaced) := foldl put_back (l, []) (live_leases (home_values h)) in
  mret (mkPlacements l h, unplaced).

Definition p_set_caps (p : Placements) (convoy : ConvoyId) (quota : Quota) : Placements :=
  mkPlacements (set_caps (p_ledger p) convoy quota) (p_home p).

Definition p_set_cap (p : Placements) (convoy : ConvoyId) (class : VesselClass) (cap : Z) : Placements :=
  mkPlacements (set_cap (p_ledger p) convoy class cap) (p_home p).

Definition p_add_host (p : Placements) (host : Host) (capacity : Units) : result PlacementError unit * Placements :=
  let (r, l) := add_host (p_ledger p) host capacity in (map_err PLedger r, mkPlacements l (p_home p)).

Definition p_request (p : Placements) (id : VesselId) (r : Request) : result PlacementError unit * Placements :=
  let (x, l) := request (p_ledger p) id r in (map_err PLedger x, mkPlacements l (p_home p)).

Definition default_world : Lifecycle.LifecycleWorld :=
  Lifecycle.memory_world (Lifecycle.mkMemoryWorld table_new table_new table_new).

(** The vessel resource [id] names, once its lease is granted. *)
Definition p_get (p : Placements) (id : VesselId) : result PlacementError (Resource Vessel) :=
  ok_or (home_get (p_home p) id) (PLedger (UnknownVessel id)).

(** [Placements::place]: a create the log does not take undoes the grant. *)
Definition p_place (p : Placements) (id : VesselId) (host : Host) (now : Timestamp) :
    result PlacementError (Resource Vessel) * Placements :=
  match ledger_place (p_ledger p) id host with
  | (Err e, l) => (Err (PLedger e), mkPlacements l (p_home p))
  | (Ok lease, l) =>
      match create (p_home p) id (lease_spec lease : Machine.Request Vessel) (default_world : World Vessel) now with
      | (Err e, h) =>
          match release l id with
          | (Err e', l) => (Err (PLedger e'), mkPlacements l h)
          | (Ok _, l) =>
              match request l id (lease_request lease) with
              | (Err e', l) => (Err (PLedger e'), mkPlacements l h)
              | (Ok _, l) => (Err (PWrite e), mkPlacements l h)
              end
          end
      | (Ok _, h) => let p' := mkPlacements l h in (p_get p' id, p')
      end
  end.

(** [Placements::apply]: every terminal state frees its lease. *)
Definition p_apply (p : Placements) (id : VesselId) (edge : Lifecycle.LifecycleEdge) (world : Lifecycle.LifecycleWorld) (now : Timestamp) :
    result PlacementError (Resource Vessel) * Placements :=
  match apply (p_home p) id (edge : Edge Vessel) (world : World Vessel) now with
  | (Err e, h) => (Err (PWrite e), mkPlacements (p_ledger p) h)
  | (Ok _, h) =>
      let ended := match home_get h id with Some v => negb (Lifecycle.live (vessel_state v)) | None => false end in
      if ended then
        match release (p_ledger p) id with
        | (Ok _, l) | (Err (UnknownVessel _), l) => let p' := mkPlacements l h in (p_get p' id, p')
        | (Err e, l) => (Err (PLedger e), mkPlacements l h)
        end
      else let p' := mkPlacements (p_ledger p) h in (p_get p' id, p')
  end.
End placements.
Arguments Placements : clear implicits.

(** * Capacity arithmetic *)

Definition units_of (s : Units) (d : Dimension) : Z := default 0 (s !! d).
Definition total (ss : list Units) (d : Dimension) : Z := foldr (fun s t => units_of s d + t) 0 ss.
(** Units are [u32]. *)
Definition units_ok (s : Units) : Prop := map_Forall (fun _ n => is_u32 n) s.

(** Shapes fit a capacity together: each of their dimensions is one of the
    capacity's, and no dimension is taken beyond it. *)
Definition holds (c : Units) (ss : list Units) : Prop :=
  (forall s d, s ∈ ss -> is_Some (s !! d) -> is_Some (c !! d)) /\
  (forall d a, c !! d = Some a -> total ss d <= a).

Lemma units_of_nonneg s d : units_ok s -> 0 <= units_of s d.
Proof. intros H. unfold units_of. destruct (s !! d) eqn:Hd; [|done]. apply H in Hd. unfold_ints. cbn. lia. Qed.

#[global] Arguments total : simpl never.

Lemma total_cons s ss d : total (s :: ss) d = units_of s d + total ss d.
Proof. done. Qed.

Lemma total_nonneg ss d : Forall units_ok ss -> 0 <= total ss d.
Proof.
  induction 1 as [|s ss Hs _ IH]; [done|]. rewrite total_cons. pose proof (units_of_nonneg s d Hs). lia.
Qed.

#[export] Instance total_perm : Proper ((≡ₚ) ==> (=) ==> (=)) total.
Proof. intros ss ss' Hp d _ <-. induction Hp; rewrite ?total_cons; lia. Qed.

#[export] Instance holds_perm c : Proper ((≡ₚ) ==> iff) (holds c).
Proof. intros ss ss' Hp. unfold holds. by setoid_rewrite Hp. Qed.

Lemma take_units_Ok host c ps u : NoDup ps.*1 ->
  try_fold (take_unit host) c ps = Ok u <->
  (forall d n, (d, n) ∈ ps -> exists a, c !! d = Some a /\ n <= a) /\
  (forall d, u !! d = (fun a => a - units_of (list_to_map ps) d) <$> c !! d).
Proof.
  revert c. induction ps as [|[d0 n0] ps IH]; intros c Hn; cbn [try_fold].
  - split.
    + intros [= <-]. split; [set_solver|]. intros d. unfold units_of. cbn. rewrite lookup_empty. cbn.
      destruct (c !! d); cbn; [f_equal; lia|done].
    + intros [_ H]. f_equal. apply map_eq. intros d. rewrite H. unfold units_of. cbn. rewrite lookup_empty. cbn.
      destruct (c !! d); cbn; [f_equal; lia|done].
  - cbn in Hn. apply NoDup_cons in Hn as [Hd0 Hn]. unfold take_unit at 1. cbn [fst snd].
    assert (forall d n, (d, n) ∈ ps -> d <> d0) as Hne.
    { intros d n Hin ->. apply Hd0. by apply (list_elem_of_fmap_2 fst _ _ Hin). }
    destruct (c !! d0) as [free|] eqn:Hc; [|split; [done|]; intros [H _]; destruct (H d0 n0) as (a & ? & _); [left|congruence]].
    unfold u32_checked_sub. case_decide as Hle; cbn [try_fold];
      [|split; [done|]; intros [H _]; destruct (H d0 n0) as (a & ? & ?); [left|simplify_eq; lia]].
    rewrite IH by done. split.
    + intros [H1 H2]. split.
      * intros d n Hin. apply elem_of_cons in Hin as [[= -> ->]|Hin]; [eauto|].
        destruct (H1 d n Hin) as (a & Ha & ?). rewrite lookup_insert_ne in Ha by (apply not_eq_sym; eauto). eauto.
      * intros d. rewrite H2. unfold units_of. cbn. destruct (decide (d0 = d)) as [<-|Hd].
        -- rewrite !lookup_insert_eq. rewrite Hc. cbn. rewrite not_elem_of_list_to_map_1 by done. cbn. f_equal. lia.
        -- by rewrite !lookup_insert_ne.
    + intros [H1 H2]. split.
      * intros d n Hin. rewrite lookup_insert_ne by (apply not_eq_sym; eauto). apply H1. by right.
      * intros d. rewrite H2. unfold units_of. cbn. destruct (decide (d0 = d)) as [<-|Hd].
        -- rewrite !lookup_insert_eq, Hc. cbn. rewrite not_elem_of_list_to_map_1 by done. cbn. f_equal. lia.
        -- by rewrite !lookup_insert_ne.
Qed.

Lemma list_to_map_iter (s : Units) : list_to_map (map_iter s) = s.
Proof.
  rewrite <-(list_to_map_to_list s) at 2. apply list_to_map_proper; [apply NoDup_map_iter_fst|apply map_iter_perm].
Qed.

Lemma take_shape_Ok host c s u :
  take_shape host c s = Ok u <->
  (forall d n, s !! d = Some n -> exists a, c !! d = Some a /\ n <= a) /\
  (forall d, u !! d = (fun a => a - units_of s d) <$> c !! d).
Proof.
  unfold take_shape. rewrite take_units_Ok by apply NoDup_map_iter_fst. rewrite list_to_map_iter.
  by setoid_rewrite elem_of_map_iter.
Qed.

Lemma take_shapes_Ok host c ss u : units_ok c -> Forall units_ok ss ->
  try_fold (take_shape host) c ss = Ok u <->
  holds c ss /\ (forall d, u !! d = (fun a => a - total ss d) <$> c !! d).
Proof.
  intros Hc Hss. revert c Hc. induction Hss as [|s ss Hs Hss IH]; intros c Hc; cbn [try_fold].
  - split.
    + intros [= <-]. split; [split; [set_solver|]|].
      * intros d a Hd. apply Hc in Hd. unfold_ints. unfold total. cbn. lia.
      * intros d. unfold total. cbn. destruct (c !! d); cbn; [f_equal; lia|done].
    + intros [_ H]. f_equal. apply map_eq. intros d. rewrite H. unfold total. cbn. destruct (c !! d); cbn; [f_equal; lia|done].
  - destruct (take_shape host c s) as [c1|e] eqn:H1.
    + apply take_shape_Ok in H1 as [H1 H2]. assert (units_ok c1) as Hc1.
      { intros d n Hd. rewrite H2 in Hd. apply fmap_Some in Hd as (a & Ha & ->). pose proof (Hc _ _ Ha) as Hr. cbn in Hr.
        unfold units_of. destruct (s !! d) as [n|] eqn:Hsd; cbn; [|unfold_ints; lia].
        destruct (H1 _ _ Hsd) as (a' & ? & ?). simplify_eq. apply Hs in Hsd. unfold_ints. lia. }
      rewrite IH by done. unfold holds. split.
      * intros [[Hd Ht] Hu]. split; [split|].
        -- intros s' d Hin [n Hn]. apply elem_of_cons in Hin as [->|Hin]; [destruct (H1 d n Hn) as (? & -> & _); eauto|].
           destruct (Hd s' d Hin) as [x Hx]; [eauto|]. rewrite H2 in Hx. apply fmap_Some in Hx as (a & -> & _). eauto.
        -- intros d a Ha. rewrite total_cons. specialize (Ht d (a - units_of s d)). rewrite H2, Ha in Ht. specialize (Ht eq_refl). lia.
        -- intros d. rewrite Hu, H2, total_cons. destruct (c !! d); cbn; [f_equal; lia|done].
      * intros [[Hd Ht] Hu]. split; [split|].
        -- intros s' d Hin Hn. destruct (Hd s' d) as [x Hx]; [by right|done|]. rewrite H2, Hx. eauto.
        -- intros d a Ha. rewrite H2 in Ha. apply fmap_Some in Ha as (a' & Ha & ->). specialize (Ht _ _ Ha). rewrite total_cons in Ht. lia.
        -- intros d. rewrite Hu, H2, total_cons. destruct (c !! d); cbn; [f_equal; lia|done].
    + split; [done|]. intros [[Hd Ht] _]. exfalso.
      assert (exists u', take_shape host c s = Ok u') as [u' Hu']; [|congruence].
      exists (map_imap (fun d a => Some (a - units_of s d)) c). apply take_shape_Ok. split.
      * intros d n Hn. destruct (Hd s d) as [a Ha]; [left|eauto|]. exists a. split; [done|].
        specialize (Ht _ _ Ha). rewrite total_cons in Ht. pose proof (total_nonneg ss d Hss). unfold units_of in Ht. rewrite Hn in Ht. cbn in Ht. lia.
      * intros d. rewrite map_lookup_imap. by destruct (c !! d).
Qed.

(** * The ledger's invariant *)

Definition leases_of (m : gmap VesselId LVessel) : list (VesselId * Lease) :=
  omap (fun p => match p.2 with VLeased lease => Some (p.1, lease) | VWaiting _ => None end) (map_iter m).
Definition shapes_of (ls : list (VesselId * Lease)) (host : Host) : list Units :=
  omap (fun p => if bool_decide (lease_host p.2 = host) then Some (shape (lease_request p.2)) else None) ls.

Lemma elem_of_leases l id lease : (id, lease) ∈ leases l <-> vessels l !! id = Some (VLeased lease).
Proof.
  unfold leases. rewrite list_elem_of_omap. split.
  - intros ([i v] & Hin & Hv). apply elem_of_map_iter in Hin. cbn in Hv. destruct v; simplify_eq. done.
  - intros H. exists (id, VLeased lease). split; [by apply elem_of_map_iter|done].
Qed.

Lemma elem_of_shapes_on l host s : s ∈ shapes_on l host <->
  exists id lease, vessels l !! id = Some (VLeased lease) /\ lease_host lease = host /\ s = shape (lease_request lease).
Proof.
  unfold shapes_on. rewrite list_elem_of_omap. split.
  - intros ([id lease] & Hin & Hs). apply elem_of_leases in Hin. cbn in Hs. case_bool_decide; simplify_eq. eauto.
  - intros (id & lease & Hin & <- & ->). exists (id, lease). split; [by apply elem_of_leases|]. cbn.
    by rewrite bool_decide_eq_true_2.
Qed.

Lemma leases_insert m id v : m !! id = None ->
  leases_of (<[id := v]> m) ≡ₚ (match v with VLeased lease => [(id, lease)] | VWaiting _ => [] end) ++ leases_of m.
Proof.
  intros Hm. unfold leases_of. rewrite (map_iter_insert_perm _ _ _ Hm). cbn. by destruct v.
Qed.

(** The leases of a map in which [id] holds [v], by the others'. *)
Lemma leases_lookup m id v : m !! id = Some v ->
  leases_of m ≡ₚ (match v with VLeased lease => [(id, lease)] | VWaiting _ => [] end) ++ leases_of (delete id m).
Proof. intros Hm. rewrite <-(insert_delete_id m id v Hm) at 1. apply leases_insert, lookup_delete_eq. Qed.

Lemma leases_replace m id v : leases_of (<[id := v]> m) ≡ₚ
  (match v with VLeased lease => [(id, lease)] | VWaiting _ => [] end) ++ leases_of (delete id m).
Proof. rewrite <-insert_delete_eq. apply leases_insert, lookup_delete_eq. Qed.

#[export] Instance shapes_of_perm : Proper ((≡ₚ) ==> (=) ==> (≡ₚ)) shapes_of.
Proof. intros ls ls' Hp host _ <-. unfold shapes_of. by rewrite Hp. Qed.

Definition vessel_request (v : LVessel) : Request := match v with VWaiting r => r | VLeased l => lease_request l end.

(** Units are [u32]; each lease names a known host, and the leases on a host
    fit its capacity together. *)
Record ledger_inv (l : Ledger) : Prop := mkLedgerInv {
  li_hosts : map_Forall (fun _ c => units_ok c) (hosts l);
  li_shapes : map_Forall (fun _ v => units_ok (shape (vessel_request v))) (vessels l);
  li_known : forall id lease, vessels l !! id = Some (VLeased lease) -> is_Some (hosts l !! lease_host lease);
  li_holds : forall h c, hosts l !! h = Some c -> holds c (shapes_on l h);
}.

Lemma shapes_on_ok l host : map_Forall (fun _ v => units_ok (shape (vessel_request v))) (vessels l) -> Forall units_ok (shapes_on l host).
Proof.
  intros H. apply Forall_forall. intros s Hs. apply elem_of_shapes_on in Hs as (id & lease & Hv & _ & ->). by apply H in Hv.
Qed.

(** Under the invariant [available] is the capacity less what is leased. *)
Lemma available_Ok l host c : ledger_inv l -> hosts l !! host = Some c ->
  available l host = Ok (map_imap (fun d a => Some (a - total (shapes_on l host) d)) c).
Proof.
  intros [Hh Hs _ Hho] Hc. unfold available. rewrite Hc. apply take_shapes_Ok; [by eapply Hh|by apply shapes_on_ok|].
  split; [by apply Hho|]. intros d. rewrite map_lookup_imap. by destruct (c !! d).
Qed.

Lemma available_holds l host u : map_Forall (fun _ c => units_ok c) (hosts l) ->
  map_Forall (fun _ v => units_ok (shape (vessel_request v))) (vessels l) ->
  available l host = Ok u -> exists c, hosts l !! host = Some c /\ holds c (shapes_on l host).
Proof.
  intros Hh Hs Ha. unfold available in Ha. destruct (hosts l !! host) as [c|] eqn:Hc; [|done]. exists c. split; [done|].
  eapply take_shapes_Ok in Ha as [? _]; [done|by eapply Hh|by apply shapes_on_ok].
Qed.

Lemma fits_iff r a : fits r a = true <-> forall d n, shape r !! d = Some n -> exists free, a !! d = Some free /\ n <= free.
Proof.
  unfold fits. rewrite forallb_elem. split.
  - intros H d n Hd. specialize (H (d, n)). rewrite elem_of_map_iter in H. specialize (H Hd). cbn in H.
    destruct (a !! d) as [free|]; [|done]. apply bool_decide_eq_true in H. eauto.
  - intros H [d n] Hin. apply elem_of_map_iter in Hin. destruct (H _ _ Hin) as (free & Hf & Hle). cbn. rewrite Hf.
    by apply bool_decide_eq_true.
Qed.

Lemma ledger_inv_new : ledger_inv ledger_new.
Proof. constructor; cbn; try apply map_Forall_empty; intros ? ?; rewrite lookup_empty; done. Qed.

(** Taking no vessel into account but [id]'s new state. *)
Lemma shapes_on_insert l id v host : vessels l !! id = None \/ (exists r, vessels l !! id = Some (VWaiting r)) ->
  shapes_on (with_vessels l (<[id := v]> (vessels l))) host ≡ₚ
  (match v with VLeased lease => if bool_decide (lease_host lease = host) then [shape (lease_request lease)] else [] | VWaiting _ => [] end)
  ++ shapes_on l host.
Proof.
  intros Hid. change (shapes_on ?l0 host) with (shapes_of (leases_of (vessels l0)) host). cbn.
  rewrite leases_replace. assert (leases_of (vessels l) ≡ₚ leases_of (delete id (vessels l))) as ->.
  { destruct Hid as [Hn|[r Hr]]; [by rewrite delete_id|]. by rewrite (leases_lookup _ _ _ Hr). }
  unfold shapes_of. rewrite omap_app. destruct v as [|lease]; [done|]. cbn. by case_bool_decide.
Qed.

Lemma shapes_on_delete l id host : forall s, s ∈ shapes_on (with_vessels l (delete id (vessels l))) host -> s ∈ shapes_on l host.
Proof.
  intros s. rewrite !elem_of_shapes_on. cbn. intros (i & lease & Hv & ?). apply lookup_delete_Some in Hv as [_ Hv]. eauto.
Qed.

Lemma total_delete l id host d : map_Forall (fun _ v => units_ok (shape (vessel_request v))) (vessels l) ->
  total (shapes_on (with_vessels l (delete id (vessels l))) host) d <= total (shapes_on l host) d.
Proof.
  intros Hs. change (shapes_on ?l0 host) with (shapes_of (leases_of (vessels l0)) host). cbn.
  destruct (vessels l !! id) as [v|] eqn:Hv; [|by rewrite delete_id].
  rewrite (leases_lookup _ _ _ Hv). unfold shapes_of. rewrite omap_app. destruct v as [|lease]; [done|]. cbn.
  case_bool_decide; [|done]. cbn [app]. rewrite total_cons. apply Hs in Hv. pose proof (units_of_nonneg _ d Hv). cbn in *. lia.
Qed.

Lemma ledger_inv_delete l id : ledger_inv l -> ledger_inv (with_vessels l (delete id (vessels l))).
Proof.
  intros [Hh Hs Hk Hho]. constructor; cbn; [done|by apply map_Forall_delete| |].
  - intros i lease Hv. apply lookup_delete_Some in Hv as [_ Hv]. eauto.
  - intros h c Hc. destruct (Hho h c Hc) as [H1 H2]. split.
    + intros s d Hin. apply H1. by eapply shapes_on_delete.
    + intros d a Ha. etrans; [by apply total_delete|]. by apply H2.
Qed.

(** A vessel that holds no lease may be queued, or leased where its shape fits. *)
Lemma ledger_inv_insert l id v : ledger_inv l -> units_ok (shape (vessel_request v)) ->
  vessels l !! id = None \/ (exists r, vessels l !! id = Some (VWaiting r)) ->
  (forall lease, v = VLeased lease -> exists c, hosts l !! lease_host lease = Some c /\
    holds c (shape (lease_request lease) :: shapes_on l (lease_host lease))) ->
  ledger_inv (with_vessels l (<[id := v]> (vessels l))).
Proof.
  intros [Hh Hs Hk Hho] Hu Hid Hv. constructor; cbn; [done|by apply map_Forall_insert_2| |].
  - intros i lease Hl. apply lookup_insert_Some in Hl as [[_ ->]|[_ Hl]]; [|eauto]. destruct (Hv _ eq_refl) as (c & -> & _). eauto.
  - intros h c Hc. rewrite shapes_on_insert by done. destruct v as [r|lease]; [by apply Hho|].
    case_bool_decide as He; cbn [app]; [|by apply Hho]. destruct (Hv _ eq_refl) as (c' & Hc' & Hf). subst h. by simplify_eq.
Qed.

(** * What the ledger's operations do *)

Lemma live_count_nonneg l c k : 0 <= live_count l c k.
Proof. unfold live_count. unfold_ints. lia. Qed.

(** What a placement requires of the ledger. *)
Definition placeable (l : Ledger) (id : VesselId) (host : Host) (r : Request) : Prop :=
  vessels l !! id = Some (VWaiting r) /\
  exists a, available l host = Ok a /\
    live_count l (convoy r) (class r) < ledger_cap l (convoy r) (class r) /\
    fits r a = true /\
    forall id' r', id' <> id -> vessels l !! id' = Some (VWaiting r') -> priority r' > priority r -> fits r' a = false.

Lemma elem_of_others l id r : r ∈ others l id <-> exists id', id' <> id /\ vessels l !! id' = Some (VWaiting r).
Proof.
  unfold others. rewrite list_elem_of_omap. split.
  - intros ([i v] & Hin & Hv). apply elem_of_map_iter in Hin. cbn in Hv. destruct v; [|done].
    case_bool_decide; simplify_eq. eauto.
  - intros (i & Hne & Hv). exists (i, VWaiting r). split; [by apply elem_of_map_iter|]. cbn. by rewrite bool_decide_eq_true_2.
Qed.

Lemma ledger_place_Ok l id host lease l' :
  ledger_place l id host = (Ok lease, l') <->
  exists r, placeable l id host r /\ lease = mkLease r host /\ l' = with_vessels l (<[id := VLeased lease]> (vessels l)).
Proof.
  unfold ledger_place, evidence, placeable. unfold waiting. split.
  - destruct (vessels l !! id) as [[r|]|] eqn:Hv; cbn; [|done|done].
    destruct (available l host) as [a|e] eqn:Ha; cbn; [|done]. unfold place_rule. cbn.
    case_bool_decide as Hadm; cbn; [|done]. case_bool_decide as Hcap; cbn; [done|].
    destruct (fits r a) eqn:Hf; cbn; [|done]. destruct (existsb _ _) eqn:He; cbn; [done|]. intros [= <- <-].
    exists r. split_and!; [done| |done|done]. exists a. split_and!; [done|lia|done|].
    intros i r' Hne Hr' Hp. rewrite existsb_false in He. specialize (He r'). rewrite elem_of_others in He.
    apply andb_false_iff in He as [He|He]; [|done|eauto]. apply bool_decide_eq_false in He. lia.
  - intros (r & (Hv & a & Ha & Hcap & Hf & Hw) & -> & ->). rewrite Hv. cbn. rewrite Ha. cbn. unfold place_rule. cbn.
    pose proof (live_count_nonneg l (convoy r) (class r)).
    rewrite bool_decide_eq_true_2 by lia. cbn. rewrite bool_decide_eq_false_2 by lia. rewrite Hf. cbn.
    assert (existsb (fun w => bool_decide (priority w > priority r) && fits w a) (others l id) = false) as ->; [|done].
    apply existsb_false. intros r' Hr'. apply elem_of_others in Hr' as (i & Hne & Hi).
    apply andb_false_iff. case_bool_decide; [right; eauto|by left].
Qed.

Lemma ledger_place_Err l id host e l' : ledger_place l id host = (Err e, l') -> l' = l.
Proof. unfold ledger_place. destruct (evidence l id host ≫= _); congruence. Qed.

Lemma ledger_place_inv l id host r l' : ledger_inv l -> ledger_place l id host = (r, l') -> ledger_inv l'.
Proof.
  intros Hi Hp. destruct r as [lease|e]; [|by apply ledger_place_Err in Hp as ->].
  apply ledger_place_Ok in Hp as (r & (Hv & a & Ha & _ & Hf & _) & -> & ->).
  pose proof (li_shapes _ Hi _ _ Hv) as Hs. cbn in Hs.
  apply ledger_inv_insert; [done|done|by eauto|]. intros lease [= <-]. cbn.
  destruct (available_holds l host a (li_hosts _ Hi) (li_shapes _ Hi) Ha) as (c & Hc & Hh). exists c. split; [done|].
  rewrite (available_Ok l host c Hi Hc) in Ha. injection Ha as <-. rewrite fits_iff in Hf. split.
  - intros s d Hin Hd. apply elem_of_cons in Hin as [->|Hin]; [|by eapply Hh].
    destruct Hd as [n Hd]. destruct (Hf _ _ Hd) as (free & Hfree & _). rewrite map_lookup_imap in Hfree.
    destruct (c !! d); [eauto|done].
  - intros d cap Hcap. rewrite total_cons. unfold units_of. destruct (shape r !! d) as [n|] eqn:Hd; cbn.
    + destruct (Hf _ _ Hd) as (free & Hfree & Hle). rewrite map_lookup_imap, Hcap in Hfree. cbn in Hfree. simplify_eq. lia.
    + destruct Hh as [_ Hh]. by apply Hh.
Qed.

Lemma request_inv l id r x l' : units_ok (shape r) -> ledger_inv l -> request l id r = (x, l') -> ledger_inv l'.
Proof.
  intros Hs Hi. unfold request. destruct (vessels l !! id) eqn:Hv; intros [= <- <-]; [done|].
  apply ledger_inv_insert; [done|done|by left|done].
Qed.

Lemma release_eq l id : release l id =
  match vessels l !! id with
  | Some (VLeased lease) => (Ok lease, with_vessels l (delete id (vessels l)))
  | Some (VWaiting _) => (Err (NotLeased id), l)
  | None => (Err (UnknownVessel id), l)
  end.
Proof.
  unfold release. destruct (vessels l !! id) as [[r|lease]|] eqn:Hv; [|done|]; f_equal; destruct l; unfold with_vessels; cbn in *; f_equal.
  - by apply insert_delete_id.
  - by apply delete_id.
Qed.

Lemma release_inv l id x l' : ledger_inv l -> release l id = (x, l') -> ledger_inv l'.
Proof.
  intros Hi. rewrite release_eq. destruct (vessels l !! id) as [[]|]; intros [= <- <-]; [done|by apply ledger_inv_delete|done].
Qed.

Lemma restore_undone l id lease e l' : ledger_restore l id lease = (Err e, l') -> l' = l.
Proof.
  unfold ledger_restore. destruct (vessels l !! id) eqn:Hv; [congruence|]. destruct (available _ _); [done|].
  intros [= _ <-]. unfold with_vessels. cbn. rewrite delete_insert_id by done. by destruct l.
Qed.

Lemma ledger_restore_inv l id lease x l' : units_ok (shape (lease_request lease)) -> ledger_inv l ->
  ledger_restore l id lease = (x, l') -> ledger_inv l'.
Proof.
  intros Hs Hi Hr. destruct x as [[]|e]; [|by apply restore_undone in Hr as ->].
  unfold ledger_restore in Hr. destruct (vessels l !! id) eqn:Hv; [done|].
  destruct (available _ _) as [u|] eqn:Ha; [|done]. injection Hr as <-.
  apply ledger_inv_insert; [done|done|by left|]. intros lease' [= <-].
  apply available_holds in Ha as (c & Hc & Hh); [|apply Hi|apply map_Forall_insert_2; [done|apply Hi]].
  exists c. split; [done|]. rewrite shapes_on_insert in Hh by by left. by rewrite bool_decide_eq_true_2 in Hh.
Qed.

Lemma add_host_inv l host c x l' : units_ok c -> ledger_inv l -> add_host l host c = (x, l') -> ledger_inv l'.
Proof.
  intros Hc [Hh Hs Hk Hho]. unfold add_host. destruct (hosts l !! host) eqn:He; intros [= <- <-]; [done|].
  constructor; cbn; [by apply map_Forall_insert_2|done| |].
  - intros id lease Hv. destruct (Hk _ _ Hv) as [c' Hc'].
    destruct (decide (host = lease_host lease)) as [->|]; [congruence|]. rewrite lookup_insert_ne by done. eauto.
  - intros h c' Hl. apply lookup_insert_Some in Hl as [[<- <-]|[_ Hl]]; [|by apply Hho].
    assert (shapes_on l host = []) as Hnil.
    { destruct (shapes_on l host) as [|s ss] eqn:Hss; [done|]. exfalso.
      assert (s ∈ shapes_on l host) as Hin by (rewrite Hss; left). apply elem_of_shapes_on in Hin as (id & lease & Hv & <- & _).
      apply Hk in Hv as [? ?]. congruence. }
    change (holds c (shapes_on l host)). rewrite Hnil. split; [set_solver|]. intros d a Ha. apply Hc in Ha. unfold_ints. unfold total. cbn. lia.
Qed.

Lemma caps_inv l m : ledger_inv l -> ledger_inv (mkLedger (hosts l) m (vessels l)).
Proof. by intros [Hh Hs Hk Hho]. Qed.

(** * The ledger is a view over the live vessels *)

Section sync.
Context {L : Type} `{!Log Vessel L, !LogLaws Vessel L}.
Implicit Types (p : Placements L).

(** A lease is held exactly for each live vessel but those of [U], whose lease
    was not put back, and is the one in its spec. *)
Definition in_sync_but (U : gset VesselId) (p : Placements L) : Prop :=
  forall id lease, vessels (p_ledger p) !! id = Some (VLeased lease) <->
    (id ∉ U) /\ exists v, home_resources (p_home p) !! id = Some v /\ Lifecycle.live (vessel_state v) = true /\ spec_lease (vessel_spec v) = lease.

Definition in_sync (p : Placements L) : Prop := in_sync_but ∅ p.
Record placements_inv (U : gset VesselId) (p : Placements L) : Prop := mkPlacementsInv {
  pi_ledger : ledger_inv (p_ledger p);
  pi_definition : home_definition (p_home p) = definition Vessel;
  pi_names : map_Forall (fun name v => r_name v = name) (home_resources (p_home p));
  pi_sync : in_sync_but U p;
  pi_unplaced : forall id, id ∈ U -> is_Some (home_resources (p_home p) !! id);
}.

(** Granting a lease and undoing it leaves the ledger as it was. *)
Lemma place_undo l id host lease l1 :
  ledger_place l id host = (Ok lease, l1) ->
  exists l2, release l1 id = (Ok lease, l2) /\ request l2 id (lease_request lease) = (Ok tt, l).
Proof.
  intros Hp. apply ledger_place_Ok in Hp as (r & (Hv & _) & -> & ->). rewrite release_eq. cbn. rewrite lookup_insert_eq.
  eexists. split; [done|]. unfold request. cbn. rewrite lookup_delete_eq. unfold with_vessels. cbn. f_equal. destruct l as [hs cs vs]. cbn in *. f_equal.
  rewrite delete_insert_eq. by apply insert_delete_id.
Qed.

(** A failed placement leaves the ledger and the resources as they were. *)
Lemma p_place_failed p id host now e p' :
  p_place p id host now = (Err e, p') -> p_ledger p' = p_ledger p /\ home_resources (p_home p') = home_resources (p_home p).
Proof.
  unfold p_place. destruct (ledger_place (p_ledger p) id host) as [[lease|e'] l] eqn:Hp.
  - destruct (place_undo _ _ _ _ _ Hp) as (l2 & Hr & Hq).
    destruct (create _ _ _ _ _) as [[c|ec] h] eqn:Hc.
    + cbn. intros H. exfalso. apply create_Ok in Hc as (_ & ? & ? & ? & ? & _ & _ & _ & _ & ->). injection H as H _.
      revert H. unfold p_get, home_get. cbn. by rewrite lookup_insert_eq.
    + rewrite Hr, Hq. intros [= <- <-]. cbn. split; [done|]. by eapply create_failed.
  - intros [= <- <-]. cbn. by apply ledger_place_Err in Hp as ->.
Qed.

Lemma vessel_admit (spec : VesselSpec) w now s st ad :
  admits (spec : Machine.Request Vessel) (mkAdmission (w : World Vessel) now []) = (Ok (s, st), ad) -> s = spec /\ st = Lifecycle.requested.
Proof. intros H. by injection H as <- <- <-. Qed.

Lemma home_definition_create (h : Home Vessel L) name q w now x h' : create h name q w now = (x, h') -> home_definition h' = home_definition h.
Proof. unfold create. by repeat case_match; intros; simplify_eq/=. Qed.

Lemma p_place_inv U p id host now x p' : placements_inv U p -> p_place p id host now = (x, p') -> placements_inv U p'.
Proof.
  intros [Hl Hd Hn Hs Hu] Hp. destruct x as [v|e].
  - unfold p_place in Hp. destruct (ledger_place (p_ledger p) id host) as [[lease|e'] l] eqn:Hlp; [|done].
    destruct (place_undo _ _ _ _ _ Hlp) as (l2 & Hr & Hq).
    destruct (create _ _ _ _ _) as [[c|ec] h] eqn:Hc; [|rewrite Hr, Hq in Hp; done]. injection Hp as _ <-.
    pose proof (ledger_place_inv _ _ _ _ _ Hl Hlp) as Hl'.
    apply ledger_place_Ok in Hlp as (r & (Hv & _) & -> & ->).
    apply create_Ok in Hc as (Hnone & s & st & ad & log' & Ha & _ & Hlog & _ & ->).
    apply vessel_admit in Ha as [-> ->]. apply create_keeps in Hlog as (Hcn & Hcs & Hcst).
    assert (id ∉ U) as Hfree by (intros [w Hw]%Hu; congruence).
    constructor; cbn; [done|done|by apply map_Forall_insert_2| |intros i Hi; apply lookup_insert_is_Some'; right; by apply Hu]. intros i lease. cbn.
    rewrite !lookup_insert_Some. destruct (decide (id = i)) as [<-|Hne].
    + split.
      * intros [[_ [= <-]]|[? _]]; [|done]. split; [done|]. exists (Home.created c). rewrite lookup_insert_eq. split_and!; [done| |].
        -- unfold vessel_state. by rewrite Hcst.
        -- unfold vessel_spec. rewrite Hcs. apply spec_lease_spec.
      * intros (_ & v' & Hv' & _ & <-). rewrite lookup_insert_eq in Hv'. simplify_eq. left. split; [done|].
        unfold vessel_spec. rewrite Hcs. cbn. by rewrite spec_lease_spec.
    + rewrite lookup_insert_ne by done. specialize (Hs i lease). cbn in Hs. naive_solver.
  - apply p_place_failed in Hp as Heq. destruct Heq as [H1 H2]. constructor; [by rewrite H1| |by rewrite H2| |by rewrite H2].
    + revert Hp. unfold p_place. destruct (ledger_place _ _ _) as [[lease|] l] eqn:Hlp; [|by intros [= <- <-]].
      destruct (create _ _ _ _ _) as [[c|ec] h] eqn:Hc; apply home_definition_create in Hc; repeat case_match; intros; simplify_eq/=; congruence.
    + intros i lease. rewrite H1, H2. apply Hs.
Qed.

Lemma home_definition_apply (h : Home Vessel L) name e w now x h' : apply h name e w now = (x, h') -> home_definition h' = home_definition h.
Proof. unfold apply. by repeat case_match; intros; simplify_eq/=. Qed.

(** A lifecycle edge is taken only by a live vessel, and keeps its lease. *)
Lemma vessel_applied (h : Home Vessel L) id (edge : Lifecycle.LifecycleEdge) world now ev h' :
  home_definition h = definition Vessel ->
  apply h id (edge : Edge Vessel) (world : World Vessel) now = (Ok ev, h') ->
  exists v v', home_resources h !! id = Some v /\ Lifecycle.live (vessel_state v) = true /\
    home_resources h' = <[id := v']> (home_resources h) /\ r_name v' = r_name v /\ vessel_spec v' = vessel_spec v.
Proof.
  intros Hd Ha. apply apply_Ok in Ha as [v nxt hd spec0 ver log' Hv Hs Ht _ _ ->]. rewrite Hd in Hs.
  exists v. eexists. split_and!; [done| |cbn; reflexivity|done|].
  - assert ((step (definition Vessel) (edge : Edge Vessel) (handle_on v (world : World Vessel) now)).1 =
      map_err (@Refused Vessel) (Lifecycle.lifecycle_next VesselKind (r_spec v) world now (vessel_state v) edge)) as Hn
      by exact (Lifecycle.lifecycle_step_next VesselKind v edge world now).
    rewrite Hs in Hn.
    destruct (Lifecycle.live (vessel_state v)) eqn:Hlive; [done|].
    destruct (Lifecycle.lifecycle_ended_refuses VesselKind (r_spec v) world now (vessel_state v) edge Hlive) as [reason Hr].
    rewrite Hr in Hn. done.
  - assert (h_writes hd = []) as Hw by apply (no_records_nil (h_writes hd)). unfold vessel_spec. cbn. by rewrite Hw.
Qed.

(** In sync, the ledger holds what an ended vessel leaves: a written edge is
    never reported as a ledger error, and the invariant is kept. A vessel whose
    lease was not put back has none to release. *)
Lemma p_apply_cases U p id edge world now x p' : placements_inv U p -> p_apply p id edge world now = (x, p') ->
  placements_inv U p' /\ (id ∉ U -> forall e, x = Err e -> p_ledger p' = p_ledger p /\ exists we, e = PWrite we).
Proof.
  intros [Hl Hd Hn Hs Hu]. unfold p_apply. destruct (apply _ _ _ _ _) as [[ev|we] h] eqn:Ha.
  - pose proof (home_definition_apply _ _ _ _ _ _ _ Ha) as Hdef.
    destruct (vessel_applied _ _ _ _ _ _ _ Hd Ha) as (v & v' & Hv & Hlive & Hres & Hname & Hspec).
    assert (map_Forall (fun name v => r_name v = name) (home_resources h)) as Hnames.
    { rewrite Hres. apply map_Forall_insert_2; [|done]. rewrite Hname. by apply Hn. }
    assert (forall i, i ∈ U -> is_Some (home_resources h !! i)) as Hu' by (intros i Hi; rewrite Hres, lookup_insert_is_Some'; right; by apply Hu).
    unfold home_get. rewrite Hres, lookup_insert_eq. destruct (Lifecycle.live (vessel_state v')) eqn:Hlive'; cbn.
    + unfold p_get, home_get. cbn. rewrite Hres, lookup_insert_eq. intros [= <- <-]. split; [|done].
      constructor; cbn; [done|by rewrite Hdef|done| |done]. intros i lease. cbn. rewrite Hres, lookup_insert. specialize (Hs i lease).
      destruct (decide (id = i)) as [<-|Hne]; [|done]. rewrite Hs, Hv. split; intros [Hi (v0 & [= <-] & _ & <-)]; (split; [done|]); [exists v'|exists v]; by rewrite Hspec.
    + destruct (decide (id ∈ U)) as [Hin|Hout].
      * assert (forall lease, vessels (p_ledger p) !! id <> Some (VLeased lease)) as Hnone by (intros lease [Hi _]%Hs; done).
        assert (placements_inv U (mkPlacements (p_ledger p) h)) as Hinv.
        { constructor; cbn; [done|by rewrite Hdef|done| |done]. intros i lease. cbn. rewrite Hres, lookup_insert. specialize (Hs i lease).
          destruct (decide (id = i)) as [<-|Hne]; [|done]. rewrite Hs. split; intros [Hi _]; done. }
        rewrite release_eq. destruct (vessels (p_ledger p) !! id) as [[q|lease]|] eqn:Hw; [| |]; cbn; [|by destruct (Hnone lease)|]; intros [= _ <-]; by split.
      * assert (vessels (p_ledger p) !! id = Some (VLeased (spec_lease (vessel_spec v)))) as Hheld by (apply Hs; split; [done|]; eauto).
        rewrite release_eq, Hheld. unfold p_get, home_get. cbn. rewrite Hres, lookup_insert_eq. intros [= <- <-]. split; [|done].
        constructor; cbn; [by apply ledger_inv_delete|by rewrite Hdef|done| |done]. intros i lease. cbn. rewrite Hres, lookup_insert. specialize (Hs i lease).
        destruct (decide (id = i)) as [<-|Hne].
        -- rewrite lookup_delete_eq. split; [done|]. intros (_ & v0 & [= <-] & ? & _). congruence.
        -- by rewrite lookup_delete_ne.
  - intros [= <- <-]. pose proof (apply_failed _ _ _ _ _ _ _ Ha) as Hres. pose proof (home_definition_apply _ _ _ _ _ _ _ Ha) as Hdef. split.
    + constructor; cbn; [done|by rewrite Hdef|by rewrite Hres| |by rewrite Hres]. intros i lease. cbn. rewrite Hres. apply Hs.
    + intros _ e [= <-]. eauto.
Qed.

Lemma sync_ledger U p l' : in_sync_but U p ->
  (forall id lease, vessels l' !! id = Some (VLeased lease) <-> vessels (p_ledger p) !! id = Some (VLeased lease)) ->
  in_sync_but U (mkPlacements l' (p_home p)).
Proof. intros Hs Hl id lease. cbn. rewrite Hl. apply Hs. Qed.

Lemma p_request_inv U p id r x p' : units_ok (shape r) -> placements_inv U p -> p_request p id r = (x, p') -> placements_inv U p'.
Proof.
  intros Hr [Hl Hd Hn Hs Hu]. unfold p_request. destruct (request _ _ _) as [y l'] eqn:Hq. intros [= <- <-].
  constructor; cbn; [by eapply request_inv|done|done| |done]. apply sync_ledger; [done|]. intros i lease.
  unfold request in Hq. destruct (vessels (p_ledger p) !! id) eqn:Hv; simplify_eq/=; [done|].
  rewrite lookup_insert. destruct (decide (id = i)) as [<-|]; [|done]. rewrite Hv. split; congruence.
Qed.

Lemma p_caps_inv U p c q : placements_inv U p -> placements_inv U (p_set_caps p c q).
Proof. intros [Hl Hd Hn Hs Hu]. constructor; [by apply caps_inv|done|done|exact Hs|exact Hu]. Qed.

Lemma p_cap_inv U p c k n : placements_inv U p -> placements_inv U (p_set_cap p c k n).
Proof. intros [Hl Hd Hn Hs Hu]. constructor; [by apply caps_inv|done|done|exact Hs|exact Hu]. Qed.

Lemma p_add_host_inv U p host c x p' : units_ok c -> placements_inv U p -> p_add_host p host c = (x, p') -> placements_inv U p'.
Proof.
  intros Hc [Hl Hd Hn Hs Hu]. unfold p_add_host. destruct (add_host _ _ _) as [y l'] eqn:Hq. intros [= <- <-].
  constructor; cbn; [by eapply add_host_inv|done|done| |done]. apply sync_ledger; [done|].
  unfold add_host in Hq. destruct (hosts (p_ledger p) !! host); by simplify_eq/=.
Qed.

(** ** Restart *)

Lemma holds_app c ss1 ss2 : Forall units_ok ss2 -> holds c (ss1 ++ ss2) -> holds c ss1.
Proof.
  intros Hu [H1 H2]. split; [intros s d Hin; apply H1; set_solver|]. intros d a Ha. specialize (H2 d a Ha).
  assert (total (ss1 ++ ss2) d = total ss1 d + total ss2 d) as He.
  { clear. induction ss1 as [|s ss1 IH]; [done|]. cbn [app]. rewrite !total_cons, IH. lia. }
  pose proof (total_nonneg ss2 d Hu). lia.
Qed.

(** Leases that fit together are all put back. *)
Lemma put_back_all l ps un : ledger_inv l -> NoDup ps.*1 ->
  (forall id lease, (id, lease) ∈ ps -> vessels l !! id = None /\ units_ok (shape (lease_request lease)) /\ is_Some (hosts l !! lease_host lease)) ->
  (forall h c, hosts l !! h = Some c -> holds c (shapes_of ps h ++ shapes_on l h)) ->
  exists l', foldl put_back (l, un) ps = (l', un) /\ hosts l' = hosts l /\ caps l' = caps l /\ ledger_inv l' /\
    forall id v, vessels l' !! id = Some v <-> vessels l !! id = Some v \/ exists lease, (id, lease) ∈ ps /\ v = VLeased lease.
Proof.
  revert l un. induction ps as [|[id lease] ps IH]; intros l un Hl Hnd Hps Hh.
  { exists l. split_and!; try done. intros i v. set_solver. }
  cbn in Hnd. apply NoDup_cons in Hnd as [Hid Hnd].
  destruct (Hps id lease) as (Hv & Hu & [c Hc]); [left|].
  assert (Forall units_ok (shapes_of ps (lease_host lease))) as Hups.
  { apply Forall_forall. intros s Hin. unfold shapes_of in Hin. apply list_elem_of_omap in Hin as ([i ls] & Hin & Hs).
    cbn in Hs. case_bool_decide; simplify_eq. by apply (Hps i ls); right. }
  assert (ledger_inv (with_vessels l (<[id := VLeased lease]> (vessels l)))) as Hl1.
  { apply ledger_inv_insert; [done|done|by left|]. intros ? [= <-]. exists c. split; [done|].
    specialize (Hh _ _ Hc). unfold shapes_of in Hh. cbn in Hh. rewrite bool_decide_eq_true_2 in Hh by done. cbn [app] in Hh.
    eapply holds_app; [exact Hups|]. eapply holds_perm; [|exact Hh]. cbn. constructor. apply Permutation_app_comm. }
  cbn [foldl]. unfold put_back at 2. cbn [fst snd].
  assert (ledger_restore l id lease = (Ok tt, with_vessels l (<[id := VLeased lease]> (vessels l)))) as ->.
  { unfold ledger_restore. rewrite Hv. by rewrite (available_Ok _ _ c Hl1 Hc). }
  destruct (IH (with_vessels l (<[id := VLeased lease]> (vessels l))) un) as (l' & -> & Hho & Hca & Hi & Hvs); [done|done| | |].
  - intros i ls Hin. destruct (Hps i ls) as (H1 & H2 & H3); [by right|]. split_and!; [|done|done]. cbn.
    rewrite lookup_insert_ne; [done|]. intros <-. apply Hid. by apply (list_elem_of_fmap_2 fst _ _ Hin).
  - intros h c' Hc'. specialize (Hh _ _ Hc'). rewrite shapes_on_insert by by left. unfold shapes_of in Hh |- *. cbn in Hh.
    case_bool_decide; cbn [app] in Hh |- *; [|done]. eapply holds_perm; [|exact Hh]. symmetry. apply Permutation_middle.
  - exists l'. split_and!; try done. intros i v. rewrite Hvs. cbn. rewrite lookup_insert_Some. split.
    + intros [[[<- <-]|[? ?]]|(ls & ? & ->)]; [right; eexists; split; [left|done]|by left|right; eexists; split; [by right|done]].
    + intros [H|(ls & Hin & ->)].
      * left. right. split; [|done]. intros <-. congruence.
      * apply elem_of_cons in Hin as [[= -> ->]|Hin]; [left; by left|right; eauto].
Qed.

Lemma elem_of_live_leases h id lease : map_Forall (fun name v => r_name v = name) (home_resources h) ->
  (id, lease) ∈ live_leases (home_values (L := L) h) <->
  exists v, home_resources h !! id = Some v /\ Lifecycle.live (vessel_state v) = true /\ spec_lease (vessel_spec v) = lease.
Proof.
  intros Hn. unfold live_leases, home_values. rewrite list_elem_of_omap. split.
  - intros (v & Hin & Hv). apply list_elem_of_fmap in Hin as ([name v'] & -> & Hin). apply elem_of_map_iter in Hin. cbn in Hv.
    destruct (Lifecycle.live _) eqn:Hlive; [|done]. simplify_eq. exists v'. rewrite (Hn _ _ Hin). eauto.
  - intros (v & Hv & Hlive & <-). exists v. split.
    + apply list_elem_of_fmap. exists (id, v). split; [done|]. by apply elem_of_map_iter.
    + by rewrite Hlive, (Hn _ _ Hv).
Qed.

Lemma live_leases_NoDup h : map_Forall (fun name v => r_name v = name) (home_resources h) ->
  NoDup (live_leases (home_values (L := L) h)).*1.
Proof.
  intros Hn. unfold live_leases, home_values. pose proof (NoDup_map_iter_fst (home_resources h)) as Hnd.
  assert (forall name v, (name, v) ∈ map_iter (home_resources h) -> r_name v = name) as Hin
    by (intros name v Hin; apply elem_of_map_iter in Hin; by apply Hn in Hin).
  induction (map_iter (home_resources h)) as [|[name v] ps IH]; cbn; [constructor|].
  cbn in Hnd. apply NoDup_cons in Hnd as [Hx Hnd]. destruct (Lifecycle.live _) eqn:Hlive; cbn; [|apply IH; [done|set_solver]].
  constructor; [|apply IH; [done|set_solver]]. intros Hc. apply Hx. rewrite (Hin name v) in Hc by set_solver.
  apply list_elem_of_fmap in Hc as ([i ls] & -> & Hc). cbn. apply list_elem_of_omap in Hc as (v' & Hv' & He).
  destruct (Lifecycle.live (vessel_state v')); [|done]. simplify_eq. apply list_elem_of_fmap in Hv' as ([n' v''] & -> & Hv').
  cbn. rewrite (Hin n' v'') by set_solver. by apply (list_elem_of_fmap_2 fst _ _ Hv').
Qed.

Lemma add_hosts_empty hs l l' : add_hosts l hs = Ok l' -> vessels l' = vessels l /\ caps l' = caps l.
Proof.
  revert l. induction hs as [|[h c] hs IH]; intros l H; cbn in H; [by simplify_eq|].
  unfold add_host in H. destruct (hosts l !! h); [done|]. apply IH in H. done.
Qed.

(** A restart over the same hosts puts every live vessel's lease back. *)
Lemma restart_core p hs l0 : placements_inv ∅ p ->
  add_hosts ledger_new hs = Ok l0 -> hosts l0 = hosts (p_ledger p) ->
  exists p', placements_new (p_home p) hs = Ok (p', []) /\ p_home p' = p_home p /\ placements_inv ∅ p' /\
    forall id lease, vessels (p_ledger p') !! id = Some (VLeased lease) <-> vessels (p_ledger p) !! id = Some (VLeased lease).
Proof.
  intros [Hl Hd Hn Hs Hu] Hadd Hhosts. destruct (add_hosts_empty _ _ _ Hadd) as [Hv0 Hc0]. cbn in Hv0.
  assert (forall id lease, (id, lease) ∈ live_leases (home_values (p_home p)) <-> vessels (p_ledger p) !! id = Some (VLeased lease)) as Hll
    by (intros id lease; rewrite elem_of_live_leases by done; split; [intros H; apply Hs; split; [apply not_elem_of_empty|done]|intros [_ H]%Hs; exact H]).
  assert (live_leases (home_values (p_home p)) ≡ₚ leases (p_ledger p)) as Hperm.
  { apply NoDup_Permutation.
    - apply (NoDup_fmap_1 fst), live_leases_NoDup. done.
    - apply (NoDup_fmap_1 fst). unfold leases. pose proof (NoDup_map_iter_fst (vessels (p_ledger p))) as Hnd.
      revert Hnd. generalize (map_iter (vessels (p_ledger p))). intros ps. induction ps as [|[i v] ps IH]; cbn; [constructor|].
      intros Hnd. apply NoDup_cons in Hnd as [Hx Hnd]. destruct v; cbn; [by apply IH|]. constructor; [|by apply IH].
      intros Hc. apply Hx. apply list_elem_of_fmap in Hc as ([i' ls] & -> & Hc). apply list_elem_of_omap in Hc as ([i2 v2] & Hv2 & He).
      cbn in He. destruct v2; simplify_eq. cbn. by apply (list_elem_of_fmap_2 fst _ _ Hv2).
    - intros [id lease]. rewrite Hll. symmetry. apply elem_of_leases. }
  assert (forall h, shapes_on l0 h = []) as Hnil by (intros h; unfold shapes_on, leases; by rewrite Hv0).
  assert (ledger_inv l0) as Hl0.
  { constructor; [rewrite Hhosts; apply Hl|rewrite Hv0; apply map_Forall_empty| |].
    - intros id lease. by rewrite Hv0, lookup_empty.
    - intros h c Hc. rewrite Hnil. split; [set_solver|]. rewrite Hhosts in Hc. intros d a Ha. apply (li_hosts _ Hl) in Hc. apply Hc in Ha.
      unfold_ints. unfold total. cbn. lia. }
  destruct (put_back_all l0 (live_leases (home_values (p_home p))) []) as (l' & Hfold & Hho & _ & Hi & Hvs);
    [done|by apply live_leases_NoDup| | |].
  - intros id lease Hin. apply Hll in Hin. rewrite Hv0, Hhosts. split_and!; [done|by apply (li_shapes _ Hl) in Hin|by eapply li_known].
  - intros h c Hc. rewrite Hnil, app_nil_r. rewrite (shapes_of_perm _ _ Hperm h h eq_refl). rewrite Hhosts in Hc. by apply (li_holds _ Hl).
  - assert (forall id lease, vessels l' !! id = Some (VLeased lease) <-> vessels (p_ledger p) !! id = Some (VLeased lease)) as Heq.
    { intros id lease. rewrite Hvs, Hv0, lookup_empty, <-Hll. naive_solver. }
    exists (mkPlacements l' (p_home p)). split_and!; [|done| |exact Heq].
    + unfold placements_new. rewrite Hadd. cbn. by rewrite Hfold.
    + constructor; cbn; [done|done|done|by apply sync_ledger|done].
Qed.

(** ** Reachability *)

Inductive p_step (p : Placements L) : Placements L -> Prop :=
| ps_caps c q : p_step p (p_set_caps p c q)
| ps_cap c k n : p_step p (p_set_cap p c k n)
| ps_host h c x p' : units_ok c -> p_add_host p h c = (x, p') -> p_step p p'
| ps_request id r x p' : units_ok (shape r) -> p_request p id r = (x, p') -> p_step p p'
| ps_place id host now x p' : p_place p id host now = (x, p') -> p_step p p'
| ps_apply id edge world now x p' : p_apply p id edge world now = (x, p') -> p_step p p'.

Lemma p_step_inv U p p' : placements_inv U p -> p_step p p' -> placements_inv U p'.
Proof.
  intros Hp Hs. destruct Hs; eauto using p_caps_inv, p_cap_inv, p_add_host_inv, p_request_inv, p_place_inv.
  by eapply p_apply_cases.
Qed.

(** Leases put back one after the other, those that do not fit listed. *)
Lemma put_back_some l ps un : ledger_inv l -> NoDup ps.*1 ->
  (forall id lease, (id, lease) ∈ ps -> vessels l !! id = None /\ units_ok (shape (lease_request lease))) ->
  exists l' failed, foldl put_back (l, un) ps = (l', un ++ failed) /\ ledger_inv l' /\ (forall id, id ∈ failed.*1 -> id ∈ ps.*1) /\
    forall id lease, vessels l' !! id = Some (VLeased lease) <-> vessels l !! id = Some (VLeased lease) \/ ((id, lease) ∈ ps /\ id ∉ failed.*1).
Proof.
  revert l un. induction ps as [|[id lease] ps IH]; intros l un Hl Hnd Hps.
  { exists l, []. rewrite app_nil_r. split_and!; [done|done|set_solver|set_solver]. }
  cbn in Hnd. apply NoDup_cons in Hnd as [Hid Hnd]. destruct (Hps id lease) as (Hv & Hu); [left|]. cbn [foldl]. unfold put_back at 2. cbn [fst snd].
  destruct (ledger_restore l id lease) as [[[]|e] l1] eqn:Hr.
  - pose proof (ledger_restore_inv _ _ _ _ _ Hu Hl Hr) as Hl1. assert (vessels l1 = <[id := VLeased lease]> (vessels l)) as Hv1.
    { unfold ledger_restore in Hr. rewrite Hv in Hr. destruct (available _ _); [|done]. by injection Hr as <-. }
    destruct (IH l1 un Hl1 Hnd) as (l' & failed & -> & Hi & Hin & Hvs).
    { intros i ls Hi. destruct (Hps i ls) as [H1 H2]; [by right|]. split; [|done]. rewrite Hv1, lookup_insert_ne; [done|]. intros <-. apply Hid. by apply (list_elem_of_fmap_2 fst _ _ Hi). }
    exists l', failed. split_and!; [done|done|intros i Hi'; right; by apply Hin|]. intros i ls. rewrite Hvs, Hv1, lookup_insert_Some, elem_of_cons. split.
    + intros [[[<- [= <-]]|[Hne Hl']]|[Hi' Hf]]; [right; split; [by left|]; intros Hf; by apply Hid, Hin|by left|right; split; [by right|done]].
    + intros [Hl'|[[[= -> ->]|Hi'] Hf]]; [left; right; split; [intros <-; congruence|done]|left; by left|right; by split].
  - apply restore_undone in Hr as ->. destruct (IH l (un ++ [(id, e)]) Hl Hnd) as (l' & failed & -> & Hi & Hin & Hvs).
    { intros i ls Hi. apply Hps. by right. }
    exists l', ((id, e) :: failed). rewrite <-app_assoc. split_and!; [done|done| |].
    + cbn. intros i [->|Hi']%elem_of_cons; [left|right; by apply Hin].
    + intros i ls. rewrite Hvs, elem_of_cons. cbn. rewrite not_elem_of_cons. split.
      * intros [Hl'|[Hi' Hf]]; [by left|right]. split_and!; [by right| |done]. intros ->. apply Hid. by apply (list_elem_of_fmap_2 fst _ _ Hi').
      * intros [Hl'|[[[= -> ->]|Hi'] [Hne Hf]]]; [by left|done|right; by split].
Qed.

Lemma add_hosts_inv hs l l' : Forall (fun q => units_ok q.2) hs -> ledger_inv l -> add_hosts l hs = Ok l' -> ledger_inv l'.
Proof.
  intros Hu. revert l. induction Hu as [|[h c] hs Hc Hu IH]; intros l Hl Ha; cbn in Ha; [by simplify_eq|].
  destruct (add_host l h c) as [[[]|] l1] eqn:H1; [|done]. eapply IH; [|exact Ha]. by eapply add_host_inv.
Qed.

(** Vessels whose shapes are [u32] counts. *)
Definition spec_fits (q : VesselSpec) : Prop := units_ok (vs_shape q).
Definition vessel_fits (q : VesselSpec) (s : Lifecycle.LifecycleState) : Prop := spec_fits q.
#[export] Instance vessel_machine_inv : MachineInv Vessel spec_fits vessel_fits.
Proof.
  split.
  - intros q world now s st ad Hq Ha. injection Ha as <- <- _. exact Hq.
  - intros v world now edge nxt hd ver spec' Hi _ Ht. assert (h_writes hd = []) as Hw by apply (no_records_nil (h_writes hd)). rewrite Hw in Ht. cbn in Ht. by injection Ht as <-.
Qed.

(** [Placements::new] over a home that has run before: what it does not put back
    it lists, and the rest is in sync. *)
Lemma placements_start (h : Home Vessel L) hs p un : home_ok (M := Vessel) vessel_fits h -> Forall (fun q => units_ok q.2) hs ->
  placements_new h hs = Ok (p, un) -> placements_inv (list_to_set un.*1) p /\
    forall id, id ∈ un.*1 -> exists v, home_resources h !! id = Some v /\ Lifecycle.live (vessel_state v) = true.
Proof.
  intros [Hd Hall] Hu Hp. unfold placements_new in Hp. destruct (add_hosts ledger_new hs) as [l0|] eqn:Ha; [|done]. cbn in Hp.
  assert (map_Forall (fun name v => r_name v = name) (home_resources h)) as Hn by (intros name v Hv; by destruct (Hall name v Hv)).
  destruct (add_hosts_empty _ _ _ Ha) as [Hv0 _]. cbn in Hv0.
  destruct (put_back_some l0 (live_leases (home_values h)) []) as (l' & failed & Hf & Hi & Hin & Hvs).
  - by eapply add_hosts_inv; [|apply ledger_inv_new|].
  - by apply live_leases_NoDup.
  - intros id lease (v & Hv & _ & <-)%elem_of_live_leases; [|done]. rewrite Hv0. split; [done|]. destruct (Hall id v Hv) as [_ Hok]. exact Hok.
  - rewrite Hf in Hp. cbn in Hp. injection Hp as <- <-.
    assert (forall id, id ∈ failed.*1 -> exists v, home_resources h !! id = Some v /\ Lifecycle.live (vessel_state v) = true) as Hfailed.
    { intros id Hid%Hin. apply list_elem_of_fmap in Hid as ([i lease] & -> & Hid). apply elem_of_live_leases in Hid as (v & Hv & Hlive & _); [|done]. by exists v. }
    split; [|done]. constructor; cbn; [done|done|done| |].
    + intros id lease. cbn. rewrite Hvs, Hv0, lookup_empty, elem_of_list_to_set, (elem_of_live_leases h id lease Hn). naive_solver.
    + intros id Hid%elem_of_list_to_set. destruct (Hfailed id Hid) as (v & -> & _). by eexists.
Qed.

Lemma placements_reachable U p p' : placements_inv U p -> rtc p_step p p' -> placements_inv U p'.
Proof. intros Hi Hr. induction Hr; eauto using p_step_inv. Qed.
End sync.

(** * Properties *)

(** A host with two slots of dimension 0, a convoy allowed two workers, and
    two requests waiting. *)
Definition sample_convoy : ConvoyId := mkSRef "convoy-a" "home-a".
Definition sample_request (p : Priority) : Request := mkRequest sample_convoy "worker" {[0 := 1]} p.
Definition sample_ledger : Ledger :=
  mkLedger {["host" := {[0 := 2]}]} {[sample_convoy := {["worker" := 2]}]}
    {["v1" := VWaiting (sample_request 1); "v2" := VWaiting (sample_request 5)]}.

Lemma unit_shape_ok d n : is_u32 n -> units_ok {[d := n]}.
Proof. intros Hn. by apply map_Forall_singleton. Qed.

(** a waiting vessel is placed on a host exactly when its convoy has quota
    left for its class, its shape fits what the host has free after every
    lease, and no other waiting vessel of higher priority would fit; it then
    holds a lease for its own request, and nothing else in the ledger moves. *)
Theorem place_iff_placeable (l : Ledger) id host lease l' :
  ledger_place l id host = (Ok lease, l') <->
  exists r, placeable l id host r /\ lease = mkLease r host /\ l' = with_vessels l (<[id := VLeased lease]> (vessels l)).
Proof. apply ledger_place_Ok. Qed.

(** One call on a ledger; capacities and shapes are [u32] counts. *)
Inductive ledger_step (l : Ledger) : Ledger -> Prop :=
| ls_host h c x l' : units_ok c -> add_host l h c = (x, l') -> ledger_step l l'
| ls_caps c q : ledger_step l (set_caps l c q)
| ls_cap c k n : ledger_step l (set_cap l c k n)
| ls_request id r x l' : units_ok (shape r) -> request l id r = (x, l') -> ledger_step l l'
| ls_place id host x l' : ledger_place l id host = (x, l') -> ledger_step l l'
| ls_restore id lease x l' : units_ok (shape (lease_request lease)) -> ledger_restore l id lease = (x, l') -> ledger_step l l'
| ls_release id x l' : release l id = (x, l') -> ledger_step l l'.

Lemma ledger_steps_inv l l' : ledger_inv l -> rtc ledger_step l l' -> ledger_inv l'.
Proof.
  intros Hi Hr. induction Hr as [|l1 l2 l3 Hs _ IH]; [done|]. apply IH.
  destruct Hs; eauto using add_host_inv, request_inv, ledger_place_inv, ledger_restore_inv, release_inv; by apply caps_inv.
Qed.

(** C39: through any sequence of ledger operations, successful or not, no host
    is oversubscribed: in each dimension its leased units sum to at most what
    it has, so what is free is computed without underflow and is exactly that
    difference. *)
Theorem ledger_never_oversubscribed (l : Ledger) h c :
  rtc ledger_step ledger_new l -> hosts l !! h = Some c ->
  (forall d n, c !! d = Some n -> 0 <= total (shapes_on l h) d <= n) /\
  available l h = Ok (map_imap (fun d a => Some (a - total (shapes_on l h) d)) c).
Proof.
  intros Hr Hc. pose proof (ledger_steps_inv _ _ ledger_inv_new Hr) as Hi. split; [|by apply available_Ok].
  intros d n Hd. split; [apply total_nonneg, shapes_on_ok, Hi|]. by apply (li_holds _ Hi h c Hc).
Qed.

Definition sample_hosted : Ledger := (add_host ledger_new "host" {[0 := 2]}).2.
Definition sample_capped : Ledger := set_cap sample_hosted sample_convoy "worker" 2.
Definition sample_waiting : Ledger := (request sample_capped "v1" (sample_request 1)).2.
Definition sample_leased : Ledger := (ledger_place sample_waiting "v1" "host").2.

Lemma ledger_never_oversubscribed_witness : hosts sample_leased !! "host" = Some {[0 := 2]} /\
  available sample_leased "host" = Ok (map_imap (fun d a => Some (a - total (shapes_on sample_leased "host") d)) {[0 := 2]}).
Proof.
  split; [reflexivity|]. eapply (ledger_never_oversubscribed sample_leased "host" {[0 := 2]}); [|reflexivity].
  eapply rtc_l; [eapply (ls_host _ "host" {[0 := 2]} _ sample_hosted); [apply unit_shape_ok; unfold_ints; lia|apply surjective_pairing]|].
  eapply rtc_l; [apply (ls_cap _ sample_convoy "worker" 2)|].
  eapply rtc_l; [eapply (ls_request _ "v1" (sample_request 1) _ sample_waiting); [apply unit_shape_ok; unfold_ints; lia|apply surjective_pairing]|].
  eapply rtc_l; [eapply (ls_place _ "v1" "host" _ sample_leased); apply surjective_pairing|]. apply rtc_refl.
Defined.

(** a put-back lease that does not fit, or whose host is unknown, is undone:
    the ledger is as it was before. *)
Theorem failed_restore_undone (l : Ledger) id lease e l' : ledger_restore l id lease = (Err e, l') -> l' = l.
Proof. apply restore_undone. Qed.

Lemma failed_restore_undone_witness :
  (ledger_restore sample_ledger "v3" (mkLease (mkRequest sample_convoy "worker" {[0 := 3]} 1) "host")).2 = sample_ledger.
Proof.
  destruct (ledger_restore sample_ledger "v3" (mkLease (mkRequest sample_convoy "worker" {[0 := 3]} 1) "host")) as [r l'] eqn:Hr.
  assert (is_ok (ledger_restore sample_ledger "v3" (mkLease (mkRequest sample_convoy "worker" {[0 := 3]} 1) "host")).1 = false) as Hok
    by (vm_compute; reflexivity).
  rewrite Hr in Hok. destruct r as [|e]; [discriminate|]. exact (failed_restore_undone _ _ _ e l' Hr).
Defined.

Section properties.
Context {L : Type} `{!Log Vessel L, !LogLaws Vessel L}.

(** a placement that fails, for whatever reason, a failing log included,
    leaves both the ledger (the request waiting as before) and the vessels as
    they were. *)
Theorem failed_place_undone (p : Placements L) id host now e p' :
  p_place p id host now = (Err e, p') -> p_ledger p' = p_ledger p /\ home_resources (p_home p') = home_resources (p_home p).
Proof. apply p_place_failed. Qed.

(** C31: from a placement home made over any home of vessels, restored ones
    included, through any sequence of host, cap, request, place and edge calls,
    whatever the log answers, no host is oversubscribed, and the ledger's leases
    are exactly those of the live vessels but the ones whose lease could not be
    put back at the start, which were live then: each ended vessel has released
    its lease, each live one holds the lease of its spec. *)
Theorem placements_stay_consistent writer log (h0 h : Home Vessel L) hs p un p' :
  with_log writer log = Ok h0 -> rtc (home_step spec_fits (resource_ok (M := Vessel) vessel_fits)) h0 h ->
  Forall (fun q => units_ok q.2) hs -> placements_new h hs = Ok (p, un) -> rtc p_step p p' ->
  ledger_inv (p_ledger p') /\ in_sync_but (list_to_set un.*1) p' /\
  forall id, id ∈ un.*1 -> exists v, home_resources h !! id = Some v /\ Lifecycle.live (vessel_state v) = true.
Proof.
  intros H1 H2 H3 H4 H5. destruct (placements_start h hs p un (home_reachable_ok (M := Vessel) spec_fits vessel_fits writer log h0 h H1 H2) H3 H4) as [Hi Hun].
  by destruct (placements_reachable _ p p' Hi H5).
Qed.

(** an edge on a consistent placement home keeps it consistent, and its only
    failures are the vessel's own write failures, which leave the ledger
    alone: releasing the lease of an ended vessel never fails. *)
Theorem vessel_edge_releases (p : Placements L) id edge world now x p' :
  placements_inv ∅ p -> p_apply p id edge world now = (x, p') ->
  in_sync p' /\ (forall e, x = Err e -> p_ledger p' = p_ledger p /\ exists we, e = PWrite we).
Proof. intros Hi Ha. destruct (p_apply_cases ∅ p id edge world now x p' Hi Ha) as [[] H]. split; [done|]. apply H. set_solver. Qed.

(** after a restart over the same hosts, every live vessel's lease is put
    back, whatever the order of putting them back: none is reported unplaced,
    and the ledger holds exactly the leases it held before. *)
Theorem restart_puts_every_lease_back (p : Placements L) hs l0 : placements_inv ∅ p ->
  add_hosts ledger_new hs = Ok l0 -> hosts l0 = hosts (p_ledger p) ->
  exists p', placements_new (p_home p) hs = Ok (p', []) /\ p_home p' = p_home p /\
    forall id lease, vessels (p_ledger p') !! id = Some (VLeased lease) <-> vessels (p_ledger p) !! id = Some (VLeased lease).
Proof.
  intros Hi Ha Hh. destruct (restart_core p hs l0 Hi Ha Hh) as (p' & Hn & Hp & _ & Hl). eauto.
Qed.
End properties.

(** A log that refuses every write. *)
Inductive BrokenLog : Type := broken.
#[export] Instance broken_log : Log Vessel BrokenLog := {|
  log_create l _ _ _ _ := (Err (mkLogError "disk full"), l);
  log_create_resource l _ _ _ _ := (Err (mkLogError "disk full"), l);
  log_edge l _ _ _ _ := (Err (mkLogError "disk full"), l);
  log_edge_with_writes l _ _ _ _ _ := (Err (mkLogError "disk full"), l);
|}.
#[export] Instance broken_laws : LogLaws Vessel BrokenLog.
Proof. by split. Qed.

Definition sample_broken : Placements BrokenLog := mkPlacements sample_waiting (mkHome "home-a" (definition Vessel) ∅ broken).

Lemma failed_place_undone_witness : p_ledger (p_place sample_broken "v1" "host" 1).2 = sample_waiting.
Proof.
  destruct (p_place sample_broken "v1" "host" 1) as [r p'] eqn:Hp.
  assert (is_ok (p_place sample_broken "v1" "host" 1).1 = false) as Hok by (vm_compute; reflexivity).
  rewrite Hp in Hok. destruct r as [|e]; [discriminate|]. exact (proj1 (failed_place_undone sample_broken "v1" "host" 1 e p' Hp)).
Defined.

(** A run: a host, a cap, a request, its placement, and its release. *)
Abbreviation SP := (Placements (MemoryLog Vessel)) (only parsing).
Definition sample_vessels : Home Vessel (MemoryLog Vessel) := mkHome "home-a" (definition Vessel) ∅ memory_log_new.
Definition sample_hosts : list (Host * Units) := [("host", {[0 := 2]})].
Definition started (h : Home Vessel (MemoryLog Vessel)) (hs : list (Host * Units)) : SP * list (VesselId * LedgerError) :=
  match placements_new h hs with Ok x => x | Err _ => (mkPlacements ledger_new h, []) end.
Lemma started_new h hs un : is_ok (placements_new h hs) = true -> (started h hs).2 = un -> placements_new h hs = Ok ((started h hs).1, un).
Proof. unfold started. destruct (placements_new h hs) as [[p un']|]; [|done]. by intros _ <-. Qed.
Definition sample_p0 : SP := (started sample_vessels sample_hosts).1.
Definition sample_p1 : SP := p_set_cap sample_p0 sample_convoy "worker" 2.
Definition sample_p2 : SP := (p_request sample_p1 "v1" (sample_request 1)).2.
Definition sample_p3 : SP := (p_place sample_p2 "v1" "host" 1).2.
Definition sample_gone : Lifecycle.LifecycleWorld :=
  Lifecycle.memory_world (Lifecycle.mkMemoryWorld table_new (table_put (@table_new Lifecycle.Teardown Lifecycle.teardown_kind) (mkRef "td") true).2 table_new).
Definition sample_release : Lifecycle.LifecycleEdge := Lifecycle.ERelease (Lifecycle.mkRelease (mkRef "td")).
Definition sample_p4 : SP := (p_apply sample_p3 "v1" sample_release sample_gone 2).2.

Lemma sample_new : with_log "home-a" (memory_log_new (M := Vessel)) = Ok sample_vessels.
Proof.
  pose proof (Lifecycle.lifecycle_validates VesselKind) as Hv. change (validate (definition Vessel) = Ok tt) in Hv.
  unfold with_log. by rewrite Hv.
Qed.

Lemma sample_started : placements_new sample_vessels sample_hosts = Ok (sample_p0, []).
Proof. apply started_new; vm_compute; reflexivity. Qed.

Lemma sample_hosts_ok : Forall (fun q => units_ok q.2) sample_hosts.
Proof. apply Forall_singleton. apply unit_shape_ok. unfold_ints. lia. Qed.

Lemma sample_run3 : rtc p_step sample_p0 sample_p3.
Proof.
  eapply rtc_l; [apply (ps_cap _ sample_convoy "worker" 2)|].
  eapply rtc_l; [eapply (ps_request _ "v1" (sample_request 1) _ sample_p2); [apply unit_shape_ok; unfold_ints; lia|apply surjective_pairing]|].
  eapply rtc_l; [eapply (ps_place _ "v1" "host" 1 _ sample_p3); apply surjective_pairing|]. apply rtc_refl.
Qed.

Lemma sample_p3_inv : placements_inv ∅ sample_p3.
Proof.
  apply (placements_reachable ∅ sample_p0 sample_p3); [|exact sample_run3].
  apply (placements_start sample_vessels sample_hosts sample_p0 []); [|exact sample_hosts_ok|exact sample_started].
  exact (home_ok_new (M := Vessel) vessel_fits "home-a" memory_log_new sample_vessels sample_new).
Qed.

Lemma sample_p3_leased : vessels (p_ledger sample_p3) !! "v1" = Some (VLeased (mkLease (sample_request 1) "host")).
Proof. vm_compute. reflexivity. Qed.

(** A restart over a host with no room left: the live vessel is listed, and ends
    without a lease to release. *)
Definition sample_live : Home Vessel (MemoryLog Vessel) :=
  (create sample_vessels "v1" (lease_spec (mkLease (sample_request 1) "host") : Machine.Request Vessel) (default_world : World Vessel) 1).2.
Definition sample_full : list (Host * Units) := [("host", {[0 := 0]})].
Definition sample_listed : list (VesselId * LedgerError) := [("v1", CapacityUnderflow "host" 0)].
Definition sample_q0 : SP := (started sample_live sample_full).1.
Definition sample_q1 : SP := (p_apply sample_q0 "v1" sample_release sample_gone 2).2.
Lemma sample_restarted : placements_new sample_live sample_full = Ok (sample_q0, sample_listed).
Proof. apply started_new; vm_compute; reflexivity. Qed.
Example sample_unplaced_ends : match home_get (p_home sample_q1) "v1" with Some v => Lifecycle.gone (vessel_state v) | None => false end = true.
Proof. vm_compute. reflexivity. Qed.

Lemma placements_stay_consistent_witness : (exists v, home_resources (p_home sample_p3) !! "v1" = Some v /\ Lifecycle.live (vessel_state v) = true) /\
  in_sync_but {["v1"]} sample_q1.
Proof.
  split.
  - destruct (placements_stay_consistent "home-a" memory_log_new sample_vessels sample_vessels sample_hosts sample_p0 [] sample_p3
      sample_new (rtc_refl _ _) sample_hosts_ok sample_started sample_run3) as (_ & Hsync & _).
    destruct (proj1 (Hsync "v1" _) sample_p3_leased) as (_ & v & Hv & Hl & _). exists v. split; [exact Hv|exact Hl].
  - assert (list_to_set sample_listed.*1 = ({["v1"]} : gset VesselId)) as He by (vm_compute; reflexivity). rewrite <-He.
    refine (proj1 (proj2 (placements_stay_consistent "home-a" memory_log_new sample_vessels sample_live sample_full sample_q0 sample_listed sample_q1 sample_new _ _ sample_restarted _))).
    + eapply rtc_once, (hs_create _ _ _ "v1" (lease_spec (mkLease (sample_request 1) "host") : Machine.Request Vessel) (default_world : World Vessel) 1 _ sample_live); [|apply surjective_pairing].
      apply unit_shape_ok. unfold_ints. lia.
    + apply Forall_singleton. apply unit_shape_ok. unfold_ints. lia.
    + eapply rtc_once, (ps_apply _ "v1" sample_release sample_gone 2 _ sample_q1). apply surjective_pairing.
Defined.

Lemma vessel_edge_releases_witness : in_sync sample_p4.
Proof.
  exact (proj1 (vessel_edge_releases sample_p3 "v1" sample_release sample_gone 2 _ sample_p4 sample_p3_inv (surjective_pairing _))).
Defined.

Lemma restart_puts_every_lease_back_witness : exists p', placements_new (p_home sample_p3) sample_hosts = Ok (p', []) /\
  vessels (p_ledger p') !! "v1" = Some (VLeased (mkLease (sample_request 1) "host")).
Proof.
  destruct (restart_puts_every_lease_back sample_p3 sample_hosts sample_hosted) as (p' & Hn & _ & Hl);
    [exact sample_p3_inv|reflexivity|reflexivity|].
  exists p'. split; [exact Hn|]. apply Hl. exact sample_p3_leased.
Defined.

(** Outside [in_sync]: a live vessel the ledger does not hold, whose id also
    waits at the ledger, ends with its edge written and an error reported. *)
Definition sample_unplaced : SP := mkPlacements sample_waiting (p_home sample_p3).

Lemma unplaced_vessel_with_waiting_request_errs :
  match p_apply sample_unplaced "v1" sample_release sample_gone 2 with
  | (Err (PLedger (NotLeased id)), p') =>
      bool_decide (id = "v1") && match home_get (p_home p') "v1" with Some v => Lifecycle.gone (vessel_state v) | None => false end
  | _ => false
  end = true.
Proof. vm_compute. reflexivity. Qed.
