(* ===== verification/Convoy.v ===== *)
(** Convoy ([crates/flotilla-state-machines/src/machines/convoy.rs]): a crew's
    promises, duties and seats, admitted under a quota, worked through edges
    that write its records, until it is delivered or abandoned. *)

From S2P Require Import Prelude Schema Read Machine Validate Engine Log Home Attempt Steps.

Module Convoy.

(** * Data *)

(** A promise's and a duty's key within one convoy, and a priority: [u32]. *)
Abbreviation PromiseId := Z (only parsing).
Abbreviation DutyId := Z (only parsing).
Abbreviation Priority := Z (only parsing).
(** Per-class caps on live vessels. *)
Abbreviation Quota := (gmap string Z) (only parsing).

Record SeatName : Type := mkSeatName { role : string; seat : string }.
#[export] Instance SeatName_eq_dec : EqDecision SeatName.
Proof. solve_decision. Defined.
#[export] Instance SeatName_countable : Countable SeatName.
Proof. apply (inj_countable' (fun n => (role n, seat n)) (fun p => mkSeatName p.1 p.2)). by intros []. Defined.

Record Seat : Type := mkSeat {
  s_role : string;
  s_seat : string;
  parent : option SeatName;
  supervised_by : Address;
  s_retired : bool;
  replacements : Z;
}.
Definition seat_name (s : Seat) : SeatName := mkSeatName (s_role s) (s_seat s).

Inductive PromiseSource : Type := Template | Dispatch | Crew.
#[export] Instance PromiseSource_eq_dec : EqDecision PromiseSource.
Proof. solve_decision. Defined.

Inductive Progress : Type := Pending | Submitted | Kept | Retracted.
#[export] Instance Progress_eq_dec : EqDecision Progress.
Proof. solve_decision. Defined.

Record Submission : Type := mkSubmission { sub_address : Address; sub_revision : string; sub_by : SeatName }.

Record Promise : Type := mkPromise {
  p_id : PromiseId;
  p_label : string;
  p_kind : string;
  p_target : Address;
  p_source : PromiseSource;
  p_owner : SeatName;
  p_progress : State Progress;
  p_submissions : Records Submission;
}.

(** Pending or Submitted. *)
Definition open (p : Promise) : bool :=
  match value (p_progress p) with Pending | Submitted => true | Kept | Retracted => false end.

Inductive DutyScope : Type := Lifetime | WhileOpen (promises : gset PromiseId).
#[export] Instance DutyScope_eq_dec : EqDecision DutyScope.
Proof. solve_decision. Defined.

Record Terms : Type := mkTerms { reply_within : option Z; heartbeat : option Z; t_note : option string }.
Record Duty : Type := mkDuty { d_owner : SeatName; d_scope : DutyScope; d_terms : Terms }.

(** Each rule is a list of condition templates, by their text. *)
Record PromiseKind : Type := mkPromiseKind { k_durable : list string; k_ready : list string; k_kept : list string }.
Record PromiseKinds : Type := mkPromiseKinds { kinds_by_name : gmap string PromiseKind }.

(** [promise_floor] is a [u64]. *)
Record ConvoySpec : Type := mkSpec {
  project : Address;
  promise_floor : Z;
  cv_priority : Priority;
  cv_kinds : Frozen PromiseKinds;
  duties : gmap DutyId Duty;
  seats : Records Seat;
  promises : Records Promise;
}.

Inductive ConvoyState : Type :=
| Open (quota : Quota) (retired : gset DutyId)
| Delivered (quota : Quota) (retired : gset DutyId)
| Abandoned (quota : Quota) (retired : gset DutyId) (reason : string).

Inductive ConvoyLabel : Type := LOpen | LDelivered | LAbandoned.
#[export] Instance ConvoyLabel_eq_dec : EqDecision ConvoyLabel.
Proof. solve_decision. Defined.

#[export] Program Instance convoy_label_coded : Coded ConvoyLabel := {|
  coded_ALL := [LOpen; LDelivered; LAbandoned];
  coded_name l := match l with LOpen => "Open" | LDelivered => "Delivered" | LAbandoned => "Abandoned" end;
  coded_code l := match l with LOpen => "op" | LDelivered => "de" | LAbandoned => "ab" end;
|}.
Next Obligation. coded_complete_tac. Qed.
Next Obligation. coded_nodup_tac. Qed.

Inductive ConvoyDatum : Type :=
| DQuota (v : Quota)
| DRetired (v : gset DutyId)
| DText (v : string).
#[export] Instance ConvoyDatum_eq_dec : EqDecision ConvoyDatum.
Proof. solve_decision. Defined.

Definition convoy_label (s : ConvoyState) : ConvoyLabel :=
  match s with Open _ _ => LOpen | Delivered _ _ => LDelivered | Abandoned _ _ _ => LAbandoned end.

Definition convoy_data (s : ConvoyState) : list (string * ConvoyDatum) :=
  match s with
  | Open x0 x1 => [("quota", DQuota x0); ("retired", DRetired x1)]
  | Delivered x0 x1 => [("quota", DQuota x0); ("retired", DRetired x1)]
  | Abandoned x0 x1 x2 => [("quota", DQuota x0); ("retired", DRetired x1); ("reason", DText x2)]
  end.

Definition convoy_fields (l : ConvoyLabel) : list string :=
  match l with
  | LOpen => ["quota"; "retired"]
  | LDelivered => ["quota"; "retired"]
  | LAbandoned => ["quota"; "retired"; "reason"]
  end.
Definition quota (s : ConvoyState) : Quota := match s with Open q _ | Delivered q _ | Abandoned q _ _ => q end.
Definition retired (s : ConvoyState) : gset DutyId := match s with Open _ r | Delivered _ r | Abandoned _ r _ => r end.
Definition reason (s : ConvoyState) : option string := match s with Abandoned _ _ r => Some r | _ => None end.

(** A promise's row, by its id; a seat's row, by its name: the first that matches. *)
Definition promise (spec : ConvoySpec) (id : PromiseId) : option (RecordRow Promise) :=
  List.find (fun row => bool_decide (p_id (record row) = id)) (rows (promises spec)).
Definition find_seat (spec : ConvoySpec) (name : SeatName) : option (RecordRow Seat) :=
  List.find (fun row => bool_decide (seat_name (record row) = name)) (rows (seats spec)).

(** The promises still Pending or Submitted. *)
Definition outstanding (spec : ConvoySpec) : gset PromiseId :=
  list_to_set (map p_id (List.filter open (values (promises spec)))).

(** The convoy-lifetime duties not yet retired. *)
Definition holds_delivery (r : gset DutyId) (p : DutyId * Duty) : Prop := d_scope p.2 = Lifetime /\ p.1 ∉ r.
#[export] Instance holds_delivery_dec r p : Decision (holds_delivery r p).
Proof. unfold holds_delivery. apply _. Defined.
Definition holding (spec : ConvoySpec) (r : gset DutyId) : gset DutyId :=
  list_to_set (map fst (filter (holds_delivery r) (map_iter (duties spec)))).

(** * Requests and edges *)

Record AdmittedPromise : Type := mkAdmitted {
  ap_label : string; ap_kind : string; ap_target : Address; ap_source : PromiseSource; ap_owner : SeatName }.

Record ConvoyRequest : Type := mkRequest {
  rq_project : Address;
  rq_promises : gmap PromiseId AdmittedPromise;
  rq_duties : gmap DutyId Duty;
  rq_seats : list Seat;
  rq_quota : Quota;
  rq_priority : Priority;
  rq_kinds : Frozen PromiseKinds;
}.

Inductive Authority : Type := Operator | ConvoySupervisor | Dispatcher | Owner | OwnerSupervisor.

(** [usize] and [u32]. *)
Record Limits : Type := mkLimits { l_seats : Z; l_replacements : Z }.
Definition limits_default : Limits := mkLimits 64 3.
Definition limits_read (v : option Limits) : Limits := default limits_default v.

Inductive Authorisation : Type := .
Inductive Durable : Type := .
Inductive Project : Type := .
Inductive ConvoyLimits : Type := .
#[export] Instance authorisation_kind : Kind Authorisation := {| kind_NAME := "authority"; kind_Value := bool |}.
#[export] Instance durable_kind : Kind Durable := {| kind_NAME := "durable"; kind_Value := bool |}.
#[export] Instance project_kind : Kind Project := {| kind_NAME := "project"; kind_Value := unit |}.
#[export] Instance limits_kind : Kind ConvoyLimits := {| kind_NAME := "convoy-limits"; kind_Value := Limits |}.

(** [dyn ConvoyWorld]: a source of each kind. *)
Record ConvoyWorld : Type := mkWorld {
  w_authorisation : Ref Authorisation -> option (Version * bool);
  w_durable : Ref Durable -> option (Version * bool);
  w_project : Ref Project -> option (Version * unit);
  w_limits : Ref ConvoyLimits -> option (Version * Limits);
}.
#[export] Instance source_authorisation : Source ConvoyWorld Authorisation := w_authorisation.
#[export] Instance source_durable : Source ConvoyWorld Durable := w_durable.
#[export] Instance source_project : Source ConvoyWorld Project := w_project.
#[export] Instance source_limits : Source ConvoyWorld ConvoyLimits := w_limits.

Definition limits_reference : Ref ConvoyLimits := mkRef "configured".

(** [MemoryConvoyWorld]. *)
Record MemoryConvoyWorld : Type := mkMemoryWorld {
  mw_authority : Table Authorisation;
  mw_durable : Table Durable;
  mw_projects : Table Project;
  mw_limits : Table ConvoyLimits;
}.
Definition memory_world (w : MemoryConvoyWorld) : ConvoyWorld :=
  mkWorld (table_lookup (mw_authority w)) (table_lookup (mw_durable w)) (table_lookup (mw_projects w)) (table_lookup (mw_limits w)).

Record Declare_ : Type := mkDeclare { dc_promise : PromiseId; dc_label : string; dc_kind : string; dc_target : Address; dc_owner : SeatName }.
Record Submit : Type := mkSubmit { su_promise : PromiseId; su_by : SeatName; su_address : Address; su_revision : string; su_durable : Ref Durable }.
Record Reject : Type := mkReject { rj_promise : PromiseId }.
Inductive Keep : Type :=
| Observed (p : PromiseId) (submission : Z)
| Verdict (p : PromiseId) (by_ : SeatName) (authority : Authority) (why : string).
Record Retract : Type := mkRetract { rt_promise : PromiseId; rt_by : SeatName; rt_authority : Authority; rt_reason : string }.
Record Reassign : Type := mkReassign { ra_promise : PromiseId; ra_to : SeatName; ra_by : SeatName; ra_authority : Authority }.
Record RetireDuty : Type := mkRetireDuty { rd_duty : DutyId; rd_by : SeatName; rd_authority : Ref Authorisation }.
Record AddSeat : Type := mkAddSeat {
  as_seat : SeatName; as_parent : SeatName; as_supervised_by : Address; as_by : SeatName; as_authority : Ref Authorisation }.
Record Resupervise : Type := mkResupervise { sv_seat : SeatName; sv_supervised_by : Address; sv_by : SeatName; sv_authority : Ref Authorisation }.
Record RetireSeat : Type := mkRetireSeat { sr_seat : SeatName; sr_by : SeatName; sr_authority : Ref Authorisation }.
Record Rollover : Type := mkRollover { ro_by : SeatName; ro_authority : Ref Authorisation }.
Record ReplaceSeat : Type := mkReplaceSeat { rp_seat : SeatName }.
Inductive Deliver : Type := deliver_.
Record Abandon : Type := mkAbandon { ab_by : SeatName; ab_reason : string; ab_authority : Ref Authorisation }.
Record Readmit : Type := mkReadmit { rm_quota : Quota; rm_by : SeatName; rm_authority : Ref Authorisation }.

Inductive ConvoyEdge : Type :=
| EDeclare (a : Declare_)
| ESubmit (a : Submit)
| EReject (a : Reject)
| EKeep (a : Keep)
| ERetract (a : Retract)
| EReassign (a : Reassign)
| ERetireDuty (a : RetireDuty)
| EAddSeat (a : AddSeat)
| EResupervise (a : Resupervise)
| ERetireSeat (a : RetireSeat)
| ERollover (a : Rollover)
| EReplaceSeat (a : ReplaceSeat)
| EDeliver (a : Deliver)
| EAbandon (a : Abandon)
| EReadmit (a : Readmit).

Inductive ConvoyEdgeKind : Type := KDeclare | KSubmit | KReject | KKeep | KRetract | KReassign | KRetireDuty | KAddSeat | KResupervise | KRetireSeat | KRollover | KReplaceSeat | KDeliver | KAbandon | KReadmit.
#[export] Instance ConvoyEdgeKind_eq_dec : EqDecision ConvoyEdgeKind.
Proof. solve_decision. Defined.

#[export] Program Instance convoy_kind_coded : Coded ConvoyEdgeKind := {|
  coded_ALL := [KDeclare; KSubmit; KReject; KKeep; KRetract; KReassign; KRetireDuty; KAddSeat; KResupervise; KRetireSeat; KRollover; KReplaceSeat; KDeliver; KAbandon; KReadmit];
  coded_name k := match k with KDeclare => "declare" | KSubmit => "submit" | KReject => "reject" | KKeep => "keep" | KRetract => "retract" | KReassign => "reassign" | KRetireDuty => "retire_duty" | KAddSeat => "add_seat" | KResupervise => "resupervise" | KRetireSeat => "retire_seat" | KRollover => "rollover" | KReplaceSeat => "replace_seat" | KDeliver => "deliver" | KAbandon => "abandon" | KReadmit => "readmit" end;
  coded_code k := match k with KDeclare => "dc" | KSubmit => "su" | KReject => "rj" | KKeep => "ke" | KRetract => "rt" | KReassign => "rs" | KRetireDuty => "rd" | KAddSeat => "as" | KResupervise => "sv" | KRetireSeat => "sr" | KRollover => "ro" | KReplaceSeat => "rp" | KDeliver => "de" | KAbandon => "ab" | KReadmit => "ra" end;
|}.
Next Obligation. coded_complete_tac. Qed.
Next Obligation. coded_nodup_tac. Qed.

Definition convoy_edge_kind (e : ConvoyEdge) : ConvoyEdgeKind :=
  match e with EDeclare _ => KDeclare | ESubmit _ => KSubmit | EReject _ => KReject | EKeep _ => KKeep | ERetract _ => KRetract | EReassign _ => KReassign | ERetireDuty _ => KRetireDuty | EAddSeat _ => KAddSeat | EResupervise _ => KResupervise | ERetireSeat _ => KRetireSeat | ERollover _ => KRollover | EReplaceSeat _ => KReplaceSeat | EDeliver _ => KDeliver | EAbandon _ => KAbandon | EReadmit _ => KReadmit end.

(** * Record writes *)

Inductive ConvoyWrite : Type :=
| WPromise (p : Promise)
| WSubmission (p : Z) (s : Submission)
| WProgress (p : Z) (s : State Progress)
| WOwner (p : Z) (owner : SeatName)
| WSeat (s : Seat)
| WSupervisor (s : Z) (a : Address)
| WRetired (s : Z)
| WReplaced (s : Z) (count : Z)
| WGenerationSeats (before after : Records Seat)
| WGenerationPromises (before : Records Promise)
| WGenerationDuties (before after : gmap DutyId Duty)
| WPromiseFloor (floor : Z).

Definition convoy_write_field (w : ConvoyWrite) : string :=
  match w with
  | WSeat _ | WSupervisor _ _ | WRetired _ | WReplaced _ _ | WGenerationSeats _ _ => "seats"
  | WGenerationDuties _ _ => "duties"
  | WPromiseFloor _ => "promise_floor"
  | _ => "promises"
  end.

Definition with_seats (s : ConvoySpec) (r : Records Seat) : ConvoySpec :=
  mkSpec (project s) (promise_floor s) (cv_priority s) (cv_kinds s) (duties s) r (promises s).
Definition with_promises (s : ConvoySpec) (r : Records Promise) : ConvoySpec :=
  mkSpec (project s) (promise_floor s) (cv_priority s) (cv_kinds s) (duties s) (seats s) r.
Definition with_duties (s : ConvoySpec) (d : gmap DutyId Duty) : ConvoySpec :=
  mkSpec (project s) (promise_floor s) (cv_priority s) (cv_kinds s) d (seats s) (promises s).
Definition with_floor (s : ConvoySpec) (f : Z) : ConvoySpec :=
  mkSpec (project s) f (cv_priority s) (cv_kinds s) (duties s) (seats s) (promises s).

Definition set_progress (st : State Progress) (p : Promise) : Promise :=
  mkPromise (p_id p) (p_label p) (p_kind p) (p_target p) (p_source p) (p_owner p) st (p_submissions p).
Definition set_owner (o : SeatName) (p : Promise) : Promise :=
  mkPromise (p_id p) (p_label p) (p_kind p) (p_target p) (p_source p) o (p_progress p) (p_submissions p).
Definition set_submissions (r : Records Submission) (p : Promise) : Promise :=
  mkPromise (p_id p) (p_label p) (p_kind p) (p_target p) (p_source p) (p_owner p) (p_progress p) r.
Definition set_retired (s : Seat) : Seat := mkSeat (s_role s) (s_seat s) (parent s) (supervised_by s) true (replacements s).
Definition set_replacements (n : Z) (s : Seat) : Seat := mkSeat (s_role s) (s_seat s) (parent s) (supervised_by s) (s_retired s) n.
Definition set_supervisor (a : Address) (s : Seat) : Seat := mkSeat (s_role s) (s_seat s) (parent s) a (s_retired s) (replacements s).

(** Appends each value in turn, stamped alike. *)
Definition append_all {R} (r : Records R) (version : Z) (xs : list R) : result RecordsFull (Records R) :=
  try_fold (fun r x => records_append r version x) r xs.

Definition convoy_write_apply (w : ConvoyWrite) (spec : ConvoySpec) (version : Version) : result RecordsFull ConvoySpec :=
  match w with
  | WRetired s => Ok (with_seats spec (records_alter (seats spec) s set_retired))
  | WReplaced s n => Ok (with_seats spec (records_alter (seats spec) s (set_replacements n)))
  | WGenerationSeats _ after => with_seats spec <$> append_all records_new version (values after)
  | WGenerationPromises _ => Ok (with_promises spec records_new)
  | WGenerationDuties _ after => Ok (with_duties spec after)
  | WPromiseFloor f => Ok (with_floor spec f)
  | WPromise p => with_promises spec <$> records_append (promises spec) version p
  | WSeat s => with_seats spec <$> records_append (seats spec) version s
  | WSubmission p s =>
      match records_get (promises spec) p with
      | Some row =>
          (fun subs => with_promises spec (records_alter (promises spec) p (set_submissions subs)))
          <$> records_append (p_submissions (record row)) version s
      | None => Ok spec
      end
  | WProgress p st => Ok (with_promises spec (records_alter (promises spec) p (set_progress st)))
  | WOwner p o => Ok (with_promises spec (records_alter (promises spec) p (set_owner o)))
  | WSupervisor s a => Ok (with_seats spec (records_alter (seats spec) s (set_supervisor a)))
  end.

Inductive ConvoyRefusal : Type :=
| NoObligations
| UnknownProject
| InvalidQuota
| NotOpen
| UnknownPromise
| PromiseSettled
| PromisesOutstanding (ids : gset PromiseId)
| Unauthorised
| QuotaNotIncrease
| PromiseExists
| NotOwner
| NotDurable
| NotSubmitted
| StaleEvidence
| UnknownDuty
| DutyHolds (ids : gset DutyId)
| UnknownSeat
| SeatExists
| SeatRetired
| SeatsFull
| ReplacementsExhausted
| SeatCycle.

Definition sig : MachineSig := {|
  M_NAME := "Convoy";
  Request := ConvoyRequest;
  Spec := ConvoySpec;
  MState := ConvoyState;
  Label := ConvoyLabel;
  Datum := ConvoyDatum;
  Edge := ConvoyEdge;
  EdgeKind := ConvoyEdgeKind;
  Write := ConvoyWrite;
  Refusal := ConvoyRefusal;
  World := ConvoyWorld;
  label := convoy_label;
  data := convoy_data;
  fields := convoy_fields;
  edge_kind := convoy_edge_kind;
  write_field := convoy_write_field;
  write_apply := convoy_write_apply;
  of_ended e := NotOpen;
  of_wrong_state e := NotOpen;
|}.

#[export] Instance arg_declare : EdgeArg sig Declare_ :=
  edge_arg sig KDeclare (fun e => match e with EDeclare a => Some a | _ => None end) EDeclare.
#[export] Instance arg_submit : EdgeArg sig Submit :=
  edge_arg sig KSubmit (fun e => match e with ESubmit a => Some a | _ => None end) ESubmit.
#[export] Instance arg_reject : EdgeArg sig Reject :=
  edge_arg sig KReject (fun e => match e with EReject a => Some a | _ => None end) EReject.
#[export] Instance arg_keep : EdgeArg sig Keep :=
  edge_arg sig KKeep (fun e => match e with EKeep a => Some a | _ => None end) EKeep.
#[export] Instance arg_retract : EdgeArg sig Retract :=
  edge_arg sig KRetract (fun e => match e with ERetract a => Some a | _ => None end) ERetract.
#[export] Instance arg_reassign : EdgeArg sig Reassign :=
  edge_arg sig KReassign (fun e => match e with EReassign a => Some a | _ => None end) EReassign.
#[export] Instance arg_retire_duty : EdgeArg sig RetireDuty :=
  edge_arg sig KRetireDuty (fun e => match e with ERetireDuty a => Some a | _ => None end) ERetireDuty.
#[export] Instance arg_add_seat : EdgeArg sig AddSeat :=
  edge_arg sig KAddSeat (fun e => match e with EAddSeat a => Some a | _ => None end) EAddSeat.
#[export] Instance arg_resupervise : EdgeArg sig Resupervise :=
  edge_arg sig KResupervise (fun e => match e with EResupervise a => Some a | _ => None end) EResupervise.
#[export] Instance arg_retire_seat : EdgeArg sig RetireSeat :=
  edge_arg sig KRetireSeat (fun e => match e with ERetireSeat a => Some a | _ => None end) ERetireSeat.
#[export] Instance arg_rollover : EdgeArg sig Rollover :=
  edge_arg sig KRollover (fun e => match e with ERollover a => Some a | _ => None end) ERollover.
#[export] Instance arg_replace_seat : EdgeArg sig ReplaceSeat :=
  edge_arg sig KReplaceSeat (fun e => match e with EReplaceSeat a => Some a | _ => None end) EReplaceSeat.
#[export] Instance arg_deliver : EdgeArg sig Deliver :=
  edge_arg sig KDeliver (fun e => match e with EDeliver a => Some a | _ => None end) EDeliver.
#[export] Instance arg_abandon : EdgeArg sig Abandon :=
  edge_arg sig KAbandon (fun e => match e with EAbandon a => Some a | _ => None end) EAbandon.
#[export] Instance arg_readmit : EdgeArg sig Readmit :=
  edge_arg sig KReadmit (fun e => match e with EReadmit a => Some a | _ => None end) EReadmit.

(** * Admission *)

(** The parent of each seat, by name; a later seat of the same name wins. *)
Definition parents (ss : list Seat) : gmap SeatName (option SeatName) :=
  foldl (fun m s => <[seat_name s := parent s]> m) ∅ ss.

(** Follows parents for [n] steps. *)
Fixpoint climb (m : gmap SeatName (option SeatName)) (n : nat) (at_ : option SeatName) : bool :=
  match n with
  | O => match at_ with None => true | Some _ => false end
  | S n => match at_ with None => true | Some name => climb m n (mjoin (m !! name)) end
  end.

(** No seat is above itself. *)
Definition acyclic (ss : list Seat) : bool := forallb (fun s => climb (parents ss) (length ss) (parent s)) ss.

(** [spec.seats.append(0, seat).expect(..)]: a request holds fewer than [2^32]
    rows, so the refusal is unreachable; it would leave the table as it is. *)
Definition append_expect {R} (r : Records R) (x : R) : Records R :=
  match records_append r 0 x with Ok r' => r' | Err _ => r end.

Definition admitted_seat (s : Seat) : Seat := mkSeat (s_role s) (s_seat s) (parent s) (supervised_by s) false 0.
Definition admitted_promise (now : Timestamp) (p : PromiseId * AdmittedPromise) : Promise :=
  mkPromise p.1 (ap_label p.2) (ap_kind p.2) (ap_target p.2) (ap_source p.2) (ap_owner p.2) (mkState Pending now) records_new.

Definition is_lifetime (d : Duty) : bool := bool_decide (d_scope d = Lifetime).

Definition seat_names (ss : list Seat) : gset SeatName := list_to_set (map seat_name ss).

(** Every owner and parent is one of the seats, whose names are distinct. *)
Definition closed (rq : ConvoyRequest) : bool :=
  let names := seat_names (rq_seats rq) in
  forallb (fun p => bool_decide (ap_owner p.2 ∈ names)) (map_iter (rq_promises rq)) &&
  forallb (fun d => bool_decide (d_owner d.2 ∈ names)) (map_iter (rq_duties rq)) &&
  forallb (fun s => match parent s with None => true | Some p => bool_decide (p ∈ names) end) (rq_seats rq) &&
  bool_decide (size names = length (rq_seats rq)).

Abbreviation admit_project := (@a_read sig Project project_kind source_project) (only parsing).
Abbreviation admit_limits := (@a_read sig ConvoyLimits limits_kind source_limits) (only parsing).

Definition convoy_admit (rq : ConvoyRequest) : AM sig (ConvoySpec * ConvoyState) :=
  if bool_decide (rq_promises rq = ∅) && negb (existsb (fun d => is_lifetime d.2) (map_iter (rq_duties rq))) then a_refuse NoObligations
  else
    adm! found := admit_project (mkRef (address_text (rq_project rq))) in
    match found with
    | None => a_refuse UnknownProject
    | Some _ =>
        if negb (closed rq) then a_refuse UnknownSeat
        else if negb (acyclic (rq_seats rq)) then a_refuse SeatCycle
        else
          adm! l := admit_limits limits_reference in
          if bool_decide (Z.of_nat (size (seat_names (rq_seats rq))) > l_seats (limits_read l)) then a_refuse SeatsFull
          else
            adm! now := @a_now sig in
            let spec := mkSpec (rq_project rq) 0 (rq_priority rq) (rq_kinds rq) (rq_duties rq)
              (foldl append_expect records_new (map admitted_seat (rq_seats rq)))
              (foldl append_expect records_new (map (admitted_promise now) (map_iter (rq_promises rq)))) in
            aret (spec, Open (rq_quota rq) ∅)
    end.

(** * Gates *)

Abbreviation H := (HM sig) (only parsing).
Abbreviation G := (GM sig) (only parsing).
Abbreviation read_authorisation := (@h_read sig Authorisation authorisation_kind source_authorisation) (only parsing).
Abbreviation read_durable := (@h_read sig Durable durable_kind source_durable) (only parsing).
Abbreviation read_project := (@h_read sig Project project_kind source_project) (only parsing).
Abbreviation read_limits := (@h_read sig ConvoyLimits limits_kind source_limits) (only parsing).

Definition authorised (a : Ref Authorisation) : H bool :=
  do! v := read_authorisation a in hret (default false v).

(** Spec order for an existing promise: unknown, then settled. *)
Definition open_promise (spec : ConvoySpec) (id : PromiseId) : result ConvoyRefusal Promise :=
  match promise spec id with
  | None => Err UnknownPromise
  | Some row => if open (record row) then Ok (record row) else Err PromiseSettled
  end.

Definition may_retract (p : Promise) (by_ : SeatName) (a : Authority) : bool :=
  match a with
  | Operator => true
  | ConvoySupervisor => bool_decide (p_source p = Template)
  | Dispatcher => bool_decide (p_source p = Dispatch)
  | Owner => bool_decide (p_source p = Crew) && bool_decide (by_ = p_owner p) && records_is_empty (p_submissions p)
  | OwnerSupervisor => bool_decide (p_source p = Crew) && negb (records_is_empty (p_submissions p))
  end.

Definition may_keep (p : Promise) (a : Authority) : bool :=
  match a with
  | Operator => true
  | ConvoySupervisor => bool_decide (p_source p = Template)
  | Dispatcher => bool_decide (p_source p = Dispatch)
  | Owner => false
  | OwnerSupervisor => bool_decide (p_source p = Crew)
  end.

Definition may_reassign (p : Promise) (by_ : SeatName) (a : Authority) : bool :=
  match a with
  | Operator | OwnerSupervisor => true
  | Owner => bool_decide (by_ = p_owner p)
  | ConvoySupervisor | Dispatcher => false
  end.

(** A known, live seat. *)
Definition live_seat (spec : ConvoySpec) (name : SeatName) : result ConvoyRefusal Seat :=
  match find_seat spec name with
  | None => Err UnknownSeat
  | Some row => if s_retired (record row) then Err SeatRetired else Ok (record row)
  end.

(** A decision over the spec alone, as a gate. *)
Definition from_result {A} (r : result ConvoyRefusal A) : G A := fun h => (r, h).

Definition is_empty_string (s : string) : bool := bool_decide (s = EmptyString).

Definition gate_declare (a : Declare_) : G unit :=
  let! h := @ask sig in
  let spec := h_spec h in
  if bool_decide (dc_promise a < promise_floor spec) || match promise spec (dc_promise a) with Some _ => true | None => false end
  then refuse PromiseExists
  else try! _ := from_result (live_seat spec (dc_owner a)) in gret tt.

Definition gate_submit (a : Submit) : G unit :=
  let! h := @ask sig in
  try! p := from_result (open_promise (h_spec h) (su_promise a)) in
  if bool_decide (su_by a <> p_owner p) then refuse NotOwner
  else
    let! d := read_durable (su_durable a) in
    if default false d then gret tt else refuse NotDurable.

Definition gate_reject (a : Reject) : G unit :=
  let! h := @ask sig in
  try! p := from_result (open_promise (h_spec h) (rj_promise a)) in
  if bool_decide (value (p_progress p) <> Submitted) then refuse NotSubmitted else gret tt.

(** How many submissions the promise holds; saturating is exact. *)
Definition current_submission (p : Promise) : Z := default u32_max (u32_try_from (records_len (p_submissions p))).

Definition gate_keep (a : Keep) : G unit :=
  let! h := @ask sig in
  match a with
  | Observed id submission =>
      try! p := from_result (open_promise (h_spec h) id) in
      if bool_decide (value (p_progress p) <> Submitted) || bool_decide (submission <> current_submission p)
      then refuse StaleEvidence else gret tt
  | Verdict id _ authority why =>
      try! p := from_result (open_promise (h_spec h) id) in
      if negb (may_keep p authority) || is_empty_string why then refuse Unauthorised else gret tt
  end.

Definition gate_retract (a : Retract) : G unit :=
  let! h := @ask sig in
  try! p := from_result (open_promise (h_spec h) (rt_promise a)) in
  if negb (may_retract p (rt_by a) (rt_authority a)) || is_empty_string (rt_reason a) then refuse Unauthorised else gret tt.

Definition gate_reassign (a : Reassign) : G unit :=
  let! h := @ask sig in
  try! p := from_result (open_promise (h_spec h) (ra_promise a)) in
  if negb (may_reassign p (ra_by a) (ra_authority a)) then refuse Unauthorised
  else try! _ := from_result (live_seat (h_spec h) (ra_to a)) in gret tt.

Definition gate_retire_duty (a : RetireDuty) : G unit :=
  let! ok := authorised (rd_authority a) in
  if negb ok then refuse Unauthorised
  else
    let! h := @ask sig in
    if bool_decide (rd_duty a ∈ holding (h_spec h) (retired (h_state h))) then gret tt else refuse UnknownDuty.

Definition gate_add_seat (a : AddSeat) : G unit :=
  let! ok := authorised (as_authority a) in
  if negb ok then refuse Unauthorised
  else
    let! h := @ask sig in
    match find_seat (h_spec h) (as_seat a) with
    | Some _ => refuse SeatExists
    | None =>
        try! _ := from_result (live_seat (h_spec h) (as_parent a)) in
        let! l := read_limits limits_reference in
        if bool_decide (Z.of_nat (records_len (seats (h_spec h))) + 1 > l_seats (limits_read l)) then refuse SeatsFull else gret tt
    end.

Definition gate_resupervise (a : Resupervise) : G unit :=
  let! ok := authorised (sv_authority a) in
  if negb ok then refuse Unauthorised
  else
    let! h := @ask sig in
    match find_seat (h_spec h) (sv_seat a) with Some _ => gret tt | None => refuse UnknownSeat end.

Definition gate_deliver (_ : Deliver) : G unit :=
  let! h := @ask sig in
  let out := outstanding (h_spec h) in
  let hold := holding (h_spec h) (retired (h_state h)) in
  if bool_decide (out <> ∅) then refuse (PromisesOutstanding out)
  else if bool_decide (hold <> ∅) then refuse (DutyHolds hold)
  else gret tt.

Definition gate_abandon (a : Abandon) : G unit :=
  let! ok := authorised (ab_authority a) in
  if negb ok || is_empty_string (ab_reason a) then refuse Unauthorised else gret tt.

Definition gate_readmit (a : Readmit) : G unit :=
  let! ok := authorised (rm_authority a) in
  if negb ok then refuse Unauthorised
  else
    let! h := @ask sig in
    let current := quota (h_state h) in
    let same_classes := bool_decide ((map_iter (rm_quota a)).*1 = (map_iter current).*1) in
    let no_lower := forallb (fun p => match current !! p.1 with Some old => bool_decide (p.2 >= old) | None => false end) (map_iter (rm_quota a)) in
    if same_classes && no_lower then gret tt else refuse QuotaNotIncrease.

(** The open promises the seat owns, and the live duties it owns. *)
Definition owned_open (spec : ConvoySpec) (s : SeatName) : gset PromiseId :=
  list_to_set (map p_id (List.filter (fun p => bool_decide (p_owner p = s) && open p) (values (promises spec)))).
Definition duty_live (spec : ConvoySpec) (r : gset DutyId) (p : DutyId * Duty) : bool :=
  match d_scope p.2 with
  | Lifetime => bool_decide (p.1 ∉ r)
  | WhileOpen ids => existsb (fun id => match promise spec id with Some row => open (record row) | None => false end) (set_iter ids)
  end.
Definition owned_duties (spec : ConvoySpec) (r : gset DutyId) (s : SeatName) : gset DutyId :=
  list_to_set (map fst (List.filter (fun p => bool_decide (d_owner p.2 = s) && duty_live spec r p) (map_iter (duties spec)))).

Definition gate_retire_seat (a : RetireSeat) : G unit :=
  let! ok := authorised (sr_authority a) in
  if negb ok then refuse Unauthorised
  else
    let! h := @ask sig in
    try! _ := from_result (live_seat (h_spec h) (sr_seat a)) in
    let out := owned_open (h_spec h) (sr_seat a) in
    let held := owned_duties (h_spec h) (retired (h_state h)) (sr_seat a) in
    if bool_decide (out <> ∅) then refuse (PromisesOutstanding out)
    else if bool_decide (held <> ∅) then refuse (DutyHolds held)
    else gret tt.

Definition gate_replace_seat (a : ReplaceSeat) : G unit :=
  let! h := @ask sig in
  try! s := from_result (live_seat (h_spec h) (rp_seat a)) in
  let! l := read_limits limits_reference in
  if bool_decide (replacements s >= l_replacements (limits_read l)) then refuse ReplacementsExhausted else gret tt.

Definition gate_rollover (a : Rollover) : G unit :=
  let! ok := authorised (ro_authority a) in
  if negb ok then refuse Unauthorised
  else
    let! h := @ask sig in
    let out := outstanding (h_spec h) in
    if bool_decide (holding (h_spec h) (retired (h_state h)) = ∅) then refuse NoObligations
    else if bool_decide (out <> ∅) then refuse (PromisesOutstanding out)
    else gret tt.

(** * Effects *)

Definition declare (state : ConvoyState) (a : Declare_) : H ConvoyState :=
  do! h := @ask sig in
  do! _ := @h_write sig (WPromise (mkPromise (dc_promise a) (dc_label a) (dc_kind a) (dc_target a) Crew (dc_owner a)
    (mkState Pending (h_now h)) records_new)) in
  hret state.

Definition submit (state : ConvoyState) (a : Submit) : H ConvoyState :=
  do! h := @ask sig in
  match promise (h_spec h) (su_promise a) with
  | Some row =>
      do! _ := @h_write sig (WSubmission (position row) (mkSubmission (su_address a) (su_revision a) (su_by a))) in
      if bool_decide (value (p_progress (record row)) <> Submitted)
      then do! _ := @h_write sig (WProgress (position row) (mkState Submitted (h_now h))) in hret state
      else hret state
  | None => hret state
  end.

Definition progress (id : PromiseId) (to_ : Progress) (state : ConvoyState) : H ConvoyState :=
  do! h := @ask sig in
  match promise (h_spec h) id with
  | Some row => do! _ := @h_write sig (WProgress (position row) (mkState to_ (h_now h))) in hret state
  | None => hret state
  end.

Definition reassign (state : ConvoyState) (a : Reassign) : H ConvoyState :=
  do! h := @ask sig in
  match promise (h_spec h) (ra_promise a) with
  | Some row =>
      if bool_decide (p_owner (record row) <> ra_to a)
      then do! _ := @h_write sig (WOwner (position row) (ra_to a)) in hret state
      else hret state
  | None => hret state
  end.

Definition add_seat (state : ConvoyState) (a : AddSeat) : H ConvoyState :=
  do! _ := @h_write sig (WSeat (mkSeat (role (as_seat a)) (seat (as_seat a)) (Some (as_parent a)) (as_supervised_by a) false 0)) in
  hret state.

Definition resupervise (state : ConvoyState) (a : Resupervise) : H ConvoyState :=
  do! h := @ask sig in
  match find_seat (h_spec h) (sv_seat a) with
  | Some row =>
      if bool_decide (supervised_by (record row) <> sv_supervised_by a)
      then do! _ := @h_write sig (WSupervisor (position row) (sv_supervised_by a)) in hret state
      else hret state
  | None => hret state
  end.

Definition retire_seat (state : ConvoyState) (a : RetireSeat) : H ConvoyState :=
  do! h := @ask sig in
  match find_seat (h_spec h) (sr_seat a) with
  | Some row => do! _ := @h_write sig (WRetired (position row)) in hret state
  | None => hret state
  end.

Definition replace_seat (state : ConvoyState) (a : ReplaceSeat) : H ConvoyState :=
  do! h := @ask sig in
  match find_seat (h_spec h) (rp_seat a) with
  | Some row => do! _ := @h_write sig (WReplaced (position row) (replacements (record row) + 1)) in hret state
  | None => hret state
  end.

Definition retire_duty (state : ConvoyState) (a : RetireDuty) : H ConvoyState :=
  hret (match state with Open q r => Open q ({[rd_duty a]} ∪ r) | other => other end).
Definition deliver (state : ConvoyState) (_ : Deliver) : H ConvoyState :=
  hret (match state with Open q r => Delivered q r | other => other end).
Definition abandon (state : ConvoyState) (a : Abandon) : H ConvoyState :=
  hret (match state with Open q r => Abandoned q r (ab_reason a) | other => other end).
Definition readmit (state : ConvoyState) (a : Readmit) : H ConvoyState :=
  hret (match state with Open q r => Open (rm_quota a) r | other => other end).

(** The next generation: the floor above every id, the live seats (an absent
    parent cleared) and the duties that hold. *)
Definition next_floor (spec : ConvoySpec) : Z :=
  Z.max (foldr (fun p m => Z.max (p_id p + 1) m) (promise_floor spec) (values (promises spec))) (promise_floor spec).
Definition live_seats (spec : ConvoySpec) : list Seat := List.filter (fun s => negb (s_retired s)) (values (seats spec)).
Definition carried_seat (live : gset SeatName) (s : Seat) : Seat :=
  match parent s with
  | Some p => if bool_decide (p ∈ live) then s else mkSeat (s_role s) (s_seat s) None (supervised_by s) (s_retired s) (replacements s)
  | None => s
  end.
Definition carried_seats (spec : ConvoySpec) : Records Seat :=
  foldl append_expect records_new (map (carried_seat (seat_names (live_seats spec))) (live_seats spec)).
Definition carried_duties (spec : ConvoySpec) (r : gset DutyId) : gmap DutyId Duty :=
  filter (fun p => p.1 ∈ holding spec r) (duties spec).

Definition rollover (state : ConvoyState) (_ : Rollover) : H ConvoyState :=
  do! h := @ask sig in
  let before := h_spec h in
  do! _ := @h_write sig (WGenerationSeats (seats before) (carried_seats before)) in
  do! _ := @h_write sig (WGenerationPromises (promises before)) in
  do! _ := @h_write sig (WGenerationDuties (duties before) (carried_duties before (retired state))) in
  do! _ := @h_write sig (WPromiseFloor (next_floor before)) in
  hret (match state with Open q _ => Open q ∅ | other => other end).

(** * The declaration *)

Local Open Scope flotilla_scope.

Definition declare_edge_ : EdgeDef sig Declare_ :=
  edge_new |> from [LOpen] |> to [LOpen] |> writes ["promises"]
  |> gate "a new promise id, owned by a seat" gate_declare |> effect declare.
Definition submit_edge : EdgeDef sig Submit :=
  edge_new |> from [LOpen] |> to [LOpen] |> writes ["promises"]
  |> gate "the owner submits a durable reference to an open promise" gate_submit |> effect submit.
Definition reject_edge : EdgeDef sig Reject :=
  edge_new |> from [LOpen] |> to [LOpen] |> writes ["promises"]
  |> gate "the promise is Submitted" gate_reject
  |> effect (fun state a => progress (rj_promise a) Pending state).
Definition kept_promise (a : Keep) : PromiseId := match a with Observed p _ | Verdict p _ _ _ => p end.
Definition keep_edge : EdgeDef sig Keep :=
  edge_new |> from [LOpen] |> to [LOpen] |> writes ["promises"]
  |> gate "evidence of the current submission, or an authorised verdict with a reason" gate_keep
  |> effect (fun state a => progress (kept_promise a) Kept state).
Definition retract_edge : EdgeDef sig Retract :=
  edge_new |> from [LOpen] |> to [LOpen] |> writes ["promises"]
  |> gate "the promise's source authority retracts it, with a reason" gate_retract
  |> effect (fun state a => progress (rt_promise a) Retracted state).
Definition reassign_edge : EdgeDef sig Reassign :=
  edge_new |> from [LOpen] |> to [LOpen] |> writes ["promises"]
  |> gate "the owner, its supervisor or an operator hands an open promise to a seat" gate_reassign |> effect reassign.
Definition retire_duty_edge : EdgeDef sig RetireDuty :=
  edge_new |> from [LOpen] |> to [LOpen] |> changes ["retired"]
  |> gate "an authorised retirement of a holding lifetime duty" gate_retire_duty |> effect retire_duty.
Definition add_seat_edge : EdgeDef sig AddSeat :=
  edge_new |> from [LOpen] |> to [LOpen] |> writes ["seats"]
  |> gate "an authorised new seat under an existing one" gate_add_seat |> effect add_seat.
Definition resupervise_edge : EdgeDef sig Resupervise :=
  edge_new |> from [LOpen] |> to [LOpen] |> writes ["seats"]
  |> gate "an authorised change of a seat's supervisor" gate_resupervise |> effect resupervise.
Definition retire_seat_edge : EdgeDef sig RetireSeat :=
  edge_new |> from [LOpen] |> to [LOpen] |> writes ["seats"]
  |> gate "authorised, known, live, with no open promises or live duties" gate_retire_seat |> effect retire_seat.
Definition replace_seat_edge : EdgeDef sig ReplaceSeat :=
  edge_new |> from [LOpen] |> to [LOpen] |> writes ["seats"]
  |> gate "a live seat below its replacement limit" gate_replace_seat |> effect replace_seat.
Definition rollover_edge : EdgeDef sig Rollover :=
  edge_new |> from [LOpen] |> to [LOpen] |> writes ["seats"; "promises"; "duties"; "promise_floor"] |> changes ["retired"]
  |> gate "authorised standing convoy with no open promises" gate_rollover |> effect rollover.
Definition deliver_edge : EdgeDef sig Deliver :=
  edge_new |> from [LOpen] |> to [LDelivered]
  |> gate "nothing open and no lifetime duty holding" gate_deliver |> effect deliver.
Definition abandon_edge : EdgeDef sig Abandon :=
  edge_new |> from [LOpen] |> to [LAbandoned] |> changes ["reason"]
  |> gate "an authorised decision with a reason" gate_abandon |> effect abandon.
Definition readmit_edge : EdgeDef sig Readmit :=
  edge_new |> from [LOpen] |> to [LOpen] |> changes ["quota"]
  |> gate "an authorised quota over the same classes, no count lower" gate_readmit |> effect readmit.

Definition convoy_definition : MachineDef sig :=
  @def_new sig LOpen
  |> def_edge declare_edge_ |> def_edge submit_edge |> def_edge reject_edge |> def_edge keep_edge |> def_edge retract_edge
  |> def_edge reassign_edge |> def_edge retire_duty_edge |> def_edge add_seat_edge |> def_edge resupervise_edge
  |> def_edge retire_seat_edge |> def_edge replace_seat_edge |> def_edge rollover_edge |> def_edge deliver_edge
  |> def_edge abandon_edge |> def_edge readmit_edge
  |> def_end LDelivered "the convoy delivered its work" |> def_end LAbandoned "the convoy was abandoned".

#[export] Instance machine : Machine sig := {| definition := convoy_definition; admits := convoy_admit |}.

Lemma convoy_validates : validate (definition sig) = Ok tt.
Proof. vm_compute. reflexivity. Qed.

End Convoy.
