(* ===== verification/Consumer.v ===== *)
(** Consumers of an inbox
    ([crates/flotilla-state-machines/src/machines/consumer.rs], [person.rs] and
    the [Transport] of [record.rs]): typed receivers, the interface a consuming
    machine offers to the receipt reader, and the person consumer. *)

From S2P Require Import Prelude Schema Read Machine Validate Engine Log Home Attempt Steps.

(** * Receivers *)

(** How a turn reached its consumer. *)
Inductive Transport : Type := Turn | Notify | Mute.
#[export] Instance Transport_eq_dec : EqDecision Transport.
Proof. solve_decision. Defined.

Inductive ConsumerKind : Type := CAgentSession | CController | CPerson.
#[export] Instance ConsumerKind_eq_dec : EqDecision ConsumerKind.
Proof. solve_decision. Defined.
#[export] Instance ConsumerKind_countable : Countable ConsumerKind.
Proof.
  apply (inj_countable
    (fun k => match k with CAgentSession => 0%nat | CController => 1%nat | CPerson => 2%nat end)
    (fun n => match n with 0%nat => Some CAgentSession | 1%nat => Some CController | 2%nat => Some CPerson | _ => None end)).
  by intros [].
Defined.

(** The consumer a receipt came from: its kind, its resource's name and its home. *)
Record Receiver : Type := mkReceiver { rc_kind : ConsumerKind; rc_id : string; rc_host : string }.
#[export] Instance Receiver_eq_dec : EqDecision Receiver.
Proof. solve_decision. Defined.
#[export] Instance Receiver_countable : Countable Receiver.
Proof.
  apply (inj_countable' (fun r => (rc_kind r, rc_id r, rc_host r)) (fun p => mkReceiver p.1.1 p.1.2 p.2)).
  by intros [].
Defined.

(** * The interface *)

(** A machine whose resource consumes inboxes. The receipt reader relies on
    [RECEIVE] naming the one edge [receipt] recognises, and the message's gates
    on that edge being a self edge about the message it took. *)
Class Consumer (M : MachineSig) `{!Machine M} : Type := {
  CONSUMER : ConsumerKind;
  RECEIVE : EdgeKind M;
  receipt : Edge M -> option (string * Transport);
  receipt_iff : forall e, is_Some (receipt e) <-> edge_kind M e = RECEIVE;
  receipt_master : forall e message t, receipt e = Some (message, t) ->
    exists d, find (definition M) RECEIVE = Some d /\ (de_master d ≫= fun master => master e) = Some message;
  receipt_self : exists d, find (definition M) RECEIVE = Some d /\ de_to d = de_from d /\ de_changes d = [] /\
    exists reason, de_check d = Some (CheckUngated reason);
}.
Arguments CONSUMER M {_ _}.
Arguments RECEIVE M {_ _}.
Arguments receipt {M _ _}.

(** * The person consumer *)

Module Person.

Inductive PersonState : Type :=
| Active.

Inductive PersonLabel : Type := LActive.
#[export] Instance PersonLabel_eq_dec : EqDecision PersonLabel.
Proof. solve_decision. Defined.

#[export] Program Instance person_label_coded : Coded PersonLabel := {|
  coded_ALL := [LActive];
  coded_name l := match l with LActive => "Active" end;
  coded_code l := match l with LActive => "ac" end;
|}.
Next Obligation. coded_complete_tac. Qed.
Next Obligation. coded_nodup_tac. Qed.

Inductive PersonDatum : Type := .
#[export] Instance PersonDatum_eq_dec : EqDecision PersonDatum.
Proof. solve_decision. Defined.

Definition person_label (s : PersonState) : PersonLabel := match s with Active => LActive end.
Definition person_data (s : PersonState) : list (string * PersonDatum) := match s with Active => [] end.
Definition person_fields (l : PersonLabel) : list string := match l with LActive => [] end.

(** The person acknowledged or answered a message. *)
Record Receive : Type := mkReceive { rv_message : string; rv_transport : Transport }.

Inductive PersonEdge : Type :=
| EReceive (a : Receive).

Inductive PersonEdgeKind : Type := KReceive.
#[export] Instance PersonEdgeKind_eq_dec : EqDecision PersonEdgeKind.
Proof. solve_decision. Defined.

#[export] Program Instance person_kind_coded : Coded PersonEdgeKind := {|
  coded_ALL := [KReceive];
  coded_name k := match k with KReceive => "receive" end;
  coded_code k := match k with KReceive => "rv" end;
|}.
Next Obligation. coded_complete_tac. Qed.
Next Obligation. coded_nodup_tac. Qed.

Definition person_edge_kind (e : PersonEdge) : PersonEdgeKind := match e with EReceive _ => KReceive end.

Inductive PersonRefusal : Type := PWrongState.

(** A person's identity is its name; it reads nothing. *)
Record PersonSpec : Type := mkSpec { }.
Definition PersonWorld : Type := unit.

Definition sig : MachineSig := {|
  M_NAME := "Person";
  Request := unit;
  Spec := PersonSpec;
  MState := PersonState;
  Label := PersonLabel;
  Datum := PersonDatum;
  Edge := PersonEdge;
  EdgeKind := PersonEdgeKind;
  Write := NoRecords;
  Refusal := PersonRefusal;
  World := PersonWorld;
  label := person_label;
  data := person_data;
  fields := person_fields;
  edge_kind := person_edge_kind;
  write_field := no_records_field;
  write_apply := no_records_apply;
  of_ended e := PWrongState;
  of_wrong_state e := PWrongState;
|}.

#[export] Instance arg_receive : EdgeArg sig Receive :=
  edge_arg sig KReceive (fun e => match e with EReceive a => Some a end) EReceive.

Local Open Scope flotilla_scope.

Definition receive_edge : EdgeDef sig Receive :=
  edge_new |> from [LActive] |> to [LActive]
  |> about rv_message
  |> ungated "an acknowledgement or answer reports a message the person took; the message's own gates judge it"
  |> effect (fun state _ => hret state).

Definition person_definition : MachineDef sig := @def_new sig LActive |> def_edge receive_edge.

Definition person_admit (_ : unit) : AM sig (PersonSpec * PersonState) := aret (mkSpec, Active).

#[export] Instance machine : Machine sig := {| definition := person_definition; admits := person_admit |}.
#[export] Instance stamped : StampedWrites sig.
Proof. no_records. Defined.

Definition person_receipt (e : PersonEdge) : option (string * Transport) :=
  match e with EReceive a => Some (rv_message a, rv_transport a) end.

#[export] Program Instance consumer : Consumer sig := {|
  CONSUMER := CPerson;
  RECEIVE := KReceive : EdgeKind sig;
  receipt := person_receipt;
|}.
Next Obligation. intros [a]. split; [done|by eexists]. Qed.
Next Obligation. intros [a] message t [= <- <-]. by eexists. Qed.
Next Obligation. eexists. split; [reflexivity|]. repeat split. by eexists. Qed.

Lemma person_validates : validate (definition sig) = Ok tt.
Proof. vm_compute. reflexivity. Qed.
End Person.
