(* ===== verification/AgentSession.v ===== *)
(** The agent session ([crates/flotilla-state-machines/src/machines/agent_session.rs]):
    live with a channel that attaches and detaches as observed, the activity
    hooks report, receipts, and its observed end; and its refinement of
    [specs/primitives/machines/agent_session.qnt]. *)

From S2P Require Import Prelude Schema Read Machine Validate Engine Log Home Attempt Steps Consumer.

Module AgentSession.

(** * States *)

Inductive Channel : Type := Detached | Attached.
#[export] Instance Channel_eq_dec : EqDecision Channel.
Proof. solve_decision. Defined.
Inductive EndReason : Type := Completed | Lost.
#[export] Instance EndReason_eq_dec : EqDecision EndReason.
Proof. solve_decision. Defined.
Inductive Activity : Type := Working | Idle | Interrupted.
#[export] Instance Activity_eq_dec : EqDecision Activity.
Proof. solve_decision. Defined.

(** The latest hook observation. *)
Record ActivityObservation : Type := mkObservation { ao_activity : Activity; ao_since : Timestamp; ao_cause : string }.
#[export] Instance ActivityObservation_eq_dec : EqDecision ActivityObservation.
Proof. solve_decision. Defined.

Inductive AgentSessionState : Type :=
| Live (channel : Channel) (activity : option Activity) (activity_since : option Timestamp) (activity_cause : option string)
| Ended (reason : EndReason) (activity : option Activity) (activity_since : option Timestamp) (activity_cause : option string).

Inductive AgentSessionLabel : Type := LLive | LEnded.
#[export] Instance AgentSessionLabel_eq_dec : EqDecision AgentSessionLabel.
Proof. solve_decision. Defined.

#[export] Program Instance agent_session_label_coded : Coded AgentSessionLabel := {|
  coded_ALL := [LLive; LEnded];
  coded_name l := match l with LLive => "Live" | LEnded => "Ended" end;
  coded_code l := match l with LLive => "li" | LEnded => "en" end;
|}.
Next Obligation. coded_complete_tac. Qed.
Next Obligation. coded_nodup_tac. Qed.

Inductive AgentSessionDatum : Type :=
| DChannel (v : Channel)
| DActivity (v : option Activity)
| DSince (v : option Timestamp)
| DText (v : option string)
| DReason (v : EndReason).
#[export] Instance AgentSessionDatum_eq_dec : EqDecision AgentSessionDatum.
Proof. solve_decision. Defined.

Definition agent_session_label (s : AgentSessionState) : AgentSessionLabel :=
  match s with Live _ _ _ _ => LLive | Ended _ _ _ _ => LEnded end.

Definition agent_session_data (s : AgentSessionState) : list (string * AgentSessionDatum) :=
  match s with
  | Live x0 x1 x2 x3 => [("channel", DChannel x0); ("activity", DActivity x1); ("activity_since", DSince x2); ("activity_cause", DText x3)]
  | Ended x0 x1 x2 x3 => [("reason", DReason x0); ("activity", DActivity x1); ("activity_since", DSince x2); ("activity_cause", DText x3)]
  end.

Definition agent_session_fields (l : AgentSessionLabel) : list string :=
  match l with
  | LLive => ["channel"; "activity"; "activity_since"; "activity_cause"]
  | LEnded => ["reason"; "activity"; "activity_since"; "activity_cause"]
  end.

Definition session_activity (s : AgentSessionState) : option Activity * option Timestamp * option string :=
  match s with Live _ a t c | Ended _ a t c => (a, t, c) end.

(** [AgentSessionState::observation]: present when its three data all are. *)
Definition observation (s : AgentSessionState) : option ActivityObservation :=
  let '(a, t, c) := session_activity s in
  match a, t, c with Some a, Some t, Some c => Some (mkObservation a t c) | _, _, _ => None end.

Definition with_observation (s : AgentSessionState) (o : option ActivityObservation) : AgentSessionState :=
  match s with
  | Live channel _ _ _ => Live channel (ao_activity <$> o) (ao_since <$> o) (ao_cause <$> o)
  | Ended reason _ _ _ => Ended reason (ao_activity <$> o) (ao_since <$> o) (ao_cause <$> o)
  end.

Definition live (c : Channel) : AgentSessionState := Live c None None None.
Definition ended (r : EndReason) : AgentSessionState := Ended r None None None.
Definition channel (s : AgentSessionState) : option Channel := match s with Live c _ _ _ => Some c | Ended _ _ _ _ => None end.
Definition session_end_reason (s : AgentSessionState) : option EndReason :=
  match s with Ended r _ _ _ => Some r | Live _ _ _ _ => None end.

(** * Kinds read *)

Inductive SessionEnd : Type := .
Inductive ChannelPresence : Type := .
#[export] Instance session_end_kind : Kind SessionEnd := {| kind_NAME := "session_end"; kind_Value := EndReason |}.
#[export] Instance channel_presence_kind : Kind ChannelPresence := {| kind_NAME := "channel_presence"; kind_Value := bool |}.

(** [dyn AgentSessionWorld]: a source of each kind. *)
Record AgentSessionWorld : Type := mkWorld {
  w_session_end : Ref SessionEnd -> option (Version * EndReason);
  w_channel_presence : Ref ChannelPresence -> option (Version * bool);
}.
#[export] Instance source_session_end : Source AgentSessionWorld SessionEnd := w_session_end.
#[export] Instance source_channel_presence : Source AgentSessionWorld ChannelPresence := w_channel_presence.

(** [MemoryAgentSessionWorld]. *)
Record MemoryAgentSessionWorld : Type := mkMemoryWorld { ends : Table SessionEnd; channels : Table ChannelPresence }.
Definition memory_world (w : MemoryAgentSessionWorld) : AgentSessionWorld :=
  mkWorld (table_lookup (ends w)) (table_lookup (channels w)).

(** * Edges *)

Record Attach : Type := mkAttach { at_observed : Ref ChannelPresence }.
Record Detach : Type := mkDetach { dt_observed : Ref ChannelPresence }.
Record End_ : Type := mkEnd { en_reason : EndReason; en_observed : Ref SessionEnd }.
Record Receive : Type := mkReceive { rv_message : string; rv_transport : Transport }.
Record Observe : Type := mkObserve { os_activity : Activity; os_cause : string }.

Inductive AgentSessionEdge : Type :=
| EAttach (a : Attach)
| EDetach (a : Detach)
| EEnd_ (a : End_)
| EReceive (a : Receive)
| EObserve (a : Observe).

Inductive AgentSessionEdgeKind : Type := KAttach | KDetach | KEnd_ | KReceive | KObserve.
#[export] Instance AgentSessionEdgeKind_eq_dec : EqDecision AgentSessionEdgeKind.
Proof. solve_decision. Defined.

#[export] Program Instance agent_session_kind_coded : Coded AgentSessionEdgeKind := {|
  coded_ALL := [KAttach; KDetach; KEnd_; KReceive; KObserve];
  coded_name k := match k with KAttach => "attach" | KDetach => "detach" | KEnd_ => "end" | KReceive => "receive" | KObserve => "observe" end;
  coded_code k := match k with KAttach => "at" | KDetach => "de" | KEnd_ => "en" | KReceive => "rv" | KObserve => "ob" end;
|}.
Next Obligation. coded_complete_tac. Qed.
Next Obligation. coded_nodup_tac. Qed.

Definition agent_session_edge_kind (e : AgentSessionEdge) : AgentSessionEdgeKind :=
  match e with EAttach _ => KAttach | EDetach _ => KDetach | EEnd_ _ => KEnd_ | EReceive _ => KReceive | EObserve _ => KObserve end.

Inductive AgentSessionRefusal : Type := AlreadyEnded | WrongChannel | MissingEvidence | UnchangedActivity.

(** The session's name is its identity. *)
Record AgentSessionSpec : Type := mkSpec { }.

Definition sig : MachineSig := {|
  M_NAME := "AgentSession";
  Request := unit;
  Spec := AgentSessionSpec;
  MState := AgentSessionState;
  Label := AgentSessionLabel;
  Datum := AgentSessionDatum;
  Edge := AgentSessionEdge;
  EdgeKind := AgentSessionEdgeKind;
  Write := NoRecords;
  Refusal := AgentSessionRefusal;
  World := AgentSessionWorld;
  label := agent_session_label;
  data := agent_session_data;
  fields := agent_session_fields;
  edge_kind := agent_session_edge_kind;
  write_field := no_records_field;
  write_apply := no_records_apply;
  of_ended e := AlreadyEnded;
  of_wrong_state e := AlreadyEnded;
|}.

#[export] Instance arg_attach : EdgeArg sig Attach :=
  edge_arg sig KAttach (fun e => match e with EAttach a => Some a | _ => None end) EAttach.
#[export] Instance arg_detach : EdgeArg sig Detach :=
  edge_arg sig KDetach (fun e => match e with EDetach a => Some a | _ => None end) EDetach.
#[export] Instance arg_end_ : EdgeArg sig End_ :=
  edge_arg sig KEnd_ (fun e => match e with EEnd_ a => Some a | _ => None end) EEnd_.
#[export] Instance arg_receive : EdgeArg sig Receive :=
  edge_arg sig KReceive (fun e => match e with EReceive a => Some a | _ => None end) EReceive.
#[export] Instance arg_observe : EdgeArg sig Observe :=
  edge_arg sig KObserve (fun e => match e with EObserve a => Some a | _ => None end) EObserve.

(** * Gates and effects *)

Abbreviation H := (HM sig) (only parsing).
Abbreviation G := (GM sig) (only parsing).
Abbreviation read_session_end := (@h_read sig SessionEnd session_end_kind source_session_end) (only parsing).
Abbreviation read_channel_presence := (@h_read sig ChannelPresence channel_presence_kind source_channel_presence) (only parsing).

Definition gate_attach (edge : Attach) : G unit :=
  let! h := @ask sig in
  if bool_decide (channel (h_state h) <> Some Detached) then refuse WrongChannel
  else
    let! present := read_channel_presence (at_observed edge) in
    if bool_decide (present = Some true) then gret tt else refuse MissingEvidence.

Definition gate_detach (edge : Detach) : G unit :=
  let! h := @ask sig in
  if bool_decide (channel (h_state h) <> Some Attached) then refuse WrongChannel
  else
    let! present := read_channel_presence (dt_observed edge) in
    if bool_decide (present = Some false) then gret tt else refuse MissingEvidence.

Definition gate_end (edge : End_) : G unit :=
  let! e := read_session_end (en_observed edge) in
  if bool_decide (e = Some (en_reason edge)) then gret tt else refuse MissingEvidence.

Definition gate_observe (edge : Observe) : G unit :=
  let! h := @ask sig in
  if match observation (h_state h) with Some old => bool_decide (ao_activity old = os_activity edge) | None => false end
  then refuse UnchangedActivity else gret tt.

(** The effect's [expect] names the label check: only a live session has a channel. *)
Definition observe (state : AgentSessionState) (edge : Observe) : H AgentSessionState :=
  do! h := @ask sig in
  hret match channel state with
    | Some c => with_observation (live c) (Some (mkObservation (os_activity edge) (h_now h) (os_cause edge)))
    | None => state
    end.

(** * The declaration *)

Local Open Scope flotilla_scope.

Definition attach_edge : EdgeDef sig Attach :=
  edge_new |> from [LLive] |> to [LLive] |> changes ["channel"]
  |> gate "the channel is detached and is observed present" gate_attach
  |> effect (fun state _ => hret (with_observation (live Attached) (observation state))).
Definition detach_edge : EdgeDef sig Detach :=
  edge_new |> from [LLive] |> to [LLive] |> changes ["channel"]
  |> gate "the channel is attached and is observed absent" gate_detach
  |> effect (fun state _ => hret (with_observation (live Detached) (observation state))).
Definition receive_edge : EdgeDef sig Receive :=
  edge_new |> from [LLive] |> to [LLive]
  |> about rv_message
  |> ungated "a receipt reports a turn the consumer took; the message's own gates judge it"
  |> effect (fun state _ => hret state).
Definition observe_edge : EdgeDef sig Observe :=
  edge_new |> from [LLive] |> to [LLive] |> changes ["activity"; "activity_since"; "activity_cause"]
  |> gate "the observed activity differs from the current activity" gate_observe
  |> effect observe.
Definition end_edge : EdgeDef sig End_ :=
  edge_new |> from [LLive] |> to [LEnded] |> changes ["reason"]
  |> gate "the session's end is observed with this reason" gate_end
  |> effect (fun state a => hret (with_observation (ended (en_reason a)) (observation state))).

Definition session_definition : MachineDef sig :=
  @def_new sig LLive
  |> def_edge attach_edge |> def_edge detach_edge |> def_edge receive_edge
  |> def_edge observe_edge |> def_edge end_edge
  |> def_end LEnded "the session has ended".

Definition session_admit (_ : unit) : AM sig (AgentSessionSpec * AgentSessionState) := aret (mkSpec, live Detached).

#[export] Instance machine : Machine sig := {| definition := session_definition; admits := session_admit |}.
#[export] Instance stamped : StampedWrites sig.
Proof. no_records. Defined.

Definition session_receipt (e : AgentSessionEdge) : option (string * Transport) :=
  match e with EReceive a => Some (rv_message a, rv_transport a) | _ => None end.

#[export] Program Instance consumer : Consumer sig := {|
  CONSUMER := CAgentSession;
  RECEIVE := KReceive : EdgeKind sig;
  receipt := session_receipt;
|}.
Next Obligation. intros [a|a|a|a|a]; cbn; (split; [intros [? ?]; done|intros ?; first [done|by eexists]]). Qed.
Next Obligation. intros [a|a|a|a|a] message t Hr; try done. injection Hr as <- <-. by eexists. Qed.
Next Obligation. eexists. split; [reflexivity|]. repeat split. by eexists. Qed.

Lemma session_validates : validate (definition sig) = Ok tt.
Proof. vm_compute. reflexivity. Qed.

(** * Steps *)

Definition declared (e : AgentSessionEdge) : DeclaredEdge sig :=
  match e with
  | EAttach _ => declare_edge attach_edge
  | EDetach _ => declare_edge detach_edge
  | EEnd_ _ => declare_edge end_edge
  | EReceive _ => declare_edge receive_edge
  | EObserve _ => declare_edge observe_edge
  end.

Lemma session_find (e : AgentSessionEdge) : find (definition sig) (edge_kind sig e) = Some (declared e).
Proof. by destruct e. Qed.

(** An observation is whole: its three data are there together. Only then does
    carrying it over leave them unchanged. *)
Definition whole (s : AgentSessionState) : Prop := with_observation s (observation s) = s.

Lemma whole_with_observation s o : whole (with_observation s o).
Proof. unfold whole. destruct s, o; reflexivity. Qed.

Definition present (w : AgentSessionWorld) (r : Ref ChannelPresence) : option bool :=
  @seen _ ChannelPresence channel_presence_kind source_channel_presence w r.
Definition observed_end (w : AgentSessionWorld) (r : Ref SessionEnd) : option EndReason :=
  @seen _ SessionEnd session_end_kind source_session_end w r.

Definition attach_ok (w : AgentSessionWorld) (s : AgentSessionState) (a : Attach) : result AgentSessionRefusal unit :=
  if bool_decide (channel s <> Some Detached) then Err WrongChannel
  else if bool_decide (present w (at_observed a) = Some true) then Ok tt else Err MissingEvidence.
Definition detach_ok (w : AgentSessionWorld) (s : AgentSessionState) (a : Detach) : result AgentSessionRefusal unit :=
  if bool_decide (channel s <> Some Attached) then Err WrongChannel
  else if bool_decide (present w (dt_observed a) = Some false) then Ok tt else Err MissingEvidence.
Definition end_ok (w : AgentSessionWorld) (a : End_) : result AgentSessionRefusal unit :=
  if bool_decide (observed_end w (en_observed a) = Some (en_reason a)) then Ok tt else Err MissingEvidence.
Definition observe_ok (s : AgentSessionState) (a : Observe) : result AgentSessionRefusal unit :=
  if match observation s with Some old => bool_decide (ao_activity old = os_activity a) | None => false end
  then Err UnchangedActivity else Ok tt.

Lemma gate_attach_reads a : reads_only (gate_attach a).
Proof. unfold gate_attach. reads_only_tac. Qed.
Lemma gate_attach_val a h : (gate_attach a h).1 = attach_ok (h_world h) (h_state h) a.
Proof. unfold gate_attach, attach_ok, glet, ask. cbn. case_bool_decide; [done|]. unfold present. cbn. by case_bool_decide. Qed.
Lemma gate_detach_reads a : reads_only (gate_detach a).
Proof. unfold gate_detach. reads_only_tac. Qed.
Lemma gate_detach_val a h : (gate_detach a h).1 = detach_ok (h_world h) (h_state h) a.
Proof. unfold gate_detach, detach_ok, glet, ask. cbn. case_bool_decide; [done|]. unfold present. cbn. by case_bool_decide. Qed.
Lemma gate_end_reads a : reads_only (gate_end a).
Proof. unfold gate_end. reads_only_tac. Qed.
Lemma gate_end_val a h : (gate_end a h).1 = end_ok (h_world h) a.
Proof. unfold gate_end, end_ok, glet, observed_end. cbn. by case_bool_decide. Qed.
Lemma gate_observe_reads a : reads_only (gate_observe a).
Proof. unfold gate_observe. reads_only_tac. Qed.
Lemma gate_observe_val a h : (gate_observe a h).1 = observe_ok (h_state h) a.
Proof. unfold gate_observe, observe_ok, glet, ask. cbn. by destruct (match observation _ with Some _ => _ | None => _ end). Qed.

(** What a step does, on every branch. *)
Definition session_next (w : AgentSessionWorld) (now : Timestamp) (s : AgentSessionState) (e : AgentSessionEdge) :
    result AgentSessionRefusal AgentSessionState :=
  match s, e with
  | Ended _ _ _ _, _ => Err AlreadyEnded
  | Live _ a t c, EAttach x => _ ← attach_ok w s x; Ok (Live Attached a t c)
  | Live _ a t c, EDetach x => _ ← detach_ok w s x; Ok (Live Detached a t c)
  | Live _ _ _ _, EReceive _ => Ok s
  | Live ch _ _ _, EObserve x => _ ← observe_ok s x; Ok (Live ch (Some (os_activity x)) (Some now) (Some (os_cause x)))
  | Live _ a t c, EEnd_ x => _ ← end_ok w x; Ok (Ended (en_reason x) a t c)
  end.
#[local] Arguments attach_ok : simpl never.
#[local] Arguments detach_ok : simpl never.
#[local] Arguments end_ok : simpl never.
#[local] Arguments observe_ok : simpl never.

Lemma whole_cases (c : Channel) a t cause : whole (Live c a t cause) ->
  (a = None /\ t = None /\ cause = None) \/ exists a' t' cause', a = Some a' /\ t = Some t' /\ cause = Some cause'.
Proof. unfold whole. destruct a, t, cause; cbn; intros [=]; eauto 10. Qed.

Lemma session_step_next (r : Resource sig) (edge : AgentSessionEdge) (world : AgentSessionWorld) now : whole (value (r_state r)) ->
  (step (definition sig) edge (handle_on r world now)).1 =
  map_err (@Refused sig) (session_next world now (value (r_state r)) edge).
Proof.
  destruct r as [name spec [s since] version]. cbn -[step definition session_next whole]. intros Hw.
  destruct s as [ch a t c|re a t c]; [|destruct edge; step_is_ended; reflexivity].
  destruct (whole_cases _ _ _ _ Hw) as [(-> & -> & ->)|(a' & t' & c' & -> & -> & ->)]; destruct edge;
    try (step_is_ungated session_find; reflexivity);
    first [ step_by_gate session_find gate_attach gate_attach_val gate_attach_reads
          | step_by_gate session_find gate_detach gate_detach_val gate_detach_reads
          | step_by_gate session_find gate_observe gate_observe_val gate_observe_reads
          | step_by_gate session_find gate_end gate_end_val gate_end_reads ].
Qed.

(** * The abstract machine: [specs/primitives/machines/agent_session.qnt] *)

Inductive Observation : Type := Unobserved | Observed (activity : Activity) (since : Z) (cause : string).
Inductive QState : Type := QLive (c : Channel) (o : Observation) | QEnded (r : EndReason) (o : Observation).
Inductive Event : Type :=
| QAttach (channelPresent : bool)
| QDetach (channelAbsent : bool)
| QObserve (activity : Activity) (at_ : Z) (cause : string)
| QEnd (r : EndReason) (observed : bool)
| QReceive (message : string) (transport : Transport).
Inductive Next : Type := Moved (s : QState) | QRefused (r : AgentSessionRefusal).

Definition sameActivity (o : Observation) (activity : Activity) : bool :=
  match o with Unobserved => false | Observed old _ _ => bool_decide (old = activity) end.

Definition qstep (s : QState) (e : Event) : Next :=
  match s with
  | QEnded _ _ => QRefused AlreadyEnded
  | QLive ch obs =>
      match e with
      | QAttach channelPresent =>
          if bool_decide (ch <> Detached) then QRefused WrongChannel
          else if channelPresent then Moved (QLive Attached obs) else QRefused MissingEvidence
      | QDetach channelAbsent =>
          if bool_decide (ch <> Attached) then QRefused WrongChannel
          else if channelAbsent then Moved (QLive Detached obs) else QRefused MissingEvidence
      | QReceive _ _ => Moved (QLive ch obs)
      | QObserve activity at_ cause =>
          if sameActivity obs activity then QRefused UnchangedActivity else Moved (QLive ch (Observed activity at_ cause))
      | QEnd r observed => if observed then Moved (QEnded r obs) else QRefused MissingEvidence
      end
  end.

(** [initial(Detached)]. *)
Definition q_start : QState := QLive Detached Unobserved.
Definition q_move (q q' : QState) : Prop := exists e, qstep q e = Moved q'.

(** * Refinement *)

Definition abs_observation (s : AgentSessionState) : Observation :=
  match observation s with Some o => Observed (ao_activity o) (ao_since o) (ao_cause o) | None => Unobserved end.
Definition abs_state (s : AgentSessionState) : QState :=
  match s with Live c _ _ _ => QLive c (abs_observation s) | Ended r _ _ _ => QEnded r (abs_observation s) end.

Definition abs_event (w : AgentSessionWorld) (now : Timestamp) (e : AgentSessionEdge) : Event :=
  match e with
  | EAttach a => QAttach (bool_decide (present w (at_observed a) = Some true))
  | EDetach a => QDetach (bool_decide (present w (dt_observed a) = Some false))
  | EEnd_ a => QEnd (en_reason a) (bool_decide (observed_end w (en_observed a) = Some (en_reason a)))
  | EReceive a => QReceive (rv_message a) (rv_transport a)
  | EObserve a => QObserve (os_activity a) now (os_cause a)
  end.

Definition abs_next (r : result (StepError sig) AgentSessionState) : option Next :=
  match r with
  | Ok s => Some (Moved (abs_state s))
  | Err (Refused rf) => Some (QRefused rf)
  | Err (Faulted _) => None
  end.

Lemma session_refines_core w now s e : whole s ->
  abs_next (map_err (@Refused sig) (session_next w now s e)) = Some (qstep (abs_state s) (abs_event w now e)).
Proof.
  destruct s as [ch a t c|re a t c]; [|done]. intros Hw.
  destruct e as [x|x|x|x|x]; cbn -[observation]; unfold attach_ok, detach_ok, end_ok, observe_ok; cbn [channel].
  - destruct ch; repeat (case_bool_decide; try done).
  - destruct ch; repeat (case_bool_decide; try done).
  - by case_bool_decide.
  - done.
  - destruct (whole_cases _ _ _ _ Hw) as [(-> & -> & ->)|(a' & t' & c' & -> & -> & ->)]; cbn; [done|]. by case_bool_decide.
Qed.

(** * Invariants *)

(** Whole, and reached by the abstract machine. *)
Definition session_inv (_ : AgentSessionSpec) (s : AgentSessionState) : Prop := whole s /\ rtc q_move q_start (abs_state s).

Lemma session_next_whole w now s e s' : whole s -> session_next w now s e = Ok s' -> whole s'.
Proof.
  intros Hw Hn. destruct s as [ch a t c|re a t c]; [|done].
  destruct (whole_cases _ _ _ _ Hw) as [(-> & -> & ->)|(a' & t' & c' & -> & -> & ->)], e; cbn in Hn; try (by simplify_eq);
    match type of Hn with context [?g ≫= _] => destruct g end; cbn in Hn; by simplify_eq.
Qed.

#[export] Instance session_machine_inv : MachineInv sig (fun _ => True) session_inv.
Proof.
  apply (machine_inv_by_next sig (fun _ _ => session_next)); [by intros []|intros ???? [Hw _]; by apply session_step_next| |].
  - intros request world now spec state ad _ H. injection H as <- <- <-. split; [done|apply rtc_refl].
  - intros _ spec w now s e s' [Hw Hq] Hn. split; [by eapply session_next_whole|].
    pose proof (session_refines_core w now s e Hw) as H. rewrite Hn in H. injection H as H.
    eapply rtc_r; [exact Hq|]. by exists (abs_event w now e).
Qed.

(** * Properties *)

(** C37: a step of an agent session whose observation is whole agrees with its
    specification: both move, to the same abstract state, or both refuse, with
    the same refusal; and no step faults. *)
Theorem session_step_refines (r : Resource sig) (edge : AgentSessionEdge) (world : AgentSessionWorld) now :
  whole (value (r_state r)) ->
  abs_next (step (definition sig) (edge : Edge sig) (handle_on r (world : World sig) now)).1 =
  Some (qstep (abs_state (value (r_state r))) (abs_event world now edge)).
Proof. intros Hw. rewrite session_step_next by done. by apply session_refines_core. Qed.

Definition sample_session : Resource sig :=
  mkResource "s" (mkSpec : Spec sig) (mkState (Live Detached (Some Working) (Some 3) (Some "prompt") : MState sig) 0) 1.
Definition sample_world : AgentSessionWorld :=
  memory_world (mkMemoryWorld table_new (table_put (table_new (K := ChannelPresence)) (mkRef "c") true).2).

Lemma session_step_refines_witness :
  abs_next (step (definition sig) (EAttach (mkAttach (mkRef "c")) : Edge sig) (handle_on sample_session (sample_world : World sig) 5)).1 =
  Some (Moved (QLive Attached (Observed Working 3 "prompt"))).
Proof.
  etrans; [apply (session_step_refines sample_session (EAttach (mkAttach (mkRef "c"))) sample_world 5)|].
  - reflexivity.
  - vm_compute. reflexivity.
Defined.

(** in every home of agent sessions reached by creating, applying, evicting
    and restoring, each session's observation is whole and stands for a state
    the specification reaches. *)
Theorem session_homes_refine {L} `{!Log sig L, !LogLaws sig L} writer log (h0 h : Home sig L) name r :
  with_log writer log = Ok h0 ->
  rtc (home_step (fun _ => True) (resource_ok (M := sig) session_inv)) h0 h -> home_resources h !! name = Some r ->
  whole (value (r_state r)) /\ rtc q_move q_start (abs_state (value (r_state r))).
Proof.
  intros H0 Hr Hl. destruct (home_reachable_ok (M := sig) (fun _ => True) session_inv writer log h0 h H0 Hr) as [_ Hall].
  by destruct (Hall name r Hl) as [_ Hok].
Qed.

Definition sample_home : Home sig (MemoryLog sig) := mkHome "h" (definition sig) ∅ memory_log_new.
Definition sample_created : Home sig (MemoryLog sig) := (create sample_home "s" (tt : Request sig) (sample_world : World sig) 1).2.

Lemma session_homes_refine_witness : exists r, home_resources sample_created !! "s" = Some r /\
  rtc q_move q_start (abs_state (value (r_state r))).
Proof.
  destruct (home_resources sample_created !! "s") as [r|] eqn:Hl; [|vm_compute in Hl; discriminate].
  exists r. split; [reflexivity|]. refine (proj2 (session_homes_refine "h" memory_log_new sample_home sample_created "s" r _ _ Hl)).
  - unfold with_log. rewrite session_validates. reflexivity.
  - eapply rtc_l; [|apply rtc_refl].
    eapply (hs_create _ _ _ "s" (tt : Request sig) (sample_world : World sig) 1 _ sample_created); [done|apply surjective_pairing].
Defined.

End AgentSession.
