(* ===== verification/Message.v ===== *)
(** The message ([crates/flotilla-state-machines/src/machines/message.rs]): one
    queued turn for an inbox's consumer, delivered once on an observed receipt,
    settled on the evidence it expects, dropped only for a recorded reason; and
    its refinement of [specs/primitives/machines/message.qnt]. *)

From S2P Require Import Prelude Schema Read Machine Validate Engine Log Home Attempt Steps Consumer Convoy.

Module Message.

(** * The envelope *)

(** What would settle the message. *)
Inductive Expectation : Type := Nothing | Reply | Outcome (c : Condition).
#[export] Instance Expectation_eq_dec : EqDecision Expectation.
Proof. solve_decision. Defined.

Inductive Relation : Type := Supervisor | Peer | Dependency | Dependee | System.

(** The typed request bodies, and what a message says. *)
Inductive RequestBody : Type := Convoy_ (r : Convoy.ConvoyRequest).
Inductive MessageBody : Type := Text (text : string) | RequestOf (r : RequestBody).

Record MessageReference : Type := mkReference { mr_address : Address; mr_revision : string; mr_subject : bool }.

(** Another message, by name and home. *)
Definition MessageRef : Type := SRef.
#[export] Instance MessageRef_eq_dec : EqDecision MessageRef := _ : EqDecision SRef.

Record MessageSpec : Type := mkSpec {
  sender : Address;
  inbox : Address;
  admitted_seq : Z;
  relation : Relation;
  body : Frozen MessageBody;
  references : list MessageReference;
  in_reply_to : option MessageRef;
  supersedes : option MessageRef;
  expectation : Expectation;
  deadline : option Timestamp;
  unbound_after : Z;
  delivery_condition : option Condition;
}.

(** [MessageSpec::new]. *)
Definition spec_new (sender inbox : Address) (relation : Relation) (body : Frozen MessageBody) : MessageSpec :=
  mkSpec sender inbox 0 relation body [] None None Nothing None 0 None.

(** [MessageSpec::subject]: the one subject reference, if there is exactly one. *)
Definition subject (spec : MessageSpec) : option MessageReference :=
  match List.filter mr_subject (references spec) with [s] => Some s | _ => None end.

(** * States *)

Inductive DropReason : Type :=
| Undeliverable
| Expired
| Superseded (by_ : Address)
| Withdrawn (by_ authority : Address)
| ConsumerUnreachable (by_ authority : Address).
#[export] Instance DropReason_eq_dec : EqDecision DropReason.
Proof. solve_decision. Defined.

Inductive MessageState : Type :=
| Pending
| Awaiting (receiver : Receiver)
| Settled (receiver : option Receiver)
| Dropped (reason : DropReason) (receiver : option Receiver) (watermark : option Timestamp).

Inductive MessageLabel : Type := LPending | LAwaiting | LSettled | LDropped.
#[export] Instance MessageLabel_eq_dec : EqDecision MessageLabel.
Proof. solve_decision. Defined.

#[export] Program Instance message_label_coded : Coded MessageLabel := {|
  coded_ALL := [LPending; LAwaiting; LSettled; LDropped];
  coded_name l := match l with LPending => "Pending" | LAwaiting => "Awaiting" | LSettled => "Settled" | LDropped => "Dropped" end;
  coded_code l := match l with LPending => "pe" | LAwaiting => "aw" | LSettled => "se" | LDropped => "dr" end;
|}.
Next Obligation. coded_complete_tac. Qed.
Next Obligation. coded_nodup_tac. Qed.

Inductive MessageDatum : Type :=
| DReceiver (v : Receiver)
| DReceiverOpt (v : option Receiver)
| DReason (v : DropReason)
| DWatermark (v : option Timestamp).
#[export] Instance MessageDatum_eq_dec : EqDecision MessageDatum.
Proof. solve_decision. Defined.

Definition message_label (s : MessageState) : MessageLabel :=
  match s with Pending => LPending | Awaiting _ => LAwaiting | Settled _ => LSettled | Dropped _ _ _ => LDropped end.

Definition message_data (s : MessageState) : list (string * MessageDatum) :=
  match s with
  | Pending => []
  | Awaiting x0 => [("receiver", DReceiver x0)]
  | Settled x0 => [("receiver", DReceiverOpt x0)]
  | Dropped x0 x1 x2 => [("reason", DReason x0); ("receiver", DReceiverOpt x1); ("watermark", DWatermark x2)]
  end.

Definition message_fields (l : MessageLabel) : list string :=
  match l with
  | LPending => []
  | LAwaiting => ["receiver"]
  | LSettled => ["receiver"]
  | LDropped => ["reason"; "receiver"; "watermark"]
  end.

#[export] Instance MessageState_eq_dec : EqDecision MessageState.
Proof. solve_decision. Defined.

(** [MessageState::receiver], [drop_reason]. *)
Definition receiver_of (s : MessageState) : option Receiver :=
  match s with
  | Awaiting r => Some r
  | Settled r | Dropped _ r _ => r
  | Pending => None
  end.
Definition drop_reason (s : MessageState) : option DropReason := match s with Dropped r _ _ => Some r | _ => None end.

(** * Kinds read *)

(** The consumers bound to an inbox, or since when nobody is. *)
Inductive InboxBinding : Type := Bound (consumers : gset Receiver) | Unbound (since : Timestamp).
Definition binds (b : InboxBinding) (c : Receiver) : bool :=
  match b with Bound consumers => bool_decide (c ∈ consumers) | Unbound _ => false end.

Record Supersedes : Type := mkSupersedes { older : string }.

Inductive Receipts : Type := .
Inductive Binding : Type := .
Inductive AppliedThrough : Type := .
Inductive Reply_ : Type := .
Inductive Condition_ : Type := .
Inductive DeliveryFailure : Type := .
Inductive Supersession : Type := .
Inductive Authority : Type := .
Inductive Sent : Type := .
#[export] Instance receipts_kind : Kind Receipts := {| kind_NAME := "message_receipts"; kind_Value := gmap Receiver Transport |}.
#[export] Instance binding_kind : Kind Binding := {| kind_NAME := "binding"; kind_Value := InboxBinding |}.
#[export] Instance applied_through_kind : Kind AppliedThrough := {| kind_NAME := "applied_through"; kind_Value := Timestamp |}.
#[export] Instance reply_kind : Kind Reply_ := {| kind_NAME := "reply"; kind_Value := unit |}.
#[export] Instance condition_kind : Kind Condition_ := {| kind_NAME := "condition"; kind_Value := bool |}.
#[export] Instance delivery_failure_kind : Kind DeliveryFailure := {| kind_NAME := "delivery_failure"; kind_Value := unit |}.
#[export] Instance supersession_kind : Kind Supersession := {| kind_NAME := "supersession"; kind_Value := Supersedes |}.
#[export] Instance authority_kind : Kind Authority := {| kind_NAME := "authority"; kind_Value := bool |}.
#[export] Instance sent_kind : Kind Sent := {| kind_NAME := "message"; kind_Value := unit |}.

(** [dyn MessageWorld]: a source of each kind. *)
Record MessageWorld : Type := mkWorld {
  w_receipts : Ref Receipts -> option (Version * gmap Receiver Transport);
  w_binding : Ref Binding -> option (Version * InboxBinding);
  w_applied_through : Ref AppliedThrough -> option (Version * Timestamp);
  w_reply : Ref Reply_ -> option (Version * unit);
  w_condition : Ref Condition_ -> option (Version * bool);
  w_delivery_failure : Ref DeliveryFailure -> option (Version * unit);
  w_supersession : Ref Supersession -> option (Version * Supersedes);
  w_authority : Ref Authority -> option (Version * bool);
  w_sent : Ref Sent -> option (Version * unit);
}.
#[export] Instance source_receipts : Source MessageWorld Receipts := w_receipts.
#[export] Instance source_binding : Source MessageWorld Binding := w_binding.
#[export] Instance source_applied_through : Source MessageWorld AppliedThrough := w_applied_through.
#[export] Instance source_reply : Source MessageWorld Reply_ := w_reply.
#[export] Instance source_condition : Source MessageWorld Condition_ := w_condition.
#[export] Instance source_delivery_failure : Source MessageWorld DeliveryFailure := w_delivery_failure.
#[export] Instance source_supersession : Source MessageWorld Supersession := w_supersession.
#[export] Instance source_authority : Source MessageWorld Authority := w_authority.
#[export] Instance source_sent : Source MessageWorld Sent := w_sent.

(** The world's key for a message: [name@home]. *)
Definition sent (m : MessageRef) : Ref Sent := mkRef (sref_name m +:+ "@" +:+ sref_home m).

(** [MemoryMessageWorld]. *)
Record MemoryMessageWorld : Type := mkMemoryWorld {
  m_receipts : Table Receipts;
  m_binding : Table Binding;
  m_applied_through : Table AppliedThrough;
  m_reply : Table Reply_;
  m_condition : Table Condition_;
  m_delivery_failure : Table DeliveryFailure;
  m_supersession : Table Supersession;
  m_authority : Table Authority;
  m_sent : Table Sent;
}.
Definition memory_world (w : MemoryMessageWorld) : MessageWorld :=
  mkWorld (table_lookup (m_receipts w)) (table_lookup (m_binding w)) (table_lookup (m_applied_through w)) (table_lookup (m_reply w)) (table_lookup (m_condition w)) (table_lookup (m_delivery_failure w)) (table_lookup (m_supersession w)) (table_lookup (m_authority w)) (table_lookup (m_sent w)).
Definition with_sent (w : MemoryMessageWorld) (m : MessageRef) : MemoryMessageWorld :=
  mkMemoryWorld (m_receipts w) (m_binding w) (m_applied_through w) (m_reply w) (m_condition w) (m_delivery_failure w) (m_supersession w) (m_authority w) (table_put (m_sent w) (sent m) tt).2.

(** * Edges *)

Record Deliver : Type := mkDeliver { dl_receiver : Receiver; dl_transport : Transport }.
Inductive Settlement : Type := Answered | OutcomeObserved.
Record Settle : Type := mkSettle { st_by : Settlement }.
Record DropMessage : Type := mkDrop { dr_reason : DropReason }.

Inductive MessageEdge : Type :=
| EDeliver (a : Deliver)
| ESettle (a : Settle)
| EDrop (a : DropMessage).

Inductive MessageEdgeKind : Type := KDeliver | KSettle | KDrop.
#[export] Instance MessageEdgeKind_eq_dec : EqDecision MessageEdgeKind.
Proof. solve_decision. Defined.

#[export] Program Instance message_kind_coded : Coded MessageEdgeKind := {|
  coded_ALL := [KDeliver; KSettle; KDrop];
  coded_name k := match k with KDeliver => "deliver" | KSettle => "settle" | KDrop => "drop" end;
  coded_code k := match k with KDeliver => "de" | KSettle => "se" | KDrop => "dr" end;
|}.
Next Obligation. coded_complete_tac. Qed.
Next Obligation. coded_nodup_tac. Qed.

Definition message_edge_kind (e : MessageEdge) : MessageEdgeKind :=
  match e with EDeliver _ => KDeliver | ESettle _ => KSettle | EDrop _ => KDrop end.

Inductive MessageRefusal : Type :=
| MEnded
| MWrongState
| IncorrectReceipt
| UnsupportedSettlement
| MissingEvidence
| PrefixBeforeDeadline
| ExpectationMet
| ReceiptConfirmed
| Unauthorised
| SubjectsConflict
| EmptyRevision
| UnknownMessage.

Definition sig : MachineSig := {|
  M_NAME := "Message";
  Request := MessageSpec;
  Spec := MessageSpec;
  MState := MessageState;
  Label := MessageLabel;
  Datum := MessageDatum;
  Edge := MessageEdge;
  EdgeKind := MessageEdgeKind;
  Write := NoRecords;
  Refusal := MessageRefusal;
  World := MessageWorld;
  label := message_label;
  data := message_data;
  fields := message_fields;
  edge_kind := message_edge_kind;
  write_field := no_records_field;
  write_apply := no_records_apply;
  of_ended e := MEnded;
  of_wrong_state e := MWrongState;
|}.

#[export] Instance arg_deliver : EdgeArg sig Deliver :=
  edge_arg sig KDeliver (fun e => match e with EDeliver a => Some a | _ => None end) EDeliver.
#[export] Instance arg_settle : EdgeArg sig Settle :=
  edge_arg sig KSettle (fun e => match e with ESettle a => Some a | _ => None end) ESettle.
#[export] Instance arg_drop : EdgeArg sig DropMessage :=
  edge_arg sig KDrop (fun e => match e with EDrop a => Some a | _ => None end) EDrop.

(** * Gates and effects *)

Abbreviation H := (HM sig) (only parsing).
Abbreviation G := (GM sig) (only parsing).
Abbreviation read_receipts := (@h_read sig Receipts receipts_kind source_receipts) (only parsing).
Abbreviation read_binding := (@h_read sig Binding binding_kind source_binding) (only parsing).
Abbreviation read_applied_through := (@h_read sig AppliedThrough applied_through_kind source_applied_through) (only parsing).
Abbreviation read_reply := (@h_read sig Reply_ reply_kind source_reply) (only parsing).
Abbreviation read_condition := (@h_read sig Condition_ condition_kind source_condition) (only parsing).
Abbreviation read_delivery_failure := (@h_read sig DeliveryFailure delivery_failure_kind source_delivery_failure) (only parsing).
Abbreviation read_supersession := (@h_read sig Supersession supersession_kind source_supersession) (only parsing).
Abbreviation read_authority := (@h_read sig Authority authority_kind source_authority) (only parsing).
Abbreviation read_sent := (@h_read sig Sent sent_kind source_sent) (only parsing).

Definition receipts : H (option (gmap Receiver Transport)) :=
  do! h := @ask sig in
  read_receipts (mkRef (h_name h)).

(** Whether the message is pending for [consumer]. *)
Definition pending_for (consumer : Receiver) : H bool :=
  do! h := @ask sig in
  if bool_decide (h_state h <> Pending) then hret false
  else
    do! b := read_binding (mkRef (address_text (inbox (h_spec h)))) in
    if negb (match b with Some b => binds b consumer | None => false end) then hret false
    else
      do! rs := receipts in
      hret (negb (match rs with Some by_consumer => bool_decide (is_Some (by_consumer !! consumer)) | None => false end)).

Definition gate_deliver (a : Deliver) : G unit :=
  let! rs := receipts in
  match rs ≫= (fun by_consumer => by_consumer !! dl_receiver a) with
  | Some t => if bool_decide (t = dl_transport a) then gret tt else refuse IncorrectReceipt
  | None => refuse IncorrectReceipt
  end.

Definition deliver (_ : MessageState) (a : Deliver) : H MessageState :=
  do! h := @ask sig in
  hret match expectation (h_spec h) with
    | Nothing => Settled (Some (dl_receiver a))
    | _ => Awaiting (dl_receiver a)
    end.

Definition outcome_observed (c : Condition) : H bool :=
  do! v := read_condition (mkRef (condition_text c)) in
  hret (default false v).

Definition gate_settle (a : Settle) : G unit :=
  let! h := @ask sig in
  try! observed :=
    (match st_by a with
    | Answered =>
        if bool_decide (h_state h = Pending) then refuse MWrongState
        else if bool_decide (expectation (h_spec h) <> Reply) then refuse UnsupportedSettlement
        else
          let! v := read_reply (mkRef (h_name h)) in
          gret (bool_decide (is_Some v))
    | OutcomeObserved =>
        match expectation (h_spec h) with
        | Outcome c => let! v := outcome_observed c in gret v
        | _ => refuse UnsupportedSettlement
        end
    end : G bool) in
  if observed then gret tt else refuse MissingEvidence.

Definition settle (state : MessageState) (_ : Settle) : H MessageState := hret (Settled (receiver_of state)).

Definition authorised (a : Address) : G unit :=
  let! v := read_authority (mkRef (address_text a)) in
  if default false v then gret tt else refuse Unauthorised.

Definition condition_lapsed : H bool :=
  do! h := @ask sig in
  match delivery_condition (h_spec h) with
  | None => hret false
  | Some c =>
      do! v := read_condition (mkRef (condition_text c)) in
      hret (bool_decide (v = Some false))
  end.

Definition consumer_bound : H bool :=
  do! h := @ask sig in
  do! b := read_binding (mkRef (address_text (inbox (h_spec h)))) in
  hret (match b with Some (Bound _) => true | _ => bool_decide (is_Some (receiver_of (h_state h))) end).

Definition applied_through : H (option Timestamp) :=
  do! h := @ask sig in
  read_applied_through (mkRef (address_text (inbox (h_spec h)))).

Definition expired : G unit :=
  let! h := @ask sig in
  let spec := h_spec h in
  match deadline spec with
  | None => refuse MissingEvidence
  | Some deadline =>
      if bool_decide (h_now h > deadline) then
        let! b := consumer_bound in
        let! early :=
          if b : bool then
            do! w := applied_through in
            hret match w with Some watermark => bool_decide (watermark <= deadline) | None => true end
          else hret false in
        if early : bool then refuse PrefixBeforeDeadline
        else
          let! met :=
            match expectation spec with
            | Nothing => hret false
            | Reply => do! v := read_reply (mkRef (h_name h)) in hret (bool_decide (is_Some v))
            | Outcome c => outcome_observed c
            end in
          if met : bool then refuse ExpectationMet else gret tt
      else refuse MissingEvidence
  end.

Definition undeliverable : G unit :=
  let! h := @ask sig in
  if bool_decide (h_state h <> Pending) then refuse MWrongState
  else
    let! rs := receipts in
    if match rs with Some by_consumer => bool_decide (by_consumer <> ∅) | None => false end then refuse ReceiptConfirmed
    else
      let! b := read_binding (mkRef (address_text (inbox (h_spec h)))) in
      if match b with
         | Some (Unbound since) => bool_decide (ts_since (h_now h) since > unbound_after (h_spec h))
         | _ => false
         end then gret tt
      else
        let! f := read_delivery_failure (mkRef (h_name h)) in
        if bool_decide (is_Some f) then gret tt else refuse MissingEvidence.

(** [Result::or_else]. *)
Definition or_else (g : G unit) (f : MessageRefusal -> G unit) : G unit := fun h =>
  match g h with (Ok v, h') => (Ok v, h') | (Err e, h') => f e h' end.

Definition gate_drop (a : DropMessage) : G unit :=
  match dr_reason a with
  | Expired => expired
  | Undeliverable => undeliverable
  | Superseded by_ =>
      let! h := @ask sig in
      let! v := read_supersession (mkRef (address_text by_)) in
      match v with
      | Some s => if bool_decide (older s = h_name h) then gret tt else refuse MissingEvidence
      | None => refuse MissingEvidence
      end
  | Withdrawn _ authority =>
      or_else (authorised authority) (fun refusal =>
        let! lapsed := condition_lapsed in
        if lapsed : bool then gret tt else refuse refusal)
  | ConsumerUnreachable _ authority => authorised authority
  end.

Definition drop_message (state : MessageState) (a : DropMessage) : H MessageState :=
  do! watermark :=
    match dr_reason a with
    | Expired => do! b := consumer_bound in if b : bool then applied_through else hret None
    | _ => hret None
    end in
  hret (Dropped (dr_reason a) (receiver_of state) watermark).

(** * The declaration *)

Local Open Scope flotilla_scope.

Definition deliver_edge : EdgeDef sig Deliver :=
  edge_new |> from [LPending] |> to [LSettled; LAwaiting] |> changes ["receiver"]
  |> gate "the receiver's receipt was observed with this transport" gate_deliver
  |> effect deliver.
Definition settle_edge : EdgeDef sig Settle :=
  edge_new |> from [LPending; LAwaiting] |> to [LSettled] |> changes ["receiver"]
  |> gate "the expectation's evidence was observed (a reply only after delivery)" gate_settle
  |> effect settle.
Definition drop_edge : EdgeDef sig DropMessage :=
  edge_new |> from [LPending; LAwaiting] |> to [LDropped] |> changes ["reason"; "receiver"; "watermark"]
  |> gate "the drop reason's evidence holds" gate_drop
  |> effect drop_message.

Definition message_definition : MachineDef sig :=
  @def_new sig LPending
  |> def_edge deliver_edge |> def_edge settle_edge |> def_edge drop_edge
  |> def_end LSettled "the message was settled" |> def_end LDropped "the message was dropped".

Abbreviation a_read_sent := (@a_read sig Sent sent_kind source_sent) (only parsing).

(** The admission loop over the messages replied to and superseded. *)
Fixpoint admit_exist (ms : list MessageRef) : AM sig unit :=
  match ms with
  | [] => aret tt
  | m :: ms =>
      adm! v := a_read_sent (sent m) in
      match v with None => a_refuse UnknownMessage | Some _ => admit_exist ms end
  end.

Definition message_admit (spec : MessageSpec) : AM sig (MessageSpec * MessageState) :=
  if bool_decide (1 < length (List.filter mr_subject (references spec)))%nat then a_refuse SubjectsConflict
  else if existsb (fun r => bool_decide (mr_revision r = EmptyString)) (references spec) then a_refuse EmptyRevision
  else
    adm! _ := admit_exist (option_list (in_reply_to spec) ++ option_list (supersedes spec)) in
    aret (spec, Pending).

#[export] Instance machine : Machine sig := {| definition := message_definition; admits := message_admit |}.
#[export] Instance stamped : StampedWrites sig.
Proof. no_records. Defined.

Lemma message_validates : validate (definition sig) = Ok tt.
Proof. vm_compute. reflexivity. Qed.

(** * Steps *)

Definition declared (e : MessageEdge) : DeclaredEdge sig :=
  match e with
  | EDeliver _ => declare_edge deliver_edge
  | ESettle _ => declare_edge settle_edge
  | EDrop _ => declare_edge drop_edge
  end.

Lemma message_find (e : MessageEdge) : find (definition sig) (edge_kind sig e) = Some (declared e).
Proof. by destruct e. Qed.

(** ** What the gates decide of the world *)

Definition receipts_in (w : MessageWorld) (own : string) : option (gmap Receiver Transport) :=
  @seen _ Receipts receipts_kind source_receipts w (mkRef own).
Definition receipt_from (w : MessageWorld) (own : string) (r : Receiver) : option Transport :=
  receipts_in w own ≫= (fun by_consumer => by_consumer !! r).
Definition receipted (w : MessageWorld) (own : string) : bool :=
  match receipts_in w own with Some by_consumer => bool_decide (by_consumer <> ∅) | None => false end.
Definition binding_of (w : MessageWorld) (spec : MessageSpec) : option InboxBinding :=
  @seen _ Binding binding_kind source_binding w (mkRef (address_text (inbox spec))).
Definition watermark_of (w : MessageWorld) (spec : MessageSpec) : option Timestamp :=
  @seen _ AppliedThrough applied_through_kind source_applied_through w (mkRef (address_text (inbox spec))).
Definition condition_in (w : MessageWorld) (c : Condition) : option bool :=
  @seen _ Condition_ condition_kind source_condition w (mkRef (condition_text c)).
Definition replied (w : MessageWorld) (own : string) : bool :=
  bool_decide (is_Some (@seen _ Reply_ reply_kind source_reply w (mkRef own))).
Definition failed (w : MessageWorld) (own : string) : bool :=
  bool_decide (is_Some (@seen _ DeliveryFailure delivery_failure_kind source_delivery_failure w (mkRef own))).
Definition superseded_in (w : MessageWorld) (own : string) (by_ : Address) : bool :=
  match @seen _ Supersession supersession_kind source_supersession w (mkRef (address_text by_)) with
  | Some s => bool_decide (older s = own) | None => false end.
Definition authorised_in (w : MessageWorld) (a : Address) : bool :=
  default false (@seen _ Authority authority_kind source_authority w (mkRef (address_text a))).

(** At least one consumer bound to the inbox, or a receiver. *)
Definition bound_in (w : MessageWorld) (spec : MessageSpec) (s : MessageState) : bool :=
  match binding_of w spec with Some (Bound _) => true | _ => bool_decide (is_Some (receiver_of s)) end.
(** Nobody bound since longer than the message tolerates. *)
Definition unbound_past (w : MessageWorld) (spec : MessageSpec) (now : Timestamp) : bool :=
  match binding_of w spec with Some (Unbound t) => bool_decide (ts_since now t > unbound_after spec) | _ => false end.
(** The evidence the message expects is there. *)
Definition met (w : MessageWorld) (own : string) (spec : MessageSpec) : bool :=
  match expectation spec with
  | Nothing => false
  | Reply => replied w own
  | Outcome c => default false (condition_in w c)
  end.
Definition lapsed (w : MessageWorld) (spec : MessageSpec) : bool :=
  match delivery_condition spec with Some c => bool_decide (condition_in w c = Some false) | None => false end.

Definition check (b : bool) (r : MessageRefusal) : result MessageRefusal unit := if b then Ok tt else Err r.

Definition deliver_ok (w : MessageWorld) (own : string) (a : Deliver) : result MessageRefusal unit :=
  check (bool_decide (receipt_from w own (dl_receiver a) = Some (dl_transport a))) IncorrectReceipt.

Definition settle_ok (w : MessageWorld) (own : string) (spec : MessageSpec) (s : MessageState) (a : Settle) : result MessageRefusal unit :=
  match st_by a with
  | Answered =>
      if bool_decide (s = Pending) then Err MWrongState
      else if bool_decide (expectation spec <> Reply) then Err UnsupportedSettlement
      else check (replied w own) MissingEvidence
  | OutcomeObserved =>
      match expectation spec with
      | Outcome c => check (default false (condition_in w c)) MissingEvidence
      | _ => Err UnsupportedSettlement
      end
  end.

Definition expired_ok (w : MessageWorld) (own : string) (spec : MessageSpec) (now : Timestamp) (s : MessageState) : result MessageRefusal unit :=
  match deadline spec with
  | None => Err MissingEvidence
  | Some d =>
      if bool_decide (now > d) then
        if bound_in w spec s && match watermark_of w spec with Some wm => bool_decide (wm <= d) | None => true end
        then Err PrefixBeforeDeadline
        else check (negb (met w own spec)) ExpectationMet
      else Err MissingEvidence
  end.

Definition undeliverable_ok (w : MessageWorld) (own : string) (spec : MessageSpec) (now : Timestamp) (s : MessageState) : result MessageRefusal unit :=
  if bool_decide (s <> Pending) then Err MWrongState
  else if receipted w own then Err ReceiptConfirmed
  else check (unbound_past w spec now || failed w own) MissingEvidence.

Definition drop_ok (w : MessageWorld) (own : string) (spec : MessageSpec) (now : Timestamp) (s : MessageState) (a : DropMessage) : result MessageRefusal unit :=
  match dr_reason a with
  | Expired => expired_ok w own spec now s
  | Undeliverable => undeliverable_ok w own spec now s
  | Superseded by_ => check (superseded_in w own by_) MissingEvidence
  | Withdrawn _ authority => check (authorised_in w authority || lapsed w spec) Unauthorised
  | ConsumerUnreachable _ authority => check (authorised_in w authority) Unauthorised
  end.

(** The watermark a drop records: the one an expiry with a consumer bound relied on. *)
Definition watermark_kept (w : MessageWorld) (spec : MessageSpec) (s : MessageState) (a : DropMessage) : option Timestamp :=
  match dr_reason a with Expired => if bound_in w spec s then watermark_of w spec else None | _ => None end.

(** What a step does, on every branch. *)
Definition message_next (own : string) (spec : MessageSpec) (w : MessageWorld) (now : Timestamp) (s : MessageState) (e : MessageEdge) :
    result MessageRefusal MessageState :=
  match s, e with
  | Settled _, _ | Dropped _ _ _, _ => Err MEnded
  | Pending, EDeliver a =>
      _ ← deliver_ok w own a;
      Ok (match expectation spec with Nothing => Settled (Some (dl_receiver a)) | _ => Awaiting (dl_receiver a) end)
  | Awaiting _, EDeliver _ => Err MWrongState
  | _, ESettle a => _ ← settle_ok w own spec s a; Ok (Settled (receiver_of s))
  | _, EDrop a => _ ← drop_ok w own spec now s a; Ok (Dropped (dr_reason a) (receiver_of s) (watermark_kept w spec s a))
  end.

(** ** The gates compute it *)

Lemma receipts_reads : reads_only receipts.
Proof. unfold receipts. reads_only_tac. Qed.
Lemma outcome_observed_reads c : reads_only (outcome_observed c).
Proof. unfold outcome_observed. reads_only_tac. Qed.
Lemma consumer_bound_reads : reads_only consumer_bound.
Proof. unfold consumer_bound. reads_only_tac. Qed.
Lemma applied_through_reads : reads_only applied_through.
Proof. unfold applied_through. reads_only_tac. Qed.
Lemma condition_lapsed_reads : reads_only condition_lapsed.
Proof. unfold condition_lapsed. reads_only_tac. Qed.
Lemma message_authorised_reads a : reads_only (authorised a).
Proof. unfold authorised. reads_only_tac. Qed.
Lemma or_else_reads g f : reads_only g -> (forall e, reads_only (f e)) -> reads_only (or_else g f).
Proof.
  intros Hg Hf h. unfold or_else. specialize (Hg h). destruct (g h) as [[v|e] h']; [done|]. cbn in Hg.
  etrans; [exact Hg|apply Hf].
Qed.
#[local] Hint Resolve receipts_reads outcome_observed_reads consumer_bound_reads applied_through_reads condition_lapsed_reads
  message_authorised_reads : flotilla.

Lemma gate_deliver_reads a : reads_only (gate_deliver a).
Proof. unfold gate_deliver. reads_only_tac. Qed.
Lemma gate_settle_reads a : reads_only (gate_settle a).
Proof. unfold gate_settle. reads_only_tac. Qed.
Lemma expired_reads : reads_only expired.
Proof. unfold expired. reads_only_tac. Qed.
Lemma undeliverable_reads : reads_only undeliverable.
Proof. unfold undeliverable. reads_only_tac. Qed.
#[local] Hint Resolve expired_reads undeliverable_reads : flotilla.
Lemma gate_drop_reads a : reads_only (gate_drop a).
Proof.
  unfold gate_drop. destruct (dr_reason a); [by auto with flotilla|by auto with flotilla|reads_only_tac| |by auto with flotilla].
  apply or_else_reads; [by auto with flotilla|]. reads_only_tac.
Qed.
Lemma drop_message_reads s a : reads_only (drop_message s a).
Proof. unfold drop_message. reads_only_tac. Qed.

Lemma receipts_val h : (receipts h).1 = receipts_in (h_world h) (h_name h).
Proof. done. Qed.
Lemma outcome_observed_val c h : (outcome_observed c h).1 = default false (condition_in (h_world h) c).
Proof. done. Qed.
Lemma consumer_bound_val h : (consumer_bound h).1 = bound_in (h_world h) (h_spec h) (h_state h).
Proof. done. Qed.
Lemma applied_through_val h : (applied_through h).1 = watermark_of (h_world h) (h_spec h).
Proof. done. Qed.
Lemma condition_lapsed_val h : (condition_lapsed h).1 = lapsed (h_world h) (h_spec h).
Proof. unfold condition_lapsed, lapsed, hbind, ask. by destruct (delivery_condition (h_spec h)). Qed.
Lemma authorised_val a h : (authorised a h).1 = check (authorised_in (h_world h) a) Unauthorised.
Proof. unfold authorised, glet, check, authorised_in. cbn. by destruct (default _ _). Qed.

Lemma gate_deliver_val a h : (gate_deliver a h).1 = deliver_ok (h_world h) (h_name h) a.
Proof.
  unfold gate_deliver, deliver_ok, receipt_from, check. rewrite glet_eq, receipts_val.
  destruct (receipts_in _ _) as [m|]; cbn; [|done]. destruct (m !! dl_receiver a) as [t|]; cbn; [|done].
  repeat case_bool_decide; by simplify_eq.
Qed.
Lemma gate_settle_val a h : (gate_settle a h).1 = settle_ok (h_world h) (h_name h) (h_spec h) (h_state h) a.
Proof.
  unfold gate_settle, settle_ok, check, gbind, glet, ask, replied, condition_in, outcome_observed. cbn.
  destruct (st_by a).
  - case_bool_decide; [done|]. case_bool_decide; [done|]. cbn. by case_bool_decide.
  - destruct (expectation (h_spec h)); try done. cbn. by destruct (default _ _).
Qed.

Lemma met_val (h h2 : Handle sig) : same_fixed h h2 ->
  (glet match expectation (h_spec h) with
    | Nothing => hret false
    | Reply => do! v := read_reply (mkRef (h_name h)) in hret (bool_decide (is_Some v))
    | Outcome c => outcome_observed c
    end (fun m => if m then refuse ExpectationMet else gret tt) h2).1 =
  check (negb (met (h_world h) (h_name h) (h_spec h))) ExpectationMet.
Proof.
  intros [_ _ _ Hw _ _]. unfold met, check. rewrite glet_eq. destruct (expectation (h_spec h)); [done| |].
  - unfold replied. rewrite <-Hw. cbn. by case_bool_decide.
  - rewrite outcome_observed_val, Hw. by destruct (default _ _).
Qed.
Lemma expired_val h : (expired h).1 = expired_ok (h_world h) (h_name h) (h_spec h) (h_now h) (h_state h).
Proof.
  unfold expired, expired_ok. rewrite glet_eq. cbn [ask fst snd]. cbv zeta. destruct (deadline (h_spec h)) as [d|]; [|done].
  case_bool_decide; [|done]. rewrite glet_eq, consumer_bound_val. pose proof (consumer_bound_reads h) as Hf.
  destruct (bound_in _ _ _); cbn [andb]; [|rewrite glet_eq; by apply met_val].
  rewrite glet_eq, hbind_eq, applied_through_val, (sf_world _ _ Hf), (sf_spec _ _ Hf). cbn [hret fst snd].
  destruct (watermark_of _ _) as [wm|]; [|done]. case_bool_decide; [done|]. apply met_val. etrans; [exact Hf|apply applied_through_reads].
Qed.
Lemma undeliverable_val h : (undeliverable h).1 = undeliverable_ok (h_world h) (h_name h) (h_spec h) (h_now h) (h_state h).
Proof.
  unfold undeliverable, undeliverable_ok. rewrite glet_eq. cbn [ask fst snd MState sig]. case_bool_decide; [done|].
  rewrite glet_eq, receipts_val. cbv beta. fold (receipted (h_world h) (h_name h)). destruct (receipted _ _); [done|].
  pose proof (receipts_reads h) as [_ _ _ Hw _ _]. set (h1 := (receipts h).2) in *. clearbody h1.
  unfold glet, check, failed, unbound_past, binding_of. cbn. rewrite Hw.
  destruct (seen _ _) as [[c|t]|]; cbn; repeat (case_bool_decide; try done).
Qed.
Lemma gate_drop_val a h : (gate_drop a h).1 = drop_ok (h_world h) (h_name h) (h_spec h) (h_now h) (h_state h) a.
Proof.
  unfold gate_drop, drop_ok. destruct (dr_reason a) as [| |by_|by_ auth|by_ auth].
  - apply undeliverable_val.
  - apply expired_val.
  - unfold glet, superseded_in, check, ask. cbn. destruct (seen _ _); [|done]. by case_bool_decide.
  - unfold or_else. pose proof (authorised_val auth h) as Hv. destruct (message_authorised_reads auth h) as [_ Hs _ Hw _ _].
    destruct (authorised auth h) as [v h1]. cbn in Hv, Hs, Hw. subst v. unfold check. destruct (authorised_in _ _); [done|]. cbn.
    rewrite glet_eq, condition_lapsed_val, Hs, Hw. by destruct (lapsed _ _).
  - apply authorised_val.
Qed.
Lemma drop_message_val (s : MessageState) a (h : Handle sig) : h_state h = s ->
  (drop_message s a h).1 = Dropped (dr_reason a) (receiver_of s) (watermark_kept (h_world h) (h_spec h) s a).
Proof.
  intros <-. unfold drop_message, watermark_kept. destruct (dr_reason a); try done. rewrite !hbind_eq, consumer_bound_val. cbn [hret fst].
  destruct (consumer_bound_reads h) as [_ Hs _ Hw _ _]. f_equal. destruct (bound_in _ _ _); [|done]. by rewrite applied_through_val, Hs, Hw.
Qed.
#[local] Arguments deliver_ok : simpl never.
#[local] Arguments settle_ok : simpl never.
#[local] Arguments drop_ok : simpl never.
#[local] Arguments watermark_kept : simpl never.

(** The gate and the effect of each edge, and what they decide and compute. *)
Definition gate_of (e : MessageEdge) : G unit :=
  match e with EDeliver a => gate_deliver a | ESettle a => gate_settle a | EDrop a => gate_drop a end.
Definition effect_of (s : MessageState) (e : MessageEdge) : H MessageState :=
  match e with EDeliver a => deliver s a | ESettle a => settle s a | EDrop a => drop_message s a end.
Definition decides (own : string) (spec : MessageSpec) (w : MessageWorld) (now : Timestamp) (s : MessageState) (e : MessageEdge) :
    result MessageRefusal unit :=
  match e with EDeliver a => deliver_ok w own a | ESettle a => settle_ok w own spec s a | EDrop a => drop_ok w own spec now s a end.
Definition moved_to (spec : MessageSpec) (w : MessageWorld) (s : MessageState) (e : MessageEdge) : MessageState :=
  match e with
  | EDeliver a => match expectation spec with Nothing => Settled (Some (dl_receiver a)) | _ => Awaiting (dl_receiver a) end
  | ESettle _ => Settled (receiver_of s)
  | EDrop a => Dropped (dr_reason a) (receiver_of s) (watermark_kept w spec s a)
  end.

Lemma message_gate_of_reads e : reads_only (gate_of e).
Proof. destruct e; [apply gate_deliver_reads|apply gate_settle_reads|apply gate_drop_reads]. Qed.
Lemma message_gate_of_val e h : (gate_of e h).1 = decides (h_name h) (h_spec h) (h_world h) (h_now h) (h_state h) e.
Proof. destruct e; [apply gate_deliver_val|apply gate_settle_val|apply gate_drop_val]. Qed.
Lemma effect_of_reads s e : reads_only (effect_of s e).
Proof. destruct e; [unfold effect_of, deliver; reads_only_tac|apply reads_only_hret|apply drop_message_reads]. Qed.
Lemma effect_of_val e (h : Handle sig) : (effect_of (h_state h) e h).1 = moved_to (h_spec h) (h_world h) (h_state h) e.
Proof. destruct e; [done|done|by apply drop_message_val]. Qed.
Lemma message_run_gate_of e h : run_check (de_check (declared e)) e h = (map_err (@Refused sig) (gate_of e h).1, (gate_of e h).2).
Proof.
  destruct e as [a|a|a]; cbn -[gate_deliver gate_settle gate_drop];
    [destruct (gate_deliver a h) as [[[]|] ?]|destruct (gate_settle a h) as [[[]|] ?]|destruct (gate_drop a h) as [[[]|] ?]]; reflexivity.
Qed.
Lemma message_run_effect_of s e h : run_effect (de_effect (declared e)) (s : MState sig) e h = (Ok (effect_of s e h).1, (effect_of s e h).2).
Proof. destruct e as [a|a|a]; cbn -[drop_message]; [done|done|]. by destruct (drop_message s a h). Qed.

Definition leaves (s : MessageState) (e : MessageEdge) : bool :=
  match s, e with Pending, _ => true | Awaiting _, EDeliver _ => false | Awaiting _, _ => true | _, _ => false end.

(** From a state the edge leaves, the step is the gate's verdict and the effect. *)
Lemma message_step_leaves name spec since version s e w now : leaves s e = true ->
  (step (definition sig) (e : Edge sig) (handle_on (mkResource name (spec : Spec sig) (mkState (s : MState sig) since) version) (w : World sig) now)).1 =
  map_err (@Refused sig) ((fun _ => moved_to spec w s e) <$> decides name spec w now s e).
Proof.
  intros Hl. set (h := handle_on _ _ _).
  apply (step_gated_reads (definition sig) e h (declared e) (gate_of e) (effect_of s e));
    [by destruct s|apply message_find|by destruct s, e; try done; elem_compute|apply message_run_gate_of|apply message_run_effect_of|apply message_gate_of_reads
    |apply (message_gate_of_val e h)|apply effect_of_reads| | |].
  - intros h' [_ Hs Hst Hw _ _]. change s with (h_state h) at 1. rewrite <-Hst, effect_of_val. by rewrite Hs, Hw, Hst.
  - destruct e; cbn; [destruct (expectation spec)| |]; elem_compute.
  - destruct e; cbn; [destruct (expectation spec)| |]; only_changes.
Qed.

Lemma message_step_next (r : Resource sig) (edge : MessageEdge) (world : MessageWorld) now :
  (step (definition sig) edge (handle_on r world now)).1 =
  map_err (@Refused sig) (message_next (r_name r) (r_spec r) world now (value (r_state r)) edge).
Proof.
  destruct r as [name spec [s since] version]. destruct (leaves s edge) eqn:Hl.
  - rewrite message_step_leaves by done. cbn [r_name r_spec r_state value]. f_equal.
    destruct s, edge; try done; cbn; match goal with |- context [?v ≫= _] => by destruct v as [[]|] end.
  - destruct s as [|rc|rc|re rc wm]; [done| |destruct edge; step_is_ended; reflexivity|destruct edge; step_is_ended; reflexivity].
    destruct edge; [step_is_wrong message_find; reflexivity|done..].
Qed.

(** * The abstract machine: [specs/primitives/machines/message.qnt] *)

Inductive QExpectation : Type := QNothing | QReply | QOutcome.
#[export] Instance QExpectation_eq_dec : EqDecision QExpectation.
Proof. solve_decision. Defined.
Inductive QDropReason : Type := QUndeliverable | QExpired | QSuperseded | QWithdrawn | QConsumerUnreachable.
#[export] Instance QDropReason_eq_dec : EqDecision QDropReason.
Proof. solve_decision. Defined.

Record Envelope : Type := mkEnvelope { q_expectation : QExpectation; hasDeadline : bool; q_deadline : Z; hasCondition : bool }.
(** The specification's receiver 0, none, is [None]. *)
Record QDrop : Type := mkQDrop {
  qd_reason : QDropReason; qd_envelope : Envelope; qd_receiver : option Receiver; qd_watermark : Z; qd_bound : bool; qd_receipt : bool }.
Inductive QState : Type :=
| QPending (e : Envelope)
| QAwaiting (e : Envelope) (r : Receiver)
| QSettled (e : Envelope) (r : option Receiver)
| QDropped (d : QDrop).
Record Receipt : Type := mkReceipt { observed : bool; receiverMatches : bool; transportMatches : bool; q_receiver : Receiver }.
Inductive QSettlement : Type := QAnswered (observed : bool) | QOutcomeObserved (observed : bool).
Record DropEvidence : Type := mkEvidence {
  de_reason : QDropReason; de_now : Z; de_bound : bool; appliedThrough : Z; de_met : bool; de_receipt : bool;
  noConsumerPastThreshold : bool; failure : bool; de_supersedes : bool; de_authorised : bool; conditionFailed : bool }.
Inductive Event : Type := QDeliver (r : Receipt) | QSettle (by_ : QSettlement) | QDropMessage (o : DropEvidence).
Inductive Next : Type := Moved (s : QState) | QRefused (r : MessageRefusal).

Definition envelope (s : QState) : Envelope :=
  match s with QPending e | QAwaiting e _ | QSettled e _ => e | QDropped d => qd_envelope d end.
Definition q_receiver_of (s : QState) : option Receiver :=
  match s with QAwaiting _ r => Some r | QSettled _ r => r | QDropped d => qd_receiver d | QPending _ => None end.

(** The refusal of a drop's evidence, if any. *)
Definition q_drop_refusal (s : QState) (o : DropEvidence) (bound : bool) : option MessageRefusal :=
  let env := envelope s in
  match de_reason o with
  | QExpired =>
      if negb (hasDeadline env) || bool_decide (de_now o <= q_deadline env) then Some MissingEvidence
      else if bound && bool_decide (appliedThrough o <= q_deadline env) then Some PrefixBeforeDeadline
      else if de_met o then Some ExpectationMet else None
  | QUndeliverable =>
      match s with
      | QPending _ =>
          if de_receipt o then Some ReceiptConfirmed
          else if noConsumerPastThreshold o || failure o then None else Some MissingEvidence
      | _ => Some MWrongState
      end
  | QSuperseded => if de_supersedes o then None else Some MissingEvidence
  | QWithdrawn => if de_authorised o || (hasCondition env && conditionFailed o) then None else Some Unauthorised
  | QConsumerUnreachable => if de_authorised o then None else Some Unauthorised
  end.

Definition qstep (s : QState) (event : Event) : Next :=
  match s with
  | QSettled _ _ | QDropped _ => QRefused MEnded
  | _ =>
      let env := envelope s in
      match event with
      | QDeliver r =>
          match s with
          | QPending _ =>
              if negb (observed r && receiverMatches r && transportMatches r) then QRefused IncorrectReceipt
              else if bool_decide (q_expectation env = QNothing) then Moved (QSettled env (Some (q_receiver r)))
              else Moved (QAwaiting env (q_receiver r))
          | _ => QRefused MWrongState
          end
      | QSettle (QAnswered ob) =>
          match s with
          | QAwaiting _ _ =>
              if bool_decide (q_expectation env <> QReply) then QRefused UnsupportedSettlement
              else if ob then Moved (QSettled env (q_receiver_of s)) else QRefused MissingEvidence
          | _ => QRefused MWrongState
          end
      | QSettle (QOutcomeObserved ob) =>
          if bool_decide (q_expectation env <> QOutcome) then QRefused UnsupportedSettlement
          else if ob then Moved (QSettled env (q_receiver_of s)) else QRefused MissingEvidence
      | QDropMessage o =>
          let bound := de_bound o || bool_decide (is_Some (q_receiver_of s)) in
          match q_drop_refusal s o bound with
          | Some r => QRefused r
          | None =>
              Moved (QDropped (mkQDrop (de_reason o) env (q_receiver_of s)
                (if bool_decide (de_reason o = QExpired) && bound then appliedThrough o else 0)
                (bool_decide (de_reason o = QExpired) && bound)
                (if bool_decide (de_reason o = QUndeliverable) then de_receipt o else false)))
          end
      end
  end.

(** * Refinement *)

Definition abs_expectation (e : Expectation) : QExpectation := match e with Nothing => QNothing | Reply => QReply | Outcome _ => QOutcome end.
Definition abs_reason (r : DropReason) : QDropReason :=
  match r with
  | Undeliverable => QUndeliverable | Expired => QExpired | Superseded _ => QSuperseded | Withdrawn _ _ => QWithdrawn
  | ConsumerUnreachable _ _ => QConsumerUnreachable
  end.
Definition abs_envelope (spec : MessageSpec) : Envelope :=
  mkEnvelope (abs_expectation (expectation spec)) (bool_decide (is_Some (deadline spec))) (default 0 (deadline spec))
    (bool_decide (is_Some (delivery_condition spec))).
(** A drop keeps a watermark exactly when it relied on one; an undeliverable
    drop found no receipt. *)
Definition abs_state (spec : MessageSpec) (s : MessageState) : QState :=
  match s with
  | Pending => QPending (abs_envelope spec)
  | Awaiting r => QAwaiting (abs_envelope spec) r
  | Settled r => QSettled (abs_envelope spec) r
  | Dropped reason r wm => QDropped (mkQDrop (abs_reason reason) (abs_envelope spec) r (default 0 wm) (bool_decide (is_Some wm)) false)
  end.

(** The evidence an edge's gate finds. A stream never applied is behind every
    deadline. *)
Definition abs_event (own : string) (spec : MessageSpec) (w : MessageWorld) (now : Timestamp) (e : MessageEdge) : Event :=
  match e with
  | EDeliver a => QDeliver (mkReceipt (receipted w own) (bool_decide (is_Some (receipt_from w own (dl_receiver a))))
      (bool_decide (receipt_from w own (dl_receiver a) = Some (dl_transport a))) (dl_receiver a))
  | ESettle a => QSettle match st_by a with Answered => QAnswered (replied w own) | OutcomeObserved => QOutcomeObserved (met w own spec) end
  | EDrop a => QDropMessage (mkEvidence (abs_reason (dr_reason a)) now
      (match binding_of w spec with Some (Bound _) => true | _ => false end)
      (default i64_min (watermark_of w spec)) (met w own spec) (receipted w own) (unbound_past w spec now) (failed w own)
      (match dr_reason a with Superseded by_ => superseded_in w own by_ | _ => false end)
      (match dr_reason a with Withdrawn _ au | ConsumerUnreachable _ au => authorised_in w au | _ => false end)
      (lapsed w spec))
  end.

Definition abs_next (spec : MessageSpec) (r : result (StepError sig) MessageState) : option Next :=
  match r with
  | Ok s => Some (Moved (abs_state spec s))
  | Err (Refused rf) => Some (QRefused rf)
  | Err (Faulted _) => None
  end.

(** A deadline is an [i64] of microseconds. *)
Definition spec_ok (spec : MessageSpec) : Prop := forall d, deadline spec = Some d -> is_i64 d.

Lemma receipted_from w own r t : receipt_from w own r = Some t -> receipted w own = true.
Proof.
  unfold receipt_from, receipted. destruct (receipts_in w own) as [m|]; cbn; [|done]. intros Hm.
  apply bool_decide_eq_true_2. intros ->. by rewrite lookup_empty in Hm.
Qed.

Lemma bound_in_or w spec s :
  bound_in w spec s = (match binding_of w spec with Some (Bound _) => true | _ => false end) || bool_decide (is_Some (receiver_of s)).
Proof. unfold bound_in. by destruct (binding_of w spec) as [[]|]. Qed.

Lemma deliver_refines own w a :
  (if negb (receipted w own && bool_decide (is_Some (receipt_from w own (dl_receiver a))) &&
      bool_decide (receipt_from w own (dl_receiver a) = Some (dl_transport a))) then Err IncorrectReceipt else Ok tt) = deliver_ok w own a.
Proof.
  unfold deliver_ok, check. destruct (receipt_from _ _ _) as [t|] eqn:Hr.
  - rewrite (receipted_from _ _ _ _ Hr). by destruct (bool_decide (Some t = _)).
  - by rewrite andb_comm.
Qed.

Definition evidence_of (own : string) (spec : MessageSpec) (w : MessageWorld) (now : Timestamp) (a : DropMessage) : DropEvidence :=
  match abs_event own spec w now (EDrop a) with
  | QDropMessage o => o
  | _ => mkEvidence QExpired 0 false 0 false false false false false false false
  end.

(** Where a message is open, its drop gate decides as the specification does. *)
Lemma drop_refines own spec w now s a : spec_ok spec -> match s with Pending | Awaiting _ => True | _ => False end ->
  drop_ok w own spec now s a =
  match q_drop_refusal (abs_state spec s) (evidence_of own spec w now a) (bound_in w spec s) with Some r => Err r | None => Ok tt end.
Proof.
  intros Hok Hs. assert (envelope (abs_state spec s) = abs_envelope spec) as He by by destruct s.
  unfold drop_ok, q_drop_refusal. rewrite He. destruct a as [[| |by_|by_ au|by_ au]]; cbn [dr_reason evidence_of abs_event abs_reason de_reason].
  - unfold undeliverable_ok, check. destruct s; try done; cbn. destruct (receipted w own); [done|]. by destruct (unbound_past w spec now || failed w own).
  - unfold expired_ok, check. cbn. destruct (deadline spec) as [d|] eqn:Hd; cbn; [|done].
    destruct (bool_decide (now > d)) eqn:Hn; [apply bool_decide_eq_true in Hn|apply bool_decide_eq_false in Hn];
      [rewrite (bool_decide_eq_false_2 (now <= d)) by lia|by rewrite (bool_decide_eq_true_2 (now <= d)) by lia].
    destruct (bound_in w spec s); cbn; [|by destruct (met w own spec)].
    specialize (Hok d Hd). destruct (watermark_of w spec) as [wm|]; cbn.
    + case_bool_decide; [done|]. by destruct (met w own spec).
    + rewrite bool_decide_eq_true_2 by (unfold_ints; lia). done.
  - unfold check. cbn. by destruct (superseded_in w own by_).
  - unfold check, lapsed. cbn. destruct (authorised_in w au); [done|]. destruct (delivery_condition spec); cbn; [|done].
    by case_bool_decide.
  - unfold check. cbn. by destruct (authorised_in w au).
Qed.

(** An expiry with a consumer bound passed on a watermark beyond the deadline. *)
Lemma expired_watermark own spec w now s : expired_ok w own spec now s = Ok tt -> bound_in w spec s = true ->
  exists d wm, deadline spec = Some d /\ watermark_of w spec = Some wm /\ d < wm.
Proof.
  unfold expired_ok. intros H Hb. destruct (deadline spec) as [d|]; [|done]. case_bool_decide; [|done]. rewrite Hb in H. cbn in H.
  destruct (watermark_of w spec) as [wm|]; [|done]. case_bool_decide; [done|]. exists d, wm. split_and!; [done|done|lia].
Qed.

Lemma dropped_refines own spec w now s a : drop_ok w own spec now s a = Ok tt ->
  abs_state spec (Dropped (dr_reason a) (receiver_of s) (watermark_kept w spec s a)) =
  let o := evidence_of own spec w now a in
  let b := bool_decide (de_reason o = QExpired) && bound_in w spec s in
  QDropped (mkQDrop (de_reason o) (abs_envelope spec) (receiver_of s) (if b then appliedThrough o else 0) b
    (if bool_decide (de_reason o = QUndeliverable) then de_receipt o else false)).
Proof.
  intros H. unfold drop_ok in H. destruct a as [[| |by_|by_ au|by_ au]]; cbn in *; try reflexivity.
  - unfold undeliverable_ok in H. case_bool_decide; [done|]. destruct (receipted w own); done.
  - unfold watermark_kept. cbn. destruct (bound_in w spec s) eqn:Hb; cbn; [|done].
    destruct (expired_watermark own spec w now s H Hb) as (d & wm & _ & -> & _). done.
Qed.

Lemma drop_step_refines own spec w now s a : spec_ok spec -> match s with Pending | Awaiting _ => True | _ => False end ->
  abs_next spec (map_err (@Refused sig) (message_next own spec w now s (EDrop a))) =
  Some (qstep (abs_state spec s) (QDropMessage (evidence_of own spec w now a))).
Proof.
  intros Hok Hs. pose proof (drop_refines own spec w now s a Hok Hs) as Hd. pose proof (dropped_refines own spec w now s a) as Hw.
  pose proof (bound_in_or w spec s) as Hb. destruct s as [|rc|rc|re rc wm]; try done;
    unfold message_next, qstep; cbn [abs_state q_receiver_of receiver_of] in *; change (de_bound (evidence_of own spec w now a)) with
      (match binding_of w spec with Some (Bound _) => true | _ => false end); rewrite <-Hb; clear Hb;
    (destruct (q_drop_refusal _ _ _) as [r|]; rewrite Hd; [done|]);
    exact (f_equal (fun q => Some (Moved q)) (Hw Hd)).
Qed.

(** Reads the specification's expectation as the envelope's. *)
Ltac fold_expectation :=
  repeat match goal with |- context [q_expectation (abs_envelope ?spec)] =>
    change (q_expectation (abs_envelope spec)) with (abs_expectation (expectation spec)) end.

Lemma message_refines_core own spec w now s e : spec_ok spec ->
  abs_next spec (map_err (@Refused sig) (message_next own spec w now s e)) = Some (qstep (abs_state spec s) (abs_event own spec w now e)).
Proof.
  intros Hok. destruct s as [|rc|rc|re rc wm]; [| |done|done]; destruct e as [a|a|a]; try done.
  - cbn -[abs_envelope]. rewrite <-(deliver_refines own w a). destruct (negb _); cbn -[abs_envelope]; [done|]. fold_expectation.
    by destruct (expectation spec).
  - cbn -[abs_envelope]. unfold settle_ok, check, met. fold_expectation. destruct (st_by a); [done|].
    destruct (expectation spec); try done. by destruct (default false _).
  - by apply drop_step_refines.
  - cbn -[abs_envelope]. unfold settle_ok, check, met. fold_expectation. destruct (st_by a); destruct (expectation spec); try done.
    + by destruct (replied w own).
    + by destruct (default false _).
  - by apply drop_step_refines.
Qed.

(** * Invariants *)

(** What each state says of the envelope: only a message that expects
    something awaits, only an outcome settles without a receiver, an
    undeliverable message had none, and an expiry that had a consumer keeps a
    watermark beyond its deadline. *)
Definition sound (spec : MessageSpec) (s : MessageState) : Prop :=
  match s with
  | Pending => True
  | Awaiting _ => expectation spec <> Nothing
  | Settled (Some _) => True
  | Settled None => exists c, expectation spec = Outcome c
  | Dropped reason rc wm =>
      (is_Some rc -> expectation spec <> Nothing) /\
      match reason with
      | Undeliverable => rc = None /\ wm = None
      | Expired => exists d, deadline spec = Some d /\ (forall x, wm = Some x -> d < x) /\ (is_Some rc -> is_Some wm)
      | _ => wm = None
      end
  end.

Definition q_move (q q' : QState) : Prop := exists e, qstep q e = Moved q'.

Definition message_inv (spec : MessageSpec) (s : MessageState) : Prop :=
  spec_ok spec /\ sound spec s /\ rtc q_move (QPending (abs_envelope spec)) (abs_state spec s).

Lemma drop_sound own spec w now s a : sound spec s -> match s with Pending | Awaiting _ => True | _ => False end ->
  drop_ok w own spec now s a = Ok tt -> sound spec (Dropped (dr_reason a) (receiver_of s) (watermark_kept w spec s a)).
Proof.
  intros Hs Ho Hd. split; [destruct s; try done; cbn; intros [? ?]; done|].
  unfold watermark_kept. unfold drop_ok in Hd. destruct (dr_reason a); try done.
  - unfold undeliverable_ok in Hd. by destruct s.
  - pose proof (expired_watermark own spec w now s Hd) as Hw. unfold expired_ok in Hd. destruct (deadline spec) as [d|]; [|done].
    exists d. split; [done|]. destruct (bound_in w spec s) eqn:Hb.
    + destruct (Hw eq_refl) as (d' & wm & [= <-] & -> & Hlt). split; [by intros x [= <-]|by eexists].
    + split; [done|]. intros Hr. unfold bound_in in Hb. destruct (binding_of w spec) as [[]|]; try done; by rewrite bool_decide_eq_true_2 in Hb.
Qed.

Lemma message_next_sound own spec w now s e s' : sound spec s -> message_next own spec w now s e = Ok s' -> sound spec s'.
Proof.
  intros Hs Hn. unfold message_next in Hn. destruct s as [|rc|rc|re rc wm]; try done; destruct e as [a|a|a]; try done.
  - destruct (deliver_ok w own a); simplify_eq/=. destruct (expectation spec) eqn:He; cbn; congruence || done.
  - unfold settle_ok in Hn. destruct (st_by a); [done|]. destruct (expectation spec) as [| |c] eqn:He; try done.
    destruct (check _ _); simplify_eq/=. by eexists.
  - destruct (drop_ok w own spec now Pending a) as [[]|] eqn:Hd; simplify_eq/=. by apply (drop_sound own spec w now Pending a).
  - destruct (settle_ok w own spec (Awaiting rc) a); by simplify_eq/=.
  - destruct (drop_ok w own spec now (Awaiting rc) a) as [[]|] eqn:Hd; simplify_eq/=. by apply (drop_sound own spec w now (Awaiting rc) a).
Qed.

Lemma admit_exist_ok ms ad : 
  (admit_exist ms ad).1 = if forallb (fun m => bool_decide (is_Some (@seen _ Sent sent_kind source_sent (ad_world ad) (sent m)))) ms
  then Ok tt else Err UnknownMessage.
Proof.
  revert ad. induction ms as [|m ms IH]; intros ad; [done|]. cbn. destruct (seen _ _); cbn; [|done]. by rewrite IH.
Qed.

(** The messages a new one names, in the order admission reads them. *)
Definition named (spec : MessageSpec) : list MessageRef := option_list (in_reply_to spec) ++ option_list (supersedes spec).
Definition exists_in (w : MessageWorld) (m : MessageRef) : bool :=
  bool_decide (is_Some (@seen _ Sent sent_kind source_sent w (sent m))).

(** What admission decides. *)
Definition admission_of (w : MessageWorld) (spec : MessageSpec) : result MessageRefusal unit :=
  if bool_decide (1 < length (List.filter mr_subject (references spec)))%nat then Err SubjectsConflict
  else if existsb (fun r => bool_decide (mr_revision r = EmptyString)) (references spec) then Err EmptyRevision
  else check (forallb (exists_in w) (named spec)) UnknownMessage.

Lemma message_admit_val spec ad : (message_admit spec ad).1 = (fun _ => (spec, Pending)) <$> admission_of (ad_world ad) spec.
Proof.
  unfold message_admit, admission_of, check. case_bool_decide; [done|]. destruct (existsb _ _); [done|]. unfold abind.
  pose proof (admit_exist_ok (named spec) ad) as He. fold (named spec). destruct (admit_exist (named spec) ad) as [v ad']. cbn in He.
  subst v. unfold exists_in. by destruct (forallb _ _).
Qed.

Lemma admission_of_iff world spec : admission_of world spec = Ok tt <->
  (length (List.filter mr_subject (references spec)) <= 1)%nat /\ (forall r, r ∈ references spec -> mr_revision r <> EmptyString) /\
  (forall m, in_reply_to spec = Some m \/ supersedes spec = Some m -> exists_in world m = true).
Proof.
  unfold admission_of, check. split.
  - case_bool_decide; [done|]. destruct (existsb _ _) eqn:He; [done|]. destruct (forallb _ _) eqn:Hf; [|done]. intros _.
    split; [lia|]. split.
    + intros r Hr. pose proof (proj1 (existsb_false _ _) He r Hr) as Hb. cbn in Hb. by apply bool_decide_eq_false in Hb.
    + intros m Hm. apply (proj1 (forallb_elem _ _) Hf). unfold named. apply elem_of_app. destruct Hm as [-> | ->]; [left|right]; cbn; set_solver.
  - intros (Hl & Hr & Hm). rewrite bool_decide_eq_false_2 by lia. replace (existsb _ _) with false.
    + replace (forallb _ _) with true; [done|]. symmetry. apply forallb_elem. intros m Hin. apply Hm. unfold named in Hin.
      apply elem_of_app in Hin as [Hin|Hin]; [left|right]; match goal with |- ?o = _ => destruct o end; cbn in Hin; set_solver.
    + symmetry. apply existsb_false. intros r Hin. apply bool_decide_eq_false_2. by apply Hr.
Qed.

#[export] Instance message_machine_inv : MachineInv sig spec_ok message_inv.
Proof.
  apply (machine_inv_by_next sig message_next); [by intros []|intros; apply message_step_next| |].
  - intros request world now spec state ad Hok Ha. pose proof (message_admit_val request (mkAdmission (world : World sig) now [])) as Hv.
    change (admits request) with (message_admit request) in Ha. rewrite Ha in Hv. cbn [fst] in Hv.
    destruct (admission_of _ _); simplify_eq/=. split; [done|]. split; [done|apply rtc_refl].
  - intros own spec w now s e s' (Hok & Hs & Hq) Hn. split; [done|]. split; [by eapply message_next_sound|].
    pose proof (message_refines_core own spec w now s e Hok) as H. rewrite Hn in H. injection H as H.
    eapply rtc_r; [exact Hq|]. by exists (abs_event own spec w now e).
Qed.

(** One accepted edge on a message, whatever the world and the time. *)
Definition message_move (own : string) (spec : MessageSpec) (s s' : MessageState) : Prop :=
  exists (w : MessageWorld) (now : Timestamp) (e : MessageEdge) (since : Timestamp) (v : Version),
    (step (definition sig) (e : Edge sig) (handle_on (mkResource own (spec : Spec sig) (mkState (s : MState sig) since) v) (w : World sig) now)).1 = Ok s'.

Lemma message_move_receiver own spec s s' : message_move own spec s s' ->
  s' <> Pending /\ forall r, receiver_of s = Some r -> receiver_of s' = Some r.
Proof.
  intros (w & now & e & t & v & Hs). rewrite message_step_next in Hs. cbn in Hs.
  assert (message_next own spec w now s e = Ok s') as Hn by (by destruct (message_next own spec w now s e); simplify_eq/=). clear Hs.
  unfold message_next in Hn. destruct s as [|rc|rc|re rc wm]; try done; destruct e as [a|a|a]; try done;
    match type of Hn with context [?v ≫= _] => destruct v end; simplify_eq/=; try done. by destruct (expectation spec).
Qed.

(** Who a message is pending for, as a judgement of the resource. *)
Definition is_pending_for (r : Resource sig) (w : MessageWorld) (now : Timestamp) (c : Receiver) : bool :=
  (pending_for c (handle_on r (w : World sig) now)).1.

Lemma is_pending_for_iff r w now c : is_pending_for r w now c = true <->
  value (r_state r) = Pending /\ (exists cs, binding_of w (r_spec r) = Some (Bound cs) /\ c ∈ cs) /\ receipt_from w (r_name r) c = None.
Proof.
  unfold is_pending_for, pending_for. rewrite hbind_eq. cbn [ask fst snd MState sig]. case_bool_decide as Hp; [split; [done|by intros (? & _)]|].
  change (value (r_state r) = Pending) in Hp. rewrite hbind_eq. cbn [fst snd h_read].
  change (seen _ _) with (binding_of w (r_spec r)). unfold receipt_from.
  destruct (binding_of w (r_spec r)) as [[cs|t]|]; cbn [binds negb]; [|split; [done|by intros (_ & (? & ? & _) & _)]..].
  case_bool_decide as Hc; cbn [negb]; [|split; [done|by intros (_ & (? & [= <-] & ?) & _)]].
  rewrite hbind_eq, receipts_val. cbn [hret fst h_world h_name handle_on]. destruct (receipts_in w (r_name r)) as [m|]; cbn [mbind option_bind].
  - rewrite negb_true_iff, bool_decide_eq_false, eq_None_not_Some. naive_solver.
  - naive_solver.
Qed.

(** * Properties *)

(** A message expecting a reply, and a world with a receipt for it. *)
Definition sample_spec : MessageSpec :=
  mkSpec (mkAddress "flotilla:role/a") (mkAddress "flotilla:inbox/b") 0 Peer (mkFrozen "h" (Text "hello")) [] None None Reply (Some 50) 10 None.
Definition sample_receiver : Receiver := mkReceiver CAgentSession "s" "home".
Definition sample_message : Resource sig := mkResource "m" (sample_spec : Spec sig) (mkState (Pending : MState sig) 0) 1.
Definition sample_world : MessageWorld := memory_world (mkMemoryWorld
  (table_put (table_new (K := Receipts)) (mkRef "m") {[sample_receiver := Turn]}).2
  (table_put (table_new (K := Binding)) (mkRef "flotilla:inbox/b") (Bound {[sample_receiver]})).2
  (table_put (table_new (K := AppliedThrough)) (mkRef "flotilla:inbox/b") 60).2
  table_new table_new table_new table_new table_new table_new).
Definition sample_deliver : Deliver := mkDeliver sample_receiver Turn.

Lemma sample_spec_ok : spec_ok sample_spec.
Proof. intros d [= <-]. unfold_ints. lia. Qed.

(** C3: a step of a message agrees with its specification on every state, edge
    and world: both move, to the same abstract state, or both refuse, with the
    same refusal; and no step faults. *)
Theorem message_step_refines (r : Resource sig) (edge : MessageEdge) (world : MessageWorld) now : spec_ok (r_spec r) ->
  abs_next (r_spec r) (step (definition sig) (edge : Edge sig) (handle_on r (world : World sig) now)).1 =
  Some (qstep (abs_state (r_spec r) (value (r_state r))) (abs_event (r_name r) (r_spec r) world now edge)).
Proof. intros Hok. rewrite message_step_next. by apply message_refines_core. Qed.

Lemma message_step_refines_witness :
  abs_next sample_spec (step (definition sig) (EDrop (mkDrop Expired) : Edge sig) (handle_on sample_message (sample_world : World sig) 70)).1 =
  Some (Moved (QDropped (mkQDrop QExpired (mkEnvelope QReply true 50 false) None 60 true false))).
Proof.
  etrans; [apply (message_step_refines sample_message (EDrop (mkDrop Expired)) sample_world 70)|].
  - exact sample_spec_ok.
  - vm_compute. reflexivity.
Defined.

(** the receipt claims a message for everyone: a delivery is accepted only
    of a pending message with this receiver's receipt by this transport; it
    makes that consumer the receiver, and from then the message is pending for
    no consumer, whatever the inbox binds. A consumer it was pending for could
    not have claimed it. *)
Theorem delivery_claims_message (r : Resource sig) (a : Deliver) (world : MessageWorld) now s' :
  (step (definition sig) (EDeliver a : Edge sig) (handle_on r (world : World sig) now)).1 = Ok s' ->
  value (r_state r) = Pending /\ receipt_from world (r_name r) (dl_receiver a) = Some (dl_transport a) /\
  is_pending_for r world now (dl_receiver a) = false /\ receiver_of s' = Some (dl_receiver a) /\
  forall c world' now' at_, is_pending_for (with_state r (mkState s' at_)) world' now' c = false.
Proof.
  rewrite message_step_next. intros Hs. unfold message_next in Hs. destruct (value (r_state r)) as [|rc|rc|re rc wm] eqn:Hv; try done.
  unfold deliver_ok, check in Hs. case_bool_decide as Hr; [|done]. simplify_eq/=. split; [done|]. split; [done|].
  assert (forall (r' : Resource sig) w' n' c, value (r_state r') <> Pending \/ receipt_from w' (r_name r') c <> None -> is_pending_for r' w' n' c = false) as Hnot.
  { intros r' w' n' c H. apply not_true_iff_false. intros (H1 & _ & H2)%is_pending_for_iff. destruct H; done. }
  split; [apply Hnot; right; by rewrite Hr|]. split; [by destruct (expectation (r_spec r))|]. intros. apply Hnot. left.
  cbn. by destruct (expectation (r_spec r)).
Qed.

Lemma delivery_claims_message_witness : is_pending_for sample_message sample_world 5 sample_receiver = false /\
  forall c, is_pending_for (with_state sample_message (mkState (Awaiting sample_receiver : MState sig) 5)) sample_world 6 c = false.
Proof.
  destruct (delivery_claims_message sample_message sample_deliver sample_world 5 (Awaiting sample_receiver)) as (_ & _ & Hp & _ & Hall).
  - vm_compute. reflexivity.
  - split; [exact Hp|]. intros c. apply Hall.
Defined.

(** a message leaves Pending once, to one receiver: through any accepted
    edges, worlds and times, a receiver once recorded never changes, and a
    message that left Pending never returns to it. *)
Theorem receiver_never_changes own (spec : MessageSpec) s s' : rtc (message_move own spec) s s' ->
  (forall r, receiver_of s = Some r -> receiver_of s' = Some r) /\ (s <> Pending -> s' <> Pending).
Proof.
  induction 1 as [s|s1 s2 s3 Hm Hr [IH1 IH2]]; [done|]. apply message_move_receiver in Hm as [Hp Hk]. auto.
Qed.

Lemma receiver_never_changes_witness :
  receiver_of (Dropped Expired (Some sample_receiver) (Some 60)) = Some sample_receiver /\ Dropped Expired (Some sample_receiver) (Some 60) <> Pending.
Proof.
  destruct (receiver_never_changes "m" sample_spec (Awaiting sample_receiver) (Dropped Expired (Some sample_receiver) (Some 60))) as [Hr Hp].
  - apply rtc_once. exists sample_world, 70, (EDrop (mkDrop Expired)), 5, 2. vm_compute. reflexivity.
  - split; [apply Hr; reflexivity|apply Hp; discriminate].
Defined.

(** in every home of messages reached by creating, applying, evicting and
    restoring, each message's state is sound for its envelope and stands for a
    state the specification reaches. *)
Theorem message_homes_sound {L} `{!Log sig L, !LogLaws sig L} writer log (h0 h : Home sig L) name r :
  with_log writer log = Ok h0 ->
  rtc (home_step spec_ok (resource_ok (M := sig) message_inv)) h0 h -> home_resources h !! name = Some r ->
  sound (r_spec r) (value (r_state r)) /\ rtc q_move (QPending (abs_envelope (r_spec r))) (abs_state (r_spec r) (value (r_state r))).
Proof.
  intros H0 Hr Hl. destruct (home_reachable_ok (M := sig) spec_ok message_inv writer log h0 h H0 Hr) as [_ Hall].
  by destruct (Hall name r Hl) as [_ (_ & Hok)].
Qed.

Definition sample_home : Home sig (MemoryLog sig) := mkHome "h" (definition sig) ∅ memory_log_new.
Definition sample_created : Home sig (MemoryLog sig) := (create sample_home "m" (sample_spec : Request sig) (sample_world : World sig) 1).2.
Definition sample_delivered : Home sig (MemoryLog sig) := (apply sample_created "m" (EDeliver sample_deliver : Edge sig) (sample_world : World sig) 2).2.

Lemma message_homes_sound_witness : exists r, home_resources sample_delivered !! "m" = Some r /\ sound (r_spec r) (value (r_state r)).
Proof.
  destruct (home_resources sample_delivered !! "m") as [r|] eqn:Hl; [|vm_compute in Hl; discriminate].
  exists r. split; [reflexivity|]. refine (proj1 (message_homes_sound "h" memory_log_new sample_home sample_delivered "m" r _ _ Hl)).
  - unfold with_log. rewrite message_validates. reflexivity.
  - eapply rtc_l; [|eapply rtc_l; [|apply rtc_refl]].
    + eapply (hs_create _ _ _ "m" (sample_spec : Request sig) (sample_world : World sig) 1 _ sample_created);
        [exact sample_spec_ok|apply surjective_pairing].
    + eapply (hs_apply _ _ _ "m" (EDeliver sample_deliver : Edge sig) (sample_world : World sig) 2 _ sample_delivered). apply surjective_pairing.
Defined.

(** admission accepts a message, unchanged and Pending, exactly when at most
    one reference is its subject, no revision is empty and the messages it
    replies to and supersedes exist; otherwise it refuses for the first of
    these that fails. An admitted message with a subject has one subject. *)
Theorem message_admission (spec : MessageSpec) (world : MessageWorld) now :
  (admits (spec : Request sig) (mkAdmission (world : World sig) now [])).1 = (fun _ => (spec, Pending)) <$> admission_of world spec /\
  (admission_of world spec = Ok tt <->
    (length (List.filter mr_subject (references spec)) <= 1)%nat /\ (forall r, r ∈ references spec -> mr_revision r <> EmptyString) /\
    (forall m, in_reply_to spec = Some m \/ supersedes spec = Some m -> exists_in world m = true)) /\
  (admission_of world spec = Ok tt -> forall r, r ∈ references spec -> mr_subject r = true -> subject spec = Some r).
Proof.
  split; [apply (message_admit_val spec (mkAdmission (world : World sig) now []))|].
  pose proof (admission_of_iff world spec) as Hiff.
  split; [exact Hiff|]. intros Ha r Hr Hs. apply Hiff in Ha as (Hl & _). unfold subject.
  assert (r ∈ List.filter mr_subject (references spec)) as Hin by (apply list_elem_of_In, filter_In; split; [by apply list_elem_of_In|done]).
  destruct (List.filter _ _) as [|x [|y l]]; [set_solver|set_solver|cbn in Hl; lia].
Qed.

End Message.
