(* ===== verification/Receipts.v ===== *)
(** Receipts read from the store's log ([ReceiptLog] of
    [crates/flotilla-state-machines/src/machines/message.rs] over the entries of
    [crates/flotilla-schema/src/event.rs]): which entries about a message are
    receipts, and what the message's gates then see of them. *)

From S2P Require Import Prelude Schema Read Machine Validate Engine Log Home Attempt Steps Consumer AgentSession Message.

(** * Store entries *)

Abbreviation bytes := (list Byte.byte) (only parsing).

(** The parts of a store entry the receipt reader looks at: whose resource it
    is, why it was written, and an edge's encoded arguments. *)
Record StoreEvent : Type := mkEvent {
  e_kind : string;
  e_name : string;
  e_home : string;
  e_cause : Log.Cause;
  e_arguments : option bytes;
}.

(** The code a machine's stored kind is listed under. *)
Class KindSpec (M : MachineSig) : Type := CODE : string.
Arguments CODE M {_}.
#[export] Instance agent_session_code : KindSpec AgentSession.sig := "as".
#[export] Instance person_code : KindSpec Person.sig := "pn".

#[local] Existing Instance Person.machine.
#[local] Existing Instance Person.consumer.
#[local] Existing Instance AgentSession.machine.
#[local] Existing Instance AgentSession.consumer.
#[local] Existing Instance Message.machine.

Section receipts.
Context {E : Type}.

(** Decoding the CBOR document of a machine's edge. *)
Class CborEdge (M : MachineSig) : Type := from_slice : bytes -> result E (Edge M).

(** [Event::arguments]. *)
Definition arguments (M : MachineSig) `{!CborEdge M} (e : StoreEvent) : option (result E (Edge M)) := from_slice <$> e_arguments e.

Definition DecodeReceipt : Type := StoreEvent -> result E (option (string * Transport)).

(** The [decode] of [ReceiptLog::consumer]: only a [Receive] entry's arguments
    are decoded. *)
Definition decode (M : MachineSig) `{!Machine M, !Consumer M, !CborEdge M} : DecodeReceipt := fun entry =>
  match e_cause entry with
  | CauseEdge edge _ _ =>
      if bool_decide (edge = coded_code (RECEIVE M)) then
        match arguments M entry with
        | None => Ok None
        | Some edge => edge ← edge; Ok (receipt edge)
        end
      else Ok None
  | _ => Ok None
  end.

(** * The receipt log *)

Record ReceiptLog : Type := mkReceiptLog {
  consumers : gmap string (ConsumerKind * DecodeReceipt);
  messages : gmap string (Version * gmap Receiver Transport);
}.

(** [ReceiptLog::consumer]. *)
Definition add_consumer (M : MachineSig) `{!Machine M, !Consumer M, !KindSpec M, !CborEdge M} (l : ReceiptLog) : ReceiptLog :=
  mkReceiptLog (<[CODE M := (CONSUMER M, decode M)]> (consumers l)) (messages l).

(** [ReceiptLog::default]. *)
Definition receipt_log_new `{!CborEdge AgentSession.sig, !CborEdge Person.sig} : ReceiptLog :=
  add_consumer Person.sig (add_consumer AgentSession.sig (mkReceiptLog ∅ ∅)).

(** The loop of [ReceiptLog::insert]: the receipts so far and their number. *)
Fixpoint collect (cs : gmap string (ConsumerKind * DecodeReceipt)) (message : string) (entries : list StoreEvent)
    (receipts : gmap Receiver Transport) (count : Z) : result E (gmap Receiver Transport * Z) :=
  match entries with
  | [] => Ok (receipts, count)
  | entry :: entries =>
      match cs !! e_kind entry with
      | None => collect cs message entries receipts count
      | Some (kind, decode) =>
          d ← decode entry;
          match d with
          | Some (about, transport) =>
              if bool_decide (about = message)
              then collect cs message entries (<[mkReceiver kind (e_name entry) (e_home entry) := transport]> receipts) (count + 1)
              else collect cs message entries receipts count
          | None => collect cs message entries receipts count
          end
      end
  end.

(** [ReceiptLog::insert]: the log it leaves, unchanged by an error. *)
Definition receipt_insert (l : ReceiptLog) (message : string) (entries : list StoreEvent) : result E unit * ReceiptLog :=
  match collect (consumers l) message entries ∅ 0 with
  | Err e => (Err e, l)
  | Ok (receipts, count) =>
      if bool_decide (count = 0) then (Ok tt, mkReceiptLog (consumers l) (delete message (messages l)))
      else (Ok tt, mkReceiptLog (consumers l) (<[message := (count, receipts)]> (messages l)))
  end.

(** [Source<Receipts> for ReceiptLog]. *)
Definition receipt_lookup (l : ReceiptLog) (r : Ref Message.Receipts) : option (Version * gmap Receiver Transport) := messages l !! ref_name r.

(** * What the reader accepts *)

(** The receipt an entry records of a message, if any. *)
Definition receipt_of (cs : gmap string (ConsumerKind * DecodeReceipt)) (message : string) (entry : StoreEvent) :
    result E (option (Receiver * Transport)) :=
  match cs !! e_kind entry with
  | None => Ok None
  | Some (kind, decode) =>
      d ← decode entry;
      Ok (match d with
          | Some (about, transport) =>
              if bool_decide (about = message) then Some (mkReceiver kind (e_name entry) (e_home entry), transport) else None
          | None => None
          end)
  end.

(** Every receipt the entries record of a message, in order; the first entry
    that does not decode refuses them all. *)
Fixpoint receipts_of (cs : gmap string (ConsumerKind * DecodeReceipt)) (message : string) (entries : list StoreEvent) :
    result E (list (Receiver * Transport)) :=
  match entries with
  | [] => Ok []
  | entry :: entries =>
      r ← receipt_of cs message entry;
      rs ← receipts_of cs message entries;
      Ok (option_list r ++ rs)
  end.

(** The transport of a receiver's latest receipt. *)
Definition latest (rs : list (Receiver * Transport)) (r : Receiver) : option Transport :=
  snd <$> last (List.filter (fun p => bool_decide (p.1 = r)) rs).

Definition record_all (rs : list (Receiver * Transport)) (m : gmap Receiver Transport) : gmap Receiver Transport :=
  fold_left (fun m p => <[p.1 := p.2]> m) rs m.

Lemma collect_receipts cs message entries m n :
  collect cs message entries m n =
  (fun rs => (record_all rs m, n + Z.of_nat (length rs))) <$> receipts_of cs message entries.
Proof.
  revert m n. induction entries as [|e es IH]; intros m n; cbn; [by rewrite Z.add_0_r|]. unfold receipt_of.
  destruct (cs !! e_kind e) as [[k d]|]; cbn; [|rewrite IH; by destruct (receipts_of cs message es)].
  destruct (d e) as [[[about t]|]|err]; cbn; [|rewrite IH; by destruct (receipts_of cs message es)|done].
  case_bool_decide; cbn; rewrite IH; destruct (receipts_of cs message es); cbn; try done.
  f_equal. f_equal. lia.
Qed.

Lemma record_all_app rs rs' m : record_all (rs ++ rs') m = record_all rs' (record_all rs m).
Proof. apply fold_left_app. Qed.

Lemma record_all_lookup rs r : record_all rs ∅ !! r = latest rs r.
Proof.
  induction rs as [|[r' t] rs IH] using rev_ind; [done|]. rewrite record_all_app. unfold latest. cbn. rewrite List.filter_app. cbn.
  case_bool_decide as Hr.
  - subst r'. by rewrite lookup_insert_eq, last_snoc.
  - by rewrite lookup_insert_ne, app_nil_r.
Qed.

(** A latest receipt is one of the receipts, and one with receipts is found. *)
Lemma latest_elem rs r t : latest rs r = Some t -> (r, t) ∈ rs.
Proof.
  unfold latest. destruct (last _) as [[r' t']|] eqn:Hl; [|done]. intros [= <-]. apply last_Some_elem_of in Hl.
  apply list_elem_of_In, filter_In in Hl as [Hin Hr]. apply bool_decide_eq_true in Hr. cbn in Hr. subst. by apply list_elem_of_In.
Qed.

Lemma elem_of_receipts_of cs message entries rs r t : receipts_of cs message entries = Ok rs -> (r, t) ∈ rs ->
  exists e, e ∈ entries /\ receipt_of cs message e = Ok (Some (r, t)).
Proof.
  revert rs. induction entries as [|e es IH]; intros rs H Hin; cbn in H; [simplify_eq; set_solver|].
  destruct (receipt_of cs message e) as [o|] eqn:He; [|done]. cbn in H. destruct (receipts_of cs message es) as [rs'|] eqn:Hs; simplify_eq/=.
  apply elem_of_app in Hin as [Hin|Hin].
  - destruct o; cbn in Hin; [|set_solver]. apply list_elem_of_singleton in Hin. subst. exists e. split; [set_solver|done].
  - destruct (IH _ eq_refl Hin) as (e' & ? & ?). exists e'. split; [set_solver|done].
Qed.

Lemma receipts_of_app cs message es es' rs rs' : receipts_of cs message es = Ok rs -> receipts_of cs message es' = Ok rs' ->
  receipts_of cs message (es ++ es') = Ok (rs ++ rs').
Proof.
  revert rs. induction es as [|e es IH]; intros rs H H'; cbn in *; [by simplify_eq|].
  destruct (receipt_of cs message e); [|done]. cbn in *. destruct (receipts_of cs message es) as [rs1|]; simplify_eq/=.
  rewrite (IH rs1) by done. cbn. by rewrite <-app_assoc.
Qed.

(** What an insert leaves a message with. *)
Definition receipts_read (rs : list (Receiver * Transport)) : option (Version * gmap Receiver Transport) :=
  match rs with [] => None | _ => Some (Z.of_nat (length rs), record_all rs ∅) end.

Lemma receipt_insert_lookup l message entries rs : receipts_of (consumers l) message entries = Ok rs ->
  exists l', receipt_insert l message entries = (Ok tt, l') /\ consumers l' = consumers l /\
    receipt_lookup l' (mkRef message) = receipts_read rs /\ forall r, ref_name r <> message -> receipt_lookup l' r = receipt_lookup l r.
Proof.
  intros H. unfold receipt_insert. rewrite collect_receipts, H. cbn. destruct rs as [|p rs]; cbn -[Z.of_nat record_all].
  - eexists. split; [reflexivity|]. split; [done|]. unfold receipt_lookup. cbn. split; [apply lookup_delete_eq|].
    intros r Hr. by apply lookup_delete_ne.
  - rewrite bool_decide_eq_false_2 by lia. eexists. split; [reflexivity|]. split; [done|]. unfold receipt_lookup. cbn -[Z.of_nat record_all].
    split; [apply lookup_insert_eq|]. intros r Hr. by apply lookup_insert_ne.
Qed.
End receipts.
Arguments DecodeReceipt : clear implicits.
Arguments CborEdge : clear implicits.
Arguments ReceiptLog : clear implicits.

(** A message world whose receipts the log serves. *)
Definition serves {E} (l : ReceiptLog E) (w : Message.MessageWorld) : Prop :=
  forall r, Message.w_receipts w r = receipt_lookup l r.

Lemma receipt_from_latest {E} (l : ReceiptLog E) w message rs r :
  serves l w -> receipt_lookup l (mkRef message) = receipts_read rs -> Message.receipt_from w message r = latest rs r.
Proof.
  intros Hw Hl. unfold Message.receipt_from, Message.receipts_in, seen, source_lookup, Message.source_receipts. rewrite Hw, Hl.
  destruct rs as [|p rs]; [done|]. cbn -[record_all]. by rewrite record_all_lookup.
Qed.

(** The entry that records a receipt: a [Receive] edge on the consumer's own
    resource, about the message, by the transport. *)
Definition receive_entry {E} `{!CborEdge E AgentSession.sig, !CborEdge E Person.sig} (message : string) (r : Receiver) (t : Transport)
    (entry : StoreEvent) : Prop :=
  rc_id r = e_name entry /\ rc_host r = e_home entry /\
  ((rc_kind r = CAgentSession /\ e_kind entry = "as" /\
    exists f to, e_cause entry = CauseEdge "rv" f to /\
      arguments AgentSession.sig entry = Some (Ok (AgentSession.EReceive (AgentSession.mkReceive message t)))) \/
   (rc_kind r = CPerson /\ e_kind entry = "pn" /\
    exists f to, e_cause entry = CauseEdge "rv" f to /\
      arguments Person.sig entry = Some (Ok (Person.EReceive (Person.mkReceive message t))))).

(** An entry the reader takes as a receipt from an agent session or a person
    is that consumer's [Receive] edge about the message. *)
Lemma default_receipt {E} `{!CborEdge E AgentSession.sig, !CborEdge E Person.sig} message entry r t :
  receipt_of (consumers receipt_log_new) message entry = Ok (Some (r, t)) ->
  receive_entry message r t entry.
Proof.
  unfold receipt_of, receive_entry. cbn -[decode]. intros H.
  destruct (decide (e_kind entry = "pn")) as [Hk|Hk]; [|destruct (decide (e_kind entry = "as")) as [Hk'|Hk']].
  - rewrite Hk in H. change (CODE Person.sig) with "pn" in H. rewrite lookup_insert_eq in H. unfold decode in H.
    destruct (e_cause entry) as [| |edge f to| |]; try done. case_bool_decide as Hr; [|done]. cbn in Hr. subst edge.
    destruct (arguments Person.sig entry) as [[[[m tr]]|]|]; try done. cbn in H. case_bool_decide; [|done]. simplify_eq/=.
    split_and!; [done|done|]. right. split_and!; [done|done|]. by exists f, to.
  - change (CODE Person.sig) with "pn" in H. rewrite lookup_insert_ne in H by done. change (CODE AgentSession.sig) with "as" in H.
    rewrite Hk', lookup_insert_eq in H. unfold decode in H.
    destruct (e_cause entry) as [| |edge f to| |]; try done. case_bool_decide as Hr; [|done]. cbn in Hr. subst edge.
    destruct (arguments AgentSession.sig entry) as [[ed|]|]; try done. destruct ed as [x|x|x|[m tr]|x]; try done.
    cbn in H. case_bool_decide; [|done]. simplify_eq/=. split_and!; [done|done|]. left. split_and!; [done|done|]. by exists f, to.
  - change (CODE Person.sig) with "pn" in H. change (CODE AgentSession.sig) with "as" in H.
    rewrite !lookup_insert_ne, lookup_empty in H by done. done.
Qed.

(** * Properties *)

(** recording a message's log entries leaves the receipt reader with exactly
    the receipts among them: for each consumer the transport of its latest one,
    at a version that counts them all, no row when there is none, and every
    other message as it was. An entry that does not decode refuses the whole
    insert and changes nothing. *)
Theorem receipts_are_read_from_log {E} (l : ReceiptLog E) message entries :
  match receipts_of (consumers l) message entries with
  | Ok rs => exists l', receipt_insert l message entries = (Ok tt, l') /\
      (receipt_lookup l' (mkRef message) = None <-> rs = []) /\
      (forall version by_consumer, receipt_lookup l' (mkRef message) = Some (version, by_consumer) ->
        version = Z.of_nat (length rs) /\ forall r, by_consumer !! r = latest rs r) /\
      (forall r, ref_name r <> message -> receipt_lookup l' r = receipt_lookup l r)
  | Err e => receipt_insert l message entries = (Err e, l)
  end.
Proof.
  destruct (receipts_of _ _ _) as [rs|e] eqn:H.
  - destruct (receipt_insert_lookup l message entries rs H) as (l' & Hi & _ & Hl & Ho). exists l'. rewrite Hl. split; [done|].
    split; [by destruct rs|]. split; [|done]. intros version by_consumer Hr. destruct rs as [|p rs]; [done|].
    injection Hr as <- <-. split; [done|]. intros r. apply (record_all_lookup (p :: rs)).
  - unfold receipt_insert. by rewrite collect_receipts, H.
Qed.

(** C2: a message is delivered exactly on its consumer's own word: over a world
    whose receipts come from the log of sessions and persons, a delivery of a
    pending message is accepted if and only if the receiver's latest receipt
    among the entries is by this transport; and then an entry about the message
    is that consumer's [Receive] edge, on its own resource, by this transport. *)
Theorem delivery_has_a_receive_edge {E} `{!CborEdge E AgentSession.sig, !CborEdge E Person.sig}
    (entries : list StoreEvent) (l : ReceiptLog E) (r : Resource Message.sig) (a : Message.Deliver) (world : Message.MessageWorld) now :
  receipt_insert receipt_log_new (r_name r) entries = (Ok tt, l) -> serves l world -> value (r_state r) = Message.Pending ->
  let accepted := is_ok (step (definition Message.sig) (Message.EDeliver a : Edge Message.sig) (handle_on r (world : World Message.sig) now)).1 in
  exists rs, receipts_of (consumers receipt_log_new) (r_name r) entries = Ok rs /\
    (accepted = true <-> latest rs (Message.dl_receiver a) = Some (Message.dl_transport a)) /\
    (accepted = true -> exists entry, entry ∈ entries /\ receive_entry (r_name r) (Message.dl_receiver a) (Message.dl_transport a) entry).
Proof.
  intros Hi Hw Hp. destruct (receipts_of (consumers receipt_log_new) (r_name r) entries) as [rs|e] eqn:Hrs.
  2:{ unfold receipt_insert in Hi. by rewrite collect_receipts, Hrs in Hi. }
  destruct (receipt_insert_lookup _ _ _ _ Hrs) as (l' & Hi' & _ & Hl & _). rewrite Hi in Hi'. injection Hi' as <-.
  rewrite Message.message_step_next. unfold Message.message_next. rewrite Hp. unfold Message.deliver_ok, Message.check.
  rewrite (receipt_from_latest l world (r_name r) rs) by done. exists rs. split; [done|].
  case_bool_decide as Hlat; [|by split]. split; [done|]. intros _. apply latest_elem in Hlat.
  destruct (elem_of_receipts_of _ _ _ _ _ _ Hrs Hlat) as (entry & Hin & Hr). exists entry. split; [done|]. by apply default_receipt.
Qed.

(** A toy decoding: an empty document does not decode, any other is a receipt
    of message [m]. *)
#[local] Instance sample_decode_session : CborEdge unit AgentSession.sig := fun b =>
  match b with [] => Err tt | _ => Ok (AgentSession.EReceive (AgentSession.mkReceive "m" Turn)) end.
#[local] Instance sample_decode_person : CborEdge unit Person.sig := fun b =>
  match b with [] => Err tt | _ => Ok (Person.EReceive (Person.mkReceive "m" Notify)) end.
Definition sample_entries : list StoreEvent :=
  [mkEvent "as" "s" "home" (CauseEdge "rv" "li" "li") (Some [Byte.x00]); mkEvent "as" "s" "home" (CauseEdge "at" "li" "li") (Some []);
   mkEvent "pn" "p" "home" (CauseEdge "rv" "ac" "ac") (Some [Byte.x01])].
Definition sample_log : ReceiptLog unit := (receipt_insert receipt_log_new "m" sample_entries).2.
Definition sample_log_world : Message.MessageWorld :=
  Message.mkWorld (receipt_lookup sample_log) (fun _ => None) (fun _ => None) (fun _ => None) (fun _ => None) (fun _ => None) (fun _ => None)
    (fun _ => None) (fun _ => None).

Lemma delivery_has_a_receive_edge_witness :
  exists entry, entry ∈ sample_entries /\ receive_entry "m" (mkReceiver CPerson "p" "home") Notify entry.
Proof.
  destruct (delivery_has_a_receive_edge sample_entries sample_log Message.sample_message
    (Message.mkDeliver (mkReceiver CPerson "p" "home") Notify) sample_log_world 5) as (rs & _ & _ & Hacc).
  - assert ((receipt_insert receipt_log_new "m" sample_entries).1 = Ok tt) as Ho by (vm_compute; reflexivity).
    unfold sample_log. change (r_name Message.sample_message) with "m". destruct (receipt_insert _ _ _) as [v l]. cbn in Ho |- *. by rewrite Ho.
  - intros r. reflexivity.
  - reflexivity.
  - apply Hacc. vm_compute. reflexivity.
Defined.
