(* ===== verification/AwaitingReply.v ===== *)
(** The sender's half of an exchange
    ([crates/flotilla-state-machines/src/machines/awaiting_reply.rs]): open until
    a reply lands in the sender's inbox, the deadline passes without one, or the
    sender withdraws; and its refinement of
    [specs/primitives/machines/awaiting_reply.qnt]. *)

From S2P Require Import Prelude Schema Read Machine Validate Engine Log Home Attempt Steps.

Module AwaitingReply.

(** * The record *)

Inductive Awaited : Type := Reply | Outcome.
Definition MessageRef : Type := SRef.
#[export] Instance MessageRef_eq_dec : EqDecision MessageRef := _ : EqDecision SRef.

Record AwaitingReplySpec : Type := mkSpec {
  message : MessageRef;
  sender : Address;
  recipient : Address;
  subject : option Address;
  kind : string;
  awaited : Awaited;
  deadline : option Timestamp;
}.

Inductive AwaitingReplyState : Type :=
| Open
| Answered
| Expired
| Withdrawn (reason : string).

Inductive AwaitingReplyLabel : Type := LOpen | LAnswered | LExpired | LWithdrawn.
#[export] Instance AwaitingReplyLabel_eq_dec : EqDecision AwaitingReplyLabel.
Proof. solve_decision. Defined.

#[export] Program Instance awaiting_reply_label_coded : Coded AwaitingReplyLabel := {|
  coded_ALL := [LOpen; LAnswered; LExpired; LWithdrawn];
  coded_name l := match l with LOpen => "Open" | LAnswered => "Answered" | LExpired => "Expired" | LWithdrawn => "Withdrawn" end;
  coded_code l := match l with LOpen => "op" | LAnswered => "an" | LExpired => "ex" | LWithdrawn => "wd" end;
|}.
Next Obligation. coded_complete_tac. Qed.
Next Obligation. coded_nodup_tac. Qed.

Inductive AwaitingReplyDatum : Type :=
| DText (v : string).
#[export] Instance AwaitingReplyDatum_eq_dec : EqDecision AwaitingReplyDatum.
Proof. solve_decision. Defined.

Definition awaiting_reply_label (s : AwaitingReplyState) : AwaitingReplyLabel :=
  match s with Open => LOpen | Answered => LAnswered | Expired => LExpired | Withdrawn _ => LWithdrawn end.

Definition awaiting_reply_data (s : AwaitingReplyState) : list (string * AwaitingReplyDatum) :=
  match s with
  | Open => []
  | Answered => []
  | Expired => []
  | Withdrawn x0 => [("reason", DText x0)]
  end.

Definition awaiting_reply_fields (l : AwaitingReplyLabel) : list string :=
  match l with
  | LOpen => []
  | LAnswered => []
  | LExpired => []
  | LWithdrawn => ["reason"]
  end.

(** * Kinds read *)

(** A message as it landed: its inbox and the message it replies to. *)
Record Landing : Type := mkLanding { la_inbox : Address; la_in_reply_to : option MessageRef }.

Inductive Landed : Type := .
Inductive Replies : Type := .
Inductive Authority : Type := .
#[export] Instance landed_kind : Kind Landed := {| kind_NAME := "landed"; kind_Value := Landing |}.
#[export] Instance replies_kind : Kind Replies := {| kind_NAME := "replies"; kind_Value := gset Address |}.
#[export] Instance authority_kind : Kind Authority := {| kind_NAME := "authority"; kind_Value := bool |}.

(** [dyn AwaitingReplyWorld]: a source of each kind. *)
Record AwaitingReplyWorld : Type := mkWorld {
  w_landed : Ref Landed -> option (Version * Landing);
  w_replies : Ref Replies -> option (Version * gset Address);
  w_authority : Ref Authority -> option (Version * bool);
}.
#[export] Instance source_landed : Source AwaitingReplyWorld Landed := w_landed.
#[export] Instance source_replies : Source AwaitingReplyWorld Replies := w_replies.
#[export] Instance source_authority : Source AwaitingReplyWorld Authority := w_authority.

(** The world's key for a message: [name@home]. *)
Definition key (m : MessageRef) : string := sref_name m +:+ "@" +:+ sref_home m.
Definition landed (m : MessageRef) : Ref Landed := mkRef (key m).
Definition replies (m : MessageRef) : Ref Replies := mkRef (key m).

(** [MemoryAwaitingReplyWorld]. *)
Record MemoryAwaitingReplyWorld : Type := mkMemoryWorld {
  m_landed : Table Landed;
  m_replies : Table Replies;
  m_authority : Table Authority;
}.
Definition memory_world (w : MemoryAwaitingReplyWorld) : AwaitingReplyWorld :=
  mkWorld (table_lookup (m_landed w)) (table_lookup (m_replies w)) (table_lookup (m_authority w)).

(** [MemoryAwaitingReplyWorld::land]. *)
Definition land (w : MemoryAwaitingReplyWorld) (m : MessageRef) (inbox : Address) (in_reply_to : option MessageRef) : MemoryAwaitingReplyWorld :=
  let ls := (table_put (m_landed w) (landed m) (mkLanding inbox in_reply_to)).2 in
  match in_reply_to with
  | None => mkMemoryWorld ls (m_replies w) (m_authority w)
  | Some answered =>
      let reference := replies answered in
      let inboxes := default ∅ (snd <$> table_lookup (m_replies w) reference) in
      mkMemoryWorld ls (table_put (m_replies w) reference ({[inbox]} ∪ inboxes)).2 (m_authority w)
  end.

(** * Edges *)

Record Answer : Type := mkAnswer { an_reply : MessageRef }.
Record Expire : Type := mkExpire { }.
Record Withdraw : Type := mkWithdraw { wd_by : Address; wd_reason : string; wd_authority : Ref Authority }.

Inductive AwaitingReplyEdge : Type :=
| EAnswer (a : Answer)
| EExpire (a : Expire)
| EWithdraw (a : Withdraw).

Inductive AwaitingReplyEdgeKind : Type := KAnswer | KExpire | KWithdraw.
#[export] Instance AwaitingReplyEdgeKind_eq_dec : EqDecision AwaitingReplyEdgeKind.
Proof. solve_decision. Defined.

#[export] Program Instance awaiting_reply_kind_coded : Coded AwaitingReplyEdgeKind := {|
  coded_ALL := [KAnswer; KExpire; KWithdraw];
  coded_name k := match k with KAnswer => "answer" | KExpire => "expire" | KWithdraw => "withdraw" end;
  coded_code k := match k with KAnswer => "an" | KExpire => "ex" | KWithdraw => "wd" end;
|}.
Next Obligation. coded_complete_tac. Qed.
Next Obligation. coded_nodup_tac. Qed.

Definition awaiting_reply_edge_kind (e : AwaitingReplyEdge) : AwaitingReplyEdgeKind :=
  match e with EAnswer _ => KAnswer | EExpire _ => KExpire | EWithdraw _ => KWithdraw end.

Inductive AwaitingReplyRefusal : Type := NotOpen | ReplyAbsent | NotAReply | NoDeadline | NotDue | ReplyPresent | Unauthorised.

Definition sig : MachineSig := {|
  M_NAME := "AwaitingReply";
  Request := AwaitingReplySpec;
  Spec := AwaitingReplySpec;
  MState := AwaitingReplyState;
  Label := AwaitingReplyLabel;
  Datum := AwaitingReplyDatum;
  Edge := AwaitingReplyEdge;
  EdgeKind := AwaitingReplyEdgeKind;
  Write := NoRecords;
  Refusal := AwaitingReplyRefusal;
  World := AwaitingReplyWorld;
  label := awaiting_reply_label;
  data := awaiting_reply_data;
  fields := awaiting_reply_fields;
  edge_kind := awaiting_reply_edge_kind;
  write_field := no_records_field;
  write_apply := no_records_apply;
  of_ended e := NotOpen;
  of_wrong_state e := NotOpen;
|}.

#[export] Instance arg_answer : EdgeArg sig Answer :=
  edge_arg sig KAnswer (fun e => match e with EAnswer a => Some a | _ => None end) EAnswer.
#[export] Instance arg_expire : EdgeArg sig Expire :=
  edge_arg sig KExpire (fun e => match e with EExpire a => Some a | _ => None end) EExpire.
#[export] Instance arg_withdraw : EdgeArg sig Withdraw :=
  edge_arg sig KWithdraw (fun e => match e with EWithdraw a => Some a | _ => None end) EWithdraw.

(** * Gates *)

Abbreviation H := (HM sig) (only parsing).
Abbreviation G := (GM sig) (only parsing).
Abbreviation read_landed := (@h_read sig Landed landed_kind source_landed) (only parsing).
Abbreviation read_replies := (@h_read sig Replies replies_kind source_replies) (only parsing).
Abbreviation read_authority := (@h_read sig Authority authority_kind source_authority) (only parsing).

Definition reply_present : H bool :=
  do! h := @ask sig in
  do! found := read_replies (replies (message (h_spec h))) in
  hret match found with Some inboxes => bool_decide (sender (h_spec h) ∈ inboxes) | None => false end.

Definition gate_answer (a : Answer) : G unit :=
  let! h := @ask sig in
  let! found := read_landed (landed (an_reply a)) in
  match found with
  | Some landing =>
      if bool_decide (la_inbox landing = sender (h_spec h)) then
        if bool_decide (la_in_reply_to landing = Some (message (h_spec h))) then gret tt else refuse NotAReply
      else refuse ReplyAbsent
  | None => refuse ReplyAbsent
  end.

Definition gate_expire (_ : Expire) : G unit :=
  let! h := @ask sig in
  match deadline (h_spec h) with
  | None => refuse NoDeadline
  | Some d =>
      if bool_decide (h_now h <= d) then refuse NotDue
      else
        let! p := reply_present in
        if p : bool then refuse ReplyPresent else gret tt
  end.

Definition gate_withdraw (a : Withdraw) : G unit :=
  let! v := read_authority (wd_authority a) in
  if negb (default false v) || bool_decide (wd_reason a = EmptyString) then refuse Unauthorised else gret tt.

(** * The declaration *)

Local Open Scope flotilla_scope.

Definition answer_edge : EdgeDef sig Answer :=
  edge_new |> from [LOpen] |> to [LAnswered]
  |> gate "the reply landed in the sender's inbox and replies to the awaited message" gate_answer
  |> effect (fun _ _ => hret Answered).
Definition expire_edge : EdgeDef sig Expire :=
  edge_new |> from [LOpen] |> to [LExpired]
  |> gate "the clock is strictly past the deadline and no reply is in the sender's inbox" gate_expire
  |> effect (fun _ _ => hret Expired).
Definition withdraw_edge : EdgeDef sig Withdraw :=
  edge_new |> from [LOpen] |> to [LWithdrawn] |> changes ["reason"]
  |> gate "an authorised withdrawal with a reason" gate_withdraw
  |> effect (fun _ a => hret (Withdrawn (wd_reason a))).

Definition awaiting_definition : MachineDef sig :=
  @def_new sig LOpen
  |> def_edge answer_edge |> def_edge expire_edge |> def_edge withdraw_edge
  |> def_end LAnswered "a reply answered the record" |> def_end LExpired "the record expired unanswered"
  |> def_end LWithdrawn "the sender withdrew the record".

Definition awaiting_admit (spec : AwaitingReplySpec) : AM sig (AwaitingReplySpec * AwaitingReplyState) := aret (spec, Open).

#[export] Instance machine : Machine sig := {| definition := awaiting_definition; admits := awaiting_admit |}.
#[export] Instance stamped : StampedWrites sig.
Proof. no_records. Defined.

Lemma awaiting_validates : validate (definition sig) = Ok tt.
Proof. vm_compute. reflexivity. Qed.

(** * Steps *)

Definition declared (e : AwaitingReplyEdge) : DeclaredEdge sig :=
  match e with
  | EAnswer _ => declare_edge answer_edge
  | EExpire _ => declare_edge expire_edge
  | EWithdraw _ => declare_edge withdraw_edge
  end.

Lemma awaiting_find (e : AwaitingReplyEdge) : find (definition sig) (edge_kind sig e) = Some (declared e).
Proof. by destruct e. Qed.

Definition landing_of (w : AwaitingReplyWorld) (m : MessageRef) : option Landing := @seen _ Landed landed_kind source_landed w (landed m).
Definition authorised_in (w : AwaitingReplyWorld) (a : Ref Authority) : bool :=
  default false (@seen _ Authority authority_kind source_authority w a).
(** The sender's own inbox holds a reply to the awaited message. *)
Definition replied (w : AwaitingReplyWorld) (spec : AwaitingReplySpec) : bool :=
  match @seen _ Replies replies_kind source_replies w (replies (message spec)) with
  | Some inboxes => bool_decide (sender spec ∈ inboxes) | None => false end.

Definition answer_ok (w : AwaitingReplyWorld) (spec : AwaitingReplySpec) (a : Answer) : result AwaitingReplyRefusal unit :=
  match landing_of w (an_reply a) with
  | Some l =>
      if bool_decide (la_inbox l = sender spec) then
        if bool_decide (la_in_reply_to l = Some (message spec)) then Ok tt else Err NotAReply
      else Err ReplyAbsent
  | None => Err ReplyAbsent
  end.
Definition expire_ok (w : AwaitingReplyWorld) (spec : AwaitingReplySpec) (now : Timestamp) : result AwaitingReplyRefusal unit :=
  match deadline spec with
  | None => Err NoDeadline
  | Some d => if bool_decide (now <= d) then Err NotDue else if replied w spec then Err ReplyPresent else Ok tt
  end.
Definition withdraw_ok (w : AwaitingReplyWorld) (a : Withdraw) : result AwaitingReplyRefusal unit :=
  if negb (authorised_in w (wd_authority a)) || bool_decide (wd_reason a = EmptyString) then Err Unauthorised else Ok tt.

Lemma reply_present_reads : reads_only reply_present.
Proof. unfold reply_present. reads_only_tac. Qed.
Lemma reply_present_val h : (reply_present h).1 = replied (h_world h) (h_spec h).
Proof. done. Qed.
#[local] Hint Resolve reply_present_reads : flotilla.
Lemma gate_answer_reads a : reads_only (gate_answer a).
Proof. unfold gate_answer. reads_only_tac. Qed.
Lemma gate_answer_val a h : (gate_answer a h).1 = answer_ok (h_world h) (h_spec h) a.
Proof.
  unfold gate_answer, answer_ok, glet, ask, landing_of. cbn. destruct (seen _ _); [|done]. repeat (case_bool_decide; try done).
Qed.
Lemma gate_expire_reads a : reads_only (gate_expire a).
Proof. unfold gate_expire. reads_only_tac. Qed.
Lemma gate_expire_val a h : (gate_expire a h).1 = expire_ok (h_world h) (h_spec h) (h_now h).
Proof.
  unfold gate_expire, expire_ok. rewrite glet_eq. cbn [ask fst snd]. destruct (deadline (h_spec h)); [|done]. case_bool_decide; [done|].
  rewrite glet_eq, reply_present_val. by destruct (replied _ _).
Qed.
Lemma gate_withdraw_reads a : reads_only (gate_withdraw a).
Proof. unfold gate_withdraw. reads_only_tac. Qed.
Lemma gate_withdraw_val a h : (gate_withdraw a h).1 = withdraw_ok (h_world h) a.
Proof. unfold gate_withdraw, withdraw_ok, glet, authorised_in. cbn. by destruct (negb _ || _). Qed.
#[local] Arguments answer_ok : simpl never.
#[local] Arguments expire_ok : simpl never.
#[local] Arguments withdraw_ok : simpl never.

(** What a step does, on every branch. *)
Definition awaiting_next (spec : AwaitingReplySpec) (w : AwaitingReplyWorld) (now : Timestamp) (s : AwaitingReplyState) (e : AwaitingReplyEdge) :
    result AwaitingReplyRefusal AwaitingReplyState :=
  match s with
  | Open =>
      match e with
      | EAnswer a => _ ← answer_ok w spec a; Ok Answered
      | EExpire _ => _ ← expire_ok w spec now; Ok Expired
      | EWithdraw a => _ ← withdraw_ok w a; Ok (Withdrawn (wd_reason a))
      end
  | _ => Err NotOpen
  end.

Lemma awaiting_step_next (r : Resource sig) (edge : AwaitingReplyEdge) (world : AwaitingReplyWorld) now :
  (step (definition sig) edge (handle_on r world now)).1 =
  map_err (@Refused sig) (awaiting_next (r_spec r) world now (value (r_state r)) edge).
Proof.
  destruct r as [name spec [s since] version]. cbn -[step definition awaiting_next].
  destruct s; [|step_is_ended; reflexivity..]. destruct edge;
    first [ step_by_gate awaiting_find gate_answer gate_answer_val gate_answer_reads
          | step_by_gate awaiting_find gate_expire gate_expire_val gate_expire_reads
          | step_by_gate awaiting_find gate_withdraw gate_withdraw_val gate_withdraw_reads ].
Qed.

(** * The abstract machine: [specs/primitives/machines/awaiting_reply.qnt] *)

Inductive Deadline : Type := Never | At (d : Z).
(** The parts of the specification's request its rules read. *)
Record QRequest : Type := mkRequest { q_message : MessageRef; q_deadline : Deadline }.
Inductive QState : Type := QOpen | QAnswered (reply : MessageRef) | QExpired (at_ : Z) | QWithdrawn (reason : string).
Inductive Event : Type :=
| QAnswer (reply : MessageRef) (inReplyTo : option MessageRef) (present : bool)
| QExpire (now : Z) (replyPresent : bool)
| QWithdraw (authorised : bool) (reason : string).
Inductive Next : Type := Moved (s : QState) | QRefused (r : AwaitingReplyRefusal).

Definition qstep (r : QRequest) (s : QState) (e : Event) : Next :=
  match s with
  | QOpen =>
      match e with
      | QAnswer reply inReplyTo present =>
          if negb present then QRefused ReplyAbsent
          else if bool_decide (inReplyTo <> Some (q_message r)) then QRefused NotAReply
          else Moved (QAnswered reply)
      | QExpire now replyPresent =>
          match q_deadline r with
          | Never => QRefused NoDeadline
          | At d => if bool_decide (now <= d) then QRefused NotDue else if replyPresent then QRefused ReplyPresent else Moved (QExpired now)
          end
      | QWithdraw authorised reason =>
          if negb authorised || bool_decide (reason = EmptyString) then QRefused Unauthorised else Moved (QWithdrawn reason)
      end
  | _ => QRefused NotOpen
  end.

(** * Refinement *)

Definition abs_request (spec : AwaitingReplySpec) : QRequest :=
  mkRequest (message spec) match deadline spec with Some d => At d | None => Never end.

(** The store keeps which reply answered in the reply's own record, and an
    end's time in the state's [since]. *)
Definition abs_state (q : QState) (s : AwaitingReplyState) : Prop :=
  match q, s with
  | QOpen, Open | QAnswered _, Answered | QExpired _, Expired => True
  | QWithdrawn reason, Withdrawn reason' => reason = reason'
  | _, _ => False
  end.

Definition abs_event (spec : AwaitingReplySpec) (w : AwaitingReplyWorld) (now : Timestamp) (e : AwaitingReplyEdge) : Event :=
  match e with
  | EAnswer a => QAnswer (an_reply a) (landing_of w (an_reply a) ≫= la_in_reply_to)
      (match landing_of w (an_reply a) with Some l => bool_decide (la_inbox l = sender spec) | None => false end)
  | EExpire _ => QExpire now (replied w spec)
  | EWithdraw a => QWithdraw (authorised_in w (wd_authority a)) (wd_reason a)
  end.

Definition agrees (r : result (StepError sig) AwaitingReplyState) (n : Next) : Prop :=
  match r with
  | Ok s' => exists q', n = Moved q' /\ abs_state q' s'
  | Err (Refused rf) => n = QRefused rf
  | Err (Faulted _) => False
  end.

Lemma awaiting_refines_core spec q s w now e : abs_state q s ->
  agrees (map_err (@Refused sig) (awaiting_next spec w now s e)) (qstep (abs_request spec) q (abs_event spec w now e)).
Proof.
  intros Hq. destruct q, s; try done. destruct e as [a|a|a]; cbn.
  - unfold answer_ok. destruct (landing_of _ _) as [l|]; cbn; [|done]. case_bool_decide; cbn; [|done].
    repeat case_bool_decide; cbn; try done. by eexists.
  - unfold expire_ok. destruct (deadline spec); cbn; [|done]. case_bool_decide; [done|]. destruct (replied _ _); cbn; [done|]. by eexists.
  - unfold withdraw_ok. destruct (negb _ || _); cbn; [done|]. by eexists.
Qed.

Definition q_move (r : QRequest) (q q' : QState) : Prop := exists e, qstep r q e = Moved q'.
Definition refines (spec : AwaitingReplySpec) (s : AwaitingReplyState) : Prop :=
  exists q, rtc (q_move (abs_request spec)) QOpen q /\ abs_state q s.

#[export] Instance awaiting_machine_refines : MachineInv sig (fun _ => True) refines.
Proof.
  apply (machine_inv_by_next sig (fun _ => awaiting_next)); [by intros []|intros; apply awaiting_step_next| |].
  - intros request world now spec state ad _ Ha. injection Ha as <- <- <-. exists QOpen. by split; [apply rtc_refl|].
  - intros _ spec w now s e s' (q & Hq & Ha) Hn. pose proof (awaiting_refines_core spec q s w now e Ha) as Hc. rewrite Hn in Hc.
    destruct Hc as (q' & Hs & Ha'). exists q'. split; [|done]. eapply rtc_r; [exact Hq|]. by eexists.
Qed.

(** * Properties *)

Definition sample_spec : AwaitingReplySpec :=
  mkSpec (mkSRef "m" "far") (mkAddress "flotilla:role/a") (mkAddress "flotilla:inbox/b") None "stall" Reply (Some 50).
Definition sample_record : Resource sig := mkResource "w" (sample_spec : Spec sig) (mkState (Open : MState sig) 0) 1.
Definition sample_memory : MemoryAwaitingReplyWorld := mkMemoryWorld table_new table_new table_new.

(** C38: a step of an awaiting-reply record agrees with its specification: from
    related states both move, to related states, or both refuse, with the same
    refusal; and no step faults. *)
Theorem awaiting_step_refines (r : Resource sig) (q : QState) (edge : AwaitingReplyEdge) (world : AwaitingReplyWorld) now :
  abs_state q (value (r_state r)) ->
  agrees (step (definition sig) (edge : Edge sig) (handle_on r (world : World sig) now)).1
    (qstep (abs_request (r_spec r)) q (abs_event (r_spec r) world now edge)).
Proof. intros Hq. rewrite awaiting_step_next. by apply awaiting_refines_core. Qed.

Lemma awaiting_step_refines_witness :
  agrees (step (definition sig) (EExpire mkExpire : Edge sig) (handle_on sample_record (memory_world sample_memory : World sig) 60)).1 (Moved (QExpired 60)).
Proof.
  pose proof (awaiting_step_refines sample_record QOpen (EExpire mkExpire) (memory_world sample_memory) 60 I) as Ha. exact Ha.
Defined.

(** a reply that landed in the sender's inbox wins over a passed deadline:
    over the memory world in which it landed, the answer naming it is accepted
    at any time, and an expiry is refused at every time. *)
Theorem landed_reply_wins (r : Resource sig) (w : MemoryAwaitingReplyWorld) (reply : MessageRef) now now' :
  value (r_state r) = Open ->
  let world := memory_world (land w reply (sender (r_spec r)) (Some (message (r_spec r)))) in
  (step (definition sig) (EAnswer (mkAnswer reply) : Edge sig) (handle_on r (world : World sig) now)).1 = Ok Answered /\
  is_ok (step (definition sig) (EExpire mkExpire : Edge sig) (handle_on r (world : World sig) now')).1 = false.
Proof.
  intros Hs world. rewrite !awaiting_step_next, Hs. cbn. split.
  - unfold answer_ok, landing_of, seen, source_lookup, source_landed, world, land, table_lookup. cbn. unfold table_lookup. cbn.
    rewrite lookup_insert_eq. cbn. by rewrite !bool_decide_eq_true_2.
  - unfold expire_ok. destruct (deadline _); [|done]. case_bool_decide; [done|].
    unfold replied, seen, source_lookup, source_replies, world, land. cbn. unfold table_lookup. cbn. rewrite lookup_insert_eq. cbn.
    by rewrite bool_decide_eq_true_2 by set_solver.
Qed.

Lemma landed_reply_wins_witness :
  (step (definition sig) (EAnswer (mkAnswer (mkSRef "re" "near")) : Edge sig) (handle_on sample_record
    (memory_world (land sample_memory (mkSRef "re" "near") (sender (r_spec sample_record)) (Some (message (r_spec sample_record)))) : World sig) 99)).1 = Ok Answered.
Proof. exact (proj1 (landed_reply_wins sample_record sample_memory (mkSRef "re" "near") 99 99 eq_refl)). Defined.

End AwaitingReply.
