(* ===== verification/ConvoySteps.v ===== *)
(** What a step of the convoy machine decides and writes, on every branch, as a
    function of the spec, the world, the time, the state and the edge; and that
    its record writes fit whatever version stamps them. *)

From S2P Require Import Prelude Schema Read Machine Validate Engine Log Home Attempt Steps Convoy.
Import Convoy.

Module ConvoySteps.

(** * Record writes and stamps *)

(** Tables that agree but for the stamps. *)
Definition unstamped_rows {R} (eq : relation R) : relation (Records R) := fun r r' =>
  Forall2 (fun a b => position a = position b /\ eq (record a) (record b)) (rows r) (rows r').

(** Promises that agree but for the stamps of their submissions. *)
Record unstamped_promise (p q : Promise) : Prop := mkUnstampedPromise {
  up_same : set_submissions records_new p = set_submissions records_new q;
  up_submissions : unstamped_rows eq (p_submissions p) (p_submissions q);
}.

Record unstamped_spec (s t : ConvoySpec) : Prop := mkUnstampedSpec {
  us_same : with_seats (with_promises s records_new) records_new = with_seats (with_promises t records_new) records_new;
  us_seats : unstamped_rows eq (seats s) (seats t);
  us_promises : unstamped_rows unstamped_promise (promises s) (promises t);
}.

Section rows.
Context {R : Type} (eq : relation R).

#[export] Instance unstamped_rows_equiv `{!Equivalence eq} : Equivalence (unstamped_rows eq).
Proof.
  split.
  - intros r. unfold unstamped_rows. apply Forall_Forall2_diag. apply Forall_forall. by intros.
  - intros r r' H. unfold unstamped_rows. apply Forall2_flip. eapply Forall2_impl; [exact H|].
    intros a b [-> ?]. split; [done|by symmetry].
  - intros r1 r2 r3. unfold unstamped_rows. intros H1. destruct r3 as [l3]. cbn. revert l3.
    induction H1 as [|a b l l' [Hp He] _ IH]; intros l3 H2; inversion_clear H2 as [|? c ? l3' [Hp' He']]; constructor; [|by apply IH].
    split; [congruence|by etrans].
Qed.

Lemma unstamped_append r r' v v' x x' t : unstamped_rows eq r r' -> eq x x' ->
  records_append r v x = Ok t -> exists t', records_append r' v' x' = Ok t' /\ unstamped_rows eq t t'.
Proof.
  intros Hr Hx. unfold records_append. pose proof (Forall2_length _ _ _ Hr) as Hl. rewrite <-Hl.
  destruct (u32_try_from _); intros H; simplify_eq. eexists. split; [done|]. unfold unstamped_rows. cbn.
  apply Forall2_app; [done|]. by repeat constructor.
Qed.

Lemma unstamped_alter r r' pos f f' : unstamped_rows eq r r' -> (forall x x', eq x x' -> eq (f x) (f' x')) ->
  unstamped_rows eq (records_alter r pos f) (records_alter r' pos f').
Proof.
  intros Hr Hf. unfold unstamped_rows, records_alter. cbn.
  apply Forall2_alter; [done|]. intros x y _ _ [Hp He]. cbn. auto.
Qed.

Lemma unstamped_append_all `{!Reflexive eq} xs : forall r r' v v' t, unstamped_rows eq r r' ->
  append_all r v xs = Ok t -> exists t', append_all r' v' xs = Ok t' /\ unstamped_rows eq t t'.
Proof.
  induction xs as [|x xs IH]; intros r r' v v' t Hr H; cbn in *; [simplify_eq; eauto|].
  destruct (records_append r v x) as [r1|] eqn:Ha; [|done].
  destruct (unstamped_append r r' v v' x x r1 Hr) as (r1' & Ha' & Hr1); [done|done|].
  unfold append_all in *. cbn. rewrite Ha'. by eapply IH.
Qed.

Lemma unstamped_get r r' pos : unstamped_rows eq r r' ->
  match records_get r pos, records_get r' pos with
  | Some a, Some b => eq (record a) (record b)
  | None, None => True
  | _, _ => False
  end.
Proof.
  intros Hr. unfold records_get. unfold unstamped_rows in Hr. rewrite Forall2_lookup in Hr. specialize (Hr (Z.to_nat pos)).
  destruct Hr as [a b []|]; done.
Qed.
End rows.

#[export] Instance unstamped_promise_equiv : Equivalence unstamped_promise.
Proof.
  split.
  - intros p. by constructor.
  - intros p q [Hs Hr]. constructor; by symmetry.
  - intros p q r [Hs Hr] [Hs' Hr']. constructor; by etrans.
Qed.

#[export] Instance unstamped_spec_equiv : Equivalence unstamped_spec.
Proof.
  split.
  - intros s. by constructor.
  - intros s t [Hs Hp Hr]. constructor; by symmetry.
  - intros s t u [Hs Hp Hr] [Hs' Hp' Hr']. constructor; by etrans.
Qed.

Lemma unstamped_set_progress st p q : unstamped_promise p q -> unstamped_promise (set_progress st p) (set_progress st q).
Proof. destruct p, q. intros [[=] Hr]. cbn in *. subst. by constructor. Qed.
Lemma unstamped_set_owner o p q : unstamped_promise p q -> unstamped_promise (set_owner o p) (set_owner o q).
Proof. destruct p, q. intros [[=] Hr]. cbn in *. subst. by constructor. Qed.
Lemma unstamped_set_submissions s s' p q : unstamped_promise p q -> unstamped_rows eq s s' ->
  unstamped_promise (set_submissions s p) (set_submissions s' q).
Proof. destruct p, q. intros [[=] Hr] Hs. cbn in *. subst. by constructor. Qed.

(** Specs that agree but for stamps, from their parts. *)
Lemma unstamped_with_seats s t r r' : unstamped_spec s t -> unstamped_rows eq r r' -> unstamped_spec (with_seats s r) (with_seats t r').
Proof. destruct s, t. intros [[=] Hs Hp] Hr. cbn in *. subst. by constructor. Qed.
Lemma unstamped_with_promises s t r r' : unstamped_spec s t -> unstamped_rows unstamped_promise r r' ->
  unstamped_spec (with_promises s r) (with_promises t r').
Proof. destruct s, t. intros [[=] Hs Hp] Hr. cbn in *. subst. by constructor. Qed.

Lemma result_fmap_Ok {E A B} (f : A -> B) (r : result E A) b : f <$> r = Ok b <-> exists a, r = Ok a /\ b = f a.
Proof. destruct r; cbn; split; [naive_solver..]. Qed.

Ltac unstamped_tac :=
  match goal with
  | H : Ok _ = Ok _ |- _ => injection H as <-; eexists; split; [reflexivity|]
  end;
  first [ apply unstamped_with_seats | apply unstamped_with_promises ]; [done|];
  apply unstamped_alter; [by apply us_seats || by apply us_promises|];
  intros ? ? ?; subst; auto using unstamped_set_progress, unstamped_set_owner.

Lemma convoy_write_unstamped w s s' v v' t : unstamped_spec s s' -> convoy_write_apply w s v = Ok t ->
  exists t', convoy_write_apply w s' v' = Ok t' /\ unstamped_spec t t'.
Proof.
  intros Hs Hw. pose proof (us_seats _ _ Hs) as Hse. pose proof (us_promises _ _ Hs) as Hpr.
  destruct w; cbn in *; try unstamped_tac.
  - apply result_fmap_Ok in Hw as (r & Ha & ->).
    eapply (unstamped_append _ _ _ _ v') in Ha as (r' & -> & Hr); [|exact Hpr|reflexivity].
    eexists. split; [reflexivity|]. by apply unstamped_with_promises.
  - pose proof (unstamped_get _ _ _ p Hpr) as Hg.
    destruct (records_get (promises s) p) as [a|], (records_get (promises s') p) as [b|]; try done; [|simplify_eq; eauto].
    apply result_fmap_Ok in Hw as (r & Ha & ->).
    eapply (unstamped_append _ _ _ _ v') in Ha as (r' & -> & Hr); [|apply Hg|reflexivity].
    eexists. split; [reflexivity|]. apply unstamped_with_promises; [done|]. apply unstamped_alter; [done|].
    auto using unstamped_set_submissions.
  - apply result_fmap_Ok in Hw as (r & Ha & ->).
    eapply (unstamped_append _ _ _ _ v') in Ha as (r' & -> & Hr); [|exact Hse|reflexivity].
    eexists. split; [reflexivity|]. by apply unstamped_with_seats.
  - apply result_fmap_Ok in Hw as (r & Ha & ->).
    eapply (unstamped_append_all eq _ records_new records_new _ v') in Ha as (r' & -> & Hr); [|reflexivity].
    eexists. split; [reflexivity|]. by apply unstamped_with_seats.
  - simplify_eq. eexists. split; [reflexivity|]. by apply unstamped_with_promises.
  - simplify_eq. eexists. split; [reflexivity|]. destruct s, s'. destruct Hs as [[=] ? ?]. cbn in *. subst. by constructor.
  - simplify_eq. eexists. split; [reflexivity|]. destruct s, s'. destruct Hs as [[=] ? ?]. cbn in *. subst. by constructor.
Qed.

#[export] Instance stamped : StampedWrites sig.
Proof. apply (Build_StampedWrites sig unstamped_spec unstamped_spec_equiv convoy_write_unstamped). Defined.

(** * What the gates decide *)

Definition is_authorised (w : ConvoyWorld) (a : Ref Authorisation) : bool :=
  default false (@seen _ Authorisation authorisation_kind source_authorisation w a).
Definition is_durable (w : ConvoyWorld) (d : Ref Durable) : bool :=
  default false (@seen _ Durable durable_kind source_durable w d).
Definition limits_of (w : ConvoyWorld) : Limits :=
  limits_read (@seen _ ConvoyLimits limits_kind source_limits w limits_reference).

Definition is_some {A} (o : option A) : bool := match o with Some _ => true | None => false end.
(** [Ok] when the guard holds. *)
Definition ensure (b : bool) (r : ConvoyRefusal) : result ConvoyRefusal unit := if b then Ok tt else Err r.

Definition decides (w : ConvoyWorld) (spec : ConvoySpec) (s : ConvoyState) (e : ConvoyEdge) : result ConvoyRefusal unit :=
  match e with
  | EDeclare a =>
      _ ← ensure (bool_decide (promise_floor spec <= dc_promise a) && negb (is_some (promise spec (dc_promise a)))) PromiseExists;
      _ ← live_seat spec (dc_owner a); Ok tt
  | ESubmit a =>
      p ← open_promise spec (su_promise a);
      _ ← ensure (bool_decide (su_by a = p_owner p)) NotOwner;
      ensure (is_durable w (su_durable a)) NotDurable
  | EReject a => p ← open_promise spec (rj_promise a); ensure (bool_decide (value (p_progress p) = Submitted)) NotSubmitted
  | EKeep (Observed id n) =>
      p ← open_promise spec id;
      ensure (bool_decide (value (p_progress p) = Submitted) && bool_decide (n = current_submission p)) StaleEvidence
  | EKeep (Verdict id _ authority why) =>
      p ← open_promise spec id; ensure (may_keep p authority && negb (is_empty_string why)) Unauthorised
  | ERetract a =>
      p ← open_promise spec (rt_promise a);
      ensure (may_retract p (rt_by a) (rt_authority a) && negb (is_empty_string (rt_reason a))) Unauthorised
  | EReassign a =>
      p ← open_promise spec (ra_promise a);
      _ ← ensure (may_reassign p (ra_by a) (ra_authority a)) Unauthorised;
      _ ← live_seat spec (ra_to a); Ok tt
  | ERetireDuty a =>
      _ ← ensure (is_authorised w (rd_authority a)) Unauthorised;
      ensure (bool_decide (rd_duty a ∈ holding spec (retired s))) UnknownDuty
  | EAddSeat a =>
      _ ← ensure (is_authorised w (as_authority a)) Unauthorised;
      _ ← ensure (negb (is_some (find_seat spec (as_seat a)))) SeatExists;
      _ ← live_seat spec (as_parent a);
      ensure (bool_decide (Z.of_nat (records_len (seats spec)) + 1 <= l_seats (limits_of w))) SeatsFull
  | EResupervise a =>
      _ ← ensure (is_authorised w (sv_authority a)) Unauthorised;
      ensure (is_some (find_seat spec (sv_seat a))) UnknownSeat
  | ERetireSeat a =>
      _ ← ensure (is_authorised w (sr_authority a)) Unauthorised;
      _ ← live_seat spec (sr_seat a);
      let out := owned_open spec (sr_seat a) in
      let held := owned_duties spec (retired s) (sr_seat a) in
      _ ← ensure (bool_decide (out = ∅)) (PromisesOutstanding out);
      ensure (bool_decide (held = ∅)) (DutyHolds held)
  | ERollover a =>
      _ ← ensure (is_authorised w (ro_authority a)) Unauthorised;
      _ ← ensure (bool_decide (holding spec (retired s) <> ∅)) NoObligations;
      ensure (bool_decide (outstanding spec = ∅)) (PromisesOutstanding (outstanding spec))
  | EReplaceSeat a =>
      x ← live_seat spec (rp_seat a);
      ensure (bool_decide (replacements x < l_replacements (limits_of w))) ReplacementsExhausted
  | EDeliver _ =>
      _ ← ensure (bool_decide (outstanding spec = ∅)) (PromisesOutstanding (outstanding spec));
      ensure (bool_decide (holding spec (retired s) = ∅)) (DutyHolds (holding spec (retired s)))
  | EAbandon a => ensure (is_authorised w (ab_authority a) && negb (is_empty_string (ab_reason a))) Unauthorised
  | EReadmit a =>
      _ ← ensure (is_authorised w (rm_authority a)) Unauthorised;
      ensure (bool_decide ((map_iter (rm_quota a)).*1 = (map_iter (quota s)).*1) &&
        forallb (fun p => match quota s !! p.1 with Some old => bool_decide (p.2 >= old) | None => false end)
          (map_iter (rm_quota a))) QuotaNotIncrease
  end.

(** * What the effects write *)

(** A promise's, a seat's row, when the table holds it. *)
Definition at_promise (spec : ConvoySpec) (id : PromiseId) (f : RecordRow Promise -> list ConvoyWrite) : list ConvoyWrite :=
  match promise spec id with Some row => f row | None => [] end.
Definition at_seat (spec : ConvoySpec) (n : SeatName) (f : RecordRow Seat -> list ConvoyWrite) : list ConvoyWrite :=
  match find_seat spec n with Some row => f row | None => [] end.
Definition moves_to (now : Timestamp) (to_ : Progress) (row : RecordRow Promise) : list ConvoyWrite :=
  [WProgress (position row) (mkState to_ now)].

Definition written (spec : ConvoySpec) (now : Timestamp) (s : ConvoyState) (e : ConvoyEdge) : list ConvoyWrite :=
  match e with
  | EDeclare a => [WPromise (mkPromise (dc_promise a) (dc_label a) (dc_kind a) (dc_target a) Crew (dc_owner a) (mkState Pending now) records_new)]
  | ESubmit a => at_promise spec (su_promise a) (fun row =>
      WSubmission (position row) (mkSubmission (su_address a) (su_revision a) (su_by a)) ::
      if bool_decide (value (p_progress (record row)) = Submitted) then [] else moves_to now Submitted row)
  | EReject a => at_promise spec (rj_promise a) (moves_to now Pending)
  | EKeep a => at_promise spec (kept_promise a) (moves_to now Kept)
  | ERetract a => at_promise spec (rt_promise a) (moves_to now Retracted)
  | EReassign a => at_promise spec (ra_promise a) (fun row =>
      if bool_decide (p_owner (record row) = ra_to a) then [] else [WOwner (position row) (ra_to a)])
  | EAddSeat a => [WSeat (mkSeat (role (as_seat a)) (seat (as_seat a)) (Some (as_parent a)) (as_supervised_by a) false 0)]
  | EResupervise a => at_seat spec (sv_seat a) (fun row =>
      if bool_decide (supervised_by (record row) = sv_supervised_by a) then [] else [WSupervisor (position row) (sv_supervised_by a)])
  | ERetireSeat a => at_seat spec (sr_seat a) (fun row => [WRetired (position row)])
  | EReplaceSeat a => at_seat spec (rp_seat a) (fun row => [WReplaced (position row) (replacements (record row) + 1)])
  | ERollover _ =>
      [WGenerationSeats (seats spec) (carried_seats spec); WGenerationPromises (promises spec);
       WGenerationDuties (duties spec) (carried_duties spec (retired s)); WPromiseFloor (next_floor spec)]
  | ERetireDuty _ | EDeliver _ | EAbandon _ | EReadmit _ => []
  end.

(** The state an edge moves an open convoy to. *)
Definition moved_to (q : Quota) (r : gset DutyId) (e : ConvoyEdge) : ConvoyState :=
  match e with
  | ERetireDuty a => Open q ({[rd_duty a]} ∪ r)
  | ERollover _ => Open q ∅
  | EDeliver _ => Delivered q r
  | EAbandon a => Abandoned q r (ab_reason a)
  | EReadmit a => Open (rm_quota a) r
  | _ => Open q r
  end.

(** The whole step: an open convoy decides, then moves and writes. *)
Definition convoy_next (spec : ConvoySpec) (w : ConvoyWorld) (now : Timestamp) (s : ConvoyState) (e : ConvoyEdge) :
    result ConvoyRefusal (ConvoyState * list ConvoyWrite) :=
  match s with
  | Open q r => _ ← decides w spec s e; Ok (moved_to q r e, written spec now s e)
  | _ => Err NotOpen
  end.

(** * The step computes it *)

Lemma from_result_reads {A} (r : result ConvoyRefusal A) : reads_only (from_result r).
Proof. by intros h. Qed.
Lemma authorised_reads a : reads_only (authorised a).
Proof. unfold authorised. reads_only_tac. Qed.
#[local] Hint Resolve from_result_reads authorised_reads : flotilla.

(** The gate and the effect an edge's declaration runs. *)
Definition gate_of (e : ConvoyEdge) : G unit :=
  match e with
  | EDeclare a => gate_declare a | ESubmit a => gate_submit a | EReject a => gate_reject a | EKeep a => gate_keep a
  | ERetract a => gate_retract a | EReassign a => gate_reassign a | ERetireDuty a => gate_retire_duty a
  | EAddSeat a => gate_add_seat a | EResupervise a => gate_resupervise a | ERetireSeat a => gate_retire_seat a
  | ERollover a => gate_rollover a | EReplaceSeat a => gate_replace_seat a | EDeliver a => gate_deliver a
  | EAbandon a => gate_abandon a | EReadmit a => gate_readmit a
  end.
Definition effect_of (s : ConvoyState) (e : ConvoyEdge) : H ConvoyState :=
  match e with
  | EDeclare a => declare s a | ESubmit a => submit s a | EReject a => progress (rj_promise a) Pending s
  | EKeep a => progress (kept_promise a) Kept s | ERetract a => progress (rt_promise a) Retracted s
  | EReassign a => reassign s a | ERetireDuty a => retire_duty s a | EAddSeat a => add_seat s a
  | EResupervise a => resupervise s a | ERetireSeat a => retire_seat s a | ERollover a => rollover s a
  | EReplaceSeat a => replace_seat s a | EDeliver a => deliver s a | EAbandon a => abandon s a | EReadmit a => readmit s a
  end.

Lemma gate_of_reads e : reads_only (gate_of e).
Proof.
  destruct e; cbn; unfold gate_declare, gate_submit, gate_reject, gate_keep, gate_retract, gate_reassign, gate_retire_duty,
    gate_add_seat, gate_resupervise, gate_retire_seat, gate_rollover, gate_replace_seat, gate_deliver, gate_abandon, gate_readmit;
    reads_only_tac.
Qed.

(** Decides the tests a gate and its decision share. *)
Ltac gate_cases :=
  repeat match goal with
  | |- context [default false ?o] => destruct (default false o) eqn:?; cbn
  | |- context [match open_promise ?s ?i with _ => _ end] => destruct (open_promise s i); cbn
  | |- context [match live_seat ?s ?n with _ => _ end] => destruct (live_seat s n); cbn
  | |- context [match promise ?s ?i with _ => _ end] => destruct (promise s i); cbn
  | |- context [match find_seat ?s ?n with _ => _ end] => destruct (find_seat s n); cbn
  | |- context [is_empty_string ?x] => destruct (is_empty_string x); cbn
  | |- context [may_keep ?p ?a] => destruct (may_keep p a); cbn
  | |- context [may_retract ?p ?b ?a] => destruct (may_retract p b a); cbn
  | |- context [may_reassign ?p ?b ?a] => destruct (may_reassign p b a); cbn
  | |- context [forallb ?f ?l] => destruct (forallb f l); cbn
  | |- _ => case_bool_decide; cbn
  end; first [done | lia | congruence | idtac].

Lemma gate_of_val e h : (gate_of e h).1 = decides (h_world h) (h_spec h) (h_state h) e.
Proof.
  destruct e as [a|a|a|[]|a|a|a|a|a|a|a|a|a|a|a]; cbn [gate_of];
    unfold gate_declare, gate_submit, gate_reject, gate_keep, gate_retract, gate_reassign, gate_retire_duty,
      gate_add_seat, gate_resupervise, gate_retire_seat, gate_rollover, gate_replace_seat, gate_deliver, gate_abandon, gate_readmit,
      decides, ensure, is_some, from_result, authorised, is_authorised, is_durable, limits_of, glet, gbind, hbind, ask, refuse, gret, hret;
    cbn -[live_seat open_promise promise find_seat outstanding holding owned_open owned_duties Z.of_nat map_iter seen
      may_keep may_retract may_reassign current_submission is_empty_string];
    gate_cases.
Qed.

Lemma wrote_nil (h : Handle sig) : wrote h [] = h.
Proof. destruct h. unfold wrote. cbn. by rewrite app_nil_r. Qed.

Lemma effect_of_run e q r (h : Handle sig) : h_state h = Open q r ->
  effect_of (Open q r) e h = (moved_to q r e, wrote h (written (h_spec h) (h_now h) (Open q r) e)).
Proof.
  intros Hs. destruct e; cbn [effect_of moved_to written];
    unfold declare, submit, progress, reassign, add_seat, resupervise, retire_seat, replace_seat, retire_duty, deliver, abandon,
      readmit, rollover, at_promise, at_seat, moves_to, hbind, ask, hret; cbn -[promise find_seat carried_seats carried_duties next_floor];
    rewrite ?wrote_nil; repeat (case_match || case_bool_decide); simplify_eq/=; rewrite ?wrote_nil; try done;
    unfold wrote; cbn -[carried_seats carried_duties next_floor]; rewrite <-?app_assoc; done.
Qed.

(** The declaration an edge finds. *)
Definition declared (e : ConvoyEdge) : DeclaredEdge sig :=
  match e with
  | EDeclare _ => declare_edge declare_edge_ | ESubmit _ => declare_edge submit_edge | EReject _ => declare_edge reject_edge
  | EKeep _ => declare_edge keep_edge | ERetract _ => declare_edge retract_edge | EReassign _ => declare_edge reassign_edge
  | ERetireDuty _ => declare_edge retire_duty_edge | EAddSeat _ => declare_edge add_seat_edge
  | EResupervise _ => declare_edge resupervise_edge | ERetireSeat _ => declare_edge retire_seat_edge
  | ERollover _ => declare_edge rollover_edge | EReplaceSeat _ => declare_edge replace_seat_edge
  | EDeliver _ => declare_edge deliver_edge | EAbandon _ => declare_edge abandon_edge | EReadmit _ => declare_edge readmit_edge
  end.

Lemma convoy_find (e : ConvoyEdge) : find (definition sig) (edge_kind sig e) = Some (declared e).
Proof. by destruct e. Qed.

Lemma moved_to_declared q r e : label sig (moved_to q r e) ∈ de_to (declared e).
Proof. destruct e; cbn; elem_compute. Qed.

Lemma changes_declared q r e x : x ∈ changed sig (Open q r) (moved_to q r e) -> x ∈ de_changes (declared e).
Proof. revert x. destruct e; cbn [moved_to declared]; only_changes. Qed.

Lemma writes_declared spec now s e w : w ∈ written spec now s e -> write_field sig w ∈ de_writes (declared e).
Proof.
  destruct e; cbn [written declared]; unfold at_promise, at_seat, moves_to; cbn -[promise find_seat];
    repeat (case_match || case_bool_decide); rewrite ?elem_of_cons, ?elem_of_nil; intros Hw;
    destruct_or?; try done; subst; elem_compute.
Qed.

(** The declaration runs the edge's own gate and effect. *)
Lemma run_gate_of e (h : Handle sig) : run_check (de_check (declared e)) e h = (map_err (@Refused sig) (gate_of e h).1, (gate_of e h).2).
Proof.
  destruct e; cbn -[gate_declare gate_submit gate_reject gate_keep gate_retract gate_reassign gate_retire_duty gate_add_seat
    gate_resupervise gate_retire_seat gate_rollover gate_replace_seat gate_deliver gate_abandon gate_readmit];
    match goal with |- context [let (r, h') := ?c in _] => by destruct c as [[[]|] ?] end.
Qed.
Lemma run_effect_of e s (h : Handle sig) : run_effect (de_effect (declared e)) s e h = (Ok (effect_of s e h).1, (effect_of s e h).2).
Proof.
  destruct e; cbn -[declare submit progress reassign retire_duty add_seat resupervise retire_seat rollover replace_seat deliver abandon readmit];
    match goal with |- context [let (s', h') := ?c in _] => by destruct c end.
Qed.

(** A step and its pure reading agree. *)
Definition step_is (x : result (StepError sig) ConvoyState * Handle sig) (v : result ConvoyRefusal (ConvoyState * list ConvoyWrite)) : Prop :=
  match v with
  | Ok (s, ws) => exists h, x = (Ok s, h) /\ h_writes h = ws
  | Err r => x.1 = Err (@Refused sig r)
  end.

Lemma convoy_step_next (r : Resource sig) (edge : ConvoyEdge) (world : ConvoyWorld) now :
  step_is (step (definition sig) edge (handle_on r world now)) (convoy_next (r_spec r) world now (value (r_state r)) edge).
Proof.
  destruct r as [name spec [s since] version]. cbn -[step definition convoy_next handle_on].
  destruct s as [q d|q d|q d why]; [|unfold convoy_next; cbn; by step_is_ended..].
  set (h := handle_on _ _ _).
  enough (match decides world spec (Open q d) edge with
    | Ok _ => exists h', step (definition sig) edge h = (Ok (moved_to q d edge), h') /\ h_writes h' = h_writes h ++ written spec now (Open q d) edge
    | Err r => (step (definition sig) edge h).1 = Err (@Refused sig r) end) as H.
  { unfold convoy_next, step_is. by destruct (decides _ _ _ _) as [[]|]. }
  pose proof (gate_of_reads edge) as Hro. pose proof (gate_of_val edge h) as Hval.
  assert (forall h', same_fixed h h' -> effect_of (Open q d) edge h' = (moved_to q d edge, wrote h' (written spec now (Open q d) edge))) as Hrun.
  { intros h' [_ Hs Hst _ Hn _]. rewrite effect_of_run by done. by rewrite Hs, Hn. }
  eapply (step_gated (definition sig) edge h (declared edge) (gate_of edge) (effect_of (Open q d) edge));
    [vm_compute; reflexivity|apply convoy_find|destruct edge; cbn; elem_compute|apply run_gate_of|apply run_effect_of
    |exact Hro|exact Hval|exact Hrun|apply moved_to_declared|apply changes_declared|apply writes_declared].
Qed.

(** * Properties *)

(** whether a convoy's record writes fit never depends on the version that
    stamps them, so a trial at version 0 decides for the commit. *)
Theorem convoy_writes_fit_at_any_version (spec spec0 : ConvoySpec) (ws : list ConvoyWrite) v v' :
  trial sig spec ws v = Ok spec0 -> exists spec1, trial sig spec ws v' = Ok spec1 /\ unstamped_spec spec0 spec1.
Proof. intros H. exact (trial_unstamped (M := sig) (StampedWrites0 := stamped) ws spec spec v v' spec0 (reflexivity (R := unstamped_spec) spec) H). Qed.

End ConvoySteps.
