(* ===== verification/ConvoyInv.v ===== *)
(** What holds of every convoy: the shape of its tables, who owns what, that a
    promise's id is never used twice, and what each step may change. *)

From S2P Require Import Prelude Schema Read Machine Validate Engine Log Home Attempt Steps Convoy ConvoySteps.
Import Convoy ConvoySteps.

Module ConvoyInv.

(** * Tables keyed by a field *)

Section keyed.
Context {R K : Type} `{EqDecision K} (key : R -> K).

(** The record under a key replaced by [f] of it. *)
Definition update (k : K) (f : R -> R) (l : list R) : list R := map (fun x => if bool_decide (key x = k) then f x else x) l.

(** The table as the code searches it: the first row with the key. *)
Definition row_of (r : Records R) (k : K) : option (RecordRow R) :=
  List.find (fun row => bool_decide (key (record row) = k)) (rows r).

Lemma row_of_Some r k row : dense r -> row_of r k = Some row ->
  key (record row) = k /\ rows r !! Z.to_nat (position row) = Some row /\ record row ∈ values r.
Proof.
  intros [Hd _] H. apply find_some in H as [Hin Hk]. apply bool_decide_eq_true in Hk. split; [done|].
  apply list_elem_of_In, list_elem_of_lookup in Hin as [i Hi]. pose proof (Hd i row Hi) as Hp.
  rewrite Hp, Nat2Z.id. split; [done|]. apply list_elem_of_fmap. exists row. split; [done|]. by eapply list_elem_of_lookup_2.
Qed.

Lemma row_of_None r k : row_of r k = None -> k ∉ map key (values r).
Proof.
  intros H Hk. apply list_elem_of_fmap in Hk as (x & -> & Hx). apply list_elem_of_fmap in Hx as (row & -> & Hrow).
  apply list_elem_of_In in Hrow. apply (find_none _ _ H) in Hrow. by rewrite bool_decide_eq_true_2 in Hrow.
Qed.

Lemma row_of_elem r x : x ∈ values r -> exists row, row_of r (key x) = Some row /\ key (record row) = key x.
Proof.
  intros Hx. destruct (row_of r (key x)) as [row|] eqn:Hr.
  - exists row. split; [done|]. apply find_some in Hr as [_ Hk]. by apply bool_decide_eq_true in Hk.
  - apply row_of_None in Hr. destruct Hr. by apply list_elem_of_fmap_2.
Qed.

(** With distinct keys, the row found holds the one record with the key. *)
Lemma row_of_unique r x : NoDup (map key (values r)) -> x ∈ values r -> exists row, row_of r (key x) = Some row /\ record row = x.
Proof.
  intros Hnd Hx. destruct (row_of_elem r x Hx) as (row & Hr & Hk). exists row. split; [done|].
  apply find_some in Hr as [Hin _]. apply list_elem_of_In in Hin.
  assert (record row ∈ values r) as Hv by by apply list_elem_of_fmap_2.
  apply list_elem_of_lookup in Hv as [i Hi], Hx as [j Hj].
  assert (i = j) as ->; [|congruence]. eapply NoDup_lookup; [exact Hnd| |].
  - rewrite list_lookup_fmap, Hi. cbn. by rewrite Hk.
  - by rewrite list_lookup_fmap, Hj.
Qed.

Lemma values_alter r k row f : dense r -> NoDup (map key (values r)) -> row_of r k = Some row ->
  values (records_alter r (position row) f) = update k f (values r).
Proof.
  intros Hd Hnd Hr. destruct (row_of_Some r k row Hd Hr) as (Hk & Hi & _). unfold values, update. cbn.
  apply list_eq. intros i. rewrite !list_lookup_fmap, list_lookup_alter.
  destruct (decide _) as [<-|Hne].
  - rewrite Hi. cbn. by rewrite bool_decide_eq_true_2.
  - destruct (rows r !! i) as [row'|] eqn:Hi'; cbn; [|done]. rewrite bool_decide_eq_false_2; [done|].
    intros Hk'. apply Hne. eapply (NoDup_lookup _ _ _ k Hnd); unfold values; rewrite !list_lookup_fmap.
    + rewrite Hi. cbn. by rewrite Hk.
    + rewrite Hi'. cbn. by rewrite Hk'.
Qed.

Lemma keys_update k f l : (forall x, key (f x) = key x) -> map key (update k f l) = map key l.
Proof.
  intros Hf. unfold update. rewrite map_map. apply map_ext. intros x. by case_bool_decide.
Qed.

Lemma elem_of_update k f l y : y ∈ update k f l <-> exists x, x ∈ l /\ y = (if bool_decide (key x = k) then f x else x).
Proof. unfold update. rewrite list_elem_of_fmap. naive_solver. Qed.
End keyed.

Lemma promise_row spec id : promise spec id = row_of p_id (promises spec) id.
Proof. done. Qed.
Lemma find_seat_row spec n : find_seat spec n = row_of seat_name (seats spec) n.
Proof. done. Qed.

Lemma update_id {R K} `{EqDecision K} (key : R -> K) k f l :
  (forall x, x ∈ l -> key x = k -> f x = x) -> update key k f l = l.
Proof.
  intros Hf. unfold update. rewrite <-(map_id l) at 2. apply map_ext_in. intros x Hx. apply list_elem_of_In in Hx.
  case_bool_decide; auto.
Qed.

Lemma update_update {R K} `{EqDecision K} (key : R -> K) k f g l :
  (forall x, key (f x) = key x) -> update key k g (update key k f l) = update key k (fun x => g (f x)) l.
Proof.
  intros Hf. unfold update. rewrite map_map. apply map_ext. intros x.
  destruct (decide (key x = k)) as [Hk|Hk].
  - rewrite !(bool_decide_eq_true_2 (key x = k)) by done. rewrite bool_decide_eq_true_2; [done|by rewrite Hf].
  - by rewrite !(bool_decide_eq_false_2 (key x = k)).
Qed.

Lemma row_of_alter {R K} `{EqDecision K} (key : R -> K) r k row f : dense r -> row_of key r k = Some row ->
  (forall x, key (f x) = key x) ->
  exists row', rows (records_alter r (position row) f) !! Z.to_nat (position row) = Some row' /\
    position row' = position row /\ record row' = f (record row).
Proof.
  intros Hd Hr Hf. destruct (row_of_Some key r k row Hd Hr) as (Hk & Hi & _).
  eexists. cbn. rewrite list_lookup_alter_eq, Hi. cbn. by split.
Qed.

(** * The tables after a step *)

(** Appended without the refusal, which the step's success excludes. *)
Definition add_submission (v : Version) (x : Submission) (p : Promise) : Promise :=
  match records_append (p_submissions p) v x with Ok subs => set_submissions subs p | Err _ => p end.
Definition submitted (now : Timestamp) (v : Version) (a : Submit) (p : Promise) : Promise :=
  let p' := add_submission v (mkSubmission (su_address a) (su_revision a) (su_by a)) p in
  if bool_decide (value (p_progress p) = Submitted) then p' else set_progress (mkState Submitted now) p'.

Definition promises_after (spec : ConvoySpec) (now : Timestamp) (v : Version) (e : ConvoyEdge) : list Promise :=
  let ps := values (promises spec) in
  match e with
  | EDeclare a => ps ++ [mkPromise (dc_promise a) (dc_label a) (dc_kind a) (dc_target a) Crew (dc_owner a) (mkState Pending now) records_new]
  | ESubmit a => update p_id (su_promise a) (submitted now v a) ps
  | EReject a => update p_id (rj_promise a) (set_progress (mkState Pending now)) ps
  | EKeep a => update p_id (kept_promise a) (set_progress (mkState Kept now)) ps
  | ERetract a => update p_id (rt_promise a) (set_progress (mkState Retracted now)) ps
  | EReassign a => update p_id (ra_promise a) (set_owner (ra_to a)) ps
  | ERollover _ => []
  | _ => ps
  end.

Definition seats_after (spec : ConvoySpec) (e : ConvoyEdge) : list Seat :=
  let ss := values (seats spec) in
  match e with
  | EAddSeat a => ss ++ [mkSeat (role (as_seat a)) (seat (as_seat a)) (Some (as_parent a)) (as_supervised_by a) false 0]
  | EResupervise a => update seat_name (sv_seat a) (set_supervisor (sv_supervised_by a)) ss
  | ERetireSeat a => update seat_name (sr_seat a) set_retired ss
  | EReplaceSeat a => update seat_name (rp_seat a) (fun x => set_replacements (replacements x + 1) x) ss
  | ERollover _ => map (carried_seat (seat_names (live_seats spec))) (live_seats spec)
  | _ => ss
  end.

Definition duties_after (spec : ConvoySpec) (s : ConvoyState) (e : ConvoyEdge) : gmap DutyId Duty :=
  match e with ERollover _ => carried_duties spec (retired s) | _ => duties spec end.
Definition floor_after (spec : ConvoySpec) (e : ConvoyEdge) : Z :=
  match e with ERollover _ => next_floor spec | _ => promise_floor spec end.

(** Dense tables with distinct keys. *)
Record tables_ok (spec : ConvoySpec) : Prop := mkTablesOk {
  to_seats : dense (seats spec);
  to_promises : dense (promises spec);
  to_names : NoDup (map seat_name (values (seats spec)));
  to_ids : NoDup (map p_id (values (promises spec)));
}.

Lemma append_all_new {R} v (xs : list R) : forall r r', dense r -> append_all r v xs = Ok r' -> dense r' /\ values r' = values r ++ xs.
Proof.
  unfold append_all. induction xs as [|x xs IH]; intros r r' Hd H; cbn in H; [simplify_eq; by rewrite app_nil_r|].
  destruct (records_append r v x) as [r1|] eqn:Ha; [|done].
  apply IH in H as [Hd' Hv]; [|by eapply append_dense]. split; [done|]. by rewrite Hv, (append_values _ _ _ _ Ha), <-app_assoc.
Qed.

Lemma append_expect_values {R} (xs : list R) : forall r, dense r -> Z.of_nat (length (values r ++ xs)) <= u32_max + 1 ->
  dense (foldl append_expect r xs) /\ values (foldl append_expect r xs) = values r ++ xs.
Proof.
  induction xs as [|x xs IH]; intros r Hd Hl; cbn; [by rewrite app_nil_r|].
  assert (exists r1, records_append r 0 x = Ok r1) as [r1 Ha].
  { unfold records_append, u32_try_from. rewrite length_app in Hl. unfold values in Hl. rewrite length_map in Hl. cbn in Hl.
    rewrite decide_True by lia. eauto. }
  assert (append_expect r x = r1) as -> by (unfold append_expect; by rewrite Ha).
  destruct (IH r1) as [Hd' Hv']; [by eapply append_dense| |].
  - by rewrite (append_values _ _ _ _ Ha), <-app_assoc.
  - split; [done|]. by rewrite Hv', (append_values _ _ _ _ Ha), <-app_assoc.
Qed.

Lemma values_length {R} (r : Records R) : length (values r) = records_len r.
Proof. unfold values. by rewrite length_map. Qed.

Lemma carried_seats_values spec : dense (seats spec) ->
  values (carried_seats spec) = map (carried_seat (seat_names (live_seats spec))) (live_seats spec).
Proof.
  intros [_ Hl]. unfold carried_seats. apply append_expect_values; [apply dense_new|]. cbn. rewrite length_map.
  unfold live_seats. pose proof (List.filter_length_le (fun s => negb (s_retired s)) (values (seats spec))).
  rewrite values_length in H. unfold records_len in H. lia.
Qed.

(** What the writes of a step leave. *)
Record left_by (spec : ConvoySpec) (now : Timestamp) (v : Version) (s : ConvoyState) (e : ConvoyEdge) (spec' : ConvoySpec) : Prop := mkLeftBy {
  lb_seats : values (seats spec') = seats_after spec e;
  lb_promises : values (promises spec') = promises_after spec now v e;
  lb_duties : duties spec' = duties_after spec s e;
  lb_floor : promise_floor spec' = floor_after spec e;
  lb_dense_seats : dense (seats spec');
  lb_dense_promises : dense (promises spec');
  lb_fixed : (project spec', cv_priority spec', cv_kinds spec') = (project spec, cv_priority spec, cv_kinds spec);
}.

(** The row an edge's gate has seen. *)
Definition row_seen (spec : ConvoySpec) (e : ConvoyEdge) : Prop :=
  match e with
  | ESubmit a => is_Some (promise spec (su_promise a))
  | EReject a => is_Some (promise spec (rj_promise a))
  | EKeep a => is_Some (promise spec (kept_promise a))
  | ERetract a => is_Some (promise spec (rt_promise a))
  | EReassign a => is_Some (promise spec (ra_promise a))
  | EResupervise a => is_Some (find_seat spec (sv_seat a))
  | ERetireSeat a => is_Some (find_seat spec (sr_seat a))
  | EReplaceSeat a => is_Some (find_seat spec (rp_seat a))
  | _ => True
  end.

Lemma result_bind_Ok {E A B} (f : A -> result E B) (r : result E A) b : r ≫= f = Ok b <-> exists a, r = Ok a /\ f a = Ok b.
Proof. destruct r; cbn; split; naive_solver. Qed.
Lemma ensure_Ok b r u : ensure b r = Ok u <-> b = true.
Proof. destruct u. unfold ensure. by destruct b. Qed.
Lemma open_promise_Ok spec id p : open_promise spec id = Ok p <-> exists row, promise spec id = Some row /\ record row = p /\ open p = true.
Proof.
  unfold open_promise. destruct (promise spec id) as [row|]; [|split; [done|by intros (? & ? & _)]].
  destruct (open (record row)) eqn:Ho; split; intros H; simplify_eq; eauto; destruct H as (? & [= <-] & <- & Ho'); congruence.
Qed.
Lemma live_seat_Ok spec n x : live_seat spec n = Ok x <-> exists row, find_seat spec n = Some row /\ record row = x /\ s_retired x = false.
Proof.
  unfold live_seat. destruct (find_seat spec n) as [row|]; [|split; [done|by intros (? & ? & _)]].
  destruct (s_retired (record row)) eqn:Ho; split; intros H; simplify_eq; eauto; destruct H as (? & [= <-] & <- & Ho'); congruence.
Qed.

(** Opens what a decision's success says. *)
Ltac decided :=
  repeat match goal with
  | H : (_ ≫= _) = Ok _ |- _ => apply result_bind_Ok in H as (? & ? & ?)
  | H : ensure _ _ = Ok _ |- _ => apply ensure_Ok in H
  | H : open_promise _ _ = Ok _ |- _ => apply open_promise_Ok in H as (? & ? & ? & ?)
  | H : live_seat _ _ = Ok _ |- _ => apply live_seat_Ok in H as (? & ? & ? & ?)
  | H : (_ && _) = true |- _ => apply andb_true_iff in H as [? ?]
  | H : negb _ = true |- _ => apply negb_true_iff in H
  | H : bool_decide _ = true |- _ => apply bool_decide_eq_true in H
  end.

Lemma decides_row_seen w spec s e : decides w spec s e = Ok tt -> row_seen spec e.
Proof.
  destruct e as [a|a|a|[]|a|a|a|a|a|a|a|a|a|a|a]; cbn -[promise find_seat live_seat open_promise ensure]; intros H; try done; decided; eauto.
  unfold is_some in H0. by destruct (find_seat _ _); eauto.
Qed.

Lemma left_unchanged spec now v s e : tables_ok spec -> 
  seats_after spec e = values (seats spec) -> promises_after spec now v e = values (promises spec) ->
  duties_after spec s e = duties spec -> floor_after spec e = promise_floor spec -> left_by spec now v s e spec.
Proof. intros [] ? ? ? ?. by constructor. Qed.

Lemma left_seats spec now v s e r : tables_ok spec -> dense r -> values r = seats_after spec e ->
  promises_after spec now v e = values (promises spec) -> duties_after spec s e = duties spec -> floor_after spec e = promise_floor spec ->
  left_by spec now v s e (with_seats spec r).
Proof. intros [] ? ? ? ? ?. by constructor. Qed.

Lemma left_promises spec now v s e r : tables_ok spec -> dense r -> values r = promises_after spec now v e ->
  seats_after spec e = values (seats spec) -> duties_after spec s e = duties spec -> floor_after spec e = promise_floor spec ->
  left_by spec now v s e (with_promises spec r).
Proof. intros [] ? ? ? ? ?. by constructor. Qed.

(** One row of a table altered. *)
Lemma left_promise_row spec now v s e id f row : tables_ok spec -> promise spec id = Some row ->
  promises_after spec now v e = update p_id id f (values (promises spec)) ->
  seats_after spec e = values (seats spec) -> duties_after spec s e = duties spec -> floor_after spec e = promise_floor spec ->
  left_by spec now v s e (with_promises spec (records_alter (promises spec) (position row) f)).
Proof.
  intros Ht Hr Hp. apply left_promises; [done|apply alter_dense; apply Ht|]. rewrite Hp. apply values_alter; [apply Ht..|done].
Qed.

Lemma left_seat_row spec now v s e n f row : tables_ok spec -> find_seat spec n = Some row ->
  seats_after spec e = update seat_name n f (values (seats spec)) ->
  promises_after spec now v e = values (promises spec) -> duties_after spec s e = duties spec -> floor_after spec e = promise_floor spec ->
  left_by spec now v s e (with_seats spec (records_alter (seats spec) (position row) f)).
Proof.
  intros Ht Hr Hp. apply left_seats; [done|apply alter_dense; apply Ht|]. rewrite Hp. apply values_alter; [apply Ht..|done].
Qed.

Lemma update_ext {R K} `{EqDecision K} (key : R -> K) k f g l :
  (forall x, x ∈ l -> key x = k -> f x = g x) -> update key k f l = update key k g l.
Proof. intros Hf. unfold update. apply map_ext_in. intros x Hx. apply list_elem_of_In in Hx. case_bool_decide; auto. Qed.

(** With distinct keys, the records under a key are the one found. *)
Lemma found_only {R K} `{EqDecision K} (key : R -> K) r k row x : NoDup (map key (values r)) ->
  row_of key r k = Some row -> x ∈ values r -> key x = k -> x = record row.
Proof. intros Hnd Hr Hx <-. destruct (row_of_unique key r x Hnd Hx) as (row' & Hr' & <-). congruence. Qed.

Lemma set_owner_same o p : p_owner p = o -> set_owner o p = p.
Proof. by intros <-; destruct p. Qed.
Lemma set_supervisor_same a x : supervised_by x = a -> set_supervisor a x = x.
Proof. by intros <-; destruct x. Qed.

Lemma alter_alter {R} (r : Records R) pos f g :
  records_alter (records_alter r pos f) pos g = records_alter r pos (fun x => g (f x)).
Proof. unfold records_alter. cbn. f_equal. apply list_eq. intros i. rewrite !list_lookup_alter.
  destruct (decide _); [|done]. rewrite decide_True by done. by destruct (rows r !! Z.to_nat pos).
Qed.

Lemma trial_submit spec now v s a spec' : tables_ok spec -> is_Some (promise spec (su_promise a)) ->
  trial sig spec (written spec now s (ESubmit a)) v = Ok spec' -> left_by spec now v s (ESubmit a) spec'.
Proof.
  intros Ht [row Hr] H. unfold written, at_promise in H. rewrite Hr in H. cbn in H.
  destruct (row_of_Some _ _ _ _ (to_promises _ Ht) Hr) as (Hk & Hi & _).
  unfold records_get in H. rewrite Hi in H. destruct (records_append _ _ _) as [subs|] eqn:Ha; [|done]. cbn in H.
  assert (forall x, x ∈ values (promises spec) -> p_id x = su_promise a -> x = record row) as Hone
    by (intros; by eapply found_only; [apply Ht|exact Hr|..]).
  case_bool_decide as Hst; cbn in H; injection H as <-.
  - eapply left_promise_row; [done..|cbn|done|done|done]. apply update_ext. intros x Hx Hid.
    rewrite (Hone x Hx Hid). unfold submitted, add_submission. by rewrite Ha, bool_decide_eq_true_2.
  - change (left_by spec now v s (ESubmit a) (with_promises spec (records_alter (records_alter (promises spec) (position row) (set_submissions subs)) (position row) (set_progress (mkState Submitted now))))).
    rewrite alter_alter. eapply left_promise_row; [done..|cbn|done|done|done]. apply update_ext. intros x Hx Hid.
    rewrite (Hone x Hx Hid). unfold submitted, add_submission. by rewrite Ha, bool_decide_eq_false_2.
Qed.

Lemma trial_rollover spec now v s a spec' : tables_ok spec ->
  trial sig spec (written spec now s (ERollover a)) v = Ok spec' -> left_by spec now v s (ERollover a) spec'.
Proof.
  intros Ht H. cbn -[carried_seats carried_duties next_floor] in H.
  destruct (append_all _ _ _) as [r|] eqn:Ha; [|done]. cbn -[carried_seats carried_duties next_floor] in H. injection H as <-.
  apply append_all_new in Ha as [Hd Hv]; [|apply dense_new]. rewrite carried_seats_values in Hv by apply Ht.
  by constructor.
Qed.

(** The writes of a step leave what [left_by] says, whatever stamps them. *)
Lemma trial_left spec now v s e spec' : tables_ok spec -> row_seen spec e ->
  trial sig spec (written spec now s e) v = Ok spec' -> left_by spec now v s e spec'.
Proof.
  intros Ht Hr H. pose proof (to_promises _ Ht) as Hp. pose proof (to_seats _ Ht) as Hs.
  destruct e; try (by apply trial_submit); try (by eapply trial_rollover);
    try (cbn in H; injection H as <-; by apply left_unchanged);
    cbn [row_seen] in Hr;
    try match type of Hr with is_Some _ => destruct Hr as [row Hr]; cbn -[promise find_seat] in H; unfold at_promise, at_seat in H; rewrite Hr in H; cbn in H end.
  - cbn in H. destruct (records_append _ _ _) as [r|] eqn:Ha; [|done]. injection H as <-.
    apply left_promises; try done; [by eapply append_dense|]. cbn. by apply append_values in Ha.
  - injection H as <-. by eapply left_promise_row.
  - injection H as <-. by eapply left_promise_row.
  - injection H as <-. by eapply left_promise_row.
  - case_bool_decide as Ho; cbn in H; injection H as <-; [|by eapply left_promise_row].
    apply left_unchanged; try done. cbn. apply update_id. intros x Hx Hk. apply set_owner_same.
    by rewrite (found_only p_id _ _ row x (to_ids _ Ht) Hr Hx Hk).
  - cbn in H. destruct (records_append _ _ _) as [r|] eqn:Ha; [|done]. injection H as <-.
    apply left_seats; try done; [by eapply append_dense|]. cbn. by apply append_values in Ha.
  - case_bool_decide as Ho; cbn in H; injection H as <-; [|by eapply left_seat_row].
    apply left_unchanged; try done. cbn. apply update_id. intros x Hx Hk. apply set_supervisor_same.
    by rewrite (found_only seat_name _ _ row x (to_names _ Ht) Hr Hx Hk).
  - injection H as <-. by eapply left_seat_row.
  - injection H as <-. eapply left_seat_row; [done..| |done|done|done]. cbn. apply update_ext. intros x Hx Hk.
    by rewrite (found_only seat_name _ _ row x (to_names _ Ht) Hr Hx Hk).
Qed.

(** * Seats *)

(** A known seat that is not retired. *)
Definition live_in (ss : list Seat) (n : SeatName) : Prop := exists x, x ∈ ss /\ seat_name x = n /\ s_retired x = false.

(** Following parents from the seat ends at a seat with none. *)
Inductive rooted (ss : list Seat) : SeatName -> Prop :=
| rooted_top x : x ∈ ss -> parent x = None -> rooted ss (seat_name x)
| rooted_under x p : x ∈ ss -> parent x = Some p -> rooted ss p -> rooted ss (seat_name x).

Definition forest (ss : list Seat) : Prop := forall x, x ∈ ss -> rooted ss (seat_name x).

Lemma NoDup_map_filter {A B} (f : A -> B) (g : A -> bool) l : NoDup (map f l) -> NoDup (map f (List.filter g l)).
Proof.
  induction l as [|a l IH]; cbn; [done|]. intros [Hn Hnd]%NoDup_cons. destruct (g a); [|by apply IH]. cbn. constructor; [|by apply IH].
  intros Hin. apply Hn. apply list_elem_of_fmap in Hin as (x & -> & Hx). apply list_elem_of_In, filter_In in Hx as [Hx _].
  apply list_elem_of_fmap_2. by apply list_elem_of_In.
Qed.

Lemma seat_name_carried live x : seat_name (carried_seat live x) = seat_name x.
Proof. unfold carried_seat. destruct (parent x); [|done]. by case_bool_decide. Qed.
Lemma retired_carried live x : s_retired (carried_seat live x) = s_retired x.
Proof. unfold carried_seat. destruct (parent x); [|done]. by case_bool_decide. Qed.

Lemma elem_of_live_seats spec x : x ∈ live_seats spec <-> x ∈ values (seats spec) /\ s_retired x = false.
Proof. unfold live_seats. rewrite !list_elem_of_In, filter_In, negb_true_iff. done. Qed.

Lemma elem_of_live_names spec n : n ∈ seat_names (live_seats spec) <-> live_in (values (seats spec)) n.
Proof.
  unfold seat_names, live_in. rewrite elem_of_list_to_set, list_elem_of_fmap. setoid_rewrite elem_of_live_seats. naive_solver.
Qed.

Lemma find_live spec n x : live_seat spec n = Ok x -> live_in (values (seats spec)) n.
Proof.
  intros (row & Hr & <- & Hret)%live_seat_Ok. apply find_some in Hr as [Hin Hk]. apply bool_decide_eq_true in Hk.
  exists (record row). split; [|done]. apply list_elem_of_fmap_2. by apply list_elem_of_In.
Qed.

Lemma live_known ss n : live_in ss n -> n ∈ map seat_name ss.
Proof. intros (x & Hx & <- & _). by apply list_elem_of_fmap_2. Qed.

Lemma key_unique {R K} `{EqDecision K} (key : R -> K) (r : Records R) x y :
  NoDup (map key (values r)) -> x ∈ values r -> y ∈ values r -> key x = key y -> x = y.
Proof.
  intros Hnd Hx Hy Hk. destruct (row_of_unique key r x Hnd Hx) as (row & Hr & <-).
  symmetry. by eapply found_only.
Qed.

Lemma rooted_map ss ss' n : (forall x, x ∈ ss -> exists x', x' ∈ ss' /\ seat_name x' = seat_name x /\ parent x' = parent x) ->
  rooted ss n -> rooted ss' n.
Proof.
  intros Hm. induction 1 as [x Hx Hp|x p Hx Hp _ IH]; destruct (Hm x Hx) as (x' & Hx' & <- & Hp'); [apply rooted_top|eapply rooted_under]; eauto; congruence.
Qed.

Lemma forest_update k f ss : (forall x, seat_name (f x) = seat_name x) -> (forall x, parent (f x) = parent x) ->
  forest ss -> forest (update seat_name k f ss).
Proof.
  intros Hn Hp Hf y (x & Hx & ->)%elem_of_update.
  assert (seat_name (if bool_decide (seat_name x = k) then f x else x) = seat_name x) as -> by by case_bool_decide.
  apply (rooted_map ss); [|by apply Hf]. intros z Hz.
  exists (if bool_decide (seat_name z = k) then f z else z). split; [apply elem_of_update; eauto|]. by case_bool_decide.
Qed.

Section seats_after.
Context (w : ConvoyWorld) (spec : ConvoySpec) (s : ConvoyState) (e : ConvoyEdge).
Context (Ht : tables_ok spec) (Hok : decides w spec s e = Ok tt).

Lemma seats_after_names : NoDup (map seat_name (seats_after spec e)).
Proof using Ht Hok.
  pose proof (to_names _ Ht) as Hn. destruct e; cbn [seats_after]; try done; try (rewrite keys_update; done).
  - cbn -[find_seat live_seat] in Hok. decided. unfold is_some in *. destruct (find_seat _ _) as [|] eqn:Hf; [done|].
    rewrite map_app. apply NoDup_app. split; [done|]. split; [|apply NoDup_singleton]. cbn. intros n Hin ->%list_elem_of_singleton.
    revert Hin. rewrite find_seat_row in Hf. apply row_of_None in Hf. unfold seat_name at 1. cbn. by destruct (as_seat a).
  - rewrite map_map. erewrite map_ext by (intros; apply seat_name_carried). by apply NoDup_map_filter.
Qed.

(** A live seat stays live, unless this step retires it. *)
Lemma seats_after_live n : live_in (values (seats spec)) n -> (forall a, e = ERetireSeat a -> sr_seat a <> n) ->
  live_in (seats_after spec e) n.
Proof using Ht Hok.
  intros (x & Hx & Hn & Hr) Hne. unfold live_in. destruct e; cbn [seats_after]; try (by exists x).
  - exists x. split; [|done]. apply elem_of_app. by left.
  - eexists. split; [apply elem_of_update; exists x; split; [done|reflexivity]|]. by case_bool_decide.
  - eexists. split; [apply elem_of_update; exists x; split; [done|reflexivity]|]. rewrite bool_decide_eq_false_2; [done|].
    intros Heq. eapply Hne; [reflexivity|congruence].
  - exists (carried_seat (seat_names (live_seats spec)) x). rewrite seat_name_carried, retired_carried. split; [|done].
    apply list_elem_of_fmap_2. by apply elem_of_live_seats.
  - eexists. split; [apply elem_of_update; exists x; split; [done|reflexivity]|]. by case_bool_decide.
Qed.

Lemma rooted_carried n : rooted (values (seats spec)) n -> live_in (values (seats spec)) n ->
  rooted (map (carried_seat (seat_names (live_seats spec))) (live_seats spec)) n.
Proof using Ht.
  set (live := seat_names (live_seats spec)). intros Hr.
  assert (forall x, x ∈ values (seats spec) -> live_in (values (seats spec)) (seat_name x) ->
    carried_seat live x ∈ map (carried_seat live) (live_seats spec)) as Hin.
  { intros x Hx (y & Hy & Hn & Hret). apply list_elem_of_fmap_2, elem_of_live_seats. split; [done|].
    by rewrite (key_unique seat_name _ x y (to_names _ Ht)). }
  induction Hr as [x Hx Hp|x p Hx Hp Hr IH]; intros Hl; specialize (Hin x Hx Hl); rewrite <-(seat_name_carried live x).
  - apply rooted_top; [done|]. unfold carried_seat. by rewrite Hp.
  - destruct (decide (p ∈ live)) as [Hlp|Hlp].
    + eapply rooted_under; [done| |apply IH; by apply elem_of_live_names]. unfold carried_seat. by rewrite Hp, bool_decide_eq_true_2.
    + apply rooted_top; [done|]. unfold carried_seat. by rewrite Hp, bool_decide_eq_false_2.
Qed.

(** The seats stay a forest. *)
Lemma seats_after_forest : forest (values (seats spec)) -> forest (seats_after spec e).
Proof using Ht Hok.
  intros Hf. destruct e; cbn [seats_after]; try done; try (apply forest_update; done).
  - cbn -[find_seat live_seat] in Hok. decided. assert (live_in (values (seats spec)) (as_parent a)) as (y & Hy & Hn & _).
    { eapply find_live. apply live_seat_Ok. eauto. }
    assert (forall n, rooted (values (seats spec)) n -> rooted (values (seats spec) ++ [mkSeat (role (as_seat a)) (seat (as_seat a)) (Some (as_parent a)) (as_supervised_by a) false 0]) n) as Hmono.
    { intros n. apply rooted_map. intros z Hz. exists z. split; [|done]. apply elem_of_app. by left. }
    intros z [Hz| ->%list_elem_of_singleton]%elem_of_app; [by apply Hmono, Hf|].
    eapply rooted_under; [apply elem_of_app; right; by apply list_elem_of_singleton|reflexivity|].
    apply Hmono. rewrite <-Hn. by apply Hf.
  - intros x (y & -> & Hy)%list_elem_of_fmap. rewrite seat_name_carried. apply elem_of_live_seats in Hy as [Hy Hret].
    apply rooted_carried; [by apply Hf|]. by exists y.
Qed.
End seats_after.

(** * Promises *)

(** What one step may do to a promise: who and what it is stays, its
    submissions only grow, and once settled it stays as it is. *)
Record evolves (p p' : Promise) : Prop := mkEvolves {
  ev_identity : (p_id p', p_label p', p_kind p', p_target p', p_source p') = (p_id p, p_label p, p_kind p, p_target p, p_source p);
  ev_submissions : exists more, rows (p_submissions p') = rows (p_submissions p) ++ more;
  ev_settled : open p = false -> p' = p;
}.

#[export] Instance evolves_refl : Reflexive evolves.
Proof. intros p. constructor; [done| |done]. exists []. by rewrite app_nil_r. Qed.

Lemma evolves_trans p1 p2 p3 : evolves p1 p2 -> evolves p2 p3 -> evolves p1 p3.
Proof.
  intros [Hi [m Hm] Hs] [Hi' [m' Hm'] Hs']. constructor; [by rewrite Hi', Hi| |].
  - exists (m ++ m'). by rewrite Hm', Hm, app_assoc.
  - intros Ho. pose proof (Hs Ho) as ->. by apply Hs'.
Qed.

(** The well-formedness of one promise. *)
Record promise_ok (p : Promise) : Prop := mkPromiseOk {
  po_dense : dense (p_submissions p);
  po_submitted : value (p_progress p) = Submitted -> rows (p_submissions p) <> [];
}.

Lemma add_submission_fields v x p :
  p_progress (add_submission v x p) = p_progress p /\ p_owner (add_submission v x p) = p_owner p /\ p_id (add_submission v x p) = p_id p.
Proof. unfold add_submission. by destruct (records_append _ _ _). Qed.

Lemma submitted_fields now v a p :
  p_owner (submitted now v a p) = p_owner p /\ p_id (submitted now v a p) = p_id p /\ value (p_progress (submitted now v a p)) = Submitted.
Proof.
  unfold submitted. pose proof (add_submission_fields v (mkSubmission (su_address a) (su_revision a) (su_by a)) p) as (Hp & Ho & Hi).
  case_bool_decide; cbn; rewrite ?Hp, ?Ho, ?Hi; done.
Qed.

Lemma submitted_evolves now v a p : open p = true -> evolves p (submitted now v a p).
Proof.
  intros Ho. constructor; [| |congruence]; unfold submitted, add_submission, records_append; destruct (u32_try_from _);
    case_bool_decide; cbn; eauto; exists []; by rewrite app_nil_r.
Qed.

Lemma submitted_ok now v a p : promise_ok p -> promise_ok (submitted now v a p).
Proof.
  intros [Hd Hs]. unfold submitted, add_submission, records_append, u32_try_from. case_decide as Hfull.
  - assert (dense (mkRecords (rows (p_submissions p) ++ [mkRow (Z.of_nat (length (rows (p_submissions p)))) v (mkSubmission (su_address a) (su_revision a) (su_by a))]))) as Hd'.
    { eapply (append_dense _ v); [exact Hd|]. unfold records_append, u32_try_from. by rewrite decide_True. }
    case_bool_decide; constructor; cbn; try done; by destruct (rows (p_submissions p)).
  - assert (rows (p_submissions p) <> []) by (intros Hnil; rewrite Hnil in Hfull; cbn in Hfull; unfold u32_max in Hfull; lia).
    case_bool_decide; by constructor.
Qed.

Lemma set_progress_evolves st p : open p = true -> evolves p (set_progress st p).
Proof. intros Ho. constructor; [done| |congruence]. exists []. by rewrite app_nil_r. Qed.
Lemma set_owner_evolves o p : open p = true -> evolves p (set_owner o p).
Proof. intros Ho. constructor; [done| |congruence]. exists []. by rewrite app_nil_r. Qed.

(** The promise an edge moves. *)
Definition moved_promise (e : ConvoyEdge) : option PromiseId :=
  match e with
  | ESubmit a => Some (su_promise a) | EReject a => Some (rj_promise a) | EKeep a => Some (kept_promise a)
  | ERetract a => Some (rt_promise a) | EReassign a => Some (ra_promise a) | _ => None
  end.

Section promises_after.
Context (w : ConvoyWorld) (spec : ConvoySpec) (s : ConvoyState) (e : ConvoyEdge) (now : Timestamp) (v : Version).
Context (Ht : tables_ok spec) (Hok : decides w spec s e = Ok tt).

(** The promise an edge moves is open. *)
Lemma moved_open p : p ∈ values (promises spec) -> moved_promise e = Some (p_id p) -> open p = true.
Proof using Ht Hok.
  intros Hp He.
  assert (exists row, promise spec (p_id p) = Some row /\ open (record row) = true) as (row & Hr & Ho).
  { destruct e as [a|a|a|[]|a|a|a|a|a|a|a|a|a|a|a]; try done; cbn -[promise live_seat open_promise ensure] in Hok, He; injection He as <-;
      decided; subst; eauto. }
  by rewrite (found_only p_id _ _ row p (to_ids _ Ht) Hr Hp).
Qed.

(** Every promise after the step is a new one or one before it, moved. *)
Lemma promises_after_from p' : p' ∈ promises_after spec now v e ->
  (exists p, p ∈ values (promises spec) /\ evolves p p') \/
  (exists a, e = EDeclare a /\ p' = mkPromise (dc_promise a) (dc_label a) (dc_kind a) (dc_target a) Crew (dc_owner a) (mkState Pending now) records_new).
Proof using Ht Hok.
  intros Hp'. pose proof moved_open as Hmv.
  destruct e; cbn [promises_after] in Hp'; try (by left; exists p'); try (by apply elem_of_nil in Hp');
    try (apply elem_of_update in Hp' as (p & Hp & ->); left; exists p; split; [done|]; case_bool_decide as Hid; [|done];
      specialize (Hmv p Hp); rewrite Hid in Hmv; specialize (Hmv eq_refl); auto using submitted_evolves, set_progress_evolves, set_owner_evolves).
  apply elem_of_app in Hp' as [Hp'| ->%list_elem_of_singleton]; [by left; exists p'|right; eauto].
Qed.

(** Every promise before the step is there after it, unless it rolled over. *)
Lemma promises_after_to p : p ∈ values (promises spec) -> (forall a, e <> ERollover a) ->
  exists p', p' ∈ promises_after spec now v e /\ evolves p p'.
Proof using Ht Hok.
  intros Hp Hne. pose proof moved_open as Hmv.
  destruct e; cbn [promises_after]; try (by exists p); try (by destruct (Hne a));
    try (eexists; split; [apply elem_of_update; exists p; split; [done|reflexivity]|]; case_bool_decide as Hid; [|done];
      specialize (Hmv p Hp); rewrite Hid in Hmv; specialize (Hmv eq_refl); auto using submitted_evolves, set_progress_evolves, set_owner_evolves).
  exists p. split; [|done]. apply elem_of_app. by left.
Qed.

Lemma promises_after_ids : NoDup (map p_id (promises_after spec now v e)).
Proof using Ht Hok.
  pose proof (to_ids _ Ht) as Hn. destruct e; cbn [promises_after]; try done; try (rewrite keys_update; [done|]; intros; try done; by apply submitted_fields).
  - cbn -[promise live_seat] in Hok. decided. unfold is_some in *. destruct (promise _ _) as [|] eqn:Hf; [done|].
    rewrite map_app. apply NoDup_app. split; [done|]. split; [|apply NoDup_singleton]. cbn. intros n Hin ->%list_elem_of_singleton.
    revert Hin. rewrite promise_row in Hf. by apply row_of_None in Hf.
  - apply NoDup_nil_2.
Qed.
End promises_after.

(** * The invariant *)

Record convoy_inv (spec : ConvoySpec) (s : ConvoyState) : Prop := mkConvoyInv {
  (** positions are dense, seat names and promise ids distinct *)
  ci_tables : tables_ok spec;
  (** ids below the floor belong to ended generations *)
  ci_floor : forall p, p ∈ values (promises spec) -> promise_floor spec <= p_id p;
  ci_promises : forall p, p ∈ values (promises spec) -> promise_ok p;
  (** a live seat owns each open promise and each holding duty *)
  ci_owner : forall p, p ∈ values (promises spec) -> open p = true -> live_in (values (seats spec)) (p_owner p);
  ci_duty : forall i d, duties spec !! i = Some d -> d_scope d = Lifetime -> i ∉ retired s -> live_in (values (seats spec)) (d_owner d);
  ci_retired : forall i, i ∈ retired s -> exists d, duties spec !! i = Some d /\ d_scope d = Lifetime;
  (** no seat is above itself, and parents are seats *)
  ci_forest : forest (values (seats spec));
  (** a delivered convoy owes nothing *)
  ci_delivered : forall q r, s = Delivered q r -> outstanding spec = ∅ /\ holding spec r = ∅;
}.

Lemma elem_of_holding spec r i : i ∈ holding spec r <-> exists d, duties spec !! i = Some d /\ d_scope d = Lifetime /\ i ∉ r.
Proof.
  unfold holding. rewrite elem_of_list_to_set, list_elem_of_fmap. setoid_rewrite list_elem_of_filter. split.
  - intros ([j d] & -> & [Hs Hr] & Hin). apply elem_of_map_iter in Hin. eauto.
  - intros (d & Hd & Hs & Hr). exists (i, d). split; [done|]. split; [done|]. by apply elem_of_map_iter.
Qed.

Lemma elem_of_outstanding spec i : i ∈ outstanding spec <-> exists p, p ∈ values (promises spec) /\ p_id p = i /\ open p = true.
Proof.
  unfold outstanding. rewrite elem_of_list_to_set, list_elem_of_fmap. setoid_rewrite list_elem_of_In. setoid_rewrite filter_In. naive_solver.
Qed.

Lemma elem_of_owned_open spec n i : i ∈ owned_open spec n <-> exists p, p ∈ values (promises spec) /\ p_id p = i /\ p_owner p = n /\ open p = true.
Proof.
  unfold owned_open. rewrite elem_of_list_to_set, list_elem_of_fmap. setoid_rewrite list_elem_of_In. setoid_rewrite filter_In.
  setoid_rewrite andb_true_iff. setoid_rewrite bool_decide_eq_true. naive_solver.
Qed.

Lemma elem_of_owned_duties spec r n i : i ∈ owned_duties spec r n <->
  exists d, duties spec !! i = Some d /\ d_owner d = n /\ duty_live spec r (i, d) = true.
Proof.
  unfold owned_duties. rewrite elem_of_list_to_set, list_elem_of_fmap. setoid_rewrite list_elem_of_In. setoid_rewrite filter_In.
  setoid_rewrite andb_true_iff. setoid_rewrite bool_decide_eq_true. setoid_rewrite <-list_elem_of_In. split.
  - intros ([j d] & -> & Hin & Ho & Hl). apply elem_of_map_iter in Hin. eauto.
  - intros (d & Hd & Ho & Hl). exists (i, d). split; [done|]. split; [by apply elem_of_map_iter|done].
Qed.

Section step_keeps.
Context (w : ConvoyWorld) (spec : ConvoySpec) (q : Quota) (r : gset DutyId) (e : ConvoyEdge) (now : Timestamp) (v : Version) (spec' : ConvoySpec).
Context (Hi : convoy_inv spec (Open q r)) (Hok : decides w spec (Open q r) e = Ok tt) (Hl : left_by spec now v (Open q r) e spec').

Local Lemma Ht : tables_ok spec.
Proof using Hi. apply Hi. Qed.

Lemma step_tables : tables_ok spec'.
Proof using Hi Hok Hl.
  destruct Hl as [Hs Hp _ _ Hds Hdp _]. constructor; [done|done| |].
  - rewrite Hs. eapply seats_after_names; [apply Ht|done].
  - rewrite Hp. eapply promises_after_ids; [apply Ht|done].
Qed.

(** The floor is above every id it leaves behind. *)
Lemma next_floor_above p : p ∈ values (promises spec) -> p_id p < next_floor spec.
Proof using.
  intros Hp. unfold next_floor. enough (p_id p < foldr (fun p m => Z.max (p_id p + 1) m) (promise_floor spec) (values (promises spec))) by lia.
  induction (values (promises spec)) as [|x l IH]; [by apply elem_of_nil in Hp|]. cbn.
  apply elem_of_cons in Hp as [->|Hp]; [lia|]. apply IH in Hp. lia.
Qed.
Lemma next_floor_le : promise_floor spec <= next_floor spec.
Proof using. unfold next_floor. lia. Qed.

Lemma step_floor p' : p' ∈ values (promises spec') -> promise_floor spec' <= p_id p'.
Proof using Hi Hok Hl.
  rewrite (lb_promises _ _ _ _ _ _ Hl), (lb_floor _ _ _ _ _ _ Hl). intros Hp'.
  destruct (promises_after_from w spec (Open q r) e now v Ht Hok p' Hp') as [(p & Hp & [Hid _ _])|(a & -> & ->)].
  - assert (p_id p' = p_id p) as -> by congruence. pose proof (ci_floor _ _ Hi p Hp). destruct e; try done. by apply elem_of_nil in Hp'.
  - cbn -[promise live_seat] in Hok |- *. by decided.
Qed.

Lemma step_owner p' : p' ∈ values (promises spec') -> open p' = true -> live_in (values (seats spec')) (p_owner p').
Proof using Hi Hok Hl.
  rewrite (lb_promises _ _ _ _ _ _ Hl), (lb_seats _ _ _ _ _ _ Hl). intros Hp' Ho.
  assert (live_in (values (seats spec)) (p_owner p') /\ (forall a, e = ERetireSeat a -> sr_seat a <> p_owner p')) as [Hlive Hne];
    [|by eapply seats_after_live; [apply Ht|exact Hok|..]].
  pose proof (moved_open w spec (Open q r) e Ht Hok) as Hmv. pose proof (ci_owner _ _ Hi) as Hown.
  destruct e; cbn [promises_after] in Hp';
    try (apply elem_of_update in Hp' as (p & Hp & ->); case_bool_decide as Hid; [|split; [by apply Hown|done]];
      specialize (Hmv p Hp); rewrite Hid in Hmv; specialize (Hmv eq_refl); pose proof (Hown p Hp Hmv)); try (split; [by apply Hown|done]).
  - apply elem_of_app in Hp' as [Hp'| ->%list_elem_of_singleton]; [split; [by apply Hown|done]|].
    cbn -[promise live_seat] in Hok. decided. split; [|done]. cbn. eapply find_live. apply live_seat_Ok. eauto.
  - by destruct (submitted_fields now v a p) as (-> & _ & _).
  - by split.
  - cbn -[promise live_seat open_promise] in Hok. decided. split; [|done]. cbn. eapply find_live. apply live_seat_Ok. eauto.
  - split; [by apply Hown|]. intros b [= <-] Heq. cbn -[find_seat live_seat owned_open owned_duties] in Hok. decided.
    assert (p_id p' ∈ owned_open spec (sr_seat a)) as Hin by (apply elem_of_owned_open; exists p'; eauto). set_solver.
  - by apply elem_of_nil in Hp'.
Qed.

Lemma step_promises p' : p' ∈ values (promises spec') -> promise_ok p'.
Proof using Hi Hok Hl.
  rewrite (lb_promises _ _ _ _ _ _ Hl). intros Hp'. pose proof (ci_promises _ _ Hi) as Hpo.
  destruct e as [a|a|a|a|a|a|a|a|a|a|a|a|a|a|a]; cbn [promises_after] in Hp'; try (by apply Hpo); try (by apply elem_of_nil in Hp');
    try (apply elem_of_update in Hp' as (p & Hp & ->); specialize (Hpo p Hp); case_bool_decide; [|done]).
  - apply elem_of_app in Hp' as [Hp'| ->%list_elem_of_singleton]; [by apply Hpo|]. constructor; [apply dense_new|done].
  - by apply submitted_ok.
  - destruct Hpo. by constructor.
  - destruct Hpo. by constructor.
  - destruct Hpo. by constructor.
  - destruct Hpo. by constructor.
Qed.

Lemma step_duty i d : duties spec' !! i = Some d -> d_scope d = Lifetime -> i ∉ retired (moved_to q r e) -> live_in (values (seats spec')) (d_owner d).
Proof using Hi Hok Hl.
  rewrite (lb_duties _ _ _ _ _ _ Hl), (lb_seats _ _ _ _ _ _ Hl). intros Hd Hs Hr.
  assert (duties spec !! i = Some d /\ i ∉ r) as [Hd0 Hr0].
  { destruct e; cbn in Hd, Hr; try done; [split; [done|set_solver]|].
    apply map_lookup_filter_Some in Hd as [Hd Hh]. cbn in Hh. apply elem_of_holding in Hh as (d' & ? & ? & ?). done. }
  eapply seats_after_live; [apply Ht|exact Hok|by eapply (ci_duty _ _ Hi)|].
  intros a -> Heq. cbn -[find_seat live_seat owned_open owned_duties] in Hok. decided.
  assert (i ∈ owned_duties spec r (sr_seat a)) as Hin; [|set_solver].
  apply elem_of_owned_duties. exists d. split; [done|]. split; [done|]. unfold duty_live. cbn. by rewrite Hs, bool_decide_eq_true_2.
Qed.

Lemma step_retired i : i ∈ retired (moved_to q r e) -> exists d, duties spec' !! i = Some d /\ d_scope d = Lifetime.
Proof using Hi Hok Hl.
  rewrite (lb_duties _ _ _ _ _ _ Hl). pose proof (ci_retired _ _ Hi i) as Hr. destruct e; cbn; try done.
  - cbn -[holding] in Hok. decided. intros [->%elem_of_singleton|]%elem_of_union; [|by apply Hr].
    apply elem_of_holding in H0 as (d & ? & ? & _). eauto.
Qed.

Lemma step_delivered q' r' : moved_to q r e = Delivered q' r' -> outstanding spec' = ∅ /\ holding spec' r' = ∅.
Proof using Hi Hok Hl.
  destruct e; cbn; try done. intros [= <- <-]. cbn -[outstanding holding] in Hok. decided.
  unfold outstanding, holding. rewrite (lb_promises _ _ _ _ _ _ Hl), (lb_duties _ _ _ _ _ _ Hl). done.
Qed.

Lemma step_keeps_inv : convoy_inv spec' (moved_to q r e).
Proof using Hi Hok Hl.
  constructor; [apply step_tables|apply step_floor|apply step_promises|apply step_owner|apply step_duty|apply step_retired| |apply step_delivered].
  rewrite (lb_seats _ _ _ _ _ _ Hl). eapply seats_after_forest; [apply Ht|exact Hok|apply Hi].
Qed.
End step_keeps.

(** * Admission *)

Lemma parents_lookup ss x : NoDup (map seat_name ss) -> x ∈ ss -> parents ss !! seat_name x = Some (parent x).
Proof.
  unfold parents. induction ss as [|y ss IH] using rev_ind; intros Hnd Hx; [by apply elem_of_nil in Hx|].
  rewrite foldl_app. cbn. rewrite map_app in Hnd. apply NoDup_app in Hnd as (Hnd & Hdis & _).
  apply elem_of_app in Hx as [Hx| ->%list_elem_of_singleton]; [|apply lookup_insert_eq].
  rewrite lookup_insert_ne; [by apply IH|]. intros Heq. eapply (Hdis (seat_name x)); [by apply list_elem_of_fmap_2|].
  cbn. rewrite Heq. by apply list_elem_of_singleton.
Qed.

(** A seat [n] steps below the top. *)
Inductive depth (ss : list Seat) : nat -> SeatName -> Prop :=
| depth_top x : x ∈ ss -> parent x = None -> depth ss 0 (seat_name x)
| depth_under n x p : x ∈ ss -> parent x = Some p -> depth ss n p -> depth ss (S n) (seat_name x).

Lemma rooted_depth ss n : rooted ss n -> exists k, depth ss k n.
Proof. induction 1 as [x|x p Hx Hp _ [k Hk]]; [exists 0%nat|exists (S k)]; econstructor; eauto. Qed.

Section acyclic.
Context (ss : list Seat) (Hnd : NoDup (map seat_name ss)).

Lemma same_seat x y : x ∈ ss -> y ∈ ss -> seat_name x = seat_name y -> x = y.
Proof using Hnd.
  intros Hx Hy Hn. apply list_elem_of_lookup in Hx as [i Hx], Hy as [j Hy].
  assert (i = j) as ->; [|congruence]. eapply (NoDup_lookup _ _ _ (seat_name x) Hnd); rewrite list_lookup_fmap; [by rewrite Hx|rewrite Hy; cbn; by rewrite Hn].
Qed.

Lemma depth_inv k x : x ∈ ss -> depth ss k (seat_name x) ->
  match parent x with None => k = 0%nat | Some p => exists j, k = S j /\ depth ss j p end.
Proof using Hnd.
  intros Hx H. remember (seat_name x) as n eqn:Hn.
  destruct H as [y Hy Hp|k y p Hy Hp Hd]; apply (same_seat y x Hy Hx) in Hn as ->; rewrite Hp; eauto.
Qed.

Lemma depth_unique k k' n : depth ss k n -> depth ss k' n -> k = k'.
Proof using Hnd.
  intros H. revert k'. induction H as [x Hx Hp|k x p Hx Hp _ IH]; intros k' H'; apply (depth_inv _ _ Hx) in H'; rewrite Hp in H'; [done|].
  destruct H' as (j & -> & Hd). f_equal. by apply IH.
Qed.

(** The seats from one at depth [k] to the top are distinct. *)
Lemma depth_path k n : depth ss k n -> exists l, length l = S k /\ NoDup l /\ l ⊆ map seat_name ss /\ Forall (fun m => exists j, (j <= k)%nat /\ depth ss j m) l.
Proof using Hnd.
  induction 1 as [x Hx Hp|k x p Hx Hp Hd (l & Hlen & Hl & Hin & Hall)].
  - exists [seat_name x]. split; [done|]. split; [apply NoDup_singleton|]. split; [|constructor; [|done]].
    + intros m ->%list_elem_of_singleton. by apply list_elem_of_fmap_2.
    + exists 0%nat. split; [done|by apply depth_top].
  - assert (depth ss (S k) (seat_name x)) as Hx' by by eapply depth_under.
    exists (seat_name x :: l). split; [cbn; by rewrite Hlen|]. split; [|split].
    + constructor; [|done]. intros Hm. rewrite Forall_forall in Hall. apply Hall in Hm as (j & Hj & Hdj).
      pose proof (depth_unique _ _ _ Hx' Hdj). lia.
    + intros m [->|Hm]%elem_of_cons; [by apply list_elem_of_fmap_2|by apply Hin].
    + constructor; [by exists (S k)|]. eapply Forall_impl; [exact Hall|]. intros m (j & Hj & Hdj). exists j. split; [lia|done].
Qed.

Lemma depth_bound k n : depth ss k n -> (k < length ss)%nat.
Proof using Hnd.
  intros (l & Hlen & Hl & Hin & _)%depth_path. rewrite <-(length_map seat_name ss).
  enough (length l <= length (map seat_name ss))%nat by lia. apply (submseteq_length l). by apply NoDup_submseteq.
Qed.

Lemma climb_depth k n m : (m <= k)%nat -> depth ss m n -> climb (parents ss) (S k) (Some n) = true.
Proof using Hnd.
  intros Hk H. revert k Hk. induction H as [x Hx Hp|m x p Hx Hp _ IH]; intros k Hk; cbn.
  - rewrite (parents_lookup ss x Hnd Hx), Hp. by destruct k.
  - rewrite (parents_lookup ss x Hnd Hx), Hp. cbn. destruct k as [|k]; [lia|]. apply IH. lia.
Qed.

Lemma climb_rooted k n : climb (parents ss) k (Some n) = true -> n ∈ map seat_name ss -> (forall x p, x ∈ ss -> parent x = Some p -> p ∈ map seat_name ss) -> rooted ss n.
Proof using Hnd.
  intros Hc Hn Hcl. revert n Hc Hn. induction k as [|k IH]; intros n Hc Hn; [done|].
  apply list_elem_of_fmap in Hn as (x & -> & Hx). cbn in Hc. rewrite (parents_lookup ss x Hnd Hx) in Hc. cbn in Hc.
  destruct (parent x) as [p|] eqn:Hp; [|by apply rooted_top]. eapply rooted_under; [done|done|]. apply IH; [done|]. by eapply Hcl.
Qed.

(** The bounded climb decides exactly the forests whose parents are seats. *)
Lemma acyclic_iff : (forall x p, x ∈ ss -> parent x = Some p -> p ∈ map seat_name ss) -> acyclic ss = true <-> forest ss.
Proof using Hnd.
  intros Hcl. unfold acyclic. rewrite forallb_elem. split; intros H x Hx.
  - specialize (H x Hx). destruct (parent x) as [p|] eqn:Hp; [|by apply rooted_top].
    eapply rooted_under; [done|done|]. eapply climb_rooted; [done|by eapply Hcl|done].
  - destruct (parent x) as [p|] eqn:Hp; [|by destruct (length ss)].
    destruct (rooted_depth ss (seat_name x) (H x Hx)) as [k Hk]. pose proof (depth_bound _ _ Hk) as Hb.
    apply (depth_inv _ _ Hx) in Hk. rewrite Hp in Hk. destruct Hk as (j & -> & Hd).
    destruct (length ss) as [|m]; [lia|]. eapply climb_depth; [|exact Hd]. lia.
Qed.
End acyclic.

(** A request's tables fit their [u32] positions, as the code expects of it,
    and its promise ids are [u32]s. *)
Record request_fits (rq : ConvoyRequest) : Prop := mkRequestFits {
  rf_seats : Z.of_nat (length (rq_seats rq)) <= u32_max + 1;
  rf_promises : Z.of_nat (length (map_iter (rq_promises rq))) <= u32_max + 1;
  rf_ids : forall id p, rq_promises rq !! id = Some p -> is_u32 id;
}.

Lemma seat_name_admitted x : seat_name (admitted_seat x) = seat_name x.
Proof. done. Qed.

(** What an admitted request gives: its guards, and the tables built from it. *)
Lemma convoy_admit_Ok rq world now spec s ad : request_fits rq ->
  convoy_admit rq (mkAdmission world now []) = (Ok (spec, s), ad) ->
  closed rq = true /\ acyclic (rq_seats rq) = true /\
  Z.of_nat (size (seat_names (rq_seats rq))) <= l_seats (limits_of world) /\
  s = Open (rq_quota rq) ∅ /\ promise_floor spec = 0 /\ duties spec = rq_duties rq /\
  dense (seats spec) /\ values (seats spec) = map admitted_seat (rq_seats rq) /\
  dense (promises spec) /\ values (promises spec) = map (admitted_promise now) (map_iter (rq_promises rq)).
Proof.
  intros [Hfs Hfp _] H. unfold convoy_admit in H. destruct (bool_decide (rq_promises rq = ∅) && _); [done|].
  unfold abind in H. cbn -[closed acyclic seat_names map_iter foldl Z.of_nat] in H. destruct (seen _ _); [|done].
  destruct (closed rq); [|done]. destruct (acyclic _); [|done]. cbn -[seat_names map_iter foldl Z.of_nat] in H.
  case_bool_decide as Hlim; [done|]. cbn -[map_iter foldl] in H. injection H as <- <- _. cbn -[map_iter foldl].
  destruct (append_expect_values (map admitted_seat (rq_seats rq)) records_new dense_new) as [Hd Hv]; [cbn; rewrite length_map; lia|].
  destruct (append_expect_values (map (admitted_promise now) (map_iter (rq_promises rq))) records_new dense_new) as [Hd' Hv']; [cbn; rewrite length_map; lia|].
  unfold limits_of. repeat split; try done; first [lia|apply Hd|apply Hd'].
Qed.

Lemma size_list_to_set_le (l : list SeatName) : (size (list_to_set l : gset SeatName) <= length l)%nat.
Proof.
  induction l as [|n l IH]; [done|]. cbn. destruct (decide (n ∈ l)) as [Hin|Hin].
  - rewrite subseteq_union_1_L by set_solver. lia.
  - rewrite size_union, size_singleton by set_solver. lia.
Qed.

Lemma names_distinct (ss : list Seat) : size (seat_names ss) = length ss -> NoDup (map seat_name ss).
Proof.
  unfold seat_names. intros H. rewrite <-(length_map seat_name) in H. revert H. induction (map seat_name ss) as [|n l IH]; intros H; [constructor|].
  cbn in H. pose proof (size_list_to_set_le l). destruct (decide (n ∈ l)) as [Hin|Hin].
  - rewrite subseteq_union_1_L in H by set_solver. lia.
  - constructor; [done|]. apply IH. rewrite size_union, size_singleton in H by set_solver. lia.
Qed.

Lemma closed_iff rq : closed rq = true <->
  (forall i p, rq_promises rq !! i = Some p -> ap_owner p ∈ map seat_name (rq_seats rq)) /\
  (forall i d, rq_duties rq !! i = Some d -> d_owner d ∈ map seat_name (rq_seats rq)) /\
  (forall x p, x ∈ rq_seats rq -> parent x = Some p -> p ∈ map seat_name (rq_seats rq)) /\
  size (seat_names (rq_seats rq)) = length (rq_seats rq).
Proof.
  unfold closed. rewrite !andb_true_iff, !forallb_elem, bool_decide_eq_true.
  assert (forall n, n ∈ seat_names (rq_seats rq) <-> n ∈ map seat_name (rq_seats rq)) as Hn by (intros; unfold seat_names; by rewrite elem_of_list_to_set).
  setoid_rewrite bool_decide_eq_true. setoid_rewrite Hn. split.
  - intros [[[Hp Hd] Hs] Hz]. split; [|split; [|split]]; [| | |done].
    + intros i p Hi. by apply (Hp (i, p)), elem_of_map_iter.
    + intros i d Hi. by apply (Hd (i, d)), elem_of_map_iter.
    + intros x p Hx Hpx. specialize (Hs x Hx). rewrite Hpx in Hs. apply bool_decide_eq_true in Hs. by apply Hn.
  - intros (Hp & Hd & Hs & Hz). split; [|done]. split; [split|].
    + intros [i p] Hi%elem_of_map_iter. by eapply Hp.
    + intros [i d] Hi%elem_of_map_iter. by eapply Hd.
    + intros x Hx. destruct (parent x) eqn:Hpx; [|done]. apply bool_decide_eq_true, Hn. by eapply Hs.
Qed.

Lemma admitted_live (ss : list Seat) n : n ∈ map seat_name ss -> live_in (map admitted_seat ss) n.
Proof.
  intros (x & -> & Hx)%list_elem_of_fmap. exists (admitted_seat x). split; [by apply list_elem_of_fmap_2|done].
Qed.

Lemma admitted_forest (ss : list Seat) : forest ss -> forest (map admitted_seat ss).
Proof.
  intros Hf y (x & -> & Hx)%list_elem_of_fmap. rewrite seat_name_admitted. apply (rooted_map ss); [|by apply Hf].
  intros z Hz. exists (admitted_seat z). split; [by apply list_elem_of_fmap_2|done].
Qed.

Lemma admit_inv_convoy rq world now spec s ad : request_fits rq ->
  convoy_admit rq (mkAdmission world now []) = (Ok (spec, s), ad) -> convoy_inv spec s.
Proof.
  intros Hfit H. destruct (convoy_admit_Ok rq world now spec s ad Hfit H) as (Hc & Ha & _ & -> & Hfl & Hdu & Hds & Hvs & Hdp & Hvp).
  apply closed_iff in Hc as (Hp & Hd & Hs & Hz). apply names_distinct in Hz.
  constructor; rewrite ?Hvs, ?Hvp, ?Hfl, ?Hdu; cbn.
  - constructor; [done|done|by rewrite Hvs, map_map|]. rewrite Hvp, map_map. apply (NoDup_map_iter_fst (rq_promises rq)).
  - intros p ([i a] & -> & Hin%elem_of_map_iter)%list_elem_of_fmap. cbn. apply (rf_ids _ Hfit) in Hin. unfold is_u32 in Hin. lia.
  - intros p (a & -> & _)%list_elem_of_fmap. constructor; [apply dense_new|done].
  - intros p ([i a] & -> & Hin%elem_of_map_iter)%list_elem_of_fmap _. by apply admitted_live, (Hp i).
  - intros i d Hin _ _. by apply admitted_live, (Hd i).
  - set_solver.
  - apply admitted_forest. by apply acyclic_iff.
  - done.
Qed.

(** One move of a convoy: a step the machine takes, its writes stamped. *)
Inductive convoy_move : ConvoySpec * ConvoyState -> ConvoySpec * ConvoyState -> Prop :=
| mkMove spec s spec' s' w now e v ws :
    convoy_next spec w now s e = Ok (s', ws) -> trial sig spec ws v = Ok spec' -> convoy_move (spec, s) (spec', s').

Lemma convoy_next_Ok spec w now s e s' ws : convoy_next spec w now s e = Ok (s', ws) ->
  exists q r, s = Open q r /\ decides w spec s e = Ok tt /\ s' = moved_to q r e /\ ws = written spec now s e.
Proof.
  unfold convoy_next. destruct s as [q r| |]; try done. intros ([] & Hd & [= <- <-])%result_bind_Ok. eauto 10.
Qed.

Lemma convoy_next_inv spec w now s e s' ws v spec' : convoy_inv spec s -> convoy_next spec w now s e = Ok (s', ws) ->
  trial sig spec ws v = Ok spec' -> convoy_inv spec' s'.
Proof.
  intros Hi (q & r & -> & Hd & -> & ->)%convoy_next_Ok Ht. eapply step_keeps_inv; [done|exact Hd|].
  eapply trial_left; [apply Hi|by eapply decides_row_seen|done].
Qed.

#[export] Instance convoy_machine_inv : MachineInv sig request_fits convoy_inv.
Proof.
  split; [intros; by eapply admit_inv_convoy|]. intros r world now edge nxt hd v spec' Hi Hs Ht.
  pose proof (convoy_step_next r edge world now) as Hn. rewrite Hs in Hn. unfold step_is in Hn.
  destruct (convoy_next _ _ _ _ _) as [[s' ws]|] eqn:Hc; [|done]. destruct Hn as (h & [= <- <-] & <-). by eapply convoy_next_inv.
Qed.

(** * Across steps *)

(** An id in use, or of an ended generation. *)
Definition used (spec : ConvoySpec) (id : PromiseId) : Prop :=
  id < promise_floor spec \/ exists p, p ∈ values (promises spec) /\ p_id p = id.

(** One promise across steps: there still, or its generation ended. *)
Definition carried (spec' : ConvoySpec) (p : Promise) : Prop :=
  p_id p < promise_floor spec' \/ exists p', p' ∈ values (promises spec') /\ evolves p p'.

Lemma move_parts spec s spec' s' : convoy_inv spec s -> convoy_move (spec, s) (spec', s') ->
  exists q r w now e v, s = Open q r /\ decides w spec s e = Ok tt /\ s' = moved_to q r e /\ left_by spec now v s e spec'.
Proof.
  intros Hi Hm. inversion Hm as [? ? ? ? w now e v ws Hn Ht]; subst.
  apply convoy_next_Ok in Hn as (q & r & -> & Hd & -> & ->). exists q, r, w, now, e, v. repeat split; try done.
  all: (eapply trial_left; [apply Hi|by eapply decides_row_seen|exact Ht]).
Qed.

Lemma move_inv c c' : convoy_inv c.1 c.2 -> convoy_move c c' -> convoy_inv c'.1 c'.2.
Proof. intros Hi Hm. destruct Hm. cbn in *. by eapply convoy_next_inv. Qed.

Lemma moves_inv c c' : convoy_inv c.1 c.2 -> rtc convoy_move c c' -> convoy_inv c'.1 c'.2.
Proof. intros Hi Hr. induction Hr as [|? ? ? Hm _ IH]; [done|]. apply IH. by eapply move_inv. Qed.

Lemma floor_after_le spec e : promise_floor spec <= floor_after spec e.
Proof. destruct e; cbn; try lia. apply next_floor_le. Qed.

Lemma move_carried spec s spec' s' p : convoy_inv spec s -> convoy_move (spec, s) (spec', s') ->
  p ∈ values (promises spec) -> carried spec' p.
Proof.
  intros Hi Hm Hp. destruct (move_parts _ _ _ _ Hi Hm) as (q & r & w & now & e & v & -> & Hd & -> & Hl).
  unfold carried. rewrite (lb_promises _ _ _ _ _ _ Hl), (lb_floor _ _ _ _ _ _ Hl).
  destruct e; try (right; eapply promises_after_to; [apply Hi|exact Hd|done|done]). left. by apply next_floor_above.
Qed.

Lemma moves_carried c c' p : convoy_inv c.1 c.2 -> rtc convoy_move c c' -> p ∈ values (promises c.1) -> carried c'.1 p.
Proof.
  intros Hi Hr Hp. enough (forall p0, carried c.1 p0 -> carried c'.1 p0) as H by (apply H; right; by exists p).
  clear p Hp. induction Hr as [|[spec s] [spec' s'] c'' Hm Hr IH]; [done|]. intros p Hc. apply IH; [by eapply move_inv|].
  destruct Hc as [Hlt|(p1 & Hp1 & Hev)]; cbn in *.
  - left. destruct (move_parts _ _ _ _ Hi Hm) as (q & r & w & now & e & v & -> & _ & -> & Hl).
    rewrite (lb_floor _ _ _ _ _ _ Hl). pose proof (floor_after_le spec e). lia.
  - destruct (move_carried _ _ _ _ p1 Hi Hm Hp1) as [Hlt|(p2 & Hp2 & Hev2)].
    + left. destruct Hev as [Hid _ _]. assert (p_id p1 = p_id p) by congruence. lia.
    + right. exists p2. split; [done|]. by eapply evolves_trans.
Qed.

(** A used id cannot be declared. *)
Lemma declare_used w spec s a : used spec (dc_promise a) -> decides w spec s (EDeclare a) = Err PromiseExists.
Proof.
  intros Hu. cbn -[promise live_seat]. destruct (bool_decide (promise_floor spec <= dc_promise a)) eqn:Hb; [|done].
  apply bool_decide_eq_true in Hb. destruct Hu as [Hlt|(p & Hp & Hid)]; [lia|].
  destruct (row_of_elem p_id (promises spec) p Hp) as (row & Hr & _). rewrite <-Hid, promise_row, Hr. done.
Qed.

Lemma carried_used spec p : carried spec p -> used spec (p_id p).
Proof. intros [Hlt|(p' & Hp' & [Hid _ _])]; [by left|]. right. exists p'. split; [done|congruence]. Qed.

(** No class's quota is lowered. *)
Definition quota_le (q q' : Quota) : Prop := forall c n, q !! c = Some n -> exists n', q' !! c = Some n' /\ n <= n'.
#[export] Instance quota_le_preorder : PreOrder quota_le.
Proof.
  split; [intros q c n Hn; exists n; split; [done|lia]|]. intros q1 q2 q3 H12 H23 c n Hn.
  destruct (H12 c n Hn) as (n2 & Hn2 & Hle). destruct (H23 c n2 Hn2) as (n3 & Hn3 & Hle'). exists n3. split; [done|lia].
Qed.

Lemma readmit_rises w spec q r a : decides w spec (Open q r) (EReadmit a) = Ok tt -> quota_le q (rm_quota a).
Proof.
  cbn -[map_iter]. intros H. decided. intros c n Hc. rewrite forallb_elem in H1.
  assert (c ∈ (map_iter (rm_quota a)).*1) as Hin.
  { rewrite H0. apply list_elem_of_fmap. exists (c, n). split; [done|]. by apply elem_of_map_iter. }
  apply list_elem_of_fmap in Hin as ([c' n'] & -> & Hin). cbn in *. specialize (H1 _ Hin). cbn in H1. rewrite Hc in H1.
  apply bool_decide_eq_true in H1. exists n'. split; [by apply elem_of_map_iter|lia].
Qed.

Lemma move_quota c c' : convoy_move c c' -> quota_le (quota c.2) (quota c'.2).
Proof.
  intros Hm. destruct Hm as [spec s spec' s' w now e v ws Hn _]. apply convoy_next_Ok in Hn as (q & r & -> & Hd & -> & _). cbn.
  destruct e; cbn; try reflexivity. by eapply readmit_rises.
Qed.

(** A new seat stays within the limit; a replacement is below it, so that the
    count never wraps. *)
Lemma add_seat_limit w spec s a now v spec' : decides w spec s (EAddSeat a) = Ok tt ->
  left_by spec now v s (EAddSeat a) spec' -> Z.of_nat (records_len (seats spec')) <= l_seats (limits_of w).
Proof.
  intros H Hl. cbn -[find_seat live_seat records_len Z.of_nat] in H. decided. rewrite <-values_length, (lb_seats _ _ _ _ _ _ Hl). cbn -[Z.of_nat].
  rewrite length_app, values_length. cbn -[Z.of_nat]. lia.
Qed.

(** A resident convoy moves only by its own steps. *)
Lemma resident_moves {L} `{!Log sig L, !LogLaws sig L} name (h h' : Home sig L) r : home_ok (M := sig) convoy_inv h -> home_resources h !! name = Some r ->
  rtc (fun h h' => home_step request_fits (resource_ok (M := sig) convoy_inv) h h' /\ is_Some (home_resources h' !! name)) h h' ->
  exists r', home_resources h' !! name = Some r' /\ rtc convoy_move (r_spec r, value (r_state r)) (r_spec r', value (r_state r')) /\ home_ok (M := sig) convoy_inv h'.
Proof.
  intros Hok Hl Hr. revert r Hl. induction Hr as [h|h1 h2 h3 [Hs His] _ IH]; intros r Hl; [by exists r|].
  destruct (resident_step (M := sig) request_fits convoy_inv h1 h2 name r Hok Hs Hl His) as (r1 & Hl1 & Hmove).
  destruct (IH (home_step_ok (M := sig) request_fits convoy_inv h1 h2 Hs Hok) r1 Hl1) as (r' & Hl' & Hm & Hok'). exists r'. split_and!; [done| |done].
  destruct Hmove as [->|(edge & world & now & hd & Hst & Ht)]; [done|]. eapply rtc_l; [|exact Hm].
  pose proof (convoy_step_next r edge world now) as Hn. rewrite Hst in Hn. unfold step_is in Hn.
  destruct (convoy_next _ _ _ _ _) as [[s' ws]|] eqn:Hc; [|done]. destruct Hn as (h' & [= <- <-] & <-). by econstructor.
Qed.
(** An edge that declares the id of a promise carried on is refused. *)
Lemma declare_refused {L} `{!Log sig L} (h : Home sig L) name r p a w now : home_definition h = definition sig -> home_resources h !! name = Some r -> carried (r_spec r) p -> dc_promise a = p_id p ->
  apply h name (EDeclare a) w now = (Err (WRefused (M := sig) (match value (r_state r) with Open _ _ => PromiseExists | _ => NotOpen end)), h).
Proof.
  intros Hd Hl Hc%carried_used Ha. rewrite <-Ha in Hc. unfold apply. rewrite Hl, Hd. pose proof (convoy_step_next r (EDeclare a) w now) as Hn.
  assert (convoy_next (r_spec r) w now (value (r_state r)) (EDeclare a) = Err (match value (r_state r) with Open _ _ => PromiseExists | _ => NotOpen end)) as He.
  { unfold convoy_next. destruct (value (r_state r)); try done. by rewrite declare_used. }
  rewrite He in Hn. unfold step_is in Hn. destruct (step _ _ _) as [o hd]. cbn in Hn. by subst o.
Qed.

(** * Properties *)

(** A dense table of any length that fits. *)
Lemma dense_of_length {R} (x : R) (n : nat) : Z.of_nat n <= u32_max + 1 -> exists r : Records R, dense r /\ records_len r = n.
Proof.
  induction n as [|n IH]; intros Hn; [exists records_new; split; [apply dense_new|done]|].
  destruct IH as (r & Hd & Hl); [lia|]. destruct (records_append r 0 x) as [r'|] eqn:Ha.
  - exists r'. split; [by eapply append_dense|]. rewrite <-!values_length in *. rewrite (append_values _ _ _ _ Ha), length_app. cbn. lia.
  - unfold records_append, u32_try_from in Ha. unfold records_len in Hl. case_decide; [done|]. lia.
Qed.

(** the number of a promise's current submission, which observed evidence
    must name, is its count of submissions exactly while that count fits a
    [u32]. A full table holds one row more: then the number saturates, and
    evidence of the submission before the last still passes. *)
Theorem current_submission_exact (p : Promise) :
  (current_submission p = Z.of_nat (records_len (p_submissions p)) <-> Z.of_nat (records_len (p_submissions p)) <= u32_max) /\
  exists full, promise_ok full /\ value (p_progress full) = Submitted /\
    current_submission full = Z.of_nat (records_len (p_submissions full)) - 1.
Proof.
  split.
  - unfold current_submission, u32_try_from. case_decide as Hd; cbn [default]; [done|]. split; lia.
  - destruct (dense_of_length (mkSubmission (mkAddress "a") "r" (mkSeatName "lead" "a")) (Z.to_nat (u32_max + 1))) as (r & Hd & Hl); [unfold u32_max; lia|].
    exists (set_submissions r (set_progress (mkState Submitted 0) p)). split; [|split; [done|]].
    + constructor; cbn; [done|]. intros _ Hnil. unfold records_len in Hl. rewrite Hnil in Hl. unfold u32_max in Hl. cbn [length] in Hl. lia.
    + unfold current_submission, u32_try_from. cbn [p_submissions set_submissions]. rewrite Hl, decide_False by (unfold u32_max; lia). unfold u32_max. cbn [default]. lia.
Qed.

(** C11: in every home of convoys, reached by creating, applying, evicting and
    restoring, whatever the world answers: record positions are dense, seat
    names and promise ids distinct, every id at or above the floor; a live seat
    owns each open promise and each lifetime duty that holds; a Submitted
    promise has a submission; no seat is above itself; and a delivered convoy
    has no open promise and no holding duty. *)
Theorem convoy_homes_well_formed {L} `{!Log sig L, !LogLaws sig L} writer log (h0 h : Home sig L) name r :
  with_log writer log = Ok h0 -> rtc (home_step request_fits (resource_ok (M := sig) convoy_inv)) h0 h ->
  home_resources h !! name = Some r -> convoy_inv (r_spec r) (value (r_state r)).
Proof.
  intros H0 Hr Hl. destruct (home_reachable_ok (M := sig) request_fits convoy_inv writer log h0 h H0 Hr) as [_ Hall].
  by destruct (Hall name r Hl) as [_ Hok].
Qed.

(** C12: a promise id is never used twice. Once a convoy of a home has a promise
    with an id, then through any further calls on the home that leave the convoy
    resident, rollovers to new generations included, applying an edge that
    declares that id again is refused with [PromiseExists], or with [NotOpen]
    once the convoy is delivered or abandoned, and leaves the home as it is. *)
Theorem promise_id_never_reused {L} `{!Log sig L, !LogLaws sig L} writer log (h0 h1 h2 : Home sig L) name r p a w now :
  with_log writer log = Ok h0 -> rtc (home_step request_fits (resource_ok (M := sig) convoy_inv)) h0 h1 ->
  home_resources h1 !! name = Some r -> p ∈ values (promises (r_spec r)) ->
  rtc (fun h h' => home_step request_fits (resource_ok (M := sig) convoy_inv) h h' /\ is_Some (home_resources h' !! name)) h1 h2 ->
  dc_promise a = p_id p ->
  exists r', home_resources h2 !! name = Some r' /\
    apply h2 name (EDeclare a) w now = (Err (WRefused (M := sig) (match value (r_state r') with Open _ _ => PromiseExists | _ => NotOpen end)), h2).
Proof.
  intros H0 Hr Hl Hp Hm Ha. destruct (resident_moves name h1 h2 r (home_reachable_ok (M := sig) request_fits convoy_inv writer log h0 h1 H0 Hr) Hl Hm) as (r' & Hl' & Hmoves & Hok).
  exists r'. split; [done|]. apply declare_refused with (p := p); [apply Hok|done| |done].
  apply (moves_carried (r_spec r, value (r_state r)) (r_spec r', value (r_state r'))); [|done|done].
  by destruct (home_reachable_ok (M := sig) request_fits convoy_inv writer log h0 h1 H0 Hr) as [_ [_ Hi]%(fun Hall => Hall name r Hl)].
Qed.

(** through any steps of a convoy, each promise stays, with the same id,
    label, kind, target and source, its submissions only appended to, and, once
    kept or retracted, entirely unchanged, until its generation ends and the
    floor passes its id. *)
Theorem promises_only_evolve spec s spec' s' p :
  convoy_inv spec s -> p ∈ values (promises spec) -> rtc convoy_move (spec, s) (spec', s') ->
  p_id p < promise_floor spec' \/ exists p', p' ∈ values (promises spec') /\ evolves p p'.
Proof. intros Hi Hp Hm. exact (moves_carried (spec, s) (spec', s') p Hi Hm Hp). Qed.

(** a convoy's quota never shrinks: through any steps, every class keeps at
    least the count it had. *)
Theorem quota_never_lowered c c' : rtc convoy_move c c' -> quota_le (quota c.2) (quota c'.2).
Proof. induction 1 as [|? ? ? Hm _ IH]; [done|]. etrans; [by apply move_quota|done]. Qed.

(** the admission check that follows parents for as many steps as there are
    seats accepts exactly the forests: seats, distinct and with known parents,
    from which following parents always ends at a seat with none. *)
Theorem acyclic_decides_forest (ss : list Seat) : NoDup (map seat_name ss) ->
  (forall x p, x ∈ ss -> parent x = Some p -> p ∈ map seat_name ss) -> acyclic ss = true <-> forest ss.
Proof. intros Hnd. by apply acyclic_iff. Qed.

(** a step that adds a seat leaves the convoy with at most the configured
    number of seats, and one that replaces a seat leaves its count of
    replacements within the configured limit, so that the [u32] never wraps. *)
Theorem seats_stay_within_limits spec s w now e s' ws v spec' :
  convoy_inv spec s -> convoy_next spec w now s e = Ok (s', ws) -> trial sig spec ws v = Ok spec' ->
  match e with
  | EAddSeat _ => Z.of_nat (records_len (seats spec')) <= l_seats (limits_of w)
  | EReplaceSeat a => forall x, x ∈ values (seats spec') -> seat_name x = rp_seat a -> replacements x <= l_replacements (limits_of w)
  | _ => True
  end.
Proof.
  intros Hi (q & r & -> & Hd & -> & ->)%convoy_next_Ok Ht.
  assert (left_by spec now v (Open q r) e spec') as Hl by (eapply trial_left; [apply Hi|by eapply decides_row_seen|done]).
  destruct e; try done; [by eapply add_seat_limit|]. rewrite (lb_seats _ _ _ _ _ _ Hl). cbn -[find_seat live_seat] in Hd. decided. subst.
  intros y (z & Hz & ->)%elem_of_update Hn. case_bool_decide as Hk; [|done]. cbn.
  rewrite (found_only seat_name (seats spec) (rp_seat a) _ z (to_names _ (ci_tables _ _ Hi)) H Hz Hk). lia.
Qed.

End ConvoyInv.
