(* ===== verification/ConvoyExamples.v ===== *)
(** A standing convoy run through the machine: admitted with a seat, a promise
    and a lifetime duty, its promise submitted and kept, a seat added, then
    rolled over to its next generation. *)

From S2P Require Import Prelude Schema Read Machine Validate Engine Log Home Attempt Steps Convoy ConvoySteps ConvoyInv.

Module ConvoyExamples.
Import Convoy ConvoySteps ConvoyInv.

Definition lead : SeatName := mkSeatName "lead" "a".
Definition helper : SeatName := mkSeatName "helper" "b".
Definition an_address : Address := mkAddress "flotilla:vessel/x".
Definition lead_seat : Seat := mkSeat "lead" "a" None an_address false 0.
Definition request_ : ConvoyRequest :=
  mkRequest (mkAddress "flotilla:project/p") {[1 := mkAdmitted "template/pr" "pr" an_address Template lead]}
    {[7 := mkDuty lead Lifetime (mkTerms None None None)]} [lead_seat] {["worker" := 2]} 1 (mkFrozen "h" (mkPromiseKinds ∅)).

Definition world_ : ConvoyWorld :=
  memory_world (mkMemoryWorld (table_put (table_new (K := Authorisation)) (mkRef "op") true).2
    (table_put (table_new (K := Durable)) (mkRef "d") true).2
    (table_put (table_new (K := Project)) (mkRef "flotilla:project/p") tt).2 table_new).

(** The request's outcome, and one move. *)
Definition admitted : option (ConvoySpec * ConvoyState) :=
  match convoy_admit request_ (mkAdmission (world_ : World sig) 1 []) with (Ok c, _) => Some c | _ => None end.
Definition run (e : ConvoyEdge) (now : Timestamp) (c : ConvoySpec * ConvoyState) : option (ConvoySpec * ConvoyState) :=
  match convoy_next c.1 world_ now c.2 e with
  | Ok (s', ws) => match trial sig c.1 ws now with Ok spec' => Some (spec' : ConvoySpec, s') | Err _ => None end
  | Err _ => None
  end.

Lemma run_move e now c c' : run e now c = Some c' -> convoy_move c c'.
Proof.
  unfold run. destruct c as [spec s]. cbn. destruct (convoy_next _ _ _ _ _) as [[s' ws]|] eqn:Hn; [|done].
  destruct (trial _ _ _ _) as [spec'|] eqn:Ht; [|done]. intros [= <-]. by econstructor.
Qed.

Definition submit_ : ConvoyEdge := ESubmit (mkSubmit 1 lead an_address "r1" (mkRef "d")).
Definition keep_ : ConvoyEdge := EKeep (Observed 1 1).
Definition add_ : ConvoyEdge := EAddSeat (mkAddSeat helper lead an_address lead (mkRef "op")).
Definition replace_ : ConvoyEdge := EReplaceSeat (mkReplaceSeat lead).
Definition rollover_ : ConvoyEdge := ERollover (mkRollover lead (mkRef "op")).
Definition readmit_ : ConvoyEdge := EReadmit (mkReadmit {["worker" := 3]} lead (mkRef "op")).

Definition kept_run : option (ConvoySpec * ConvoyState) := (admitted ≫= run submit_ 2) ≫= run keep_ 3.
Definition rolled_run : option (ConvoySpec * ConvoyState) := ((kept_run ≫= run add_ 4) ≫= run readmit_ 5) ≫= run rollover_ 6.

Lemma some_of {A} (o : option A) : is_some o = true -> exists a, o = Some a.
Proof. destruct o; [eauto|done]. Qed.

Lemma request_fits_ : request_fits request_.
Proof.
  constructor; [vm_compute; discriminate|vm_compute; discriminate|].
  intros id p H. cbn in H. apply lookup_singleton_Some in H as [<- _]. unfold_ints. lia.
Qed.

Lemma admitted_inv c : admitted = Some c -> convoy_inv c.1 c.2.
Proof.
  unfold admitted. destruct (convoy_admit _ _) as [[[spec s]|] ad] eqn:Ha; [|done]. intros [= <-].
  by eapply (admit_inv_convoy request_); [apply request_fits_|].
Qed.

Lemma step_of o e now c' : (o ≫= run e now) = Some c' -> exists c, o = Some c /\ convoy_move c c'.
Proof. intros (c & Ho & Hr)%bind_Some. exists c. split; [exact Ho|]. by eapply run_move. Qed.

Lemma rolled_reached : exists c0 c3, admitted = Some c0 /\ rolled_run = Some c3 /\ rtc convoy_move c0 c3.
Proof.
  destruct (some_of rolled_run) as [c5 H5]; [vm_compute; reflexivity|].
  destruct (step_of _ _ _ _ H5) as (c4 & H4 & M5). destruct (step_of _ _ _ _ H4) as (c3 & H3 & M4).
  destruct (step_of _ _ _ _ H3) as (c2 & H2 & M3). destruct (step_of _ _ _ _ H2) as (c1 & H1 & M2).
  destruct (step_of _ _ _ _ H1) as (c0 & H0 & M1).
  exists c0, c5. split; [exact H0|]. split; [exact H5|].
  apply (rtc_l _ _ _ _ M1), (rtc_l _ _ _ _ M2), (rtc_l _ _ _ _ M3), (rtc_l _ _ _ _ M4), rtc_once, M5.
Qed.

Lemma admitted_promise_1 : match admitted with Some (spec, _) => bool_decide (1 ∈ map p_id (values (promises spec))) | None => false end = true.
Proof. vm_compute. reflexivity. Qed.

Lemma promises_only_evolve_witness : exists spec s p, rolled_run = Some (spec, s) /\ p_id p = 1 /\
  (p_id p < promise_floor spec \/ exists p', p' ∈ values (promises spec) /\ evolves p p').
Proof.
  destruct rolled_reached as ([spec0 s0] & [spec s] & H0 & H3 & Hm).
  pose proof admitted_promise_1 as Hp. rewrite H0 in Hp. apply bool_decide_eq_true in Hp.
  apply list_elem_of_fmap in Hp as (p & Hid & Hp). exists spec, s, p. split; [exact H3|]. split; [symmetry; exact Hid|].
  exact (promises_only_evolve spec0 s0 spec s p (admitted_inv _ H0) Hp Hm).
Defined.

Lemma quota_never_lowered_witness : exists c0 c3, admitted = Some c0 /\ rolled_run = Some c3 /\ quota_le (quota c0.2) (quota c3.2).
Proof.
  destruct rolled_reached as (c0 & c3 & H0 & H3 & Hm). exists c0, c3. split; [exact H0|]. split; [exact H3|].
  exact (quota_never_lowered c0 c3 Hm).
Defined.

Lemma acyclic_decides_forest_witness : forest [lead_seat; mkSeat "helper" "b" (Some lead) an_address false 0].
Proof.
  apply acyclic_decides_forest.
  - apply (bool_decide_eq_true_1 _). vm_compute. reflexivity.
  - intros x p Hx Hp. apply elem_of_cons in Hx as [->|Hx]; [discriminate|]. apply list_elem_of_singleton in Hx as ->.
    injection Hp as <-. apply (bool_decide_eq_true_1 _). vm_compute. reflexivity.
  - vm_compute. reflexivity.
Defined.

Lemma seats_stay_within_limits_witness : exists spec s s' ws spec', admitted = Some (spec, s) /\
  convoy_next spec world_ 2 s add_ = Ok (s', ws) /\ Z.of_nat (records_len (seats spec')) <= l_seats (limits_of world_).
Proof.
  destruct (some_of admitted) as [[spec s] H0]; [vm_compute; reflexivity|].
  destruct (some_of (admitted ≫= run add_ 2)) as [[spec' s'] H1]; [vm_compute; reflexivity|].
  rewrite H0 in H1. cbn [mbind option_bind] in H1. unfold run in H1. cbn [fst snd] in H1.
  destruct (convoy_next spec world_ 2 s add_) as [[s1 ws]|] eqn:Hn; [|discriminate].
  destruct (trial sig spec ws 2) as [spec1|] eqn:Ht; [|discriminate].
  exists spec, s, s1, ws, spec1. split; [exact H0|]. split; [exact Hn|].
  exact (seats_stay_within_limits spec s world_ 2 add_ s1 ws 2 spec1 (admitted_inv _ H0) Hn Ht).
Defined.

Lemma convoy_writes_fit_at_any_version_witness : exists spec s s' ws spec1, admitted = Some (spec, s) /\
  convoy_next spec world_ 2 s submit_ = Ok (s', ws) /\ trial sig spec ws 18446744073709551615 = Ok spec1.
Proof.
  destruct (some_of admitted) as [[spec s] H0]; [vm_compute; reflexivity|].
  destruct (some_of (admitted ≫= run submit_ 2)) as [[spec' s'] H1]; [vm_compute; reflexivity|].
  rewrite H0 in H1. cbn [mbind option_bind] in H1. unfold run in H1. cbn [fst snd] in H1.
  destruct (convoy_next spec world_ 2 s submit_) as [[s1 ws]|] eqn:Hn; [|discriminate].
  destruct (trial sig spec ws 2) as [spec1|] eqn:Ht; [|discriminate].
  destruct (convoy_writes_fit_at_any_version spec spec1 ws 2 18446744073709551615 Ht) as (spec2 & Ht2 & _).
  exists spec, s, s1, ws, spec2. split; [exact H0|]. split; [exact Hn|exact Ht2].
Defined.

(** * In a home *)

Definition home0 : Home sig (MemoryLog sig) := mkHome "home-a" (definition sig) ∅ memory_log_new.
Definition home1 : Home sig (MemoryLog sig) := (create home0 "convoy-a" (request_ : Request sig) (world_ : World sig) 1).2.
Definition home2 : Home sig (MemoryLog sig) := (apply home1 "convoy-a" (submit_ : Edge sig) (world_ : World sig) 2).2.

Lemma home2_reached stored : rtc (home_step request_fits stored) home0 home2.
Proof.
  eapply rtc_l; [eapply (hs_create _ _ _ "convoy-a" (request_ : Request sig) (world_ : World sig) 1 _ home1); [exact request_fits_|apply surjective_pairing]|].
  eapply rtc_l; [eapply (hs_apply _ _ _ "convoy-a" (submit_ : Edge sig) (world_ : World sig) 2 _ home2); apply surjective_pairing|].
  apply rtc_refl.
Qed.

Lemma convoy_homes_well_formed_witness : exists r, home_resources home2 !! "convoy-a" = Some r /\ convoy_inv (r_spec r) (value (r_state r)).
Proof.
  destruct (some_of (home_resources home2 !! "convoy-a")) as [r Hl]; [vm_compute; reflexivity|]. exists r. split; [exact Hl|].
  apply (convoy_homes_well_formed "home-a" memory_log_new home0 home2 "convoy-a" r);
    [unfold with_log; rewrite convoy_validates; reflexivity|apply home2_reached|exact Hl].
Defined.

(** The convoy through its generation and into the next. *)
Definition next_home (h : Home sig (MemoryLog sig)) (p : ConvoyEdge * Timestamp) : Home sig (MemoryLog sig) := (apply h "convoy-a" (p.1 : Edge sig) (world_ : World sig) p.2).2.
Definition generation_ : list (ConvoyEdge * Timestamp) := [(submit_, 2); (keep_, 3); (add_, 4); (readmit_, 5); (rollover_, 6)].
Definition home_rolled : Home sig (MemoryLog sig) := foldl next_home home1 generation_.
Definition resident (h : Home sig (MemoryLog sig)) : bool := is_some (home_resources h !! "convoy-a").
Definition promise_ids (h : Home sig (MemoryLog sig)) : list PromiseId := match home_resources h !! "convoy-a" with Some r => map p_id (values (promises (r_spec r))) | None => [] end.
Example rolled_over : promise_ids home1 = [1] /\ promise_ids home_rolled = [].
Proof. vm_compute. auto. Qed.

Lemma generation_resident stored l h : forallb resident (map (fun n => foldl next_home h (take n l)) (seq 1 (length l))) = true ->
  rtc (fun h h' => home_step request_fits stored h h' /\ is_Some (home_resources h' !! "convoy-a")) h (foldl next_home h l).
Proof.
  revert h. induction l as [|p l IH]; intros h Hl; [apply rtc_refl|]. cbn in Hl. apply andb_true_iff in Hl as [Hp Hl]. eapply rtc_l.
  - split; [eapply (hs_apply _ _ _ "convoy-a" (p.1 : Edge sig) (world_ : World sig) p.2 _ (next_home h p)); apply surjective_pairing|].
    unfold resident in Hp. rewrite take_0 in Hp. cbn [foldl] in Hp. destruct (home_resources (next_home h p) !! "convoy-a"); [by eexists|done].
  - cbn. apply IH. rewrite <-seq_shift, map_map in Hl. exact Hl.
Qed.

Lemma promise_id_never_reused_witness : exists r, home_resources home_rolled !! "convoy-a" = Some r /\
  apply home_rolled "convoy-a" (EDeclare (mkDeclare 1 "again" "pr" an_address lead) : Edge sig) (world_ : World sig) 9 = (Err (WRefused (M := sig) PromiseExists), home_rolled).
Proof.
  destruct (some_of (home_resources home1 !! "convoy-a")) as [r Hl]; [vm_compute; reflexivity|].
  assert (1 ∈ promise_ids home1) as Hp by (apply (bool_decide_eq_true_1 _); vm_compute; reflexivity). unfold promise_ids in Hp. rewrite Hl in Hp. apply list_elem_of_fmap in Hp as (p & Hid & Hp).
  destruct (promise_id_never_reused "home-a" memory_log_new home0 home1 home_rolled "convoy-a" r p (mkDeclare 1 "again" "pr" an_address lead) world_ 9) as (r' & Hl' & Ha).
  - unfold with_log. rewrite convoy_validates. reflexivity.
  - eapply rtc_once, (hs_create _ _ _ "convoy-a" (request_ : Request sig) (world_ : World sig) 1 _ home1); [exact request_fits_|apply surjective_pairing].
  - exact Hl.
  - exact Hp.
  - apply generation_resident. vm_compute. reflexivity.
  - exact Hid.
  - exists r'. split; [exact Hl'|]. rewrite Ha. assert (match home_resources home_rolled !! "convoy-a" with Some r => match value (r_state r) with Open _ _ => true | _ => false end | None => false end = true) as Ho
      by (vm_compute; reflexivity). rewrite Hl' in Ho. destruct (value (r_state r')); [reflexivity|discriminate|discriminate].
Defined.

End ConvoyExamples.
