(* ===== verification/Examples.v ===== *)
(** The engine's theorems applied to a concrete machine: an ensure, created in
    a home over a memory log, given a fulfiller and bound to it. *)

From S2P Require Import Prelude Schema Read Machine Validate Engine Log Home Attempt Steps Ensure.

Module Examples.
Import Ensure.

Lemma ensure_built : built (definition sig).
Proof. unfold definition, machine, ensure_definition. repeat first [apply built_end | apply built_edge | apply built_new]; eauto 20 with flotilla. Qed.

Lemma validated_step_is_declared_witness :
  (step (definition sig) (EHold hold : Edge sig) (handle_on sample_ensure (sample_world : World sig) 9)).1 <>
  Err (Faulted (FaultUndeclared (KHold : EdgeKind sig))).
Proof. apply validated_step_is_declared; [exact ensure_validates|exact ensure_built]. Defined.

(** * The log *)

Abbreviation log := (MemoryLog sig) (only parsing).
Definition an_event (at_ : Timestamp) : EdgeEventOf sig :=
  mkEdgeEvent (KHold : EdgeKind sig) (LUnfulfilled : Label sig) (LHeld : Label sig) at_ (mkEdgePayload (EHold hold : Edge sig) []).
Definition log1 : log := (memory_edge memory_log_new "w" (mkState (sample_work : MState sig) 5) sample_ensure (an_event 6)).2.
Definition log2 : log := (memory_edge log1 "w" (mkState (sample_work : MState sig) 5) sample_ensure (an_event 7)).2.

Lemma log1_ok : log_ok log1.
Proof. apply log_ok_edge; [cbn; lia|apply log_ok_new]. Qed.

Lemma memory_edge_appends_witness : exists l', log_edge log1 "w" (mkState (sample_work : MState sig) 5) sample_ensure (an_event 7) = (Ok 3, l') /\
  history l' "other" 0 10 = take 10 (events log1 "other" 0).
Proof.
  destruct (memory_edge_appends log1 "w" (mkState (sample_work : MState sig) 5) sample_ensure (an_event 7) "other" 0) as (l' & He & _ & Hh);
    [apply log1_ok|cbn; unfold_ints; lia|cbn; unfold_ints; lia|cbn; unfold_ints; lia|cbn; lia|].
  exists l'. split; [exact He|]. rewrite Hh. cbn. by rewrite app_nil_r.
Defined.

Lemma history_pages_witness : history log2 "ensure-a" 0 1 ++ history log2 "ensure-a" 2 5 = history log2 "ensure-a" 0 6.
Proof. apply (history_pages log2 "ensure-a" 0 1 5 [] 2 (an_event 6)). vm_compute. reflexivity. Defined.

Lemma edge_entry_roundtrip_witness :
  edge_event (M := sig) (E := string) (CauseEdge "ho" "un" "he") (Some (Ok (EHold hold : Edge sig))) 6 =
  Ok (Some (mkEdgeEvent (KHold : EdgeKind sig) (LUnfulfilled : Label sig) (LHeld : Label sig) 6 (EHold hold : Edge sig))).
Proof.
  apply (edge_entry_roundtrip (M := sig) (E := string) KHold LUnfulfilled LHeld (EHold hold) 6); apply (bool_decide_eq_true_1 _); vm_compute; reflexivity.
Defined.

(** * The home *)

Lemma hold_refused : exists e h, apply sample_created "ensure-a" (EHold hold : Edge sig) (sample_world : World sig) 2 = (Err e, h).
Proof.
  destruct (apply sample_created "ensure-a" (EHold hold : Edge sig) (sample_world : World sig) 2) as [r h] eqn:Ha.
  assert (is_ok (apply sample_created "ensure-a" (EHold hold : Edge sig) (sample_world : World sig) 2).1 = false) as Hok
    by (vm_compute; reflexivity).
  rewrite Ha in Hok. destruct r as [|e]; [done|]. by exists e, h.
Qed.

Lemma failed_apply_changes_nothing_witness : exists e h,
  apply sample_created "ensure-a" (EHold hold : Edge sig) (sample_world : World sig) 2 = (Err e, h) /\
  home_resources h = home_resources sample_created.
Proof.
  destruct hold_refused as (e & h & Ha). exists e, h. split; [exact Ha|].
  exact (failed_apply_changes_nothing sample_created "ensure-a" (EHold hold : Edge sig) (sample_world : World sig) 2 e h Ha).
Defined.

Lemma bind_applied : exists ev, apply sample_recorded "ensure-a" (EBind (mkBind (mkRef "v1")) : Edge sig) (sample_world : World sig) 3 = (Ok ev, sample_bound).
Proof.
  destruct (apply sample_recorded "ensure-a" (EBind (mkBind (mkRef "v1")) : Edge sig) (sample_world : World sig) 3) as [r h] eqn:Ha.
  assert (is_ok (apply sample_recorded "ensure-a" (EBind (mkBind (mkRef "v1")) : Edge sig) (sample_world : World sig) 3).1 = true) as Hok
    by (vm_compute; reflexivity).
  rewrite Ha in Hok. destruct r as [ev|]; [|done]. exists ev. unfold sample_bound. by rewrite Ha.
Qed.

Lemma apply_commits_witness : exists r r' : Resource sig, home_resources sample_bound = <["ensure-a" := r']> (home_resources sample_recorded) /\
  (exists ev ws, log_edge_with_writes (home_log sample_recorded) (home_writer sample_recorded) (r_state r) (with_state r (r_state r')) ev ws = (Ok (r_version r'), home_log sample_bound)) /\
  r_name r' = r_name r.
Proof.
  destruct bind_applied as [ev Ha].
  destruct (apply_commits sample_recorded "ensure-a" _ _ _ ev sample_bound Ha) as (r & r' & hd & _ & Hres & _ & Hlog & _ & _ & _ & Hn & _).
  exists r, r'. split; [exact Hres|]. split; [exists ev, (h_writes hd); exact Hlog|exact Hn].
Defined.

Lemma home_keeps_invariant_witness : exists r, home_resources sample_bound !! "ensure-a" = Some r /\ r_name r = "ensure-a" /\ ensure_inv (r_spec r) (value (r_state r)).
Proof.
  destruct sample_bound_lookup as (r & Hl & _). exists r. split; [exact Hl|].
  exact (home_keeps_invariant (M := sig) (fun _ => True) ensure_inv "home-a" memory_log_new sample_home sample_bound
    sample_home_new (sample_reached _) "ensure-a" r Hl).
Defined.

Lemma retry_agrees_with_history_witness :
  exhausted (after_attempts [(Failed (mkCause Transient "x") true, 1); (Succeeded, 2); (Failed (mkCause Transient "x") false, 3)]
    (mkPolicy 3 1000000 2 60000000) (handle_on sample_ensure (sample_world : World sig) 9)).1 = true.
Proof.
  rewrite retry_agrees_with_history; [vm_compute; reflexivity|]. unfold policy_ok. cbn. unfold_ints. lia.
Defined.

End Examples.
