(* ===== verification/Text.v ===== *)
(** Rust text for the address crate ([crates/flotilla-address]): a [str] as the
    list of its bytes, UTF-8 validity as [String::from_utf8] checks it, and the
    [str] operations the crate calls, with the lemmas about splitting, joining
    and byte order that its parsers and printers rest on. *)

From S2P Require Import Prelude.
From Stdlib Require Import Ascii.
#[local] Open Scope Z_scope.

(** * Bytes *)

(** A [str], by its bytes; [tx] reads a literal. *)
Abbreviation text := (list ascii) (only parsing).
Definition tx (s : string) : text := String.list_ascii_of_string s.

Definition byte_val (c : ascii) : Z := Z.of_N (N_of_ascii c).
Definition byte_of (n : Z) : ascii := ascii_of_N (Z.to_N n).

Definition all_bytes : list ascii := map (fun n => ascii_of_nat n) (seq 0 256).

Lemma all_bytes_complete c : c ∈ all_bytes.
Proof.
  unfold all_bytes. apply list_elem_of_fmap. exists (nat_of_ascii c). split; [by rewrite ascii_nat_embedding|].
  apply elem_of_seq. pose proof (nat_ascii_bounded c). lia.
Qed.

(** A fact about one byte, by evaluating it on all of them. *)
Lemma byte_forall (f : ascii -> bool) : forallb f all_bytes = true -> forall c, f c = true.
Proof. intros H c. apply (proj1 (forallb_elem f all_bytes) H), all_bytes_complete. Qed.
Ltac by_bytes := lazymatch goal with |- forall c, @?P c =>
  intros c; apply (bool_decide_eq_true_1 (P c)); revert c; apply byte_forall; vm_compute; reflexivity end.

Lemma byte_val_range c : 0 <= byte_val c < 256.
Proof. unfold byte_val. pose proof (N_ascii_bounded c). lia. Qed.
Lemma byte_of_val c : byte_of (byte_val c) = c.
Proof. unfold byte_of, byte_val. by rewrite N2Z.id, ascii_N_embedding. Qed.
Lemma byte_val_of n : 0 <= n < 256 -> byte_val (byte_of n) = n.
Proof. intros H. unfold byte_of, byte_val. rewrite N_ascii_embedding by lia. lia. Qed.
#[export] Instance byte_val_inj : Inj (=) (=) byte_val.
Proof. intros a b H. by rewrite <-(byte_of_val a), H, byte_of_val. Qed.

Definition in_bytes (lo hi : Z) (c : ascii) : bool := (lo <=? byte_val c) && (byte_val c <=? hi).

(** [u8]'s ASCII classes. *)
Definition is_digit (c : ascii) : bool := in_bytes 48 57 c.
Definition is_lower (c : ascii) : bool := in_bytes 97 122 c.
Definition is_upper (c : ascii) : bool := in_bytes 65 90 c.
Definition is_alnum (c : ascii) : bool := is_digit c || is_lower c || is_upper c.
Definition is_ascii (c : ascii) : bool := byte_val c <? 128.
Definition lower_byte (c : ascii) : ascii := if is_upper c then byte_of (byte_val c + 32) else c.
(** [str::to_ascii_lowercase]. *)
Definition to_ascii_lowercase (t : text) : text := map lower_byte t.

(** * UTF-8 *)

Definition cont (c : ascii) : bool := in_bytes 128 191 c.

(** One scalar value at the front, as [run_utf8_validation] accepts it: the
    bytes after it. *)
Definition utf8_step (t : text) : option text :=
  match t with
  | [] => None
  | a :: t1 =>
      if in_bytes 0 127 a then Some t1
      else match t1 with
      | [] => None
      | b :: t2 =>
          if in_bytes 194 223 a then if cont b then Some t2 else None
          else match t2 with
          | [] => None
          | c :: t3 =>
              if in_bytes 224 239 a then
                if (if byte_val a =? 224 then in_bytes 160 191 b else if byte_val a =? 237 then in_bytes 128 159 b else cont b) && cont c
                then Some t3 else None
              else match t3 with
              | [] => None
              | d :: t4 =>
                  if in_bytes 240 244 a &&
                    (if byte_val a =? 240 then in_bytes 144 191 b else if byte_val a =? 244 then in_bytes 128 143 b else cont b) && cont c && cont d
                  then Some t4 else None
              end
          end
      end
  end.

Fixpoint utf8_fuel (n : nat) (t : text) : bool :=
  match t with
  | [] => true
  | _ => match n with O => false | S n => match utf8_step t with Some t' => utf8_fuel n t' | None => false end end
  end.
(** [String::from_utf8] succeeds. Every step takes a byte at least, so the
    length is fuel enough. *)
Definition utf8 (t : text) : bool := utf8_fuel (length t) t.

(** What a step takes: one byte that starts a scalar value, and its
    continuation bytes. *)
Lemma starts_not_cont lo hi a : in_bytes lo hi a = true -> 192 <= lo \/ hi <= 127 -> cont a = false.
Proof. unfold cont, in_bytes. rewrite !andb_true_iff, andb_false_iff, !Z.leb_le, !Z.leb_gt. lia. Qed.
Lemma in_bytes_sub lo hi lo' hi' c : in_bytes lo hi c = true -> lo' <= lo -> hi <= hi' -> in_bytes lo' hi' c = true.
Proof. unfold in_bytes. rewrite !andb_true_iff, !Z.leb_le. lia. Qed.

Lemma utf8_step_inv t t' : utf8_step t = Some t' ->
  exists a p, t = a :: p ++ t' /\ cont a = false /\ forallb cont p = true /\ forall u, utf8_step (a :: p ++ u) = Some u.
Proof.
  intros H. destruct t as [|a t1]; [done|]. cbn in H.
  destruct (in_bytes 0 127 a) eqn:Ha.
  { injection H as <-. exists a, []. cbn. rewrite Ha. split_and!; try done. apply (starts_not_cont 0 127); [done|lia]. }
  destruct t1 as [|b t2]; [done|].
  destruct (in_bytes 194 223 a) eqn:Hb.
  { destruct (cont b) eqn:Hc; [|done]. injection H as <-. exists a, [b]. cbn. rewrite Ha, Hb, Hc.
    split_and!; try done. apply (starts_not_cont 194 223); [done|lia]. }
  destruct t2 as [|c t3]; [done|].
  destruct (in_bytes 224 239 a) eqn:Hc.
  { destruct (_ && cont c) eqn:Hd; [|done]. injection H as <-. exists a, [b; c]. cbn. rewrite Ha, Hb, Hc, Hd.
    apply andb_true_iff in Hd as [Hd He]. rewrite He.
    split_and!; try done; [apply (starts_not_cont 224 239); [done|lia]|]. rewrite !andb_true_r.
    repeat case_match; try done; eapply in_bytes_sub; try eassumption; lia. }
  destruct t3 as [|d t4]; [done|].
  destruct (_ && cont d) eqn:Hd; [|done]. injection H as <-. exists a, [b; c; d]. cbn. rewrite Ha, Hb, Hc, Hd.
  rewrite !andb_true_iff in Hd. destruct Hd as [[[Hd He] Hf] Hg]. rewrite Hf, Hg.
  split_and!; try done; [apply (starts_not_cont 240 244); [done|lia]|]. rewrite !andb_true_r.
  repeat case_match; try done; eapply in_bytes_sub; try eassumption; lia.
Qed.

Lemma utf8_step_shorter t t' : utf8_step t = Some t' -> (length t' < length t)%nat.
Proof. intros (a & p & -> & _)%utf8_step_inv. cbn. rewrite length_app. lia. Qed.

Lemma utf8_fuel_enough n m t : (length t <= n)%nat -> (length t <= m)%nat -> utf8_fuel n t = utf8_fuel m t.
Proof.
  revert m t. induction n as [|n IH]; intros m t Hn Hm; [by destruct t, m; cbn in *; try lia|].
  destruct t as [|a t]; [by destruct m|]. destruct m as [|m]; [cbn in Hm; lia|]. cbn [utf8_fuel].
  destruct (utf8_step (a :: t)) as [t'|] eqn:Hs; [|done]. apply utf8_step_shorter in Hs. cbn [length] in Hs, Hn, Hm. apply IH; lia.
Qed.

Lemma utf8_unfold t : utf8 t = match t with [] => true | _ => match utf8_step t with Some t' => utf8 t' | None => false end end.
Proof.
  destruct t as [|a t]; [done|]. unfold utf8 at 1. cbn [length utf8_fuel]. destruct (utf8_step (a :: t)) as [t'|] eqn:Hs; [|done].
  apply utf8_step_shorter in Hs. cbn in Hs. apply utf8_fuel_enough; lia.
Qed.

(** Induction over the scalar values of valid text. *)
Lemma utf8_rect (P : text -> Prop) :
  P [] ->
  (forall a p t, cont a = false -> forallb cont p = true -> (forall u, utf8_step (a :: p ++ u) = Some u) -> utf8 t = true ->
    P t -> P (a :: p ++ t)) ->
  forall t, utf8 t = true -> P t.
Proof.
  intros H0 HS t. remember (length t) as n eqn:Hn. revert t Hn.
  induction n as [n IH] using lt_wf_ind. intros t Hn Ht. rewrite utf8_unfold in Ht. destruct t as [|x t]; [done|].
  destruct (utf8_step (x :: t)) as [t'|] eqn:Hs; [|done]. pose proof (utf8_step_shorter _ _ Hs) as Hlen.
  apply utf8_step_inv in Hs as (a & p & Heq & Ha & Hp & Hs). rewrite Heq. apply HS; try done. by eapply IH; [|reflexivity|]; [lia|].
Qed.

(** A boundary between scalar values: nothing after it, or a byte that starts one. *)
Definition starts (t : text) : bool := match t with [] => true | c :: _ => negb (cont c) end.

Lemma utf8_app x y : utf8 x = true -> utf8 y = true -> utf8 (x ++ y) = true.
Proof.
  intros Hx Hy. revert x Hx. apply utf8_rect; [done|]. intros a p t _ _ Hs _ IH.
  cbn [app]. rewrite <-app_assoc, utf8_unfold, Hs. exact IH.
Qed.
Lemma utf8_starts t : utf8 t = true -> starts t = true.
Proof. revert t. apply utf8_rect; [done|]. intros a p t Ha _ _ _ _. cbn. by rewrite Ha. Qed.

Lemma utf8_app_inv x y : utf8 (x ++ y) = true -> starts y = true -> utf8 x = true /\ utf8 y = true.
Proof.
  remember (x ++ y) as t eqn:Heq. intros Ht. revert x Heq. revert t Ht.
  apply (utf8_rect (fun t => forall x, t = x ++ y -> starts y = true -> utf8 x = true /\ utf8 y = true)).
  { intros x H _. symmetry in H. apply app_eq_nil in H as [-> ->]. done. }
  intros a p t Ha Hp Hs Ht IH x Heq Hy. destruct x as [|b x].
  { cbn in Heq. subst y. split; [done|]. by rewrite utf8_unfold, Hs. }
  injection Heq as <- Heq. apply app_eq_inv in Heq as [(k & -> & ->)|(k & -> & ->)].
  - destruct (decide (k = [])) as [->|Hk].
    + rewrite app_nil_r in *. destruct (IH [] eq_refl Hy) as [_ H]. split; [|done].
      rewrite utf8_unfold. pose proof (Hs []) as H'. rewrite app_nil_r in H'. by rewrite H'.
    + exfalso. rewrite forallb_app in Hp. apply andb_true_iff in Hp as [_ Hp]. destruct k as [|c k]; [done|].
      cbn in Hp, Hy. apply andb_true_iff in Hp as [Hp _]. by rewrite Hp in Hy.
  - destruct (IH k eq_refl Hy) as [Hk H]. split; [|done]. by rewrite utf8_unfold, Hs.
Qed.

Lemma ascii_starts : forall c, is_ascii c = true -> cont c = false.
Proof. intros c H. unfold cont, in_bytes, is_ascii in *. apply Z.ltb_lt in H. apply andb_false_iff. left. apply Z.leb_gt. lia. Qed.

Lemma utf8_cons c t : is_ascii c = true -> utf8 (c :: t) = utf8 t.
Proof.
  intros H. rewrite utf8_unfold. cbn. unfold is_ascii in H. apply Z.ltb_lt in H.
  replace (in_bytes 0 127 c) with true; [done|]. symmetry. unfold in_bytes. pose proof (byte_val_range c).
  apply andb_true_iff. split; apply Z.leb_le; lia.
Qed.
Lemma utf8_ascii t : forallb is_ascii t = true -> utf8 t = true.
Proof. induction t as [|c t IH]; [done|]. cbn [forallb]. intros [Hc Ht]%andb_true_iff. rewrite utf8_cons by done. auto. Qed.

(** Cutting at an ASCII byte keeps both sides valid. *)
Lemma utf8_cut x c y : is_ascii c = true -> utf8 (x ++ c :: y) = true <-> utf8 x = true /\ utf8 y = true.
Proof.
  intros Hc. split.
  - intros H. apply utf8_app_inv in H as [Hx Hy]; [|cbn; by rewrite ascii_starts]. rewrite utf8_cons in Hy; done.
  - intros [Hx Hy]. apply utf8_app; [done|]. by rewrite utf8_cons.
Qed.

(** * Operations of [str] *)

(** The single characters the crate's syntax uses. *)
Definition slash : ascii := ascii_of_nat 47.
Definition colon : ascii := ascii_of_nat 58.
Definition at_sign : ascii := ascii_of_nat 64.
Definition percent : ascii := ascii_of_nat 37.
Definition dot : ascii := ascii_of_nat 46.
Definition space : ascii := ascii_of_nat 32.
Definition dash : ascii := ascii_of_nat 45.
Definition zero : ascii := ascii_of_nat 48.
Definition quote : ascii := ascii_of_nat 34.

Definition has (c : ascii) (t : text) : bool := existsb (fun a => bool_decide (a = c)) t.

(** [str::split] on one character: never empty. *)
Fixpoint split (c : ascii) (t : text) : list text :=
  match t with
  | [] => [[]]
  | a :: t => if decide (a = c) then [] :: split c t
              else match split c t with h :: r => (a :: h) :: r | [] => [[a]] end
  end.
(** [str::split_once] and [str::rsplit_once]. *)
Fixpoint split_once (c : ascii) (t : text) : option (text * text) :=
  match t with
  | [] => None
  | a :: t => if decide (a = c) then Some ([], t)
              else match split_once c t with Some (x, y) => Some (a :: x, y) | None => None end
  end.
Fixpoint rsplit_once (c : ascii) (t : text) : option (text * text) :=
  match t with
  | [] => None
  | a :: t => match rsplit_once c t with
              | Some (x, y) => Some (a :: x, y)
              | None => if decide (a = c) then Some ([], t) else None
              end
  end.
(** [str::strip_prefix] and [str::strip_suffix]. *)
Fixpoint strip_prefix (p t : text) : option text :=
  match p, t with
  | [], _ => Some t
  | a :: p, b :: t => if decide (a = b) then strip_prefix p t else None
  | _ :: _, [] => None
  end.
Definition strip_suffix (p t : text) : option text :=
  match strip_prefix (rev p) (rev t) with Some r => Some (rev r) | None => None end.
(** [[&str]::join]. *)
Fixpoint join (sep : text) (l : list text) : text :=
  match l with [] => [] | [x] => x | x :: l => x ++ sep ++ join sep l end.
(** [find] on a character class with the text before the match: the longest
    prefix of characters that satisfy [f], and the rest. *)
Fixpoint span (f : ascii -> bool) (t : text) : text * text :=
  match t with
  | [] => ([], [])
  | a :: u => if f a then let '(x, y) := span f u in (a :: x, y) else ([], t)
  end.
(** [str::trim_end_matches] of one character. *)
Definition trim_end_matches (c : ascii) (t : text) : text :=
  rev (snd (span (fun a => bool_decide (a = c)) (rev t))).

(** The bytes of the [White_Space] character at the front, 0 when there is
    none: U+0009 to U+000D, U+0020, U+0085, U+00A0, U+1680, U+2000 to U+200A,
    U+2028, U+2029, U+202F, U+205F, U+3000. *)
Definition whitespace (t : text) : nat :=
  match t with
  | [] => 0
  | a :: u =>
      if in_bytes 9 13 a || in_bytes 32 32 a then 1
      else match u with
      | [] => 0
      | b :: v =>
          if in_bytes 194 194 a && (in_bytes 133 133 b || in_bytes 160 160 b) then 2
          else match v with
          | [] => 0
          | c :: _ =>
              if (in_bytes 225 225 a && in_bytes 154 154 b && in_bytes 128 128 c)
                || (in_bytes 226 226 a && in_bytes 128 128 b &&
                    (in_bytes 128 138 c || in_bytes 168 169 c || in_bytes 175 175 c))
                || (in_bytes 226 226 a && in_bytes 129 129 b && in_bytes 159 159 c)
                || (in_bytes 227 227 a && in_bytes 128 128 b && in_bytes 128 128 c)
              then 3 else 0
          end
      end
  end%nat.
Definition at_whitespace (t : text) : bool := negb (Nat.eqb (whitespace t) 0).

(** [str::trim_start], [str::trim_end] and [str::trim]. Each step of
    [trim_start] drops a byte at least, so the length is fuel enough. *)
Fixpoint trim_start_fuel (n : nat) (t : text) : text :=
  match n with
  | O => t
  | S n => match whitespace t with O => t | k => trim_start_fuel n (drop k t) end
  end.
Definition trim_start (t : text) : text := trim_start_fuel (length t) t.
Fixpoint trim_end (t : text) : text :=
  match t with
  | [] => []
  | a :: u => match trim_start t with [] => [] | _ => a :: trim_end u end
  end.
Definition trim (t : text) : text := trim_end (trim_start t).

(** The text up to the next whitespace, and the rest. *)
Fixpoint until_whitespace (t : text) : text * text :=
  match t with
  | [] => ([], [])
  | a :: u => if at_whitespace t then ([], t) else let '(x, y) := until_whitespace u in (a :: x, y)
  end.
(** [str::split_whitespace]: the words between runs of whitespace. *)
Fixpoint split_whitespace_fuel (n : nat) (t : text) : list text :=
  match n with
  | O => []
  | S n => let t := trim_start t in
           match t with [] => [] | _ => let '(w, r) := until_whitespace t in w :: split_whitespace_fuel n r end
  end.
Definition split_whitespace (t : text) : list text := split_whitespace_fuel (S (length t)) t.

(** [str]'s [Ord]: bytes in order, a prefix first. *)
Fixpoint text_lt (a b : text) : bool :=
  match a, b with
  | _, [] => false
  | [], _ :: _ => true
  | x :: a, y :: b => (byte_val x <? byte_val y) || (bool_decide (x = y) && text_lt a b)
  end.

(** [u64]'s [FromStr]: an optional [+], digits, no overflow. *)
Definition digit_val (c : ascii) : Z := byte_val c - 48.
Fixpoint parse_digits (acc : Z) (t : text) : option Z :=
  match t with
  | [] => Some acc
  | c :: t => if is_digit c then
                let acc := acc * 10 + digit_val c in
                if acc <=? u64_max then parse_digits acc t else None
              else None
  end.
Definition parse_u64 (t : text) : option Z :=
  match t with
  | [] => None
  | c :: u => if bool_decide (byte_val c = 43) && negb (bool_decide (u = [])) then parse_digits 0 u else parse_digits 0 t
  end.
(** [u64]'s [Display]: a [u64] has at most 20 digits. *)
Fixpoint decimal (fuel : nat) (n : Z) (acc : text) : text :=
  match fuel with
  | O => acc
  | S fuel => let acc := byte_of (48 + n mod 10) :: acc in
              if n / 10 =? 0 then acc else decimal fuel (n / 10) acc
  end.
Definition u64_to_string (n : Z) : text := decimal 20 n [].

(** [str::to_lowercase]: the Unicode tables are not in the repository, so the
    mapping is a parameter. It maps strings to strings, and is ASCII lowercasing
    on ASCII text. *)
Class Lowercase := {
  to_lowercase : text -> text;
  to_lowercase_utf8 t : utf8 t = true -> utf8 (to_lowercase t) = true;
  to_lowercase_ascii t : forallb is_ascii t = true -> to_lowercase t = to_ascii_lowercase t;
}.


(** ** Splitting and joining *)

Lemma has_app c x y : has c (x ++ y) = has c x || has c y.
Proof. apply existsb_app. Qed.
Lemma has_false c t : has c t = false <-> c ∉ t.
Proof.
  unfold has. rewrite existsb_false. split.
  - intros H Hin. apply H in Hin. by rewrite bool_decide_true in Hin.
  - intros H x Hx. apply bool_decide_false. by intros ->.
Qed.
Lemma has_class (f : ascii -> bool) c t : forallb f t = true -> f c = false -> has c t = false.
Proof. rewrite forallb_elem, has_false. intros H Hc Hin. apply H in Hin. congruence. Qed.

Lemma split_not_nil c t : split c t <> [].
Proof. destruct t as [|a t]; cbn; [done|]. repeat case_match; done. Qed.
Lemma split_app c x y : split c (x ++ c :: y) = split c x ++ split c y.
Proof.
  induction x as [|a x IH]; cbn; [by rewrite decide_True|]. destruct (decide (a = c)); [by rewrite IH|].
  rewrite IH. pose proof (split_not_nil c x). by destruct (split c x).
Qed.
Lemma split_free c t : has c t = false -> split c t = [t].
Proof.
  induction t as [|a t IH]; [done|]. cbn. intros [Ha Ht]%orb_false_iff. apply bool_decide_eq_false in Ha.
  rewrite decide_False by done. by rewrite IH.
Qed.
Lemma split_parts_free c t x : x ∈ split c t -> has c x = false.
Proof.
  revert x. induction t as [|a t IH]; cbn; [set_solver|]. intros x. case_decide as Ha; [set_solver|].
  pose proof (split_not_nil c t). destruct (split c t) as [|h r]; [done|]. rewrite elem_of_cons. intros [->|Hx]; [|set_solver].
  cbn. rewrite bool_decide_false by done. apply IH. set_solver.
Qed.
Lemma join_split c t : join [c] (split c t) = t.
Proof.
  induction t as [|a t IH]; [done|]. cbn [split]. pose proof (split_not_nil c t).
  destruct (split c t) as [|h r]; [done|]. case_decide as Ha.
  - subst a. cbn in *. by rewrite IH.
  - destruct r; cbn in *; by rewrite <-IH.
Qed.
Lemma join_cons c x l : l <> [] -> join [c] (x :: l) = x ++ c :: join [c] l.
Proof. by destruct l. Qed.
Lemma join_app c l1 l2 : l1 <> [] -> l2 <> [] -> join [c] (l1 ++ l2) = join [c] l1 ++ c :: join [c] l2.
Proof.
  intros H1 H2. induction l1 as [|x l1 IH]; [done|]. destruct (decide (l1 = [])) as [->|Hl].
  - cbn [app]. by rewrite join_cons.
  - cbn [app]. rewrite !join_cons by (by destruct l1 || done). rewrite IH by done. by rewrite <-app_assoc.
Qed.
Lemma split_join c l : l <> [] -> Forall (fun x => has c x = false) l -> split c (join [c] l) = l.
Proof.
  induction l as [|x l IH]; [done|]. intros _ [Hx Hl]%Forall_cons. destruct (decide (l = [])) as [->|Hne].
  - cbn. by apply split_free.
  - rewrite join_cons, split_app, (split_free c x), IH by done. done.
Qed.

Lemma split_once_Some c t x y : split_once c t = Some (x, y) <-> t = x ++ c :: y /\ has c x = false.
Proof.
  revert x. induction t as [|a t IH]; intros x; cbn; [split; [done|intros [H _]; by destruct x]|].
  case_decide as Ha.
  - subst a. split; [by intros [= <- <-]|]. intros [H Hx]. destruct x as [|b x]; [by injection H as <-|].
    injection H as <- H. cbn in Hx. by rewrite bool_decide_true in Hx.
  - destruct (split_once c t) as [[x' y']|] eqn:He.
    + split.
      * intros [= <- <-]. destruct (proj1 (IH x') eq_refl) as [-> Hx]. split; [done|]. cbn. by rewrite bool_decide_false.
      * intros [H Hx]. destruct x as [|b x]; [by injection H as ? ?|]. injection H as <- H. cbn in Hx.
        apply orb_false_iff in Hx as [_ Hx]. pose proof (proj2 (IH x) (conj H Hx)) as HH. by injection HH as -> ->.
    + split; [done|]. intros [H Hx]. destruct x as [|b x]; [by injection H as ? ?|]. injection H as <- H. cbn in Hx.
      apply orb_false_iff in Hx as [_ Hx]. by pose proof (proj2 (IH x) (conj H Hx)).
Qed.
Lemma split_once_None c t : split_once c t = None <-> has c t = false.
Proof.
  induction t as [|a t IH]; cbn; [done|]. case_decide as Ha; [subst a; by rewrite bool_decide_true|].
  rewrite bool_decide_false by done. destruct (split_once c t) as [[]|]; cbn; [|done]. rewrite <-IH. done.
Qed.
Lemma rsplit_once_None c t : rsplit_once c t = None <-> has c t = false.
Proof.
  induction t as [|a t IH]; cbn; [done|]. destruct (rsplit_once c t) as [[]|].
  - rewrite orb_false_iff, <-IH. split; [done|intros [_ [=]]].
  - case_decide as Ha; [subst a; by rewrite bool_decide_true|]. rewrite bool_decide_false by done. done.
Qed.
Lemma rsplit_once_Some c t x y : rsplit_once c t = Some (x, y) <-> t = x ++ c :: y /\ has c y = false.
Proof.
  revert x. induction t as [|a t IH]; intros x; cbn; [split; [done|intros [H _]; by destruct x]|].
  destruct (rsplit_once c t) as [[x' y']|] eqn:He.
  - split.
    + intros [= <- <-]. destruct (proj1 (IH x') eq_refl) as [-> Hx]. done.
    + intros [H Hy]. destruct x as [|b x].
      * injection H as -> ->. apply rsplit_once_None in Hy. congruence.
      * injection H as <- H. pose proof (proj2 (IH x) (conj H Hy)) as HH. by injection HH as -> ->.
  - apply rsplit_once_None in He. case_decide as Ha.
    + subst a. split; [by intros [= <- <-]|]. intros [H Hy]. destruct x as [|b x]; [by injection H as ->|].
      injection H as <- ->. rewrite has_app in He. cbn in He. rewrite bool_decide_true, orb_true_r in He by done. done.
    + split; [done|]. intros [H Hy]. destruct x as [|b x]; [by injection H as ? ?|].
      injection H as <- ->. rewrite has_app in He. cbn in He. rewrite bool_decide_true, orb_true_r in He by done. done.
Qed.

Lemma strip_prefix_Some p t r : strip_prefix p t = Some r <-> t = p ++ r.
Proof.
  revert t. induction p as [|a p IH]; intros t; cbn; [by split; [intros [= ->]|intros ->]|].
  destruct t as [|b t]; [done|]. case_decide as Ha.
  - subst b. rewrite IH. split; [by intros ->|by intros [= ->]].
  - split; [done|by intros [= -> _]].
Qed.
Lemma strip_suffix_Some p t r : strip_suffix p t = Some r <-> t = r ++ p.
Proof.
  unfold strip_suffix. destruct (strip_prefix (rev p) (rev t)) as [u|] eqn:H.
  - apply strip_prefix_Some in H. apply (f_equal (@rev ascii)) in H. rewrite rev_involutive, rev_app_distr, rev_involutive in H.
    subst t. split; [by intros [= <-]|]. intros Heq. apply app_inv_tail in Heq. by subst.
  - split; [done|]. intros ->. rewrite rev_app_distr in H.
    assert (strip_prefix (rev p) (rev p ++ rev r) = Some (rev r)) by by apply strip_prefix_Some. congruence.
Qed.

Lemma span_spec f t x y : span f t = (x, y) -> t = x ++ y /\ forallb f x = true /\ match y with [] => True | c :: _ => f c = false end.
Proof.
  revert x. induction t as [|a t IH]; intros x; cbn; [by intros [= <- <-]|]. destruct (f a) eqn:Ha.
  - destruct (span f t) as [x' y']. intros [= <- <-]. destruct (IH x' eq_refl) as (-> & Hx & Hy). cbn. by rewrite Ha.
  - intros [= <- <-]. cbn. by rewrite Ha.
Qed.
Lemma span_app f x y : forallb f x = true -> match y with [] => True | c :: _ => f c = false end -> span f (x ++ y) = (x, y).
Proof.
  intros Hx Hy. induction x as [|a x IH]; cbn in *.
  - destruct y; cbn; [done|]. by rewrite Hy.
  - apply andb_true_iff in Hx as [-> Hx]. by rewrite IH.
Qed.

(** ** Validity of what the operations cut *)

Lemma lower_byte_val c : byte_val (lower_byte c) = if is_upper c then byte_val c + 32 else byte_val c.
Proof.
  unfold lower_byte. destruct (is_upper c) eqn:H; [|done]. apply byte_val_of. unfold is_upper, in_bytes in H.
  apply andb_true_iff in H as [H1%Z.leb_le H2%Z.leb_le]. lia.
Qed.
Lemma lower_high c n : 128 <= n -> (n <=? byte_val (lower_byte c)) = (n <=? byte_val c).
Proof.
  intros Hn. rewrite lower_byte_val. destruct (is_upper c) eqn:H; [|done]. unfold is_upper, in_bytes in H.
  apply andb_true_iff in H as [H1%Z.leb_le H2%Z.leb_le]. apply eq_iff_eq_true. rewrite !Z.leb_le. lia.
Qed.
Lemma lower_le c n : 127 <= n -> (byte_val (lower_byte c) <=? n) = (byte_val c <=? n).
Proof. intros Hn. pose proof (lower_high c (n + 1)) as H. apply eq_iff_eq_true. rewrite !Z.leb_le. apply eq_iff_eq_true in H; [|lia]. rewrite !Z.leb_le in H. lia. Qed.
Lemma lower_in lo hi c : 128 <= lo -> 127 <= hi -> in_bytes lo hi (lower_byte c) = in_bytes lo hi c.
Proof. intros Hl Hh. unfold in_bytes. by rewrite lower_high, lower_le by lia. Qed.
Lemma lower_ascii c : in_bytes 0 127 (lower_byte c) = in_bytes 0 127 c.
Proof.
  unfold in_bytes. rewrite lower_le by lia. pose proof (byte_val_range c). pose proof (byte_val_range (lower_byte c)).
  by rewrite !(proj2 (Z.leb_le 0 _)) by lia.
Qed.
Lemma lower_eq c n : 128 <= n -> (byte_val (lower_byte c) =? n) = (byte_val c =? n).
Proof.
  intros Hn. pose proof (lower_le c n). pose proof (lower_high c n). apply eq_iff_eq_true.
  rewrite eq_iff_eq_true, !Z.leb_le in H, H0. rewrite !Z.eqb_eq. lia.
Qed.
Lemma utf8_step_lower t : utf8_step (to_ascii_lowercase t) = option_map to_ascii_lowercase (utf8_step t).
Proof.
  destruct t as [|a [|b [|c [|d t]]]]; cbn [to_ascii_lowercase map utf8_step]; try done;
    rewrite ?lower_ascii; unfold cont; rewrite ?lower_in, ?lower_eq by lia; repeat case_match; done.
Qed.
Lemma utf8_lower t : utf8 t = true -> utf8 (to_ascii_lowercase t) = true.
Proof.
  revert t. apply utf8_rect; [done|]. intros a p t _ _ Hs _ IH. rewrite utf8_unfold, utf8_step_lower, Hs. exact IH.
Qed.
(** ASCII lowercasing keeps the laws of [Lowercase]. *)
#[export] Instance ascii_lowercase : Lowercase :=
  {| to_lowercase := to_ascii_lowercase; to_lowercase_utf8 := utf8_lower; to_lowercase_ascii := fun _ _ => eq_refl |}.

Lemma whitespace_step t : whitespace t <> 0%nat -> utf8_step t = Some (drop (whitespace t) t).
Proof.
  destruct t as [|a t1]; [done|]. cbn [whitespace utf8_step].
  destruct (in_bytes 9 13 a || in_bytes 32 32 a) eqn:Ha.
  { intros _. replace (in_bytes 0 127 a) with true; [done|]. symmetry.
    apply orb_true_iff in Ha as [Ha|Ha]; (eapply in_bytes_sub; [exact Ha|lia|lia]). }
  destruct t1 as [|b t2]; [done|].
  assert (forall n, 128 <= n -> in_bytes n n a = true -> in_bytes 0 127 a = false) as Hhi.
  { intros n Hn [H1%Z.leb_le H2%Z.leb_le]%andb_true_iff. apply andb_false_iff. right. apply Z.leb_gt. lia. }
  destruct (in_bytes 194 194 a && _) eqn:Hb.
  { intros _. apply andb_true_iff in Hb as [Hb Hc]. rewrite (Hhi 194) by (lia || done).
    rewrite (in_bytes_sub _ _ 194 223 _ Hb) by lia. unfold cont.
    apply orb_true_iff in Hc as [Hc|Hc]; rewrite (in_bytes_sub _ _ 128 191 _ Hc) by lia; done. }
  destruct t2 as [|c t3]; [done|]. 
  lazymatch goal with |- (if ?g then _ else _) <> _ -> _ => destruct g eqn:Hc; [|done] end. intros _.
  assert ((225 <= byte_val a <= 227) /\ cont b = true /\ cont c = true) as (Hn & Hcb & Hcc).
  { unfold cont, in_bytes in *. repeat rewrite ?orb_true_iff, ?andb_true_iff, ?Z.leb_le in Hc.
    rewrite !andb_true_iff, !Z.leb_le. lia. }
  assert (in_bytes 0 127 a = false /\ in_bytes 194 223 a = false /\ in_bytes 224 239 a = true) as (-> & -> & ->).
  { unfold in_bytes. rewrite !andb_false_iff, andb_true_iff, !Z.leb_le, !Z.leb_gt. lia. }
  rewrite !(proj2 (Z.eqb_neq _ _)) by lia. by rewrite Hcb, Hcc.
Qed.
Lemma whitespace_len t : (whitespace t <= length t)%nat.
Proof. destruct t as [|a [|b [|c t]]]; cbn [whitespace length]; repeat case_match; lia. Qed.

Lemma trim_start_fuel_spec n t : exists w, t = w ++ trim_start_fuel n t /\ (utf8 t = true -> utf8 (trim_start_fuel n t) = true).
Proof.
  revert t. induction n as [|n IH]; intros t; [by exists []|]. cbn [trim_start_fuel].
  destruct (whitespace t) as [|k] eqn:Hw; [by exists []|]. destruct (IH (drop (S k) t)) as (w & Heq & Hu).
  exists (take (S k) t ++ w). rewrite <-app_assoc, <-Heq, take_drop. split; [done|]. intros Ht. apply Hu.
  rewrite utf8_unfold in Ht. destruct t as [|a t]; [done|]. rewrite whitespace_step, Hw in Ht by (rewrite Hw; done). done.
Qed.
Lemma trim_start_done_fuel n t : (length t <= n)%nat -> whitespace (trim_start_fuel n t) = 0%nat.
Proof.
  revert t. induction n as [|n IH]; intros t Hn; [by destruct t; cbn in *; [|lia]|]. cbn [trim_start_fuel].
  destruct (whitespace t) as [|k] eqn:Hw; [done|]. apply IH. rewrite length_drop. lia.
Qed.
(** Trimming the start leaves no whitespace there. *)
Lemma trim_start_done t : whitespace (trim_start t) = 0%nat.
Proof. by apply trim_start_done_fuel. Qed.
Lemma trim_start_fixed t : whitespace t = 0%nat -> trim_start t = t.
Proof. intros H. unfold trim_start. destruct t; [done|]. cbn [length trim_start_fuel]. by rewrite H. Qed.
Lemma trim_start_utf8 t : utf8 t = true -> utf8 (trim_start t) = true.
Proof. destruct (trim_start_fuel_spec (length t) t) as (w & _ & H). exact H. Qed.

(** A byte no whitespace character starts with. *)
Definition solid (c : ascii) : bool := is_ascii c && negb (in_bytes 9 13 c || in_bytes 32 32 c).
Lemma solid_whitespace c u : solid c = true -> whitespace (c :: u) = 0%nat.
Proof.
  unfold solid. intros [Ha Hn%negb_true_iff]%andb_true_iff. cbn [whitespace]. rewrite Hn. unfold is_ascii in Ha. apply Z.ltb_lt in Ha.
  assert (forall n, 128 <= n -> in_bytes n n c = false) as Hf.
  { intros n Hn'. unfold in_bytes. apply andb_false_iff. left. apply Z.leb_gt. lia. }
  destruct u as [|b [|d u]]; [done| |]; rewrite !Hf by lia; done.
Qed.
Lemma until_whitespace_app w r : forallb solid w = true -> (r = [] \/ at_whitespace r = true) -> until_whitespace (w ++ r) = (w, r).
Proof.
  intros Hw Hr. induction w as [|c w IH]; cbn [app].
  - destruct r as [|d r]; [done|]. destruct Hr as [Hr|Hr]; [done|]. cbn [until_whitespace]. by rewrite Hr.
  - cbn [forallb] in Hw. apply andb_true_iff in Hw as [Hc Hw]. cbn [until_whitespace]. unfold at_whitespace. rewrite solid_whitespace by done.
    cbn [Nat.eqb negb]. by rewrite IH.
Qed.
Lemma until_whitespace_parts t w r : until_whitespace t = (w, r) -> t = w ++ r.
Proof.
  revert w. induction t as [|c t IH]; intros w; cbn [until_whitespace]; [by intros [= <- <-]|]. destruct (at_whitespace _); [by intros [= <- <-]|].
  destruct (until_whitespace t) as [x y]. intros [= <- <-]. by rewrite (IH x).
Qed.

(** Trimming cuts no solid byte. *)
Lemma whitespace_not_solid t c : c ∈ take (whitespace t) t -> solid c = false.
Proof.
  assert (forall lo hi x, in_bytes lo hi x = true -> 128 <= lo -> solid x = false) as Hhigh.
  { intros lo hi x [Hx%Z.leb_le _]%andb_true_iff Hlo. unfold solid, is_ascii. rewrite (proj2 (Z.ltb_ge _ _)) by lia. done. }
  destruct t as [|x t]; [set_solver|]. cbn [whitespace].
  destruct (in_bytes 9 13 x || in_bytes 32 32 x) eqn:Hx.
  { cbn [take]. intros ->%list_elem_of_singleton. unfold solid. by rewrite Hx, andb_false_r. }
  destruct t as [|y t]; [set_solver|]. destruct (in_bytes 194 194 x && _) eqn:Hy.
  { cbn [take]. apply andb_true_iff in Hy as [Hxx Hy]. rewrite !elem_of_cons. intros [->|[->|Hin]]; [eapply Hhigh; [exact Hxx|lia]| |set_solver].
    apply orb_true_iff in Hy as [Hy|Hy]; (eapply Hhigh; [exact Hy|lia]). }
  destruct t as [|z t]; [set_solver|].
  lazymatch goal with |- _ ∈ take (if ?g then _ else _) _ -> _ => destruct g eqn:Hz; [|set_solver] end.
  assert (128 <= byte_val x /\ 128 <= byte_val y /\ 128 <= byte_val z) as (H1 & H2 & H3).
  { unfold in_bytes in Hz. repeat rewrite ?orb_true_iff, ?andb_true_iff, ?Z.leb_le in Hz. lia. }
  assert (forall b, 128 <= byte_val b -> solid b = false) as Hb by (intros b Hb; unfold solid, is_ascii; by rewrite (proj2 (Z.ltb_ge _ _)) by lia).
  cbn [take]. rewrite !elem_of_cons. intros [->|[->|[->|Hin]]]; [auto|auto|auto|set_solver].
Qed.
Lemma trim_start_fuel_cuts n t : exists w, t = w ++ trim_start_fuel n t /\ forall c, c ∈ w -> solid c = false.
Proof.
  revert t. induction n as [|n IH]; intros t; [exists []; set_solver|]. cbn [trim_start_fuel].
  destruct (whitespace t) as [|k] eqn:Hw; [exists []; set_solver|]. destruct (IH (drop (S k) t)) as (w & Heq & Hs).
  exists (take (S k) t ++ w). rewrite <-app_assoc, <-Heq, take_drop. split; [done|]. intros c [Hc|Hc]%elem_of_app; [|auto].
  apply (whitespace_not_solid t). by rewrite Hw.
Qed.
Lemma trim_end_solid t c : solid c = true -> trim_end (t ++ [c]) = t ++ [c].
Proof.
  intros Hc. assert (forall u, trim_start (u ++ [c]) <> []) as Hne.
  { intros u Hu. destruct (trim_start_fuel_cuts (length (u ++ [c])) (u ++ [c])) as (w & Heq & Hs). fold (trim_start (u ++ [c])) in Heq.
    rewrite Hu, app_nil_r in Heq. rewrite (Hs c) in Hc; [done|]. rewrite <-Heq. set_solver. }
  induction t as [|a t IH]; cbn [app trim_end].
  - pose proof (Hne []) as H0. cbn [app] in H0. by destruct (trim_start [c]).
  - pose proof (Hne (a :: t)) as H0. cbn [app] in H0. destruct (trim_start (a :: t ++ [c])); [done|]. by rewrite IH.
Qed.

(** What [trim_end] cuts starts with a whitespace character, unless it cuts nothing. *)
Lemma trim_end_spec t : exists w, t = trim_end t ++ w /\ (w = [] \/ whitespace w <> 0%nat).
Proof.
  induction t as [|a t IH]; [exists []; by split; [|left]|]. cbn [trim_end]. destruct (trim_start (a :: t)) as [|b u] eqn:Hs.
  - exists (a :: t). split; [done|]. right. intros Hw. by rewrite trim_start_fixed in Hs.
  - destruct IH as (w & Heq & Hw). exists w. split; [|done]. cbn. by f_equal.
Qed.
Lemma trim_end_utf8 t : utf8 t = true -> utf8 (trim_end t) = true.
Proof.
  intros Ht. destruct (trim_end_spec t) as (w & Heq & Hw). rewrite Heq in Ht. apply utf8_app_inv in Ht; [tauto|].
  destruct Hw as [->|Hw]; [done|]. apply whitespace_step, utf8_step_inv in Hw as (a & p & -> & Ha & _). cbn. by rewrite Ha.
Qed.
Lemma trim_utf8 t : utf8 t = true -> utf8 (trim t) = true.
Proof. intros. by apply trim_end_utf8, trim_start_utf8. Qed.

Lemma utf8_split c t : is_ascii c = true -> utf8 t = true -> Forall (fun x => utf8 x = true) (split c t).
Proof.
  intros Hc. rewrite <-(join_split c t) at 1. generalize (split c t). intros l. induction l as [|x l IH]; [done|].
  destruct (decide (l = [])) as [->|Hl]; [by constructor|]. rewrite join_cons by done. rewrite utf8_cut by done.
  intros [Hx Hl']. constructor; auto.
Qed.
Lemma utf8_join l : Forall (fun x => utf8 x = true) l -> utf8 (join [slash] l) = true.
Proof.
  induction l as [|x l IH]; [done|]. intros [Hx Hl]%Forall_cons. destruct (decide (l = [])) as [->|Hne]; [done|].
  rewrite join_cons, utf8_cut by done. auto.
Qed.

(** ** Byte order *)

(** The texts from [p/] up to [p0] are those that continue [p] with a slash. *)
Lemma text_lt_prefix p x y : text_lt (p ++ x) (p ++ y) = text_lt x y.
Proof. induction p as [|a p IH]; [done|]. cbn. by rewrite Z.ltb_irrefl, bool_decide_true by done. Qed.
Lemma text_lt_between p t :
  text_lt t (p ++ [slash]) = false /\ text_lt t (p ++ [zero]) = true <-> exists r, t = p ++ slash :: r.
Proof.
  revert t. induction p as [|a p IH]; intros t.
  - destruct t as [|b t]; [split; [by intros [H _]|by intros (r & H)]|]. cbn. split.
    + intros [H1 H2]. apply orb_false_iff in H1 as [H1%Z.ltb_ge H1'].
      destruct t as [|c t]; cbn in H2; rewrite ?andb_false_r, ?orb_false_r in H2; apply Z.ltb_lt in H2;
        change (byte_val slash) with 47 in *; change (byte_val zero) with 48 in *;
        (assert (b = slash) as -> by (apply (inj byte_val); change (byte_val slash) with 47; lia)); eauto.
    + intros (r & [= -> ->]). rewrite Z.ltb_irrefl. destruct r; rewrite ?andb_false_r; done.
  - destruct t as [|b t]; [split; [by intros [H _]|by intros (r & H)]|]. cbn.
    destruct (decide (b = a)) as [->|Hne].
    + rewrite Z.ltb_irrefl, bool_decide_true by done. cbn. rewrite IH. split; intros (r & H); exists r; congruence.
    + rewrite bool_decide_false by done. cbn. rewrite orb_false_r. split; [intros [H1 H2]; congruence|].
      intros (r & [= -> _]). done.
Qed.

Lemma text_lt_trans a b c : text_lt a b = true -> text_lt b c = true -> text_lt a c = true.
Proof.
  revert b c. induction a as [|x a IH]; intros [|y b] [|z c]; cbn; try done. rewrite !orb_true_iff, !andb_true_iff, !bool_decide_eq_true, !Z.ltb_lt.
  intros [H1|[-> H1]] [H2|[-> H2]]; auto with lia. right. split; [done|]. by eapply IH.
Qed.
Lemma text_lt_total a b : text_lt a b = false -> a <> b -> text_lt b a = true.
Proof.
  revert b. induction a as [|x a IH]; intros [|y b]; cbn; try done. rewrite orb_false_iff, orb_true_iff, andb_true_iff, bool_decide_eq_true, Z.ltb_ge, Z.ltb_lt.
  intros [H1 H2] Hne. destruct (decide (x = y)) as [->|Hxy].
  - right. split; [done|]. rewrite bool_decide_true in H2 by done. apply IH; [done|congruence].
  - left. assert (byte_val x <> byte_val y) by by intros ?%(inj byte_val). lia.
Qed.

(** ** Numbers *)

Definition digits_val (t : text) : Z := fold_left (fun acc c => acc * 10 + digit_val c) t 0.
(** No sign and no leading zero. *)
Definition canonical_digits (t : text) : bool :=
  forallb is_digit t && (bool_decide (t = [zero]) || match t with c :: _ => negb (bool_decide (c = zero)) | [] => true end).

Lemma digit_val_range c : is_digit c = true -> 0 <= digit_val c <= 9.
Proof. unfold is_digit, in_bytes, digit_val. rewrite andb_true_iff, !Z.leb_le. lia. Qed.
Lemma digits_val_app t c : digits_val (t ++ [c]) = digits_val t * 10 + digit_val c.
Proof. unfold digits_val. by rewrite fold_left_app. Qed.
Lemma digits_val_nonneg t : forallb is_digit t = true -> 0 <= digits_val t.
Proof.
  induction t as [|c t IH] using rev_ind; [done|]. rewrite forallb_app, digits_val_app. cbn. rewrite andb_true_r.
  intros [Ht Hc]%andb_true_iff. apply digit_val_range in Hc. specialize (IH Ht). lia.
Qed.
Lemma parse_digits_Some acc t n : 0 <= acc <= u64_max ->
  parse_digits acc t = Some n <->
  forallb is_digit t = true /\ n = fold_left (fun acc c => acc * 10 + digit_val c) t acc /\ n <= u64_max.
Proof.
  revert acc. induction t as [|c t IH]; intros acc Hacc; cbn [parse_digits forallb fold_left].
  { split; [intros [= <-]; done || lia|by intros (_ & -> & _)]. }
  destruct (is_digit c) eqn:Hc; cbn; [|by split; [|intros []]]. pose proof (digit_val_range c Hc).
  destruct (Z.leb_spec (acc * 10 + digit_val c) u64_max); [apply IH; lia|]. split; [done|]. intros (Ht & -> & Hn). exfalso.
  clear IH. revert H0 Hn Ht. generalize (acc * 10 + digit_val c). intros m. revert m.
  assert (forall t m, 0 <= m -> forallb is_digit t = true -> m <= fold_left (fun acc c => acc * 10 + digit_val c) t m) as Hmono.
  { intros t'. induction t' as [|d t' IH']; intros m Hm; cbn; [lia|]. intros [Hd Ht']%andb_true_iff.
    apply digit_val_range in Hd. specialize (IH' (m * 10 + digit_val d) ltac:(lia) Ht'). lia. }
  intros m Hm Hn Ht. specialize (Hmono t m). unfold u64_max in *. apply Hmono in Ht; lia.
Qed.

Lemma is_digit_not_plus c : is_digit c = true -> byte_val c <> 43.
Proof. unfold is_digit, in_bytes. rewrite andb_true_iff, !Z.leb_le. lia. Qed.
(** On digits, parsing is their value when it fits. *)
Lemma parse_u64_digits t : forallb is_digit t = true -> t <> [] ->
  parse_u64 t = if digits_val t <=? u64_max then Some (digits_val t) else None.
Proof.
  intros Ht Hne. assert (parse_u64 t = parse_digits 0 t) as ->.
  { destruct t as [|c t]; [done|]. cbn in Ht. apply andb_true_iff in Ht as [Hc _]. cbn [parse_u64].
    rewrite bool_decide_false; [done|]. by apply is_digit_not_plus. }
  destruct (Z.leb_spec (digits_val t) u64_max).
  - apply parse_digits_Some; [done|]. done.
  - destruct (parse_digits 0 t) as [n|] eqn:Hp; [|done]. apply parse_digits_Some in Hp as (_ & -> & Hle); [|done].
    unfold digits_val in *. lia.
Qed.

Lemma digit_byte c : is_digit c = true -> byte_of (48 + digit_val c) = c.
Proof. intros _. unfold digit_val. replace (48 + (byte_val c - 48)) with (byte_val c) by lia. apply byte_of_val. Qed.
Lemma digit_of n : 0 <= n <= 9 -> is_digit (byte_of (48 + n)) = true /\ digit_val (byte_of (48 + n)) = n.
Proof. intros Hn. unfold is_digit, in_bytes, digit_val. rewrite byte_val_of, andb_true_iff, !Z.leb_le by lia. lia. Qed.
Lemma digit_zero c : is_digit c = true -> digit_val c = 0 <-> c = zero.
Proof.
  intros _. unfold digit_val. split; [|by intros ->]. intros H. apply (inj byte_val). change (byte_val zero) with 48. lia.
Qed.

(** Digits whose first is not zero. *)
Definition leads (t : text) : Prop := forallb is_digit t = true /\ exists c u, t = c :: u /\ c <> zero.
Lemma leads_app t c : t <> [] -> leads (t ++ [c]) <-> leads t /\ is_digit c = true.
Proof.
  intros Hne. destruct t as [|a t]; [done|]. unfold leads. rewrite forallb_app, andb_true_iff. cbn [forallb].
  rewrite (andb_true_r (is_digit c)). split.
  - intros ((Ht & Hc) & b & u & [= <- _] & Hb). eauto 10.
  - intros ((Ht & b & u & [= <- _] & Hb) & Hc). split; [done|]. exists a, (t ++ [c]). done.
Qed.
Lemma leads_val t : leads t -> 10 ^ (Z.of_nat (length t) - 1) <= digits_val t.
Proof.
  induction t as [|c t IH] using rev_ind; [by intros (_ & c & u & H & _)|]. intros Hl.
  rewrite digits_val_app, length_app. cbn [length]. destruct (decide (t = [])) as [->|Hne].
  - destruct Hl as (Hd & a & u & [= <- _] & Ha). cbn in Hd. rewrite andb_true_r in Hd. cbn.
    pose proof (digit_val_range c Hd). pose proof (digit_zero c Hd). unfold digits_val. cbn. destruct (decide (digit_val c = 0)); [tauto|lia].
  - apply leads_app in Hl as [Hl Hc]; [|done]. specialize (IH Hl). apply digit_val_range in Hc.
    assert (0 < Z.of_nat (length t)) by (destruct t; [done|cbn; lia]).
    replace (Z.of_nat (length t + 1) - 1) with (Z.succ (Z.of_nat (length t) - 1)) by lia. rewrite Z.pow_succ_r by lia. lia.
Qed.
Lemma decimal_leads fuel t acc : leads t -> (length t <= fuel)%nat -> decimal fuel (digits_val t) acc = t ++ acc.
Proof.
  revert fuel acc. induction t as [|c t IH] using rev_ind; intros fuel acc Hl Hf; [by destruct Hl as (_ & c & u & H & _)|].
  rewrite length_app in Hf. cbn in Hf. destruct fuel as [|fuel]; [lia|]. cbn [decimal]. rewrite digits_val_app.
  assert (is_digit c = true) as Hc.
  { destruct Hl as [H _]. rewrite forallb_app, andb_true_iff in H. cbn in H. destruct H as [_ H]. by rewrite andb_true_r in H. }
  pose proof (digit_val_range c Hc).
  replace ((digits_val t * 10 + digit_val c) mod 10) with (digit_val c) by (rewrite Z.add_comm, Z.mod_add by lia; rewrite Z.mod_small; lia).
  replace ((digits_val t * 10 + digit_val c) / 10) with (digits_val t) by (rewrite Z.div_add_l by lia; rewrite Z.div_small; lia).
  rewrite digit_byte by done. destruct (decide (t = [])) as [->|Hne]; [done|].
  apply leads_app in Hl as [Hl _]; [|done]. pose proof (leads_val t Hl).
  assert (0 < 10 ^ (Z.of_nat (length t) - 1)) by (apply Z.pow_pos_nonneg; [lia|destruct t; [done|cbn; lia]]).
  rewrite (proj2 (Z.eqb_neq _ _)) by lia. rewrite IH by (done || lia). by rewrite <-app_assoc.
Qed.
Lemma decimal_spec fuel n acc : 0 < n < 10 ^ Z.of_nat fuel -> exists t, decimal fuel n acc = t ++ acc /\ leads t /\ digits_val t = n.
Proof.
  revert n acc. induction fuel as [|fuel IH]; intros n acc Hn; [cbn in Hn; lia|]. cbn [decimal].
  destruct (digit_of (n mod 10)) as [Hd Hv]; [pose proof (Z.mod_pos_bound n 10); lia|].
  pose proof (Z.div_mod n 10). destruct (Z.eqb_spec (n / 10) 0) as [Hz|Hz].
  - exists [byte_of (48 + n mod 10)]. split; [done|]. split.
    + split; [by cbn; rewrite Hd|]. do 2 eexists. split; [done|]. rewrite <-digit_zero by done. lia.
    + unfold digits_val. cbn [fold_left]. lia.
  - rewrite Nat2Z.inj_succ, Z.pow_succ_r in Hn by lia.
    destruct (IH (n / 10) (byte_of (48 + n mod 10) :: acc)) as (t & -> & Hl & Ht).
    { pose proof (Z.div_pos n 10). split; [lia|]. apply Z.div_lt_upper_bound; lia. }
    exists (t ++ [byte_of (48 + n mod 10)]). rewrite <-app_assoc. split; [done|]. split.
    + apply leads_app; [by destruct Hl as (_ & c & u & -> & _)|]. done.
    + rewrite digits_val_app. lia.
Qed.

Lemma canonical_digits_iff t : t <> [] -> canonical_digits t = true <-> t = [zero] \/ leads t.
Proof.
  intros Hne. unfold canonical_digits, leads. rewrite andb_true_iff, orb_true_iff, bool_decide_eq_true.
  destruct t as [|c t]; [done|]. rewrite negb_true_iff, bool_decide_eq_false. split.
  - intros (Hd & [H|H]); [by left|right]. split; [done|]. eauto.
  - intros [->|(Hd & a & u & [= <- _] & Ha)]; [by split; [|left]|]. split; [done|by right].
Qed.

(** Parsing and printing [u64] numbers: the canonical spellings that fit are
    exactly what printing gives. *)
Lemma u64_round_trip t n : t <> [] ->
  (canonical_digits t = true /\ parse_u64 t = Some n) <-> (is_u64 n /\ t = u64_to_string n).
Proof.
  intros Hne. split.
  - intros [Hc Hp]. pose proof Hc as Hd. unfold canonical_digits in Hd. apply andb_true_iff in Hd as [Hd _].
    rewrite parse_u64_digits in Hp by done. pose proof (digits_val_nonneg t Hd).
    destruct (Z.leb_spec (digits_val t) u64_max); [|done]. injection Hp as <-. split; [done|].
    apply canonical_digits_iff in Hc as [->|Hl]; [done| |done]. symmetry. rewrite <-(app_nil_r t) at 2. apply decimal_leads; [done|].
    apply leads_val in Hl. destruct (decide (length t <= 20)%nat) as [|Hlen]; [done|]. exfalso.
    assert (10 ^ 20 <= 10 ^ (Z.of_nat (length t) - 1)) by (apply Z.pow_le_mono_r; lia). unfold u64_max in *. lia.
  - intros [Hn ->]. unfold u64_to_string in *. destruct (decide (n = 0)) as [->|Hz]; [done|].
    destruct (decimal_spec 20 n []) as (t & Heq & Hl & Ht); [unfold_ints; lia|]. rewrite app_nil_r in Heq. rewrite Heq in *.
    split; [apply canonical_digits_iff; auto|]. destruct Hl as [Hd _]. rewrite parse_u64_digits by done. rewrite Ht.
    by rewrite (proj2 (Z.leb_le _ _)) by apply Hn.
Qed.
