(* ===== verification/Encoding.v ===== *)
(** The vocabulary of addresses ([crates/flotilla-address]): the closed set of
    segment kinds with the shape grammar ([kind.rs]), the crate's error type
    ([lib.rs]), and the canonical percent-encoding of one segment value
    ([encoding.rs]). The encoding is proved one-to-one: text decodes canonically
    exactly when it is the encoding of the value it decodes to. *)

From Stdlib Require Import Ascii.
From S2P Require Import Prelude Text.
#[local] Open Scope Z_scope.

(** * Segment kinds ([kind.rs]) *)

Module Kind.
Inductive t :=
| Project | Fleet | Host | Provider | Convoy | Vessel | Role | Artifact | Message | Session
| Forge | Repo | ChangeRequest | Issue | Comment | Commit | Ref | Usage | Account.

Definition ALL : list t :=
  [Host; Provider; Project; Fleet; Convoy; Vessel; Role; Artifact; Message; Session; Forge; Repo;
   ChangeRequest; Issue; Comment; Commit; Ref; Usage; Account].

Definition as_str (k : t) : list ascii :=
  tx match k with
  | Host => "host" | Provider => "provider" | Project => "project" | Fleet => "fleet" | Convoy => "convoy"
  | Vessel => "vessel" | Role => "role" | Artifact => "artifact" | Message => "message" | Session => "session"
  | Forge => "forge" | Repo => "repo" | ChangeRequest => "cr" | Issue => "issue" | Comment => "comment"
  | Commit => "commit" | Ref => "ref" | Usage => "usage" | Account => "account"
  end.

Definition may_follow (k : t) (parent : option t) : bool :=
  match k with
  | Fleet | Project | Forge | Usage | Host => match parent with None => true | _ => false end
  | Convoy => match parent with None | Some Project => true | _ => false end
  | Vessel => match parent with Some Convoy => true | _ => false end
  | Role => match parent with Some (Fleet | Project | Convoy) => true | _ => false end
  | Artifact => match parent with Some Role => true | _ => false end
  | Message => match parent with Some Role => true | _ => false end
  | Session => match parent with Some Role => true | _ => false end
  | Repo => match parent with Some Forge => true | _ => false end
  | ChangeRequest | Issue | Comment | Commit | Ref => match parent with Some Repo => true | _ => false end
  | Account => match parent with None | Some Usage => true | _ => false end
  | Provider => match parent with Some (Host | Account) => true | _ => false end
  end.
End Kind.

#[export] Instance kind_eq_dec : EqDecision Kind.t.
Proof. solve_decision. Defined.

(** * Errors ([lib.rs]) *)

Inductive Error :=
| E_Empty
| E_MalformedSegment (segment : list ascii)
| E_UnknownKind (token : list ascii)
| E_Shape (kind : Kind.t) (parent : option Kind.t)
| E_InvalidValue (kind : Kind.t) (value reason : list ascii)
| E_InvalidEscape (value : list ascii)
| E_NonCanonicalEncoding (value : list ascii)
| E_OfNotAfterArtifact
| E_OfNotLast
| E_ArtifactWithoutSubject
| E_RepositoryNeedsForge
| E_UnresolvedForge (name : list ascii)
| E_Unrecognised (input : list ascii)
| E_MissingRevision (input : list ascii)
| E_EmptyRevision
| E_UnknownOperator (operator : list ascii)
| E_InvalidVariable (name : list ascii)
| E_NonCanonicalQuoting (spelling : list ascii)
| E_Syntax (input : list ascii) (position : nat) (expected : list ascii).

#[export] Instance error_eq_dec : EqDecision Error.
Proof. solve_decision. Defined.

(** [Kind::from_str]. *)
Definition kind_from_str (token : text) : result Error Kind.t :=
  ok_or (List.find (fun k => bool_decide (Kind.as_str k = token)) Kind.ALL) (E_UnknownKind token).

(** * Percent-encoding ([encoding.rs]) *)

Definition is_unreserved (b : ascii) : bool :=
  is_alnum b || in_bytes 45 46 b || in_bytes 95 95 b || in_bytes 126 126 b.

(** One digit of [{:02X}]. *)
Definition hex_upper (n : Z) : ascii := byte_of (if n <? 10 then 48 + n else 55 + n).
Definition escape (b : ascii) : text := [percent; hex_upper (byte_val b / 16); hex_upper (byte_val b mod 16)].

(** [encode_into] appends this to its output; [encode] starts from nothing. *)
Definition encode (value : text) : text :=
  flat_map (fun b => if is_unreserved b then [b] else escape b) value.
Definition encode_into (value out : text) : text := out ++ encode value.

Definition hex_digit (uppercase_only : bool) (b : ascii) : option Z :=
  if in_bytes 48 57 b then Some (byte_val b - 48)
  else if in_bytes 65 70 b then Some (byte_val b - 65 + 10)
  else if in_bytes 97 102 b && negb uppercase_only then Some (byte_val b - 97 + 10)
  else None.
Definition hex_pair (d0 d1 : ascii) (uppercase_only : bool) : option ascii :=
  match hex_digit uppercase_only d0, hex_digit uppercase_only d1 with
  | Some a, Some b => Some (byte_of (Z.lor (Z.shiftl a 4) b))
  | _, _ => None
  end.

(** The loop of [decode]: [encoded] is the whole text, for the errors. *)
Fixpoint decode_loop (encoded : text) (canonical : bool) (bytes : text) : result Error text :=
  match bytes with
  | [] => Ok []
  | byte :: rest =>
      if decide (byte = percent) then
        match rest with
        | d0 :: d1 :: rest =>
            match hex_pair d0 d1 canonical with
            | Some value =>
                if canonical && is_unreserved value then Err (E_NonCanonicalEncoding encoded)
                else out ← decode_loop encoded canonical rest; Ok (value :: out)
            | None => if hex_pair d0 d1 false is Some _ then Err (E_NonCanonicalEncoding encoded) else Err (E_InvalidEscape encoded)
            end
        | _ => Err (E_InvalidEscape encoded)
        end
      else if canonical && negb (is_unreserved byte) then Err (E_NonCanonicalEncoding encoded)
      else out ← decode_loop encoded canonical rest; Ok (byte :: out)
  end.
Definition decode (encoded : text) (canonical : bool) : result Error text :=
  out ← decode_loop encoded canonical encoded;
  if utf8 out then Ok out else Err (E_InvalidEscape encoded).
Definition decode_canonical (encoded : text) : result Error text := decode encoded true.
Definition decode_lenient (encoded : text) : result Error text := decode encoded false.

(** * Kinds *)

(** Parsing a token gives a kind exactly when the token is the kind's. *)
Lemma kind_from_str_Ok token k : kind_from_str token = Ok k <-> token = Kind.as_str k.
Proof.
  unfold kind_from_str. rewrite ok_or_Ok. split.
  - intros H%find_some. destruct H as [_ H]. by apply bool_decide_eq_true in H.
  - intros ->. destruct k; vm_compute; reflexivity.
Qed.
Lemma kind_as_str_inj k1 k2 : Kind.as_str k1 = Kind.as_str k2 -> k1 = k2.
Proof. intros H. apply kind_from_str_Ok in H. assert (kind_from_str (Kind.as_str k1) = Ok k1) by by apply kind_from_str_Ok. congruence. Qed.
Lemma kind_str_lower k : forallb is_lower (Kind.as_str k) = true.
Proof. by destruct k. Qed.
Lemma kind_follows_one k1 k2 : Kind.may_follow Kind.Repo (Some k1) = true -> Kind.may_follow Kind.Repo (Some k2) = true -> k1 = k2.
Proof. by destruct k1, k2. Qed.

(** * Encoding *)

Lemma hex_upper_digit : forall b, hex_pair (hex_upper (byte_val b / 16)) (hex_upper (byte_val b mod 16)) true = Some b.
Proof. by_bytes. Qed.
Lemma hex_pair_inv d0 d1 v : hex_pair d0 d1 true = Some v -> d0 = hex_upper (byte_val v / 16) /\ d1 = hex_upper (byte_val v mod 16).
Proof.
  assert (forall d0 d1, match hex_pair d0 d1 true with
    | Some v => bool_decide (d0 = hex_upper (byte_val v / 16)) && bool_decide (d1 = hex_upper (byte_val v mod 16))
    | None => true end = true) as H.
  { intros a b. revert b. apply byte_forall. revert a. apply byte_forall. vm_compute. reflexivity. }
  intros Hv. specialize (H d0 d1). rewrite Hv in H. apply andb_true_iff in H as [?%bool_decide_eq_true ?%bool_decide_eq_true]. done.
Qed.
Lemma unreserved_not_percent b : is_unreserved b = true -> b <> percent.
Proof. by intros H ->. Qed.

Lemma decode_loop_encode enc v : decode_loop enc true (encode v) = Ok v.
Proof.
  induction v as [|b v IH]; [done|]. cbn [encode flat_map]. fold (encode v). destruct (is_unreserved b) eqn:Hb.
  - cbn [app decode_loop]. rewrite decide_False by by apply unreserved_not_percent. by rewrite Hb, IH.
  - cbn [escape app decode_loop]. by rewrite decide_True, hex_upper_digit, Hb, IH by done.
Qed.
Lemma decode_loop_inv enc e v : decode_loop enc true e = Ok v -> e = encode v.
Proof.
  revert v. remember (length e) as n eqn:Hn. revert e Hn. induction n as [n IH] using lt_wf_ind. intros e Hn v.
  destruct e as [|b e]; cbn [decode_loop]; [by intros [= <-]|]. case_decide as Hp.
  - destruct e as [|d0 [|d1 e]]; try done. destruct (hex_pair d0 d1 true) as [x|] eqn:Hx; [|by destruct (hex_pair d0 d1 false)].
    destruct (is_unreserved x) eqn:Hu; [done|]. cbn. destruct (decode_loop enc true e) as [out|] eqn:Hd; [|done].
    cbn. intros [= <-]. cbn. rewrite Hu. apply hex_pair_inv in Hx as [-> ->]. subst b. cbn. do 3 f_equal.
    eapply IH; [|reflexivity|exact Hd]. cbn in Hn. lia.
  - destruct (is_unreserved b) eqn:Hu; [|done]. cbn. destruct (decode_loop enc true e) as [out|] eqn:Hd; [|done].
    cbn. intros [= <-]. cbn. rewrite Hu. cbn. f_equal. eapply IH; [|reflexivity|exact Hd]. cbn in Hn. lia.
Qed.

(** Canonical decoding gives a value exactly when the value is valid UTF-8 and
    the text is its encoding, so one value has one spelling. *)
Lemma decode_canonical_Ok e v : decode_canonical e = Ok v <-> utf8 v = true /\ e = encode v.
Proof.
  unfold decode_canonical, decode. split.
  - destruct (decode_loop e true e) as [out|] eqn:H; [|done]. cbn. apply decode_loop_inv in H. destruct (utf8 out) eqn:Hu; [|done].
    by intros [= <-].
  - intros [Hu ->]. rewrite decode_loop_encode. cbn. by rewrite Hu.
Qed.

Lemma encode_app x y : encode (x ++ y) = encode x ++ encode y.
Proof. apply flat_map_app. Qed.
(** An encoded value holds unreserved bytes and [%] only. *)
Definition encoded_byte (c : ascii) : bool := is_unreserved c || bool_decide (c = percent).
Lemma escape_bytes : forall b, forallb encoded_byte (escape b) = true.
Proof. apply byte_forall. vm_compute. reflexivity. Qed.
Lemma encode_bytes v : forallb encoded_byte (encode v) = true.
Proof.
  induction v as [|b v IH]; [done|]. cbn [encode flat_map]. fold (encode v). rewrite forallb_app, IH, andb_true_r.
  destruct (is_unreserved b) eqn:Hb; [|apply escape_bytes]. cbn. unfold encoded_byte. by rewrite Hb.
Qed.
Lemma encode_free c v : encoded_byte c = false -> has c (encode v) = false.
Proof. apply has_class, encode_bytes. Qed.
Lemma encode_inj v w : encode v = encode w -> v = w.
Proof.
  intros H. pose proof (decode_loop_encode [] v) as H1. rewrite H, decode_loop_encode in H1. congruence.
Qed.
Lemma encode_nil v : encode v = [] <-> v = [].
Proof. split; [|by intros ->]. intros H. by apply (encode_inj v []). Qed.

(** What canonical decoding accepts, lenient decoding reads the same way. *)
Lemma hex_digit_relax b n : hex_digit true b = Some n -> hex_digit false b = Some n.
Proof. unfold hex_digit. rewrite andb_false_r. repeat case_match; done. Qed.
Lemma hex_pair_relax d0 d1 v : hex_pair d0 d1 true = Some v -> hex_pair d0 d1 false = Some v.
Proof.
  unfold hex_pair. destruct (hex_digit true d0) eqn:H0; [|done]. destruct (hex_digit true d1) eqn:H1; [|done].
  by rewrite (hex_digit_relax _ _ H0), (hex_digit_relax _ _ H1).
Qed.
Lemma decode_loop_relax enc e v : decode_loop enc true e = Ok v -> decode_loop enc false e = Ok v.
Proof.
  revert v. remember (length e) as n eqn:Hn. revert e Hn. induction n as [n IH] using lt_wf_ind. intros e Hn v.
  destruct e as [|b e]; cbn [decode_loop]; [done|]. case_decide as Hp.
  - destruct e as [|d0 [|d1 e]]; try done. destruct (hex_pair d0 d1 true) as [x|] eqn:Hx; [|by destruct (hex_pair d0 d1 false)].
    rewrite (hex_pair_relax _ _ _ Hx). destruct (is_unreserved x); [done|]. cbn.
    destruct (decode_loop enc true e) as [out|] eqn:Hd; [|done]. erewrite IH; [done| |reflexivity|exact Hd]. cbn in Hn. lia.
  - destruct (is_unreserved b); [|done]. cbn. destruct (decode_loop enc true e) as [out|] eqn:Hd; [|done].
    erewrite IH; [done| |reflexivity|exact Hd]. cbn in Hn. lia.
Qed.
Lemma decode_lenient_canonical e v : decode_canonical e = Ok v -> decode_lenient e = Ok v.
Proof.
  unfold decode_canonical, decode_lenient, decode. destruct (decode_loop e true e) as [out|] eqn:H; [|done].
  by rewrite (decode_loop_relax _ _ _ H).
Qed.
Lemma decode_utf8 e canonical v : decode e canonical = Ok v -> utf8 v = true.
Proof. unfold decode. destruct (decode_loop e canonical e) as [out|]; cbn; [|done]. destruct (utf8 out) eqn:H; [|done]. by intros [= <-]. Qed.
