(* ===== verification/Address.v ===== *)
(** Addresses ([crates/flotilla-address]: [forge.rs], [address.rs],
    [reference.rs]): forges and their case rule, the constructors, the strict
    parser, and the segment order that stored prefix queries use. The text of an
    address is proved to be its identity: parsing accepts exactly the printed
    form of well-formed addresses, printing is injective, and prefix, parent and
    descendant ranges on text agree with the segments. *)

From Stdlib Require Import Ascii.
From S2P Require Import Prelude Text Encoding.
#[local] Open Scope Z_scope.

(** * Forges ([forge.rs]) *)

Definition GITHUB_FORGE_ID : text := tx "github".
Definition GITHUB_HOSTS : list text := [tx "github.com"; tx "www.github.com"; tx "ssh.github.com"].

Inductive ForgeKind := Github | Forgejo.
#[export] Instance forge_kind_eq_dec : EqDecision ForgeKind.
Proof. solve_decision. Defined.

Record Forge := mkForge { forge_id : text; forge_kind : ForgeKind }.

Definition validate_forge_id (id : text) : result Error () :=
  let valid :=
    negb (bool_decide (id = [])) && (length id <=? 63)%nat
    && match id with c :: _ => is_alnum c | [] => false end
    && match last id with Some c => is_alnum c | None => false end
    && forallb (fun b => is_lower b || is_digit b || bool_decide (b = dash)) id in
  if valid then Ok () else Err (E_InvalidValue Kind.Forge id (tx "a forge id is a lowercase DNS label")).

(** [Forge::new] and [Forge::github]. *)
Definition forge_new (id : text) (kind : ForgeKind) : result Error Forge :=
  _ ← validate_forge_id id;
  if bool_decide (id = GITHUB_FORGE_ID) && negb (bool_decide (kind = Github))
  then Err (E_InvalidValue Kind.Forge id (tx "the `github` forge id is public GitHub"))
  else Ok (mkForge id kind).
Definition forge_github : Forge := mkForge GITHUB_FORGE_ID Github.

(** A forge that exists: its fields are private, so it came from [Forge::new] or
    [Forge::github]. *)
Definition forge_ok (f : Forge) : Prop := forge_new (forge_id f) (forge_kind f) = Ok f.

(** [ForgeLookup], with what it promises about the forges it returns: they exist,
    and a lookup by id gives the forge with that id. *)
Class ForgeLookup := {
  lookup_by_id : text -> option Forge;
  lookup_by_host : text -> option Forge;
  lookup_by_id_ok id f : lookup_by_id id = Some f -> forge_ok f;
  lookup_by_id_is id f : lookup_by_id id = Some f -> forge_id f = id;
  lookup_by_host_ok host f : lookup_by_host host = Some f -> forge_ok f;
}.
(** [BuiltinForges]. *)
Definition BuiltinForges : ForgeLookup.
Proof. refine {| lookup_by_id := fun _ => None; lookup_by_host := fun _ => None |}; done. Defined.

Definition forge_by_id `{ForgeLookup} (id : text) : option Forge :=
  if decide (id = GITHUB_FORGE_ID) then Some forge_github else lookup_by_id id.
Definition forge_by_host `{ForgeLookup} (host : text) : option Forge :=
  let host := to_ascii_lowercase host in
  match lookup_by_host host with
  | Some f => Some f
  | None => if bool_decide (host ∈ GITHUB_HOSTS) then Some forge_github else None
  end.

(** * Addresses ([address.rs]) *)

Definition OF : text := tx "of".

Record Segment := mkSegment { seg_kind : Kind.t; seg_value : text }.
#[export] Instance segment_eq_dec : EqDecision Segment.
Proof. solve_decision. Defined.

Record Address := mkAddress { segments : list Segment; of_subject : option text; as_str : text }.

Definition invalid {A} (kind : Kind.t) (value : text) (reason : string) : result Error A :=
  Err (E_InvalidValue kind value (tx reason)).

Section addresses.
Context `{Lowercase}.

(** [ForgeKind::normalise_repository] and [is_normal_repository]. *)
Definition normalise_repository (k : ForgeKind) (repository : text) : text :=
  match k with Github | Forgejo => to_lowercase repository end.
Definition is_normal_repository (k : ForgeKind) (repository : text) : bool :=
  bool_decide (normalise_repository k repository = repository).

Definition normalise_usage (value : text) : text := to_lowercase (trim value).

Definition validate_repository (k : ForgeKind) (repository : text) : result Error () :=
  match k with
  | Github | Forgejo =>
      match split_once slash repository with
      | Some (owner, name) =>
          if negb (bool_decide (owner = [])) && negb (bool_decide (name = [])) && negb (has slash name) then Ok ()
          else invalid Kind.Repo repository "a repository is owner/repo"
      | None => invalid Kind.Repo repository "a repository is owner/repo"
      end
  end.

Definition is_hex_lower (b : ascii) : bool := is_digit b || in_bytes 97 102 b.

Definition validate_value (kind : Kind.t) (value : text) : result Error () :=
  if decide (value = []) then invalid kind value "a segment value is non-empty"
  else match kind with
  | Kind.Forge => validate_forge_id value
  | Kind.Usage =>
      if decide (normalise_usage value = value) then Ok ()
      else invalid kind value "usage providers and accounts are trimmed and lowercase"
  | Kind.ChangeRequest | Kind.Issue =>
      if canonical_digits value && match parse_u64 value with Some _ => true | None => false end then Ok ()
      else invalid kind value "a number is decimal digits with no sign or leading zero"
  | Kind.Commit =>
      if forallb is_hex_lower value && (bool_decide (length value = 40%nat) || bool_decide (length value = 64%nat)) then Ok ()
      else invalid kind value "a commit is a full lowercase SHA"
  | _ => Ok ()
  end.

Definition empty_address : Address := mkAddress [] None [].
Definition last_kind (segs : list Segment) : option Kind.t := seg_kind <$> last segs.
(** [self.segments[0].value == GITHUB_FORGE_ID]; a [repo] always has a forge before it. *)
Definition on_github (segs : list Segment) : bool :=
  match segs with s :: _ => bool_decide (seg_value s = GITHUB_FORGE_ID) | [] => false end.

Definition push (a : Address) (kind : Kind.t) (value : text) : result Error Address :=
  match of_subject a with
  | Some _ => Err E_OfNotLast
  | None =>
      let parent := last_kind (segments a) in
      if negb (Kind.may_follow kind parent) then Err (E_Shape kind parent)
      else if bool_decide (kind = Kind.Account) && bool_decide (parent = Some Kind.Usage) && negb (bool_decide (normalise_usage value = value))
      then invalid kind value "usage accounts are trimmed and lowercase"
      else
        _ ← validate_value kind value;
        _ ← (if bool_decide (kind = Kind.Repo) && on_github (segments a) then
               _ ← validate_repository Github value;
               if negb (is_normal_repository Github value) then invalid kind value "a GitHub repository is lowercase" else Ok ()
             else Ok ());
        let t := if decide (as_str a = []) then as_str a else as_str a ++ [slash] in
        Ok (mkAddress (segments a ++ [mkSegment kind value]) None (encode_into value (t ++ Kind.as_str kind ++ [colon])))
  end.

Definition child (a : Address) (kind : Kind.t) (value : text) : result Error Address :=
  if decide (kind = Kind.Repo) then Err E_RepositoryNeedsForge else push a kind value.
Definition root (kind : Kind.t) (value : text) : result Error Address := child empty_address kind value.

Definition artifact (a : Address) (kind subject : text) : result Error Address :=
  b ← child a Kind.Artifact kind;
  _ ← validate_value Kind.Artifact subject;
  Ok (mkAddress (segments b) (Some subject) (encode_into subject (as_str b ++ [slash] ++ OF ++ [colon]))).

Definition project (name : text) : result Error Address := root Kind.Project name.
Definition fleet (name : text) : result Error Address := root Kind.Fleet name.
Definition convoy (name : text) : result Error Address := root Kind.Convoy name.
(** [Address::forge]; its [expect] is on a forge that exists ([forge_address_ok]). *)
Definition forge (f : Forge) : result Error Address := root Kind.Forge (forge_id f).
Definition repository (f : Forge) (repo : text) : result Error Address :=
  _ ← validate_repository (forge_kind f) repo;
  a ← forge f;
  push a Kind.Repo (normalise_repository (forge_kind f) repo).
Definition change_request (f : Forge) (repo : text) (number : Z) : result Error Address :=
  a ← repository f repo; child a Kind.ChangeRequest (u64_to_string number).
Definition issue (f : Forge) (repo : text) (number : Z) : result Error Address :=
  a ← repository f repo; child a Kind.Issue (u64_to_string number).
Definition usage (provider account : text) : result Error Address :=
  a ← root Kind.Usage (normalise_usage provider); child a Kind.Account (normalise_usage account).
Definition message (inbox : Address) (id : text) : result Error Address := child inbox Kind.Message id.

Definition finish (a : Address) : result Error Address :=
  match last (segments a) with
  | None => Err E_Empty
  | Some s => if bool_decide (seg_kind s = Kind.Artifact) && bool_decide (of_subject a = None) then Err E_ArtifactWithoutSubject else Ok a
  end.

(** One piece of [Address::from_str]'s loop. *)
Definition parse_piece (a : Address) (raw : text) : result Error Address :=
  match of_subject a with
  | Some _ => Err E_OfNotLast
  | None =>
      '(token, encoded) ← ok_or (split_once colon raw) (E_MalformedSegment raw);
      value ← decode_canonical encoded;
      if decide (token = OF) then
        if decide (last_kind (segments a) = Some Kind.Artifact) then
          _ ← validate_value Kind.Artifact value;
          Ok (mkAddress (segments a) (Some value) (as_str a ++ [slash] ++ raw))
        else Err E_OfNotAfterArtifact
      else kind ← kind_from_str token; push a kind value
  end.
Definition from_str (t : text) : result Error Address :=
  a ← try_fold parse_piece empty_address (split slash t); finish a.
End addresses.

(** [kind], [name] and [number] [expect] a segment, or a validated number;
    [None] is their panic, except for [number]'s own [None], the outer one. *)
Definition kind (a : Address) : option Kind.t := last_kind (segments a).
Definition name (a : Address) : option text := seg_value <$> last (segments a).
Definition get (a : Address) (k : Kind.t) : option text :=
  seg_value <$> List.find (fun s => bool_decide (seg_kind s = k)) (segments a).
Definition number (a : Address) : option (option Z) :=
  match kind a with
  | Some (Kind.ChangeRequest | Kind.Issue) => Some (v ← name a; parse_u64 v)
  | _ => None
  end.

Definition parent (a : Address) : option Address :=
  match (length (segments a) - 1)%nat with
  | O => None
  | count =>
      head ← fst <$> rsplit_once slash (as_str a);
      head ← (if decide (of_subject a = None) then Some head else fst <$> rsplit_once slash head);
      Some (mkAddress (take count (segments a)) None head)
  end.
Definition is_under (a prefix : Address) : bool :=
  match strip_prefix (as_str prefix) (as_str a) with
  | Some rest => match rest with [] => true | c :: _ => bool_decide (c = slash) end
  | None => false
  end.
Definition descendant_bounds (a : Address) : text * text := (as_str a ++ [slash], as_str a ++ [zero]).

(** * Well-formed addresses *)

(** The printed pieces of an address, between slashes. *)
Definition seg_text (s : Segment) : text := Kind.as_str (seg_kind s) ++ colon :: encode (seg_value s).
Definition of_text (subject : text) : text := OF ++ colon :: encode subject.
Definition of_pieces (o : option text) : list text := match o with Some s => [of_text s] | None => [] end.
Definition pieces (segs : list Segment) (o : option text) : list text := map seg_text segs ++ of_pieces o.

Section well_formed.
Context `{Lowercase}.

(** What a segment must satisfy after the ones before it. *)
Record segment_ok (before : list Segment) (s : Segment) : Prop := {
  sok_shape : Kind.may_follow (seg_kind s) (last_kind before) = true;
  sok_utf8 : utf8 (seg_value s) = true;
  sok_value : validate_value (seg_kind s) (seg_value s) = Ok ();
  sok_account : seg_kind s = Kind.Account -> last_kind before = Some Kind.Usage -> normalise_usage (seg_value s) = seg_value s;
  sok_repo : seg_kind s = Kind.Repo -> on_github before = true ->
    validate_repository Github (seg_value s) = Ok () /\ to_lowercase (seg_value s) = seg_value s;
}.
Inductive segments_ok : list Segment -> Prop :=
| segments_ok_nil : segments_ok []
| segments_ok_snoc segs s : segments_ok segs -> segment_ok segs s -> segments_ok (segs ++ [s]).

Definition subject_ok (segs : list Segment) (o : option text) : Prop :=
  match o with
  | Some subject => last_kind segs = Some Kind.Artifact /\ subject <> [] /\ utf8 subject = true
  | None => True
  end.

(** An address under construction: its segments and subject are valid, and its
    text is theirs. *)
Record built (a : Address) : Prop := {
  built_segments : segments_ok (segments a);
  built_subject : subject_ok (segments a) (of_subject a);
  built_text : as_str a = join [slash] (pieces (segments a) (of_subject a));
}.
(** A whole address: built, not empty, and with a subject exactly on artifacts. *)
Record complete (a : Address) : Prop := {
  complete_built : built a;
  complete_nonempty : segments a <> [];
  complete_subject : of_subject a = None -> last_kind (segments a) <> Some Kind.Artifact;
}.

Lemma segments_ok_snoc_inv segs s : segments_ok (segs ++ [s]) -> segments_ok segs /\ segment_ok segs s.
Proof.
  inversion 1 as [Heq|segs' s' Hs Hok Heq]; [by destruct segs|]. apply app_inj_tail in Heq as [-> ->]. done.
Qed.
Lemma segments_ok_app_inv segs1 segs2 : segments_ok (segs1 ++ segs2) -> segments_ok segs1.
Proof.
  induction segs2 as [|s segs2 IH] using rev_ind; [by rewrite app_nil_r|]. rewrite app_assoc.
  intros [Hs _]%segments_ok_snoc_inv. auto.
Qed.
Lemma last_kind_snoc segs s : last_kind (segs ++ [s]) = Some (seg_kind s).
Proof. unfold last_kind. by rewrite last_snoc. Qed.
(** Nothing follows an artifact, so no proper prefix ends in one. *)
Lemma segments_ok_artifact_last segs s : segments_ok (segs ++ [s]) -> last_kind segs <> Some Kind.Artifact.
Proof. intros [_ [Hs _ _ _ _]]%segments_ok_snoc_inv Hl. rewrite Hl in Hs. by destruct (seg_kind s). Qed.

(** ** The text of pieces *)

Lemma lower_not_special c : is_lower c = true -> c <> colon /\ c <> slash.
Proof. intros Hc. by split; intros ->. Qed.
Lemma kind_free k c : is_lower c = false -> has c (Kind.as_str k) = false.
Proof. apply has_class, kind_str_lower. Qed.
Lemma piece_free k v c : is_lower c = false -> encoded_byte c = false -> c <> colon -> has c (Kind.as_str k ++ colon :: encode v) = false.
Proof.
  intros Hl He Hc. rewrite has_app, kind_free by done. cbn [orb has existsb]. fold (has c (encode v)).
  rewrite bool_decide_false by congruence. by apply encode_free.
Qed.
Lemma seg_text_free s : has slash (seg_text s) = false.
Proof. by apply piece_free. Qed.
Lemma of_text_free v : has slash (of_text v) = false.
Proof. unfold of_text. rewrite has_app. cbn. by apply encode_free. Qed.
Lemma pieces_free segs o : Forall (fun x => has slash x = false) (pieces segs o).
Proof.
  unfold pieces. apply Forall_app. split.
  - apply Forall_map, Forall_forall. intros s _. apply seg_text_free.
  - destruct o; constructor; [apply of_text_free|constructor].
Qed.
Lemma split_seg_text s : split_once colon (seg_text s) = Some (Kind.as_str (seg_kind s), encode (seg_value s)).
Proof. apply split_once_Some. split; [done|]. by apply kind_free. Qed.
Lemma split_of_text v : split_once colon (of_text v) = Some (OF, encode v).
Proof. by apply split_once_Some. Qed.
Lemma kind_not_of k : Kind.as_str k <> OF.
Proof. by destruct k. Qed.
Lemma seg_text_inj s1 s2 : seg_text s1 = seg_text s2 -> s1 = s2.
Proof.
  intros Heq. pose proof (split_seg_text s1) as H1. rewrite Heq, split_seg_text in H1. injection H1 as Hk Hv.
  apply kind_as_str_inj in Hk. apply encode_inj in Hv. destruct s1, s2; cbn in *; congruence.
Qed.
Lemma seg_text_not_of s v : seg_text s <> of_text v.
Proof.
  intros Heq. pose proof (split_seg_text s) as H1. rewrite Heq, split_of_text in H1. injection H1 as Hk _. by apply (kind_not_of (seg_kind s)).
Qed.
Lemma of_text_inj v w : of_text v = of_text w -> v = w.
Proof. intros Heq. pose proof (split_of_text v) as H1. rewrite Heq, split_of_text in H1. injection H1 as Hv. by apply encode_inj. Qed.

Lemma pieces_inj segs1 o1 segs2 o2 : pieces segs1 o1 = pieces segs2 o2 -> segs1 = segs2 /\ o1 = o2.
Proof.
  revert segs2. induction segs1 as [|s1 segs1 IH]; intros [|s2 segs2] Heq; cbn in Heq.
  - split; [done|]. destruct o1, o2; cbn in Heq; try done. injection Heq as ->%encode_inj. done.
  - destruct o1 as [w|]; cbn [of_pieces] in Heq; [|done]. injection Heq as Heq _. by destruct (seg_text_not_of s2 w).
  - destruct o2 as [w|]; cbn [of_pieces] in Heq; [|done]. injection Heq as Heq _. by destruct (seg_text_not_of s1 w).
  - injection Heq as Hs Heq. apply seg_text_inj in Hs as ->. destruct (IH _ Heq) as [-> ->]. done.
Qed.
Lemma pieces_nil segs o : pieces segs o = [] <-> segs = [] /\ o = None.
Proof. split; [|by intros [-> ->]]. apply (pieces_inj segs o [] None). Qed.
Lemma seg_text_not_nil s : seg_text s <> [].
Proof. unfold seg_text. by destruct (seg_kind s). Qed.
Lemma join_pieces_nil segs o : join [slash] (pieces segs o) = [] <-> segs = [] /\ o = None.
Proof.
  split; [|by intros [-> ->]]. intros Hj. apply pieces_nil. destruct (pieces segs o) as [|x l] eqn:Hp; [done|]. exfalso.
  assert (x <> []) as Hx.
  { destruct segs as [|s segs]; cbn in Hp; [destruct o; [injection Hp as <- _; done|done]|]. injection Hp as <- _. apply seg_text_not_nil. }
  destruct l; cbn in Hj; [done|]. by destruct x.
Qed.
Lemma join_snoc l x : l <> [] -> join [slash] (l ++ [x]) = join [slash] l ++ slash :: x.
Proof.
  induction l as [|y l IH]; [done|]. intros _. destruct (decide (l = [])) as [->|Hl]; [done|].
  change ((y :: l) ++ [x]) with (y :: (l ++ [x])). rewrite !join_cons by (by destruct l || done). rewrite IH by done.
  by rewrite <-app_assoc.
Qed.
(** The pieces of a built address's text. *)
Lemma built_split a : built a -> pieces (segments a) (of_subject a) <> [] -> split slash (as_str a) = pieces (segments a) (of_subject a).
Proof. intros Ha Hne. rewrite (built_text a Ha). apply split_join; [done|apply pieces_free]. Qed.

(** A built address is its segments and subject, and so is its text. *)
Lemma built_ext a b : built a -> built b -> segments a = segments b -> of_subject a = of_subject b -> a = b.
Proof. intros Ha Hb Hs Ho. pose proof (built_text a Ha). pose proof (built_text b Hb). destruct a, b; cbn in *. congruence. Qed.
Lemma built_text_inj a b : built a -> built b -> as_str a = as_str b -> a = b.
Proof.
  intros Ha Hb Heq.
  assert (pieces (segments a) (of_subject a) = pieces (segments b) (of_subject b)) as Hp.
  { destruct (decide (as_str a = [])) as [Hn|Hn].
    - pose proof Hn as Hn'. rewrite Heq, (built_text b Hb) in Hn. rewrite (built_text a Ha) in Hn'.
      apply join_pieces_nil in Hn as [-> ->], Hn' as [-> ->]. done.
    - rewrite <-(built_split a), <-(built_split b); [by rewrite Heq|done| |done|].
      + intros Hp. apply Hn. rewrite Heq, (built_text b Hb), Hp. done.
      + intros Hp. apply Hn. rewrite (built_text a Ha), Hp. done. }
  apply pieces_inj in Hp as [Hs Ho]. by apply built_ext.
Qed.

(** ** Building *)

Lemma push_text a kind value : built a -> of_subject a = None ->
  encode_into value ((if decide (as_str a = []) then as_str a else as_str a ++ [slash]) ++ Kind.as_str kind ++ [colon]) =
  join [slash] (pieces (segments a ++ [mkSegment kind value]) None).
Proof.
  intros Ha Ho. unfold encode_into, pieces. rewrite map_app. cbn [map of_pieces]. rewrite app_nil_r.
  pose proof (built_text a Ha) as Ht. rewrite Ho in Ht. unfold pieces in Ht. cbn [of_pieces] in Ht. rewrite app_nil_r in Ht.
  change (seg_text (mkSegment kind value)) with (Kind.as_str kind ++ colon :: encode value).
  destruct (decide (segments a = [])) as [Hs|Hs].
  - rewrite Ht, Hs. cbn [map join app]. rewrite decide_True by done. cbn [app]. by rewrite <-app_assoc.
  - rewrite decide_False.
    + rewrite join_snoc, <-Ht by (intros Hn%map_eq_nil; done). by rewrite <-!app_assoc.
    + rewrite (built_text a Ha). intros Hn. by apply join_pieces_nil in Hn as [Hn _].
Qed.

(** What [push] accepts, and what it builds. *)
Lemma push_Ok a kind value b : built a -> utf8 value = true ->
  push a kind value = Ok b <->
  of_subject a = None /\ segment_ok (segments a) (mkSegment kind value) /\
  segments b = segments a ++ [mkSegment kind value] /\ of_subject b = None /\ as_str b = join [slash] (pieces (segments b) None).
Proof.
  intros Ha Hu. unfold push. destruct (of_subject a) eqn:Ho; [split; [done|by intros [? _]]|].
  rewrite push_text by done.
  destruct (Kind.may_follow kind _) eqn:Hf; cbn [negb]; [|split; [done|by intros (_ & [? _ _ _ _] & _); cbn in *; congruence]].
  destruct (_ && negb _) eqn:Hacc.
  { split; [done|]. intros (_ & [_ _ _ Hk _] & _). cbn in Hk. rewrite !andb_true_iff, negb_true_iff, bool_decide_eq_false, !bool_decide_eq_true in Hacc.
    naive_solver. }
  destruct (validate_value kind value) as [[]|e] eqn:Hv; cbn [mbind result_bind]; [|split; [done|by intros (_ & [_ _ ? _ _] & _); cbn in *; congruence]].
  assert (kind = Kind.Account -> last_kind (segments a) = Some Kind.Usage -> normalise_usage value = value) as Hacc'.
  { intros -> Hl. rewrite Hl in Hacc. cbn in Hacc. by apply negb_false_iff, bool_decide_eq_true in Hacc. }
  assert ((if bool_decide (kind = Kind.Repo) && on_github (segments a)
    then _ ← validate_repository Github value;
         if negb (is_normal_repository Github value) then invalid kind value "a GitHub repository is lowercase" else Ok ()
    else Ok ()) = Ok () <->
    (kind = Kind.Repo -> on_github (segments a) = true -> validate_repository Github value = Ok () /\ to_lowercase value = value)) as Hrepo.
  { unfold is_normal_repository. cbn [normalise_repository]. destruct (decide (kind = Kind.Repo)) as [->|Hk]; [|by rewrite bool_decide_false].
    rewrite bool_decide_true by done. cbn [andb]. destruct (on_github (segments a)); [|done].
    destruct (validate_repository Github value) as [[]|]; cbn; [|naive_solver].
    destruct (decide (to_lowercase value = value)); [rewrite bool_decide_true by done|rewrite bool_decide_false by done]; cbn; naive_solver. }
  destruct (if _ && on_github _ then _ else _) as [[]|e]; cbn [mbind result_bind].
  - split.
    + intros [= <-]. split_and!; try done. split; try done. cbn. by apply Hrepo.
    + intros (_ & _ & Hs & Ho' & Ht). destruct b; cbn in *. subst. done.
  - split; [done|]. intros (_ & [_ _ _ _ Hr] & _). by apply Hrepo in Hr.
Qed.
Lemma push_built a kind value b : built a -> utf8 value = true -> push a kind value = Ok b ->
  built b /\ of_subject b = None /\ segments b = segments a ++ [mkSegment kind value].
Proof.
  intros Ha Hu Hp. apply push_Ok in Hp as (Ho & Hok & Hs & Ho' & Ht); [|done|done].
  split_and!; try done. split.
  - rewrite Hs. constructor; [apply Ha|done].
  - by rewrite Ho'.
  - by rewrite Ho'.
Qed.
Lemma empty_built : built empty_address.
Proof. split; [constructor|done|done]. Qed.

(** ** Parsing *)

Abbreviation pieces_of a := (pieces (segments a) (of_subject a)).

Lemma decode_encoded v : utf8 v = true -> decode_canonical (encode v) = Ok v.
Proof. intros Hv. by apply decode_canonical_Ok. Qed.
Lemma validate_subject v : validate_value Kind.Artifact v = Ok () <-> v <> [].
Proof. unfold validate_value. case_decide; by split. Qed.

Lemma of_piece_built a v : built a -> of_subject a = None -> last_kind (segments a) = Some Kind.Artifact -> v <> [] -> utf8 v = true ->
  built (mkAddress (segments a) (Some v) (as_str a ++ slash :: of_text v)).
Proof.
  intros Ha Ho Hl Hv Hu. split; [apply Ha|done|]. cbn [segments of_subject as_str]. rewrite (built_text a Ha), Ho.
  unfold pieces. cbn [of_pieces]. rewrite app_nil_r, join_snoc; [done|]. intros Hn%map_eq_nil. by rewrite Hn in Hl.
Qed.

Lemma parse_piece_sound a raw b : built a -> parse_piece a raw = Ok b -> built b /\ pieces_of b = pieces_of a ++ [raw].
Proof.
  intros Ha. unfold parse_piece. destruct (of_subject a) eqn:Ho; [done|].
  destruct (split_once colon raw) as [[token enc]|] eqn:Hraw; [|done]. apply split_once_Some in Hraw as [-> _]. cbn [ok_or mbind result_bind].
  destruct (decode_canonical enc) as [v|] eqn:Hd; [|done]. apply decode_canonical_Ok in Hd as [Hu ->]. cbn [mbind result_bind].
  case_decide as Htok.
  - subst token. case_decide as Hl; [|done]. destruct (validate_value Kind.Artifact v) as [[]|] eqn:Hv; [|done].
    apply validate_subject in Hv. cbn [mbind result_bind]. intros [= <-].
    split; [by apply of_piece_built|]. unfold pieces. cbn. by rewrite app_nil_r.
  - destruct (kind_from_str token) as [k|] eqn:Hk; [|done]. apply kind_from_str_Ok in Hk as ->. cbn [mbind result_bind].
    intros (Hb & Hob & Hs)%push_built; [|done|done]. split; [done|]. rewrite Hob, Hs. unfold pieces. rewrite map_app. cbn. by rewrite !app_nil_r.
Qed.
Lemma parse_piece_complete a raw b : built a -> built b -> pieces_of b = pieces_of a ++ [raw] -> parse_piece a raw = Ok b.
Proof.
  intros Ha Hb Hp. destruct (of_subject b) as [v|] eqn:Hob.
  - unfold pieces at 1 in Hp. cbn [of_pieces] in Hp. apply app_inj_tail in Hp as [Hp <-].
    assert (pieces (segments b) None = pieces_of a) as [Hs Ho]%pieces_inj by (unfold pieces at 1; cbn [of_pieces]; by rewrite app_nil_r).
    unfold parse_piece. rewrite <-Ho, split_of_text. cbn [ok_or mbind result_bind].
    pose proof (built_subject b Hb) as Hsub. rewrite Hob, Hs in Hsub. destruct Hsub as (Hl & Hv & Hu).
    rewrite decode_encoded by done. cbn [mbind result_bind]. rewrite !decide_True by done. rewrite (proj2 (validate_subject v)) by done.
    cbn [mbind result_bind]. f_equal. apply built_ext; [by apply of_piece_built|done|done|done].
  - unfold pieces at 1 in Hp. cbn [of_pieces] in Hp. rewrite app_nil_r in Hp.
    destruct (segments b) as [|s segs _] eqn:Hsb using rev_ind; [by destruct (pieces_of a)|]. rewrite map_app in Hp. cbn [map] in Hp.
    apply app_inj_tail in Hp as [Hp <-].
    assert (pieces segs None = pieces_of a) as [-> Ho]%pieces_inj by (unfold pieces at 1; cbn [of_pieces]; by rewrite app_nil_r).
    pose proof (built_segments b Hb) as Hok. rewrite Hsb in Hok. apply segments_ok_snoc_inv in Hok as [_ Hok].
    unfold parse_piece. rewrite <-Ho, split_seg_text. cbn [ok_or mbind result_bind]. rewrite decode_encoded by apply Hok.
    cbn [mbind result_bind]. rewrite decide_False by apply kind_not_of. rewrite (proj2 (kind_from_str_Ok _ _) eq_refl). cbn [mbind result_bind].
    destruct s as [k v]. apply push_Ok; [done|apply Hok|]. split_and!; try done. rewrite (built_text b Hb), Hob. done.
Qed.

(** Dropping the last piece of a built address leaves a built address. *)
Lemma built_drop_piece b l raw : built b -> pieces_of b = l ++ [raw] -> exists a, built a /\ pieces_of a = l.
Proof.
  intros Hb Hp. assert (exists segs, pieces segs None = l /\ segments_ok segs) as (segs & Hl & Hok).
  { destruct (of_subject b) as [v|] eqn:Hob; unfold pieces in *; cbn [of_pieces] in *.
    - apply app_inj_tail in Hp as [Hp _]. exists (segments b). rewrite app_nil_r. split; [done|apply Hb].
    - rewrite app_nil_r in Hp. pose proof (built_segments b Hb) as Hok.
      destruct (segments b) as [|s segs _] using rev_ind; [by destruct l|]. rewrite map_app in Hp. apply app_inj_tail in Hp as [Hp _].
      exists segs. rewrite app_nil_r. split; [done|]. by apply segments_ok_snoc_inv in Hok as [Hok _]. }
  exists (mkAddress segs None (join [slash] l)). split; [|done]. split; cbn [segments of_subject as_str]; [done|done|]. by rewrite Hl.
Qed.

(** The parser's loop reads exactly the built addresses, piece by piece. *)
Lemma parse_pieces l b : try_fold parse_piece empty_address l = Ok b <-> built b /\ pieces_of b = l.
Proof.
  revert b. induction l as [|raw l IH] using rev_ind; intros b.
  - split; [intros [= <-]; split; [apply empty_built|done]|]. intros [Hb Hp]. apply pieces_nil in Hp as [Hs Ho].
    cbn. f_equal. symmetry. by apply built_ext; [done|apply empty_built| |].
  - rewrite try_fold_app. split.
    + destruct (try_fold parse_piece empty_address l) as [a|]; [|done]. destruct (proj1 (IH a) eq_refl) as [Ha <-]. cbn.
      destruct (parse_piece a raw) as [b'|] eqn:Hr; [|done]. intros [= <-]. by apply parse_piece_sound.
    + intros [Hb Hp]. destruct (built_drop_piece b l raw Hb Hp) as (a & Ha & Hpa).
      rewrite (proj2 (IH a)) by done. cbn. rewrite (parse_piece_complete a raw b); [done|done|done|]. by rewrite Hpa.
Qed.
Lemma finish_Ok a b : built a -> finish a = Ok b <-> b = a /\ complete a.
Proof.
  intros Ha. unfold finish. destruct (segments a) as [|s segs _] eqn:Hs using rev_ind; cbn [last].
  { split; [done|]. intros [_ [_ Hne _]]. by rewrite Hs in Hne. }
  rewrite last_snoc. destruct (_ && _) eqn:Hc.
  - rewrite andb_true_iff, !bool_decide_eq_true in Hc. destruct Hc as [Hk Ho]. split; [done|]. intros [_ [_ _ Hn]].
    apply Hn in Ho. by rewrite Hs, last_kind_snoc, Hk in Ho.
  - split; [|by intros [-> _]]. intros [= <-]. split; [done|]. split; [done|by rewrite Hs; destruct segs|].
    intros Ho. rewrite Hs, last_kind_snoc. intros [= Hk]. by rewrite Hk, Ho, !bool_decide_true in Hc.
Qed.

(** Parsing accepts exactly the text of whole addresses. *)
Lemma from_str_Ok t a : from_str t = Ok a <-> complete a /\ as_str a = t.
Proof.
  unfold from_str. split.
  - destruct (try_fold parse_piece empty_address (split slash t)) as [b|] eqn:Hb; [|done]. cbn. apply parse_pieces in Hb as [Hb Hp].
    intros [-> Hc]%finish_Ok; [|done]. split; [done|]. rewrite (built_text b Hb), Hp. apply join_split.
  - intros [Hc <-]. rewrite (proj2 (parse_pieces _ a)).
    + cbn. by apply finish_Ok; [apply Hc|].
    + split; [apply Hc|]. symmetry. apply built_split; [apply Hc|]. intros [Hn _]%pieces_nil. by destruct Hc.
Qed.

(** ** Prefixes and parents *)

Lemma pieces_app_inv segs1 o1 l segs2 o2 : pieces segs2 o2 = pieces segs1 o1 ++ l ->
  (o1 = None /\ exists rest, segs2 = segs1 ++ rest /\ l = pieces rest o2) \/ (segs2 = segs1 /\ o2 = o1 /\ l = []).
Proof.
  revert segs2. induction segs1 as [|s1 segs1 IH]; intros segs2 Heq.
  - destruct o1 as [v|]; cbn in Heq; [|left; eauto]. right. destruct segs2 as [|s2 segs2].
    + destruct o2 as [w|]; cbn in Heq; [|done]. injection Heq as ->%encode_inj <-. done.
    + unfold pieces in Heq. cbn [map app] in Heq. injection Heq as Heq _. by destruct (seg_text_not_of s2 v).
  - destruct segs2 as [|s2 segs2].
    + destruct o2 as [w|]; [|done]. unfold pieces in Heq. cbn [map app of_pieces] in Heq. injection Heq as Heq _.
      symmetry in Heq. by destruct (seg_text_not_of s1 w).
    + unfold pieces in Heq. cbn [map app] in Heq. injection Heq as ->%seg_text_inj Heq.
      destruct (IH segs2 Heq) as [(-> & rest & -> & ->)|(-> & -> & ->)]; [left; eauto|by right].
Qed.

Lemma is_under_iff a p : complete a -> complete p ->
  is_under a p = true <-> segments p `prefix_of` segments a /\ (of_subject p = None \/ a = p).
Proof.
  intros Ha Hp. assert (is_under a p = true <-> a = p \/ exists r, as_str a = as_str p ++ slash :: r) as ->.
  { unfold is_under. destruct (strip_prefix (as_str p) (as_str a)) as [r|] eqn:Hs.
    - apply strip_prefix_Some in Hs. destruct r as [|c r].
      + rewrite app_nil_r in Hs. apply built_text_inj in Hs; [|apply Ha|apply Hp]. subst. split; auto.
      + rewrite bool_decide_eq_true. split; [intros ->; eauto|]. intros [->|(r' & Hr)].
        * apply (f_equal length) in Hs. rewrite length_app in Hs. cbn in Hs. lia.
        * rewrite Hs in Hr. apply app_inv_head in Hr. by injection Hr.
    - split; [done|]. intros [->|(r & Hr)].
      + rewrite (proj2 (strip_prefix_Some (as_str p) (as_str p) [])) in Hs; [done|]. by rewrite app_nil_r.
      + by apply strip_prefix_Some in Hr; rewrite Hr in Hs. }
  assert (pieces_of a <> [] /\ pieces_of p <> []) as [Hna Hnp].
  { split; intros [Hn _]%pieces_nil; [by destruct Ha|by destruct Hp]. }
  split.
  - intros [->|(r & Hr)]; [split; [done|by right]|]. apply (f_equal (split slash)) in Hr. rewrite split_app in Hr.
    rewrite !built_split in Hr by (apply Ha || apply Hp || done).
    destruct (pieces_app_inv _ _ _ _ _ Hr) as [(Ho & rest & Hs & _)|(Hs & Ho & Hl)].
    + rewrite Hs. split; [by eexists|by left].
    + split; [by rewrite Hs|]. right. apply built_ext; [apply Ha|apply Hp|done|done].
  - intros [[rest Hs] [Ho| ->]]; [|by left]. destruct (decide (rest = [] /\ of_subject a = None)) as [[-> Hoa]|Hne].
    + left. rewrite app_nil_r in Hs. apply built_ext; [apply Ha|apply Hp|done|congruence].
    + right. exists (join [slash] (pieces rest (of_subject a))).
      rewrite (built_text a), (built_text p) by (apply Ha || apply Hp).
      rewrite Hs, Ho. unfold pieces at 1 2. rewrite map_app, <-app_assoc. cbn [of_pieces]. rewrite app_nil_r.
      fold (pieces rest (of_subject a)). assert (map seg_text (segments p) <> []) as Hm.
      { intros Hn%map_eq_nil. by destruct Hp. }
      assert (pieces rest (of_subject a) <> []) as Hr by (rewrite pieces_nil; done).
      by apply join_app.
Qed.

Lemma descendant_bounds_iff a p : complete a -> complete p ->
  text_lt (as_str a) (fst (descendant_bounds p)) = false /\ text_lt (as_str a) (snd (descendant_bounds p)) = true <->
  is_under a p = true /\ a <> p.
Proof.
  intros Ha Hp. cbn [descendant_bounds fst snd]. rewrite text_lt_between. unfold is_under. split.
  - intros (r & Hr). rewrite (proj2 (strip_prefix_Some _ _ _) Hr), bool_decide_true by done. split; [done|]. intros ->.
    apply (f_equal length) in Hr. rewrite length_app in Hr. cbn in Hr. lia.
  - intros [Hu Hne]. destruct (strip_prefix (as_str p) (as_str a)) as [[|c r]|] eqn:Hs; [| |done].
    + apply strip_prefix_Some in Hs. rewrite app_nil_r in Hs. apply built_text_inj in Hs; [done|apply Ha|apply Hp].
    + apply bool_decide_eq_true in Hu as ->. apply strip_prefix_Some in Hs. eauto.
Qed.

Lemma parent_iff a p : built a -> segments a <> [] ->
  parent a = Some p <-> complete p /\ of_subject p = None /\ exists s, segments a = segments p ++ [s].
Proof.
  intros Ha Hne. unfold parent.
  destruct (segments a) as [|s segs _] eqn:Hsegs using rev_ind; [done|].
  rewrite length_app. cbn [length]. replace (length segs + 1 - 1)%nat with (length segs) by lia.
  destruct (decide (segs = [])) as [->|Hsegs'].
  { cbn. split; [done|]. intros ([_ Hn _] & _ & s' & Heq). by destruct (segments p) as [|x [|]]. }
  pose proof (built_segments a Ha) as Hok. rewrite Hsegs in Hok.
  pose proof (segments_ok_artifact_last _ _ Hok) as Hlast. apply segments_ok_snoc_inv in Hok as [Hok _].
  set (q := mkAddress segs None (join [slash] (pieces segs None))).
  assert (complete q) as Hq by (split; [by split|done|done]).
  assert (map seg_text segs <> []) as Hm by by intros Hn%map_eq_nil.
  pose proof (built_text a Ha) as Ht. rewrite Hsegs in Ht. unfold pieces in Ht. rewrite map_app in Ht. cbn [map] in Ht.
  assert (match length segs with O => None | count =>
      head ← fst <$> rsplit_once slash (as_str a);
      head ← (if decide (of_subject a = None) then Some head else fst <$> rsplit_once slash head);
      Some (mkAddress (take count (segs ++ [s])) None head) end = Some q) as ->.
  { destruct (length segs) as [|n] eqn:Hlen; [by destruct segs|]. rewrite <-Hlen, take_app_length. rewrite Ht.
    destruct (of_subject a) as [v|]; cbn [of_pieces].
    - rewrite join_snoc by by destruct segs. rewrite (proj2 (rsplit_once_Some _ _ _ _) (conj eq_refl (of_text_free v))). cbn.
      rewrite join_snoc by done. rewrite (proj2 (rsplit_once_Some _ _ _ _) (conj eq_refl (seg_text_free s))). cbn.
      unfold q, pieces. cbn [of_pieces]. by rewrite app_nil_r.
    - rewrite app_nil_r, join_snoc by done. rewrite (proj2 (rsplit_once_Some _ _ _ _) (conj eq_refl (seg_text_free s))). cbn.
      unfold q, pieces. cbn [of_pieces]. by rewrite app_nil_r. }
  split; [intros [= <-]; split_and!; [done|done|by exists s]|]. intros (Hp & Ho & s' & Heq). apply app_inj_tail in Heq as [Heq _].
  f_equal. apply built_ext; [apply Hq|apply Hp|done|done].
Qed.

(** ** Constructors *)

Lemma child_built a k v b : built a -> utf8 v = true -> child a k v = Ok b ->
  built b /\ of_subject b = None /\ segments b = segments a ++ [mkSegment k v].
Proof. unfold child. case_decide; [done|]. apply push_built. Qed.
Lemma root_built k v b : utf8 v = true -> root k v = Ok b -> built b /\ of_subject b = None /\ segments b = [mkSegment k v].
Proof. apply (child_built empty_address k v b empty_built). Qed.
Lemma built_complete a : built a -> of_subject a = None -> forall segs k v, segments a = segs ++ [mkSegment k v] -> k <> Kind.Artifact -> complete a.
Proof.
  intros Ha Ho segs k v Hs Hk. split; [done|by rewrite Hs; destruct segs|]. intros _. rewrite Hs, last_kind_snoc. cbn. congruence.
Qed.
Lemma child_kind_ok a k v b : built a -> utf8 v = true -> child a k v = Ok b -> k <> Kind.Artifact -> complete b.
Proof. intros Ha Hu Hc Hk. destruct (child_built _ _ _ _ Ha Hu Hc) as (Hb & Ho & Hs). by eapply built_complete. Qed.
Lemma artifact_complete a k v b : built a -> utf8 k = true -> utf8 v = true -> artifact a k v = Ok b ->
  complete b /\ of_subject b = Some v /\ segments b = segments a ++ [mkSegment Kind.Artifact k].
Proof.
  intros Ha Hk Hv. unfold artifact. destruct (child a Kind.Artifact k) as [c|] eqn:Hc; [|done].
  destruct (child_built _ _ _ _ Ha Hk Hc) as (Hb & Ho & Hs). cbn [mbind result_bind].
  destruct (validate_value Kind.Artifact v) as [[]|] eqn:Hval; [|done]. apply validate_subject in Hval. cbn [mbind result_bind].
  intros [= <-]. split_and!; [|done|done]. split; [|cbn; rewrite Hs; by destruct (segments a)|done].
  unfold encode_into. rewrite <-!app_assoc. apply of_piece_built; try done. by rewrite Hs, last_kind_snoc.
Qed.

Lemma forge_id_ascii id : validate_forge_id id = Ok () -> forallb is_ascii id = true.
Proof.
  unfold validate_forge_id. destruct (_ && forallb _ id) eqn:Hv; [|done]. intros _.
  apply andb_true_iff in Hv as [_ Hv]. rewrite forallb_elem in *. intros c Hc. apply Hv in Hc. revert c Hc. clear.
  assert (forall c, implb (is_lower c || is_digit c || bool_decide (c = dash)) (is_ascii c) = true) as Hall.
  { apply byte_forall. vm_compute. reflexivity. }
  intros c Hc. specialize (Hall c). by rewrite Hc in Hall.
Qed.
Lemma forge_ok_id f : forge_ok f -> validate_forge_id (forge_id f) = Ok () /\ (forge_id f = GITHUB_FORGE_ID -> forge_kind f = Github).
Proof.
  unfold forge_ok, forge_new. destruct (validate_forge_id (forge_id f)) as [[]|]; cbn; [|done].
  destruct (_ && _) eqn:Hg; [done|]. intros _. split; [done|]. intros Heq. rewrite bool_decide_true in Hg by done. cbn in Hg.
  by apply negb_false_iff, bool_decide_eq_true in Hg.
Qed.
Lemma forge_github_ok : forge_ok forge_github.
Proof. vm_compute. reflexivity. Qed.
(** A forge that exists has an address: the [expect] never fails. *)
Lemma forge_address_ok f : forge_ok f -> exists a, forge f = Ok a /\ complete a /\ of_subject a = None /\ segments a = [mkSegment Kind.Forge (forge_id f)].
Proof.
  intros [Hid _]%forge_ok_id. assert (exists a, forge f = Ok a) as [a Ha].
  { unfold forge, root, child. rewrite decide_False by done. unfold push, validate_value. cbn [empty_address of_subject segments last_kind last fmap option_fmap option_map].
    destruct (decide (forge_id f = [])) as [Hn|Hn]; [by rewrite Hn in Hid|]. cbn. rewrite Hid. cbn. eauto. }
  destruct (root_built Kind.Forge (forge_id f) a) as (Hb & Ho & Hs); [by apply utf8_ascii, forge_id_ascii|done|].
  exists a. split_and!; try done. by apply (built_complete a Hb Ho [] Kind.Forge (forge_id f)).
Qed.
Lemma normalise_repository_utf8 k r : utf8 r = true -> utf8 (normalise_repository k r) = true.
Proof. destruct k; apply to_lowercase_utf8. Qed.
Lemma repository_complete f r a : forge_ok f -> utf8 r = true -> repository f r = Ok a ->
  complete a /\ of_subject a = None /\
  segments a = [mkSegment Kind.Forge (forge_id f); mkSegment Kind.Repo (normalise_repository (forge_kind f) r)].
Proof.
  intros Hf Hr. unfold repository. destruct (validate_repository (forge_kind f) r) as [[]|]; [|done]. cbn [mbind result_bind].
  destruct (forge_address_ok f Hf) as (b & -> & Hb & _ & Hs). cbn [mbind result_bind].
  intros (Ha & Ho & Hsa)%push_built; [|apply Hb|by apply normalise_repository_utf8]. rewrite Hs in Hsa. split_and!; try done.
  by eapply (built_complete a Ha Ho [_]).
Qed.
Lemma normalise_usage_utf8 v : utf8 v = true -> utf8 (normalise_usage v) = true.
Proof. intros. by apply to_lowercase_utf8, trim_utf8. Qed.
Lemma usage_complete p v a : utf8 p = true -> utf8 v = true -> usage p v = Ok a ->
  complete a /\ segments a = [mkSegment Kind.Usage (normalise_usage p); mkSegment Kind.Account (normalise_usage v)].
Proof.
  intros Hp Hv. unfold usage. destruct (root Kind.Usage (normalise_usage p)) as [b|] eqn:Hb; [|done]. cbn [mbind result_bind].
  apply root_built in Hb as (Hb & Hob & Hsb); [|by apply normalise_usage_utf8]. intros Hc. pose proof Hc as Hc'.
  apply child_built in Hc as (Ha & Hoa & Hsa); [|done|by apply normalise_usage_utf8]. rewrite Hsb in Hsa. split; [|done].
  eapply child_kind_ok; [exact Hb|by apply normalise_usage_utf8|exact Hc'|done].
Qed.

(** The addresses the crate's public functions give. *)
Inductive constructed : Address -> Prop :=
| constructed_root k v a : utf8 v = true -> root k v = Ok a -> constructed a
| constructed_forge f a : forge_ok f -> forge f = Ok a -> constructed a
| constructed_repository f r a : forge_ok f -> utf8 r = true -> repository f r = Ok a -> constructed a
| constructed_usage p v a : utf8 p = true -> utf8 v = true -> usage p v = Ok a -> constructed a
| constructed_child a k v b : constructed a -> utf8 v = true -> child a k v = Ok b -> constructed b
| constructed_artifact a k v b : constructed a -> utf8 k = true -> utf8 v = true -> artifact a k v = Ok b -> constructed b
| constructed_parent a p : constructed a -> parent a = Some p -> constructed p
| constructed_parse t a : from_str t = Ok a -> constructed a.

Lemma constructed_built a : constructed a -> built a /\ segments a <> [].
Proof.
  induction 1 as [k v a Hu Ha|f a Hf Ha|f r a Hf Hr Ha|p v a Hp Hv Ha|a k v b _ [IH _] Hu Hb|a k v b _ [IH _] Hk Hv Hb|a p _ [IH1 IH2] Hp|t a Ha].
  - apply root_built in Ha as (Ha & _ & ->); done.
  - destruct (forge_address_ok f Hf) as (b & Hb & [Hc Hn _] & _). split; congruence.
  - apply repository_complete in Ha as ([Hb Hn _] & _); done.
  - apply usage_complete in Ha as ([Hb Hn _] & _); done.
  - apply child_built in Hb as (Hb & _ & ->); [|done|done]. split; [done|]. by destruct (segments a).
  - apply artifact_complete in Hb as ([Hb Hn _] & _); done.
  - apply parent_iff in Hp as ([Hb Hn _] & _); done.
  - apply from_str_Ok in Ha as [[Hb Hn _] _]. done.
Qed.

(** The bytes of an address's text: no space, [@] or other byte a larger syntax
    could be confused by. *)
Definition address_byte (c : ascii) : bool := is_lower c || encoded_byte c || bool_decide (c = colon) || bool_decide (c = slash).
Lemma class_widen (f g : ascii -> bool) t : forallb f t = true -> (forall c, f c = true -> g c = true) -> forallb g t = true.
Proof. rewrite !forallb_elem. auto. Qed.
Lemma address_bytes a : built a -> forallb address_byte (as_str a) = true.
Proof.
  intros Ha. rewrite (built_text a Ha).
  assert (forall k v, forallb is_lower k = true -> forallb address_byte (k ++ colon :: encode v) = true) as Hpiece.
  { intros k v Hk. rewrite forallb_app, andb_true_iff. split.
    - apply (class_widen is_lower); [done|]. intros c Hc. unfold address_byte. by rewrite Hc.
    - apply andb_true_iff. split; [done|]. apply (class_widen encoded_byte); [apply encode_bytes|]. intros c Hc. unfold address_byte.
      rewrite Hc. by rewrite orb_true_r. }
  assert (Forall (fun x => forallb address_byte x = true) (pieces_of a)) as Hall.
  { unfold pieces. apply Forall_app. split.
    - apply Forall_map, Forall_forall. intros s _. apply Hpiece, kind_str_lower.
    - destruct (of_subject a) as [v|]; constructor; [by apply Hpiece|constructor]. }
  induction Hall as [|x l Hx _ IH]; [done|]. destruct (decide (l = [])) as [->|Hl]; [done|].
  rewrite join_cons, forallb_app, Hx by done. exact IH.
Qed.
Lemma address_free a c : built a -> address_byte c = false -> has c (as_str a) = false.
Proof. intros Ha. apply has_class, address_bytes, Ha. Qed.
End well_formed.

(** * References ([reference.rs]) *)

(** [Revision::new]. A revision is its text. *)
Definition revision_new (revision : text) : result Error text :=
  if decide (revision = []) then Err E_EmptyRevision else Ok revision.
Record Reference := mkReference { ref_address : Address; ref_revision : text }.
Definition reference_to_string (r : Reference) : text := as_str (ref_address r) ++ at_sign :: encode (ref_revision r).
Definition reference_from_str `{Lowercase} (t : text) : result Error Reference :=
  '(address, revision) ← ok_or (split_once at_sign t) (E_MissingRevision t);
  address ← from_str address;
  revision ← decode_canonical revision;
  revision ← revision_new revision;
  Ok (mkReference address revision).

Lemma revision_new_Ok v w : revision_new v = Ok w <-> v = w /\ w <> [].
Proof. unfold revision_new. case_decide as Hv; [subst; naive_solver|]. split; [by intros [= <-]|by intros [-> _]]. Qed.

(** * What the theorems rest on *)

Section properties.
Context `{Lowercase}.

Definition dangling_artifact (a : Address) : bool :=
  bool_decide (last_kind (segments a) = Some Kind.Artifact) && bool_decide (of_subject a = None).

(** C23: The strict parser accepts exactly canonical text: it gives an address
    exactly when the address is whole (every segment valid after the ones
    before it, a subject exactly on artifacts) and the text is its printed
    form. Every other spelling is an error. *)
Theorem address_parse_exact t a : from_str t = Ok a <-> complete a /\ as_str a = t.
Proof. apply from_str_Ok. Qed.

(** Every address the crate's public functions give prints to text that
    parses back to it, and to nothing else; the only exception is an artifact
    segment added with [child] and left without its subject, which prints to
    text the parser refuses. *)
Theorem constructed_round_trip a b : constructed a -> constructed b ->
  from_str (as_str a) = (if dangling_artifact a then Err E_ArtifactWithoutSubject else Ok a) /\
  (as_str a = as_str b <-> a = b).
Proof.
  intros [Ha Hna]%constructed_built [Hb _]%constructed_built. split; [|split; [by apply built_text_inj|by intros ->]].
  destruct (dangling_artifact a) eqn:Hd; unfold dangling_artifact in Hd.
  - rewrite andb_true_iff, !bool_decide_eq_true in Hd. destruct Hd as [Hl Ho]. unfold from_str.
    rewrite (proj2 (parse_pieces _ a)).
    + cbn [mbind result_bind]. unfold finish. unfold last_kind in Hl. destruct (last (segments a)) as [s|]; [|done].
      injection Hl as ->. by rewrite !bool_decide_true.
    + split; [done|]. symmetry. apply built_split; [done|]. by intros [Hn _]%pieces_nil.
  - apply from_str_Ok. split; [|done]. split; [done|done|]. intros Ho Hl. by rewrite !bool_decide_true in Hd.
Qed.

(** The text test for lying under a prefix is the test on segments: an
    address is under another exactly when the other's segments are a prefix of
    its own, and a prefix with a subject only contains itself. *)
Theorem under_is_segment_prefix a p : complete a -> complete p ->
  is_under a p = true <-> segments p `prefix_of` segments a /\ (of_subject p = None \/ a = p).
Proof. apply is_under_iff. Qed.

(** The byte range of a stored prefix query selects exactly the addresses
    strictly under the prefix: those whose segments extend it, and no
    neighbour such as [convoy:demo2] of [convoy:demo]. *)
Theorem descendant_bounds_exact a p : complete a -> complete p ->
  text_lt (as_str a) (fst (descendant_bounds p)) = false /\ text_lt (as_str a) (snd (descendant_bounds p)) = true <->
  segments p `prefix_of` segments a /\ of_subject p = None /\ a <> p.
Proof. intros Ha Hp. rewrite descendant_bounds_iff, is_under_iff by done. naive_solver. Qed.

(** The parent of an address drops its last segment, and its subject, and is
    again a whole address with the text of the segments that remain; an address
    of one segment has none. *)
Theorem parent_exact a p : complete a ->
  parent a = Some p <-> complete p /\ of_subject p = None /\ exists s, segments a = segments p ++ [s].
Proof. intros [Ha Hn _]. by apply parent_iff. Qed.

(** A reference parses exactly from its printed form: the text splits at the
    only [@], before it a whole address, after it the canonical encoding of a
    non-empty revision. *)
Theorem reference_round_trip t r :
  reference_from_str t = Ok r <->
  complete (ref_address r) /\ utf8 (ref_revision r) = true /\ ref_revision r <> [] /\ t = reference_to_string r.
Proof.
  unfold reference_from_str, reference_to_string. split.
  - destruct (split_once at_sign t) as [[x y]|] eqn:Hs; [|done]. apply split_once_Some in Hs as [-> _]. cbn [ok_or mbind result_bind].
    destruct (from_str x) as [a|] eqn:Ha; [|done]. apply from_str_Ok in Ha as [Ha <-]. cbn [mbind result_bind].
    destruct (decode_canonical y) as [v|] eqn:Hv; [|done]. apply decode_canonical_Ok in Hv as [Hv ->]. cbn [mbind result_bind].
    destruct (revision_new v) as [w|] eqn:Hw; [|done]. apply revision_new_Ok in Hw as [-> Hw]. by intros [= <-].
  - intros (Ha & Hu & Hn & ->). rewrite (proj2 (split_once_Some _ _ _ _) (conj eq_refl (address_free _ at_sign (complete_built _ Ha) eq_refl))).
    cbn [ok_or mbind result_bind]. rewrite (proj2 (from_str_Ok _ _) (conj Ha eq_refl)). cbn [mbind result_bind].
    rewrite decode_encoded by done. cbn [mbind result_bind]. rewrite (proj2 (revision_new_Ok _ _) (conj eq_refl Hn)). by destruct r.
Qed.
End properties.
