(* ===== verification/Names.v ===== *)
(** What an address names ([crates/flotilla-address]: [record.rs] and
    [completion.rs]): the name of the record flotilla keeps about the addressed
    thing, and the completion of a partial address from its caller's context. *)

From Stdlib Require Import Ascii.
From S2P Require Import Prelude Text Encoding Address.
#[local] Open Scope Z_scope.

(** * Record names ([record.rs]) *)

(** [sha2::Sha256], a crate of its own: the digest of what was hashed, 32 bytes. *)
Class Sha256 := {
  sha256 : text -> text;
  sha256_length t : length (sha256 t) = 32%nat;
}.

Definition GITHUB_RECORD_SERVICE : text := tx "github.com".

(** One digit of [{:02x}], and the [{:x}] of bytes. *)
Definition hex_lower (n : Z) : ascii := byte_of (if n <? 10 then 48 + n else 87 + n).
Definition hex (value : text) : text := flat_map (fun b => [hex_lower (byte_val b / 16); hex_lower (byte_val b mod 16)]) value.

(** [(len as u64).to_be_bytes()]. *)
Definition be_bytes (n : Z) : text :=
  map (fun i => byte_of (Z.land (Z.shiftr n (8 * (7 - Z.of_nat i))) 255)) (seq 0 8).
Definition hash_component (c : text) : text := be_bytes (Z.of_nat (length c)) ++ c.
Definition hash_input (components : list text) : text := concat (map hash_component components).

(** [forge_record_name]; [None] is the panic of its [expect]s. *)
Definition forge_record_name (prefix : text) (a : Address) : option text :=
  f ← get a Kind.Forge;
  let service := if decide (f = GITHUB_FORGE_ID) then GITHUB_RECORD_SERVICE else f in
  r ← get a Kind.Repo;
  n ← number a;
  n ← n;
  Some (prefix ++ dash :: hex service ++ dash :: hex r ++ dash :: u64_to_string n).

Section record_names.
Context `{Lowercase} `{Sha256}.

(** The outer [None] is a panic, the inner one is the function's own. *)
Definition record_name (a : Address) : option (option text) :=
  k ← kind a;
  match k with
  | Kind.ChangeRequest => Some <$> forge_record_name (tx "cr") a
  | Kind.Issue => Some <$> forge_record_name (tx "issue") a
  | Kind.Artifact =>
      match get a Kind.Convoy, get a Kind.Role with
      | Some convoy, Some role =>
          n ← name a;
          match of_subject a with
          | Some subject => Some (Some (tx "artifact-" ++ hex (sha256 (hash_input [convoy; role; n; subject]))))
          | None => Some None
          end
      | _, _ => Some None
      end
  | Kind.Account =>
      match get a Kind.Usage with
      | Some provider =>
          n ← name a;
          let provider := to_lowercase (trim provider) in
          let account := to_lowercase (trim n) in
          let digest := hex (sha256 (tx "usage-account-v2" ++ Ascii.zero :: provider ++ Ascii.zero :: account)) in
          Some (Some (tx "usage-" ++ take 54 digest))
      | None => Some None
      end
  | Kind.Project | Kind.Convoy | Kind.Host => n ← name a; Some (Some n)
  | Kind.Fleet | Kind.Provider | Kind.Vessel | Kind.Role | Kind.Message | Kind.Session | Kind.Forge | Kind.Repo
  | Kind.Comment | Kind.Commit | Kind.Ref | Kind.Usage => Some None
  end.

Definition message_record_name (receiver sender producer_key : text) : text :=
  tx "message-" ++ hex (sha256 (hash_input [receiver; sender; producer_key])).
End record_names.

(** * Completion ([completion.rs]) *)

Inductive CompletionError := Ambiguous (partial : Address) (matches : list Address).

Section completion.
Context `{Lowercase}.

(** The loop of [place], climbing from [context]. An address has no more
    ancestors than segments, so they are fuel enough. The [None] of [kind] is
    its panic on an address with no segment. *)
Fixpoint place_loop (fuel : nat) (first : Kind.t) (partial ancestor : Address) : option Address :=
  match fuel with
  | O => None
  | S fuel =>
      k ← kind ancestor;
      if Kind.may_follow first (Some k) then
        match from_str (as_str ancestor ++ slash :: as_str partial) with Ok a => Some a | Err _ => None end
      else match parent ancestor with Some p => place_loop fuel first partial p | None => None end
  end.
Definition first_kind (a : Address) : option Kind.t := seg_kind <$> head (segments a).
Definition place (partial context : Address) : option Address :=
  first ← first_kind partial; place_loop (length (segments context)) first partial context.

(** [slice::ends_with]. *)
Definition list_ends_with (l suffix : list Segment) : bool :=
  bool_decide (length suffix <= length l)%nat && bool_decide (drop (length l - length suffix) l = suffix).
Definition ends_with (candidate partial : Address) : bool :=
  list_ends_with (segments candidate) (segments partial) && bool_decide (of_subject candidate = of_subject partial).

(** [BTreeSet::insert]: in text order, and an equal address stays. *)
Fixpoint set_insert (a : Address) (l : list Address) : list Address :=
  match l with
  | [] => [a]
  | b :: r => if text_lt (as_str a) (as_str b) then a :: l
              else if decide (as_str a = as_str b) then l
              else b :: set_insert a r
  end.
Definition address_set (l : list Address) : list Address := fold_left (fun s a => set_insert a s) l [].

(** [complete]; [None] is the panic on a partial address with no segment. *)
Definition complete_address (partial : Address) (context : option Address) (candidates : list Address)
    : option (result CompletionError Address) :=
  first ← first_kind partial;
  if negb (existsb (fun p => Kind.may_follow first (Some p)) Kind.ALL) then Some (Ok partial)
  else match c ← context; place partial c with
  | Some placed => Some (Ok placed)
  | None =>
      match address_set (filter (fun c => ends_with c partial = true) candidates) with
      | [] => Some (Ok partial)
      | [only] => Some (Ok only)
      | several => Some (Err (Ambiguous partial several))
      end
  end.
End completion.

(** * Shapes *)

Lemma last_kind_inv segs k : last_kind segs = Some k -> exists before v, segs = before ++ [mkSegment k v].
Proof.
  destruct segs as [|[k' v] before _] using rev_ind; [done|]. rewrite last_kind_snoc. intros [= <-]. eauto.
Qed.
Lemma last_kind_nil segs : last_kind segs = None -> segs = [].
Proof. destruct segs as [|s segs _] using rev_ind; [done|]. by rewrite last_kind_snoc. Qed.

Section shapes.
Context `{Lowercase}.

(** A forge is a root, and a repository sits directly under one. *)
Lemma repo_shape segs : segments_ok segs -> last_kind segs = Some Kind.Repo ->
  exists f r, segs = [mkSegment Kind.Forge f; mkSegment Kind.Repo r] /\ validate_forge_id f = Ok () /\ utf8 f = true.
Proof.
  intros Hok (before & r & ->)%last_kind_inv. apply segments_ok_snoc_inv in Hok as [Hok [Hf _ _ _ _]]. cbn in Hf.
  destruct (last_kind before) as [[]|] eqn:Hl; try done. apply last_kind_inv in Hl as (b2 & f & ->).
  apply segments_ok_snoc_inv in Hok as [Hok [Hf2 Hu Hv _ _]]. cbn in Hf2, Hu, Hv.
  destruct (last_kind b2) eqn:Hl2; [done|]. apply last_kind_nil in Hl2 as ->. exists f, r. split; [done|].
  unfold validate_value in Hv. by destruct (decide (f = [])).
Qed.
(** A change request or an issue is a number in a repository on a forge. *)
Definition numbered (k : Kind.t) : bool := match k with Kind.ChangeRequest | Kind.Issue => true | _ => false end.
Lemma numbered_shape a k : complete a -> kind a = Some k -> numbered k = true ->
  exists f r n, segments a = [mkSegment Kind.Forge f; mkSegment Kind.Repo r; mkSegment k (u64_to_string n)] /\
    validate_forge_id f = Ok () /\ is_u64 n /\ of_subject a = None.
Proof.
  intros [[Hok Hsub _] _ _] Hk Hn. unfold kind in Hk. destruct (last_kind_inv _ _ Hk) as (before & v & Heq). rewrite Heq in Hok.
  apply segments_ok_snoc_inv in Hok as [Hok [Hf _ Hv _ _]]. cbn in Hf, Hv.
  assert (last_kind before = Some Kind.Repo) as Hl by (destruct k; try done; cbn in Hf; by destruct (last_kind before) as [[]|]).
  destruct (repo_shape _ Hok Hl) as (f & r & -> & Hfid & _). exists f, r.
  assert (exists n, is_u64 n /\ v = u64_to_string n) as (n & Hu & ->).
  { unfold validate_value in Hv. case_decide as Hne; [done|]. destruct k; try done;
      (destruct (canonical_digits v) eqn:Hc; [|done]); (destruct (parse_u64 v) as [n|] eqn:Hp; [|done]);
      exists n; by apply u64_round_trip. }
  exists n. do 3 (split; [done|]). destruct (of_subject a); [|done]. destruct Hsub as [Hs _]. rewrite Hk in Hs. injection Hs as ->. done.
Qed.
Lemma u64_to_string_nonempty n : u64_to_string n <> [].
Proof.
  assert (forall fuel m acc, acc <> [] \/ fuel <> 0%nat -> decimal fuel m acc <> []) as Hd.
  { intros fuel. induction fuel as [|fuel IH]; intros m acc [Hacc|Hf]; try done; cbn [decimal]; (case_match; [done|]); apply IH; by left. }
  apply Hd. by right.
Qed.
Lemma parse_printed n : is_u64 n -> parse_u64 (u64_to_string n) = Some n.
Proof. intros Hn. apply (u64_round_trip (u64_to_string n) n); [apply u64_to_string_nonempty|done]. Qed.
Lemma printed_digits n : is_u64 n -> forallb is_digit (u64_to_string n) = true.
Proof.
  intros Hn. destruct (proj2 (u64_round_trip _ n (u64_to_string_nonempty n)) (conj Hn eq_refl)) as [Hc _].
  unfold canonical_digits in Hc. by apply andb_true_iff in Hc as [Hc _].
Qed.
Lemma printed_utf8 n : is_u64 n -> utf8 (u64_to_string n) = true.
Proof.
  intros Hn. apply utf8_ascii, (class_widen is_digit); [by apply printed_digits|]. intros c Hd.
  unfold is_digit, in_bytes in Hd. unfold is_ascii. apply andb_true_iff in Hd as [_ Hd%Z.leb_le]. apply Z.ltb_lt. lia.
Qed.
Lemma u64_to_string_inj n m : is_u64 n -> is_u64 m -> u64_to_string n = u64_to_string m -> n = m.
Proof. intros Hn Hm Heq. apply parse_printed in Hn. rewrite Heq, parse_printed in Hn; [congruence|done]. Qed.
End shapes.

(** * Hexadecimal and lengths *)

Lemma hex_cons b v : hex (b :: v) = hex_lower (byte_val b / 16) :: hex_lower (byte_val b mod 16) :: hex v.
Proof. done. Qed.
Lemma hex_pair_inj a b : hex_lower (byte_val a / 16) = hex_lower (byte_val b / 16) -> hex_lower (byte_val a mod 16) = hex_lower (byte_val b mod 16) -> a = b.
Proof.
  assert (forall a b, implb (bool_decide (hex_lower (byte_val a / 16) = hex_lower (byte_val b / 16)) &&
    bool_decide (hex_lower (byte_val a mod 16) = hex_lower (byte_val b mod 16))) (bool_decide (a = b)) = true) as Hall.
  { intros x y. revert y. apply byte_forall. revert x. apply byte_forall. vm_compute. reflexivity. }
  intros H1 H2. specialize (Hall a b). rewrite !(bool_decide_true (hex_lower _ = _)) in Hall by done. by apply bool_decide_eq_true in Hall.
Qed.
Lemma hex_inj v w : hex v = hex w -> v = w.
Proof.
  revert w. induction v as [|a v IH]; intros [|b w]; try done. rewrite !hex_cons. intros [= H1 H2 H3]. f_equal; [by apply hex_pair_inj|auto].
Qed.
Lemma hex_free v : has dash (hex v) = false.
Proof.
  assert (forall b, negb (has dash [hex_lower (byte_val b / 16); hex_lower (byte_val b mod 16)]) = true) as Hall.
  { apply byte_forall. vm_compute. reflexivity. }
  induction v as [|b v IH]; [done|]. rewrite hex_cons. specialize (Hall b). apply negb_true_iff in Hall. cbn in *.
  rewrite orb_false_r in Hall. apply orb_false_iff in Hall as [-> ->]. exact IH.
Qed.

Lemma be_bytes_length n : length (be_bytes n) = 8%nat.
Proof. done. Qed.
Lemma be_bytes_inj n m : is_u64 n -> is_u64 m -> be_bytes n = be_bytes m -> n = m.
Proof.
  intros Hn Hm Heq. unfold be_bytes in Heq. cbn [seq map] in Heq.
  assert (forall k, byte_val (byte_of (Z.land k 255)) = Z.land k 255) as Hb.
  { intros k. apply byte_val_of. change 255 with (Z.ones 8). rewrite Z.land_ones by lia. apply Z.mod_pos_bound. lia. }
  assert (forall k, byte_of (Z.land (Z.shiftr n k) 255) = byte_of (Z.land (Z.shiftr m k) 255) -> 0 <= k ->
    forall i, 0 <= i < 8 -> Z.testbit n (k + i) = Z.testbit m (k + i)) as Hbit.
  { intros k Hk Hk0 i Hi. apply (f_equal byte_val) in Hk. rewrite !Hb in Hk. apply (f_equal (fun z => Z.testbit z i)) in Hk.
    change 255 with (Z.ones 8) in Hk. rewrite !Z.land_spec, !Z.shiftr_spec, Z.ones_spec_low, !andb_true_r in Hk by lia.
    by rewrite (Z.add_comm k i). }
  injection Heq as H7 H6 H5 H4 H3 H2 H1 H0. apply Z.bits_inj'. intros i Hi. destruct (decide (i < 64)) as [Hlt|Hge].
  - assert (exists q r, i = 8 * q + r /\ 0 <= r < 8 /\ (q = 0 \/ q = 1 \/ q = 2 \/ q = 3 \/ q = 4 \/ q = 5 \/ q = 6 \/ q = 7)) as (q & r & -> & Hr & Hq).
    { exists (i / 8), (i mod 8). pose proof (Z.div_mod i 8). pose proof (Z.mod_pos_bound i 8). lia. }
    destruct Hq as [->|[->|[->|[->|[->|[->|[->| ->]]]]]]]; apply Hbit; (done || lia).
  - assert (forall x, is_u64 x -> Z.testbit x i = false) as Hz.
    { intros x Hx. destruct (decide (x = 0)) as [->|]; [apply Z.bits_0|]. apply Z.bits_above_log2; [apply Hx|].
      apply Z.log2_lt_pow2; [unfold_ints; lia|]. apply Z.lt_le_trans with (2 ^ 64); [unfold_ints; lia|]. apply Z.pow_le_mono_r; lia. }
    by rewrite !Hz.
Qed.
(** A text a machine can hold. *)
Definition fits (t : text) : Prop := is_u64 (Z.of_nat (length t)).
Lemma hash_component_inj c1 c2 r1 r2 : fits c1 -> fits c2 -> hash_component c1 ++ r1 = hash_component c2 ++ r2 -> c1 = c2 /\ r1 = r2.
Proof.
  intros H1 H2. unfold hash_component. rewrite <-!app_assoc. intros Heq. apply app_inj_1 in Heq as [Hl Heq]; [|by rewrite !be_bytes_length].
  apply be_bytes_inj in Hl; [|done|done]. apply app_inj_1 in Heq; [done|lia].
Qed.
Lemma hash_input_inj l1 l2 : length l1 = length l2 -> Forall fits l1 -> Forall fits l2 -> hash_input l1 = hash_input l2 -> l1 = l2.
Proof.
  revert l2. induction l1 as [|c1 l1 IH]; intros [|c2 l2] Hlen H1 H2 Heq; try done. apply Forall_cons in H1 as [Hc1 H1], H2 as [Hc2 H2].
  unfold hash_input in Heq. cbn [map concat] in Heq. apply hash_component_inj in Heq as [-> Heq]; [|done|done]. f_equal. apply IH; [cbn in Hlen; lia|done|done|done].
Qed.

(** * Record names *)

Definition service (f : text) : text := if decide (f = GITHUB_FORGE_ID) then GITHUB_RECORD_SERVICE else f.
(** A forge id has no dot, so no forge has GitHub's host as its id. *)
Lemma service_inj f g : validate_forge_id f = Ok () -> validate_forge_id g = Ok () -> service f = service g -> f = g.
Proof.
  unfold service. intros Hf Hg. repeat case_decide; intros Heq; subst; try done; vm_compute in Hf, Hg; done.
Qed.
Definition number_prefix (k : Kind.t) : text := match k with Kind.ChangeRequest => tx "cr" | _ => tx "issue" end.

Section record_properties.
Context `{Lowercase} `{Sha256}.

Lemma numbered_record_name a k f r n :
  segments a = [mkSegment Kind.Forge f; mkSegment Kind.Repo r; mkSegment k (u64_to_string n)] -> numbered k = true -> is_u64 n ->
  record_name a = Some (Some (join [dash] [number_prefix k; hex (service f); hex r; u64_to_string n])).
Proof.
  intros Hs Hk Hn. unfold record_name, forge_record_name, number, kind, name, get, last_kind. rewrite Hs.
  cbn [last fmap option_fmap option_map mbind option_bind seg_kind seg_value find List.find].
  destruct k; try done; (rewrite !bool_decide_false, !bool_decide_true by done);
    cbn [fmap option_fmap option_map mbind option_bind seg_kind seg_value]; rewrite parse_printed by done; done.
Qed.

(** Change requests and issues have record names, and two of them share one
    only when they are the same address: the name keeps the kind, the forge, the
    repository and the number apart, and GitHub's host spelling never meets
    another forge's id. *)
Theorem forge_record_names_injective a b ka kb : complete a -> complete b -> kind a = Some ka -> kind b = Some kb ->
  numbered ka = true -> numbered kb = true ->
  (exists n, record_name a = Some (Some n)) /\ (record_name a = record_name b -> a = b).
Proof.
  intros Ha Hb Hka Hkb Hna Hnb.
  destruct (numbered_shape a ka Ha Hka Hna) as (f & r & n & Hsa & Hf & Hn & Hoa).
  destruct (numbered_shape b kb Hb Hkb Hnb) as (g & q & m & Hsb & Hg & Hm & Hob).
  rewrite (numbered_record_name _ _ _ _ _ Hsa Hna Hn), (numbered_record_name _ _ _ _ _ Hsb Hnb Hm).
  split; [by eexists|]. intros Heq%(inj Some)%(inj Some). apply (f_equal (split dash)) in Heq.
  assert (forall k f r n, numbered k = true -> is_u64 n ->
    Forall (fun x => has dash x = false) [number_prefix k; hex (service f); hex r; u64_to_string n]) as Hfree.
  { intros k x y z Hk Hz. repeat constructor; [by destruct k|apply hex_free|apply hex_free|].
    apply (has_class is_digit); [by apply printed_digits|done]. }
  rewrite !split_join in Heq by (done || by apply Hfree). injection Heq as Hp Hs Hr Hnum.
  apply hex_inj in Hs, Hr. apply service_inj in Hs; [|done|done]. apply u64_to_string_inj in Hnum; [|done|done]. subst.
  assert (ka = kb) as -> by (by destruct ka, kb). apply built_ext; [apply Ha|apply Hb|congruence|congruence].
Qed.

(** Two convoy artifacts share a record name only when convoy, role, artifact
    kind and subject all agree, or two different inputs collide under SHA-256:
    what is hashed tells the four components apart. The Project plays no part. *)
Theorem artifact_record_names a b c1 c2 r1 r2 k1 k2 s1 s2 n :
  kind a = Some Kind.Artifact -> kind b = Some Kind.Artifact ->
  get a Kind.Convoy = Some c1 -> get b Kind.Convoy = Some c2 -> get a Kind.Role = Some r1 -> get b Kind.Role = Some r2 ->
  name a = Some k1 -> name b = Some k2 -> of_subject a = Some s1 -> of_subject b = Some s2 ->
  Forall fits [c1; r1; k1; s1] -> Forall fits [c2; r2; k2; s2] ->
  record_name a = Some (Some n) -> record_name b = Some (Some n) ->
  (c1 = c2 /\ r1 = r2 /\ k1 = k2 /\ s1 = s2) \/ exists x y, x <> y /\ sha256 x = sha256 y.
Proof.
  intros Hka Hkb Hca Hcb Hra Hrb Hna Hnb Hsa Hsb Hfa Hfb. unfold record_name.
  rewrite Hka, Hkb. cbn [mbind option_bind]. rewrite Hca, Hcb, Hra, Hrb, Hna, Hnb. cbn [mbind option_bind]. rewrite Hsa, Hsb.
  intros [= <-] [= Heq]. apply hex_inj in Heq. symmetry in Heq.
  destruct (decide (hash_input [c1; r1; k1; s1] = hash_input [c2; r2; k2; s2])) as [Hin|Hin]; [left|right; eauto].
  apply hash_input_inj in Hin; [|done|done|done]. naive_solver.
Qed.

(** A keyed send names one message: its name keeps receiver, sender and key apart. *)
Lemma message_record_names r1 s1 k1 r2 s2 k2 : Forall fits [r1; s1; k1] -> Forall fits [r2; s2; k2] ->
  message_record_name r1 s1 k1 = message_record_name r2 s2 k2 ->
  (r1 = r2 /\ s1 = s2 /\ k1 = k2) \/ exists x y, x <> y /\ sha256 x = sha256 y.
Proof.
  intros H1 H2 Heq. unfold message_record_name in Heq. apply app_inv_head, hex_inj in Heq.
  destruct (decide (hash_input [r1; s1; k1] = hash_input [r2; s2; k2])) as [Hin|Hin]; [left|right; eauto].
  apply hash_input_inj in Hin; [|done|done|done]. naive_solver.
Qed.
End record_properties.

(** Usage record names do not tell provider and account apart: a NUL byte in
    either moves the border between them, whatever the digest. *)
Definition usage_text (provider account : string) : text := tx "usage:" ++ tx provider ++ tx "/account:" ++ tx account.
Lemma usage_record_names_collide `{Sha256} :
  exists a b, from_str (usage_text "a%00b" "c") = Ok a /\ from_str (usage_text "a" "b%00c") = Ok b /\ as_str a <> as_str b /\
    record_name a = record_name b.
Proof.
  destruct (from_str (usage_text "a%00b" "c")) as [a|] eqn:Ha; [|vm_compute in Ha; done].
  destruct (from_str (usage_text "a" "b%00c")) as [b|] eqn:Hb; [|vm_compute in Hb; done].
  exists a, b. vm_compute in Ha, Hb. injection Ha as <-. injection Hb as <-. split_and!; done.
Qed.

(** * Completion *)

(** The address with these segments and this subject. *)
Definition address_of (segs : list Segment) (o : option text) : Address := mkAddress segs o (join [slash] (pieces segs o)).

(** How many segments of a context the deepest ancestor has that a kind may follow. *)
Definition deepest (first : Kind.t) (context : list Segment) : option nat :=
  List.find (fun n => Kind.may_follow first (last_kind (take n context))) (rev (seq 1 (length context))).

Section completion_properties.
Context `{Lowercase}.

(** Where a partial address goes under an ancestor: only an account under a
    usage provider has a condition of its own. *)
Definition placeable (ancestor : list Segment) (partial : list Segment) : bool :=
  match partial with
  | s :: _ => negb (bool_decide (seg_kind s = Kind.Account) && bool_decide (last_kind ancestor = Some Kind.Usage))
              || bool_decide (normalise_usage (seg_value s) = seg_value s)
  | [] => true
  end.

Lemma segments_ok_join pre segs : segments_ok pre -> segments_ok segs -> segs <> [] -> pre <> [] ->
  Kind.may_follow (default Kind.Fleet (seg_kind <$> head segs)) (last_kind pre) = true ->
  segments_ok (pre ++ segs) <-> placeable pre segs = true.
Proof.
  intros Hpre Hok Hne Hpre' Hf. split.
  - destruct segs as [|s segs]; [done|]. change (s :: segs) with ([s] ++ segs). rewrite app_assoc. intros Hall%segments_ok_app_inv.
    apply segments_ok_snoc_inv in Hall as [_ [_ _ _ Hacc _]]. cbn. destruct (decide (seg_kind s = Kind.Account)) as [Hk|Hk]; [|by rewrite bool_decide_false].
    destruct (decide (last_kind pre = Some Kind.Usage)) as [Hl|Hl]; [|by rewrite (bool_decide_false (last_kind pre = _)), andb_false_r].
    rewrite !bool_decide_true by auto. done.
  - intros Hp. induction Hok as [|segs s Hok IH Hs]; [done|]. rewrite app_assoc. destruct (decide (segs = [])) as [->|Hsegs].
    + rewrite app_nil_r. constructor; [done|]. cbn in Hf, Hp. destruct Hs as [Hs1 Hs2 Hs3 Hs4 Hs5]. split; [done|done|done| |].
      * intros Hk Hl. rewrite !(bool_decide_true (_ = Kind.Account)), !(bool_decide_true (last_kind _ = _)) in Hp by done. by apply bool_decide_eq_true in Hp.
      * intros Hk. by rewrite Hk in Hs1.
    + assert (pre ++ segs <> []) by by destruct pre. assert (segment_ok (pre ++ segs) s) as Hs'.
      { destruct Hs as [Hs1 Hs2 Hs3 Hs4 Hs5]. assert (last_kind (pre ++ segs) = last_kind segs) as Hl.
        { unfold last_kind. destruct segs as [|x l _] using rev_ind; [done|]. by rewrite app_assoc, !last_snoc. }
        split; rewrite ?Hl; try done. intros Hk. rewrite Hk in Hs1. exfalso. destruct (last_kind segs) as [[]|] eqn:Hlk; try done.
        destruct (last_kind_inv _ _ Hlk) as (b2 & f & ->). apply segments_ok_snoc_inv in Hok as [_ [Hs6 _ _ _ _]]. cbn in Hs6.
        destruct (last_kind b2) eqn:Hl2; [done|]. apply last_kind_nil in Hl2 as ->. cbn in Hf. by destruct (last_kind pre) eqn:Hlp; [|apply last_kind_nil in Hlp]. }
      constructor; [|done]. apply IH; [done|by destruct segs|]. unfold placeable in *. by destruct segs.
Qed.

(** Parsing joined pieces gives back their address, or fails. *)
Lemma from_str_pieces segs o : segs <> [] -> subject_ok segs o -> (o = None -> last_kind segs <> Some Kind.Artifact) ->
  match from_str (join [slash] (pieces segs o)) with
  | Ok a => a = address_of segs o /\ complete a
  | Err _ => ~ segments_ok segs
  end.
Proof.
  intros Hne Ho Hl. destruct (from_str _) as [a|e] eqn:Ha.
  - apply from_str_Ok in Ha as [Hc Ht]. split; [|done].
    assert (pieces (segments a) (of_subject a) = pieces segs o) as [Hs Hoa]%pieces_inj.
    { rewrite <-(built_split a), Ht; [|apply Hc|by intros [Hn _]%pieces_nil; destruct Hc]. apply split_join; [|apply pieces_free].
      by intros [Hn _]%pieces_nil. }
    destruct a as [sa oa ta]. cbn in *. subst. done.
  - intros Hok. assert (complete (address_of segs o)) as Hc by (split; [by split|done|done]).
    pose proof (proj2 (from_str_Ok (as_str (address_of segs o)) _) (conj Hc eq_refl)) as Hf. cbn [address_of as_str] in Hf. by rewrite Ha in Hf.
Qed.

(** A partial address joined to an ancestor's text parses as the two together,
    when the ancestor may take it. *)
Lemma join_parses a partial first : complete a -> complete partial -> first_kind partial = Some first ->
  Kind.may_follow first (kind a) = true ->
  match from_str (as_str a ++ slash :: as_str partial) with
  | Ok r => placeable (segments a) (segments partial) = true /\ r = address_of (segments a ++ segments partial) (of_subject partial)
  | Err _ => placeable (segments a) (segments partial) = false
  end.
Proof.
  intros Ha Hp Hfirst Hf. unfold kind in Hf.
  assert (of_subject a = None) as Hoa.
  { pose proof (built_subject a (complete_built a Ha)) as Hs. destruct (of_subject a); [|done]. destruct Hs as [Hl _].
    rewrite Hl in Hf. by destruct first. }
  assert (as_str a ++ slash :: as_str partial = join [slash] (pieces (segments a ++ segments partial) (of_subject partial))) as ->.
  { unfold pieces. rewrite map_app, <-app_assoc, (built_text a), (built_text partial), Hoa by (apply Ha || apply Hp).
    unfold pieces. cbn [of_pieces]. rewrite app_nil_r. symmetry. apply join_app.
    - intros Hm%map_eq_nil. by destruct Ha.
    - intros [Hm _]%pieces_nil. by destruct Hp. }
  assert (last_kind (segments a ++ segments partial) = last_kind (segments partial)) as Hlk.
  { destruct Hp as [_ Hne _]. unfold last_kind. destruct (segments partial) as [|x l _] using rev_ind; [done|]. by rewrite app_assoc, !last_snoc. }
  pose proof (segments_ok_join (segments a) (segments partial)) as Hj. unfold first_kind in Hfirst. rewrite Hfirst in Hj. cbn [default] in Hj.
  specialize (Hj (built_segments _ (complete_built _ Ha)) (built_segments _ (complete_built _ Hp)) (complete_nonempty _ Hp) (complete_nonempty _ Ha) Hf).
  pose proof (from_str_pieces (segments a ++ segments partial) (of_subject partial)) as Hparse.
  assert (segments a ++ segments partial <> []) as Hne by (destruct (segments a) eqn:E; [by destruct Ha|done]).
  assert (subject_ok (segments a ++ segments partial) (of_subject partial)) as Hsub.
  { pose proof (built_subject _ (complete_built _ Hp)) as Hs. unfold subject_ok in *. by rewrite Hlk. }
  specialize (Hparse Hne Hsub). rewrite Hlk in Hparse. specialize (Hparse (complete_subject _ Hp)).
  destruct (from_str _) as [r|e]; [|by apply not_true_iff_false; rewrite <-Hj].
  destruct Hparse as [-> Hc]. split; [|done]. apply Hj, Hc.
Qed.

Lemma parent_of_snoc a segs s : complete a -> segments a = segs ++ [s] -> segs <> [] ->
  parent a = Some (address_of segs None) /\ complete (address_of segs None).
Proof.
  intros Ha Hs Hne. pose proof (built_segments _ (complete_built _ Ha)) as Hok. rewrite Hs in Hok.
  pose proof (segments_ok_artifact_last _ _ Hok) as Hl. apply segments_ok_snoc_inv in Hok as [Hok _].
  assert (complete (address_of segs None)) as Hq by (split; [by split|done|done]). split; [|done].
  apply parent_iff; [apply Ha|apply Ha|]. split_and!; [done|done|by exists s].
Qed.
Lemma find_ext {A} (f g : A -> bool) l : (forall x, x ∈ l -> f x = g x) -> List.find f l = List.find g l.
Proof. induction l as [|x l IH]; intros Hl; [done|]. cbn. rewrite (Hl x) by set_solver. destruct (g x); [done|]. apply IH. set_solver. Qed.
Lemma deepest_snoc first segs s : deepest first (segs ++ [s]) =
  if Kind.may_follow first (Some (seg_kind s)) then Some (S (length segs)) else deepest first segs.
Proof.
  unfold deepest. rewrite length_app, Nat.add_1_r, seq_S, rev_app_distr. cbn [rev app List.find].
  replace (1 + length segs)%nat with (length (segs ++ [s])) by (rewrite length_app; cbn; lia). rewrite firstn_all, last_kind_snoc.
  rewrite length_app, Nat.add_1_r. destruct (Kind.may_follow first _); [done|]. apply find_ext. intros m Hm.
  rewrite list_elem_of_In, <-in_rev, in_seq in Hm. by rewrite take_app_le by lia.
Qed.
Lemma deepest_bound first segs n : deepest first segs = Some n -> (n <= length segs)%nat.
Proof. unfold deepest. intros [Hin _]%List.find_some. apply in_rev, in_seq in Hin. lia. Qed.

Lemma place_loop_spec first partial ancestor : complete partial -> first_kind partial = Some first -> complete ancestor ->
  place_loop (length (segments ancestor)) first partial ancestor =
  match deepest first (segments ancestor) with
  | Some n => if placeable (take n (segments ancestor)) (segments partial)
              then Some (address_of (take n (segments ancestor) ++ segments partial) (of_subject partial)) else None
  | None => None
  end.
Proof.
  intros Hp Hfirst. remember (length (segments ancestor)) as n eqn:Hn. revert ancestor Hn.
  induction n as [|n IH]; intros a Hn Ha; [by destruct Ha; destruct (segments a)|]. cbn [place_loop].
  destruct (segments a) as [|s segs _] eqn:Hs using rev_ind; [done|]. pose proof (join_parses a partial first Ha Hp Hfirst) as Hj.
  unfold kind in *. rewrite Hs in *. rewrite last_kind_snoc in *. rewrite deepest_snoc. cbn [mbind option_bind].
  rewrite length_app in Hn. cbn in Hn. destruct (Kind.may_follow first (Some (seg_kind s))) eqn:Hf.
  - replace (S (length segs)) with (length (segs ++ [s])) by (rewrite length_app; cbn; lia). rewrite firstn_all.
    specialize (Hj eq_refl). destruct (from_str _) as [r|e]; [by destruct Hj as [-> ->]|by rewrite Hj].
  - destruct (decide (segs = [])) as [->|Hne].
    + assert (n = 0%nat) as -> by (cbn in Hn; lia). by destruct (parent a).
    + destruct (parent_of_snoc a segs s Ha Hs Hne) as [-> Hc]. rewrite (IH (address_of segs None) ltac:(cbn; lia) Hc). cbn [address_of segments].
      destruct (deepest first segs) as [m|] eqn:Hd; [|done]. apply deepest_bound in Hd. by rewrite !take_app_le by lia.
Qed.
End completion_properties.

(** ** Candidates *)

Definition address_lt (a b : Address) : Prop := text_lt (as_str a) (as_str b) = true.

Section candidate_sets.
Context `{Lowercase}.

Lemma set_insert_elem a l x : complete a -> Forall complete l -> x ∈ set_insert a l <-> x = a \/ x ∈ l.
Proof.
  intros Ha. induction l as [|b l IH]; intros Hl; cbn; [set_solver|]. apply Forall_cons in Hl as [Hb Hl].
  destruct (text_lt _ _); [set_solver|]. case_decide as Heq.
  - apply built_text_inj in Heq as ->; [|apply Ha|apply Hb]. set_solver.
  - rewrite elem_of_cons, IH by done. set_solver.
Qed.
Lemma set_insert_sorted a l : StronglySorted address_lt l -> StronglySorted address_lt (set_insert a l).
Proof.
  induction 1 as [|b l Hl IH Hb]; cbn; [repeat constructor|]. destruct (text_lt _ _) eqn:Hlt.
  - constructor; [by constructor|]. constructor; [done|]. eapply Forall_impl; [exact Hb|]. intros c Hc. by eapply text_lt_trans.
  - case_decide as Heq; [by constructor|]. constructor; [done|]. apply Forall_forall. intros c Hc.
    assert (c = a \/ c ∈ l) as [->|Hin].
    { clear -Hc. induction l as [|d l IHl]; cbn in Hc; [set_solver|]. destruct (text_lt _ _); [set_solver|]. case_decide; set_solver. }
    + by apply text_lt_total.
    + rewrite Forall_forall in Hb. auto.
Qed.
Lemma address_set_spec l : Forall complete l -> StronglySorted address_lt (address_set l) /\ forall x, x ∈ address_set l <-> x ∈ l.
Proof.
  unfold address_set. induction l as [|a l IH] using rev_ind; intros Hl; [split; [constructor|done]|].
  apply Forall_app in Hl as [Hl Ha]. apply Forall_cons in Ha as [Ha _]. destruct (IH Hl) as [Hs Hx]. rewrite fold_left_app. cbn [fold_left].
  split; [by apply set_insert_sorted|]. intros x. rewrite set_insert_elem; [rewrite Hx; set_solver|done|].
  apply Forall_forall. intros y Hy. apply Hx in Hy. rewrite Forall_forall in Hl. auto.
Qed.
Lemma ends_with_iff c p : ends_with c p = true <-> segments p `suffix_of` segments c /\ of_subject c = of_subject p.
Proof.
  unfold ends_with, list_ends_with. rewrite !andb_true_iff, !bool_decide_eq_true. split.
  - intros [[_ Hd] Ho]. split; [|done]. eexists. pose proof (take_drop (length (segments c) - length (segments p)) (segments c)) as Htd. rewrite Hd in Htd. by symmetry.
  - intros [[k Hk] Ho]. rewrite Hk, length_app. split; [|done]. split; [lia|].
    replace (length k + length (segments p) - length (segments p))%nat with (length k) by lia. by rewrite drop_app_length.
Qed.

Lemma place_loop_complete fuel first partial ancestor r : place_loop fuel first partial ancestor = Some r -> complete r.
Proof.
  revert ancestor. induction fuel as [|fuel IH]; intros a; [done|]. cbn [place_loop]. destruct (kind a) as [k|]; [|done]. cbn [mbind option_bind].
  destruct (Kind.may_follow first (Some k)).
  - destruct (from_str _) as [b|] eqn:Hb; [|done]. intros [= <-]. by apply from_str_Ok in Hb as [Hb _].
  - destruct (parent a); [apply IH|done].
Qed.

(** A partial address goes under the deepest ancestor of the context that its
    first segment may follow: the placed address has exactly the ancestor's
    segments and then its own. Only when no ancestor may take it, or it is an
    account whose spelling a usage provider refuses, is nothing placed. *)
Theorem place_deepest partial context first : complete partial -> complete context -> first_kind partial = Some first ->
  place partial context =
  match deepest first (segments context) with
  | Some n => if placeable (take n (segments context)) (segments partial)
              then Some (address_of (take n (segments context) ++ segments partial) (of_subject partial)) else None
  | None => None
  end.
Proof. intros Hp Hc Hf. unfold place. rewrite Hf. cbn. by apply place_loop_spec. Qed.

(** Completion never invents: whatever it returns is a whole address that
    ends with the partial one's segments and subject, and an ambiguity lists
    exactly the matching candidates, at least two, once each and in text order. *)
Theorem completion_sound partial context candidates :
  complete partial -> (forall c, context = Some c -> complete c) -> Forall complete candidates ->
  match complete_address partial context candidates with
  | Some (Ok a) => complete a /\ segments partial `suffix_of` segments a /\ of_subject a = of_subject partial
  | Some (Err (Ambiguous p several)) =>
      p = partial /\ (2 <= length several)%nat /\ StronglySorted address_lt several /\
      forall c, c ∈ several <-> c ∈ candidates /\ segments partial `suffix_of` segments c /\ of_subject c = of_subject partial
  | None => False
  end.
Proof.
  intros Hp Hctx Hc. unfold complete_address. destruct (first_kind partial) as [first|] eqn:Hf.
  2: { unfold first_kind in Hf. destruct Hp as [_ Hn _]. by destruct (segments partial). }
  cbn [mbind option_bind]. assert (complete partial /\ segments partial `suffix_of` segments partial /\ of_subject partial = of_subject partial) as Hself by done.
  destruct (negb (existsb _ _)); [done|]. destruct (c ← context; place partial c) as [r|] eqn:Hplace.
  { destruct context as [c|]; [|done]. cbn in Hplace. unfold place in Hplace. rewrite Hf in Hplace. cbn in Hplace.
    pose proof (place_loop_complete _ _ _ _ _ Hplace) as Hr. rewrite place_loop_spec in Hplace by auto.
    destruct (deepest first (segments c)) as [n|]; [|done]. destruct (placeable _ _); [|done]. injection Hplace as <-.
    split_and!; [done|by eexists|done]. }
  destruct (address_set_spec (filter (fun c => ends_with c partial = true) candidates)) as [Hsort Helem]; [rewrite Forall_forall in *; intros x [_ Hx]%list_elem_of_filter; auto|].
  assert (forall x, x ∈ address_set (filter (fun c => ends_with c partial = true) candidates) <->
    x ∈ candidates /\ segments partial `suffix_of` segments x /\ of_subject x = of_subject partial) as Hmatch.
  { intros x. rewrite Helem, list_elem_of_filter, ends_with_iff. tauto. }
  destruct (address_set _) as [|only [|c l]]; [done| |].
  - destruct (proj1 (Hmatch only) ltac:(set_solver)) as (Hin & Hm). rewrite Forall_forall in Hc. auto.
  - split_and!; [done|cbn; lia|done|done].
Qed.
End candidate_sets.
