(* ===== verification/Resolve.v ===== *)
(** Lenient input ([crates/flotilla-address/src/lenient.rs]): short forms, URLs,
    hosts and mixed case, resolved to the canonical address. What resolution
    gives is proved to be a whole address, and a fixed point of resolution. *)

From Stdlib Require Import Ascii.
From S2P Require Import Prelude Text Encoding Address Names.
#[local] Open Scope Z_scope.

Section resolve.
Context `{Lowercase} `{ForgeLookup}.

(** [lookup]: a forge by id, or by host, URL authority or SSH alias. *)
Definition lookup_forge (nm : text) : result Error Forge :=
  let lowered := to_ascii_lowercase nm in
  ok_or (match forge_by_id lowered with Some f => Some f | None => forge_by_host lowered end) (E_UnresolvedForge nm).

(** The part of [rebuild] before its loop: the address of the first segment,
    and of the second where the first takes it along. *)
Definition rebuild_start (kind : Kind.t) (value : text) (rest : list (Kind.t * text))
    : result Error (Address * list (Kind.t * text)) :=
  if decide (kind = Kind.Usage) then
    match rest with
    | (Kind.Account, account) :: rest => a ← usage value account; Ok (a, rest)
    | (k, _) :: _ => Err (E_Shape k (Some Kind.Usage))
    | [] => a ← root kind (normalise_usage value); Ok (a, [])
    end
  else if decide (kind = Kind.Forge) then
    f ← lookup_forge value;
    match rest with
    | (Kind.Repo, repo) :: rest => a ← repository f repo; Ok (a, rest)
    | (k, _) :: _ => Err (E_Shape k (Some Kind.Forge))
    | [] => a ← forge f; Ok (a, [])
    end
  else a ← root kind value; Ok (a, rest).

(** The [None]s of [kind] and [name] are their panics: an address built here has
    a segment. *)
Definition rebuild_end (a : Address) (o : option text) : result Error Address :=
  match o with
  | Some subject =>
      role ← ok_or (if decide (kind a = Some Kind.Artifact) then parent a else None) E_OfNotAfterArtifact;
      artifact role (default [] (name a)) subject
  | None => if decide (kind a = Some Kind.Artifact) then Err E_ArtifactWithoutSubject else Ok a
  end.

Definition rebuild (segs : list (Kind.t * text)) (o : option text) : result Error Address :=
  match segs with
  | [] => Err E_Empty
  | (kind, value) :: rest =>
      '(a, rest) ← rebuild_start kind value rest;
      a ← try_fold (fun a '(k, v) => child a k v) a rest;
      rebuild_end a o
  end.

Definition renormalise (a : Address) : result Error Address :=
  match get a Kind.Forge with
  | None => Ok a
  | Some f => match forge_by_id f with
              | None => Ok a
              | Some _ => rebuild (map (fun s => (seg_kind s, seg_value s)) (segments a)) (of_subject a)
              end
  end.

(** One piece of [resolve_segments]'s loop, over the segments and the subject so far. *)
Definition lenient_piece (st : list (Kind.t * text) * option text) (raw : text) : result Error (list (Kind.t * text) * option text) :=
  '(token, encoded) ← ok_or (split_once colon raw) (E_MalformedSegment raw);
  value ← decode_lenient encoded;
  match snd st with
  | Some _ => Err E_OfNotLast
  | None => if decide (token = OF) then Ok (fst st, Some value)
            else k ← kind_from_str (to_ascii_lowercase token); Ok (fst st ++ [(k, value)], None)
  end.
Definition resolve_segments (input : text) : result Error Address :=
  '(segs, o) ← try_fold lenient_piece ([], None) (split slash input); rebuild segs o.

Definition parse_number (value : text) : result Error Z :=
  let canonical := negb (bool_decide (value = [])) && canonical_digits value in
  ok_or (match parse_u64 value with Some n => if canonical then Some n else None | None => None end)
    (E_InvalidValue Kind.ChangeRequest value (tx "a number is decimal digits with no sign or leading zero")).

(** [collect] of decoded parts: the first error wins. *)
Fixpoint decode_all (parts : list text) : result Error (list text) :=
  match parts with
  | [] => Ok []
  | p :: parts => v ← decode_lenient p; vs ← decode_all parts; Ok (v :: vs)
  end.

Definition resolve_short (input : text) : result Error Address :=
  parts ← decode_all (split slash input);
  match parts with
  | word :: args =>
      if decide (word = tx "project") then match args with [nm] => project nm | _ => Err (E_Unrecognised input) end
      else if decide (word = tx "fleet") then match args with [nm] => fleet nm | _ => Err (E_Unrecognised input) end
      else if decide (word = tx "convoy") then match args with [nm] => convoy nm | _ => Err (E_Unrecognised input) end
      else if decide (word = tx "usage") then match args with [p; a] => usage p a | _ => Err (E_Unrecognised input) end
      else if bool_decide (word = tx "cr") || bool_decide (word = tx "issue") then
        match args with
        | [service; owner; repo; num] =>
            f ← lookup_forge service;
            n ← parse_number num;
            if decide (word = tx "cr") then change_request f (owner ++ slash :: repo) n
            else issue f (owner ++ slash :: repo) n
        | _ => Err (E_Unrecognised input)
        end
      else if decide (word = tx "artifact") then
        match args with
        | c :: r :: k :: (s :: subject) => a ← convoy c; a ← child a Kind.Role r; artifact a k (join [slash] (s :: subject))
        | _ => Err (E_Unrecognised input)
        end
      else Err (E_Unrecognised input)
  | [] => Err (E_Unrecognised input)
  end.

(** The host and path of a URL or an SSH remote, if the input is one. *)
Definition url_parts (input : text) : option (text * text) :=
  let scheme := match strip_prefix (tx "https://") input with Some r => Some r | None =>
                match strip_prefix (tx "http://") input with Some r => Some r | None =>
                strip_prefix (tx "ssh://") input end end in
  match scheme with
  | Some rest =>
      let '(authority, path) := default (rest, []) (split_once slash rest) in
      let host := match rsplit_once at_sign authority with Some (_, h) => h | None => authority end in
      Some (match split_once colon host with Some (h, _) => h | None => host end, path)
  | None =>
      match split_once colon input with
      | Some (user_host, path) =>
          if has at_sign user_host then Some (match rsplit_once at_sign user_host with Some (_, h) => h | None => user_host end, path) else None
      | None => None
      end
  end.

Definition resolve_url (input : text) : result Error (option Address) :=
  match url_parts input with
  | None => Ok None
  | Some (host, path) =>
      f ← ok_or (forge_by_host host) (E_UnresolvedForge host);
      let path := trim_end_matches slash (fst (span (fun c => negb (in_bytes 63 63 c || in_bytes 35 35 c)) path)) in
      a ← match split slash path with
          | [owner; repo] => repository f (owner ++ slash :: default repo (strip_suffix (tx ".git") repo))
          | owner :: repo :: word :: arg :: more =>
              if bool_decide (word = tx "pull") || bool_decide (word = tx "pulls") then
                n ← parse_number arg; change_request f (owner ++ slash :: repo) n
              else if decide (word = tx "issues") then
                n ← parse_number arg; issue f (owner ++ slash :: repo) n
              else if decide (word = tx "commit") then
                match more with
                | [] => a ← repository f (owner ++ slash :: repo); child a Kind.Commit (to_ascii_lowercase arg)
                | _ => Err (E_Unrecognised input)
                end
              else Err (E_Unrecognised input)
          | _ => Err (E_Unrecognised input)
          end;
      Ok (Some a)
  end.

Definition resolve (input : text) : result Error Address :=
  let input := trim input in
  match from_str input with
  | Ok a => renormalise a
  | Err _ =>
      r ← resolve_url input;
      match r with
      | Some a => Ok a
      | None => if has colon (default [] (head (split slash input))) then resolve_segments input else resolve_short input
      end
  end.
End resolve.

(** * Stable lowercasing, and repositories in canonical case *)

(** What lowercasing keeps of a repository's shape, and that it settles. *)
Class LowercaseStable `{Lowercase} : Prop := {
  lower_settles t : to_lowercase (to_lowercase t) = to_lowercase t;
  lower_slashes t : split slash (to_lowercase t) = map to_lowercase (split slash t);
  lower_nonempty t : to_lowercase t = [] -> t = [];
}.
Lemma lower_byte_settles : forall c, lower_byte (lower_byte c) = lower_byte c.
Proof. by_bytes. Qed.
Lemma lower_byte_slash : forall c, bool_decide (lower_byte c = slash) = bool_decide (c = slash).
Proof. by_bytes. Qed.
Lemma split_lower t : split slash (to_ascii_lowercase t) = map to_ascii_lowercase (split slash t).
Proof.
  induction t as [|c t IH]; [done|]. cbn [to_ascii_lowercase map split]. fold (to_ascii_lowercase t). rewrite IH.
  pose proof (lower_byte_slash c) as Hc. pose proof (split_not_nil slash t).
  case_decide; case_decide; try (rewrite bool_decide_true, bool_decide_false in Hc by done; done);
    try (rewrite bool_decide_false, bool_decide_true in Hc by done; done); destruct (split slash t); done.
Qed.
(** ASCII lowercasing is stable. *)
#[export] Instance ascii_stable : @LowercaseStable ascii_lowercase.
Proof.
  split.
  - intros t. cbn. unfold to_ascii_lowercase. rewrite map_map. apply map_ext, lower_byte_settles.
  - intros t. apply split_lower.
  - intros t. by destruct t.
Qed.

Lemma address_byte_solid c : address_byte c = true -> solid c = true.
Proof.
  assert (forall c, implb (address_byte c) (solid c) = true) as Hall by (apply byte_forall; vm_compute; reflexivity).
  intros Hc. specialize (Hall c). by rewrite Hc in Hall.
Qed.
Lemma address_byte_whitespace c u : address_byte c = true -> whitespace (c :: u) = 0%nat.
Proof. intros Hc. by apply solid_whitespace, address_byte_solid. Qed.
Lemma trim_address_bytes t : forallb address_byte t = true -> trim t = t.
Proof.
  intros Ht. unfold trim. assert (trim_start t = t) as ->.
  { apply trim_start_fixed. destruct t as [|c t]; [done|]. cbn in Ht. apply andb_true_iff in Ht as [Hc _]. by apply address_byte_whitespace. }
  induction t as [|c t IH]; [done|]. cbn [forallb] in Ht. apply andb_true_iff in Ht as [Hc Ht]. cbn [trim_end].
  rewrite trim_start_fixed by by apply address_byte_whitespace. by rewrite IH.
Qed.

Section stable.
Context `{Lowercase} `{ForgeLookup} `{!LowercaseStable}.

Lemma validate_repository_iff k r : validate_repository k r = Ok () <-> exists owner nm, split slash r = [owner; nm] /\ owner <> [] /\ nm <> [].
Proof.
  assert (validate_repository k r = validate_repository Github r) as -> by by destruct k. unfold validate_repository.
  destruct (split_once slash r) as [[x y]|] eqn:Hs.
  - apply split_once_Some in Hs as [-> Hx]. rewrite split_app, (split_free slash x Hx). destruct (has slash y) eqn:Hy.
    + rewrite andb_false_r. split; [done|]. intros (o & n & Heq & _). cbn in Heq. injection Heq as _ Heq.
      assert (y = n) as -> by (rewrite <-(join_split slash y), Heq; done).
      assert (has slash n = false) as Hn by (apply (split_parts_free slash n n); rewrite Heq; set_solver). congruence.
    + rewrite (split_free slash y Hy). cbn. rewrite andb_true_r. destruct (decide (x = [])), (decide (y = [])); rewrite ?bool_decide_true, ?bool_decide_false by done; cbn; naive_solver.
  - apply split_once_None in Hs. rewrite split_free by done. split; [done|]. by intros (o & n & Heq & _).
Qed.
Lemma validate_lower k r : validate_repository k r = Ok () -> validate_repository Github (to_lowercase r) = Ok ().
Proof.
  rewrite !validate_repository_iff, lower_slashes. intros (o & n & -> & Ho & Hn). exists (to_lowercase o), (to_lowercase n). split; [done|].
  split; by intros ?%lower_nonempty.
Qed.

(** The repository of an address on a forge is in its canonical case and shape. *)
Definition repo_normal (segs : list Segment) : Prop := forall f r rest,
  segs = mkSegment Kind.Forge f :: mkSegment Kind.Repo r :: rest -> validate_repository Github r = Ok () /\ to_lowercase r = r.

Lemma repo_normal_prefix segs rest : repo_normal (segs ++ rest) -> repo_normal segs.
Proof. intros Hn f r more ->. eapply Hn. by rewrite <-!app_comm_cons. Qed.
Lemma repo_normal_snoc segs k v : repo_normal segs -> k <> Kind.Repo -> repo_normal (segs ++ [mkSegment k v]).
Proof.
  intros Hn Hk f r rest. destruct segs as [|s1 [|s2 segs]]; cbn; intros Heq; [done|by simplify_eq|]. injection Heq as -> -> _. by eapply Hn.
Qed.
Lemma root_normal k v a : utf8 v = true -> root k v = Ok a -> repo_normal (segments a).
Proof. intros Hu (_ & _ & ->)%root_built; [|done]. done. Qed.
Lemma child_normal a k v b : built a -> utf8 v = true -> repo_normal (segments a) -> child a k v = Ok b -> repo_normal (segments b).
Proof.
  intros Ha Hu Hn Hc. assert (k <> Kind.Repo) as Hk by (intros ->; by unfold child in Hc; rewrite decide_True in Hc).
  apply child_built in Hc as (_ & _ & ->); [|done|done]. by apply repo_normal_snoc.
Qed.
Lemma repository_normal f r a : forge_ok f -> utf8 r = true -> repository f r = Ok a -> repo_normal (segments a).
Proof.
  intros Hf Hu Hr. pose proof Hr as Hr'. unfold repository in Hr'. destruct (validate_repository (forge_kind f) r) as [[]|] eqn:Hv; [|done].
  apply repository_complete in Hr as (_ & _ & ->); [|done|done]. intros f' r' rest [= _ <- _].
  replace (normalise_repository (forge_kind f) r) with (to_lowercase r) by by destruct (forge_kind f).
  split; [by eapply validate_lower|apply lower_settles].
Qed.

Lemma artifact_normal a k v b : built a -> utf8 k = true -> utf8 v = true -> repo_normal (segments a) -> artifact a k v = Ok b ->
  repo_normal (segments b).
Proof. intros Ha Hk Hv Hn (_ & _ & ->)%artifact_complete; [|done|done|done]. by apply repo_normal_snoc. Qed.
Lemma usage_normal p v a : utf8 p = true -> utf8 v = true -> usage p v = Ok a -> repo_normal (segments a).
Proof. intros Hp Hv (_ & ->)%usage_complete; [|done|done]. done. Qed.
Lemma numbered_normal f r k n a : forge_ok f -> utf8 r = true -> is_u64 n -> numbered k = true ->
  (b ← repository f r; child b k (u64_to_string n)) = Ok a -> repo_normal (segments a).
Proof.
  intros Hf Hr Hn Hk. run_step. pose proof (repository_normal f r x Hf Hr E) as Hx. apply repository_complete in E as (Hc & _); [|done|done].
  apply child_normal; [apply Hc|by apply printed_utf8|done].
Qed.

End stable.

(** * What resolution gives is whole *)

Section sound.
Context `{Lowercase} `{ForgeLookup}.

Lemma forge_by_id_ok id f : forge_by_id id = Some f -> forge_ok f /\ forge_id f = id.
Proof.
  unfold forge_by_id. case_decide as Hid.
  - intros [= <-]. split; [apply forge_github_ok|done].
  - intros Hf. split; [by eapply lookup_by_id_ok|by eapply lookup_by_id_is].
Qed.
Lemma forge_by_host_ok host f : forge_by_host host = Some f -> forge_ok f.
Proof.
  unfold forge_by_host. destruct (lookup_by_host _) as [g|] eqn:Hg; [intros [= <-]; by eapply lookup_by_host_ok|].
  case_match; [|done]. intros [= <-]. apply forge_github_ok.
Qed.
Lemma lookup_forge_ok nm f : lookup_forge nm = Ok f -> forge_ok f.
Proof.
  unfold lookup_forge. rewrite ok_or_Ok. destruct (forge_by_id _) as [g|] eqn:Hg.
  - intros [= <-]. by apply forge_by_id_ok in Hg as [Hg _].
  - apply forge_by_host_ok.
Qed.

Lemma numbered_child_complete a k n b : built a -> is_u64 n -> numbered k = true -> child a k (u64_to_string n) = Ok b -> complete b.
Proof.
  intros Ha Hn Hk Hc. eapply child_kind_ok; [exact Ha| |exact Hc|by intros ->]. by apply printed_utf8.
Qed.
Lemma change_request_complete f r n a : forge_ok f -> utf8 r = true -> is_u64 n -> change_request f r n = Ok a -> complete a.
Proof.
  intros Hf Hr Hn. unfold change_request. destruct (repository f r) as [b|] eqn:Hb; [|done]. cbn. intros Hc.
  apply repository_complete in Hb as (Hb & _); [|done|done]. by eapply numbered_child_complete; [apply Hb|exact Hn| |exact Hc].
Qed.
Lemma issue_complete f r n a : forge_ok f -> utf8 r = true -> is_u64 n -> issue f r n = Ok a -> complete a.
Proof.
  intros Hf Hr Hn. unfold issue. destruct (repository f r) as [b|] eqn:Hb; [|done]. cbn. intros Hc.
  apply repository_complete in Hb as (Hb & _); [|done|done]. by eapply numbered_child_complete; [apply Hb|exact Hn| |exact Hc].
Qed.
Lemma root_kind_complete k v a : utf8 v = true -> root k v = Ok a -> k <> Kind.Artifact -> complete a.
Proof. intros Hv Ha Hk. by eapply child_kind_ok; [apply empty_built|exact Hv|exact Ha|]. Qed.

Lemma parse_number_u64 v n : parse_number v = Ok n -> is_u64 n.
Proof.
  unfold parse_number. rewrite ok_or_Ok. destruct (parse_u64 v) as [m|] eqn:Hp; [|done].
  destruct (negb _ && canonical_digits v) eqn:Hc; [|done]. intros [= <-]. apply andb_true_iff in Hc as [Hne%negb_true_iff%bool_decide_eq_false Hc].
  by apply (u64_round_trip v m Hne).
Qed.

Definition texts_ok (l : list (Kind.t * text)) : Prop := Forall (fun p => utf8 p.2 = true) l.

Lemma rebuild_start_built k v rest a rest' : utf8 v = true -> texts_ok rest -> rebuild_start k v rest = Ok (a, rest') ->
  built a /\ segments a <> [] /\ of_subject a = None /\ texts_ok rest'.
Proof.
  intros Hv Hr. unfold rebuild_start. case_decide as Hk.
  { destruct rest as [|[k' v'] rest].
    - destruct (root k (normalise_usage v)) as [b|] eqn:Hb; [|done]. cbn. intros [= <- <-].
      apply root_built in Hb as (Hb & Ho & Hs); [|by apply normalise_usage_utf8]. by rewrite Hs.
    - apply Forall_cons in Hr as [Hv' Hr]. destruct k'; try done. destruct (usage v v') as [b|] eqn:Hb; [|done]. cbn. intros [= <- <-].
      apply usage_complete in Hb as (Hb & Hs); [|done|done]. destruct Hb as [Hb Hne _]. split_and!; try done.
      pose proof (built_subject b Hb) as Hsub. destruct (of_subject b); [|done]. destruct Hsub as [Hl _]. by rewrite Hs in Hl. }
  case_decide as Hk'.
  { destruct (lookup_forge v) as [f|] eqn:Hf; [|done]. apply lookup_forge_ok in Hf. cbn [mbind result_bind]. destruct rest as [|[k' v'] rest].
    - destruct (forge_address_ok f Hf) as (b & -> & [Hb Hne _] & Ho & Hs). cbn. intros [= <- <-]. done.
    - apply Forall_cons in Hr as [Hv' Hr]. destruct k'; try done. destruct (repository f v') as [b|] eqn:Hb; [|done]. cbn. intros [= <- <-].
      apply repository_complete in Hb as ([Hb Hne _] & Ho & _); done. }
  destruct (root k v) as [b|] eqn:Hb; [|done]. cbn. intros [= <- <-]. apply root_built in Hb as (Hb & Ho & Hs); [|done]. by rewrite Hs.
Qed.
Lemma children_built rest a b : texts_ok rest -> built a -> segments a <> [] -> of_subject a = None ->
  try_fold (fun a '(k, v) => child a k v) a rest = Ok b -> built b /\ segments b <> [] /\ of_subject b = None.
Proof.
  revert a. induction rest as [|[k v] rest IH]; intros a Hr Ha Hne Ho; cbn; [by intros [= <-]|]. apply Forall_cons in Hr as [Hv Hr].
  destruct (child a k v) as [c|] eqn:Hc; [|done]. apply child_built in Hc as (Hc & Hoc & Hs); [|done|done]. apply IH; try done.
  rewrite Hs. by destruct (segments a).
Qed.
Lemma rebuild_end_complete a o b : built a -> segments a <> [] -> of_subject a = None -> (forall s, o = Some s -> utf8 s = true) ->
  rebuild_end a o = Ok b -> complete b.
Proof.
  intros Ha Hne Ho Hs. unfold rebuild_end, kind. destruct o as [s|].
  - case_decide as Hk; [|done]. destruct (parent a) as [p|] eqn:Hp; [|done]. cbn [ok_or mbind result_bind].
    apply parent_iff in Hp as ([Hp _ _] & _ & sg & Hseg); [|done|done]. intros Hb. eapply artifact_complete in Hb; [apply Hb|done| |by apply Hs].
    pose proof (built_segments a Ha) as Hok. rewrite Hseg in Hok. apply segments_ok_snoc_inv in Hok as [_ [_ Hu _ _ _]].
    unfold name. by rewrite Hseg, last_snoc.
  - case_decide as Hk; [done|]. intros [= <-]. by split.
Qed.
Lemma rebuild_complete segs o a : texts_ok segs -> (forall s, o = Some s -> utf8 s = true) -> rebuild segs o = Ok a -> complete a.
Proof.
  intros Hs Ho. unfold rebuild. destruct segs as [|[k v] rest]; [done|]. apply Forall_cons in Hs as [Hv Hr].
  destruct (rebuild_start k v rest) as [[b rest']|] eqn:Hb; [|done]. cbn [mbind result_bind].
  apply rebuild_start_built in Hb as (Hb & Hne & Hob & Hr'); [|done|done].
  destruct (try_fold _ b rest') as [c|] eqn:Hc; [|done]. cbn [mbind result_bind].
  apply children_built in Hc as (Hc & Hnc & Hoc); try done. by apply rebuild_end_complete.
Qed.

End sound.

Section normal.
Context `{Lowercase} `{ForgeLookup} `{!LowercaseStable}.

Lemma rebuild_start_normal k v rest a rest' : utf8 v = true -> texts_ok rest -> rebuild_start k v rest = Ok (a, rest') -> repo_normal (segments a).
Proof.
  intros Hv Hr. unfold rebuild_start. case_decide.
  { destruct rest as [|[k' v'] rest].
    - run_step. intros [= <- <-]. eapply root_normal; [|exact E]. by apply normalise_usage_utf8.
    - apply Forall_cons in Hr as [Hv' _]. destruct k'; try done. run_step. intros [= <- <-]. eapply usage_normal; [| |exact E]; done. }
  case_decide.
  { run_step. apply lookup_forge_ok in E. destruct rest as [|[k' v'] rest].
    - destruct (forge_address_ok x E) as (b & -> & _ & _ & Hs). cbn. intros [= <- <-]. by rewrite Hs.
    - apply Forall_cons in Hr as [Hv' _]. destruct k'; try done. run_step. intros [= <- <-]. eapply repository_normal; [| |exact E0]; done. }
  run_step. intros [= <- <-]. eapply root_normal; [|exact E]; done.
Qed.
Lemma children_normal rest a b : texts_ok rest -> built a -> repo_normal (segments a) ->
  try_fold (fun a '(k, v) => child a k v) a rest = Ok b -> repo_normal (segments b).
Proof.
  revert a. induction rest as [|[k v] rest IH]; intros a Hr Ha Hn; cbn; [by intros [= <-]|]. apply Forall_cons in Hr as [Hv Hr].
  destruct (child a k v) as [c|] eqn:Hc; [|done]. pose proof (child_normal _ _ _ _ Ha Hv Hn Hc) as Hnc.
  apply child_built in Hc as (Hc & _); [|done|done]. by apply IH.
Qed.
Lemma rebuild_normal segs o a : texts_ok segs -> (forall s, o = Some s -> utf8 s = true) -> rebuild segs o = Ok a -> repo_normal (segments a).
Proof.
  intros Hs Ho. unfold rebuild. destruct segs as [|[k v] rest]; [done|]. apply Forall_cons in Hs as [Hv Hr].
  destruct (rebuild_start k v rest) as [[b rest']|] eqn:Hb; [|done]. cbn [mbind result_bind].
  pose proof (rebuild_start_normal _ _ _ _ _ Hv Hr Hb) as Hnb. apply rebuild_start_built in Hb as (Hb & Hne & Hob & Hr'); [|done|done].
  run_step. pose proof (children_normal _ _ _ Hr' Hb Hnb E) as Hnx. apply children_built in E as (Hx & Hnex & Hox); try done.
  unfold rebuild_end. destruct o as [s|].
  - run_step. rewrite ok_or_Ok in E. case_decide; [|done].
    apply parent_iff in E as ([Hp _ _] & _ & sg & Hseg); [|done|done]. rewrite Hseg in Hnx. apply repo_normal_prefix in Hnx.
    apply artifact_normal; [done| |by apply Ho|done].
    pose proof (built_segments x Hx) as Hok. rewrite Hseg in Hok. apply segments_ok_snoc_inv in Hok as [_ [_ Hu _ _ _]].
    unfold name. by rewrite Hseg, last_snoc.
  - case_decide; [done|]. by intros [= <-].
Qed.
End normal.

Section outcome.
Context `{Lowercase} `{ForgeLookup}.

(** What the functions below give: a whole address, its repository in canonical
    case and shape once lowercasing is stable. *)
Definition settled (a : Address) : Prop := complete a /\ (LowercaseStable -> repo_normal (segments a)).

Lemma root_settled k v a : utf8 v = true -> k <> Kind.Artifact -> root k v = Ok a -> settled a.
Proof. intros Hv Hk Ha. split; [by eapply root_kind_complete|]. intros _. by eapply root_normal. Qed.
Lemma usage_settled p v a : utf8 p = true -> utf8 v = true -> usage p v = Ok a -> settled a.
Proof. intros Hp Hv Ha. split; [by apply usage_complete in Ha as [Ha _]|]. intros _. by apply (usage_normal p v). Qed.
Lemma repository_settled f r a : forge_ok f -> utf8 r = true -> repository f r = Ok a -> settled a.
Proof. intros Hf Hr Ha. split; [by apply repository_complete in Ha as [Ha _]|]. intros ?. by apply (repository_normal f r). Qed.
Lemma change_request_settled f r n a : forge_ok f -> utf8 r = true -> is_u64 n -> change_request f r n = Ok a -> settled a.
Proof. intros Hf Hr Hn Ha. split; [by eapply change_request_complete|]. intros ?. by apply (numbered_normal f r Kind.ChangeRequest n). Qed.
Lemma issue_settled f r n a : forge_ok f -> utf8 r = true -> is_u64 n -> issue f r n = Ok a -> settled a.
Proof. intros Hf Hr Hn Ha. split; [by eapply issue_complete|]. intros ?. by apply (numbered_normal f r Kind.Issue n). Qed.
Lemma rebuild_settled segs o a : texts_ok segs -> (forall s, o = Some s -> utf8 s = true) -> rebuild segs o = Ok a -> settled a.
Proof. intros Hs Ho Ha. split; [by eapply rebuild_complete|]. intros ?. by eapply rebuild_normal. Qed.
Lemma child_settled a k v b : settled a -> utf8 v = true -> k <> Kind.Artifact -> child a k v = Ok b -> settled b.
Proof.
  intros [[Ha _ _] Hn] Hv Hk Hb. split; [by eapply child_kind_ok|]. intros Hst. eapply child_normal; [exact Ha|exact Hv|by apply Hn|exact Hb].
Qed.
Lemma artifact_settled a k v b : settled a -> utf8 k = true -> utf8 v = true -> artifact a k v = Ok b -> settled b.
Proof.
  intros [[Ha _ _] Hn] Hk Hv Hb. split; [by apply artifact_complete in Hb as [Hb _]|]. intros Hst.
  eapply artifact_normal; [exact Ha|exact Hk|exact Hv|by apply Hn|exact Hb].
Qed.

Lemma segment_texts_ok a : complete a -> texts_ok (map (fun s => (seg_kind s, seg_value s)) (segments a)).
Proof.
  intros [[Hok _ _] _ _]. unfold texts_ok. induction Hok as [|segs s _ IH Hs]; [constructor|].
  rewrite map_app. apply Forall_app. split; [done|]. constructor; [apply Hs|constructor].
Qed.
Lemma subject_utf8 a s : complete a -> of_subject a = Some s -> utf8 s = true.
Proof. intros [[_ Hsub _] _ _] Hs. rewrite Hs in Hsub. apply Hsub. Qed.
Lemma renormalise_complete a b : complete a -> renormalise a = Ok b -> complete b.
Proof.
  intros Ha. unfold renormalise. destruct (get a Kind.Forge) as [f|]; [|by intros [= <-]].
  destruct (forge_by_id f); [|by intros [= <-]].
  apply rebuild_complete; [by apply segment_texts_ok|]. intros s. by apply subject_utf8.
Qed.
Lemma resolve_segments_settled input a : resolve_segments input = Ok a -> settled a.
Proof.
  unfold resolve_segments.
  assert (forall l st st', texts_ok st.1 -> (forall s, st.2 = Some s -> utf8 s = true) -> try_fold lenient_piece st l = Ok st' ->
    texts_ok st'.1 /\ (forall s, st'.2 = Some s -> utf8 s = true)) as Hfold.
  { intros l. induction l as [|raw l IH]; intros st st' H1 H2; cbn [try_fold]; [by intros [= <-]|]. unfold lenient_piece.
    destruct (split_once colon raw) as [[token enc]|]; [|done]. cbn [ok_or mbind result_bind].
    destruct (decode_lenient enc) as [v|] eqn:Hv; [|done]. apply decode_utf8 in Hv. cbn [mbind result_bind].
    destruct st as [segs [|]]; cbn [fst snd]; [done|]. case_decide.
    - apply IH; [done|]. cbn. intros s [= <-]. done.
    - destruct (kind_from_str _) as [k|]; [|done]. cbn [mbind result_bind]. apply IH; [|done]. cbn. apply Forall_app. split; [done|]. by repeat constructor. }
  destruct (try_fold lenient_piece ([], None) (split slash input)) as [[segs o]|] eqn:Ht; [|done]. cbn [mbind result_bind].
  apply Hfold in Ht as [Hs Ho]; [|constructor|done]. by apply rebuild_settled.
Qed.

Lemma decode_all_utf8 parts vs : decode_all parts = Ok vs -> Forall (fun v => utf8 v = true) vs.
Proof.
  revert vs. induction parts as [|p parts IH]; intros vs; cbn; [by intros [= <-]|]. destruct (decode_lenient p) as [v|] eqn:Hv; [|done]. cbn.
  destruct (decode_all parts) as [ws|]; [|done]. cbn. intros [= <-]. apply decode_utf8 in Hv. by constructor; [|apply IH].
Qed.
Lemma utf8_repo owner repo : utf8 owner = true -> utf8 repo = true -> utf8 (owner ++ slash :: repo) = true.
Proof. intros Ho Hr. by apply utf8_cut. Qed.

Lemma resolve_short_settled input a : resolve_short input = Ok a -> settled a.
Proof.
  unfold resolve_short. run_step. apply decode_all_utf8 in E. destruct x as [|word args]; [done|]. apply Forall_cons in E as [_ Hargs].
  repeat (case_decide; [destruct args as [|v1 [|]]; try done; apply Forall_cons in Hargs as [Hv1 _]; by apply root_settled|]).
  case_decide.
  { destruct args as [|v1 [|v2 [|]]]; try done. rewrite !Forall_cons in Hargs. destruct Hargs as (Hv1 & Hv2 & _).
    by apply usage_settled. }
  destruct (_ || _).
  { destruct args as [|v1 [|v2 [|v3 [|v4 [|]]]]]; try done. rewrite !Forall_cons in Hargs. destruct Hargs as (Hv1 & Hv2 & Hv3 & Hv4 & _).
    run_step. apply lookup_forge_ok in E. run_step. apply parse_number_u64 in E0.
    case_decide; [apply change_request_settled|apply issue_settled]; try done; by apply utf8_repo. }
  case_decide; [|done]. destruct args as [|c [|r [|k [|s subject]]]]; try done. rewrite 3!Forall_cons in Hargs. destruct Hargs as (Hc & Hr & Hk & Hs).
  run_step. apply root_settled in E; [|done|done]. run_step. apply child_settled in E0; [|done|done|done].
  by apply artifact_settled; [|done|apply utf8_join].
Qed.

Lemma strip_prefix_utf8 p t r : forallb is_ascii p = true -> utf8 t = true -> strip_prefix p t = Some r -> utf8 r = true.
Proof.
  intros Hp Ht ->%strip_prefix_Some. induction p as [|c p IH]; [done|]. cbn in Hp. apply andb_true_iff in Hp as [Hc Hp].
  cbn [app] in Ht. rewrite utf8_cons in Ht by done. auto.
Qed.
Lemma split_once_utf8 c t x y : is_ascii c = true -> utf8 t = true -> split_once c t = Some (x, y) -> utf8 x = true /\ utf8 y = true.
Proof. intros Hc Ht [-> _]%split_once_Some. by apply utf8_cut in Ht. Qed.
Lemma url_parts_utf8 input host path : utf8 input = true -> url_parts input = Some (host, path) -> utf8 path = true.
Proof.
  intros Hu. unfold url_parts.
  assert (forall rest, utf8 rest = true ->
    (let '(authority, path) := default (rest, []) (split_once slash rest) in
     let h := match rsplit_once at_sign authority with Some (_, h) => h | None => authority end in
     Some (match split_once colon h with Some (h, _) => h | None => h end, path)) = Some (host, path) -> utf8 path = true) as Hrest.
  { intros rest Hr. destruct (split_once slash rest) as [[x y]|] eqn:Hs; cbn; intros [= _ <-]; [|done]. by apply split_once_utf8 in Hs as [_ Hy]. }
  destruct (strip_prefix (tx "https://") input) as [r|] eqn:H1; [by apply Hrest, (strip_prefix_utf8 (tx "https://") input)|].
  destruct (strip_prefix (tx "http://") input) as [r|] eqn:H2; [by apply Hrest, (strip_prefix_utf8 (tx "http://") input)|].
  destruct (strip_prefix (tx "ssh://") input) as [r|] eqn:H3; [by apply Hrest, (strip_prefix_utf8 (tx "ssh://") input)|].
  destruct (split_once colon input) as [[x y]|] eqn:Hs; [|done]. destruct (has at_sign x); [|done]. intros [= _ <-].
  by apply split_once_utf8 in Hs as [_ Hy].
Qed.
Lemma span_utf8 f t : utf8 t = true -> (forall c, f c = false -> is_ascii c = true) -> utf8 (fst (span f t)) = true.
Proof.
  intros Ht Hf. destruct (span f t) as [x y] eqn:Hs. apply span_spec in Hs as (-> & _ & Hy). cbn. apply utf8_app_inv in Ht; [by apply Ht|].
  destruct y as [|c y]; [done|]. cbn. by rewrite ascii_starts by auto.
Qed.
Lemma trim_end_matches_utf8 c t : is_ascii c = true -> utf8 t = true -> utf8 (trim_end_matches c t) = true.
Proof.
  intros Hc Ht. unfold trim_end_matches. destruct (span _ (rev t)) as [x y] eqn:Hs. apply span_spec in Hs as (Heq & Hx & _). cbn.
  apply (f_equal (@rev ascii)) in Heq. rewrite rev_involutive, rev_app_distr in Heq. rewrite Heq in Ht. apply utf8_app_inv in Ht; [by apply Ht|].
  destruct (rev x) as [|d u] eqn:Hr; [done|]. cbn. rewrite ascii_starts; [done|]. rewrite forallb_elem in Hx.
  assert (d ∈ x) as Hd by (rewrite list_elem_of_In, in_rev, Hr; by left). apply Hx, bool_decide_eq_true in Hd as ->. done.
Qed.
Lemma strip_git_utf8 r : utf8 r = true -> utf8 (default r (strip_suffix (tx ".git") r)) = true.
Proof. intros Hr. destruct (strip_suffix _ r) as [q|] eqn:Hq; [|done]. apply strip_suffix_Some in Hq. cbn. rewrite Hq in Hr. by apply utf8_app_inv in Hr as [Hr _]. Qed.
Lemma resolve_url_settled input a : utf8 input = true -> resolve_url input = Ok (Some a) -> settled a.
Proof.
  intros Hu. unfold resolve_url. destruct (url_parts input) as [[host path]|] eqn:Hp; [|done]. apply url_parts_utf8 in Hp; [|done].
  run_step. apply ok_or_Ok, forge_by_host_ok in E.
  set (p := trim_end_matches slash _).
  assert (utf8 p = true) as Hup.
  { apply trim_end_matches_utf8; [done|]. apply span_utf8; [done|]. intros c Hc. apply negb_false_iff, orb_true_iff in Hc.
    unfold is_ascii. apply Z.ltb_lt. destruct Hc as [Hc|Hc]; apply andb_true_iff in Hc as [_ Hc%Z.leb_le]; lia. }
  pose proof (utf8_split slash p eq_refl Hup) as Hs. destruct (split slash p) as [|owner [|repo rest]]; [done|done|].
  rewrite !Forall_cons in Hs. destruct Hs as (Ho & Hr & Hrest).
  pose proof (utf8_repo owner repo Ho Hr) as Hor.
  destruct rest as [|word [|arg more]].
  - run_step. intros [= <-]. eapply repository_settled; [exact E| |exact E0]. by apply utf8_repo, strip_git_utf8.
  - done.
  - destruct (_ || _).
    { run_step. intros [= <-]. revert E0. run_step. apply parse_number_u64 in E0. by apply change_request_settled. }
    case_decide.
    { run_step. intros [= <-]. revert E0. run_step. apply parse_number_u64 in E0. by apply issue_settled. }
    case_decide; [|done]. destruct more; [|done]. run_step. intros [= <-]. revert E0. run_step. rewrite !Forall_cons in Hrest.
    apply repository_settled in E0; [|done|done]. apply child_settled; [done| |done]. apply utf8_lower, Hrest.
Qed.

Lemma resolve_other input a : utf8 input = true ->
  (r ← resolve_url input;
   match r with
   | Some a => Ok a
   | None => if has colon (default [] (head (split slash input))) then resolve_segments input else resolve_short input
   end) = Ok a -> settled a.
Proof.
  intros Hu. run_step. destruct x as [b|]; [intros [= <-]; by eapply resolve_url_settled|].
  case_match; [apply resolve_segments_settled|apply resolve_short_settled].
Qed.

(** Whatever typed or pasted text resolution accepts, in canonical shape, as a
    URL, as lenient segments or as a short form, the address it gives is whole:
    its text is canonical and parses back to it. *)
Theorem resolve_whole input a : utf8 input = true -> resolve input = Ok a -> complete a /\ from_str (as_str a) = Ok a.
Proof.
  intros Hu Hr. assert (complete a) as Ha; [|split; [done|by apply from_str_Ok]]. revert Hr. unfold resolve.
  pose proof (trim_utf8 input Hu) as Ht. destruct (from_str (trim input)) as [b|] eqn:Hb.
  { apply renormalise_complete. by apply from_str_Ok in Hb as [Hb _]. }
  intros Hr. by apply resolve_other in Hr as [Hr _].
Qed.
End outcome.

(** * Resolution is stable *)

Section fixed_point.
Context `{Lowercase} `{ForgeLookup} `{!LowercaseStable}.

Lemma forge_id_lower id : validate_forge_id id = Ok () -> to_ascii_lowercase id = id.
Proof.
  unfold validate_forge_id. destruct (_ && forallb _ id) eqn:Hv; [|done]. intros _. apply andb_true_iff in Hv as [_ Hv].
  assert (forall c, implb (is_lower c || is_digit c || bool_decide (c = dash)) (bool_decide (lower_byte c = c)) = true) as Hall.
  { apply byte_forall. vm_compute. reflexivity. }
  induction id as [|c id IH]; [done|]. cbn [forallb] in Hv. apply andb_true_iff in Hv as [Hc Hv]. cbn. f_equal; [|by apply IH].
  specialize (Hall c). rewrite Hc in Hall. by apply bool_decide_eq_true in Hall.
Qed.

(** A forge segment is the first, and only a repository and one thing in it follow. *)
Lemma forge_at_head segs s : segments_ok segs -> s ∈ segs -> seg_kind s = Kind.Forge -> head segs = Some s.
Proof.
  intros Hok Hin Hk. induction Hok as [|segs t Hok IH [Ht _ _ _ _]]; [set_solver|]. apply elem_of_app in Hin as [Hin|Hin%list_elem_of_singleton].
  - specialize (IH Hin). by destruct segs.
  - subst t. rewrite Hk in Ht. destruct (last_kind segs) eqn:Hl; [done|]. by apply last_kind_nil in Hl as ->.
Qed.
Definition in_repository (k : Kind.t) : bool :=
  match k with Kind.ChangeRequest | Kind.Issue | Kind.Comment | Kind.Commit | Kind.Ref => true | _ => false end.
Lemma forge_shape segs f : segments_ok segs -> head segs = Some (mkSegment Kind.Forge f) ->
  segs = [mkSegment Kind.Forge f] \/ (exists r, segs = [mkSegment Kind.Forge f; mkSegment Kind.Repo r]) \/
  (exists r k v, segs = [mkSegment Kind.Forge f; mkSegment Kind.Repo r; mkSegment k v] /\ in_repository k = true).
Proof.
  intros Hok Hh. induction Hok as [|segs t Hok IH [Ht _ _ _ _]]; [done|]. destruct (decide (segs = [])) as [->|Hne].
  { cbn in Hh. injection Hh as ->. by left. }
  assert (head segs = Some (mkSegment Kind.Forge f)) as Hh' by by destruct segs. destruct t as [k v].
  destruct (IH Hh') as [->|[[r ->]|(r & k' & v' & -> & Hk)]]; cbn in Ht.
  - right. left. exists v. by destruct k.
  - right. right. exists r, k, v. split; [done|]. by destruct k.
  - by destruct k', k.
Qed.
Lemma get_forge a f : complete a -> get a Kind.Forge = Some f -> head (segments a) = Some (mkSegment Kind.Forge f) /\ validate_forge_id f = Ok ().
Proof.
  intros [[Hok _ _] _ _]. unfold get. destruct (List.find _ (segments a)) as [[k v]|] eqn:Hs; [|done]. intros [= <-].
  apply List.find_some in Hs as [Hin Hk%bool_decide_eq_true]. cbn in Hk. subst k. apply list_elem_of_In in Hin.
  pose proof (forge_at_head _ _ Hok Hin eq_refl) as Hh. split; [done|]. clear Hin. induction Hok as [|segs s Hok IH Hs]; [done|].
  destruct (decide (segs = [])) as [->|Hne]; [|apply IH; by destruct segs]. cbn in Hh. injection Hh as ->. destruct Hs as [_ _ Hv _ _].
  unfold validate_value in Hv. cbn in Hv. by destruct (decide (v = [])).
Qed.

(** Rebuilding an address on a known forge, its repository canonical, gives it back. *)
Lemma child_again a b k v : complete b -> of_subject b = None -> segments b = segments a ++ [mkSegment k v] ->
  built a -> of_subject a = None -> k <> Kind.Repo -> child a k v = Ok b.
Proof.
  intros Hb Hob Hs Ha Hoa Hk. unfold child. rewrite decide_False by done.
  pose proof (built_segments _ (complete_built _ Hb)) as Hok. rewrite Hs in Hok. apply segments_ok_snoc_inv in Hok as [_ Hok].
  apply push_Ok; [done|apply Hok|]. split_and!; try done. by rewrite (built_text b (complete_built _ Hb)), Hob.
Qed.
Lemma repository_again f r a : forge_ok f -> complete a -> of_subject a = None -> repo_normal (segments a) ->
  segments a = [mkSegment Kind.Forge (forge_id f); mkSegment Kind.Repo r] -> repository f r = Ok a.
Proof.
  intros Hf Ha Ho Hn Hs. destruct (Hn _ _ [] Hs) as [Hv Hl]. unfold repository.
  assert (validate_repository (forge_kind f) r = Ok ()) as -> by by destruct (forge_kind f). cbn [mbind result_bind].
  destruct (forge_address_ok f Hf) as (b & -> & Hb & Hob & Hsb). cbn [mbind result_bind].
  replace (normalise_repository (forge_kind f) r) with r by by destruct (forge_kind f).
  pose proof (built_segments _ (complete_built _ Ha)) as Hok. rewrite Hs in Hok.
  change [mkSegment Kind.Forge (forge_id f); mkSegment Kind.Repo r] with ([mkSegment Kind.Forge (forge_id f)] ++ [mkSegment Kind.Repo r]) in *.
  apply segments_ok_snoc_inv in Hok as [_ Hok]. rewrite <-Hsb in Hok, Hs.
  apply push_Ok; [apply Hb|apply Hok|]. split_and!; try done. by rewrite (built_text a (complete_built _ Ha)), Ho.
Qed.
Lemma prefix_complete a segs s : complete a -> segments a = segs ++ [s] -> segs <> [] -> complete (address_of segs None).
Proof. intros Ha Hs Hne. by destruct (parent_of_snoc a segs s Ha Hs Hne). Qed.

Lemma rebuild_again a f fid : complete a -> forge_ok f -> forge_id f = fid -> forge_by_id fid = Some f ->
  head (segments a) = Some (mkSegment Kind.Forge fid) -> validate_forge_id fid = Ok () -> repo_normal (segments a) ->
  rebuild (map (fun s => (seg_kind s, seg_value s)) (segments a)) (of_subject a) = Ok a.
Proof.
  intros Ha Hf <- Hid Hh Hv Hn. pose proof (forge_shape _ _ (built_segments _ (complete_built _ Ha)) Hh) as Hshape.
  assert (last_kind (segments a) <> Some Kind.Artifact) as Hlast.
  { destruct Hshape as [->|[[r ->]|(r & k & v & -> & Hk)]]; cbn; [done|done|]. intros [= ->]. done. }
  assert (of_subject a = None) as Ho.
  { pose proof (built_subject _ (complete_built _ Ha)) as Hs. destruct (of_subject a); [|done]. by destruct Hs. }
  assert (lookup_forge (forge_id f) = Ok f) as Hlook by (unfold lookup_forge; by rewrite forge_id_lower, Hid).
  assert (rebuild_end a None = Ok a) as Hend by (unfold rebuild_end; by rewrite decide_False).
  rewrite Ho. destruct Hshape as [Hs|[[r Hs]|(r & k & v & Hs & Hk)]]; rewrite Hs; cbn [map seg_kind seg_value]; unfold rebuild, rebuild_start.
  - rewrite decide_False, decide_True, Hlook by done. cbn [mbind result_bind].
    destruct (forge_address_ok f Hf) as (b & -> & Hb & Hob & Hsb). cbn [mbind result_bind try_fold].
    replace b with a; [done|]. apply built_ext; [apply Ha|apply Hb|congruence|congruence].
  - rewrite decide_False, decide_True, Hlook by done. cbn [mbind result_bind]. rewrite (repository_again f r a) by done. done.
  - rewrite decide_False, decide_True, Hlook by done. cbn [mbind result_bind].
    set (b := address_of [mkSegment Kind.Forge (forge_id f); mkSegment Kind.Repo r] None).
    assert (complete b) as Hb by by apply (prefix_complete a _ (mkSegment k v)).
    rewrite (repository_again f r b Hf Hb eq_refl); [| |done].
    + cbn [mbind result_bind try_fold]. rewrite (child_again b a k v); [done|done|done|done|apply Hb|done|by intros ->].
    + apply (repo_normal_prefix _ [mkSegment k v]). by rewrite Hs in Hn.
Qed.

(** C34: Resolution is stable: the text of what it gives resolves to the same
    address, and the text of any address that names no forge resolves to that
    address. *)
Theorem resolve_stable input a : utf8 input = true -> resolve input = Ok a ->
  resolve (as_str a) = Ok a /\ forall b, complete b -> get b Kind.Forge = None -> resolve (as_str b) = Ok b.
Proof.
  intros Hu Hr.
  assert (forall b, complete b -> resolve (as_str b) = renormalise b) as Hstrict.
  { intros b Hb. unfold resolve. rewrite trim_address_bytes by (apply address_bytes, Hb). by rewrite (proj2 (from_str_Ok _ b) (conj Hb eq_refl)). }
  split; [|intros b Hb Hg; rewrite Hstrict by done; unfold renormalise; by rewrite Hg].
  assert (complete a /\ (renormalise a = Ok a \/ repo_normal (segments a))) as [Ha Hn].
  { revert Hr. unfold resolve. pose proof (trim_utf8 input Hu) as Ht. destruct (from_str (trim input)) as [b|] eqn:Hb.
    - apply from_str_Ok in Hb as [Hb _]. intros Hr. pose proof Hr as Hr'. apply renormalise_complete in Hr; [|done]. split; [done|].
      unfold renormalise in Hr'. destruct (get b Kind.Forge) as [f|] eqn:Hg; [|left; injection Hr' as <-; unfold renormalise; by rewrite Hg].
      destruct (forge_by_id f) eqn:Hf; [|left; injection Hr' as <-; unfold renormalise; by rewrite Hg, Hf].
      right. eapply rebuild_normal; [| |exact Hr']; [by apply segment_texts_ok|]. intros s. by apply subject_utf8.
    - intros Hr. apply resolve_other in Hr as [Hc Hn]; [|done]. split; [done|]. right. by apply Hn. }
  rewrite Hstrict by done. destruct Hn as [Hn|Hn]; [done|]. unfold renormalise.
  destruct (get a Kind.Forge) as [fid|] eqn:Hg; [|done]. destruct (forge_by_id fid) as [f|] eqn:Hf; [|done].
  destruct (get_forge a fid Ha Hg) as [Hh Hv]. destruct (forge_by_id_ok _ _ Hf) as [Hok Hid]. by apply (rebuild_again a f fid).
Qed.
End fixed_point.
