(* ===== verification/Condition.v ===== *)
(** Conditions and templates ([crates/flotilla-address/src/condition.rs]): the
    grammar [<address> <field-path> <operator> <literal>], its printer, and its
    cursor parser in strict and lenient mode. Strict parsing is proved to accept
    exactly what the printer writes. *)

From Stdlib Require Import Ascii.
From S2P Require Import Prelude Text Encoding Address Names Resolve.
#[local] Open Scope Z_scope.

(** * Data *)

Inductive Operator := Equal | NotEqual | LessThan | LessThanOrEqual | GreaterThan | GreaterThanOrEqual.
Definition operators : list Operator := [Equal; NotEqual; LessThan; LessThanOrEqual; GreaterThan; GreaterThanOrEqual].
Definition operator_str (o : Operator) : text :=
  tx match o with
  | Equal => "==" | NotEqual => "!=" | LessThan => "<" | LessThanOrEqual => "<=" | GreaterThan => ">" | GreaterThanOrEqual => ">="
  end.
Definition operator_from_str (token : text) : result Error Operator :=
  ok_or (List.find (fun o => bool_decide (operator_str o = token)) operators) (E_UnknownOperator token).

(** A field path is its segments. *)
Record Condition := mkCondition { cond_address : Address; cond_path : list text; cond_operator : Operator; cond_literal : text }.
Record Variable_ := mkVariable { var_name : text; var_arguments : list text }.
Record Template := mkTemplate { tpl_subject : Variable_; tpl_path : list text; tpl_operator : Operator; tpl_literal : text }.

Definition is_name_byte (b : ascii) : bool := is_lower b || is_digit b || in_bytes 95 95 b || in_bytes 45 45 b.
Definition variable_new (nm : text) (arguments : list text) : result Error Variable_ :=
  let valid := match nm with c :: rest => is_lower c && forallb is_name_byte rest | [] => false end in
  if valid then Ok (mkVariable nm arguments) else Err (E_InvalidVariable nm).

(** [Template::bind]. *)
Definition bind (t : Template) (a : Address) : Condition := mkCondition a (tpl_path t) (tpl_operator t) (tpl_literal t).

(** * Words *)

Definition is_segment_byte (b : ascii) : bool := is_alnum b || in_bytes 95 95 b || in_bytes 45 45 b.
Definition is_literal_byte (b : ascii) : bool := is_alnum b || bool_decide (b ∈ tx "_-.:/+@").
Definition is_bare_segment (word : text) : bool := negb (bool_decide (word = [])) && forallb is_segment_byte word.
Definition is_bare_literal (word : text) : bool := negb (bool_decide (word = [])) && forallb is_literal_byte word.

(** The scan for a closing quote, after the opening one: the bytes up to and
    with it, when there is one. *)
Fixpoint quote_end (escaped : bool) (t : text) : option nat :=
  match t with
  | [] => None
  | c :: t =>
      if escaped then S <$> quote_end false t
      else if decide (byte_val c = 92) then S <$> quote_end true t
      else if decide (c = quote) then Some 1%nat
      else S <$> quote_end false t
  end.

(** [serde_json]'s strings: what it prints it reads back, it reads strings, and a
    printed string opens with a quote and closes with the first unescaped one. *)
Class JsonString := {
  json_to_string : text -> text;
  json_from_str : text -> option text;
  json_round v : utf8 v = true -> json_from_str (json_to_string v) = Some v;
  json_utf8 t v : json_from_str t = Some v -> utf8 v = true;
  json_shape v : utf8 v = true -> exists body, json_to_string v = quote :: body /\ quote_end false body = Some (length body);
}.

Section printing.
Context `{JsonString}.

(** [write_word]. *)
Definition word_text (bare : text -> bool) (word : text) : text := if bare word then word else json_to_string word.

Definition path_to_string (path : list text) : text :=
  match path with
  | [] => [dot]
  | _ => flat_map (fun s => dot :: word_text is_bare_segment s) path
  end.
Definition comparison_to_string (path : list text) (o : Operator) (literal : text) : text :=
  path_to_string path ++ space :: operator_str o ++ space :: word_text is_bare_literal literal.
Definition condition_to_string (c : Condition) : text :=
  as_str (cond_address c) ++ space :: comparison_to_string (cond_path c) (cond_operator c) (cond_literal c).
Definition dollar : ascii := ascii_of_nat 36.
Definition comma : ascii := ascii_of_nat 44.
Definition open_paren : ascii := ascii_of_nat 40.
Definition close_paren : ascii := ascii_of_nat 41.
Definition variable_to_string (v : Variable_) : text :=
  dollar :: var_name v ++
  match var_arguments v with
  | [] => []
  | args => open_paren :: join [comma] (map (word_text is_bare_segment) args) ++ [close_paren]
  end.
Definition template_to_string (t : Template) : text :=
  variable_to_string (tpl_subject t) ++ space :: comparison_to_string (tpl_path t) (tpl_operator t) (tpl_literal t).
End printing.

(** * The cursor *)

Inductive Mode := Strict | Lenient.
#[export] Instance mode_eq_dec : EqDecision Mode.
Proof. solve_decision. Defined.

Record Cursor := mkCursor { c_text : text; c_position : nat; c_mode : Mode }.
Definition cursor_new (t : text) (m : Mode) : Cursor := mkCursor t 0 m.
Definition rest (c : Cursor) : text := drop (c_position c) (c_text c).
(** The next character; only ASCII ones are compared with. *)
Definition peek (c : Cursor) : option ascii := head (rest c).
Definition syntax {A} (c : Cursor) (expected : string) : result Error A := Err (E_Syntax (c_text c) (c_position c) (tx expected)).
Definition advance (n : nat) (c : Cursor) : Cursor := mkCursor (c_text c) (c_position c + n) (c_mode c).

Definition token (c : Cursor) : text * Cursor :=
  let '(w, _) := until_whitespace (rest c) in (w, advance (length w) c).

Definition separator (c : Cursor) : result Error Cursor :=
  let skipped := match c_mode c with
    | Strict => match peek c with Some a => if decide (a = space) then 1%nat else 0%nat | None => 0%nat end
    | Lenient => (length (rest c) - length (trim_start (rest c)))%nat
    end in
  if decide (skipped = 0%nat) then syntax c "a space" else Ok (advance skipped c).

Definition cursor_end (c : Cursor) : result Error () :=
  match rest c with [] => Ok () | _ => syntax c "the end of input" end.

Section parsing.
Context `{JsonString}.

Definition quoted (c : Cursor) (bare : text -> bool) : result Error (text * Cursor) :=
  stop ← ok_or (quote_end false (tail (rest c))) (E_Syntax (c_text c) (c_position c) (tx "a closing `" ++ quote :: tx "`"));
  let spelling := take (S stop) (rest c) in
  value ← ok_or (json_from_str spelling) (E_Syntax (c_text c) (c_position c) (tx "a JSON string"));
  if decide (c_mode c = Strict) then
    if bare value || negb (bool_decide (json_to_string value = spelling)) then Err (E_NonCanonicalQuoting spelling)
    else Ok (value, advance (S stop) c)
  else Ok (value, advance (S stop) c).

(** The lenient end of a word: whitespace or one of [.,()] and the quote. *)
Fixpoint lenient_word (t : text) : text :=
  match t with
  | [] => []
  | a :: u => if at_whitespace t || bool_decide (a ∈ [dot; comma; open_paren; close_paren; quote]) then [] else a :: lenient_word u
  end.

Definition word (c : Cursor) (bare : text -> bool) (expected : string) : result Error (text * Cursor) :=
  if decide (peek c = Some quote) then quoted c bare
  else
    let w := match c_mode c with Strict => fst (span is_segment_byte (rest c)) | Lenient => lenient_word (rest c) end in
    match w with [] => syntax c expected | _ => Ok (w, advance (length w) c) end.

(** The loop of [field_path]. Each turn takes a byte at least, so one more than
    the bytes left is fuel enough ([path_loop_fuel]). *)
Fixpoint path_loop (fuel : nat) (c : Cursor) (segments : list text) : result Error (list text * Cursor) :=
  match fuel with
  | O => syntax c "fuel"
  | S fuel =>
      '(w, c) ← word c is_bare_segment "a bare or quoted field name";
      if decide (peek c = Some dot) then path_loop fuel (advance 1 c) (segments ++ [w]) else Ok (segments ++ [w], c)
  end.
Definition field_path (c : Cursor) : result Error (list text * Cursor) :=
  if decide (peek c = Some dot) then
    let c := advance 1 c in
    match peek c with
    | None => Ok ([], c)
    | Some a => if in_bytes 32 32 a || in_bytes 9 10 a || in_bytes 13 13 a then Ok ([], c) else path_loop (S (length (rest c))) c []
    end
  else syntax c "a field path starting with `.`".

Definition literal (c : Cursor) : result Error text :=
  let r := rest c in
  if decide (peek c = Some quote) then
    '(v, c) ← quoted c is_bare_literal;
    _ ← cursor_end c;
    Ok v
  else match c_mode c with
  | Strict => if is_bare_literal r then Ok r else syntax c "a bare or quoted literal"
  | Lenient =>
      let apostrophe := [ascii_of_nat 39] in
      let value := match (inner ← strip_prefix apostrophe r; strip_suffix apostrophe inner) with
        | Some inner => inner
        | None => join [space] (split_whitespace r)
        end in
      if decide (value = []) then syntax c "a literal" else Ok value
  end.

Definition comparison (c : Cursor) : result Error (list text * Operator * text) :=
  '(path, c) ← field_path c;
  c ← separator c;
  let '(tok, c) := token c in
  o ← operator_from_str tok;
  c ← separator c;
  l ← literal c;
  Ok (path, o, l).

(** The arguments of [variable], after the opening parenthesis. *)
Fixpoint args_loop (fuel : nat) (c : Cursor) (arguments : list text) : result Error (list text * Cursor) :=
  match fuel with
  | O => syntax c "fuel"
  | S fuel =>
      '(w, c) ← word c is_bare_segment "a bare or quoted argument";
      if decide (peek c = Some comma) then args_loop fuel (advance 1 c) (arguments ++ [w])
      else if decide (peek c = Some close_paren) then Ok (arguments ++ [w], advance 1 c)
      else syntax c "`,` or `)`"
  end.
Definition variable (c : Cursor) : result Error (Variable_ * Cursor) :=
  if decide (peek c = Some dollar) then
    let c := advance 1 c in
    let nm := fst (span is_name_byte (rest c)) in
    let c := advance (length nm) c in
    '(args, c) ← (if decide (peek c = Some open_paren) then let c := advance 1 c in args_loop (S (length (rest c))) c [] else Ok ([], c));
    v ← variable_new nm args;
    Ok (v, c)
  else syntax c "a `$` variable".

(** [FromStr] for field paths, conditions and templates. *)
Definition path_from_str (t : text) : result Error (list text) :=
  '(p, c) ← field_path (cursor_new t Strict); _ ← cursor_end c; Ok p.
Definition condition_from_str `{Lowercase} (t : text) : result Error Condition :=
  let '(tok, c) := token (cursor_new t Strict) in
  a ← from_str tok;
  c ← separator c;
  '(p, o, l) ← comparison c;
  Ok (mkCondition a p o l).
Definition template_from_str (t : text) : result Error Template :=
  '(v, c) ← variable (cursor_new t Strict);
  c ← separator c;
  '(p, o, l) ← comparison c;
  Ok (mkTemplate v p o l).

(** [Condition::resolve] and [Template::resolve]. *)
Definition condition_resolve `{Lowercase} `{ForgeLookup} (input : text) : result Error Condition :=
  let '(tok, c) := token (cursor_new (trim input) Lenient) in
  a ← resolve tok;
  c ← separator c;
  '(p, o, l) ← comparison c;
  Ok (mkCondition a p o l).
Definition template_resolve (input : text) : result Error Template :=
  '(v, c) ← variable (cursor_new (trim input) Lenient);
  c ← (if decide (peek c = Some dot) then Ok c else separator c);
  '(p, o, l) ← comparison c;
  Ok (mkTemplate v p o l).
End parsing.

(** * What the parsers take *)

Lemma rest_advance n c : rest (advance n c) = drop n (rest c).
Proof. unfold rest, advance. cbn. by rewrite drop_drop. Qed.

(** [takes c s c']: the text [s] is next at [c], and [c'] is after it. *)
Definition takes (c : Cursor) (s : text) (c' : Cursor) : Prop := rest c = s ++ rest c' /\ c' = advance (length s) c.
Lemma takes_step c s r : rest c = s ++ r -> takes c s (advance (length s) c) /\ rest (advance (length s) c) = r.
Proof. intros Hr. assert (rest (advance (length s) c) = r) as Ha by by rewrite rest_advance, Hr, drop_app_length. split; [|done]. split; [by rewrite Ha|done]. Qed.
Lemma takes_app c s c' s' c'' : takes c s c' -> takes c' s' c'' -> takes c (s ++ s') c''.
Proof.
  intros [H1 ->] [H2 ->]. split; [by rewrite H1, H2, <-app_assoc|]. unfold advance. cbn. f_equal. rewrite length_app. lia.
Qed.
Lemma takes_split c s s' c'' : takes c (s ++ s') c'' -> exists c', takes c s c' /\ takes c' s' c''.
Proof.
  intros [H1 ->]. rewrite <-app_assoc in H1. destruct (takes_step _ _ _ H1) as [H2 H3]. exists (advance (length s) c). split; [done|].
  split; [done|]. unfold advance. cbn. f_equal. rewrite length_app. lia.
Qed.
Lemma takes_mode c s c' : takes c s c' -> c_mode c' = c_mode c.
Proof. by intros [_ ->]. Qed.
Lemma takes_det c s c1 c2 : takes c s c1 -> takes c s c2 -> c1 = c2.
Proof. by intros [_ ->] [_ ->]. Qed.
Lemma takes_one c a : peek c = Some a -> takes c [a] (advance 1 c).
Proof. unfold peek. intros Hp. destruct (rest c) as [|b r] eqn:Hr; [done|]. injection Hp as ->. by destruct (takes_step c [a] r Hr). Qed.
Lemma takes_peek c a s c' : takes c (a :: s) c' -> peek c = Some a.
Proof. intros [Hr _]. unfold peek. by rewrite Hr. Qed.

Section strict.
Context `{JsonString}.

Lemma quote_end_app e t n r : quote_end e t = Some n -> quote_end e (t ++ r) = Some n.
Proof.
  revert e n. induction t as [|c t IH]; intros e n; [done|]. cbn.
  repeat case_decide; destruct e; try done; intros Hn; apply fmap_Some in Hn as (m & Hm & ->); by rewrite (IH _ _ Hm).
Qed.
Lemma quote_end_bound e t n : quote_end e t = Some n -> (n <= length t)%nat.
Proof.
  revert e n. induction t as [|c t IH]; intros e n; [done|]. cbn.
  repeat case_decide; destruct e; try (intros Hn; apply fmap_Some in Hn as (m & Hm & ->); apply IH in Hm; lia); intros [= <-]; lia.
Qed.

(** A printed string is read back in either mode. *)
Lemma quoted_complete c bare v c' : utf8 v = true -> (c_mode c = Strict -> bare v = false) -> takes c (json_to_string v) c' -> quoted c bare = Ok (v, c').
Proof.
  intros Hu Hb [Ht ->]. unfold quoted. remember (rest (advance (length (json_to_string v)) c)) as r.
  destruct (json_shape v Hu) as (body & Hshape & Hbody). rewrite Ht, Hshape. cbn [app tail].
  rewrite (quote_end_app _ _ _ _ Hbody). cbn [ok_or mbind result_bind].
  assert (take (S (length body)) (quote :: body ++ r) = json_to_string v) as ->.
  { cbn [take]. by rewrite take_app_length, Hshape. }
  rewrite json_round by done. cbn [ok_or mbind result_bind]. case_decide as Hm; [|done]. by rewrite Hb, bool_decide_true by done.
Qed.
Lemma quoted_sound c bare v c' : c_mode c = Strict -> peek c = Some quote -> quoted c bare = Ok (v, c') ->
  utf8 v = true /\ bare v = false /\ takes c (json_to_string v) c'.
Proof.
  intros Hm Hp. unfold quoted, peek in *. destruct (rest c) as [|q u] eqn:Hr; [done|]. injection Hp as ->. cbn [tail].
  destruct (quote_end false u) as [n|] eqn:Hq; [|done]. cbn [ok_or mbind result_bind].
  destruct (json_from_str (take (S n) (quote :: u))) as [w|] eqn:Hj; [|done]. cbn [ok_or mbind result_bind].
  rewrite decide_True by done. destruct (bare w) eqn:Hb; cbn [orb]; [done|].
  destruct (decide (json_to_string w = take (S n) (quote :: u))) as [He|He]; [|by rewrite bool_decide_false].
  rewrite bool_decide_true by done. cbn [negb]. intros [= <- <-]. split; [by eapply json_utf8|]. split; [done|].
  apply quote_end_bound in Hq. assert (length (json_to_string w) = S n) as Hlen by (rewrite He, length_take; cbn; lia).
  rewrite <-Hlen. apply (takes_step c _ (drop (S n) (quote :: u))). rewrite Hr, He. symmetry. apply take_drop.
Qed.

Lemma segment_byte_ascii c : is_segment_byte c = true -> is_ascii c = true /\ c <> quote.
Proof.
  assert (forall c, implb (is_segment_byte c) (is_ascii c && negb (bool_decide (c = quote))) = true) as Hall by (apply byte_forall; vm_compute; reflexivity).
  intros Hc. specialize (Hall c). rewrite Hc in Hall. apply andb_true_iff in Hall as [Ha Hq%negb_true_iff%bool_decide_eq_false]. done.
Qed.
Lemma bare_segment_iff w : is_bare_segment w = true <-> w <> [] /\ forallb is_segment_byte w = true.
Proof. unfold is_bare_segment. by rewrite andb_true_iff, negb_true_iff, bool_decide_eq_false. Qed.
Lemma bare_segment_utf8 w : forallb is_segment_byte w = true -> utf8 w = true.
Proof. intros Hw. apply utf8_ascii, (class_widen is_segment_byte); [done|]. intros c Hc. by apply segment_byte_ascii. Qed.
Lemma json_opens v : utf8 v = true -> exists u, json_to_string v = quote :: u.
Proof. intros (b & -> & _)%json_shape. eauto. Qed.
Lemma takes_quote c v c' : utf8 v = true -> takes c (json_to_string v) c' -> peek c = Some quote.
Proof. intros (u & ->)%json_opens. apply takes_peek. Qed.

(** A word stops before the end of input or one of the bytes that follow words. *)
Definition stops (c : Cursor) : Prop := match peek c with Some a => a ∈ [dot; comma; close_paren; space] | None => True end.
Lemma segment_byte_lenient a u : is_segment_byte a = true ->
  at_whitespace (a :: u) = false /\ bool_decide (a ∈ [dot; comma; open_paren; close_paren; quote]) = false.
Proof.
  assert (forall c, implb (is_segment_byte c) (solid c && negb (bool_decide (c ∈ [dot; comma; open_paren; close_paren; quote]))) = true) as Hall
    by (apply byte_forall; vm_compute; reflexivity).
  intros Ha. specialize (Hall a). rewrite Ha in Hall. apply andb_true_iff in Hall as [Hs Hn%negb_true_iff]. split; [|done].
  unfold at_whitespace. by rewrite solid_whitespace.
Qed.
Lemma lenient_word_app w r : forallb is_segment_byte w = true ->
  match r with [] => True | a :: _ => a ∈ [dot; comma; close_paren; space] end -> lenient_word (w ++ r) = w.
Proof.
  intros Hw Hr. induction w as [|a w IH]; cbn [app].
  - destruct r as [|a r]; [done|]. cbn [lenient_word]. rewrite !elem_of_cons in Hr.
    destruct Hr as [->|[->|[->|[->|Hr]]]]; [by rewrite bool_decide_true, orb_true_r by set_solver..|done|set_solver].
  - cbn [forallb] in Hw. apply andb_true_iff in Hw as [Ha Hw]. cbn [lenient_word]. destruct (segment_byte_lenient a (w ++ r) Ha) as [-> ->]. cbn [orb].
    by rewrite IH.
Qed.

Lemma word_sound c v c' e : c_mode c = Strict -> word c is_bare_segment e = Ok (v, c') ->
  utf8 v = true /\ takes c (word_text is_bare_segment v) c'.
Proof.
  intros Hm. unfold word, word_text. case_decide as Hp.
  - intros (Hu & Hb & Ht)%quoted_sound; [|done|done]. by rewrite Hb.
  - rewrite Hm. destruct (span is_segment_byte (rest c)) as [x y] eqn:Hs. apply span_spec in Hs as (Hr & Hx & _). cbn [fst].
    destruct x as [|a x]; [done|]. intros [= <- <-]. split; [by apply bare_segment_utf8|].
    rewrite (proj2 (bare_segment_iff (a :: x))) by done. by destruct (takes_step _ _ _ Hr).
Qed.
Lemma word_complete c v c' e : utf8 v = true -> takes c (word_text is_bare_segment v) c' -> stops c' ->
  word c is_bare_segment e = Ok (v, c').
Proof.
  intros Hu. unfold word, word_text, stops. destruct (is_bare_segment v) eqn:Hb.
  - apply bare_segment_iff in Hb as [Hne Hb]. intros [Hr ->] Hstop. destruct v as [|a v]; [done|].
    pose proof Hb as Hb'. cbn [forallb] in Hb'. apply andb_true_iff in Hb' as [Ha _]. apply segment_byte_ascii in Ha as [_ Ha].
    rewrite decide_False by (unfold peek; rewrite Hr; cbn; congruence). unfold peek in Hstop.
    assert (match c_mode c with Strict => fst (span is_segment_byte (rest c)) | Lenient => lenient_word (rest c) end = a :: v) as ->; [|done].
    rewrite Hr. destruct (c_mode c); [rewrite span_app; [done|done|]|apply lenient_word_app; [done|]];
      destruct (rest (advance (length (a :: v)) c)) as [|b r]; try done.
    cbn in Hstop. rewrite !elem_of_cons in Hstop. destruct Hstop as [->|[->|[->|[->|Hs]]]]; [done..|set_solver].
  - intros Ht _. rewrite decide_True by by eapply takes_quote. by apply quoted_complete.
Qed.
Lemma word_text_nonempty v : utf8 v = true -> word_text is_bare_segment v <> [].
Proof.
  intros Hu. unfold word_text. destruct (is_bare_segment v) eqn:Hb; [by apply bare_segment_iff in Hb as [Hb _]|].
  by destruct (json_opens v Hu) as (u & ->).
Qed.

(** ** Field paths *)

(** The text of a field path after its first dot. *)
Definition path_tail (p : list text) : text :=
  match p with [] => [] | w :: p => word_text is_bare_segment w ++ flat_map (fun s => dot :: word_text is_bare_segment s) p end.
Lemma path_text_tail p : path_to_string p = dot :: path_tail p.
Proof. by destruct p. Qed.

Lemma path_loop_sound fuel c acc l c' : c_mode c = Strict -> path_loop fuel c acc = Ok (l, c') ->
  exists p, p <> [] /\ l = acc ++ p /\ Forall (fun w => utf8 w = true) p /\ takes c (path_tail p) c'.
Proof.
  revert c acc. induction fuel as [|fuel IH]; intros c acc Hm; [done|]. cbn [path_loop].
  destruct (word c is_bare_segment _) as [[w c1]|] eqn:Hw; [|done]. apply word_sound in Hw as [Hu Ht]; [|done]. cbn [mbind result_bind].
  pose proof (takes_mode _ _ _ Ht) as Hm1. case_decide as Hp.
  - apply takes_one in Hp. intros (p & Hne & -> & Hall & Htp)%IH; [|by rewrite (takes_mode _ _ _ Hp), Hm1].
    exists (w :: p). split; [done|]. split; [by rewrite <-app_assoc|]. split; [by constructor|]. destruct p as [|w2 p]; [done|].
    eapply takes_app; [exact Ht|]. by apply (takes_app c1 [dot] (advance 1 c1)).
  - intros [= <- <-]. exists [w]. split_and!; [done|done|by repeat constructor|]. cbn. by rewrite app_nil_r.
Qed.
Lemma path_loop_complete fuel c acc p c' : p <> [] -> Forall (fun w => utf8 w = true) p -> takes c (path_tail p) c' ->
  stops c' -> peek c' <> Some dot -> (length p <= fuel)%nat -> path_loop fuel c acc = Ok (acc ++ p, c').
Proof.
  revert c acc p. induction fuel as [|fuel IH]; intros c acc p Hne Hall Ht Hs Hd Hf; [by destruct p; cbn in Hf; [|lia]|].
  destruct p as [|w p]; [done|]. apply Forall_cons in Hall as [Hw Hall]. cbn [path_loop path_tail] in *.
  apply takes_split in Ht as (c1 & Ht1 & Ht2). destruct p as [|w2 p].
  - destruct Ht2 as [Hr ->]. cbn in Hr. assert (advance 0 c1 = c1) as Hc1 by (destruct c1; unfold advance; cbn; by rewrite Nat.add_0_r).
    cbn [length flat_map] in *. rewrite Hc1 in *. rewrite (word_complete _ w c1) by done. cbn [mbind result_bind]. by rewrite decide_False.
  - cbn [flat_map] in Ht2. rewrite <-app_comm_cons in Ht2. pose proof (takes_peek _ _ _ _ Ht2) as Hp1.
    change (dot :: ?x) with ([dot] ++ x) in Ht2. apply takes_split in Ht2 as (c2 & Hc2 & Ht2).
    rewrite (word_complete _ w c1); [|done|done|unfold stops; rewrite Hp1; set_solver]. cbn [mbind result_bind]. rewrite decide_True by done.
    rewrite (takes_det _ _ _ _ (takes_one _ _ Hp1) Hc2). rewrite (IH c2 _ (w2 :: p)); [by rewrite <-app_assoc|..]; try done.
    cbn in Hf |- *. lia.
Qed.

Definition all_utf8 (p : list text) : Prop := Forall (fun w => utf8 w = true) p.
Lemma path_tail_length p : all_utf8 p -> (length p <= length (path_tail p))%nat.
Proof.
  intros Hall. destruct p as [|w p]; [done|]. apply Forall_cons in Hall as [Hw Hall]. cbn [path_tail]. rewrite length_app.
  pose proof (word_text_nonempty w Hw). assert (length p <= length (flat_map (fun s => dot :: word_text is_bare_segment s) p))%nat as Hp.
  { clear -Hall. induction p as [|x p IH]; [done|]. cbn. rewrite length_app. inversion Hall; subst. specialize (IH ltac:(done)). lia. }
  destruct (word_text is_bare_segment w); [done|]. cbn. lia.
Qed.

Lemma field_path_sound c p c' : c_mode c = Strict -> field_path c = Ok (p, c') -> all_utf8 p /\ takes c (path_to_string p) c'.
Proof.
  intros Hm. unfold field_path. case_decide as Hp; [|done]. apply takes_one in Hp. pose proof (takes_mode _ _ _ Hp) as Hm1.
  destruct (peek (advance 1 c)) as [a|] eqn:Ha; [|by intros [= <- <-]; split; [constructor|]].
  case_match; [by intros [= <- <-]; split; [constructor|]|]. intros (q & Hne & -> & Hall & Ht)%path_loop_sound; [|congruence].
  split; [done|]. cbn [app]. rewrite path_text_tail. by apply (takes_app c [dot] (advance 1 c)).
Qed.

(** After a field path: the end of input, or the space before an operator. *)
Definition path_ends (c : Cursor) : Prop := peek c = None \/ peek c = Some space.
Lemma path_ends_stops c : path_ends c -> stops c /\ peek c <> Some dot.
Proof. unfold stops. intros [->| ->]; [done|]. split; [set_solver|done]. Qed.
Lemma word_text_head v : utf8 v = true -> exists a u, word_text is_bare_segment v = a :: u /\ (in_bytes 32 32 a || in_bytes 9 10 a || in_bytes 13 13 a) = false.
Proof.
  intros Hu. unfold word_text. destruct (is_bare_segment v) eqn:Hb; [|destruct (json_opens v Hu) as (u & ->); eauto].
  apply bare_segment_iff in Hb as [Hne Hb]. destruct v as [|a u]; [done|]. exists a, u. split; [done|]. cbn in Hb. apply andb_true_iff in Hb as [Ha _].
  assert (forall c, implb (is_segment_byte c) (negb (in_bytes 32 32 c || in_bytes 9 10 c || in_bytes 13 13 c)) = true) as Hall by (apply byte_forall; vm_compute; reflexivity).
  specialize (Hall a). rewrite Ha in Hall. by apply negb_true_iff in Hall.
Qed.
Lemma field_path_complete c p c' : all_utf8 p -> takes c (path_to_string p) c' -> path_ends c' -> field_path c = Ok (p, c').
Proof.
  intros Hall Ht He. rewrite path_text_tail in Ht. pose proof (takes_peek _ _ _ _ Ht) as Hp. unfold field_path. rewrite decide_True by done.
  change (dot :: path_tail p) with ([dot] ++ path_tail p) in Ht. apply takes_split in Ht as (c1 & Hc1 & Ht).
  rewrite (takes_det _ _ _ _ (takes_one _ _ Hp) Hc1). destruct p as [|w p].
  - destruct Ht as [_ ->]. assert (advance (length (path_tail [])) c1 = c1) as Hc by (destruct c1; unfold advance; cbn; by rewrite Nat.add_0_r).
    rewrite Hc in *. destruct He as [-> | ->]; done.
  - apply Forall_cons in Hall as [Hw Hall]. destruct (word_text_head w Hw) as (a & u & Hau & Hws).
    pose proof Ht as Ht'. cbn [path_tail] in Ht'. rewrite Hau in Ht'. cbn [app] in Ht'. rewrite (takes_peek _ _ _ _ Ht'), Hws.
    apply path_ends_stops in He as [Hs Hd].
    rewrite (path_loop_complete _ c1 [] (w :: p) c'); [done|..]; try done.
    + by constructor.
    + assert (all_utf8 (w :: p)) as Hwp by by constructor. apply path_tail_length in Hwp. destruct Ht as [Hr _]. rewrite Hr, length_app. lia.
Qed.

(** ** Operators, literals and comparisons *)

Lemma operator_from_str_Ok t o : operator_from_str t = Ok o <-> t = operator_str o.
Proof.
  unfold operator_from_str. rewrite ok_or_Ok. split.
  - intros [_ Ho]%find_some. by apply bool_decide_eq_true in Ho.
  - intros ->. by destruct o.
Qed.
Lemma token_takes c w c' : token c = (w, c') -> takes c w c'.
Proof.
  unfold token. destruct (until_whitespace (rest c)) as [x y] eqn:Hu. intros [= <- <-]. apply until_whitespace_parts in Hu. by destruct (takes_step _ _ _ Hu).
Qed.
Lemma token_complete c w c' : takes c w c' -> forallb solid w = true -> peek c' = Some space -> token c = (w, c').
Proof.
  intros [Hr ->] Hw Hp. unfold token. rewrite Hr, until_whitespace_app; [done|done|]. right. unfold peek in Hp.
  destruct (rest (advance (length w) c)) as [|b r]; [done|]. injection Hp as ->. done.
Qed.
Lemma separator_strict c c' : c_mode c = Strict -> separator c = Ok c' <-> takes c [space] c'.
Proof.
  intros Hm. unfold separator. rewrite Hm. destruct (peek c) as [a|] eqn:Hp.
  - destruct (decide (a = space)) as [->|Hne].
    + rewrite decide_False by done. split; [intros [= <-]; by apply takes_one|]. intros Ht. f_equal. by apply (takes_det c [space]); [apply takes_one|].
    + rewrite decide_True by done. split; [done|]. intros Ht%takes_peek. congruence.
  - rewrite decide_True by done. split; [done|]. intros Ht%takes_peek. congruence.
Qed.
(** One space before a solid byte separates in either mode. *)
Lemma separator_complete c a u c' : takes c [space] c' -> rest c' = a :: u -> solid a = true -> separator c = Ok c'.
Proof.
  intros Ht Hr Ha. destruct (c_mode c) eqn:Hm; [by apply separator_strict|]. unfold separator. rewrite Hm. destruct Ht as [Hc ->]. rewrite Hr in Hc. rewrite Hc.
  assert (trim_start (space :: a :: u) = a :: u) as Htrim.
  { unfold trim_start. cbn [length trim_start_fuel]. change (whitespace (space :: a :: u)) with 1%nat. cbn [drop].
    by rewrite solid_whitespace. }
  cbn [app]. rewrite Htrim. cbn [length]. rewrite decide_False by lia. do 2 f_equal. lia.
Qed.
Lemma bare_literal_iff w : is_bare_literal w = true <-> w <> [] /\ forallb is_literal_byte w = true.
Proof. unfold is_bare_literal. by rewrite andb_true_iff, negb_true_iff, bool_decide_eq_false. Qed.
Lemma literal_byte_solid c : is_literal_byte c = true -> solid c = true /\ c <> quote.
Proof.
  assert (forall c, implb (is_literal_byte c) (solid c && negb (bool_decide (c = quote))) = true) as Hall by (apply byte_forall; vm_compute; reflexivity).
  intros Hc. specialize (Hall c). rewrite Hc in Hall. apply andb_true_iff in Hall as [Ha Hq%negb_true_iff%bool_decide_eq_false]. done.
Qed.
Lemma literal_strict c l : c_mode c = Strict -> literal c = Ok l <-> utf8 l = true /\ rest c = word_text is_bare_literal l.
Proof.
  intros Hm. unfold literal, word_text. case_decide as Hp.
  - split.
    + destruct (quoted c is_bare_literal) as [[v c1]|] eqn:Hq; [|done]. apply quoted_sound in Hq as (Hu & Hb & Ht); [|done|done].
      cbn [mbind result_bind]. unfold cursor_end. destruct (rest c1) as [|b r] eqn:Hr1; [|done]. cbn [mbind result_bind]. intros [= <-].
      split; [done|]. rewrite Hb. destruct Ht as [Hr _]. by rewrite Hr1, app_nil_r in Hr.
    + intros [Hu Hr]. destruct (is_bare_literal l) eqn:Hb.
      * apply bare_literal_iff in Hb as [Hne Hb]. exfalso. unfold peek in Hp. rewrite Hr in Hp. destruct l as [|a l]; [done|]. injection Hp as ->. done.
      * destruct (takes_step c (json_to_string l) []) as [Ht Hr']; [by rewrite app_nil_r|].
        rewrite (quoted_complete c is_bare_literal l _ Hu (fun _ => Hb) Ht). cbn [mbind result_bind].
        unfold cursor_end. by rewrite Hr'.
  - rewrite Hm. destruct (is_bare_literal (rest c)) eqn:Hb.
    + split; [intros [= <-]|].
      * rewrite Hb. split; [|done]. apply bare_literal_iff in Hb as [_ Hb]. apply utf8_ascii, (class_widen is_literal_byte); [done|].
        intros d [Hd _]%literal_byte_solid. unfold solid in Hd. by apply andb_true_iff in Hd as [Hd _].
      * intros [Hu Hr]. destruct (is_bare_literal l) eqn:Hbl; [by rewrite Hr|]. exfalso. apply Hp. unfold peek. rewrite Hr.
        by destruct (json_opens l Hu) as (u & ->).
    + split; [done|]. intros [Hu Hr]. destruct (is_bare_literal l) eqn:Hbl; [by rewrite Hr in Hb; congruence|]. exfalso. apply Hp.
      unfold peek. rewrite Hr. by destruct (json_opens l Hu) as (u & ->).
Qed.
Lemma operator_solid o : forallb solid (operator_str o) = true.
Proof. by destruct o. Qed.

(** A bare literal is one word, so lenient mode reads it whole. *)
Lemma split_whitespace_solid w : w <> [] -> forallb solid w = true -> split_whitespace w = [w].
Proof.
  intros Hne Hw. unfold split_whitespace. destruct w as [|a w]; [done|]. cbn [length split_whitespace_fuel].
  pose proof Hw as Hw'. cbn [forallb] in Hw'. apply andb_true_iff in Hw' as [Ha _]. rewrite trim_start_fixed by by apply solid_whitespace.
  pose proof (until_whitespace_app (a :: w) [] Hw (or_introl eq_refl)) as Hu. rewrite app_nil_r in Hu. rewrite Hu. done.
Qed.
Lemma literal_complete c l : utf8 l = true -> rest c = word_text is_bare_literal l -> literal c = Ok l.
Proof.
  intros Hu Hr. destruct (c_mode c) eqn:Hm; [by apply literal_strict|]. unfold literal, word_text in *. destruct (is_bare_literal l) eqn:Hb.
  - apply bare_literal_iff in Hb as [Hne Hb]. destruct l as [|a l]; [done|]. pose proof Hb as Hb'. cbn [forallb] in Hb'. apply andb_true_iff in Hb' as [Ha _].
    rewrite decide_False by (unfold peek; rewrite Hr; intros [= ->]; done). rewrite Hm, Hr.
    assert (strip_prefix [ascii_of_nat 39] (a :: l) = None) as ->.
    { destruct (strip_prefix _ _) as [u|] eqn:Hs; [|done]. apply strip_prefix_Some in Hs. injection Hs as -> _. done. }
    cbn [mbind option_bind]. rewrite split_whitespace_solid; [done|done|]. apply (class_widen is_literal_byte); [done|]. intros d Hd. by apply literal_byte_solid.
  - rewrite decide_True by (unfold peek; rewrite Hr; by destruct (json_opens l Hu) as (u & ->)).
    destruct (takes_step c (json_to_string l) []) as [Ht Hr']; [by rewrite app_nil_r|].
    rewrite (quoted_complete c is_bare_literal l _ Hu (fun _ => Hb) Ht). cbn [mbind result_bind]. unfold cursor_end. by rewrite Hr'.
Qed.
Lemma literal_text_head l : utf8 l = true -> exists a u, word_text is_bare_literal l = a :: u /\ solid a = true.
Proof.
  intros Hu. unfold word_text. destruct (is_bare_literal l) eqn:Hb; [|destruct (json_opens l Hu) as (u & ->); eauto].
  apply bare_literal_iff in Hb as [Hne Hb]. destruct l as [|a u]; [done|]. exists a, u. split; [done|]. cbn in Hb. apply andb_true_iff in Hb as [Ha _].
  by apply literal_byte_solid.
Qed.
Lemma operator_head o : exists a u, operator_str o = a :: u /\ solid a = true.
Proof. destruct o; (do 2 eexists; split; [reflexivity|reflexivity]). Qed.

(** A printed comparison is read back in either mode, and strict mode reads
    nothing else. *)
Lemma comparison_complete c p o l : all_utf8 p -> utf8 l = true -> rest c = comparison_to_string p o l -> comparison c = Ok (p, o, l).
Proof.
  intros Hall Hu Hr. unfold comparison, comparison_to_string in *.
  destruct (takes_step c _ _ Hr) as [Ht1 Hr1]. set (c1 := advance _ c) in *.
  assert (peek c1 = Some space) as Hp1 by (unfold peek; by rewrite Hr1).
  rewrite (field_path_complete c p c1) by (done || by right). cbn [mbind result_bind].
  destruct (takes_step c1 [space] _ Hr1) as [Ht2 Hr2]. set (c2 := advance (length [space]) c1) in *.
  destruct (operator_head o) as (a & u & Ho & Ha). pose proof Hr2 as Hr2'. rewrite Ho in Hr2'.
  rewrite (separator_complete c1 _ _ c2 Ht2 Hr2' Ha). cbn [mbind result_bind].
  destruct (takes_step c2 _ _ Hr2) as [Ht3 Hr3]. set (c3 := advance _ c2) in *.
  rewrite (token_complete c2 (operator_str o) c3); [|done|apply operator_solid|unfold peek; by rewrite Hr3].
  rewrite (proj2 (operator_from_str_Ok _ o) eq_refl). cbn [mbind result_bind].
  destruct (takes_step c3 [space] _ Hr3) as [Ht4 Hr4]. set (c4 := advance (length [space]) c3) in *.
  destruct (literal_text_head l Hu) as (b & w & Hl & Hb). pose proof Hr4 as Hr4'. rewrite Hl in Hr4'.
  rewrite (separator_complete c3 _ _ c4 Ht4 Hr4' Hb). cbn [mbind result_bind]. by rewrite (literal_complete c4 l Hu Hr4).
Qed.
Lemma comparison_strict c p o l : c_mode c = Strict ->
  comparison c = Ok (p, o, l) <-> all_utf8 p /\ utf8 l = true /\ rest c = comparison_to_string p o l.
Proof.
  intros Hm. split; [|intros (Hall & Hu & Hr); by apply comparison_complete]. unfold comparison, comparison_to_string.
  destruct (field_path c) as [[p' c1]|] eqn:Hp; [|done]. apply field_path_sound in Hp as [Hall Ht1]; [|done]. cbn [mbind result_bind].
  pose proof (takes_mode _ _ _ Ht1) as Hm1. rewrite Hm in Hm1.
  destruct (separator c1) as [c2|] eqn:Hs2; [|done]. apply separator_strict in Hs2; [|done]. cbn [mbind result_bind].
  pose proof (takes_mode _ _ _ Hs2) as Hm2. destruct (token c2) as [tok c3] eqn:Htok. apply token_takes in Htok.
  pose proof (takes_mode _ _ _ Htok) as Hm3. destruct (operator_from_str tok) as [o'|] eqn:Ho; [|done]. apply operator_from_str_Ok in Ho as ->.
  cbn [mbind result_bind]. destruct (separator c3) as [c4|] eqn:Hs4; [|done]. apply separator_strict in Hs4; [|congruence]. cbn [mbind result_bind].
  pose proof (takes_mode _ _ _ Hs4) as Hm4. destruct (literal c4) as [l'|] eqn:Hl; [|done]. apply literal_strict in Hl as [Hu Hr]; [|congruence].
  cbn [mbind result_bind]. intros [= <- <- <-]. split_and!; [done|done|]. destruct Ht1 as [-> _], Hs2 as [-> _], Htok as [-> _], Hs4 as [-> _]. by rewrite Hr.
Qed.

(** ** Variables *)

(** The text of arguments after the opening parenthesis. *)
Definition args_text (args : list text) : text := join [comma] (map (word_text is_bare_segment) args) ++ [close_paren].
Lemma args_text_cons w args : args <> [] -> args_text (w :: args) = word_text is_bare_segment w ++ [comma] ++ args_text args.
Proof. intros Hne. unfold args_text. cbn [map]. rewrite join_cons by by destruct args. by rewrite <-app_assoc. Qed.

Lemma args_loop_sound fuel c acc l c' : c_mode c = Strict -> args_loop fuel c acc = Ok (l, c') ->
  exists args, args <> [] /\ l = acc ++ args /\ all_utf8 args /\ takes c (args_text args) c'.
Proof.
  revert c acc. induction fuel as [|fuel IH]; intros c acc Hm; [done|]. cbn [args_loop].
  destruct (word c is_bare_segment _) as [[w c1]|] eqn:Hw; [|done]. apply word_sound in Hw as [Hu Ht]; [|done]. cbn [mbind result_bind].
  pose proof (takes_mode _ _ _ Ht) as Hm1. case_decide as Hp; [|case_decide as Hp'; [|done]].
  - apply takes_one in Hp. intros (args & Hne & -> & Hall & Hta)%IH; [|by rewrite (takes_mode _ _ _ Hp), Hm1].
    exists (w :: args). split; [done|]. split; [by rewrite <-app_assoc|]. split; [by constructor|]. rewrite args_text_cons by done.
    eapply takes_app; [exact Ht|]. eapply takes_app; [exact Hp|exact Hta].
  - apply takes_one in Hp'. intros [= <- <-]. exists [w]. split_and!; [done|done|by repeat constructor|]. by eapply takes_app.
Qed.
Lemma args_loop_complete fuel c acc args c' : args <> [] -> all_utf8 args -> takes c (args_text args) c' ->
  (length args <= fuel)%nat -> args_loop fuel c acc = Ok (acc ++ args, c').
Proof.
  revert c acc args. induction fuel as [|fuel IH]; intros c acc args Hne Hall Ht Hf; [by destruct args; cbn in Hf; [|lia]|].
  destruct args as [|w args]; [done|]. apply Forall_cons in Hall as [Hw Hall]. cbn [args_loop]. destruct args as [|w2 args].
  - unfold args_text in Ht. cbn [map join] in Ht. apply takes_split in Ht as (c1 & Ht1 & Ht2). pose proof (takes_peek _ _ _ _ Ht2) as Hp.
    rewrite (word_complete _ w c1); [|done|done|unfold stops; rewrite Hp; set_solver]. cbn [mbind result_bind].
    rewrite decide_False, decide_True by (done || by rewrite Hp). by rewrite (takes_det _ _ _ _ (takes_one _ _ Hp) Ht2).
  - rewrite args_text_cons in Ht by done. apply takes_split in Ht as (c1 & Ht1 & Ht2). pose proof (takes_peek _ _ _ _ Ht2) as Hp.
    apply takes_split in Ht2 as (c2 & Hc2 & Ht2).
    rewrite (word_complete _ w c1); [|done|done|unfold stops; rewrite Hp; set_solver]. cbn [mbind result_bind]. rewrite decide_True by done.
    rewrite (takes_det _ _ _ _ (takes_one _ _ Hp) Hc2). rewrite (IH c2 _ (w2 :: args)); [by rewrite <-app_assoc|done|done|done|].
    cbn in Hf |- *. lia.
Qed.
Lemma args_text_length args : all_utf8 args -> (length args <= length (args_text args))%nat.
Proof.
  intros Hall. unfold args_text. rewrite length_app. induction Hall as [|w args Hw Hall IH]; [cbn; lia|]. cbn [map].
  destruct (decide (args = [])) as [->|Hne]; [cbn; lia|]. rewrite join_cons by by destruct args. rewrite length_app. cbn [length] in *. lia.
Qed.

Record variable_ok (v : Variable_) : Prop := {
  variable_ok_name : variable_new (var_name v) (var_arguments v) = Ok v;
  variable_ok_arguments : all_utf8 (var_arguments v);
}.
Lemma variable_new_Ok nm args v : variable_new nm args = Ok v <-> v = mkVariable nm args /\ variable_new (var_name v) (var_arguments v) = Ok v.
Proof.
  split; [|intros [-> Hv]; exact Hv]. intros Hv. assert (v = mkVariable nm args) as ->; [|done].
  revert Hv. unfold variable_new. destruct nm as [|a nm]; [done|]. destruct (is_lower a && _); [|done]. by intros [= <-].
Qed.
Lemma variable_name_bytes v : variable_new (var_name v) (var_arguments v) = Ok v -> forallb is_name_byte (var_name v) = true.
Proof.
  unfold variable_new. destruct (var_name v) as [|c nm]; [done|]. destruct (is_lower c && forallb is_name_byte nm) eqn:Hv; [|done]. intros _.
  apply andb_true_iff in Hv as [Hc Hn]. cbn. rewrite Hn, andb_true_r. unfold is_name_byte. by rewrite Hc.
Qed.

Lemma variable_sound c v c' : c_mode c = Strict -> variable c = Ok (v, c') -> variable_ok v /\ takes c (variable_to_string v) c'.
Proof.
  intros Hm. unfold variable. case_decide as Hp; [|done]. apply takes_one in Hp. set (c1 := advance 1 c) in *. pose proof (takes_mode _ _ _ Hp) as Hm1.
  destruct (span is_name_byte (rest c1)) as [nm r] eqn:Hs. apply span_spec in Hs as (Hr & Hn & _). cbn [fst].
  destruct (takes_step c1 nm r Hr) as [Ht2 Hr2]. set (c2 := advance (length nm) c1) in *. pose proof (takes_mode _ _ _ Ht2) as Hm2.
  assert (forall args c3, all_utf8 args -> takes c2 (match args with [] => [] | _ => open_paren :: args_text args end) c3 ->
    (v0 ← variable_new nm args; Ok (v0, c3)) = Ok (v, c') -> variable_ok v /\ takes c (variable_to_string v) c') as Hdone.
  { intros args c3 Hall Ht3. run_step. apply variable_new_Ok in E as [-> E]. intros [= <- <-]. split; [by split|].
    unfold variable_to_string. cbn [var_name var_arguments]. apply (takes_app c [dollar] c1); [done|].
    eapply takes_app; [exact Ht2|]. destruct args; exact Ht3. }
  case_decide as Hp2.
  - apply takes_one in Hp2. destruct (args_loop _ _ []) as [[args c3]|] eqn:Ha; [|done]. cbn [mbind result_bind].
    apply args_loop_sound in Ha as (args' & Hne & -> & Hall & Ht3); [|by rewrite (takes_mode _ _ _ Hp2), Hm2, Hm1].
    apply Hdone; [done|]. cbn [app]. destruct args'; [done|]. by apply (takes_app c2 [open_paren] (advance 1 c2)).
  - cbn [mbind result_bind]. apply Hdone; [constructor|]. split; [done|]. unfold advance. destruct c2. cbn. by rewrite Nat.add_0_r.
Qed.
Lemma variable_complete c v c' : variable_ok v -> takes c (variable_to_string v) c' -> peek c' = Some space ->
  variable c = Ok (v, c').
Proof.
  intros [Hv Hall] Ht Hsp. unfold variable_to_string in Ht. pose proof (takes_peek _ _ _ _ Ht) as Hp. unfold variable. rewrite decide_True by done.
  change (dollar :: ?x) with ([dollar] ++ x) in Ht. apply takes_split in Ht as (c1 & Hc1 & Ht). rewrite (takes_det _ _ _ _ (takes_one _ _ Hp) Hc1).
  apply takes_split in Ht as (c2 & Hc2 & Ht).
  assert (span is_name_byte (rest c1) = (var_name v, rest c2)) as ->.
  { destruct Hc2 as [-> _]. apply span_app; [by apply variable_name_bytes|].
    destruct (var_arguments v); [destruct Ht as [Hr2 _]; cbn in Hr2|apply takes_peek in Ht; unfold peek in Ht].
    - rewrite Hr2. unfold peek in Hsp. destruct (rest c'); [done|]. injection Hsp as ->. done.
    - destruct (rest c2); [done|]. injection Ht as ->. done. }
  cbn [fst]. assert (advance (length (var_name v)) c1 = c2) as -> by by destruct Hc2 as [_ ->].
  destruct (var_arguments v) as [|w args] eqn:Hargs.
  - assert (c2 = c') as -> by (destruct Ht as [_ ->]; destruct c2; unfold advance; cbn; by rewrite Nat.add_0_r).
    rewrite decide_False by (rewrite Hsp; done). cbn [mbind result_bind]. by rewrite Hv.
  - fold (args_text (w :: args)) in Ht. pose proof (takes_peek _ _ _ _ Ht) as Hp2. rewrite decide_True by done.
    change (open_paren :: ?x) with ([open_paren] ++ x) in Ht. apply takes_split in Ht as (c3 & Hc3 & Ht).
    rewrite (takes_det _ _ _ _ (takes_one _ _ Hp2) Hc3).
    rewrite (args_loop_complete _ c3 [] (w :: args) c'); [|done|done|done|].
    + cbn [mbind result_bind app]. by rewrite Hv.
    + apply args_text_length in Hall. destruct Ht as [Hr _]. rewrite Hr, length_app. lia.
Qed.
End strict.

(** * Fuel *)

Section fuel.
Context `{JsonString}.

(** A word takes a byte at least, in either mode. *)
Lemma word_shrinks c bare e w c' : word c bare e = Ok (w, c') -> (length (rest c') < length (rest c))%nat.
Proof.
  unfold word. case_decide as Hp.
  - unfold quoted, peek in *. destruct (rest c) as [|q u] eqn:Hr; [done|]. cbn [tail]. destruct (quote_end false u) as [n|]; [|done]. cbn [ok_or mbind result_bind].
    destruct (json_from_str _) as [v|]; [|done]. cbn [ok_or mbind result_bind].
    assert (length (rest (advance (S n) c)) < S (length u))%nat by (rewrite rest_advance, Hr; cbn; rewrite length_drop; lia).
    case_decide; [destruct (_ || _); [done|]|]; intros [= <- <-]; done.
  - match goal with |- context [match ?w with [] => _ | _ :: _ => _ end] => destruct w as [|a u] eqn:Hw; [done|] end. intros [= <- <-].
    rewrite rest_advance, length_drop. assert (rest c <> []) as Hne by (intros Hr; rewrite Hr in Hw; by destruct (c_mode c)).
    destruct (rest c); [done|]. cbn. lia.
Qed.
Lemma advance_shrinks n c : (length (rest (advance n c)) <= length (rest c))%nat.
Proof. rewrite rest_advance, length_drop. lia. Qed.
(** One more than the bytes left is fuel enough for both loops. *)
Lemma path_loop_fuel n m c acc : (length (rest c) < n)%nat -> (length (rest c) < m)%nat -> path_loop n c acc = path_loop m c acc.
Proof.
  revert m c acc. induction n as [|n IH]; intros m c acc Hn Hm; [lia|]. destruct m as [|m]; [lia|]. cbn [path_loop].
  destruct (word c is_bare_segment _) as [[w c1]|] eqn:Hw; [|done]. cbn [mbind result_bind]. apply word_shrinks in Hw. case_decide; [|done].
  pose proof (advance_shrinks 1 c1). apply IH; lia.
Qed.
Lemma args_loop_fuel n m c acc : (length (rest c) < n)%nat -> (length (rest c) < m)%nat -> args_loop n c acc = args_loop m c acc.
Proof.
  revert m c acc. induction n as [|n IH]; intros m c acc Hn Hm; [lia|]. destruct m as [|m]; [lia|]. cbn [args_loop].
  destruct (word c is_bare_segment _) as [[w c1]|] eqn:Hw; [|done]. cbn [mbind result_bind]. apply word_shrinks in Hw. case_decide; [|done].
  pose proof (advance_shrinks 1 c1). apply IH; lia.
Qed.
End fuel.

(** * Round trips *)

Section round_trips.
Context `{Lowercase} `{JsonString}.

Record condition_ok (c : Condition) : Prop := {
  condition_ok_address : complete (cond_address c);
  condition_ok_path : all_utf8 (cond_path c);
  condition_ok_literal : utf8 (cond_literal c) = true;
}.
Record template_ok (t : Template) : Prop := {
  template_ok_subject : variable_ok (tpl_subject t);
  template_ok_path : all_utf8 (tpl_path t);
  template_ok_literal : utf8 (tpl_literal t) = true;
}.

(** A field path alone parses exactly from its printed form. *)
Lemma path_round_trip t p : path_from_str t = Ok p <-> all_utf8 p /\ t = path_to_string p.
Proof.
  unfold path_from_str. set (c := cursor_new t Strict). split.
  - destruct (field_path c) as [[q c1]|] eqn:Hp; [|done]. apply field_path_sound in Hp as [Hall [Hr _]]; [|done]. cbn [mbind result_bind].
    unfold cursor_end. destruct (rest c1) eqn:Hr1; [|done]. cbn [mbind result_bind]. intros [= <-]. by rewrite app_nil_r in Hr.
  - intros [Hall ->]. destruct (takes_step c (path_to_string p) []) as [Ht Hr]; [by rewrite app_nil_r|].
    rewrite (field_path_complete c p _ Hall Ht) by (left; unfold peek; by rewrite Hr). cbn [mbind result_bind]. unfold cursor_end. by rewrite Hr.
Qed.

(** C26: A condition parses exactly from its printed form: strict parsing gives a
    condition exactly when its address is whole and the text is what the printer
    writes for it, single spaces, bare words where possible and JSON quoting as
    printed; every other spelling is refused. *)
Theorem condition_round_trip t c : condition_from_str t = Ok c <-> condition_ok c /\ t = condition_to_string c.
Proof.
  unfold condition_from_str, condition_to_string. set (k := cursor_new t Strict). assert (c_mode k = Strict) as Hm by done. split.
  - destruct (token k) as [tok c1] eqn:Htok. apply token_takes in Htok. destruct (from_str tok) as [a|] eqn:Ha; [|done].
    apply from_str_Ok in Ha as [Ha <-]. cbn [mbind result_bind]. pose proof (takes_mode _ _ _ Htok) as Hm1.
    destruct (separator c1) as [c2|] eqn:Hs; [|done]. apply separator_strict in Hs; [|done]. cbn [mbind result_bind].
    pose proof (takes_mode _ _ _ Hs) as Hm2. destruct (comparison c2) as [[[p o] l]|] eqn:Hc; [|done]. apply comparison_strict in Hc as (Hp & Hl & Hr); [|congruence].
    cbn [mbind result_bind]. intros [= <-]. split; [by split|]. destruct Htok as [Hk _], Hs as [Hr1 _]. cbn. rewrite Hr1, Hr in Hk. exact Hk.
  - intros [[Ha Hp Hl] Ht]. destruct (takes_step k _ _ Ht) as [Ht1 Hr1]. set (c1 := advance _ k) in *. pose proof (takes_mode _ _ _ Ht1) as Hm1.
    rewrite (token_complete k (as_str (cond_address c)) c1); [|done| |unfold peek; by rewrite Hr1].
    2: { apply (class_widen address_byte); [apply address_bytes, Ha|]. apply address_byte_solid. }
    rewrite (proj2 (from_str_Ok _ _) (conj Ha eq_refl)). cbn [mbind result_bind].
    destruct (takes_step c1 [space] _ Hr1) as [Ht2 Hr2]. set (c2 := advance (length [space]) c1) in *. pose proof (takes_mode _ _ _ Ht2) as Hm2.
    rewrite (proj2 (separator_strict c1 c2 ltac:(done)) Ht2). cbn [mbind result_bind].
    rewrite (proj2 (comparison_strict c2 _ _ _ ltac:(congruence)) (conj Hp (conj Hl Hr2))). by destruct c.
Qed.

(** A template parses exactly from its printed form: a valid variable, its
    arguments in parentheses only when it has some, and the comparison as a
    condition's. *)
Theorem template_round_trip t p : template_from_str t = Ok p <-> template_ok p /\ t = template_to_string p.
Proof.
  unfold template_from_str, template_to_string. set (k := cursor_new t Strict). assert (c_mode k = Strict) as Hm by done. split.
  - destruct (variable k) as [[v c1]|] eqn:Hv; [|done]. apply variable_sound in Hv as [Hv Ht1]; [|done]. cbn [mbind result_bind].
    pose proof (takes_mode _ _ _ Ht1) as Hm1.
    destruct (separator c1) as [c2|] eqn:Hs; [|done]. apply separator_strict in Hs; [|done]. cbn [mbind result_bind].
    pose proof (takes_mode _ _ _ Hs) as Hm2. destruct (comparison c2) as [[[q o] l]|] eqn:Hc; [|done]. apply comparison_strict in Hc as (Hp & Hl & Hr); [|congruence].
    cbn [mbind result_bind]. intros [= <-]. split; [by split|]. destruct Ht1 as [Hk _], Hs as [Hr1 _]. cbn [tpl_subject tpl_path tpl_operator tpl_literal].
    rewrite Hr1, Hr in Hk. exact Hk.
  - intros [[Hv Hp Hl] Ht]. destruct (takes_step k _ _ Ht) as [Ht1 Hr1]. set (c1 := advance _ k) in *. pose proof (takes_mode _ _ _ Ht1) as Hm1.
    rewrite (variable_complete k (tpl_subject p) c1); [|done|done|unfold peek; by rewrite Hr1]. cbn [mbind result_bind].
    destruct (takes_step c1 [space] _ Hr1) as [Ht2 Hr2]. set (c2 := advance (length [space]) c1) in *. pose proof (takes_mode _ _ _ Ht2) as Hm2.
    rewrite (proj2 (separator_strict c1 c2 ltac:(done)) Ht2). cbn [mbind result_bind].
    rewrite (proj2 (comparison_strict c2 _ _ _ ltac:(congruence)) (conj Hp (conj Hl Hr2))). by destruct p.
Qed.
End round_trips.

(** * Lenient input *)

Section lenient.
Context `{Lowercase} `{JsonString} `{ForgeLookup}.

Lemma quote_end_last e t : quote_end e t = Some (length t) -> exists u, t = u ++ [quote].
Proof.
  revert e. induction t as [|c t IH]; intros e; [done|]. cbn [quote_end length].
  assert (forall e', S <$> quote_end e' t = Some (S (length t)) -> exists u, c :: t = u ++ [quote]) as Hstep.
  { intros e' (m & Hm & [= <-])%fmap_Some. destruct (IH e' Hm) as (u & ->). by exists (c :: u). }
  destruct e; [apply Hstep|]. case_decide; [apply Hstep|]. case_decide as Hq; [|apply Hstep].
  intros [= Hl]. destruct t; [|done]. subst c. by exists [].
Qed.
Lemma literal_text_last l : utf8 l = true -> exists u a, word_text is_bare_literal l = u ++ [a] /\ solid a = true.
Proof.
  intros Hu. unfold word_text. destruct (is_bare_literal l) eqn:Hb.
  - apply bare_literal_iff in Hb as [Hne Hb]. destruct l as [|a u _] using rev_ind; [done|]. exists u, a. split; [done|].
    rewrite forallb_app in Hb. apply andb_true_iff in Hb as [_ Ha]. cbn in Ha. rewrite andb_true_r in Ha. by apply literal_byte_solid.
  - destruct (json_shape l Hu) as (body & -> & He). destruct (quote_end_last _ _ He) as (u & ->). by exists (quote :: u), quote.
Qed.
(** A printed line starts and ends with solid bytes, so trimming keeps it. *)
Lemma trim_printed a s p o l : solid a = true -> utf8 l = true ->
  trim (a :: s ++ space :: comparison_to_string p o l) = a :: s ++ space :: comparison_to_string p o l.
Proof.
  intros Ha Hl. unfold trim. rewrite trim_start_fixed by by apply solid_whitespace. unfold comparison_to_string.
  destruct (literal_text_last l Hl) as (u & b & -> & Hb).
  replace (a :: s ++ space :: path_to_string p ++ space :: operator_str o ++ space :: u ++ [b])
    with ((a :: s ++ space :: path_to_string p ++ space :: operator_str o ++ space :: u) ++ [b]).
  - by apply trim_end_solid.
  - cbn [app]. f_equal. rewrite <-!app_assoc. cbn [app]. rewrite <-!app_assoc. cbn [app]. by rewrite <-!app_assoc.
Qed.

(** Lenient parsing accepts everything the printers write, with the same
    meaning: a printed template resolves to itself, and a printed condition to
    the condition with its address resolved. *)
Theorem lenient_reads_printed t c a : template_ok t -> condition_ok c -> resolve (as_str (cond_address c)) = Ok a ->
  template_resolve (template_to_string t) = Ok t /\
  condition_resolve (condition_to_string c) = Ok (mkCondition a (cond_path c) (cond_operator c) (cond_literal c)).
Proof.
  intros [Hv Hp Hl] [Ha Hcp Hcl] Hres. split.
  - unfold template_resolve, template_to_string, variable_to_string. rewrite <-app_comm_cons, trim_printed by done.
    rewrite app_comm_cons. fold (variable_to_string (tpl_subject t)). set (k := cursor_new _ Lenient).
    destruct (takes_step k (variable_to_string (tpl_subject t)) _ eq_refl) as [Ht1 Hr1]. set (c1 := advance _ k) in *.
    assert (peek c1 = Some space) as Hp1 by (unfold peek; by rewrite Hr1).
    rewrite (variable_complete k (tpl_subject t) c1) by done. cbn [mbind result_bind]. rewrite decide_False by (rewrite Hp1; done).
    destruct (takes_step c1 [space] _ Hr1) as [Ht2 Hr2]. set (c2 := advance (length [space]) c1) in *.
    assert (exists u, rest c2 = dot :: u) as (u & Hu) by (rewrite Hr2; unfold comparison_to_string; rewrite path_text_tail; by eexists).
    rewrite (separator_complete c1 dot u c2) by done. cbn [mbind result_bind]. rewrite (comparison_complete c2 _ _ _ Hp Hl Hr2). by destruct t.
  - unfold condition_resolve, condition_to_string. pose proof (address_bytes _ (complete_built _ Ha)) as Hbytes.
    assert (forallb solid (as_str (cond_address c)) = true) as Hsolid by (apply (class_widen address_byte); [done|apply address_byte_solid]).
    assert (trim (as_str (cond_address c) ++ space :: comparison_to_string (cond_path c) (cond_operator c) (cond_literal c)) =
      as_str (cond_address c) ++ space :: comparison_to_string (cond_path c) (cond_operator c) (cond_literal c)) as ->.
    { destruct (as_str (cond_address c)) as [|b s] eqn:Hs.
      - exfalso. rewrite (built_text _ (complete_built _ Ha)) in Hs. apply join_pieces_nil in Hs as [Hs _]. by destruct Ha.
      - cbn [forallb] in Hsolid. apply andb_true_iff in Hsolid as [Hb _]. rewrite <-app_comm_cons. by apply trim_printed. }
    set (k := cursor_new _ Lenient).
    destruct (takes_step k (as_str (cond_address c)) _ eq_refl) as [Ht1 Hr1]. set (c1 := advance _ k) in *.
    rewrite (token_complete k (as_str (cond_address c)) c1); [|done|done|unfold peek; by rewrite Hr1]. rewrite Hres. cbn [mbind result_bind].
    destruct (takes_step c1 [space] _ Hr1) as [Ht2 Hr2]. set (c2 := advance (length [space]) c1) in *.
    assert (exists u, rest c2 = dot :: u) as (u & Hu) by (rewrite Hr2; unfold comparison_to_string; rewrite path_text_tail; by eexists).
    rewrite (separator_complete c1 dot u c2) by done. cbn [mbind result_bind]. by rewrite (comparison_complete c2 _ _ _ Hcp Hcl Hr2).
Qed.
End lenient.

(** * A JSON string printer that keeps the laws *)

Module PlainJson.
Definition backslash : ascii := ascii_of_nat 92.
Definition escape_byte (c : ascii) : text := if decide (c = quote) then [backslash; quote] else if decide (c = backslash) then [backslash; backslash] else [c].
Definition to_string (v : text) : text := quote :: flat_map escape_byte v ++ [quote].
Fixpoint unescape (t : text) : option text :=
  match t with
  | [] => None
  | c :: u =>
      if decide (c = quote) then match u with [] => Some [] | _ => None end
      else if decide (c = backslash) then match u with d :: u => cons d <$> unescape u | [] => None end
      else cons c <$> unescape u
  end.
Definition from_str (t : text) : option text :=
  match t with
  | c :: u => if decide (c = quote) then v ← unescape u; (if utf8 v then Some v else None) else None
  | [] => None
  end.

Lemma unescape_escaped v : unescape (flat_map escape_byte v ++ [quote]) = Some v.
Proof.
  induction v as [|c v IH]; [done|]. cbn [flat_map]. rewrite <-app_assoc. unfold escape_byte at 1.
  case_decide as H1; [subst c; cbn [app unescape]; rewrite decide_False, decide_True, IH by done; done|].
  case_decide as H2; [subst c; cbn [app unescape]; rewrite decide_False, decide_True, IH by done; done|].
  cbn [app unescape]. by rewrite !decide_False, IH by done.
Qed.
Lemma backslash_val c : byte_val c = 92 <-> c = backslash.
Proof. split; [|by intros ->]. intros Hc. apply (inj byte_val). by rewrite Hc. Qed.
Lemma quote_end_escaped v : quote_end false (flat_map escape_byte v ++ [quote]) = Some (length (flat_map escape_byte v ++ [quote])).
Proof.
  induction v as [|c v IH]; [done|]. cbn [flat_map]. rewrite <-app_assoc. unfold escape_byte at 1 3.
  case_decide as H1; [subst c; cbn [app quote_end]; rewrite decide_True by done; by rewrite IH|].
  case_decide as H2; [subst c; cbn [app quote_end]; rewrite decide_True by done; by rewrite IH|].
  cbn [app quote_end]. rewrite decide_False by (by rewrite backslash_val). by rewrite decide_False, IH by done.
Qed.
End PlainJson.
#[export] Program Instance plain_json : JsonString := {| json_to_string := PlainJson.to_string; json_from_str := PlainJson.from_str |}.
Next Obligation.
  intros v Hv. cbn. rewrite decide_True by done. rewrite PlainJson.unescape_escaped. cbn. by rewrite Hv.
Qed.
Next Obligation.
  intros t v. unfold PlainJson.from_str. destruct t as [|c u]; [done|]. case_decide; [|done]. destruct (PlainJson.unescape u) as [w|]; [|done]. cbn.
  destruct (utf8 w) eqn:Hw; [|done]. by intros [= <-].
Qed.
Next Obligation. intros v _. eexists. split; [reflexivity|]. apply PlainJson.quote_end_escaped. Qed.
