(* ===== verification/AddressExamples.v ===== *)
(** Concrete addresses, references and conditions the theorems about addresses
    are applied to: lowercasing is ASCII's, the forges are the built-in ones,
    JSON strings and digests are instances that keep their laws. *)

From Stdlib Require Import Ascii.
From S2P Require Import Prelude Text Encoding Address Names Resolve Condition.
#[local] Open Scope Z_scope.

#[local] Existing Instance BuiltinForges.
#[local] Instance constant_digest : Sha256 := {| sha256 := fun _ => repeat zero 32; sha256_length := fun _ => eq_refl |}.

(** The address a literal parses to. *)
Definition addr (s : string) : Address := match from_str (tx s) with Ok a => a | Err _ => empty_address end.
Lemma addr_complete s : is_ok (from_str (tx s)) = true -> complete (addr s).
Proof. unfold addr. destruct (from_str (tx s)) as [a|] eqn:Ha; [|done]. intros _. by apply from_str_Ok in Ha as [Ha _]. Qed.
Ltac whole := apply addr_complete; vm_compute; reflexivity.

Definition demo_role := addr "project:flotilla/convoy:demo/role:coder".
Definition demo_convoy := addr "project:flotilla/convoy:demo".
Definition demo_cr := addr "forge:github/repo:flotilla-org%2Fflotilla/cr:42".
Definition demo_issue := addr "forge:lab/repo:team%2Frepo/issue:7".
Definition demo_artifact := addr "convoy:demo/role:coder/artifact:review/of:a%20b".

(** What the constructors and the parser give on concrete input, errors too. *)
Example parse_examples :
  from_str (tx "convoy:demo/vessel:a/role:b") = Err (E_Shape Kind.Role (Some Kind.Vessel)) /\
  from_str (tx "forge:github/repo:Org%2Frepo") = Err (E_InvalidValue Kind.Repo (tx "Org/repo") (tx "a GitHub repository is lowercase")) /\
  from_str (tx "convoy:a%2fb") = Err (E_NonCanonicalEncoding (tx "a%2fb")) /\
  from_str (tx "convoy:d/role:c/artifact:k") = Err E_ArtifactWithoutSubject /\
  as_str demo_role = tx "project:flotilla/convoy:demo/role:coder" /\
  as_str <$> resolve (tx " https://GitHub.com/Flotilla-Org/Flotilla/pull/42/files ") = Ok (tx "forge:github/repo:flotilla-org%2Fflotilla/cr:42") /\
  as_str <$> resolve (tx "git@github.com:Org/Repo.git") = Ok (tx "forge:github/repo:org%2Frepo") /\
  record_name demo_cr = Some (Some (tx "cr-6769746875622e636f6d-666c6f74696c6c612d6f72672f666c6f74696c6c61-42")).
Proof. vm_compute. repeat split. Qed.

Lemma constructed_round_trip_witness :
  exists a b, child demo_role Kind.Artifact (tx "k") = Ok a /\ artifact demo_role (tx "k") (tx "s") = Ok b /\
    from_str (as_str a) = Err E_ArtifactWithoutSubject /\ from_str (as_str b) = Ok b.
Proof.
  destruct (child demo_role Kind.Artifact (tx "k")) as [a|] eqn:Ha; [|vm_compute in Ha; discriminate].
  destruct (artifact demo_role (tx "k") (tx "s")) as [b|] eqn:Hb; [|vm_compute in Hb; discriminate].
  assert (constructed demo_role) as Hr by (apply (constructed_parse (as_str demo_role)); vm_compute; reflexivity).
  assert (constructed a) as Ca by (eapply constructed_child; [exact Hr| |exact Ha]; vm_compute; reflexivity).
  assert (constructed b) as Cb by (eapply constructed_artifact; [exact Hr| | |exact Hb]; vm_compute; reflexivity).
  exists a, b. split; [reflexivity|]. split; [reflexivity|].
  pose proof (constructed_round_trip a b Ca Cb) as [H1 _]. pose proof (constructed_round_trip b a Cb Ca) as [H2 _].
  vm_compute in Ha, Hb. injection Ha as <-. injection Hb as <-. split; [exact H1|exact H2].
Defined.

Lemma under_is_segment_prefix_witness :
  is_under demo_role demo_convoy = true /\ segments demo_convoy `prefix_of` segments demo_role.
Proof.
  assert (is_under demo_role demo_convoy = true) as H by (vm_compute; reflexivity). split; [exact H|].
  apply (under_is_segment_prefix demo_role demo_convoy); [whole|whole|exact H].
Defined.
Lemma descendant_bounds_exact_witness :
  text_lt (as_str demo_role) (fst (descendant_bounds demo_convoy)) = false /\
  text_lt (as_str demo_role) (snd (descendant_bounds demo_convoy)) = true /\
  segments demo_convoy `prefix_of` segments demo_role.
Proof.
  assert (text_lt (as_str demo_role) (fst (descendant_bounds demo_convoy)) = false) as H1 by (vm_compute; reflexivity).
  assert (text_lt (as_str demo_role) (snd (descendant_bounds demo_convoy)) = true) as H2 by (vm_compute; reflexivity).
  split; [exact H1|]. split; [exact H2|].
  apply (descendant_bounds_exact demo_role demo_convoy); [whole|whole|split; [exact H1|exact H2]].
Defined.
Lemma parent_exact_witness : parent demo_role = Some demo_convoy /\ exists s, segments demo_role = segments demo_convoy ++ [s].
Proof.
  assert (parent demo_role = Some demo_convoy) as H by (vm_compute; reflexivity). split; [exact H|].
  apply (parent_exact demo_role demo_convoy); [whole|exact H].
Defined.

Lemma forge_record_names_injective_witness : record_name demo_cr <> record_name demo_issue.
Proof.
  intros H. destruct (forge_record_names_injective demo_cr demo_issue Kind.ChangeRequest Kind.Issue) as [_ Hinj];
    [whole|whole|vm_compute; reflexivity..|]. specialize (Hinj H). vm_compute in Hinj. discriminate.
Defined.
Lemma artifact_record_names_witness :
  exists n, record_name demo_artifact = Some (Some n) /\
    ((tx "demo" = tx "demo" /\ tx "coder" = tx "coder" /\ tx "review" = tx "review" /\ tx "a b" = tx "a b") \/ exists x y, x <> y /\ sha256 x = sha256 y).
Proof.
  destruct (record_name demo_artifact) as [[n|]|] eqn:Hn; [|vm_compute in Hn; discriminate..].
  exists n. split; [reflexivity|].
  assert (Forall fits [tx "demo"; tx "coder"; tx "review"; tx "a b"]) as Hf.
  { repeat constructor; unfold fits, is_u64; cbn; unfold u64_max; lia. }
  refine (artifact_record_names demo_artifact demo_artifact _ _ _ _ _ _ _ _ n _ _ _ _ _ _ _ _ _ _ Hf Hf Hn Hn); vm_compute; reflexivity.
Defined.

Lemma place_deepest_witness :
  place (addr "convoy:lander") demo_role = Some (addr "project:flotilla/convoy:lander").
Proof.
  rewrite (place_deepest (addr "convoy:lander") demo_role Kind.Convoy); [vm_compute; reflexivity|whole|whole|vm_compute; reflexivity].
Defined.
Lemma completion_sound_witness :
  exists several, complete_address (addr "convoy:demo") None [demo_convoy; addr "project:other/convoy:demo"] = Some (Err (Ambiguous (addr "convoy:demo") several)) /\
    forall c, c ∈ several <-> c ∈ [demo_convoy; addr "project:other/convoy:demo"] /\
      segments (addr "convoy:demo") `suffix_of` segments c /\ of_subject c = of_subject (addr "convoy:demo").
Proof.
  pose proof (completion_sound (addr "convoy:demo") None [demo_convoy; addr "project:other/convoy:demo"]) as H.
  assert (exists several, complete_address (addr "convoy:demo") None [demo_convoy; addr "project:other/convoy:demo"] =
    Some (Err (Ambiguous (addr "convoy:demo") several))) as [several Hs] by (eexists; vm_compute; reflexivity).
  rewrite Hs in H. exists several. split; [exact Hs|]. apply H; [whole|intros c Hc; discriminate|].
  constructor; [whole|]. constructor; [whole|constructor].
Defined.

Definition pasted : text := tx " https://GitHub.com/Flotilla-Org/Flotilla/pull/42/files ".
Lemma resolve_whole_witness : exists a, resolve pasted = Ok a /\ from_str (as_str a) = Ok a.
Proof.
  destruct (resolve pasted) as [a|] eqn:Ha; [|vm_compute in Ha; discriminate]. exists a. split; [reflexivity|].
  apply (resolve_whole pasted a); [vm_compute; reflexivity|exact Ha].
Defined.
Lemma resolve_stable_witness : exists a, resolve pasted = Ok a /\ resolve (as_str a) = Ok a.
Proof.
  destruct (resolve pasted) as [a|] eqn:Ha; [|vm_compute in Ha; discriminate]. exists a. split; [reflexivity|].
  refine (proj1 (resolve_stable pasted a _ Ha)). vm_compute. reflexivity.
Defined.

Definition demo_template : Template :=
  mkTemplate (mkVariable (tx "artifact") [tx "reviewer"; tx "a b"]) [tx "labels"; tx "good first issue"] Equal (tx "v1.2:x").
Definition demo_condition : Condition := mkCondition demo_cr [tx "checks"] NotEqual (tx "not passing").
Lemma lenient_reads_printed_witness :
  template_resolve (template_to_string demo_template) = Ok demo_template /\
  condition_resolve (condition_to_string demo_condition) = Ok demo_condition.
Proof.
  assert (template_ok demo_template) as Ht by (split; [split|..]; repeat constructor).
  assert (condition_ok demo_condition) as Hc by (split; [whole|repeat constructor|reflexivity]).
  apply (lenient_reads_printed demo_template demo_condition demo_cr Ht Hc). vm_compute. reflexivity.
Defined.

Lemma address_parse_exact_witness :
  from_str (tx "convoy:demo/role:coder/artifact:review/of:a%20b") = Ok demo_artifact /\ complete demo_artifact.
Proof.
  assert (from_str (tx "convoy:demo/role:coder/artifact:review/of:a%20b") = Ok demo_artifact) as H by (vm_compute; reflexivity).
  split; [exact H|]. exact (proj1 (proj1 (address_parse_exact _ _) H)).
Defined.
Lemma reference_round_trip_witness :
  exists r, reference_from_str (tx "convoy:demo@rev%201") = Ok r /\ ref_revision r = tx "rev 1" /\ complete (ref_address r).
Proof.
  destruct (reference_from_str (tx "convoy:demo@rev%201")) as [r|] eqn:Hr; [|vm_compute in Hr; discriminate].
  exists r. pose proof (proj1 (reference_round_trip _ r) Hr) as [Hc _].
  split; [reflexivity|]. split; [vm_compute in Hr; injection Hr as <-; reflexivity|exact Hc].
Defined.
Lemma condition_round_trip_witness : condition_from_str (condition_to_string demo_condition) = Ok demo_condition.
Proof.
  apply condition_round_trip. split; [|reflexivity]. split; [whole|repeat constructor|reflexivity].
Defined.
Lemma template_round_trip_witness : template_from_str (template_to_string demo_template) = Ok demo_template.
Proof.
  apply template_round_trip. split; [|reflexivity]. split; [split|..]; repeat constructor.
Defined.
