(* ===== verification/Cbor.v ===== *)
(** The CBOR profile ([crates/flotilla-cbor]): the scan that makes readers safe
    ([scan.rs]), checking, encoding and decoding of messages ([lib.rs]), and
    stream framing ([frame.rs]). The scan is proved to accept exactly a
    declarative grammar, and frames to round-trip, cut short and run on as the
    protocol says, however a stream is chunked. *)

From Stdlib Require Import Ascii.
From S2P Require Import Prelude Text.
#[local] Open Scope Z_scope.

(** * Limits and errors ([lib.rs]) *)

(** The limits of one message, each inclusive. *)
Record Limits := mkLimits { max_message : Z; max_depth : Z; max_elements : Z; max_byte_string : Z }.
Definition DEFAULT_LIMITS : Limits := mkLimits (1024 * 1024) 64 65536 (1024 * 1024).

Inductive ErrorKind :=
| Truncated | TrailingBytes | Malformed | InvalidUtf8 | IndefiniteLength | Nan | Tag | UnsupportedSimple | NonTextKey | DuplicateKey
| DepthLimit | ElementLimit | MessageLimit | ByteStringLimit | NotAMap | MissingType | UnknownType | BadMagic | Schema | Io.
#[export] Instance error_kind_eq_dec : EqDecision ErrorKind.
Proof. solve_decision. Defined.
(** An [Error], by its [kind]; the detail text for people is left out. *)
Abbreviation Error := ErrorKind (only parsing).

(** * What [cbor2] gives *)

(** [cbor2::core::Header]: one decoded head. A float is its 64-bit pattern. *)
Inductive Header :=
| H_Positive (n : Z) | H_Negative (n : Z) | H_Float (bits : Z) | H_Simple (value : Z) | H_Tag (tag : Z) | H_Break
| H_Bytes (len : option Z) | H_Text (len : option Z) | H_Array (len : option Z) | H_Map (len : option Z).
Inductive CoreError := CoreIo | CoreSyntax.
Inductive DeError := DeIo | DeSyntax | DeRecursionLimitExceeded | DeOther.
Inductive SerError := SerValue (message : text) | SerIo.

Definition header_len (h : Header) : option Z :=
  match h with H_Bytes len | H_Text len | H_Array len | H_Map len => len | _ => None end.

(** The head decoder and the validator. A head is a byte at least and lies in
    the input; a length is a [usize]. *)
Class CborCore := {
  pull : text -> result CoreError (Header * nat);
  validate_slice : text -> result DeError ();
  pull_takes t h n : pull t = Ok (h, n) -> (1 <= n <= length t)%nat;
  pull_len t h n len : pull t = Ok (h, n) -> header_len h = Some len -> is_u64 len;
}.

(** [f64::is_nan] of a bit pattern: exponent all ones, mantissa not zero. *)
Definition is_nan (bits : Z) : bool :=
  (Z.land (Z.shiftr bits 52) 2047 =? 2047) && negb (Z.land bits (Z.ones 52) =? 0).

(** * The scan ([scan.rs]) *)

Definition MAX_DEPTH : Z := 255.
Definition simple_FALSE : Z := 20.
Definition simple_TRUE : Z := 21.
Definition simple_NULL : Z := 22.

Section scanner.
Context `{CborCore} (limits : Limits) (bytes : text).

(** The scanner's [max_depth]. *)
Definition scan_depth : Z := Z.min (max_depth limits) MAX_DEPTH.

Definition head_at (pos : nat) : result Error (Header * nat) :=
  match pull (drop pos bytes) with
  | Ok (h, n) => Ok (h, (pos + n)%nat)
  | Err CoreIo => Err Truncated
  | Err CoreSyntax => Err Malformed
  end.
Definition definite (len : option Z) : result Error Z := ok_or len IndefiniteLength.
Definition body_at (pos : nat) (len : Z) : result Error (text * nat) :=
  let stop := Z.of_nat pos + len in
  if (stop <=? Z.of_nat (length bytes)) && (stop <=? u64_max)
  then Ok (take (Z.to_nat len) (drop pos bytes), (pos + Z.to_nat len)%nat) else Err Truncated.
Definition text_at (pos : nat) (len : option Z) : result Error (text * nat) :=
  len ← definite len;
  '(b, pos) ← body_at pos len;
  if utf8 b then Ok (b, pos) else Err InvalidUtf8.
Definition enter (depth : Z) (len : option Z) : result Error (Z * Z) :=
  len ← definite len;
  if scan_depth <? depth + 1 then Err DepthLimit
  else if max_elements limits <? len then Err ElementLimit
  else Ok (depth + 1, len).

(** [(0..len).try_for_each]. *)
Fixpoint repeat_items (item : nat -> result Error nat) (n : nat) (pos : nat) : result Error nat :=
  match n with
  | O => Ok pos
  | S n => pos ← item pos; repeat_items item n pos
  end.
(** The loop over a map's entries, with the keys seen so far. *)
Fixpoint repeat_entries (item : nat -> result Error nat) (n : nat) (seen : list text) (pos : nat) : result Error nat :=
  match n with
  | O => Ok pos
  | S n =>
      '(h, pos) ← head_at pos;
      match h with
      | H_Text len =>
          '(key, pos) ← text_at pos len;
          if bool_decide (key ∈ seen) then Err DuplicateKey
          else pos ← item pos; repeat_entries item n (key :: seen) pos
      | _ => Err NonTextKey
      end
  end.

(** [item]: the fuel is the nesting still allowed. [enter] refuses what goes
    deeper than [scan_depth], so [scan]'s fuel never runs out ([item_fuel]). *)
Fixpoint item (fuel : nat) (depth : Z) (pos : nat) : result Error nat :=
  match fuel with
  | O => Err DepthLimit
  | S fuel =>
      '(h, pos) ← head_at pos;
      match h with
      | H_Positive _ | H_Negative _ => Ok pos
      | H_Float f => if is_nan f then Err Nan else Ok pos
      | H_Simple v => if (v =? simple_FALSE) || (v =? simple_TRUE) || (v =? simple_NULL) then Ok pos else Err UnsupportedSimple
      | H_Tag _ => Err Tag
      | H_Break => Err Malformed
      | H_Bytes len =>
          len ← definite len;
          if max_byte_string limits <? len then Err ByteStringLimit else '(_, pos) ← body_at pos len; Ok pos
      | H_Text len => '(_, pos) ← text_at pos len; Ok pos
      | H_Array len => '(depth, len) ← enter depth len; repeat_items (item fuel depth) (Z.to_nat len) pos
      | H_Map len => '(depth, len) ← enter depth len; repeat_entries (item fuel depth) (Z.to_nat len) [] pos
      end
  end.
Definition scan : result Error () :=
  pos ← item (S (Z.to_nat MAX_DEPTH)) 0 0%nat;
  if bool_decide (pos = length bytes) then Ok () else Err TrailingBytes.

(** [Error::from_de]. *)
Definition from_de (e : DeError) : Error :=
  match e with DeIo => Truncated | DeSyntax => Malformed | DeRecursionLimitExceeded => DepthLimit | DeOther => Schema end.
Definition check : result Error () :=
  if max_message limits <? Z.of_nat (length bytes) then Err MessageLimit
  else match validate_slice bytes with
  | Err e => _ ← scan; Err (from_de e)
  | Ok _ => scan
  end.
End scanner.

(** * Messages ([lib.rs]) *)

(** A [type] field, as the probe reads it: text or some other value. *)
Inductive ProbeValue := ProbeText (t : text) | ProbeOther.

(** A [Message] type: its [TYPES], and what [cbor2] and serde do with it: write
    it, read it within a recursion limit, and read only its [type] field. *)
Class Message (M : Type) `{CborCore} := {
  TYPES : list text;
  to_canonical_vec : M -> result SerError text;
  deserialize_value : text -> Z -> result DeError M;
  deserialize_probe : text -> Z -> result DeError (option ProbeValue);
}.

Section messages.
Context {M : Type} `{CC : CborCore} `{!Message M} (limits : Limits).

(** [limits.max_depth.saturating_add(1)]. *)
Definition recursion_limit : Z := u64_saturating_add (max_depth limits) 1.
Definition deserialize (bytes : text) : result Error M := map_err from_de (deserialize_value bytes recursion_limit).

Definition to_vec (value : M) : result Error text :=
  bytes ← map_err (fun e => match e with
    | SerValue message => if bool_decide (message = tx "duplicate map key") then DuplicateKey else Schema
    | SerIo => Io end) (to_canonical_vec value);
  _ ← map_err (fun e => match e with Tag => Schema | _ => e end) (check limits bytes);
  Ok bytes.
Definition from_slice (bytes : text) : result Error M := _ ← check limits bytes; deserialize bytes.

Definition checked_message_type (bytes : text) : result Error text :=
  match bytes with
  | h :: _ =>
      if negb (byte_val h / 32 =? 5) then Err NotAMap
      else
        kind ← map_err from_de (deserialize_probe bytes recursion_limit);
        match kind with
        | None => Err MissingType
        | Some (ProbeText k) => if bool_decide (k ∈ TYPES) then Ok k else Err UnknownType
        | Some ProbeOther => Err UnknownType
        end
  | [] => Err NotAMap
  end.
Definition message_type (bytes : text) : result Error text := _ ← check limits bytes; checked_message_type bytes.
Definition encode_message (message : M) : result Error text :=
  bytes ← to_vec message; _ ← checked_message_type bytes; Ok bytes.
Definition decode_message (bytes : text) : result Error M :=
  _ ← message_type bytes; deserialize bytes.
End messages.

(** * Framing ([frame.rs]) *)

Definition MAGIC_LEN : nat := 8.
Definition HEADER_LEN : nat := 12.

Definition u32_be_bytes (n : Z) : text := map (fun i => byte_of (Z.land (Z.shiftr n (8 * (3 - Z.of_nat i))) 255)) (seq 0 4).
Definition u32_from_be_bytes (t : text) : Z := fold_left (fun acc c => Z.lor (Z.shiftl acc 8) (byte_val c)) t 0.

Record Framing := mkFraming { magic : text; frame_limits : Limits }.

Definition body_len (f : Framing) (header : text) : result Error nat :=
  if negb (bool_decide (take MAGIC_LEN header = magic f)) then Err BadMagic
  else
    let len := u32_from_be_bytes (drop MAGIC_LEN header) in
    if max_message (frame_limits f) <? len then Err MessageLimit else Ok (Z.to_nat len).

(** A stream: what successive reads of the source give. Running out is end of file. *)
Inductive Event := Data (b : text) | Interrupted | Fail.

Section framing.
Context {M : Type} `{CC : CborCore} `{!Message M} (f : Framing).

Definition encode (message : M) : result Error text :=
  body ← encode_message (frame_limits f) message;
  len ← ok_or (u32_try_from (length body)) MessageLimit;
  Ok (magic f ++ u32_be_bytes len ++ body).

Definition decode (frame : text) : result Error M :=
  if (length frame <? HEADER_LEN)%nat then Err Truncated
  else
    len ← body_len f (take HEADER_LEN frame);
    let body := drop HEADER_LEN frame in
    if bool_decide (length body = len) then decode_message (frame_limits f) body
    else Err (if (length body <? len)%nat then Truncated else TrailingBytes).

(** The loop that fills the header: [filled] is what it holds. A read fills at
    most what is missing and leaves the rest of its data for the next one. *)
Fixpoint read_header (filled : text) (stream : list Event) : result Error (text * list Event) :=
  if (HEADER_LEN <=? length filled)%nat then Ok (filled, stream)
  else match stream with
  | [] | Data [] :: _ => Err (if bool_decide (filled = []) then Io else Truncated)
  | Data b :: stream =>
      let missing := (HEADER_LEN - length filled)%nat in
      if (length b <=? missing)%nat then read_header (filled ++ b) stream
      else Ok (filled ++ take missing b, Data (drop missing b) :: stream)
  | Interrupted :: stream => read_header filled stream
  | Fail :: _ => Err Io
  end.
(** [take(len).read_to_end]: up to [len] bytes, or to the end of the stream. *)
Fixpoint read_body (len : nat) (stream : list Event) : result Error (text * list Event) :=
  match len with
  | O => Ok ([], stream)
  | _ =>
      match stream with
      | [] | Data [] :: _ => Ok ([], stream)
      | Data b :: stream =>
          if (length b <=? len)%nat then '(r, stream) ← read_body (len - length b) stream; Ok (b ++ r, stream)
          else Ok (take len b, Data (drop len b) :: stream)
      | Interrupted :: stream => read_body len stream
      | Fail :: _ => Err Io
      end
  end.
(** [read]: the message, and the stream after its frame. *)
Definition read (stream : list Event) : result Error (M * list Event) :=
  '(header, stream) ← read_header [] stream;
  len ← body_len f header;
  '(body, stream) ← read_body len stream;
  if (length body <? len)%nat then Err Truncated
  else m ← decode_message (frame_limits f) body; Ok (m, stream).
End framing.

(** * The grammar a safe reader accepts *)

(** Heads that are whole items. *)
Definition scalar (h : Header) : bool :=
  match h with
  | H_Positive _ | H_Negative _ => true
  | H_Float f => negb (is_nan f)
  | H_Simple v => (v =? simple_FALSE) || (v =? simple_TRUE) || (v =? simple_NULL)
  | _ => false
  end.

Section grammar.
Context `{CborCore} (limits : Limits).

(** [Item d t t']: [t] starts with one data item nested inside [d] containers,
    and [t'] is what follows it. [Entries] collects a map's keys. *)
Inductive Item : Z -> text -> text -> Prop :=
| Item_scalar d t h n : pull t = Ok (h, n) -> scalar h = true -> Item d t (drop n t)
| Item_bytes d t len n b t' : pull t = Ok (H_Bytes (Some len), n) -> len <= max_byte_string limits ->
    drop n t = b ++ t' -> Z.of_nat (length b) = len -> Item d t t'
| Item_text d t len n b t' : pull t = Ok (H_Text (Some len), n) ->
    drop n t = b ++ t' -> Z.of_nat (length b) = len -> utf8 b = true -> Item d t t'
| Item_array d t len n t' : pull t = Ok (H_Array (Some len), n) -> d + 1 <= scan_depth limits -> len <= max_elements limits ->
    Items (d + 1) (Z.to_nat len) (drop n t) t' -> Item d t t'
| Item_map d t len n keys t' : pull t = Ok (H_Map (Some len), n) -> d + 1 <= scan_depth limits -> len <= max_elements limits ->
    Entries (d + 1) (Z.to_nat len) keys (drop n t) t' -> NoDup keys -> Item d t t'
with Items : Z -> nat -> text -> text -> Prop :=
| Items_nil d t : Items d 0 t t
| Items_cons d n t t1 t2 : Item d t t1 -> Items d n t1 t2 -> Items d (S n) t t2
with Entries : Z -> nat -> list text -> text -> text -> Prop :=
| Entries_nil d t : Entries d 0 [] t t
| Entries_cons d n t len k key keys t1 t2 t3 : pull t = Ok (H_Text (Some len), k) ->
    drop k t = key ++ t1 -> Z.of_nat (length key) = len -> utf8 key = true ->
    Item d t1 t2 -> Entries d n keys t2 t3 -> Entries d (S n) (key :: keys) t t3.
Scheme Item_min := Minimality for Item Sort Prop
  with Items_min := Minimality for Items Sort Prop
  with Entries_min := Minimality for Entries Sort Prop.
Combined Scheme item_mutind from Item_min, Items_min, Entries_min.

Context (bytes : text).
Abbreviation at_ pos := (drop pos bytes).

Lemma head_at_Ok pos h pos' : (pos <= length bytes)%nat ->
  head_at bytes pos = Ok (h, pos') <-> exists n, pull (at_ pos) = Ok (h, n) /\ pos' = (pos + n)%nat /\ (pos < pos' <= length bytes)%nat.
Proof.
  intros Hp. unfold head_at. split.
  - destruct (pull (at_ pos)) as [[h0 n]|[]] eqn:Hpull; try done. intros [= <- <-]. exists n. split; [done|]. split; [done|].
    apply pull_takes in Hpull. rewrite length_drop in Hpull. lia.
  - by intros (n & -> & -> & _).
Qed.
Lemma body_at_Ok pos len b pos' : (pos <= length bytes)%nat -> 0 <= len -> Z.of_nat (length bytes) <= u64_max ->
  body_at bytes pos len = Ok (b, pos') <-> at_ pos = b ++ at_ pos' /\ Z.of_nat (length b) = len /\ pos' = (pos + length b)%nat /\ (pos' <= length bytes)%nat.
Proof.
  intros Hp Hlen Hfit. unfold body_at. destruct (_ && _) eqn:Hc.
  - apply andb_true_iff in Hc as [Hc%Z.leb_le _].
    assert (length (take (Z.to_nat len) (at_ pos)) = Z.to_nat len) as Hl by (rewrite length_take, length_drop; lia). split.
    + intros [= <- <-]. rewrite Hl. split; [|lia]. rewrite <-drop_drop, take_drop. done.
    + intros (Heq & Hb & -> & Hle). assert (Z.to_nat len = length b) as Hn by lia. rewrite Hn in *. do 2 f_equal. rewrite Heq. by apply take_app_length.
  - split; [done|]. intros (_ & Hb & -> & Hle). apply andb_false_iff in Hc as [Hc%Z.leb_gt|Hc%Z.leb_gt]; lia.
Qed.
Lemma text_at_Ok pos len b pos' : (pos <= length bytes)%nat -> (forall n, len = Some n -> 0 <= n) -> Z.of_nat (length bytes) <= u64_max ->
  text_at bytes pos len = Ok (b, pos') <->
  exists n, len = Some n /\ at_ pos = b ++ at_ pos' /\ Z.of_nat (length b) = n /\ pos' = (pos + length b)%nat /\ (pos' <= length bytes)%nat /\ utf8 b = true.
Proof.
  intros Hp Hlen Hfit. unfold text_at, definite. destruct len as [n|]; cbn [ok_or mbind result_bind]; [|by split; [|intros (n & ? & _)]].
  specialize (Hlen n eq_refl). split.
  - destruct (body_at bytes pos n) as [[b0 p0]|] eqn:Hb; [|done]. apply body_at_Ok in Hb as (H1 & H2 & H3 & H4); [|done|done|done]. cbn.
    destruct (utf8 b0) eqn:Hu; [|done]. intros [= <- <-]. exists n. done.
  - intros (m & [= <-] & H1 & H2 & H3 & H4 & Hu). rewrite (proj2 (body_at_Ok pos n b pos' Hp Hlen Hfit)) by done. cbn. by rewrite Hu.
Qed.
Lemma enter_Ok d len d' n : enter limits d len = Ok (d', n) <-> len = Some n /\ d' = d + 1 /\ d + 1 <= scan_depth limits /\ n <= max_elements limits.
Proof.
  unfold enter, definite. destruct len as [m|]; cbn; [|by split; [|intros [? _]]].
  destruct (Z.ltb_spec (scan_depth limits) (d + 1)); [split; [done|]; intros (_ & _ & ? & _); lia|].
  destruct (Z.ltb_spec (max_elements limits) m); [split; [done|]; intros ([= ->] & _ & _ & ?); lia|].
  split; [intros [= <- <-]; done|by intros ([= <-] & -> & _)].
Qed.

Hypothesis bytes_fit : Z.of_nat (length bytes) <= u64_max.

(** What a scanning function says of the text at its positions. *)
Definition reads (f : nat -> result Error nat) (P : text -> text -> Prop) : Prop := forall pos pos',
  (pos <= length bytes)%nat -> f pos = Ok pos' -> (pos' <= length bytes)%nat /\ P (at_ pos) (at_ pos').

Lemma pull_len_nonneg t h n : pull t = Ok (h, n) -> forall len, header_len h = Some len -> 0 <= len.
Proof. intros Hp len Hl. by destruct (pull_len _ _ _ _ Hp Hl). Qed.

Lemma repeat_items_sound f d n : reads f (Item d) -> reads (repeat_items f n) (Items d n).
Proof.
  intros Hf. induction n as [|n IH]; intros pos pos' Hp; cbn; [intros [= <-]; split; [done|constructor]|].
  destruct (f pos) as [p1|] eqn:H1; [|done]. cbn. apply Hf in H1 as [Hp1 H1]; [|done]. intros H2. apply IH in H2 as [Hp2 H2]; [|done].
  split; [done|]. by econstructor.
Qed.
Lemma repeat_entries_sound f d n seen : reads f (Item d) -> forall pos pos', (pos <= length bytes)%nat -> repeat_entries bytes f n seen pos = Ok pos' ->
  (pos' <= length bytes)%nat /\ exists keys, Entries d n keys (at_ pos) (at_ pos') /\ NoDup keys /\ forall k, k ∈ keys -> k ∉ seen.
Proof.
  intros Hf. revert seen. induction n as [|n IH]; intros seen pos pos' Hp; cbn [repeat_entries].
  { intros [= <-]. split; [done|]. exists []. split; [constructor|]. split; [constructor|set_solver]. }
  destruct (head_at bytes pos) as [[h p1]|] eqn:Hh; [|done]. apply head_at_Ok in Hh as (m & Hpull & -> & Hb1); [|done]. cbn [mbind result_bind].
  destruct h; try done. destruct (text_at bytes (pos + m) len) as [[key p2]|] eqn:Ht; [|done]. cbn [mbind result_bind].
  apply text_at_Ok in Ht as (l & -> & Heq & Hlk & -> & Hb2 & Hu); [|lia|intros q Hq; by eapply pull_len_nonneg|done].
  destruct (decide (key ∈ seen)) as [Hin|Hin]; [by rewrite bool_decide_true|]. rewrite bool_decide_false by done.
  destruct (f _) as [p3|] eqn:H3; [|done]. cbn [mbind result_bind]. apply Hf in H3 as [Hp3 H3]; [|done]. intros H4.
  apply IH in H4 as (Hp4 & keys & Hk & Hnd & Hseen); [|done]. split; [done|]. exists (key :: keys). split; [|split].
  - econstructor; [exact Hpull|rewrite drop_drop; exact Heq|done|done|exact H3|exact Hk].
  - constructor; [|done]. intros Hin'. apply Hseen in Hin'. set_solver.
  - intros k [->|Hk']%elem_of_cons; [done|]. apply Hseen in Hk'. set_solver.
Qed.

(** The scan accepts only the grammar. *)
Lemma item_sound fuel d : reads (item limits bytes fuel d) (Item d).
Proof.
  revert d. induction fuel as [|fuel IH]; intros d pos pos' Hp; [done|]. cbn [item].
  destruct (head_at bytes pos) as [[h p1]|] eqn:Hh; [|done]. apply head_at_Ok in Hh as (m & Hpull & -> & Hb1); [|done]. cbn [mbind result_bind].
  assert (scalar h = true -> Ok (pos + m)%nat = @Ok Error nat pos' -> (pos' <= length bytes)%nat /\ Item d (at_ pos) (at_ pos')) as Hsc.
  { intros Hs [= <-]. split; [lia|]. rewrite <-drop_drop. by econstructor. }
  destruct h as [n|n|f|v|tag| |len|len|len|len]; try done; try (apply Hsc; done).
  - destruct (is_nan f) eqn:Hn; [done|]. apply Hsc. cbn. by rewrite Hn.
  - destruct (_ || _) eqn:Hv; [|done]. apply Hsc. done.
  - destruct len as [len|]; [|done]. cbn [definite ok_or mbind result_bind]. destruct (Z.ltb_spec (max_byte_string limits) len); [done|].
    destruct (body_at bytes (pos + m) len) as [[b p2]|] eqn:Hb; [|done].
    apply body_at_Ok in Hb as (Heq & Hlen & -> & Hle); [|lia|by eapply pull_len_nonneg|done].
    cbn [mbind result_bind]. intros [= <-]. split; [done|]. eapply Item_bytes; [exact Hpull|done|rewrite drop_drop; exact Heq|done].
  - destruct (text_at bytes (pos + m) len) as [[b p2]|] eqn:Hb; [|done].
    apply text_at_Ok in Hb as (l & -> & Heq & Hlen & -> & Hle & Hu); [|lia|intros q Hq; by eapply pull_len_nonneg|done].
    cbn [mbind result_bind]. intros [= <-]. split; [done|]. eapply Item_text; [exact Hpull|rewrite drop_drop; exact Heq|done|done].
  - destruct (enter limits d len) as [[d' n]|] eqn:He; [|done]. apply enter_Ok in He as (-> & -> & Hd & Hn). cbn [mbind result_bind].
    intros Hr. apply (repeat_items_sound _ (d + 1)) in Hr as [Hle Hr]; [|apply IH|lia]. split; [done|].
    eapply Item_array; [exact Hpull|done|done|]. by rewrite drop_drop.
  - destruct (enter limits d len) as [[d' n]|] eqn:He; [|done]. apply enter_Ok in He as (-> & -> & Hd & Hn). cbn [mbind result_bind].
    intros Hr. apply (repeat_entries_sound _ (d + 1)) in Hr as (Hle & keys & Hk & Hnd & _); [|apply IH|lia]. split; [done|].
    eapply Item_map; [exact Hpull|done|done| |exact Hnd]. by rewrite drop_drop.
Qed.

Abbreviation enough fuel d := (Z.to_nat (scan_depth limits - d) < fuel)%nat.
(** The position a suffix starts at. *)
Lemma drop_len_eq p t t' : (p <= length bytes)%nat -> at_ p = t ++ t' -> at_ (p + length t) = t' /\ (p + length t <= length bytes)%nat.
Proof.
  intros Hp Heq. rewrite <-drop_drop, Heq, drop_app_length. split; [done|]. apply (f_equal length) in Heq. rewrite length_drop, length_app in Heq. lia.
Qed.

Lemma head_again pos h n : (pos <= length bytes)%nat -> pull (at_ pos) = Ok (h, n) -> head_at bytes pos = Ok (h, (pos + n)%nat) /\ (pos + n <= length bytes)%nat.
Proof.
  intros Hp Hpull. pose proof (pull_takes _ _ _ Hpull) as Hb. rewrite length_drop in Hb. split; [|lia].
  apply head_at_Ok; [done|]. exists n. split; [done|]. split; [done|lia].
Qed.
Lemma text_again pos n len b t' : (pos + n <= length bytes)%nat -> drop n (at_ pos) = b ++ t' -> Z.of_nat (length b) = len -> utf8 b = true ->
  text_at bytes (pos + n) (Some len) = Ok (b, (pos + n + length b)%nat) /\ at_ (pos + n + length b) = t' /\ (pos + n + length b <= length bytes)%nat.
Proof.
  intros Hp Heq Hl Hu. rewrite drop_drop in Heq. destruct (drop_len_eq _ _ _ Hp Heq) as [Ht Hle]. split; [|done].
  apply text_at_Ok; [done|intros m [= <-]; lia|done|]. exists len. rewrite Ht. done.
Qed.

(** The scan accepts all of the grammar. *)
Lemma item_complete :
  (forall d t t', Item d t t' -> forall fuel pos, enough fuel d -> (pos <= length bytes)%nat -> at_ pos = t ->
    exists pos', item limits bytes fuel d pos = Ok pos' /\ at_ pos' = t' /\ (pos' <= length bytes)%nat) /\
  (forall d n t t', Items d n t t' -> forall fuel pos, enough fuel d -> (pos <= length bytes)%nat -> at_ pos = t ->
    exists pos', repeat_items (item limits bytes fuel d) n pos = Ok pos' /\ at_ pos' = t' /\ (pos' <= length bytes)%nat) /\
  (forall d n keys t t', Entries d n keys t t' -> forall fuel seen pos, NoDup keys -> (forall k, k ∈ keys -> k ∉ seen) ->
    enough fuel d -> (pos <= length bytes)%nat -> at_ pos = t ->
    exists pos', repeat_entries bytes (item limits bytes fuel d) n seen pos = Ok pos' /\ at_ pos' = t' /\ (pos' <= length bytes)%nat).
Proof.
  apply item_mutind.
  - intros d t h n Hpull Hs fuel pos Hf Hp <-. destruct fuel as [|fuel]; [lia|]. cbn [item].
    destruct (head_again _ _ _ Hp Hpull) as [-> Hle]. cbn [mbind result_bind]. exists (pos + n)%nat. rewrite <-drop_drop. split; [|done].
    destruct h; try done; cbn in Hs; [by destruct (is_nan bits)|by rewrite Hs].
  - intros d t len n b t' Hpull Hmax Heq Hlen fuel pos Hf Hp <-. destruct fuel as [|fuel]; [lia|]. cbn [item].
    destruct (head_again _ _ _ Hp Hpull) as [-> Hle]. cbn [definite ok_or mbind result_bind]. rewrite (proj2 (Z.ltb_ge _ _)) by lia.
    rewrite drop_drop in Heq. destruct (drop_len_eq _ _ _ Hle Heq) as [Ht Hle']. exists (pos + n + length b)%nat. split; [|done].
    rewrite (proj2 (body_at_Ok (pos + n) len b (pos + n + length b) Hle ltac:(lia) bytes_fit)) by (rewrite Ht; done). done.
  - intros d t len n b t' Hpull Heq Hlen Hu fuel pos Hf Hp <-. destruct fuel as [|fuel]; [lia|]. cbn [item].
    destruct (head_again _ _ _ Hp Hpull) as [-> Hle]. cbn [mbind result_bind].
    destruct (text_again _ _ _ _ _ Hle Heq Hlen Hu) as (-> & Ht & Hle'). cbn. eauto.
  - intros d t len n t' Hpull Hd Hn _ IH fuel pos Hf Hp <-. destruct fuel as [|fuel]; [lia|]. cbn [item].
    destruct (head_again _ _ _ Hp Hpull) as [-> Hle]. cbn [mbind result_bind]. rewrite (proj2 (enter_Ok d (Some len) (d + 1) len)) by done.
    cbn [mbind result_bind]. apply IH; [lia|done|by rewrite drop_drop].
  - intros d t len n keys t' Hpull Hd Hn _ IH Hnd fuel pos Hf Hp <-. destruct fuel as [|fuel]; [lia|]. cbn [item].
    destruct (head_again _ _ _ Hp Hpull) as [-> Hle]. cbn [mbind result_bind]. rewrite (proj2 (enter_Ok d (Some len) (d + 1) len)) by done.
    cbn [mbind result_bind]. apply IH; [done|set_solver|lia|done|by rewrite drop_drop].
  - intros d t fuel pos Hf Hp <-. cbn. eauto.
  - intros d n t t1 t2 _ IH1 _ IH2 fuel pos Hf Hp Ht. cbn. destruct (IH1 fuel pos Hf Hp Ht) as (p1 & -> & Ht1 & Hp1). cbn. by apply IH2.
  - intros d t fuel seen pos _ _ Hf Hp <-. cbn. eauto.
  - intros d n t len k key keys t1 t2 t3 Hpull Heq Hlen Hu _ IH1 _ IH2 fuel seen pos Hnd Hseen Hf Hp <-. cbn [repeat_entries].
    destruct (head_again _ _ _ Hp Hpull) as [-> Hle]. cbn [mbind result_bind].
    destruct (text_again _ _ _ _ _ Hle Heq Hlen Hu) as (-> & Ht & Hle'). cbn [mbind result_bind]. apply NoDup_cons in Hnd as [Hk Hnd].
    rewrite bool_decide_false by (apply Hseen; set_solver). destruct (IH1 fuel _ Hf Hle' Ht) as (p1 & -> & Ht1 & Hp1). cbn [mbind result_bind].
    apply IH2; try done. intros k' Hk'. specialize (Hseen k'). set_solver.
Qed.
End grammar.

(** Fuel beyond the nesting still allowed changes nothing. *)
Lemma item_fuel `{CborCore} limits bytes n m d pos :
  (Z.to_nat (scan_depth limits - d) < n)%nat -> (Z.to_nat (scan_depth limits - d) < m)%nat -> item limits bytes n d pos = item limits bytes m d pos.
Proof.
  revert m d pos. induction n as [|n IH]; intros m d pos Hn Hm; [lia|]. destruct m as [|m]; [lia|]. cbn [item].
  destruct (head_at bytes pos) as [[h p1]|]; [|done]. cbn [mbind result_bind].
  assert (forall d', d' = d + 1 -> d' <= scan_depth limits -> forall p, item limits bytes n d' p = item limits bytes m d' p) as Heq.
  { intros d' -> Hd p. apply IH; lia. }
  destruct h; try done.
  - destruct (enter limits d len) as [[d' k]|] eqn:He; [|done]. apply enter_Ok in He as (_ & Hd' & Hd & _). cbn [mbind result_bind].
    generalize (Z.to_nat k), p1. intros c. induction c as [|c IHc]; intros p; cbn; [done|]. rewrite (Heq d' Hd') by lia.
    destruct (item limits bytes m d' p); [apply IHc|done].
  - destruct (enter limits d len) as [[d' k]|] eqn:He; [|done]. apply enter_Ok in He as (_ & Hd' & Hd & _). cbn [mbind result_bind].
    generalize (Z.to_nat k), (@nil text), p1. intros c. induction c as [|c IHc]; intros seen p; cbn [repeat_entries]; [done|].
    destruct (head_at bytes p) as [[h' p']|]; [|done]. cbn [mbind result_bind]. destruct h'; try done.
    destruct (text_at bytes p' len0) as [[key p2]|]; [|done]. cbn [mbind result_bind]. case_match; [done|].
    rewrite (Heq d' Hd') by lia. destruct (item limits bytes m d' p2); [apply IHc|done].
Qed.

Section scanning.
Context `{CborCore} (limits : Limits).

Lemma scan_Ok bytes : Z.of_nat (length bytes) <= u64_max -> scan limits bytes = Ok () <-> Item limits 0 bytes [].
Proof.
  intros Hfit. unfold scan. split.
  - destruct (item limits bytes _ 0 0) as [pos|] eqn:Hi; [|done]. cbn. apply (item_sound limits bytes Hfit) in Hi as [_ Hi]; [|lia].
    destruct (decide (pos = length bytes)) as [->|]; [|by rewrite bool_decide_false]. intros _. by rewrite drop_0, drop_all in Hi.
  - intros Hi. destruct (item_complete limits bytes Hfit) as [Hc _].
    destruct (Hc 0 bytes [] Hi (S (Z.to_nat MAX_DEPTH)) 0%nat) as (pos & -> & Ht & Hp).
    + unfold scan_depth, MAX_DEPTH. lia.
    + lia.
    + apply drop_0.
    + cbn [mbind result_bind]. rewrite bool_decide_true; [done|]. apply (f_equal length) in Ht. rewrite length_drop in Ht. cbn in Ht. lia.
Qed.

(** C24: The scan accepts a message exactly when it is one data item of the
    profile's grammar and nothing more: definite lengths, no tags, no NaN, only
    the three simple values, valid UTF-8 text, text keys with no duplicates
    within a map, and nesting, counts and byte strings within the limits. *)
Theorem scan_accepts_grammar bytes : Z.of_nat (length bytes) <= u64_max -> scan limits bytes = Ok () <-> Item limits 0 bytes [].
Proof. apply scan_Ok. Qed.

(** Nesting is followed no deeper than the limit, or 255: with fuel for that
    many levels the scan's recursion never runs out, whatever the bytes. *)
Theorem scan_terminates bytes fuel d pos : (Z.to_nat (scan_depth limits - d) < fuel)%nat ->
  item limits bytes fuel d pos = item limits bytes (S (Z.to_nat (scan_depth limits - d))) d pos.
Proof. intros Hf. apply item_fuel; [done|lia]. Qed.
End scanning.

(** * Frames *)

Lemma shift_lor a b : 0 <= b < 256 -> Z.lor (Z.shiftl a 8) b = a * 256 + b.
Proof.
  intros Hb. assert (Z.land (Z.shiftl a 8) b = 0) as Hl.
  { apply Z.bits_inj'. intros i Hi. rewrite Z.land_spec, Z.bits_0. destruct (decide (i < 8)); [by rewrite Z.shiftl_spec_low|].
    rewrite (Z.bits_above_log2 b i); [by rewrite andb_false_r|lia|]. destruct (decide (b = 0)) as [->|]; [cbn; lia|].
    apply Z.lt_le_trans with 8; [|lia]. apply Z.log2_lt_pow2; lia. }
  rewrite <-Z.lxor_lor, <-Z.add_nocarry_lxor, Z.shiftl_mul_pow2 by (done || lia). lia.
Qed.
Lemma be_byte n k : 0 <= k -> byte_val (byte_of (Z.land (Z.shiftr n k) 255)) = (n / 2 ^ k) mod 256.
Proof.
  intros Hk. change 255 with (Z.ones 8). rewrite Z.land_ones, Z.shiftr_div_pow2 by lia. change (2 ^ 8) with 256.
  apply byte_val_of. apply Z.mod_pos_bound. lia.
Qed.
Lemma u32_bytes_round n : is_u32 n -> u32_from_be_bytes (u32_be_bytes n) = n.
Proof.
  intros Hn. unfold u32_from_be_bytes, u32_be_bytes. cbn [seq map fold_left]. rewrite !be_byte by lia.
  rewrite !shift_lor by (apply Z.mod_pos_bound; lia). cbn [Z.lor]. unfold_ints.
  change (2 ^ (8 * (3 - Z.of_nat 0))) with 16777216. change (2 ^ (8 * (3 - Z.of_nat 1))) with 65536.
  change (2 ^ (8 * (3 - Z.of_nat 2))) with 256. change (2 ^ (8 * (3 - Z.of_nat 3))) with 1. Z.to_euclidean_division_equations. lia.
Qed.

(** A reader that gives back what was written, within what [check] accepts. *)
Class MessageRound (M : Type) `{CC : CborCore} `{!Message M} : Prop :=
  message_round limits (m : M) b : to_canonical_vec m = Ok b -> check limits b = Ok () -> deserialize_value b (recursion_limit limits) = Ok m.

Section frames.
Context {M : Type} `{CC : CborCore} `{!Message M}.

(** What is written, a reader with the same limits accepts. *)
Lemma to_vec_Ok limits (m : M) b : to_vec limits m = Ok b -> to_canonical_vec m = Ok b /\ check limits b = Ok ().
Proof.
  unfold to_vec. destruct (to_canonical_vec m) as [x|]; [|done]. cbn [map_err mbind result_bind].
  destruct (check limits x) as [[]|] eqn:Hc; [|done]. cbn. by intros [= <-].
Qed.
Lemma encode_message_Ok limits (m : M) b : encode_message limits m = Ok b ->
  to_canonical_vec m = Ok b /\ check limits b = Ok () /\ is_ok (checked_message_type limits b) = true.
Proof.
  unfold encode_message. destruct (to_vec limits m) as [x|] eqn:Hv; [|done]. apply to_vec_Ok in Hv as [Hv Hc]. cbn.
  destruct (checked_message_type limits x) eqn:Ht; [|done]. cbn. intros [= <-]. by rewrite Ht.
Qed.
Lemma encode_message_decodes `{!MessageRound M} limits (m : M) b : encode_message limits m = Ok b -> decode_message limits b = Ok m.
Proof.
  intros (Hv & Hc & Ht)%encode_message_Ok. unfold decode_message, message_type. rewrite Hc. cbn [mbind result_bind].
  destruct (checked_message_type limits b); [|done]. cbn [mbind result_bind]. unfold deserialize. by rewrite (message_round limits m b).
Qed.
Lemma check_message limits b : check limits b = Ok () -> Z.of_nat (length b) <= max_message limits.
Proof. unfold check. by destruct (Z.ltb_spec (max_message limits) (Z.of_nat (length b))). Qed.

Context (f : Framing) (magic_len : length (magic f) = MAGIC_LEN).

(** The parts of an encoded frame. *)
Record frame_of (m : M) (frame body : text) : Prop := {
  frame_parts : frame = (magic f ++ u32_be_bytes (Z.of_nat (length body))) ++ body;
  frame_encoded : encode_message (frame_limits f) m = Ok body;
  frame_len : body_len f (magic f ++ u32_be_bytes (Z.of_nat (length body))) = Ok (length body);
}.
Lemma header_length len : length (magic f ++ u32_be_bytes len) = HEADER_LEN.
Proof. rewrite length_app, magic_len. done. Qed.
Lemma encode_parts m frame : encode f m = Ok frame -> exists body, frame_of m frame body.
Proof.
  unfold encode. destruct (encode_message (frame_limits f) m) as [body|] eqn:He; [|done]. cbn [mbind result_bind].
  unfold u32_try_from. case_decide as Hfit; [|done]. cbn. intros [= <-]. exists body. split; [by rewrite <-app_assoc|done|].
  unfold body_len. rewrite <-magic_len, take_app_length, drop_app_length, bool_decide_true by done. cbn [negb].
  rewrite u32_bytes_round by (unfold is_u32; lia). apply encode_message_Ok in He as (_ & Hc & _). apply check_message in Hc.
  rewrite (proj2 (Z.ltb_ge _ _)) by lia. by rewrite Nat2Z.id.
Qed.

(** Decoding a header that announces [body] and then anything. *)
Lemma decode_header m frame body (rest : text) : frame_of m frame body ->
  decode (M := M) f ((magic f ++ u32_be_bytes (Z.of_nat (length body))) ++ rest) =
  if bool_decide (length rest = length body) then decode_message (frame_limits f) rest
  else Err (if (length rest <? length body)%nat then Truncated else TrailingBytes).
Proof.
  intros [_ _ Hlen]. unfold decode. set (h := magic f ++ _) in *. assert (length h = HEADER_LEN) as Hh by apply header_length.
  rewrite length_app, Hh. rewrite (proj2 (Nat.ltb_ge _ _)) by lia. rewrite <-Hh, take_app_length, drop_app_length, Hlen. done.
Qed.

(** C25: A frame decodes to the message it was encoded from; every proper prefix
    of it is truncated, and anything after it is trailing bytes. *)
Theorem frame_round_trip `{!MessageRound M} m frame : encode f m = Ok frame ->
  decode f frame = Ok m /\
  (forall n, (n < length frame)%nat -> decode (M := M) f (take n frame) = Err Truncated) /\
  (forall extra, extra <> [] -> decode (M := M) f (frame ++ extra) = Err TrailingBytes).
Proof.
  intros (body & Hf)%encode_parts. pose proof Hf as [-> He _].
  pose proof (header_length (Z.of_nat (length body))) as Hh. split_and!.
  - rewrite (decode_header m _ body body Hf), bool_decide_true by done. by apply encode_message_decodes.
  - intros n Hn. rewrite length_app in Hn. destruct (decide (n < HEADER_LEN)%nat) as [Hs|Hs].
    + unfold decode. rewrite (proj2 (Nat.ltb_lt _ _)); [done|]. rewrite length_take, length_app. lia.
    + rewrite take_app_ge by lia. rewrite (decode_header m _ body _ Hf).
      match goal with |- context [take ?k body] => assert (length (take k body) < length body)%nat as Hlt by (rewrite length_take; lia) end.
      rewrite bool_decide_false by lia. rewrite (proj2 (Nat.ltb_lt _ _)); [done|lia].
  - intros extra Hx. rewrite <-app_assoc, (decode_header m _ body _ Hf). assert (length body < length (body ++ extra))%nat as Hlt.
    { rewrite length_app. destruct extra; [done|]. cbn. lia. }
    rewrite bool_decide_false by lia. by rewrite (proj2 (Nat.ltb_ge _ _)) by lia.
Qed.

(** The bytes a stream carries, and a stream that neither fails nor ends early. *)
Definition event_data (e : Event) : text := match e with Data b => b | _ => [] end.
Definition stream_data (s : list Event) : text := concat (map event_data s).
Definition clean (s : list Event) : Prop := Forall (fun e => match e with Data b => b <> [] | Interrupted => True | Fail => False end) s.

Lemma read_header_clean s filled header rest : clean s -> (length filled <= HEADER_LEN)%nat ->
  filled ++ stream_data s = header ++ rest -> length header = HEADER_LEN ->
  exists s', read_header filled s = Ok (header, s') /\ clean s' /\ stream_data s' = rest.
Proof.
  revert filled. induction s as [|e s IH]; intros filled Hs Hl Heq Hh; cbn [read_header].
  - cbn in Heq. rewrite app_nil_r in Heq. rewrite Heq, length_app in Hl. assert (rest = []) as -> by (destruct rest; [done|cbn in Hl; lia]).
    rewrite app_nil_r in Heq. subst filled. rewrite (proj2 (Nat.leb_le _ _)) by lia. by exists [].
  - destruct (Nat.leb_spec HEADER_LEN (length filled)).
    { apply app_inj_1 in Heq as [-> Heq]; [|lia]. exists (e :: s). done. }
    apply Forall_cons in Hs as [He Hs]. destruct e as [b| |]; [|by apply IH|done]. destruct b as [|c b]; [done|].
    unfold stream_data in Heq. cbn [map concat event_data] in Heq. fold (stream_data s) in Heq.
    destruct (Nat.leb_spec (length (c :: b)) (HEADER_LEN - length filled)) as [Hb|Hb].
    + apply IH; [done|rewrite length_app; lia|by rewrite <-app_assoc|done].
    + set (k := (HEADER_LEN - length filled)%nat) in *. rewrite <-(take_drop k (c :: b)), <-app_assoc, app_assoc in Heq.
      apply app_inj_1 in Heq as [<- Hr]; [|rewrite length_app, length_take; lia]. eexists. split; [reflexivity|]. split; [|exact Hr].
      constructor; [|done]. intros Hd. apply (f_equal length) in Hd. rewrite length_drop in Hd. cbn [length] in *. lia.
Qed.
Lemma read_body_clean s len body rest : clean s -> stream_data s = body ++ rest -> length body = len ->
  exists s', read_body len s = Ok (body, s') /\ clean s' /\ stream_data s' = rest.
Proof.
  revert len body. induction s as [|e s IH]; intros len body Hs Heq Hl.
  - cbn in Heq. symmetry in Heq. apply app_eq_nil in Heq as [-> ->]. cbn in Hl. subst len. by exists [].
  - destruct len as [|len]; [destruct body; [|done]; by exists (e :: s)|]. cbn [read_body].
    apply Forall_cons in Hs as [He Hs]. destruct e as [b| |]; [|by apply IH|done]. destruct b as [|c b]; [done|].
    unfold stream_data in Heq. cbn [map concat event_data] in Heq. fold (stream_data s) in Heq.
    destruct (Nat.leb_spec (length (c :: b)) (S len)) as [Hb|Hb].
    + rewrite <-(take_drop (length (c :: b)) body), <-app_assoc in Heq. apply app_inj_1 in Heq as [Hbody Heq]; [|rewrite length_take; lia].
      destruct (IH (S len - length (c :: b))%nat _ Hs Heq) as (s' & -> & Hc & Hd); [rewrite length_drop; lia|]. cbn [mbind result_bind].
      exists s'. split; [|done]. do 2 f_equal. rewrite Hbody at 1. apply take_drop.
    + rewrite <-(take_drop (S len) (c :: b)), <-app_assoc in Heq. apply app_inj_1 in Heq as [<- Hr]; [|rewrite length_take; lia].
      eexists. split; [reflexivity|]. split; [|exact Hr].
      constructor; [|done]. intros Hd. apply (f_equal length) in Hd. rewrite length_drop in Hd. cbn [length] in *. lia.
Qed.

(** However a stream is cut into reads, and however often a read is
    interrupted, reading takes exactly one frame: it gives the message written
    and leaves what follows for the next read. *)
Theorem read_any_chunking `{!MessageRound M} m frame stream rest : encode f m = Ok frame -> clean stream -> stream_data stream = frame ++ rest ->
  exists stream', read f stream = Ok (m, stream') /\ clean stream' /\ stream_data stream' = rest.
Proof.
  intros (body & Hf)%encode_parts Hc Hd. pose proof Hf as [-> He Hlen]. rewrite <-app_assoc in Hd.
  pose proof (header_length (Z.of_nat (length body))) as Hh. unfold read.
  destruct (read_header_clean stream [] _ _ Hc ltac:(cbn; lia) Hd Hh) as (s1 & -> & Hc1 & Hd1). cbn [mbind result_bind]. rewrite Hlen. cbn [mbind result_bind].
  destruct (read_body_clean s1 _ _ _ Hc1 Hd1 eq_refl) as (s2 & -> & Hc2 & Hd2). cbn [mbind result_bind].
  rewrite Nat.ltb_irrefl, (encode_message_decodes _ m) by done. by exists s2.
Qed.
End frames.

(** * A small profile the theorems are applied to *)

Module Demo.
(** Heads with their argument in the first byte. *)
Definition short_head (t : text) : result CoreError (Header * nat) :=
  match t with
  | [] => Err CoreIo
  | b :: _ =>
      let info := byte_val b mod 32 in
      if 24 <=? info then Err CoreSyntax
      else Ok (match byte_val b / 32 with
        | 0 => H_Positive info | 1 => H_Negative info | 2 => H_Bytes (Some info) | 3 => H_Text (Some info)
        | 4 => H_Array (Some info) | 5 => H_Map (Some info) | 6 => H_Tag info | _ => H_Simple info
        end, 1%nat)
  end.
Lemma short_head_takes t h n : short_head t = Ok (h, n) -> (1 <= n <= length t)%nat.
Proof. unfold short_head. destruct t as [|b t]; [done|]. case_match; [done|]. intros [= _ <-]. cbn. lia. Qed.
Lemma short_head_len t h n len : short_head t = Ok (h, n) -> header_len h = Some len -> is_u64 len.
Proof.
  unfold short_head. destruct t as [|b t]; [done|]. destruct (Z.leb_spec 24 (byte_val b mod 32)); [done|]. intros [= <- _].
  pose proof (Z.mod_pos_bound (byte_val b) 32). repeat case_match; cbn; try done; intros [= <-]; unfold_ints; lia.
Qed.
#[local] Instance short_core : CborCore :=
  {| pull := short_head; validate_slice := fun _ => Ok (); pull_takes := short_head_takes; pull_len := short_head_len |}.

(** One message, the map of [type] to [x]. *)
Definition ping : text := map byte_of [161; 100; 116; 121; 112; 101; 97; 120].
Definition other : text := map byte_of [162; 97; 97; 1; 97; 97; 2].
#[local] Instance ping_message : Message () := {|
  TYPES := [tx "x"];
  to_canonical_vec := fun _ => Ok ping;
  deserialize_value := fun t _ => if bool_decide (t = ping) then Ok () else Err DeOther;
  deserialize_probe := fun t _ => if bool_decide (t = ping) then Ok (Some (ProbeText (tx "x"))) else Err DeOther |}.
#[local] Instance ping_round : MessageRound ().
Proof. intros limits [] b [= <-] _. cbn. by rewrite bool_decide_true. Qed.
Definition framing : Framing := mkFraming (tx "FLOTDEMO") DEFAULT_LIMITS.

Lemma scan_accepts_grammar_witness : Item DEFAULT_LIMITS 0 ping [] /\ scan DEFAULT_LIMITS other = Err DuplicateKey.
Proof.
  split; [|vm_compute; reflexivity]. apply (scan_accepts_grammar DEFAULT_LIMITS ping); [vm_compute; discriminate|vm_compute; reflexivity].
Defined.
Lemma scan_terminates_witness : item DEFAULT_LIMITS ping 300 0 0 = item DEFAULT_LIMITS ping 65 0 0.
Proof. apply (scan_terminates DEFAULT_LIMITS ping 300 0 0). vm_compute. lia. Defined.
Lemma frame_round_trip_witness :
  exists frame, encode framing () = Ok frame /\ decode framing frame = Ok () /\ decode (M := ()) framing (take 13 frame) = Err Truncated.
Proof.
  destruct (encode framing ()) as [frame|] eqn:He; [|vm_compute in He; discriminate]. exists frame. split; [reflexivity|].
  pose proof (frame_round_trip framing eq_refl () frame He) as (H1 & H2 & _). split; [exact H1|]. apply H2.
  vm_compute in He. injection He as <-. cbn. lia.
Defined.
Lemma read_any_chunking_witness :
  exists frame, encode framing () = Ok frame /\
    exists rest, read framing [Data (take 5 frame); Interrupted; Data (drop 5 frame ++ [zero])] = Ok ((), rest) /\ stream_data rest = [zero].
Proof.
  destruct (encode framing ()) as [frame|] eqn:He; [|vm_compute in He; discriminate]. exists frame. split; [reflexivity|].
  destruct (read_any_chunking framing eq_refl () frame [Data (take 5 frame); Interrupted; Data (drop 5 frame ++ [zero])] [zero] He) as (s & Hr & _ & Hd).
  - vm_compute in He. injection He as <-. repeat constructor; discriminate.
  - vm_compute in He. injection He as <-. reflexivity.
  - exists s. split; [exact Hr|exact Hd].
Defined.
End Demo.
