(* ===== verification/InboxStore.v ===== *)
(** The inbox's storage ([crates/flotilla-inbox/src/storage.rs], with the names
    and errors of its [lib.rs]): the log an inbox writes through and reads from,
    what it promises, the memory log that keeps it, and the watch stream over
    its changes. *)

From Stdlib Require Import Ascii.
From S2P Require Import Text Encoding Address Names.
From S2P Require Import Prelude Ordered Schema Read Machine Validate Engine Log Home Consumer Message.
Import Message.
#[local] Open Scope Z_scope.

(** * Outcomes *)

(** The text of a storage error: said here, or an address error displayed. *)
Inductive Detail : Type := Said (what : string) | Displayed (e : Encoding.Error).

Inductive InboxError : Type :=
| EMessage (e : WriteError sig)
| EConsumer (what : string)
| EStorage (what : Detail)
| ECursorExpired
| ECursorAhead.

(** What a call comes to; [Panics] is Rust's panic. *)
Inductive outcome (A : Type) : Type :=
| Done (a : A)
| Failed (e : InboxError)
| Panics.
Arguments Done {A}.
Arguments Failed {A}.
Arguments Panics {A}.
#[export] Instance outcome_ret : MRet outcome := fun A a => Done a.
#[export] Instance outcome_bind : MBind outcome :=
  fun A B f o => match o with Done a => f a | Failed e => Failed e | Panics => Panics end.

Definition storage_error {A} (what : string) : outcome A := Failed (EStorage (Said what)).

(** * Names ([lib.rs]) *)

(** A [String] of the address crate's bytes. *)
Definition str (t : list ascii) : string := String.string_of_list_ascii t.

Section names.
Context `{Lowercase} `{Sha256}.

(** The address a canonical text stands for. *)
Definition parsed (a : Schema.Address) : result Encoding.Error Address.Address := from_str (tx (address_text a)).

Definition message_address (inbox : Schema.Address) (id : list ascii) : outcome string :=
  match a ← parsed inbox; Address.message a id with
  | Ok a => Done (str (as_str a))
  | Err e => Failed (EStorage (Displayed e))
  end.

Definition keyed_id (inbox sender : Schema.Address) (key : list ascii) : list ascii :=
  message_record_name (tx (address_text inbox)) (tx (address_text sender)) key.
Definition keyed_name (inbox sender : Schema.Address) (key : list ascii) : outcome string :=
  message_address inbox (keyed_id inbox sender key).
Definition nul : ascii := Ascii.zero.
Definition unkeyed_name (inbox sender : Schema.Address) (home : string) (admission : Z) : outcome string :=
  keyed_name inbox sender (tx "admission" ++ nul :: tx home ++ nul :: u64_to_string admission).

Definition DEAD_LETTER_PREFIX : list ascii := tx "dead-letter-".
(** The digest's own prefix, [message-], is cut off. *)
Definition dead_letter_name (supervisor : Schema.Address) (message : string) : outcome string :=
  let digest := message_record_name (tx message) [] (tx "dead-letter") in
  message_address supervisor (DEAD_LETTER_PREFIX ++ drop (length (tx "message-")) digest).
Definition is_dead_letter (message : string) : bool :=
  match from_str (tx message) with
  | Ok a => bool_decide (Address.kind a = Some Kind.Message) &&
            match Address.name a with Some n => bool_decide (DEAD_LETTER_PREFIX `prefix_of` n) | None => false end
  | Err _ => false
  end.
End names.

(** * Changes *)

Inductive ChangeKind : Type :=
| CMessage (s : MessageState)
| CReceipt (consumer : Receiver) (transport : Transport).

Record Change : Type := mkChange { ch_cursor : Z; ch_message : string; ch_kind : ChangeKind }.

Record ScanPage : Type := mkScanPage { sp_messages : list (Resource sig); sp_next : option Z }.
Record ChangePage : Type := mkChangePage { cp_changes : list (Schema.Address * Change); cp_through : Z }.

(** The store and home a receipt is committed in. *)
Record ReceiptScope : Type := mkScope { sc_store : Z; sc_home : string }.
#[export] Instance ReceiptScope_eq_dec : EqDecision ReceiptScope.
Proof. solve_decision. Defined.

(** * The log of an inbox *)

(** [InboxLog], with its reader's [changes_since]: a reader shares the log's
    store. Reads leave the log as it is. *)
Class InboxLog (L : Type) `{!Log sig L} : Type := {
  il_pending_keys : L -> Schema.Address -> Z -> Z -> outcome (list (Z * string));
  il_pending : L -> Schema.Address -> Z -> outcome (option (Resource sig));
  il_exists : L -> string -> outcome bool;
  il_consumer_scope : L -> option ReceiptScope;
  il_sequence : L -> outcome Z;
  il_load : L -> string -> outcome (option (Resource sig));
  il_scan : L -> option Z -> outcome ScanPage;
  il_receipts : L -> string -> outcome (gmap Receiver Transport);
  il_receipt : L -> Schema.Address -> string -> Receiver -> Transport -> outcome unit * L;
  il_next_name : L -> Schema.Address -> Schema.Address -> outcome string;
  il_changes_since : L -> Z -> outcome ChangePage;
}.

(** ** The memory store *)

Record MemoryEntry : Type := mkEntry { me_inbox : Schema.Address; me_change : Change }.

(** [about] is a [BTreeSet], which is a map to [()]. *)
Record MemoryStore : Type := mkStore {
  ms_sequence : Z;
  ms_resources : gmap string (Resource sig);
  ms_events : gmap Z MemoryEntry;
  ms_admissions : gmap Z string;
  ms_pending : gmap (Schema.Address * Z) string;
  ms_about : gmap (string * Z) unit;
}.
Definition memory_store_new : MemoryStore := mkStore 0 ∅ ∅ ∅ ∅ ∅.

Definition append (l : MemoryStore) (inbox : Schema.Address) (message : string) (kind : ChangeKind) : Version * MemoryStore :=
  let s := ms_sequence l + 1 in
  (s, mkStore s (ms_resources l) (<[s := mkEntry inbox (mkChange s message kind)]> (ms_events l)) (ms_admissions l) (ms_pending l) (ms_about l)).

Definition with_admitted (spec : MessageSpec) (seq : Z) : MessageSpec :=
  mkSpec (sender spec) (inbox spec) seq (relation spec) (body spec) (references spec) (in_reply_to spec) (supersedes spec)
    (expectation spec) (deadline spec) (unbound_after spec) (delivery_condition spec).

Definition r_inbox (r : Resource sig) : Schema.Address := inbox (r_spec r : MessageSpec).
Definition r_admitted (r : Resource sig) : Z := admitted_seq (r_spec r : MessageSpec).
Definition r_value (r : Resource sig) : MessageState := value (r_state r).
Definition is_open (r : Resource sig) : bool := match r_value r with Pending | Awaiting _ => true | _ => false end.

(** [MemoryStore::create]. *)
Definition store_create (l : MemoryStore) (_ : string) (_ : Timestamp) (r : Resource sig) (_ : list InputRead) :
    result LogError Version * MemoryStore :=
  if bool_decide (is_Some (ms_resources l !! r_name r)) then (Err (mkLogError "Message identity already exists in the source"), l)
  else if bool_decide (r_admitted r <> ms_sequence l + 1) then (Err (mkLogError "Message admission must equal its create home sequence"), l)
  else
    let '(version, l) := append l (r_inbox r) (r_name r) (CMessage Pending) in
    (Ok version,
     mkStore (ms_sequence l) (<[r_name r := with_version r version]> (ms_resources l)) (ms_events l)
       (<[r_admitted r := r_name r]> (ms_admissions l)) (<[(r_inbox r, r_admitted r) := r_name r]> (ms_pending l)) (ms_about l)).
(** [MemoryStore::edge]. *)
Definition store_edge (l : MemoryStore) (_ : string) (_ : State (MState sig)) (nxt : Resource sig) (_ : EdgeEventOf sig) :
    result LogError Version * MemoryStore :=
  let pending := delete (r_inbox nxt, r_admitted nxt) (ms_pending l) in
  let '(version, l) := append l (r_inbox nxt) (r_name nxt) (CMessage (r_value nxt)) in
  (Ok version,
   mkStore (ms_sequence l) (<[r_name nxt := with_version nxt version]> (ms_resources l)) (ms_events l) (ms_admissions l) pending (ms_about l)).

(** [MemoryInboxLog]: the store behind its lock. *)
Definition inbox_log_create (l : MemoryStore) (_ : string) (_ : Timestamp) (_ : Resource sig) (_ : list InputRead) :
    result LogError Version * MemoryStore :=
  (Err (mkLogError "Message creation requires engine Home to call Log::create_resource"), l).
Definition inbox_log_create_resource (l : MemoryStore) (writer : string) (at_ : Timestamp) (r : Resource sig) (reads : list InputRead) :
    result LogError (Resource sig) * MemoryStore :=
  let r := with_spec r (with_admitted (r_spec r) (ms_sequence l + 1) : Spec sig) in
  match store_create l writer at_ r reads with
  | (Ok version, l) => (Ok (with_version r version), l)
  | (Err e, l) => (Err e, l)
  end.
#[export] Instance memory_inbox_log : Log sig MemoryStore := {|
  log_create := inbox_log_create;
  log_create_resource := inbox_log_create_resource;
  log_edge := store_edge;
  log_edge_with_writes := edge_with_writes_default store_edge;
|}.

(** Indexing a map panics on a missing key. *)
Definition index {A} (o : option A) : outcome A := match o with Some a => Done a | None => Panics end.

(** [limit.clamp(1, 32) as usize]. *)
Definition clamped (limit : Z) : nat := Z.to_nat (Z.max 1 (Z.min 32 limit)).
Definition store_pending_keys (l : MemoryStore) (inbox : Schema.Address) (after limit : Z) : outcome (list (Z * string)) :=
  Done (take (clamped limit) (range_iter (ms_pending l) inbox after)).
Definition store_pending (l : MemoryStore) (inbox : Schema.Address) (after : Z) : outcome (option (Resource sig)) :=
  match range_iter (ms_pending l) inbox after with
  | [] => Done None
  | (_, name) :: _ => r ← index (ms_resources l !! name); Done (Some r)
  end.
Definition store_exists (l : MemoryStore) (name : string) : outcome bool := Done (bool_decide (is_Some (ms_resources l !! name))).
Definition store_sequence (l : MemoryStore) : outcome Z := Done (ms_sequence l).
Definition store_load (l : MemoryStore) (name : string) : outcome (option (Resource sig)) := Done (ms_resources l !! name).
Fixpoint index_all (l : MemoryStore) (rows : list (Z * string)) : outcome (list (Resource sig)) :=
  match rows with
  | [] => Done []
  | (_, name) :: rows => r ← index (ms_resources l !! name); rs ← index_all l rows; Done (r :: rs)
  end.
Definition store_scan (l : MemoryStore) (after : option Z) : outcome ScanPage :=
  let after := default 0 after in
  if decide (after < 0) then storage_error "negative memory scan cursor"
  else
    let rows := take 33 (above after (map_iter (ms_admissions l))) in
    next ← (if decide (32 < length rows)%nat then
              '(seq, _) ← index (rows !! 31%nat);
              if decide (seq <= i64_max) then Done (Some seq) else storage_error "memory scan sequence exceeds cursor range"
            else Done None);
    messages ← index_all l (take 32 rows);
    Done (mkScanPage messages next).
(** The loop of [receipts] over the entries about a message. *)
Fixpoint gather (l : MemoryStore) (about : list (Z * unit)) (rows : gmap Receiver Transport) : outcome (gmap Receiver Transport) :=
  match about with
  | [] => Done rows
  | (seq, _) :: about =>
      entry ← index (ms_events l !! seq);
      match ch_kind (me_change entry) with
      | CReceipt consumer transport => gather l about (<[consumer := transport]> rows)
      | CMessage _ => gather l about rows
      end
  end.
Definition store_receipts (l : MemoryStore) (name : string) : outcome (gmap Receiver Transport) :=
  gather l (range_iter (ms_about l) name 0) ∅.
Definition store_receipt (l : MemoryStore) (inbox : Schema.Address) (message : string) (consumer : Receiver) (transport : Transport) :
    outcome unit * MemoryStore :=
  let '(version, l) := append l inbox message (CReceipt consumer transport) in
  (Done tt, mkStore (ms_sequence l) (ms_resources l) (ms_events l) (ms_admissions l) (ms_pending l) (<[(message, version) := tt]> (ms_about l))).
Definition store_next_name `{Lowercase} `{Sha256} (l : MemoryStore) (inbox sender : Schema.Address) : outcome string :=
  unkeyed_name inbox sender "memory" (ms_sequence l + 1).
Definition store_changes_since (l : MemoryStore) (after : Z) : outcome ChangePage :=
  let page := map (fun p => (me_inbox p.2, me_change p.2)) (take 16 (above after (map_iter (ms_events l)))) in
  Done (mkChangePage page (from_option (fun p => ch_cursor p.2) after (last page))).

#[export] Instance memory_store_log `{Lowercase} `{Sha256} : InboxLog MemoryStore := {|
  il_pending_keys := store_pending_keys;
  il_pending := store_pending;
  il_exists := store_exists;
  il_consumer_scope _ := None;
  il_sequence := store_sequence;
  il_load := store_load;
  il_scan := store_scan;
  il_receipts := store_receipts;
  il_receipt := store_receipt;
  il_next_name := store_next_name;
  il_changes_since := store_changes_since;
|}.

(** * What an inbox's log promises *)

(** Some messages by their admission sequence. *)
Definition index_by (P : Resource sig -> bool) (m : gmap string (Resource sig)) : gmap Z string :=
  list_to_map (omap (fun p => if P p.2 then Some (r_admitted p.2, p.1) else None) (map_to_list m)).
Definition is_pending (inbox : Schema.Address) (r : Resource sig) : bool :=
  bool_decide (r_value r = Pending) && bool_decide (r_inbox r = inbox).
(** The pending messages of an inbox, and all messages, in admission order. *)
Definition pending_index (m : gmap string (Resource sig)) (inbox : Schema.Address) : gmap Z string := index_by (is_pending inbox) m.
Definition pending_order (m : gmap string (Resource sig)) (inbox : Schema.Address) : list (Z * string) := map_iter (pending_index m inbox).
Definition admission_order (m : gmap string (Resource sig)) : list (Z * string) := map_iter (index_by (fun _ => true) m).

(** A stored message: its name, and an admission of its own, no later than its
    version and kept while it is pending. *)
Record message_ok (seq : Z) (name : string) (r : Resource sig) : Prop := {
  mo_name : r_name r = name;
  mo_admitted : 0 < r_admitted r <= r_version r;
  mo_version : r_version r <= seq;
  mo_pending : r_value r = Pending -> r_admitted r = r_version r;
}.
Record messages_ok (seq : Z) (m : gmap string (Resource sig)) : Prop := {
  mso_each : forall n r, m !! n = Some r -> message_ok seq n r;
  mso_once : forall n1 r1 n2 r2, m !! n1 = Some r1 -> m !! n2 = Some r2 -> r_admitted r1 = r_admitted r2 -> n1 = n2;
}.

Definition admitted_as (r : Resource sig) (seq : Z) : Resource sig :=
  with_version (with_spec r (with_admitted (r_spec r) seq : Spec sig)) seq.

(** What an inbox relies on, of a log that records receipts itself: its
    messages and their receipts, its last sequence and its changes are what
    its reads give; each write adds one change at the next sequence. *)
Class InboxLogLaws (L : Type) `{!Log sig L, !InboxLog L} : Type := {
  il_messages : L -> gmap string (Resource sig);
  il_receipted : L -> gmap string (gmap Receiver Transport);
  il_last : L -> Z;
  il_changes : L -> list (Schema.Address * Change);
  il_sound : L -> Prop;
  exists_error : LogError;
  name_for : Schema.Address -> Schema.Address -> Z -> outcome string;

  sound_messages : forall l, il_sound l -> messages_ok (il_last l) (il_messages l);
  sound_receipted : forall l n rows, il_sound l -> il_receipted l !! n = Some rows -> rows <> ∅ /\ is_Some (il_messages l !! n);
  sound_seq : forall l, il_sound l -> is_u64 (il_last l);
  sound_changes : forall l, il_sound l ->
    StronglySorted by_key (map (fun p => (ch_cursor p.2, p)) (il_changes l)) /\ Forall (fun p => 0 < ch_cursor p.2 <= il_last l) (il_changes l);

  law_pending_keys : forall l inbox after limit, il_sound l -> 0 <= after ->
    il_pending_keys l inbox after limit = Done (take (clamped limit) (above after (pending_order (il_messages l) inbox)));
  law_pending : forall l inbox after, il_sound l -> 0 <= after ->
    il_pending l inbox after = Done (head (above after (pending_order (il_messages l) inbox)) ≫= fun p => il_messages l !! p.2);
  law_exists : forall l n, il_sound l -> il_exists l n = Done (bool_decide (is_Some (il_messages l !! n)));
  law_scope : forall l, il_consumer_scope l = None;
  law_sequence : forall l, il_sound l -> il_sequence l = Done (il_last l);
  law_load : forall l n, il_sound l -> il_load l n = Done (il_messages l !! n);
  law_scan : forall l after, il_sound l -> il_last l <= i64_max -> 0 <= default 0 after ->
    let rows := above (default 0 after) (admission_order (il_messages l)) in
    il_scan l after = Done (mkScanPage (omap (fun p => il_messages l !! p.2) (take 32 rows))
      (if decide (32 < length rows)%nat then fst <$> rows !! 31%nat else None));
  law_receipts : forall l n, il_sound l -> il_receipts l n = Done (default ∅ (il_receipted l !! n));
  law_next_name : forall l inbox sender, il_next_name l inbox sender = name_for inbox sender (il_last l);
  name_returns : forall inbox sender seq, name_for inbox sender seq <> Panics;
  law_changes : forall l after, il_sound l ->
    let page := take 16 (filter (fun p => after < ch_cursor p.2) (il_changes l)) in
    il_changes_since l after = Done (mkChangePage page (from_option (fun p => ch_cursor p.2) after (last page)));

  law_create : forall l writer at_ r reads, il_sound l -> il_last l < u64_max -> r_value r = Pending -> il_messages l !! r_name r = None ->
    exists l', log_create_resource l writer at_ r reads = (Ok (admitted_as r (il_last l + 1)), l') /\
      il_sound l' /\ il_messages l' = <[r_name r := admitted_as r (il_last l + 1)]> (il_messages l) /\ il_receipted l' = il_receipted l /\
      il_last l' = il_last l + 1 /\
      il_changes l' = il_changes l ++ [(r_inbox r, mkChange (il_last l + 1) (r_name r) (CMessage Pending))];
  law_create_exists : forall l writer at_ r reads, il_sound l -> is_Some (il_messages l !! r_name r) ->
    log_create_resource l writer at_ r reads = (Err exists_error, l);
  law_edge : forall l writer previous r st event, il_sound l -> il_last l < u64_max -> il_messages l !! r_name r = Some r -> value st <> Pending ->
    exists l', log_edge_with_writes l writer previous (with_state r st) event [] = (Ok (il_last l + 1), l') /\
      il_sound l' /\ il_messages l' = <[r_name r := with_version (with_state r st) (il_last l + 1)]> (il_messages l) /\ il_receipted l' = il_receipted l /\
      il_last l' = il_last l + 1 /\
      il_changes l' = il_changes l ++ [(r_inbox r, mkChange (il_last l + 1) (r_name r) (CMessage (value st)))];
  law_receipt : forall l inbox n consumer transport, il_sound l -> il_last l < u64_max -> is_Some (il_messages l !! n) ->
    exists l', il_receipt l inbox n consumer transport = (Done tt, l') /\
      il_sound l' /\ il_messages l' = il_messages l /\
      il_receipted l' = <[n := <[consumer := transport]> (default ∅ (il_receipted l !! n))]> (il_receipted l) /\
      il_last l' = il_last l + 1 /\
      il_changes l' = il_changes l ++ [(inbox, mkChange (il_last l + 1) n (CReceipt consumer transport))];
}.

(** ** Indexes of messages *)

Section indexes.
Implicit Types (m : gmap string (Resource sig)).

Lemma index_by_lookup P seq m s n : messages_ok seq m ->
  index_by P m !! s = Some n <-> exists r, m !! n = Some r /\ P r = true /\ r_admitted r = s.
Proof.
  intros [_ Honce]. unfold index_by. rewrite <-elem_of_list_to_map.
  - rewrite list_elem_of_omap. split.
    + intros ([n' r] & Hin%elem_of_map_to_list & Heq). cbn in Heq. destruct (P r) eqn:HP; simplify_eq. eauto.
    + intros (r & Hr & HP & <-). exists (n, r). split; [by apply elem_of_map_to_list|]. cbn. by rewrite HP.
  - pose proof (NoDup_map_to_list m) as Hnd.
    assert (forall p, p ∈ map_to_list m -> m !! p.1 = Some p.2) as Hin by (intros [k v] Hp; by apply elem_of_map_to_list in Hp).
    revert Hnd Hin. generalize (map_to_list m) as l. induction l as [|[k r] l IH]; intros Hnd Hin; [constructor|].
    apply NoDup_cons in Hnd as [Hx Hnd]. cbn. specialize (IH Hnd). destruct (P r); cbn; [|apply IH; set_solver].
    constructor; [|apply IH; set_solver]. intros ([s' n'] & Heq & Hp)%list_elem_of_fmap. cbn in Heq. subst s'.
    apply list_elem_of_omap in Hp as ([n'' r'] & Hp & Heq). cbn in Heq. destruct (P r'); simplify_eq.
    assert (m !! k = Some r) as Hk by (apply (Hin (k, r)); set_solver). assert (m !! n' = Some r') as Hk' by (apply (Hin (n', r')); set_solver).
    assert (k = n') as -> by (by eapply Honce). rewrite Hk in Hk'. injection Hk' as ->. done.
Qed.

Lemma elem_of_index P seq m s n : messages_ok seq m ->
  (s, n) ∈ map_iter (index_by P m) <-> exists r, m !! n = Some r /\ P r = true /\ r_admitted r = s.
Proof. intros Hm. rewrite elem_of_map_iter. by eapply index_by_lookup. Qed.

(** Two message maps have one index when the same messages are in it. *)
Lemma index_by_eq P seq m (i : gmap Z string) : messages_ok seq m ->
  (forall s n, i !! s = Some n <-> exists r, m !! n = Some r /\ P r = true /\ r_admitted r = s) -> index_by P m = i.
Proof.
  intros Hm Hi. apply map_eq. intros s. apply option_eq. intros n. rewrite Hi. by eapply index_by_lookup.
Qed.

(** A new message joins the index, or it stays. *)
Lemma index_by_insert P seq seq' m n r : messages_ok seq m -> messages_ok seq' (<[n := r]> m) -> m !! n = None ->
  index_by P (<[n := r]> m) = if P r then <[r_admitted r := n]> (index_by P m) else index_by P m.
Proof.
  intros Hm Hm' Hn. apply (index_by_eq P seq'); [done|]. intros s n'.
  assert (forall n1 r1, m !! n1 = Some r1 -> r_admitted r1 <> r_admitted r /\ n1 <> n) as Hfresh.
  { intros n1 r1 H1. assert (n1 <> n) by congruence. split; [|done]. intros Heq.
    assert (n1 = n); [|done]. eapply (mso_once _ _ Hm'); [by rewrite lookup_insert_ne|apply lookup_insert_eq|done]. }
  setoid_rewrite lookup_insert_Some. destruct (P r) eqn:HP.
  - rewrite lookup_insert_Some, (index_by_lookup P seq) by done. split.
    + intros [[<- <-]|[Hne (r' & Hr' & HP' & <-)]]; [by eauto 10|]. exists r'. split; [|done]. right. split; [|done].
      apply Hfresh in Hr'. naive_solver.
    + intros (r' & [[<- <-]|[Hne Hr']] & HP' & <-); [by left|]. right. split; [|by eauto]. apply Hfresh in Hr'. naive_solver.
  - rewrite (index_by_lookup P seq) by done. split.
    + intros (r' & Hr' & ?). exists r'. split; [|done]. right. split; [|done]. apply Hfresh in Hr'. naive_solver.
    + intros (r' & [[<- <-]|[Hne Hr']] & HP' & <-); [congruence|eauto].
Qed.

(** A message that changes leaves the index, or stays in it. *)
Lemma index_by_update P seq seq' m n r r' : messages_ok seq m -> messages_ok seq' (<[n := r']> m) -> m !! n = Some r ->
  r_admitted r' = r_admitted r -> (P r' = true -> P r = true) ->
  index_by P (<[n := r']> m) = if P r' then index_by P m else delete (r_admitted r) (index_by P m).
Proof.
  intros Hm Hm' Hn Had HP. apply (index_by_eq P seq'); [done|]. intros s n'.
  assert (forall n1 r1, m !! n1 = Some r1 -> r_admitted r1 = r_admitted r -> n1 = n) as Honce by (intros; by eapply (mso_once _ _ Hm)).
  setoid_rewrite lookup_insert_Some. destruct (P r') eqn:HP'.
  - rewrite (index_by_lookup P seq) by done. split.
    + intros (r1 & Hr1 & HP1 & <-). destruct (decide (n' = n)) as [->|Hne]; [|by eauto 10].
      assert (r1 = r) as -> by congruence. exists r'. auto.
    + intros (r1 & [[<- <-]|[Hne Hr1]] & HP1 & <-); eauto.
  - rewrite lookup_delete_Some, (index_by_lookup P seq) by done. split.
    + intros (Hs & r1 & Hr1 & HP1 & <-). exists r1. split; [|done]. right. split; [|done]. intros <-. congruence.
    + intros (r1 & [[<- <-]|[Hne Hr1]] & HP1 & <-); [congruence|]. split; [|by eauto]. intros Heq. by apply Hne, eq_sym, (Honce _ r1).
Qed.

(** The pending order an admission joins, and a message that moves leaves. *)
Lemma pending_index_insert seq seq' m n r : messages_ok seq m -> messages_ok seq' (<[n := r]> m) -> m !! n = None -> r_value r = Pending -> forall i,
  pending_index (<[n := r]> m) i = if bool_decide (i = r_inbox r) then <[r_admitted r := n]> (pending_index m i) else pending_index m i.
Proof.
  intros Hm Hm' Hn Hp i. unfold pending_index. rewrite (index_by_insert _ _ _ _ _ _ Hm Hm' Hn). unfold is_pending at 1. rewrite (bool_decide_true _ Hp). cbn.
  by repeat case_bool_decide; subst.
Qed.
Lemma pending_index_update seq seq' m n r r' : messages_ok seq m -> messages_ok seq' (<[n := r']> m) -> m !! n = Some r ->
  r_value r' <> Pending -> r_admitted r' = r_admitted r -> forall i,
  pending_index (<[n := r']> m) i = if bool_decide (i = r_inbox r) then delete (r_admitted r) (pending_index m i) else pending_index m i.
Proof.
  intros Hm Hm' Hn Hp Had i. unfold pending_index.
  assert (is_pending i r' = false) as Hf by (unfold is_pending; by rewrite (bool_decide_false _ Hp)).
  rewrite (index_by_update _ _ _ _ _ _ _ Hm Hm' Hn Had) by (rewrite Hf; done). rewrite Hf. case_bool_decide as Hi; [done|]. apply delete_id.
  destruct (index_by _ m !! r_admitted r) as [n'|] eqn:Hx; [|done]. rewrite (index_by_lookup _ seq) in Hx by done. destruct Hx as (r1 & Hr1 & HP & Ha).
  assert (n' = n) as -> by (by eapply (mso_once _ _ Hm)). assert (r1 = r) as -> by congruence. unfold is_pending in HP.
  rewrite andb_true_iff, !bool_decide_eq_true in HP. destruct HP as [_ HP]. congruence.
Qed.

Lemma messages_ok_insert seq m n r : messages_ok seq m -> m !! n = None -> r_value r = Pending -> r_name r = n -> 0 <= seq ->
  r_admitted r = seq + 1 -> r_version r = seq + 1 -> messages_ok (seq + 1) (<[n := r]> m).
Proof.
  intros [He Ho] Hn Hp Hname H0 Ha Hv. split.
  - intros n' r' [[<- <-]|[_ Hr']]%lookup_insert_Some; [by split; try lia|]. apply He in Hr' as [???]. split; try done. lia.
  - intros n1 r1 n2 r2 [[<- <-]|[Hn1 Hr1]]%lookup_insert_Some [[<- <-]|[Hn2 Hr2]]%lookup_insert_Some; try done; [| |by eapply Ho].
    + apply He in Hr2 as [????]. lia.
    + apply He in Hr1 as [????]. lia.
Qed.
Lemma messages_ok_update seq m n r r' : messages_ok seq m -> m !! n = Some r -> r_value r' <> Pending -> r_name r' = n ->
  r_admitted r' = r_admitted r -> r_version r' = seq + 1 -> messages_ok (seq + 1) (<[n := r']> m).
Proof.
  intros [He Ho] Hn Hp Hname Ha Hv. pose proof (He _ _ Hn) as [_ Hr _ _]. split.
  - intros n' r1 [[<- <-]|[_ Hr']]%lookup_insert_Some.
    + pose proof (He _ _ Hn) as [????]. split; try done; lia.
    + apply He in Hr' as [???]. split; try done. lia.
  - intros n1 r1 n2 r2 [[<- <-]|[Hn1 Hr1]]%lookup_insert_Some [[<- <-]|[Hn2 Hr2]]%lookup_insert_Some; try done; rewrite ?Ha;
      intros ?; eapply Ho; done.
Qed.
Lemma messages_ok_mono seq seq' m : messages_ok seq m -> seq <= seq' -> messages_ok seq' m.
Proof. intros [He Ho] Hs. split; [|done]. intros n r Hr. apply He in Hr as [????]. split; try done. lia. Qed.
Lemma messages_ok_empty seq : messages_ok seq ∅.
Proof. by split. Qed.

Lemma pending_order_sorted m inbox : StronglySorted by_key (pending_order m inbox).
Proof. apply map_iter_by_key. Qed.
Lemma elem_of_pending_order seq m inbox s n : messages_ok seq m ->
  (s, n) ∈ pending_order m inbox <-> exists r, m !! n = Some r /\ r_value r = Pending /\ r_inbox r = inbox /\ r_admitted r = s.
Proof.
  intros Hm. unfold pending_order, pending_index. rewrite (elem_of_index _ seq) by done. unfold is_pending.
  setoid_rewrite andb_true_iff. setoid_rewrite bool_decide_eq_true. naive_solver.
Qed.
End indexes.

(** ** The memory store keeps them *)

Section memory_store.
Implicit Types (l : MemoryStore).

Record store_sound (l : MemoryStore) : Prop := {
  ss_messages : messages_ok (ms_sequence l) (ms_resources l);
  ss_sequence : is_u64 (ms_sequence l);
  ss_events : forall s e, ms_events l !! s = Some e -> 0 < s <= ms_sequence l /\ ch_cursor (me_change e) = s;
  ss_admissions : ms_admissions l = index_by (fun _ => true) (ms_resources l);
  ss_pending : forall inbox s n, ms_pending l !! (inbox, s) = Some n <-> pending_index (ms_resources l) inbox !! s = Some n;
  ss_about : forall n s u, ms_about l !! (n, s) = Some u -> 0 < s <= ms_sequence l /\ is_Some (ms_events l !! s) /\ is_Some (ms_resources l !! n);
}.

Definition store_receipted (l : MemoryStore) : gmap string (gmap Receiver Transport) :=
  map_imap (fun n _ => match store_receipts l n with Done rows => if decide (rows = ∅) then None else Some rows | _ => None end) (ms_resources l).
Definition store_changes (l : MemoryStore) : list (Schema.Address * Change) :=
  map (fun p => (me_inbox p.2, me_change p.2)) (map_iter (ms_events l)).

Lemma gather_Done l about rows : (forall p, p ∈ about -> is_Some (ms_events l !! p.1)) -> exists rows', gather l about rows = Done rows'.
Proof.
  revert rows. induction about as [|[s u] about IH]; intros rows Hin; cbn; [eauto|].
  assert (is_Some (ms_events l !! s)) as [e ->] by (apply (Hin (s, u)); set_solver). cbn.
  destruct (ch_kind _); apply IH; set_solver.
Qed.
Lemma gather_ext l l' about rows : (forall p, p ∈ about -> ms_events l' !! p.1 = ms_events l !! p.1) -> gather l' about rows = gather l about rows.
Proof.
  revert rows. induction about as [|[s u] about IH]; intros rows Hin; cbn; [done|].
  assert (ms_events l' !! s = ms_events l !! s) as -> by (apply (Hin (s, u)); set_solver).
  destruct (ms_events l !! s); cbn; [|done]. destruct (ch_kind _); apply IH; set_solver.
Qed.
Lemma gather_app l about1 about2 rows : gather l (about1 ++ about2) rows = (rows' ← gather l about1 rows; gather l about2 rows').
Proof.
  revert rows. induction about1 as [|[s u] about IH]; intros rows; cbn; [done|].
  destruct (ms_events l !! s); cbn; [|done]. by destruct (ch_kind _).
Qed.

Lemma store_receipts_Done l n : store_sound l -> exists rows, store_receipts l n = Done rows.
Proof.
  intros Hl. apply gather_Done. intros [s u] [Hin _]%elem_of_range_iter. by apply (ss_about l Hl) in Hin as (_ & ? & _).
Qed.
Lemma store_receipts_unstored l n : store_sound l -> ms_resources l !! n = None -> store_receipts l n = Done ∅.
Proof.
  intros Hl Hn. unfold store_receipts. destruct (range_iter (ms_about l) n 0) as [|[s u] about] eqn:Hr; [done|].
  assert ((s, u) ∈ range_iter (ms_about l) n 0) as [Hin _]%elem_of_range_iter by (rewrite Hr; set_solver).
  apply (ss_about l Hl) in Hin as (_ & _ & [r Hr']). congruence.
Qed.
Lemma store_receipted_lookup l n : store_sound l ->
  store_receipts l n = Done (default ∅ (store_receipted l !! n)) /\ store_receipted l !! n <> Some ∅.
Proof.
  intros Hl. unfold store_receipted. rewrite map_lookup_imap. destruct (ms_resources l !! n) as [r|] eqn:Hn; cbn.
  - destruct (store_receipts_Done l n Hl) as [rows ->]. case_decide as He; cbn; [by subst|]. split; [done|congruence].
  - by rewrite store_receipts_unstored.
Qed.

(** What the store serves is unchanged by entries that are not receipts. *)
Lemma store_receipts_ext l l' n : store_sound l -> ms_about l' = ms_about l ->
  (forall s, s <= ms_sequence l -> ms_events l' !! s = ms_events l !! s) -> store_receipts l' n = store_receipts l n.
Proof.
  intros Hl Ha He. unfold store_receipts. rewrite Ha. apply gather_ext. intros [s u] [Hin _]%elem_of_range_iter.
  apply He. by apply (ss_about l Hl) in Hin as ([_ ?] & _).
Qed.
Lemma store_receipted_eq l (rec : gmap string (gmap Receiver Transport)) : store_sound l ->
  (forall n, store_receipts l n = Done (default ∅ (rec !! n)) /\ rec !! n <> Some ∅) -> store_receipted l = rec.
Proof.
  intros Hl Hrec. apply map_eq. intros n. destruct (store_receipted_lookup l n Hl) as [H1 H2], (Hrec n) as [H3 H4].
  rewrite H1 in H3. injection H3 as H3. destruct (store_receipted l !! n) as [a|], (rec !! n) as [b|]; cbn in *; congruence.
Qed.

(** ** One more entry *)

Lemma events_above l : store_sound l -> forall s e, ms_events l !! s = Some e -> s < ms_sequence l + 1.
Proof. intros Hl s e He. apply (ss_events l Hl) in He. lia. Qed.
Lemma append_events l s : store_sound l -> s <= ms_sequence l -> forall inbox n k,
  ms_events (append l inbox n k).2 !! s = ms_events l !! s.
Proof. intros Hl Hs inbox n k. cbn. apply lookup_insert_ne. lia. Qed.
Lemma append_changes l : store_sound l -> forall inbox n k,
  store_changes (append l inbox n k).2 = store_changes l ++ [(inbox, mkChange (ms_sequence l + 1) n k)].
Proof.
  intros Hl inbox n k. unfold store_changes. cbn. rewrite map_iter_insert_last by (by apply events_above). by rewrite map_app.
Qed.
Lemma append_entries l inbox n k : store_sound l -> forall s e,
  ms_events (append l inbox n k).2 !! s = Some e -> 0 < s <= ms_sequence l + 1 /\ ch_cursor (me_change e) = s.
Proof.
  intros Hl s e. cbn. pose proof (ss_sequence l Hl) as [H0 _]. intros [[<- <-]|[_ He]]%lookup_insert_Some; [split; [lia|done]|].
  apply (ss_events l Hl) in He. split; [lia|tauto].
Qed.
Lemma append_about l inbox n k : store_sound l -> forall m s u, ms_about l !! (m, s) = Some u ->
  0 < s <= ms_sequence l + 1 /\ is_Some (ms_events (append l inbox n k).2 !! s).
Proof.
  intros Hl m s u Hin. apply (ss_about l Hl) in Hin as (Hs & He & _). rewrite append_events by (done || lia). split; [lia|done].
Qed.

(** The pending index of the store follows the messages. *)
Lemma pending_pairs_insert l r : store_sound l -> messages_ok (ms_sequence l + 1) (<[r_name r := r]> (ms_resources l)) ->
  ms_resources l !! r_name r = None -> r_value r = Pending -> forall inbox s n,
  <[(r_inbox r, r_admitted r) := r_name r]> (ms_pending l) !! (inbox, s) = Some n <->
  pending_index (<[r_name r := r]> (ms_resources l)) inbox !! s = Some n.
Proof.
  intros Hl Hm Hn Hp inbox s n. rewrite (pending_index_insert _ _ _ _ _ (ss_messages l Hl) Hm Hn Hp), lookup_insert_Some, (ss_pending l Hl).
  case_bool_decide as Hi; [|naive_solver]. rewrite lookup_insert_Some. naive_solver.
Qed.
Lemma pending_pairs_update l r r' : store_sound l -> messages_ok (ms_sequence l + 1) (<[r_name r := r']> (ms_resources l)) ->
  ms_resources l !! r_name r = Some r -> r_value r' <> Pending -> r_admitted r' = r_admitted r -> forall inbox s n,
  delete (r_inbox r, r_admitted r) (ms_pending l) !! (inbox, s) = Some n <->
  pending_index (<[r_name r := r']> (ms_resources l)) inbox !! s = Some n.
Proof.
  intros Hl Hm Hn Hp Had inbox s n. rewrite (pending_index_update _ _ _ _ _ _ (ss_messages l Hl) Hm Hn Hp Had), lookup_delete_Some, (ss_pending l Hl).
  case_bool_decide as Hi; [|naive_solver]. rewrite lookup_delete_Some. naive_solver.
Qed.

Lemma store_create_law l writer at_ r reads : store_sound l -> ms_sequence l < u64_max -> r_value r = Pending -> ms_resources l !! r_name r = None ->
  exists l', inbox_log_create_resource l writer at_ r reads = (Ok (admitted_as r (ms_sequence l + 1)), l') /\
    store_sound l' /\ ms_resources l' = <[r_name r := admitted_as r (ms_sequence l + 1)]> (ms_resources l) /\
    store_receipted l' = store_receipted l /\ ms_sequence l' = ms_sequence l + 1 /\
    store_changes l' = store_changes l ++ [(r_inbox r, mkChange (ms_sequence l + 1) (r_name r) (CMessage Pending))].
Proof.
  intros Hl Hroom Hp Hn. pose proof (ss_sequence l Hl) as [H0 _]. set (q := ms_sequence l + 1). set (r' := admitted_as r q).
  assert (messages_ok q (<[r_name r := r']> (ms_resources l))) as Hm by (by apply messages_ok_insert; [apply Hl|..]).
  unfold inbox_log_create_resource, store_create. rewrite bool_decide_false by (cbn; rewrite Hn; by intros []).
  rewrite bool_decide_false by (cbn; lia). cbn [append fst snd]. eexists. split; [reflexivity|]. fold q r'.
  assert (store_sound (mkStore q (<[r_name r := r']> (ms_resources l)) (<[q := mkEntry (r_inbox r) (mkChange q (r_name r) (CMessage Pending))]> (ms_events l))
    (<[q := r_name r]> (ms_admissions l)) (<[(r_inbox r, q) := r_name r]> (ms_pending l)) (ms_about l))) as Hl'.
  { split; cbn.
    - done.
    - unfold q. unfold_ints. lia.
    - apply (append_entries l (r_inbox r) (r_name r) (CMessage Pending) Hl).
    - rewrite (index_by_insert _ _ _ _ _ _ (ss_messages l Hl) Hm Hn). cbn. by rewrite (ss_admissions l Hl).
    - apply (pending_pairs_insert l r' Hl Hm Hn Hp).
    - intros n s u Hin. destruct (append_about l (r_inbox r) (r_name r) (CMessage Pending) Hl n s u Hin) as [Hs He].
      split; [done|]. split; [done|]. apply (ss_about l Hl) in Hin as (_ & _ & Hr). destruct (decide (n = r_name r)) as [->|Hne]; [by rewrite lookup_insert_eq|].
      by rewrite lookup_insert_ne. }
  split; [exact Hl'|]. split; [done|]. split; [|split; [done|apply (append_changes l Hl)]].
  apply store_receipted_eq; [exact Hl'|]. intros n. destruct (store_receipted_lookup l n Hl) as [H1 H2]. split; [|done]. rewrite <-H1.
  apply store_receipts_ext; [done|done|]. intros s Hs. by apply (append_events l s Hl Hs (r_inbox r) (r_name r)).
Qed.

Lemma store_edge_law l writer previous r st event : store_sound l -> ms_sequence l < u64_max -> ms_resources l !! r_name r = Some r ->
  value st <> Pending ->
  exists l', store_edge l writer previous (with_state r st) event = (Ok (ms_sequence l + 1), l') /\
    store_sound l' /\ ms_resources l' = <[r_name r := with_version (with_state r st) (ms_sequence l + 1)]> (ms_resources l) /\
    store_receipted l' = store_receipted l /\ ms_sequence l' = ms_sequence l + 1 /\
    store_changes l' = store_changes l ++ [(r_inbox r, mkChange (ms_sequence l + 1) (r_name r) (CMessage (value st)))].
Proof.
  intros Hl Hroom Hr Hp. pose proof (ss_sequence l Hl) as [H0 _]. set (q := ms_sequence l + 1). set (r' := with_version (with_state r st) q).
  assert (messages_ok q (<[r_name r := r']> (ms_resources l))) as Hm by (by eapply messages_ok_update; [apply Hl|..]).
  unfold store_edge. cbn [append fst snd]. eexists. split; [reflexivity|]. fold q r'.
  match goal with |- store_sound ?x /\ _ => assert (store_sound x) as Hl' end.
  { split; cbn.
    - done.
    - unfold q. unfold_ints. lia.
    - apply (append_entries l (r_inbox r) (r_name r) (CMessage (value st)) Hl).
    - rewrite (index_by_update _ _ _ _ _ _ _ (ss_messages l Hl) Hm Hr) by done. by rewrite (ss_admissions l Hl).
    - by apply (pending_pairs_update l r r' Hl Hm Hr Hp).
    - intros n s u Hin. destruct (append_about l (r_inbox r) (r_name r) (CMessage (value st)) Hl n s u Hin) as [Hs He].
      split; [done|]. split; [done|]. apply (ss_about l Hl) in Hin as (_ & _ & Hin). destruct (decide (n = r_name r)) as [->|Hne]; [by rewrite lookup_insert_eq|].
      by rewrite lookup_insert_ne. }
  split; [exact Hl'|]. split; [done|]. split; [|split; [done|apply (append_changes l Hl)]].
  apply store_receipted_eq; [exact Hl'|]. intros n. destruct (store_receipted_lookup l n Hl) as [H1 H2]. split; [|done]. rewrite <-H1.
  apply store_receipts_ext; [done|done|]. intros s Hs. by apply (append_events l s Hl Hs (r_inbox r) (r_name r)).
Qed.

Lemma store_receipt_law l inbox n consumer transport : store_sound l -> ms_sequence l < u64_max -> is_Some (ms_resources l !! n) ->
  exists l', store_receipt l inbox n consumer transport = (Done tt, l') /\
    store_sound l' /\ ms_resources l' = ms_resources l /\
    store_receipted l' = <[n := <[consumer := transport]> (default ∅ (store_receipted l !! n))]> (store_receipted l) /\
    ms_sequence l' = ms_sequence l + 1 /\
    store_changes l' = store_changes l ++ [(inbox, mkChange (ms_sequence l + 1) n (CReceipt consumer transport))].
Proof.
  intros Hl Hroom Hn. pose proof (ss_sequence l Hl) as [H0 _]. set (q := ms_sequence l + 1).
  unfold store_receipt. cbn [append fst snd]. eexists. split; [reflexivity|]. fold q.
  match goal with |- store_sound ?x /\ _ => set (l' := x) end.
  assert (store_sound l') as Hl'.
  { split; cbn.
    - eapply messages_ok_mono; [apply Hl|unfold q; lia].
    - unfold q. unfold_ints. lia.
    - apply (append_entries l inbox n (CReceipt consumer transport) Hl).
    - apply Hl.
    - apply Hl.
    - intros n' s u [[[= <- <-] _]|[_ Hin]]%lookup_insert_Some.
      + split; [unfold q; lia|]. split; [by rewrite lookup_insert_eq|done].
      + destruct (append_about l inbox n (CReceipt consumer transport) Hl n' s u Hin) as [Hs He]. split; [done|]. split; [done|]. by apply (ss_about l Hl) in Hin as (_ & _ & ?). }
  split; [exact Hl'|]. split; [done|]. split; [|split; [done|apply (append_changes l Hl)]].
  apply store_receipted_eq; [exact Hl'|]. intros m. destruct (store_receipted_lookup l m Hl) as [H1 H2].
  assert (range_iter (ms_about l') m 0 = range_iter (ms_about l) m 0 ++ (if bool_decide (m = n) then [(q, tt)] else [])) as Hrange.
  { apply range_iter_insert; [unfold q; unfold_ints; lia|]. intros s u Hin. apply (ss_about l Hl) in Hin. unfold q. lia. }
  assert (gather l' (range_iter (ms_about l) m 0) ∅ = Done (default ∅ (store_receipted l !! m))) as Hg.
  { rewrite <-H1. apply gather_ext. intros [s u] [Hin _]%elem_of_range_iter. apply (ss_about l Hl) in Hin as ([_ Hs] & _).
    by apply (append_events l s Hl Hs inbox n). }
  unfold store_receipts. rewrite Hrange, gather_app, Hg. cbn [mbind outcome_bind]. case_bool_decide as Hm.
  - subst m. cbn. rewrite !lookup_insert_eq. cbn. split; [done|]. intros [= He]. by apply insert_non_empty in He.
  - rewrite lookup_insert_ne by done. done.
Qed.

Lemma store_pending_order l inbox after : store_sound l -> 0 <= after ->
  range_iter (ms_pending l) inbox after = above after (pending_order (ms_resources l) inbox).
Proof.
  intros Hl Ha. symmetry. apply range_iter_unique; [apply above_sorted, pending_order_sorted|]. intros s n.
  rewrite elem_of_above, (ss_pending l Hl). unfold pending_order. rewrite elem_of_map_iter. cbn. split; [|naive_solver].
  intros [Hin Hs]. split; [done|]. split; [done|]. unfold pending_index in Hin. rewrite (index_by_lookup _ (ms_sequence l)) in Hin by apply ss_messages, Hl.
  destruct Hin as (r & Hr & _ & <-). apply (mso_each _ _ (ss_messages l Hl)) in Hr as [_ ? ? _]. pose proof (ss_sequence l Hl). unfold_ints. lia.
Qed.

Lemma index_all_stored l rows : (forall p, p ∈ rows -> is_Some (ms_resources l !! p.2)) ->
  index_all l rows = Done (omap (fun p => ms_resources l !! p.2) rows).
Proof.
  induction rows as [|[s n] rows IH]; intros Hin; [done|]. cbn. assert (is_Some (ms_resources l !! n)) as [r ->] by (apply (Hin (s, n)); set_solver).
  cbn. rewrite IH by set_solver. done.
Qed.
Lemma store_scan_law l after : store_sound l -> ms_sequence l <= i64_max -> 0 <= default 0 after ->
  let rows := above (default 0 after) (admission_order (ms_resources l)) in
  store_scan l after = Done (mkScanPage (omap (fun p => ms_resources l !! p.2) (take 32 rows))
    (if decide (32 < length rows)%nat then fst <$> rows !! 31%nat else None)).
Proof.
  intros Hl Hi Ha rows. unfold store_scan. rewrite decide_False by lia. rewrite (ss_admissions l Hl).
  fold (admission_order (ms_resources l)). fold rows.
  assert (forall p, p ∈ rows -> is_Some (ms_resources l !! p.2) /\ p.1 <= i64_max) as Hin.
  { intros [s n] [Hin _]%elem_of_above. unfold admission_order in Hin. apply (elem_of_index _ (ms_sequence l)) in Hin as (r & Hr & _ & <-); [|apply Hl].
    split; [by eexists|]. apply (mso_each _ _ (ss_messages l Hl)) in Hr as [_ ? ? _]. cbn. lia. }
  rewrite take_take, (Nat.min_l 32 33), index_all_stored by (lia || (intros p Hp; apply Hin; by eapply elem_of_take in Hp as (? & ? & _); eapply list_elem_of_lookup_2)).
  rewrite length_take. destruct (decide (32 < length rows)%nat) as [Hlen|Hlen].
  - rewrite decide_True by lia. rewrite lookup_take_lt by lia.
    destruct (lookup_lt_is_Some_2 rows 31%nat) as [[s n] Hp]; [lia|]. rewrite Hp. cbn.
    apply list_elem_of_lookup_2, Hin in Hp as [_ Hp]. cbn in Hp. rewrite decide_True by done. done.
  - rewrite decide_False by lia. done.
Qed.
End memory_store.

Lemma message_address_returns `{Lowercase} inbox id : message_address inbox id <> Panics.
Proof. unfold message_address. by destruct (a ← parsed inbox; Address.message a id). Qed.

#[export] Program Instance memory_store_laws `{Lowercase} `{Sha256} : InboxLogLaws MemoryStore := {|
  il_messages := ms_resources;
  il_receipted := store_receipted;
  il_last := ms_sequence;
  il_changes := store_changes;
  il_sound := store_sound;
  exists_error := mkLogError "Message identity already exists in the source";
  name_for inbox sender seq := unkeyed_name inbox sender "memory" (seq + 1);
|}.
Next Obligation. intros. by apply ss_messages. Qed.
Next Obligation.
  intros H0 H1 l n rows Hl Hn. destruct (store_receipted_lookup l n Hl) as [_ Hne]. split; [congruence|]. cbn in Hn.
  unfold store_receipted in Hn. rewrite map_lookup_imap in Hn. destruct (ms_resources l !! n); [by eexists|done].
Qed.
Next Obligation. intros. by apply ss_sequence. Qed.
Next Obligation.
  intros H0 H1 l Hl. cbn. unfold store_changes.
  assert (forall p, p ∈ map_iter (ms_events l) -> 0 < p.1 <= ms_sequence l /\ ch_cursor (me_change p.2) = p.1) as Hin
    by (intros [s e] Hp%elem_of_map_iter; by apply (ss_events l Hl)).
  pose proof (map_iter_by_key (ms_events l)) as Hs. induction Hs as [|[s e] ps Hs IH Hall]; cbn; [by split; constructor|].
  destruct IH as [IH1 IH2]; [set_solver|]. destruct (Hin (s, e)) as [Hse Hc]; [set_solver|]. cbn in Hse, Hc. split; constructor; try done; [|by cbn; rewrite Hc].
  rewrite Forall_forall in Hall. apply Forall_forall. intros q (p & -> & (p' & -> & Hp')%list_elem_of_fmap)%list_elem_of_fmap.
  specialize (Hall p' Hp'). destruct (Hin p') as [_ Hc']; [set_solver|]. unfold by_key in *. cbn in *. rewrite Hc, Hc'. done.
Qed.
Next Obligation. intros H0 H1 l inbox after limit Hl Ha. cbn. unfold store_pending_keys. by rewrite store_pending_order. Qed.
Next Obligation.
  intros H0 H1 l inbox after Hl Ha. cbn. unfold store_pending. rewrite store_pending_order by done.
  destruct (above after _) as [|[s n] rows] eqn:Hr; [done|]. cbn.
  assert ((s, n) ∈ above after (pending_order (ms_resources l) inbox)) as [Hin _]%elem_of_above by (rewrite Hr; set_solver).
  apply (elem_of_pending_order (ms_sequence l)) in Hin as (r & -> & _); [done|apply Hl].
Qed.
Next Obligation. done. Qed.
Next Obligation. done. Qed.
Next Obligation. done. Qed.
Next Obligation. done. Qed.
Next Obligation. intros. by apply store_scan_law. Qed.
Next Obligation. intros. by apply store_receipted_lookup. Qed.
Next Obligation. done. Qed.
Next Obligation. intros. apply message_address_returns. Qed.
Next Obligation.
  intros H0 H1 l after Hl. cbn. unfold store_changes_since. f_equal.
  assert (map (fun p => (me_inbox p.2, me_change p.2)) (take 16 (above after (map_iter (ms_events l)))) =
    take 16 (filter (fun p => after < ch_cursor p.2) (store_changes l))) as ->; [|done].
  etrans; [apply (fmap_take (fun p : Z * MemoryEntry => (me_inbox p.2, me_change p.2)))|]. unfold store_changes. f_equal.
  assert (forall p, p ∈ map_iter (ms_events l) -> ch_cursor (me_change p.2) = p.1) as Hin
    by (intros [s e] Hp%elem_of_map_iter; by apply (ss_events l Hl)).
  induction (map_iter (ms_events l)) as [|p ps IH]; [done|]. unfold above in *. cbn [map fmap list_fmap].
  rewrite !filter_cons. cbn [snd]. rewrite (Hin p) by set_solver. case_decide; cbn [fmap list_fmap]; rewrite IH by set_solver; done.
Qed.
Next Obligation. intros. by apply store_create_law. Qed.
Next Obligation.
  intros H0 H1 l writer at_ r reads Hl Hn. cbn. unfold inbox_log_create_resource, store_create. cbn [r_name with_spec]. by rewrite bool_decide_true.
Qed.
Next Obligation. intros. by apply store_edge_law. Qed.
Next Obligation. intros. by apply store_receipt_law. Qed.

Lemma memory_store_new_sound : store_sound memory_store_new.
Proof.
  split; cbn; [apply messages_ok_empty|unfold_ints; lia|intros s e He; by rewrite lookup_empty in He|done| |].
  - intros inbox s n. unfold pending_index, index_by. by rewrite !lookup_empty.
  - intros n s u Hn. by rewrite lookup_empty in Hn.
Qed.
