(* ===== verification/Inbox.v ===== *)
(** The inbox over the engine ([crates/flotilla-inbox/src/lib.rs], [resident.rs]):
    its state, a home of messages with a bounded cache of values, receipts and
    pending orders in front of its log, and every operation on it. *)

From Stdlib Require Import Ascii.
From S2P Require Import Text Encoding Address Names.
From S2P Require Import Prelude Ordered Schema Read Machine Validate Engine Log Home Consumer Message InboxStore.
Import Message.
#[local] Open Scope Z_scope.

(** * State and errors *)

(** A computation over a state; an error leaves the state as far as it got. *)
Definition SM (St A : Type) : Type := St -> outcome A * St.
#[export] Instance sm_ret {St} : MRet (SM St) := fun A a s => (Done a, s).
#[export] Instance sm_bind {St} : MBind (SM St) := fun A B f m s =>
  match m s with
  | (Done a, s') => f a s'
  | (Failed e, s') => (Failed e, s')
  | (Panics, s') => (Panics, s')
  end.

Section combinators.
Context {St : Type}.
Definition gets {A} (f : St -> A) : SM St A := fun s => (Done (f s), s).
Definition modify (f : St -> St) : SM St unit := fun s => (Done tt, f s).
Definition lift {A} (o : outcome A) : SM St A := fun s => (o, s).
(** A step written on the state itself. *)
Definition doing {A} (f : St -> outcome A * St) : SM St A := f.
Definition fail {A} (e : InboxError) : SM St A := lift (Failed e).
Definition panics {A} : SM St A := lift Panics.
Definition when (b : bool) (m : SM St unit) : SM St unit := if b then m else mret tt.
Fixpoint for_each {A} (f : A -> SM St unit) (l : list A) : SM St unit :=
  match l with [] => mret tt | x :: l => f x ;; for_each f l end.
(** Subtraction of unsigned integers. *)
Definition usub (a b : Z) : SM St Z := if decide (b <= a) then mret (a - b) else panics.
End combinators.

(** * What an inbox is given *)

(** [Observations]: the home clock, and a consistent snapshot of the evidence. *)
Class Observations (O : Type) : Type := {
  obs_now : O -> Timestamp * O;
  with_snapshot : O -> option MemoryMessageWorld * O;
}.

Class Supervision : Type := {
  supervisor : Address -> option Address;
  system_sender : Address;
}.

(** [ConsumerPort]: records a receipt on the consumer's own resource, in a log
    of its own or in the inbox's store. *)
Class ConsumerPort (P L : Type) : Type := {
  port_scope : P -> option ReceiptScope;
  port_receive : P -> L -> string -> Transport -> Timestamp -> outcome unit * P * L;
}.

(** Freezing a message body: its content hash. *)
Class Freeze : Type := freeze : MessageBody -> Frozen MessageBody.

(** The charges of [resident.rs] that depend on allocation: the owned bytes of
    an address, a receiver and a resource with its receipts, and the sizes of
    the types themselves. *)
Class Residence : Type := {
  address_bytes : Address -> Z;
  receiver_bytes : Receiver -> Z;
  resource_bytes : Resource sig -> option (gmap Receiver Transport) -> Z;
  size_of_binding : Z;
  size_of_usize : Z;
  size_of_row : Z;
  size_of_rows : Z;
  address_bytes_nonneg : forall a, 0 <= address_bytes a;
  receiver_bytes_nonneg : forall r, 0 <= receiver_bytes r;
  resource_bytes_nonneg : forall r rows, 0 <= resource_bytes r rows;
  sizes_nonneg : 0 <= size_of_binding /\ 0 <= size_of_usize /\ 0 <= size_of_row /\ 0 <= size_of_rows;
}.

(** * Charges ([resident.rs]) *)

Definition PENDING_BUDGET : Z := 128 * 1024 * 1024.
Definition CONTROL_BUDGET : Z := 96 * 1024 * 1024.
Definition RESIDENT_BUDGET : Z := 128 * 1024 * 1024.

Section charges.
Context `{Residence}.
Definition binding_charge (inbox : Address) (b : InboxBinding) : Z :=
  address_bytes inbox + size_of_binding + 2 * size_of_usize + 128 +
  match b with
  | Unbound _ => 0
  | Bound consumers =>
      if bool_decide (consumers = ∅) then 0 else 512 + foldr (fun c acc => receiver_bytes c + acc) 0 (elements consumers) * 2
  end.
Definition pending_charge (inbox : Address) (name : string) (new_inbox : bool) : Z :=
  Z.of_nat (String.length name) + 2 * size_of_row + if new_inbox then 2 * (address_bytes inbox + size_of_rows) else 0.
(** What a cached inbox is charged beside its rows. *)
Definition inbox_charge (inbox : Address) : Z := pending_charge inbox EmptyString true - pending_charge inbox EmptyString false.
Definition rows_charge (inbox : Address) (rows : gmap Z string) : Z := map_sum (fun _ name => pending_charge inbox name false) rows.
End charges.

(** * Rules *)

#[export] Instance Relation_eq_dec : EqDecision Relation.
Proof. solve_decision. Defined.

Record Rule : Type := mkRule {
  ru_sender : option Address;
  ru_relation : option Relation;
  ru_expectation : option Expectation;
  ru_mode : Transport;
}.
(** [Option::is_none_or] of an equality. *)
Definition none_or {A} `{EqDecision A} (o : option A) (a : A) : bool := match o with None => true | Some b => bool_decide (b = a) end.
Definition rule_matches (spec : MessageSpec) (rule : Rule) : bool :=
  none_or (ru_sender rule) (sender spec) && none_or (ru_relation rule) (relation spec) && none_or (ru_expectation rule) (expectation spec).
(** [Rules::choose]. *)
Definition choose (rules : list Rule) (spec : MessageSpec) : Transport :=
  match List.find (rule_matches spec) rules with Some rule => ru_mode rule | None => Turn end.

Record PendingItem : Type := mkPending { pe_message : string; pe_spec : MessageSpec; pe_mode : Transport }.

(** * What the gates read *)

Record GateInputs : Type := mkInputs {
  gi_names : gset string;
  gi_receipts : option (string * Version * gmap Receiver Transport);
  gi_binding : option (string * Version * InboxBinding);
  gi_sent : gset string;
}.
Definition with_names (i : GateInputs) (names : gset string) : GateInputs := mkInputs (gi_names i ∪ names) (gi_receipts i) (gi_binding i) (gi_sent i).

(** [GateWorld]'s lookups: the home's own receipts, binding and messages, and
    the observed evidence for the rest. *)
Definition gate_world (base : MemoryMessageWorld) (receipts : option (string * Version * gmap Receiver Transport))
    (binding : option (string * Version * InboxBinding)) (sent : gset string) : MessageWorld :=
  let observed := memory_world base in
  mkWorld
    (fun r => match receipts with
              | Some (name, version, rows) => if bool_decide (name = ref_name r) then Some (version, rows) else w_receipts observed r
              | None => w_receipts observed r
              end)
    (fun r => match binding with
              | Some (name, version, b) => if bool_decide (name = ref_name r) then Some (version, b) else w_binding observed r
              | None => w_binding observed r
              end)
    (w_applied_through observed) (w_reply observed) (w_condition observed) (w_delivery_failure observed) (w_supersession observed) (w_authority observed)
    (fun r => if bool_decide (ref_name r ∈ sent) then Some (1, tt) else w_sent observed r).

(** The declared read set of a snapshot. *)
Definition select (base : MemoryMessageWorld) (names : gset string) : MemoryMessageWorld :=
  let names := set_iter names in
  mkMemoryWorld (table_select (m_receipts base) names) (table_select (m_binding base) names) (table_select (m_applied_through base) names)
    (table_select (m_reply base) names) (table_select (m_condition base) names) (table_select (m_delivery_failure base) names)
    (table_select (m_supersession base) names) (table_select (m_authority base) names) (table_select (m_sent base) names).

(** The home's receipts with the observed ones: the home's own win. *)
Definition merge_receipts (base : MemoryMessageWorld) (receipts : option (string * Version * gmap Receiver Transport)) :
    option (string * Version * gmap Receiver Transport) :=
  match receipts with
  | Some (name, version, rows) =>
      match table_lookup (m_receipts base) (mkRef name) with
      | Some (v, observed) => Some (name, u64_saturating_add version v, rows ∪ observed)
      | None => Some (name, version, rows)
      end
  | None => None
  end.
(** The world [GateInputs::run] builds from a snapshot. *)
Definition world_of (i : GateInputs) (snapshot : MemoryMessageWorld) : MessageWorld :=
  let base := select snapshot (gi_names i) in
  gate_world base (merge_receipts base (gi_receipts i)) (gi_binding i) (gi_sent i).

Definition r_message (r : Resource sig) : MessageSpec := r_spec r.

(** * State *)

Record InboxState : Type := mkInboxState { is_binding : InboxBinding; is_count : Z }.

Section inbox.
Context {L P Ob : Type} `{!Log sig L, !InboxLog L, !ConsumerPort P L, !Observations Ob} {SV : Supervision} {FZ : Freeze} {RS : Residence} {LC : Lowercase} {SH : Sha256}.

(** [State], and the collaborators it calls on. *)
Record Inbox : Type := mkInbox {
  ib_home : Home sig L;
  ib_bindings : gmap Address InboxState;
  ib_receipts : gmap string (gmap Receiver Transport);
  ib_consumers : gmap Receiver P;
  ib_inboxes : gmap Address (gmap Z string);
  ib_pending_bytes : Z;
  ib_pending_budget : Z;
  ib_sequence : Z;
  ib_budget : Z;
  ib_resident_bytes : Z;
  ib_control_bytes : Z;
  ib_sizes : gmap string (Z * Z);
  ib_lru : gmap Z string;
  ib_touched : gset string;
  ib_tick : Z;
  ib_observation_version : Z;
  ib_observations : Ob;
}.

Definition set_home (v : Home sig L) (s : Inbox) : Inbox :=
  mkInbox v (ib_bindings s) (ib_receipts s) (ib_consumers s) (ib_inboxes s) (ib_pending_bytes s) (ib_pending_budget s) (ib_sequence s) (ib_budget s) (ib_resident_bytes s) (ib_control_bytes s) (ib_sizes s) (ib_lru s) (ib_touched s) (ib_tick s) (ib_observation_version s) (ib_observations s).
Definition set_bindings (v : gmap Address InboxState) (s : Inbox) : Inbox :=
  mkInbox (ib_home s) v (ib_receipts s) (ib_consumers s) (ib_inboxes s) (ib_pending_bytes s) (ib_pending_budget s) (ib_sequence s) (ib_budget s) (ib_resident_bytes s) (ib_control_bytes s) (ib_sizes s) (ib_lru s) (ib_touched s) (ib_tick s) (ib_observation_version s) (ib_observations s).
Definition set_receipts (v : gmap string (gmap Receiver Transport)) (s : Inbox) : Inbox :=
  mkInbox (ib_home s) (ib_bindings s) v (ib_consumers s) (ib_inboxes s) (ib_pending_bytes s) (ib_pending_budget s) (ib_sequence s) (ib_budget s) (ib_resident_bytes s) (ib_control_bytes s) (ib_sizes s) (ib_lru s) (ib_touched s) (ib_tick s) (ib_observation_version s) (ib_observations s).
Definition set_consumers (v : gmap Receiver P) (s : Inbox) : Inbox :=
  mkInbox (ib_home s) (ib_bindings s) (ib_receipts s) v (ib_inboxes s) (ib_pending_bytes s) (ib_pending_budget s) (ib_sequence s) (ib_budget s) (ib_resident_bytes s) (ib_control_bytes s) (ib_sizes s) (ib_lru s) (ib_touched s) (ib_tick s) (ib_observation_version s) (ib_observations s).
Definition set_inboxes (v : gmap Address (gmap Z string)) (s : Inbox) : Inbox :=
  mkInbox (ib_home s) (ib_bindings s) (ib_receipts s) (ib_consumers s) v (ib_pending_bytes s) (ib_pending_budget s) (ib_sequence s) (ib_budget s) (ib_resident_bytes s) (ib_control_bytes s) (ib_sizes s) (ib_lru s) (ib_touched s) (ib_tick s) (ib_observation_version s) (ib_observations s).
Definition set_pending_bytes (v : Z) (s : Inbox) : Inbox :=
  mkInbox (ib_home s) (ib_bindings s) (ib_receipts s) (ib_consumers s) (ib_inboxes s) v (ib_pending_budget s) (ib_sequence s) (ib_budget s) (ib_resident_bytes s) (ib_control_bytes s) (ib_sizes s) (ib_lru s) (ib_touched s) (ib_tick s) (ib_observation_version s) (ib_observations s).
Definition set_sequence (v : Z) (s : Inbox) : Inbox :=
  mkInbox (ib_home s) (ib_bindings s) (ib_receipts s) (ib_consumers s) (ib_inboxes s) (ib_pending_bytes s) (ib_pending_budget s) v (ib_budget s) (ib_resident_bytes s) (ib_control_bytes s) (ib_sizes s) (ib_lru s) (ib_touched s) (ib_tick s) (ib_observation_version s) (ib_observations s).
Definition set_resident_bytes (v : Z) (s : Inbox) : Inbox :=
  mkInbox (ib_home s) (ib_bindings s) (ib_receipts s) (ib_consumers s) (ib_inboxes s) (ib_pending_bytes s) (ib_pending_budget s) (ib_sequence s) (ib_budget s) v (ib_control_bytes s) (ib_sizes s) (ib_lru s) (ib_touched s) (ib_tick s) (ib_observation_version s) (ib_observations s).
Definition set_control_bytes (v : Z) (s : Inbox) : Inbox :=
  mkInbox (ib_home s) (ib_bindings s) (ib_receipts s) (ib_consumers s) (ib_inboxes s) (ib_pending_bytes s) (ib_pending_budget s) (ib_sequence s) (ib_budget s) (ib_resident_bytes s) v (ib_sizes s) (ib_lru s) (ib_touched s) (ib_tick s) (ib_observation_version s) (ib_observations s).
Definition set_sizes (v : gmap string (Z * Z)) (s : Inbox) : Inbox :=
  mkInbox (ib_home s) (ib_bindings s) (ib_receipts s) (ib_consumers s) (ib_inboxes s) (ib_pending_bytes s) (ib_pending_budget s) (ib_sequence s) (ib_budget s) (ib_resident_bytes s) (ib_control_bytes s) v (ib_lru s) (ib_touched s) (ib_tick s) (ib_observation_version s) (ib_observations s).
Definition set_lru (v : gmap Z string) (s : Inbox) : Inbox :=
  mkInbox (ib_home s) (ib_bindings s) (ib_receipts s) (ib_consumers s) (ib_inboxes s) (ib_pending_bytes s) (ib_pending_budget s) (ib_sequence s) (ib_budget s) (ib_resident_bytes s) (ib_control_bytes s) (ib_sizes s) v (ib_touched s) (ib_tick s) (ib_observation_version s) (ib_observations s).
Definition set_touched (v : gset string) (s : Inbox) : Inbox :=
  mkInbox (ib_home s) (ib_bindings s) (ib_receipts s) (ib_consumers s) (ib_inboxes s) (ib_pending_bytes s) (ib_pending_budget s) (ib_sequence s) (ib_budget s) (ib_resident_bytes s) (ib_control_bytes s) (ib_sizes s) (ib_lru s) v (ib_tick s) (ib_observation_version s) (ib_observations s).
Definition set_tick (v : Z) (s : Inbox) : Inbox :=
  mkInbox (ib_home s) (ib_bindings s) (ib_receipts s) (ib_consumers s) (ib_inboxes s) (ib_pending_bytes s) (ib_pending_budget s) (ib_sequence s) (ib_budget s) (ib_resident_bytes s) (ib_control_bytes s) (ib_sizes s) (ib_lru s) (ib_touched s) v (ib_observation_version s) (ib_observations s).
Definition set_observation_version (v : Z) (s : Inbox) : Inbox :=
  mkInbox (ib_home s) (ib_bindings s) (ib_receipts s) (ib_consumers s) (ib_inboxes s) (ib_pending_bytes s) (ib_pending_budget s) (ib_sequence s) (ib_budget s) (ib_resident_bytes s) (ib_control_bytes s) (ib_sizes s) (ib_lru s) (ib_touched s) (ib_tick s) v (ib_observations s).
Definition set_observations (v : Ob) (s : Inbox) : Inbox :=
  mkInbox (ib_home s) (ib_bindings s) (ib_receipts s) (ib_consumers s) (ib_inboxes s) (ib_pending_bytes s) (ib_pending_budget s) (ib_sequence s) (ib_budget s) (ib_resident_bytes s) (ib_control_bytes s) (ib_sizes s) (ib_lru s) (ib_touched s) (ib_tick s) (ib_observation_version s) v.

Abbreviation IM := (SM Inbox).
Definition ib_log (s : Inbox) : L := home_log (ib_home s).
Definition set_log (l : L) (s : Inbox) : Inbox :=
  let h := ib_home s in set_home (mkHome (home_writer h) (home_definition h) (home_resources h) l) s.
Definition resident (name : string) (s : Inbox) : option (Resource sig) := home_get (ib_home s) name.
Definition read_log {A} (f : L -> outcome A) : IM A := fun s => (f (ib_log s), s).
Definition now : IM Timestamp := fun s => let (t, o) := obs_now (ib_observations s) in (Done t, set_observations o s).
Definition snapshot : IM (option MemoryMessageWorld) := fun s => let (w, o) := with_snapshot (ib_observations s) in (Done w, set_observations o s).

(** The home's calls, with their errors. *)
Definition home_call {A} (f : Home sig L -> result (WriteError sig) A * Home sig L) : IM A := fun s =>
  match f (ib_home s) with
  | (Ok a, h) => (Done a, set_home h s)
  | (Err e, h) => (Failed (EMessage e), set_home h s)
  end.
Definition home_restore (r : Resource sig) : IM unit := _ ← home_call (fun h => restore h r); mret tt.

(** * Residence *)

Definition validate_admission (r : Resource sig) : outcome unit :=
  let admitted := r_admitted r in
  if bool_decide (admitted = 0) || bool_decide (admitted > r_version r) ||
     (bool_decide (r_value r = Pending) && bool_decide (admitted <> r_version r))
  then storage_error "stored Message has no valid immutable admission sequence"
  else Done tt.

Definition touch (name : string) : IM unit := modify (fun s => set_touched ({[name]} ∪ ib_touched s) s).
(** Reads a message's receipts from the log, and keeps them if there are any. *)
Definition load_receipts (name : string) : IM unit :=
  rows ← read_log (fun l => il_receipts l name);
  when (bool_decide (rows <> ∅)) (modify (fun s => set_receipts (<[name := rows]> (ib_receipts s)) s)).

Definition load (name : string) : IM bool :=
  touch name ;;
  r ← gets (resident name);
  if bool_decide (is_Some r) then mret true
  else
    found ← read_log (fun l => il_load l name);
    match found with
    | None => mret false
    | Some r =>
        lift (validate_admission r) ;;
        when (is_open r) (load_receipts name) ;;
        home_restore r ;;
        mret true
    end.

(** A charged message loses its charge. *)
Definition uncharge (name : string) : IM unit :=
  charged ← gets (fun s => ib_sizes s !! name);
  match charged with
  | Some (bytes, tick) =>
      held ← gets ib_resident_bytes;
      left_ ← usub held bytes;
      modify (fun s => set_lru (delete tick (ib_lru s)) (set_resident_bytes left_ (set_sizes (delete name (ib_sizes s)) s)))
  | None => mret tt
  end.
Definition forget (name : string) : IM unit :=
  uncharge name ;;
  modify (fun s => set_receipts (delete name (ib_receipts s)) (set_home (evict (ib_home s) name).2 s)).

(** The body of [trim]'s loop over the touched messages. *)
Definition recharge (name : string) : IM unit :=
  uncharge name ;;
  r ← gets (resident name);
  match r with
  | Some r =>
      if is_open r then
        modify (fun s =>
          let bytes := resource_bytes r (ib_receipts s !! name) in
          let tick := ib_tick s + 1 in
          set_lru (<[tick := name]> (ib_lru s))
            (set_sizes (<[name := (bytes, tick)]> (ib_sizes s)) (set_resident_bytes (ib_resident_bytes s + bytes) (set_tick tick s))))
      else forget name
  | None => mret tt
  end.
Definition over_budget (s : Inbox) : bool := bool_decide (u64_saturating_add (ib_resident_bytes s) (ib_control_bytes s) > ib_budget s).
(** The loop that forgets the least recently used; running out of fuel would be
    the loop's failure to end. *)
Fixpoint shrink (fuel : nat) : IM unit :=
  over ← gets over_budget;
  if over : bool then
    match fuel with
    | O => panics
    | S fuel =>
        first ← gets (fun s => head (map_iter (ib_lru s)));
        match first with
        | Some (_, name) => forget name ;; shrink fuel
        | None => mret tt
        end
    end
  else mret tt.
Definition trim : IM unit :=
  names ← gets ib_touched;
  modify (set_touched ∅) ;;
  for_each recharge (set_iter names) ;;
  entries ← gets (fun s => size (ib_lru s));
  shrink (S entries).

(** * Consumers and bindings *)

Definition control_limit (s : Inbox) : Z := Z.min (ib_budget s) CONTROL_BUDGET.

Definition register (consumer : Receiver) (port : P) : IM unit :=
  known ← gets (fun s => bool_decide (is_Some (ib_consumers s !! consumer)));
  let extra := if known : bool then 0 else receiver_bytes consumer + 64 in
  over ← gets (fun s => bool_decide (u64_saturating_add (ib_control_bytes s) extra > control_limit s));
  if over : bool then fail (EStorage (Said "resident budget exhausted by consumer keys"))
  else modify (fun s => set_consumers (<[consumer := port]> (ib_consumers s)) (set_control_bytes (ib_control_bytes s + extra) s)).

Definition set_binding (inbox : Address) (binding : InboxBinding) : IM unit :=
  held ← gets (fun s => ib_bindings s !! inbox);
  let previous := from_option (fun v => binding_charge inbox (is_binding v)) 0 held in
  control ← gets ib_control_bytes;
  rest ← usub control previous;
  let next := rest + binding_charge inbox binding in
  over ← gets (fun s => bool_decide (next > control_limit s));
  if over : bool then fail (EStorage (Said "resident budget exhausted by binding observations"))
  else modify (fun s =>
    set_observation_version (ib_observation_version s + 1)
      (set_bindings (<[inbox := mkInboxState binding (from_option is_count 0 held)]> (ib_bindings s)) (set_control_bytes next s))).

Definition open_inbox (inbox : Address) (at_ : Timestamp) : IM unit :=
  modify (fun s =>
    match ib_bindings s !! inbox with
    | Some v => set_bindings (<[inbox := mkInboxState (is_binding v) (is_count v + 1)]> (ib_bindings s)) s
    | None =>
        let binding := Unbound at_ in
        set_observation_version (ib_observation_version s + 1)
          (set_bindings (<[inbox := mkInboxState binding 1]> (ib_bindings s))
            (set_control_bytes (ib_control_bytes s + binding_charge inbox binding) s))
    end).

(** * Pending orders *)

Definition evict_pending (inbox : Address) : IM unit :=
  cached ← gets (fun s => ib_inboxes s !! inbox);
  match cached with
  | Some rows =>
      held ← gets ib_pending_bytes;
      left_ ← usub held (inbox_charge inbox + rows_charge inbox rows);
      modify (fun s => set_pending_bytes left_ (set_inboxes (delete inbox (ib_inboxes s)) s))
  | None => mret tt
  end.

Definition over_pending (charge : Z) (s : Inbox) : bool := bool_decide (u64_saturating_add (ib_pending_bytes s) charge > ib_pending_budget s).

(** The rows of one page; [None] when the budget is spent. *)
Fixpoint cache_page (inbox : Address) (keys : list (Z * string)) (charge : Z) (rows : gmap Z string) (after : Z) (s : Inbox) :
    option (Z * gmap Z string * Z) :=
  match keys with
  | [] => Some (charge, rows, after)
  | (seq, name) :: keys =>
      let charge := charge + pending_charge inbox name false in
      if over_pending charge s then None else cache_page inbox keys charge (<[seq := name]> rows) seq s
  end.
Fixpoint cache_pages (fuel : nat) (inbox : Address) (charge : Z) (rows : gmap Z string) (after : Z) : IM (option (Z * gmap Z string)) :=
  match fuel with
  | O => panics
  | S fuel =>
      keys ← read_log (fun l => il_pending_keys l inbox after 32);
      match keys with
      | [] => mret (Some (charge, rows))
      | _ =>
          page ← gets (cache_page inbox keys charge rows after);
          match page with
          | None => mret None
          | Some (charge, rows, after) =>
              if (length keys <? 32)%nat then mret (Some (charge, rows)) else cache_pages fuel inbox charge rows after
          end
      end
  end.
Definition cache_pending (inbox : Address) : IM unit :=
  evict_pending inbox ;;
  let charge := inbox_charge inbox in
  over ← gets (over_pending charge);
  if over : bool then mret tt
  else
    fuel ← gets (fun s => S (Z.to_nat (ib_sequence s)));
    cached ← cache_pages fuel inbox charge ∅ 0;
    match cached with
    | Some (charge, rows) =>
        modify (fun s => set_inboxes (<[inbox := rows]> (ib_inboxes s)) (set_pending_bytes (ib_pending_bytes s + charge) s))
    | None => mret tt
    end.

Definition index_pending (inbox : Address) (seq : Z) (name : string) : IM unit :=
  cached ← gets (fun s => ib_inboxes s !! inbox);
  match cached with
  | None => mret tt
  | Some rows =>
      if bool_decide (is_Some (rows !! seq)) then mret tt
      else
        let charge := pending_charge inbox name false in
        over ← gets (over_pending charge);
        if over : bool then evict_pending inbox
        else modify (fun s => set_pending_bytes (ib_pending_bytes s + charge) (set_inboxes (<[inbox := <[seq := name]> rows]> (ib_inboxes s)) s))
  end.

(** The next candidate above [after], and its bound; it stays resident. *)
Definition next_pending (inbox : Address) (after : Z) : IM (option (Z * string)) :=
  cached ← gets (fun s => ib_inboxes s !! inbox);
  match cached with
  | Some rows =>
      match head (above after (map_iter rows)) with
      | None => mret None
      | Some (seq, name) =>
          found ← load name;
          if found : bool then mret (Some (seq, name)) else fail (EStorage (Said "cached Pending key missing from store"))
      end
  | None =>
      found ← read_log (fun l => il_pending l inbox after);
      match found with
      | None => mret None
      | Some r =>
          lift (validate_admission r) ;;
          let name := r_name r in
          held ← gets (resident name);
          when (negb (bool_decide (is_Some held))) (load_receipts name ;; home_restore r) ;;
          touch name ;;
          mret (Some (r_admitted r, name))
      end
  end.

(** * Gates *)

Definition no_inputs : GateInputs := mkInputs ∅ None None ∅.
Definition condition_names (spec : MessageSpec) : gset string :=
  match expectation spec with Outcome c => {[condition_text c]} | _ => ∅ end ∪
  match delivery_condition spec with Some c => {[condition_text c]} | None => ∅ end.
(** [world] of a message. *)
Definition inputs_of (name : string) : IM GateInputs :=
  held ← gets (resident name);
  match held with
  | None => mret no_inputs
  | Some r =>
      let inbox := r_inbox r in
      state ← gets (fun s => ib_bindings s !! inbox);
      version ← gets ib_observation_version;
      binding ← (if is_open r then
          match state with
          | Some v => mret (Some (address_text inbox, version, is_binding v))
          | None => fail (EStorage (Said "open inbox has no binding clock"))
          end
        else mret None);
      rows ← gets (fun s => ib_receipts s !! name);
      mret (mkInputs ({[name; address_text inbox]} ∪ condition_names (r_message r)) ((fun rows => (name, version, rows)) <$> rows) binding ∅)
  end.
(** [GateInputs::run]. *)
Definition run {A} (i : GateInputs) (operation : MessageWorld -> IM A) : IM A :=
  w ← snapshot;
  match w with
  | None => fail (EStorage (Said "missing consistent observation snapshot"))
  | Some w => operation (world_of i w)
  end.

Definition binding_step (inbox : Address) (name : string) : IM bool :=
  r ← gets (resident name);
  blocked ← (if match r with Some r => bool_decide (r_value r = Pending) | None => false end then
      i ← inputs_of name;
      run i (fun w => mret match w_receipts w (mkRef name) with Some (_, rows) => bool_decide (rows <> ∅) | None => false end)
    else mret false);
  trim ;;
  mret blocked.
Fixpoint binding_blocked (fuel : nat) (inbox : Address) (after : Z) : IM bool :=
  match fuel with
  | O => panics
  | S fuel =>
      next ← next_pending inbox after;
      match next with
      | None => mret false
      | Some (seq, name) =>
          blocked ← binding_step inbox name;
          if blocked : bool then mret true else binding_blocked fuel inbox seq
      end
  end.

Definition publish : IM unit :=
  next ← read_log il_sequence;
  behind ← gets (fun s => bool_decide (next <= ib_sequence s));
  if behind : bool then fail (EStorage (Said "home log did not advance the watch cursor"))
  else modify (set_sequence next).

(** * Sending *)

Definition exists_ (name : string) : IM bool :=
  r ← gets (resident name);
  if bool_decide (is_Some r) then mret true else read_log (fun l => il_exists l name).

(** The references a new message names: those this home has are sent. *)
Fixpoint sent_inputs (refs : list MessageRef) (i : GateInputs) : IM GateInputs :=
  match refs with
  | [] => mret i
  | m :: refs =>
      let key := ref_name (sent m) in
      let i := with_names i {[key]} in
      writer ← gets (fun s => home_writer (ib_home s));
      known ← (if bool_decide (sref_home m = writer) then exists_ (sref_name m) else mret false);
      sent_inputs refs (if known : bool then mkInputs (gi_names i) (gi_receipts i) (gi_binding i) ({[key]} ∪ gi_sent i) else i)
  end.

Definition enqueue_named (spec : MessageSpec) (name : option string) : IM string :=
  let inbox := inbox spec in
  at_ ← now;
  i ← sent_inputs (option_list (in_reply_to spec) ++ option_list (supersedes spec)) no_inputs;
  name ← match name with Some name => mret name | None => read_log (fun l => il_next_name l inbox (sender spec)) end;
  empty ← gets (fun s => match ib_bindings s !! inbox with Some v => bool_decide (is_count v = 0) | None => true end);
  run i (fun w => home_call (fun h => create h name spec w at_) ;; mret tt) ;;
  open_inbox inbox at_ ;;
  cached ← gets (fun s => bool_decide (is_Some (ib_inboxes s !! inbox)));
  when (empty && negb cached)
    (let charge := inbox_charge inbox in
     over ← gets (over_pending charge);
     when (negb over) (modify (fun s => set_inboxes (<[inbox := ∅]> (ib_inboxes s)) (set_pending_bytes (ib_pending_bytes s + charge) s)))) ;;
  touch name ;;
  created ← gets (resident name);
  match created with
  | None => fail (EStorage (Said "committed admission missing from Home"))
  | Some r => index_pending inbox (r_admitted r) name ;; publish ;; mret name
  end.

(** * Receipts *)

Definition receive_locked (consumer : Receiver) (message : string) (transport : Transport) : IM unit :=
  load message ;;
  held ← gets (resident message);
  match held with
  | None => fail (EMessage (Unknown message))
  | Some r =>
      match r_value r with
      | Awaiting _ => fail (EMessage (WRefused (MWrongState : Refusal sig)))
      | Settled _ | Dropped _ _ _ => fail (EMessage (WRefused (MEnded : Refusal sig)))
      | Pending =>
          let inbox := r_inbox r in
          previous ← gets (fun s => ib_receipts s !! message ≫= fun rows => rows !! consumer);
          match previous with
          | Some t => if bool_decide (t = transport) then mret tt else fail (EMessage (WRefused (IncorrectReceipt : Refusal sig)))
          | None =>
              scope ← gets (fun s => il_consumer_scope (ib_log s));
              port ← gets (fun s => ib_consumers s !! consumer);
              match port with
              | None => fail (EConsumer "consumer has no Receive port")
              | Some port =>
                  if match scope with
                     | Some scope => bool_decide (rc_host consumer <> sc_home scope) || bool_decide (port_scope port <> Some scope)
                     | None => false
                     end
                  then fail (EConsumer "SQLite consumer must share the inbox Store and home")
                  else
                    at_ ← now;
                    doing (fun s => let '(r, port, l) := port_receive port (ib_log s) message transport at_ in
                                    (r, set_log l (set_consumers (<[consumer := port]> (ib_consumers s)) s))) ;;
                    modify (fun s =>
                      set_observation_version (ib_observation_version s + 1)
                        (set_receipts (<[message := <[consumer := transport]> (default ∅ (ib_receipts s !! message))]> (ib_receipts s)) s)) ;;
                    doing (fun s => let '(r, l) := il_receipt (ib_log s) inbox message consumer transport in (r, set_log l s)) ;;
                    publish
              end
          end
      end
  end.

(** * Edges *)

(** What a drop's reason adds to the read set. *)
Definition edge_names (edge : MessageEdge) : gset string :=
  match edge with
  | EDrop d =>
      match dr_reason d with
      | Superseded by_ => {[address_text by_]}
      | Withdrawn _ authority | ConsumerUnreachable _ authority => {[address_text authority]}
      | Undeliverable | Expired => ∅
      end
  | _ => ∅
  end.

(** The message leaves the pending order of its inbox. *)
Definition unindex_pending (inbox : Address) (seq : Z) : IM unit :=
  cached ← gets (fun s => ib_inboxes s !! inbox);
  match cached ≫= fun rows => (fun name => (rows, name)) <$> rows !! seq with
  | Some (rows, name) =>
      held ← gets ib_pending_bytes;
      left_ ← usub held (pending_charge inbox name false);
      modify (fun s => set_pending_bytes left_ (set_inboxes (<[inbox := delete seq rows]> (ib_inboxes s)) s))
  | None => mret tt
  end.
(** A message of the inbox has ended; the last one closes it. *)
Definition close_inbox (inbox : Address) : IM unit :=
  held ← gets (fun s => ib_bindings s !! inbox);
  match held with
  | None => fail (EStorage (Said "open inbox has no binding clock"))
  | Some v =>
      count ← usub (is_count v) 1;
      modify (fun s => set_bindings (<[inbox := mkInboxState (is_binding v) count]> (ib_bindings s)) s) ;;
      when (bool_decide (count = 0))
        (evict_pending inbox ;;
         match is_binding v with
         | Unbound _ =>
             control ← gets ib_control_bytes;
             left_ ← usub control (binding_charge inbox (is_binding v));
             modify (fun s =>
               set_observation_version (ib_observation_version s + 1)
                 (set_control_bytes left_ (set_bindings (delete inbox (ib_bindings s)) s)))
         | Bound _ => mret tt
         end)
  end.

Definition apply_locked (message : string) (edge : MessageEdge) : IM unit :=
  load message ;;
  before ← gets (resident message);
  i ← inputs_of message;
  run (with_names i (edge_names edge)) (fun w => at_ ← now; home_call (fun h => apply h message edge w at_) ;; mret tt) ;;
  after ← gets (resident message);
  match after with
  | None => panics
  | Some r =>
      let inbox := r_inbox r in
      match before with
      | Some b => when (bool_decide (r_value r <> Pending)) (unindex_pending inbox (r_admitted b))
      | None => mret tt
      end ;;
      when (from_option is_open false before && negb (is_open r)) (close_inbox inbox) ;;
      publish
  end.

(** The letter a supervisor gets for a message that cannot be delivered. *)
Definition dead_letter_spec (to : Address) (message : string) (version : Version) : MessageSpec :=
  let spec := spec_new system_sender to System (freeze (Text "Message undeliverable")) in
  mkSpec (sender spec) (inbox spec) (admitted_seq spec) (relation spec) (body spec)
    (references spec ++ [mkReference (mkAddress message) (str (u64_to_string version)) true])
    (in_reply_to spec) (supersedes spec) (expectation spec) (deadline spec) (unbound_after spec) (delivery_condition spec).
Definition dead_letter (message : string) : IM unit :=
  held ← gets (resident message);
  match held with
  | None => panics
  | Some r =>
      let from := sender (r_message r) in
      match supervisor from with
      | Some to =>
          if bool_decide (to = from) then mret tt
          else
            name ← lift (dead_letter_name to message);
            known ← exists_ name;
            if known : bool then mret tt
            else if is_ok (from_str (tx message)) then
              enqueue_named (dead_letter_spec to message (r_version r)) (Some name) ;; mret tt
            else panics
      | None => mret tt
      end
  end.

(** * Operations ([InboxBackend]) *)

(** [access]: the operation and then the cache, under the writer lock. *)
Definition access {A} (operation : IM A) : IM A := fun s =>
  match operation s with
  | (Panics, s) => (Panics, s)
  | (r, s) =>
      match trim s with
      | (Done _, s) => (r, s)
      | (Failed e, s) => (Failed e, s)
      | (Panics, s) => (Panics, s)
      end
  end.
(** Whether the access wakes the watchers. *)
Definition pokes (s s' : Inbox) : bool := bool_decide (ib_sequence s <> ib_sequence s').

Definition get (message : string) : IM (option (Resource sig)) := access (load message ;; gets (resident message)).
Definition enqueue (spec : MessageSpec) : IM string := access (enqueue_named spec None).
Definition enqueue_once (spec : MessageSpec) (name : string) : IM string :=
  known ← exists_ name;
  if known : bool then mret name else enqueue_named spec (Some name).
Definition enqueue_as (spec : MessageSpec) (id : list ascii) : IM string :=
  name ← lift (message_address (inbox spec) id);
  access (enqueue_once spec name).

(** One turn of [bind]'s loop; [false] waits for a change and tries again. *)
Definition bind_locked (inbox : Address) (consumer : Receiver) : IM bool :=
  fuel ← gets (fun s => S (Z.to_nat (ib_sequence s)));
  blocked ← binding_blocked fuel inbox 0;
  if blocked : bool then mret false
  else
    held ← gets (fun s => ib_bindings s !! inbox);
    at_ ← now;
    let binding := match from_option is_binding (Unbound at_) held with
                   | Bound consumers => Bound ({[consumer]} ∪ consumers)
                   | Unbound _ => Bound {[consumer]}
                   end in
    set_binding inbox binding ;;
    mret true.
Definition bind_attempt (inbox : Address) (consumer : Receiver) : IM bool := access (bind_locked inbox consumer).
Definition unbind_locked (inbox : Address) (consumer : Receiver) : IM unit :=
  held ← gets (fun s => ib_bindings s !! inbox);
  match held with
  | Some (mkInboxState (Bound consumers) count) =>
      let consumers := consumers ∖ {[consumer]} in
      binding ← (if bool_decide (consumers = ∅) then at_ ← now; mret (Unbound at_) else mret (Bound consumers));
      match binding with
      | Unbound _ =>
          if bool_decide (count = 0) then
            control ← gets ib_control_bytes;
            left_ ← usub control (from_option (fun v => binding_charge inbox (is_binding v)) 0 held);
            modify (fun s => set_control_bytes left_ (set_bindings (delete inbox (ib_bindings s)) s))
          else set_binding inbox binding
      | Bound _ => set_binding inbox binding
      end
  | _ => mret tt
  end.
Definition unbind (inbox : Address) (consumer : Receiver) : IM unit := access (unbind_locked inbox consumer).

(** One candidate of [pending]: what it gives, if the message is for this consumer. *)
Definition pending_candidate (consumer : Receiver) (rules : list Rule) (name : string) : IM (option PendingItem) :=
  held ← gets (resident name);
  match held with
  | None => panics
  | Some r =>
      i ← inputs_of name;
      allowed ← run i (fun w => at_ ← now; mret (j_value (resource_judge r w at_ (pending_for consumer))));
      if allowed : bool then
        let mode := if is_dead_letter name then Notify else choose rules (r_message r) in
        when (bool_decide (mode <> Turn)) (receive_locked consumer name mode) ;;
        mret (Some (mkPending name (r_message r) mode))
      else trim ;; mret None
  end.
Fixpoint pending_loop (fuel : nat) (inbox : Address) (consumer : Receiver) (rules : list Rule) (after : Z) : IM (option (Z * PendingItem)) :=
  match fuel with
  | O => panics
  | S fuel =>
      next ← next_pending inbox after;
      match next with
      | None => mret None
      | Some (seq, name) =>
          item ← pending_candidate consumer rules name;
          match item with
          | Some item => mret (Some (seq, item))
          | None => pending_loop fuel inbox consumer rules seq
          end
      end
  end.
(** One poll of the stream of [pending], at the bound its last item left. *)
Definition pending_locked (inbox : Address) (consumer : Receiver) (rules : list Rule) (after : Z) : IM (option (Z * PendingItem)) :=
  fuel ← gets (fun s => S (Z.to_nat (ib_sequence s)));
  pending_loop fuel inbox consumer rules after.
Definition pending_next (inbox : Address) (consumer : Receiver) (rules : list Rule) (after : Z) : IM (option (Z * PendingItem)) :=
  access (pending_locked inbox consumer rules after).

Definition receive (consumer : Receiver) (message : string) (transport : Transport) : IM unit := access (receive_locked consumer message transport).
Definition deliver (message : string) (edge : Deliver) : IM unit := access (apply_locked message (EDeliver edge)).
Definition settle (message : string) (edge : Settle) : IM unit := access (apply_locked message (ESettle edge)).
Definition drop_locked (message : string) (reason : DropReason) : IM unit :=
  load message ;;
  held ← gets (resident message);
  if bool_decide (reason = Undeliverable) && bool_decide ((held ≫= fun r => drop_reason (r_value r)) = Some reason) then
    dead_letter message ;; fail (EMessage (WRefused (MEnded : Refusal sig)))
  else
    apply_locked message (EDrop (mkDrop reason)) ;;
    when (bool_decide (reason = Undeliverable)) (dead_letter message).
Definition drop_message (message : string) (reason : DropReason) : IM unit := access (drop_locked message reason).
Definition register_consumer (consumer : Receiver) (port : P) : IM unit := access (register consumer port).

(** * Opening *)

(** The state before anything is read from the log. *)
Definition unread (home : Home sig L) (observations : Ob) (sequence budget pending_budget : Z) : Inbox :=
  mkInbox home ∅ ∅ ∅ ∅ 0 pending_budget sequence budget 0 0 ∅ ∅ ∅ 0 sequence observations.

(** One stored message of a start-up page; [sequence] is the log's when opening
    began. An open message is counted and kept; one that was dropped as
    undeliverable gets the dead letter it may have been left without. *)
Definition recover_message (sequence : Z) (r : Resource sig) : IM unit :=
  lift (validate_admission r) ;;
  let name := r_name r in
  let inbox := r_inbox r in
  if bool_decide (r_admitted r > sequence) then mret tt
  else
    (if is_open r then
       at_ ← now;
       open_inbox inbox at_ ;;
       load_receipts name ;;
       held ← gets (resident name);
       when (negb (bool_decide (is_Some held))) (home_restore r) ;;
       touch name
     else when (bool_decide (drop_reason (r_value r) = Some Undeliverable)) (home_restore r ;; touch name ;; dead_letter name)) ;;
    trim.
Fixpoint recover_pages (fuel : nat) (sequence : Z) (after : option Z) : IM unit :=
  match fuel with
  | O => panics
  | S fuel =>
      page ← read_log (fun l => il_scan l after);
      for_each (recover_message sequence) (sp_messages page) ;;
      match sp_next page with
      | None => mret tt
      | Some after => recover_pages fuel sequence (Some after)
      end
  end.
(** The start-up pages and then the pending orders. *)
Definition recover (sequence : Z) : IM unit :=
  recover_pages (S (Z.to_nat (2 * sequence))) sequence None ;;
  inboxes ← gets (fun s => map fst (map_iter (ib_bindings s)));
  for_each cache_pending inboxes.
Definition open_with_budgets (writer : string) (log : L) (observations : Ob) (budget pending_budget : Z) : outcome Inbox :=
  sequence ← il_sequence log;
  match with_log writer log with
  | Err _ => Panics
  | Ok home =>
      match recover sequence (unread home observations sequence budget pending_budget) with
      | (Done _, s) => Done s
      | (Failed e, _) => Failed e
      | (Panics, _) => Panics
      end
  end.
End inbox.
