(* ===== verification/InboxSpec.v ===== *)
(** What an inbox promises, without its caches: messages with their receipts,
    bindings and the changes so far, and each operation as one decision on
    them. [InboxRefine] proves that the inbox of [Inbox] implements it. *)

From Stdlib Require Import Ascii.
From S2P Require Import Text Encoding Address Names.
From S2P Require Import Prelude Ordered Schema Read Machine Validate Engine Log Home Consumer Message InboxStore Inbox.
Import Message.
#[local] Open Scope Z_scope.

(** A port that keeps to its own resource and does not panic. *)
Class LocalPort (P L : Type) `{!ConsumerPort P L} : Type := {
  port_record : P -> string -> Transport -> Timestamp -> outcome unit * P;
  port_local : forall p l message t at_, port_receive p l message t at_ = (port_record p message t at_, l);
  port_returns : forall p message t at_, (port_record p message t at_).1 <> Panics;
}.

(** The open messages of an inbox. *)
Definition open_in (inbox : Address) (r : Resource sig) : bool := is_open r && bool_decide (r_inbox r = inbox).
Definition open_count (m : gmap string (Resource sig)) (inbox : Address) : Z :=
  map_sum (fun _ r => if open_in inbox r then 1 else 0) m.

Section spec.
Context {P Ob : Type} `{!Observations Ob} {SV : Supervision} {FZ : Freeze} {RS : Residence} {LC : Lowercase} {SH : Sha256}.

Record AInbox : Type := mkAInbox {
  a_messages : gmap string (Resource sig);
  a_receipts : gmap string (gmap Receiver Transport);
  a_sequence : Z;
  a_changes : list (Address * Change);
  a_bindings : gmap Address InboxBinding;
  a_consumers : gmap Receiver P;
  a_version : Z;
  a_observations : Ob;
}.
Abbreviation AM := (SM AInbox).

Context (writer : string) (limit : Z) (name_for : Address -> Address -> Z -> outcome string)
  (record : P -> string -> Transport -> Timestamp -> outcome unit * P).

Definition a_set_observations (o : Ob) (a : AInbox) : AInbox :=
  mkAInbox (a_messages a) (a_receipts a) (a_sequence a) (a_changes a) (a_bindings a) (a_consumers a) (a_version a) o.
Definition a_set_consumers (c : gmap Receiver P) (a : AInbox) : AInbox :=
  mkAInbox (a_messages a) (a_receipts a) (a_sequence a) (a_changes a) (a_bindings a) c (a_version a) (a_observations a).
Definition a_set_bindings (b : gmap Address InboxBinding) (version : Z) (a : AInbox) : AInbox :=
  mkAInbox (a_messages a) (a_receipts a) (a_sequence a) (a_changes a) b (a_consumers a) version (a_observations a).
(** One more change, at the next sequence. *)
Definition a_commit (m : gmap string (Resource sig)) (rec : gmap string (gmap Receiver Transport)) (inbox : Address) (name : string) (kind : ChangeKind)
    (a : AInbox) : AInbox :=
  let seq := a_sequence a + 1 in
  mkAInbox m rec seq (a_changes a ++ [(inbox, mkChange seq name kind)]) (a_bindings a) (a_consumers a) (a_version a) (a_observations a).

Definition a_now : AM Timestamp := fun a => let (t, o) := obs_now (a_observations a) in (Done t, a_set_observations o a).
Definition a_snapshot : AM MemoryMessageWorld := fun a =>
  let (w, o) := with_snapshot (a_observations a) in
  (match w with Some w => Done w | None => storage_error "missing consistent observation snapshot" end, a_set_observations o a).
Definition a_get (name : string) : AM (option (Resource sig)) := gets (fun a => a_messages a !! name).

(** The world a message's gates read: the whole snapshot, with the home's own
    receipts and binding. *)
Definition a_world (a : AInbox) (name : string) (r : Resource sig) (base : MemoryMessageWorld) : MessageWorld :=
  gate_world base (merge_receipts base ((fun rows => (name, a_version a, rows)) <$> a_receipts a !! name))
    ((fun b => (address_text (r_inbox r), a_version a, b)) <$> a_bindings a !! r_inbox r) ∅.

(** * Edges *)

(** An inbox nobody is bound to is forgotten with its last open message. *)
Definition a_close (inbox : Address) (a : AInbox) : AInbox :=
  match a_bindings a !! inbox with
  | Some (Unbound _) =>
      if bool_decide (open_count (a_messages a) inbox = 0) then a_set_bindings (delete inbox (a_bindings a)) (a_version a + 1) a else a
  | _ => a
  end.
Definition a_moved (a : AInbox) (r : Resource sig) (nxt : MessageState) (at_ : Timestamp) : Resource sig :=
  mkResource (r_name r) (r_spec r)
    (mkState (nxt : MState sig) (if bool_decide (message_label (r_value r) = message_label nxt) then since (r_state r) else at_)) (a_sequence a + 1).
Definition a_apply (name : string) (edge : MessageEdge) : AM unit :=
  base ← a_snapshot;
  at_ ← a_now;
  doing (fun a =>
    match a_messages a !! name with
    | None => (Failed (EMessage (Unknown name)), a)
    | Some r =>
        match message_next name (r_message r) (a_world a name r base) at_ (r_value r) edge with
        | Err e => (Failed (EMessage (WRefused (e : Refusal sig))), a)
        | Ok nxt =>
            let a := a_commit (<[name := a_moved a r nxt at_]> (a_messages a)) (a_receipts a) (r_inbox r) name (CMessage nxt) a in
            (Done tt, if match nxt with Settled _ | Dropped _ _ _ => true | _ => false end then a_close (r_inbox r) a else a)
        end
    end).

(** * Sending *)

Definition a_sent (a : AInbox) (spec : MessageSpec) : gset string :=
  list_to_set (map (fun m => ref_name (sent m))
    (filter (fun m => sref_home m = writer /\ is_Some (a_messages a !! sref_name m)) (named spec))).
Definition a_open (inbox : Address) (at_ : Timestamp) (a : AInbox) : AInbox :=
  match a_bindings a !! inbox with
  | Some _ => a
  | None => a_set_bindings (<[inbox := Unbound at_]> (a_bindings a)) (a_version a + 1) a
  end.
Definition a_admit (name : string) (spec : MessageSpec) (at_ : Timestamp) (seq : Z) : Resource sig :=
  mkResource name (with_admitted spec seq : Spec sig) (mkState (Pending : MState sig) at_) seq.
(** A name in use is not expected here: see [a_enqueue_as]. *)
Definition a_enqueue_named (spec : MessageSpec) (name : option string) : AM string :=
  at_ ← a_now;
  name ← match name with Some name => mret name | None => doing (fun a => (name_for (inbox spec) (sender spec) (a_sequence a), a)) end;
  base ← a_snapshot;
  doing (fun a =>
    match admission_of (gate_world base None None (a_sent a spec)) spec with
    | Err e => (Failed (EMessage (WRefused (e : Refusal sig))), a)
    | Ok _ =>
        (Done name,
         a_open (inbox spec) at_
           (a_commit (<[name := a_admit name spec at_ (a_sequence a + 1)]> (a_messages a)) (a_receipts a) (inbox spec) name (CMessage Pending) a))
    end).
Definition a_enqueue (spec : MessageSpec) : AM string := a_enqueue_named spec None.
Definition a_enqueue_as (spec : MessageSpec) (id : list ascii) : AM string :=
  name ← lift (message_address (inbox spec) id);
  known ← a_get name;
  if bool_decide (is_Some known) then mret name else a_enqueue_named spec (Some name).

(** * Receipts *)

Definition a_receive (consumer : Receiver) (message : string) (transport : Transport) : AM unit :=
  held ← a_get message;
  match held with
  | None => fail (EMessage (Unknown message))
  | Some r =>
      match r_value r with
      | Awaiting _ => fail (EMessage (WRefused (MWrongState : Refusal sig)))
      | Settled _ | Dropped _ _ _ => fail (EMessage (WRefused (MEnded : Refusal sig)))
      | Pending =>
          previous ← gets (fun a => a_receipts a !! message ≫= fun rows => rows !! consumer);
          match previous with
          | Some t => if bool_decide (t = transport) then mret tt else fail (EMessage (WRefused (IncorrectReceipt : Refusal sig)))
          | None =>
              port ← gets (fun a => a_consumers a !! consumer);
              match port with
              | None => fail (EConsumer "consumer has no Receive port")
              | Some port =>
                  at_ ← a_now;
                  doing (fun a => let '(r, port) := record port message transport at_ in
                                  (r, a_set_consumers (<[consumer := port]> (a_consumers a)) a)) ;;
                  modify (fun a =>
                    let rows := <[consumer := transport]> (default ∅ (a_receipts a !! message)) in
                    a_commit (a_messages a) (<[message := rows]> (a_receipts a)) (r_inbox r) message (CReceipt consumer transport)
                      (a_set_bindings (a_bindings a) (a_version a + 1) a))
              end
          end
      end
  end.

(** * Dropping *)

Definition a_dead_letter (message : string) : AM unit :=
  held ← a_get message;
  match held with
  | None => panics
  | Some r =>
      let from := sender (r_message r) in
      match supervisor from with
      | Some to =>
          if bool_decide (to = from) then mret tt
          else
            name ← lift (dead_letter_name to message);
            known ← a_get name;
            if bool_decide (is_Some known) then mret tt
            else if is_ok (from_str (tx message)) then a_enqueue_named (dead_letter_spec to message (r_version r)) (Some name) ;; mret tt
            else panics
      | None => mret tt
      end
  end.
Definition a_drop (message : string) (reason : DropReason) : AM unit :=
  held ← a_get message;
  if bool_decide (reason = Undeliverable) && bool_decide ((held ≫= fun r => drop_reason (r_value r)) = Some reason) then
    a_dead_letter message ;; fail (EMessage (WRefused (MEnded : Refusal sig)))
  else
    a_apply message (EDrop (mkDrop reason)) ;;
    when (bool_decide (reason = Undeliverable)) (a_dead_letter message).

(** * Bindings *)

(** The bytes bindings and consumers are charged. *)
Definition a_control (a : AInbox) : Z :=
  map_sum binding_charge (a_bindings a) + map_sum (fun c _ => receiver_bytes c + 64) (a_consumers a).
Definition a_set_binding (inbox : Address) (b : InboxBinding) : AM unit := fun a =>
  let next := a_control a - from_option (binding_charge inbox) 0 (a_bindings a !! inbox) + binding_charge inbox b in
  if bool_decide (next > limit) then (Failed (EStorage (Said "resident budget exhausted by binding observations")), a)
  else (Done tt, a_set_bindings (<[inbox := b]> (a_bindings a)) (a_version a + 1) a).

(** Whether a pending message of the inbox has a receipt, in admission order. *)
Fixpoint a_blocked (order : list (Z * string)) : AM bool :=
  match order with
  | [] => mret false
  | (_, name) :: order =>
      base ← a_snapshot;
      blocked ← gets (fun a =>
        match a_messages a !! name with
        | Some r => match w_receipts (a_world a name r base) (mkRef name) with Some (_, rows) => bool_decide (rows <> ∅) | None => false end
        | None => false
        end);
      if blocked : bool then mret true else a_blocked order
  end.
Definition a_bind (inbox : Address) (consumer : Receiver) : AM bool :=
  order ← gets (fun a => pending_order (a_messages a) inbox);
  blocked ← a_blocked order;
  if blocked : bool then mret false
  else
    held ← gets (fun a => a_bindings a !! inbox);
    at_ ← a_now;
    a_set_binding inbox (match held with Some (Bound consumers) => Bound ({[consumer]} ∪ consumers) | _ => Bound {[consumer]} end) ;;
    mret true.
Definition a_unbind (inbox : Address) (consumer : Receiver) : AM unit :=
  held ← gets (fun a => a_bindings a !! inbox);
  match held with
  | Some (Bound consumers) =>
      let left_ := consumers ∖ {[consumer]} in
      if bool_decide (left_ = ∅) then
        at_ ← a_now;
        none ← gets (fun a => bool_decide (open_count (a_messages a) inbox = 0));
        if none : bool then modify (fun a => a_set_bindings (delete inbox (a_bindings a)) (a_version a) a)
        else a_set_binding inbox (Unbound at_)
      else a_set_binding inbox (Bound left_)
  | _ => mret tt
  end.
Definition a_register (consumer : Receiver) (port : P) : AM unit := fun a =>
  let extra := if bool_decide (is_Some (a_consumers a !! consumer)) then 0 else receiver_bytes consumer + 64 in
  if bool_decide (u64_saturating_add (a_control a) extra > limit)
  then (Failed (EStorage (Said "resident budget exhausted by consumer keys")), a)
  else (Done tt, a_set_consumers (<[consumer := port]> (a_consumers a)) a).

(** * Pending messages *)

(** The first message of the order that is pending for the consumer. *)
Fixpoint a_pending (consumer : Receiver) (rules : list Rule) (order : list (Z * string)) : AM (option (Z * PendingItem)) :=
  match order with
  | [] => mret None
  | (seq, name) :: order =>
      base ← a_snapshot;
      at_ ← a_now;
      found ← gets (fun a => r ← a_messages a !! name; if is_pending_for r (a_world a name r base) at_ consumer then Some r else None);
      match found with
      | Some r =>
          let mode := if is_dead_letter name then Notify else choose rules (r_message r) in
          when (bool_decide (mode <> Turn)) (a_receive consumer name mode) ;;
          mret (Some (seq, mkPending name (r_message r) mode))
      | None => a_pending consumer rules order
      end
  end.
Definition a_pending_next (inbox : Address) (consumer : Receiver) (rules : list Rule) (after : Z) : AM (option (Z * PendingItem)) :=
  order ← gets (fun a => above after (pending_order (a_messages a) inbox));
  a_pending consumer rules order.
End spec.

(** * Receipts are kept *)

Section facts.
Context {P Ob : Type} `{!Observations Ob} {SV : Supervision} {FZ : Freeze} {RS : Residence} {LC : Lowercase} {SH : Sha256}.
Context (writer : string) (limit : Z) (name_for : Address -> Address -> Z -> outcome string) (record : P -> string -> Transport -> Timestamp -> outcome unit * P).
Abbreviation AInbox := (@AInbox P Ob).
Implicit Types (a : AInbox).

(** [m] keeps [I], whatever it comes to. *)
Definition keeps {A} (I : AInbox -> Prop) (m : SM AInbox A) : Prop := forall a, I a -> I (m a).2.
Lemma keeps_ret {A} I (x : A) : keeps I (mret x).
Proof. by intros a. Qed.
Lemma keeps_lift {A} I (x : outcome A) : keeps I (lift x).
Proof. by intros a. Qed.
Lemma keeps_gets {A} I (f : AInbox -> A) : keeps I (gets f).
Proof. by intros a. Qed.
Lemma keeps_bind {A B} I (m : SM AInbox A) (f : A -> SM AInbox B) : keeps I m -> (forall x, keeps I (f x)) -> keeps I (m ≫= f).
Proof. intros Hm Hf a Ha. apply Hm in Ha. unfold mbind, sm_bind. destruct (m a) as [[x|e|] a']; cbn in *; [by apply Hf|done..]. Qed.

(** The consumer has a receipt for the message. *)
Definition received a (n : string) (c : Receiver) : Prop := exists rows t, a_receipts a !! n = Some rows /\ rows !! c = Some t.

Section kept.
Context (I : AInbox -> Prop) (Hobs : forall o a, I a -> I (a_set_observations o a)) (Hcon : forall c a, I a -> I (a_set_consumers c a))
  (Hbind : forall b v a, I a -> I (a_set_bindings b v a)) (Hcommit : forall r i n k a, I a -> I (a_commit (<[n := r]> (a_messages a)) (a_receipts a) i n k a))
  (Hreceipt : forall n c t i k a, I a -> (a_receipts a !! n ≫= fun rows => rows !! c) = None ->
    I (a_commit (a_messages a) (<[n := <[c := t]> (default ∅ (a_receipts a !! n))]> (a_receipts a)) i n k (a_set_bindings (a_bindings a) (a_version a + 1) a))).

Lemma keeps_now : keeps I a_now.
Proof. intros a Ha. unfold a_now. destruct (obs_now _). by apply Hobs. Qed.
Lemma keeps_snapshot : keeps I a_snapshot.
Proof. intros a Ha. unfold a_snapshot. destruct (with_snapshot _) as [[w|] o]; by apply Hobs. Qed.
Lemma close_kept inbox a : I a -> I (a_close inbox a).
Proof. intros Ha. unfold a_close. destruct (a_bindings a !! inbox) as [[cs|t]|]; [done| |done]. case_bool_decide; [by apply Hbind|done]. Qed.
Lemma keeps_apply n e : keeps I (a_apply n e).
Proof.
  apply keeps_bind; [apply keeps_snapshot|]. intros base. apply keeps_bind; [apply keeps_now|]. intros t a Ha. unfold doing.
  destruct (a_messages a !! n) as [r|]; [|done]. destruct (message_next _ _ _ _ _ _) as [nxt|e']; [|done]. cbn.
  destruct nxt; cbn; [by apply Hcommit..|by apply close_kept, Hcommit|by apply close_kept, Hcommit].
Qed.
Lemma keeps_enqueue spec name : keeps I (a_enqueue_named writer name_for spec name).
Proof.
  apply keeps_bind; [apply keeps_now|]. intros t. apply keeps_bind; [by destruct name; intros a|]. intros n.
  apply keeps_bind; [apply keeps_snapshot|]. intros base a Ha. unfold doing. destruct (admission_of _ _); [|done]. cbn. unfold a_open.
  case_match; [by apply Hcommit|]. apply Hbind. by apply Hcommit.
Qed.
Lemma keeps_receive c n t : keeps I (a_receive record c n t).
Proof.
  intros a Ha. unfold a_receive, mbind, sm_bind, a_get, gets. cbn. destruct (a_messages a !! n) as [r|]; [|done]. destruct (r_value r); try done.
  destruct (option_bind _ _ _ _) as [t'|] eqn:Hn; [by case_match|]. destruct (a_consumers a !! c) as [p|]; [|done].
  unfold a_now. destruct (obs_now _) as [t' o]. unfold doing. destruct (record p n t t') as [[[]|e|] p']; cbn; [|by apply Hcon, Hobs..].
  apply (Hreceipt n c t (r_inbox r) _ (a_set_consumers _ (a_set_observations o a))); [by apply Hcon, Hobs|exact Hn].
Qed.
Lemma keeps_dead_letter n : keeps I (a_dead_letter writer name_for n).
Proof.
  apply keeps_bind; [apply keeps_gets|]. intros [r|]; [|apply keeps_lift]. cbv zeta. destruct (supervisor (sender (r_message r))) as [to|]; [|apply keeps_ret]. case_match; [apply keeps_ret|].
  apply keeps_bind; [apply keeps_lift|]. intros m. apply keeps_bind; [apply keeps_gets|]. intros known. case_match; [apply keeps_ret|]. case_match; [|apply keeps_lift].
  apply keeps_bind; [apply keeps_enqueue|]. intros x. apply keeps_ret.
Qed.
Lemma keeps_drop n reason : keeps I (a_drop writer name_for n reason).
Proof.
  apply keeps_bind; [apply keeps_gets|]. intros r. case_match.
  - apply keeps_bind; [apply keeps_dead_letter|]. intros x. apply keeps_lift.
  - apply keeps_bind; [apply keeps_apply|]. intros x. unfold when. case_match; [apply keeps_dead_letter|apply keeps_ret].
Qed.
Lemma keeps_set_binding inbox b : keeps I (a_set_binding limit inbox b).
Proof. intros a Ha. unfold a_set_binding. case_match; [done|]. by apply Hbind. Qed.
Lemma keeps_bind_inbox inbox c : keeps I (a_bind limit inbox c).
Proof.
  apply keeps_bind; [apply keeps_gets|]. intros order. apply keeps_bind.
  - induction order as [|[q n] order IH]; [apply keeps_ret|]. cbn. apply keeps_bind; [apply keeps_snapshot|]. intros base.
    apply keeps_bind; [apply keeps_gets|]. intros []; [apply keeps_ret|apply IH].
  - intros []; [apply keeps_ret|]. apply keeps_bind; [apply keeps_gets|]. intros b. apply keeps_bind; [apply keeps_now|]. intros t.
    apply keeps_bind; [apply keeps_set_binding|]. intros x. apply keeps_ret.
Qed.
Lemma keeps_unbind inbox c : keeps I (a_unbind limit inbox c).
Proof.
  apply keeps_bind; [apply keeps_gets|]. intros [[cs|t]|]; try apply keeps_ret. cbv zeta. case_match; [|apply keeps_set_binding].
  apply keeps_bind; [apply keeps_now|]. intros t. apply keeps_bind; [apply keeps_gets|]. intros []; [|apply keeps_set_binding]. intros a Ha. by apply Hbind.
Qed.
Lemma keeps_register c p : keeps I (a_register limit c p).
Proof. intros a Ha. unfold a_register. case_match; [done|]. by apply Hcon. Qed.
Lemma keeps_pending c rules order : keeps I (a_pending record c rules order).
Proof.
  induction order as [|[q n] order IH]; [apply keeps_ret|]. cbn. apply keeps_bind; [apply keeps_snapshot|]. intros base.
  apply keeps_bind; [apply keeps_now|]. intros t. apply keeps_bind; [apply keeps_gets|]. intros [r|]; [|apply IH]. cbv zeta.
  apply keeps_bind; [|intros x; apply keeps_ret]. unfold when. case_match; [apply keeps_receive|apply keeps_ret].
Qed.
End kept.

Lemma received_kept n c : (forall o a, received a n c -> received (a_set_observations o a) n c) /\ (forall cs a, received a n c -> received (a_set_consumers cs a) n c) /\
  (forall b v a, received a n c -> received (a_set_bindings b v a) n c) /\ (forall r i n' k a, received a n c -> received (a_commit (<[n' := r]> (a_messages a)) (a_receipts a) i n' k a) n c) /\
  (forall n' c' t i k a, received a n c -> (a_receipts a !! n' ≫= fun rows => rows !! c') = None ->
    received (a_commit (a_messages a) (<[n' := <[c' := t]> (default ∅ (a_receipts a !! n'))]> (a_receipts a)) i n' k (a_set_bindings (a_bindings a) (a_version a + 1) a)) n c).
Proof.
  split_and!; try done. intros n' c' t i k a (rows & t0 & Hn & Hc) Hnew. unfold received. cbn. destruct (decide (n' = n)) as [->|Hne].
  - rewrite Hn in *. cbn in *. exists (<[c' := t]> rows), t0. rewrite lookup_insert_eq. split; [done|]. rewrite lookup_insert_ne; [done|]. intros ->. congruence.
  - exists rows, t0. by rewrite lookup_insert_ne.
Qed.

(** A receipt is there after it is recorded, and rules the message out. *)
Lemma receive_records c n t a a' : a_receive record c n t a = (Done tt, a') -> received a' n c.
Proof.
  unfold a_receive, mbind, sm_bind, a_get, gets. cbn. destruct (a_messages a !! n) as [r|]; [|done]. destruct (r_value r); try done.
  destruct (a_receipts a !! n) as [rows|] eqn:Hn; cbn [mbind option_bind].
  - destruct (rows !! c) as [t'|] eqn:Hc; [case_match; [|done]; intros [= <-]; by exists rows, t'|]. destruct (a_consumers a !! c) as [p|]; [|done].
    unfold a_now. destruct (obs_now _) as [t' o]. unfold doing. destruct (record p n t t') as [[[]|e|] p']; cbn; [|done|done]. intros [= <-].
    exists (<[c := t]> rows), t. cbn. rewrite Hn, !lookup_insert_eq. done.
  - destruct (a_consumers a !! c) as [p|]; [|done]. unfold a_now. destruct (obs_now _) as [t' o]. unfold doing. destruct (record p n t t') as [[[]|e|] p']; cbn; [|done|done].
    intros [= <-]. exists (<[c := t]> ∅), t. cbn. rewrite Hn, !lookup_insert_eq. done.
Qed.
Lemma received_seen a n c r base : received a n c -> receipt_from (a_world a n r base) n c <> None.
Proof.
  intros (rows & t0 & Hn & Hc). assert (exists v rows', w_receipts (a_world a n r base) (mkRef n) = Some (v, rows') /\ rows' !! c = Some t0) as (v & rows' & Hw & Hr).
  { unfold a_world, gate_world. cbn [w_receipts ref_name]. rewrite Hn. cbn [fmap option_fmap option_map]. unfold merge_receipts.
    destruct (table_lookup _ _) as [[v observed]|]; rewrite bool_decide_true by done; eexists _, _; (split; [reflexivity|]); [by apply lookup_union_Some_l|done]. }
  unfold receipt_from, receipts_in, seen, source_lookup, source_receipts. rewrite Hw. cbn. by rewrite Hr.
Qed.
Lemma received_not_pending a n c r base t : received a n c -> r_name r = n -> is_pending_for r (a_world a n r base) t c = false.
Proof.
  intros Hrec Hname. apply not_true_iff_false. intros (_ & _ & Hp)%is_pending_for_iff. rewrite Hname in Hp. by apply (received_seen a n c r base) in Hrec.
Qed.

Lemma snapshot_eq a : exists x o, a_snapshot a = (x, a_set_observations o a).
Proof. unfold a_snapshot. destruct (with_snapshot _) as [w o]. eauto. Qed.
Lemma now_eq a : exists t o, a_now a = (Done t, a_set_observations o a).
Proof. unfold a_now. destruct (obs_now _) as [t o]. eauto. Qed.

(** What a poll gives: the first message of the order that passed, which the
    consumer had not received; one it is only notified of, it then has. *)
Lemma pending_yields c rules order a q item a' : (forall n r, a_messages a !! n = Some r -> r_name r = n) ->
  a_pending record c rules order a = (Done (Some (q, item)), a') ->
  (q, pe_message item) ∈ order /\ ~ received a (pe_message item) c /\ (pe_mode item <> Turn -> received a' (pe_message item) c).
Proof.
  revert a. induction order as [|[q0 n0] order IH]; intros a Hnames; [done|]. cbn [a_pending]. unfold mbind, sm_bind.
  destruct (snapshot_eq a) as (x & o & ->). destruct x as [base|e|]; [|done|done]. destruct (now_eq (a_set_observations o a)) as (t & o2 & ->). cbn [gets].
  set (a2 := a_set_observations o2 _). destruct (option_bind _ _ _ _) as [r|] eqn:Hf.
  - change (option_bind _ _ ?f ?m) with (m ≫= f) in Hf. apply bind_Some in Hf as (r' & Hr & Hf). change (a_messages a2) with (a_messages a) in Hr.
    destruct (is_pending_for _ _ _ _) eqn:Hp; [|done]. injection Hf as ->. set (mode := if is_dead_letter n0 then _ else _). intros Hrun.
    assert (item = mkPending n0 (r_message r) mode /\ q = q0 /\ (mode <> Turn -> received a' n0 c)) as (-> & -> & Hrec).
    { unfold when in Hrun. case_bool_decide.
      - destruct (a_receive record c n0 mode a2) as [[[]|e|] a3] eqn:Hx; [|done|done]. injection Hrun as <- <- <-. split_and!; [done|done|]. intros _. by eapply receive_records.
      - injection Hrun as <- <- <-. by split_and!. }
    cbn. split_and!; [set_solver| |done]. intros Hr2. change (received a2 n0 c) in Hr2. apply (received_not_pending a2 n0 c r base t) in Hr2; [congruence|by apply Hnames].
  - intros Hrun. destruct (IH a2) as (Hin & Hno & Hm); [done|done|]. split_and!; [set_solver|done|done].
Qed.

(** * Messages are kept *)

Lemma stored_kept n : (forall o a, is_Some (a_messages a !! n) -> is_Some (a_messages (a_set_observations o a) !! n)) /\
  (forall cs a, is_Some (a_messages a !! n) -> is_Some (a_messages (a_set_consumers cs a) !! n)) /\
  (forall b v a, is_Some (a_messages a !! n) -> is_Some (a_messages (a_set_bindings b v a) !! n)) /\
  (forall r i n' k a, is_Some (a_messages a !! n) -> is_Some (a_messages (a_commit (<[n' := r]> (a_messages a)) (a_receipts a) i n' k a) !! n)) /\
  (forall n' c' t i k a, is_Some (a_messages a !! n) -> (a_receipts a !! n' ≫= fun rows => rows !! c') = None ->
    is_Some (a_messages (a_commit (a_messages a) (<[n' := <[c' := t]> (default ∅ (a_receipts a !! n'))]> (a_receipts a)) i n' k (a_set_bindings (a_bindings a) (a_version a + 1) a)) !! n)).
Proof.
  split_and!; try done. intros r i n' k a Hn. cbn. destruct (decide (n' = n)) as [->|Hne]; [by rewrite lookup_insert_eq|by rewrite lookup_insert_ne].
Qed.

Lemma open_messages inbox t a : a_messages (a_open inbox t a) = a_messages a.
Proof. unfold a_open. by case_match. Qed.
Lemma close_messages inbox a : a_messages (a_close inbox a) = a_messages a.
Proof. unfold a_close. by repeat case_match. Qed.

(** The message an admission adds. *)
Lemma enqueue_stores spec name a n a' : a_enqueue_named writer name_for spec name a = (Done n, a') ->
  (forall m, name = Some m -> n = m) /\ exists t, a_messages a' = <[n := a_admit n spec t (a_sequence a + 1)]> (a_messages a).
Proof.
  unfold a_enqueue_named, mbind, sm_bind. destruct (now_eq a) as (t & o & ->). set (a1 := a_set_observations o a).
  intros Hrun. assert (exists m, match name with Some name0 => mret name0 | None => doing (fun a => (name_for (inbox spec) (sender spec) (a_sequence a), a)) end a1 = (Done m, a1) /\
    (forall k, name = Some k -> m = k)) as (m & Hm & Hk).
  { destruct name as [k|]; [exists k; split; [done|congruence]|]. unfold doing in *. destruct (name_for _ _ _) as [m|e|]; [by exists m|done|done]. }
  rewrite Hm in Hrun. destruct (snapshot_eq a1) as (x & o2 & Hs). rewrite Hs in Hrun. destruct x as [base|e|]; [|done|done]. unfold doing in Hrun.
  destruct (admission_of _ _); [|done]. injection Hrun as <- <-. split; [done|]. exists t. by rewrite open_messages.
Qed.

(** * Dead letters *)

Lemma dead_letter_admitted w to n v : admission_of w (dead_letter_spec to n v) = Ok tt.
Proof.
  unfold admission_of. cbn [references dead_letter_spec spec_new app List.filter mr_subject length existsb mr_revision named in_reply_to supersedes option_list forallb check].
  assert (str (u64_to_string v) <> EmptyString) as Hv by (pose proof (u64_to_string_nonempty v); by destruct (u64_to_string v)).
  rewrite (bool_decide_false _ Hv), bool_decide_false by lia. done.
Qed.
(** The supervisor of the message's sender, if it has another. *)
Definition supervised (a : AInbox) (n : string) (to : Address) : Prop :=
  exists r, a_messages a !! n = Some r /\ supervisor (sender (r_message r)) = Some to /\ to <> sender (r_message r).
Lemma dead_letter_left n to m a x a' : supervised a n to -> dead_letter_name to n = Done m -> is_ok (from_str (tx n)) = true ->
  a_dead_letter writer name_for n a = (x, a') -> (forall e, x <> Failed (EStorage e)) ->
  x = Done tt /\ is_Some (a_messages a' !! m) /\ a_messages a' !! n = a_messages a !! n.
Proof.
  intros (r & Hr & Hs & Hne) Hm Hok Hrun Hx. unfold a_dead_letter in Hrun. unfold mbind at 1, sm_bind at 1, a_get at 1, gets at 1 in Hrun.
  rewrite Hr, Hs in Hrun. cbv zeta in Hrun. rewrite bool_decide_false, Hm in Hrun by done. unfold mbind at 1, sm_bind at 1, lift, mbind at 1, sm_bind at 1, a_get, gets in Hrun.
  case_bool_decide as Hknown; [by injection Hrun as <- <-|]. rewrite Hok in Hrun. unfold mbind at 1, sm_bind at 1 in Hrun.
  destruct (a_enqueue_named _ _ _ _ a) as [[m'|e|] a1] eqn:He.
  - injection Hrun as <- <-. apply enqueue_stores in He as [Hm' [t Hms]]. specialize (Hm' m eq_refl) as ->. rewrite Hms. split_and!; [done|by rewrite lookup_insert_eq|].
    rewrite lookup_insert_ne; [done|]. intros ->. apply Hknown. by rewrite Hr.
  - injection Hrun as <- <-. exfalso. unfold a_enqueue_named, mbind, sm_bind in He. destruct (now_eq a) as (t & o & Hn). rewrite Hn in He. cbn in He.
    unfold a_snapshot in He. destruct (with_snapshot _) as [[base|] o2]; [|injection He as <- <-; by eapply Hx]. unfold doing in He. by rewrite dead_letter_admitted in He.
  - exfalso. unfold a_enqueue_named, mbind, sm_bind in He. destruct (now_eq a) as (t & o & Hn). rewrite Hn in He. cbn in He.
    unfold a_snapshot in He. destruct (with_snapshot _) as [[base|] o2]; [|done]. unfold doing in He. by rewrite dead_letter_admitted in He.
Qed.

(** A drop that is accepted, or already was, has its letter. *)
Lemma drop_leaves_letter n to m a x a' : supervised a n to -> dead_letter_name to n = Done m -> is_ok (from_str (tx n)) = true ->
  a_drop writer name_for n Undeliverable a = (x, a') ->
  x = Done tt \/ (x = Failed (EMessage (WRefused (MEnded : Refusal sig))) /\ (a_messages a !! n ≫= fun r => drop_reason (r_value r)) = Some Undeliverable) ->
  is_Some (a_messages a' !! m) /\ (a_messages a' !! n ≫= fun r => drop_reason (r_value r)) = Some Undeliverable.
Proof.
  intros Hsup Hm Hok Hrun Hx. unfold a_drop in Hrun. unfold mbind at 1, sm_bind at 1, a_get at 1, gets at 1 in Hrun. rewrite bool_decide_true in Hrun by done. cbn [andb] in Hrun.
  case_bool_decide as Hd.
  - unfold mbind at 1, sm_bind at 1 in Hrun. destruct (a_dead_letter _ _ _ a) as [y a1] eqn:Hl. assert (forall e, y <> Failed (EStorage e)) as Hy.
    { intros e ->. injection Hrun as <- _. by destruct Hx as [?|[? _]]. }
    destruct (dead_letter_left _ _ _ _ _ _ Hsup Hm Hok Hl Hy) as (-> & Hl1 & Hl2). injection Hrun as _ <-. by rewrite Hl2.
  - destruct Hx as [->|[_ Hx]]; [|done]. unfold mbind at 1, sm_bind at 1 in Hrun. destruct (a_apply n _ a) as [[[]|e|] a1] eqn:Ha; [|done|done]. cbn [when] in Hrun.
    destruct Hsup as (r & Hr & Hs & Hne).
    assert (exists r', a_messages a1 !! n = Some r' /\ r_spec r' = r_spec r /\ drop_reason (r_value r') = Some Undeliverable) as (r' & Hr' & Hsp & Hdr).
    { unfold a_apply, mbind, sm_bind in Ha. destruct (snapshot_eq a) as (y & o & Hy). rewrite Hy in Ha. destruct y as [base|e|]; [|done|done].
      destruct (now_eq (a_set_observations o a)) as (t & o2 & Hnow). rewrite Hnow in Ha. unfold doing in Ha. cbn [a_messages a_set_observations] in Ha. rewrite Hr in Ha.
      destruct (message_next _ _ _ _ _ _) as [nxt|e] eqn:Hnext; [|done]. injection Ha as Ha1.
      assert (drop_reason nxt = Some Undeliverable) as Hnx.
      { unfold message_next in Hnext. destruct (r_value r); try done; destruct (drop_ok _ _ _ _ _ _); try done; by injection Hnext as <-. }
      exists (a_moved (a_set_observations o2 (a_set_observations o a)) r nxt t). split_and!; [|done|done]. rewrite <-Ha1. destruct nxt; try done; rewrite close_messages; cbn; by rewrite lookup_insert_eq. }
    destruct (dead_letter_left n to m a1 (Done tt) a') as (_ & Hl1 & Hl2); try done.
    { exists r'. split; [done|]. unfold r_message in *. by rewrite Hsp. }
    split; [done|]. by rewrite Hl2, Hr'.
Qed.
End facts.
