(* ===== verification/InboxInv.v ===== *)
(** What holds of every inbox between its operations: the cache agrees with the
    log, every resident byte is accounted for, cached orders are the log's,
    bindings count the open messages; and that the cache's own operations keep
    all of it and change nothing else. *)

From Stdlib Require Import Ascii.
From S2P Require Import Text Encoding Address Names.
From S2P Require Import Prelude Ordered Schema Read Machine Validate Engine Log Home Consumer Message InboxStore Inbox InboxSpec.
Import Message.
#[local] Open Scope Z_scope.

Section inbox.
Context {L P Ob : Type} `{!Log sig L, !InboxLog L, !InboxLogLaws L, !ConsumerPort P L, !Observations Ob} {SV : Supervision} {FZ : Freeze} {RS : Residence} {LC : Lowercase} {SH : Sha256}.
Abbreviation Inbox := (@Inbox L P Ob).
Implicit Types (s : Inbox).

Definition held s : gmap string (Resource sig) := home_resources (ib_home s).

(** The state the specification sees. *)
Definition abs s : AInbox :=
  mkAInbox (il_messages (ib_log s)) (il_receipted (ib_log s)) (il_last (ib_log s)) (il_changes (ib_log s)) (is_binding <$> ib_bindings s) (ib_consumers s)
    (ib_observation_version s) (ib_observations s).

(** * The invariant *)

(** The log is sound and the home runs the message machine. *)
Record base_ok s : Prop := {
  bo_sound : il_sound (ib_log s);
  bo_definition : home_definition (ib_home s) = message_definition;
}.

(** The cached values, all charged but those in [T]. *)
Record cache_ok (T : gset string) s : Prop := {
  co_home : forall n r, held s !! n = Some r -> il_messages (ib_log s) !! n = Some r;
  co_receipts : forall n r, held s !! n = Some r -> is_open r = true -> ib_receipts s !! n = il_receipted (ib_log s) !! n;
  co_receipts_held : forall n rows, ib_receipts s !! n = Some rows -> is_Some (held s !! n);
  co_lru : forall t n, ib_lru s !! t = Some n <-> exists b, ib_sizes s !! n = Some (b, t);
  co_ticks : forall t n, ib_lru s !! t = Some n -> t <= ib_tick s;
  co_bytes : ib_resident_bytes s = map_sum (fun _ p => p.1) (ib_sizes s);
  co_sizes : forall n b t, ib_sizes s !! n = Some (b, t) -> 0 <= b /\ is_Some (held s !! n);
  co_charged : forall n r, held s !! n = Some r -> n ∉ T ->
    is_open r = true /\ exists t, ib_sizes s !! n = Some (resource_bytes r (ib_receipts s !! n), t);
}.

(** The cached pending orders are those of the messages [m]. *)
Record order_ok (m : gmap string (Resource sig)) s : Prop := {
  oo_rows : forall inbox rows, ib_inboxes s !! inbox = Some rows -> rows = pending_index m inbox;
  oo_bytes : ib_pending_bytes s = map_sum (fun inbox rows => inbox_charge inbox + rows_charge inbox rows) (ib_inboxes s);
}.

(** The bindings count the open messages of [m]. *)
Record clock_ok (m : gmap string (Resource sig)) s : Prop := {
  ck_count : forall inbox, from_option is_count 0 (ib_bindings s !! inbox) = open_count m inbox;
  ck_control : ib_control_bytes s =
    map_sum (fun inbox v => binding_charge inbox (is_binding v)) (ib_bindings s) + map_sum (fun c _ => receiver_bytes c + 64) (ib_consumers s);
}.

Record ok s : Prop := {
  ok_base : base_ok s;
  ok_cache : cache_ok (ib_touched s) s;
  ok_order : order_ok (il_messages (ib_log s)) s;
  ok_clock : clock_ok (il_messages (ib_log s)) s;
  ok_sequence : ib_sequence s = il_last (ib_log s);
}.

(** * Steps that only touch the cache *)

(** The parts of the state the caches do not hold. *)
Record same s s' : Prop := {
  sa_log : ib_log s' = ib_log s;
  sa_writer : home_writer (ib_home s') = home_writer (ib_home s);
  sa_definition : home_definition (ib_home s') = home_definition (ib_home s);
  sa_bindings : ib_bindings s' = ib_bindings s;
  sa_consumers : ib_consumers s' = ib_consumers s;
  sa_control : ib_control_bytes s' = ib_control_bytes s;
  sa_sequence : ib_sequence s' = ib_sequence s;
  sa_budget : ib_budget s' = ib_budget s;
  sa_version : ib_observation_version s' = ib_observation_version s;
  sa_observations : ib_observations s' = ib_observations s;
}.
(** ... and the parts a change of the cached values leaves. *)
Record same_orders s s' : Prop := {
  so_same : same s s';
  so_inboxes : ib_inboxes s' = ib_inboxes s;
  so_bytes : ib_pending_bytes s' = ib_pending_bytes s;
}.

#[export] Instance same_refl : Reflexive same.
Proof. done. Qed.
#[export] Instance same_trans : Transitive same.
Proof. intros a b c [] []. split; congruence. Qed.
#[export] Instance same_orders_refl : Reflexive same_orders.
Proof. done. Qed.
#[export] Instance same_orders_trans : Transitive same_orders.
Proof. intros a b c [] []. split; [by etrans|congruence..]. Qed.

Lemma same_abs s s' : same s s' -> abs s' = abs s.
Proof. intros []. unfold abs. congruence. Qed.
Lemma same_base s s' : same s s' -> base_ok s -> base_ok s'.
Proof. intros [] []. split; congruence. Qed.
Lemma same_clock m s s' : same s s' -> clock_ok m s -> clock_ok m s'.
Proof. intros [_ _ _ H2 H3 H4 _ _ _ _] [Hc Hb]. split; rewrite ?H2, ?H3, ?H4; done. Qed.
Lemma same_order m s s' : same_orders s s' -> order_ok m s -> order_ok m s'.
Proof. intros [_ H2 H3] [Hr Hb]. split; rewrite ?H2, ?H3; done. Qed.

(** Steps that leave the cached values alone. *)
Record same_cache s s' : Prop := {
  sc_home : ib_home s' = ib_home s;
  sc_receipts : ib_receipts s' = ib_receipts s;
  sc_lru : ib_lru s' = ib_lru s;
  sc_sizes : ib_sizes s' = ib_sizes s;
  sc_resident : ib_resident_bytes s' = ib_resident_bytes s;
  sc_touched : ib_touched s' = ib_touched s;
  sc_tick : ib_tick s' = ib_tick s;
}.
#[export] Instance same_cache_refl : Reflexive same_cache.
Proof. done. Qed.
#[export] Instance same_cache_trans : Transitive same_cache.
Proof. intros a b c [] []. split; congruence. Qed.
Lemma same_cache_ok T s s' : same_cache s s' -> cache_ok T s -> cache_ok T s'.
Proof.
  intros [H1 H2 H3 H4 H5 H6 H7] [G1 G2 G3 G4 G5 G6 G7 G8]. unfold held, ib_log in *.
  split; unfold held, ib_log; rewrite ?H1, ?H2, ?H3, ?H4, ?H5, ?H6, ?H7; done.
Qed.

(** [m] runs to a value, and [Q] holds of it and the state it leaves. *)
Definition runs {A} (m : SM Inbox A) s (Q : A -> Inbox -> Prop) : Prop := exists a s', m s = (Done a, s') /\ Q a s'.

Lemma runs_bind {A B} (m : SM Inbox A) (f : A -> SM Inbox B) s Q R :
  runs m s R -> (forall a s', R a s' -> runs (f a) s' Q) -> runs (m ≫= f) s Q.
Proof. intros (a & s' & Hm & HR) Hf. destruct (Hf a s' HR) as (b & s'' & Hb & HQ). exists b, s''. split; [|done]. unfold mbind, sm_bind. by rewrite Hm. Qed.
Lemma runs_step {A B} (m : SM Inbox A) (f : A -> SM Inbox B) s a s' Q : m s = (Done a, s') -> runs (f a) s' Q -> runs (m ≫= f) s Q.
Proof. intros Hm (b & s'' & Hb & HQ). exists b, s''. split; [|done]. unfold mbind, sm_bind. by rewrite Hm. Qed.
Lemma runs_ret {A} (a : A) s (Q : A -> Inbox -> Prop) : Q a s -> runs (mret a) s Q.
Proof. intros H. by exists a, s. Qed.
Lemma runs_gets {A B} (g : Inbox -> A) (f : A -> SM Inbox B) s Q : runs (f (g s)) s Q -> runs (gets g ≫= f) s Q.
Proof. done. Qed.
Lemma runs_ret_bind {A B} (a : A) (f : A -> SM Inbox B) s Q : runs (f a) s Q -> runs (mret a ≫= f) s Q.
Proof. done. Qed.
Lemma runs_modify {B} (g : Inbox -> Inbox) (f : unit -> SM Inbox B) s Q : runs (f tt) (g s) Q -> runs (modify g ≫= f) s Q.
Proof. done. Qed.
Lemma runs_read {A B} (g : L -> outcome A) (f : A -> SM Inbox B) s a Q : g (ib_log s) = Done a -> runs (f a) s Q -> runs (read_log g ≫= f) s Q.
Proof. intros Hg (b & s' & Hb & HQ). exists b, s'. split; [|done]. unfold mbind, sm_bind, read_log. by rewrite Hg. Qed.
Lemma runs_usub {B} a b (f : Z -> SM Inbox B) s Q : b <= a -> runs (f (a - b)) s Q -> runs (usub a b ≫= f) s Q.
Proof. intros Hab H. unfold usub. by rewrite decide_True. Qed.
Lemma runs_weaken {A} (m : SM Inbox A) s (Q R : A -> Inbox -> Prop) : runs m s Q -> (forall a s', Q a s' -> R a s') -> runs m s R.
Proof. intros (a & s' & Hm & HQ) H. exists a, s'. auto. Qed.

(** * Charging *)

Lemma uncharge_runs T n s : cache_ok T s -> runs (uncharge n) s (fun _ s' =>
  cache_ok ({[n]} ∪ T) s' /\ same_orders s s' /\ ib_home s' = ib_home s /\ ib_receipts s' = ib_receipts s /\ ib_sizes s' !! n = None /\
  ib_touched s' = ib_touched s /\ ib_sizes s' = delete n (ib_sizes s) /\ (forall t m, ib_lru s' !! t = Some m -> ib_lru s !! t = Some m)).
Proof.
  intros Hc. unfold uncharge. apply runs_gets. destruct (ib_sizes s !! n) as [[b t]|] eqn:Hn.
  - destruct (co_sizes _ _ Hc n b t Hn) as [Hb _]. apply runs_gets, runs_usub.
    { rewrite (co_bytes _ _ Hc). refine (map_sum_le (fun (_ : string) (p : Z * Z) => p.1) (ib_sizes s) n (b, t) _ Hn). intros k [b' t'] Hk. by apply (co_sizes _ _ Hc) in Hk as [? _]. }
    eexists _, _. split; [reflexivity|]. cbn. split_and!; try done; [|apply lookup_delete_eq|by intros t' m [_ ?]%lookup_delete_Some].
    split; cbn; try apply Hc.
    + intros t' m. rewrite lookup_delete_Some, (co_lru _ _ Hc). split.
      * intros [Hne [b' Hb']]. exists b'. rewrite lookup_delete_ne; [done|]. intros <-. congruence.
      * intros [b' [Hne Hb']%lookup_delete_Some]. split; [|by exists b']. intros <-. apply Hne.
        assert (ib_lru s !! t = Some n) as H1 by (apply (co_lru _ _ Hc); by exists b). assert (ib_lru s !! t = Some m) as H2 by (apply (co_lru _ _ Hc); by exists b'). congruence.
    + intros t' m [_ Hm]%lookup_delete_Some. by eapply (co_ticks _ _ Hc).
    + rewrite map_sum_remove, Hn, (co_bytes _ _ Hc). done.
    + intros m b' t' [_ Hm]%lookup_delete_Some. by eapply (co_sizes _ _ Hc).
    + intros m r Hm Hnt. destruct (co_charged _ _ Hc m r Hm) as [Ho [t' Ht]]; [set_solver|]. split; [done|]. exists t'.
      rewrite lookup_delete_ne; [done|]. set_solver.
  - apply runs_ret. rewrite delete_id by done. split_and!; try done. destruct Hc as [H1 H2 H3 H4 H5 H6 H7 H8]. split; try done. intros m r Hm Hnt. apply H8; [done|set_solver].
Qed.

Lemma forget_runs T n s : cache_ok T s -> runs (forget n) s (fun _ s' =>
  cache_ok T s' /\ same_orders s s' /\ held s' = delete n (held s) /\ ib_sizes s' = delete n (ib_sizes s) /\ ib_touched s' = ib_touched s /\
  (forall t m, ib_lru s' !! t = Some m -> ib_lru s !! t = Some m)).
Proof.
  intros Hc. unfold forget. eapply runs_bind; [by apply uncharge_runs|]. cbn beta. intros [] s1 (Hc1 & Hs & Hh & Hr & Hn & Ht & Hsz & Hl).
  eexists _, _. split; [reflexivity|]. split_and!; try done; [|etrans; [exact Hs|]; by repeat split|unfold held; cbn; by rewrite Hh].
  destruct Hc1 as [H1 H2 H3 H4 H5 H6 H7 H8]. unfold held in *. split; unfold held; cbn; try done.
  - intros m r [_ Hm]%lookup_delete_Some. by apply H1.
  - intros m r [Hne Hm]%lookup_delete_Some Ho. rewrite lookup_delete_ne by done. by eapply H2.
  - intros m rows [Hne Hm]%lookup_delete_Some. rewrite lookup_delete_ne by done. by eapply H3.
  - intros m b t Hm. destruct (H7 m b t Hm) as [Hb Hi]. split; [done|]. rewrite lookup_delete_ne; [done|]. intros ->. congruence.
  - intros m r [Hne Hm]%lookup_delete_Some Hnt. destruct (H8 m r Hm) as [Ho [t' Ht']]; [set_solver|]. split; [done|]. exists t'. rewrite lookup_delete_ne by done. done.
Qed.

Lemma recharge_runs T n s : cache_ok T s -> runs (recharge n) s (fun _ s' => cache_ok (T ∖ {[n]}) s' /\ same_orders s s' /\ ib_touched s' = ib_touched s).
Proof.
  intros Hc. unfold recharge. eapply runs_bind; [by apply uncharge_runs|]. cbn beta. intros [] s1 (Hc1 & Hs & Hh & Hr & Hn & Ht & _).
  apply runs_gets. unfold resident, home_get. destruct (home_resources (ib_home s1) !! n) as [r|] eqn:Hres; [destruct (is_open r) eqn:Ho|].
  - eexists _, _. split; [reflexivity|]. split_and!; [|etrans; [exact Hs|]; by repeat split|done].
    destruct Hc1 as [H1 H2 H3 H4 H5 H6 H7 H8]. unfold held in *. split; unfold held; cbn; try done.
    + intros t m. rewrite lookup_insert_Some, H4. split.
      * intros [[<- <-]|[Hne [b Hb]]]; [eexists; by rewrite lookup_insert_eq|]. exists b. rewrite lookup_insert_ne; [done|]. intros <-. congruence.
      * intros [b [[<- [= <- <-]]|[Hne Hb]]%lookup_insert_Some]; [by left|]. right. split; [|by exists b].
        assert (t <= ib_tick s1) as Hle by (eapply (H5 t m), H4; by exists b). lia.
    + intros t m [[<- _]|[_ Hm]]%lookup_insert_Some; [lia|]. apply H5 in Hm. lia.
    + rewrite map_sum_insert by done. rewrite H6. cbn. lia.
    + intros m b t [[<- [= <- <-]]|[_ Hm]]%lookup_insert_Some; [|by eapply H7]. split; [apply resource_bytes_nonneg|by exists r].
    + intros m r' Hm Hnt. destruct (decide (m = n)) as [->|Hne].
      * assert (r' = r) as -> by congruence. split; [done|]. eexists. by rewrite lookup_insert_eq.
      * destruct (H8 m r' Hm) as [Ho' [t Ht']]; [set_solver|]. split; [done|]. exists t. by rewrite lookup_insert_ne.
  - eapply runs_weaken; [by apply (forget_runs _ _ _ Hc1)|]. cbn beta. intros [] s2 (Hc2 & Hs2 & Hh2 & _ & Ht2 & _). split_and!; [|by etrans|congruence].
    destruct Hc2 as [H1 H2 H3 H4 H5 H6 H7 H8]. split; try done. intros m r' Hm Hnt. apply H8; [done|].
    rewrite Hh2 in Hm. apply lookup_delete_Some in Hm as [Hne _]. set_solver.
  - apply runs_ret. split_and!; [|done|done]. destruct Hc1 as [H1 H2 H3 H4 H5 H6 H7 H8]. split; try done. intros m r' Hm Hnt. apply H8; [done|].
    assert (m <> n) by (unfold held in Hm; congruence). set_solver.
Qed.

Lemma recharge_all T l s : cache_ok T s -> runs (for_each recharge l) s (fun _ s' =>
  cache_ok (T ∖ list_to_set l) s' /\ same_orders s s' /\ ib_touched s' = ib_touched s).
Proof.
  revert T s. induction l as [|n l IH]; intros T s Hc; cbn [for_each].
  - apply runs_ret. cbn. rewrite difference_empty_L. done.
  - eapply runs_bind; [by apply recharge_runs|]. cbn beta. intros [] s1 (Hc1 & Hs1 & Ht1). eapply runs_weaken; [by apply IH|]. cbn beta.
    intros [] s2 (Hc2 & Hs2 & Ht2). split_and!; [|by etrans|congruence]. replace (T ∖ list_to_set (n :: l)) with ((T ∖ {[n]}) ∖ list_to_set l); [done|].
    cbn. set_solver.
Qed.

(** The loop ends: each round forgets one entry. *)
Lemma shrink_runs fuel s : cache_ok ∅ s -> (size (ib_lru s) < fuel)%nat -> runs (shrink fuel) s (fun _ s' =>
  cache_ok ∅ s' /\ same_orders s s' /\ ib_touched s' = ib_touched s /\ (over_budget s' = true -> held s' = ∅)).
Proof.
  revert s. induction fuel as [|fuel IH]; intros s Hc Hf; [lia|]. cbn [shrink]. apply runs_gets.
  destruct (over_budget s) eqn:Hov; [|apply runs_ret; split_and!; try done; congruence]. apply runs_gets.
  destruct (head (map_iter (ib_lru s))) as [[t n]|] eqn:Hh.
  - assert (ib_lru s !! t = Some n) as Hl by (apply elem_of_map_iter; destruct (map_iter (ib_lru s)); cbn in Hh; set_solver).
    eapply runs_bind; [by apply (forget_runs _ n _ Hc)|]. cbn beta. intros [] s1 (Hc1 & Hs1 & Hh1 & Hsz & Ht1 & Hlru).
    eapply runs_weaken; [apply IH; [done|]|cbn beta; intros [] s2 (Hc2 & Hs2 & Ht2 & Hb2); split_and!; [done|by etrans|congruence|done]].
    assert (ib_lru s1 !! t = None) as Hgone.
    { destruct (ib_lru s1 !! t) as [m|] eqn:Hm; [|done]. pose proof (Hlru _ _ Hm) as Hm'. assert (m = n) as -> by congruence.
      apply (co_lru _ _ Hc1) in Hm as [b Hm]. rewrite Hsz, lookup_delete_eq in Hm. done. }
    enough (size (ib_lru s1) < size (ib_lru s))%nat by lia. assert (ib_lru s1 ⊆ delete t (ib_lru s)) as Hsub.
    { apply map_subseteq_spec. intros t' m Hm. rewrite lookup_delete_ne by congruence. by apply Hlru. }
    apply map_subseteq_size in Hsub. rewrite map_size_delete_Some in Hsub by eauto.
    assert (size (ib_lru s) <> 0%nat); [|lia]. intros H0%map_size_empty_inv. rewrite H0, lookup_empty in Hl. done.
  - apply runs_ret. split_and!; try done. intros _. assert (ib_lru s = ∅) as Hl.
    { apply map_eq. intros t. rewrite lookup_empty. destruct (ib_lru s !! t) as [n|] eqn:Hn; [|done]. apply elem_of_map_iter in Hn.
      destruct (map_iter (ib_lru s)); [set_solver|done]. }
    apply map_eq. intros n. rewrite lookup_empty. destruct (held s !! n) as [r|] eqn:Hn; [|done].
    destruct (co_charged _ _ Hc n r Hn) as [_ [t Ht]]; [set_solver|]. assert (ib_lru s !! t = Some n) as Hx by (apply (co_lru _ _ Hc); eauto). rewrite Hl, lookup_empty in Hx. done.
Qed.

Lemma trim_runs s : cache_ok (ib_touched s) s -> runs trim s (fun _ s' =>
  cache_ok (ib_touched s') s' /\ same_orders s s' /\ ib_touched s' = ∅ /\ (over_budget s' = true -> held s' = ∅)).
Proof.
  intros Hc. unfold trim. apply runs_gets, runs_modify. set (s0 := set_touched ∅ s).
  assert (cache_ok (ib_touched s) s0) as Hc0 by (destruct Hc; by split).
  eapply runs_bind; [by apply recharge_all|]. cbn beta. intros [] s1 (Hc1 & Hs1 & Ht1). apply runs_gets.
  replace (ib_touched s ∖ list_to_set (set_iter (ib_touched s))) with (∅ : gset string) in Hc1.
  2:{ apply set_eq. intros n. rewrite elem_of_difference, elem_of_list_to_set, elem_of_set_iter. set_solver. }
  eapply runs_weaken; [apply shrink_runs; [done|lia]|]. cbn beta. intros [] s2 (Hc2 & Hs2 & Ht2 & Hb2).
  assert (ib_touched s2 = ∅) as Ht by (rewrite Ht2, Ht1; done). split_and!; [by rewrite Ht| |done|done].
  etrans; [|exact Hs2]. etrans; [|exact Hs1]. by split.
Qed.

(** * Loading *)

Lemma cache_ok_mono T T' s : T ⊆ T' -> cache_ok T s -> cache_ok T' s.
Proof. intros HT [H1 H2 H3 H4 H5 H6 H7 H8]. split; try done. intros n r Hn Hnt. apply H8; [done|set_solver]. Qed.
Lemma touch_ok n s : cache_ok (ib_touched s) s -> cache_ok ({[n]} ∪ ib_touched s) (set_touched ({[n]} ∪ ib_touched s) s).
Proof. intros Hc. apply (cache_ok_mono _ ({[n]} ∪ ib_touched s)) in Hc; [|set_solver]. destruct Hc. by split. Qed.

Lemma stored_ok s n r : base_ok s -> il_messages (ib_log s) !! n = Some r -> message_ok (il_last (ib_log s)) n r.
Proof. intros Hb Hn. by apply (mso_each _ _ (sound_messages _ (bo_sound _ Hb))). Qed.
Lemma stored_valid s n r : base_ok s -> il_messages (ib_log s) !! n = Some r -> validate_admission r = Done tt.
Proof.
  intros Hb Hn. destruct (stored_ok s n r Hb Hn) as [_ Ha Hv Hp]. unfold validate_admission.
  rewrite (bool_decide_false (r_admitted r = 0)), (bool_decide_false (r_admitted r > r_version r)) by lia. cbn.
  case_bool_decide as H; cbn; [|done]. by rewrite bool_decide_false by (rewrite (Hp H); tauto).
Qed.

(** A stored message that is not resident is restored with its receipts. *)
Lemma restore_runs T n r s : base_ok s -> cache_ok T s -> n ∈ T -> held s !! n = None -> il_messages (ib_log s) !! n = Some r ->
  forall b, (is_open r = true -> b = true) -> runs (when b (load_receipts n) ;; home_restore r) s (fun _ s' =>
  cache_ok T s' /\ same_orders s s' /\ held s' = <[n := r]> (held s) /\ ib_touched s' = ib_touched s).
Proof.
  intros Hb Hc HnT Hn Hr b Hob. destruct (stored_ok s n r Hb Hr) as [Hname _ _ _].
  assert (ib_receipts s !! n = None) as Hnr.
  { destruct (ib_receipts s !! n) eqn:H; [|done]. apply (co_receipts_held _ _ Hc) in H as [? H]. congruence. }
  assert (runs (when b (load_receipts n)) s (fun _ s1 => (b = true -> ib_receipts s1 !! n = il_receipted (ib_log s) !! n) /\
    (forall m, m <> n -> ib_receipts s1 !! m = ib_receipts s !! m) /\ s1 = set_receipts (ib_receipts s1) s)) as Hload.
  { destruct b; cbn [when]; [|apply runs_ret; split_and!; try done; by destruct s]. unfold load_receipts.
    eapply runs_read; [apply law_receipts, Hb|]. destruct (il_receipted (ib_log s) !! n) as [rows|] eqn:Hrec; cbn [default].
    - destruct (sound_receipted _ _ _ (bo_sound _ Hb) Hrec) as [Hne _]. rewrite bool_decide_true by done. eexists _, _. split; [reflexivity|].
      cbn. split_and!; try done; [intros _; by rewrite lookup_insert_eq|intros m Hm; by rewrite lookup_insert_ne].
    - rewrite bool_decide_false by tauto. apply runs_ret. split_and!; try done. by destruct s. }
  eapply runs_bind; [exact Hload|]. cbn beta. intros [] s1 (Hrec & Hother & Hs1).
  assert (ib_home s1 = ib_home s) as Hh by (by rewrite Hs1).
  eexists _, _. split.
  { unfold home_restore, mbind at 1, sm_bind at 1, home_call, restore. rewrite Hh, Hname. unfold held in Hn. rewrite Hn. reflexivity. }
  rewrite Hs1. split_and!; [| |done|done]; [|by split].
  destruct Hc as [H1 H2 H3 H4 H5 H6 H7 H8]. unfold held in *. split; unfold held; cbn; try done.
  - intros m r' [[<- <-]|[_ Hm]]%lookup_insert_Some; [done|by apply H1].
  - intros m r' [[<- <-]|[Hne Hm]]%lookup_insert_Some Ho; [by apply Hrec, Hob|]. rewrite Hother by congruence. by eapply H2.
  - intros m rows Hm. destruct (decide (m = n)) as [->|Hne]; [by rewrite lookup_insert_eq|]. rewrite Hother in Hm by done. apply H3 in Hm. by rewrite lookup_insert_ne.
  - intros m by_ t Hm. destruct (H7 m by_ t Hm) as [? Hi]. split; [done|]. destruct (decide (m = n)) as [->|Hne]; [by rewrite lookup_insert_eq|by rewrite lookup_insert_ne].
  - intros m r' [[<- <-]|[Hne Hm]]%lookup_insert_Some Hnt; [done|]. rewrite Hother by congruence. by apply H8.
Qed.

(** What a step that makes [n] resident leaves. *)
Record loaded (n : string) s s' : Prop := {
  ld_cache : cache_ok (ib_touched s') s';
  ld_same : same_orders s s';
  ld_touched : n ∈ ib_touched s';
  ld_held : held s' !! n = il_messages (ib_log s) !! n;
}.

Lemma load_runs n s : base_ok s -> cache_ok (ib_touched s) s -> runs (load n) s (fun found s' =>
  loaded n s s' /\ found = bool_decide (is_Some (il_messages (ib_log s) !! n))).
Proof.
  intros Hb Hc. unfold load, touch. apply runs_modify. set (s0 := set_touched _ s). pose proof (touch_ok n s Hc) as Hc0.
  assert (base_ok s0) as Hb0 by (destruct Hb; by split). assert (same_orders s s0) as Hs0 by (by split).
  apply runs_gets. unfold resident, home_get. change (home_resources (ib_home s0)) with (held s0).
  destruct (held s0 !! n) as [r|] eqn:Hn; cbn [bool_decide].
  - rewrite bool_decide_true by done. apply runs_ret. assert (il_messages (ib_log s) !! n = Some r) as Hr by exact (co_home _ _ Hc0 n r Hn).
    split; [split; [exact Hc0|done|set_solver|by rewrite Hr]|]. rewrite Hr. by rewrite bool_decide_true.
  - rewrite (bool_decide_false (is_Some None)) by (by intros [? ?]). eapply runs_read; [apply law_load, Hb0|]. change (ib_log s0) with (ib_log s).
    destruct (il_messages (ib_log s) !! n) as [r|] eqn:Hr.
    + apply runs_bind with (R := fun _ s' => s' = s0); [exists tt, s0; split; [|done]; unfold lift; by rewrite (stored_valid s0 n r)|]. intros _ s1 ->.
      destruct (restore_runs ({[n]} ∪ ib_touched s) n r s0) with (b := is_open r) as (u & s2 & Hrun & Hc2 & Hs2 & Hh2 & Ht2);
        [done|done|set_solver|done|done|done|].
      exists true, s2. split.
      { clear -Hrun. unfold mbind, sm_bind in *. destruct (when _ _ s0) as [[a| |] s1]; [|done..]. by rewrite Hrun. }
      split; [|by rewrite bool_decide_true]. split; [by rewrite Ht2|by etrans|rewrite Ht2; set_solver|by rewrite Hh2, lookup_insert_eq, Hr].
    + apply runs_ret. split; [split; [exact Hc0|done|set_solver|by rewrite Hr]|by rewrite bool_decide_false by (by intros [? ?])].
Qed.

(** Whether a name is used is the log's answer. *)
Lemma exists_known T n s : base_ok s -> cache_ok T s -> runs (exists_ n) s (fun b s' => b = bool_decide (is_Some (il_messages (ib_log s) !! n)) /\ s' = s).
Proof.
  intros Hb Hc. unfold exists_. apply runs_gets. unfold resident, home_get. fold (held s). destruct (held s !! n) as [r|] eqn:Hn.
  - rewrite (bool_decide_true (is_Some (Some r))) by done. apply runs_ret. rewrite (co_home _ _ Hc n r Hn). by rewrite bool_decide_true.
  - rewrite (bool_decide_false (is_Some None)) by (by intros [? ?]). eexists _, s. split; [|done]. unfold read_log. rewrite law_exists by apply Hb. done.
Qed.

(** The next candidate is the log's, whether or not its order is cached. *)
Lemma next_pending_runs inbox after s : base_ok s -> cache_ok (ib_touched s) s -> order_ok (il_messages (ib_log s)) s -> 0 <= after ->
  runs (next_pending inbox after) s (fun next s' =>
    next = head (above after (pending_order (il_messages (ib_log s)) inbox)) /\
    match next with
    | Some (_, n) => loaded n s s'
    | None => s' = s
    end).
Proof.
  intros Hb Hc Ho Ha. unfold next_pending. apply runs_gets. destruct (ib_inboxes s !! inbox) as [rows|] eqn:Hi.
  - rewrite (oo_rows _ _ Ho _ _ Hi). fold (pending_order (il_messages (ib_log s)) inbox).
    destruct (head (above after _)) as [[seq n]|] eqn:Hh; [|by apply runs_ret].
    eapply runs_bind; [by apply load_runs|]. cbn beta. intros found s1 [Hl ->].
    assert ((seq, n) ∈ pending_order (il_messages (ib_log s)) inbox) as Hin.
    { assert ((seq, n) ∈ above after (pending_order (il_messages (ib_log s)) inbox)) as H by (destruct (above after _); cbn in Hh; set_solver).
      by apply elem_of_above in H as [? _]. }
    apply (elem_of_pending_order (il_last (ib_log s))) in Hin as (r & Hr & _); [|by apply sound_messages, Hb].
    rewrite Hr, bool_decide_true by done. by apply runs_ret.
  - eapply runs_read; [by apply law_pending; [apply Hb|]|]. destruct (head (above after _)) as [[seq n]|] eqn:Hh; cbn [mbind option_bind]; [|by apply runs_ret].
    assert ((seq, n) ∈ pending_order (il_messages (ib_log s)) inbox) as Hin.
    { assert ((seq, n) ∈ above after (pending_order (il_messages (ib_log s)) inbox)) as H by (destruct (above after _); cbn in Hh; set_solver).
      by apply elem_of_above in H as [? _]. }
    apply (elem_of_pending_order (il_last (ib_log s))) in Hin as (r & Hr & Hp & _ & Had); [|by apply sound_messages, Hb]. cbn [snd]. rewrite Hr.
    apply runs_bind with (R := fun _ s' => s' = s); [exists tt, s; split; [|done]; unfold lift; by rewrite (stored_valid s n r)|]. intros _ s1 ->.
    destruct (stored_ok s n r Hb Hr) as [Hname _ _ _]. rewrite Hname, Had. apply runs_gets.
    apply runs_bind with (R := fun _ s1 => cache_ok ({[n]} ∪ ib_touched s1) s1 /\ same_orders s s1 /\ held s1 !! n = Some r /\ ib_touched s1 = ib_touched s).
    + unfold resident, home_get. change (home_resources (ib_home s)) with (held s). destruct (held s !! n) as [r'|] eqn:Hn.
      * rewrite bool_decide_true by done. cbn [negb when]. apply runs_ret. pose proof (co_home _ _ Hc n r' Hn). split_and!; [|done|congruence|done].
        eapply cache_ok_mono; [|exact Hc]. set_solver.
      * rewrite (bool_decide_false (is_Some None)) by (by intros [? ?]). cbn [negb when].
        destruct (restore_runs ({[n]} ∪ ib_touched s) n r s) with (b := true) as (u & s2 & Hrun & Hc2 & Hs2 & Hh2 & Ht2);
          [done|eapply cache_ok_mono; [|exact Hc]; set_solver|set_solver|done|done|done|].
        exists u, s2. split; [exact Hrun|]. split_and!; [by rewrite Ht2|done|by rewrite Hh2, lookup_insert_eq|done].
    + intros [] s1 (Hc1 & Hs1 & Hn1 & Ht1). unfold touch. apply runs_modify, runs_ret. split; [done|].
      split; [destruct Hc1; by split|etrans; [exact Hs1|by split]|cbn; set_solver|by rewrite Hr].
Qed.

(** * Pending orders *)

Lemma pending_charge_nonneg inbox name b : 0 <= pending_charge inbox name b.
Proof. pose proof sizes_nonneg. pose proof (address_bytes_nonneg inbox). unfold pending_charge. destruct b; lia. Qed.
Lemma inbox_charge_nonneg inbox : 0 <= inbox_charge inbox.
Proof. pose proof sizes_nonneg. pose proof (address_bytes_nonneg inbox). unfold inbox_charge, pending_charge. lia. Qed.
Lemma rows_charge_nonneg inbox rows : 0 <= rows_charge inbox rows.
Proof. apply map_sum_nonneg. intros. apply pending_charge_nonneg. Qed.
Lemma binding_charge_nonneg inbox b : 0 <= binding_charge inbox b.
Proof.
  pose proof sizes_nonneg. pose proof (address_bytes_nonneg inbox). unfold binding_charge. destruct b as [cs|t]; [|lia].
  case_bool_decide; [lia|]. assert (0 <= foldr (fun c acc => receiver_bytes c + acc) 0 (elements cs)); [|lia].
  induction (elements cs) as [|c l IH]; cbn; [lia|]. pose proof (receiver_bytes_nonneg c). lia.
Qed.

Lemma inboxes_charge_le m s inbox rows : order_ok m s -> ib_inboxes s !! inbox = Some rows -> inbox_charge inbox + rows_charge inbox rows <= ib_pending_bytes s.
Proof.
  intros Ho Hi. rewrite (oo_bytes _ _ Ho). refine (map_sum_le (fun inbox rows => inbox_charge inbox + rows_charge inbox rows) _ inbox rows _ Hi).
  intros k v _. pose proof (inbox_charge_nonneg k). pose proof (rows_charge_nonneg k v). lia.
Qed.

(** What a step on the cached orders leaves. *)
Record reordered s s' : Prop := { re_same : same s s'; re_cache : same_cache s s' }.
#[export] Instance reordered_refl : Reflexive reordered.
Proof. done. Qed.
#[export] Instance reordered_trans : Transitive reordered.
Proof. intros a b c [] []. split; by etrans. Qed.

Lemma evict_pending_runs m inbox s : order_ok m s -> runs (evict_pending inbox) s (fun _ s' => order_ok m s' /\ reordered s s').
Proof.
  intros Ho. unfold evict_pending. apply runs_gets. destruct (ib_inboxes s !! inbox) as [rows|] eqn:Hi; [|by apply runs_ret].
  apply runs_gets, runs_usub; [by eapply inboxes_charge_le|]. eexists _, _. split; [reflexivity|]. split; [|by split].
  destruct Ho as [Hr Hb]. split; cbn.
  - intros i r [_ H]%lookup_delete_Some. by apply Hr.
  - rewrite map_sum_remove, Hi, Hb. done.
Qed.
(** Evicting an order whose rows are out of date leaves the others. *)
Lemma evict_stale_runs m m' inbox s : order_ok m s -> (forall i, i <> inbox -> pending_index m' i = pending_index m i) ->
  runs (evict_pending inbox) s (fun _ s' => order_ok m' s' /\ reordered s s').
Proof.
  intros Ho Hm. unfold evict_pending. apply runs_gets. destruct (ib_inboxes s !! inbox) as [rows|] eqn:Hi.
  - apply runs_gets, runs_usub; [by eapply inboxes_charge_le|]. eexists _, _. split; [reflexivity|]. split; [|by split].
    destruct Ho as [Hr Hb]. split; cbn.
    + intros i r [Hne H]%lookup_delete_Some. rewrite Hm by done. by apply Hr.
    + rewrite map_sum_remove, Hi, Hb. done.
  - apply runs_ret. split; [|done]. destruct Ho as [Hr Hb]. split; [|done]. intros i r Hir. rewrite Hm by congruence. by apply Hr.
Qed.

Lemma index_pending_runs m m' inbox seq n s : order_ok m s -> pending_index m inbox !! seq = None ->
  (forall i, pending_index m' i = if bool_decide (i = inbox) then <[seq := n]> (pending_index m i) else pending_index m i) ->
  runs (index_pending inbox seq n) s (fun _ s' => order_ok m' s' /\ reordered s s').
Proof.
  intros Ho Hn Hm. unfold index_pending. apply runs_gets. destruct (ib_inboxes s !! inbox) as [rows|] eqn:Hi.
  - pose proof (oo_rows _ _ Ho _ _ Hi) as Hrows. rewrite bool_decide_false by (rewrite Hrows, Hn; by intros [? ?]). apply runs_gets.
    destruct (over_pending _ s).
    + eapply evict_stale_runs; [done|]. intros i Hne. by rewrite Hm, bool_decide_false.
    + eexists _, _. split; [reflexivity|]. split; [|by split]. destruct Ho as [Hr Hb]. split; cbn.
      * intros i r [[<- <-]|[Hne H]]%lookup_insert_Some; rewrite Hm; [by rewrite bool_decide_true, Hrows|rewrite bool_decide_false by done; by apply Hr].
      * rewrite map_sum_update, Hi, Hb. cbn. unfold rows_charge. rewrite map_sum_insert by (by rewrite Hrows). lia.
  - apply runs_ret. split; [|done]. destruct Ho as [Hr Hb]. split; [|done]. intros i r Hir. rewrite Hm, bool_decide_false by congruence. by apply Hr.
Qed.

Lemma unindex_pending_runs m m' inbox seq s : order_ok m s ->
  (forall i, pending_index m' i = if bool_decide (i = inbox) then delete seq (pending_index m i) else pending_index m i) ->
  runs (unindex_pending inbox seq) s (fun _ s' => order_ok m' s' /\ reordered s s').
Proof.
  intros Ho Hm. unfold unindex_pending. apply runs_gets. destruct (ib_inboxes s !! inbox) as [rows|] eqn:Hi; cbn [mbind option_bind].
  - pose proof (oo_rows _ _ Ho _ _ Hi) as Hrows. destruct (rows !! seq) as [n|] eqn:Hs; cbn [fmap option_fmap option_map].
    + apply runs_gets, runs_usub.
      { pose proof (inboxes_charge_le _ _ _ _ Ho Hi) as Hle. pose proof (inbox_charge_nonneg inbox).
        assert (pending_charge inbox n false <= rows_charge inbox rows); [|lia].
        refine (map_sum_le (fun _ name => pending_charge inbox name false) rows seq n _ Hs). intros. apply pending_charge_nonneg. }
      eexists _, _. split; [reflexivity|]. split; [|by split]. destruct Ho as [Hr Hb]. split; cbn.
      * intros i r [[<- <-]|[Hne H]]%lookup_insert_Some; rewrite Hm; [by rewrite bool_decide_true, Hrows|rewrite bool_decide_false by done; by apply Hr].
      * rewrite map_sum_update, Hi, Hb. cbn. unfold rows_charge. rewrite map_sum_remove, Hs. cbn. lia.
    + apply runs_ret. split; [|done]. destruct Ho as [Hr Hb]. split; [|done]. intros i r Hir. rewrite Hm. case_bool_decide; [|by apply Hr].
      subst i. rewrite delete_id; [by apply Hr|]. by rewrite <-Hrows.
  - apply runs_ret. split; [|done]. destruct Ho as [Hr Hb]. split; [|done]. intros i r Hir. rewrite Hm, bool_decide_false by congruence. by apply Hr.
Qed.

(** * Open messages *)

Lemma open_count_insert m n r i : m !! n = None ->
  open_count (<[n := r]> m) i = open_count m i + (if open_in i r then 1 else 0).
Proof. intros Hn. unfold open_count. rewrite map_sum_insert by done. lia. Qed.
Lemma open_count_update m n r r' i : m !! n = Some r ->
  open_count (<[n := r']> m) i = open_count m i + (if open_in i r' then 1 else 0) - (if open_in i r then 1 else 0).
Proof. intros Hn. unfold open_count. rewrite map_sum_update, Hn. cbn. lia. Qed.
Lemma open_count_nonneg m i : 0 <= open_count m i.
Proof. apply map_sum_nonneg. intros. by destruct (open_in _ _). Qed.
Lemma open_count_pos m n r i : m !! n = Some r -> open_in i r = true -> 1 <= open_count m i.
Proof.
  intros Hn Hr. pose proof (map_sum_le (fun (_ : string) r => if open_in i r then 1 else 0) m n r) as H. cbn in H. rewrite Hr in H. apply H; [|done].
  intros k v _. destruct (open_in i v); lia.
Qed.
Lemma open_count_zero m i : open_count m i = 0 -> pending_index m i = ∅.
Proof.
  intros H0. apply map_eq. intros s. rewrite lookup_empty. destruct (pending_index m i !! s) as [n|] eqn:Hs; [|done].
  unfold pending_index, index_by in Hs. apply elem_of_list_to_map_2 in Hs. apply list_elem_of_omap in Hs as ([n' r] & Hin & Heq). cbn in Heq.
  destruct (is_pending i r) eqn:Hp; simplify_eq. apply elem_of_map_to_list in Hin. exfalso.
  pose proof (open_count_pos m n r i Hin) as Hpos. rewrite H0 in Hpos. unfold is_pending in Hp. rewrite andb_true_iff, !bool_decide_eq_true in Hp.
  assert (open_in i r = true) as Ho; [|specialize (Hpos Ho); lia]. unfold open_in, is_open. destruct Hp as [-> Hp]. by rewrite bool_decide_true.
Qed.

Lemma clock_bound m s n r : clock_ok m s -> m !! n = Some r -> is_open r = true -> exists v, ib_bindings s !! r_inbox r = Some v /\ 1 <= is_count v.
Proof.
  intros Hk Hn Ho. assert (1 <= open_count m (r_inbox r)) as Hp by (eapply open_count_pos; [done|]; unfold open_in; by rewrite Ho, bool_decide_true).
  rewrite <-(ck_count _ _ Hk) in Hp. destruct (ib_bindings s !! r_inbox r) as [v|]; cbn in Hp; [by exists v|lia].
Qed.

(** What a step on bindings leaves, besides them. *)
Record rebound s s' : Prop := {
  rb_cache : same_cache s s';
  rb_sequence : ib_sequence s' = ib_sequence s;
  rb_budget : ib_budget s' = ib_budget s;
  rb_consumers : ib_consumers s' = ib_consumers s;
  rb_observations : ib_observations s' = ib_observations s;
}.
#[export] Instance rebound_trans : Transitive rebound.
Proof. intros a b c [] []. split; [by etrans|congruence..]. Qed.
Lemma reordered_rebound s s' : reordered s s' -> rebound s s'.
Proof. by intros [[] ?]. Qed.
Lemma bindings_charge_le m s inbox v : clock_ok m s -> ib_bindings s !! inbox = Some v -> binding_charge inbox (is_binding v) <= ib_control_bytes s.
Proof.
  intros Hk Hi. rewrite (ck_control _ _ Hk).
  pose proof (map_sum_le (fun inbox v => binding_charge inbox (is_binding v)) (ib_bindings s) inbox v) as H1. cbn in H1.
  assert (0 <= map_sum (fun c (_ : P) => receiver_bytes c + 64) (ib_consumers s)).
  { apply map_sum_nonneg. intros c p _. pose proof (receiver_bytes_nonneg c). lia. }
  specialize (H1 (fun k v _ => binding_charge_nonneg k (is_binding v)) Hi). lia.
Qed.

Lemma open_inbox_runs m m' inbox t s : clock_ok m s -> (forall i, open_count m' i = open_count m i + (if bool_decide (i = inbox) then 1 else 0)) ->
  exists s', open_inbox inbox t s = (Done tt, s') /\ clock_ok m' s' /\ rebound s s' /\ (forall m0, order_ok m0 s -> order_ok m0 s') /\
    (is_binding <$> ib_bindings s', ib_observation_version s') =
      match (is_binding <$> ib_bindings s) !! inbox with
      | Some _ => (is_binding <$> ib_bindings s, ib_observation_version s)
      | None => (<[inbox := Unbound t]> (is_binding <$> ib_bindings s), ib_observation_version s + 1)
      end.
Proof.
  intros [Hn Hc] Hm. unfold open_inbox, modify. rewrite lookup_fmap. destruct (ib_bindings s !! inbox) as [v|] eqn:Hi; cbn.
  - eexists. split; [reflexivity|]. split_and!; [|by split|by intros m0 []; split|].
    + split; cbn.
      * intros i. rewrite Hm. destruct (decide (i = inbox)) as [->|Hne].
        -- rewrite lookup_insert_eq, bool_decide_true, <-Hn, Hi by done. done.
        -- rewrite lookup_insert_ne, bool_decide_false, <-Hn by done. lia.
      * rewrite map_sum_update, Hi, Hc. cbn. lia.
    + cbn. f_equal. rewrite fmap_insert. cbn. apply insert_id. by rewrite lookup_fmap, Hi.
  - eexists. split; [reflexivity|]. split_and!; [|by split|by intros m0 []; split|].
    + split; cbn.
      * intros i. rewrite Hm. destruct (decide (i = inbox)) as [->|Hne].
        -- rewrite lookup_insert_eq, bool_decide_true, <-Hn, Hi by done. done.
        -- rewrite lookup_insert_ne, bool_decide_false, <-Hn by done. lia.
      * rewrite map_sum_insert, Hc by done. cbn [is_binding]. lia.
    + cbn. by rewrite fmap_insert.
Qed.

(** The last open message of an inbox closes it. *)
Lemma close_inbox_runs m m' inbox s : clock_ok m s -> 1 <= open_count m inbox ->
  (forall i, open_count m' i = open_count m i - (if bool_decide (i = inbox) then 1 else 0)) ->
  forall m0, order_ok m0 s -> runs (close_inbox inbox) s (fun _ s' =>
    clock_ok m' s' /\ rebound s s' /\ order_ok m0 s' /\
    (is_binding <$> ib_bindings s', ib_observation_version s') =
      match (is_binding <$> ib_bindings s) !! inbox with
      | Some (Unbound _) => if bool_decide (open_count m' inbox = 0) then (delete inbox (is_binding <$> ib_bindings s), ib_observation_version s + 1)
                            else (is_binding <$> ib_bindings s, ib_observation_version s)
      | _ => (is_binding <$> ib_bindings s, ib_observation_version s)
      end).
Proof.
  intros Hk Hpos Hm m0 Ho. pose proof Hk as [Hn Hc]. unfold close_inbox. apply runs_gets. rewrite lookup_fmap.
  pose proof (Hn inbox) as Hni. destruct (ib_bindings s !! inbox) as [v|] eqn:Hi; cbn in Hni; [|lia]. apply runs_usub; [lia|]. apply runs_modify.
  set (s1 := set_bindings _ s).
  assert (clock_ok m' s1) as Hk1.
  { split; cbn.
    - intros i. rewrite Hm. destruct (decide (i = inbox)) as [->|Hne].
      + rewrite lookup_insert_eq, bool_decide_true, <-Hn, Hi by done. done.
      + rewrite lookup_insert_ne, bool_decide_false, <-Hn by done. lia.
    - rewrite map_sum_update, Hi, Hc. cbn. lia. }
  assert (rebound s s1) as Hr1 by (by split). assert (order_ok m0 s1) as Ho1 by (destruct Ho; by split).
  assert (is_binding <$> ib_bindings s1 = is_binding <$> ib_bindings s) as Hb1
    by (cbn; rewrite fmap_insert; cbn; apply insert_id; by rewrite lookup_fmap, Hi).
  assert (is_count v - 1 = open_count m' inbox) as Hcount by (rewrite Hm, bool_decide_true by done; lia).
  cbn [fmap option_fmap option_map]. rewrite <-Hcount. destruct (decide (is_count v - 1 = 0)) as [Hz|Hz].
  - rewrite !(bool_decide_true _ Hz). cbn [when]. eapply runs_bind; [by apply (evict_pending_runs m0 inbox s1)|]. cbn beta.
    intros [] s2 [Ho2 [Hs2 Hc2]]. destruct (is_binding v) as [cs|t] eqn:Hb.
    + apply runs_ret. split_and!; [by eapply same_clock|..|done|by rewrite (sa_bindings _ _ Hs2), (sa_version _ _ Hs2), Hb1].
      etrans; [exact Hr1|]. by apply reordered_rebound.
    + pose proof (same_clock _ _ _ Hs2 Hk1) as Hk2. assert (ib_bindings s2 !! inbox = Some (mkInboxState (Unbound t) 0)) as Hi2.
      { rewrite (sa_bindings _ _ Hs2). cbn. rewrite lookup_insert_eq. rewrite Hz. by rewrite ?Hb. }
      apply runs_gets, runs_usub; [by apply (bindings_charge_le _ _ _ _ Hk2 Hi2)|]. eexists _, _. split; [reflexivity|]. split_and!.
      * destruct Hk2 as [Hn2 Hc2']. split; cbn.
        -- intros i. destruct (decide (i = inbox)) as [->|Hne]; [rewrite lookup_delete_eq, <-Hn2, Hi2; done|]. by rewrite lookup_delete_ne, <-Hn2.
        -- rewrite map_sum_remove, Hi2, Hc2'. cbn. lia.
      * etrans; [exact Hr1|]. etrans; [exact (reordered_rebound s1 s2 (Build_reordered _ _ Hs2 Hc2))|]. by split.
      * destruct Ho2. by split.
      * cbn [ib_bindings ib_observation_version set_observation_version set_control_bytes set_bindings]. rewrite (sa_bindings _ _ Hs2), (sa_version _ _ Hs2), fmap_delete, Hb1. done.
  - rewrite !(bool_decide_false _ Hz). cbn [when]. apply runs_ret. split_and!; [done|done|done|]. rewrite Hb1. cbn. by destruct (is_binding v).
Qed.
End inbox.
