(* ===== verification/InboxRefine.v ===== *)
(** The inbox implements its specification: each operation of [Inbox], caches,
    budgets and pages included, decides and commits what [InboxSpec] says,
    keeps the invariant of [InboxInv] and never panics. *)

From Stdlib Require Import Ascii.
From S2P Require Import Text Encoding Address Names.
From S2P Require Import Prelude Ordered Schema Read Machine Validate Engine Log Home Consumer Message InboxStore Inbox InboxSpec InboxInv.
Import Message.
#[local] Open Scope Z_scope.

(** * Worlds that agree on a read set *)

Record agree (names : gset string) (w1 w2 : MessageWorld) : Prop := {
  ag_receipts : forall n, n ∈ names -> w_receipts w1 (mkRef n) = w_receipts w2 (mkRef n);
  ag_binding : forall n, n ∈ names -> w_binding w1 (mkRef n) = w_binding w2 (mkRef n);
  ag_applied : forall n, n ∈ names -> w_applied_through w1 (mkRef n) = w_applied_through w2 (mkRef n);
  ag_reply : forall n, n ∈ names -> w_reply w1 (mkRef n) = w_reply w2 (mkRef n);
  ag_condition : forall n, n ∈ names -> w_condition w1 (mkRef n) = w_condition w2 (mkRef n);
  ag_failure : forall n, n ∈ names -> w_delivery_failure w1 (mkRef n) = w_delivery_failure w2 (mkRef n);
  ag_supersession : forall n, n ∈ names -> w_supersession w1 (mkRef n) = w_supersession w2 (mkRef n);
  ag_authority : forall n, n ∈ names -> w_authority w1 (mkRef n) = w_authority w2 (mkRef n);
  ag_sent : forall n, n ∈ names -> w_sent w1 (mkRef n) = w_sent w2 (mkRef n);
}.

Lemma select_lookup {K} `{Kind K} (t : Table K) names n : n ∈ names ->
  table_lookup (table_select t (set_iter names)) (mkRef n) = table_lookup t (mkRef n).
Proof. intros Hn. rewrite table_select_lookup. cbn. by rewrite bool_decide_true by by apply elem_of_set_iter. Qed.

(** The world a gate is given agrees with the whole snapshot on what was declared. *)
Lemma world_of_agree i base : (forall n v rows, gi_receipts i = Some (n, v, rows) -> n ∈ gi_names i) ->
  agree (gi_names i) (world_of i base) (gate_world base (merge_receipts base (gi_receipts i)) (gi_binding i) (gi_sent i)).
Proof.
  intros Hr. assert (merge_receipts (select base (gi_names i)) (gi_receipts i) = merge_receipts base (gi_receipts i)) as Hm.
  { unfold merge_receipts. destruct (gi_receipts i) as [[[n v] rows]|]; [|done]. cbn [m_receipts select]. by rewrite select_lookup by by eapply Hr. }
  unfold world_of. rewrite Hm. split; intros n Hn; cbn [gate_world w_receipts w_binding w_applied_through w_reply w_condition w_delivery_failure w_supersession w_authority w_sent memory_world
    select m_receipts m_binding m_applied_through m_reply m_condition m_delivery_failure m_supersession m_authority m_sent ref_name]; rewrite ?select_lookup by exact Hn; reflexivity.
Qed.

(** A step reads nothing else. *)
Lemma message_next_agree names own spec w1 w2 t st e : agree names w1 w2 ->
  {[own; address_text (inbox spec)]} ∪ condition_names spec ∪ edge_names e ⊆ names ->
  message_next own spec w1 t st e = message_next own spec w2 t st e.
Proof.
  intros [Ag1 Ag2 Ag3 Ag4 Ag5 Ag6 Ag7 Ag8 _] Hsub.
  assert (own ∈ names) as Hown by set_solver. assert (address_text (inbox spec) ∈ names) as Hin by set_solver.
  assert (receipts_in w1 own = receipts_in w2 own) as E1 by (unfold receipts_in, seen, source_lookup, source_receipts; by rewrite Ag1).
  assert (binding_of w1 spec = binding_of w2 spec) as E2 by (unfold binding_of, seen, source_lookup, source_binding; by rewrite Ag2).
  assert (watermark_of w1 spec = watermark_of w2 spec) as E3 by (unfold watermark_of, seen, source_lookup, source_applied_through; by rewrite Ag3).
  assert (replied w1 own = replied w2 own) as E4 by (unfold replied, seen, source_lookup, source_reply; by rewrite Ag4).
  assert (failed w1 own = failed w2 own) as E5 by (unfold failed, seen, source_lookup, source_delivery_failure; by rewrite Ag6).
  assert (forall c, condition_text c ∈ names -> condition_in w1 c = condition_in w2 c) as E6
    by (intros c Hc; unfold condition_in, seen, source_lookup, source_condition; by rewrite Ag5).
  assert (forall c, expectation spec = Outcome c -> condition_in w1 c = condition_in w2 c) as E7
    by (intros c Hc; apply E6; unfold condition_names in Hsub; rewrite Hc in Hsub; set_solver).
  assert (lapsed w1 spec = lapsed w2 spec) as E8.
  { unfold lapsed. unfold condition_names in Hsub. destruct (delivery_condition spec) as [c|]; [|done]. rewrite E6 by set_solver. done. }
  assert (met w1 own spec = met w2 own spec) as E9 by (unfold met; destruct (expectation spec) eqn:He; [done|done|by rewrite (E7 _ eq_refl)]).
  assert (forall s, bound_in w1 spec s = bound_in w2 spec s) as E10 by (intros s; unfold bound_in; by rewrite E2).
  assert (forall a, settle_ok w1 own spec st a = settle_ok w2 own spec st a) as E11.
  { intros a. unfold settle_ok. destruct (st_by a); [by rewrite E4|]. destruct (expectation spec) eqn:He; try done. by rewrite (E7 _ eq_refl). }
  assert (forall d, e = EDrop d -> drop_ok w1 own spec t st d = drop_ok w2 own spec t st d /\ watermark_kept w1 spec st d = watermark_kept w2 spec st d) as E12.
  { intros d ->. unfold drop_ok, watermark_kept, expired_ok, undeliverable_ok, receipted, unbound_past, superseded_in, authorised_in.
    unfold edge_names in Hsub. destruct (dr_reason d); rewrite ?E1, ?E2, ?E3, ?E5, ?E8, ?E9, ?E10; (split; [|done]); try done;
      unfold seen, source_lookup, source_supersession, source_authority; rewrite ?Ag7, ?Ag8 by set_solver; done. }
  unfold message_next, deliver_ok, receipt_from. destruct st, e; rewrite ?E1, ?E11; try done;
    by destruct (E12 _ eq_refl) as [-> ->].
Qed.

Lemma pending_agree names r w1 w2 t c : agree names w1 w2 -> r_name r ∈ names -> address_text (r_inbox r) ∈ names ->
  is_pending_for r w1 t c = is_pending_for r w2 t c.
Proof.
  intros [Ag1 Ag2 _ _ _ _ _ _ _] Hn Hi. apply eq_true_iff_eq. rewrite !is_pending_for_iff. unfold binding_of, receipt_from, receipts_in, seen, source_lookup, source_binding, source_receipts.
  rewrite Ag1 by done. rewrite Ag2 by done. done.
Qed.

Lemma admission_agree names spec w1 w2 : agree names w1 w2 -> (forall m, m ∈ named spec -> ref_name (sent m) ∈ names) -> admission_of w1 spec = admission_of w2 spec.
Proof.
  intros Hag Hn. unfold admission_of. do 2 (case_match; [done|]). f_equal.
  assert (forall l, (forall m, m ∈ l -> m ∈ named spec) -> forallb (exists_in w1) l = forallb (exists_in w2) l) as Hl; [|by apply Hl].
  induction l as [|m l IH]; intros Hl; [done|]. cbn. rewrite IH by set_solver. f_equal. unfold exists_in, seen, source_lookup, source_sent.
  assert (ref_name (sent m) ∈ names) as Hm by (apply Hn, Hl; set_solver). pose proof (ag_sent _ _ _ Hag _ Hm) as Hs. destruct (sent m). cbn in Hs. by rewrite Hs.
Qed.

Lemma message_next_moves own spec w t st e nxt : message_next own spec w t st e = Ok nxt -> nxt <> Pending /\ match st with Pending | Awaiting _ => True | _ => False end.
Proof.
  unfold message_next. destruct st, e; try done; intros H; match type of H with context [?v ≫= _] => destruct v end; simplify_eq/=; try done.
  by destruct (expectation spec).
Qed.

(** * The home's calls on messages *)

Section home.
Context {L : Type} `{!Log sig L, !InboxLog L, !InboxLogLaws L}.
Implicit Types (h : Home sig L).

Definition moved_by (r : Resource sig) (nxt : MessageState) (t : Timestamp) (seq : Z) : Resource sig :=
  mkResource (r_name r) (r_spec r)
    (mkState (nxt : MState sig) (if bool_decide (message_label (r_value r) = message_label nxt) then since (r_state r) else t)) seq.

Lemma home_apply_refused h n r e w t err : home_definition h = message_definition -> home_resources h !! n = Some r -> r_name r = n ->
  message_next n (r_message r) w t (r_value r) e = Err err -> apply h n e w t = (Err (WRefused (err : Refusal sig)), h).
Proof.
  intros Hd Hn Hr Hx. unfold apply. rewrite Hn. pose proof (message_step_next r e w t) as Hs. rewrite Hd, Hr in *.
  change (message_next n (r_spec r) w t (value (r_state r)) e) with (message_next n (r_message r) w t (r_value r) e) in Hs. rewrite Hx in Hs.
  change (definition sig) with message_definition in Hs. destruct (step message_definition e (handle_on r w t)) as [v hd]. cbn in Hs. by subst v.
Qed.

Lemma home_apply_moves h n r e w t nxt : home_definition h = message_definition -> home_resources h !! n = Some r -> r_name r = n ->
  il_sound (home_log h) -> il_last (home_log h) < u64_max -> il_messages (home_log h) !! n = Some r ->
  message_next n (r_message r) w t (r_value r) e = Ok nxt ->
  exists ev l', apply h n e w t =
    (Ok ev, mkHome (home_writer h) (home_definition h) (<[n := moved_by r nxt t (il_last (home_log h) + 1)]> (home_resources h)) l') /\
    il_sound l' /\ il_messages l' = <[n := moved_by r nxt t (il_last (home_log h) + 1)]> (il_messages (home_log h)) /\
    il_receipted l' = il_receipted (home_log h) /\ il_last l' = il_last (home_log h) + 1 /\
    il_changes l' = il_changes (home_log h) ++ [(r_inbox r, mkChange (il_last (home_log h) + 1) n (CMessage nxt))].
Proof.
  intros Hd Hn Hr Hl Hroom Hm Hx. unfold apply. rewrite Hn. pose proof (message_step_next r e w t) as Hs. rewrite Hd, Hr in *.
  change (message_next n (r_spec r) w t (value (r_state r)) e) with (message_next n (r_message r) w t (r_value r) e) in Hs. rewrite Hx in Hs.
  change (definition sig) with message_definition in Hs. destruct (step message_definition e (handle_on r w t)) as [v hd]. cbn in Hs. subst v.
  destruct (h_writes hd) as [|[]]. cbn [trial try_fold apply_writes foldl].
  destruct (message_next_moves _ _ _ _ _ _ _ Hx) as [Hnp _].
  match goal with |- context [log_edge_with_writes ?l ?wr ?pr (with_state r ?st) ?ev []] =>
    destruct (law_edge l wr pr r st ev) as (l' & He & Hsound & Hms & Hrec & Hlast & Hch); [done|done|by rewrite Hr|done|] end.
  rewrite He. rewrite Hr in *. eexists _, l'. split; [reflexivity|]. done.
Qed.

Lemma home_create_refused h n spec w t err : home_definition h = message_definition -> home_resources h !! n = None ->
  admission_of w spec = Err err -> create h n spec w t = (Err (WRefused (err : Refusal sig)), h).
Proof.
  intros Hd Hn Hx. unfold create. rewrite Hn. pose proof (message_admit_val spec (mkAdmission (w : World sig) t [])) as Ha.
  change (@admits sig _ (spec : Request sig)) with (message_admit spec). destruct (message_admit spec _) as [v ad]. cbn in Ha. subst v. cbn [ad_world]. by rewrite Hx.
Qed.
Lemma home_create_admits h n spec w t : home_definition h = message_definition -> home_resources h !! n = None ->
  il_sound (home_log h) -> il_last (home_log h) < u64_max -> il_messages (home_log h) !! n = None -> admission_of w spec = Ok tt ->
  exists c l', create h n spec w t =
    (Ok c, mkHome (home_writer h) (home_definition h) (<[n := a_admit n spec t (il_last (home_log h) + 1)]> (home_resources h)) l') /\
    il_sound l' /\ il_messages l' = <[n := a_admit n spec t (il_last (home_log h) + 1)]> (il_messages (home_log h)) /\
    il_receipted l' = il_receipted (home_log h) /\ il_last l' = il_last (home_log h) + 1 /\
    il_changes l' = il_changes (home_log h) ++ [(inbox spec, mkChange (il_last (home_log h) + 1) n (CMessage Pending))].
Proof.
  intros Hd Hn Hl Hroom Hm Hx. unfold create. rewrite Hn. pose proof (message_admit_val spec (mkAdmission (w : World sig) t [])) as Ha.
  change (@admits sig _ (spec : Request sig)) with (message_admit spec). destruct (message_admit spec _) as [v ad]. cbn in Ha. subst v. cbn [ad_world]. rewrite Hx. cbn [fmap result_fmap].
  rewrite Hd. cbn [label sig message_label]. rewrite bool_decide_true by done.
  match goal with |- context [log_create_resource ?l ?wr t ?r ?reads] =>
    destruct (law_create l wr t r reads) as (l' & He & Hsound & Hms & Hrec & Hlast & Hch); [done|done|done|done|] end.
  rewrite He. eexists _, l'. split; [reflexivity|]. done.
Qed.
End home.

(** * Simulation *)

Section refine.
Context {L P Ob : Type} `{!Log sig L, !InboxLog L, !InboxLogLaws L, !ConsumerPort P L, !LocalPort P L, !Observations Ob}
  {SV : Supervision} {FZ : Freeze} {RS : Residence} {LC : Lowercase} {SH : Sha256} (writer : string) (limit : Z).
Abbreviation Inbox := (@Inbox.Inbox L P Ob).
Abbreviation AInbox := (@InboxSpec.AInbox P Ob).
Implicit Types (s : Inbox).

(** The invariant, of a home of [writer] with this control limit. *)
Record good s : Prop := {
  gd_ok : ok s;
  gd_writer : home_writer (ib_home s) = writer;
  gd_limit : control_limit s = limit;
}.

(** [m] does what [am] does, and leaves a good state; it does not panic. *)
Definition sim {A} (m : SM Inbox A) (am : SM AInbox A) s (Q : A -> Inbox -> Prop) : Prop :=
  match m s with
  | (Done a, s') => am (abs s) = (Done a, abs s') /\ Q a s'
  | (Failed e, s') => am (abs s) = (Failed e, abs s') /\ good s'
  | (Panics, _) => False
  end.

Lemma sim_bind {A B} (m : SM Inbox A) (am : SM AInbox A) (f : A -> SM Inbox B) (g : A -> SM AInbox B) s Q R :
  sim m am s R -> (forall a s', R a s' -> sim (f a) (g a) s' Q) -> sim (m ≫= f) (am ≫= g) s Q.
Proof.
  unfold sim, mbind, sm_bind. destruct (m s) as [[a|e|] s'] eqn:Hm; [|by intros [-> H]|done]. intros [-> HR] Hf. by apply Hf.
Qed.
Lemma sim_runs {A B} (m : SM Inbox A) (f : A -> SM Inbox B) (am : SM AInbox B) s Q R :
  runs m s R -> (forall a s', R a s' -> abs s' = abs s /\ sim (f a) am s' Q) -> sim (m ≫= f) am s Q.
Proof.
  intros (a & s' & Hm & HR) Hf. destruct (Hf a s' HR) as [Ha H]. unfold sim, mbind, sm_bind in *. rewrite Hm. by rewrite <-Ha.
Qed.
Lemma sim_ret {A} (a : A) s (Q : A -> Inbox -> Prop) : Q a s -> sim (mret a) (mret a) s Q.
Proof. done. Qed.
Lemma sim_fail {A} (e : InboxError) s (Q : A -> Inbox -> Prop) : good s -> sim (fail e) (fail e) s Q.
Proof. done. Qed.
Lemma sim_gets {A B} (g : Inbox -> A) (f : A -> SM Inbox B) (am : SM AInbox B) s Q : sim (f (g s)) am s Q -> sim (gets g ≫= f) am s Q.
Proof. done. Qed.
Lemma sim_spec_gets {A B} (g : AInbox -> A) (m : SM Inbox B) (f : A -> SM AInbox B) s Q : sim m (f (g (abs s))) s Q -> sim m (gets g ≫= f) s Q.
Proof. done. Qed.
Lemma sim_weaken {A} (m : SM Inbox A) (am : SM AInbox A) s Q R : sim m am s R -> (forall a s', R a s' -> Q a s') -> sim m am s Q.
Proof. unfold sim. destruct (m s) as [[a|e|] s']; [|done|done]. intros [? ?] Himp. auto. Qed.
Lemma sim_lift {A B} (o : outcome A) (f : A -> SM Inbox B) (g : A -> SM AInbox B) s Q : good s -> o <> Panics ->
  (forall a, o = Done a -> sim (f a) (g a) s Q) -> sim (lift o ≫= f) (lift o ≫= g) s Q.
Proof. intros Hg Ho Hf. unfold sim, mbind, sm_bind, lift in *. destruct o; [by apply Hf|done|done]. Qed.

(** Observing changes nothing else. *)
Lemma observed_good o s : good s -> good (set_observations o s).
Proof. intros [[[] [] [] [] ?] ? ?]. split; [split; [by split..|done]|done|done]. Qed.
Lemma sim_now {B} (f : Timestamp -> SM Inbox B) (g : Timestamp -> SM AInbox B) s Q :
  (forall t o, sim (f t) (g t) (set_observations o s) Q) -> sim (now ≫= f) (a_now ≫= g) s Q.
Proof.
  intros Hf. unfold sim, mbind, sm_bind, now, a_now. cbn [abs a_observations]. destruct (obs_now (ib_observations s)) as [t o]. apply Hf.
Qed.
Lemma sim_run {B} i (k : MessageWorld -> SM Inbox B) (g : MemoryMessageWorld -> SM AInbox B) s Q : good s ->
  (forall base o, sim (k (world_of i base)) (g base) (set_observations o s) Q) -> sim (run i k) (a_snapshot ≫= g) s Q.
Proof.
  intros Hg Hf. unfold sim, run, mbind, sm_bind, snapshot, a_snapshot. cbn [abs a_observations]. destruct (with_snapshot (ib_observations s)) as [[base|] o].
  - apply Hf.
  - cbn. split; [done|]. by apply observed_good.
Qed.

Lemma sim_assoc {A B C} (m : SM Inbox A) (f : A -> SM Inbox B) (g : B -> SM Inbox C) (am : SM AInbox C) s Q :
  sim (m ≫= fun a => f a ≫= g) am s Q -> sim ((m ≫= f) ≫= g) am s Q.
Proof. unfold sim, mbind, sm_bind. by destruct (m s) as [[a|e|] s']. Qed.
Lemma sim_run_bind {A B} i (k : MessageWorld -> SM Inbox A) (f : A -> SM Inbox B) (g : MemoryMessageWorld -> SM AInbox B) s Q : good s ->
  (forall base o, sim (k (world_of i base) ≫= f) (g base) (set_observations o s) Q) -> sim (run i k ≫= f) (a_snapshot ≫= g) s Q.
Proof.
  intros Hg Hf. unfold run. apply sim_assoc.
  pose proof (sim_run i (fun w => k w ≫= f) g s Q Hg Hf) as Hs. revert Hs. unfold sim, run, mbind, sm_bind, snapshot.
  by destruct (with_snapshot (ib_observations s)) as [[base|] o].
Qed.

(** A commit, and the bookkeeping after it. *)
Lemma sim_commit {A B} (m : SM Inbox A) (f : A -> SM Inbox B) (am : SM AInbox B) s a s' (Q R : B -> Inbox -> Prop) : m s = (Done a, s') -> runs (f a) s' R ->
  (forall b s'', R b s'' -> am (abs s) = (Done b, abs s'') /\ Q b s'') -> sim (m ≫= f) am s Q.
Proof. intros Hm (b & s'' & Hf & HR) HQ. unfold sim, mbind, sm_bind. rewrite Hm, Hf. by apply HQ. Qed.
Lemma sim_refused {A B} (m : SM Inbox A) (f : A -> SM Inbox B) (am : SM AInbox B) s e s' (Q : B -> Inbox -> Prop) : m s = (Failed e, s') ->
  am (abs s) = (Failed e, abs s') -> good s' -> sim (m ≫= f) am s Q.
Proof. intros Hm Ha Hg. unfold sim, mbind, sm_bind. by rewrite Hm. Qed.
Lemma set_home_id s : set_home (ib_home s) s = s.
Proof. by destruct s. Qed.

(** Steps of the cache keep a good state good. *)
Lemma good_same s s' : good s -> same_orders s s' -> cache_ok (ib_touched s') s' -> good s'.
Proof.
  intros [[Hb Hc Ho Hk Hq] Hw Hl] Hs Hc'. pose proof (so_same _ _ Hs) as Hs1. split.
  - split; [by eapply same_base|done|rewrite (sa_log _ _ Hs1); by eapply same_order|rewrite (sa_log _ _ Hs1); by eapply same_clock|by rewrite (sa_sequence _ _ Hs1), (sa_log _ _ Hs1)].
  - by rewrite (sa_writer _ _ Hs1).
  - unfold control_limit in *. by rewrite (sa_budget _ _ Hs1).
Qed.
Lemma good_loaded n s s' : good s -> loaded n s s' -> good s' /\ abs s' = abs s.
Proof. intros Hg [Hc Hs _ _]. split; [by eapply good_same|by apply same_abs, Hs]. Qed.

Lemma good_base s : good s -> base_ok s.
Proof. by intros [[]]. Qed.
Lemma good_cache s : good s -> cache_ok (ib_touched s) s.
Proof. by intros [[]]. Qed.
Lemma good_order s : good s -> order_ok (il_messages (ib_log s)) s.
Proof. by intros [[]]. Qed.
Lemma good_clock s : good s -> clock_ok (il_messages (ib_log s)) s.
Proof. by intros [[]]. Qed.
Lemma good_messages s : good s -> messages_ok (il_last (ib_log s)) (il_messages (ib_log s)).
Proof. intros Hg. by apply sound_messages, good_base. Qed.

Lemma sim_load {B} n (f : bool -> SM Inbox B) (am : SM AInbox B) s Q : good s ->
  (forall s', good s' -> loaded n s s' -> abs s' = abs s -> sim (f (bool_decide (is_Some (il_messages (ib_log s) !! n)))) am s' Q) ->
  sim (load n ≫= f) am s Q.
Proof.
  intros Hg Hf. eapply sim_runs; [apply load_runs; [by apply good_base|by apply good_cache]|]. cbn beta. intros b s' [Hl ->].
  destruct (good_loaded _ _ _ Hg Hl) as [Hg' Ha]. split; [done|]. by apply Hf.
Qed.

(** The cache after a commit of [n], which the operation has touched. *)
Lemma commit_cache T s n r' w d l' : cache_ok T s -> n ∈ T -> il_messages l' = <[n := r']> (il_messages (ib_log s)) ->
  il_receipted l' = il_receipted (ib_log s) -> (is_open r' = true -> ib_receipts s !! n = il_receipted (ib_log s) !! n) ->
  cache_ok T (set_home (mkHome w d (<[n := r']> (held s)) l') s).
Proof.
  intros [H1 H2 H3 H4 H5 H6 H7 H8] Hn Hm Hr Hop. unfold held in *. split; unfold held, ib_log; cbn; try done; rewrite ?Hm, ?Hr.
  - intros m r [[<- <-]|[Hne Hx]]%lookup_insert_Some; [by rewrite lookup_insert_eq|]. rewrite lookup_insert_ne by done. by apply H1.
  - intros m r [[<- <-]|[Hne Hx]]%lookup_insert_Some Ho; [by apply Hop|]. by eapply H2.
  - intros m rows Hx. apply H3 in Hx. destruct (decide (m = n)) as [->|Hne]; [by rewrite lookup_insert_eq|by rewrite lookup_insert_ne].
  - intros m b t Hx. destruct (H7 m b t Hx) as [? Hy]. split; [done|]. destruct (decide (m = n)) as [->|Hne]; [by rewrite lookup_insert_eq|by rewrite lookup_insert_ne].
  - intros m r [[<- <-]|[Hne Hx]]%lookup_insert_Some Hnt; [done|]. by apply H8.
Qed.

(** Publishing the one change a commit made. *)
Lemma publish_runs s : il_sound (ib_log s) -> ib_sequence s < il_last (ib_log s) -> runs publish s (fun _ s' => s' = set_sequence (il_last (ib_log s)) s).
Proof.
  intros Hs Hlt. unfold publish. eapply runs_read; [by apply law_sequence|]. apply runs_gets. rewrite bool_decide_false by lia. by eexists _, _.
Qed.

(** ** The inputs of a message's gates *)

Lemma inputs_of_runs n r s : good s -> held s !! n = Some r -> runs (inputs_of n) s (fun i s' => s' = s /\
  gi_names i = {[n; address_text (r_inbox r)]} ∪ condition_names (r_message r) /\
  (is_open r = true -> forall base, gate_world base (merge_receipts base (gi_receipts i)) (gi_binding i) (gi_sent i) = a_world (abs s) n r base) /\
  (forall n' v rows, gi_receipts i = Some (n', v, rows) -> n' = n)).
Proof.
  intros Hg Hn. unfold inputs_of. apply runs_gets. unfold resident, home_get. change (home_resources (ib_home s)) with (held s). rewrite Hn.
  apply runs_gets, runs_gets. destruct (is_open r) eqn:Ho.
  - destruct (clock_bound _ s n r (good_clock s Hg)) as (v & Hv & _); [by apply (co_home _ _ (good_cache s Hg))|done|]. rewrite Hv.
    apply runs_bind with (R := fun b s' => b = Some (address_text (r_inbox r), ib_observation_version s, is_binding v) /\ s' = s); [by apply runs_ret|].
    intros b s' [-> ->]. apply runs_gets, runs_ret. split_and!; [done|done| |].
    + intros _ base. cbn [gi_receipts gi_binding gi_sent]. unfold a_world. cbn [abs a_version a_receipts a_bindings]. rewrite lookup_fmap, Hv.
      rewrite (co_receipts _ _ (good_cache s Hg) n r Hn Ho). done.
    + cbn [gi_receipts]. intros n' v' rows. by destruct (ib_receipts s !! n); intros; simplify_eq/=.
  - apply runs_bind with (R := fun b s' => b = None /\ s' = s); [by apply runs_ret|].
    intros b s' [-> ->]. apply runs_gets, runs_ret. split_and!; [done|done|done|]. cbn [gi_receipts]. intros n' v' rows. by destruct (ib_receipts s !! n); intros; simplify_eq/=.
Qed.

(** ** Edges *)

Lemma is_open_moves r : match r_value r with Pending | Awaiting _ => True | _ => False end -> is_open r = true.
Proof. unfold is_open. by destruct (r_value r). Qed.
Lemma label_moved (a : AInbox) r nxt t : a_moved a r nxt t = moved_by r nxt t (a_sequence a + 1).
Proof. done. Qed.

(** What follows the commit of an edge: the order, the count and the cursor. *)
Lemma settle_edge n r r' s l' w : good s -> il_sound l' -> il_messages (ib_log s) !! n = Some r -> held s !! n = Some r -> n ∈ ib_touched s ->
  r_name r' = n -> r_spec r' = r_spec r -> r_value r' <> Pending -> is_open r = true -> r_version r' = il_last (ib_log s) + 1 ->
  il_messages l' = <[n := r']> (il_messages (ib_log s)) -> il_receipted l' = il_receipted (ib_log s) -> il_last l' = il_last (ib_log s) + 1 ->
  il_changes l' = il_changes (ib_log s) ++ w ->
  let s1 := set_home (mkHome (home_writer (ib_home s)) (home_definition (ib_home s)) (<[n := r']> (held s)) l') s in
  runs (when (bool_decide (r_value r' <> Pending)) (unindex_pending (r_inbox r') (r_admitted r)) ;;
        when (is_open r && negb (is_open r')) (close_inbox (r_inbox r')) ;; publish) s1 (fun _ s' =>
    good s' /\ held s' !! n = Some r' /\
    abs s' = (if is_open r' then fun a => a else a_close (r_inbox r)) (mkAInbox (il_messages l') (il_receipted l') (il_last l') (il_changes (ib_log s) ++ w)
      (is_binding <$> ib_bindings s) (ib_consumers s) (ib_observation_version s) (ib_observations s))).
Proof.
  intros Hg Hsound Hm Hn Ht Hname Hspec Hnp Hop Hver Hms Hrec Hlast Hch s1. pose proof (good_messages s Hg) as Hmo.
  assert (r_inbox r' = r_inbox r) as Hib by (unfold r_inbox; by rewrite Hspec). assert (r_admitted r' = r_admitted r) as Had by (unfold r_admitted; by rewrite Hspec).
  assert (messages_ok (il_last (ib_log s) + 1) (<[n := r']> (il_messages (ib_log s)))) as Hmo' by (by eapply messages_ok_update).
  assert (cache_ok (ib_touched s) s1) as Hc1.
  { apply commit_cache; try done; [by apply good_cache|]. intros _. by apply (co_receipts _ _ (good_cache s Hg) n r). }
  assert (order_ok (il_messages (ib_log s)) s1) as Ho1 by (destruct (good_order s Hg); by split).
  assert (clock_ok (il_messages (ib_log s)) s1) as Hk1 by (destruct (good_clock s Hg); by split).
  rewrite (bool_decide_true _ Hnp), Hib, Hop. cbn [when andb].
  eapply runs_bind; [apply (unindex_pending_runs (il_messages (ib_log s)) (il_messages l')); [exact Ho1|]|].
  { rewrite Hms. by eapply pending_index_update. }
  cbn beta. intros [] s2 [Ho2 [Hs2 Hsc2]].
  pose proof (same_cache_ok _ _ _ Hsc2 Hc1) as Hc2. pose proof (same_clock _ _ _ Hs2 Hk1) as Hk2.
  assert (forall i, open_count (il_messages l') i = open_count (il_messages (ib_log s)) i - (if bool_decide (i = r_inbox r) && negb (is_open r') then 1 else 0)) as Hcount.
  { intros i. rewrite Hms, (open_count_update _ _ r) by done. unfold open_in. rewrite Hop, Hib. cbn. destruct (is_open r'); cbn; rewrite ?andb_true_r, ?andb_false_r; repeat case_bool_decide; try congruence; lia. }
  assert (runs (when (negb (is_open r')) (close_inbox (r_inbox r))) s2 (fun _ s3 => clock_ok (il_messages l') s3 /\ rebound s2 s3 /\ order_ok (il_messages l') s3 /\
    (is_binding <$> ib_bindings s3, ib_observation_version s3) =
      if is_open r' then (is_binding <$> ib_bindings s2, ib_observation_version s2) else
      match (is_binding <$> ib_bindings s2) !! r_inbox r with
      | Some (Unbound _) => if bool_decide (open_count (il_messages l') (r_inbox r) = 0) then (delete (r_inbox r) (is_binding <$> ib_bindings s2), ib_observation_version s2 + 1)
                            else (is_binding <$> ib_bindings s2, ib_observation_version s2)
      | _ => (is_binding <$> ib_bindings s2, ib_observation_version s2)
      end)) as Hclose.
  { destruct (is_open r') eqn:Ho'; cbn [negb when].
    - apply runs_ret. split_and!; [|by split|done|done]. destruct Hk2 as [Hc' Hb']. split; [|done]. intros i. rewrite Hc', Hcount, andb_false_r. lia.
    - eapply (close_inbox_runs (il_messages (ib_log s))); [exact Hk2| | |exact Ho2].
      + apply (open_count_pos _ n r); [done|]. unfold open_in. by rewrite Hop, bool_decide_true.
      + intros i. rewrite Hcount, andb_true_r. done. }
  eapply runs_bind; [exact Hclose|]. cbn beta. intros [] s3 (Hk3 & Hr3 & Ho3 & Hbv).
  assert (ib_home s3 = ib_home s1) as Hh by (rewrite (sc_home _ _ (rb_cache _ _ Hr3)); apply Hsc2).
  assert (ib_log s3 = l') as Hl3 by (unfold ib_log; by rewrite Hh).
  assert (ib_sequence s3 = il_last (ib_log s)) as Hq by (rewrite (rb_sequence _ _ Hr3), (sa_sequence _ _ Hs2); apply (ok_sequence _ (gd_ok _ Hg))).
  pose proof (same_cache_ok _ _ _ (rb_cache _ _ Hr3) Hc2) as Hc3.
  eapply runs_weaken; [apply publish_runs; rewrite Hl3; [done|lia]|]. cbn beta. intros [] s4 ->. rewrite Hl3.
  assert (ib_touched s3 = ib_touched s) as Ht3 by (rewrite (sc_touched _ _ (rb_cache _ _ Hr3)); apply Hsc2).
  split_and!.
  - split.
    + split; unfold ib_log; cbn [ib_home set_sequence ib_sequence ib_touched]; rewrite ?Hh; cbn [home_log ib_home set_home s1]; try done.
      * split; unfold ib_log; cbn; rewrite Hh; [done|]. by apply good_base in Hg as [_ ?].
      * rewrite Ht3. destruct Hc3; by split.
      * destruct Ho3; by split.
      * destruct Hk3; by split.
    + cbn. rewrite Hh. by apply Hg.
    + unfold control_limit. cbn. rewrite (rb_budget _ _ Hr3), (sa_budget _ _ Hs2). by apply (gd_limit _ Hg).
  - unfold held. cbn. rewrite Hh. cbn. by rewrite lookup_insert_eq.
  - unfold abs, ib_log. cbn [ib_home set_sequence ib_bindings ib_consumers ib_observation_version ib_observations]. rewrite Hh. cbn [ib_home set_home s1 home_log].
    rewrite (rb_consumers _ _ Hr3), (rb_observations _ _ Hr3), (sa_consumers _ _ Hs2), (sa_observations _ _ Hs2). cbn [s1 set_home ib_consumers ib_observations].
    rewrite (sa_bindings _ _ Hs2), (sa_version _ _ Hs2) in Hbv. cbn [s1 set_home ib_bindings ib_observation_version] in Hbv. rewrite Hch.
    destruct (is_open r'); [injection Hbv as -> ->; reflexivity|]. unfold a_close. cbn [a_bindings a_messages a_version a_set_bindings].
    destruct ((is_binding <$> ib_bindings s) !! r_inbox r) as [[cs|t]|]; [injection Hbv as -> ->; reflexivity| |injection Hbv as -> ->; reflexivity].
    case_bool_decide; injection Hbv as -> ->; reflexivity.
Qed.

Lemma apply_sim n e s : good s -> il_last (ib_log s) < u64_max -> sim (apply_locked n e) (a_apply n e) s (fun _ s' =>
  good s' /\ is_Some (held s' !! n) /\ il_last (ib_log s') = il_last (ib_log s) + 1).
Proof.
  intros Hg0 Hroom. unfold apply_locked. apply sim_load; [done|]. intros s1 Hg [_ Hs1 Ht Hh] _. apply sim_gets.
  assert (ib_log s1 = ib_log s) as Hl by apply Hs1. rewrite <-Hl in Hroom, Hh |- *. clear Hs1 Hl Hg0 s.
  unfold resident, home_get. fold (held s1). rewrite Hh. unfold a_apply. destruct (il_messages (ib_log s1) !! n) as [r|] eqn:Hr.
  - eapply sim_runs; [by apply (inputs_of_runs n r)|]. cbn beta. intros i s' (-> & Hnames & Hworld & Hown). split; [done|].
    apply sim_run_bind; [done|]. intros base o1. apply sim_assoc, sim_now. intros t o2. apply sim_assoc.
    set (s2 := set_observations o2 _). assert (good s2) as Hg2 by (by do 2 apply observed_good).
    set (w := world_of _ base). assert (message_next n (r_message r) w t (r_value r) e = message_next n (r_message r) (a_world (abs s2) n r base) t (r_value r) e) as Hx.
    { destruct (is_open r) eqn:Hop; [|unfold is_open in Hop; by destruct (r_value r)]. eapply message_next_agree.
      - unfold w. change (a_world (abs s2) n r base) with (a_world (abs s1) n r base). rewrite <-(Hworld eq_refl base). apply (world_of_agree (with_names i (edge_names e))).
        intros n' v rows Hrec. cbn in Hrec. apply Hown in Hrec as ->. cbn. rewrite Hnames. set_solver.
      - cbn [gi_names with_names]. rewrite Hnames. reflexivity. }
    assert (r_name r = n) as Hname by (by apply (mso_each _ _ (good_messages s1 Hg)) in Hr as [? _ _ _]).
    destruct (message_next n (r_message r) w t (r_value r) e) as [nxt|err] eqn:Hnext.
    + destruct (message_next_moves _ _ _ _ _ _ _ Hnext) as [Hnp Hop%is_open_moves].
      destruct (home_apply_moves (ib_home s2) n r e w t nxt) as (ev & l' & Hap & Hsound & Hms & Hrec & Hlast & Hch); try done; [apply good_base, Hg2..|].
      set (r' := moved_by r nxt t (il_last (home_log (ib_home s2)) + 1)) in *.
      eapply sim_commit.
      { unfold home_call. rewrite Hap. reflexivity. }
      { apply runs_ret_bind, runs_gets. unfold resident, home_get. cbn [ib_home set_home home_resources]. rewrite lookup_insert_eq. cbn [from_option].
        apply (settle_edge n r r' s2 l' [(r_inbox r, mkChange (il_last (home_log (ib_home s2)) + 1) n (CMessage nxt))]); done. }
      cbn beta. intros [] s' (Hg' & Hh' & Ha'). split; [|split_and!; [done|by exists r'|]].
      * unfold doing. change (a_messages (abs s2)) with (il_messages (ib_log s1)). rewrite Hr, <-Hx, Ha'. f_equal. rewrite Hms, Hrec, Hlast.
        unfold r' at 1. unfold is_open. cbn [r_value moved_by r_state value]. by destruct nxt.
      * pose proof (f_equal a_sequence Ha') as Hq. cbn in Hq. rewrite Hq. by destruct (is_open r'); cbn; [|unfold a_close; repeat case_match].
    + eapply sim_refused; [unfold home_call; rewrite (home_apply_refused (ib_home s2) n r e w t err); [reflexivity|apply good_base, Hg2|exact Hh|done|done]| |by rewrite set_home_id].
      rewrite set_home_id. unfold doing. change (a_messages (abs s2)) with (il_messages (ib_log s1)). by rewrite Hr, <-Hx.
  - eapply sim_runs; [by eapply (runs_weaken _ _ (fun i s' => i = no_inputs /\ s' = s1)); [|intros i s' Hi; exact Hi]; unfold inputs_of; apply runs_gets; unfold resident, home_get; fold (held s1); rewrite Hh; apply runs_ret|].
    cbn beta. intros i s' [-> ->]. split; [done|]. apply sim_run_bind; [done|]. intros base o1. apply sim_assoc, sim_now. intros t o2. apply sim_assoc.
    set (s2 := set_observations o2 _). eapply sim_refused; [|unfold doing; change (a_messages (abs s2)) with (il_messages (ib_log s1)); by rewrite Hr|].
    + unfold home_call, apply. change (home_resources (ib_home s2)) with (held s1). rewrite Hh. by rewrite set_home_id.
    + by do 2 apply observed_good.
Qed.

(** ** Sending *)

Lemma exists_runs n s : good s -> runs (exists_ n) s (fun b s' => b = bool_decide (is_Some (il_messages (ib_log s) !! n)) /\ s' = s).
Proof. intros Hg. by apply (exists_known (ib_touched s)); [apply good_base|apply good_cache]. Qed.

Definition ref_keys (refs : list MessageRef) : gset string := list_to_set (map (fun m => ref_name (sent m)) refs).
Lemma sent_inputs_runs refs i s : good s -> runs (sent_inputs refs i) s (fun i' s' => s' = s /\ gi_receipts i' = gi_receipts i /\ gi_binding i' = gi_binding i /\
  gi_names i' = gi_names i ∪ ref_keys refs /\
  gi_sent i' = gi_sent i ∪ ref_keys (filter (fun m => sref_home m = writer /\ is_Some (il_messages (ib_log s) !! sref_name m)) refs)).
Proof.
  intros Hg. revert i. induction refs as [|m refs IH]; intros i; cbn [sent_inputs].
  { apply runs_ret. unfold ref_keys. cbn. rewrite !union_empty_r_L. done. }
  apply runs_gets. rewrite (gd_writer _ Hg).
  apply runs_bind with (R := fun b s' => b = bool_decide (sref_home m = writer /\ is_Some (il_messages (ib_log s) !! sref_name m)) /\ s' = s).
  { case_bool_decide as Hw; [|apply runs_ret; split; [|done]; symmetry; by apply bool_decide_false; intros [? _]].
    eapply runs_weaken; [by apply exists_runs|]. cbn beta. intros b s' [-> ->]. split; [|done]. apply bool_decide_ext. naive_solver. }
  intros b s' [-> ->]. eapply runs_weaken; [apply IH|]. cbn beta. intros i' s' (-> & Hr & Hb & Hn & Hs). rewrite filter_cons.
  unfold ref_keys in *. destruct (decide (sref_home m = writer /\ is_Some (il_messages (ib_log s) !! sref_name m))) as [Hd|Hd].
  - rewrite bool_decide_true in Hr, Hb, Hn, Hs by done. cbn in *. split_and!; try done; [rewrite Hn|rewrite Hs]; set_solver.
  - rewrite bool_decide_false in Hr, Hb, Hn, Hs by done. cbn in *. split_and!; try done. rewrite Hn. set_solver.
Qed.

(** What follows the commit of an admission. *)
Lemma settle_admission n spec t s l' w : good s -> il_sound l' -> il_messages (ib_log s) !! n = None ->
  il_messages l' = <[n := a_admit n spec t (il_last (ib_log s) + 1)]> (il_messages (ib_log s)) -> il_receipted l' = il_receipted (ib_log s) ->
  il_last l' = il_last (ib_log s) + 1 -> il_changes l' = il_changes (ib_log s) ++ w ->
  let r := a_admit n spec t (il_last (ib_log s) + 1) in
  let s1 := set_home (mkHome (home_writer (ib_home s)) (home_definition (ib_home s)) (<[n := r]> (held s)) l') s in
  let empty := match ib_bindings s !! inbox spec with Some v => bool_decide (is_count v = 0) | None => true end in
  runs (open_inbox (inbox spec) t ;;
        cached ← gets (fun s => bool_decide (is_Some (ib_inboxes s !! inbox spec)));
        when (empty && negb cached)
          (let charge := inbox_charge (inbox spec) in
           over ← gets (over_pending charge);
           when (negb over) (modify (fun s => set_inboxes (<[inbox spec := ∅]> (ib_inboxes s)) (set_pending_bytes (ib_pending_bytes s + charge) s)))) ;;
        touch n ;;
        created ← gets (resident n);
        match created with
        | None => fail (EStorage (Said "committed admission missing from Home"))
        | Some r => index_pending (inbox spec) (r_admitted r) n ;; publish ;; mret n
        end) s1 (fun n' s' =>
    n' = n /\ good s' /\ held s' !! n = Some r /\
    abs s' = a_open (inbox spec) t (mkAInbox (il_messages l') (il_receipted l') (il_last l') (il_changes (ib_log s) ++ w)
      (is_binding <$> ib_bindings s) (ib_consumers s) (ib_observation_version s) (ib_observations s))).
Proof.
  intros Hg Hsound Hn Hms Hrec Hlast Hch r s1 empty. pose proof (good_messages s Hg) as Hmo. pose proof (sound_seq _ (bo_sound _ (good_base s Hg))) as [Hq0 _].
  assert (messages_ok (il_last (ib_log s) + 1) (<[n := r]> (il_messages (ib_log s)))) as Hmo' by (by apply messages_ok_insert).
  assert (held s !! n = None) as Hhn.
  { destruct (held s !! n) eqn:Hx; [|done]. apply (co_home _ _ (good_cache s Hg)) in Hx. congruence. }
  assert (cache_ok ({[n]} ∪ ib_touched s) s1) as Hc1.
  { apply commit_cache; try done; [|set_solver|].
    - eapply cache_ok_mono; [|by apply good_cache]. set_solver.
    - intros _. transitivity (None : option (gmap Receiver Transport)).
      + destruct (ib_receipts s !! n) eqn:Hx; [|done]. apply (co_receipts_held _ _ (good_cache s Hg)) in Hx as [? Hx]. congruence.
      + destruct (il_receipted (ib_log s) !! n) eqn:Hx; [|done]. apply sound_receipted in Hx as [_ [? Hx]]; [congruence|apply good_base, Hg]. }
  assert (order_ok (il_messages (ib_log s)) s1) as Ho1 by (destruct (good_order s Hg); by split).
  assert (clock_ok (il_messages (ib_log s)) s1) as Hk1 by (destruct (good_clock s Hg); by split).
  destruct (open_inbox_runs (il_messages (ib_log s)) (il_messages l') (inbox spec) t s1 Hk1) as (s2 & Hopen & Hk2 & Hr2 & Ho2 & Hbv).
  { intros i. rewrite Hms, open_count_insert by done. unfold open_in. cbn. case_bool_decide; subst; by rewrite ?bool_decide_true, ?bool_decide_false by congruence. }
  apply runs_bind with (R := fun _ s' => s' = s2); [by eexists _, _|]. intros _ s' ->. apply runs_gets. specialize (Ho2 _ Ho1).
  apply runs_bind with (R := fun _ s3 => order_ok (il_messages (ib_log s)) s3 /\ reordered s2 s3).
  { destruct (empty && _) eqn:He; cbn [when]; [|by apply runs_ret]. apply runs_gets. destruct (over_pending _ s2); cbn [negb when]; [by apply runs_ret|].
    eexists _, _. split; [reflexivity|]. split; [|by split]. apply andb_true_iff in He as [He Hx%negb_true_iff%bool_decide_eq_false].
    assert (open_count (il_messages (ib_log s)) (inbox spec) = 0) as Hz.
    { rewrite <-(ck_count _ _ (good_clock s Hg)). unfold empty in He. destruct (ib_bindings s !! inbox spec); [by apply bool_decide_eq_true in He|done]. }
    destruct Ho2 as [Hrow Hby]. split; cbn.
    - intros i rows [[<- <-]|[_ Hi]]%lookup_insert_Some; [by rewrite open_count_zero|by apply Hrow].
    - rewrite map_sum_insert, Hby by (by apply eq_None_not_Some). unfold rows_charge. rewrite map_sum_empty. lia. }
  intros [] s3 [Ho3 Hre3]. unfold touch. apply runs_modify. set (s4 := set_touched _ s3).
  assert (ib_home s3 = ib_home s1) as Hh3 by (rewrite (sc_home _ _ (re_cache _ _ Hre3)); apply Hr2).
  apply runs_gets. unfold resident, home_get. change (ib_home s4) with (ib_home s3). rewrite Hh3. cbn [ib_home set_home home_resources s1]. rewrite lookup_insert_eq.
  eapply runs_bind.
  { apply (index_pending_runs (il_messages (ib_log s)) (il_messages l') (inbox spec) (il_last (ib_log s) + 1) n s4).
    - destruct Ho3; by split.
    - destruct (pending_index _ _ !! _) as [n'|] eqn:Hx; [|done]. unfold pending_index in Hx. rewrite (index_by_lookup _ (il_last (ib_log s))) in Hx by done.
      destruct Hx as (r1 & Hr1 & _ & Ha). apply (mso_each _ _ Hmo) in Hr1 as [_ ? ? _]. lia.
    - intros i. rewrite Hms. apply (pending_index_insert (il_last (ib_log s)) (il_last (ib_log s) + 1)); done. }
  cbn beta. intros [] s5 [Ho5 Hre5].
  assert (ib_home s5 = ib_home s1) as Hh5 by (rewrite (sc_home _ _ (re_cache _ _ Hre5)); exact Hh3).
  assert (ib_log s5 = l') as Hl5 by (unfold ib_log; by rewrite Hh5).
  assert (ib_sequence s5 = il_last (ib_log s)) as Hq5.
  { rewrite (sa_sequence _ _ (re_same _ _ Hre5)). change (ib_sequence s4) with (ib_sequence s3). rewrite (sa_sequence _ _ (re_same _ _ Hre3)), (rb_sequence _ _ Hr2). apply (ok_sequence _ (gd_ok _ Hg)). }
  eapply runs_bind; [apply publish_runs; rewrite Hl5; [done|lia]|]. cbn beta. intros [] s6 ->. rewrite Hl5. apply runs_ret.
  assert (ib_touched s5 = {[n]} ∪ ib_touched s) as Ht5.
  { rewrite (sc_touched _ _ (re_cache _ _ Hre5)). cbn. by rewrite (sc_touched _ _ (re_cache _ _ Hre3)), (sc_touched _ _ (rb_cache _ _ Hr2)). }
  assert (cache_ok ({[n]} ∪ ib_touched s) s5) as Hc5.
  { eapply same_cache_ok; [apply Hre5|]. assert (cache_ok ({[n]} ∪ ib_touched s) s3) as [] by (eapply same_cache_ok; [apply Hre3|]; eapply same_cache_ok; [apply Hr2|done]). by split. }
  assert (clock_ok (il_messages l') s5) as Hk5.
  { eapply same_clock; [apply Hre5|]. assert (clock_ok (il_messages l') s3) as [] by (by eapply same_clock; [apply Hre3|]). by split. }
  split_and!; [done| | |].
  - split.
    + split; unfold ib_log; cbn [ib_home set_sequence ib_sequence ib_touched]; rewrite ?Hh5; cbn [home_log ib_home set_home s1]; try done.
      * split; unfold ib_log; cbn; rewrite Hh5; [done|]. by apply good_base in Hg as [_ ?].
      * rewrite Ht5. destruct Hc5; by split.
      * destruct Ho5; by split.
      * destruct Hk5; by split.
    + cbn. rewrite Hh5. by apply Hg.
    + unfold control_limit. cbn. rewrite (sa_budget _ _ (re_same _ _ Hre5)). cbn. rewrite (sa_budget _ _ (re_same _ _ Hre3)), (rb_budget _ _ Hr2). by apply (gd_limit _ Hg).
  - unfold held. cbn. rewrite Hh5. cbn. by rewrite lookup_insert_eq.
  - unfold abs, ib_log. cbn [ib_home set_sequence ib_bindings ib_consumers ib_observation_version ib_observations]. rewrite Hh5. cbn [ib_home set_home s1 home_log].
    destruct Hre5 as [[_ _ _ -> -> _ _ _ -> ->] _]. cbn [s4 set_touched ib_bindings ib_consumers ib_observation_version ib_observations].
    destruct Hre3 as [[_ _ _ -> -> _ _ _ -> ->] _]. rewrite (rb_consumers _ _ Hr2), (rb_observations _ _ Hr2), Hch. cbn [s1 set_home ib_bindings ib_consumers ib_observation_version ib_observations] in *.
    unfold a_open. cbn [a_bindings a_version a_set_bindings]. destruct ((is_binding <$> ib_bindings s) !! inbox spec); injection Hbv as -> ->; reflexivity.
Qed.

(** The name an admission takes is free. *)
Definition name_free s (spec : MessageSpec) (name : option string) : Prop :=
  match name with
  | Some n => il_messages (ib_log s) !! n = None
  | None => forall n, name_for (inbox spec) (sender spec) (il_last (ib_log s)) = Done n -> il_messages (ib_log s) !! n = None
  end.

Lemma enqueue_sim spec name s : good s -> il_last (ib_log s) < u64_max -> name_free s spec name ->
  sim (enqueue_named spec name) (a_enqueue_named writer name_for spec name) s (fun n s' => good s').
Proof.
  intros Hg0 Hroom Hfree. unfold enqueue_named, a_enqueue_named. apply sim_now. intros t o.
  pose proof (observed_good o s Hg0) as Hg. set (s1 := set_observations o s) in *.
  eapply sim_runs; [by apply sent_inputs_runs|]. cbn beta. intros i s' (-> & Hrec & Hbind & Hnames & Hsent). split; [done|].
  apply sim_bind with (R := fun n s' => s' = s1 /\ il_messages (ib_log s1) !! n = None).
  { destruct name as [n|]; cbn [name_free] in Hfree; [by apply sim_ret|]. unfold sim, read_log, doing. rewrite law_next_name.
    change (a_sequence (abs s1)) with (il_last (ib_log s1)). destruct (name_for _ _ _) as [n|e|] eqn:Hn; [|done|by apply name_returns in Hn]. split; [done|]. split; [done|]. by apply Hfree. }
  intros n s' [-> Hn]. apply sim_gets, sim_run_bind; [done|]. intros base o2. apply sim_assoc.
  set (s2 := set_observations o2 s1). assert (good s2) as Hg2 by (by apply observed_good).
  set (w := world_of i base).
  assert (admission_of w spec = admission_of (gate_world base None None (a_sent writer (abs s2) spec)) spec) as Hx.
  { eapply (admission_agree (gi_names i)).
    - pose proof (world_of_agree i base) as Hag. rewrite Hrec, Hbind, Hsent in Hag. cbn [no_inputs gi_receipts gi_binding gi_sent merge_receipts] in Hag.
      rewrite union_empty_l_L in Hag. by apply Hag.
    - intros m Hm. rewrite Hnames. unfold ref_keys. apply elem_of_union_r, elem_of_list_to_set, list_elem_of_fmap. by exists m. }
  destruct (admission_of w spec) as [[]|err] eqn:Hadm.
  - destruct (home_create_admits (ib_home s2) n spec w t) as (c & l' & Hcr & Hsound & Hms & Hre & Hlast & Hch); try done; try apply good_base, Hg2.
    { destruct (home_resources (ib_home s2) !! n) eqn:Hy; [|done]. apply (co_home _ _ (good_cache s2 Hg2)) in Hy. change (ib_log s2) with (ib_log s1) in Hy. congruence. }
    eapply sim_commit; [unfold home_call; rewrite Hcr; reflexivity| |].
    { apply runs_ret_bind. by apply (settle_admission n spec t s2 l' [(inbox spec, mkChange (il_last (home_log (ib_home s2)) + 1) n (CMessage Pending))]). }
    cbn beta. intros n' s' (-> & Hg' & _ & Ha'). split; [|done]. unfold doing. rewrite <-Hx, Ha', Hms, Hre, Hlast. done.
  - eapply sim_refused; [unfold home_call; rewrite (home_create_refused (ib_home s2) n spec w t err); [reflexivity|apply good_base, Hg2| |done]| |by rewrite set_home_id].
    + destruct (home_resources (ib_home s2) !! n) eqn:Hy; [|done]. apply (co_home _ _ (good_cache s2 Hg2)) in Hy. change (ib_log s2) with (ib_log s1) in Hy. congruence.
    + rewrite set_home_id. unfold doing. by rewrite <-Hx.
Qed.

(** ** Receipts *)

Lemma consumer_good c p s : good s -> is_Some (ib_consumers s !! c) -> good (set_consumers (<[c := p]> (ib_consumers s)) s).
Proof.
  intros [[[] [] [] [Hn Hc] ?] ? ?] [p0 Hp]. split; [split; [by split..| |done]|done|done]. split; [done|]. cbn.
  rewrite map_sum_update, Hp, Hc. cbn. lia.
Qed.

(** The receipt in the cache and in the log. *)
Lemma settle_receipt n r c tr s l' w : good s -> il_sound l' -> held s !! n = Some r -> n ∈ ib_touched s -> is_open r = true ->
  il_messages l' = il_messages (ib_log s) -> il_receipted l' = <[n := <[c := tr]> (default ∅ (il_receipted (ib_log s) !! n))]> (il_receipted (ib_log s)) ->
  il_last l' = il_last (ib_log s) + 1 -> il_changes l' = il_changes (ib_log s) ++ w ->
  let s1 := set_observation_version (ib_observation_version s + 1)
    (set_receipts (<[n := <[c := tr]> (default ∅ (ib_receipts s !! n))]> (ib_receipts s)) s) in
  runs publish (set_log l' s1) (fun _ s' => good s' /\
    abs s' = mkAInbox (il_messages l') (il_receipted l') (il_last l') (il_changes (ib_log s) ++ w)
      (is_binding <$> ib_bindings s) (ib_consumers s) (ib_observation_version s + 1) (ib_observations s)).
Proof.
  intros Hg Hsound Hn Ht Hop Hms Hrec Hlast Hch s1. pose proof (ok_sequence _ (gd_ok _ Hg)) as Hq.
  eapply runs_weaken; [apply publish_runs; cbn; [done|lia]|]. cbn beta. intros [] s' ->. split.
  - split; [split|by apply Hg|by apply (gd_limit _ Hg)].
    + split; [done|]. by apply good_base in Hg as [_ ?].
    + destruct (good_cache s Hg) as [H1 H2 H3 H4 H5 H6 H7 H8]. unfold held in *. split; unfold held, ib_log; cbn; try done; rewrite ?Hms, ?Hrec.
      * exact H1.
      * intros m r' Hm Ho. destruct (decide (m = n)) as [->|Hne]; [by rewrite !lookup_insert_eq, (H2 n r)|]. rewrite !lookup_insert_ne by done. by eapply H2.
      * intros m rows [[<- _]|[_ Hm]]%lookup_insert_Some; [by exists r|by eapply H3].
      * intros m r' Hm Hnt. rewrite lookup_insert_ne by set_solver. by apply H8.
    + destruct (good_order s Hg) as [Hr Hb]. split; [|done]. cbn. rewrite Hms. exact Hr.
    + destruct (good_clock s Hg) as [Hcn Hcc]. split; [|done]. cbn. rewrite Hms. exact Hcn.
    + done.
  - unfold abs. cbn. by rewrite Hch.
Qed.

Lemma set_log_id s : set_log (ib_log s) s = s.
Proof. by destruct s as [[]]. Qed.
Lemma receive_sim c n tr s : good s -> il_last (ib_log s) < u64_max ->
  sim (receive_locked c n tr) (a_receive (port_record (L := L)) c n tr) s (fun _ s' => good s').
Proof.
  intros Hg0 Hroom. unfold receive_locked. apply sim_load; [done|]. intros s1 Hg [_ Hs1 Ht Hh] _. apply sim_gets.
  assert (ib_log s1 = ib_log s) as Hl by apply Hs1. rewrite <-Hl in Hroom, Hh. clear Hs1 Hl Hg0 s.
  unfold resident, home_get. fold (held s1). rewrite Hh. unfold a_receive, a_get. apply sim_spec_gets. change (a_messages (abs s1)) with (il_messages (ib_log s1)).
  destruct (il_messages (ib_log s1) !! n) as [r|] eqn:Hr; [|by apply sim_fail].
  destruct (r_value r) eqn:Hv; try by apply sim_fail. assert (is_open r = true) as Hop by (unfold is_open; by rewrite Hv).
  apply sim_gets, sim_spec_gets. change (a_receipts (abs s1)) with (il_receipted (ib_log s1)). rewrite <-(co_receipts _ _ (good_cache s1 Hg) n r Hh Hop).
  destruct (ib_receipts s1 !! n ≫= _) as [t|]; [case_bool_decide; [by apply sim_ret|by apply sim_fail]|].
  apply sim_gets, sim_gets, sim_spec_gets. rewrite law_scope. change (a_consumers (abs s1)) with (ib_consumers s1).
  destruct (ib_consumers s1 !! c) as [p|] eqn:Hp; [|by apply sim_fail]. apply sim_now. intros t o. set (s2 := set_observations o s1).
  assert (good s2) as Hg2 by (by apply observed_good).
  apply sim_bind with (R := fun _ s' => exists p', s' = set_consumers (<[c := p']> (ib_consumers s2)) s2).
  { unfold sim, doing. rewrite port_local. destruct (port_record p n tr t) as [x p'] eqn:Hpr. pose proof (port_returns p n tr t) as Hret. rewrite Hpr in Hret.
    assert (set_log (ib_log s2) (set_consumers (<[c := p']> (ib_consumers s2)) s2) = set_consumers (<[c := p']> (ib_consumers s2)) s2) as -> by exact (set_log_id (set_consumers _ s2)).
    destruct x; cbn in Hret; [split; [done|by eexists]|split; [done|by apply consumer_good]|done]. }
  intros _ s' [p' ->]. set (s3 := set_consumers _ s2). assert (good s3) as Hg3 by (by apply consumer_good).
  destruct (law_receipt (ib_log s3) (r_inbox r) n c tr) as (l' & Hil & Hsound & Hms & Hrec & Hlast & Hch); [apply good_base, Hg3|done|by exists r|].
  eapply sim_commit; [reflexivity| |].
  { apply runs_bind with (R := fun _ s' => s' = set_log l' (set_observation_version (ib_observation_version s3 + 1)
      (set_receipts (<[n := <[c := tr]> (default ∅ (ib_receipts s3 !! n))]> (ib_receipts s3)) s3))).
    - exists tt. eexists. split; [|reflexivity]. unfold doing. change (ib_log (set_observation_version _ _)) with (ib_log s3). by rewrite Hil.
    - intros _ s' ->. by apply (settle_receipt n r c tr s3 l' [(r_inbox r, mkChange (il_last (ib_log s3) + 1) n (CReceipt c tr))]). }
  cbn beta. intros [] s' [Hg' Ha']. split; [|done]. rewrite Ha'. unfold modify. rewrite Hms, Hrec, Hlast. done.
Qed.

(** ** Dropping *)

Lemma sim_exists {B} n (f : bool -> SM Inbox B) (g : option (Resource sig) -> SM AInbox B) s Q : good s ->
  sim (f (bool_decide (is_Some (il_messages (ib_log s) !! n)))) (g (il_messages (ib_log s) !! n)) s Q -> sim (exists_ n ≫= f) (a_get n ≫= g) s Q.
Proof. intros Hg Hs. eapply sim_runs; [by apply exists_runs|]. cbn beta. by intros b s' [-> ->]. Qed.

Lemma dead_letter_sim n s : good s -> il_last (ib_log s) < u64_max -> is_Some (held s !! n) -> is_ok (from_str (tx n)) = true ->
  sim (dead_letter n) (a_dead_letter writer name_for n) s (fun _ s' => good s').
Proof.
  intros Hg Hroom [r Hr] Hok. unfold dead_letter, a_dead_letter, a_get. apply sim_gets, sim_spec_gets.
  unfold resident, home_get. fold (held s). change (a_messages (abs s)) with (il_messages (ib_log s)). rewrite Hr, (co_home _ _ (good_cache s Hg) n r Hr), Hok.
  destruct (supervisor (sender (r_message r))) as [to|]; [|by apply sim_ret]. case_bool_decide; [by apply sim_ret|].
  apply sim_lift; [done|apply message_address_returns|]. intros m _. apply sim_exists; [done|].
  case_bool_decide as Hm; [by apply sim_ret|]. eapply sim_bind; [apply enqueue_sim; [done|done|by apply eq_None_not_Some]|].
  cbn beta. intros _ s' Hg'. by apply sim_ret.
Qed.

Lemma drop_sim n reason s : good s -> il_last (ib_log s) + 1 < u64_max -> is_ok (from_str (tx n)) = true ->
  sim (drop_locked n reason) (a_drop writer name_for n reason) s (fun _ s' => good s').
Proof.
  intros Hg0 Hroom Hok. unfold drop_locked. apply sim_load; [done|]. intros s1 Hg [_ Hs1 Ht Hh] _. apply sim_gets.
  assert (ib_log s1 = ib_log s) as Hl by apply Hs1. rewrite <-Hl in Hroom, Hh. clear Hs1 Hl Hg0 s.
  unfold resident, home_get. fold (held s1). rewrite Hh. unfold a_drop, a_get. apply sim_spec_gets. change (a_messages (abs s1)) with (il_messages (ib_log s1)).
  destruct (_ && _) eqn:Hd.
  - apply andb_true_iff in Hd as [_ Hd%bool_decide_eq_true]. eapply sim_bind; [apply dead_letter_sim; [done|lia| |done]|cbn beta; intros _ s' Hg'; by apply sim_fail].
    rewrite Hh. by destruct (il_messages (ib_log s1) !! n).
  - eapply sim_bind; [apply apply_sim; [done|lia]|]. cbn beta. intros _ s' (Hg' & Hh' & Hq'). case_bool_decide; cbn [when]; [|by apply sim_ret].
    apply dead_letter_sim; [done|lia|done|done].
Qed.

(** ** Walking the pending order *)

Lemma sim_ret_bind {A B} (a : A) (f : A -> SM Inbox B) (am : SM AInbox B) s Q : sim (f a) am s Q -> sim (mret a ≫= f) am s Q.
Proof. done. Qed.
Lemma sim_trim {B} (f : unit -> SM Inbox B) (am : SM AInbox B) s Q : good s ->
  (forall s', good s' -> same_orders s s' -> sim (f tt) am s' Q) -> sim (trim ≫= f) am s Q.
Proof.
  intros Hg Hf. eapply sim_runs; [by apply trim_runs, good_cache|]. cbn beta. intros [] s' (Hc & Hs & _). split; [by apply same_abs, Hs|].
  apply Hf; [by eapply good_same|done].
Qed.

(** The walk at [after] either ends or comes to the first message of the order. *)
Lemma sim_walk {B} inbox after (f : option (Z * string) -> SM Inbox B) (g : list (Z * string) -> SM AInbox B) s Q : good s -> 0 <= after ->
  sim (f None) (g []) s Q ->
  (forall seq n r s', good s' -> ib_log s' = ib_log s -> held s' !! n = Some r -> n ∈ ib_touched s' -> il_messages (ib_log s') !! n = Some r -> r_value r = Pending ->
    after < seq <= il_last (ib_log s') ->
    sim (f (Some (seq, n))) (g ((seq, n) :: above seq (pending_order (il_messages (ib_log s')) inbox))) s' Q) ->
  sim (next_pending inbox after ≫= f) (g (above after (pending_order (il_messages (ib_log s)) inbox))) s Q.
Proof.
  intros Hg Ha Hend Hstep. eapply sim_runs; [apply (next_pending_runs inbox after); [by apply good_base|by apply good_cache|by apply good_order|done]|].
  cbn beta. intros next s' [-> Hl]. pose proof (pending_order_sorted (il_messages (ib_log s)) inbox) as Hsort.
  destruct (above after _) as [|[seq n] rest] eqn:Habove; cbn [head] in Hl |- *; [by subst s'|].
  destruct (good_loaded _ _ _ Hg Hl) as [Hg' Habs]. split; [done|]. destruct Hl as [_ Hs Ht Hh]. assert (ib_log s' = ib_log s) as Hlog by apply Hs.
  apply above_tail in Habove as Hrest; [|done]. cbn in Hrest. rewrite <-Hrest, <-Hlog.
  assert ((seq, n) ∈ above after (pending_order (il_messages (ib_log s)) inbox)) as [Hin Hlt]%elem_of_above by (rewrite Habove; set_solver).
  apply (elem_of_pending_order (il_last (ib_log s))) in Hin as (r & Hr & Hp & _ & Had); [|by apply good_messages].
  destruct (mso_each _ _ (good_messages s Hg) n r Hr) as [_ H1 H2 _]. apply (Hstep seq n r s'); rewrite ?Hlog, ?Hh; try done. cbn in Hlt. lia.
Qed.

(** The receipts a gate is given for a resident message. *)
Lemma binding_step_sim {B} inbox n r (f : bool -> SM Inbox B) (am : bool -> SM AInbox B) s Q : good s -> held s !! n = Some r -> il_messages (ib_log s) !! n = Some r -> r_value r = Pending ->
  (forall b s', good s' -> ib_log s' = ib_log s -> sim (f b) (am b) s' Q) ->
  sim (binding_step inbox n ≫= f)
    (base ← a_snapshot;
     blocked ← gets (fun a => match a_messages a !! n with
       | Some r => match w_receipts (a_world a n r base) (mkRef n) with Some (_, rows) => bool_decide (rows <> ∅) | None => false end
       | None => false
       end);
     am blocked) s Q.
Proof.
  intros Hg Hn Hm Hp Hf. unfold binding_step. apply sim_assoc, sim_gets. unfold resident, home_get. fold (held s). rewrite Hn, Hp, bool_decide_true by done.
  apply sim_assoc, sim_assoc. eapply sim_runs; [by apply (inputs_of_runs n r)|]. cbn beta. intros i s' (-> & Hnames & Hworld & Hown). split; [done|].
  apply sim_run_bind; [done|]. intros base o. apply sim_spec_gets. change (a_messages (abs (set_observations o s))) with (il_messages (ib_log s)). rewrite Hm.
  set (s2 := set_observations o s). assert (good s2) as Hg2 by (by apply observed_good).
  assert (w_receipts (world_of i base) (mkRef n) = w_receipts (a_world (abs s2) n r base) (mkRef n)) as ->.
  { change (a_world (abs s2) n r base) with (a_world (abs s) n r base). rewrite <-Hworld by (unfold is_open; by rewrite Hp).
    apply (ag_receipts (gi_names i)); [|rewrite Hnames; set_solver]. apply world_of_agree. intros n' v rows Hrec. apply Hown in Hrec as ->. rewrite Hnames. set_solver. }
  apply sim_ret_bind, sim_assoc, sim_trim; [done|]. intros s3 Hg3 Hs3. apply sim_ret_bind, Hf; [done|]. by rewrite (sa_log _ _ (so_same _ _ Hs3)).
Qed.

Lemma blocked_sim fuel inbox after s : good s -> 0 <= after -> (Z.to_nat (il_last (ib_log s) - after) < fuel)%nat ->
  sim (binding_blocked fuel inbox after) (a_blocked (above after (pending_order (il_messages (ib_log s)) inbox))) s (fun _ s' => good s').
Proof.
  revert after s. induction fuel as [|fuel IH]; intros after s Hg Ha Hf; [lia|]. cbn [binding_blocked].
  apply sim_walk; [done|done|by apply sim_ret|]. intros seq n r s' Hg' Hlog Hn Ht Hm Hp Hseq. cbn [a_blocked].
  eapply binding_step_sim; [done|done|done|done|]. intros [] s2 Hg2 Hlog2; [by apply sim_ret|]. rewrite <-Hlog2. apply IH; [done|lia|]. rewrite Hlog2. rewrite <-Hlog in Hf. lia.
Qed.

(** ** Bindings *)

Lemma control_abs s : good s -> a_control (abs s) = ib_control_bytes s.
Proof. intros Hg. unfold a_control. rewrite (ck_control _ _ (good_clock s Hg)). cbn [abs a_bindings a_consumers]. by rewrite map_sum_fmap. Qed.

Lemma set_binding_sim inbox b s : good s -> sim (set_binding inbox b) (a_set_binding limit inbox b) s (fun _ s' => good s').
Proof.
  intros Hg. pose proof (control_abs s Hg) as Hctl. destruct (good_clock s Hg) as [Hn Hc]. unfold set_binding. apply sim_gets, sim_gets.
  set (prev := from_option (fun v => binding_charge inbox (is_binding v)) 0 (ib_bindings s !! inbox)). assert (prev <= ib_control_bytes s) as Hle.
  { unfold prev. destruct (ib_bindings s !! inbox) as [v|] eqn:Hi; cbn; [by eapply bindings_charge_le, Hi; apply good_clock|]. rewrite Hc.
    assert (0 <= map_sum (fun c (_ : P) => receiver_bytes c + 64) (ib_consumers s)) by (apply map_sum_nonneg; intros c p _; pose proof (receiver_bytes_nonneg c); lia).
    assert (0 <= map_sum (fun i v => binding_charge i (is_binding v)) (ib_bindings s)) by (apply map_sum_nonneg; intros i v _; apply binding_charge_nonneg). lia. }
  eapply sim_runs with (R := fun x s' => x = ib_control_bytes s - prev /\ s' = s); [unfold usub; rewrite decide_True by done; by apply runs_ret|].
  intros x s' [-> ->]. split; [done|]. apply sim_gets. rewrite (gd_limit _ Hg). unfold a_set_binding, sim. rewrite Hctl. cbn [abs a_bindings a_version].
  assert (from_option (binding_charge inbox) 0 ((is_binding <$> ib_bindings s) !! inbox) = prev) as -> by (rewrite lookup_fmap; unfold prev; by destruct (ib_bindings s !! inbox)).
  case_bool_decide; cbn [fail lift modify]; [done|]. split; [unfold abs; cbn; by rewrite fmap_insert|]. destruct Hg as [[[] [] [] _ ?] ? ?]. split; [split; [by split..| |done]|done|done].
  split; cbn.
  - intros i. rewrite <-Hn. destruct (decide (i = inbox)) as [->|Hne]; [by rewrite lookup_insert_eq|by rewrite lookup_insert_ne].
  - rewrite map_sum_update, Hc. cbn. fold prev. lia.
Qed.

Lemma bind_sim inbox c s : good s -> sim (bind_locked inbox c) (a_bind limit inbox c) s (fun _ s' => good s').
Proof.
  intros Hg. unfold bind_locked, a_bind. apply sim_gets, sim_spec_gets. change (a_messages (abs s)) with (il_messages (ib_log s)).
  rewrite <-(above_all 0 (pending_order (il_messages (ib_log s)) inbox)).
  2:{ intros [q n] Hin. apply (elem_of_pending_order (il_last (ib_log s))) in Hin as (r & Hr & _ & _ & <-); [|by apply good_messages]. destruct (mso_each _ _ (good_messages s Hg) n r Hr) as [_ ? ? _]. cbn. lia. }
  eapply sim_bind; [apply blocked_sim; [done|done|rewrite (ok_sequence _ (gd_ok _ Hg)); lia]|]. cbn beta. intros [] s1 Hg1; [by apply sim_ret|].
  apply sim_gets, sim_spec_gets. change (a_bindings (abs s1)) with (is_binding <$> ib_bindings s1). rewrite lookup_fmap. apply sim_now. intros t o.
  eapply sim_bind with (R := fun _ s' => good s'); [|intros _ s2 Hg2; by apply sim_ret].
  destruct (ib_bindings s1 !! inbox) as [[[cs|u] k]|]; cbn [from_option fmap option_fmap option_map is_binding]; by apply set_binding_sim, observed_good.
Qed.

Lemma unbind_sim inbox c s : good s -> sim (unbind_locked inbox c) (a_unbind limit inbox c) s (fun _ s' => good s').
Proof.
  intros Hg. unfold unbind_locked, a_unbind. apply sim_gets, sim_spec_gets. change (a_bindings (abs s)) with (is_binding <$> ib_bindings s). rewrite lookup_fmap.
  destruct (ib_bindings s !! inbox) as [[[cs|u] k]|] eqn:Hi; cbn [fmap option_fmap option_map is_binding]; [|by apply sim_ret..].
  destruct (decide (cs ∖ {[c]} = ∅)) as [Hcs|Hcs]; [rewrite !(bool_decide_true _ Hcs)|rewrite !(bool_decide_false _ Hcs)].
  - apply sim_assoc, sim_now. intros t o. apply sim_ret_bind, sim_spec_gets. set (s1 := set_observations o s). assert (good s1) as Hg1 by (by apply observed_good).
    change (a_messages (abs s1)) with (il_messages (ib_log s1)). rewrite <-(ck_count _ _ (good_clock s1 Hg1)). change (ib_bindings s1) with (ib_bindings s). rewrite Hi. cbn [from_option is_count].
    case_bool_decide as Hk; [|by apply set_binding_sim]. apply sim_gets. cbn [from_option is_binding].
    eapply sim_runs with (R := fun x s' => x = ib_control_bytes s1 - binding_charge inbox (Bound cs) /\ s' = s1).
    { unfold usub. rewrite decide_True; [by apply runs_ret|]. exact (bindings_charge_le _ s1 inbox _ (good_clock s1 Hg1) Hi). }
    intros x s' [-> ->]. split; [done|]. split; [unfold abs; cbn; by rewrite fmap_delete|]. destruct (good_clock s1 Hg1) as [Hn Hc].
    destruct Hg1 as [[[] [] [] _ ?] ? ?]. split; [split; [by split..| |done]|done|done]. split; cbn.
    + intros i. rewrite <-Hn. destruct (decide (i = inbox)) as [->|Hne]; [|by rewrite lookup_delete_ne]. rewrite lookup_delete_eq. change (ib_bindings s1) with (ib_bindings s). by rewrite Hi.
    + rewrite map_sum_remove, Hi. cbn in Hc. rewrite Hc. cbn. lia.
  - apply sim_ret_bind. by apply set_binding_sim.
Qed.

Lemma register_sim c p s : good s -> sim (register c p) (a_register limit c p) s (fun _ s' => good s').
Proof.
  intros Hg. pose proof (control_abs s Hg) as Hctl. destruct (good_clock s Hg) as [Hn Hc]. unfold register. apply sim_gets, sim_gets.
  unfold a_register, sim. rewrite Hctl, (gd_limit _ Hg). cbn [abs a_consumers]. set (extra := if bool_decide (is_Some (ib_consumers s !! c)) then 0 else receiver_bytes c + 64).
  destruct (bool_decide (_ > limit)); cbn [fail lift modify]; [done|]. split; [done|]. destruct Hg as [[[] [] [] _ ?] ? ?]. split; [split; [by split..| |done]|done|done].
  split; cbn; [done|]. rewrite map_sum_update, Hc. unfold extra. destruct (ib_consumers s !! c); [rewrite bool_decide_true by done|rewrite (bool_decide_false (is_Some None)) by (by intros [? ?])]; cbn; lia.
Qed.

(** ** Pending messages *)

Lemma pending_sim fuel inbox c rules after s : good s -> 0 <= after -> il_last (ib_log s) < u64_max -> (Z.to_nat (il_last (ib_log s) - after) < fuel)%nat ->
  sim (pending_loop fuel inbox c rules after)
    (a_pending (port_record (L := L)) c rules (above after (pending_order (il_messages (ib_log s)) inbox))) s (fun _ s' => good s').
Proof.
  revert after s. induction fuel as [|fuel IH]; intros after s Hg Ha Hroom Hf; [lia|]. cbn [pending_loop].
  apply sim_walk; [done|done|by apply sim_ret|]. intros seq n r s1 Hg1 Hlog Hn Ht Hm Hp Hseq. rewrite <-Hlog in Hf, Hroom. clear Hlog Hg s.
  cbn [a_pending]. unfold pending_candidate. apply sim_assoc, sim_gets. unfold resident, home_get. fold (held s1). rewrite Hn.
  apply sim_assoc. eapply sim_runs; [by apply (inputs_of_runs n r)|]. cbn beta. intros i s' (-> & Hnames & Hworld & Hown). split; [done|].
  apply sim_assoc, sim_run_bind; [done|]. intros base o. apply sim_assoc, sim_now. intros t o2. apply sim_ret_bind, sim_spec_gets.
  set (s2 := set_observations o2 _). assert (good s2) as Hg2 by (by do 2 apply observed_good).
  change (a_messages (abs s2)) with (il_messages (ib_log s1)). rewrite Hm. cbn [mbind option_bind].
  replace (j_value (resource_judge r (world_of i base) t (pending_for c))) with (is_pending_for r (world_of i base) t c)
    by (unfold resource_judge, is_pending_for; by destruct (pending_for c _)).
  assert (is_pending_for r (world_of i base) t c = is_pending_for r (a_world (abs s2) n r base) t c) as ->.
  { change (a_world (abs s2) n r base) with (a_world (abs s1) n r base). rewrite <-Hworld by (unfold is_open; by rewrite Hp).
    assert (r_name r = n) as Hname by (by apply (mso_each _ _ (good_messages s1 Hg1)) in Hm as [? _ _ _]).
    apply (pending_agree (gi_names i)); [|rewrite Hnames, Hname; set_solver|rewrite Hnames; set_solver].
    apply world_of_agree. intros n' v rows Hrec. apply Hown in Hrec as ->. rewrite Hnames. set_solver. }
  destruct (is_pending_for _ _ _ _).
  - apply sim_assoc. eapply sim_bind with (R := fun _ s' => good s'); [|intros _ s3 Hg3; by apply sim_ret_bind, sim_ret].
    case_bool_decide; cbn [when]; [by apply receive_sim|by apply sim_ret].
  - apply sim_assoc, sim_trim; [done|]. intros s3 Hg3 Hs3. apply sim_ret_bind. pose proof (sa_log _ _ (so_same _ _ Hs3)) as Hl3. change (ib_log s2) with (ib_log s1) in Hl3.
    rewrite <-Hl3. apply IH; [done|lia|by rewrite Hl3|]. rewrite Hl3. lia.
Qed.

(** * The operations *)

(** An access is its operation and a trim of the cache, after which only an
    empty cache is over its budget. *)
Record trimmed s : Prop := {
  tr_good : good s;
  tr_touched : ib_touched s = ∅;
  tr_budget : over_budget s = true -> held s = ∅;
}.
Record implements {A} (m : SM Inbox A) (am : SM AInbox A) s : Prop := {
  im_result : am (abs s) = ((m s).1, abs (m s).2);
  im_trimmed : trimmed (m s).2;
  im_returns : (m s).1 <> Panics;
}.

Lemma access_implements {A} (m : SM Inbox A) (am : SM AInbox A) s : sim m am s (fun _ s' => good s') -> implements (access m) am s.
Proof.
  intros Hs. assert (exists x s', m s = (x, s') /\ am (abs s) = (x, abs s') /\ good s' /\ x <> Panics) as (x & s' & Hm & Ham & Hg & Hx).
  { unfold sim in Hs. destruct (m s) as [[a|e|] s']; [eexists _, s'; naive_solver..|done]. }
  destruct (trim_runs s' (good_cache s' Hg)) as (u & s2 & Htrim & Hc & Hso & Ht & Hb).
  assert (access m s = (x, s2)) as Hacc by (unfold access; rewrite Hm; destruct x; [by rewrite Htrim..|done]).
  split; rewrite Hacc; cbn [fst snd]; [by rewrite Ham, (same_abs s' s2) by apply Hso| |done]. split; [by eapply good_same|done|done].
Qed.
End refine.
