(* ===== verification/InboxCalls.v ===== *)
(** The operations of [InboxBackend] as one interface, served in sequence: the
    inbox of [Inbox] answers any sequence of calls as the specification of
    [InboxSpec] does. *)

From Stdlib Require Import Ascii.
From S2P Require Import Text Encoding Address Names.
From S2P Require Import Prelude Ordered Schema Read Machine Validate Engine Log Home Consumer Message InboxStore Inbox InboxSpec InboxInv InboxRefine.
Import Message.
#[local] Open Scope Z_scope.

(** The methods of [InboxBackend], with the registration of consumers and the
    reading of one message; a call of [bind] is one turn of its loop, and one of
    [pending] is one poll of its stream. *)
Inductive Call (P : Type) : Type :=
| CallGet (message : string)
| CallEnqueue (spec : MessageSpec)
| CallEnqueueAs (spec : MessageSpec) (id : list ascii)
| CallBind (inbox : Address) (consumer : Receiver)
| CallUnbind (inbox : Address) (consumer : Receiver)
| CallPending (inbox : Address) (consumer : Receiver) (rules : list Rule) (after : Z)
| CallReceive (consumer : Receiver) (message : string) (transport : Transport)
| CallDeliver (message : string) (edge : Deliver)
| CallSettle (message : string) (edge : Settle)
| CallDrop (message : string) (reason : DropReason)
| CallRegister (consumer : Receiver) (port : P).
Arguments CallGet {P}.
Arguments CallEnqueue {P}.
Arguments CallEnqueueAs {P}.
Arguments CallBind {P}.
Arguments CallUnbind {P}.
Arguments CallPending {P}.
Arguments CallReceive {P}.
Arguments CallDeliver {P}.
Arguments CallSettle {P}.
Arguments CallDrop {P}.
Arguments CallRegister {P}.

Inductive Answer : Type :=
| RDone
| RName (name : string)
| RMessage (r : option (Resource sig))
| RBound (accepted : bool)
| RPending (item : option (Z * PendingItem)).

Section serve.
Context {St C : Type} (perform : C -> SM St Answer).
(** The answers to a sequence of calls, errors included. *)
Fixpoint serve (calls : list C) (s : St) : list (outcome Answer) * St :=
  match calls with
  | [] => ([], s)
  | c :: calls => let (r, s) := perform c s in let (rs, s) := serve calls s in (r :: rs, s)
  end.
End serve.

Section calls.
Context {L P Ob : Type} `{!Log sig L, !InboxLog L, !InboxLogLaws L, !ConsumerPort P L, !LocalPort P L, !Observations Ob}
  {SV : Supervision} {FZ : Freeze} {RS : Residence} {LC : Lowercase} {SH : Sha256} (writer : string) (limit : Z).
Abbreviation Inbox := (@Inbox.Inbox L P Ob).
Abbreviation AInbox := (@InboxSpec.AInbox P Ob).
Abbreviation good := (good writer limit).
Abbreviation trimmed := (trimmed writer limit).
Abbreviation sim := (sim writer limit).
Implicit Types (s : Inbox).

Definition answered {St A} (f : A -> Answer) (m : SM St A) : SM St Answer := a ← m; mret (f a).
Definition acked {St} (m : SM St unit) : SM St Answer := answered (fun _ => RDone) m.

Definition perform (c : Call P) : SM Inbox Answer :=
  match c with
  | CallGet n => answered RMessage (get n)
  | CallEnqueue spec => answered RName (enqueue spec)
  | CallEnqueueAs spec id => answered RName (enqueue_as spec id)
  | CallBind inbox c => answered RBound (bind_attempt inbox c)
  | CallUnbind inbox c => acked (unbind inbox c)
  | CallPending inbox c rules after => answered RPending (pending_next inbox c rules after)
  | CallReceive c n t => acked (receive c n t)
  | CallDeliver n e => acked (Inbox.deliver n e)
  | CallSettle n e => acked (Inbox.settle n e)
  | CallDrop n reason => acked (Inbox.drop_message n reason)
  | CallRegister c p => acked (register_consumer c p)
  end.
Definition a_perform (c : Call P) : SM AInbox Answer :=
  match c with
  | CallGet n => answered RMessage (a_get n)
  | CallEnqueue spec => answered RName (a_enqueue writer name_for spec)
  | CallEnqueueAs spec id => answered RName (a_enqueue_as writer name_for spec id)
  | CallBind inbox c => answered RBound (a_bind limit inbox c)
  | CallUnbind inbox c => acked (a_unbind limit inbox c)
  | CallPending inbox c rules after => answered RPending (a_pending_next (port_record (L := L)) inbox c rules after)
  | CallReceive c n t => acked (a_receive (port_record (L := L)) c n t)
  | CallDeliver n e => acked (a_apply n (EDeliver e))
  | CallSettle n e => acked (a_apply n (ESettle e))
  | CallDrop n reason => acked (a_drop writer name_for n reason)
  | CallRegister c p => acked (a_register limit c p)
  end.

(** What a call relies on: sequence numbers left for what it may commit (a drop
    commits its dead letter too), an unkeyed name that is not in use, and a
    dropped message whose name is an address. *)
Definition call_ok (c : Call P) (a : AInbox) : Prop :=
  match c with
  | CallEnqueue spec => a_sequence a < u64_max /\ forall n, name_for (inbox spec) (sender spec) (a_sequence a) = Done n -> a_messages a !! n = None
  | CallEnqueueAs _ _ | CallReceive _ _ _ | CallDeliver _ _ | CallSettle _ _ => a_sequence a < u64_max
  | CallPending _ _ _ after => a_sequence a < u64_max /\ 0 <= after
  | CallDrop n _ => a_sequence a + 1 < u64_max /\ is_ok (from_str (tx n)) = true
  | CallGet _ | CallBind _ _ | CallUnbind _ _ | CallRegister _ _ => True
  end.
Fixpoint calls_ok (calls : list (Call P)) (a : AInbox) : Prop :=
  match calls with
  | [] => True
  | c :: calls => call_ok c a /\ calls_ok calls (a_perform c a).2
  end.

(** What a served call leaves. *)
Definition serves {A} (m : SM Inbox A) (am : SM AInbox A) s : Prop :=
  am (abs s) = ((m s).1, abs (m s).2) /\ trimmed (m s).2 /\ (m s).1 <> Panics.
Lemma implements_serves {A} (m : SM Inbox A) (am : SM AInbox A) s : implements writer limit m am s -> serves m am s.
Proof. by intros [? ? ?]. Qed.
Lemma answered_serves {A} (f : A -> Answer) (m : SM Inbox A) (am : SM AInbox A) s : serves m am s -> serves (answered f m) (answered f am) s.
Proof. unfold serves, answered, mbind, sm_bind. intros (-> & Hg & Hp). by destruct (m s) as [[a|e|] s']. Qed.

Lemma get_sim n s : good s -> sim (load n ;; gets (resident n)) (a_get n) s (fun _ s' => good s').
Proof.
  intros Hg. apply sim_load; [done|]. intros s' Hg' [_ Hs _ Hh] Ha. unfold sim, gets, resident, home_get, a_get. fold (held s').
  by rewrite Hh, <-(sa_log _ _ (so_same _ _ Hs)).
Qed.
Lemma enqueue_once_sim spec n s : good s -> il_last (ib_log s) < u64_max ->
  sim (enqueue_once spec n) (known ← a_get n; if bool_decide (is_Some known) then mret n else a_enqueue_named writer name_for spec (Some n)) s (fun _ s' => good s').
Proof.
  intros Hg Hroom. unfold enqueue_once. apply sim_exists; [done|]. case_bool_decide as Hn; [by apply sim_ret|].
  apply enqueue_sim; [done|done|]. cbn. by apply eq_None_not_Some.
Qed.

Lemma perform_serves c s : trimmed s -> call_ok c (abs s) -> serves (perform c) (a_perform c) s.
Proof.
  intros Htr Hc. pose proof (tr_good _ _ _ Htr) as Hg. destruct c; cbn [perform a_perform call_ok] in *; try (apply answered_serves, implements_serves, access_implements).
  - by apply get_sim.
  - destruct Hc. by apply enqueue_sim.
  - apply answered_serves. unfold enqueue_as, a_enqueue_as. pose proof (message_address_returns (inbox spec) id) as Hm.
    destruct (message_address (inbox spec) id) as [n|e|]; [|split; [done|by split]|done]. apply implements_serves.
    exact (access_implements writer limit _ _ s (enqueue_once_sim spec n s Hg Hc)).
  - by apply bind_sim.
  - by apply unbind_sim.
  - destruct Hc as [Hroom Hafter]. unfold pending_locked, a_pending_next. apply sim_gets, sim_spec_gets.
    apply pending_sim; [done|done|done|]. rewrite (ok_sequence _ (gd_ok _ _ _ Hg)). lia.
  - by apply receive_sim.
  - eapply sim_weaken; [by apply apply_sim|]. by intros _ s' [? _].
  - eapply sim_weaken; [by apply apply_sim|]. by intros _ s' [? _].
  - destruct Hc. by apply drop_sim.
  - by apply register_sim.
Qed.

(** The specification and the inbox, call by call. *)
Lemma serve_refines calls s : trimmed s -> calls_ok calls (abs s) ->
  serve a_perform calls (abs s) = ((serve perform calls s).1, abs (serve perform calls s).2) /\
  trimmed (serve perform calls s).2 /\ Forall (fun r => r <> Panics) (serve perform calls s).1.
Proof.
  revert s. induction calls as [|c calls IH]; intros s Hg Hok; cbn [serve]; [done|]. destruct Hok as [Hc Hok].
  destruct (perform_serves c s Hg Hc) as (Ha & Hg' & Hp). rewrite Ha in *. destruct (perform c s) as [r s']. cbn [fst snd] in *.
  destruct (IH s' Hg' Hok) as (-> & Hg2 & Hall). destruct (serve perform calls s') as [rs s2]. split_and!; [done|done|by constructor].
Qed.

(** C4: Served through its caches, budgets, pages and charges, an inbox answers
    any sequence of calls exactly as the specification without them does, errors
    included, and ends in the state the specification ends in; no call panics. *)
Theorem inbox_serves calls s : trimmed s -> calls_ok calls (abs s) ->
  serve a_perform calls (abs s) = ((serve perform calls s).1, abs (serve perform calls s).2) /\
  trimmed (serve perform calls s).2 /\ Forall (fun r => r <> Panics) (serve perform calls s).1.
Proof. apply serve_refines. Qed.

(** * What the cache holds *)

(** C18: After any calls the caches hold what the log holds: every resident
    message is open and is the stored one with its stored receipts, every cached
    order is the pending order of its inbox, every binding counts the open
    messages of its inbox. Each byte counter is exactly the charge of what is
    held, and the budget is exceeded only when no message is resident. *)
Theorem inbox_caches_exact calls s : trimmed s -> calls_ok calls (abs s) ->
  let s' := (serve perform calls s).2 in
  let stored := il_messages (ib_log s') in
  (forall n r, held s' !! n = Some r -> is_open r = true /\ stored !! n = Some r /\ ib_receipts s' !! n = il_receipted (ib_log s') !! n) /\
  (forall inbox rows, ib_inboxes s' !! inbox = Some rows -> rows = pending_index stored inbox) /\
  (forall inbox, from_option is_count 0 (ib_bindings s' !! inbox) = open_count stored inbox) /\
  ib_resident_bytes s' = map_sum (fun n r => resource_bytes r (ib_receipts s' !! n)) (held s') /\
  ib_pending_bytes s' = map_sum (fun inbox rows => inbox_charge inbox + rows_charge inbox rows) (ib_inboxes s') /\
  ib_control_bytes s' = map_sum (fun inbox v => binding_charge inbox (is_binding v)) (ib_bindings s') + map_sum (fun c _ => receiver_bytes c + 64) (ib_consumers s') /\
  (over_budget s' = true -> held s' = ∅).
Proof.
  intros Htr Hok s' stored. destruct (serve_refines calls s Htr Hok) as (_ & Htr' & _). fold s' in Htr'. destruct Htr' as [Hg Ht Hb].
  pose proof (good_cache _ _ _ Hg) as Hc. rewrite Ht in Hc. destruct (good_order _ _ _ Hg) as [Ho1 Ho2]. destruct (good_clock _ _ _ Hg) as [Hk1 Hk2].
  assert (forall n r, held s' !! n = Some r -> is_open r = true /\ exists t, ib_sizes s' !! n = Some (resource_bytes r (ib_receipts s' !! n), t)) as Hch
    by (intros n r Hn; apply (co_charged _ _ Hc n r Hn); set_solver).
  split_and!; try done.
  - intros n r Hn. destruct (Hch n r Hn) as [Hop _]. split_and!; [done|by apply (co_home _ _ Hc)|by apply (co_receipts _ _ Hc n r)].
  - rewrite (co_bytes _ _ Hc). apply map_sum_agree. intros n. destruct (held s' !! n) as [r|] eqn:Hn.
    + destruct (Hch n r Hn) as [_ [t ->]]. done.
    + destruct (ib_sizes s' !! n) as [[b t]|] eqn:Hs; [|done]. apply (co_sizes _ _ Hc) in Hs as [_ [? Hs]]. congruence.
Qed.

(** * At most once *)

Lemma keeps_answered {A} I (f : A -> Answer) (am : SM AInbox A) : keeps I am -> keeps I (answered f am).
Proof. intros Hk. apply keeps_bind; [done|]. intros x. apply keeps_ret. Qed.
Lemma kept_perform I k : (forall o a, I a -> I (a_set_observations o a)) /\ (forall c a, I a -> I (a_set_consumers c a)) /\
  (forall b v a, I a -> I (a_set_bindings b v a)) /\ (forall r i n k a, I a -> I (a_commit (<[n := r]> (a_messages a)) (a_receipts a) i n k a)) /\
  (forall n c t i k a, I a -> (a_receipts a !! n ≫= fun rows => rows !! c) = None ->
    I (a_commit (a_messages a) (<[n := <[c := t]> (default ∅ (a_receipts a !! n))]> (a_receipts a)) i n k (a_set_bindings (a_bindings a) (a_version a + 1) a))) ->
  keeps I (a_perform k).
Proof.
  intros (H1 & H2 & H3 & H4 & H5). destruct k; cbn [a_perform]; unfold acked; apply keeps_answered.
  - apply keeps_gets.
  - by apply keeps_enqueue.
  - apply keeps_bind; [apply keeps_lift|]. intros m. apply keeps_bind; [apply keeps_gets|]. intros known. case_match; [apply keeps_ret|by apply keeps_enqueue].
  - by apply keeps_bind_inbox.
  - by apply keeps_unbind.
  - apply keeps_bind; [apply keeps_gets|]. intros order. by apply keeps_pending.
  - by apply keeps_receive.
  - by apply keeps_apply.
  - by apply keeps_apply.
  - by apply keeps_drop.
  - by apply keeps_register.
Qed.
Lemma keeps_serve (I : AInbox -> Prop) calls a : (forall k, keeps I (a_perform k)) -> I a -> I (serve a_perform calls a).2.
Proof.
  intros HI. revert a. induction calls as [|k calls IH]; intros a Ha; [done|]. cbn. apply (HI k) in Ha. destruct (a_perform k a) as [r a1]. cbn in Ha.
  apply IH in Ha. by destruct (serve a_perform calls a1).
Qed.
Lemma received_serve c n calls (a : AInbox) : received a n c -> received (serve a_perform calls a).2 n c.
Proof. apply (keeps_serve (fun a => received a n c)). intros k. apply kept_perform, received_kept. Qed.
Lemma stored_serve n calls (a : AInbox) : is_Some (a_messages a !! n) -> is_Some (a_messages (serve a_perform calls a).2 !! n).
Proof. apply (keeps_serve (fun a => is_Some (a_messages a !! n))). intros k. apply kept_perform, stored_kept. Qed.

(** The states of three stages of a run: a call, the calls after it and a last one. *)
Lemma serve_stages k calls k' s r s1 rs s2 : trimmed s -> calls_ok (k :: calls ++ [k']) (abs s) -> perform k s = (r, s1) -> serve perform calls s1 = (rs, s2) ->
  trimmed s2 /\ a_perform k (abs s) = (r, abs s1) /\ serve a_perform calls (abs s1) = (rs, abs s2) /\ serves (perform k') (a_perform k') s2.
Proof.
  intros Htr [Hk Hok] Hp Hs. destruct (perform_serves k s Htr Hk) as (Ha & Htr1 & _). rewrite Hp in Ha, Htr1. cbn [fst snd] in Ha, Htr1. rewrite Ha in Hok. cbn [snd] in Hok.
  assert (forall calls s, calls_ok (calls ++ [k']) (abs s) -> trimmed s -> calls_ok calls (abs s) /\ call_ok k' (serve a_perform calls (abs s)).2) as Hsplit.
  { clear. induction calls as [|k calls IH]; intros s Hok Htr; [by destruct Hok|]. destruct Hok as [Hk Hok]. cbn [serve].
    destruct (perform_serves k s Htr Hk) as (Ha & Htr' & _). rewrite Ha in Hok |- *. cbn [snd] in Hok. destruct (IH _ Hok Htr') as [H1 H2].
    split; [split; [done|by rewrite Ha]|]. by destruct (serve a_perform calls _). }
  destruct (Hsplit calls s1 Hok Htr1) as [Hok1 Hok2]. destruct (serve_refines calls s1 Htr1 Hok1) as (Hserve & Htr2 & _).
  rewrite Hs in Hserve, Htr2. cbn [fst snd] in Hserve, Htr2. rewrite Hserve in Hok2. cbn [snd] in Hok2. split_and!; [done|done|done|]. by apply perform_serves.
Qed.

(** The call took the message for the consumer: it recorded a receipt, or it
    handed the message over by a mode that records one. *)
Definition takes (c : Receiver) (n : string) (k : Call P) (r : outcome Answer) : Prop :=
  match k, r with
  | CallReceive c' n' _, Done _ => c' = c /\ n' = n
  | CallPending _ c' _ _, Done (RPending (Some (_, item))) => c' = c /\ pe_message item = n /\ pe_mode item <> Turn
  | _, _ => False
  end.

Lemma named_abs s : good s -> forall n r, a_messages (abs s) !! n = Some r -> r_name r = n.
Proof. intros Hg n r Hr. by apply (mso_each _ _ (good_messages _ _ _ Hg)) in Hr as [? _ _ _]. Qed.
Lemma pending_answer inbox c rules after a q item a' : a_perform (CallPending inbox c rules after) a = (Done (RPending (Some (q, item))), a') ->
  a_pending (port_record (L := L)) c rules (above after (pending_order (a_messages a) inbox)) a = (Done (Some (q, item)), a').
Proof.
  cbn. unfold answered, mbind, sm_bind, a_pending_next, gets. unfold mbind, sm_bind. destruct (a_pending _ _ _ _ _) as [[x|e|] a1]; [|done..]. by intros [= -> ->].
Qed.
Lemma takes_received c n k r s a' : good s -> a_perform k (abs s) = (r, a') -> takes c n k r -> received a' n c.
Proof.
  intros Hg Hk Ht. destruct k; cbn [takes] in Ht; try done.
  - destruct r as [[| | | |[[q item]|]]|e|]; try done. destruct Ht as (<- & <- & Hm). apply pending_answer, pending_yields in Hk as (_ & _ & Hr); [auto|by apply named_abs].
  - destruct r as [x|e|]; try done. destruct Ht as [<- <-]. cbn in Hk. unfold acked, answered, mbind, sm_bind in Hk.
    destruct (a_receive _ _ _ _ _) as [[[]|e|] a1] eqn:Hr; [|done..]. injection Hk as _ <-. by eapply receive_records.
Qed.

(** C5: A message a consumer has taken, by a receipt or by a notification that
    records one, is not handed to that consumer again: no later poll of any of
    its streams gives it, whatever calls come between, and whatever the caches
    have dropped and reloaded meanwhile. *)
Theorem taken_once k calls inbox c rules after n s s1 s2 s3 r rs q item :
  trimmed s -> calls_ok (k :: calls ++ [CallPending inbox c rules after]) (abs s) ->
  perform k s = (r, s1) -> takes c n k r -> serve perform calls s1 = (rs, s2) ->
  perform (CallPending inbox c rules after) s2 = (Done (RPending (Some (q, item))), s3) -> pe_message item <> n.
Proof.
  intros Htr Hok Hp Ht Hs Hl. destruct (serve_stages _ _ _ _ _ _ _ _ Htr Hok Hp Hs) as (Htr2 & Ha & Hserve & Ha2 & _). rewrite Hl in Ha2. cbn [fst snd] in Ha2.
  apply takes_received with (c := c) (n := n) in Ha as Hrec; [|apply Htr|done]. apply (received_serve c n calls) in Hrec. rewrite Hserve in Hrec. cbn [snd] in Hrec.
  apply pending_answer, pending_yields in Ha2 as (_ & Hno & _); [|apply named_abs, Htr2]. intros Heq. by rewrite Heq in Hno.
Qed.

(** * Repeated sends and drops *)

Lemma enqueue_as_answer spec id a x a' : a_perform (CallEnqueueAs spec id) a = (Done x, a') ->
  exists n, message_address (inbox spec) id = Done n /\ x = RName n /\ is_Some (a_messages a' !! n).
Proof.
  cbn. unfold answered, a_enqueue_as. destruct (message_address (inbox spec) id) as [n|e|]; [|done..]. unfold mbind, sm_bind, lift, a_get, gets. intros Hrun.
  exists n. case_bool_decide as Hn; [by injection Hrun as <- <-|]. destruct (a_enqueue_named _ _ _ _ _) as [[m|e|] a1] eqn:He; [|done..]. injection Hrun as <- <-.
  apply enqueue_stores in He as [Hm [t Hms]]. specialize (Hm n eq_refl) as ->. rewrite Hms, lookup_insert_eq. done.
Qed.

(** C20: A send under an id is admitted once. When one has been answered, a
    retry under the same id to the same inbox, after any other calls, names the
    same message and changes nothing: no message, change, binding or receipt. *)
Theorem enqueue_as_once spec spec' id calls s s1 s2 r rs :
  trimmed s -> inbox spec' = inbox spec -> calls_ok (CallEnqueueAs spec id :: calls ++ [CallEnqueueAs spec' id]) (abs s) ->
  perform (CallEnqueueAs spec id) s = (Done r, s1) -> serve perform calls s1 = (rs, s2) ->
  (perform (CallEnqueueAs spec' id) s2).1 = Done r /\ abs (perform (CallEnqueueAs spec' id) s2).2 = abs s2.
Proof.
  intros Htr Hin Hok Hp Hs. destruct (serve_stages _ _ _ _ _ _ _ _ Htr Hok Hp Hs) as (Htr2 & Ha & Hserve & Ha2 & _).
  apply enqueue_as_answer in Ha as (n & Hn & -> & Hst). apply (stored_serve n calls) in Hst. rewrite Hserve in Hst. cbn [snd] in Hst.
  assert (a_perform (CallEnqueueAs spec' id) (abs s2) = (Done (RName n), abs s2)) as Hdone.
  { cbn [a_perform]. unfold answered, a_enqueue_as. rewrite Hin, Hn. unfold mbind, sm_bind, lift, a_get, gets. by rewrite (bool_decide_true _ Hst). }
  rewrite Hdone in Ha2. exact (conj (eq_sym (f_equal fst Ha2)) (eq_sym (f_equal snd Ha2))).
Qed.

(** C19: A message dropped as undeliverable has its dead letter. When the drop is
    accepted, or refused because a first attempt had already dropped the message
    before its reaction failed, the supervisor of the sender has the letter, in
    the inbox and under the name every attempt gives it. *)
Theorem undeliverable_has_letter n to m s r s1 :
  trimmed s -> call_ok (CallDrop n Undeliverable) (abs s) -> supervised (abs s) n to -> dead_letter_name to n = Done m ->
  perform (CallDrop n Undeliverable) s = (r, s1) ->
  r = Done RDone \/ (r = Failed (EMessage (WRefused (MEnded : Refusal sig))) /\ (a_messages (abs s) !! n ≫= fun r => drop_reason (r_value r)) = Some Undeliverable) ->
  is_Some (a_messages (abs s1) !! m) /\ (a_messages (abs s1) !! n ≫= fun r => drop_reason (r_value r)) = Some Undeliverable.
Proof.
  intros Htr Hok Hsup Hm Hp Hr. destruct (perform_serves _ s Htr Hok) as (Ha & _). rewrite Hp in Ha. cbn [fst snd] in Ha. destruct Hok as [_ Hok].
  cbn [a_perform] in Ha. unfold acked, answered in Ha. unfold mbind at 1, sm_bind at 1 in Ha. destruct (a_drop _ _ _ _ _) as [x a1] eqn:Hd.
  assert (a1 = abs s1) as -> by (destruct x; exact (f_equal snd Ha)). apply (f_equal fst) in Ha. cbn [fst] in Ha. apply (drop_leaves_letter _ _ _ _ _ _ _ _ Hsup Hm Hok Hd).
  destruct x as [[]|e|]; cbn in Ha; subst r; [by left|right|]; destruct Hr as [Hr|[Hr Hd']]; naive_solver.
Qed.
End calls.
