(* ===== verification/InboxWatch.v ===== *)
(** The watch stream of an inbox ([crates/flotilla-inbox/src/lib.rs], [watch]):
    pages of the log's changes, filtered to one inbox. A watcher beside an inbox
    that keeps serving calls is given every change of its inbox after its start,
    once and in order. *)

From Stdlib Require Import Ascii.
From stdpp Require Import relations.
From S2P Require Import Text Encoding Address Names.
From S2P Require Import Prelude Ordered Schema Read Machine Validate Engine Log Home Consumer Message InboxStore Inbox InboxSpec InboxInv InboxRefine InboxCalls.
Import Message.
#[local] Open Scope Z_scope.

(** The state [stream::unfold] threads. *)
Record Watcher : Type := mkWatcher { wt_inbox : Address; wt_cursor : Z; wt_buffered : list Change; wt_done : bool }.

(** What a poll comes to; [Waits] sleeps until the next poke. *)
Inductive Polled : Type :=
| Yields (c : Change)
| Breaks (e : InboxError)
| Waits
| Ends.

Section watch.
Context {L : Type} `{!Log sig L, !InboxLog L}.

Definition watch (l : L) (inbox : Address) (after : option Z) : outcome Watcher :=
  latest ← il_sequence l;
  let cursor := default latest after in
  if bool_decide (cursor > latest) then Failed ECursorAhead else Done (mkWatcher inbox cursor [] false).

(** The loop of a poll: a page that advances the cursor is read on. *)
Fixpoint watch_poll (fuel : nat) (l : L) (w : Watcher) : outcome (Polled * Watcher) :=
  if wt_done w then Done (Ends, w)
  else
    match wt_buffered w with
    | c :: rest => Done (Yields c, mkWatcher (wt_inbox w) (wt_cursor w) rest false)
    | [] =>
        match fuel with
        | O => Panics
        | S fuel =>
            match il_changes_since l (wt_cursor w) with
            | Done page =>
                let advanced := bool_decide (cp_through page > wt_cursor w) in
                let w := mkWatcher (wt_inbox w) (cp_through page)
                  (map snd (filter (fun p => p.1 = wt_inbox w) (cp_changes page))) false in
                if advanced then watch_poll fuel l w else Done (Waits, w)
            | Failed e => Done (Breaks e, mkWatcher (wt_inbox w) (wt_cursor w) [] true)
            | Panics => Panics
            end
        end
    end.
End watch.

(** The changes of an inbox after a cursor. *)
Definition changes_of (inbox : Address) (after : Z) (changes : list (Address * Change)) : list Change :=
  map snd (filter (fun p => p.1 = inbox /\ after < ch_cursor p.2) changes).

Section poll.
Context {L : Type} `{!Log sig L, !InboxLog L, !InboxLogLaws L}.
Implicit Types (l : L) (w : Watcher).

(** What the watcher has yet to give. *)
Definition to_give l w : list Change := wt_buffered w ++ changes_of (wt_inbox w) (wt_cursor w) (il_changes l).
Record watch_ok l w : Prop := {
  wo_open : wt_done w = false;
  wo_cursor : 0 <= wt_cursor w <= il_last l;
}.

Lemma changes_of_split inbox after changes page rest : filter (fun p => after < ch_cursor p.2) changes = page ++ rest ->
  changes_of inbox after changes = map snd (filter (fun p => p.1 = inbox) page) ++ map snd (filter (fun p => p.1 = inbox) rest).
Proof.
  intros Hf. unfold changes_of. rewrite <-map_app, <-filter_app, <-Hf, list_filter_filter. done.
Qed.
(** The rest of the changes after a page is what is above its last cursor. *)
Lemma page_rest l after page rest p : il_sound l -> filter (fun p => after < ch_cursor p.2) (il_changes l) = (page ++ [p]) ++ rest ->
  after < ch_cursor p.2 <= il_last l /\ filter (fun q => ch_cursor p.2 < ch_cursor q.2) (il_changes l) = rest.
Proof.
  intros Hl Hf. destruct (sound_changes l Hl) as [Hsort Hbound].
  assert (p ∈ filter (fun p => after < ch_cursor p.2) (il_changes l)) as [Hp Hin]%list_elem_of_filter by (rewrite Hf; set_solver).
  rewrite Forall_forall in Hbound. split; [specialize (Hbound p Hin); lia|].
  set (key := fun p : Address * Change => (ch_cursor p.2, p)). change (StronglySorted by_key (map key (il_changes l))) in Hsort.
  assert (forall a, above a (map key (il_changes l)) = map key (filter (fun q => a < ch_cursor q.2) (il_changes l))) as Hab.
  { intros a. unfold above. clear. induction (il_changes l) as [|q qs IH]; [done|]. cbn [map]. rewrite !filter_cons. cbn [fst key]. rewrite IH. by case_decide. }
  assert (above (ch_cursor p.2) (map key (il_changes l)) = map key rest) as Hr.
  { rewrite <-(above_above after) by lia. rewrite (Hab after), Hf, !map_app. cbn [map]. rewrite <-app_assoc.
    apply (above_last (map key page) (key p) (map key rest)). cbn [app]. pose proof (above_sorted after _ Hsort) as Hs. rewrite (Hab after), Hf, !map_app in Hs. cbn [map] in Hs.
    by rewrite <-app_assoc in Hs. }
  rewrite Hab in Hr. apply (f_equal (map snd)) in Hr. rewrite !map_map in Hr. cbn in Hr. by rewrite !map_id in Hr.
Qed.

(** A poll gives the next change, or waits when there is none; it ends. *)
Lemma poll_gives fuel l w : il_sound l -> watch_ok l w -> (Z.to_nat (il_last l - wt_cursor w) < fuel)%nat ->
  exists w', watch_poll fuel l w = Done (match to_give l w with c :: _ => Yields c | [] => Waits end, w') /\
    watch_ok l w' /\ wt_inbox w' = wt_inbox w /\ to_give l w' = tail (to_give l w).
Proof.
  intros Hl. revert w. induction fuel as [|fuel IH]; intros [inbox cursor buffered d] [Hd Hc] Hf; [lia|]. cbn in Hd, Hc, Hf. subst d.
  unfold to_give. cbn [watch_poll wt_done wt_buffered wt_inbox wt_cursor].
  destruct buffered as [|c rest]; [|eexists; split; [reflexivity|]; by split_and!]. rewrite law_changes by done. cbv zeta. cbn [cp_through cp_changes].
  set (F := filter (fun p => cursor < ch_cursor p.2) (il_changes l)). pose proof (take_drop 16 F) as Hsplit.
  destruct (take 16 F) as [|p0 page0] eqn:Hpage.
  - assert (F = []) as HF by (destruct F; [done|discriminate]). cbn. rewrite bool_decide_false by lia. rewrite (changes_of_split inbox cursor _ [] []) by (unfold F in HF; by rewrite HF). cbn.
    eexists. split; [reflexivity|]. split_and!; [by split|done|]. cbn. by rewrite (changes_of_split inbox cursor _ [] []) by (unfold F in HF; by rewrite HF).
  - destruct (exists_last (l := p0 :: page0)) as (page & p & Hlast); [done|]. rewrite Hlast, last_snoc. cbn [from_option]. rewrite Hlast in Hsplit. unfold F in Hsplit at 2.
    destruct (page_rest l cursor page (drop 16 F) p Hl) as [[Hlt Hle] Hrest]; [done|]. rewrite bool_decide_true by lia.
    set (w' := mkWatcher inbox (ch_cursor p.2) _ false). destruct (IH w') as (w2 & Hrun & Hok & Hin & Hnext); [split; [done|cbn; lia]|cbn; lia|]. exists w2.
    assert (to_give l w' = changes_of inbox cursor (il_changes l)) as Heq.
    { unfold to_give. cbn. rewrite (changes_of_split inbox cursor _ (page ++ [p]) (drop 16 F)) by done. f_equal.
      rewrite (changes_of_split inbox (ch_cursor p.2) _ [] (drop 16 F)) by (by rewrite Hrest). done. }
    rewrite Heq in Hrun, Hnext. cbn [app]. split_and!; [exact Hrun|done|done|exact Hnext].
Qed.
End poll.

(** * A watcher beside its inbox *)

Section system.
Context {L P Ob : Type} `{!Log sig L, !InboxLog L, !InboxLogLaws L, !ConsumerPort P L, !LocalPort P L, !Observations Ob}
  {SV : Supervision} {FZ : Freeze} {RS : Residence} {LC : Lowercase} {SH : Sha256} (writer : string) (limit : Z).
Abbreviation Inbox := (@Inbox.Inbox L P Ob).
Abbreviation AInbox := (@InboxSpec.AInbox P Ob).
Abbreviation trimmed := (trimmed writer limit).
Abbreviation a_perform := (a_perform (L := L) writer limit).
Abbreviation call_ok := (call_ok (L := L)).
Implicit Types (s : Inbox) (w : Watcher).

(** Changes are only added, above every cursor so far. *)
Record grown (a0 a : AInbox) : Prop := {
  gr_changes : exists new, a_changes a = a_changes a0 ++ new /\ Forall (fun p => a_sequence a0 < ch_cursor p.2) new;
  gr_sequence : a_sequence a0 <= a_sequence a;
}.
Lemma grown_kept a0 : (forall o a, grown a0 a -> grown a0 (a_set_observations o a)) /\ (forall c a, grown a0 a -> grown a0 (a_set_consumers c a)) /\
  (forall b v a, grown a0 a -> grown a0 (a_set_bindings b v a)) /\ (forall r i n k a, grown a0 a -> grown a0 (a_commit (<[n := r]> (a_messages a)) (a_receipts a) i n k a)) /\
  (forall n c t i k a, grown a0 a -> (a_receipts a !! n ≫= fun rows => rows !! c) = None ->
    grown a0 (a_commit (a_messages a) (<[n := <[c := t]> (default ∅ (a_receipts a !! n))]> (a_receipts a)) i n k (a_set_bindings (a_bindings a) (a_version a + 1) a))).
Proof.
  assert (forall m rec i n k a, grown a0 a -> grown a0 (a_commit m rec i n k a)) as Hc.
  { intros m rec i n k a [(new & Hn & Hf) Hs]. split; cbn; [|lia]. exists (new ++ [(i, mkChange (a_sequence a + 1) n k)]). rewrite Hn, app_assoc. split; [done|].
    apply Forall_app. split; [done|]. repeat constructor. cbn. lia. }
  split_and!; [by intros o a []; split|by intros c a []; split|by intros b v a []; split|by intros; apply Hc|]. intros n c t i k a Hg _. apply Hc. destruct Hg; by split.
Qed.
Lemma perform_grows k s : trimmed s -> call_ok k (abs s) -> trimmed (perform k s).2 /\ grown (abs s) (abs (perform k s).2).
Proof.
  intros Htr Hok. destruct (perform_serves writer limit k s Htr Hok) as (Ha & Htr' & _). split; [done|].
  assert (grown (abs s) (a_perform k (abs s)).2) as Hg; [|by rewrite Ha in Hg].
  apply (kept_perform writer limit (grown (abs s)) k (grown_kept (abs s))). split; [exists []; by rewrite app_nil_r|lia].
Qed.

(** Calls on the inbox and polls of the watcher, in any order, with what the
    watcher has been given so far. *)
Inductive wstep : Inbox * Watcher * list Change -> Inbox * Watcher * list Change -> Prop :=
| ws_call k s w seen : call_ok k (abs s) -> wstep (s, w, seen) ((perform k s).2, w, seen)
| ws_poll fuel s w p w' seen : (Z.to_nat (il_last (ib_log s)) < fuel)%nat -> watch_poll fuel (ib_log s) w = Done (p, w') ->
    wstep (s, w, seen) (s, w', match p with Yields c => seen ++ [c] | _ => seen end).

Lemma grown_to_give s s' w : grown (abs s) (abs s') -> watch_ok (ib_log s) w -> watch_ok (ib_log s') w /\
  forall seen start, start <= il_last (ib_log s) -> seen ++ to_give (ib_log s) w = changes_of (wt_inbox w) start (il_changes (ib_log s)) ->
    seen ++ to_give (ib_log s') w = changes_of (wt_inbox w) start (il_changes (ib_log s')).
Proof.
  intros [(new & Hn & Hf) Hs] [Hd Hc]. cbn in Hn, Hf, Hs. split; [split; [done|lia]|]. intros seen start Hstart Heq. unfold to_give in *. rewrite Hn.
  assert (forall x, x <= il_last (ib_log s) -> changes_of (wt_inbox w) x (il_changes (ib_log s) ++ new) =
    changes_of (wt_inbox w) x (il_changes (ib_log s)) ++ map snd (filter (fun p => p.1 = wt_inbox w) new)) as Hall.
  { intros x Hx. unfold changes_of. rewrite filter_app, map_app. do 2 f_equal. clear -Hf Hx. induction Hf as [|p new Hp _ IH]; [done|]. rewrite !filter_cons, IH.
    destruct (decide (p.1 = wt_inbox w)); [rewrite decide_True by (split; [done|lia]); done|by rewrite decide_False by (by intros [? _])]. }
  rewrite !Hall by lia. by rewrite !app_assoc, <-(app_assoc seen), Heq.
Qed.

Lemma watch_reaches inbox after s0 w0 : trimmed s0 -> 0 <= default 0 after -> watch (ib_log s0) inbox after = Done w0 ->
  forall s w seen, rtc wstep (s0, w0, []) (s, w, seen) ->
  trimmed s /\ watch_ok (ib_log s) w /\ wt_inbox w = inbox /\ default (il_last (ib_log s0)) after <= il_last (ib_log s) /\
  seen ++ to_give (ib_log s) w = changes_of inbox (default (il_last (ib_log s0)) after) (il_changes (ib_log s)).
Proof.
  intros Htr Hafter Hw. pose proof (good_base _ _ _ (tr_good _ _ _ Htr)) as [Hl _]. unfold watch in Hw. rewrite law_sequence in Hw by done. cbn in Hw.
  case_bool_decide as Hahead; [done|]. injection Hw as <-. set (start := default (il_last (ib_log s0)) after) in *.
  pose (Inv := fun x : Inbox * Watcher * list Change => let '(s, w, seen) := x in
    trimmed s /\ watch_ok (ib_log s) w /\ wt_inbox w = inbox /\ start <= il_last (ib_log s) /\ seen ++ to_give (ib_log s) w = changes_of inbox start (il_changes (ib_log s))).
  intros s w seen Hr. change (Inv (s, w, seen)). revert Hr. generalize (s, w, seen). clear s w seen. apply (rtc_ind_r Inv).
  - cbn. split_and!; [done| |done|lia|done]. split; [done|]. cbn. destruct (sound_seq _ Hl) as [? _]. unfold start in *. destruct after; cbn in *; lia.
  - intros y z _ Hst Hy. destruct y as [[s1 w1] seen1]. destruct Hy as (Htr1 & Hok1 & Hin1 & Hst1 & Heq1). inversion Hst; subst.
    + destruct (perform_grows k s1) as [Htr2 Hg2]; [done|done|]. destruct (grown_to_give s1 _ w1 Hg2 Hok1) as [Hok2 Hgive]. pose proof (gr_sequence _ _ Hg2) as Hq. cbn in Hq.
      split_and!; [done|done|done|lia|by apply Hgive].
    + destruct (good_base _ _ _ (tr_good _ _ _ Htr1)) as [Hl1 _].
      destruct (poll_gives fuel (ib_log s1) w1 Hl1 Hok1) as (w2 & Hrun & Hok2 & Hin2 & Hnext); [destruct Hok1; lia|]. rewrite Hrun in *. simplify_eq.
      split_and!; [done|done|done|done|]. rewrite Hnext, <-Heq1. destruct (to_give (ib_log s1) w1); [by rewrite !app_nil_r|]. cbn. by rewrite <-app_assoc.
Qed.

(** C6: Whatever calls the inbox serves and whenever the watcher is polled, what
    it has been given and what it still holds or can read are together exactly
    the changes of its inbox after its starting cursor, in commit order: none is
    lost, repeated or out of order, across pages and waits; and the watcher
    does not break. *)
Theorem watch_exact inbox after s0 w0 s w seen : trimmed s0 -> 0 <= default 0 after -> watch (ib_log s0) inbox after = Done w0 ->
  rtc wstep (s0, w0, []) (s, w, seen) ->
  seen ++ to_give (ib_log s) w = changes_of inbox (default (il_last (ib_log s0)) after) (il_changes (ib_log s)) /\ wt_done w = false.
Proof. intros Htr Ha Hw Hr. by destruct (watch_reaches inbox after s0 w0 Htr Ha Hw s w seen Hr) as (_ & [] & _ & _ & ?). Qed.

(** The polls of a watcher while nothing else commits. *)
Fixpoint drain (polls fuel : nat) (l : L) w : list Change * Watcher :=
  match polls with
  | O => ([], w)
  | S polls =>
      match watch_poll fuel l w with
      | Done (Yields c, w) => let (cs, w) := drain polls fuel l w in (c :: cs, w)
      | Done (_, w) => drain polls fuel l w
      | _ => ([], w)
      end
  end.
Lemma drain_gives polls fuel (l : L) w : il_sound l -> watch_ok l w -> (Z.to_nat (il_last l) < fuel)%nat -> (length (to_give l w) <= polls)%nat ->
  (drain polls fuel l w).1 = to_give l w /\ watch_ok l (drain polls fuel l w).2 /\ to_give l (drain polls fuel l w).2 = [].
Proof.
  intros Hl. revert w. induction polls as [|polls IH]; intros w Hok Hf Hlen; cbn [drain].
  - cbn [fst snd]. destruct (to_give l w); [by split_and!|cbn in Hlen; lia].
  - destruct (poll_gives fuel l w Hl Hok) as (w' & Hrun & Hok' & _ & Hnext); [destruct Hok; lia|]. rewrite Hrun. destruct (to_give l w) as [|c rest]; cbn in Hnext, Hlen.
    + destruct (IH w') as (H1 & H2 & H3); [done|done|by rewrite Hnext; cbn; lia|]. by rewrite H1, Hnext.
    + destruct (IH w') as (H1 & H2 & H3); [done|done|rewrite Hnext; lia|]. destruct (drain polls fuel l w') as [cs w2]. cbn in *. by rewrite H1, Hnext.
Qed.

(** C22: A watcher that keeps being polled catches up. Wherever calls and polls
    have brought it, as many further polls as the log has changes give it every
    change of its inbox after its start, and the next poll waits. *)
Theorem watch_catches_up inbox after s0 w0 s w seen fuel : trimmed s0 -> 0 <= default 0 after -> watch (ib_log s0) inbox after = Done w0 ->
  rtc wstep (s0, w0, []) (s, w, seen) -> (Z.to_nat (il_last (ib_log s)) < fuel)%nat ->
  let (given, w') := drain (length (il_changes (ib_log s))) fuel (ib_log s) w in
  seen ++ given = changes_of inbox (default (il_last (ib_log s0)) after) (il_changes (ib_log s)) /\
  exists w'', watch_poll fuel (ib_log s) w' = Done (Waits, w'').
Proof.
  intros Htr Ha Hw Hr Hf. destruct (watch_reaches inbox after s0 w0 Htr Ha Hw s w seen Hr) as (Htr' & Hok & _ & _ & Heq).
  destruct (good_base _ _ _ (tr_good _ _ _ Htr')) as [Hl _]. destruct (drain_gives (length (il_changes (ib_log s))) fuel (ib_log s) w Hl Hok Hf) as (H1 & H2 & H3).
  - apply (f_equal length) in Heq. rewrite length_app in Heq. unfold changes_of in Heq at 1. rewrite length_map in Heq. pose proof (length_filter (fun p => p.1 = inbox /\ default (il_last (ib_log s0)) after < ch_cursor p.2) (il_changes (ib_log s))) as Hlen. lia.
  - destruct (drain _ _ _ _) as [given w']. cbn [fst snd] in *. split; [by rewrite H1|].
    destruct (poll_gives fuel (ib_log s) w' Hl H2) as (w2 & Hrun & _); [destruct H2; lia|]. rewrite H3 in Hrun. by exists w2.
Qed.
End system.
