(* ===== verification/InboxRecover.v ===== *)
(** Opening an inbox over a log it did not write: the start-up pages count the
    open messages, complete the dead letters a stopped process left undone and
    rebuild the pending orders, and the inbox they leave satisfies the invariant
    every operation keeps. *)

From Stdlib Require Import Ascii.
From S2P Require Import Text Encoding Address Names.
From S2P Require Import Prelude Ordered Schema Read Machine Validate Engine Log Home Consumer Message InboxStore Inbox InboxSpec InboxInv InboxRefine.
Import Message.
#[local] Open Scope Z_scope.

Section recover.
Context {L P Ob : Type} `{!Log sig L, !InboxLog L, !InboxLogLaws L, !ConsumerPort P L, !Observations Ob}
  {SV : Supervision} {FZ : Freeze} {RS : Residence} {LC : Lowercase} {SH : Sha256}.
Abbreviation Inbox := (@Inbox.Inbox L P Ob).
Implicit Types (s : Inbox).

(** * Orders that are only charged *)

(** While pages are read, a cached order may lack messages; its bytes are exact. *)
Definition orders_charged s : Prop := ib_pending_bytes s = map_sum (fun inbox rows => inbox_charge inbox + rows_charge inbox rows) (ib_inboxes s).
Lemma charged_le s inbox rows : orders_charged s -> ib_inboxes s !! inbox = Some rows -> inbox_charge inbox + rows_charge inbox rows <= ib_pending_bytes s.
Proof.
  intros Hb Hi. rewrite Hb. refine (map_sum_le (fun inbox rows => inbox_charge inbox + rows_charge inbox rows) _ inbox rows _ Hi).
  intros k v _. pose proof (inbox_charge_nonneg k). pose proof (rows_charge_nonneg k v). lia.
Qed.
Lemma evict_charged inbox s : orders_charged s -> runs (evict_pending inbox) s (fun _ s' => orders_charged s' /\ reordered s s' /\ ib_inboxes s' = delete inbox (ib_inboxes s)).
Proof.
  intros Hb. unfold evict_pending. apply runs_gets. destruct (ib_inboxes s !! inbox) as [rows|] eqn:Hi.
  - apply runs_gets, runs_usub; [by apply charged_le|]. eexists _, _. split; [reflexivity|]. split_and!; [|by split|done].
    unfold orders_charged in *. cbn. rewrite map_sum_remove, Hi, Hb. done.
  - apply runs_ret. split_and!; [done|done|by rewrite delete_id].
Qed.
Lemma index_charged inbox seq n s : orders_charged s -> runs (index_pending inbox seq n) s (fun _ s' => orders_charged s' /\ reordered s s' /\ dom (ib_inboxes s') ⊆ dom (ib_inboxes s)).
Proof.
  intros Hb. unfold index_pending. apply runs_gets. destruct (ib_inboxes s !! inbox) as [rows|] eqn:Hi; [|by apply runs_ret].
  case_bool_decide as Hs; [by apply runs_ret|]. apply runs_gets. destruct (over_pending _ s).
  - eapply runs_weaken; [by apply evict_charged|]. cbn beta. intros [] s' (? & ? & ->). split_and!; [done|done|rewrite dom_delete_L; set_solver].
  - eexists _, _. split; [reflexivity|]. split_and!; [|by split|cbn; rewrite dom_insert_L; apply elem_of_dom_2 in Hi; set_solver].
    unfold orders_charged in *. cbn. rewrite map_sum_update, Hi, Hb. cbn. unfold rows_charge. rewrite map_sum_insert by (by apply eq_None_not_Some). lia.
Qed.

(** * Caching a pending order *)

Lemma last_cons_from {A B} (f : A -> B) x l b : from_option f b (last (x :: l)) = from_option f (f x) (last l).
Proof. by destruct l as [|y l] using rev_ind; [|rewrite app_comm_cons, !last_snoc]. Qed.
Lemma cache_page_spec inbox keys seen charge after s : NoDup (seen ++ keys).*1 -> charge = inbox_charge inbox + rows_charge inbox (list_to_map seen) ->
  match cache_page inbox keys charge (list_to_map seen) after s with
  | Some (charge', rows', after') =>
      rows' = list_to_map (seen ++ keys) /\ charge' = inbox_charge inbox + rows_charge inbox rows' /\ after' = from_option fst after (last keys)
  | None => True
  end.
Proof.
  revert seen charge after. induction keys as [|[q n] keys IH]; intros seen charge after Hd ->; cbn [cache_page]; [by rewrite app_nil_r|].
  destruct (over_pending _ s); [done|]. assert (q ∉ seen.*1) as Hq.
  { rewrite fmap_app, NoDup_app in Hd. destruct Hd as (_ & Hd & _). intros Hin. apply (Hd q Hin). cbn. set_solver. }
  rewrite <-list_to_map_snoc by done. specialize (IH (seen ++ [(q, n)]) (inbox_charge inbox + rows_charge inbox (list_to_map seen) + pending_charge inbox n false) q).
  rewrite last_cons_from. rewrite <-app_assoc in IH. apply IH; [done|]. unfold rows_charge. rewrite list_to_map_snoc, map_sum_insert by (done || by apply not_elem_of_list_to_map). lia.
Qed.

Lemma keys_NoDup (l : list (Z * string)) : StronglySorted by_key l -> NoDup l.*1.
Proof.
  induction 1 as [|[k v] l _ IH Hall]; cbn; [constructor|]. constructor; [|done]. intros (p & -> & Hp)%list_elem_of_fmap.
  rewrite Forall_forall in Hall. apply Hall in Hp. unfold by_key in Hp. cbn in Hp. lia.
Qed.

(** The pages are the order, whatever is left of the budget. *)
Lemma cache_pages_runs fuel inbox seen charge after s : base_ok s -> 0 <= after -> (Z.to_nat (il_last (ib_log s) - after) < fuel)%nat ->
  let full := pending_order (il_messages (ib_log s)) inbox in
  full = seen ++ above after full -> charge = inbox_charge inbox + rows_charge inbox (list_to_map seen) ->
  runs (cache_pages fuel inbox charge (list_to_map seen) after) s (fun cached s' => s' = s /\
    match cached with
    | Some (charge', rows') => rows' = pending_index (il_messages (ib_log s)) inbox /\ charge' = inbox_charge inbox + rows_charge inbox rows'
    | None => True
    end).
Proof.
  intros Hb. revert seen charge after. induction fuel as [|fuel IH]; intros seen charge after Ha Hf full Hfull Hc; [lia|]. cbn [cache_pages].
  pose proof (pending_order_sorted (il_messages (ib_log s)) inbox) as Hsort. fold full in Hsort.
  assert (list_to_map full = pending_index (il_messages (ib_log s)) inbox) as Hidx.
  { apply map_eq. intros q. apply option_eq. intros n. rewrite <-elem_of_list_to_map by (by apply keys_NoDup). unfold full, pending_order. apply elem_of_map_iter. }
  eapply runs_read; [by apply law_pending_keys; [apply Hb|]|]. fold full. change (clamped 32) with 32%nat.
  pose proof (take_drop 32 (above after full)) as Hsplit. destruct (take 32 (above after full)) as [|p0 page0] eqn:Hpage.
  { assert (above after full = []) as Hnil by (destruct (above after full); [done|discriminate]). rewrite Hnil, app_nil_r in Hfull. apply runs_ret. split_and!; [done|by rewrite <-Hfull|done]. }
  rewrite <-Hpage. set (keys := take 32 (above after full)) in *. apply runs_gets.
  assert (NoDup (seen ++ keys).*1) as Hd.
  { pose proof (keys_NoDup _ Hsort) as Hd. rewrite Hfull, <-Hsplit, <-Hpage, app_assoc, fmap_app in Hd. by apply NoDup_app in Hd as [? _]. }
  pose proof (cache_page_spec inbox keys seen charge after s Hd Hc) as Hspec. destruct (cache_page _ _ _ _ _ _) as [[[charge' rows'] after']|]; [|by apply runs_ret].
  destruct Hspec as (-> & -> & ->). destruct (length keys <? 32)%nat eqn:Hlen.
  - apply Nat.ltb_lt in Hlen. apply runs_ret. assert (drop 32 (above after full) = []) as Hdrop by (apply drop_ge; unfold keys in Hlen; rewrite length_take in Hlen; lia).
    rewrite Hdrop, app_nil_r, <-Hpage in Hsplit. split_and!; [done| |done]. by rewrite Hsplit, <-Hfull.
  - destruct (exists_last (l := p0 :: page0)) as (page & p & Hlast); [done|]. rewrite <-Hpage in Hlast. rewrite Hlast, last_snoc. cbn [from_option].
    assert (p ∈ above after full) as [Hin Hlt]%elem_of_above by (rewrite <-Hsplit, <-Hpage; fold keys; rewrite Hlast; set_solver).
    destruct p as [q n]. cbn [fst] in *. apply (elem_of_pending_order (il_last (ib_log s))) in Hin as (r & Hr & _ & _ & <-); [|by apply sound_messages, Hb].
    destruct (stored_ok s n r Hb Hr) as [_ H1 H2 _]. rewrite <-Hlast. apply IH; [lia|lia| |done]. fold full.
    assert (above (r_admitted r) full = drop 32 (above after full)) as ->; [|by rewrite <-app_assoc, Hpage, Hsplit].
    assert (above after full = page ++ [(r_admitted r, n)] ++ drop 32 (above after full)) as Heq by (by rewrite app_assoc, <-Hlast, Hpage).
    rewrite <-(above_above after) by lia. rewrite Heq at 1. apply (above_last page (r_admitted r, n)). rewrite <-Heq. by apply above_sorted.
Qed.

Lemma cache_pending_runs inbox s : base_ok s -> orders_charged s -> ib_sequence s = il_last (ib_log s) ->
  runs (cache_pending inbox) s (fun _ s' => orders_charged s' /\ reordered s s' /\ (forall j, j <> inbox -> ib_inboxes s' !! j = ib_inboxes s !! j) /\
    (forall rows, ib_inboxes s' !! inbox = Some rows -> rows = pending_index (il_messages (ib_log s)) inbox)).
Proof.
  intros Hb Ho Hq. unfold cache_pending. eapply runs_bind; [by apply evict_charged|]. cbn beta. intros [] s1 (Ho1 & Hr1 & Hi1).
  pose proof (sa_log _ _ (re_same _ _ Hr1)) as Hlog. pose proof (same_base _ _ (re_same _ _ Hr1) Hb) as Hb1.
  assert ((forall j, j <> inbox -> ib_inboxes s1 !! j = ib_inboxes s !! j) /\ ib_inboxes s1 !! inbox = None) as [Hother Hnone].
  { rewrite Hi1. split; [intros j Hj; by rewrite lookup_delete_ne|apply lookup_delete_eq]. }
  apply runs_gets. destruct (over_pending _ s1); [apply runs_ret; split_and!; [done|done|done|congruence]|].
  apply runs_gets. rewrite (sa_sequence _ _ (re_same _ _ Hr1)), Hq, <-Hlog.
  eapply runs_bind.
  { apply (cache_pages_runs _ inbox [] (inbox_charge inbox) 0 s1); [done|done|lia| |cbn; unfold rows_charge; rewrite map_sum_empty; lia]. symmetry. apply above_all.
    intros [q n] Hin. apply (elem_of_pending_order (il_last (ib_log s1))) in Hin as (r & Hr & _ & _ & <-); [|by apply sound_messages, Hb1]. destruct (stored_ok s1 n r Hb1 Hr) as [_ ? _ _]. cbn. lia. }
  cbn beta. intros cached s2 [-> Hc]. destruct cached as [[charge rows]|]; [|apply runs_ret; split_and!; [done|done|done|congruence]].
  destruct Hc as [-> ->]. eexists _, _. split; [reflexivity|]. split_and!.
  - unfold orders_charged in *. cbn. rewrite map_sum_insert, Ho1 by done. lia.
  - etrans; [exact Hr1|]. by split.
  - intros j Hj. cbn. rewrite lookup_insert_ne by done. by apply Hother.
  - intros rows. cbn. rewrite lookup_insert_eq. by intros [= <-].
Qed.

Lemma cache_all_runs l s : base_ok s -> orders_charged s -> ib_sequence s = il_last (ib_log s) ->
  runs (for_each cache_pending l) s (fun _ s' => orders_charged s' /\ reordered s s' /\
    forall j rows, ib_inboxes s' !! j = Some rows -> rows = pending_index (il_messages (ib_log s)) j \/ ((j ∉ l) /\ ib_inboxes s !! j = Some rows)).
Proof.
  revert s. induction l as [|i l IH]; intros s Hb Ho Hq; cbn [for_each].
  { apply runs_ret. split_and!; [done|done|]. intros j rows Hj. right. split; [set_solver|done]. }
  eapply runs_bind; [by apply cache_pending_runs|]. cbn beta. intros [] s1 (Ho1 & Hr1 & Hother & Hi). pose proof (re_same _ _ Hr1) as Hs1.
  eapply runs_weaken; [apply IH; [by eapply same_base|done|by rewrite (sa_sequence _ _ Hs1), (sa_log _ _ Hs1)]|]. cbn beta. intros [] s2 (Ho2 & Hr2 & Hall).
  split_and!; [done|by etrans|]. intros j rows Hj. rewrite (sa_log _ _ Hs1) in Hall. destruct (Hall j rows Hj) as [->|[Hnin Hj1]]; [by left|].
  destruct (decide (j = i)) as [->|Hne]; [left; by apply Hi|]. right. rewrite Hother in Hj1 by done. split; [set_solver|done].
Qed.

(** * Reading the start-up pages *)

(** [m] runs and [Q] holds, or it fails in the storage. *)
Definition stores {A} (m : SM Inbox A) s (Q : A -> Inbox -> Prop) : Prop :=
  match m s with
  | (Done a, s') => Q a s'
  | (Failed e, _) => exists what, e = EStorage what
  | (Panics, _) => False
  end.
Lemma stores_bind {A B} (m : SM Inbox A) (f : A -> SM Inbox B) s Q R : stores m s R -> (forall a s', R a s' -> stores (f a) s' Q) -> stores (m ≫= f) s Q.
Proof. unfold stores, mbind, sm_bind. destruct (m s) as [[a|e|] s']; [|done..]. intros HR Hf. by apply Hf. Qed.
Lemma stores_runs {A B} (m : SM Inbox A) (f : A -> SM Inbox B) s Q R : runs m s R -> (forall a s', R a s' -> stores (f a) s' Q) -> stores (m ≫= f) s Q.
Proof. intros (a & s' & Hm & HR) Hf. unfold stores, mbind, sm_bind. rewrite Hm. by apply Hf. Qed.
Lemma stores_weaken {A} (m : SM Inbox A) s (Q R : A -> Inbox -> Prop) : stores m s Q -> (forall a s', Q a s' -> R a s') -> stores m s R.
Proof. unfold stores. destruct (m s) as [[a|e|] s']; [|done..]. auto. Qed.
Lemma runs_stores {A} (m : SM Inbox A) s Q : runs m s Q -> stores m s Q.
Proof. intros (a & s' & Hm & HQ). unfold stores. by rewrite Hm. Qed.
Lemma stores_step {A B} (m : SM Inbox A) (f : A -> SM Inbox B) a s s' Q : m s = (Done a, s') -> stores (f a) s' Q -> stores (m ≫= f) s Q.
Proof. intros Hm Hf. unfold stores, mbind, sm_bind. by rewrite Hm. Qed.
Lemma stores_failed {A B} (m : SM Inbox A) (f : A -> SM Inbox B) what s s' Q : m s = (Failed (EStorage what), s') -> stores (m ≫= f) s Q.
Proof. intros Hm. unfold stores, mbind, sm_bind. rewrite Hm. by eexists. Qed.
Lemma stores_gets {A B} (g : Inbox -> A) (f : A -> SM Inbox B) s Q : stores (f (g s)) s Q -> stores (gets g ≫= f) s Q.
Proof. done. Qed.

Section reading.
Context (log0 : L) (sequence budget pending_budget : Z) (writer : string).

(** The messages counted so far: those up to the scan, and those this opening adds. *)
Definition scanned (a : Z) (r : Resource sig) : Prop := r_admitted r <= a \/ sequence < r_admitted r.

(** Between two messages of the start-up pages, with [a] the last one read. *)
Record reading (a : Z) s : Prop := {
  rd_base : base_ok s;
  rd_cache : cache_ok (ib_touched s) s;
  rd_clock : exists counted, clock_ok counted s /\ forall n r, counted !! n = Some r <-> il_messages (ib_log s) !! n = Some r /\ scanned a r;
  rd_orders : orders_charged s;
  rd_bound : forall inbox, is_Some (ib_inboxes s !! inbox) -> is_Some (ib_bindings s !! inbox);
  rd_unbound : forall inbox v, ib_bindings s !! inbox = Some v -> exists t, is_binding v = Unbound t;
  rd_sequence : ib_sequence s = il_last (ib_log s);
  rd_last : sequence <= il_last (ib_log s) <= sequence + Z.min a sequence;
  rd_kept : forall n r, il_messages log0 !! n = Some r -> il_messages (ib_log s) !! n = Some r;
  rd_new : forall n r, il_messages (ib_log s) !! n = Some r -> il_messages log0 !! n = Some r \/ sequence < r_admitted r;
  rd_receipted : il_receipted (ib_log s) = il_receipted log0;
  rd_consumers : ib_consumers s = ∅;
  rd_writer : home_writer (ib_home s) = writer;
  rd_budget : ib_budget s = budget;
}.

(** The letter a dropped message is owed is there. *)
Definition lettered (m : gmap string (Resource sig)) (n : string) (r : Resource sig) : Prop :=
  drop_reason (r_value r) = Some Undeliverable -> forall to letter,
  supervisor (sender (r_message r)) = Some to -> to <> sender (r_message r) -> dead_letter_name to n = Done letter -> is_Some (m !! letter).

(** The next message of the scan. *)
Record next_message (a q : Z) (n : string) (r : Resource sig) s : Prop := {
  nx_stored : il_messages (ib_log s) !! n = Some r;
  nx_admitted : r_admitted r = q;
  nx_above : a < q;
  nx_next : forall n' r', il_messages (ib_log s) !! n' = Some r' -> a < r_admitted r' <= q -> n' = n;
}.
Lemma next_of_order a q n rest s : base_ok s -> above a (admission_order (il_messages (ib_log s))) = (q, n) :: rest ->
  exists r, next_message a q n r s.
Proof.
  intros Hb Habove. pose proof (sound_messages _ (bo_sound _ Hb)) as Hm.
  assert ((q, n) ∈ above a (admission_order (il_messages (ib_log s)))) as [Hin Hlt]%elem_of_above by (rewrite Habove; set_solver).
  unfold admission_order in Hin. apply (elem_of_index _ (il_last (ib_log s))) in Hin as (r & Hr & _ & Had); [|done]. exists r. split; [done|done|done|].
  intros n' r' Hr' [H1 H2]. assert ((r_admitted r', n') ∈ above a (admission_order (il_messages (ib_log s)))) as Hin.
  { apply elem_of_above. split; [|done]. unfold admission_order. apply (elem_of_index _ (il_last (ib_log s))); [done|]. by exists r'. }
  rewrite Habove in Hin. apply elem_of_cons in Hin as [[= _ ->]|Hin]; [done|]. exfalso.
  pose proof (above_sorted a _ (map_iter_by_key (index_by (fun _ => true) (il_messages (ib_log s))))) as Hs. unfold admission_order in Habove. rewrite Habove in Hs.
  apply StronglySorted_inv in Hs as [_ Hs]. rewrite Forall_forall in Hs. apply Hs in Hin. unfold by_key in Hin. cbn in Hin. lia.
Qed.
Lemma scanned_next a q n r s n' r' : next_message a q n r s -> il_messages (ib_log s) !! n' = Some r' -> scanned q r' <-> scanned a r' \/ n' = n.
Proof.
  intros [Hr Had Hlt Hn] Hr'. unfold scanned. split.
  - intros [Hq|Hq]; [|auto]. destruct (decide (r_admitted r' <= a)); [auto|]. right. apply (Hn n' r' Hr'). lia.
  - intros [[?|?]| ->]; [left; lia|by right|]. left. rewrite Hr in Hr'. injection Hr' as <-. lia.
Qed.

(** Reading a message that is not counted changes nothing yet. *)
Lemma reading_advance a q n r s : reading a s -> next_message a q n r s -> is_open r = false \/ sequence < q -> reading q s.
Proof.
  intros Hrd Hnx Hor. destruct Hrd as [Hb Hc (C & Hk & HC) Ho Hbd Hub Hq Hl Hkept Hnew Hrec Hcon Hw Hbu]. pose proof (nx_above _ _ _ _ _ Hnx) as Hlt. split; try done; [|lia].
  destruct (decide (scanned a r)) as [Hs|Hs].
  - exists C. split; [done|]. intros n' r'. rewrite HC. split; intros [Hr' Hs']; split; try done; [by apply (scanned_next a q n r s n' r' Hnx Hr'); left|].
    apply (scanned_next a q n r s n' r' Hnx Hr') in Hs' as [?| ->]; [done|]. rewrite (nx_stored _ _ _ _ _ Hnx) in Hr'. by injection Hr' as <-.
  - assert (is_open r = false) as Hcl by (destruct Hor as [?|Hgt]; [done|]; exfalso; apply Hs; right; by rewrite (nx_admitted _ _ _ _ _ Hnx)).
    assert (C !! n = None) as HnC by (destruct (C !! n) as [r'|] eqn:Hx; [|done]; apply HC in Hx as [Hr' Hs']; rewrite (nx_stored _ _ _ _ _ Hnx) in Hr'; by injection Hr' as <-).
    exists (<[n := r]> C). split.
    + destruct Hk as [Hk1 Hk2]. split; [|done]. intros i. rewrite Hk1, open_count_insert by done. unfold open_in. rewrite Hcl. cbn. lia.
    + intros n' r'. rewrite lookup_insert_Some, HC. split.
      * intros [[<- <-]|[Hne [Hr' Hs']]]; (split; [by try apply Hnx|]); [by apply (scanned_next a q n r s n r Hnx (nx_stored _ _ _ _ _ Hnx)); right|by apply (scanned_next a q n r s n' r' Hnx Hr'); left].
      * intros [Hr' Hs']. destruct (decide (n = n')) as [->|Hne]; [left; split; [done|]; rewrite (nx_stored _ _ _ _ _ Hnx) in Hr'; congruence|]. right. split; [done|]. split; [done|].
        apply (scanned_next a q n r s n' r' Hnx Hr') in Hs' as [?| ->]; [done|congruence].
Qed.

Lemma reading_same a s s' : reading a s -> same_orders s s' -> cache_ok (ib_touched s') s' -> reading a s'.
Proof.
  intros [Hb Hc (C & Hk & HC) Ho Hbd Hub Hq Hl Hkept Hnew Hrec Hcon Hw Hbu] [Hs Hi Hp] Hc'. pose proof Hs as [Hlog Hwr Hdef Hbi Hco Hct Hsq Hbg _ _].
  split; rewrite ?Hlog, ?Hbi, ?Hi, ?Hsq, ?Hco, ?Hwr, ?Hbg; try done; [by eapply same_base| |].
  - exists C. split; [by eapply same_clock|done].
  - unfold orders_charged in *. by rewrite Hi, Hp.
Qed.
Lemma trim_reading a s : reading a s -> runs trim s (fun _ s' => reading a s' /\ ib_touched s' = ∅ /\ ib_log s' = ib_log s /\ (over_budget s' = true -> held s' = ∅)).
Proof.
  intros Hrd. eapply runs_weaken; [apply trim_runs, Hrd|]. cbn beta. intros [] s' (Hc & Hs & Ht & Hb). split_and!; [by eapply reading_same|done|apply Hs|done].
Qed.
Lemma observed_reading a o s : reading a s -> reading a (set_observations o s).
Proof. intros [[] [] (C & [] & HC) Ho Hbd Hub Hq Hl Hkept Hnew Hrec Hcon Hw Hbu]. split; try done. exists C. by split. Qed.

(** The receipts and the value of a counted message. *)
Lemma load_receipts_eq n s : base_ok s -> load_receipts n s =
  (Done tt, match il_receipted (ib_log s) !! n with Some rows => set_receipts (<[n := rows]> (ib_receipts s)) s | None => s end).
Proof.
  intros Hb. unfold load_receipts, mbind, sm_bind, read_log. rewrite law_receipts by apply Hb. destruct (il_receipted (ib_log s) !! n) as [rows|] eqn:Hr; cbn [default].
  - destruct (sound_receipted _ _ _ (bo_sound _ Hb) Hr) as [Hne _]. by rewrite bool_decide_true.
  - by rewrite bool_decide_false by tauto.
Qed.
Lemma keep_runs T n r s : base_ok s -> cache_ok T s -> n ∈ T -> il_messages (ib_log s) !! n = Some r -> is_open r = true ->
  runs (load_receipts n ;; held ← gets (resident n); when (negb (bool_decide (is_Some held))) (home_restore r) ;; touch n) s
    (fun _ s' => cache_ok T s' /\ same_orders s s' /\ ib_touched s' = {[n]} ∪ ib_touched s).
Proof.
  intros Hb Hc HnT Hr Hop. destruct (held s !! n) as [r'|] eqn:Hn.
  - pose proof (co_home _ _ Hc n r' Hn) as Hr'. rewrite Hr in Hr'. injection Hr' as <-. pose proof (co_receipts _ _ Hc n r Hn Hop) as Hrec.
    eapply runs_step; [by apply load_receipts_eq|].
    rewrite <-Hrec. assert (match ib_receipts s !! n with Some rows => set_receipts (<[n := rows]> (ib_receipts s)) s | None => s end = s) as ->.
    { destruct (ib_receipts s !! n) eqn:Hx; [|done]. rewrite insert_id by done. by destruct s. }
    apply runs_gets. unfold resident, home_get. fold (held s). rewrite Hn, bool_decide_true by done. cbn [negb when]. eexists _, _. split; [reflexivity|]. split_and!; [destruct Hc; by split|by split|done].
  - destruct (restore_runs T n r s Hb Hc HnT Hn Hr true (fun _ => eq_refl)) as (u & s2 & Hrun & Hc2 & Hs2 & Hh2 & Ht2). cbn [when] in Hrun.
    eapply runs_step; [by apply load_receipts_eq|]. set (s1 := match _ with Some _ => _ | None => _ end).
    assert (home_restore r s1 = (Done u, s2)) as Hres by (unfold mbind, sm_bind in Hrun; by rewrite load_receipts_eq in Hrun).
    assert (held s1 = held s) as Hh1 by (unfold s1; by destruct (il_receipted (ib_log s) !! n)).
    apply runs_gets. unfold resident, home_get. fold (held s1). rewrite Hh1, Hn, (bool_decide_false (is_Some None)) by (by intros [? ?]). cbn [negb when].
    eapply runs_step; [exact Hres|]. eexists _, _. split; [reflexivity|]. cbn. rewrite Ht2.
    split_and!; [destruct Hc2; by split|etrans; [exact Hs2|by split]|done].
Qed.

(** Opening an inbox leaves the orders, and a clock that no one is bound to. *)
Definition all_unbound s : Prop := forall inbox v, ib_bindings s !! inbox = Some v -> exists t, is_binding v = Unbound t.
Lemma open_inbox_facts inbox t s s' : open_inbox inbox t s = (Done tt, s') -> ib_inboxes s' = ib_inboxes s /\ ib_pending_bytes s' = ib_pending_bytes s /\
  (forall i, is_Some (ib_bindings s !! i) \/ i = inbox -> is_Some (ib_bindings s' !! i)) /\ (all_unbound s -> all_unbound s').
Proof.
  unfold open_inbox, modify, all_unbound. intros [= <-]. destruct (ib_bindings s !! inbox) as [v|] eqn:Hx; cbn; (split_and!; [done|done|..]).
  - intros i Hi. destruct (decide (i = inbox)) as [->|]; [by rewrite lookup_insert_eq|rewrite lookup_insert_ne by done; by destruct Hi].
  - intros Hub i v' [[<- <-]|[_ Hv]]%lookup_insert_Some; [exact (Hub _ v Hx)|by eapply Hub].
  - intros i Hi. destruct (decide (i = inbox)) as [->|]; [by rewrite lookup_insert_eq|rewrite lookup_insert_ne by done; by destruct Hi].
  - intros Hub i v' [[<- <-]|[_ Hv]]%lookup_insert_Some; [by eexists|by eapply Hub].
Qed.
(** The clock of the inbox of a message that is counted. *)
Lemma open_inbox_reading a q n r t s : reading a s -> next_message a q n r s -> is_open r = true -> q <= sequence ->
  exists s', open_inbox (r_inbox r) t s = (Done tt, s') /\ reading q s' /\ ib_log s' = ib_log s /\ ib_touched s' = ib_touched s.
Proof.
  intros Hrd Hnx Hop Hle. pose proof (nx_above _ _ _ _ _ Hnx) as Hlt. destruct Hrd as [Hb Hc (C & Hk & HC) Ho Hbd Hub Hq Hl Hkept Hnew Hrec Hcon Hw Hbu].
  assert (C !! n = None) as HnC.
  { destruct (C !! n) as [r'|] eqn:Hx; [|done]. apply HC in Hx as [Hr' Hs']. rewrite (nx_stored _ _ _ _ _ Hnx) in Hr'. injection Hr' as <-.
    unfold scanned in Hs'. rewrite (nx_admitted _ _ _ _ _ Hnx) in Hs'. lia. }
  destruct (open_inbox_runs C (<[n := r]> C) (r_inbox r) t s Hk) as (s' & Hrun & Hk' & Hrb & _ & _).
  { intros i. rewrite open_count_insert by done. unfold open_in. rewrite Hop. cbn. by repeat case_bool_decide; congruence. }
  exists s'. split; [done|]. destruct (open_inbox_facts _ _ _ _ Hrun) as (Hi & Hp & Hkeep & Hunb).
  destruct Hrb as [Hsc Hsq Hbg Hco _]. pose proof (sc_home _ _ Hsc) as Hhome. assert (ib_log s' = ib_log s) as Hlog by (unfold ib_log; by rewrite Hhome).
  split_and!; [|done|apply Hsc]. split; rewrite ?Hlog, ?Hi, ?Hsq, ?Hco, ?Hhome, ?Hbg, ?(sc_touched _ _ Hsc); try done.
  - destruct Hb as [Hb1 Hb2]. split; [by rewrite Hlog|by rewrite Hhome].
  - by eapply same_cache_ok.
  - exists (<[n := r]> C). split; [done|]. intros n' r'. rewrite lookup_insert_Some, HC. split.
    + intros [[<- <-]|[Hne [Hr' Hs']]]; (split; [by try apply Hnx|]); [by apply (scanned_next a q n r s n r Hnx (nx_stored _ _ _ _ _ Hnx)); right|by apply (scanned_next a q n r s n' r' Hnx Hr'); left].
    + intros [Hr' Hs']. destruct (decide (n = n')) as [->|Hne]; [left; split; [done|]; rewrite (nx_stored _ _ _ _ _ Hnx) in Hr'; congruence|]. right. split; [done|]. split; [done|].
      apply (scanned_next a q n r s n' r' Hnx Hr') in Hs' as [?| ->]; [done|congruence].
  - unfold orders_charged in *. by rewrite Hi, Hp.
  - intros i Hx. apply Hkeep. left. by apply Hbd.
  - by apply Hunb.
  - lia.
Qed.

(** ** Dead letters *)

Lemma observed_stores {B} (f : Timestamp -> SM Inbox B) s Q : (forall t o, stores (f t) (set_observations o s) Q) -> stores (now ≫= f) s Q.
Proof. intros Hf. unfold stores, mbind, sm_bind, now. destruct (obs_now (ib_observations s)) as [t o]. apply Hf. Qed.
Lemma admission_order_snoc seq m n r : messages_ok seq m -> messages_ok (seq + 1) (<[n := r]> m) -> m !! n = None -> r_admitted r = seq + 1 ->
  admission_order (<[n := r]> m) = admission_order m ++ [(seq + 1, n)].
Proof.
  intros Hm Hm' Hn Ha. unfold admission_order. rewrite (index_by_insert _ _ _ _ _ _ Hm Hm' Hn), Ha. apply map_iter_insert_last.
  intros q n' Hq. apply (index_by_lookup _ _ _ _ _ Hm) in Hq as (r' & Hr' & _ & <-). destruct (mso_each _ _ Hm n' r' Hr') as [_ ? ? _]. lia.
Qed.

(** What follows the commit of a letter. *)
Lemma letter_settles a n spec t s l' : reading a s -> il_last (ib_log s) + 1 <= sequence + Z.min a sequence -> il_sound l' -> il_messages (ib_log s) !! n = None ->
  il_messages l' = <[n := a_admit n spec t (il_last (ib_log s) + 1)]> (il_messages (ib_log s)) -> il_receipted l' = il_receipted (ib_log s) ->
  il_last l' = il_last (ib_log s) + 1 -> forall empty : bool,
  let r := a_admit n spec t (il_last (ib_log s) + 1) in
  let s1 := set_home (mkHome (home_writer (ib_home s)) (home_definition (ib_home s)) (<[n := r]> (held s)) l') s in
  runs (open_inbox (inbox spec) t ;;
        cached ← gets (fun s => bool_decide (is_Some (ib_inboxes s !! inbox spec)));
        when (empty && negb cached)
          (let charge := inbox_charge (inbox spec) in
           over ← gets (over_pending charge);
           when (negb over) (modify (fun s => set_inboxes (<[inbox spec := ∅]> (ib_inboxes s)) (set_pending_bytes (ib_pending_bytes s + charge) s)))) ;;
        touch n ;;
        created ← gets (resident n);
        match created with
        | None => fail (EStorage (Said "committed admission missing from Home"))
        | Some r => index_pending (inbox spec) (r_admitted r) n ;; publish ;; mret n
        end) s1 (fun _ s' => reading a s' /\ ib_log s' = l').
Proof.
  intros Hrd Hroom Hsound Hn Hms Hrec0 Hlast empty r s1. pose proof Hrd as [Hb Hc (C & Hk & HC) Ho Hbd Hub Hq Hl Hkept Hnew Hrec Hcon Hw Hbu].
  pose proof (sound_messages _ (bo_sound _ Hb)) as Hmo.
  assert (held s !! n = None) as Hhn by (destruct (held s !! n) eqn:Hx; [|done]; apply (co_home _ _ Hc) in Hx; congruence).
  assert (C !! n = None) as HnC by (destruct (C !! n) eqn:Hx; [|done]; apply HC in Hx as [Hx _]; congruence).
  assert (cache_ok ({[n]} ∪ ib_touched s) s1) as Hc1.
  { apply commit_cache; try done; [|set_solver|].
    - eapply cache_ok_mono; [|exact Hc]. set_solver.
    - intros _. transitivity (None : option (gmap Receiver Transport)).
      + destruct (ib_receipts s !! n) eqn:Hx; [|done]. apply (co_receipts_held _ _ Hc) in Hx as [? Hx]. congruence.
      + destruct (il_receipted (ib_log s) !! n) eqn:Hx; [|done]. apply sound_receipted in Hx as [_ [? Hx]]; [congruence|apply Hb]. }
  assert (clock_ok C s1) as Hk1 by (destruct Hk; by split).
  destruct (open_inbox_runs C (<[n := r]> C) (inbox spec) t s1 Hk1) as (s2 & Hopen & Hk2 & Hr2 & _ & _).
  { intros i. rewrite open_count_insert by done. unfold open_in. cbn. by repeat case_bool_decide; congruence. }
  destruct (open_inbox_facts _ _ _ _ Hopen) as (Hi2 & Hp2 & Hkeep & Hunb). eapply runs_step; [exact Hopen|]. apply runs_gets.
  assert (orders_charged s2) as Ho2 by (unfold orders_charged in *; rewrite Hi2, Hp2; done).
  apply runs_bind with (R := fun _ s3 => orders_charged s3 /\ reordered s2 s3 /\ forall i, is_Some (ib_inboxes s3 !! i) -> is_Some (ib_inboxes s !! i) \/ i = inbox spec).
  { destruct (empty && _) eqn:He; cbn [when]; [|apply runs_ret; split_and!; [done|done|rewrite Hi2; auto]]. apply runs_gets.
    destruct (over_pending _ s2); cbn [negb when]; [apply runs_ret; split_and!; [done|done|rewrite Hi2; auto]|].
    apply andb_true_iff in He as [_ Hx%negb_true_iff%bool_decide_eq_false]. eexists _, _. split; [reflexivity|]. split_and!; [|by split|].
    - unfold orders_charged in *. cbn. rewrite map_sum_insert, Ho2 by (by apply eq_None_not_Some). unfold rows_charge. rewrite map_sum_empty. lia.
    - cbn. intros i. destruct (decide (i = inbox spec)) as [->|]; [auto|]. rewrite lookup_insert_ne, Hi2 by done. auto. }
  intros [] s3 (Ho3 & Hre3 & Hin3). unfold touch. apply runs_modify. set (s4 := set_touched _ s3).
  assert (ib_home s3 = ib_home s1) as Hh3 by (rewrite (sc_home _ _ (re_cache _ _ Hre3)); apply Hr2).
  apply runs_gets. unfold resident, home_get. change (ib_home s4) with (ib_home s3). rewrite Hh3. cbn [ib_home set_home home_resources s1]. rewrite lookup_insert_eq.
  eapply runs_bind; [by apply (index_charged _ _ _ s4)|]. cbn beta. intros [] s5 (Ho5 & Hre5 & Hdom5).
  assert (ib_home s5 = ib_home s1) as Hh5 by (rewrite (sc_home _ _ (re_cache _ _ Hre5)); exact Hh3). assert (ib_log s5 = l') as Hl5 by (unfold ib_log; by rewrite Hh5).
  assert (ib_sequence s5 = il_last (ib_log s)) as Hq5.
  { rewrite (sa_sequence _ _ (re_same _ _ Hre5)). change (ib_sequence s4) with (ib_sequence s3). rewrite (sa_sequence _ _ (re_same _ _ Hre3)), (rb_sequence _ _ Hr2). exact Hq. }
  eapply runs_bind; [apply publish_runs; rewrite Hl5; [done|lia]|]. cbn beta. intros [] s6 ->. rewrite Hl5. apply runs_ret. split; [|exact Hl5].
  assert (ib_touched s5 = {[n]} ∪ ib_touched s) as Ht5.
  { rewrite (sc_touched _ _ (re_cache _ _ Hre5)). cbn. by rewrite (sc_touched _ _ (re_cache _ _ Hre3)), (sc_touched _ _ (rb_cache _ _ Hr2)). }
  assert (ib_bindings s5 = ib_bindings s2) as Hb5 by (rewrite (sa_bindings _ _ (re_same _ _ Hre5)); apply Hre3).
  assert (cache_ok ({[n]} ∪ ib_touched s) s5) as Hc5.
  { eapply same_cache_ok; [apply Hre5|]. assert (cache_ok ({[n]} ∪ ib_touched s) s3) as [] by (eapply same_cache_ok; [apply Hre3|]; eapply same_cache_ok; [apply Hr2|done]). by split. }
  assert (clock_ok (<[n := r]> C) s5) as Hk5.
  { eapply same_clock; [apply Hre5|]. assert (clock_ok (<[n := r]> C) s3) as [] by (by eapply same_clock; [apply Hre3|]). by split. }
  split; unfold ib_log; cbn [ib_home set_sequence ib_sequence ib_touched ib_bindings ib_inboxes ib_consumers ib_budget]; rewrite ?Hh5; cbn [home_log ib_home set_home s1 home_writer]; try done.
  - split; unfold ib_log; cbn; rewrite Hh5; [done|]. by apply Hb.
  - rewrite Ht5. destruct Hc5; by split.
  - exists (<[n := r]> C). split; [destruct Hk5; by split|]. intros n' r'. rewrite Hms, !lookup_insert_Some, HC. unfold scanned. split.
    + intros [[<- <-]|[Hne [Hr' Hs']]]; [split; [by left|]; right; cbn; lia|]. split; [by right|done].
    + intros [[[<- <-]|[Hne Hr']] Hs']; [by left|by right].
  - intros i Hi. rewrite Hb5. apply Hkeep. apply elem_of_dom in Hi. apply Hdom5, elem_of_dom in Hi. cbn in Hi. destruct (Hin3 i Hi) as [Hx|Hx]; [left; by apply Hbd|by right].
  - intros i v. rewrite Hb5. by apply Hunb.
  - rewrite Hlast. lia.
  - intros n' r' Hr'. rewrite Hms, lookup_insert_ne; [by apply Hkept|]. intros <-. apply Hkept in Hr'. congruence.
  - intros n' r'. rewrite Hms. intros [[<- <-]|[_ Hr']]%lookup_insert_Some; [right; cbn; lia|by apply Hnew].
  - by rewrite Hrec0.
  - rewrite (sa_consumers _ _ (re_same _ _ Hre5)). cbn. by rewrite (sa_consumers _ _ (re_same _ _ Hre3)), (rb_consumers _ _ Hr2).
  - rewrite (sa_budget _ _ (re_same _ _ Hre5)). cbn. by rewrite (sa_budget _ _ (re_same _ _ Hre3)), (rb_budget _ _ Hr2).
Qed.

(** The letter for a message that was dropped as undeliverable. *)
Definition letter_of (l : L) (n : string) (r : Resource sig) : Prop :=
  exists m dropped to t seq, il_messages l !! m = Some dropped /\ drop_reason (r_value dropped) = Some Undeliverable /\
    supervisor (sender (r_message dropped)) = Some to /\ dead_letter_name to m = Done n /\ r = a_admit n (dead_letter_spec to m (r_version dropped)) t seq.
(** Only letters are added, after everything the scan will read. *)
Record added (l l' : L) : Prop := {
  ad_order : exists new, admission_order (il_messages l') = admission_order (il_messages l) ++ new /\ Forall (fun p => sequence < p.1) new;
  ad_kept : forall n r, il_messages l !! n = Some r -> il_messages l' !! n = Some r;
  ad_new : forall n r, il_messages l' !! n = Some r -> il_messages l !! n = Some r \/ letter_of log0 n r;
}.
#[local] Instance added_refl : Reflexive added.
Proof. intros l. split; [|done|auto]. exists []. by rewrite app_nil_r. Qed.
#[local] Instance added_trans : Transitive added.
Proof.
  intros l1 l2 l3 [(n1 & H1 & F1) K1 N1] [(n2 & H2 & F2) K2 N2]. split; [|by auto|].
  - exists (n1 ++ n2). rewrite H2, H1, app_assoc. split; [done|by apply Forall_app].
  - intros n r [Hr|Hr]%N2; [by apply N1|by right].
Qed.

Lemma letter_stores a n to v m s : reading a s -> il_last (ib_log s) + 1 <= sequence + Z.min a sequence -> il_last (ib_log s) < u64_max -> il_messages (ib_log s) !! m = None ->
  (forall t seq, letter_of log0 m (a_admit m (dead_letter_spec to n v) t seq)) -> stores (enqueue_named (dead_letter_spec to n v) (Some m)) s (fun _ s' => reading a s' /\ added (ib_log s) (ib_log s') /\ is_Some (il_messages (ib_log s') !! m)).
Proof.
  intros Hrd Hlast Hroom Hm Hletter. unfold enqueue_named. apply observed_stores. intros t o. pose proof (observed_reading a o s Hrd) as Hrd1. set (s1 := set_observations o s) in *.
  eapply stores_step; [reflexivity|]. eapply stores_step; [reflexivity|]. apply stores_gets.
  destruct (with_snapshot (ib_observations s1)) as [[base|] o2] eqn:Hsnap; [|eapply (stores_failed _ _ _ s1); unfold run, mbind, sm_bind, snapshot; by rewrite Hsnap].
  set (s2 := set_observations o2 s1). assert (reading a s2) as Hrd2 by (by apply observed_reading). destruct (rd_base _ _ Hrd2) as [Hsound Hdef].
  destruct (home_create_admits (ib_home s2) m (dead_letter_spec to n v) (world_of no_inputs base) t) as (c & l' & Hcr & Hsound' & Hms & Hre & Hl' & Hch); try done.
  { destruct (home_resources (ib_home s2) !! m) eqn:Hy; [|done]. apply (co_home _ _ (rd_cache _ _ Hrd2)) in Hy. change (ib_log s2) with (ib_log s) in Hy. congruence. }
  { apply dead_letter_admitted. }
  eapply stores_step; [unfold run, mbind, sm_bind, snapshot; rewrite Hsnap; fold s2; unfold home_call; rewrite Hcr; reflexivity|].
  eapply stores_weaken; [apply runs_stores, (letter_settles a m (dead_letter_spec to n v) t s2 l' Hrd2 Hlast Hsound' Hm Hms Hre Hl')|].
  cbn beta. intros _ s3 [Hrd3 Hlog3]. rewrite Hlog3. split_and!; [done| |by rewrite Hms, lookup_insert_eq].
  pose proof (sound_messages _ Hsound) as Hmo. pose proof (sound_messages _ Hsound') as Hmo'. rewrite Hl', Hms in Hmo'. split; rewrite Hms.
  - eexists. split; [by apply admission_order_snoc|]. repeat constructor. cbn. pose proof (rd_last _ _ Hrd2). change (ib_log s2) with (ib_log s) in *. lia.
  - intros n' r' Hr'. rewrite lookup_insert_ne; [done|]. intros <-. change (ib_log s2) with (ib_log s) in Hr'. congruence.
  - intros n' r' [[<- <-]|[_ Hr']]%lookup_insert_Some; [by right|by left].
Qed.

Lemma dead_letter_stores a n r s : reading a s -> il_last (ib_log s) + 1 <= sequence + Z.min a sequence -> il_last (ib_log s) < u64_max -> held s !! n = Some r ->
  il_messages log0 !! n = Some r -> drop_reason (r_value r) = Some Undeliverable -> is_ok (from_str (tx n)) = true ->
  stores (dead_letter n) s (fun _ s' => reading a s' /\ added (ib_log s) (ib_log s') /\ lettered (il_messages (ib_log s')) n r).
Proof.
  intros Hrd Hlast Hroom Hn H0 Hdrop Hok. unfold dead_letter, lettered. apply stores_gets. unfold resident, home_get. fold (held s). rewrite Hn. cbv zeta.
  destruct (supervisor (sender (r_message r))) as [to|] eqn:Hto; [|by apply runs_stores, runs_ret].
  case_bool_decide as Hne; [apply runs_stores, runs_ret; split_and!; [done|done|congruence]|].
  destruct (dead_letter_name to n) as [m|e|] eqn:Hm; [| |by apply message_address_returns in Hm].
  2: { unfold dead_letter_name, message_address in Hm. destruct (_ ≫= _); [done|]. injection Hm as <-. by eapply (stores_failed _ _ _ s s). }
  eapply (stores_step _ _ m); [reflexivity|]. eapply stores_runs; [apply (exists_known (ib_touched s)); [apply Hrd|apply Hrd]|]. cbn beta. intros b s' [-> ->].
  case_bool_decide as Hk; [apply runs_stores, runs_ret; split_and!; [done|done|intros _ to' letter [= <-] _ Hl; rewrite Hm in Hl; by injection Hl as <-]|].
  rewrite Hok. eapply stores_bind; [apply (letter_stores a); [done|done|done|by apply eq_None_not_Some|intros t seq; by exists n, r, to, t, seq]|]. cbn beta. intros _ s' (Hrd' & Had & Hm'). apply runs_stores, runs_ret.
  split_and!; [done|done|]. intros _ to' letter [= <-] _ Hl. rewrite Hm in Hl. by injection Hl as <-.
Qed.

(** ** A message, a page and the pages *)

Context (Hsound0 : il_sound log0) (Hlast0 : il_last log0 = sequence) (Hmax : 2 * sequence <= i64_max)
  (Hnames : forall n r, il_messages log0 !! n = Some r -> drop_reason (r_value r) = Some Undeliverable -> is_ok (from_str (tx n)) = true).

(** Between two messages the cache is trimmed and no letter is missing so far. *)
Record between (a : Z) s : Prop := {
  bt_reading : reading a s;
  bt_touched : ib_touched s = ∅;
  bt_budget : over_budget s = true -> held s = ∅;
  bt_added : added log0 (ib_log s);
  bt_lettered : forall n r, il_messages log0 !! n = Some r -> r_admitted r <= a -> lettered (il_messages (ib_log s)) n r;
}.
Lemma log0_admitted n r : il_messages log0 !! n = Some r -> r_admitted r <= sequence.
Proof. intros Hr. destruct (mso_each _ _ (sound_messages _ Hsound0) n r Hr) as [_ ? ? _]. lia. Qed.
Lemma lettered_mono m m' n r : (forall k x, m !! k = Some x -> m' !! k = Some x) -> lettered m n r -> lettered m' n r.
Proof. intros Hm Hl Hd to letter Hs Hne Hn. destruct (Hl Hd to letter Hs Hne Hn) as [x Hx]. exists x. by apply Hm. Qed.

(** The next message read, with its letter, and the cache trimmed. *)
Lemma between_next a q n r s s' : between a s -> next_message a q n r s -> reading q s' -> added (ib_log s) (ib_log s') -> ib_touched s' = ∅ ->
  (over_budget s' = true -> held s' = ∅) -> (il_messages log0 !! n = Some r -> lettered (il_messages (ib_log s')) n r) -> between q s'.
Proof.
  intros [Hrd _ _ Had Hlet] Hnx Hrd' Had' Ht Hbu Hn. split; [done|done|done|by etrans|]. intros n' r' Hr' Hle. pose proof (rd_kept _ _ Hrd n' r' Hr') as Hk.
  destruct (decide (r_admitted r' <= a)); [eapply lettered_mono; [apply Had'|by apply Hlet]|].
  assert (n' = n) as -> by (apply (nx_next _ _ _ _ _ Hnx n' r' Hk); lia). rewrite (nx_stored _ _ _ _ _ Hnx) in Hk. injection Hk as <-. by apply Hn.
Qed.
Lemma trim_between a q n r s s1 : between a s -> next_message a q n r s -> reading q s1 -> added (ib_log s) (ib_log s1) ->
  (il_messages log0 !! n = Some r -> lettered (il_messages (ib_log s1)) n r) -> stores trim s1 (fun _ s' => between q s' /\ added (ib_log s) (ib_log s')).
Proof.
  intros Hbt Hnx Hrd1 Had1 Hn. apply runs_stores. eapply runs_weaken; [by apply trim_reading|]. cbn beta. intros [] s' (Hrd' & Ht & Hlog & Hbu).
  rewrite Hlog. split; [|done]. apply (between_next a q n r s s'); rewrite ?Hlog; done.
Qed.

Lemma not_dropped r m n : is_open r = true -> lettered m n r.
Proof. unfold is_open, lettered. intros Ho Hd. destruct (r_value r); done. Qed.

(** A message dropped as undeliverable comes back for its letter. *)
Lemma repair_stores q n r s : reading q s -> ib_touched s = ∅ -> il_last (ib_log s) + 1 <= sequence + Z.min q sequence -> il_messages log0 !! n = Some r ->
  is_open r = false -> drop_reason (r_value r) = Some Undeliverable ->
  stores (home_restore r ;; touch n ;; dead_letter n) s (fun _ s' => reading q s' /\ added (ib_log s) (ib_log s') /\ lettered (il_messages (ib_log s')) n r).
Proof.
  intros Hrd Ht Hlast H0 Hop Hdrop. pose proof (rd_cache _ _ Hrd) as Hc. pose proof (rd_kept _ _ Hrd n r H0) as Hr.
  assert (held s !! n = None) as Hn.
  { destruct (held s !! n) as [r'|] eqn:Hx; [|done]. pose proof (co_home _ _ Hc n r' Hx) as Hr'. rewrite Hr in Hr'. injection Hr' as <-.
    destruct (co_charged _ _ Hc n r Hx) as [Ho _]; [rewrite Ht; set_solver|congruence]. }
  destruct (restore_runs ({[n]} ∪ ib_touched s) n r s (rd_base _ _ Hrd)) with (b := false) as ([] & s1 & Hrun & Hc1 & Hs1 & Hh1 & Ht1); [eapply cache_ok_mono; [|done]; set_solver|set_solver|done|done|congruence|].
  cbn [when] in Hrun. eapply stores_step; [exact Hrun|]. eapply stores_step; [reflexivity|]. set (s2 := set_touched ({[n]} ∪ ib_touched s1) s1).
  assert (same_orders s s2) as Hs2 by (etrans; [exact Hs1|by split]). pose proof (sa_log _ _ (so_same _ _ Hs2)) as Hlog.
  assert (reading q s2) as Hrd2 by (eapply reading_same; [done|done|]; change (ib_touched s2) with ({[n]} ∪ ib_touched s1); rewrite Ht1; destruct Hc1; by split).
  rewrite <-Hlog in *. pose proof (rd_last _ _ Hrd2). apply (dead_letter_stores q n r s2); [done|done|unfold u64_max, i64_max in *; lia|change (held s2) with (held s1); by rewrite Hh1, lookup_insert_eq|done|done|by eapply Hnames].
Qed.

Lemma recover_message_stores a q n r s : between a s -> next_message a q n r s ->
  stores (recover_message sequence r) s (fun _ s' => between q s' /\ added (ib_log s) (ib_log s')).
Proof.
  intros Hbt Hnx. pose proof (bt_reading _ _ Hbt) as Hrd. pose proof (nx_stored _ _ _ _ _ Hnx) as Hr. pose proof (nx_above _ _ _ _ _ Hnx) as Hlt. pose proof (rd_last _ _ Hrd) as Hl.
  pose proof (mo_name _ _ _ (stored_ok s n r (rd_base _ _ Hrd) Hr)) as Hname. unfold recover_message. eapply stores_step; [unfold lift; by rewrite (stored_valid s n r (rd_base _ _ Hrd) Hr)|].
  cbv zeta. rewrite Hname, (nx_admitted _ _ _ _ _ Hnx). case_bool_decide as Hq.
  { apply runs_stores, runs_ret. split; [|done]. eapply (between_next a q n r s s Hbt Hnx); [eapply reading_advance; [done|done|right; lia]|done|apply Hbt|apply Hbt|].
    intros H0%log0_admitted. rewrite (nx_admitted _ _ _ _ _ Hnx) in H0. lia. }
  assert (il_messages log0 !! n = Some r) as H0 by (destruct (rd_new _ _ Hrd n r Hr) as [?|Hx]; [done|rewrite (nx_admitted _ _ _ _ _ Hnx) in Hx; lia]).
  apply stores_bind with (R := fun _ s1 => reading q s1 /\ added (ib_log s) (ib_log s1) /\ lettered (il_messages (ib_log s1)) n r); [|intros _ s1 (? & ? & ?); by eapply trim_between].
  destruct (is_open r) eqn:Hop.
  - apply observed_stores. intros t o. set (s1 := set_observations o s). assert (reading a s1) as Hrd1 by (by apply observed_reading).
    assert (next_message a q n r s1) as Hnx1 by (by destruct Hnx).
    destruct (open_inbox_reading a q n r t s1 Hrd1 Hnx1 Hop) as (s2 & Hopen & Hrd2 & Hlog2 & Ht2); [lia|]. eapply stores_step; [exact Hopen|]. change (ib_log s1) with (ib_log s) in Hlog2.
    apply runs_stores. eapply runs_weaken; [apply (keep_runs ({[n]} ∪ ib_touched s2)); [apply Hrd2|eapply cache_ok_mono; [|apply Hrd2]; set_solver|set_solver|by rewrite Hlog2|done]|].
    cbn beta. intros [] s3 (Hc3 & Hs3 & Ht3). rewrite (sa_log _ _ (so_same _ _ Hs3)), Hlog2. split_and!; [|done|by apply not_dropped]. by eapply reading_same; [| |rewrite Ht3].
  - assert (reading q s) as Hrdq by (eapply reading_advance; [done|done|by left]). case_bool_decide as Hdrop; cbn [when]; [apply repair_stores; try done; [apply Hbt|lia]|].
    apply runs_stores, runs_ret. split_and!; [done|done|by intros Hd].
Qed.

Abbreviation order_of s := (admission_order (il_messages (ib_log s))).
Lemma order_sorted s : StronglySorted by_key (order_of s).
Proof. unfold admission_order. apply map_iter_by_key. Qed.

(** The rows of a page, in the order the messages were admitted. *)
Lemma recover_rows_stores rows rs rest a s : between a s -> above a (order_of s) = rows ++ rest -> Forall2 (fun p r => il_messages (ib_log s) !! p.2 = Some r) rows rs ->
  stores (for_each (recover_message sequence) rs) s (fun _ s' => between (from_option fst a (last rows)) s' /\
    exists new, above (from_option fst a (last rows)) (order_of s') = rest ++ new /\ Forall (fun p => sequence < p.1) new).
Proof.
  intros Hbt Hrows Hrs. revert a s rest Hbt Hrows Hrs. revert rs. induction rows as [|[q n] rows IH]; intros rs a s rest Hbt Hrows Hrs.
  { apply Forall2_nil_inv_l in Hrs as ->. apply runs_stores, runs_ret. split; [done|]. exists []. by rewrite app_nil_r. }
  apply Forall2_cons_inv_l in Hrs as (r & rs' & Hr & Hrs & ->). cbn [for_each]. pose proof (bt_reading _ _ Hbt) as Hrd.
  destruct (next_of_order a q n (rows ++ rest) s (rd_base _ _ Hrd) Hrows) as [r' Hnx]. pose proof (nx_stored _ _ _ _ _ Hnx) as Hr'. cbn [snd] in Hr. rewrite Hr in Hr'. injection Hr' as <-.
  eapply stores_bind; [by apply (recover_message_stores a q n r)|]. cbn beta. intros _ s1 [Hbt1 Had]. destruct (ad_order _ _ Had) as (new & Hnew & Hall).
  pose proof (above_tail a _ (q, n) (rows ++ rest) (order_sorted s) Hrows) as Htail. cbn [fst] in Htail.
  rewrite last_cons_from. cbn [fst]. eapply stores_weaken; [apply (IH rs' q s1 (rest ++ above q new) Hbt1)|].
  - by rewrite Hnew, above_app, Htail, <-app_assoc.
  - eapply Forall2_impl; [exact Hrs|]. intros p x Hx. by apply (ad_kept _ _ Had).
  - cbn beta. intros _ s2 [Hbt2 (new2 & Hnew2 & Hall2)]. split; [done|]. exists (above q new ++ new2). rewrite Hnew2, app_assoc. split; [done|].
    apply Forall_app. split; [|done]. apply Forall_forall. intros p [Hp _]%elem_of_above. rewrite Forall_forall in Hall. by apply Hall.
Qed.

Lemma page_messages rows s : (forall p, p ∈ rows -> p ∈ order_of s) -> base_ok s ->
  Forall2 (fun p r => il_messages (ib_log s) !! p.2 = Some r) rows (omap (fun p => il_messages (ib_log s) !! p.2) rows).
Proof.
  intros Hrows Hb. induction rows as [|[q n] rows IH]; cbn; [constructor|]. assert ((q, n) ∈ order_of s) as Hin by (apply Hrows; set_solver).
  unfold admission_order in Hin. apply (elem_of_index _ (il_last (ib_log s))) in Hin as (r & Hr & _); [|by apply sound_messages, Hb]. rewrite Hr. constructor; [done|]. apply IH. set_solver.
Qed.

(** Everything is scanned when nothing but letters is left. *)
Definition recovered s : Prop := exists a, between a s /\ forall n r, il_messages (ib_log s) !! n = Some r -> scanned a r.
Lemma all_scanned a s : base_ok s -> Forall (fun p => sequence < p.1) (above a (order_of s)) -> forall n r, il_messages (ib_log s) !! n = Some r -> scanned a r.
Proof.
  intros Hb Hall n r Hr. unfold scanned. destruct (decide (r_admitted r <= a)); [by left|]. right. rewrite Forall_forall in Hall. apply (Hall (r_admitted r, n)).
  apply elem_of_above. split; [|cbn; lia]. unfold admission_order. apply (elem_of_index _ (il_last (ib_log s))); [by apply sound_messages, Hb|]. by exists r.
Qed.

Lemma recover_pages_stores (fuel : nat) (after : option Z) s : 0 <= default 0 after -> between (default 0 after) s -> (Z.to_nat (2 * sequence - default 0%Z after) < fuel)%nat ->
  stores (recover_pages fuel sequence after) s (fun _ s' => recovered s').
Proof.
  revert after s. induction fuel as [|fuel IH]; intros after s Ha Hbt Hf; [lia|]. cbn [recover_pages]. set (a := default 0 after) in *.
  pose proof (bt_reading _ _ Hbt) as Hrd. pose proof (rd_last _ _ Hrd) as Hl. set (rows := above a (order_of s)).
  eapply stores_step; [unfold read_log; rewrite law_scan; [reflexivity|apply Hrd|lia|done]|]. cbn [sp_messages sp_next]. fold a rows.
  pose proof (take_drop 32 rows) as Hsplit.
  eapply stores_bind; [apply (recover_rows_stores (take 32 rows) _ (drop 32 rows) a s Hbt); [by rewrite Hsplit|]|].
  { apply page_messages; [|apply Hrd]. intros p Hp. assert (p ∈ rows) as [? _]%elem_of_above by (rewrite <-Hsplit; set_solver). done. }
  cbn beta. intros _ s1 [Hbt1 (new & Hnew & Hall)]. destruct (decide (32 < length rows)%nat) as [Hlen|Hlen].
  - destruct (lookup_lt_is_Some_2 rows 31) as [[q n] Hq]; [lia|]. rewrite Hq. cbn [fmap option_fmap option_map fst].
    assert (last (take 32 rows) = Some (q, n)) as Hlast by (rewrite last_lookup, length_take; replace (Nat.pred (32 `min` length rows)) with 31%nat by lia; by rewrite lookup_take_lt by lia).
    rewrite Hlast in *. cbn [from_option fst] in *. assert ((q, n) ∈ rows) as [Hin Hlt]%elem_of_above by (by eapply list_elem_of_lookup_2). cbn [fst] in Hlt.
    unfold admission_order in Hin. apply (elem_of_index _ (il_last (ib_log s))) in Hin as (r & Hr & _ & <-); [|by apply sound_messages, Hrd].
    destruct (stored_ok s n r (rd_base _ _ Hrd) Hr) as [_ H1 H2 _]. apply IH; change (default 0 (Some (r_admitted r))) with (r_admitted r); [lia|done|lia].
  - apply runs_stores, runs_ret. eexists. split; [exact Hbt1|]. apply all_scanned; [apply Hbt1|]. rewrite Hnew, drop_ge by lia. done.
Qed.

(** What opening leaves. *)
Record opened s : Prop := {
  op_trimmed : trimmed writer (Z.min budget CONTROL_BUDGET) s;
  op_kept : forall n r, il_messages log0 !! n = Some r -> il_messages (ib_log s) !! n = Some r;
  op_letters : forall n r, il_messages (ib_log s) !! n = Some r -> il_messages log0 !! n = Some r \/ letter_of log0 n r;
  op_lettered : forall n r, il_messages log0 !! n = Some r -> lettered (il_messages (ib_log s)) n r;
  op_receipts : il_receipted (ib_log s) = il_receipted log0;
  op_unbound : all_unbound s;
  op_consumers : ib_consumers s = ∅;
}.
Lemma recovered_clock s : recovered s -> clock_ok (il_messages (ib_log s)) s.
Proof.
  intros (a & [[_ _ (C & Hk & HC) _ _ _ _ _ _ _ _ _ _ _] _ _ _ _] & Hall). assert (C = il_messages (ib_log s)) as <-; [|done].
  apply map_eq. intros n. apply option_eq. intros r. rewrite HC. split; [by intros [? _]|]. intros Hr. split; [done|by eapply Hall].
Qed.
(** The orders of every inbox that is counted are read again from the log's index. *)
Lemma recovered_opened s : recovered s -> runs (for_each cache_pending (map fst (map_iter (ib_bindings s)))) s (fun _ s' => opened s').
Proof.
  intros Hrv. pose proof (recovered_clock s Hrv) as Hk. destruct Hrv as (a & [Hrd Ht Hbu Had Hlet] & Hall).
  eapply runs_weaken; [apply cache_all_runs; apply Hrd|]. cbn beta. intros [] s' (Ho & [Hsame Hcache] & Hrows).
  pose proof Hsame as [Hlog Hwr Hdef Hbi Hco Hct Hsq Hbg _ _]. pose proof (sc_home _ _ Hcache) as Hhome. split; rewrite ?Hlog.
  - split.
    + split; [|rewrite Hwr; apply Hrd|unfold control_limit; by rewrite Hbg, (rd_budget _ _ Hrd)]. split; [by eapply same_base; [|apply Hrd]| | | |].
      * rewrite (sc_touched _ _ Hcache). eapply same_cache_ok; [done|apply Hrd].
      * rewrite Hlog. split; [|done]. intros j rows Hj. destruct (Hrows j rows Hj) as [->|[Hnin Hj0]]; [done|]. destruct Hnin.
        destruct (rd_bound _ _ Hrd j) as [v Hv]; [by eexists|]. apply list_elem_of_fmap. exists (j, v). split; [done|]. by apply elem_of_map_iter.
      * rewrite Hlog. by eapply same_clock.
      * rewrite Hsq, Hlog. apply Hrd.
    + by rewrite (sc_touched _ _ Hcache).
    + unfold over_budget, held. by rewrite (sc_resident _ _ Hcache), Hct, Hbg, Hhome.
  - apply Hrd.
  - apply Had.
  - intros n r Hr. apply Hlet; [done|]. pose proof (log0_admitted n r Hr). destruct (Hall n r (rd_kept _ _ Hrd n r Hr)) as [?|?]; [done|lia].
  - apply Hrd.
  - unfold all_unbound. rewrite Hbi. apply Hrd.
  - rewrite Hco. apply Hrd.
Qed.
Lemma unread_between observations : between 0 (unread (mkHome writer message_definition ∅ log0) observations sequence budget pending_budget).
Proof.
  assert (0 <= sequence) as Hnn by (rewrite <-Hlast0; by apply sound_seq). split; [|done|done|done|].
  - split; try done; cbn; [| |by intros i [? ?]|lia|auto].
    + split; cbn; try done. intros t n. split; [done|]. by intros [? ?].
    + exists ∅. split; [by split|]. intros n r. split; [done|]. intros [Hr [Hs|Hs]].
      * destruct (mso_each _ _ (sound_messages _ Hsound0) n r Hr) as [_ ? _ _]. lia.
      * pose proof (log0_admitted n r Hr). lia.
  - intros n r Hr Hle. destruct (mso_each _ _ (sound_messages _ Hsound0) n r Hr) as [_ ? _ _]. lia.
Qed.
Lemma recover_stores observations :
  stores (recover sequence) (unread (mkHome writer message_definition ∅ log0) observations sequence budget pending_budget) (fun _ s' => opened s').
Proof.
  unfold recover. eapply stores_bind; [apply recover_pages_stores; [done|apply unread_between|cbn; lia]|]. cbn beta. intros _ s Hrv.
  apply stores_gets, runs_stores. by apply recovered_opened.
Qed.
End reading.

(** C21: opening an inbox over a sound log either fails in its storage or gives
    an inbox ready for its calls: its caches, counts and orders are those of
    the log and within their budgets, every message and receipt of the log is
    kept, nobody is bound, every message dropped as undeliverable has the
    letter it was owed, and nothing but such letters is added. *)
Theorem open_recovers (writer : string) (log : L) (observations : Ob) (budget pending_budget : Z) : il_sound log -> 2 * il_last log <= i64_max ->
  (forall n r, il_messages log !! n = Some r -> drop_reason (r_value r) = Some Undeliverable -> is_ok (from_str (tx n)) = true) ->
  match open_with_budgets (P := P) writer log observations budget pending_budget with
  | Done s => opened log budget writer s
  | Failed e => exists what, e = EStorage what
  | Panics => False
  end.
Proof.
  intros Hsound Hmax Hnames. unfold open_with_budgets, mbind, outcome_bind. rewrite law_sequence by done. unfold with_log. rewrite Message.message_validates. cbn [mbind result_bind].
  pose proof (recover_stores log (il_last log) budget pending_budget writer Hsound eq_refl Hmax Hnames observations) as Hrec. unfold stores in Hrec.
  change (definition sig) with message_definition. cbn [mret result_ret]. by destruct (recover _ _) as [[] ?].
Qed.
End recover.
