(* ===== verification/InboxExamples.v ===== *)
(** An inbox over the memory store at work, and the inbox's theorems applied to
    it: a worker's inbox with its consumer, and the lead that supervises it. *)

From Stdlib Require Import Ascii.
From stdpp Require Import relations.
From S2P Require Import Text Encoding Address Names.
From S2P Require Import Prelude Ordered Schema Read Machine Validate Engine Log Home Consumer Message InboxStore Inbox InboxSpec InboxInv InboxRefine InboxCalls InboxWatch InboxRecover.
Import Message.
#[local] Open Scope Z_scope.

Module InboxExamples.

#[local] Instance constant_digest : Sha256 := {| sha256 := fun _ => repeat zero 32; sha256_length := fun _ => eq_refl |}.
(** A clock that ticks, and evidence of nothing but one failed delivery. *)
#[local] Instance ticking : Observations Z := {|
  obs_now := fun t => (t, t + 1);
  with_snapshot := fun t => (Some (mkMemoryWorld table_new table_new table_new table_new table_new
    (table_put (table_new (K := DeliveryFailure)) (mkRef "project:p/role:worker/message:a") tt).2 table_new table_new table_new), t);
|}.
Definition worker : Schema.Address := mkAddress "project:p/role:worker".
Definition lead : Schema.Address := mkAddress "project:p/role:lead".
#[local] Instance led : Supervision := {| supervisor := fun a => if bool_decide (a = lead) then None else Some lead; system_sender := mkAddress "host:h" |}.
#[local] Instance unhashed : Freeze := fun b => mkFrozen EmptyString b.
#[local] Instance one_each : Residence.
Proof. refine {| address_bytes := fun _ => 1; receiver_bytes := fun _ => 1; resource_bytes := fun _ _ => 10; size_of_binding := 1; size_of_usize := 1; size_of_row := 1; size_of_rows := 1 |}; lia. Defined.
(** A port that counts the receipts it is told of. *)
#[local] Instance counting_port : ConsumerPort Z MemoryStore := {| port_scope := fun _ => None; port_receive := fun p l _ _ _ => (Done tt, p + 1, l) |}.
#[local] Instance counting_local : LocalPort Z MemoryStore.
Proof. by refine {| port_record := fun p _ _ _ => (Done tt, p + 1) |}. Defined.

Definition home0 : Home sig MemoryStore := mkHome "h" message_definition ∅ memory_store_new.
Definition fresh : Inbox (L := MemoryStore) (P := Z) (Ob := Z) := unread home0 0 0 1000 1000.
Definition session : Receiver := mkReceiver CAgentSession "s" "h".
Definition coder : Schema.Address := mkAddress "project:p/role:coder".
Definition letter : MessageSpec := spec_new coder worker System (mkFrozen EmptyString (Text "do it")).
Definition id_a : list ascii := tx "a".
Definition name_a : string := "project:p/role:worker/message:a".

Abbreviation perform := (perform (L := MemoryStore) (P := Z) (Ob := Z)).
Abbreviation trimmed := (trimmed (L := MemoryStore) (P := Z) (Ob := Z) "h" 1000).
Abbreviation calls_ok := (calls_ok (L := MemoryStore) (P := Z) (Ob := Z) "h" 1000).

Lemma fresh_trimmed : trimmed fresh.
Proof.
  assert (Hz : forall i : Schema.Address, open_count ∅ i = 0); [intros i; reflexivity|]. split; [|done|done]. split; [|done|done]. split; [split; [apply memory_store_new_sound|done]|..|done].
  - split; try (intros; by rewrite ?lookup_empty in *). intros t n. cbn. rewrite lookup_empty. split; [done|]. by intros [b Hb].
  - split; [|done]. intros i rows. cbn. by rewrite lookup_empty.
  - split; [|done]. intros i. cbn. rewrite lookup_empty. exact (eq_sym (Hz i)).
Qed.

(** The answer of a run, with the state it leaves. *)
Lemma answers {A B} (p : A * B) a : p.1 = a -> p = (a, p.2).
Proof. by destruct p; intros <-. Qed.

(** A session takes the one message sent to the worker, and delivers it. *)
Definition setup : list (Call Z) := [CallRegister session 0; CallEnqueueAs letter id_a; CallBind worker session].
Definition delivery : list (Call Z) := [CallPending worker session [] 0; CallReceive session name_a Turn; CallDeliver name_a (mkDeliver session Turn)].
Ltac calls_ok_tac :=
  repeat match goal with
  | |- InboxCalls.calls_ok _ _ [] _ => exact I
  | |- InboxCalls.calls_ok _ _ _ _ => split
  | |- call_ok _ _ => try (exact I); try (vm_compute; reflexivity); (split; [vm_compute; reflexivity|try lia; vm_compute; reflexivity])
  end.

Lemma inbox_serves_witness : (serve (a_perform (L := MemoryStore) "h" 1000) (setup ++ delivery) (abs fresh)).1 = (serve perform (setup ++ delivery) fresh).1.
Proof.
  destruct (inbox_serves "h" 1000 (setup ++ delivery) fresh) as [Hs _]; [exact fresh_trimmed|calls_ok_tac|]. exact (f_equal fst Hs).
Defined.

Lemma inbox_caches_exact_witness : let s' := (serve perform setup fresh).2 in
  ib_resident_bytes s' = map_sum (fun n r => resource_bytes r (ib_receipts s' !! n)) (held s') /\ ib_resident_bytes s' = 10.
Proof.
  destruct (inbox_caches_exact "h" 1000 setup fresh) as (_ & _ & _ & Hb & _); [exact fresh_trimmed|calls_ok_tac|]. split; [exact Hb|vm_compute; reflexivity].
Defined.

(** Two messages wait; the first is received, and the next poll gives the other. *)
Definition setup2 : list (Call Z) := setup ++ [CallEnqueueAs letter (tx "b")].
Definition two := (serve perform setup2 fresh).2.
Lemma two_trimmed : trimmed two.
Proof. destruct (serve_refines "h" 1000 setup2 fresh) as (_ & Ht & _); [exact fresh_trimmed|calls_ok_tac|exact Ht]. Qed.
Definition received_a := (perform (CallReceive session name_a Turn) two).2.
Definition looked := (serve perform [CallGet name_a] received_a).2.
Lemma taken_once_witness : exists q item, (perform (CallPending worker session [] 0) looked).1 = Done (RPending (Some (q, item))) /\ pe_message item <> name_a.
Proof.
  eexists _, _. split; [vm_compute; reflexivity|].
  apply (taken_once "h" 1000 (CallReceive session name_a Turn) [CallGet name_a] worker session [] 0 name_a two received_a looked
    (perform (CallPending worker session [] 0) looked).2 (Done RDone) (serve perform [CallGet name_a] received_a).1 2).
  - exact two_trimmed.
  - calls_ok_tac.
  - unfold received_a. apply answers. vm_compute. reflexivity.
  - split; reflexivity.
  - unfold looked. apply answers. reflexivity.
  - apply answers; vm_compute; reflexivity.
Defined.

Definition sent_a := (perform (CallEnqueueAs letter id_a) fresh).2.
Lemma enqueue_as_once_witness : (perform (CallEnqueueAs letter id_a) sent_a).1 = Done (RName name_a) /\ abs (perform (CallEnqueueAs letter id_a) sent_a).2 = abs sent_a.
Proof.
  apply (enqueue_as_once "h" 1000 letter letter id_a [] fresh sent_a sent_a (RName name_a) []); [exact fresh_trimmed|reflexivity|calls_ok_tac| |reflexivity].
  unfold sent_a. apply answers. vm_compute. reflexivity.
Defined.

Lemma sent_trimmed : trimmed sent_a.
Proof. destruct (perform_serves "h" 1000 (CallEnqueueAs letter id_a) fresh fresh_trimmed) as (_ & Ht & _); [vm_compute; reflexivity|exact Ht]. Qed.
Definition dropped_a := (perform (CallDrop name_a Undeliverable) sent_a).2.
Lemma undeliverable_has_letter_witness : exists m, dead_letter_name lead name_a = Done m /\ is_Some (a_messages (abs dropped_a) !! m) /\
  (a_messages (abs dropped_a) !! name_a ≫= fun r => drop_reason (r_value r)) = Some Undeliverable.
Proof.
  eexists. split; [vm_compute; reflexivity|].
  apply (undeliverable_has_letter "h" 1000 name_a lead _ sent_a (Done RDone) dropped_a); [exact sent_trimmed|calls_ok_tac| |vm_compute; reflexivity| |left; reflexivity].
  - exists (a_admit name_a letter 0 1). split; [vm_compute; reflexivity|]. split; [vm_compute; reflexivity|]. intros H. discriminate H.
  - unfold dropped_a. apply answers. vm_compute. reflexivity.
Defined.

(** A watcher from the beginning, told of the message after it was sent. *)
Definition watcher0 : Watcher := mkWatcher worker 0 [] false.
Definition watcher1 : Watcher := mkWatcher worker 1 [] false.
Definition told : list Change := [mkChange 1 name_a (CMessage Pending)].
Lemma watched : rtc (wstep (L := MemoryStore)) (fresh, watcher0, []) (sent_a, watcher0, []) /\ rtc (wstep (L := MemoryStore)) (fresh, watcher0, []) (sent_a, watcher1, told).
Proof.
  assert (rtc (wstep (L := MemoryStore)) (fresh, watcher0, []) (sent_a, watcher0, [])) as Hs
    by (unfold sent_a; apply rtc_once, ws_call; vm_compute; reflexivity).
  split; [exact Hs|]. eapply rtc_r; [exact Hs|]. apply (ws_poll 2 sent_a watcher0 (Yields (mkChange 1 name_a (CMessage Pending))) watcher1 []); vm_compute; [lia|reflexivity].
Qed.
Lemma watch_exact_witness : told ++ to_give (ib_log sent_a) watcher1 = changes_of worker 0 (il_changes (ib_log sent_a)).
Proof.
  apply (watch_exact "h" 1000 worker (Some 0) fresh watcher0 sent_a watcher1 told fresh_trimmed); [cbn; lia|vm_compute; reflexivity|exact (proj2 watched)].
Defined.
Lemma watch_catches_up_witness : (drain (length (il_changes (ib_log sent_a))) 2 (ib_log sent_a) watcher0).1 = told.
Proof.
  pose proof (watch_catches_up "h" 1000 worker (Some 0) fresh watcher0 sent_a watcher0 [] 2 fresh_trimmed) as H.
  destruct (drain _ _ _ _) as [given w']. destruct H as [Hg _]; [cbn; lia|vm_compute; reflexivity|exact (proj1 watched)|vm_compute; lia|].
  cbn [app fst] in Hg |- *. rewrite Hg. vm_compute. reflexivity.
Defined.
(** A process that stopped after the drop and before its letter. *)
Definition stopped : MemoryStore := ib_log (apply_locked name_a (EDrop (mkDrop Undeliverable)) sent_a).2.
Definition left_a : Resource sig := moved_by (a_admit name_a letter 0 1) (Dropped Undeliverable None None) 1 2.
Lemma stopped_sound : il_sound stopped /\ (map_to_list (il_messages stopped)).*1 = [name_a].
Proof.
  split; [|vm_compute; reflexivity]. pose proof (apply_sim "h" 1000 name_a (EDrop (mkDrop Undeliverable)) sent_a (tr_good _ _ _ sent_trimmed)) as H.
  unfold stopped. unfold sim in H. assert (match (apply_locked name_a (EDrop (mkDrop Undeliverable)) sent_a).1 with Done _ => true | _ => false end = true) as Hd by (vm_compute; reflexivity).
  destruct (apply_locked _ _ sent_a) as [[u|e|] s']; [|discriminate Hd|discriminate Hd]. destruct H as [_ [[Hg _ _] _]]; [vm_compute; reflexivity|]. apply Hg.
Qed.
Lemma open_recovers_witness : exists m, dead_letter_name lead name_a = Done m /\ il_messages stopped !! m = None /\
  match open_with_budgets (P := Z) "h" stopped 5 1000 1000 with Done s => is_Some (il_messages (ib_log s) !! m) | _ => False end.
Proof.
  eexists. split; [vm_compute; reflexivity|]. split; [vm_compute; reflexivity|].
  pose proof (open_recovers (P := Z) "h" stopped 5 1000 1000) as H.
  assert (match open_with_budgets (P := Z) "h" stopped 5 1000 1000 with Done _ => true | _ => false end = true) as Hdone by (vm_compute; reflexivity).
  destruct (open_with_budgets _ _ _ _ _) as [s| |]; [|discriminate Hdone|discriminate Hdone]. destruct stopped_sound as [Hs Hn].
  assert (forall n r, il_messages stopped !! n = Some r -> n = name_a) as Honly.
  { intros n r Hr%elem_of_map_to_list. apply (list_elem_of_fmap_2 fst) in Hr. rewrite Hn in Hr. by apply list_elem_of_singleton in Hr. }
  destruct H as [_ _ _ Hl _ _ _]; [exact Hs|vm_compute; discriminate|intros n r Hr _; rewrite (Honly n r Hr); vm_compute; reflexivity|].
  apply (Hl name_a left_a) with (to := lead); [vm_compute; reflexivity..|discriminate|vm_compute; reflexivity].
Defined.
End InboxExamples.
