(* ===== verification/Effects.v ===== *)
(** State, errors and panics for the resource store: a computation over a state
    that returns, fails or panics, keeping the writes it made before it failed. *)

From S2P Require Import Prelude.

Inductive outcome (E A : Type) : Type :=
| Done (a : A)
| Failed (e : E)
| Panics.
Arguments Done {E A} a.
Arguments Failed {E A} e.
Arguments Panics {E A}.

#[export] Instance outcome_ret {E} : MRet (outcome E) := fun A a => Done a.
#[export] Instance outcome_bind {E} : MBind (outcome E) := fun A B f o =>
  match o with Done a => f a | Failed e => Failed e | Panics => Panics end.

(** [Result] without a panic. *)
Definition of_result {E A} (r : result E A) : outcome E A := match r with Ok a => Done a | Err e => Failed e end.

Definition Eff (E St A : Type) : Type := St -> outcome E A * St.
#[export] Instance eff_ret {E St} : MRet (Eff E St) := fun A a s => (Done a, s).
#[export] Instance eff_bind {E St} : MBind (Eff E St) := fun A B f m s =>
  match m s with
  | (Done a, s') => f a s'
  | (Failed e, s') => (Failed e, s')
  | (Panics, s') => (Panics, s')
  end.

Section combinators.
Context {E St : Type}.
Definition gets {A} (f : St -> A) : Eff E St A := fun s => (Done (f s), s).
Definition modify (f : St -> St) : Eff E St unit := fun s => (Done tt, f s).
Definition fail {A} (e : E) : Eff E St A := fun s => (Failed e, s).
Definition panics {A} : Eff E St A := fun s => (Panics, s).
Definition lift {A} (r : result E A) : Eff E St A := fun s => (of_result r, s).
Definition when (b : bool) (m : Eff E St unit) : Eff E St unit := if b then m else mret tt.
Fixpoint for_each {A} (f : A -> Eff E St unit) (l : list A) : Eff E St unit :=
  match l with [] => mret tt | x :: l => f x ;; for_each f l end.
End combinators.

(** [collect] of results: the first error, or all the values. *)
Fixpoint collect {E A B} (f : A -> result E B) (l : list A) : result E (list B) :=
  match l with
  | [] => Ok []
  | x :: l => b ← f x; bs ← collect f l; Ok (b :: bs)
  end.

Lemma collect_Ok {E A B} (f : A -> result E B) l bs : collect f l = Ok bs <-> Forall2 (fun x b => f x = Ok b) l bs.
Proof.
  revert bs. induction l as [|x l IH]; intros bs; cbn.
  - split; [by intros [= <-]|by intros ->%Forall2_nil_inv_l].
  - split.
    + destruct (f x) as [b|e] eqn:Hx; [|done]. cbn. destruct (collect f l) as [bs'|e]; [|done]. cbn. intros [= <-]. constructor; [done|]. by apply IH.
    + intros (b & bs' & Hb & Hbs & ->)%Forall2_cons_inv_l. rewrite Hb. cbn. apply IH in Hbs. by rewrite Hbs.
Qed.

(** A stable sort, as [sort_by]: an element goes before the first that is not less or equal. *)
Section sort.
Context {A : Type} (le : A -> A -> bool).
Fixpoint insert_by (x : A) (l : list A) : list A :=
  match l with [] => [x] | y :: l' => if le x y then x :: l else y :: insert_by x l' end.
Definition sort_by (l : list A) : list A := foldr insert_by [] l.
Lemma insert_by_perm x l : insert_by x l ≡ₚ x :: l.
Proof. induction l as [|y l IH]; cbn; [done|]. destruct (le x y); [done|]. rewrite IH. constructor. Qed.
Lemma sort_by_perm l : sort_by l ≡ₚ l.
Proof. induction l as [|x l IH]; cbn; [done|]. by rewrite insert_by_perm, IH. Qed.
Lemma insert_by_sorted x l : (forall y, le x y = false -> le y x = true) -> Sorted le l -> Sorted le (insert_by x l).
Proof.
  intros Htot Hl. induction Hl as [|y l Hs IH Hhd]; cbn; [repeat constructor|].
  destruct (le x y) eqn:Hxy; [by repeat constructor; [..|rewrite Hxy]|]. constructor; [done|]. destruct l as [|z l]; cbn; [constructor; by rewrite (Htot y)|].
  destruct (le x z); constructor; [by rewrite (Htot y)|by inversion Hhd].
Qed.
Lemma sort_by_sorted l : (forall x y, le x y = false -> le y x = true) -> Sorted le (sort_by l).
Proof. intros Htot. induction l as [|x l IH]; cbn; [constructor|]. apply insert_by_sorted; [apply Htot|done]. Qed.
End sort.
