(* ===== verification/Kinds.v ===== *)
(** Resources as the store keeps them ([crates/flotilla-resources/src/resource.rs],
    [error.rs], [retention.rs], [watch.rs], [replica.rs] and
    [crates/flotilla-store/src/store.rs]): metadata, objects, kind descriptors
    and their encoding as JSON trees. *)

From Stdlib Require Import Ascii.
From S2P Require Import Prelude Schema Text Effects.
#[local] Open Scope Z_scope.

(** * Parameters *)

(** [serde_json]'s values, by the operations the store uses. *)
Class Json := {
  JValue : Type;
  JValue_eq_dec :: EqDecision JValue;
  jget : JValue -> string -> option JValue;
  as_str : JValue -> option string;
  as_array : JValue -> option (list JValue);
  as_object : JValue -> option (list (string * JValue));
  is_null : JValue -> bool;
  is_number : JValue -> bool;
  display : JValue -> string;
}.
(** [Value::pointer] and nested indexing, for paths of object keys. *)
Fixpoint pointer `{Json} (path : list string) (v : JValue) : option JValue :=
  match path with [] => Some v | key :: path => v ← jget v key; pointer path v end.

(** What the store carries without looking inside. *)
Class Carried := {
  WriterIdentity : Type;
  MergeMetadata : Type;
  MergeMetadata_eq_dec :: EqDecision MergeMetadata;
}.

Definition NodeId : Type := string.

Section kinds.
Context {JS : Json} {CR : Carried}.

(** * Errors *)

Record FieldOwnershipViolation : Type := mkViolation {
  fv_kind : string;
  fv_namespace : string;
  fv_name : string;
  fv_writer : WriterIdentity;
  fv_field : string;
  fv_attempted_value : JValue;
  fv_rule : string;
  fv_observed_at : Timestamp;
}.
Inductive FinalizerWaitReason : Type := CheckoutAuthority (checkout : string) (message : option string).
Inductive ResourceError : Type :=
| NotFound (name : string)
| Conflict (name message : string)
| Invalid (message : string)
| WatchExpired (requested_version : string) (compacted_through : option string)
| Unauthorized (message : string)
| FieldOwnership (violations : list FieldOwnershipViolation)
| FinalizerPending
| FinalizerWait (reasons : list FinalizerWaitReason)
| Other (message : string).
(** [rsplit_once] at a longer pattern: its last occurrence. *)
Fixpoint rsplit_at (pat t : list ascii) : option (list ascii * list ascii) :=
  match t with
  | [] => match pat with [] => Some ([], []) | _ => None end
  | c :: u =>
      match rsplit_at pat u with
      | Some (x, y) => Some (c :: x, y)
      | None => y ← strip_prefix pat t; Some ([], y)
      end
  end.
(** [FinalizerWaitReason]'s and [ResourceError]'s [Display]. *)
Definition wait_text (r : FinalizerWaitReason) : string :=
  match r with
  | CheckoutAuthority checkout message =>
      ("teardown waiting on checkout " +:+ checkout +:+
       match message with
       | Some m => match rsplit_at (tx " preserved: ") (tx m) with
                   | Some (_, reason) => ": preserved (" +:+ String.string_of_list_ascii reason +:+ ")"
                   | None => ": " +:+ m
                   end
       | None => EmptyString
       end)%string
  end.
Definition joined_texts (l : list string) : string := String.concat "; " l.
Definition error_text (e : ResourceError) : string :=
  match e with
  | NotFound name => "resource not found: " +:+ name
  | Conflict name message => "resource conflict for " +:+ name +:+ ": " +:+ message
  | Invalid message => "invalid resource: " +:+ message
  | WatchExpired requested (Some compacted) => "watch resourceVersion " +:+ requested +:+ " expired; events through " +:+ compacted +:+ " were compacted"
  | WatchExpired requested None => "watch resourceVersion " +:+ requested +:+ " expired"
  | Unauthorized message => "unauthorized: " +:+ message
  | FieldOwnership violations =>
      "field ownership refused " +:+ String.string_of_list_ascii (u64_to_string (Z.of_nat (length violations))) +:+ " violation(s): " +:+
      joined_texts (map (fun v => fv_field v +:+ " (" +:+ fv_rule v +:+ ")") violations)
  | FinalizerPending => "finalizer pending"
  | FinalizerWait reasons => joined_texts (map wait_text reasons)
  | Other message => message
  end%string.
Definition decode_error (message : string) : ResourceError := Other message.

(** * Objects *)

Record ApiPaths : Type := mkPaths { ap_group : string; ap_version : string; ap_plural : string; ap_kind : string }.
Record OwnerReference : Type := mkOwner { or_api_version : string; or_kind : string; or_name : string; or_controller : bool }.
#[export] Instance OwnerReference_eq_dec : EqDecision OwnerReference.
Proof. solve_decision. Defined.

Record InputMeta : Type := mkInput {
  im_name : string;
  im_labels : gmap string string;
  im_annotations : gmap string string;
  im_owner_references : list OwnerReference;
  im_finalizers : list string;
  im_deletion_timestamp : option Timestamp;
}.
Record ObjectMeta : Type := mkMeta {
  om_name : string;
  om_namespace : string;
  om_resource_version : string;
  om_labels : gmap string string;
  om_annotations : gmap string string;
  om_owner_references : list OwnerReference;
  om_finalizers : list string;
  om_deletion_timestamp : option Timestamp;
  om_creation_timestamp : Timestamp;
  om_merge : option MergeMetadata;
}.
(** [ResourceObject<SerializedResource>]: the spec and the status are JSON trees. *)
Record ResourceObject : Type := mkObject { ro_metadata : ObjectMeta; ro_spec : JValue; ro_status : option JValue }.

Definition is_pending_finalization (m : ObjectMeta) : bool := bool_decide (om_finalizers m <> []) && bool_decide (is_Some (om_deletion_timestamp m)).

(** [InputMeta::with_added_finalizer] and [without_finalizer]. *)
Definition with_added_finalizer (m : InputMeta) (finalizer : string) : InputMeta :=
  if forallb (fun existing => negb (bool_decide (existing = finalizer))) (im_finalizers m)
  then mkInput (im_name m) (im_labels m) (im_annotations m) (im_owner_references m) (im_finalizers m ++ [finalizer]) (im_deletion_timestamp m)
  else m.
Definition without_finalizer (m : InputMeta) (finalizer : string) : InputMeta :=
  mkInput (im_name m) (im_labels m) (im_annotations m) (im_owner_references m) (filter (fun existing => existing <> finalizer) (im_finalizers m)) (im_deletion_timestamp m).
(** [InputMeta::from] an object's metadata. *)
Definition input_of (m : ObjectMeta) : InputMeta :=
  mkInput (om_name m) (om_labels m) (om_annotations m) (om_owner_references m) (om_finalizers m) (om_deletion_timestamp m).

(** [ResourceObject::matches_update] and [matches_status], for serialized
    resources: their specs are compared as they are. *)
Definition matches_update (o : ResourceObject) (meta : InputMeta) (spec : JValue) : bool :=
  let m := ro_metadata o in
  bool_decide (om_name m = im_name meta) && bool_decide (om_labels m = im_labels meta) && bool_decide (om_annotations m = im_annotations meta) &&
  bool_decide (om_owner_references m = im_owner_references meta) && bool_decide (om_finalizers m = im_finalizers meta) &&
  bool_decide (om_deletion_timestamp m = im_deletion_timestamp meta) && bool_decide (ro_spec o = spec).
Definition matches_status (o : ResourceObject) (status : JValue) : bool :=
  match ro_status o with None => false | Some current => bool_decide (current = status) end.

Definition set_version (v : string) (m : ObjectMeta) : ObjectMeta :=
  mkMeta (om_name m) (om_namespace m) v (om_labels m) (om_annotations m) (om_owner_references m) (om_finalizers m) (om_deletion_timestamp m)
    (om_creation_timestamp m) (om_merge m).
Definition set_deletion (t : option Timestamp) (m : ObjectMeta) : ObjectMeta :=
  mkMeta (om_name m) (om_namespace m) (om_resource_version m) (om_labels m) (om_annotations m) (om_owner_references m) (om_finalizers m) t
    (om_creation_timestamp m) (om_merge m).

(** * Kind descriptors *)

Inductive ReplicationClass : Type := RNone | RDefinitions | RConvergentFacts | RHomeBoundRuntime | RObservations.
#[export] Instance ReplicationClass_eq_dec : EqDecision ReplicationClass.
Proof. solve_decision. Defined.
Inductive EventHistory : Type := Configured | LatestOnly.
Definition event_history_of (c : ReplicationClass) : EventHistory :=
  match c with RObservations => LatestOnly | RNone | RDefinitions | RConvergentFacts | RHomeBoundRuntime => Configured end.
Definition retained_events (h : EventHistory) (configured : nat) : nat := match h with Configured => configured | LatestOnly => 1%nat end.

(** [EventRetention::new]: at least one event is kept. *)
Definition event_retention_new (max_events : nat) : result ResourceError nat :=
  if bool_decide (max_events = 0%nat) then Err (Invalid "event retention must keep at least one event per resource stream") else Ok max_events.
Definition DEFAULT_MAX_EVENTS : nat := Z.to_nat 1024.

Record K8sResourceObject : Type := mkK8s {
  k8_api_version : string;
  k8_kind : string;
  k8_metadata : ObjectMeta;
  k8_spec : JValue;
  k8_status : option JValue;
}.
Record ResourceTombstone : Type := mkTombstone { rt_name : string; rt_namespace : string; rt_resource_version : string; rt_annotations : gmap string string }.
Record ResourceList : Type := mkList { rl_items : list ResourceObject; rl_resource_version : string; rl_generation : option string }.
Record ResourcePosition : Type := mkPosition { rp_resource_version : string; rp_generation : option string }.
Record ReplicaCursor : Type := mkCursor { rc_resource_version : string; rc_generation : option string }.
#[export] Instance ReplicaCursor_eq_dec : EqDecision ReplicaCursor.
Proof. solve_decision. Defined.
Inductive ResourceProvenance : Type := Local | Replica (origin_root : NodeId) (last_synced_at : Timestamp).
Inductive WatchStart : Type := Now | FromVersion (version : string) | FromVersionInGeneration (generation resource_version : string).
(** [WatchStart::resuming_from]. *)
Definition resuming_from (listed : ResourceList) : WatchStart :=
  match rl_generation listed with
  | Some generation => FromVersionInGeneration generation (rl_resource_version listed)
  | None => FromVersion (rl_resource_version listed)
  end.

(** A descriptor; [D] is the type its typed decoder gives. *)
Record ResourceKind (D : Type) : Type := mkKind {
  rk_paths : ApiPaths;
  rk_replication : ReplicationClass;
  rk_event_history : EventHistory;
  rk_queryable_fields : list string;
  rk_validate_namespace : bool;
  rk_validate_stored : K8sResourceObject -> result ResourceError unit;
  rk_decode_typed : JValue -> result ResourceError D;
  rk_initial_status : InputMeta -> result ResourceError (option JValue);
  rk_validate_spec : InputMeta -> JValue -> result ResourceError unit;
  rk_validate_spec_update : JValue -> JValue -> result ResourceError unit;
  rk_validate_status_update : option JValue -> JValue -> result ResourceError unit;
  rk_validate_siblings : InputMeta -> JValue -> list ResourceObject -> result ResourceError unit;
}.
End kinds.
#[global] Arguments mkKind {JS CR D}.
#[global] Arguments rk_paths {JS CR D}.
#[global] Arguments rk_replication {JS CR D}.
#[global] Arguments rk_event_history {JS CR D}.
#[global] Arguments rk_queryable_fields {JS CR D}.
#[global] Arguments rk_validate_namespace {JS CR D}.
#[global] Arguments rk_validate_stored {JS CR D}.
#[global] Arguments rk_decode_typed {JS CR D}.
#[global] Arguments rk_initial_status {JS CR D}.
#[global] Arguments rk_validate_spec {JS CR D}.
#[global] Arguments rk_validate_spec_update {JS CR D}.
#[global] Arguments rk_validate_status_update {JS CR D}.
#[global] Arguments rk_validate_siblings {JS CR D}.

(** * Encoding *)

Definition BOOTSTRAP_PATH_ANNOTATION : string := "flotilla.work/project-bootstrap-path".
Definition without_retired `{Json, Carried} (m : ObjectMeta) : ObjectMeta :=
  mkMeta (om_name m) (om_namespace m) (om_resource_version m) (om_labels m) (delete BOOTSTRAP_PATH_ANNOTATION (om_annotations m))
    (om_owner_references m) (om_finalizers m) (om_deletion_timestamp m) (om_creation_timestamp m) (om_merge m).

(** The derived serde of [K8sResourceObject]: what a written object reads back
    as, without the retired annotation and with a null status absent; the text
    of an error is left out. Cloning a tree through serde gives it back. *)
Class Serde `{JS : Json, CR : Carried} := {
  to_value : K8sResourceObject -> result string JValue;
  from_value : JValue -> result string K8sResourceObject;
  reserialize : JValue -> result string JValue;
  to_value_Ok o : exists v, to_value o = Ok v;
  from_to o v : to_value o = Ok v ->
    from_value v = Ok (mkK8s (k8_api_version o) (k8_kind o) (without_retired (k8_metadata o)) (k8_spec o)
      (s ← k8_status o; if is_null s then None else Some s));
  to_value_name o v : to_value o = Ok v -> (pointer ["metadata"; "name"] v ≫= as_str) = Some (om_name (k8_metadata o));
  to_value_version o v : to_value o = Ok v -> (pointer ["metadata"; "resourceVersion"] v ≫= as_str) = Some (om_resource_version (k8_metadata o));
  to_value_spec o v : to_value o = Ok v -> jget v "spec" = Some (k8_spec o);
  reserialize_Ok v : reserialize v = Ok v;
  (** The [json!] tree of a deleted name: it has no spec. *)
  json_tombstone : string -> string -> ResourceTombstone -> JValue;
  json_tombstone_name api kind t : (pointer ["metadata"; "name"] (json_tombstone api kind t) ≫= as_str) = Some (rt_name t);
  json_tombstone_version api kind t : (pointer ["metadata"; "resourceVersion"] (json_tombstone api kind t) ≫= as_str) = Some (rt_resource_version t);
  json_tombstone_spec api kind t : jget (json_tombstone api kind t) "spec" = None;
}.

Section descriptors.
Context {JS : Json} {CR : Carried} {SD : Serde} {D : Type}.
Implicit Types (k : ResourceKind D).

Definition api_version (p : ApiPaths) : string :=
  if bool_decide (ap_group p = EmptyString) then ap_version p else (ap_group p +:+ "/" +:+ ap_version p)%string.

(** [ResourceKind::from_k8s], [decode_object] and [encode_object]. *)
Definition from_k8s k (o : K8sResourceObject) : result ResourceError ResourceObject :=
  _ ← rk_validate_stored k o; Ok (mkObject (k8_metadata o) (k8_spec o) (k8_status o)).
Definition decode_object k (v : JValue) : result ResourceError ResourceObject :=
  o ← map_err (fun e => decode_error ("decode stored object: " +:+ e)%string) (from_value v); from_k8s k o.
Definition encode_object k (o : ResourceObject) : result ResourceError JValue :=
  map_err decode_error (to_value (mkK8s (api_version (rk_paths k)) (ap_kind (rk_paths k)) (ro_metadata o) (ro_spec o) (ro_status o))).
(** [validate_stored_object]: the typed decoder accepts the tree. *)
Definition validate_stored_object k (v : JValue) : result ResourceError unit := _ ← rk_decode_typed k v; Ok tt.
Definition initial_status k (meta : InputMeta) : result ResourceError (option JValue) :=
  status ← rk_initial_status k meta;
  match status with
  | Some s => _ ← rk_validate_status_update k None s; Ok status
  | None => Ok None
  end.
Definition encode_tombstone k (t : ResourceTombstone) : JValue :=
  json_tombstone (ap_group (rk_paths k) +:+ "/" +:+ ap_version (rk_paths k))%string (ap_kind (rk_paths k)) t.
(** [InMemoryBackend::clone_through_serde] of a tree. *)
Definition clone_through_serde (v : JValue) : result ResourceError JValue := map_err decode_error (reserialize v).

(** What an object reads back as. *)
Definition stored_form (o : ResourceObject) : ResourceObject :=
  mkObject (without_retired (ro_metadata o)) (ro_spec o) (s ← ro_status o; if is_null s then None else Some s).

Definition value_name (v : JValue) : option string := pointer ["metadata"; "name"] v ≫= as_str.
Definition value_version (v : JValue) : option string := pointer ["metadata"; "resourceVersion"] v ≫= as_str.

Lemma encode_object_Ok k o : exists v, encode_object k o = Ok v /\ value_name v = Some (om_name (ro_metadata o)) /\
  value_version v = Some (om_resource_version (ro_metadata o)) /\ jget v "spec" = Some (ro_spec o).
Proof.
  unfold encode_object. match goal with |- context [to_value ?x] => destruct (to_value_Ok x) as [v Hv] end. rewrite Hv. exists v.
  split_and!; [done|by apply to_value_name in Hv|by apply to_value_version in Hv|by apply to_value_spec in Hv].
Qed.
(** Decoding what was encoded gives the stored form, if the kind accepts it. *)
Lemma decode_encode k o v : encode_object k o = Ok v -> forall o', decode_object k v = Ok o' -> o' = stored_form o.
Proof.
  unfold encode_object, decode_object. destruct (to_value _) as [v'|] eqn:Hv; [|done]. cbn. intros [= ->] o'. rewrite (from_to _ _ Hv). cbn.
  unfold from_k8s. destruct (rk_validate_stored k _); [|done]. cbn. by intros [= <-].
Qed.
Lemma decoded_name k v o : decode_object k v = Ok o -> forall o0, encode_object k o0 = Ok v -> om_name (ro_metadata o) = om_name (ro_metadata o0).
Proof. intros Hd o0 He. by rewrite (decode_encode k o0 v He o Hd). Qed.
End descriptors.
#[global] Arguments value_name : simpl never.
#[global] Arguments value_version : simpl never.
