(* ===== verification/Inverted.v ===== *)
(** Inverted indexes: for each key the set of names it holds, without empty
    sets, kept beside the objects they index. *)

From S2P Require Import Prelude.

Section inverted.
Context {K : Type} `{Countable K}.
Implicit Types (m : gmap K (gset string)) (R : K -> string -> Prop).

(** Take a name out of a key's set, and the key out with its last name. *)
Definition remove_name (key : K) (name : string) m : gmap K (gset string) :=
  match m !! key with
  | Some names => let names := names ∖ {[name]} in if bool_decide (names = ∅) then delete key m else <[key := names]> m
  | None => m
  end.
(** [entry(key).or_default().insert(name)]. *)
Definition add_name (key : K) (name : string) m : gmap K (gset string) := <[key := {[name]} ∪ default ∅ (m !! key)]> m.

(** [m] holds exactly the pairs of [R]. *)
Definition inverts m R : Prop := (forall key names, m !! key = Some names -> names <> ∅) /\ forall key name, name ∈ default ∅ (m !! key) <-> R key name.

Lemma inverts_empty R : (forall key name, ~ R key name) -> inverts ∅ R.
Proof. intros HR. split; [done|]. intros key name. rewrite lookup_empty. cbn. set_solver. Qed.
Lemma inverts_iff m R R' : inverts m R -> (forall key name, R' key name <-> R key name) -> inverts m R'.
Proof. intros [H1 H2] HR. split; [done|]. intros key name. by rewrite HR. Qed.
Lemma inverts_lookup m R key names : inverts m R -> m !! key = Some names -> forall name, name ∈ names <-> R key name.
Proof. intros [_ H2] Hk name. rewrite <-H2. by rewrite Hk. Qed.
Lemma inverts_None m R key : inverts m R -> m !! key = None <-> forall name, ~ R key name.
Proof.
  intros [H1 H2]. split.
  - intros Hk name. rewrite <-H2, Hk. cbn. set_solver.
  - intros HR. destruct (m !! key) as [names|] eqn:Hk; [|done]. destruct (H1 _ _ Hk). apply set_eq. intros name. split; [|set_solver].
    intros Hn. destruct (HR name). apply H2. by rewrite Hk.
Qed.

Lemma remove_inverts m R key name : inverts m R -> inverts (remove_name key name m) (fun k n => R k n /\ (k, n) <> (key, name)).
Proof.
  intros Hm. pose proof Hm as [H1 H2]. unfold remove_name. destruct (m !! key) as [names|] eqn:Hk.
  - case_bool_decide as He; (split; [|intros k n; destruct (decide (k = key)) as [->|Hne]]).
    + intros k names' [_ Hx]%lookup_delete_Some. by eapply H1.
    + rewrite lookup_delete_eq. cbn. rewrite <-H2, Hk. cbn. destruct (decide (n = name)) as [->|Hn]; [set_solver|].
      assert (n ∉ names ∖ {[name]}) as Hx by (rewrite He; set_solver). split; [set_solver|]. intros [? _]. set_solver.
    + rewrite lookup_delete_ne, <-H2 by done. split; [intros ?; split; [done|congruence]|by intros [? _]].
    + intros k names' [[<- <-]|[_ Hx]]%lookup_insert_Some; [done|by eapply H1].
    + rewrite lookup_insert_eq. cbn. rewrite elem_of_difference, elem_of_singleton, <-H2, Hk. cbn. naive_solver.
    + rewrite lookup_insert_ne, <-H2 by done. naive_solver.
  - eapply inverts_iff; [exact Hm|]. intros k n. split; [by intros [? _]|]. intros HR. split; [done|]. intros [= -> ->]. by eapply (proj1 (inverts_None m R key Hm)).
Qed.
Lemma add_inverts m R key name : inverts m R -> inverts (add_name key name m) (fun k n => R k n \/ (k, n) = (key, name)).
Proof.
  intros [H1 H2]. unfold add_name. split.
  - intros k names [[<- <-]|[_ Hx]]%lookup_insert_Some; [set_solver|by eapply H1].
  - intros k n. rewrite <-H2. destruct (decide (k = key)) as [->|Hne]; [rewrite lookup_insert_eq; cbn; rewrite elem_of_union, elem_of_singleton; naive_solver|].
    rewrite lookup_insert_ne by done. naive_solver.
Qed.
(** Over all the keys of a name. *)
Lemma removes_inverts m R keys name : inverts m R -> inverts (foldl (fun m key => remove_name key name m) m keys) (fun k n => R k n /\ ~ (n = name /\ k ∈ keys)).
Proof.
  revert m R. induction keys as [|key keys IH]; intros m R Hm; cbn.
  - eapply inverts_iff; [exact Hm|]. set_solver.
  - eapply inverts_iff; [by apply IH, remove_inverts|]. cbn. intros k n. rewrite elem_of_cons. naive_solver.
Qed.
Lemma adds_inverts m R keys name : inverts m R -> inverts (foldl (fun m key => add_name key name m) m keys) (fun k n => R k n \/ (n = name /\ k ∈ keys)).
Proof.
  revert m R. induction keys as [|key keys IH]; intros m R Hm; cbn.
  - eapply inverts_iff; [exact Hm|]. set_solver.
  - eapply inverts_iff; [by apply IH, add_inverts|]. cbn. intros k n. rewrite elem_of_cons. naive_solver.
Qed.

(** An index whose pairs come from a map of names to keys keeps up with it. *)
Definition keyed {A} (keys_of : A -> list K) (kept : gmap string A) : K -> string -> Prop := fun k n => exists x, kept !! n = Some x /\ k ∈ keys_of x.
Lemma rekey_inverts {A} (keys_of : A -> list K) (kept : gmap string A) m name (fresh : option A) : inverts m (keyed keys_of kept) ->
  inverts (foldl (fun m key => add_name key name m) (foldl (fun m key => remove_name key name m) m (from_option keys_of [] (kept !! name))) (from_option keys_of [] fresh))
    (keyed keys_of (match fresh with Some x => <[name := x]> kept | None => delete name kept end)).
Proof.
  intros Hm. eapply inverts_iff; [by apply adds_inverts, removes_inverts|]. cbn. intros k n. unfold keyed. destruct (decide (n = name)) as [->|Hne].
  - destruct fresh as [x|]; [rewrite lookup_insert_eq|rewrite lookup_delete_eq]; cbn; destruct (kept !! name) as [y|]; cbn; set_solver.
  - destruct fresh as [x|]; [rewrite lookup_insert_ne by done|rewrite lookup_delete_ne by done]; cbn; naive_solver.
Qed.
End inverted.
