(* ===== verification/MessageIndex.v ===== *)
(** Message queries over indexes
    ([crates/flotilla-store-memory/src/message_query.rs]): the names a query
    selects are those a scan of the objects would. *)

From Stdlib Require Import Ascii.
From S2P Require Import Prelude Ordered Schema Text Effects Kinds Inverted.
#[local] Open Scope Z_scope.

Inductive MessagePhase : Type := Accepted | WaitingOnReferences | Deliverable | Delivered | Satisfied | Answered | OutcomeMet | Expired | Superseded | DeadLettered.
Definition is_terminal (p : MessagePhase) : bool :=
  match p with Satisfied | Answered | OutcomeMet | Expired | Superseded | DeadLettered => true | _ => false end.

Inductive MessageQuery : Type :=
| Active (receiver : option string)
| ReplyTo (name : string)
| Batch (id : string)
| AuditBefore (before : Timestamp).

(** The derived serde of [MessagePhase] and chrono's [parse_from_rfc3339]. *)
Class MessageSerde `{Json} := { message_phase : JValue -> option MessagePhase; parse_rfc3339 : string -> option Timestamp }.

Record MessageIndex : Type := mkMessages {
  mi_active : gset string;
  mi_audit : gmap Timestamp (gset string);
  mi_audit_keys : gmap string Timestamp;
  mi_receivers : gmap string (gset string);
  mi_replies : gmap string (gset string);
  mi_batches : gmap string (gset string);
  mi_keys : gmap string (option string * option string * option string);
}.
Definition no_messages : MessageIndex := mkMessages ∅ ∅ ∅ ∅ ∅ ∅ ∅.

Section message_index.
Context {JS : Json} {MS : MessageSerde}.
Implicit Types (v : JValue) (name : string) (idx : MessageIndex).

Definition text_at (path : list string) v : option string := pointer path v ≫= as_str.
Definition is_message v : bool := bool_decide ((jget v "kind" ≫= as_str) = Some "Message").
Definition is_active v : bool := negb (from_option is_terminal false (pointer ["status"; "phase"] v ≫= message_phase)).
Definition receiver_of v : option string := if is_active v then text_at ["spec"; "receiver"] v else None.
Definition reply_of v : option string := text_at ["spec"; "in_reply_to"] v.
Definition batch_of v : option string := text_at ["status"; "submission"; "batch_id"] v.
(** A terminal message whose body was not replaced by its digest is audited from its time. *)
Definition audit_of v : option Timestamp :=
  if is_active v then None
  else if from_option is_null true (pointer ["spec"; "body_digest"] v) then text_at ["status"; "since"] v ≫= parse_rfc3339 else None.

(** [MessageIndex::update]. *)
Definition message_update name (value : option JValue) idx : MessageIndex :=
  let active := mi_active idx ∖ {[name]} in
  let audit := foldl (fun m at_ => remove_name at_ name m) (mi_audit idx) (option_list (mi_audit_keys idx !! name)) in
  let audit_keys := delete name (mi_audit_keys idx) in
  let '(receiver0, reply0, batch0) := default (None, None, None) (mi_keys idx !! name) in
  let drop key m := foldl (fun m k => remove_name k name m) m (option_list key) in
  let receivers := drop receiver0 (mi_receivers idx) in
  let replies := drop reply0 (mi_replies idx) in
  let batches := drop batch0 (mi_batches idx) in
  let keys := delete name (mi_keys idx) in
  match value with
  | Some v =>
      if is_message v then
        let add key m := foldl (fun m k => add_name k name m) m (option_list key) in
        mkMessages (if is_active v then {[name]} ∪ active else active)
          (foldl (fun m at_ => add_name at_ name m) audit (option_list (audit_of v)))
          (match audit_of v with Some at_ => <[name := at_]> audit_keys | None => audit_keys end)
          (add (receiver_of v) receivers) (add (reply_of v) replies) (add (batch_of v) batches)
          (<[name := (receiver_of v, reply_of v, batch_of v)]> keys)
      else mkMessages active audit audit_keys receivers replies batches keys
  | None => mkMessages active audit audit_keys receivers replies batches keys
  end.

(** [MessageIndex::names]. *)
Definition message_names idx (query : MessageQuery) : list string :=
  match query with
  | Active None => set_iter (mi_active idx)
  | Active (Some receiver) => from_option set_iter [] (mi_receivers idx !! receiver)
  | ReplyTo name => from_option set_iter [] (mi_replies idx !! name)
  | AuditBefore before => flat_map (fun p => set_iter p.2) (filter (fun p => p.1 < before) (map_iter (mi_audit idx)))
  | Batch id => from_option set_iter [] (mi_batches idx !! id)
  end.

(** * What a query means *)

Definition message_matches (query : MessageQuery) v : Prop :=
  is_message v = true /\
  match query with
  | Active None => is_active v = true
  | Active (Some receiver) => receiver_of v = Some receiver
  | ReplyTo name => reply_of v = Some name
  | Batch id => batch_of v = Some id
  | AuditBefore before => exists at_, audit_of v = Some at_ /\ at_ < before
  end.

(** The messages among the objects. *)
Definition messages_in (objects : gmap string JValue) : gmap string JValue := filter (fun p => is_message p.2 = true) objects.
Definition holding (f : JValue -> option string) : gmap string JValue -> string -> string -> Prop := keyed (fun v => option_list (f v)).

Record message_index_ok (objects : gmap string JValue) idx : Prop := {
  mo_active : forall n, n ∈ mi_active idx <-> exists v, messages_in objects !! n = Some v /\ is_active v = true;
  mo_audit_keys : mi_audit_keys idx = omap audit_of (messages_in objects);
  mo_audit : inverts (mi_audit idx) (keyed (fun t => [t]) (mi_audit_keys idx));
  mo_keys : mi_keys idx = (fun v => (receiver_of v, reply_of v, batch_of v)) <$> messages_in objects;
  mo_receivers : inverts (mi_receivers idx) (holding receiver_of (messages_in objects));
  mo_replies : inverts (mi_replies idx) (holding reply_of (messages_in objects));
  mo_batches : inverts (mi_batches idx) (holding batch_of (messages_in objects));
}.

Definition put_object name (value : option JValue) (objects : gmap string JValue) : gmap string JValue :=
  match value with Some v => <[name := v]> objects | None => delete name objects end.

Lemma no_messages_ok : message_index_ok ∅ no_messages.
Proof.
  assert (messages_in ∅ = ∅) as He by (unfold messages_in; by rewrite map_filter_empty).
  split; unfold holding; rewrite ?He; cbn; try (apply inverts_empty; intros k n (x & Hx & _); by rewrite lookup_empty in Hx).
  - intros n. split; [set_solver|]. intros (v & Hv & _). by rewrite lookup_empty in Hv.
  - by rewrite omap_empty.
  - by rewrite fmap_empty.
Qed.

(** The value a message index sees: only a message. *)
Definition seen (value : option JValue) : option JValue := v ← value; if is_message v then Some v else None.
Lemma messages_in_put name value objects : messages_in (put_object name value objects) = put_object name (seen value) (messages_in objects).
Proof.
  unfold messages_in, seen. destruct value as [v|]; cbn; [|by rewrite map_filter_delete].
  destruct (is_message v) eqn:Hv; cbn; [by rewrite map_filter_insert_True|]. rewrite map_filter_insert_False by (cbn; congruence). by rewrite map_filter_delete.
Qed.
Lemma holding_step (f : JValue -> option string) objects m name value : inverts m (holding f objects) ->
  inverts (foldl (fun m k => add_name k name m) (foldl (fun m k => remove_name k name m) m (option_list (objects !! name ≫= f))) (option_list (value ≫= f)))
    (holding f (put_object name value objects)).
Proof.
  intros Hm. pose proof (rekey_inverts (fun v => option_list (f v)) objects m name value Hm) as Hr.
  destruct (objects !! name), value; exact Hr.
Qed.

(** An update, by what the index sees before and after. *)
Lemma message_update_eq name value idx : message_update name value idx =
  let '(receiver0, reply0, batch0) := default (None, None, None) (mi_keys idx !! name) in
  let move {K} `{Countable K} (key0 key : option K) m := foldl (fun m k => add_name k name m) (foldl (fun m k => remove_name k name m) m (option_list key0)) (option_list key) in
  let fresh := seen value in
  mkMessages (if from_option is_active false fresh then {[name]} ∪ mi_active idx ∖ {[name]} else mi_active idx ∖ {[name]})
    (move (mi_audit_keys idx !! name) (fresh ≫= audit_of) (mi_audit idx))
    (match fresh ≫= audit_of with Some t => <[name := t]> (delete name (mi_audit_keys idx)) | None => delete name (mi_audit_keys idx) end)
    (move receiver0 (fresh ≫= receiver_of) (mi_receivers idx)) (move reply0 (fresh ≫= reply_of) (mi_replies idx)) (move batch0 (fresh ≫= batch_of) (mi_batches idx))
    (match fresh with Some v => <[name := (receiver_of v, reply_of v, batch_of v)]> (delete name (mi_keys idx)) | None => delete name (mi_keys idx) end).
Proof.
  unfold message_update, seen. destruct (default (None, None, None) (mi_keys idx !! name)) as [[receiver0 reply0] batch0].
  destruct value as [v|]; [|done]. cbn. by destruct (is_message v).
Qed.

Lemma message_update_ok objects idx name value : message_index_ok objects idx -> message_index_ok (put_object name value objects) (message_update name value idx).
Proof.
  intros [Ha Hak Hau Hk Hr Hp Hb]. rewrite message_update_eq. set (old := messages_in objects) in *. set (fresh := seen value).
  assert (mi_keys idx !! name = (fun v => (receiver_of v, reply_of v, batch_of v)) <$> old !! name) as -> by (by rewrite Hk, lookup_fmap).
  assert (mi_audit_keys idx !! name = old !! name ≫= audit_of) as Han by (by rewrite Hak, lookup_omap).
  assert (forall o, default (None, None, None) ((fun v => (receiver_of v, reply_of v, batch_of v)) <$> o) = (o ≫= receiver_of, o ≫= reply_of, o ≫= batch_of)) as -> by (by intros [v|]).
  split; cbn [mi_active mi_audit mi_audit_keys mi_receivers mi_replies mi_batches mi_keys]; rewrite ?messages_in_put; fold old fresh.
  - intros n. destruct (decide (n = name)) as [->|Hne].
    + destruct fresh as [v|]; cbn; [rewrite lookup_insert_eq|rewrite lookup_delete_eq; set_solver]. destruct (is_active v) eqn:Hv; (split; [|intros (? & [= <-] & ?); (congruence || set_solver)]); [intros _; by exists v|set_solver].
    + transitivity (n ∈ mi_active idx); [destruct (from_option _ _ _); set_solver|]. rewrite Ha. destruct fresh as [v|]; cbn; [by rewrite lookup_insert_ne|by rewrite lookup_delete_ne].
  - rewrite Hak. destruct fresh as [v|]; cbn; [|by rewrite omap_delete]. destruct (audit_of v) as [t|] eqn:Ht.
    + by rewrite insert_delete_eq, (omap_insert_Some _ _ _ _ t).
    + by rewrite (omap_insert_None _ _ _ _ Ht).
  - pose proof (rekey_inverts (fun t => [t]) (mi_audit_keys idx) (mi_audit idx) name (fresh ≫= audit_of) Hau) as Hau'.
    rewrite Han in *. destruct (old !! name ≫= audit_of), (fresh ≫= audit_of); rewrite ?insert_delete_eq; exact Hau'.
  - rewrite Hk. destruct fresh as [v|]; cbn; [by rewrite insert_delete_eq, fmap_insert|by rewrite fmap_delete].
  - by apply holding_step.
  - by apply holding_step.
  - by apply holding_step.
Qed.

(** * Queries *)

Lemma messages_in_lookup objects n v : messages_in objects !! n = Some v <-> objects !! n = Some v /\ is_message v = true.
Proof. unfold messages_in. apply map_lookup_filter_Some. Qed.
Lemma holding_names f objects (m : gmap string (gset string)) key : inverts m (holding f (messages_in objects)) ->
  NoDup (from_option set_iter [] (m !! key)) /\ forall n, n ∈ from_option set_iter [] (m !! key) <-> exists v, objects !! n = Some v /\ is_message v = true /\ f v = Some key.
Proof.
  intros Hm. assert (forall n, n ∈ from_option set_iter [] (m !! key) <-> n ∈ default ∅ (m !! key)) as Hset.
  { intros n. destruct (m !! key); cbn; [apply elem_of_set_iter|set_solver]. }
  split; [destruct (m !! key); cbn; [rewrite set_iter_perm; apply NoDup_elements|constructor]|].
  intros n. rewrite Hset, (proj2 Hm). unfold holding, keyed. split.
  - intros (v & [Hv Hms]%messages_in_lookup & Hf). exists v. split_and!; [done|done|]. destruct (f v); cbn in Hf; [|set_solver]. apply list_elem_of_singleton in Hf. congruence.
  - intros (v & Hv & Hms & Hf). exists v. split; [by apply messages_in_lookup|]. rewrite Hf. set_solver.
Qed.
(** Sets under distinct keys that each name knows give each name once. *)
Lemma flat_names (l : list (Timestamp * gset string)) (key : string -> option Timestamp) : NoDup l.*1 -> (forall t ns n, (t, ns) ∈ l -> n ∈ ns -> key n = Some t) ->
  NoDup (flat_map (fun p => set_iter p.2) l) /\ forall n, n ∈ flat_map (fun p => set_iter p.2) l <-> exists t ns, (t, ns) ∈ l /\ n ∈ ns.
Proof.
  induction l as [|[t ns] l IH]; intros Hd Hkey; cbn [flat_map]; [split; [constructor|set_solver]|]. cbn in Hd. apply NoDup_cons in Hd as [Ht Hd].
  destruct IH as [IH1 IH2]; [done|intros t' ns' n Hin; apply Hkey; set_solver|]. split.
  - apply NoDup_app. split_and!; [rewrite set_iter_perm; apply NoDup_elements| |done]. intros n Hn%elem_of_set_iter (t' & ns' & Hin & Hn')%IH2. cbn in Hn.
    assert (key n = Some t) as H1 by (eapply Hkey; [|exact Hn]; set_solver). assert (key n = Some t') as H2 by (eapply Hkey; [|exact Hn']; set_solver).
    rewrite H1 in H2. injection H2 as <-. apply Ht. exact (list_elem_of_fmap_2 fst _ _ Hin).
  - intros n. rewrite elem_of_app, elem_of_set_iter, IH2. cbn. set_solver.
Qed.
Lemma audit_names objects idx before : message_index_ok objects idx ->
  let names := flat_map (fun p => set_iter p.2) (filter (fun p => p.1 < before) (map_iter (mi_audit idx))) in
  NoDup names /\ forall n, n ∈ names <-> exists v, objects !! n = Some v /\ is_message v = true /\ exists at_, audit_of v = Some at_ /\ at_ < before.
Proof.
  intros [_ Hak Hau _ _ _ _] names. assert (forall n t, mi_audit_keys idx !! n = Some t <-> exists v, objects !! n = Some v /\ is_message v = true /\ audit_of v = Some t) as Hkey.
  { intros n t. rewrite Hak, lookup_omap. split; [|by intros (v & Hv & Hms & Ht); rewrite (proj2 (messages_in_lookup objects n v) (conj Hv Hms))].
    destruct (messages_in objects !! n) as [v|] eqn:Hv; [|done]. apply messages_in_lookup in Hv as [Hv Hms]. intros Ht. by exists v. }
  assert (forall t ns n, (t, ns) ∈ map_iter (mi_audit idx) -> n ∈ ns <-> mi_audit_keys idx !! n = Some t) as Hin.
  { intros t ns n Hx%elem_of_map_iter. rewrite (inverts_lookup _ _ _ _ Hau Hx n). unfold keyed. split; [intros (x & Hx' & ->%list_elem_of_singleton); done|]. intros Ht. exists t. set_solver. }
  destruct (flat_names (filter (fun p => p.1 < before) (map_iter (mi_audit idx))) (fun n => mi_audit_keys idx !! n)) as [Hd Hn].
  - eapply sublist_NoDup; [apply (NoDup_map_iter_fst (mi_audit idx))|apply fmap_sublist, sublist_filter].
  - intros t ns n [_ Hp]%list_elem_of_filter Hns. by apply (Hin t ns n Hp).
  - split; [exact Hd|]. intros n. unfold names. rewrite Hn. split.
    + intros (t & ns & [Hlt Hp]%list_elem_of_filter & Hns). apply (Hin t ns n Hp), Hkey in Hns as (v & Hv & Hms & Ht). exists v. split_and!; [done|done|]. by exists t.
    + intros (v & Hv & Hms & t & Ht & Hlt). assert (mi_audit_keys idx !! n = Some t) as Hk by (apply Hkey; by exists v).
      destruct (mi_audit idx !! t) as [ns|] eqn:Hns; [|exfalso; eapply (proj1 (inverts_None _ _ t Hau) Hns n); exists t; set_solver].
      exists t, ns. apply elem_of_map_iter in Hns. split; [by apply list_elem_of_filter|by apply (Hin t ns n Hns)].
Qed.

(** The names a message query takes from the indexes are exactly those of the
    objects it describes, once each. *)
Lemma message_query_exact objects idx query : message_index_ok objects idx ->
  NoDup (message_names idx query) /\ forall n, n ∈ message_names idx query <-> exists v, objects !! n = Some v /\ message_matches query v.
Proof.
  intros Hok. unfold message_matches. destruct query as [[receiver|]|name|id|before]; cbn [message_names].
  - apply (holding_names receiver_of). apply Hok.
  - split; [rewrite set_iter_perm; apply NoDup_elements|]. intros n. rewrite elem_of_set_iter, (mo_active _ _ Hok). setoid_rewrite messages_in_lookup. naive_solver.
  - apply (holding_names reply_of). apply Hok.
  - apply (holding_names batch_of). apply Hok.
  - by apply audit_names.
Qed.
End message_index.
