(* ===== verification/QueryIndex.v ===== *)
(** Declared queries over inverted indexes ([crates/flotilla-store/src/query.rs]):
    what is indexed of an object, the index, and what it selects. *)

From Stdlib Require Import Ascii.
From S2P Require Import Prelude Ordered Schema Text Effects Kinds Inverted MessageIndex.
#[local] Open Scope Z_scope.

Definition str (t : list ascii) : string := String.string_of_list_ascii t.

(** The specs whose virtual fields are indexed, as far as the index reads them:
    a convoy's declared subjects, a forge's hosts, SSH host and address, and a
    repository's catalog targets. *)
Class IndexedSpecs `{Json} := {
  convoy_subjects : JValue -> option (list JValue);
  forge_spec : JValue -> option (list string * string * string);
  repository_targets : JValue -> option (gset string);
  json_strings : list string -> string;
}.

(** * Queries *)

Record OwnerQuery : Type := mkOwnerQuery { oq_api_version : string; oq_kind : string; oq_name : string }.
Record ReplicaShadowing : Type := mkShadowing { sh_origin_root : NodeId; sh_local_names : gset string }.

Inductive StoreQuery : Type := mkQuery {
  sq_labels : list (string * string);
  sq_fields : list (string * string);
  sq_field_values : list (string * list string);
  sq_field_prefixes : list (string * string);
  sq_missing_fields : list string;
  sq_field_matches_query : list (string * (option string * string * StoreQuery));
  sq_merged_definitions : bool;
  sq_owner : option OwnerQuery;
  sq_any_of : option (list StoreQuery);
  sq_present : list string;
  sq_label_prefixes : list (string * string);
  sq_all_sources_for_matches : bool;
  sq_message : option MessageQuery;
  sq_include_replicas : bool;
  sq_replicas_only : bool;
  sq_replica_shadowing : option ReplicaShadowing;
  sq_suppress_self_origin : bool;
}.
Definition query_default : StoreQuery := mkQuery [] [] [] [] [] [] false None None [] [] false None false false None true.
Definition query_labels (labels : gmap string string) (include_replicas suppress : bool) : StoreQuery :=
  mkQuery (map_iter labels) [] [] [] [] [] false None None [] [] false None include_replicas false None suppress.

Inductive ReadOperation : Type := OpList | OpQuery | OpGet.
(** [StoreQuery::read_operation]: without a selector a query is a list. *)
Definition read_operation (q : StoreQuery) : ReadOperation :=
  if bool_decide (sq_labels q <> []) || bool_decide (sq_fields q <> []) || bool_decide (sq_field_values q <> []) || bool_decide (sq_field_prefixes q <> []) ||
     bool_decide (sq_missing_fields q <> []) || bool_decide (sq_field_matches_query q <> []) || bool_decide (is_Some (sq_owner q)) ||
     bool_decide (is_Some (sq_any_of q)) || bool_decide (sq_present q <> []) || bool_decide (sq_label_prefixes q <> []) || bool_decide (is_Some (sq_message q))
  then OpQuery else OpList.

(** * What is indexed of an object *)

(** [str::split_once] with a text pattern. *)
Fixpoint split_at (pat t : list ascii) : option (list ascii * list ascii) :=
  match strip_prefix pat t with
  | Some rest => Some ([], rest)
  | None => match t with [] => None | c :: t => p ← split_at pat t; Some (c :: p.1, p.2) end
  end.
Definition first_some {A} (a b : option A) : option A := match a with Some _ => a | None => b end.

Section index_keys.
Context {JS : Json} {IX : IndexedSpecs}.
Implicit Types (v : JValue).

Definition value_text v : option string :=
  match as_str v with
  | Some s => Some s
  | None => if bool_decide (is_Some (as_object v)) || is_number v then Some (display v) else None
  end.
Definition kind_is v (kind : string) : bool := bool_decide ((jget v "kind" ≫= as_str) = Some kind).

(** [declared_field_value]: quoted annotation and label keys, or dotted components. *)
Definition quoted_key (section path : string) : option string :=
  str <$> (strip_prefix (tx "metadata." ++ tx section ++ tx "." ++ [quote]) (tx path) ≫= strip_suffix [quote]).
Definition declared_field_value v (path : string) : option JValue :=
  match quoted_key "annotations" path with
  | Some key => pointer ["metadata"; "annotations"; key] v
  | None =>
      match quoted_key "labels" path with
      | Some key => pointer ["metadata"; "labels"; key] v
      | None => pointer (map str (split dot (tx path))) v
      end
  end.
(** [array_field_path]: the array and what follows its wildcard. *)
Definition array_field_path (path : string) : option (string * string) :=
  let t := tx path in
  (fun p => (str p.1, str p.2)) <$>
    first_some (split_at (tx "[].") t) (first_some (split_at (tx ".*.") t) ((fun array => (array, [])) <$> strip_suffix (tx ".*") t)).
Fixpoint walk (parts : list string) v : list string :=
  match parts with
  | [] => option_list (value_text v)
  | part :: parts =>
      if bool_decide (part = "*") then
        match as_array v with
        | Some values => flat_map (walk parts) values
        | None => match as_object v with Some fields => flat_map (fun p => walk parts p.2) fields | None => [] end
        end
      else from_option (walk parts) [] (jget v part)
  end.
Definition legacy_convoy v : bool :=
  match jget v "spec" with
  | Some spec =>
      from_option (fun request => negb (is_null request)) false (jget spec "change_request") ||
      from_option (fun issues => bool_decide (issues <> [])) false (jget spec "issues" ≫= as_array)
  | None => false
  end.
Definition lowered (s : string) : string := str (to_ascii_lowercase (tx s)).
Definition url_host (url : string) : option string := p ← split_at (tx "://") (tx url); str <$> head (split slash p.2).

(** The virtual fields of convoys, forges and repositories. *)
Definition virtual_field_values v (path : string) : option (list string) :=
  let spec := jget v "spec" in
  if bool_decide (path = "spec.subjects.*.subject") && kind_is v "Convoy" && legacy_convoy v then map display <$> (spec ≫= convoy_subjects)
  else if bool_decide (path = "spec.remote_hosts.*") && kind_is v "Forge" then
    (fun f => let '(hosts, ssh, url) := f in set_iter (list_to_set (map lowered (hosts ++ [ssh] ++ option_list (url_host url))) : gset string)) <$> (spec ≫= forge_spec)
  else if bool_decide (path = "spec.catalog_targets.*") && kind_is v "Repository" then set_iter <$> (spec ≫= repository_targets)
  else None.
Definition declared_field_values v (path : string) : list string :=
  match virtual_field_values v path with
  | Some values => values
  | None =>
      match array_field_path path with
      | Some (array, suffix) =>
          from_option (walk ("*" :: if bool_decide (suffix = EmptyString) then [] else map str (split dot (tx suffix)))) [] (declared_field_value v array)
      | None => option_list (declared_field_value v path ≫= value_text)
      end
  end.

(** The keys an object is indexed under; [declared] are the registered kinds
    with their queryable fields. *)
Context (declared : list (string * list string)).
Definition label_key (k : string) : string := ("label:" +:+ k)%string.
Definition field_key (path : string) : string := ("field:" +:+ path)%string.
Definition present_key (path : string) : string := ("present:" +:+ path)%string.
Definition missing_key (path : string) : string := ("missing:" +:+ path)%string.
Definition owner_text (version kind name : string) : string := json_strings [version; kind; name].
Definition label_keys v : list (string * string) :=
  omap (fun p => value ← as_str p.2; Some (label_key p.1, value)) (default [] (pointer ["metadata"; "labels"] v ≫= as_object)).
Definition field_keys v : list (string * string) :=
  match list_find (fun kind => (jget v "kind" ≫= as_str) = Some kind.1) declared with
  | Some (_, kind) =>
      flat_map (fun path =>
        let fields := declared_field_values v path in
        (if bool_decide (fields = []) then (missing_key path, EmptyString) else (present_key path, EmptyString)) :: map (fun value => (field_key path, value)) fields) kind.2
  | None => []
  end.
Definition owner_keys v : list (string * string) :=
  omap (fun owner => version ← jget owner "apiVersion" ≫= as_str; kind ← jget owner "kind" ≫= as_str; name ← jget owner "name" ≫= as_str;
    Some ("owner", owner_text version kind name)) (default [] (pointer ["metadata"; "ownerReferences"] v ≫= as_array)).
Definition index_keys v : list (string * string) := label_keys v ++ field_keys v ++ owner_keys v.
End index_keys.

(** * The index *)

Record QueryIndex : Type := mkIndex {
  qi_names : gset string;
  qi_entries : gmap (string * string) (gset string);
  qi_keys : gmap string (list (string * string));
}.
Definition no_index : QueryIndex := mkIndex ∅ ∅ ∅.

Definition starts_with (prefix s : string) : bool := String.prefix prefix s.
Fixpoint take_while {A} (f : A -> bool) (l : list A) : list A := match l with [] => [] | x :: l => if f x then x :: take_while f l else [] end.
(** [entries.range(from..).take_while(..)]. *)
Definition range_while (from : string * string) (f : string * string -> bool) (entries : gmap (string * string) (gset string)) : list (string * string * gset string) :=
  take_while (fun p => f p.1) (filter (fun p => ord_le from p.1) (map_iter entries)).
Definition narrow (found : option (gset string)) (names : gset string) : option (gset string) :=
  Some (match found with None => names | Some found => found ∩ names end).
Definition holders (idx : QueryIndex) (key : string * string) : gset string := default ∅ (qi_entries idx !! key).

(** Keys with a common prefix stand together. *)
Lemma prefix_between p b c : String.le p b -> String.le b c -> starts_with p c = true -> starts_with p b = true.
Proof.
  unfold starts_with, String.le, String.leb. revert b c. induction p as [|x p IH]; intros b c; [by destruct b|].
  destruct b as [|y b]; [done|]. destruct c as [|z c]; [done|]. cbn. intros H1 H2. destruct (ascii_dec x z) as [<-|]; [|done]. intros Hp.
  destruct (Ascii.compare x y) eqn:Hxy; [|rewrite Ascii.compare_antisym, Hxy in H2; done|done].
  apply Ascii.compare_eq_iff in Hxy as <-. destruct (ascii_dec x x) as [?|Hn]; [|by destruct Hn].
  assert (Ascii.compare x x = Eq) as Hxx by (unfold Ascii.compare; apply N.compare_refl). rewrite Hxx in H2. by apply (IH b c).
Qed.
Lemma prefix_le p b : starts_with p b = true -> String.le p b.
Proof.
  unfold starts_with, String.le, String.leb. revert b. induction p as [|x p IH]; intros b; [by destruct b|]. destruct b as [|y b]; [done|]. cbn.
  destruct (ascii_dec x y) as [<-|]; [|done]. assert (Ascii.compare x x = Eq) as -> by (unfold Ascii.compare; apply N.compare_refl). apply IH.
Qed.
Lemma take_while_sorted {A} (R : relation A) (f : A -> bool) l : StronglySorted R l -> (forall x y, x ∈ l -> y ∈ l -> R x y -> f y = true -> f x = true) ->
  forall x, x ∈ take_while f l <-> x ∈ l /\ f x = true.
Proof.
  induction 1 as [|y l Hs IH Hall]; intros Hdown x; cbn; [set_solver|]. rewrite Forall_forall in Hall. destruct (f y) eqn:Hy.
  - rewrite !elem_of_cons, IH; [naive_solver|]. intros a b Ha Hb. apply Hdown; set_solver.
  - split; [set_solver|]. rewrite elem_of_cons. intros [[->|Hx] Hf]; [congruence|]. rewrite (Hdown y x) in Hy; [done|set_solver|set_solver|by apply Hall|done].
Qed.
Lemma elem_of_range_while from f entries key names : (forall a b, ord_le from a -> ord_le a b -> f b = true -> f a = true) ->
  (key, names) ∈ range_while from f entries <-> entries !! key = Some names /\ ord_le from key /\ f key = true.
Proof.
  intros Hdown. unfold range_while. pose proof (map_iter_sorted entries) as Hs. apply Sorted_StronglySorted in Hs; [|intros a b c; unfold key_le; apply transitivity].
  assert (StronglySorted key_le (filter (fun p => ord_le from p.1) (map_iter entries))) as Hs'.
  { clear Hdown. induction Hs as [|p l Hs IH Hall]; [constructor|]. rewrite filter_cons. case_decide; [|done]. constructor; [done|].
    rewrite Forall_forall in *. intros q [_ Hq]%list_elem_of_filter. by apply Hall. }
  rewrite (take_while_sorted key_le _ _ Hs').
  - rewrite list_elem_of_filter, elem_of_map_iter. cbn. naive_solver.
  - intros x y [Hx _]%list_elem_of_filter _ Hxy. by apply Hdown.
Qed.

Lemma prefix_down (field prefix : string) (a b : string * string) : ord_le (field, prefix) a -> ord_le a b ->
  bool_decide (b.1 = field) && starts_with prefix b.2 = true -> bool_decide (a.1 = field) && starts_with prefix a.2 = true.
Proof.
  destruct a as [f x], b as [g y]. cbn. unfold pair_le. cbn. intros [H1 H2] [H3 H4] [->%bool_decide_eq_true Hp]%andb_true_iff.
  assert (f = field) as -> by (by apply (anti_symm ord_le)). rewrite bool_decide_true by done. apply (prefix_between prefix x y); auto.
Qed.
Lemma field_down (field : string) (a b : string * string) : ord_le (field, EmptyString) a -> ord_le a b -> bool_decide (b.1 = field) = true -> bool_decide (a.1 = field) = true.
Proof.
  destruct a as [f x], b as [g y]. cbn. unfold pair_le. cbn. intros [H1 H2] [H3 H4] ->%bool_decide_eq_true. apply bool_decide_eq_true. by apply (anti_symm ord_le).
Qed.

(** Induction on a query through its subqueries. *)
Fixpoint query_size (q : StoreQuery) : nat :=
  match q with
  | mkQuery _ _ _ _ _ matches _ _ any_of _ _ _ _ _ _ _ _ =>
      S (sum_list (map (fun m => query_size m.2.2) matches) + match any_of with Some qs => sum_list (map query_size qs) | None => 0 end)
  end%nat.
Lemma sum_list_map {A} (f : A -> nat) l x : x ∈ l -> (f x <= sum_list (map f l))%nat.
Proof. induction l as [|y l IH]; cbn; [set_solver|]. intros [->|Hx]%elem_of_cons; [lia|]. specialize (IH Hx). lia. Qed.
Lemma query_ind (P : StoreQuery -> Prop) :
  (forall q, (forall m, m ∈ sq_field_matches_query q -> P m.2.2) -> (forall qs sub, sq_any_of q = Some qs -> sub ∈ qs -> P sub) -> P q) -> forall q, P q.
Proof.
  intros Hstep q. remember (query_size q) as n eqn:Hn. revert q Hn. induction (lt_wf n) as [n _ IH]. intros q ->. apply Hstep.
  - intros m Hm. refine (IH _ _ m.2.2 eq_refl). destruct q. cbn in *. pose proof (sum_list_map (fun m => query_size m.2.2) _ m Hm) as Hle. cbn in Hle. lia.
  - intros qs sub Hqs Hin. refine (IH _ _ sub eq_refl). destruct q. cbn in *. subst. pose proof (sum_list_map query_size _ sub Hin). lia.
Qed.
Section index.
Context {JS : Json} {IX : IndexedSpecs} (declared : list (string * list string)).
Implicit Types (idx : QueryIndex).

(** [QueryIndex::update]. *)
Definition query_update (name : string) (value : option JValue) idx : QueryIndex :=
  let entries := foldl (fun m key => remove_name key name m) (qi_entries idx) (default [] (qi_keys idx !! name)) in
  match value with
  | None => mkIndex (qi_names idx ∖ {[name]}) entries (delete name (qi_keys idx))
  | Some v =>
      let keys := index_keys declared v in
      mkIndex ({[name]} ∪ qi_names idx ∖ {[name]}) (foldl (fun m key => add_name key name m) entries keys) (<[name := keys]> (delete name (qi_keys idx)))
  end.
(** [QueryIndex::values]. *)
Definition query_values idx (field : string) (names : gset string) : gset string :=
  list_to_set (flat_map (fun name => omap (fun key => if bool_decide (key.1 = field_key field) then Some key.2 else None) (default [] (qi_keys idx !! name))) (set_iter names)).

Definition owner_key (owner : OwnerQuery) : string := owner_text (oq_api_version owner) (oq_kind owner) (oq_name owner).
Definition required_keys (q : StoreQuery) : list (string * string) :=
  map (fun p => (label_key p.1, p.2)) (sq_labels q) ++ map (fun p => (field_key p.1, p.2)) (sq_fields q) ++
  map (fun path => (present_key path, EmptyString)) (sq_present q) ++ option_list ((fun owner => ("owner", owner_key owner)) <$> sq_owner q).
Definition prefix_keys (q : StoreQuery) : list (string * string) :=
  map (fun p => (field_key p.1, p.2)) (sq_field_prefixes q) ++ map (fun p => (label_key p.1, p.2)) (sq_label_prefixes q).
Definition prefixed idx (field prefix : string) : gset string :=
  ⋃ map snd (range_while (field, prefix) (fun key => bool_decide (key.1 = field) && starts_with prefix key.2) (qi_entries idx)).
(** The values of a source field on the selected names, and the names they match. *)
Definition joined idx (path field : string) (selected : gset string) : gset string :=
  let source := field_key field in
  let values := map (fun p => p.1.2) (filter (fun p => ~ p.2 ## selected)
    (range_while (source, EmptyString) (fun key => bool_decide (key.1 = source)) (qi_entries idx))) in
  ⋃ map (fun value => holders idx (field_key path, value)) values.

(** [QueryIndex::names]. *)
Fixpoint query_names idx (q : StoreQuery) {struct q} : gset string :=
  match q with
  | mkQuery _ _ field_values _ missing matches _ _ any_of _ _ _ _ _ _ _ _ =>
      let selections := map (fun m => let '(path, (_, field, sub)) := m in joined idx path field (query_names idx sub)) matches in
      let alternatives := match any_of with Some qs => [⋃ map (query_names idx) qs] | None => [] end in
      if forallb (fun key => bool_decide (is_Some (qi_entries idx !! key))) (required_keys q) then
        let found := foldl narrow None (map (holders idx) (required_keys q)) in
        let found := foldl narrow found (map (fun p => ⋃ map (fun value => holders idx (field_key p.1, value)) p.2) field_values) in
        let found := foldl narrow found (map (fun p => prefixed idx p.1 p.2) (prefix_keys q)) in
        let found := foldl narrow found (map (fun path => holders idx (missing_key path, EmptyString)) missing) in
        let found := foldl narrow found selections in
        let found := foldl narrow found alternatives in
        default (qi_names idx) found
      else ∅
  end.

(** * What a query means *)

Definition conj_all (ps : list Prop) : Prop := foldr and True ps.
Fixpoint selects (objects : gmap string JValue) (q : StoreQuery) (v : JValue) {struct q} : Prop :=
  match q with
  | mkQuery _ _ field_values _ missing matches _ _ any_of _ _ _ _ _ _ _ _ =>
      let keys := index_keys declared v in
      (forall key, key ∈ required_keys q -> key ∈ keys) /\
      (forall path values, (path, values) ∈ field_values -> exists value, value ∈ values /\ (field_key path, value) ∈ keys) /\
      (forall field prefix, (field, prefix) ∈ prefix_keys q -> exists value, (field, value) ∈ keys /\ starts_with prefix value = true) /\
      (forall path, path ∈ missing -> (missing_key path, EmptyString) ∈ keys) /\
      conj_all (map (fun m => let '(path, (_, field, sub)) := m in
        exists value n' v', (field_key path, value) ∈ keys /\ objects !! n' = Some v' /\ selects objects sub v' /\ (field_key field, value) ∈ index_keys declared v') matches) /\
      match any_of with Some qs => foldr or False (map (fun alternative => selects objects alternative v) qs) | None => True end
  end.

(** * The index against its objects *)

Record query_index_ok (objects : gmap string JValue) idx : Prop := {
  qo_names : qi_names idx = dom objects;
  qo_keys : qi_keys idx = index_keys declared <$> objects;
  qo_entries : inverts (qi_entries idx) (keyed (fun keys => keys) (qi_keys idx));
}.
Lemma no_index_ok : query_index_ok ∅ no_index.
Proof.
  split; cbn; [by rewrite dom_empty_L|by rewrite fmap_empty|]. apply inverts_empty. intros k n (x & Hx & _). by rewrite lookup_empty in Hx.
Qed.
Lemma query_update_ok objects idx name value : query_index_ok objects idx -> query_index_ok (put_object name value objects) (query_update name value idx).
Proof.
  intros [Hn Hk He]. pose proof (rekey_inverts (fun keys => keys) (qi_keys idx) (qi_entries idx) name (index_keys declared <$> value) He) as He'.
  unfold query_update. assert (default [] (qi_keys idx !! name) = from_option (fun keys => keys) [] (qi_keys idx !! name)) as -> by done.
  destruct value as [v|]; cbn in *; split; cbn; rewrite ?insert_delete_eq; try exact He'.
  - rewrite dom_insert_L, Hn. apply set_eq. intros n. destruct (decide (n = name)); set_solver.
  - by rewrite Hk, fmap_insert.
  - by rewrite dom_delete_L, Hn.
  - by rewrite Hk, fmap_delete.
Qed.

Lemma conj_all_map {A} (f : A -> Prop) (l : list A) : conj_all (map f l) <-> forall x, x ∈ l -> f x.
Proof. unfold conj_all. induction l as [|x l IH]; cbn; [set_solver|]. rewrite IH. set_solver. Qed.
Lemma disj_map {A} (f : A -> Prop) (l : list A) : foldr or False (map f l) <-> exists x, x ∈ l /\ f x.
Proof. induction l as [|x l IH]; cbn; [set_solver|]. rewrite IH. set_solver. Qed.

Section exact.
Context (objects : gmap string JValue) (idx : QueryIndex) (Hok : query_index_ok objects idx).

Lemma elem_of_holders key n : n ∈ holders idx key <-> exists v, objects !! n = Some v /\ key ∈ index_keys declared v.
Proof.
  unfold holders. rewrite (proj2 (qo_entries _ _ Hok)). unfold keyed. rewrite (qo_keys _ _ Hok). setoid_rewrite lookup_fmap.
  destruct (objects !! n) as [v|]; cbn; naive_solver.
Qed.
Lemma holders_subset key : holders idx key ⊆ qi_names idx.
Proof. intros n (v & Hv & _)%elem_of_holders. rewrite (qo_names _ _ Hok). by apply elem_of_dom_2 in Hv. Qed.
Lemma entry_holders key names : qi_entries idx !! key = Some names -> holders idx key = names.
Proof. unfold holders. by intros ->. Qed.
Lemma elem_of_prefixed field prefix n : n ∈ prefixed idx field prefix <-> exists value, n ∈ holders idx (field, value) /\ starts_with prefix value = true.
Proof.
  unfold prefixed. rewrite elem_of_union_list. split.
  - intros (names & ([key ns] & -> & Hin)%list_elem_of_fmap & Hn). apply elem_of_range_while in Hin as (He & _ & Hf); [|exact (prefix_down field prefix)].
    destruct key as [f value]. cbn in Hf. apply andb_true_iff in Hf as [->%bool_decide_eq_true Hp]. exists value. by rewrite (entry_holders _ _ He).
  - intros (value & Hn & Hp). unfold holders in Hn. destruct (qi_entries idx !! (field, value)) as [names|] eqn:He; [|set_solver]. exists names. split; [|done].
    apply list_elem_of_fmap. exists ((field, value), names). split; [done|]. apply elem_of_range_while; [exact (prefix_down field prefix)|]. split_and!; [done| |].
    + split; cbn; [done|]. intros _. by apply prefix_le.
    + cbn. by rewrite bool_decide_true.
Qed.
Lemma elem_of_joined path field selected n : n ∈ joined idx path field selected <->
  exists value, n ∈ holders idx (field_key path, value) /\ exists n', n' ∈ holders idx (field_key field, value) /\ n' ∈ selected.
Proof.
  unfold joined. rewrite elem_of_union_list. split.
  - intros (names & (value & -> & Hin)%list_elem_of_fmap & Hn). apply list_elem_of_fmap in Hin as ([[f value'] ns] & -> & [Hd Hin]%list_elem_of_filter).
    apply elem_of_range_while in Hin as (He & _ & Hf%bool_decide_eq_true); [|exact (field_down (field_key field))]. cbn in *. subst f. exists value'. split; [done|].
    rewrite (entry_holders _ _ He). destruct (set_choose_or_empty (ns ∩ selected)) as [[n' Hn']|Hx]; [exists n'; set_solver|]. destruct Hd. set_solver.
  - intros (value & Hn & n' & Hn' & Hs). unfold holders in Hn'. destruct (qi_entries idx !! (field_key field, value)) as [ns|] eqn:He; [|set_solver]. cbn in Hn'.
    exists (holders idx (field_key path, value)). split; [|done]. apply list_elem_of_fmap. exists value. split; [done|]. apply list_elem_of_fmap. exists ((field_key field, value), ns). split; [done|].
    apply list_elem_of_filter. split; [set_solver|]. apply elem_of_range_while; [exact (field_down (field_key field))|]. split_and!; [done| |cbn; by apply bool_decide_eq_true].
    split; cbn; [done|]. intros _. apply prefix_le. by destruct value.
Qed.
Lemma narrowed found l n : (forall s, s ∈ l -> s ⊆ qi_names idx) -> n ∈ default (qi_names idx) (foldl narrow found l) <-> n ∈ default (qi_names idx) found /\ forall s, s ∈ l -> n ∈ s.
Proof.
  revert found. induction l as [|s l IH]; intros found Hl; cbn; [set_solver|]. rewrite IH by set_solver. assert (s ⊆ qi_names idx) as Hs by set_solver.
  destruct found as [t|]; cbn; set_solver.
Qed.

(** What each part of a query asks of a name. *)
Definition asked (q : StoreQuery) (n : string) : Prop :=
  (forall key, key ∈ required_keys q -> n ∈ holders idx key) /\
  (forall p, p ∈ sq_field_values q -> n ∈ ⋃ map (fun value => holders idx (field_key p.1, value)) p.2) /\
  (forall p, p ∈ prefix_keys q -> n ∈ prefixed idx p.1 p.2) /\
  (forall path, path ∈ sq_missing_fields q -> n ∈ holders idx (missing_key path, EmptyString)) /\
  (forall m, m ∈ sq_field_matches_query q -> n ∈ joined idx m.1 m.2.1.2 (query_names idx m.2.2)) /\
  (forall qs, sq_any_of q = Some qs -> n ∈ ⋃ map (query_names idx) qs).
Lemma forall_map {A B} (f : A -> B) (l : list A) (P : B -> Prop) : (forall y, y ∈ map f l -> P y) <-> forall x, x ∈ l -> P (f x).
Proof. split; [intros H x Hx; apply H; by apply list_elem_of_fmap_2|intros H y (x & -> & Hx)%list_elem_of_fmap; by apply H]. Qed.
Lemma union_map_subset {A} (f : A -> gset string) (l : list A) U : (forall x, x ∈ l -> f x ⊆ U) -> ⋃ map f l ⊆ U.
Proof. intros Hf n (s & Hs & Hn)%elem_of_union_list. revert s Hs Hn. apply (forall_map f l (fun s => n ∈ s -> n ∈ U)). intros x Hx. by apply Hf. Qed.
Lemma required_held q n : (forall key, key ∈ required_keys q -> n ∈ holders idx key) ->
  forallb (fun key => bool_decide (is_Some (qi_entries idx !! key))) (required_keys q) = true.
Proof.
  intros Hn. apply forallb_elem. intros key Hkey. apply bool_decide_eq_true. specialize (Hn key Hkey). unfold holders in Hn. destruct (qi_entries idx !! key); [done|set_solver].
Qed.
Lemma query_names_asked q n : (forall qs sub, sq_any_of q = Some qs -> sub ∈ qs -> query_names idx sub ⊆ qi_names idx) -> n ∈ query_names idx q <-> n ∈ qi_names idx /\ asked q n.
Proof.
  intros Hsub. assert (forall key, holders idx key ⊆ qi_names idx) as Hh by (intros key; by apply holders_subset).
  assert (forall p : string * string, prefixed idx p.1 p.2 ⊆ qi_names idx) as Hp by (intros p m (value & Hm & _)%elem_of_prefixed; by apply (Hh (p.1, value))).
  assert (forall path field selected, joined idx path field selected ⊆ qi_names idx) as Hj by (intros path field selected m (value & Hm & _)%elem_of_joined; by apply (Hh (field_key path, value))).
  destruct q as [labels fields field_values prefixes missing matches merged owner any_of present label_prefixes all message replicas only shadow suppress].
  unfold asked. cbn [sq_field_values sq_missing_fields sq_field_matches_query sq_any_of]. cbn [query_names sq_any_of] in *.
  match goal with |- context [required_keys ?x] => set (q := x) in * end.
  destruct (forallb _ (required_keys q)) eqn:Hreq.
  - rewrite narrowed, narrowed, narrowed, narrowed, narrowed, narrowed, !forall_map; [|apply forall_map..|].
    + assert ((forall m, m ∈ matches -> n ∈ (let '(path, (_, field, sub)) := m in joined idx path field (query_names idx sub))) <->
        forall m, m ∈ matches -> n ∈ joined idx m.1 m.2.1.2 (query_names idx m.2.2)) as -> by (split; intros Hm [path [[k field] sub]] Hin; exact (Hm _ Hin)).
      assert ((forall s, s ∈ (match any_of with Some qs => [⋃ map (query_names idx) qs] | None => [] end) -> n ∈ s) <-> forall qs, any_of = Some qs -> n ∈ ⋃ map (query_names idx) qs) as ->.
      { destruct any_of as [qs|]; [|split; [done|set_solver]]. split; [intros Hs ? [= <-]; apply Hs; set_solver|]. intros Hs s ->%list_elem_of_singleton. by apply Hs. }
      cbn [default]. tauto.
    + intros key _. apply Hh.
    + intros p _. apply union_map_subset. intros value _. apply Hh.
    + intros p _. apply Hp.
    + intros path _. apply Hh.
    + intros [path [[k field] sub]] _. apply Hj.
    + destruct any_of as [qs|]; [|set_solver]. intros s ->%list_elem_of_singleton. apply union_map_subset. intros sub. by apply Hsub.
  - split; [set_solver|]. intros (_ & Hr & _). by rewrite (required_held q n Hr) in Hreq.
Qed.

Definition wanted (q : StoreQuery) (v : JValue) : Prop :=
  (forall key, key ∈ required_keys q -> key ∈ index_keys declared v) /\
  (forall p, p ∈ sq_field_values q -> exists value, value ∈ p.2 /\ (field_key p.1, value) ∈ index_keys declared v) /\
  (forall p, p ∈ prefix_keys q -> exists value, (p.1, value) ∈ index_keys declared v /\ starts_with p.2 value = true) /\
  (forall path, path ∈ sq_missing_fields q -> (missing_key path, EmptyString) ∈ index_keys declared v) /\
  (forall m, m ∈ sq_field_matches_query q -> exists value n' v', (field_key m.1, value) ∈ index_keys declared v /\ objects !! n' = Some v' /\
    selects objects m.2.2 v' /\ (field_key m.2.1.2, value) ∈ index_keys declared v') /\
  (forall qs, sq_any_of q = Some qs -> exists sub, sub ∈ qs /\ selects objects sub v).
Lemma selects_unfold q v : selects objects q v <-> wanted q v.
Proof using JS IX declared objects.
  clear Hok idx. unfold wanted.
  destruct q as [labels fields field_values prefixes missing matches merged owner any_of present label_prefixes all message replicas only shadow suppress].
  cbn [selects sq_field_values sq_missing_fields sq_field_matches_query sq_any_of]. match goal with |- context [required_keys ?x] => set (q := x) in * end. rewrite conj_all_map.
  assert (match any_of with Some qs => foldr or False (map (fun a => selects objects a v) qs) | None => True end <-> forall qs, any_of = Some qs -> exists sub, sub ∈ qs /\ selects objects sub v) as ->.
  { destruct any_of as [qs|]; [rewrite disj_map; naive_solver|naive_solver]. }
  split; intros (H1 & H2 & H3 & H4 & H5 & H6); (split_and!; [exact H1| | |exact H4| |exact H6]).
  - intros [path values]. apply H2.
  - intros [field prefix]. apply H3.
  - intros [path [[k field] sub]] Hin. exact (H5 _ Hin).
  - intros path values. apply (H2 (path, values)).
  - intros field prefix. apply (H3 (field, prefix)).
  - intros [path [[k field] sub]] Hin. exact (H5 _ Hin).
Qed.
Lemma elem_of_union_map {A} (f : A -> gset string) l n : n ∈ ⋃ map f l <-> exists x, x ∈ l /\ n ∈ f x.
Proof. rewrite elem_of_union_list. split; [intros (s & (x & -> & Hx)%list_elem_of_fmap & Hn); by exists x|]. intros (x & Hx & Hn). exists (f x). split; [by apply list_elem_of_fmap_2|done]. Qed.
Definition exact_for (q : StoreQuery) : Prop := forall n, n ∈ query_names idx q <-> exists v, objects !! n = Some v /\ selects objects q v.
Lemma asked_wanted q n v : objects !! n = Some v -> (forall m, m ∈ sq_field_matches_query q -> exact_for m.2.2) ->
  (forall qs sub, sq_any_of q = Some qs -> sub ∈ qs -> exact_for sub) -> asked q n <-> wanted q v.
Proof.
  intros Hv Hmat Hany. assert (forall key, n ∈ holders idx key <-> key ∈ index_keys declared v) as Hh by (intros key; rewrite elem_of_holders; naive_solver congruence).
  unfold asked, wanted. split; intros (H1 & H2 & H3 & H4 & H5 & H6); split_and!.
  - intros key Hkey. by apply Hh, H1.
  - intros p Hp. apply H2, elem_of_union_map in Hp as (value & Hin & Hn). exists value. by rewrite <-Hh.
  - intros p Hp. apply H3, elem_of_prefixed in Hp as (value & Hn & Hs). exists value. by rewrite <-Hh.
  - intros path Hp. by apply Hh, H4.
  - intros m Hm. pose proof (H5 m Hm) as (value & Hn & n' & Hn' & Hs)%elem_of_joined. apply (Hmat m Hm) in Hs as (v' & Hv' & Hs). apply elem_of_holders in Hn' as (v'' & Hv'' & Hk).
    exists value, n', v'. rewrite <-Hh. rewrite Hv' in Hv''. injection Hv'' as <-. done.
  - intros qs Hqs. pose proof (H6 qs Hqs) as (sub & Hin & Hn)%elem_of_union_map. apply (Hany qs sub Hqs Hin) in Hn as (v' & Hv' & Hs). exists sub. split; [done|]. rewrite Hv in Hv'. by injection Hv' as <-.
  - intros key Hkey. by apply Hh, H1.
  - intros p Hp. apply H2 in Hp as (value & Hin & Hn). apply elem_of_union_map. exists value. by rewrite Hh.
  - intros p Hp. apply H3 in Hp as (value & Hn & Hs). apply elem_of_prefixed. exists value. by rewrite Hh.
  - intros path Hp. by apply Hh, H4.
  - intros m Hm. pose proof (H5 m Hm) as (value & n' & v' & Hn & Hv' & Hs & Hk). apply elem_of_joined. exists value. rewrite Hh. split; [done|]. exists n'.
    split; [apply elem_of_holders; by exists v'|]. apply (Hmat m Hm). by exists v'.
  - intros qs Hqs. destruct (H6 qs Hqs) as (sub & Hin & Hs). apply elem_of_union_map. exists sub. split; [done|]. apply (Hany qs sub Hqs Hin). by exists v.
Qed.

(** The names the index gives are those of the objects the query describes. *)
Lemma query_names_exact q : exact_for q.
Proof.
  induction q as [q Hmat Hany] using query_ind. intros n. rewrite query_names_asked.
  - rewrite (qo_names _ _ Hok), elem_of_dom. setoid_rewrite selects_unfold. split.
    + intros [[v Hv] Ha]. exists v. split; [done|]. by apply (asked_wanted q n v Hv Hmat Hany).
    + intros (v & Hv & Hw). split; [by exists v|]. by apply (asked_wanted q n v Hv Hmat Hany).
  - intros qs sub Hqs Hin n' (v & Hv & _)%(Hany qs sub Hqs Hin). rewrite (qo_names _ _ Hok). by apply elem_of_dom_2 in Hv.
Qed.
(** The values of a field on some names. *)
Lemma query_values_exact field names value : value ∈ query_values idx field names <-> exists n v, n ∈ names /\ objects !! n = Some v /\ (field_key field, value) ∈ index_keys declared v.
Proof.
  unfold query_values. rewrite elem_of_list_to_set. rewrite list_elem_of_In, in_flat_map. split.
  - intros (n & Hn & Hin). apply list_elem_of_In in Hn, Hin. apply elem_of_set_iter in Hn. rewrite (qo_keys _ _ Hok), lookup_fmap in Hin.
    destruct (objects !! n) as [v|] eqn:Hv; [|cbn in Hin; set_solver]. exists n, v. split_and!; [done|done|]. apply list_elem_of_omap in Hin as ([f x] & Hin & Hx). cbn in Hx. case_bool_decide; [|done]. by simplify_eq.
  - intros (n & v & Hn & Hv & Hin). exists n. split; [by apply list_elem_of_In, elem_of_set_iter|]. apply list_elem_of_In. rewrite (qo_keys _ _ Hok), lookup_fmap, Hv. cbn.
    apply list_elem_of_omap. exists (field_key field, value). cbn. by rewrite bool_decide_true.
Qed.
End exact.
End index.
