(* ===== verification/Digest.v ===== *)
(** Anti-entropy digests ([crates/flotilla-resources/src/digest.rs]): a
    partition's names and versions in 256 hashed buckets under a root, and what
    agreeing hashes prove. *)

From Stdlib Require Import Ascii.
From S2P Require Import Text Encoding Address Names.
From S2P Require Import Prelude Schema Effects Kinds.
#[local] Open Scope Z_scope.

Definition DIGEST_FANOUT : nat := 256.
Definition hash_text (t : list ascii) : string := String.string_of_list_ascii t.

Section digest.
Context {SH : Sha256}.

Definition digest_bucket (name : string) : nat := Z.to_nat (byte_val (default zero (head (sha256 (tx name))))).
(** [field]: the length as eight bytes, then the bytes. *)
Definition field (value : string) : list ascii := hash_component (tx value).
Definition leaf_bytes (entries : list (string * string)) : list ascii :=
  tx "flotilla-key-version-leaf-v1" ++ flat_map (fun p => field p.1 ++ field p.2) entries.
Definition hash_entries (entries : gmap string string) : string := hash_text (hex (sha256 (leaf_bytes (map_iter entries)))).

Record DigestIndex : Type := mkDigest { di_entries : list (gmap string string); di_hashes : list string }.
Definition no_digest : DigestIndex := mkDigest (replicate DIGEST_FANOUT ∅) (replicate DIGEST_FANOUT (hash_entries ∅)).

(** [DigestIndex::set]. *)
Definition digest_set (name : string) (version : option string) (d : DigestIndex) : DigestIndex :=
  let bucket := digest_bucket name in
  let entries := alter (fun m => match version with Some version => <[name := version]> m | None => delete name m end) bucket (di_entries d) in
  mkDigest entries (<[bucket := hash_entries (default ∅ (entries !! bucket))]> (di_hashes d)).
Definition digest_names (d : DigestIndex) (bucket : nat) : list string := (map_iter (default ∅ (di_entries d !! bucket))).*1.

(** * Against the versions held *)

Definition bucket_of (versions : gmap string string) (bucket : nat) : gmap string string := filter (fun p => digest_bucket p.1 = bucket) versions.
Record digest_ok (versions : gmap string string) (d : DigestIndex) : Prop := {
  do_entries : di_entries d = bucket_of versions <$> seq 0 DIGEST_FANOUT;
  do_hashes : di_hashes d = hash_entries <$> di_entries d;
}.

Lemma bucket_bound name : (digest_bucket name < DIGEST_FANOUT)%nat.
Proof. unfold digest_bucket, DIGEST_FANOUT. pose proof (byte_val_range (default zero (head (sha256 (tx name))))). lia. Qed.
Lemma no_digest_ok : digest_ok ∅ no_digest.
Proof.
  split; cbn [di_entries di_hashes no_digest].
  - apply list_eq. intros i. rewrite list_lookup_fmap.
    destruct (decide (i < DIGEST_FANOUT)%nat); [|rewrite !lookup_ge_None_2; [done|rewrite length_seq; lia|rewrite length_replicate; lia]].
    rewrite lookup_replicate_2, lookup_seq_lt by done. cbn. unfold bucket_of. by rewrite map_filter_empty.
  - by rewrite fmap_replicate.
Qed.
Lemma digest_set_ok versions d name version : digest_ok versions d ->
  digest_ok (match version with Some v => <[name := v]> versions | None => delete name versions end) (digest_set name version d).
Proof.
  intros [He Hh]. set (change := fun m : gmap string string => match version with Some v => <[name := v]> m | None => delete name m end).
  assert (length (di_entries d) = DIGEST_FANOUT) as Hlen by (rewrite He, length_fmap; apply length_seq).
  split; cbn [di_entries di_hashes digest_set]; fold change.
  - apply list_eq. intros i. rewrite He. destruct (decide (i = digest_bucket name)) as [->|Hne].
    + rewrite list_lookup_alter_eq, !list_lookup_fmap, lookup_seq_lt by apply bucket_bound. cbn. f_equal. unfold change, bucket_of. destruct version as [v|].
      * by rewrite map_filter_insert_True.
      * by rewrite map_filter_delete.
    + rewrite list_lookup_alter_ne, !list_lookup_fmap by done. destruct (seq 0 DIGEST_FANOUT !! i) as [j|] eqn:Hj; [|done]. cbn. f_equal. apply lookup_seq in Hj as [-> _]. unfold bucket_of. destruct version as [v|].
      * rewrite map_filter_insert_False by (cbn; congruence). symmetry. apply map_filter_delete_not. cbn. congruence.
      * symmetry. rewrite map_filter_delete. apply delete_id. apply map_lookup_filter_None. right. intros x _. cbn. congruence.
  - rewrite Hh. apply list_eq. intros i. destruct (decide (i = digest_bucket name)) as [->|Hne].
    + pose proof (bucket_bound name). rewrite list_lookup_insert_eq by (rewrite length_fmap; lia). rewrite list_lookup_fmap. rewrite list_lookup_alter_eq.
      destruct (lookup_lt_is_Some_2 (di_entries d) (digest_bucket name)) as [m Hm]; [lia|]. rewrite Hm. done.
    + rewrite list_lookup_insert_ne by done. rewrite !list_lookup_fmap, list_lookup_alter_ne by done. done.
Qed.
Lemma digest_names_spec versions d bucket name : digest_ok versions d -> (bucket < DIGEST_FANOUT)%nat ->
  name ∈ digest_names d bucket <-> is_Some (versions !! name) /\ digest_bucket name = bucket.
Proof.
  intros [He _] Hb. unfold digest_names. rewrite He. rewrite list_lookup_fmap, lookup_seq_lt by done. cbn.
  rewrite list_elem_of_fmap. split.
  - intros ([n v] & -> & [Hv Hn]%elem_of_map_iter%map_lookup_filter_Some). cbn in *. by split; [eexists|].
  - intros [[v Hv] Hn]. exists (name, v). split; [done|]. by apply elem_of_map_iter, map_lookup_filter_Some.
Qed.

(** * Partition digests *)

Context {JS : Json} {CR : Carried}.

Inductive DigestQuery : Type := Root | Children (expected_root : string) | Snapshot (expected_root : string) (bucket : nat).
Record PartitionDigest : Type := mkPartition {
  pd_origin : NodeId;
  pd_kind : string;
  pd_namespace : string;
  pd_generation : option string;
  pd_resource_version : string;
  pd_root : string;
  pd_children : option (list string);
  pd_bucket : option nat;
  pd_items : option (list JValue);
}.

Definition root_bytes (paths : ApiPaths) (origin : NodeId) (namespace : string) (generation : option string) (hashes : list string) : list ascii :=
  tx "flotilla-partition-root-v1" ++ flat_map field [origin; ap_group paths; ap_version paths; ap_kind paths; namespace] ++
  [byte_of (if bool_decide (is_Some generation) then 1 else 0)] ++ field (default EmptyString generation) ++
  flat_map (fun p => byte_of (Z.of_nat p.1) :: field p.2) (imap pair hashes).
(** [PartitionDigest::new]. *)
Definition partition_digest (paths : ApiPaths) (origin : NodeId) (namespace : string) (generation : option string) (resource_version : string) (hashes : list string) : PartitionDigest :=
  mkPartition origin (ap_kind paths) namespace generation resource_version
    (hash_text (hex (sha256 (root_bytes paths origin namespace generation hashes)))) (Some hashes) None None.
(** [PartitionDigest::select]: the root must not have changed since it was read. *)
Definition digest_select (d : PartitionDigest) (query : DigestQuery) : result ResourceError PartitionDigest :=
  let expected := match query with Root => None | Children root | Snapshot root _ => Some root end in
  if from_option (fun root => negb (bool_decide (root = pd_root d))) false expected then Err (Conflict "digest" "partition changed during digest drill-down")
  else match query with
       | Children _ => Ok d
       | _ => Ok (mkPartition (pd_origin d) (pd_kind d) (pd_namespace d) (pd_generation d) (pd_resource_version d) (pd_root d) None (pd_bucket d) (pd_items d))
       end.
(** [PartitionDigest::validate_tree]: a complete hierarchy hashes to its root. *)
Definition validate_tree (paths : ApiPaths) (d : PartitionDigest) : result ResourceError unit :=
  match pd_children d with
  | Some hashes =>
      if bool_decide (length hashes = DIGEST_FANOUT) then
        let computed := partition_digest paths (pd_origin d) (pd_namespace d) (pd_generation d) (pd_resource_version d) hashes in
        if bool_decide (pd_root computed <> pd_root d) || bool_decide (pd_kind d <> ap_kind paths) then Err (Invalid "invalid digest hierarchy") else Ok tt
      else Err (Invalid "incomplete digest tree")
  | None => Err (Invalid "incomplete digest tree")
  end.

(** [PartitionDigest::snapshot]: a bucket's items, accepted only when their
    names and versions hash to the leaf the tree advertised; they come as a list,
    with its version and generation. *)
Section snapshot.
Context {A : Type} (decode : JValue -> result ResourceError A) (meta : A -> ObjectMeta).
Definition snapshot_item (namespace : string) (bucket : nat) (seen : gmap string string * list A) (value : JValue) : result ResourceError (gmap string string * list A) :=
  object ← decode value;
  let m := meta object in
  if bool_decide (om_namespace m <> namespace) || bool_decide (digest_bucket (om_name m) <> bucket) || bool_decide (is_Some (seen.1 !! om_name m))
  then Err (Invalid "digest snapshot contains invalid keys")
  else Ok (<[om_name m := om_resource_version m]> seen.1, seen.2 ++ [object]).
Definition digest_snapshot (paths : ApiPaths) (d expected : PartitionDigest) (bucket : nat) : result ResourceError (list A * string * option string) :=
  if bool_decide (pd_origin d <> pd_origin expected) || bool_decide (pd_kind d <> ap_kind paths) || bool_decide (pd_namespace d <> pd_namespace expected) ||
     bool_decide (pd_generation d <> pd_generation expected) || bool_decide (pd_root d <> pd_root expected) || bool_decide (pd_bucket d <> Some bucket)
  then Err (Invalid "digest snapshot identity mismatch")
  else
    values ← ok_or (pd_items d) (Invalid "incomplete digest snapshot");
    seen ← try_fold (snapshot_item (pd_namespace d) bucket) (∅, []) values;
    hash ← ok_or (pd_children expected ≫= fun children => children !! bucket) (Invalid "incomplete digest tree");
    if bool_decide (hash_entries seen.1 <> hash) then Err (Invalid "incomplete digest bucket") else Ok (seen.2, pd_resource_version d, pd_generation d).
End snapshot.

(** * What agreeing hashes prove *)

(** Texts a machine can hold. *)
Definition entry_fits (p : string * string) : Prop := fits (tx p.1) /\ fits (tx p.2).
Lemma field_inj a b r1 r2 : fits (tx a) -> fits (tx b) -> field a ++ r1 = field b ++ r2 -> a = b /\ r1 = r2.
Proof.
  unfold field. intros Ha Hb Heq. apply (hash_component_inj (tx a) (tx b)) in Heq as [Heq ->]; [|exact Ha|exact Hb]. split; [|done].
  rewrite <-(String.string_of_list_ascii_of_string a), <-(String.string_of_list_ascii_of_string b). by f_equal.
Qed.
Lemma field_not_nil a r : field a ++ r <> [].
Proof. intros H%(f_equal length). unfold field, hash_component in H. rewrite !length_app, be_bytes_length in H. cbn in H. lia. Qed.
(** Length framing: the bytes of a leaf determine its entries. *)
Lemma leaf_bytes_inj l1 l2 : Forall entry_fits l1 -> Forall entry_fits l2 -> leaf_bytes l1 = leaf_bytes l2 -> l1 = l2.
Proof.
  intros H1 H2 Heq%(inj (app _)). revert l2 H2 Heq. induction H1 as [|[a v] l1 [Ha Hv] _ IH]; intros l2 H2 Heq; cbn [flat_map] in Heq.
  - destruct l2 as [|[b w] l2]; [done|]. cbn [flat_map] in Heq. rewrite <-app_assoc in Heq. by apply eq_sym, field_not_nil in Heq.
  - destruct l2 as [|[b w] l2]; [cbn [flat_map] in Heq; rewrite <-app_assoc in Heq; by apply field_not_nil in Heq|]. cbn [flat_map fst snd] in Heq. apply Forall_cons in H2 as [[Hb Hw] H2].
    rewrite <-!app_assoc in Heq. apply field_inj in Heq as [-> Heq]; [|done|done]. apply field_inj in Heq as [-> Heq]; [|done|done]. f_equal. by apply IH.
Qed.
Lemma map_iter_inj (m1 m2 : gmap string string) : map_iter m1 = map_iter m2 -> m1 = m2.
Proof. intros Heq. apply map_eq. intros k. apply option_eq. intros v. by rewrite <-!elem_of_map_iter, Heq. Qed.
Definition map_fits (m : gmap string string) : Prop := forall k v, m !! k = Some v -> entry_fits (k, v).
(** [sha256] does not collide on the two leaves. *)
Definition no_collision (a b : list ascii) : Prop := sha256 a = sha256 b -> a = b.
Lemma hash_entries_inj m1 m2 : map_fits m1 -> map_fits m2 -> no_collision (leaf_bytes (map_iter m1)) (leaf_bytes (map_iter m2)) -> hash_entries m1 = hash_entries m2 -> m1 = m2.
Proof.
  intros H1 H2 Hc Heq. unfold hash_entries, hash_text in Heq. apply (f_equal String.list_ascii_of_string) in Heq. rewrite !String.list_ascii_of_string_of_list_ascii in Heq.
  apply hex_inj, Hc, leaf_bytes_inj in Heq; [by apply map_iter_inj| |]; apply Forall_forall; intros [k v] Hp%elem_of_map_iter; auto.
Qed.

(** The bytes a root hashes determine the generation and the leaf hashes. *)
Lemma tagged_inj (f : nat -> nat) l1 l2 r1 r2 : length l1 = length l2 -> Forall (fun h => fits (tx h)) l1 -> Forall (fun h => fits (tx h)) l2 ->
  flat_map (fun p => byte_of (Z.of_nat p.1) :: field p.2) (imap (fun i h => (f i, h)) l1) ++ r1 = flat_map (fun p => byte_of (Z.of_nat p.1) :: field p.2) (imap (fun i h => (f i, h)) l2) ++ r2 -> l1 = l2.
Proof.
  revert f l2. induction l1 as [|h1 l1 IH]; intros f [|h2 l2] Hlen H1 H2 Heq; try done. apply Forall_cons in H1 as [F1 H1], H2 as [F2 H2].
  rewrite !imap_cons in Heq. cbn [flat_map fst snd] in Heq. rewrite <-!app_comm_cons, <-!app_assoc in Heq. apply (f_equal (@tl ascii)) in Heq. cbn [tl] in Heq. apply field_inj in Heq as [-> Heq]; [|done|done]. f_equal.
  apply (IH (f ∘ S) l2); [by injection Hlen|done|done|exact Heq].
Qed.
Lemma root_bytes_inj paths origin namespace g1 g2 l1 l2 : Forall (fun t => fits (tx t)) [origin; ap_group paths; ap_version paths; ap_kind paths; namespace] ->
  fits (tx (default EmptyString g1)) -> fits (tx (default EmptyString g2)) -> length l1 = length l2 -> Forall (fun h => fits (tx h)) l1 -> Forall (fun h => fits (tx h)) l2 ->
  root_bytes paths origin namespace g1 l1 = root_bytes paths origin namespace g2 l2 -> g1 = g2 /\ l1 = l2.
Proof.
  intros Ht F1 F2 Hlen H1 H2 Heq. unfold root_bytes in Heq. apply (inj (app _)) in Heq. apply (inj (app _)) in Heq. cbn [app] in Heq. pose proof (f_equal head Heq) as Hflag. apply (f_equal (@tl ascii)) in Heq. cbn [tl head] in Heq, Hflag.
  apply field_inj in Heq as [Hg Heq]; [|done|done]. split.
  - destruct g1, g2; cbn in Hg; [by f_equal|discriminate Hflag|discriminate Hflag|done].
  - rewrite <-(app_nil_r (flat_map _ (imap pair l1))), <-(app_nil_r (flat_map _ (imap pair l2))) in Heq. by apply (tagged_inj id l1 l2 [] []).
Qed.
Lemma hex_length t : length (hex t) = (2 * length t)%nat.
Proof. induction t as [|c t IH]; [done|]. rewrite hex_cons. cbn [length]. lia. Qed.
Lemma hash_fits m : fits (tx (hash_entries m)).
Proof.
  unfold fits, hash_entries, hash_text, tx. rewrite String.list_ascii_of_string_of_list_ascii. rewrite hex_length, sha256_length. done.
Qed.
(** Two partitions whose roots agree hold the same names at the same versions. *)
Lemma roots_agree paths origin namespace g1 g2 versions1 versions2 d1 d2 : Forall (fun t => fits (tx t)) [origin; ap_group paths; ap_version paths; ap_kind paths; namespace] ->
  fits (tx (default EmptyString g1)) -> fits (tx (default EmptyString g2)) -> digest_ok versions1 d1 -> digest_ok versions2 d2 -> map_fits versions1 -> map_fits versions2 ->
  no_collision (root_bytes paths origin namespace g1 (di_hashes d1)) (root_bytes paths origin namespace g2 (di_hashes d2)) ->
  (forall bucket, no_collision (leaf_bytes (map_iter (bucket_of versions1 bucket))) (leaf_bytes (map_iter (bucket_of versions2 bucket)))) ->
  hash_text (hex (sha256 (root_bytes paths origin namespace g1 (di_hashes d1)))) = hash_text (hex (sha256 (root_bytes paths origin namespace g2 (di_hashes d2)))) ->
  g1 = g2 /\ versions1 = versions2.
Proof.
  intros Ht F1 F2 [E1 H1] [E2 H2] M1 M2 Hroot Hleaf Heq. unfold hash_text in Heq. apply (f_equal String.list_ascii_of_string) in Heq. rewrite !String.list_ascii_of_string_of_list_ascii in Heq.
  apply hex_inj, Hroot, root_bytes_inj in Heq as [Hg Hh]; [|done|done|done|by rewrite H1, H2, !length_fmap, E1, E2, !length_fmap| |].
  - split; [done|]. apply map_eq. intros n. assert (forall b, (b < DIGEST_FANOUT)%nat -> bucket_of versions1 b = bucket_of versions2 b) as Hb.
    { intros b Hb. apply hash_entries_inj; [intros x v [Hx _]%map_lookup_filter_Some; by apply M1|intros x v [Hx _]%map_lookup_filter_Some; by apply M2|apply Hleaf|].
      rewrite H1, H2, E1, E2 in Hh. apply (f_equal (fun l => l !! b)) in Hh. rewrite !list_lookup_fmap, !lookup_seq_lt in Hh by done. cbn in Hh. congruence. }
    specialize (Hb (digest_bucket n) (bucket_bound n)). apply option_eq. intros v. assert (forall m : gmap string string, m !! n = Some v <-> bucket_of m (digest_bucket n) !! n = Some v) as Hin.
    { intros m. unfold bucket_of. rewrite map_lookup_filter_Some. cbn. tauto. }
    by rewrite (Hin versions1), (Hin versions2), Hb.
  - rewrite H1. apply Forall_fmap, Forall_true. intros m. apply hash_fits.
  - rewrite H2. apply Forall_fmap, Forall_true. intros m. apply hash_fits.
Qed.

Section snapshots.
Context {A : Type} (decode : JValue -> result ResourceError A) (meta : A -> ObjectMeta).
Definition entry (o : A) : string * string := (om_name (meta o), om_resource_version (meta o)).
Record snapshot_seen (bucket : nat) (seen : gmap string string * list A) : Prop := {
  sn_map : seen.1 = list_to_map (entry <$> seen.2);
  sn_once : NoDup (entry <$> seen.2).*1;
  sn_bucket : Forall (fun o => digest_bucket (om_name (meta o)) = bucket) seen.2;
}.
Lemma snapshot_fold namespace bucket values seen seen' : snapshot_seen bucket seen ->
  try_fold (snapshot_item decode meta namespace bucket) seen values = Ok seen' -> snapshot_seen bucket seen'.
Proof.
  revert seen. induction values as [|value values IH]; intros seen Hs; cbn [try_fold]; [by intros [= <-]|].
  unfold snapshot_item at 1. destruct (decode value) as [o|e]; [|done]. cbn [mbind result_bind]. destruct (_ || _) eqn:Hbad; [done|]. cbn [mbind result_bind]. apply IH.
  apply orb_false_iff in Hbad as [[_ Hb%bool_decide_eq_false]%orb_false_iff Hd%bool_decide_eq_false]. destruct Hs as [Hm Ho Hf].
  assert (om_name (meta o) ∉ (entry <$> seen.2).*1) as Hn.
  { rewrite Hm, <-eq_None_not_Some in Hd. by apply not_elem_of_list_to_map. }
  split; cbn [fst snd]; rewrite ?fmap_app.
  - change (entry <$> [o]) with [(om_name (meta o), om_resource_version (meta o))]. rewrite list_to_map_snoc by done. by rewrite Hm.
  - apply NoDup_app. split_and!; [done|by intros x Hx ->%list_elem_of_singleton|apply NoDup_singleton].
  - apply Forall_app. split; [done|]. repeat constructor. destruct (decide (digest_bucket (om_name (meta o)) = bucket)); [done|]. by destruct Hb.
Qed.

(** C30: a bucket an authority is asked for is accepted only complete: when no
    hash collides, its items are exactly the names and versions the authority
    holds in it, each once, so that a name that is missing is absent there. *)
Theorem digest_snapshot_complete paths origin namespace generation version versions d response bucket items listed :
  digest_ok versions d -> (bucket < DIGEST_FANOUT)%nat ->
  digest_snapshot decode meta paths response (partition_digest paths origin namespace generation version (di_hashes d)) bucket = Ok (items, listed.1, listed.2) ->
  map_fits versions -> Forall (fun o => entry_fits (entry o)) items ->
  no_collision (leaf_bytes (map_iter (list_to_map (entry <$> items)))) (leaf_bytes (map_iter (bucket_of versions bucket))) ->
  NoDup (entry <$> items).*1 /\ forall name v, (name, v) ∈ entry <$> items <-> versions !! name = Some v /\ digest_bucket name = bucket.
Proof.
  intros [He Hh] Hb Hsnap Hfit Hfits Hc. unfold digest_snapshot in Hsnap. destruct (_ || _); [done|]. destruct (pd_items response) as [values|]; [|done]. cbn [ok_or mbind result_bind] in Hsnap.
  destruct (try_fold _ _ _) as [seen|e] eqn:Hfold; [|done]. cbn [mbind result_bind] in Hsnap. cbn [partition_digest pd_children mbind option_bind] in Hsnap.
  apply (snapshot_fold (pd_namespace response) bucket) in Hfold as [Hm Ho Hf]; [|split; cbn; constructor].
  assert (di_hashes d !! bucket = Some (hash_entries (bucket_of versions bucket))) as Hl by (by rewrite Hh, He, !list_lookup_fmap, lookup_seq_lt).
  rewrite Hl in Hsnap. cbn [ok_or mbind result_bind] in Hsnap. case_bool_decide as Hx; [done|]. injection Hsnap as <- _ _.
  assert (hash_entries seen.1 = hash_entries (bucket_of versions bucket)) as Heq by (destruct (decide (hash_entries seen.1 = hash_entries (bucket_of versions bucket))); [done|by destruct Hx]).
  rewrite Hm in Heq. apply hash_entries_inj in Heq; [| | |done].
  - split; [done|]. intros name v. rewrite elem_of_list_to_map by done. rewrite Heq. apply map_lookup_filter_Some.
  - intros k v Hkv. apply elem_of_list_to_map in Hkv; [|done]. apply list_elem_of_fmap in Hkv as (o & -> & Hin). rewrite Forall_forall in Hfits. by apply Hfits.
  - intros k v [Hkv _]%map_lookup_filter_Some. by apply Hfit.
Qed.
End snapshots.
End digest.
