(* ===== verification/MemStore.v ===== *)
(** The memory resource store ([crates/flotilla-store-memory/src/in_memory.rs]):
    one partition's objects, versions, events and indexes, and its operations. *)

From Stdlib Require Import Ascii.
From S2P Require Import Text Encoding Address Names.
From S2P Require Import Prelude Ordered Schema Effects Kinds Inverted MessageIndex QueryIndex Digest.
#[local] Open Scope Z_scope.

(** * Watch channels *)

(** [tokio::sync::broadcast], by what it documents: a receiver gets each event
    sent since it subscribed, in order, unless more than the capacity wait. (It
    rounds a capacity up to a power of two; the one used is one.) *)
Inductive Received (E : Type) : Type := Got (e : E) | Lagged | Waiting.
Arguments Got {E}.
Arguments Lagged {E}.
Arguments Waiting {E}.
Class Broadcast := {
  Chan : Type -> Type;
  Rx : Type -> Type;
  chan_new {E} : nat -> Chan E;
  chan_send {E} : E -> Chan E -> Chan E;
  chan_subscribe {E} : Chan E -> Rx E;
  chan_recv {E} : Chan E -> Rx E -> Received E * Rx E;
  capacity {E} : Chan E -> nat;
  attached {E} : Chan E -> Rx E -> Prop;
  unseen {E} : Chan E -> Rx E -> list E;
  capacity_new {E} k : capacity (chan_new (2 ^ k)%nat : Chan E) = (2 ^ k)%nat;
  capacity_send {E} (e : E) c : capacity (chan_send e c) = capacity c;
  subscribe_attached {E} (c : Chan E) : attached c (chan_subscribe c);
  subscribe_unseen {E} (c : Chan E) : unseen c (chan_subscribe c) = [];
  send_attached {E} (e : E) c rx : attached c rx -> attached (chan_send e c) rx;
  send_unseen {E} (e : E) c rx : attached c rx -> unseen (chan_send e c) rx = unseen c rx ++ [e];
  recv_spec {E} (c : Chan E) rx : attached c rx ->
    match unseen c rx with
    | [] => chan_recv c rx = (Waiting, rx)
    | e :: rest =>
        if decide (length (e :: rest) <= capacity c)%nat
        then exists rx', chan_recv c rx = (Got e, rx') /\ attached c rx' /\ unseen c rx' = rest
        else (chan_recv c rx).1 = Lagged
    end;
}.
Definition WATCH_RING_CAPACITY : nat := 256.

(** * A partition *)

Inductive StoredEventKind : Type := EvAdded | EvModified | EvDeleted.
#[export] Instance StoredEventKind_eq_dec : EqDecision StoredEventKind.
Proof. solve_decision. Defined.
Definition kept (k : StoredEventKind) : bool := match k with EvDeleted => false | EvAdded | EvModified => true end.

(** The registered kinds with their queryable fields ([declared_resource_kinds]). *)
Class Declared := declared : list (string * list string).

Section store.
Context {JS : Json} {CR : Carried} {SD : Serde} {MS : MessageSerde} {IX : IndexedSpecs} {SH : Sha256} {BC : Broadcast} {DF : Declared}.
Context {D : Type}.
Implicit Types (k : ResourceKind D).

Record StoredEvent : Type := mkEvent { ev_version : Z; ev_kind : StoredEventKind; ev_object : JValue }.
Record ResourceStore : Type := mkStore {
  rs_queries : QueryIndex;
  rs_messages : MessageIndex;
  rs_objects : gmap string JValue;
  rs_digest : DigestIndex;
  rs_tombstones : gmap string ResourceTombstone;
  rs_next_version : Z;
  rs_watchers : Chan StoredEvent;
  rs_event_log : list StoredEvent;
  rs_compacted_through : Z;
}.
(** [ResourceStore::default]. *)
Definition store_default : ResourceStore := mkStore no_index no_messages ∅ no_digest ∅ 1 (chan_new WATCH_RING_CAPACITY) [] 0.
Definition SE (A : Type) : Type := Eff ResourceError ResourceStore A.

Definition set_objects (m : gmap string JValue) (s : ResourceStore) : ResourceStore :=
  mkStore (rs_queries s) (rs_messages s) m (rs_digest s) (rs_tombstones s) (rs_next_version s) (rs_watchers s) (rs_event_log s) (rs_compacted_through s).
Definition set_tombstones (m : gmap string ResourceTombstone) (s : ResourceStore) : ResourceStore :=
  mkStore (rs_queries s) (rs_messages s) (rs_objects s) (rs_digest s) m (rs_next_version s) (rs_watchers s) (rs_event_log s) (rs_compacted_through s).
Definition set_next_version (n : Z) (s : ResourceStore) : ResourceStore :=
  mkStore (rs_queries s) (rs_messages s) (rs_objects s) (rs_digest s) (rs_tombstones s) n (rs_watchers s) (rs_event_log s) (rs_compacted_through s).

Definition version_text (n : Z) : string := str (u64_to_string n).
(** [current_version]: a saturating subtraction. *)
Definition current_version (s : ResourceStore) : Z := Z.max 0 (rs_next_version s - 1).
(** [allocate_version]; an addition that overflows panics. *)
Definition allocate_version : SE Z := fun s =>
  let version := rs_next_version s in
  if bool_decide (version < u64_max) then (Done version, set_next_version (version + 1) s) else (Panics, s).

(** [push_event]: the indexes, the digest, the bounded log and the watchers. *)
Definition push_event (event : StoredEvent) (max_events : nat) : SE unit := fun s =>
  match value_name (ev_object event) with
  | None => (Panics, s)
  | Some name =>
      let value := if kept (ev_kind event) then Some (ev_object event) else None in
      let version := if kept (ev_kind event) then Some (version_text (ev_version event)) else None in
      let log := rs_event_log s in
      let excess := (length log + 1 - max_events)%nat in
      let compacted := if bool_decide (0 < excess)%nat then from_option ev_version (rs_compacted_through s) (log !! (excess - 1)%nat) else rs_compacted_through s in
      if bool_decide (excess <= length log)%nat then
        (Done tt, mkStore (query_update declared name value (rs_queries s)) (message_update name value (rs_messages s)) (rs_objects s)
          (digest_set name version (rs_digest s)) (rs_tombstones s) (rs_next_version s) (chan_send event (rs_watchers s)) (drop excess log ++ [event]) compacted)
      else (Panics, s)
  end.

(** * Operations *)

(** [get_row], for a raw or a typed decoder. *)
Definition get_row {A} (decode : JValue -> result ResourceError A) (name : string) (s : ResourceStore) : result ResourceError A :=
  match rs_objects s !! name with
  | Some v => decode v
  | None => Err (NotFound name)
  end.
(** [list_rows]: every object, or those the labels select. *)
Definition indexed_object (s : ResourceStore) (name : string) : result ResourceError JValue :=
  ok_or (rs_objects s !! name) (Other "query index references missing local object").
Definition list_rows {A} (required : option (gmap string string)) (decode : JValue -> result ResourceError A) (s : ResourceStore) : result ResourceError (list A * string) :=
  items ← match required with
          | None => collect (fun p => decode p.2) (map_iter (rs_objects s))
          | Some labels => collect (fun name => v ← indexed_object s name; decode v) (set_iter (query_names (rs_queries s) (query_labels labels false true)))
          end;
  Ok (items, version_text (current_version s)).
Definition by_name (x y : ResourceObject) : bool := bool_decide (String.le (om_name (ro_metadata x)) (om_name (ro_metadata y))).
Definition list_raw (generation : option string) k (s : ResourceStore) : result ResourceError ResourceList :=
  r ← list_rows None (decode_object k) s; Ok (mkList (sort_by by_name r.1) r.2 generation).
Definition list_raw_matching_labels (generation : option string) k (required : gmap string string) (s : ResourceStore) : result ResourceError ResourceList :=
  if bool_decide (required = ∅) then list_raw generation k s
  else r ← list_rows (Some required) (decode_object k) s; Ok (mkList r.1 r.2 generation).
Definition current_position (generation : option string) (s : ResourceStore) : ResourcePosition := mkPosition (version_text (current_version s)) generation.

(** [digest_raw]: a bucket's rows go with a snapshot query. *)
Definition snapshot_row k (s : ResourceStore) (name : string) : result ResourceError JValue :=
  value ← ok_or (rs_objects s !! name) (Invalid "incomplete digest index");
  _ ← decode_object k value;
  Ok value.
Definition digest_in k (root : NodeId) (generation : option string) (namespace : string) (query : DigestQuery) (s : ResourceStore) : result ResourceError PartitionDigest :=
  response ← digest_select (partition_digest (rk_paths k) root namespace generation (version_text (current_version s)) (di_hashes (rs_digest s))) query;
  match query with
  | Snapshot _ bucket =>
      items ← collect (snapshot_row k s) (digest_names (rs_digest s) bucket);
      Ok (mkPartition (pd_origin response) (pd_kind response) (pd_namespace response) (pd_generation response) (pd_resource_version response) (pd_root response)
        (pd_children response) (Some bucket) (Some items))
  | _ => Ok response
  end.

(** [validate_namespace_spec]: the other objects that are not being deleted. *)
Definition validate_namespace_spec k (meta : InputMeta) (spec : JValue) (s : ResourceStore) : result ResourceError unit :=
  if rk_validate_namespace k then
    siblings ← collect (fun p => decode_object k p.2) (map_iter (rs_objects s));
    rk_validate_siblings k meta spec
      (filter (fun o => om_name (ro_metadata o) <> im_name meta /\ om_deletion_timestamp (ro_metadata o) = None) siblings)
  else Ok tt.

Definition put (name : string) (v : JValue) : SE unit := modify (fun s => set_objects (<[name := v]> (rs_objects s)) s).
Definition take_out (name : string) : SE unit := modify (fun s => set_objects (delete name (rs_objects s)) s).

(** [create_typed_with_merge], under the partition's lock; [retained] is how
    many events the partition keeps. *)
Definition create_in k (retained : nat) (namespace : string) (meta : InputMeta) (spec : JValue) (status : option JValue) (merge : option MergeMetadata) (now : Timestamp) : SE ResourceObject :=
  exists_ ← gets (fun s => bool_decide (is_Some (rs_objects s !! im_name meta)));
  if exists_ : bool then fail (Conflict (im_name meta) "resource already exists")
  else
    valid ← gets (validate_namespace_spec k meta spec);
    lift valid ;;
    version ← allocate_version;
    spec ← lift (clone_through_serde spec);
    let object := mkObject (mkMeta (im_name meta) namespace (version_text version) (im_labels meta) (im_annotations meta) (im_owner_references meta) (im_finalizers meta)
      (im_deletion_timestamp meta) now merge) spec status in
    encoded ← lift (encode_object k object);
    modify (fun s => set_tombstones (delete (im_name meta) (rs_tombstones s)) s) ;;
    put (im_name meta) encoded ;;
    push_event (mkEvent version EvAdded encoded) retained ;;
    mret object.

(** The object an update is made on: it must be there at the version given. *)
Definition current_object k (name : string) : SE ResourceObject :=
  existing ← gets (fun s => rs_objects s !! name);
  v ← lift (ok_or existing (NotFound name));
  lift (decode_object k v).

(** [update_typed_with_merge]. *)
Definition updated (o : ResourceObject) (version : string) (meta : InputMeta) (spec : JValue) (merge : option MergeMetadata) : ResourceObject :=
  let m := ro_metadata o in
  mkObject (mkMeta (om_name m) (om_namespace m) version (im_labels meta) (im_annotations meta) (im_owner_references meta) (im_finalizers meta) (im_deletion_timestamp meta)
    (om_creation_timestamp m) (match merge with Some _ => merge | None => om_merge m end)) spec (ro_status o).
Definition update_in k (retained : nat) (meta : InputMeta) (resource_version : string) (spec : JValue) (merge : option MergeMetadata) : SE ResourceObject :=
  let name := im_name meta in
  object ← current_object k name;
  if bool_decide (om_resource_version (ro_metadata object) <> resource_version) then fail (Conflict name "stale resourceVersion")
  else
    lift (rk_validate_spec_update k (ro_spec object) spec) ;;
    lift (rk_validate_spec k meta spec) ;;
    valid ← gets (validate_namespace_spec k meta spec);
    lift valid ;;
    if matches_update object meta spec && match merge with None => true | Some _ => bool_decide (om_merge (ro_metadata object) = merge) end then mret object
    else
      version ← allocate_version;
      spec ← lift (clone_through_serde spec);
      let object := updated object (version_text version) meta spec merge in
      encoded ← lift (encode_object k object);
      (if bool_decide (rk_replication k <> RDefinitions) && bool_decide (is_Some (im_deletion_timestamp meta)) && bool_decide (im_finalizers meta = [])
       then take_out name ;; push_event (mkEvent version EvDeleted encoded) retained
       else put name encoded ;; push_event (mkEvent version EvModified encoded) retained) ;;
      mret object.

(** [update_status_raw]. *)
Definition status_conflict (name expected current : string) : ResourceError :=
  Conflict name ("stale resourceVersion: expected=" +:+ expected +:+ ", current=" +:+ current +:+ ", intervening_writer=unavailable (not recorded)")%string.
Definition update_status_in k (retained : nat) (name resource_version : string) (status : JValue) : SE ResourceObject :=
  object ← current_object k name;
  let current := om_resource_version (ro_metadata object) in
  if bool_decide (current <> resource_version) then
    fail (if bool_decide (ap_kind (rk_paths k) = "Convoy") then status_conflict name resource_version current else Conflict name "stale resourceVersion")
  else
    lift (rk_validate_status_update k (ro_status object) status) ;;
    if matches_status object status then mret object
    else
      version ← allocate_version;
      status ← lift (clone_through_serde status);
      let object := mkObject (set_version (version_text version) (ro_metadata object)) (ro_spec object) (Some status) in
      encoded ← lift (encode_object k object);
      put name encoded ;;
      push_event (mkEvent version EvModified encoded) retained ;;
      mret object.

(** [delete_raw]: an object with finalizers is first marked. *)
Definition delete_in k (retained : nat) (name : string) (now : Timestamp) : SE unit :=
  object ← current_object k name;
  if is_pending_finalization (ro_metadata object) then mret tt
  else
    version ← allocate_version;
    let m := set_version (version_text version) (ro_metadata object) in
    if bool_decide (om_finalizers m <> []) && bool_decide (om_deletion_timestamp m = None) then
      encoded ← lift (encode_object k (mkObject (set_deletion (Some now) m) (ro_spec object) (ro_status object)));
      put name encoded ;;
      push_event (mkEvent version EvModified encoded) retained
    else
      encoded ← lift (encode_object k (mkObject m (ro_spec object) (ro_status object)));
      take_out name ;;
      push_event (mkEvent version EvDeleted encoded) retained.

(** [tombstone_raw], under the lock: deleting a name that is not here. *)
Definition tombstone_in k (retained : nat) (namespace name : string) (minimum : option Z) : SE (ResourceTombstone * bool) :=
  exists_ ← gets (fun s => bool_decide (is_Some (rs_objects s !! name)));
  if exists_ : bool then fail (Conflict name "cannot tombstone an existing resource by name")
  else
    held ← gets (fun s => rs_tombstones s !! name);
    match held with
    | Some t => mret (t, false)
    | None =>
        modify (fun s => match minimum with Some m => set_next_version (Z.max (rs_next_version s) (u64_saturating_add m 1)) s | None => s end) ;;
        version ← allocate_version;
        let t := mkTombstone name namespace (version_text version) ∅ in
        push_event (mkEvent version EvDeleted (encode_tombstone k t)) retained ;;
        modify (fun s => set_tombstones (<[name := t]> (rs_tombstones s)) s) ;;
        mret (t, true)
    end.

(** [tombstone_raw]: the replica cursor it must pass is read first. *)
Fixpoint digit_error (acc : Z) (t : list ascii) : string :=
  match t with
  | [] => EmptyString
  | c :: t =>
      if negb (is_digit c) then "invalid digit found in string"
      else let acc := acc * 10 + digit_val c in
           if acc <=? u64_max then digit_error acc t else "number too large to fit in target type"
  end.
(** [ParseIntError]'s text, for a [u64]. *)
Definition u64_error (t : list ascii) : string :=
  match t with
  | [] => "cannot parse integer from empty string"
  | c :: u => if bool_decide (byte_val c = 43) && negb (bool_decide (u = [])) then digit_error 0 u else digit_error 0 t
  end.
Definition parse_version (describe : string -> string) (text : string) : result ResourceError Z :=
  ok_or (parse_u64 (tx text)) (Invalid (describe (u64_error (tx text)))).
Definition tombstone_minimum (minimum : option string) : result ResourceError (option Z) :=
  match minimum with
  | Some text =>
      m ← parse_version (fun error => "invalid replica cursor resourceVersion '" +:+ text +:+ "' while tombstoning: " +:+ error)%string text;
      Ok (Some m)
  | None => Ok None
  end.

(** What a caller asks of one partition, in the namespace it is for. *)
Inductive Op : Type :=
| OCreate (meta : InputMeta) (spec : JValue) (merge : option MergeMetadata) (now : Timestamp)
| OUpdate (meta : InputMeta) (resource_version : string) (spec : JValue) (merge : option MergeMetadata)
| OUpdateStatus (name resource_version : string) (status : JValue)
| ODelete (name : string) (now : Timestamp)
| OTombstone (name : string) (minimum : option string).
Inductive Reply : Type := RObject (o : ResourceObject) | RDeleted | RTombstone (t : ResourceTombstone) (created : bool).
Definition perform k (retained : nat) (namespace : string) (op : Op) : SE Reply :=
  match op with
  | OCreate meta spec merge now =>
      lift (rk_validate_spec k meta spec) ;;
      status ← lift (initial_status k meta);
      o ← create_in k retained namespace meta spec status merge now;
      mret (RObject o)
  | OUpdate meta resource_version spec merge => o ← update_in k retained meta resource_version spec merge; mret (RObject o)
  | OUpdateStatus name resource_version status => o ← update_status_in k retained name resource_version status; mret (RObject o)
  | ODelete name now => delete_in k retained name now ;; mret RDeleted
  | OTombstone name minimum =>
      m ← lift (tombstone_minimum minimum);
      p ← tombstone_in k retained namespace name m;
      mret (RTombstone p.1 p.2)
  end.
(** A run of operations, each under the lock. *)
Definition perform_all k (retained : nat) (namespace : string) (ops : list Op) (s : ResourceStore) : ResourceStore :=
  foldl (fun s op => (perform k retained namespace op s).2) s ops.

(** * Watches *)

(** A watch: what it replays, then what its receiver gives; no receiver after
    it lagged. *)
Record Watch : Type := mkWatch { wt_generation : option string; wt_replay : list StoredEvent; wt_receiver : option (Rx StoredEvent) }.
Definition generation_mismatch (requested current : string) : ResourceError :=
  Invalid ("resourceVersion belongs to generation '" +:+ requested +:+ "', current generation is '" +:+ current +:+ "'")%string.
Definition bad_version (text error : string) : string := ("invalid resourceVersion '" +:+ text +:+ "': " +:+ error)%string.
Definition replay_from (generation : option string) (start : WatchStart) : result ResourceError (option Z) :=
  match start with
  | Now => Ok None
  | FromVersion version =>
      match generation with
      | Some _ => Err (Invalid "generational in-memory watches require a generation")
      | None => n ← parse_version (bad_version version) version; Ok (Some n)
      end
  | FromVersionInGeneration requested version =>
      match generation with
      | None => Err (Invalid "in-memory resource watches are not generational")
      | Some current =>
          if bool_decide (requested <> current) then Err (generation_mismatch requested current)
          else n ← parse_version (bad_version version) version; Ok (Some n)
      end
  end.
(** [watch_raw], on the partition. *)
Definition watch_in (generation : option string) (start : WatchStart) (s : ResourceStore) : result ResourceError Watch :=
  from ← replay_from generation start;
  match from with
  | None => Ok (mkWatch generation [] (Some (chan_subscribe (rs_watchers s))))
  | Some n =>
      if bool_decide (n < rs_compacted_through s) then Err (WatchExpired (version_text n) (Some (version_text (rs_compacted_through s))))
      else if bool_decide (n > current_version s) then
        Err (Invalid ("resourceVersion " +:+ version_text n +:+ " is ahead of current version " +:+ version_text (current_version s))%string)
      else Ok (mkWatch generation (filter (fun e => n < ev_version e) (rs_event_log s)) (Some (chan_subscribe (rs_watchers s))))
  end.
(** The stream's next item: a serialized event, its action and payload. *)
Record SerializedWatchEvent : Type := mkWatchEvent { we_action : StoredEventKind; we_payload : JValue }.
Inductive Polled : Type := Next (item : result ResourceError SerializedWatchEvent) | Pending | Ended.
Definition watch_event (e : StoredEvent) : SerializedWatchEvent := mkWatchEvent (ev_kind e) (ev_object e).
Definition lagged : ResourceError := WatchExpired "live watch lagged; relist required" None.
Definition poll (w : Watch) (s : ResourceStore) : Polled * Watch :=
  match wt_replay w with
  | e :: replay => (Next (Ok (watch_event e)), mkWatch (wt_generation w) replay (wt_receiver w))
  | [] =>
      match wt_receiver w with
      | None => (Ended, w)
      | Some rx =>
          match chan_recv (rs_watchers s) rx with
          | (Got e, rx) => (Next (Ok (watch_event e)), mkWatch (wt_generation w) [] (Some rx))
          | (Lagged, _) => (Next (Err lagged), mkWatch (wt_generation w) [] None)
          | (Waiting, rx) => (Pending, mkWatch (wt_generation w) [] (Some rx))
          end
      end
  end.
(** At most [n] items, as they come without waiting. *)
Fixpoint drain (n : nat) (w : Watch) (s : ResourceStore) : list (result ResourceError SerializedWatchEvent) :=
  match n with
  | O => []
  | S n => match poll w s with (Next item, w) => item :: drain n w s | (Pending, _) | (Ended, _) => [] end
  end.
End store.
