(* ===== verification/MemInv.v ===== *)

(** What the memory resource store keeps: its invariant, and that every
    operation keeps it and only appends the events it committed. *)

From Stdlib Require Import Ascii.
From S2P Require Import Text Encoding Address Names.
From S2P Require Import Prelude Ordered Schema Effects Kinds Inverted MessageIndex QueryIndex Digest MemStore.
#[local] Open Scope Z_scope.

Section invariant.
Context {JS : Json} {CR : Carried} {SD : Serde} {MS : MessageSerde} {IX : IndexedSpecs} {SH : Sha256} {BC : Broadcast} {DF : Declared}.
Context {D : Type}.
Implicit Types (k : ResourceKind D).
(** How many events the partition keeps: at least one. *)
Context (retained : nat).
Hypothesis Hret : (1 <= retained)%nat.


(** What an event does to the objects. *)
Definition event_value (e : StoredEvent) : option JValue := if kept (ev_kind e) then Some (ev_object e) else None.
Definition apply_event (objects : gmap string JValue) (e : StoredEvent) : gmap string JValue :=
  match value_name (ev_object e) with Some name => put_object name (event_value e) objects | None => objects end.
Definition apply_events (es : list StoredEvent) (objects : gmap string JValue) : gmap string JValue := foldl apply_event objects es.
Definition versions_of (objects : gmap string JValue) : gmap string string := omap value_version objects.

(** An object as an operation of its kind wrote it, at a version below [next]. *)
Record written k (next : Z) (n : string) (v : JValue) : Prop := {
  wr_name : value_name v = Some n;
  wr_version : exists w, value_version v = Some (version_text w) /\ 0 < w < next;
  wr_encoded : exists o, encode_object k o = Ok v;
}.
Record event_ok (e : StoredEvent) : Prop := {
  eo_name : is_Some (value_name (ev_object e));
  eo_version : value_version (ev_object e) = Some (version_text (ev_version e));
}.
Record log_ok (s : ResourceStore) : Prop := {
  lo_sorted : StronglySorted (fun a b => ev_version a < ev_version b) (rs_event_log s);
  lo_range : Forall (fun e => rs_compacted_through s < ev_version e < rs_next_version s) (rs_event_log s);
  lo_compacted : 0 <= rs_compacted_through s < rs_next_version s;
}.
Record store_ok k (s : ResourceStore) : Prop := {
  so_queries : query_index_ok declared (rs_objects s) (rs_queries s);
  so_messages : message_index_ok (rs_objects s) (rs_messages s);
  so_digest : digest_ok (versions_of (rs_objects s)) (rs_digest s);
  so_objects : forall n v, rs_objects s !! n = Some v -> written k (rs_next_version s) n v;
  so_log : log_ok s;
  so_next : 1 <= rs_next_version s <= u64_max;
  so_retained : rs_compacted_through s = 0 \/ (retained <= length (rs_event_log s))%nat;
  so_capacity : capacity (rs_watchers s) = WATCH_RING_CAPACITY;
}.

(** What a run of operations did: the events it committed, in order, and what
    the bounded log dropped. *)
Record emits (s s' : ResourceStore) (es : list StoredEvent) : Prop := {
  em_objects : rs_objects s' = apply_events es (rs_objects s);
  em_versions : Forall (fun e => rs_next_version s <= ev_version e < rs_next_version s') es;
  em_sorted : StronglySorted (fun a b => ev_version a < ev_version b) es;
  em_events : Forall event_ok es;
  em_next : rs_next_version s <= rs_next_version s';
  em_log : exists dropped, rs_event_log s ++ es = dropped ++ rs_event_log s' /\ rs_compacted_through s' = from_option ev_version (rs_compacted_through s) (last dropped);
  em_watchers : rs_watchers s' = foldl (fun c e => chan_send e c) (rs_watchers s) es;
}.

Lemma filter_all {A} (P : A -> Prop) `{forall x, Decision (P x)} l : Forall P l -> filter P l = l.
Proof. induction 1 as [|x l Hx _ IH]; [done|]. by rewrite filter_cons_True, IH. Qed.
Lemma filter_none {A} (P : A -> Prop) `{forall x, Decision (P x)} l : Forall (fun x => ~ P x) l -> filter P l = [].
Proof. induction 1 as [|x l Hx _ IH]; [done|]. by rewrite filter_cons_False, IH. Qed.
Lemma apply_events_app es1 es2 m : apply_events (es1 ++ es2) m = apply_events es2 (apply_events es1 m).
Proof. apply foldl_app. Qed.
Lemma last_app_from {A B} (f : A -> B) l1 l2 b : from_option f b (last (l1 ++ l2)) = from_option f (from_option f b (last l1)) (last l2).
Proof. destruct l2 as [|x l2] using rev_ind; [by rewrite app_nil_r|]. by rewrite app_assoc, !last_snoc. Qed.
Lemma emits_refl s : emits s s [].
Proof. split; try done; [constructor|]. exists []. by rewrite app_nil_r. Qed.
Lemma emits_trans s1 s2 s3 es1 es2 : emits s1 s2 es1 -> emits s2 s3 es2 -> emits s1 s3 (es1 ++ es2).
Proof.
  intros [O1 V1 S1 E1 N1 (d1 & L1 & C1) W1] [O2 V2 S2 E2 N2 (d2 & L2 & C2) W2]. split.
  - by rewrite apply_events_app, <-O1.
  - apply Forall_app. split; [eapply Forall_impl; [exact V1|]|eapply Forall_impl; [exact V2|]]; cbn; intros e ?; lia.
  - apply StronglySorted_app_2; [|done|done]. rewrite Forall_forall in V1, V2. intros x y Hx%V1 Hy%V2. lia.
  - by apply Forall_app.
  - lia.
  - exists (d1 ++ d2). split; [by rewrite app_assoc, L1, <-app_assoc, L2, app_assoc|]. by rewrite last_app_from, <-C1.
  - by rewrite foldl_app, <-W1.
Qed.
Lemma written_mono k next next' n v : written k next n v -> next <= next' -> written k next' n v.
Proof. intros [Hn (w & Hw & Hr) He] Hle. split; [done| |done]. exists w. split; [done|lia]. Qed.

Lemma store_default_ok k : store_ok k store_default.
Proof.
  split; cbn; [apply no_index_ok|apply no_messages_ok| |by intros n v Hv%lookup_empty_Some| |unfold u64_max; lia|by left|exact (capacity_new 8)].
  - unfold versions_of. rewrite omap_empty. apply no_digest_ok.
  - split; cbn; [constructor|constructor|lia].
Qed.

(** * Committing an event *)

Lemma versions_of_put name value objects : versions_of (put_object name value objects) =
  match value ≫= value_version with Some v => <[name := v]> (versions_of objects) | None => delete name (versions_of objects) end.
Proof.
  unfold versions_of. destruct value as [v|]; cbn [mbind option_bind put_object]; [|by rewrite omap_delete]. destruct (value_version v) as [w|] eqn:Hv.
  - by apply omap_insert_Some.
  - by apply omap_insert_None.
Qed.
(** The state an event is pushed on: the objects changed, the version taken. *)
Definition staged (s : ResourceStore) (e : StoredEvent) (t : gmap string ResourceTombstone) : ResourceStore :=
  mkStore (rs_queries s) (rs_messages s) (apply_event (rs_objects s) e) (rs_digest s) t (ev_version e + 1) (rs_watchers s) (rs_event_log s) (rs_compacted_through s).
Lemma compacted_last s excess log : rs_event_log s = log -> (excess <= length log)%nat ->
  (if bool_decide (0 < excess)%nat then from_option ev_version (rs_compacted_through s) (log !! (excess - 1)%nat) else rs_compacted_through s) =
  from_option ev_version (rs_compacted_through s) (last (take excess log)).
Proof.
  intros Hlog Hle. case_bool_decide as Hx; [|by replace excess with 0%nat by lia]. f_equal. rewrite last_lookup, length_take_le by lia.
  rewrite lookup_take_lt by lia. by replace (Nat.pred excess) with (excess - 1)%nat by lia.
Qed.
Lemma log_ok_shift s e excess c : log_ok s -> rs_next_version s <= ev_version e -> c = from_option ev_version (rs_compacted_through s) (last (take excess (rs_event_log s))) ->
  StronglySorted (fun a b => ev_version a < ev_version b) (drop excess (rs_event_log s) ++ [e]) /\
  Forall (fun x => c < ev_version x < ev_version e + 1) (drop excess (rs_event_log s) ++ [e]) /\ 0 <= c < ev_version e + 1.
Proof.
  intros [Hs Hr Hc] He ->. rewrite <-(take_drop excess (rs_event_log s)) in Hs, Hr. set (gone := take excess _) in *. set (left := drop excess _) in *.
  apply Forall_app in Hr as [Hg Hl]. assert (rs_compacted_through s <= from_option ev_version (rs_compacted_through s) (last gone) < rs_next_version s) as Hb.
  { destruct (last gone) as [x|] eqn:Hx; cbn; [|lia]. apply last_Some_elem_of in Hx. rewrite Forall_forall in Hg. apply Hg in Hx. lia. }
  assert (Forall (fun x => from_option ev_version (rs_compacted_through s) (last gone) < ev_version x) left) as Hgt.
  { apply Forall_forall. intros y Hy. destruct (last gone) as [x|] eqn:Hx; cbn; [|rewrite Forall_forall in Hl; apply Hl in Hy; lia].
    apply last_Some_elem_of in Hx. exact (StronglySorted_app_1_elem_of _ gone left x y Hs Hx Hy). }
  split; [|split; [|lia]].
  - apply StronglySorted_app_2; [|by apply StronglySorted_app_1_r in Hs|repeat constructor]. intros x y Hx ->%list_elem_of_singleton. rewrite Forall_forall in Hl. apply Hl in Hx. lia.
  - apply Forall_app. split; [|repeat constructor; lia]. apply Forall_forall. intros y Hy. rewrite Forall_forall in Hgt, Hl. specialize (Hgt y Hy). specialize (Hl y Hy). cbn in *. lia.
Qed.

Lemma push_event_ok k s e t : store_ok k s -> rs_next_version s <= ev_version e < u64_max -> event_ok e ->
  (kept (ev_kind e) = true -> exists o, encode_object k o = Ok (ev_object e)) ->
  exists s', push_event e retained (staged s e t) = (Done tt, s') /\ store_ok k s' /\ emits s s' [e] /\ rs_next_version s' = ev_version e + 1.
Proof.
  intros [Hq Hm Hd Ho Hl Hn Hc Hcap] Hver He Henc. destruct He as [[name Hname] Hvv]. set (excess := (length (rs_event_log s) + 1 - retained)%nat).
  assert (excess <= length (rs_event_log s))%nat as Hle by (unfold excess; lia). pose proof (compacted_last s excess _ eq_refl Hle) as Hcl.
  destruct (log_ok_shift s e excess _ Hl (proj1 Hver) Hcl) as (L1 & L2 & L3).
  unfold push_event. rewrite Hname. cbn [rs_event_log staged rs_compacted_through rs_queries rs_messages rs_digest rs_objects rs_tombstones rs_next_version rs_watchers]. fold excess.
  rewrite (bool_decide_true (excess <= _)%nat) by done. fold (event_value e). eexists. split; [reflexivity|].
  assert (apply_event (rs_objects s) e = put_object name (event_value e) (rs_objects s)) as Hap by (unfold apply_event; by rewrite Hname).
  split_and!; [| |done]; (split; cbn [rs_queries rs_messages rs_digest rs_objects rs_tombstones rs_next_version rs_watchers rs_event_log rs_compacted_through]).
  - rewrite Hap. by apply query_update_ok.
  - rewrite Hap. by apply message_update_ok.
  - rewrite Hap, versions_of_put. pose proof (digest_set_ok _ _ name (if kept (ev_kind e) then Some (version_text (ev_version e)) else None) Hd) as H'.
    unfold event_value. destruct (kept (ev_kind e)); cbn [mbind option_bind]; [by rewrite Hvv|done].
  - rewrite Hap. unfold event_value. intros n v. destruct (kept (ev_kind e)); cbn.
    + intros [[<- <-]|[Hne Hv]]%lookup_insert_Some; [|eapply written_mono; [by apply Ho|lia]]. split; [done| |by apply Henc]. exists (ev_version e). split; [done|lia].
    + intros [Hne Hv]%lookup_delete_Some. eapply written_mono; [by apply Ho|lia].
  - by split.
  - lia.
  - rewrite length_app, length_drop. cbn. case_bool_decide; unfold excess in *; lia.
  - by rewrite capacity_send.
  - done.
  - repeat constructor; lia.
  - repeat constructor.
  - repeat constructor; [by exists name|done].
  - lia.
  - exists (take excess (rs_event_log s)). split; [by rewrite app_assoc, take_drop|done].
  - done.
Qed.

(** * Operations *)

(** An operation leaves the invariant, and what it did is its event, or none; it
    panics only where the versions run out. *)
Definition good k (s : ResourceStore) {A} (r : outcome ResourceError A * ResourceStore) : Prop :=
  store_ok k r.2 /\ (exists es, emits s r.2 es /\ (length es <= 1)%nat) /\ (r.1 = Panics -> rs_next_version r.2 = u64_max).
Lemma good_done k s {A} (a : A) : store_ok k s -> good k s (Done a, s).
Proof. intros Hs. split_and!; [done|exists []; split; [apply emits_refl|cbn; lia]|done]. Qed.
Lemma good_failed k s {A} e : store_ok k s -> good k s (Failed e : outcome ResourceError A, s).
Proof. intros Hs. split_and!; [done|exists []; split; [apply emits_refl|cbn; lia]|done]. Qed.
Lemma good_lift k s {A B} (r : result ResourceError A) (g : A -> SE B) : store_ok k s -> (forall a, r = Ok a -> good k s (g a s)) -> good k s ((a ← lift r; g a) s).
Proof. intros Hs Hg. unfold mbind, eff_bind, lift. destruct r as [a|e]; cbn; [by apply Hg|by apply good_failed]. Qed.
Lemma good_map k s {A B} (m : SE A) (g : A -> B) : good k s (m s) -> good k s ((a ← m; mret (g a)) s).
Proof.
  unfold mbind, eff_bind, mret, eff_ret. intros (Hok & Hem & Hp). destruct (m s) as [[a|e|] s']; cbn in *; (split_and!; [done|done|]); [done|done|]. intros _. by apply Hp.
Qed.
(** Taking a version and committing one event of it. *)
Lemma good_allocate k s {A} (g : Z -> SE A) : store_ok k s -> (rs_next_version s < u64_max -> good k s (g (rs_next_version s) (set_next_version (rs_next_version s + 1) s))) ->
  good k s ((version ← allocate_version; g version) s).
Proof.
  intros Hs Hg. unfold mbind, eff_bind, allocate_version. case_bool_decide as Hlt; [by apply Hg|]. cbn. split_and!; [done|exists []; split; [apply emits_refl|cbn; lia]|].
  intros _. cbn. pose proof (so_next k s Hs). lia.
Qed.
Lemma good_encode k s {A} o (g : JValue -> SE A) s' :
  (forall v, encode_object k o = Ok v -> value_name v = Some (om_name (ro_metadata o)) -> value_version v = Some (om_resource_version (ro_metadata o)) -> good k s (g v s')) ->
  good k s ((v ← lift (encode_object k o); g v) s').
Proof.
  intros Hg. destruct (encode_object_Ok k o) as (v & Hv & Hn & Hr & _). unfold mbind, eff_bind, lift. rewrite Hv. cbn. by apply Hg.
Qed.
Lemma good_push k s {A} e t (g : unit -> SE A) s0 : store_ok k s -> rs_next_version s <= ev_version e < u64_max -> event_ok e ->
  (kept (ev_kind e) = true -> exists o, encode_object k o = Ok (ev_object e)) -> s0 = staged s e t ->
  (forall s', store_ok k s' -> (exists a, (g tt s').1 = Done a) /\ store_ok k (g tt s').2 /\ emits s' (g tt s').2 []) ->
  good k s ((x ← push_event e retained; g x) s0).
Proof.
  intros Hs Hver He Henc -> Hg. destruct (push_event_ok k s e t Hs Hver He Henc) as (s' & Hp & Hok & Hem & Hn).
  unfold mbind, eff_bind. rewrite Hp. destruct (Hg s' Hok) as ([a H1] & H2 & H3). split_and!; [done| |by rewrite H1]. exists ([e] ++ []). split; [by eapply emits_trans|cbn; lia].
Qed.
Lemma good_push_last k s e t s0 : store_ok k s -> rs_next_version s <= ev_version e < u64_max -> event_ok e ->
  (kept (ev_kind e) = true -> exists o, encode_object k o = Ok (ev_object e)) -> s0 = staged s e t -> good k s (push_event e retained s0).
Proof.
  intros Hs Hver He Henc ->. destruct (push_event_ok k s e t Hs Hver He Henc) as (s' & Hp & Hok & Hem & Hn). rewrite Hp. split_and!; [done|exists [e]; split; [done|cbn; lia]|done].
Qed.
Lemma clone_Ok v : clone_through_serde v = Ok v.
Proof. unfold clone_through_serde. by rewrite reserialize_Ok. Qed.
(** The object an update is made on reads back from what an operation wrote. *)
Lemma decoded_meta k v o : decode_object k v = Ok o -> (exists o0, encode_object k o0 = Ok v) ->
  value_name v = Some (om_name (ro_metadata o)) /\ value_version v = Some (om_resource_version (ro_metadata o)).
Proof.
  intros Hd [o0 He]. destruct (encode_object_Ok k o0) as (v' & Hv & Hn & Hr & _). rewrite He in Hv. injection Hv as <-. by rewrite (decode_encode k o0 v He o Hd).
Qed.
Lemma good_current k s {A} name (g : ResourceObject -> SE A) : store_ok k s ->
  (forall v o, rs_objects s !! name = Some v -> decode_object k v = Ok o -> om_name (ro_metadata o) = name -> value_version v = Some (om_resource_version (ro_metadata o)) -> good k s (g o s)) ->
  good k s ((o ← current_object k name; g o) s).
Proof.
  intros Hs Hg. unfold current_object. unfold mbind, eff_bind, gets, lift. destruct (rs_objects s !! name) as [v|] eqn:Hv; cbn [ok_or of_result]; [|by apply good_failed].
  destruct (decode_object k v) as [o|e] eqn:Ho; cbn [of_result]; [|by apply good_failed]. destruct (so_objects k s Hs _ _ Hv) as [Hn _ He].
  destruct (decoded_meta k v o Ho He) as [Hn' Hr]. apply (Hg v o); [done|done|congruence|done].
Qed.

Lemma bind_modify {A B} (f : ResourceStore -> ResourceStore) (m : SE A) (g : A -> SE B) s : (x ← (modify f ;; m); g x) s = (x ← m; g x) (f s).
Proof. done. Qed.
(** Tombstones and a higher next version are outside the invariant's events. *)
Lemma store_ok_next k s n t : store_ok k s -> rs_next_version s <= n <= u64_max ->
  store_ok k (set_next_version n (set_tombstones t s)) /\ emits s (set_next_version n (set_tombstones t s)) [].
Proof.
  intros [Hq Hm Hd Ho [L1 L2 L3] Hn Hc Hcap] Hle. split.
  - split; cbn; try done; [intros m v Hv; eapply written_mono; [by apply Ho|lia]| |lia]. split; cbn; [done| |lia]. eapply Forall_impl; [exact L2|]. cbn. lia.
  - split; cbn; try done; [constructor|lia|]. exists []. by rewrite app_nil_r.
Qed.

Ltac run_state := unfold mbind at 1, eff_bind at 1, modify at 1.
Ltac staged_state Hn := unfold staged, apply_event, event_value; cbn [ev_object ev_kind ev_version kept]; rewrite Hn; reflexivity.

Section operations.
Context k (namespace : string).

(** One event of the next version commits. *)
Lemma commit_good {A} s kind v o t s0 (a : A) : store_ok k s -> rs_next_version s < u64_max -> encode_object k o = Ok v ->
  value_name v = Some (om_name (ro_metadata o)) -> value_version v = Some (version_text (rs_next_version s)) -> s0 = staged s (mkEvent (rs_next_version s) kind v) t ->
  good k s ((push_event (mkEvent (rs_next_version s) kind v) retained ;; mret a) s0).
Proof.
  intros Hs Hlt He Hn Hr Hs0. apply (good_push k s _ t); cbn; [done|lia|split; [by eexists|done]|by eexists|done|]. intros s' Hs'. split_and!; [by eexists|done|apply emits_refl].
Qed.

Lemma create_good meta spec status merge now s : store_ok k s -> good k s (create_in k retained namespace meta spec status merge now s).
Proof.
  intros Hs. unfold create_in, put. unfold mbind at 1, eff_bind at 1, gets. case_bool_decide as Hex; [by apply good_failed|].
  unfold mbind at 1, eff_bind at 1. apply good_lift; [done|]. intros _ _. apply good_allocate; [done|]. intros Hlt. rewrite clone_Ok.
  unfold mbind at 1, eff_bind at 1, lift at 1. cbn [of_result]. apply good_encode. intros v Hv Hn Hr. cbn [ro_metadata om_name om_resource_version] in Hn, Hr.
  do 2 run_state. eapply commit_good; [done|done|exact Hv|done|done|]. staged_state Hn.
Qed.
Lemma update_good meta resource_version spec merge s : store_ok k s -> good k s (update_in k retained meta resource_version spec merge s).
Proof.
  intros Hs. unfold update_in, put, take_out. apply good_current; [done|]. intros v0 o Hv0 Hd Hname Hver. case_bool_decide as Hstale; [by apply good_failed|].
  apply good_lift; [done|]. intros _ _. apply good_lift; [done|]. intros _ _. unfold mbind at 1, eff_bind at 1, gets at 1. apply good_lift; [done|]. intros _ _.
  destruct (_ && _); [by apply good_done|]. apply good_allocate; [done|]. intros Hlt. rewrite clone_Ok.
  unfold mbind at 1, eff_bind at 1, lift at 1. cbn [of_result]. apply good_encode. intros v Hv Hn Hr. cbn [updated ro_metadata om_name om_resource_version] in Hn, Hr. rewrite Hname in Hn.
  destruct (_ && _); rewrite bind_modify; (eapply commit_good; [done|done|exact Hv|by cbn; rewrite Hname|done|]); staged_state Hn.
Qed.
Lemma update_status_good name resource_version status s : store_ok k s -> good k s (update_status_in k retained name resource_version status s).
Proof.
  intros Hs. unfold update_status_in, put. apply good_current; [done|]. intros v0 o Hv0 Hd Hname Hver. case_bool_decide as Hstale; [by apply good_failed|].
  apply good_lift; [done|]. intros _ _. destruct (matches_status o status); [by apply good_done|]. apply good_allocate; [done|]. intros Hlt. rewrite clone_Ok.
  unfold mbind at 1, eff_bind at 1, lift at 1. cbn [of_result]. apply good_encode. intros v Hv Hn Hr. cbn [set_version ro_metadata om_name om_resource_version] in Hn, Hr.
  run_state. eapply commit_good; [done|done|exact Hv|done|done|]. rewrite Hname in Hn. staged_state Hn.
Qed.
Lemma delete_good name now s : store_ok k s -> good k s (delete_in k retained name now s).
Proof.
  intros Hs. unfold delete_in, put, take_out. apply good_current; [done|]. intros v0 o Hv0 Hd Hname Hver. destruct (is_pending_finalization _); [by apply good_done|].
  apply good_allocate; [done|]. intros Hlt. destruct (_ && _); apply good_encode; intros v Hv Hn Hr; cbn [set_version set_deletion ro_metadata om_name om_resource_version] in Hn, Hr; rewrite Hname in Hn; run_state.
  all: eapply good_push_last; [done|cbn; lia|split; [by eexists|done]|by eexists|]; staged_state Hn.
Qed.
(** A name that is not here is deleted by the event alone. *)
Lemma apply_absent s e name : value_name (ev_object e) = Some name -> kept (ev_kind e) = false -> rs_objects s !! name = None -> apply_event (rs_objects s) e = rs_objects s.
Proof. intros Hn Hk Ha. unfold apply_event, event_value. rewrite Hn, Hk. cbn. by apply delete_id. Qed.
Lemma tombstone_good name minimum s : store_ok k s -> good k s (tombstone_in k retained namespace name minimum s).
Proof.
  intros Hs. unfold tombstone_in. unfold mbind at 1, eff_bind at 1, gets at 1. case_bool_decide as Hex; [by apply good_failed|].
  unfold mbind at 1, eff_bind at 1, gets at 1. destruct (rs_tombstones s !! name) as [t|]; [by apply good_done|]. run_state.
  set (n := match minimum with Some m => Z.max (rs_next_version s) (u64_saturating_add m 1) | None => rs_next_version s end).
  set (s1 := match minimum with Some m => _ | None => s end). assert (s1 = set_next_version n s) as Hs1 by (unfold s1, n; destruct minimum, s; done).
  assert (rs_next_version s <= n <= u64_max) as Hn by (unfold n; pose proof (so_next k s Hs); destruct minimum; unfold_ints; lia). clearbody n s1. subst s1.
  unfold mbind at 1, eff_bind at 1, allocate_version. cbn [rs_next_version set_next_version]. case_bool_decide as Hlt.
  - set (t := mkTombstone _ _ _ _). assert (value_name (encode_tombstone k t) = Some name) as Hname by apply json_tombstone_name.
    eapply (good_push k s (mkEvent n EvDeleted (encode_tombstone k t)) (rs_tombstones s)); cbn [ev_version ev_kind ev_object kept]; [done|lia| |done| |].
    + split; cbn; [by eexists|]. apply json_tombstone_version.
    + unfold staged. rewrite (apply_absent _ _ name); [done|done|done|]. by apply eq_None_not_Some.
    + intros s' Hs'. destruct (store_ok_next k s' (rs_next_version s') (<[name := t]> (rs_tombstones s')) Hs') as [H1 H2]; [pose proof (so_next k s' Hs'); lia|].
      split_and!; [by eexists|done|done].
  - destruct (store_ok_next k s n (rs_tombstones s) Hs Hn) as [H1 H2]. split_and!; [by destruct s|exists []; split; [by destruct s|cbn; lia]|]. cbn. lia.
Qed.

Lemma perform_good op s : store_ok k s -> good k s (perform k retained namespace op s).
Proof.
  intros Hs. destruct op; cbn [perform].
  - apply good_lift; [done|]. intros _ _. apply good_lift; [done|]. intros status _. apply good_map, create_good, Hs.
  - apply good_map, update_good, Hs.
  - apply good_map, update_status_good, Hs.
  - apply (good_map k s _ (fun _ => RDeleted)), delete_good, Hs.
  - apply good_lift; [done|]. intros m _. apply (good_map k s _ (fun p => RTombstone p.1 p.2)), tombstone_good, Hs.
Qed.

(** * Runs *)

(** The event an operation committed, read off the log it left: the one at a
    version that was still to be taken. *)
Definition committed_by (s s' : ResourceStore) : list StoredEvent := filter (fun e => rs_next_version s <= ev_version e) (rs_event_log s').
(** The events a run committed, in the order of its operations. *)
Fixpoint committed_events (ops : list Op) (s : ResourceStore) : list StoredEvent :=
  match ops with
  | [] => []
  | op :: ops => let s' := (perform k retained namespace op s).2 in committed_by s s' ++ committed_events ops s'
  end.

Lemma committed_by_emits s s' es : store_ok k s -> store_ok k s' -> emits s s' es -> (length es <= 1)%nat -> committed_by s s' = es.
Proof.
  intros Hs Hs' Hem Hlen. destruct (em_log _ _ _ Hem) as (dropped & Hlog & Hc). unfold committed_by.
  assert (filter (fun e => rs_next_version s <= ev_version e) (rs_event_log s) = []) as Hold.
  { apply filter_none. eapply Forall_impl; [exact (lo_range _ (so_log _ _ Hs))|]. cbn. intros e ?. lia. }
  destruct es as [|e [|]]; [| |cbn in Hlen; lia].
  - rewrite app_nil_r in Hlog. rewrite Hlog, filter_app in Hold. by apply app_eq_nil in Hold as [_ ->].
  - pose proof (em_versions _ _ _ Hem) as [He _]%Forall_cons. cbn in He. destruct (rs_event_log s') as [|e' log _] eqn:Hl using rev_ind.
    + exfalso. rewrite app_nil_r in Hlog. rewrite <-Hlog, last_snoc in Hc. cbn in Hc. pose proof (so_next _ _ Hs). destruct (so_retained _ _ Hs') as [H0|Hr]; [lia|]. rewrite Hl in Hr. cbn in Hr. lia.
    + rewrite app_assoc in Hlog. apply app_inj_tail in Hlog as [Hlog <-]. rewrite Hlog, filter_app in Hold. apply app_eq_nil in Hold as [_ Hold].
      by rewrite filter_app, Hold, filter_cons_True by lia.
Qed.
(** Any run of operations. *)
Lemma perform_all_ok ops s : store_ok k s -> store_ok k (perform_all k retained namespace ops s) /\ emits s (perform_all k retained namespace ops s) (committed_events ops s).
Proof.
  revert s. induction ops as [|op ops IH]; intros s Hs; cbn; [split; [done|]; apply emits_refl|]. fold (perform_all k retained namespace ops (perform k retained namespace op s).2).
  destruct (perform_good op s Hs) as (Hok & (es1 & H1 & Hlen) & _). destruct (IH _ Hok) as (Hok' & H2). split; [done|]. rewrite (committed_by_emits s _ es1) by done. by eapply emits_trans.
Qed.
End operations.
End invariant.
