(* ===== verification/MemWatch.v ===== *)
(** What a client of the memory resource store relies on: a watch resumed from a
    list misses nothing, a stale version never overwrites, the indexes answer
    queries exactly, finalizers hold an object. *)

From Stdlib Require Import Ascii.
From S2P Require Import Text Encoding Address Names.
From S2P Require Import Prelude Ordered Schema Effects Kinds Inverted MessageIndex QueryIndex Digest MemStore MemInv.
#[local] Open Scope Z_scope.

Section clients.
Context {JS : Json} {CR : Carried} {SD : Serde} {MS : MessageSerde} {IX : IndexedSpecs} {SH : Sha256} {BC : Broadcast} {DF : Declared}.
Context {D : Type} (k : ResourceKind D) (retained : nat) (namespace : string).
Hypothesis Hret : (1 <= retained)%nat.
#[local] Abbreviation ok := (store_ok retained k).
#[local] Abbreviation run := (perform_all k retained namespace).

(** * Versions as text *)

Lemma tx_str t : tx (str t) = t.
Proof. apply String.list_ascii_of_string_of_list_ascii. Qed.
Lemma parse_version_text describe n : is_u64 n -> parse_version describe (version_text n) = Ok n.
Proof.
  intros Hn. unfold parse_version, version_text. rewrite tx_str. destruct (decide (u64_to_string n = [])) as [He|He].
  - exfalso. destruct (decide (n = 0)) as [->|Hz]; [done|]. unfold u64_to_string in He. destruct (decimal_spec 20 n []) as (t & Heq & (_ & c & u & -> & _) & _); [unfold_ints; lia|]. by rewrite Heq in He.
  - destruct (u64_round_trip (u64_to_string n) n He) as [_ [_ Hp]]; [done|]. by rewrite Hp.
Qed.
Lemma version_text_inj n m : is_u64 n -> is_u64 m -> version_text n = version_text m -> n = m.
Proof. intros Hn Hm Heq. apply u64_to_string_inj; [done|done|]. rewrite <-(tx_str (u64_to_string n)), <-(tx_str (u64_to_string m)). unfold version_text in Heq. by rewrite Heq. Qed.
Lemma current_version_next s : ok s -> current_version s = rs_next_version s - 1 /\ is_u64 (current_version s).
Proof. intros Hs. pose proof (so_next _ _ _ Hs). unfold current_version. split; [lia|]. unfold_ints. lia. Qed.

Lemma reachable_ok ops : ok (run ops store_default).
Proof. by destruct (perform_all_ok retained Hret k namespace ops store_default (store_default_ok retained Hret k)). Qed.

(** * Listing *)

Lemma elem_of_objects s v : v ∈ (map_iter (rs_objects s)).*2 <-> exists n, rs_objects s !! n = Some v.
Proof.
  rewrite list_elem_of_fmap. split.
  - intros ([n w] & -> & Hw%elem_of_map_iter). by exists n.
  - intros [n Hn]. exists (n, v). split; [done|]. by apply elem_of_map_iter.
Qed.
Lemma list_raw_exact generation s l : list_raw generation k s = Ok l ->
  rl_resource_version l = version_text (current_version s) /\ rl_generation l = generation /\
  (forall o, o ∈ rl_items l <-> exists n v, rs_objects s !! n = Some v /\ decode_object k v = Ok o) /\ Sorted by_name (rl_items l).
Proof.
  unfold list_raw, list_rows. destruct (collect _ _) as [items|e] eqn:Hc; [|done]. cbn [mbind result_bind fst snd]. intros [= <-]. cbn [rl_items rl_resource_version rl_generation]. split_and!; [done|done| |].
  - intros o. rewrite (sort_by_perm by_name items). apply collect_Ok in Hc. split.
    + intros Ho. apply list_elem_of_lookup in Ho as [i Hi]. destruct (Forall2_lookup_r _ _ _ _ _ Hc Hi) as ([n v] & Hn & Hd). exists n, v. split; [|done].
      apply elem_of_map_iter. by eapply list_elem_of_lookup_2.
    + intros (n & v & Hn & Hd). assert ((n, v) ∈ map_iter (rs_objects s)) as Hin by by apply elem_of_map_iter. apply list_elem_of_lookup in Hin as [i Hi].
      destruct (Forall2_lookup_l _ _ _ _ _ Hc Hi) as (o' & Ho & Hd'). cbn in Hd'. rewrite Hd in Hd'. injection Hd' as ->. by eapply list_elem_of_lookup_2.
  - apply sort_by_sorted. intros x y. unfold by_name. rewrite bool_decide_eq_false, bool_decide_eq_true. intros Hn.
    destruct (total String.le (om_name (ro_metadata x)) (om_name (ro_metadata y))); [done|done].
Qed.

(** * Watching *)

(** What a client that applies the stream's items to a copy holds. *)
Definition apply_item (objects : gmap string JValue) (item : SerializedWatchEvent) : gmap string JValue :=
  match value_name (we_payload item) with
  | Some name => put_object name (if kept (we_action item) then Some (we_payload item) else None) objects
  | None => objects
  end.
Fixpoint follow (objects : gmap string JValue) (items : list (result ResourceError SerializedWatchEvent)) : result ResourceError (gmap string JValue) :=
  match items with
  | [] => Ok objects
  | Ok item :: items => follow (apply_item objects item) items
  | Err e :: _ => Err e
  end.
Definition delivered (es : list StoredEvent) : list (result ResourceError SerializedWatchEvent) := map (fun e => Ok (watch_event e)) es.
Lemma follow_delivered es rest objects : follow objects (delivered es ++ rest) = follow (apply_events es objects) rest.
Proof. revert objects. induction es as [|e es IH]; intros objects; cbn; [done|]. by rewrite IH. Qed.

(** What a watch will deliver, as long as it does not lag. *)
Lemma drain_delivers n w s rx : wt_receiver w = Some rx -> attached (rs_watchers s) rx -> capacity (rs_watchers s) = WATCH_RING_CAPACITY ->
  (length (wt_replay w) + length (unseen (rs_watchers s) rx) < n)%nat ->
  drain n w s = delivered (wt_replay w) ++ if decide (length (unseen (rs_watchers s) rx) <= WATCH_RING_CAPACITY)%nat then delivered (unseen (rs_watchers s) rx) else [Err lagged].
Proof.
  revert w rx. induction n as [|n IH]; intros w rx Hrx Hat Hcap Hn; [lia|]. cbn [drain]. unfold poll. destruct (wt_replay w) as [|e replay] eqn:Hr.
  - rewrite Hrx. pose proof (recv_spec (rs_watchers s) rx Hat) as Hrecv. rewrite Hcap in Hrecv. destruct (unseen (rs_watchers s) rx) as [|e rest] eqn:Hu.
    + rewrite Hrecv. cbn. done.
    + destruct (decide (length (e :: rest) <= WATCH_RING_CAPACITY)%nat) as [Hle|Hgt].
      * destruct Hrecv as (rx' & -> & Hat' & Hu'). cbn [delivered map app]. f_equal. rewrite (IH _ rx'); cbn; [|done|done|done|rewrite Hu'; cbn in Hn; lia].
        rewrite Hu'. cbn in Hle. by rewrite decide_True by lia.
      * destruct (chan_recv (rs_watchers s) rx) as [r rx'] eqn:Hc. cbn in Hrecv. subst r. cbn. destruct n; [cbn in Hn; lia|done].
  - cbn [delivered map app]. f_equal. by rewrite (IH _ rx); cbn in *; [|done|done|done|lia].
Qed.

Lemma sorted_below_last (l : list StoredEvent) x y : StronglySorted (fun a b => ev_version a < ev_version b) l -> last l = Some y -> x ∈ l -> ev_version x <= ev_version y.
Proof.
  intros Hl Hy Hx. apply last_Some in Hy as [l' ->]. apply elem_of_app in Hx as [Hx|Hx]; [|apply list_elem_of_singleton in Hx as ->; lia].
  pose proof (StronglySorted_app_1_elem_of _ l' [y] x y Hl Hx ltac:(by apply list_elem_of_singleton)). cbn in *. lia.
Qed.
Lemma log_sorted s s' es : ok s -> emits s s' es -> StronglySorted (fun a b => ev_version a < ev_version b) (rs_event_log s ++ es).
Proof.
  intros Hs Hem. destruct (so_log _ _ _ Hs) as [Hl Hr _]. apply StronglySorted_app_2; [|done|exact (em_sorted _ _ _ Hem)].
  pose proof (em_versions _ _ _ Hem) as Hv. rewrite Forall_forall in Hr, Hv. intros x y Hx%Hr Hy%Hv. lia.
Qed.
(** The events the log keeps after a version that was not compacted are all of
    those committed since. *)
Lemma replay_since s s' es : ok s -> ok s' -> emits s s' es -> rs_compacted_through s' <= current_version s -> filter (fun e => current_version s < ev_version e) (rs_event_log s') = es.
Proof.
  intros Hs Hs' Hem Hc. destruct (current_version_next s Hs) as [Hcv _]. destruct (em_log _ _ _ Hem) as (dropped & Hlog & Hd).
  assert (filter (fun e => current_version s < ev_version e) (rs_event_log s ++ es) = es) as Hall.
  { rewrite filter_app, filter_none, filter_all; [done| |].
    - eapply Forall_impl; [exact (em_versions _ _ _ Hem)|]. cbn. intros e ?. lia.
    - eapply Forall_impl; [exact (lo_range _ (so_log _ _ _ Hs))|]. cbn. intros e ?. lia. }
  rewrite Hlog, filter_app, filter_none in Hall; [done|]. apply Forall_forall. intros x Hx.
  pose proof (log_sorted s s' es Hs Hem) as Hsorted. rewrite Hlog in Hsorted. apply StronglySorted_app_1_l in Hsorted.
  destruct (last dropped) as [y|] eqn:Hy; [|apply last_None in Hy; subst; by apply not_elem_of_nil in Hx]. pose proof (sorted_below_last dropped x y Hsorted Hy Hx). cbn in Hd. lia.
Qed.
(** A version is compacted away only after as many events as the log keeps. *)
Lemma sorted_room (l : list StoredEvent) a b : StronglySorted (fun a b => ev_version a < ev_version b) l -> Forall (fun e => a < ev_version e < b) l -> a < b ->
  Z.of_nat (length l) < b - a.
Proof.
  revert a. induction l as [|e l IH]; intros a Hs Hr Hab; cbn; [lia|]. apply StronglySorted_inv in Hs as [Hs He]. apply Forall_cons in Hr as [H1 Hr].
  specialize (IH (ev_version e) Hs). lapply IH; [lia|]. rewrite Forall_forall in *. intros x Hx. specialize (Hr x Hx). specialize (He x Hx). cbn in *. lia.
Qed.
Lemma compacted_late s s' : ok s -> ok s' -> current_version s < rs_compacted_through s' -> Z.of_nat retained < rs_next_version s' - rs_next_version s.
Proof.
  intros Hs Hs' Hc. destruct (current_version_next s Hs) as [Hcv _]. pose proof (so_next _ _ _ Hs). destruct (so_log _ _ _ Hs') as [Hl Hr Hb].
  destruct (so_retained _ _ _ Hs') as [H0|Hlen]; [lia|]. pose proof (sorted_room _ _ _ Hl Hr ltac:(lia)). lia.
Qed.
Lemma sent_unseen {E} (es : list E) (c : Chan E) rx : attached c rx -> attached (foldl (fun c e => chan_send e c) c es) rx /\ unseen (foldl (fun c e => chan_send e c) c es) rx = unseen c rx ++ es.
Proof.
  revert c. induction es as [|e es IH]; intros c Hat; cbn; [by rewrite app_nil_r|]. destruct (IH (chan_send e c)) as [H1 H2]; [by apply send_attached|].
  split; [done|]. rewrite H2, send_unseen by done. by rewrite <-app_assoc.
Qed.
Lemma resumed_from generation s l s' : ok s -> ok s' -> list_raw generation k s = Ok l -> rs_next_version s <= rs_next_version s' ->
  watch_in generation (resuming_from l) s' =
  if bool_decide (current_version s < rs_compacted_through s') then Err (WatchExpired (rl_resource_version l) (Some (version_text (rs_compacted_through s'))))
  else Ok (mkWatch generation (filter (fun e => current_version s < ev_version e) (rs_event_log s')) (Some (chan_subscribe (rs_watchers s')))).
Proof.
  intros Hs Hs' Hl Hle. destruct (list_raw_exact _ _ _ Hl) as (Hrv & Hgen & _ & _). destruct (current_version_next s Hs) as [Hcv Hu]. destruct (current_version_next s' Hs') as [Hcv' _].
  assert (replay_from generation (resuming_from l) = Ok (Some (current_version s))) as Hfrom.
  { unfold resuming_from. rewrite Hgen. destruct generation as [g|]; cbn [replay_from]; [rewrite bool_decide_false by (intros []; done)|]; rewrite Hrv, parse_version_text by done; done. }
  unfold watch_in. rewrite Hfrom. cbn [mbind result_bind]. case_bool_decide; [by rewrite Hrv|]. by rewrite bool_decide_false by lia.
Qed.

(** C7: A client that lists a collection, after any operations on a new partition,
    and resumes a watch from the list, after any operations in between, takes
    from it, after any further operations, exactly the events committed since
    the list, each once and in the order of their strictly growing versions: the
    items of the list are exactly the stored objects; the watch expires only if
    more versions were written since the list than the log keeps events; the
    stream delivers the events of the operations before the watch and then those
    after it, and applied to what was listed they give the collection as it is;
    only if more events than the ring holds were committed since the watch does
    it deliver those before the watch and then the error that tells the client
    to list again. *)
Theorem list_then_watch generation ops0 listed ops1 ops2 :
  let s := run ops0 store_default in
  list_raw generation k s = Ok listed ->
  let s1 := run ops1 s in
  let s2 := run ops2 s1 in
  let before := committed_events retained k namespace ops1 s in
  let after := committed_events retained k namespace ops2 s1 in
  (forall o, o ∈ rl_items listed <-> exists n v, rs_objects s !! n = Some v /\ decode_object k v = Ok o) /\
  StronglySorted (fun a b => ev_version a < ev_version b) (before ++ after) /\
  match watch_in generation (resuming_from listed) s1 with
  | Err e => e = WatchExpired (rl_resource_version listed) (Some (version_text (rs_compacted_through s1))) /\ Z.of_nat retained < rs_next_version s1 - rs_next_version s
  | Ok w =>
      forall n, (length before + length after < n)%nat ->
        if decide (length after <= WATCH_RING_CAPACITY)%nat
        then drain n w s2 = delivered (before ++ after) /\ follow (rs_objects s) (drain n w s2) = Ok (rs_objects s2)
        else drain n w s2 = delivered before ++ [Err lagged]
  end.
Proof.
  intros s Hl s1 s2 before after. pose proof (reachable_ok ops0) as Hs. fold s in Hs. destruct (perform_all_ok retained Hret k namespace ops1 s Hs) as (Hs1 & H1). fold s1 before in Hs1, H1.
  destruct (perform_all_ok retained Hret k namespace ops2 s1 Hs1) as (Hs2 & H2). fold s2 after in Hs2, H2. assert (emits s s2 (before ++ after)) as H12 by (by eapply emits_trans).
  split; [by apply list_raw_exact in Hl as (_ & _ & Hitems & _)|]. split; [exact (em_sorted _ _ _ H12)|].
  rewrite (resumed_from generation s listed s1 Hs Hs1 Hl (em_next _ _ _ H1)). case_bool_decide as Hc; [split; [done|by apply compacted_late]|].
  rewrite (replay_since s s1 before Hs Hs1 H1) by lia. destruct (sent_unseen after (rs_watchers s1) (chan_subscribe (rs_watchers s1)) (subscribe_attached _)) as [Hat Hun].
  rewrite <-(em_watchers _ _ _ H2) in Hat, Hun. rewrite subscribe_unseen in Hun. cbn [app] in Hun. intros n Hn.
  rewrite (drain_delivers n _ s2 (chan_subscribe (rs_watchers s1))); cbn [wt_receiver wt_replay]; [|done|done|apply (so_capacity _ _ _ Hs2)|rewrite Hun; lia].
  rewrite Hun. case_decide as Hcap; [|done]. unfold delivered. rewrite <-map_app. split; [done|]. fold (delivered (before ++ after)).
  rewrite <-(app_nil_r (delivered _)), follow_delivered. cbn. by rewrite <-(em_objects _ _ _ H12).
Qed.

(** * Stale versions *)

(** An object after some events is the one before, or one of theirs. *)
Lemma apply_events_lookup es objects n v : apply_events es objects !! n = Some v -> objects !! n = Some v \/ exists e, e ∈ es /\ ev_object e = v.
Proof.
  induction es as [|e es IH] using rev_ind; [by left|]. rewrite apply_events_app. cbn. unfold apply_event, event_value. destruct (value_name (ev_object e)) as [m|].
  - destruct (kept (ev_kind e)); cbn.
    + intros [[_ <-]|[_ Hv]]%lookup_insert_Some; [right; exists e; set_solver|]. destruct (IH Hv) as [|(e' & He' & <-)]; [by left|right; exists e'; set_solver].
    + intros [_ Hv]%lookup_delete_Some. destruct (IH Hv) as [|(e' & He' & <-)]; [by left|right; exists e'; set_solver].
  - intros Hv. destruct (IH Hv) as [|(e' & He' & <-)]; [by left|right; exists e'; set_solver].
Qed.
(** A name at the version it had holds what it held. *)
Lemma version_fixes s s' es n v v' : ok s -> ok s' -> emits s s' es -> rs_objects s !! n = Some v -> rs_objects s' !! n = Some v' -> value_version v = value_version v' -> v = v'.
Proof.
  intros Hs Hs' Hem Hv Hv' Heq. rewrite (em_objects _ _ _ Hem) in Hv'. destruct (apply_events_lookup _ _ _ _ Hv') as [Hold|(e & He & <-)]; [congruence|exfalso].
  destruct (so_objects _ _ _ Hs _ _ Hv) as [_ (w & Hw & Hr) _]. pose proof (em_events _ _ _ Hem) as Hev. pose proof (em_versions _ _ _ Hem) as Hvs. rewrite Forall_forall in Hev, Hvs.
  destruct (Hev e He) as [_ Hve]. specialize (Hvs e He). cbn in Hvs. rewrite Hw, Hve in Heq. injection Heq as Heq. pose proof (so_next _ _ _ Hs'). apply version_text_inj in Heq; [lia|unfold_ints; lia|unfold_ints; lia].
Qed.
Lemma stale_decode s s' es name o v' o' : ok s -> ok s' -> emits s s' es -> get_row (decode_object k) name s = Ok o -> rs_objects s' !! name <> rs_objects s !! name ->
  rs_objects s' !! name = Some v' -> decode_object k v' = Ok o' -> om_resource_version (ro_metadata o') <> om_resource_version (ro_metadata o).
Proof.
  intros Hs Hs' Hem Hget Hne Hv' Ho' Heq. unfold get_row in Hget. destruct (rs_objects s !! name) as [v|] eqn:Hv; [|done].
  destruct (decoded_meta k v o Hget (wr_encoded _ _ _ _ (so_objects _ _ _ Hs _ _ Hv))) as [_ H1].
  destruct (decoded_meta k v' o' Ho' (wr_encoded _ _ _ _ (so_objects _ _ _ Hs' _ _ Hv'))) as [_ H2].
  apply Hne. rewrite Hv'. f_equal. symmetry. eapply version_fixes; [exact Hs|exact Hs'|done|done|done|]. by rewrite H1, H2, Heq.
Qed.

(** C8: No lost update: once the object a client read has changed or is gone,
    whatever operations did it, an update or a status update that carries the
    version the client read fails and leaves the partition as it is. *)
Theorem no_lost_update ops0 name o ops :
  let s := run ops0 store_default in
  get_row (decode_object k) name s = Ok o ->
  let s' := run ops s in
  rs_objects s' !! name <> rs_objects s !! name ->
  (forall meta spec merge, im_name meta = name -> exists e, perform k retained namespace (OUpdate meta (om_resource_version (ro_metadata o)) spec merge) s' = (Failed e, s')) /\
  (forall status, exists e, perform k retained namespace (OUpdateStatus name (om_resource_version (ro_metadata o)) status) s' = (Failed e, s')).
Proof.
  intros s Hget s' Hne. pose proof (reachable_ok ops0) as Hs. fold s in Hs. destruct (perform_all_ok retained Hret k namespace ops s Hs) as (Hs' & Hem). fold s' in Hs', Hem.
  pose proof (fun v' o' => stale_decode s s' _ name o v' o' Hs Hs' Hem Hget Hne) as Hstale.
  split; intros; cbn [perform]; unfold update_in, update_status_in, current_object, mbind, eff_bind, gets, lift; subst.
  all: destruct (rs_objects s' !! _) as [v'|] eqn:Hv; cbn [ok_or of_result]; [|by eexists]; destruct (decode_object k v') as [o'|e] eqn:Ho; cbn [of_result]; [|by eexists].
  all: rewrite bool_decide_true by exact (Hstale v' o' eq_refl Ho); by eexists.
Qed.

(** * Indexes *)

(** C27: Whatever operations were performed on a new partition, its indexes answer
    for its objects: a declared query names exactly the objects it selects, a
    message query exactly the messages that match it, and a digest bucket exactly
    the names that hash to it. *)
Theorem store_indexes_exact ops :
  let s := run ops store_default in
  (forall q n, n ∈ query_names (rs_queries s) q <-> exists v, rs_objects s !! n = Some v /\ selects declared (rs_objects s) q v) /\
  (forall q n, n ∈ message_names (rs_messages s) q <-> exists v, rs_objects s !! n = Some v /\ message_matches q v) /\
  (forall bucket n, (bucket < DIGEST_FANOUT)%nat -> n ∈ digest_names (rs_digest s) bucket <-> is_Some (rs_objects s !! n) /\ digest_bucket n = bucket).
Proof.
  intros s. pose proof (reachable_ok ops) as Hs. fold s in Hs. split_and!.
  - intros q n. apply (query_names_exact declared _ _ (so_queries _ _ _ Hs) q).
  - intros q n. apply message_query_exact. exact (so_messages _ _ _ Hs).
  - intros bucket n Hb. rewrite (digest_names_spec _ _ _ _ (so_digest _ _ _ Hs) Hb). unfold versions_of. rewrite lookup_omap. split.
    + intros [[w Hw] Hn]. split; [|done]. destruct (rs_objects s !! n); [by eexists|done].
    + intros [[v Hv] Hn]. split; [|done]. rewrite Hv. cbn. destruct (so_objects _ _ _ Hs _ _ Hv) as [_ (w & Hw & _) _]. by eexists.
Qed.

(** * Finalizers *)

(** The objects a computation leaves, however it ends. *)
Section leaves.
Context (P : gmap string JValue -> Prop).
Definition leaves {A} (r : outcome ResourceError A * ResourceStore) : Prop := P (rs_objects r.2).
Lemma leaves_lift {A B} (r : result ResourceError A) (g : A -> SE B) s : P (rs_objects s) -> (forall a, r = Ok a -> leaves (g a s)) -> leaves ((a ← lift r; g a) s).
Proof. intros Hs Hg. unfold mbind, eff_bind, lift. destruct r as [a|e]; cbn; [by apply Hg|done]. Qed.
Lemma leaves_then {A B} (m : SE A) (g : A -> B) s : leaves (m s) -> leaves ((a ← m; mret (g a)) s).
Proof. unfold leaves, mbind, eff_bind, mret, eff_ret. by destruct (m s) as [[a|e|] s']. Qed.
Lemma leaves_allocate {B} (g : Z -> SE B) s : P (rs_objects s) -> (forall version, leaves (g version (set_next_version (version + 1) s))) -> leaves ((version ← allocate_version; g version) s).
Proof. intros Hs Hg. unfold mbind, eff_bind, allocate_version. case_bool_decide; [by apply Hg|done]. Qed.
Lemma leaves_push e r s : P (rs_objects s) -> leaves (push_event e r s).
Proof. intros Hs. unfold leaves, push_event. destruct (value_name _); [|done]. by case_bool_decide. Qed.
Lemma leaves_current {B} name (g : ResourceObject -> SE B) s : P (rs_objects s) ->
  (forall v o, rs_objects s !! name = Some v -> decode_object k v = Ok o -> leaves (g o s)) -> leaves ((o ← current_object k name; g o) s).
Proof.
  intros Hs Hg. unfold current_object. unfold mbind, eff_bind, gets, lift. destruct (rs_objects s !! name) as [v|] eqn:Hv; cbn [ok_or of_result]; [|done].
  destruct (decode_object k v) as [o|e] eqn:Ho; cbn [of_result]; [by apply (Hg v)|done].
Qed.
End leaves.

(** The object of a name has finalizers. *)
Definition holds_finalizers (v : JValue) : Prop := exists o, encode_object k o = Ok v /\ om_finalizers (ro_metadata o) <> [].
Definition guarded (name : string) (objects : gmap string JValue) : Prop := exists v, objects !! name = Some v /\ holds_finalizers v.
Definition clears (name : string) (op : Op) : Prop := match op with OUpdate meta _ _ _ => im_name meta = name /\ im_finalizers meta = [] | _ => False end.

Lemma guarded_other name other (v : JValue) objects : guarded name objects -> other <> name -> guarded name (<[other := v]> objects) /\ guarded name (delete other objects).
Proof. intros (w & Hw & Hh) Hne. split; exists w; (split; [|done]); [by rewrite lookup_insert_ne|by rewrite lookup_delete_ne]. Qed.
Lemma guarded_put name o v objects : encode_object k o = Ok v -> om_finalizers (ro_metadata o) <> [] -> guarded name (<[name := v]> objects).
Proof. intros Hv Hf. exists v. split; [apply lookup_insert_eq|by exists o]. Qed.
Lemma guarded_finalizers name s v o : guarded name (rs_objects s) -> rs_objects s !! name = Some v -> decode_object k v = Ok o -> om_finalizers (ro_metadata o) <> [].
Proof. intros (w & Hw & o0 & He & Hf) Hv Hd. rewrite Hv in Hw. injection Hw as <-. by rewrite (decode_encode k o0 v He o Hd). Qed.
Lemma bind_gets {A B} (f : ResourceStore -> A) (g : A -> SE B) s : (x ← gets f; g x) s = g (f s) s.
Proof. done. Qed.
Lemma bind_modify_then {B} (f : ResourceStore -> ResourceStore) (g : unit -> SE B) s : (x ← modify f; g x) s = g tt (f s).
Proof. done. Qed.

Lemma create_guarded name meta spec status merge now s : guarded name (rs_objects s) -> leaves (guarded name) (create_in k retained namespace meta spec status merge now s).
Proof.
  intros Hg. unfold create_in. rewrite bind_gets. case_bool_decide as Hex; [done|]. rewrite bind_gets. apply leaves_lift; [done|]. intros _ _.
  apply leaves_allocate; [done|]. intros version. apply leaves_lift; [done|]. intros spec' _. apply leaves_lift; [done|]. intros v Hv. unfold put. rewrite !bind_modify_then.
  apply leaves_then, leaves_push. cbn. apply guarded_other; [done|]. intros <-. destruct Hg as (w & Hw & _). by apply Hex.
Qed.
Lemma update_guarded name meta resource_version spec merge s : guarded name (rs_objects s) -> ~ (im_name meta = name /\ im_finalizers meta = []) ->
  leaves (guarded name) (update_in k retained meta resource_version spec merge s).
Proof.
  intros Hg Hc. unfold update_in. apply leaves_current; [done|]. intros v0 o Hv0 Hd. case_bool_decide; [done|]. apply leaves_lift; [done|]. intros _ _. apply leaves_lift; [done|]. intros _ _.
  rewrite bind_gets. apply leaves_lift; [done|]. intros _ _. destruct (_ && _); [done|]. apply leaves_allocate; [done|]. intros version. apply leaves_lift; [done|]. intros spec' _.
  apply leaves_lift; [done|]. intros v Hv. unfold put, take_out. destruct (decide (im_name meta = name)) as [Hname|Hname].
  - rewrite (bool_decide_false (im_finalizers meta = [])) by tauto. rewrite andb_false_r. rewrite bind_modify. apply leaves_then, leaves_push. cbn. rewrite Hname.
    eapply guarded_put; [exact Hv|]. cbn. tauto.
  - destruct (_ && _); rewrite bind_modify; apply leaves_then, leaves_push; cbn; by apply guarded_other.
Qed.
Lemma update_status_guarded name n resource_version status s : guarded name (rs_objects s) -> leaves (guarded name) (update_status_in k retained n resource_version status s).
Proof.
  intros Hg. unfold update_status_in. apply leaves_current; [done|]. intros v0 o Hv0 Hd. case_bool_decide; [done|]. apply leaves_lift; [done|]. intros _ _. destruct (matches_status _ _); [done|].
  apply leaves_allocate; [done|]. intros version. apply leaves_lift; [done|]. intros status' _. apply leaves_lift; [done|]. intros v Hv. unfold put. rewrite bind_modify_then.
  apply leaves_then, leaves_push. cbn. destruct (decide (n = name)) as [->|Hne]; [|by apply guarded_other]. eapply guarded_put; [exact Hv|]. cbn. by eapply guarded_finalizers.
Qed.
Lemma delete_guarded name n now s : guarded name (rs_objects s) -> leaves (guarded name) (delete_in k retained n now s).
Proof.
  intros Hg. unfold delete_in. apply leaves_current; [done|]. intros v0 o Hv0 Hd. unfold is_pending_finalization. destruct (bool_decide (om_finalizers (ro_metadata o) <> [])) eqn:Hf; cbn [andb].
  - destruct (om_deletion_timestamp (ro_metadata o)) as [t|] eqn:Ht; cbn; [done|]. apply leaves_allocate; [done|]. intros version. cbn [set_version om_finalizers om_deletion_timestamp]. rewrite Hf, Ht. cbn [andb].
    apply bool_decide_eq_true in Hf. rewrite bool_decide_true by done. apply leaves_lift; [done|]. intros v Hv. unfold put. rewrite bind_modify_then. apply leaves_push. cbn.
    destruct (decide (n = name)) as [->|Hne]; [|by apply guarded_other]. eapply guarded_put; [exact Hv|done].
  - apply leaves_allocate; [done|]. intros version. cbn [set_version om_finalizers]. rewrite Hf. cbn [andb]. apply leaves_lift; [done|]. intros v Hv. unfold take_out. rewrite bind_modify_then.
    apply leaves_push. cbn. apply bool_decide_eq_false in Hf. destruct (decide (n = name)) as [->|Hne]; [|by apply guarded_other]. destruct Hf. by eapply guarded_finalizers.
Qed.
Lemma tombstone_guarded name n minimum s : guarded name (rs_objects s) -> leaves (guarded name) (tombstone_in k retained namespace n minimum s).
Proof.
  intros Hg. unfold tombstone_in. rewrite bind_gets. case_bool_decide; [done|]. rewrite bind_gets. destruct (rs_tombstones s !! n); [done|]. rewrite bind_modify_then.
  apply leaves_allocate; [by destruct minimum|]. intros version. unfold mbind at 1, eff_bind at 1.
  pose proof (leaves_push (guarded name) (mkEvent version EvDeleted (encode_tombstone k (mkTombstone n namespace (version_text version) ∅))) retained) as Hp.
  match goal with |- context [push_event ?e ?r ?s0] => specialize (Hp s0); destruct (push_event e r s0) as [[[]|e'|] s'] end; apply Hp; by destruct minimum.
Qed.
Lemma perform_guarded name op s : guarded name (rs_objects s) -> ~ clears name op -> guarded name (rs_objects (perform k retained namespace op s).2).
Proof.
  intros Hg Hc. change (leaves (guarded name) (perform k retained namespace op s)). destruct op; cbn [perform clears] in *.
  - apply leaves_lift; [done|]. intros _ _. apply leaves_lift; [done|]. intros status _. by apply leaves_then, create_guarded.
  - by apply leaves_then, update_guarded.
  - by apply leaves_then, update_status_guarded.
  - by apply (leaves_then _ _ (fun _ => RDeleted)), delete_guarded.
  - apply leaves_lift; [done|]. intros m _. by apply (leaves_then _ _ (fun p => RTombstone p.1 p.2)), tombstone_guarded.
Qed.

(** C29: Finalizers hold an object: whatever is performed, deletes included, an
    object that has finalizers stays until an update of it clears them. *)
Theorem finalizers_hold name s ops : guarded name (rs_objects s) -> Forall (fun op => ~ clears name op) ops -> guarded name (rs_objects (run ops s)).
Proof. intros Hg Hops. revert s Hg. induction Hops as [|op ops Hop _ IH]; intros s Hg; [done|]. apply IH. by apply perform_guarded. Qed.
End clients.
