(* ===== verification/MemReplica.v ===== *)
(** The replicas the memory resource store holds of other roots' partitions
    ([crates/flotilla-store-memory/src/in_memory.rs],
    [crates/flotilla-store/src/replica.rs]): snapshots, relayed events,
    cursors and digest confirmation, where no durable replica store is composed. *)

From Stdlib Require Import Ascii.
From S2P Require Import Text Encoding Address Names.
From S2P Require Import Prelude Ordered Schema Effects Kinds Inverted MessageIndex QueryIndex Digest MemStore.
#[local] Open Scope Z_scope.

(** [serde_json::to_string] of a tree: it does not fail, and trees with the same
    text are the same. *)
Class JsonText `{Json} := {
  json_text : JValue -> result string string;
  json_text_Ok v : exists t, json_text v = Ok t;
  json_text_inj v w t : json_text v = Ok t -> json_text w = Ok t -> v = w;
}.

Section replicas.
Context {JS : Json} {CR : Carried} {SD : Serde} {MS : MessageSerde} {IX : IndexedSpecs} {SH : Sha256} {BC : Broadcast} {DF : Declared} {JT : JsonText}.
Context {D : Type}.
Implicit Types (k : ResourceKind D).

(** * State *)

Definition StoreKey : Type := string * string * string * string.
Definition ReplicaKey : Type := NodeId * StoreKey.
Definition store_key k (namespace : string) : StoreKey := (ap_group (rk_paths k), ap_version (rk_paths k), ap_plural (rk_paths k), namespace).

(** [StoredReplicaEventKind] has the constructors of [StoredEventKind]. *)
Record StoredReplicaEvent : Type := mkReplicaEvent { re_origin_root : NodeId; re_synced_at : Timestamp; re_kind : StoredEventKind; re_object : JValue }.
Record ResourceReplicaQuarantine : Type := mkQuarantine {
  rq_origin_root : NodeId;
  rq_kind : string;
  rq_namespace : string;
  rq_name : string;
  rq_error : string;
  rq_quarantined_at : Timestamp;
}.
Record ReplicaPartition : Type := mkReplica {
  pt_queries : QueryIndex;
  pt_messages : MessageIndex;
  pt_objects : gmap string JValue;
  pt_digest : DigestIndex;
  pt_synced_at_by_name : gmap string Timestamp;
  pt_cursor : option ReplicaCursor;
}.
Definition partition_default : ReplicaPartition := mkReplica no_index no_messages ∅ no_digest ∅ None.
Record ReplicaState : Type := mkReplicas {
  rst_partitions : gmap ReplicaKey ReplicaPartition;
  rst_watchers : gmap StoreKey (Chan StoredReplicaEvent);
  rst_quarantines : gmap (ReplicaKey * string) (JValue * ResourceReplicaQuarantine);
}.
Definition replicas_default : ReplicaState := mkReplicas ∅ ∅ ∅.
Definition RE (A : Type) : Type := Eff ResourceError ReplicaState A.

Definition set_partition (key : ReplicaKey) (p : ReplicaPartition) (st : ReplicaState) : ReplicaState :=
  mkReplicas (<[key := p]> (rst_partitions st)) (rst_watchers st) (rst_quarantines st).
Definition set_quarantines (q : gmap (ReplicaKey * string) (JValue * ResourceReplicaQuarantine)) (st : ReplicaState) : ReplicaState :=
  mkReplicas (rst_partitions st) (rst_watchers st) q.
Definition set_cursor (cursor : option ReplicaCursor) (p : ReplicaPartition) : ReplicaPartition :=
  mkReplica (pt_queries p) (pt_messages p) (pt_objects p) (pt_digest p) (pt_synced_at_by_name p) cursor.
Definition partition_of (st : ReplicaState) (key : ReplicaKey) : ReplicaPartition := default partition_default (rst_partitions st !! key).

(** * Versions *)

Definition replica_version (body : JValue) : option Z := value_version body ≫= fun t => parse_u64 (tx t).
Definition replica_version_is_newer (held : option Z) (arriving : JValue) : bool :=
  match held, replica_version arriving with Some held, Some arriving => bool_decide (held > arriving) | _, _ => false end.
Definition replica_body_is_newer (held arriving : JValue) : bool := replica_version_is_newer (replica_version held) arriving.

(** * Relayed events *)

Definition notify_replica_watchers (key : StoreKey) (event : StoredReplicaEvent) (st : ReplicaState) : ReplicaState :=
  mkReplicas (rst_partitions st) (alter (chan_send event) key (rst_watchers st)) (rst_quarantines st).
Definition forget_quarantine (key : ReplicaKey) (name : string) (st : ReplicaState) : ReplicaState := set_quarantines (delete (key, name) (rst_quarantines st)) st.

(** [validate_replica_record]: a body the kind refuses is set aside, and the
    time it first was is kept while the body stays the same. *)
Definition quarantine_of (key : ReplicaKey) (name error : string) (at_ : Timestamp) : ResourceReplicaQuarantine :=
  mkQuarantine key.1 key.2.1.2 key.2.2 name error at_.
Definition validate_replica_record k (key : ReplicaKey) (name : string) (encoded : JValue) (now : Timestamp) : RE bool := fun st =>
  match validate_stored_object k encoded with
  | Ok _ => (Done true, st)
  | Err error =>
      let previous := rst_quarantines st !! (key, name) in
      if from_option (fun q => bool_decide (q.1 = encoded) && bool_decide (rq_error q.2 = error_text error)) false previous then (Done false, st)
      else
        let quarantined_at := default now (q ← previous; if bool_decide (q.1 = encoded) then Some (rq_quarantined_at q.2) else None) in
        (Done false, set_quarantines (<[(key, name) := (encoded, quarantine_of key name (error_text error) quarantined_at)]> (rst_quarantines st)) st)
  end.

(** Whether what is held outranks an arriving body, or a deletion. *)
Definition outranks_body (held : option JValue) (stamp : option Timestamp) (encoded : JValue) (synced_at : Timestamp) : result ResourceError bool :=
  match stamp with
  | None => Ok false
  | Some existing =>
      if bool_decide (existing > synced_at) then Ok true
      else if bool_decide (existing = synced_at) then
        match held with
        | Some value =>
            a ← map_err (fun e => decode_error ("encode existing replica: " +:+ e)%string) (json_text value);
            b ← map_err (fun e => decode_error ("encode incoming replica: " +:+ e)%string) (json_text encoded);
            Ok (bool_decide (String.le b a))
        | None => Ok true
        end
      else Ok false
  end.
Definition outranks_deletion (held : option JValue) (stamp : option Timestamp) (synced_at : Timestamp) : bool :=
  match stamp with
  | None => false
  | Some existing => bool_decide (existing > synced_at) || (bool_decide (existing = synced_at) && bool_decide (held = None))
  end.
(** A name's body or its deletion, in the objects, the indexes and the stamps. *)
Definition settle (name : string) (body : option (JValue * string)) (synced_at : Timestamp) (p : ReplicaPartition) : ReplicaPartition :=
  mkReplica (query_update declared name (fst <$> body) (pt_queries p)) (message_update name (fst <$> body) (pt_messages p))
    (put_object name (fst <$> body) (pt_objects p)) (digest_set name (snd <$> body) (pt_digest p)) (<[name := synced_at]> (pt_synced_at_by_name p)) (pt_cursor p).
(** [partitions.entry(key).or_default()]. *)
Definition partition_entry (key : ReplicaKey) : RE ReplicaPartition := fun st => (Done (partition_of st key), set_partition key (partition_of st key) st).

(** [apply_replica_raw]. *)
Definition apply_replica k (origin : NodeId) (namespace : string) (kind : StoredEventKind) (object : ResourceObject) (synced_at now : Timestamp) : RE unit :=
  let key : ReplicaKey := (origin, store_key k namespace) in
  let name := om_name (ro_metadata object) in
  encoded ← lift (encode_object k object);
  accepted ← (if kept kind then validate_replica_record k key name encoded now else mret true);
  if negb accepted then mret tt
  else
    p ← partition_entry key;
    let held := pt_objects p !! name in
    let stamp := pt_synced_at_by_name p !! name in
    unchanged ← lift (if from_option (fun h => replica_body_is_newer h encoded) false held then Ok true
                      else if kept kind then outranks_body held stamp encoded synced_at else Ok (outranks_deletion held stamp synced_at));
    if unchanged : bool then mret tt
    else
      modify (set_partition key (settle name (if kept kind then Some (encoded, om_resource_version (ro_metadata object)) else None) synced_at p)) ;;
      modify (forget_quarantine key name) ;;
      modify (notify_replica_watchers (store_key k namespace) (mkReplicaEvent origin synced_at kind encoded)).
(** [apply_replica_tombstone_raw]. *)
Definition apply_replica_tombstone k (origin : NodeId) (namespace : string) (t : ResourceTombstone) (synced_at : Timestamp) : RE unit :=
  let key : ReplicaKey := (origin, store_key k namespace) in
  let name := rt_name t in
  let encoded := encode_tombstone k t in
  p ← partition_entry key;
  let held := pt_objects p !! name in
  if from_option (fun h => replica_body_is_newer h encoded) false held || outranks_deletion held (pt_synced_at_by_name p !! name) synced_at then mret tt
  else
    modify (set_partition key (settle name None synced_at p)) ;;
    modify (forget_quarantine key name) ;;
    modify (notify_replica_watchers (store_key k namespace) (mkReplicaEvent origin synced_at EvDeleted encoded)).

Inductive WatchEvent : Type := WAdded (o : ResourceObject) | WModified (o : ResourceObject) | WDeleted (o : ResourceObject) | WDeletedByName (t : ResourceTombstone).
(** [apply_replica_batch_raw]; each event is read at its own time. *)
Definition apply_replica_event k (origin : NodeId) (namespace : string) (now : Timestamp) (e : WatchEvent * Timestamp) : RE unit :=
  match e.1 with
  | WAdded o => apply_replica k origin namespace EvAdded o e.2 now
  | WModified o => apply_replica k origin namespace EvModified o e.2 now
  | WDeleted o => apply_replica k origin namespace EvDeleted o e.2 now
  | WDeletedByName t => apply_replica_tombstone k origin namespace t e.2
  end.
Definition apply_replica_batch k (origin : NodeId) (namespace : string) (now : Timestamp) (events : list (WatchEvent * Timestamp)) : RE unit :=
  for_each (apply_replica_event k origin namespace now) events.

(** * Snapshots *)

(** What a replacement works on: the new objects, what is left of the old ones,
    the indexes, stamps and quarantines, and the events to send. *)
Record Pass : Type := mkPass {
  ps_objects : gmap string JValue;
  ps_old : gmap string JValue;
  ps_queries : QueryIndex;
  ps_messages : MessageIndex;
  ps_digest : DigestIndex;
  ps_synced : gmap string Timestamp;
  ps_quarantines : gmap (ReplicaKey * string) (JValue * ResourceReplicaQuarantine);
  ps_events : list StoredReplicaEvent;
}.
(** The bucket's objects are taken out of the others. *)
Definition take_bucket (names : list string) (objects : gmap string JValue) : gmap string JValue * gmap string JValue :=
  foldl (fun '(unaffected, old) name =>
    match unaffected !! name with Some value => (delete name unaffected, <[name := value]> old) | None => (unaffected, old) end) (objects, ∅) names.
Definition start_pass (bucket : option nat) (p : ReplicaPartition) (q : gmap (ReplicaKey * string) (JValue * ResourceReplicaQuarantine)) : Pass :=
  let '(objects, old) := match bucket with Some b => take_bucket (digest_names (pt_digest p) b) (pt_objects p) | None => (∅, pt_objects p) end in
  mkPass objects old (pt_queries p) (pt_messages p) (pt_digest p) (pt_synced_at_by_name p) q [].
Definition accept_item (key : ReplicaKey) (bucket : option nat) (synced_at : Timestamp) (ps : Pass) (item : ResourceObject * JValue) : Pass :=
  let m := ro_metadata item.1 in
  let name := om_name m in
  let encoded := item.2 in
  let held := ps_old ps !! name in
  if bool_decide (is_Some bucket) && from_option (fun h => replica_body_is_newer h encoded) false held then
    mkPass (from_option (fun h => <[name := h]> (ps_objects ps)) (ps_objects ps) held) (delete name (ps_old ps)) (ps_queries ps) (ps_messages ps) (ps_digest ps)
      (ps_synced ps) (ps_quarantines ps) (ps_events ps)
  else
    let unchanged := bool_decide (held = Some encoded) in
    mkPass (<[name := encoded]> (ps_objects ps)) (ps_old ps) (query_update declared name (Some encoded) (ps_queries ps)) (message_update name (Some encoded) (ps_messages ps))
      (digest_set name (Some (om_resource_version m)) (ps_digest ps))
      (if unchanged then ps_synced ps else <[name := synced_at]> (ps_synced ps))
      (delete (key, name) (ps_quarantines ps))
      (if unchanged then ps_events ps
       else ps_events ps ++ [mkReplicaEvent key.1 synced_at (if bool_decide (is_Some held) then EvModified else EvAdded) encoded]).
Definition keep_rejected (ps : Pass) (name : string) : Pass :=
  match ps_old ps !! name with
  | Some value => mkPass (<[name := value]> (ps_objects ps)) (delete name (ps_old ps)) (ps_queries ps) (ps_messages ps) (ps_digest ps) (ps_synced ps) (ps_quarantines ps) (ps_events ps)
  | None => ps
  end.
Definition drop_old (origin : NodeId) (synced_at : Timestamp) (ps : Pass) (row : string * JValue) : Pass :=
  if bool_decide (is_Some (ps_objects ps !! row.1)) then ps
  else mkPass (ps_objects ps) (ps_old ps) (query_update declared row.1 None (ps_queries ps)) (message_update row.1 None (ps_messages ps)) (digest_set row.1 None (ps_digest ps))
         (<[row.1 := synced_at]> (ps_synced ps)) (ps_quarantines ps) (ps_events ps ++ [mkReplicaEvent origin synced_at EvDeleted row.2]).
(** The items split as the kind accepts them. *)
Fixpoint validate_items k (key : ReplicaKey) (now : Timestamp) (items : list (ResourceObject * JValue)) : RE (list (ResourceObject * JValue) * list string) :=
  match items with
  | [] => mret ([], [])
  | item :: items =>
      let name := om_name (ro_metadata item.1) in
      accepted ← validate_replica_record k key name item.2 now;
      rest ← validate_items k key now items;
      mret (if accepted : bool then (item :: rest.1, rest.2) else (rest.1, name :: rest.2))
  end.
Definition stays_quarantined (key : ReplicaKey) (bucket : option nat) (names : gset string) (q : ReplicaKey * string) : bool :=
  bool_decide (q.1 <> key) || from_option (fun leaf => negb (bool_decide (digest_bucket q.2 = leaf))) false bucket || bool_decide (q.2 ∈ names).
Definition retain_quarantines (key : ReplicaKey) (bucket : option nat) (names : gset string) (st : ReplicaState) : ReplicaState :=
  set_quarantines (filter (fun q => stays_quarantined key bucket names q.1 = true) (rst_quarantines st)) st.
(** [replace_replicas_raw]: the whole partition, or one bucket of it. *)
Definition replace_pass (key : ReplicaKey) (bucket : option nat) (synced_at : Timestamp) (accepted : list (ResourceObject * JValue)) (rejected : list string)
  (p : ReplicaPartition) (q : gmap (ReplicaKey * string) (JValue * ResourceReplicaQuarantine)) : Pass :=
  let ps := foldl keep_rejected (foldl (accept_item key bucket synced_at) (start_pass bucket p q) accepted) rejected in
  foldl (drop_old key.1 synced_at) ps (map_iter (ps_old ps)).
Definition replace_replicas k (origin : NodeId) (namespace : string) (listed : ResourceList) (synced_at : Timestamp) (bucket : option nat) (now : Timestamp) : RE unit :=
  let key : ReplicaKey := (origin, store_key k namespace) in
  encoded ← lift (collect (encode_object k) (rl_items listed));
  modify (retain_quarantines key bucket (list_to_set ((fun o => om_name (ro_metadata o)) <$> rl_items listed))) ;;
  split ← validate_items k key now (zip (rl_items listed) encoded);
  p ← gets (fun st => partition_of st key);
  q ← gets rst_quarantines;
  let ps := replace_pass key bucket synced_at split.1 split.2 p q in
  let cursor := if bool_decide (is_Some bucket) then pt_cursor p else Some (mkCursor (rl_resource_version listed) (rl_generation listed)) in
  modify (set_quarantines (ps_quarantines ps)) ;;
  modify (set_partition key (mkReplica (ps_queries ps) (ps_messages ps) (ps_objects ps) (ps_digest ps) (ps_synced ps) cursor)) ;;
  modify (fun st => foldl (fun st event => notify_replica_watchers (store_key k namespace) event st) st (ps_events ps)).

(** * Cursors and digests *)

Definition invalidate_replica_cursor k (origin : NodeId) (namespace : string) : RE unit :=
  let key : ReplicaKey := (origin, store_key k namespace) in
  modify (fun st => mkReplicas (alter (set_cursor None) key (rst_partitions st)) (rst_watchers st) (rst_quarantines st)).
Definition advance_replica_cursor k (origin : NodeId) (namespace : string) (previous : ReplicaCursor) (next : string) : RE unit :=
  let key : ReplicaKey := (origin, store_key k namespace) in
  found ← gets (fun st => rst_partitions st !! key);
  p ← lift (ok_or found (Invalid "replica prefix missing"));
  if bool_decide (pt_cursor p <> Some previous) then fail (Invalid "replica prefix changed concurrently")
  else modify (set_partition key (set_cursor (Some (mkCursor next (rc_generation previous))) p)).
Definition replica_cursor k (origin : NodeId) (namespace : string) (st : ReplicaState) : option ReplicaCursor :=
  rst_partitions st !! ((origin, store_key k namespace) : ReplicaKey) ≫= pt_cursor.
Definition replica_digest k (origin : NodeId) (namespace : string) (generation : option string) (st : ReplicaState) : PartitionDigest :=
  partition_digest (rk_paths k) origin namespace generation EmptyString (di_hashes (pt_digest (partition_of st (origin, store_key k namespace)))).
(** [confirm_replica_digest_raw]. *)
Definition confirm_replica_digest k (origin : NodeId) (namespace : string) (proof : PartitionDigest) (previous : ReplicaCursor) : RE unit :=
  let key : ReplicaKey := (origin, store_key k namespace) in
  found ← gets (fun st => rst_partitions st !! key);
  p ← lift (ok_or found (Invalid "missing replica prefix"));
  let digest := partition_digest (rk_paths k) origin namespace (rc_generation previous) EmptyString (di_hashes (pt_digest p)) in
  if bool_decide (pd_root digest <> pd_root proof) || bool_decide (pt_cursor p <> Some previous) then fail (Invalid "replica set changed during digest repair")
  else modify (set_partition key (set_cursor (Some (mkCursor (pd_resource_version proof) (pd_generation proof))) p)).

(** * Reading replicas *)

Definition read_row {A} (decode : JValue -> result ResourceError A) (origin : NodeId) (p : ReplicaPartition) (row : string * JValue) : result ResourceError (A * ResourceProvenance) :=
  last_synced_at ← ok_or (pt_synced_at_by_name p !! row.1) (Other ("replica row '" +:+ row.1 +:+ "' has no sync timestamp")%string);
  object ← decode row.2;
  Ok (object, Replica origin last_synced_at).
(** The partitions of a collection, by origin. *)
Definition partitions_at (key : StoreKey) (st : ReplicaState) : list (NodeId * ReplicaPartition) :=
  omap (fun row => if bool_decide (row.1.2 = key) then Some (row.1.1, row.2) else None) (map_iter (rst_partitions st)).
(** [list_replica_rows] and [get_replica_rows]. *)
Definition list_replica_rows {A} k (namespace : string) (decode : JValue -> result ResourceError A) (st : ReplicaState) : result ResourceError (list (A * ResourceProvenance)) :=
  rows ← collect (fun q => collect (read_row decode q.1 q.2) (map_iter (pt_objects q.2))) (partitions_at (store_key k namespace) st);
  Ok (concat rows).
Definition get_replica_rows {A} k (namespace name : string) (decode : JValue -> result ResourceError A) (st : ReplicaState) : result ResourceError (list (A * ResourceProvenance)) :=
  rows ← collect (fun q => row ← read_row decode q.1.1 q.1.2 (name, q.2); Ok (q.1.1, row))
           (omap (fun q => value ← pt_objects q.2 !! name; Some (q.1, q.2, value)) (partitions_at (store_key k namespace) st));
  Ok (sort_by (fun a b => bool_decide (String.le a.1 b.1)) rows).*2.
(** [list_replica_deletions_raw]. *)
Record ReplicaDeletion : Type := mkDeletion { rd_origin_root : NodeId; rd_name : string; rd_last_synced_at : Timestamp }.
Definition deletion_le (a b : ReplicaDeletion) : bool :=
  if bool_decide (rd_origin_root a = rd_origin_root b) then bool_decide (String.le (rd_name a) (rd_name b)) else bool_decide (String.le (rd_origin_root a) (rd_origin_root b)).
Definition list_replica_deletions k (namespace : string) (st : ReplicaState) : list ReplicaDeletion :=
  sort_by deletion_le
    (flat_map (fun q => omap (fun row => if bool_decide (pt_objects q.2 !! row.1 = None) then Some (mkDeletion q.1 row.1 row.2) else None) (map_iter (pt_synced_at_by_name q.2)))
      (partitions_at (store_key k namespace) st)).

(** What a store is told of replicas of one kind. *)
Inductive ReplicaOp : Type :=
| RReplace (listed : ResourceList) (synced_at : Timestamp) (bucket : option nat)
| RBatch (events : list (WatchEvent * Timestamp))
| RInvalidate
| RAdvance (previous : ReplicaCursor) (next : string)
| RConfirm (proof : PartitionDigest) (previous : ReplicaCursor).
Definition perform_replica k (now : Timestamp) (op : NodeId * string * ReplicaOp) : RE unit :=
  let '(origin, namespace, op) := op in
  match op with
  | RReplace listed synced_at bucket => replace_replicas k origin namespace listed synced_at bucket now
  | RBatch events => apply_replica_batch k origin namespace now events
  | RInvalidate => invalidate_replica_cursor k origin namespace
  | RAdvance previous next => advance_replica_cursor k origin namespace previous next
  | RConfirm proof previous => confirm_replica_digest k origin namespace proof previous
  end.
Definition perform_replicas k (now : Timestamp) (ops : list (NodeId * string * ReplicaOp)) (st : ReplicaState) : ReplicaState :=
  foldl (fun st op => (perform_replica k now op st).2) st ops.
(** A list names an object once, and a bucket is a [u8]. *)
Definition admissible (op : NodeId * string * ReplicaOp) : Prop :=
  match op.2 with
  | RReplace listed _ bucket => NoDup ((fun o => om_name (ro_metadata o)) <$> rl_items listed) /\ from_option (fun b => b < DIGEST_FANOUT)%nat True bucket
  | _ => True
  end.
End replicas.
