(* ===== verification/MemConverge.v ===== *)
(** What holds of the replicas a memory store keeps: their indexes answer for
    their objects, relayed events converge in any order. *)

From Stdlib Require Import Ascii.
From S2P Require Import Text Encoding Address Names.
From S2P Require Import Prelude Ordered Schema Effects Kinds Inverted MessageIndex QueryIndex Digest MemStore MemInv MemReplica.
#[local] Open Scope Z_scope.

Section replicas.
Context {JS : Json} {CR : Carried} {SD : Serde} {MS : MessageSerde} {IX : IndexedSpecs} {SH : Sha256} {BC : Broadcast} {DF : Declared} {JT : JsonText}.
Context {D : Type} (k : ResourceKind D) (origin : NodeId) (namespace : string).
Implicit Types (p : ReplicaPartition) (st : ReplicaState).

(** * The invariant of a partition *)

Record partition_ok p : Prop := {
  po_queries : query_index_ok declared (pt_objects p) (pt_queries p);
  po_messages : message_index_ok (pt_objects p) (pt_messages p);
  po_digest : digest_ok (versions_of (pt_objects p)) (pt_digest p);
  po_versions : forall n v, pt_objects p !! n = Some v -> is_Some (value_version v);
  po_stamps : forall n, is_Some (pt_objects p !! n) -> is_Some (pt_synced_at_by_name p !! n);
}.
Lemma partition_default_ok : partition_ok partition_default.
Proof.
  split; cbn; [apply no_index_ok|apply no_messages_ok| |by intros n v Hv%lookup_empty_Some|by intros n [v Hv%lookup_empty_Some]].
  unfold versions_of. rewrite omap_empty. apply no_digest_ok.
Qed.
Lemma settle_ok p name body synced_at : partition_ok p -> (forall v rv, body = Some (v, rv) -> value_version v = Some rv) -> partition_ok (settle name body synced_at p).
Proof.
  intros [Hq Hm Hd Hv Hs] Hb. split; cbn [settle pt_objects pt_queries pt_messages pt_digest pt_synced_at_by_name].
  - by apply query_update_ok.
  - by apply message_update_ok.
  - rewrite versions_of_put. pose proof (digest_set_ok _ _ name (snd <$> body) Hd) as H'. destruct body as [[v rv]|]; cbn [fmap option_fmap option_map fst snd mbind option_bind] in *; [|done].
    by rewrite (Hb v rv).
  - intros n v. destruct body as [[w rv]|]; cbn.
    + intros [[<- <-]|[_ Hn]]%lookup_insert_Some; [by rewrite (Hb w rv)|by apply (Hv n)].
    + intros [_ Hn]%lookup_delete_Some. by apply (Hv n).
  - intros n Hn. destruct (decide (n = name)) as [->|Hne]; [rewrite lookup_insert_eq; by eexists|]. rewrite lookup_insert_ne by done. apply Hs.
    destruct body as [[w rv]|]; cbn in Hn; [by rewrite lookup_insert_ne in Hn|by rewrite lookup_delete_ne in Hn].
Qed.
Definition replicas_ok st : Prop := forall key p, rst_partitions st !! key = Some p -> partition_ok p.
Lemma partition_of_ok st key : replicas_ok st -> partition_ok (partition_of st key).
Proof. intros Hst. unfold partition_of. destruct (rst_partitions st !! key) as [p|] eqn:Hp; [by apply (Hst key)|apply partition_default_ok]. Qed.
Lemma set_partition_ok st key p : replicas_ok st -> partition_ok p -> replicas_ok (set_partition key p st).
Proof. intros Hst Hp key' p'. cbn. intros [[<- <-]|[_ H']]%lookup_insert_Some; [done|by apply (Hst key')]. Qed.

(** * Relayed events as candidates *)

Definition event_name (e : WatchEvent) : string :=
  match e with WAdded o | WModified o | WDeleted o => om_name (ro_metadata o) | WDeletedByName t => rt_name t end.
(** The body an event carries as the store writes it; a deletion has none. *)
Definition event_body (e : WatchEvent) : option JValue :=
  match e with WAdded o | WModified o => match encode_object k o with Ok v => Some v | Err _ => None end | WDeleted _ | WDeletedByName _ => None end.
Definition event_version (e : WatchEvent) : option Z :=
  parse_u64 (tx match e with WAdded o | WModified o | WDeleted o => om_resource_version (ro_metadata o) | WDeletedByName t => rt_resource_version t end).
(** Whether the kind takes the body; a deletion is always taken. *)
Definition accepted (e : WatchEvent) : bool := from_option (fun v => match validate_stored_object k v with Ok _ => true | Err _ => false end) true (event_body e).

(** What is known of a name: the stamp, and the body unless it is deleted. *)
Definition Known : Type := Timestamp * option JValue.
Definition known p (n : string) : option Known := t ← pt_synced_at_by_name p !! n; Some (t, pt_objects p !! n).
Definition body_text (v : JValue) : string := match json_text v with Ok t => t | Err _ => EmptyString end.
(** Later stamps win; at one stamp a deletion wins, then the greater text. *)
Definition known_le (a b : Known) : Prop :=
  a.1 < b.1 \/ (a.1 = b.1 /\ match a.2, b.2 with _, None => True | None, Some _ => False | Some v, Some w => String.le (body_text v) (body_text w) end).
#[export] Instance known_le_dec a b : Decision (known_le a b).
Proof. unfold known_le. destruct a as [t [v|]], b as [t' [w|]]; cbn; apply _. Defined.
Definition candidate (e : WatchEvent * Timestamp) : Known := (e.2, event_body e.1).
(** One event on what is known of its name. *)
Definition merge (x : option Known) (e : WatchEvent * Timestamp) : option Known :=
  match x with
  | None => Some (candidate e)
  | Some held =>
      if from_option (fun h => match replica_version h, event_version e.1 with Some a, Some b => bool_decide (a > b) | _, _ => false end) false held.2 then x
      else if decide (known_le (candidate e) held) then x else Some (candidate e)
  end.

Lemma body_text_inj v w : body_text v = body_text w -> v = w.
Proof.
  unfold body_text. destruct (json_text_Ok v) as [t Ht], (json_text_Ok w) as [u Hu]. rewrite Ht, Hu. intros ->. by eapply json_text_inj.
Qed.
Lemma known_le_refl a : known_le a a.
Proof. right. split; [done|]. by destruct a.2. Qed.
Lemma known_le_trans a b c : known_le a b -> known_le b c -> known_le a c.
Proof.
  destruct a as [t1 b1], b as [t2 b2], c as [t3 b3]. unfold known_le. cbn. intros [H1|[-> H1]] [H2|[-> H2]]; [left; lia|by left|by left|right]. split; [done|].
  destruct b1, b2, b3; try done. by etrans.
Qed.
Lemma known_le_total a b : known_le a b \/ known_le b a.
Proof.
  destruct a as [t1 b1], b as [t2 b2]. unfold known_le. cbn. destruct (Z.lt_trichotomy t1 t2) as [H|[->|H]]; [by left; left| |by right; left].
  destruct b1 as [v|], b2 as [w|]; [|by left; right|by right; right|by left; right]. destruct (total String.le (body_text v) (body_text w)); [by left; right|by right; right].
Qed.
Lemma known_le_antisymm a b : known_le a b -> known_le b a -> a = b.
Proof.
  destruct a as [t1 b1], b as [t2 b2]. unfold known_le. cbn. intros [H1|[-> H1]] [H2|[He H2]]; [lia|lia|lia|]. destruct b1 as [v|], b2 as [w|]; try done.
  do 2 f_equal. apply body_text_inj. by apply (anti_symm String.le).
Qed.

(** * One event *)

Abbreviation key := ((origin, store_key k namespace) : ReplicaKey).
Lemma validate_done (n : string) v now st : exists st', validate_replica_record k key n v now st = (Done (match validate_stored_object k v with Ok _ => true | Err _ => false end), st') /\
  rst_partitions st' = rst_partitions st.
Proof. unfold validate_replica_record. destruct (validate_stored_object k v); [by eexists|]. destruct (from_option _ _ _); by eexists. Qed.
Lemma known_settle p n name body synced_at : known (settle name body synced_at p) n = if decide (n = name) then Some (synced_at, fst <$> body) else known p n.
Proof.
  unfold known. cbn. destruct (decide (n = name)) as [->|Hne].
  - rewrite lookup_insert_eq. cbn. do 2 f_equal. destruct body as [[v rv]|]; cbn; [apply lookup_insert_eq|apply lookup_delete_eq].
  - rewrite lookup_insert_ne by done. destruct (pt_synced_at_by_name p !! n); cbn; [|done]. do 2 f_equal. destruct body as [[v rv]|]; cbn; [by rewrite lookup_insert_ne|by rewrite lookup_delete_ne].
Qed.
(** What an event leaves of a partition. *)
Definition settled_by (e : WatchEvent * Timestamp) p p' : Prop :=
  partition_ok p' /\ forall n, known p' n = if decide (n = event_name e.1) then (if accepted e.1 then merge (known p n) e else known p n) else known p n.
Lemma known_held p n h : partition_ok p -> pt_objects p !! n = Some h -> exists t, pt_synced_at_by_name p !! n = Some t /\ known p n = Some (t, Some h).
Proof. intros Hp Hh. destruct (po_stamps p Hp n) as [t Ht]; [by eexists|]. exists t. split; [done|]. unfold known. by rewrite Ht, Hh. Qed.
Lemma outranks_body_spec p n v t : partition_ok p -> outranks_body (pt_objects p !! n) (pt_synced_at_by_name p !! n) v t =
  Ok (match known p n with None => false | Some held => bool_decide (known_le (t, Some v) held) end).
Proof.
  intros Hp. unfold outranks_body, known, known_le. destruct (pt_synced_at_by_name p !! n) as [t0|]; cbn; [|done]. case_bool_decide as H1; [by rewrite bool_decide_true by (left; lia)|].
  case_bool_decide as H2.
  - destruct (pt_objects p !! n) as [h|]; [|by rewrite bool_decide_true by auto]. unfold body_text. destruct (json_text_Ok h) as [a ->], (json_text_Ok v) as [b ->]. cbn. f_equal. apply bool_decide_ext. split; [auto|]. intros [?|[_ ?]]; [lia|done].
  - by rewrite bool_decide_false by lia.
Qed.
Lemma outranks_deletion_spec p n t : outranks_deletion (pt_objects p !! n) (pt_synced_at_by_name p !! n) t =
  match known p n with None => false | Some held => bool_decide (known_le (t, None) held) end.
Proof.
  unfold outranks_deletion, known, known_le. destruct (pt_synced_at_by_name p !! n) as [t0|]; cbn; [|done]. rewrite <-bool_decide_and, <-bool_decide_or. apply bool_decide_ext.
  destruct (pt_objects p !! n) as [h|]; (split; [intros [?|[? ?]]; [left; lia|]|intros [?|[? ?]]; [left; lia|]]); try done; right; auto; by split.
Qed.
Definition event_version_text (e : WatchEvent) : string :=
  match e with WAdded o | WModified o | WDeleted o => om_resource_version (ro_metadata o) | WDeletedByName t => rt_resource_version t end.
Definition skips p (e : WatchEvent * Timestamp) (encoded : JValue) : bool :=
  if from_option (fun h => replica_body_is_newer h encoded) false (pt_objects p !! event_name e.1) then true
  else match known p (event_name e.1) with None => false | Some held => bool_decide (known_le (candidate e) held) end.
Lemma skips_spec p e encoded : partition_ok p -> value_version encoded = Some (event_version_text e.1) ->
  merge (known p (event_name e.1)) e = if skips p e encoded then known p (event_name e.1) else Some (candidate e).
Proof.
  intros Hp Hv. unfold skips, merge. assert (replica_version encoded = event_version e.1) as Hver by (unfold replica_version; rewrite Hv; by destruct e.1).
  set (n := event_name e.1) in *. destruct (pt_objects p !! n) as [h|] eqn:Hh; cbn [from_option].
  - destruct (known_held p n h Hp Hh) as (t & Ht & ->). cbn [snd from_option]. unfold replica_body_is_newer, replica_version_is_newer. rewrite Hver.
    destruct (match replica_version h with Some _ => _ | None => _ end); [done|]. rewrite bool_decide_decide. by case_decide.
  - unfold known. rewrite Hh. destruct (pt_synced_at_by_name p !! n) as [t|]; cbn; [|done]. rewrite bool_decide_decide. by case_decide.
Qed.
(** Skipping or settling an event. *)
Lemma skip_settles p e encoded : partition_ok p -> value_version encoded = Some (event_version_text e.1) -> accepted e.1 = true -> skips p e encoded = true -> settled_by e p p.
Proof. intros Hp Hv Ha Hs. split; [done|]. intros n. case_decide as Hn; [|done]. subst n. by rewrite Ha, (skips_spec p e encoded Hp Hv), Hs. Qed.
Lemma settle_settles p e encoded body : partition_ok p -> value_version encoded = Some (event_version_text e.1) -> accepted e.1 = true -> skips p e encoded = false ->
  fst <$> body = event_body e.1 -> (forall v rv, body = Some (v, rv) -> value_version v = Some rv) -> settled_by e p (settle (event_name e.1) body e.2 p).
Proof.
  intros Hp Hv Ha Hs Hb Hrv. split; [by apply settle_ok|]. intros n. rewrite known_settle. case_decide as Hn; [|done]. subst n.
  rewrite Ha, (skips_spec p e encoded Hp Hv), Hs. unfold candidate. by rewrite Hb.
Qed.
Lemma partition_of_set st p : partition_of (set_partition key p st) key = p.
Proof. unfold partition_of. cbn. by rewrite lookup_insert_eq. Qed.
Lemma rejected_settles e p : partition_ok p -> accepted e.1 = false -> settled_by e p p.
Proof. intros Hp Ha. split; [done|]. intros n. rewrite Ha. by case_decide. Qed.
Lemma same_partitions st st' : rst_partitions st' = rst_partitions st -> replicas_ok st -> replicas_ok st' /\ partition_of st' key = partition_of st key.
Proof. intros He Hst. unfold replicas_ok, partition_of. by rewrite He. Qed.

(** An event of an object. *)
Definition object_event (kind : StoredEventKind) (o : ResourceObject) : WatchEvent :=
  match kind with EvAdded => WAdded o | EvModified => WModified o | EvDeleted => WDeleted o end.
Lemma apply_replica_settles kind o synced_at now st : replicas_ok st -> exists st', apply_replica k origin namespace kind o synced_at now st = (Done tt, st') /\ replicas_ok st' /\
  settled_by (object_event kind o, synced_at) (partition_of st key) (partition_of st' key).
Proof.
  intros Hst. set (e := (object_event kind o, synced_at)). assert (event_name e.1 = om_name (ro_metadata o)) as Hname by by destruct kind. unfold apply_replica. cbv zeta.
  destruct (encode_object_Ok k o) as (v & Hv & _ & Hrv & _). unfold mbind at 1, eff_bind at 1, lift at 1. rewrite Hv. cbn [of_result].
  assert (value_version v = Some (event_version_text e.1)) as Hver by by destruct kind. assert (event_body e.1 = if kept kind then Some v else None) as Hbody by (by destruct kind; cbn; rewrite ?Hv).
  match goal with |- context [mbind _ ?m st] => assert (exists st1, m st = (Done (accepted e.1), st1) /\ rst_partitions st1 = rst_partitions st) as (st1 & Hval & Hst1) end.
  { unfold accepted. rewrite Hbody. destruct (kept kind); [apply validate_done|by eexists]. }
  unfold mbind at 1, eff_bind at 1. rewrite Hval. destruct (same_partitions st st1 Hst1 Hst) as [Hok1 Hp1]. rewrite <-Hp1. pose proof (partition_of_ok st1 key Hok1) as Hp. set (p := partition_of st1 key) in *.
  destruct (accepted e.1) eqn:Hacc; cbn [negb]; [|exists st1; split_and!; [done|done|by apply rejected_settles]].
  unfold mbind at 1, eff_bind at 1, partition_entry. fold p. rewrite <-Hname.
  assert ((if from_option (fun h => replica_body_is_newer h v) false (pt_objects p !! event_name e.1) then Ok true
           else if kept kind then outranks_body (pt_objects p !! event_name e.1) (pt_synced_at_by_name p !! event_name e.1) v synced_at
                else Ok (outranks_deletion (pt_objects p !! event_name e.1) (pt_synced_at_by_name p !! event_name e.1) synced_at)) = Ok (skips p e v) :> result ResourceError bool) as Hskip.
  { unfold skips, candidate. rewrite Hbody. destruct (from_option _ _ _); [done|]. destruct (kept kind); [by apply outranks_body_spec|by rewrite outranks_deletion_spec]. }
  unfold mbind at 1, eff_bind at 1, lift at 1. rewrite Hskip. cbn [of_result]. destruct (skips p e v) eqn:Hsk.
  - eexists. split_and!; [reflexivity|by apply set_partition_ok|]. rewrite partition_of_set. by eapply skip_settles.
  - set (body := if kept kind then Some (v, om_resource_version (ro_metadata o)) else None). assert (partition_ok (settle (event_name e.1) body synced_at p)) as Hset.
    { apply settle_ok; [done|]. unfold body. destruct (kept kind); [|done]. by intros ? ? [= <- <-]. }
    eexists. split_and!; [reflexivity| |].
    + intros key' p' Hk. cbn in Hk. by apply (set_partition_ok (set_partition key p st1) key _ (set_partition_ok st1 key p Hok1 Hp) Hset key' p').
    + unfold partition_of at 1. cbn. rewrite lookup_insert_eq. cbn. eapply (settle_settles p e v body); [done|done|done|done|by unfold body; destruct kind; cbn; rewrite ?Hv|].
      unfold body. destruct (kept kind); [|done]. by intros ? ? [= <- <-].
Qed.
Lemma apply_tombstone_settles t synced_at st : replicas_ok st -> exists st', apply_replica_tombstone k origin namespace t synced_at st = (Done tt, st') /\ replicas_ok st' /\
  settled_by (WDeletedByName t, synced_at) (partition_of st key) (partition_of st' key).
Proof.
  intros Hst. set (e := (WDeletedByName t, synced_at)). unfold apply_replica_tombstone. cbv zeta. unfold mbind at 1, eff_bind at 1, partition_entry.
  pose proof (partition_of_ok st key Hst) as Hp. set (p := partition_of st key) in *. assert (value_version (encode_tombstone k t) = Some (event_version_text e.1)) as Hver by apply json_tombstone_version.
  assert (from_option (fun h => replica_body_is_newer h (encode_tombstone k t)) false (pt_objects p !! rt_name t) || outranks_deletion (pt_objects p !! rt_name t) (pt_synced_at_by_name p !! rt_name t) synced_at =
          skips p e (encode_tombstone k t)) as Hskip.
  { unfold skips, candidate. cbn [e fst snd event_name event_body]. rewrite outranks_deletion_spec. by destruct (from_option _ _ _). }
  rewrite Hskip. destruct (skips p e (encode_tombstone k t)) eqn:Hsk.
  - eexists. split_and!; [reflexivity|by apply set_partition_ok|]. rewrite partition_of_set. by eapply skip_settles.
  - assert (partition_ok (settle (rt_name t) None synced_at p)) as Hset by by apply settle_ok. eexists. split_and!; [reflexivity| |].
    + intros key' p' Hk. cbn in Hk. by apply (set_partition_ok (set_partition key p st) key _ (set_partition_ok st key p Hst Hp) Hset key' p').
    + unfold partition_of at 1. cbn. rewrite lookup_insert_eq. cbn. by apply (settle_settles p e (encode_tombstone k t) None).
Qed.
Lemma apply_event_settles now e st : replicas_ok st -> exists st', apply_replica_event k origin namespace now e st = (Done tt, st') /\ replicas_ok st' /\
  settled_by e (partition_of st key) (partition_of st' key).
Proof.
  intros Hst. destruct e as [[o|o|o|t] at_]; unfold apply_replica_event; cbn [fst snd].
  - apply (apply_replica_settles EvAdded o at_ now st Hst).
  - apply (apply_replica_settles EvModified o at_ now st Hst).
  - apply (apply_replica_settles EvDeleted o at_ now st Hst).
  - apply (apply_tombstone_settles t at_ st Hst).
Qed.

(** * Convergence *)

(** The events that count for a name. *)
Definition relevant (n : string) (events : list (WatchEvent * Timestamp)) : list (WatchEvent * Timestamp) :=
  filter (fun e => event_name e.1 = n /\ accepted e.1 = true) events.
Lemma batch_known now events st : replicas_ok st -> exists st', apply_replica_batch k origin namespace now events st = (Done tt, st') /\ replicas_ok st' /\
  forall n, known (partition_of st' key) n = foldl merge (known (partition_of st key) n) (relevant n events).
Proof.
  revert st. induction events as [|e events IH]; intros st Hst; [by exists st|]. destruct (apply_event_settles now e st Hst) as (st1 & He & Hst1 & _ & Hk).
  destruct (IH st1 Hst1) as (st2 & Hb & Hst2 & Hk2). exists st2. unfold apply_replica_batch in *. cbn [for_each]. unfold mbind, eff_bind. rewrite He. split_and!; [done|done|].
  intros n. rewrite Hk2, Hk. unfold relevant. rewrite filter_cons. destruct (decide (n = event_name e.1)) as [->|Hne].
  - destruct (accepted e.1); [by rewrite decide_True|]. by rewrite decide_False by by intros [_ ?].
  - by rewrite decide_False by by intros [? _].
Qed.
(** Versions grow with the stamps the origin gives, name by name. *)
Definition stamped_in_order (events : list (WatchEvent * Timestamp)) : Prop :=
  forall a b va vb, a ∈ events -> b ∈ events -> event_name a.1 = event_name b.1 -> event_version a.1 = Some va -> event_version b.1 = Some vb -> va < vb -> a.2 < b.2.
Lemma body_version e h : event_body e = Some h -> replica_version h = event_version e.
Proof.
  destruct e as [o|o|o|t]; cbn; try done; (destruct (encode_object_Ok k o) as (v & -> & _ & Hrv & _); intros [= <-]; unfold replica_version; by rewrite Hrv).
Qed.
Lemma merge_max x e held : x = Some held -> (forall h, held.2 = Some h -> forall a b, replica_version h = Some a -> event_version e.1 = Some b -> a > b -> known_le (candidate e) held) ->
  exists m, merge x e = Some m /\ (m = held \/ m = candidate e) /\ known_le held m /\ known_le (candidate e) m.
Proof.
  intros -> Hver. unfold merge. destruct (from_option _ _ _) eqn:Hnew.
  - exists held. split_and!; [done|by left|apply known_le_refl|]. destruct (held.2) as [h|] eqn:Hh; [|done]. cbn in Hnew.
    destruct (replica_version h) as [a|] eqn:Ha; [|done]. destruct (event_version e.1) as [b|]; [|done]. apply bool_decide_eq_true in Hnew. by apply (Hver h eq_refl a b).
  - case_decide as Hle; [exists held; split_and!; [done|by left|apply known_le_refl|done]|]. exists (candidate e). split_and!; [done|by right| |apply known_le_refl].
    by destruct (known_le_total held (candidate e)).
Qed.
(** What is known after some events is the greatest of their candidates. *)
Lemma merge_greatest n events : stamped_in_order events -> Forall (fun e => event_name e.1 = n) events ->
  match foldl merge None events with
  | None => events = []
  | Some m => (exists e, e ∈ events /\ m = candidate e) /\ forall e, e ∈ events -> known_le (candidate e) m
  end.
Proof.
  induction events as [|e events IH] using rev_ind; intros Hord Hn; [done|]. apply Forall_app in Hn as [Hn He]. rewrite Forall_singleton in He.
  assert (stamped_in_order events) as Hord' by (intros a b va vb Ha Hb; apply Hord; set_solver). specialize (IH Hord' Hn). rewrite foldl_snoc.
  destruct (foldl merge None events) as [held|] eqn:Hf.
  - destruct IH as [(e0 & He0 & Hheld) Hmax]. destruct (merge_max (Some held) e held eq_refl) as (m & -> & Hm & H1 & H2).
    { intros h Hh a b Ha Hb Hgt. subst held. left. apply (Hord e e0 b a); [set_solver|set_solver| |done| |lia].
      - rewrite Forall_forall in Hn. specialize (Hn e0 He0). cbn in He, Hn. congruence.
      - by rewrite <-(body_version e0.1 h Hh). }
    split.
    + destruct Hm as [->| ->]; [exists e0; set_solver|exists e; set_solver].
    + intros e' [He'|He']%elem_of_app; [|apply list_elem_of_singleton in He' as ->; done]. eapply known_le_trans; [by apply Hmax|done].
  - subst events. cbn. split; [exists e; set_solver|]. intros e' He'. apply list_elem_of_singleton in He' as ->. apply known_le_refl.
Qed.
Lemma merge_perm n events events' : events ≡ₚ events' -> stamped_in_order events -> Forall (fun e => event_name e.1 = n) events -> foldl merge None events = foldl merge None events'.
Proof.
  intros Hp Hord Hn. assert (stamped_in_order events') as Hord' by (intros a b va vb Ha Hb; apply Hord; by rewrite Hp). assert (Forall (fun e => event_name e.1 = n) events') as Hn' by (rewrite Forall_forall in *; intros e He; apply Hn; by rewrite Hp).
  pose proof (merge_greatest n events Hord Hn) as H1. pose proof (merge_greatest n events' Hord' Hn') as H2.
  destruct (foldl merge None events) as [m|], (foldl merge None events') as [m'|]; [| | |done].
  - f_equal. destruct H1 as [(e & He & ->) H1], H2 as [(e' & He' & ->) H2]. apply known_le_antisymm; [apply H2; by rewrite <-Hp|apply H1; by rewrite Hp].
  - subst events'. apply Permutation_nil_r in Hp. subst. destruct H1 as [(e & He & _) _]. by apply not_elem_of_nil in He.
  - subst events. apply Permutation_nil_l in Hp. subst. destruct H2 as [(e & He & _) _]. by apply not_elem_of_nil in He.
Qed.
Lemma known_objects p p' : partition_ok p -> partition_ok p' -> (forall n, known p n = known p' n) ->
  pt_objects p = pt_objects p' /\ pt_synced_at_by_name p = pt_synced_at_by_name p' /\ pt_digest p = pt_digest p'.
Proof.
  intros Hp Hp' Hk. assert (forall n, pt_synced_at_by_name p !! n = pt_synced_at_by_name p' !! n /\ pt_objects p !! n = pt_objects p' !! n) as Heq.
  { intros n. specialize (Hk n). unfold known in Hk. pose proof (po_stamps p Hp n) as H1. pose proof (po_stamps p' Hp' n) as H2.
    destruct (pt_synced_at_by_name p !! n), (pt_synced_at_by_name p' !! n); cbn in Hk; try done; [by injection Hk as -> ->|]. split; [done|].
    destruct (pt_objects p !! n); [by destruct H1|]. by destruct (pt_objects p' !! n); [destruct H2|]. }
  assert (pt_objects p = pt_objects p') as Ho by (apply map_eq; intros n; apply Heq). split_and!; [done|apply map_eq; intros n; apply Heq|].
  destruct (po_digest p Hp) as [E1 H1], (po_digest p' Hp') as [E2 H2]. rewrite Ho in E1. destruct (pt_digest p), (pt_digest p'); cbn in *. congruence.
Qed.

(** C10: Replicas converge: two stores that start empty and take an origin's
    events, in any two orders and read at any times, hold the same bodies, stamps
    and digest of its partition, as long as the stamps grow with the origin's
    versions; no event fails, and bodies the kind refuses count in neither. *)
Theorem replicas_converge now now' events events' : events ≡ₚ events' -> stamped_in_order events ->
  exists st st', apply_replica_batch k origin namespace now events replicas_default = (Done tt, st) /\ apply_replica_batch k origin namespace now' events' replicas_default = (Done tt, st') /\
    let p := partition_of st key in
    let p' := partition_of st' key in
    pt_objects p = pt_objects p' /\ pt_synced_at_by_name p = pt_synced_at_by_name p' /\ pt_digest p = pt_digest p'.
Proof.
  intros Hp Hord. assert (replicas_ok replicas_default) as H0 by (intros key' p Hk; cbn in Hk; by rewrite lookup_empty in Hk).
  destruct (batch_known now events _ H0) as (st & Hb & Hok & Hk). destruct (batch_known now' events' _ H0) as (st' & Hb' & Hok' & Hk'). exists st, st'. split; [done|]. split; [done|].
  apply known_objects; [by apply partition_of_ok|by apply partition_of_ok|]. intros n. rewrite Hk, Hk'.
  assert (known (partition_of replicas_default key) n = None) as -> by done. apply (merge_perm n).
  - unfold relevant. by rewrite Hp.
  - intros a b va vb [_ Ha]%list_elem_of_filter [_ Hb0]%list_elem_of_filter. by apply Hord.
  - apply Forall_forall. by intros e [[He _] _]%list_elem_of_filter.
Qed.
End replicas.
