(* ===== verification/MemReplace.v ===== *)
(** Snapshots of a replica partition: what a replacement of the whole partition
    or of one bucket leaves, and that replica operations keep the invariant. *)

From Stdlib Require Import Ascii.
From S2P Require Import Text Encoding Address Names.
From S2P Require Import Prelude Ordered Schema Effects Kinds Inverted MessageIndex QueryIndex Digest MemStore MemInv MemReplica MemConverge.
#[local] Open Scope Z_scope.

Section replacement.
Context {JS : Json} {CR : Carried} {SD : Serde} {MS : MessageSerde} {IX : IndexedSpecs} {SH : Sha256} {BC : Broadcast} {DF : Declared} {JT : JsonText}.
Context {D : Type} (k : ResourceKind D).
Implicit Types (p : ReplicaPartition) (st : ReplicaState) (ps : Pass).

Definition item_name (item : ResourceObject * JValue) : string := om_name (ro_metadata item.1).
Definition bodies (items : list (ResourceObject * JValue)) : gmap string JValue := list_to_map ((fun item => (item_name item, item.2)) <$> items).
Definition item_ok (item : ResourceObject * JValue) : Prop := value_version item.2 = Some (om_resource_version (ro_metadata item.1)).

(** * Maps *)

Lemma take_bucket_fold names (u o : gmap string JValue) : NoDup names -> (forall n, n ∈ names -> o !! n = None) ->
  let r := foldl (fun '(unaffected, old) name => match unaffected !! name with Some value => (delete name unaffected, <[name := value]> old) | None => (unaffected, old) end) (u, o) names in
  forall n, r.1 !! n = (if bool_decide (n ∈ names) then None else u !! n) /\ r.2 !! n = if bool_decide (n ∈ names) then u !! n else o !! n.
Proof.
  revert u o. induction names as [|m names IH]; intros u o Hnd Ho r n; [cbn in r; subst r; by rewrite bool_decide_false by set_solver|].
  apply NoDup_cons in Hnd as [Hm Hnd]. subst r. cbn [foldl]. destruct (u !! m) as [v|] eqn:Hv.
  - destruct (IH (delete m u) (<[m := v]> o) Hnd) with (n := n) as [H1 H2]; [intros n' Hn'; rewrite lookup_insert_ne by set_solver; apply Ho; set_solver|]. rewrite H1, H2.
    destruct (decide (n = m)) as [->|Hne]; [rewrite !(bool_decide_false (m ∈ names)), !bool_decide_true by set_solver; by rewrite lookup_delete_eq, lookup_insert_eq|].
    rewrite lookup_delete_ne, lookup_insert_ne by done. destruct (decide (n ∈ names)); [by rewrite !bool_decide_true by set_solver|by rewrite !bool_decide_false by set_solver].
  - destruct (IH u o Hnd) with (n := n) as [H1 H2]; [set_solver|]. rewrite H1, H2.
    destruct (decide (n = m)) as [->|Hne]; [rewrite !(bool_decide_false (m ∈ names)), !bool_decide_true by set_solver; rewrite Hv; split; [done|apply Ho; set_solver]|].
    destruct (decide (n ∈ names)); [by rewrite !bool_decide_true by set_solver|by rewrite !bool_decide_false by set_solver].
Qed.
Lemma bodies_cons item items : bodies (item :: items) = <[item_name item := item.2]> (bodies items).
Proof. done. Qed.
Lemma bodies_None items n : bodies items !! n = None <-> n ∉ item_name <$> items.
Proof. unfold bodies. rewrite <-not_elem_of_list_to_map. by rewrite <-list_fmap_compose. Qed.

Lemma elem_of_map_iter_fst (m : gmap string JValue) n : n ∈ (map_iter m).*1 <-> is_Some (m !! n).
Proof.
  rewrite list_elem_of_fmap. split.
  - intros ([n' v] & -> & Hv%elem_of_map_iter). by eexists.
  - intros [v Hv]. exists (n, v). split; [done|]. by apply elem_of_map_iter.
Qed.

(** * The pass over the accepted items *)

(** A held body of the scope that is newer than the one a repair brings. *)
Definition kept_held (bucket : option nat) (old : gmap string JValue) (n : string) (encoded : JValue) : bool :=
  bool_decide (is_Some bucket) && from_option (fun h => replica_body_is_newer h encoded) false (old !! n).
Lemma accept_fold key bucket synced_at items ps : NoDup (item_name <$> items) ->
  let ps' := foldl (accept_item key bucket synced_at) ps items in
  forall n, (ps_objects ps' !! n, ps_old ps' !! n) =
    match bodies items !! n with
    | Some encoded => if kept_held bucket (ps_old ps) n encoded then (ps_old ps !! n, None) else (Some encoded, ps_old ps !! n)
    | None => (ps_objects ps !! n, ps_old ps !! n)
    end.
Proof.
  revert ps. induction items as [|item items IH]; intros ps Hnd ps' n; [done|]. rewrite fmap_cons in Hnd. apply NoDup_cons in Hnd as [Hni Hnd]. subst ps'. cbn [foldl].
  rewrite (IH (accept_item key bucket synced_at ps item) Hnd n). rewrite bodies_cons. assert (bodies items !! item_name item = None) as Hnone by by apply bodies_None.
  unfold accept_item. fold (item_name item). fold (kept_held bucket (ps_old ps) (item_name item) item.2). destruct (decide (n = item_name item)) as [->|Hne].
  - rewrite lookup_insert_eq, Hnone. destruct (kept_held bucket (ps_old ps) (item_name item) item.2) eqn:Hk; cbn.
    + rewrite lookup_delete_eq. unfold kept_held in Hk. apply andb_true_iff in Hk as [_ Hk]. destruct (ps_old ps !! item_name item); [|done]. cbn. by rewrite lookup_insert_eq.
    + by rewrite lookup_insert_eq.
  - rewrite lookup_insert_ne by done. destruct (kept_held bucket (ps_old ps) (item_name item) item.2) eqn:Hk; cbn; unfold kept_held; cbn.
    + rewrite lookup_delete_ne by done. destruct (bodies items !! n); [done|]. by destruct (ps_old ps !! item_name item); cbn; [rewrite lookup_insert_ne by done|].
    + destruct (bodies items !! n); [done|]. by rewrite lookup_insert_ne.
Qed.
Lemma keep_fold names ps : let ps' := foldl keep_rejected ps names in
  forall n, (ps_objects ps' !! n, ps_old ps' !! n) = if bool_decide (n ∈ names /\ is_Some (ps_old ps !! n)) then (ps_old ps !! n, None) else (ps_objects ps !! n, ps_old ps !! n).
Proof.
  revert ps. induction names as [|m names IH]; intros ps ps' n; subst ps'; cbn [foldl]; [by rewrite bool_decide_false by set_solver|].
  rewrite IH. unfold keep_rejected. destruct (ps_old ps !! m) as [v|] eqn:Hv; cbn.
  - destruct (decide (n = m)) as [->|Hne].
    + rewrite lookup_delete_eq, lookup_insert_eq, Hv. rewrite bool_decide_false by (by intros [_ [? ?]]). rewrite bool_decide_true; [done|]. split; [set_solver|by eexists].
    + rewrite lookup_delete_ne, lookup_insert_ne by done. assert (n ∈ m :: names <-> n ∈ names) as Heq by set_solver. by rewrite (bool_decide_ext _ _ (and_iff_compat_r _ Heq)).
  - destruct (decide (n = m)) as [->|Hne].
    + rewrite Hv. by rewrite !bool_decide_false by (by intros [_ [? ?]]).
    + assert (n ∈ m :: names <-> n ∈ names) as Heq by set_solver. by rewrite (bool_decide_ext _ _ (and_iff_compat_r _ Heq)).
Qed.
(** A name is not lost from what is new and what is old. *)
Definition held_in (n : string) ps : Prop := is_Some (ps_objects ps !! n) \/ is_Some (ps_old ps !! n).
Lemma accept_held key bucket synced_at items ps n : NoDup (item_name <$> items) -> held_in n ps -> held_in n (foldl (accept_item key bucket synced_at) ps items).
Proof.
  intros Hnd Hh. pose proof (accept_fold key bucket synced_at items ps Hnd n) as Heq. cbv zeta in Heq. unfold held_in. destruct (bodies items !! n) as [enc|].
  - destruct (kept_held bucket (ps_old ps) n enc) eqn:Hk; apply pair_eq in Heq as [-> ->]; [|by left; eexists]. left. unfold kept_held in Hk. apply andb_true_iff in Hk as [_ Hk]. by destruct (ps_old ps !! n); [eexists|].
  - by apply pair_eq in Heq as [-> ->].
Qed.
Lemma keep_held names ps n : held_in n ps -> held_in n (foldl keep_rejected ps names).
Proof. intros Hh. pose proof (keep_fold names ps n) as Heq. cbv zeta in Heq. unfold held_in. case_bool_decide as Hx; apply pair_eq in Heq as [-> ->]; [left; apply Hx|done]. Qed.

(** * The indexes through the pass *)

Record indexed ps (objects : gmap string JValue) : Prop := {
  ix_queries : query_index_ok declared objects (ps_queries ps);
  ix_messages : message_index_ok objects (ps_messages ps);
  ix_digest : digest_ok (versions_of objects) (ps_digest ps);
}.
Record pass_ok ps : Prop := {
  pk_indexed : indexed ps (ps_objects ps ∪ ps_old ps);
  pk_versions : forall n v, (ps_objects ps ∪ ps_old ps) !! n = Some v -> is_Some (value_version v);
  pk_stamps : forall n, is_Some ((ps_objects ps ∪ ps_old ps) !! n) -> is_Some (ps_synced ps !! n);
}.
(** Moving a held body changes nothing of the whole. *)
Lemma move_union (objects old : gmap string JValue) n v : old !! n = Some v -> objects !! n = None -> <[n := v]> objects ∪ delete n old = objects ∪ old.
Proof.
  intros Hv Hn. rewrite <-insert_union_l. apply map_eq. intros m. destruct (decide (m = n)) as [->|Hne].
  - rewrite lookup_insert_eq, lookup_union_r by done. done.
  - rewrite lookup_insert_ne by done. rewrite !lookup_union, lookup_delete_ne by done. done.
Qed.
Lemma accept_ok key bucket synced_at ps item : item_ok item -> (is_Some (ps_old ps !! item_name item) -> ps_objects ps !! item_name item = None) -> pass_ok ps ->
  pass_ok (accept_item key bucket synced_at ps item).
Proof.
  intros Hit Hdis [[Hq Hm Hd] Hv Hs]. unfold accept_item. fold (item_name item). fold (kept_held bucket (ps_old ps) (item_name item) item.2).
  destruct (kept_held bucket (ps_old ps) (item_name item) item.2) eqn:Hk.
  - unfold kept_held in Hk. apply andb_true_iff in Hk as [_ Hk]. destruct (ps_old ps !! item_name item) as [h|] eqn:Hh; [|done]. cbn [from_option].
    split; [split|..]; cbn; rewrite ?move_union by (try done; by apply Hdis); done.
  - assert (forall n, is_Some ((<[item_name item := item.2]> (ps_objects ps) ∪ ps_old ps) !! n) -> n <> item_name item -> is_Some ((ps_objects ps ∪ ps_old ps) !! n)) as Hother.
    { intros n Hn Hne. rewrite <-insert_union_l in Hn. by rewrite lookup_insert_ne in Hn. }
    split; [split|..]; cbn [ps_queries ps_messages ps_digest ps_objects ps_old ps_synced].
    + rewrite <-insert_union_l. by apply (query_update_ok declared _ _ (item_name item) (Some item.2)).
    + rewrite <-insert_union_l. by apply (message_update_ok _ _ (item_name item) (Some item.2)).
    + rewrite <-insert_union_l. pose proof (versions_of_put (item_name item) (Some item.2) (ps_objects ps ∪ ps_old ps)) as Hvp. cbn [put_object mbind option_bind] in Hvp.
      rewrite Hvp, Hit. by apply (digest_set_ok _ _ _ (Some _)).
    + intros n v Hn. destruct (decide (n = item_name item)) as [->|Hne]; [|].
      * rewrite <-insert_union_l, lookup_insert_eq in Hn. injection Hn as <-. rewrite Hit. by eexists.
      * rewrite <-insert_union_l, lookup_insert_ne in Hn by done. by apply (Hv n).
    + intros n Hn. destruct (decide (n = item_name item)) as [->|Hne]; case_bool_decide as Hu.
      * apply Hs. rewrite lookup_union, Hu. by destruct (ps_objects ps !! item_name item); eexists.
      * rewrite lookup_insert_eq. by eexists.
      * by apply Hs, Hother.
      * rewrite lookup_insert_ne by done. by apply Hs, Hother.
Qed.
Definition apart (names : list string) ps : Prop := forall n, n ∈ names -> is_Some (ps_old ps !! n) -> ps_objects ps !! n = None.
Lemma accept_apart key bucket synced_at ps item names : apart (item_name item :: names) ps -> item_name item ∉ names -> apart names (accept_item key bucket synced_at ps item).
Proof.
  intros Ha Hni n Hn. assert (n <> item_name item) as Hne by set_solver. specialize (Ha n ltac:(set_solver)). unfold accept_item. fold (item_name item).
  destruct (_ && _); cbn; [rewrite lookup_delete_ne by done; destruct (ps_old ps !! item_name item); cbn; [by rewrite lookup_insert_ne|done]|by rewrite lookup_insert_ne].
Qed.
Lemma accept_all_ok key bucket synced_at items names ps : Forall item_ok items -> NoDup ((item_name <$> items) ++ names) -> apart ((item_name <$> items) ++ names) ps -> pass_ok ps ->
  pass_ok (foldl (accept_item key bucket synced_at) ps items) /\ apart names (foldl (accept_item key bucket synced_at) ps items).
Proof.
  revert ps. induction items as [|item items IH]; intros ps Hit Hnd Ha Hp; [done|]. apply Forall_cons in Hit as [H1 Hit]. rewrite fmap_cons, <-app_comm_cons in Hnd, Ha. apply NoDup_cons in Hnd as [Hni Hnd].
  cbn [foldl]. apply IH; [done|done|by eapply accept_apart|]. apply accept_ok; [done|apply Ha; set_solver|done].
Qed.
Lemma keep_all_ok names ps : apart names ps -> pass_ok ps -> pass_ok (foldl keep_rejected ps names).
Proof.
  revert ps. induction names as [|n names IH]; intros ps Ha Hp; [done|]. cbn [foldl]. unfold keep_rejected at 2. destruct (ps_old ps !! n) as [v|] eqn:Hv; [|apply IH; [intros m Hm; apply Ha; set_solver|done]].
  destruct Hp as [[Hq Hm Hd] Hvs Hs]. apply IH.
  - intros m Hin. cbn. destruct (decide (m = n)) as [->|Hne]; [rewrite lookup_delete_eq; by intros [? ?]|]. rewrite lookup_delete_ne, lookup_insert_ne by done. apply Ha. set_solver.
  - assert (ps_objects ps !! n = None) as Hn by (apply Ha; [set_solver|by eexists]). split; [split|..]; cbn; by rewrite ?move_union.
Qed.

(** * What is left over goes *)

Lemma drop_same origin synced_at ps rows : let ps' := foldl (drop_old origin synced_at) ps rows in ps_objects ps' = ps_objects ps /\ ps_old ps' = ps_old ps.
Proof. revert ps. induction rows as [|row rows IH]; intros ps; cbn [foldl]; [done|]. destruct (IH (drop_old origin synced_at ps row)) as [-> ->]. unfold drop_old. by destruct (bool_decide _). Qed.
Lemma drop_indexed origin synced_at ps rows : NoDup rows.*1 -> indexed ps (ps_objects ps ∪ list_to_map rows) -> indexed (foldl (drop_old origin synced_at) ps rows) (ps_objects ps).
Proof.
  revert ps. induction rows as [|[n v] rows IH]; intros ps Hnd Hi; cbn [foldl]; [by rewrite list_to_map_nil, (right_id_L ∅ (∪)) in Hi|]. apply NoDup_cons in Hnd as [Hn Hnd]. cbn [list_to_map] in Hi.
  assert ((list_to_map rows : gmap string JValue) !! n = None) as Hnone by by apply not_elem_of_list_to_map.
  unfold drop_old at 2. cbn [fst snd]. case_bool_decide as Hin.
  - destruct Hin as [w Hw]. apply IH; [done|]. replace (ps_objects ps ∪ list_to_map rows) with (ps_objects ps ∪ <[n := v]> (list_to_map rows : gmap string JValue)); [done|].
    apply map_eq. intros m. rewrite !lookup_union. destruct (decide (m = n)) as [->|Hne]; [by rewrite Hw, lookup_insert_eq, Hnone|by rewrite lookup_insert_ne].
  - assert (delete n (ps_objects ps ∪ <[n := v]> (list_to_map rows : gmap string JValue)) = ps_objects ps ∪ list_to_map rows) as Hdel.
    { apply map_eq. intros m. destruct (decide (m = n)) as [->|Hne].
      - rewrite lookup_delete_eq, lookup_union, Hnone. destruct (ps_objects ps !! n) eqn:Hx; [|done]. destruct Hin. by eexists.
      - rewrite lookup_delete_ne by done. by rewrite !lookup_union, lookup_insert_ne. }
    match goal with |- indexed (foldl _ ?ps1 rows) _ => change (ps_objects ps) with (ps_objects ps1) at 1; apply (IH ps1) end; [done|]. destruct Hi as [Hq Hm Hd].
    split; cbn [ps_queries ps_messages ps_digest ps_objects]; rewrite <-Hdel.
    + by apply (query_update_ok declared _ _ n None).
    + by apply (message_update_ok _ _ n None).
    + unfold versions_of. rewrite omap_delete. by apply (digest_set_ok _ _ n None).
Qed.
Lemma drop_stamps origin synced_at ps rows n : let ps' := foldl (drop_old origin synced_at) ps rows in
  ps_synced ps' !! n = if bool_decide (n ∈ rows.*1 /\ ps_objects ps !! n = None) then Some synced_at else ps_synced ps !! n.
Proof.
  revert ps. induction rows as [|[m v] rows IH]; intros ps; cbn [foldl fmap list_fmap fst]; [by rewrite bool_decide_false by set_solver|].
  rewrite IH. unfold drop_old. cbn [fst snd]. destruct (bool_decide (is_Some (ps_objects ps !! m))) eqn:Hin; cbn [ps_objects ps_synced].
  - apply bool_decide_eq_true in Hin. assert ((n ∈ m :: rows.*1 /\ ps_objects ps !! n = None) <-> (n ∈ rows.*1 /\ ps_objects ps !! n = None)) as Heq.
    { split; [|set_solver]. intros [Hn Hx]. split; [|done]. apply elem_of_cons in Hn as [->|Hn]; [|done]. rewrite Hx in Hin. by destruct Hin. }
    by rewrite (bool_decide_ext _ _ Heq).
  - apply bool_decide_eq_false, eq_None_not_Some in Hin. destruct (decide (n = m)) as [->|Hne].
    + rewrite lookup_insert_eq, (bool_decide_true (m ∈ m :: rows.*1 /\ _)) by set_solver. by case_bool_decide.
    + rewrite lookup_insert_ne by done. assert (n ∈ m :: rows.*1 <-> n ∈ rows.*1) as Heq by set_solver. by rewrite (bool_decide_ext _ _ (and_iff_compat_r _ Heq)).
Qed.

(** * The whole pass *)

(** The names a replacement is about: all, or those of its bucket. *)
Definition in_scope (bucket : option nat) (n : string) : bool := from_option (fun b => bool_decide (digest_bucket n = b)) true bucket.
Lemma start_pass_spec bucket p q : partition_ok p -> from_option (fun b => b < DIGEST_FANOUT)%nat True bucket ->
  let ps := start_pass bucket p q in
  (forall n, ps_objects ps !! n = (if in_scope bucket n then None else pt_objects p !! n) /\ ps_old ps !! n = if in_scope bucket n then pt_objects p !! n else None) /\
  ps_synced ps = pt_synced_at_by_name p /\ pass_ok ps.
Proof.
  intros Hp Hb ps. assert (forall n, ps_objects ps !! n = (if in_scope bucket n then None else pt_objects p !! n) /\ ps_old ps !! n = if in_scope bucket n then pt_objects p !! n else None) as Hl.
  { intros n. unfold ps, start_pass, in_scope. destruct bucket as [b|]; cbn [from_option ps_objects ps_old] in *; [|by rewrite lookup_empty].
    pose proof (take_bucket_fold (digest_names (pt_digest p) b) (pt_objects p) ∅) as Ht. fold (take_bucket (digest_names (pt_digest p) b) (pt_objects p)) in Ht.
    destruct (take_bucket _ _) as [u o]. cbn [ps_objects ps_old]. destruct Ht with (n := n) as [H1 H2]; [apply NoDup_map_iter_fst|done|]. cbn in H1, H2. rewrite H1, H2.
    pose proof (digest_names_spec _ _ b n (po_digest p Hp) Hb) as Hn. unfold versions_of in Hn. rewrite lookup_omap in Hn.
    destruct (pt_objects p !! n) as [v|] eqn:Hv.
    - cbn in Hn. assert (n ∈ digest_names (pt_digest p) b <-> digest_bucket n = b) as Hn' by (rewrite Hn; split; [by intros [_ ?]|]; split; [by apply (po_versions p Hp n)|done]).
      by rewrite (bool_decide_ext _ _ Hn').
    - by destruct (bool_decide _), (bool_decide _). }
  assert (ps_objects ps ∪ ps_old ps = pt_objects p) as Hu.
  { apply map_eq. intros n. rewrite lookup_union. destruct (Hl n) as [-> ->]. destruct (in_scope bucket n); [by destruct (pt_objects p !! n)|by destruct (pt_objects p !! n)]. }
  assert (ps_queries ps = pt_queries p /\ ps_messages ps = pt_messages p /\ ps_digest ps = pt_digest p /\ ps_synced ps = pt_synced_at_by_name p) as (E1 & E2 & E3 & E4).
  { unfold ps, start_pass. by destruct (match bucket with Some _ => _ | None => _ end). }
  split_and!; [done|done|]. destruct Hp as [Hq Hm Hd Hv Hs]. split; [split|..]; rewrite Hu, ?E1, ?E2, ?E3, ?E4; done.
Qed.

(** What a name holds after. *)
Definition replaced (bucket : option nat) (accepted : list (ResourceObject * JValue)) (rejected : list string) (objects : gmap string JValue) (n : string) : option JValue :=
  match bodies accepted !! n with
  | Some encoded =>
      if in_scope bucket n && (bool_decide (is_Some bucket) && from_option (fun h => replica_body_is_newer h encoded) false (objects !! n)) then objects !! n else Some encoded
  | None => if in_scope bucket n && bool_decide (n ∉ rejected) then None else objects !! n
  end.
Lemma replace_pass_spec key bucket synced_at accepted rejected p q : partition_ok p -> from_option (fun b => b < DIGEST_FANOUT)%nat True bucket ->
  Forall item_ok accepted -> NoDup ((item_name <$> accepted) ++ rejected) ->
  let ps := replace_pass key bucket synced_at accepted rejected p q in
  (forall n, ps_objects ps !! n = replaced bucket accepted rejected (pt_objects p) n) /\
  (forall cursor, partition_ok (mkReplica (ps_queries ps) (ps_messages ps) (ps_objects ps) (ps_digest ps) (ps_synced ps) cursor)) /\
  (forall n, is_Some (pt_objects p !! n) -> ps_objects ps !! n = None -> ps_synced ps !! n = Some synced_at).
Proof.
  intros Hp Hb Hit Hnd. destruct (start_pass_spec bucket p q Hp Hb) as (Hl & Hsy & Hok). unfold replace_pass. cbv zeta. set (ps0 := start_pass bucket p q) in *.
  assert (apart ((item_name <$> accepted) ++ rejected) ps0) as Ha by (intros n _; destruct (Hl n) as [-> ->]; by destruct (in_scope bucket n); [|intros [? ?]]).
  destruct (accept_all_ok key bucket synced_at accepted rejected ps0 Hit Hnd Ha Hok) as [Hok1 Ha1]. pose proof Hnd as Hnd'. apply NoDup_app in Hnd' as (Hnda & Hdis & _).
  pose proof (accept_fold key bucket synced_at accepted ps0 Hnda) as H1. cbv zeta in H1. set (ps1 := foldl (accept_item key bucket synced_at) ps0 accepted) in *.
  pose proof (keep_all_ok rejected ps1 Ha1 Hok1) as Hok2. pose proof (keep_fold rejected ps1) as H2. cbv zeta in H2. set (ps2 := foldl keep_rejected ps1 rejected) in *.
  destruct (drop_same key.1 synced_at ps2 (map_iter (ps_old ps2))) as [Ho3 _].
  assert (list_to_map (map_iter (ps_old ps2)) = ps_old ps2) as Hmap.
  { apply map_eq. intros n. apply option_eq. intros v. rewrite <-elem_of_list_to_map by apply NoDup_map_iter_fst. apply elem_of_map_iter. }
  pose proof (drop_indexed key.1 synced_at ps2 (map_iter (ps_old ps2)) (NoDup_map_iter_fst _)) as Hix. rewrite Hmap in Hix. specialize (Hix (pk_indexed _ Hok2)).
  pose proof (drop_stamps key.1 synced_at ps2 (map_iter (ps_old ps2))) as Hst. cbv zeta in Hst. set (ps3 := foldl (drop_old key.1 synced_at) ps2 (map_iter (ps_old ps2))) in *.
  assert (forall n, ps_objects ps2 !! n = replaced bucket accepted rejected (pt_objects p) n) as Hobj.
  { intros n. destruct (Hl n) as [L1 L2]. pose proof (f_equal fst (H1 n)) as O1. pose proof (f_equal snd (H1 n)) as D1. pose proof (f_equal fst (H2 n)) as O2. cbn [fst snd] in O1, D1, O2.
    unfold kept_held in O1, D1. rewrite L1, L2 in O1. rewrite L2 in D1. rewrite O2. unfold replaced. clear H1 H2 O2. destruct (bodies accepted !! n) as [enc|] eqn:He.
    - assert (n ∉ rejected) as Hr. { apply Hdis. destruct (decide (n ∈ item_name <$> accepted)) as [|Hn]; [done|]. apply bodies_None in Hn. congruence. }
      rewrite (bool_decide_false (n ∈ rejected /\ _)) by tauto. cbn [fst]. rewrite O1. destruct (in_scope bucket n); cbn [andb from_option]; [|by rewrite andb_false_r]. by destruct (_ && _).
    - cbn [fst snd] in O1, D1. rewrite D1, O1. destruct (in_scope bucket n); cbn [andb]; [|by rewrite (bool_decide_false (n ∈ rejected /\ _)) by by intros [_ [? ?]]].
      destruct (decide (n ∈ rejected)) as [Hr|Hr]; [rewrite (bool_decide_false (n ∉ rejected)) by tauto|by rewrite (bool_decide_false (n ∈ rejected /\ _)), bool_decide_true by tauto].
      destruct (pt_objects p !! n); [by rewrite bool_decide_true by by split; [|eexists]|by rewrite bool_decide_false by by intros [_ [? ?]]]. }
  split_and!.
  - intros n. by rewrite Ho3.
  - intros cursor. destruct Hix as [Hq Hm Hd]. destruct Hok2 as [_ Hv2 Hs2]. split; cbn; rewrite ?Ho3; [done|done|done| |].
    + intros n v Hn. apply (Hv2 n). rewrite lookup_union, Hn. by destruct (ps_old ps2 !! n).
    + intros n [v Hn]. rewrite Hst, bool_decide_false by (intros [_ ?]; congruence). apply Hs2. rewrite lookup_union, Hn. destruct (ps_old ps2 !! n); by eexists.
  - intros n Hn Hgone. rewrite Ho3 in Hgone. rewrite Hst, bool_decide_true; [done|]. split; [|done].
    apply elem_of_map_iter_fst. assert (held_in n ps2) as [Hx|Hx]; [|rewrite Hgone in Hx; by destruct Hx|done]. apply keep_held, accept_held; [done|].
    unfold held_in. destruct (Hl n) as [-> ->]. destruct (in_scope bucket n); auto.
Qed.

(** * The operation *)

Definition takes (encoded : JValue) : bool := match validate_stored_object k encoded with Ok _ => true | Err _ => false end.
Lemma validate_items_spec key now items st : exists st', validate_items k key now items st =
  (Done (filter (fun item => takes item.2 = true) items, item_name <$> filter (fun item => takes item.2 = false) items), st') /\ rst_partitions st' = rst_partitions st.
Proof.
  revert st. induction items as [|item items IH]; intros st; cbn [validate_items]; [by exists st|]. fold (item_name item).
  assert (exists st1, validate_replica_record k key (item_name item) item.2 now st = (Done (takes item.2), st1) /\ rst_partitions st1 = rst_partitions st) as (st1 & Hv & H1).
  { unfold validate_replica_record, takes. destruct (validate_stored_object k item.2); [by eexists|]. destruct (from_option _ _ _); by eexists. }
  destruct (IH st1) as (st2 & Hi & H2). exists st2. unfold mbind at 1, eff_bind at 1. rewrite Hv. unfold mbind, eff_bind. rewrite Hi. split; [|congruence].
  rewrite !filter_cons. destruct (takes item.2); cbn [fst snd]; [by rewrite decide_True, decide_False by done|by rewrite decide_False, decide_True by done].
Qed.
Lemma zip_encoded items encoded : collect (encode_object k) items = Ok encoded ->
  item_name <$> zip items encoded = (fun o => om_name (ro_metadata o)) <$> items /\ Forall item_ok (zip items encoded) /\ forall o v, (o, v) ∈ zip items encoded <-> o ∈ items /\ encode_object k o = Ok v.
Proof.
  intros Hc%collect_Ok. induction Hc as [|o v items encoded Hv Hc IH]; cbn [zip zip_with]; [split_and!; [done|constructor|set_solver]|]. destruct IH as (H1 & H2 & H3). split_and!.
  - rewrite !fmap_cons, H1. done.
  - constructor; [|done]. destruct (encode_object_Ok k o) as (v' & Hv' & _ & Hr & _). unfold item_ok. cbn. congruence.
  - intros o' v'. rewrite !elem_of_cons, H3. split; [intros [[= -> ->]|[? ?]]; auto|]. intros [[->|Ho] Hv']; [left; congruence|auto].
Qed.
Lemma split_nodup items : NoDup (item_name <$> items) ->
  NoDup ((item_name <$> filter (fun item => takes item.2 = true) items) ++ (item_name <$> filter (fun item => takes item.2 = false) items)).
Proof.
  intros Hnd. rewrite <-fmap_app. assert (filter (fun item => takes item.2 = true) items ++ filter (fun item => takes item.2 = false) items ≡ₚ items) as Hp; [|by rewrite Hp].
  clear Hnd. induction items as [|item items IH]; [done|]. rewrite !filter_cons. destruct (takes item.2).
  - rewrite decide_True, decide_False by done. cbn. by constructor.
  - rewrite decide_False, decide_True by done. rewrite <-Permutation_middle. by constructor.
Qed.

(** The names a snapshot lists, and the others. *)
Lemma bodies_accepted items item : NoDup (item_name <$> items) -> item ∈ items -> takes item.2 = true -> bodies (filter (fun item => takes item.2 = true) items) !! item_name item = Some item.2.
Proof.
  intros Hnd Hin Ht. pose proof (split_nodup items Hnd) as Hs. apply NoDup_app in Hs as [Hs _]. unfold bodies. apply elem_of_list_to_map; [by rewrite <-list_fmap_compose|].
  apply list_elem_of_fmap. exists item. split; [done|]. by apply list_elem_of_filter.
Qed.
Lemma replaced_listed bucket items objects item : NoDup (item_name <$> items) -> item ∈ items ->
  replaced bucket (filter (fun item => takes item.2 = true) items) (item_name <$> filter (fun item => takes item.2 = false) items) objects (item_name item) =
  if negb (takes item.2) then objects !! item_name item
  else if in_scope bucket (item_name item) && (bool_decide (is_Some bucket) && from_option (fun h => replica_body_is_newer h item.2) false (objects !! item_name item)) then objects !! item_name item
       else Some item.2.
Proof.
  intros Hnd Hin. unfold replaced. destruct (takes item.2) eqn:Ht; cbn [negb]; [by rewrite (bodies_accepted items item Hnd Hin Ht)|].
  assert (item_name item ∈ item_name <$> filter (fun item => takes item.2 = false) items) as Hr by (apply list_elem_of_fmap; exists item; split; [done|]; by apply list_elem_of_filter).
  pose proof (split_nodup items Hnd) as Hs. apply NoDup_app in Hs as (_ & Hdis & _). assert (bodies (filter (fun item => takes item.2 = true) items) !! item_name item = None) as ->.
  { apply bodies_None. intros Ha. by apply (Hdis _ Ha). }
  rewrite bool_decide_false by (intros Hn; by apply Hn). by rewrite andb_false_r.
Qed.
Lemma replaced_unlisted bucket items objects n : n ∉ item_name <$> items ->
  replaced bucket (filter (fun item => takes item.2 = true) items) (item_name <$> filter (fun item => takes item.2 = false) items) objects n = if in_scope bucket n then None else objects !! n.
Proof.
  intros Hn. assert (forall b, n ∉ item_name <$> filter (fun item => takes item.2 = b) items) as Hf.
  { intros b [item [-> [_ Hi]%list_elem_of_filter]]%list_elem_of_fmap. apply Hn, list_elem_of_fmap. by exists item. }
  unfold replaced. rewrite (proj2 (bodies_None _ _) (Hf true)), bool_decide_true by apply Hf. by rewrite andb_true_r.
Qed.
Lemma encode_all items : exists encoded, collect (encode_object k) items = Ok encoded.
Proof.
  induction items as [|o items [encoded IH]]; [by eexists|]. destruct (encode_object_Ok k o) as (v & Hv & _). exists (v :: encoded). cbn. by rewrite Hv, IH.
Qed.
Lemma Forall_filter_sub {A} (P Q : A -> Prop) `{forall x, Decision (Q x)} l : Forall P l -> Forall P (filter Q l).
Proof. rewrite !Forall_forall. intros Hl x [_ Hx]%list_elem_of_filter. by apply Hl. Qed.
Lemma notified_partitions key events st : rst_partitions (foldl (fun st event => notify_replica_watchers key event st) st events) = rst_partitions st.
Proof. revert st. induction events as [|e events IH]; intros st; [done|]. cbn [foldl]. by rewrite IH. Qed.

(** What a snapshot makes of a partition. *)
Definition snapshot_of (listed : ResourceList) (synced_at : Timestamp) (bucket : option nat) p p' : Prop :=
  (forall o v, o ∈ rl_items listed -> encode_object k o = Ok v ->
     let n := om_name (ro_metadata o) in
     pt_objects p' !! n =
       if negb (takes v) then pt_objects p !! n
       else if in_scope bucket n && (bool_decide (is_Some bucket) && from_option (fun h => replica_body_is_newer h v) false (pt_objects p !! n)) then pt_objects p !! n else Some v) /\
  (forall n, n ∉ ((fun o => om_name (ro_metadata o)) <$> rl_items listed) -> pt_objects p' !! n = if in_scope bucket n then None else pt_objects p !! n) /\
  (forall n, is_Some (pt_objects p !! n) -> pt_objects p' !! n = None -> pt_synced_at_by_name p' !! n = Some synced_at) /\
  pt_cursor p' = (if bool_decide (is_Some bucket) then pt_cursor p else Some (mkCursor (rl_resource_version listed) (rl_generation listed))).
Lemma replace_replicas_spec origin namespace listed synced_at bucket now st : replicas_ok st -> from_option (fun b => b < DIGEST_FANOUT)%nat True bucket ->
  NoDup ((fun o => om_name (ro_metadata o)) <$> rl_items listed) ->
  exists st', replace_replicas k origin namespace listed synced_at bucket now st = (Done tt, st') /\ replicas_ok st' /\
    snapshot_of listed synced_at bucket (partition_of st (origin, store_key k namespace)) (partition_of st' (origin, store_key k namespace)).
Proof.
  intros Hst Hb Hnd. set (key := (origin, store_key k namespace) : ReplicaKey). destruct (encode_all (rl_items listed)) as [encoded Henc]. destruct (zip_encoded _ _ Henc) as (Hnames & Hitems & Hin).
  unfold snapshot_of. rewrite <-Hnames in Hnd |- *. set (items := zip (rl_items listed) encoded) in *. unfold replace_replicas. cbv zeta. fold key. unfold mbind at 1, eff_bind at 1, lift at 1. rewrite Henc. cbn [of_result].
  unfold mbind at 1, eff_bind at 1, modify at 1. match goal with |- context [retain_quarantines key bucket ?ns st] => set (st1 := retain_quarantines key bucket ns st) end.
  destruct (validate_items_spec key now items st1) as (st2 & Hval & H2). unfold mbind at 1, eff_bind at 1. fold items. rewrite Hval. cbn [fst snd].
  set (accepted := filter (fun item => takes item.2 = true) items). set (rejected := item_name <$> filter (fun item => takes item.2 = false) items).
  assert (partition_of st2 key = partition_of st key) as Hp2 by (unfold partition_of; by rewrite H2). assert (partition_ok (partition_of st key)) as Hp by by apply partition_of_ok. set (p := partition_of st key) in *.
  destruct (replace_pass_spec key bucket synced_at accepted rejected p (rst_quarantines st2) Hp Hb) as (Hobj & Hok & Hgone); [by apply Forall_filter_sub|by apply split_nodup|].
  unfold mbind, eff_bind, gets, modify. rewrite Hp2. set (ps := replace_pass key bucket synced_at accepted rejected p (rst_quarantines st2)) in *. eexists. split; [reflexivity|].
  set (p' := mkReplica (ps_queries ps) (ps_messages ps) (ps_objects ps) (ps_digest ps) (ps_synced ps) _).
  match goal with |- replicas_ok ?st' /\ _ => assert (rst_partitions st' = <[key := p']> (rst_partitions st)) as Hpart end.
  { rewrite notified_partitions. cbn. by rewrite H2. }
  match goal with |- replicas_ok ?st' /\ _ => assert (partition_of st' key = p') as -> by (unfold partition_of; by rewrite Hpart, lookup_insert_eq) end. split.
  - intros key' q. rewrite Hpart. intros [[<- <-]|[_ Hq]]%lookup_insert_Some; [apply Hok|by apply (Hst key')].
  - cbn [p' pt_objects pt_synced_at_by_name pt_cursor]. split_and!; [| |done|done].
    + intros o v Ho Hv. rewrite Hobj. apply (replaced_listed bucket items (pt_objects p) (o, v) Hnd). by apply Hin.
    + intros n Hn. rewrite Hobj. by apply replaced_unlisted.
Qed.
End replacement.
