(* ===== verification/MemReplicas.v ===== *)
(** The replicas a store reaches from none: their indexes, snapshots of them and
    digests confirmed against them. *)

From Stdlib Require Import Ascii.
From S2P Require Import Text Encoding Address Names.
From S2P Require Import Prelude Ordered Schema Effects Kinds Inverted MessageIndex QueryIndex Digest MemStore MemInv MemWatch MemReplica MemConverge MemReplace.
#[local] Open Scope Z_scope.

Section runs.
Context {JS : Json} {CR : Carried} {SD : Serde} {MS : MessageSerde} {IX : IndexedSpecs} {SH : Sha256} {BC : Broadcast} {DF : Declared} {JT : JsonText}.
Context {D : Type} (k : ResourceKind D).

(** * Reachable replicas *)

Lemma cursor_ok p cursor : partition_ok p -> partition_ok (set_cursor cursor p).
Proof. by intros [Hq Hm Hd Hv Hs]. Qed.
Lemma alter_cursor_ok st key cursor : replicas_ok st -> replicas_ok (mkReplicas (alter (set_cursor cursor) key (rst_partitions st)) (rst_watchers st) (rst_quarantines st)).
Proof.
  intros Hst key' p. cbn. destruct (decide (key' = key)) as [->|Hne]; [rewrite lookup_alter_eq|rewrite lookup_alter_ne by done; apply Hst].
  destruct (rst_partitions st !! key) as [q|] eqn:Hq; [|done]. intros [= <-]. by apply cursor_ok, (Hst key).
Qed.
Lemma perform_replica_ok now op st : admissible op -> replicas_ok st -> replicas_ok (perform_replica k now op st).2.
Proof.
  destruct op as [[origin namespace] op]. intros Ha Hst. destruct op as [listed synced_at bucket|events| |previous next|proof previous]; cbn [perform_replica].
  - destruct Ha as [Hnd Hb]. destruct (replace_replicas_spec k origin namespace listed synced_at bucket now st Hst Hb Hnd) as (st' & -> & Hok & _). done.
  - destruct (batch_known k origin namespace now events st Hst) as (st' & -> & Hok & _). done.
  - by apply alter_cursor_ok.
  - unfold advance_replica_cursor. cbv zeta. unfold mbind, eff_bind, gets, lift. destruct (rst_partitions st !! _) as [p|] eqn:Hp; cbn [ok_or of_result]; [|done].
    case_bool_decide; [done|]. apply set_partition_ok; [done|]. by eapply cursor_ok, Hst.
  - unfold confirm_replica_digest. cbv zeta. unfold mbind, eff_bind, gets, lift. destruct (rst_partitions st !! _) as [p|] eqn:Hp; cbn [ok_or of_result]; [|done].
    destruct (_ || _); [done|]. apply set_partition_ok; [done|]. by eapply cursor_ok, Hst.
Qed.
Lemma replicas_reachable_ok now ops : Forall admissible ops -> replicas_ok (perform_replicas k now ops replicas_default).
Proof.
  intros Hops. assert (replicas_ok replicas_default) as H0 by (intros key p Hp; cbn in Hp; by rewrite lookup_empty in Hp).
  revert H0. generalize replicas_default as st. induction Hops as [|op ops Hop _ IH]; intros st Hst; [done|]. apply IH. by apply perform_replica_ok.
Qed.

(** C28: Whatever a store is told of replicas, each partition's indexes answer for
    the bodies it holds: queries and digest buckets name exactly them, and every
    body has the stamp its provenance is read from. *)
Theorem replica_indexes_exact now ops key p : Forall admissible ops -> rst_partitions (perform_replicas k now ops replicas_default) !! key = Some p ->
  (forall q n, n ∈ query_names (pt_queries p) q <-> exists v, pt_objects p !! n = Some v /\ selects declared (pt_objects p) q v) /\
  (forall q n, n ∈ message_names (pt_messages p) q <-> exists v, pt_objects p !! n = Some v /\ message_matches q v) /\
  (forall bucket n, (bucket < DIGEST_FANOUT)%nat -> n ∈ digest_names (pt_digest p) bucket <-> is_Some (pt_objects p !! n) /\ digest_bucket n = bucket) /\
  (forall n, is_Some (pt_objects p !! n) -> is_Some (pt_synced_at_by_name p !! n)).
Proof.
  intros Hops Hp. destruct (replicas_reachable_ok now ops Hops key p Hp) as [Hq Hm Hd Hv Hs]. split_and!; [| | |done].
  - intros q n. apply (query_names_exact declared _ _ Hq q).
  - intros q n. by apply message_query_exact.
  - intros bucket n Hb. rewrite (digest_names_spec _ _ _ _ Hd Hb). unfold versions_of. rewrite lookup_omap. split.
    + intros [[w Hw] Hn]. split; [|done]. destruct (pt_objects p !! n); [by eexists|done].
    + intros [[v Hx] Hn]. split; [|done]. rewrite Hx. by apply (Hv n).
Qed.

Section partition.
Context (origin : NodeId) (namespace : string).
Abbreviation key := ((origin, store_key k namespace) : ReplicaKey).

(** C17: A snapshot replaces exactly what it is about, the whole partition or one
    bucket of it, after any replica operations: a listed body the kind takes is
    held, unless a repair finds a newer one held; a listed body the kind refuses
    leaves what was held; an unlisted name is gone, and stamped so that older
    relayed events cannot bring it back; names outside the bucket stay; the cursor
    is the list's, unless it is a repair. *)
Theorem snapshot_replaces now rops listed synced_at bucket : Forall admissible rops -> admissible (origin, namespace, RReplace listed synced_at bucket) ->
  let st := perform_replicas k now rops replicas_default in
  exists st', replace_replicas k origin namespace listed synced_at bucket now st = (Done tt, st') /\ snapshot_of k listed synced_at bucket (partition_of st key) (partition_of st' key).
Proof.
  intros Hops [Hnd Hb] st. destruct (replace_replicas_spec k origin namespace listed synced_at bucket now st (replicas_reachable_ok now rops Hops) Hb Hnd) as (st' & H1 & _ & H2). by exists st'.
Qed.

(** * Confirmed digests *)

Lemma digest_in_root generation s proof : digest_in k origin generation namespace Root s = Ok proof ->
  pd_root proof = pd_root (partition_digest (rk_paths k) origin namespace generation (version_text (current_version s)) (di_hashes (rs_digest s))) /\
  pd_resource_version proof = version_text (current_version s) /\ pd_generation proof = generation.
Proof.
  unfold digest_in, digest_select. cbn [from_option mbind result_bind]. remember (partition_digest _ _ _ _ _ _) as d eqn:Hd. intros [= <-]. cbn [pd_root pd_resource_version pd_generation]. by rewrite Hd.
Qed.

(** C16: A digest that a replica confirms is the origin's: when the root an origin
    reports of its partition, after any operations there, is confirmed against a
    replica, after any replica operations, and no hash collides, the replica holds the origin's names at the
    origin's versions, and its cursor is the origin's position. *)
Theorem confirmed_replica retained ops generation proof previous now rops st' : (1 <= retained)%nat -> Forall admissible rops ->
  let st := perform_replicas k now rops replicas_default in
  let s := perform_all k retained namespace ops store_default in
  let p := partition_of st key in
  digest_in k origin generation namespace Root s = Ok proof ->
  confirm_replica_digest k origin namespace proof previous st = (Done tt, st') ->
  Forall (fun t => fits (tx t)) [origin; ap_group (rk_paths k); ap_version (rk_paths k); ap_kind (rk_paths k); namespace] ->
  fits (tx (default EmptyString (rc_generation previous))) -> fits (tx (default EmptyString generation)) ->
  map_fits (versions_of (pt_objects p)) -> map_fits (versions_of (rs_objects s)) ->
  no_collision (root_bytes (rk_paths k) origin namespace (rc_generation previous) (di_hashes (pt_digest p))) (root_bytes (rk_paths k) origin namespace generation (di_hashes (rs_digest s))) ->
  (forall bucket, no_collision (leaf_bytes (map_iter (bucket_of (versions_of (pt_objects p)) bucket))) (leaf_bytes (map_iter (bucket_of (versions_of (rs_objects s)) bucket)))) ->
  versions_of (pt_objects (partition_of st' key)) = versions_of (rs_objects s) /\
  replica_cursor k origin namespace st' = Some (mkCursor (version_text (current_version s)) generation).
Proof.
  intros Hret Hops st s p Hproof Hconf Ht F1 F2 M1 M2 Hroot Hleaf. pose proof (replicas_reachable_ok now rops Hops) as Hst. fold st in Hst. destruct (digest_in_root generation s proof Hproof) as (Hr & Hv & Hg).
  unfold confirm_replica_digest in Hconf. cbv zeta in Hconf. unfold mbind, eff_bind, gets, lift in Hconf.
  destruct (rst_partitions st !! key) as [p0|] eqn:Hp0; cbn [ok_or of_result] in Hconf; [|done]. assert (p = p0) as Hp by (unfold p, partition_of; by rewrite Hp0).
  destruct (bool_decide (pd_root _ <> pd_root proof)) eqn:Hne; cbn [orb] in Hconf; [done|]. destruct (bool_decide (pt_cursor p0 <> Some previous)); [done|]. injection Hconf as <-.
  apply bool_decide_eq_false in Hne. assert (digest_ok (versions_of (pt_objects p)) (pt_digest p)) as Hd by (apply po_digest, partition_of_ok, Hst).
  destruct (roots_agree (rk_paths k) origin namespace (rc_generation previous) generation _ _ _ _ Ht F1 F2 Hd (so_digest _ _ _ (reachable_ok k retained namespace Hret ops)) M1 M2 Hroot Hleaf) as [_ Heq].
  { rewrite Hr in Hne. rewrite Hp. cbn [pd_root partition_digest] in Hne. fold s. match goal with |- ?a = ?b => destruct (decide (a = b)) as [|Hn]; [done|by destruct Hne] end. }
  split.
  - unfold partition_of. cbn. rewrite lookup_insert_eq. cbn. by rewrite <-Hp.
  - unfold replica_cursor. cbn. rewrite lookup_insert_eq. cbn. by rewrite Hv, Hg.
Qed.
End partition.
End runs.
