(* ===== verification/MemExamples.v ===== *)
(** The memory resource store on small inputs, with JSON trees, a derived serde,
    channels and a digest that can be evaluated. *)

From Stdlib Require Import Ascii.
From S2P Require Import Text Encoding Address Names.
From S2P Require Import Prelude Ordered Schema Effects Kinds Inverted MessageIndex QueryIndex Digest MemStore MemInv MemWatch MemReplica MemConverge MemReplace MemReplicas.
#[local] Open Scope Z_scope.
#[local] Open Scope string_scope.

(** * Trees *)

Inductive tree : Type :=
| TNull
| TBool (b : bool)
| TNum (z : Z)
| TStr (s : string)
| ANil
| ACons (v rest : tree)
| ONil
| OCons (key : string) (v rest : tree).
#[export] Instance tree_eq_dec : EqDecision tree.
Proof. solve_decision. Defined.
Fixpoint tree_get (t : tree) (key : string) : option tree := match t with OCons n v rest => if String.eqb n key then Some v else tree_get rest key | _ => None end.
Fixpoint tree_array (t : tree) : option (list tree) := match t with ANil => Some [] | ACons v rest => l ← tree_array rest; Some (v :: l) | _ => None end.
Fixpoint tree_object (t : tree) : option (list (string * tree)) := match t with ONil => Some [] | OCons n v rest => l ← tree_object rest; Some ((n, v) :: l) | _ => None end.
Fixpoint of_array (l : list tree) : tree := match l with [] => ANil | v :: l => ACons v (of_array l) end.
Fixpoint of_object (l : list (string * tree)) : tree := match l with [] => ONil | p :: l => OCons p.1 p.2 (of_object l) end.
Definition as_text (t : tree) : option string := match t with TStr s => Some s | _ => None end.
#[export] Instance toy_json : Json := {|
  JValue := tree; jget := tree_get; as_str := as_text; as_array := tree_array; as_object := tree_object;
  is_null := fun t => bool_decide (t = TNull); is_number := fun t => match t with TNum _ => true | _ => false end; display := fun _ => EmptyString |}.
#[export] Instance toy_carried : Carried := {| WriterIdentity := string; MergeMetadata := string |}.

Lemma tree_array_of l : tree_array (of_array l) = Some l.
Proof. induction l as [|v l IH]; [done|]. cbn. by rewrite IH. Qed.
Lemma tree_object_of l : tree_object (of_object l) = Some l.
Proof. induction l as [|[n v] l IH]; [done|]. cbn. by rewrite IH. Qed.

(** * A derived serde *)

Definition of_map (m : gmap string string) : tree := of_object (prod_map id TStr <$> map_to_list m).
Definition to_map (t : tree) : option (gmap string string) := l ← tree_object t; Some (list_to_map (omap (fun p => s ← as_text p.2; Some (p.1, s)) l)).
Definition of_owner (o : OwnerReference) : tree :=
  of_object [("apiVersion", TStr (or_api_version o)); ("kind", TStr (or_kind o)); ("name", TStr (or_name o)); ("controller", TBool (or_controller o))].
Definition to_owner (t : tree) : option OwnerReference :=
  api ← tree_get t "apiVersion" ≫= as_text; kind ← tree_get t "kind" ≫= as_text; name ← tree_get t "name" ≫= as_text;
  controller ← tree_get t "controller" ≫= (fun t => match t with TBool b => Some b | _ => None end); Some (mkOwner api kind name controller).
Definition of_option {A} (f : A -> tree) (o : option A) : tree := match o with Some a => f a | None => TNull end.
Definition as_time (t : tree) : option Timestamp := match t with TNum z => Some z | _ => None end.
Definition of_meta (m : ObjectMeta) : tree :=
  of_object [("name", TStr (om_name m)); ("namespace", TStr (om_namespace m)); ("resourceVersion", TStr (om_resource_version m)); ("labels", of_map (om_labels m));
    ("annotations", of_map (om_annotations m)); ("ownerReferences", of_array (of_owner <$> om_owner_references m)); ("finalizers", of_array (TStr <$> om_finalizers m));
    ("deletionTimestamp", of_option TNum (om_deletion_timestamp m)); ("creationTimestamp", TNum (om_creation_timestamp m)); ("merge", of_option TStr (om_merge m))].
Definition to_meta (t : tree) : option ObjectMeta :=
  match tree_get t "name" ≫= as_text, tree_get t "namespace" ≫= as_text, tree_get t "resourceVersion" ≫= as_text, tree_get t "labels" ≫= to_map, tree_get t "annotations" ≫= to_map,
    tree_get t "ownerReferences" ≫= tree_array, tree_get t "finalizers" ≫= tree_array, tree_get t "creationTimestamp" ≫= as_time with
  | Some name, Some namespace, Some version, Some labels, Some annotations, Some owners, Some finalizers, Some created =>
      Some (mkMeta name namespace version labels (delete BOOTSTRAP_PATH_ANNOTATION annotations) (omap to_owner owners) (omap as_text finalizers)
        (tree_get t "deletionTimestamp" ≫= as_time) created (tree_get t "merge" ≫= as_text))
  | _, _, _, _, _, _, _, _ => None
  end.
Definition toy_to_value (o : K8sResourceObject) : result string tree :=
  Ok (of_object ([("apiVersion", TStr (k8_api_version o)); ("kind", TStr (k8_kind o)); ("metadata", of_meta (k8_metadata o)); ("spec", k8_spec o)] ++
    match k8_status o with Some s => [("status", s)] | None => [] end)).
Definition toy_from_value (t : tree) : result string K8sResourceObject :=
  ok_or (api ← tree_get t "apiVersion" ≫= as_text; kind ← tree_get t "kind" ≫= as_text; meta ← tree_get t "metadata" ≫= to_meta; spec ← tree_get t "spec";
    Some (@mkK8s toy_json toy_carried api kind meta spec (s ← tree_get t "status"; if bool_decide (s = TNull) then None else Some s))) "not an object".
Definition toy_tombstone (api kind : string) (t : ResourceTombstone) : tree :=
  of_object [("apiVersion", TStr api); ("kind", TStr kind);
    ("metadata", of_object [("name", TStr (rt_name t)); ("namespace", TStr (rt_namespace t)); ("resourceVersion", TStr (rt_resource_version t)); ("annotations", of_map (rt_annotations t))])].
Lemma to_of_map m : to_map (of_map m) = Some m.
Proof.
  unfold to_map, of_map. rewrite tree_object_of. cbn. f_equal. transitivity (list_to_map (map_to_list m) : gmap string string); [|apply list_to_map_to_list]. f_equal.
  induction (map_to_list m) as [|[n s] l IH]; [done|]. cbn. by f_equal.
Qed.
Lemma to_of_meta m : to_meta (of_meta m) = Some (without_retired m).
Proof.
  unfold to_meta, of_meta. cbn -[of_map to_map of_array tree_array]. rewrite !to_of_map, !tree_array_of. cbn. f_equal. unfold without_retired. f_equal.
  - induction (om_owner_references m) as [|[? ? ? ?] l IH]; [done|]. cbn. by f_equal.
  - induction (om_finalizers m) as [|f l IH]; [done|]. cbn. by f_equal.
  - by destruct (om_deletion_timestamp m).
  - by destruct (om_merge m).
Qed.
#[export] Program Instance toy_serde : Serde := {|
  to_value := toy_to_value; from_value := toy_from_value; reserialize := fun t => Ok t; json_tombstone := toy_tombstone |}.
Next Obligation. intros o. by eexists. Qed.
Next Obligation.
  intros o v. unfold toy_to_value. intros [= <-]. unfold toy_from_value. cbn -[to_meta of_meta]. rewrite to_of_meta. cbn. by destruct (k8_status o).
Qed.
Next Obligation. intros o v. unfold toy_to_value. by intros [= <-]. Qed.
Next Obligation. intros o v. unfold toy_to_value. by intros [= <-]. Qed.
Next Obligation. intros o v. unfold toy_to_value. by intros [= <-]. Qed.
Next Obligation. done. Qed.
Next Obligation. done. Qed.
Next Obligation. done. Qed.
Next Obligation. done. Qed.

(** * Texts, indexes, digests and channels *)

Fixpoint tree_code (t : tree) : gen_tree (bool + Z + string) :=
  match t with
  | TNull => GenNode 0 []
  | TBool b => GenLeaf (inl (inl b))
  | TNum z => GenLeaf (inl (inr z))
  | TStr s => GenLeaf (inr s)
  | ANil => GenNode 1 []
  | ACons v rest => GenNode 1 [tree_code v; tree_code rest]
  | ONil => GenNode 2 []
  | OCons key v rest => GenNode 2 [GenLeaf (inr key); tree_code v; tree_code rest]
  end.
Fixpoint tree_decode (g : gen_tree (bool + Z + string)) : tree :=
  match g with
  | GenLeaf (inl (inl b)) => TBool b
  | GenLeaf (inl (inr z)) => TNum z
  | GenLeaf (inr s) => TStr s
  | GenNode 1 [] => ANil
  | GenNode 1 [v; rest] => ACons (tree_decode v) (tree_decode rest)
  | GenNode 2 [] => ONil
  | GenNode 2 [GenLeaf (inr key); v; rest] => OCons key (tree_decode v) (tree_decode rest)
  | GenNode _ _ => TNull
  end.
Lemma tree_decode_code t : tree_decode (tree_code t) = t.
Proof. induction t; cbn; congruence. Qed.
#[export] Instance tree_countable : Countable tree := inj_countable' tree_code tree_decode tree_decode_code.
Fixpoint bits (p : positive) : string := match p with xH => "1" | xO p => "0" +:+ bits p | xI p => "1" +:+ bits p end.
Definition tree_text (t : tree) : string := bits (encode t).
Lemma bits_inj p q : bits p = bits q -> p = q.
Proof.
  revert q. induction p as [p IH|p IH|]; intros [q|q|] Heq; try done; try (injection Heq as Heq); try (f_equal; by apply IH); [destruct p|destruct q]; done.
Qed.
#[export] Program Instance toy_text : JsonText := {| json_text := fun t => Ok (tree_text t) |}.
Next Obligation. by eexists. Qed.
Next Obligation. intros v w t. cbn. intros [= <-] [= Heq]. by apply bits_inj, (inj encode) in Heq. Qed.

#[export] Instance toy_messages : MessageSerde := {|
  message_phase := fun t => match t with TStr "delivered" => Some Delivered | TStr "satisfied" => Some Satisfied | _ => None end; parse_rfc3339 := fun _ => None |}.
#[export] Instance toy_specs : IndexedSpecs := {|
  convoy_subjects := fun _ => None; forge_spec := fun _ => None; repository_targets := fun _ => None; json_strings := fun l => String.concat "," l |}.
#[export] Instance toy_declared : Declared := [("Convoy", ["spec.project"])].
#[local] Instance constant_digest : Sha256 := {| sha256 := fun _ => repeat zero 32; sha256_length := fun _ => eq_refl |}.

(** A channel keeps what was sent; a receiver is at a place in it. *)
Definition ring_recv {E} (c : nat * list E) (rx : nat) : Received E * nat :=
  match drop rx c.2 with
  | [] => (Waiting, rx)
  | e :: rest => if bool_decide (length (e :: rest) <= c.1)%nat then (Got e, S rx) else (Lagged, rx)
  end.
#[export] Program Instance ring : Broadcast := {|
  Chan := fun E => (nat * list E)%type; Rx := fun _ => nat;
  chan_new := fun E n => (n, []); chan_send := fun E e c => (c.1, (c.2 ++ [e])%list); chan_subscribe := fun E c => length c.2;
  chan_recv := fun E c rx => ring_recv c rx; capacity := fun E c => c.1;
  attached := fun E c rx => (rx <= length c.2)%nat; unseen := fun E c rx => drop rx c.2 |}.
Next Obligation. done. Qed.
Next Obligation. done. Qed.
Next Obligation. intros E c. cbn. lia. Qed.
Next Obligation. intros E c. cbn. by apply drop_all. Qed.
Next Obligation. intros E e c rx. cbn. rewrite length_app. cbn. lia. Qed.
Next Obligation. intros E e c rx Hat. cbn in *. by rewrite drop_app_le. Qed.
Next Obligation.
  intros E c rx Hat. cbn in *. unfold ring_recv. destruct (drop rx c.2) as [|e rest] eqn:Hd; [done|]. case_bool_decide as H1; case_decide as H2; cbn in H1, H2; [|lia|lia|done]. exists (S rx).
  split_and!; [done|pose proof (f_equal length Hd) as Hl; rewrite length_drop in Hl; cbn in Hl; lia|]. replace (S rx) with (rx + 1)%nat by lia. by rewrite <-drop_drop, Hd.
Qed.

(** * A kind and some operations *)

Definition convoys : ResourceKind unit :=
  mkKind (mkPaths "flotilla.work" "v1" "convoys" "Convoy") RHomeBoundRuntime Configured ["spec.project"] false (fun _ => Ok tt) (fun _ => Ok tt) (fun _ => Ok None) (fun _ _ => Ok tt)
    (fun _ _ => Ok tt) (fun _ _ => Ok tt) (fun _ _ _ => Ok tt).
Definition named (name : string) (finalizers : list string) : InputMeta := mkInput name ∅ ∅ [] finalizers None.
Definition project (p : string) : tree := of_object [("project", TStr p)].
Definition two_made : list Op := [OCreate (named "a" ["teardown"]) (project "x") None 5; OCreate (named "b" []) (project "y") None 6].
#[local] Abbreviation made := (perform_all convoys 4 "ns" two_made store_default).
Definition listed_now (s : ResourceStore) : ResourceList := match list_raw None convoys s with Ok l => l | Err _ => mkList [] EmptyString None end.

Example made_objects : rs_next_version made = 3 /\ map (fun e => (ev_version e, ev_kind e)) (rs_event_log made) = [(1, EvAdded); (2, EvAdded)] /\
  map (fun o => om_name (ro_metadata o)) (rl_items (listed_now made)) = ["a"; "b"] /\ rl_resource_version (listed_now made) = "2".
Proof. vm_compute. auto. Qed.
(** A delete only marks the object with a finalizer; one without goes. *)
Example deleted_objects : let s := perform_all convoys 4 "ns" [ODelete "a" 9; ODelete "b" 9] made in
  map (fun e => (ev_version e, ev_kind e)) (rs_event_log s) = [(1, EvAdded); (2, EvAdded); (3, EvModified); (4, EvDeleted)] /\
  map (fun o => (om_name (ro_metadata o), om_deletion_timestamp (ro_metadata o))) (rl_items (listed_now s)) = [("a", Some 9)].
Proof. vm_compute. auto. Qed.
(** The query index finds a convoy by its project. *)
Example queried : elements (query_names (rs_queries made) (mkQuery [] [("spec.project", "y")] [] [] [] [] false None None [] [] false None false false None true)) = ["b"].
Proof. vm_compute. reflexivity. Qed.

Definition after_list : list Op := [ODelete "b" 9].
Definition after_watch : list Op := [OCreate (named "c" []) (project "z") None 10].
Lemma list_then_watch_witness : list_raw None convoys made = Ok (listed_now made) /\
  let s1 := perform_all convoys 4 "ns" after_list made in
  let s2 := perform_all convoys 4 "ns" after_watch s1 in
  let before := committed_events 4 convoys "ns" after_list made in
  let after := committed_events 4 convoys "ns" after_watch s1 in
  map (fun e => (ev_version e, ev_kind e)) before = [(3, EvDeleted)] /\ map (fun e => (ev_version e, ev_kind e)) after = [(4, EvAdded)] /\
  exists w, watch_in None (resuming_from (listed_now made)) s1 = Ok w /\ drain 3 w s2 = delivered (before ++ after)%list /\ follow (rs_objects made) (drain 3 w s2) = Ok (rs_objects s2).
Proof.
  assert (list_raw None convoys made = Ok (listed_now made)) as Hl by (vm_compute; reflexivity). split; [exact Hl|].
  pose proof (list_then_watch convoys 4 "ns" ltac:(lia) None two_made (listed_now made) after_list after_watch Hl) as H.
  cbv zeta in H |- *. apply proj2, proj2 in H. split; [vm_compute; reflexivity|]. split; [vm_compute; reflexivity|].
  destruct (watch_in None (resuming_from (listed_now made)) (perform_all convoys 4 "ns" after_list made)) as [w|e] eqn:Hw.
  - exists w. split; [reflexivity|]. specialize (H 3%nat). rewrite decide_True in H by (vm_compute; lia). apply H. vm_compute. lia.
  - exfalso. apply proj2 in H. vm_compute in H. discriminate.
Defined.

Definition object_of (name : string) (s : ResourceStore) : ResourceObject :=
  match get_row (decode_object convoys) name s with Ok o => o | Err _ => mkObject (mkMeta EmptyString EmptyString EmptyString ∅ ∅ [] [] None 0 None) TNull None end.
Lemma no_lost_update_witness :
  let s' := perform_all convoys 4 "ns" [OUpdateStatus "a" "1" (TStr "running")] made in
  get_row (decode_object convoys) "a" made = Ok (object_of "a" made) /\ om_resource_version (ro_metadata (object_of "a" made)) = "1" /\
  forall status, exists e, perform convoys 4 "ns" (OUpdateStatus "a" "1" status) s' = (Failed e, s').
Proof.
  intros s'. assert (get_row (decode_object convoys) "a" made = Ok (object_of "a" made)) as Hg by (vm_compute; reflexivity). split; [exact Hg|]. split; [vm_compute; reflexivity|].
  refine (proj2 (no_lost_update convoys 4 "ns" ltac:(lia) two_made "a" (object_of "a" made) [OUpdateStatus "a" "1" (TStr "running")] Hg _)). vm_compute. discriminate.
Defined.

Lemma store_indexes_exact_witness : (0 < 4)%nat /\
  forall q n, n ∈ query_names (rs_queries made) q <-> exists v, rs_objects made !! n = Some v /\ selects declared (rs_objects made) q v.
Proof. split; [lia|]. exact (proj1 (store_indexes_exact convoys 4 "ns" ltac:(lia) two_made)). Defined.

Lemma made_guarded : guarded convoys "a" (rs_objects made).
Proof.
  exists (default TNull (rs_objects made !! "a")). split; [vm_compute; reflexivity|]. exists (object_of "a" made). split; [vm_compute; reflexivity|vm_compute; discriminate].
Qed.
Lemma finalizers_hold_witness : guarded convoys "a" (rs_objects (perform_all convoys 4 "ns" [ODelete "a" 9; ODelete "a" 10; ODelete "b" 11] made)).
Proof. apply (finalizers_hold convoys 4 "ns" "a" made); [exact made_guarded|]. repeat constructor; intros []. Defined.

(** * Replicas *)

Definition convoy_at (name version : string) : ResourceObject := mkObject (mkMeta name "ns" version ∅ ∅ [] [] None 5 None) (project "y") None.
Definition relayed : list (WatchEvent * Timestamp) := [(WAdded (convoy_at "a" "1"), 10); (WModified (convoy_at "a" "2"), 20); (WDeleted (convoy_at "a" "3"), 30); (WAdded (convoy_at "b" "4"), 5)].
Definition held (st : ReplicaState) : list (string * option string) :=
  map (fun p => (p.1, value_version p.2)) (map_iter (pt_objects (partition_of st ("root", store_key convoys "ns")))).
(** Backwards, the deletion is there first and nothing of [a] comes back. *)
Example relayed_backwards : held (apply_replica_batch convoys "root" "ns" 0 relayed replicas_default).2 = [("b", Some "4")] /\
  held (apply_replica_batch convoys "root" "ns" 0 (reverse relayed) replicas_default).2 = [("b", Some "4")].
Proof. vm_compute. auto. Qed.
(** Where a newer version carries an earlier stamp, the order of arrival decides:
    the held body with the later stamp stays. *)
Example skewed_stamps : held (apply_replica_batch convoys "root" "ns" 0 [(WAdded (convoy_at "a" "1"), 10); (WModified (convoy_at "a" "2"), 5)] replicas_default).2 = [("a", Some "1")] /\
  held (apply_replica_batch convoys "root" "ns" 0 [(WModified (convoy_at "a" "2"), 5); (WAdded (convoy_at "a" "1"), 10)] replicas_default).2 = [("a", Some "2")].
Proof. vm_compute. auto. Qed.

Lemma relayed_in_order : stamped_in_order relayed.
Proof.
  intros a b va vb Ha Hb. unfold relayed in Ha, Hb. rewrite !elem_of_cons, elem_of_nil in Ha, Hb.
  destruct Ha as [->|[->|[->|[->|[]]]]], Hb as [->|[->|[->|[->|[]]]]]; vm_compute; intros H1 H2 H3 H4; try discriminate; injection H2 as <-; injection H3 as <-; try reflexivity; discriminate.
Qed.
Lemma replicas_converge_witness : exists st st', apply_replica_batch convoys "root" "ns" 0 relayed replicas_default = (Done tt, st) /\
  apply_replica_batch convoys "root" "ns" 7 (reverse relayed) replicas_default = (Done tt, st') /\
  pt_objects (partition_of st ("root", store_key convoys "ns")) = pt_objects (partition_of st' ("root", store_key convoys "ns")).
Proof.
  destruct (replicas_converge convoys "root" "ns" 0 7 relayed (reverse relayed) (symmetry (reverse_Permutation relayed)) relayed_in_order) as (st & st' & H1 & H2 & H3 & _).
  exists st, st'. split; [exact H1|]. split; [exact H2|exact H3].
Defined.

Definition told : list (NodeId * string * ReplicaOp) := [("root", "ns", RReplace (mkList [] "0" None) 1 None); ("root", "ns", RBatch [(WAdded (convoy_at "b" "1"), 10)])].
#[local] Abbreviation told_state := (perform_replicas convoys 0 told replicas_default).
Lemma told_admissible : Forall admissible told.
Proof. repeat constructor. Qed.
Lemma replica_indexes_exact_witness : Forall admissible told /\ forall q n, n ∈ query_names (pt_queries (partition_of told_state ("root", store_key convoys "ns"))) q <->
  exists v, pt_objects (partition_of told_state ("root", store_key convoys "ns")) !! n = Some v /\ selects declared (pt_objects (partition_of told_state ("root", store_key convoys "ns"))) q v.
Proof.
  split; [exact told_admissible|]. refine (proj1 (replica_indexes_exact convoys 0 told ("root", store_key convoys "ns") (partition_of told_state ("root", store_key convoys "ns")) told_admissible _)). vm_compute. reflexivity.
Defined.

Definition repair : ResourceList := mkList [convoy_at "c" "2"] "2" None.
Lemma snapshot_replaces_witness : exists st', replace_replicas convoys "root" "ns" repair 12 None 0 told_state = (Done tt, st') /\
  snapshot_of convoys repair 12 None (partition_of told_state ("root", store_key convoys "ns")) (partition_of st' ("root", store_key convoys "ns")).
Proof.
  apply (snapshot_replaces convoys "root" "ns" 0 told repair 12 None told_admissible). split; [|exact I]. apply NoDup_singleton.
Defined.

(** * Digests *)

Definition one_made : list Op := [OCreate (named "b" []) (project "y") None 5].
#[local] Abbreviation origin_store := (perform_all convoys 4 "ns" one_made store_default).
Definition no_proof : PartitionDigest := mkPartition EmptyString EmptyString EmptyString None EmptyString EmptyString None None None.
Definition reported (query : DigestQuery) (s : ResourceStore) : PartitionDigest := match digest_in convoys "root" None "ns" query s with Ok d => d | Err _ => no_proof end.
Lemma one_version n v (m : gmap string string) : m = {[ "b" := "1" ]} -> m !! n = Some v -> n = "b" /\ v = "1".
Proof. intros ->. rewrite lookup_singleton_Some. intros [<- <-]. done. Qed.
Lemma one_fits (m : gmap string string) : m = {[ "b" := "1" ]} -> map_fits m.
Proof. intros Hm n v Hv. destruct (one_version n v m Hm Hv) as [-> ->]. split; vm_compute; split; discriminate. Qed.
Lemma confirmed_replica_witness : exists st', confirm_replica_digest convoys "root" "ns" (reported Root origin_store) (mkCursor "0" None) told_state = (Done tt, st') /\
  versions_of (pt_objects (partition_of st' ("root", store_key convoys "ns"))) = versions_of (rs_objects origin_store) /\
  replica_cursor convoys "root" "ns" st' = Some (mkCursor (version_text (current_version origin_store)) None).
Proof.
  assert (versions_of (pt_objects (partition_of told_state ("root", store_key convoys "ns"))) = {[ "b" := "1" ]}) as H1 by (vm_compute; reflexivity).
  assert (versions_of (rs_objects origin_store) = {[ "b" := "1" ]}) as H2 by (vm_compute; reflexivity).
  assert (di_hashes (pt_digest (partition_of told_state ("root", store_key convoys "ns"))) = di_hashes (rs_digest origin_store)) as H3 by (vm_compute; reflexivity).
  assert (digest_in convoys "root" None "ns" Root origin_store = Ok (reported Root origin_store)) as H4 by (vm_compute; reflexivity).
  assert ((confirm_replica_digest convoys "root" "ns" (reported Root origin_store) (mkCursor "0" None) told_state).1 = Done tt) as H5 by (vm_compute; reflexivity).
  destruct (confirm_replica_digest convoys "root" "ns" (reported Root origin_store) (mkCursor "0" None) told_state) as [r st'] eqn:H6. cbn in H5. subst r.
  exists st'. split; [reflexivity|]. apply (confirmed_replica convoys "root" "ns" 4 one_made None (reported Root origin_store) (mkCursor "0" None) 0 told st');
    [lia|exact told_admissible|exact H4|exact H6| | | |by apply one_fits|by apply one_fits| |].
  - repeat constructor; vm_compute; discriminate.
  - vm_compute. split; discriminate.
  - vm_compute. split; discriminate.
  - intros _. exact (f_equal (root_bytes (rk_paths convoys) "root" "ns" None) H3).
  - intros bucket _. exact (f_equal (fun m => leaf_bytes (map_iter (bucket_of m bucket))) (eq_trans H1 (eq_sym H2))).
Defined.

Definition snapshot_items : list ResourceObject := [convoy_at "b" "1"].
Lemma digest_snapshot_complete_witness : let d := reported Root origin_store in
  digest_snapshot (decode_object convoys) ro_metadata (rk_paths convoys) (reported (Snapshot (pd_root d) 48) origin_store)
    (partition_digest (rk_paths convoys) "root" "ns" None "1" (di_hashes (rs_digest origin_store))) 48 = Ok (snapshot_items, "1", None) /\
  forall name v, (name, v) ∈ entry ro_metadata <$> snapshot_items <-> versions_of (rs_objects origin_store) !! name = Some v /\ digest_bucket name = 48%nat.
Proof.
  intros d. assert (versions_of (rs_objects origin_store) = {[ "b" := "1" ]}) as H2 by (vm_compute; reflexivity).
  assert (digest_snapshot (decode_object convoys) ro_metadata (rk_paths convoys) (reported (Snapshot (pd_root d) 48) origin_store)
    (partition_digest (rk_paths convoys) "root" "ns" None "1" (di_hashes (rs_digest origin_store))) 48 = Ok (snapshot_items, "1", None)) as H1 by (vm_compute; reflexivity).
  split; [exact H1|]. refine (proj2 (digest_snapshot_complete (decode_object convoys) ro_metadata (rk_paths convoys) "root" "ns" None "1" (versions_of (rs_objects origin_store)) (rs_digest origin_store)
    (reported (Snapshot (pd_root d) 48) origin_store) 48 snapshot_items ("1", None) _ _ H1 _ _ _)).
  - exact (so_digest _ _ _ (reachable_ok convoys 4 "ns" ltac:(lia) one_made)).
  - vm_compute. repeat constructor.
  - by apply one_fits.
  - repeat constructor; vm_compute; discriminate.
  - intros _. rewrite H2. vm_compute. reflexivity.
Defined.
