(* ===== verification/MemQuery.v ===== *)
(** Declared queries of the memory store over its own rows and the replicas it
    holds ([crates/flotilla-store-memory/src/in_memory.rs],
    [crates/flotilla-store/src/query.rs]): validation, semijoins between kinds,
    hydration of every source, shadowing and order, where no durable replica
    store is composed. *)

From Stdlib Require Import Ascii.
From S2P Require Import Text Encoding Address Names.
From S2P Require Import Prelude Ordered Schema Effects Kinds Inverted MessageIndex QueryIndex Digest MemStore MemReplica.
#[local] Open Scope Z_scope.

(** The first error of a check on each element. *)
Definition each {E A} (f : A -> result E unit) : list A -> result E unit :=
  fix go l := match l with [] => Ok tt | x :: l => _ ← f x; go l end.

Section queries.
Context {JS : Json} {CR : Carried} {SD : Serde} {MS : MessageSerde} {IX : IndexedSpecs} {SH : Sha256} {BC : Broadcast} {JT : JsonText}.
(** The registered kinds ([declared_resource_kinds]). *)
Context {D : Type} (kinds : list (ResourceKind D)).
Implicit Types (k : ResourceKind D) (q : StoreQuery) (namespace : string).

Definition refuse (b : bool) (message : string) : result ResourceError unit := if b then Err (Invalid message) else Ok tt.
(** What the indexes read of them. *)
#[local] Instance declared_kinds : Declared := (fun k => (ap_kind (rk_paths k), rk_queryable_fields k)) <$> kinds.

(** * The store *)

Record Backend : Type := mkBackend {
  mb_stores : gmap StoreKey ResourceStore;
  mb_replicas : ReplicaState;
  mb_generation : option string;
  mb_event_retention : nat;
  mb_local_root : option NodeId;
}.
Implicit Types (b : Backend).
Definition backend_default (retention : nat) (generation : option string) (root : option NodeId) : Backend := mkBackend ∅ replicas_default generation retention root.
Definition local_root b : NodeId := default "local" (mb_local_root b).
(** [with_store_mut], with the operations of a partition. *)
Definition with_store_mut k namespace {A} (f : nat -> SE A) b : outcome ResourceError A * Backend :=
  let key := store_key k namespace in
  let r := f (retained_events (rk_event_history k) (mb_event_retention b)) (default store_default (mb_stores b !! key)) in
  (r.1, mkBackend (<[key := r.2]> (mb_stores b)) (mb_replicas b) (mb_generation b) (mb_event_retention b) (mb_local_root b)).
(** What a store is told: an operation on its own rows, or on a replica. *)
Inductive BackendOp : Type :=
| BLocal k namespace (op : Op)
| BReplica k (now : Timestamp) (op : NodeId * string * ReplicaOp).
Definition perform_backend b (op : BackendOp) : Backend :=
  match op with
  | BLocal k namespace op => (with_store_mut k namespace (fun retained => perform k retained namespace op) b).2
  | BReplica k now op => mkBackend (mb_stores b) (perform_replica k now op (mb_replicas b)).2 (mb_generation b) (mb_event_retention b) (mb_local_root b)
  end.
Definition perform_backends (ops : list BackendOp) b : Backend := foldl perform_backend b ops.
(** [local_namespaces_raw] and [stored_namespaces_raw]. *)
Definition of_kind k (key : StoreKey) : bool := bool_decide (key.1 = (ap_group (rk_paths k), ap_version (rk_paths k), ap_plural (rk_paths k))).
Definition local_namespaces k b : list string :=
  sort_by (fun x y => bool_decide (String.le x y))
    (omap (fun row => if of_kind k row.1 && bool_decide (rs_objects row.2 <> ∅) then Some row.1.2 else None) (map_iter (mb_stores b))).
Definition stored_namespaces k b : list string :=
  set_iter (list_to_set (local_namespaces k b) ∪
    list_to_set (omap (fun row => if of_kind k row.1.2 && bool_decide (pt_objects row.2 <> ∅) then Some row.1.2.2 else None) (map_iter (rst_partitions (mb_replicas b)))) : gset string).

(** * Validation *)

(** [FieldQuery::kind]. *)
Definition selection_kind (source : option string) k : result ResourceError (ResourceKind D) :=
  match source with
  | None => Ok k
  | Some source => ok_or (List.find (fun k => bool_decide (ap_kind (rk_paths k) = source)) kinds) (Invalid ("undeclared source kind " +:+ source)%string)
  end.
Definition query_paths q : list string :=
  (sq_fields q).*1 ++ (sq_field_values q).*1 ++ (sq_field_prefixes q).*1 ++ sq_missing_fields q ++ sq_present q ++ (sq_field_matches_query q).*1.
Definition undeclared k (path : string) : bool := bool_decide (path ∉ rk_queryable_fields k).
Definition unfit_for_hydration k q : bool :=
  sq_all_sources_for_matches q &&
    (bool_decide (rk_replication k <> RDefinitions) || bool_decide (is_Some (sq_message q)) || sq_suppress_self_origin q || negb (sq_include_replicas q)).
Definition unfit_for_merge k (depth : nat) q : bool :=
  sq_merged_definitions q &&
    (bool_decide (rk_replication k <> RDefinitions) || bool_decide (0 < depth)%nat || negb (sq_include_replicas q) || sq_suppress_self_origin q || sq_replicas_only q ||
     bool_decide (sq_labels q <> []) || bool_decide (is_Some (sq_owner q)) || bool_decide (is_Some (sq_message q)) || bool_decide (sq_field_prefixes q <> []) ||
     bool_decide (sq_missing_fields q <> []) || bool_decide (is_Some (sq_any_of q)) || bool_decide (sq_present q <> []) || bool_decide (sq_label_prefixes q <> []) ||
     sq_all_sources_for_matches q ||
     existsb (fun m => let '(path, (source, field, _)) := m in
       bool_decide (path <> "metadata.name") || bool_decide (field <> "metadata.name") || bool_decide (is_Some source)) (sq_field_matches_query q) ||
     existsb (fun path => bool_decide (path <> "metadata.name")) ((sq_fields q).*1 ++ (sq_field_values q).*1)).
(** [StoreQuery::validate_at]. *)
Fixpoint validate_at k (depth : nat) q {struct q} : result ResourceError unit :=
  match q with
  | mkQuery _ _ _ _ _ matches _ _ any_of _ _ _ message _ _ _ _ =>
      _ ← refuse (unfit_for_hydration k q) "source hydration requires an unsuppressed definitions query";
      _ ← refuse (bool_decide (8 < depth)%nat) "declared query nesting exceeds eight levels";
      _ ← each (fun path => refuse (undeclared k path) ("undeclared query field " +:+ path +:+ " for " +:+ ap_kind (rk_paths k))%string) (query_paths q);
      _ ← refuse (unfit_for_merge k depth q) "merged definitions require a definitions kind and name-only selection";
      _ ← each (fun m => let '(_, (source, field, sub)) := m in
        k' ← selection_kind source k;
        _ ← refuse (undeclared k' field) "undeclared semijoin source field";
        validate_at k' (S depth) sub) matches;
      _ ← match any_of with Some qs => each (validate_at k (S depth)) qs | None => Ok tt end;
      _ ← refuse (bool_decide (0 < depth)%nat && bool_decide (is_Some message)) "MessageQuery belongs on the outer query";
      refuse (bool_decide (is_Some message) && bool_decide (ap_kind (rk_paths k) <> "Message")) "message query requires Message"
  end.
Definition validate k q : result ResourceError unit := validate_at k 0 q.

(** * Values of a field, and semijoins *)

Definition replicates k : bool := bool_decide (rk_replication k <> RNone).
Definition local_names (local : option ResourceStore) : gset string := from_option (fun s => dom (rs_objects s)) ∅ local.
(** The projection of [query_values_raw], of a query without semijoins. *)
Definition values_of b namespace k q (field : string) : gset string :=
  let key := store_key k namespace in
  let local := mb_stores b !! key in
  let shadowing := default (mkShadowing (local_root b) (local_names local)) (sq_replica_shadowing q) in
  (if sq_replicas_only q then ∅ else from_option (fun s => query_values (rs_queries s) field (query_names (rs_queries s) q)) ∅ local) ∪
  (if sq_include_replicas q && replicates k then
     ⋃ map (fun row =>
       let names := query_names (pt_queries row.2) q in
       query_values (pt_queries row.2) field
         (if sq_suppress_self_origin q && bool_decide (row.1 = sh_origin_root shadowing) then names ∖ sh_local_names shadowing else names)) (partitions_at key (mb_replicas b))
   else ∅).
Definition project_values b namespace k q (field : string) (resolved : result ResourceError StoreQuery) : result ResourceError (gset string) :=
  _ ← validate k q;
  _ ← refuse (undeclared k field) "undeclared field projection";
  r ← resolved;
  Ok (values_of b namespace k r field).
(** A semijoin narrows the values asked of its field, or asks for its own. *)
Definition join_values (asked : gmap string (list string)) (p : string * gset string) : gmap string (list string) :=
  <[p.1 := match asked !! p.1 with Some existing => filter (fun value => value ∈ p.2) existing | None => set_iter p.2 end]> asked.
Definition with_values q (values : list (string * list string)) (any_of : option (list StoreQuery)) : StoreQuery :=
  mkQuery (sq_labels q) (sq_fields q) values (sq_field_prefixes q) (sq_missing_fields q) [] (sq_merged_definitions q) (sq_owner q) any_of (sq_present q) (sq_label_prefixes q)
    (sq_all_sources_for_matches q) (sq_message q) (sq_include_replicas q) (sq_replicas_only q) (sq_replica_shadowing q) (sq_suppress_self_origin q).
(** [resolve_semijoins]. *)
Fixpoint resolve_semijoins b namespace k q {struct q} : result ResourceError StoreQuery :=
  match q with
  | mkQuery _ _ field_values _ _ matches _ _ any_of _ _ _ _ _ _ _ _ =>
      joins ← collect (fun m => let '(path, (source, field, sub)) := m in
        k' ← selection_kind source k;
        values ← project_values b namespace k' sub field (resolve_semijoins b namespace k' sub);
        Ok (path, values)) matches;
      alternatives ← match any_of with Some qs => qs' ← collect (resolve_semijoins b namespace k) qs; Ok (Some qs') | None => Ok None end;
      Ok (with_values q (map_iter (foldl join_values (list_to_map field_values) joins)) alternatives)
  end.
(** [query_values_raw]. *)
Definition query_values_raw b namespace k q (field : string) : result ResourceError (gset string) := project_values b namespace k q field (resolve_semijoins b namespace k q).

(** * Rows *)

(** [QueryRowForm]: raw rows, or typed ones. *)
Class QueryRowForm := { Row : Type; row_decode : ResourceKind D -> JValue -> result ResourceError Row; row_name : Row -> string }.
Definition SerializedRows : QueryRowForm := {| Row := ResourceObject; row_decode := decode_object; row_name := fun o => om_name (ro_metadata o) |}.
Definition TypedRows (name : D -> string) : QueryRowForm := {| Row := D; row_decode := rk_decode_typed; row_name := name |}.

Section rows.
Context {FM : QueryRowForm}.
Definition replica_query_row k (origin : NodeId) (p : ReplicaPartition) (name : string) : result ResourceError (Row * ResourceProvenance) :=
  value ← ok_or (pt_objects p !! name) (Other "query index references missing replica object");
  row ← row_decode k value;
  synced ← ok_or (pt_synced_at_by_name p !! name) (Other "replica query object has no sync timestamp");
  Ok (row, Replica origin synced).
(** The names a query without semijoins matches in some source, where it
    hydrates every source of them. *)
Definition hydration_names b namespace k r : gset string :=
  let key := store_key k namespace in
  let asked := from_option (fun s => query_names (rs_queries s) r) ∅ (mb_stores b !! key) in
  if sq_all_sources_for_matches r then asked ∪ ⋃ map (fun part => query_names (pt_queries part.2) r) (partitions_at key (mb_replicas b)) else asked.
(** The names of one partition. *)
Definition selected_names r (hydration : gset string) (objects : gmap string JValue) (queries : QueryIndex) (messages : MessageIndex) : gset string :=
  let names := if sq_all_sources_for_matches r then hydration ∩ dom objects else query_names queries r in
  match sq_message r with Some message => names ∩ list_to_set (message_names messages message) | None => names end.
Definition own_row k (s : ResourceStore) (name : string) : result ResourceError (Row * ResourceProvenance) :=
  value ← indexed_object s name; row ← row_decode k value; Ok (row, Local).
Definition is_shadowed b namespace k r (origin : NodeId) (name : string) : bool :=
  match sq_replica_shadowing r with
  | Some scope => bool_decide (origin = sh_origin_root scope) && bool_decide (name ∈ sh_local_names scope)
  | None => bool_decide (origin = local_root b) && from_option (fun s => bool_decide (is_Some (rs_objects s !! name))) false (mb_stores b !! store_key k namespace)
  end.
Definition replica_query_rows b namespace k r (hydration : gset string) (part : NodeId * ReplicaPartition) : result ResourceError (list (Row * ResourceProvenance)) :=
  collect (replica_query_row k part.1 part.2)
    (filter (fun name => negb (sq_suppress_self_origin r && is_shadowed b namespace k r part.1 name) = true)
      (set_iter (selected_names r hydration (pt_objects part.2) (pt_queries part.2) (pt_messages part.2)))).
(** [query_rows]: the rows, the query without its semijoins, and the position. *)
Definition query_rows b namespace k q : result ResourceError (list (Row * ResourceProvenance) * StoreQuery * ResourcePosition) :=
  _ ← validate k q;
  r ← resolve_semijoins b namespace k q;
  let key := store_key k namespace in
  let local := mb_stores b !! key in
  let hydration := hydration_names b namespace k r in
  own ← match local with
        | Some s => if sq_replicas_only r then Ok [] else collect (own_row k s) (set_iter (selected_names r hydration (rs_objects s) (rs_queries s) (rs_messages s)))
        | None => Ok []
        end;
  replicas ← (if sq_include_replicas r && replicates k then collect (replica_query_rows b namespace k r hydration) (partitions_at key (mb_replicas b)) else Ok []);
  Ok (own ++ concat replicas, r, mkPosition (version_text (from_option current_version 0 local)) (mb_generation b)).
(** [sort_query_rows]: by name, the local row first, then by origin. *)
Definition provenance_le (x y : ResourceProvenance) : bool :=
  match x, y with Local, _ => true | _, Local => false | Replica a _, Replica b _ => bool_decide (String.le a b) end.
Definition row_le (x y : Row * ResourceProvenance) : bool :=
  if bool_decide (row_name x.1 = row_name y.1) then provenance_le x.2 y.2 else bool_decide (String.le (row_name x.1) (row_name y.1)).
(** What a query that merges definitions is given: [merge_cached_definitions],
    whose merge [Merge] models on the definitions themselves, and
    [overlay_builtins], which adds the definitions the program carries. *)
Class DefinitionMerge := {
  merge_cached : list (Row * ResourceProvenance) -> NodeId -> result ResourceError (list Row);
  overlay_builtins : string -> string -> list Row -> option (gset string) -> result ResourceError (list Row);
}.
Context {DM : DefinitionMerge}.
(** The names a merging query asks for. *)
Definition merged_names r : option (gset string) :=
  if bool_decide (sq_field_matches_query r <> []) then Some ∅
  else match (list_to_map (sq_fields r) : gmap string string) !! "metadata.name"%string, (list_to_map (sq_field_values r) : gmap string (list string)) !! "metadata.name"%string with
       | None, None => None
       | name, names => Some (from_option singleton ∅ name ∪ list_to_set (default [] names))
       end.
Definition merged_rows k namespace r (items : list (Row * ResourceProvenance)) (root : NodeId) : result ResourceError (list (Row * ResourceProvenance)) :=
  merged ← merge_cached items root;
  overlaid ← overlay_builtins (ap_kind (rk_paths k)) namespace merged (merged_names r);
  Ok (map (fun row => (row, Local)) overlaid).
(** [merge_query_definitions]. *)
Definition merge_query_definitions k namespace r (items : list (Row * ResourceProvenance)) (root : NodeId) : result ResourceError (list (Row * ResourceProvenance)) :=
  if sq_merged_definitions r then merged_rows k namespace r items root else Ok items.
(** [query_raw]; [query_decoded] is it on typed rows, of a query that does not
    merge definitions, and hands one that does to [query_raw]. *)
Definition query_decoded_rows b namespace k q : result ResourceError (NodeId * list (Row * ResourceProvenance) * ResourcePosition) :=
  found ← query_rows b namespace k q;
  items ← merge_query_definitions k namespace found.1.2 found.1.1 (local_root b);
  Ok (local_root b, sort_by row_le items, found.2).
End rows.
End queries.
