(* ===== verification/MemQueryExact.v ===== *)
(** What a declared query answers: the rows of every source it may see whose
    fields are as it asks, semijoins read over every source too. *)

From Stdlib Require Import Ascii.
From S2P Require Import Text Encoding Address Names.
From S2P Require Import Prelude Ordered Schema Effects Kinds Inverted MessageIndex QueryIndex Digest MemStore MemInv MemReplica MemConverge MemReplace MemReplicas MemQuery.
#[local] Open Scope Z_scope.

(** * Checks *)

Lemma each_Ok {E A} (f : A -> result E unit) l : each f l = Ok tt <-> forall x, x ∈ l -> f x = Ok tt.
Proof.
  induction l as [|y l IH]; cbn; [set_solver|]. destruct (f y) as [[]|e] eqn:Hy; cbn.
  - rewrite IH. set_solver.
  - split; [done|]. intros H. rewrite (H y) in Hy by set_solver. done.
Qed.
Lemma collect_each {E A B} (f : A -> result E B) (P : A -> B -> Prop) l : (forall x, x ∈ l -> exists y, f x = Ok y /\ P x y) -> exists ys, collect f l = Ok ys /\ Forall2 P l ys.
Proof.
  induction l as [|x l IH]; intros Hl; cbn; [by exists []|]. destruct (Hl x) as (y & -> & Hy); [by left|]. destruct IH as (ys & -> & Hys); [intros z Hz; apply Hl; by right|].
  exists (y :: ys). by split; [|constructor].
Qed.
Lemma collect_Err {E A B} (f : A -> result E B) l e : collect f l = Err e -> exists x, x ∈ l /\ f x = Err e.
Proof.
  induction l as [|x l IH]; cbn; [done|]. destruct (f x) as [y|e'] eqn:Hx; cbn; [|intros [= ->]; exists x; set_solver].
  destruct (collect f l) as [ys|e']; cbn; [done|]. intros [= ->]. destruct (IH eq_refl) as (z & Hz & He). exists z. set_solver.
Qed.
(** A query is made of maps: each has a key once. *)
Fixpoint keyed_once (q : StoreQuery) : bool :=
  match q with
  | mkQuery _ _ field_values _ _ matches _ _ any_of _ _ _ _ _ _ _ _ =>
      bool_decide (NoDup field_values.*1) && bool_decide (NoDup matches.*1) && forallb (fun m => keyed_once m.2.2) matches &&
      match any_of with Some qs => forallb keyed_once qs | None => true end
  end.
Lemma keyed_once_inv q : keyed_once q = true -> NoDup (sq_field_values q).*1 /\ NoDup (sq_field_matches_query q).*1 /\
  (forall m, m ∈ sq_field_matches_query q -> keyed_once m.2.2 = true) /\ (forall qs sub, sq_any_of q = Some qs -> sub ∈ qs -> keyed_once sub = true).
Proof.
  destruct q as [l f fv fp mf ms me o any p lp all m ir ro sh su]. cbn. rewrite !andb_true_iff, !bool_decide_eq_true. intros [[[H1 H2] H3] H4].
  rewrite forallb_elem in H3. split_and!; [done|done|done|]. intros qs sub -> Hin. rewrite forallb_elem in H4. auto.
Qed.

(** No field is both asked for values and joined: of such a field the resolved
    query asks for one value that meets both ([values_intersected] in
    [MemQueryExamples] shows what that leaves out). *)
Fixpoint joins_apart (q : StoreQuery) : bool :=
  match q with
  | mkQuery _ _ field_values _ _ matches _ _ any_of _ _ _ _ _ _ _ _ =>
      forallb (fun m => bool_decide (m.1 ∉ (field_values.*1)) && joins_apart m.2.2) matches && match any_of with Some qs => forallb joins_apart qs | None => true end
  end.
Lemma joins_apart_inv q : joins_apart q = true -> (forall m, m ∈ sq_field_matches_query q -> (m.1 ∉ (sq_field_values q).*1) /\ joins_apart m.2.2 = true) /\
  (forall qs sub, sq_any_of q = Some qs -> sub ∈ qs -> joins_apart sub = true).
Proof.
  destruct q as [l f fv fp mf ms me o any p lp all m ir ro sh su]. cbn. rewrite andb_true_iff, forallb_elem. setoid_rewrite andb_true_iff. setoid_rewrite bool_decide_eq_true. intros [H1 H2].
  split; [exact H1|]. intros qs sub -> Hin. rewrite forallb_elem in H2. auto.
Qed.

Section exact.
Context {JS : Json} {CR : Carried} {SD : Serde} {MS : MessageSerde} {IX : IndexedSpecs} {SH : Sha256} {BC : Broadcast} {JT : JsonText}.
Context {D : Type} (kinds : list (ResourceKind D)).
Implicit Types (k : ResourceKind D) (q r : StoreQuery) (v : JValue).
#[local] Hint Extern 0 Declared => exact (declared_kinds kinds) : typeclass_instances.
Abbreviation keys_of := (index_keys declared).

(** * What a query means *)

(** Where a row is: in the store itself, or in the replica of a root. *)
Inductive Source : Type := FromLocal | FromRoot (origin : NodeId).
#[export] Instance Source_eq_dec : EqDecision Source.
Proof. solve_decision. Defined.

Section meaning.
Context (b : Backend) (namespace : string).
Definition holds_row k (src : Source) (n : string) v : Prop :=
  match src with
  | FromLocal => exists s, mb_stores b !! store_key k namespace = Some s /\ rs_objects s !! n = Some v
  | FromRoot origin => exists p, rst_partitions (mb_replicas b) !! (origin, store_key k namespace) = Some p /\ pt_objects p !! n = Some v
  end.
(** A replica of the store's own row that the row shadows. *)
Definition shadowed k q (origin : NodeId) (n : string) : Prop :=
  match sq_replica_shadowing q with
  | Some scope => origin = sh_origin_root scope /\ n ∈ sh_local_names scope
  | None => origin = local_root b /\ exists v, holds_row k FromLocal n v
  end.
Definition visible k q (src : Source) (n : string) : Prop :=
  match src with
  | FromLocal => sq_replicas_only q = false
  | FromRoot origin => sq_include_replicas q = true /\ rk_replication k <> RNone /\ ~ (sq_suppress_self_origin q = true /\ shadowed k q origin n)
  end.
(** The fields of a row are as a query asks. *)
Fixpoint satisfies k q v {struct q} : Prop :=
  match q with
  | mkQuery _ _ field_values _ missing matches _ _ any_of _ _ _ _ _ _ _ _ =>
      (forall key, key ∈ required_keys q -> key ∈ keys_of v) /\
      (forall path values, (path, values) ∈ field_values -> exists value, value ∈ values /\ (field_key path, value) ∈ keys_of v) /\
      (forall field prefix, (field, prefix) ∈ prefix_keys q -> exists value, (field, value) ∈ keys_of v /\ starts_with prefix value = true) /\
      (forall path, path ∈ missing -> (missing_key path, EmptyString) ∈ keys_of v) /\
      conj_all (map (fun m => let '(path, (source, field, sub)) := m in
        exists value, (field_key path, value) ∈ keys_of v /\
          exists k' src n' v', selection_kind kinds source k = Ok k' /\ holds_row k' src n' v' /\ visible k' sub src n' /\ satisfies k' sub v' /\ (field_key field, value) ∈ keys_of v') matches) /\
      match any_of with Some qs => foldr or False (map (fun alternative => satisfies k alternative v) qs) | None => True end
  end.
(** A row the query answers with: it satisfies the query, or, where every source
    of a matching name is hydrated, some row of its name does. *)
Definition answers k q (src : Source) (n : string) v : Prop :=
  holds_row k src n v /\ visible k q src n /\
  (if sq_all_sources_for_matches q then exists src' v', holds_row k src' n v' /\ satisfies k q v' else satisfies k q v) /\
  (forall message, sq_message q = Some message -> message_matches message v).
End meaning.
(** * Semijoins as values *)

Lemma join_values_lookup (asked : gmap string (list string)) joins path : NoDup joins.*1 ->
  foldl join_values asked joins !! path =
    match (list_to_map joins : gmap string (gset string)) !! path with
    | Some values => Some (match asked !! path with Some existing => filter (fun value => value ∈ values) existing | None => set_iter values end)
    | None => asked !! path
    end.
Proof.
  revert asked. induction joins as [|[p values] joins IH]; intros asked Hnd; cbn; [by rewrite lookup_empty|]. inversion Hnd as [|? ? Hp Hnd']; subst. cbn in Hp. rewrite IH by done.
  unfold join_values. cbn. destruct (decide (p = path)) as [->|Hne]; [|by rewrite !lookup_insert_ne].
  rewrite !lookup_insert_eq. by apply not_elem_of_list_to_map_1 in Hp as ->.
Qed.
(** The values a resolved query asks for are asked by the query or by a join. *)
Lemma joined_asks (fv : list (string * list string)) (joins : list (string * gset string)) (Q : string -> string -> Prop) : NoDup fv.*1 -> NoDup joins.*1 ->
  (forall path, path ∈ joins.*1 -> path ∉ fv.*1) ->
  (forall path values, (path, values) ∈ map_iter (foldl join_values (list_to_map fv) joins) -> exists value, value ∈ values /\ Q path value) <->
  (forall path values, (path, values) ∈ fv -> exists value, value ∈ values /\ Q path value) /\
  (forall path values, (path, values) ∈ joins -> exists value, value ∈ values /\ Q path value).
Proof.
  intros Hfv Hj Hap. assert (forall path values, (path, values) ∈ fv <-> (list_to_map fv : gmap string (list string)) !! path = Some values) as Hf by (intros; by apply elem_of_list_to_map).
  assert (forall path values, (path, values) ∈ joins <-> (list_to_map joins : gmap string (gset string)) !! path = Some values) as Hn by (intros; by apply elem_of_list_to_map).
  assert (forall path values, (list_to_map joins : gmap string (gset string)) !! path = Some values -> (list_to_map fv : gmap string (list string)) !! path = None) as Hno.
  { intros path values Hv%Hn. apply not_elem_of_list_to_map_1, Hap. by apply (list_elem_of_fmap_2 fst) in Hv. }
  setoid_rewrite elem_of_map_iter. setoid_rewrite Hf. setoid_rewrite Hn. setoid_rewrite (fun path => join_values_lookup (list_to_map fv) joins path Hj). split.
  - intros H. split.
    + intros path asked Ha. specialize (H path). destruct (list_to_map joins !! path) as [values|] eqn:Hv; [apply Hno in Hv; congruence|by apply H].
    + intros path values Hv. specialize (H path). rewrite Hv, (Hno path values Hv) in H. destruct (H _ eq_refl) as (value & Hin%elem_of_set_iter & HQ). by exists value.
  - intros [H1 H2] path values. specialize (H1 path). specialize (H2 path). destruct (list_to_map joins !! path) as [joined|] eqn:Hv; [|by apply H1]. rewrite (Hno path joined Hv).
    destruct (H2 _ eq_refl) as (value & Hin & HQ). intros [= <-]. exists value. split; [by apply elem_of_set_iter|done].
Qed.

Section store.
Context (b : Backend) (namespace : string).

(** What the parts of a query ask of a row. *)
Definition joins_to k (m : string * (option string * string * StoreQuery)) (value : string) : Prop :=
  exists k' src n' v', selection_kind kinds m.2.1.1 k = Ok k' /\ holds_row b namespace k' src n' v' /\ visible b namespace k' m.2.2 src n' /\ satisfies b namespace k' m.2.2 v' /\
    (field_key m.2.1.2, value) ∈ keys_of v'.
Definition wants k q v : Prop :=
  (forall key, key ∈ required_keys q -> key ∈ keys_of v) /\
  (forall path values, (path, values) ∈ sq_field_values q -> exists value, value ∈ values /\ (field_key path, value) ∈ keys_of v) /\
  (forall p, p ∈ prefix_keys q -> exists value, (p.1, value) ∈ keys_of v /\ starts_with p.2 value = true) /\
  (forall path, path ∈ sq_missing_fields q -> (missing_key path, EmptyString) ∈ keys_of v) /\
  (forall m, m ∈ sq_field_matches_query q -> exists value, (field_key m.1, value) ∈ keys_of v /\ joins_to k m value) /\
  (forall qs, sq_any_of q = Some qs -> exists sub, sub ∈ qs /\ satisfies b namespace k sub v).
Lemma satisfies_unfold k q v : satisfies b namespace k q v <-> wants k q v.
Proof.
  unfold wants, joins_to. destruct q as [labels fields fv prefixes missing matches merged owner any_of present label_prefixes all message replicas only shadow suppress].
  cbn [satisfies sq_field_values sq_missing_fields sq_field_matches_query sq_any_of]. match goal with |- context [required_keys ?x] => set (q := x) in * end. rewrite conj_all_map.
  assert (match any_of with Some qs => foldr or False (map (fun a => satisfies b namespace k a v) qs) | None => True end <->
    forall qs, any_of = Some qs -> exists sub, sub ∈ qs /\ satisfies b namespace k sub v) as -> by (destruct any_of as [qs|]; [rewrite disj_map; naive_solver|naive_solver]).
  split; intros (H1 & H2 & H3 & H4 & H5 & H6); (split_and!; [exact H1|exact H2| |exact H4| |exact H6]).
  - intros [field prefix]. apply H3.
  - intros [path [[source field] sub]] Hin. exact (H5 _ Hin).
  - intros field prefix. apply (H3 (field, prefix)).
  - intros [path [[source field] sub]] Hin. exact (H5 _ Hin).
Qed.
(** A resolved query selects what the query it stands for describes. *)
Definition stands_for k q r : Prop := forall objects v, selects declared objects r v <-> satisfies b namespace k q v.
Lemma resolved_selects k q joins alternatives : NoDup (sq_field_values q).*1 -> NoDup (sq_field_matches_query q).*1 ->
  (forall m, m ∈ sq_field_matches_query q -> m.1 ∉ (sq_field_values q).*1) ->
  Forall2 (fun m p => p.1 = m.1 /\ forall value, value ∈ p.2 <-> joins_to k m value) (sq_field_matches_query q) joins ->
  match sq_any_of q, alternatives with Some qs, Some rs => Forall2 (stands_for k) qs rs | None, None => True | _, _ => False end ->
  stands_for k q (with_values q (map_iter (foldl join_values (list_to_map (sq_field_values q)) joins)) alternatives).
Proof.
  intros Hfv Hm Hap Hj Ha objects v. rewrite satisfies_unfold, selects_unfold. unfold wanted, wants. cbn [with_values sq_field_values sq_missing_fields sq_field_matches_query sq_any_of].
  assert (joins.*1 = (sq_field_matches_query q).*1) as Hk by (clear -Hj; induction Hj as [|m p ms ps [Hp _] _ IH]; cbn; [done|by rewrite Hp, IH]).
  assert (NoDup joins.*1) as Hnd by by rewrite Hk.
  pose proof (joined_asks (sq_field_values q) joins (fun path value => (field_key path, value) ∈ keys_of v) Hfv Hnd) as Hask.
  lapply Hask; [clear Hask; intros Hask|rewrite Hk; intros path (m & -> & Hin)%list_elem_of_fmap; by apply Hap].
  assert ((forall p, p ∈ map_iter (foldl join_values (list_to_map (sq_field_values q)) joins) -> exists value, value ∈ p.2 /\ (field_key p.1, value) ∈ keys_of v) <->
    (forall path values, (path, values) ∈ sq_field_values q -> exists value, value ∈ values /\ (field_key path, value) ∈ keys_of v) /\
    (forall m, m ∈ sq_field_matches_query q -> exists value, (field_key m.1, value) ∈ keys_of v /\ joins_to k m value)) as ->.
  { transitivity (forall path values, (path, values) ∈ map_iter (foldl join_values (list_to_map (sq_field_values q)) joins) -> exists value, value ∈ values /\ (field_key path, value) ∈ keys_of v).
    - split; [intros H path values; apply (H (path, values))|intros H [path values]; apply H].
    - rewrite Hask. apply and_iff_compat_l. split.
      + intros H m Hin. apply list_elem_of_lookup in Hin as [i Hi]. destruct (Forall2_lookup_l _ _ _ _ _ Hj Hi) as ([path values] & Hp & He & Hv). cbn in *. subst path.
        destruct (H m.1 values) as (value & H1 & H2); [by apply list_elem_of_lookup_2 in Hp|]. exists value. by rewrite <-Hv.
      + intros H path values Hin. apply list_elem_of_lookup in Hin as [i Hi]. destruct (Forall2_lookup_r _ _ _ _ _ Hj Hi) as (m & Hp & He & Hv). cbn in *. subst path.
        destruct (H m) as (value & H1 & H2); [by apply list_elem_of_lookup_2 in Hp|]. exists value. by rewrite Hv. }
  assert ((forall qs, alternatives = Some qs -> exists sub, sub ∈ qs /\ selects declared objects sub v) <->
    forall qs, sq_any_of q = Some qs -> exists sub, sub ∈ qs /\ satisfies b namespace k sub v) as ->.
  { destruct (sq_any_of q) as [qs|], alternatives as [rs|]; try done. split; intros H ? [= <-]; destruct (H _ eq_refl) as (sub & (i & Hi)%list_elem_of_lookup & Hs).
    - destruct (Forall2_lookup_r _ _ _ _ _ Ha Hi) as (sub' & Hi' & He). exists sub'. split; [by apply list_elem_of_lookup_2 in Hi'|]. by apply He in Hs.
    - destruct (Forall2_lookup_l _ _ _ _ _ Ha Hi) as (sub' & Hi' & He). exists sub'. split; [by apply list_elem_of_lookup_2 in Hi'|]. by apply He. }
  assert (required_keys (with_values q (map_iter (foldl join_values (list_to_map (sq_field_values q)) joins)) alternatives) = required_keys q) as -> by by destruct q.
  assert (prefix_keys (with_values q (map_iter (foldl join_values (list_to_map (sq_field_values q)) joins)) alternatives) = prefix_keys q) as -> by by destruct q.
  split.
  - intros (H1 & [H2 H2'] & H3 & H4 & _ & H6). done.
  - intros (H1 & H2 & H3 & H4 & H5 & H6). split_and!; try done. by intros m Hin%elem_of_nil.
Qed.

(** * Valid queries *)

Lemma refuse_Ok (x : bool) message : refuse x message = Ok tt <-> x = false.
Proof. by destruct x. Qed.
Lemma check_Ok {E} (r : result E unit) (f : unit -> result E unit) : (x ← r; f x) = Ok tt <-> r = Ok tt /\ f tt = Ok tt.
Proof. destruct r as [[]|e]; cbn; naive_solver. Qed.
Definition join_valid k (depth : nat) (m : string * (option string * string * StoreQuery)) : Prop :=
  exists k', selection_kind kinds m.2.1.1 k = Ok k' /\ undeclared k' m.2.1.2 = false /\ validate_at kinds k' (S depth) m.2.2 = Ok tt.
Lemma validate_at_Ok k depth q : validate_at kinds k depth q = Ok tt <->
  unfit_for_hydration k q = false /\ bool_decide (8 < depth)%nat = false /\ (forall path, path ∈ query_paths q -> undeclared k path = false) /\ unfit_for_merge k depth q = false /\
  (forall m, m ∈ sq_field_matches_query q -> join_valid k depth m) /\ (forall qs sub, sq_any_of q = Some qs -> sub ∈ qs -> validate_at kinds k (S depth) sub = Ok tt) /\
  bool_decide (0 < depth)%nat && bool_decide (is_Some (sq_message q)) = false /\ bool_decide (is_Some (sq_message q)) && bool_decide (ap_kind (rk_paths k) <> "Message"%string) = false.
Proof.
  destruct q as [labels fields fv prefixes missing matches merged owner any_of present label_prefixes all message replicas only shadow suppress].
  cbn [validate_at sq_field_matches_query sq_any_of sq_message]. match goal with |- context [query_paths ?x] => set (q := x) in * end.
  rewrite !check_Ok, !refuse_Ok, !each_Ok. setoid_rewrite refuse_Ok. do 4 (apply and_iff_compat_l).
  assert ((forall m, m ∈ matches -> (let '(_, (source, field, sub)) := m in k' ← selection_kind kinds source k; _ ← refuse (undeclared k' field) "undeclared semijoin source field";
    validate_at kinds k' (S depth) sub) = Ok tt) <-> forall m, m ∈ matches -> join_valid k depth m) as ->.
  { unfold join_valid. split; intros H [path [[source field] sub]] Hin; specialize (H _ Hin); cbn in *; destruct (selection_kind kinds source k) as [k'|e]; cbn in *; try done.
    - rewrite check_Ok, refuse_Ok in H. by exists k'.
    - rewrite check_Ok, refuse_Ok. by destruct H as (? & [= <-] & H).
    - by destruct H as (? & ? & _). }
  apply and_iff_compat_l, and_iff_compat_r. destruct any_of as [qs|]; [rewrite each_Ok|]; naive_solver.
Qed.
(** Validation is stricter at a greater depth. *)
Lemma validate_shallower q : forall k depth depth', validate_at kinds k depth q = Ok tt -> (depth' <= depth)%nat -> validate_at kinds k depth' q = Ok tt.
Proof.
  induction q as [q Hm Ha] using query_ind. intros k depth depth' (H1 & H2 & H3 & H4 & H5 & H6 & H7 & H8)%validate_at_Ok Hle. apply validate_at_Ok. split_and!; [done| |done| | | | |done].
  - apply bool_decide_eq_false in H2. apply bool_decide_eq_false. lia.
  - unfold unfit_for_merge in *. destruct (sq_merged_definitions q); [|done]. cbn [andb] in *. revert H4. rewrite !orb_false_iff, !bool_decide_eq_false.
    intros H4. repeat match goal with H : _ /\ _ |- _ => destruct H end. split_and!; try done; lia.
  - intros m Hin. destruct (H5 m Hin) as (k' & Hk & Hu & Hv). exists k'. split_and!; [done|done|]. apply (Hm m Hin k' (S depth)); [done|lia].
  - intros qs sub Hq Hin. apply (Ha qs sub Hq Hin k (S depth)); [by apply (H6 qs)|lia].
  - destruct (bool_decide (is_Some (sq_message q))); [|apply andb_false_r]. rewrite andb_true_r in *. apply bool_decide_eq_false in H7. apply bool_decide_eq_false. lia.
Qed.

(** * Values *)

(** The indexes of every partition, own and replica, answer for its objects. *)
Record backend_ok : Prop := {
  bo_queries : forall key s, mb_stores b !! key = Some s -> query_index_ok declared (rs_objects s) (rs_queries s);
  bo_messages : forall key s, mb_stores b !! key = Some s -> message_index_ok (rs_objects s) (rs_messages s);
  bo_replicas : replicas_ok (mb_replicas b);
}.
Hypothesis Hb : backend_ok.
Lemma elem_of_partitions_at (key : StoreKey) (st : ReplicaState) origin p : (origin, p) ∈ partitions_at key st <-> rst_partitions st !! (origin, key) = Some p.
Proof.
  unfold partitions_at. rewrite list_elem_of_omap. split.
  - intros ([[o key'] p'] & Hin%elem_of_map_iter & He). cbn in He. case_bool_decide; [|done]. by simplify_eq.
  - intros Hp. exists ((origin, key), p). split; [by apply elem_of_map_iter|]. cbn. by rewrite bool_decide_true.
Qed.
Lemma own_names k q r s n : stands_for k q r -> mb_stores b !! store_key k namespace = Some s ->
  n ∈ query_names (rs_queries s) r <-> exists v, holds_row b namespace k FromLocal n v /\ satisfies b namespace k q v.
Proof.
  intros Hr Hs. rewrite (query_names_exact declared _ _ (bo_queries Hb _ _ Hs) r n). split.
  - intros (v & Hv & Hsel%Hr). exists v. split; [by exists s|done].
  - intros (v & (s' & Hs' & Hv) & Hsat). rewrite Hs in Hs'. injection Hs' as <-. exists v. split; [done|by apply Hr].
Qed.
Lemma replica_names k q r origin p n : stands_for k q r -> rst_partitions (mb_replicas b) !! (origin, store_key k namespace) = Some p ->
  n ∈ query_names (pt_queries p) r <-> exists v, holds_row b namespace k (FromRoot origin) n v /\ satisfies b namespace k q v.
Proof.
  intros Hr Hp. rewrite (query_names_exact declared _ _ (po_queries _ (bo_replicas Hb _ _ Hp)) r n). split.
  - intros (v & Hv & Hsel%Hr). exists v. split; [by exists p|done].
  - intros (v & (p' & Hp' & Hv) & Hsat). rewrite Hp in Hp'. injection Hp' as <-. exists v. split; [done|by apply Hr].
Qed.
Lemma held_once k src n v v' : holds_row b namespace k src n v -> holds_row b namespace k src n v' -> v = v'.
Proof. destruct src; cbn; naive_solver congruence. Qed.
Lemma local_names_held k n : n ∈ local_names (mb_stores b !! store_key k namespace) <-> exists v, holds_row b namespace k FromLocal n v.
Proof.
  unfold local_names, holds_row. destruct (mb_stores b !! store_key k namespace) as [s|]; cbn; [|set_solver]. rewrite elem_of_dom. unfold is_Some. naive_solver.
Qed.
Lemma shadowed_scope k q origin n : shadowed b namespace k q origin n <->
  let scope := default (mkShadowing (local_root b) (local_names (mb_stores b !! store_key k namespace))) (sq_replica_shadowing q) in
  origin = sh_origin_root scope /\ n ∈ sh_local_names scope.
Proof. unfold shadowed. destruct (sq_replica_shadowing q) as [scope|]; cbn; [done|]. by rewrite local_names_held. Qed.
(** The values of a field on the rows a query describes. *)
Definition projects k q (field value : string) : Prop :=
  exists src n v, holds_row b namespace k src n v /\ visible b namespace k q src n /\ satisfies b namespace k q v /\ (field_key field, value) ∈ keys_of v.
Lemma own_values k q r s field value : stands_for k q r -> mb_stores b !! store_key k namespace = Some s ->
  value ∈ query_values (rs_queries s) field (query_names (rs_queries s) r) <->
  exists n v, holds_row b namespace k FromLocal n v /\ satisfies b namespace k q v /\ (field_key field, value) ∈ keys_of v.
Proof.
  intros Hr Hs. rewrite (query_values_exact declared _ _ (bo_queries Hb _ _ Hs)). split.
  - intros (n & v & Hn & Hv & Hk). apply (own_names k q r s n Hr Hs) in Hn as (v' & Hh & Hsat). exists n, v'. split_and!; [done|done|].
    assert (v = v') as <- by (apply (held_once k FromLocal n); [by exists s|done]). done.
  - intros (n & v & Hh & Hsat & Hk). exists n, v. split_and!; [by apply (own_names k q r s n Hr Hs); exists v| |done].
    destruct Hh as (s' & Hs' & Hv). by simplify_eq.
Qed.
Lemma replica_values k q r origin p field value (keep : gset string -> gset string) (hides : string -> Prop) : stands_for k q r ->
  rst_partitions (mb_replicas b) !! (origin, store_key k namespace) = Some p -> (forall names n, n ∈ keep names <-> n ∈ names /\ ~ hides n) ->
  value ∈ query_values (pt_queries p) field (keep (query_names (pt_queries p) r)) <->
  exists n v, holds_row b namespace k (FromRoot origin) n v /\ ~ hides n /\ satisfies b namespace k q v /\ (field_key field, value) ∈ keys_of v.
Proof.
  intros Hr Hp Hkeep. rewrite (query_values_exact declared _ _ (po_queries _ (bo_replicas Hb _ _ Hp))). split.
  - intros (n & v & [Hn Hh]%Hkeep & Hv & Hk). apply (replica_names k q r origin p n Hr Hp) in Hn as (v' & Hheld & Hsat). exists n, v'.
    assert (v = v') as <- by (apply (held_once k (FromRoot origin) n); [by exists p|done]). done.
  - intros (n & v & Hheld & Hh & Hsat & Hk). exists n, v. split_and!; [| |done].
    + apply Hkeep. split; [|done]. apply (replica_names k q r origin p n Hr Hp). by exists v.
    + destruct Hheld as (p' & Hp' & Hv). by simplify_eq.
Qed.
Lemma values_of_exact k q values alternatives field value : let r := with_values q values alternatives in stands_for k q r ->
  value ∈ values_of b namespace k r field <-> projects k q field value.
Proof.
  intros r Hr. unfold values_of, projects. cbn [r with_values sq_replica_shadowing sq_replicas_only sq_include_replicas sq_suppress_self_origin]. fold r.
  set (scope := default _ _). pose proof (fun origin n => shadowed_scope k q origin n) as Hsh. cbv zeta in Hsh. fold scope in Hsh.
  set (hides origin n := sq_suppress_self_origin q = true /\ shadowed b namespace k q origin n).
  assert (forall origin names n, n ∈ (if sq_suppress_self_origin q && bool_decide (origin = sh_origin_root scope) then names ∖ sh_local_names scope else names) <->
    n ∈ names /\ ~ hides origin n) as Hkeep.
  { intros origin names n. unfold hides. rewrite Hsh. destruct (sq_suppress_self_origin q); cbn; [|naive_solver]. case_bool_decide; [rewrite elem_of_difference|]; naive_solver. }
  rewrite elem_of_union. split.
  - intros [Hv|Hv].
    + destruct (sq_replicas_only q) eqn:Ho; [set_solver|]. destruct (mb_stores b !! store_key k namespace) as [s|] eqn:Hs; [|set_solver]. cbn [from_option] in Hv.
      apply (own_values k q r s field value Hr Hs) in Hv as (n & v & H1 & H2 & H3). by exists FromLocal, n, v.
    + destruct (sq_include_replicas q && replicates k) eqn:Hi; [|set_solver]. apply andb_true_iff in Hi as [Hi Hk%bool_decide_eq_true].
      apply elem_of_union_map in Hv as ([origin p] & Hin%elem_of_partitions_at & Hv).
      apply (replica_values k q r origin p field value _ (hides origin) Hr Hin (Hkeep origin)) in Hv as (n & v & H1 & H2 & H3 & H4). by exists (FromRoot origin), n, v.
  - intros ([|origin] & n & v & Hh & Hvis & Hsat & Hk).
    + left. cbn in Hvis. rewrite Hvis. destruct Hh as (s & Hs & Hv). rewrite Hs. cbn. apply (own_values k q r s field value Hr Hs). exists n, v. split; [by exists s|done].
    + right. destruct Hvis as (Hi & Hrep & Hhid). rewrite Hi. unfold replicates. rewrite bool_decide_true by done. cbn [andb]. apply elem_of_union_map.
      pose proof Hh as (p & Hp & Hv). exists (origin, p). split; [by apply elem_of_partitions_at|]. apply (replica_values k q r origin p field value _ (hides origin) Hr Hp (Hkeep origin)). by exists n, v.
Qed.

(** A valid query resolves, to one that selects what it describes. *)
Lemma resolve_exact q : forall k depth, validate_at kinds k depth q = Ok tt -> keyed_once q = true -> joins_apart q = true ->
  exists values alternatives, resolve_semijoins kinds b namespace k q = Ok (with_values q values alternatives) /\ stands_for k q (with_values q values alternatives).
Proof.
  induction q as [q Hm Ha] using query_ind. intros k depth (_ & _ & _ & _ & Hjoin & Hany & _)%validate_at_Ok (Hfv & Hms & Hkm & Hka)%keyed_once_inv [Hap Haa]%joins_apart_inv.
  set (join := fun m : string * (option string * string * StoreQuery) => let '(path, (source, field, sub)) := m in
        k' ← selection_kind kinds source k;
        values ← project_values kinds b namespace k' sub field (resolve_semijoins kinds b namespace k' sub);
        Ok (path, values)).
  assert (forall m, m ∈ sq_field_matches_query q -> exists values, join m = Ok (m.1, values) /\ forall value, value ∈ values <-> joins_to k m value) as Hone.
  { intros m Hin. destruct (Hjoin m Hin) as (k' & Hk & Hu & Hv). destruct (Hm m Hin k' (S depth) Hv (Hkm m Hin) (proj2 (Hap m Hin))) as (vals & alts & Hres & Hst).
    assert (validate kinds k' m.2.2 = Ok tt) as Hv0 by (apply (validate_shallower m.2.2 k' (S depth)); [done|lia]).
    destruct m as [path [[source field] sub]]. cbn in *. rewrite Hk. cbn. unfold project_values, validate in *. rewrite Hv0, Hu, Hres. cbn. eexists. split; [done|]. intros value.
    rewrite (values_of_exact k' sub vals alts field value Hst). unfold projects, joins_to. cbn. rewrite Hk. split; [intros (src & n & v & H); exists k', src, n, v; naive_solver|naive_solver]. }
  destruct (collect_each join (fun m p => p.1 = m.1 /\ forall value, value ∈ p.2 <-> joins_to k m value) (sq_field_matches_query q)) as (joins & Hj & Hjs).
  { intros m Hin. destruct (Hone m Hin) as (vs & H1 & H2). by eexists. }
  assert (exists alternatives, match sq_any_of q with Some qs => qs' ← collect (resolve_semijoins kinds b namespace k) qs; Ok (Some qs') | None => Ok None end = Ok alternatives /\
    match sq_any_of q, alternatives with Some qs, Some rs => Forall2 (stands_for k) qs rs | None, None => True | _, _ => False end) as (alternatives & He & Halt).
  { destruct (sq_any_of q) as [qs|] eqn:Hqs; [|by exists None]. destruct (collect_each (resolve_semijoins kinds b namespace k) (stands_for k) qs) as (rs & Hrs & Hst).
    - intros sub Hin. destruct (Ha qs sub eq_refl Hin k (S depth)) as (vs & al & H1 & H2); [by apply (Hany qs)|by apply (Hka qs)|by apply (Haa qs)|]. by eexists.
    - exists (Some rs). by rewrite Hrs. }
  exists (map_iter (foldl join_values (list_to_map (sq_field_values q)) joins)), alternatives. split.
  - destruct q as [labels fields fv prefixes missing matches merged owner any_of present label_prefixes all message replicas only shadow suppress]. cbn [resolve_semijoins sq_any_of sq_field_matches_query sq_field_values] in *. fold join. rewrite Hj. cbn. rewrite He. done.
  - apply resolved_selects; try done. intros m Hin. by apply Hap.
Qed.

(** * Rows *)

Section rows.
Context {FM : QueryRowForm (D := D)} (k : ResourceKind D) (q : StoreQuery).
Abbreviation key := (store_key k namespace).
(** A row of a source, as it is read. *)
Definition FoundRow : Type := Source * string * JValue.
Definition provenance_at (src : Source) (n : string) (p : ResourceProvenance) : Prop :=
  match src with
  | FromLocal => p = Local
  | FromRoot origin => exists part at_, rst_partitions (mb_replicas b) !! (origin, key) = Some part /\ pt_synced_at_by_name part !! n = Some at_ /\ p = Replica origin at_
  end.
Definition reads_row (x : FoundRow) (item : Row * ResourceProvenance) : Prop := row_decode k x.2 = Ok item.1 /\ provenance_at x.1.1 x.1.2 item.2.
(** What reading the rows of a set of them gives: each once, or the error of one. *)
Definition reads_all (P : FoundRow -> Prop) (got : result ResourceError (list (Row * ResourceProvenance))) : Prop :=
  match got with
  | Ok items => exists found, NoDup found /\ (forall x, x ∈ found <-> P x) /\ Forall2 reads_row found items
  | Err e => exists x, P x /\ row_decode k x.2 = Err e
  end.
Lemma reads_all_nil (P : FoundRow -> Prop) : (forall x, ~ P x) -> reads_all P (Ok []).
Proof. intros HP. exists []. split_and!; [constructor| |constructor]. intros x. split; [by intros ?%elem_of_nil|]. by intros ?%HP. Qed.
Lemma reads_all_ext (P Q : FoundRow -> Prop) got : (forall x, P x <-> Q x) -> reads_all P got -> reads_all Q got.
Proof.
  intros HPQ. destruct got as [items|e]; cbn.
  - intros (found & H1 & H2 & H3). exists found. split_and!; [done| |done]. intros x. by rewrite H2.
  - intros (x & Hx%HPQ & He). by exists x.
Qed.
Lemma reads_all_app (P Q : FoundRow -> Prop) got1 got2 : reads_all P got1 -> reads_all Q got2 -> (forall x, P x -> Q x -> False) ->
  reads_all (fun x => P x \/ Q x) (l1 ← got1; l2 ← got2; Ok (l1 ++ l2)).
Proof.
  intros H1 H2 Hdis. destruct got1 as [l1|e]; cbn in *; [|destruct H1 as (x & Hx & He); exists x; auto].
  destruct got2 as [l2|e]; cbn in *; [|destruct H2 as (x & Hx & He); exists x; auto].
  destruct H1 as (f1 & Hn1 & He1 & Hr1), H2 as (f2 & Hn2 & He2 & Hr2). exists (f1 ++ f2). split_and!.
  - apply NoDup_app. split_and!; [done| |done]. intros x Hx%He1 Hx'%He2. by apply (Hdis x).
  - intros x. rewrite elem_of_app, He1, He2. done.
  - by apply Forall2_app.
Qed.
(** Rows read name by name. *)
Definition reads_name (src : Source) (f : string -> result ResourceError (Row * ResourceProvenance)) (n : string) : Prop :=
  exists v, holds_row b namespace k src n v /\ match row_decode k v with Ok row => exists item, f n = Ok item /\ item.1 = row /\ provenance_at src n item.2 | Err e => f n = Err e end.
Lemma collect_names src f l : NoDup l -> (forall n, n ∈ l -> reads_name src f n) ->
  reads_all (fun x => x.1.1 = src /\ x.1.2 ∈ l /\ holds_row b namespace k src x.1.2 x.2) (collect f l).
Proof.
  induction l as [|n l IH]; intros Hnd Hl; cbn; [apply reads_all_nil; intros x (_ & Hx%elem_of_nil & _); done|]. inversion Hnd as [|? ? Hn Hnd']; subst.
  destruct (Hl n) as (v & Hv & Hf); [by left|].
  assert (reads_all (fun x => x = (src, n, v)) (item ← f n; Ok [item])) as Hone.
  { destruct (row_decode k v) as [row|e] eqn:Hd; [destruct Hf as (item & -> & <- & Hp)|rewrite Hf; by exists (src, n, v)].
    exists [(src, n, v)]. split_and!; [apply NoDup_singleton|intros x; apply list_elem_of_singleton|]. by repeat constructor. }
  pose proof (IH Hnd' (fun m Hm => Hl m (list_elem_of_further _ _ _ Hm))) as Hrest.
  assert ((y ← f n; ys ← collect f l; Ok (y :: ys)) = (l1 ← (item ← f n; Ok [item]); l2 ← collect f l; Ok (l1 ++ l2))) as -> by by destruct (f n).
  eapply reads_all_ext; [|apply (reads_all_app _ _ _ _ Hone Hrest)].
  - intros [[src' m] w]. cbn. rewrite elem_of_cons. split.
    + intros [[= -> -> ->]|(-> & Hm & Hw)]; auto.
    + intros (-> & [->|Hm] & Hw); [left; by rewrite (held_once k src n w v Hw Hv)|auto].
  - intros x -> (_ & Hx & _). done.
Qed.

(** A row the selection of its partition takes. *)
Definition taken (n : string) v : Prop :=
  (if sq_all_sources_for_matches q then exists src' v', holds_row b namespace k src' n v' /\ satisfies b namespace k q v' else satisfies b namespace k q v) /\
  (forall message, sq_message q = Some message -> message_matches message v).
Section resolved.
Context (values : list (string * list string)) (alternatives : option (list StoreQuery)).
Abbreviation r := (with_values q values alternatives).
Hypothesis Hr : stands_for k q r.
Lemma is_shadowed_true origin n : is_shadowed b namespace k r origin n = true <-> shadowed b namespace k q origin n.
Proof.
  unfold is_shadowed, shadowed. cbn [with_values sq_replica_shadowing]. destruct (sq_replica_shadowing q) as [scope|]; rewrite andb_true_iff, !bool_decide_eq_true; [done|].
  unfold holds_row. destruct (mb_stores b !! key) as [s|]; cbn; [rewrite bool_decide_eq_true; unfold is_Some|]; naive_solver.
Qed.
Lemma elem_of_hydration n : sq_all_sources_for_matches q = true ->
  n ∈ hydration_names b namespace k r <-> exists src v, holds_row b namespace k src n v /\ satisfies b namespace k q v.
Proof.
  intros Hall. unfold hydration_names. cbn [with_values sq_all_sources_for_matches]. rewrite Hall, elem_of_union, elem_of_union_map. split.
  - intros [Hn|([origin p] & Hp%elem_of_partitions_at & Hn)].
    + destruct (mb_stores b !! key) as [s|] eqn:Hs; [|by apply elem_of_empty in Hn]. apply (own_names k q r s n Hr Hs) in Hn as (v & Hv). by exists FromLocal, v.
    + apply (replica_names k q r origin p n Hr Hp) in Hn as (v & Hv). by exists (FromRoot origin), v.
  - intros ([|origin] & v & Hv & Hsat).
    + left. pose proof Hv as (s & Hs & _). rewrite Hs. apply (own_names k q r s n Hr Hs). by exists v.
    + right. pose proof Hv as (p & Hp & _). exists (origin, p). split; [by apply elem_of_partitions_at|]. apply (replica_names k q r origin p n Hr Hp). by exists v.
Qed.
Lemma elem_of_selected src (objects : gmap string JValue) queries messages n : (forall n v, objects !! n = Some v <-> holds_row b namespace k src n v) ->
  (forall n, n ∈ query_names queries r <-> exists v, holds_row b namespace k src n v /\ satisfies b namespace k q v) -> message_index_ok objects messages ->
  n ∈ selected_names r (hydration_names b namespace k r) objects queries messages <-> exists v, holds_row b namespace k src n v /\ taken n v.
Proof.
  intros Hobj Hq Hm. unfold selected_names, taken. cbn [with_values sq_all_sources_for_matches sq_message].
  assert (n ∈ (if sq_all_sources_for_matches q then hydration_names b namespace k r ∩ dom objects else query_names queries r) <->
    exists v, holds_row b namespace k src n v /\ if sq_all_sources_for_matches q then exists src' v', holds_row b namespace k src' n v' /\ satisfies b namespace k q v' else satisfies b namespace k q v) as Hn.
  { destruct (sq_all_sources_for_matches q) eqn:Hall; [|apply Hq]. rewrite elem_of_intersection, elem_of_hydration, elem_of_dom by done. unfold is_Some. setoid_rewrite Hobj. naive_solver. }
  destruct (sq_message q) as [message|]; [|rewrite Hn; naive_solver]. rewrite elem_of_intersection, Hn, elem_of_list_to_set, (proj2 (message_query_exact _ _ message Hm)). setoid_rewrite Hobj. split.
  - intros [(v & Hv & Ht) (v' & Hv' & Hmm)]. exists v. rewrite (held_once k src n v' v Hv' Hv) in Hmm. split_and!; [done|done|]. by intros ? [= <-].
  - intros (v & Hv & Ht & Hmm). split; exists v; auto.
Qed.
Lemma own_rows_exact : reads_all (fun x => x.1.1 = FromLocal /\ answers b namespace k q x.1.1 x.1.2 x.2)
  match mb_stores b !! key with
  | Some s => if sq_replicas_only r then Ok [] else collect (own_row k s) (set_iter (selected_names r (hydration_names b namespace k r) (rs_objects s) (rs_queries s) (rs_messages s)))
  | None => Ok []
  end.
Proof.
  destruct (mb_stores b !! key) as [s|] eqn:Hs; [|apply reads_all_nil; intros [[src n] v] (-> & (s & Hs' & _) & _); cbn in *; congruence].
  cbn [with_values sq_replicas_only]. destruct (sq_replicas_only q) eqn:Ho; [apply reads_all_nil; intros [[src n] v] (-> & _ & Hvis & _); cbn in *; congruence|].
  assert (forall n v, rs_objects s !! n = Some v <-> holds_row b namespace k FromLocal n v) as Hobj by (intros n v; cbn; naive_solver congruence).
  pose proof (fun n => elem_of_selected FromLocal (rs_objects s) (rs_queries s) (rs_messages s) n Hobj (fun m => own_names k q r s m Hr Hs) (bo_messages Hb _ _ Hs)) as Hsel.
  eapply reads_all_ext; [|apply (collect_names FromLocal)].
  - intros [[src n] v]. cbn [fst snd]. rewrite elem_of_set_iter, Hsel. unfold answers. split.
    + intros (-> & (v' & Hv' & Ht) & Hv). rewrite (held_once k FromLocal n v' v Hv' Hv) in Ht. by destruct Ht.
    + intros (-> & Hv & _ & Ht). split_and!; [done|by exists v|done].
  - rewrite set_iter_perm. apply NoDup_elements.
  - intros n (v & Hv & _)%elem_of_set_iter%Hsel. exists v. split; [done|]. unfold own_row, indexed_object. apply Hobj in Hv as ->. cbn. destruct (row_decode k v) as [row|e]; cbn; [by eexists|done].
Qed.
Lemma replica_part_exact origin p : sq_include_replicas q = true -> rk_replication k <> RNone -> rst_partitions (mb_replicas b) !! (origin, key) = Some p ->
  reads_all (fun x => x.1.1 = FromRoot origin /\ answers b namespace k q x.1.1 x.1.2 x.2) (replica_query_rows b namespace k r (hydration_names b namespace k r) (origin, p)).
Proof.
  intros Hi Hk Hp. pose proof (bo_replicas Hb _ _ Hp) as Hok.
  assert (forall n v, pt_objects p !! n = Some v <-> holds_row b namespace k (FromRoot origin) n v) as Hobj by (intros n v; cbn; naive_solver congruence).
  pose proof (fun n => elem_of_selected (FromRoot origin) (pt_objects p) (pt_queries p) (pt_messages p) n Hobj (fun m => replica_names k q r origin p m Hr Hp) (po_messages _ Hok)) as Hsel.
  assert (forall n, negb (sq_suppress_self_origin r && is_shadowed b namespace k r origin n) = true <-> ~ (sq_suppress_self_origin q = true /\ shadowed b namespace k q origin n)) as Hsh.
  { intros n. rewrite <-is_shadowed_true. cbn [with_values sq_suppress_self_origin]. rewrite negb_true_iff, <-not_true_iff_false, andb_true_iff. done. }
  unfold replica_query_rows. cbn [fst snd]. eapply reads_all_ext; [|apply (collect_names (FromRoot origin))].
  - intros [[src n] v]. cbn [fst snd]. rewrite list_elem_of_filter, Hsh, elem_of_set_iter, Hsel. unfold answers. split.
    + intros (-> & [Hhid (v' & Hv' & Ht)] & Hv). rewrite (held_once k (FromRoot origin) n v' v Hv' Hv) in Ht. by destruct Ht.
    + intros (-> & Hv & (_ & _ & Hhid) & Ht). split_and!; [done|done|by exists v|done].
  - apply NoDup_filter. rewrite set_iter_perm. apply NoDup_elements.
  - intros n [_ (v & Hv & _)%elem_of_set_iter%Hsel]%list_elem_of_filter. exists v. split; [done|]. unfold replica_query_row. pose proof Hv as Hv'. apply Hobj in Hv' as Hx. rewrite Hx. cbn.
    destruct (row_decode k v) as [row|e]; cbn; [|done]. destruct (po_stamps _ Hok n) as [at_ Hat]; [by eexists|]. rewrite Hat. cbn. eexists. split_and!; [done|done|]. by exists p, at_.
Qed.
Lemma replica_parts_exact l : sq_include_replicas q = true -> rk_replication k <> RNone -> NoDup l.*1 -> (forall part, part ∈ l -> rst_partitions (mb_replicas b) !! (part.1, key) = Some part.2) ->
  reads_all (fun x => exists part, part ∈ l /\ x.1.1 = FromRoot part.1 /\ answers b namespace k q x.1.1 x.1.2 x.2)
    (rows ← collect (replica_query_rows b namespace k r (hydration_names b namespace k r)) l; Ok (concat rows)).
Proof.
  intros Hi Hk. induction l as [|[origin p] l IH]; intros Hnd Hl; cbn; [apply reads_all_nil; by intros x (part & Hx%elem_of_nil & _)|].
  cbn in Hnd. inversion Hnd as [|? ? Ho Hnd']; subst. pose proof (replica_part_exact origin p Hi Hk (Hl (origin, p) (list_elem_of_here _ _))) as Hone.
  pose proof (IH Hnd' (fun part Hin => Hl part (list_elem_of_further _ _ _ Hin))) as Hrest. set (f := replica_query_rows _ _ _ _ _) in *.
  assert ((rows ← (y ← f (origin, p); ys ← collect f l; Ok (y :: ys)); Ok (concat rows)) = (l1 ← f (origin, p); l2 ← (rows ← collect f l; Ok (concat rows)); Ok (l1 ++ l2))) as ->
    by (destruct (f (origin, p)); [|done]; by destruct (collect f l)).
  eapply reads_all_ext; [|apply (reads_all_app _ _ _ _ Hone Hrest)].
  - intros x. cbn. setoid_rewrite elem_of_cons. split; [intros [Hx|(part & Hin & Hx)]; [exists (origin, p); auto|exists part; auto]|]. intros (part & [->|Hin] & Hx); [by left|right; by exists part].
  - intros x [Hx _] (part & Hin & Hx' & _). rewrite Hx in Hx'. injection Hx' as ->. apply Ho. by apply list_elem_of_fmap_2.
Qed.
End resolved.
Lemma partitions_at_once (st : ReplicaState) : NoDup (partitions_at key st).*1.
Proof.
  unfold partitions_at. pose proof (NoDup_map_iter_fst (rst_partitions st)) as Hnd. induction (map_iter (rst_partitions st)) as [|[[origin key'] p] l IH]; cbn in *; [constructor|].
  inversion Hnd as [|? ? Hn Hnd']; subst. case_bool_decide as Hk; cbn; [|by apply IH]. constructor; [|by apply IH]. subst key'.
  intros (part & -> & ([[o k'] p'] & Hin & Hx)%list_elem_of_omap)%list_elem_of_fmap. cbn in Hx. case_bool_decide; [|done]. simplify_eq. apply Hn. by apply (list_elem_of_fmap_2 fst) in Hin.
Qed.
(** What a valid query gives: each row it answers with once, or the error of a
    row that does not decode. *)
Lemma query_rows_exact : validate kinds k q = Ok tt -> keyed_once q = true -> joins_apart q = true ->
  exists r got, sq_merged_definitions r = sq_merged_definitions q /\ query_rows kinds b namespace k q =
      (items ← got; Ok (items, r, mkPosition (version_text (from_option current_version 0 (mb_stores b !! key))) (mb_generation b))) /\
    reads_all (fun x => answers b namespace k q x.1.1 x.1.2 x.2) got.
Proof.
  intros Hv Hkeyed Hap. destruct (resolve_exact q k 0 Hv Hkeyed Hap) as (values & alternatives & Hres & Hst). eexists (with_values q values alternatives), (l1 ← _; l2 ← _; Ok (l1 ++ l2)).
  set (replicas := if sq_include_replicas q && replicates k
    then collect (replica_query_rows b namespace k (with_values q values alternatives) (hydration_names b namespace k (with_values q values alternatives))) (partitions_at key (mb_replicas b)) else Ok []).
  assert (reads_all (fun x => x.1.1 <> FromLocal /\ answers b namespace k q x.1.1 x.1.2 x.2) (rows ← replicas; Ok (concat rows))) as Hreps.
  { unfold replicas. destruct (sq_include_replicas q && replicates k) eqn:Hi.
    - apply andb_true_iff in Hi as [Hi Hk%bool_decide_eq_true]. eapply reads_all_ext; [|apply (replica_parts_exact values alternatives Hst _ Hi Hk (partitions_at_once (mb_replicas b)))].
      + intros [[src n] v]. cbn. split; [intros ([origin p] & _ & -> & Hx); done|]. intros [Hne Hx]. destruct src as [|origin]; [done|]. pose proof Hx as ((p & Hp & _) & _).
        exists (origin, p). split; [by apply elem_of_partitions_at|done].
      + intros [origin p]. apply elem_of_partitions_at.
    - apply reads_all_nil. intros [[[|origin] n] v] [Hne Hx]; [done|]. destruct Hx as (_ & (H1 & H2 & _) & _). rewrite H1 in Hi. unfold replicates in Hi. by rewrite bool_decide_true in Hi. }
  split; [done|]. split; [|eapply reads_all_ext; [|apply (reads_all_app _ _ _ _ (own_rows_exact values alternatives Hst) Hreps)]].
  - unfold query_rows. rewrite Hv, Hres. cbn [mbind result_bind]. fold replicas.
    match goal with |- (own ← ?a; _) = _ => destruct a as [own|e] end; [|done]. change (sq_include_replicas (with_values q values alternatives)) with (sq_include_replicas q). fold replicas. by destruct replicas.
  - intros [[[|origin] n] v]; cbn; [|split; [naive_solver|]; intros; right; done]. naive_solver.
  - intros x [Hx _] [Hx' _]. done.
Qed.
End rows.
End store.

(** * Reachable stores *)

Section reachable.
Context (Happart : forall k k', k ∈ kinds -> k' ∈ kinds -> of_kind k (store_key k' EmptyString) = true -> k = k').
Definition op_ok (op : BackendOp) : Prop := match op with BLocal k _ _ => k ∈ kinds | BReplica k _ op => k ∈ kinds /\ admissible op end.
(** Every partition is one its kind's operations leave. *)
Record backend_inv (b : Backend) : Prop := {
  bi_retention : (1 <= mb_event_retention b)%nat;
  bi_keys : forall key s, mb_stores b !! key = Some s -> exists k namespace, k ∈ kinds /\ key = store_key k namespace;
  bi_stores : forall k namespace s, k ∈ kinds -> mb_stores b !! store_key k namespace = Some s -> store_ok (retained_events (rk_event_history k) (mb_event_retention b)) k s;
  bi_replicas : replicas_ok (mb_replicas b);
}.
Lemma store_key_apart k k' namespace namespace' : k ∈ kinds -> k' ∈ kinds -> store_key k namespace = store_key k' namespace' -> k = k' /\ namespace = namespace'.
Proof. intros Hk Hk' He. injection He as H1 H2 H3 ->. split; [|done]. apply Happart; [done|done|]. apply bool_decide_eq_true. cbn. congruence. Qed.
Lemma retained_one h n : (1 <= n)%nat -> (1 <= retained_events h n)%nat.
Proof. destruct h; cbn; lia. Qed.
Lemma perform_backend_inv b op : backend_inv b -> op_ok op -> backend_inv (perform_backend kinds b op).
Proof.
  intros [Hret Hkeys Hst Hrep] Hop. destruct op as [k namespace op|k now op]; cbn in *.
  - set (retained := retained_events (rk_event_history k) (mb_event_retention b)). assert (store_ok retained k (default store_default (mb_stores b !! store_key k namespace))) as Hs.
    { destruct (mb_stores b !! store_key k namespace) as [s|] eqn:Hs; cbn; [by apply (Hst k namespace)|by apply store_default_ok, retained_one]. }
    split; cbn; [done| | |done].
    + intros key s [[<- _]|[_ Hl]]%lookup_insert_Some; [by exists k, namespace|by apply (Hkeys key s)].
    + intros k' namespace' s Hk' [[He <-]|[_ Hl]]%lookup_insert_Some; [|by apply (Hst k' namespace')].
      destruct (store_key_apart k k' namespace namespace' Hop Hk' He) as [<- <-]. apply (perform_good retained (retained_one _ _ Hret) k namespace op _ Hs).
  - destruct Hop as [Hk Ha]. split; cbn; [done|done|done|]. by apply perform_replica_ok.
Qed.
Lemma reachable_inv retention generation root ops : (1 <= retention)%nat -> Forall op_ok ops -> backend_inv (perform_backends kinds ops (backend_default retention generation root)).
Proof.
  intros Hret Hops. assert (backend_inv (backend_default retention generation root)) as H0.
  { split; cbn; [done|by intros key s ?%lookup_empty_Some|by intros k namespace s _ ?%lookup_empty_Some|]. intros key p Hp. cbn in Hp. by apply lookup_empty_Some in Hp. }
  revert H0. generalize (backend_default retention generation root) as b. induction Hops as [|op ops Hop _ IH]; intros b Hb; cbn; [done|]. apply IH. by apply perform_backend_inv.
Qed.
Lemma backend_inv_ok b : backend_inv b -> backend_ok b.
Proof.
  intros [_ Hkeys Hst Hrep]. split; [| |done].
  - intros key s Hs. destruct (Hkeys key s Hs) as (k & namespace & Hk & ->). apply (Hst k namespace s Hk Hs).
  - intros key s Hs. destruct (Hkeys key s Hs) as (k & namespace & Hk & ->). apply (Hst k namespace s Hk Hs).
Qed.
Lemma elem_of_local_namespaces b k namespace : namespace ∈ local_namespaces k b <-> exists s, mb_stores b !! store_key k namespace = Some s /\ rs_objects s <> ∅.
Proof.
  unfold local_namespaces. rewrite sort_by_perm, list_elem_of_omap. split.
  - intros ([[prefix name] s] & Hin%elem_of_map_iter & Hx). cbn in Hx. destruct (of_kind k (prefix, name)) eqn:Hk; [|done]. cbn in Hx. case_bool_decide; [|done]. injection Hx as ->.
    apply bool_decide_eq_true in Hk. cbn in Hk. subst prefix. by exists s.
  - intros (s & Hs & Hne). exists (store_key k namespace, s). split; [by apply elem_of_map_iter|]. cbn. unfold of_kind. rewrite !bool_decide_true by done. done.
Qed.
Lemma row_le_total {FM : QueryRowForm (D := D)} (x y : Row * ResourceProvenance) : row_le x y = false -> row_le y x = true.
Proof.
  unfold row_le. assert (bool_decide (row_name y.1 = row_name x.1) = bool_decide (row_name x.1 = row_name y.1)) as -> by (apply bool_decide_ext; naive_solver).
  case_bool_decide.
  - destruct x.2 as [|o t], y.2 as [|o' t']; cbn; try done. rewrite bool_decide_eq_false, bool_decide_eq_true. intros Hn. by destruct (String.le_total o o').
  - rewrite bool_decide_eq_false, bool_decide_eq_true. intros Hn. by destruct (String.le_total (row_name x.1) (row_name y.1)).
Qed.

(** C9: Whatever was done to a memory store and told it of replicas, a declared
    query that validates, and that does not both join a field and ask values of
    it, reads exactly the rows it describes, each once: those of its own
    partition and of every root's replica it may see, replicas of the store's own
    rows shadowed, whose fields are as asked, with semijoins read over the sources
    of the kind they name; where it hydrates, every source of a name that matches.
    A query that does not merge definitions answers with these rows, in order of
    name, local first, then origin; one that does, with what merging them gives,
    in that order. It fails only where the query is invalid, a row of it does not
    decode or they do not merge. *)
Theorem query_exact {FM : QueryRowForm (D := D)} {DM : DefinitionMerge} retention generation root ops namespace k q :
  (1 <= retention)%nat -> Forall op_ok ops -> keyed_once q = true -> joins_apart q = true ->
  let b := perform_backends kinds ops (backend_default retention generation root) in
  match validate kinds k q, query_rows kinds b namespace k q with
  | Err e, got => got = Err e /\ query_decoded_rows kinds b namespace k q = Err e
  | Ok _, Err e => (exists x, answers b namespace k q x.1.1 x.1.2 x.2 /\ row_decode k x.2 = Err e) /\ query_decoded_rows kinds b namespace k q = Err e
  | Ok _, Ok (items, r, position) =>
      (exists found, NoDup found /\ (forall x, x ∈ found <-> answers b namespace k q x.1.1 x.1.2 x.2) /\ Forall2 (reads_row b namespace k) found items) /\
      match merge_query_definitions k namespace r items (local_root b) with
      | Ok answered => (sq_merged_definitions q = false -> answered = items) /\
          exists shown, query_decoded_rows kinds b namespace k q = Ok (local_root b, shown, position) /\ shown ≡ₚ answered /\ Sorted row_le shown
      | Err e => sq_merged_definitions q = true /\ query_decoded_rows kinds b namespace k q = Err e
      end
  end.
Proof.
  intros Hret Hops Hkeyed Hap b. pose proof (backend_inv_ok b (reachable_inv retention generation root ops Hret Hops)) as Hb. unfold query_decoded_rows.
  destruct (validate kinds k q) as [[]|e] eqn:Hv; [|unfold query_rows; by rewrite Hv].
  destruct (query_rows_exact b namespace Hb k q Hv Hkeyed Hap) as (r & [items|e] & Hmq & -> & Hgot); cbn [mbind result_bind fst snd]; [|by split].
  split; [exact Hgot|]. unfold merge_query_definitions. rewrite Hmq. destruct (sq_merged_definitions q); cbn [mbind result_bind].
  - destruct (merged_rows _ _ _ _ _) as [answered|e]; cbn [mbind result_bind]; [|done]. split; [done|]. eexists. split_and!; [done|apply sort_by_perm|apply sort_by_sorted, row_le_total].
  - split; [done|]. eexists. split_and!; [done|apply sort_by_perm|apply sort_by_sorted, row_le_total].
Qed.
End reachable.
End exact.
