(* ===== verification/MemQueryExamples.v ===== *)
(** Declared queries on small inputs: convoys of a store and of another root,
    selected through the projects they name. *)

From Stdlib Require Import Ascii.
From S2P Require Import Text Encoding Address Names.
From S2P Require Import Prelude Ordered Schema Effects Kinds Inverted MessageIndex QueryIndex Digest MemStore MemInv MemReplica MemConverge MemReplace MemReplicas MemQuery MemQueryExact MemExamples.
#[local] Open Scope Z_scope.
#[local] Open Scope string_scope.
#[local] Existing Instance constant_digest.

Definition kind_of (plural kind : string) (replication : ReplicationClass) (fields : list string) : ResourceKind unit :=
  mkKind (mkPaths "flotilla.work" "v1" plural kind) replication Configured fields false (fun _ => Ok tt) (fun _ => Ok tt) (fun _ => Ok None) (fun _ _ => Ok tt)
    (fun _ _ => Ok tt) (fun _ _ => Ok tt) (fun _ _ _ => Ok tt).
Definition fleets : ResourceKind unit := kind_of "convoys" "Convoy" RHomeBoundRuntime ["metadata.name"; "spec.project"; "spec.tags.*"].
Definition projects : ResourceKind unit := kind_of "projects" "Project" RDefinitions ["metadata.name"; "spec.flow"].
Definition both : list (ResourceKind unit) := [fleets; projects].
Lemma both_apart k k' : k ∈ both -> k' ∈ both -> of_kind k (store_key k' EmptyString) = true -> k = k'.
Proof.
  unfold both. rewrite !elem_of_cons, !elem_of_nil. intros [->|[->|[]]] [->|[->|[]]]; (reflexivity || (vm_compute; discriminate)).
Qed.

Definition with_tags (p : string) (tags : list string) : tree := of_object [("project", TStr p); ("tags", of_array (map TStr tags))].
Definition flow (f : string) : tree := of_object [("flow", TStr f)].
Definition remote (name p : string) : ResourceObject := mkObject (mkMeta name "ns" "7" ∅ ∅ [] [] None 5 None) (with_tags p []) None.
(** Two convoys and a project here; from kiwi a convoy of its own and a copy of
    this root's, and another project. *)
Definition fleet_ops : list BackendOp :=
  [BLocal fleets "ns" (OCreate (named "a" []) (with_tags "apollo" ["red"; "blue"]) None 1); BLocal fleets "ns" (OCreate (named "b" []) (with_tags "gemini" []) None 2);
   BLocal projects "ns" (OCreate (named "apollo" []) (flow "release") None 3);
   BReplica fleets 4 ("kiwi", "ns", RBatch [(WAdded (remote "c" "apollo"), 10); (WAdded (remote "d" "vostok"), 11)]);
   BReplica fleets 4 ("feta", "ns", RBatch [(WAdded (remote "a" "apollo"), 12); (WAdded (remote "e" "apollo"), 12)])].
#[local] Abbreviation fleet := (perform_backends both fleet_ops (backend_default 4 None (Some "feta"))).
Definition ask (fields : list (string * string)) (values : list (string * list string)) (joins : list (string * (option string * string * StoreQuery))) (replicas : bool) : StoreQuery :=
  mkQuery [] fields values [] [] joins false None None [] [] false None replicas false None true.
(** Convoys of the projects that release. *)
Definition releasing : StoreQuery := ask [] [] [("spec.project", (Some "Project", "metadata.name", ask [("spec.flow", "release")] [] [] false))] true.
#[local] Instance raw_rows : QueryRowForm (D := unit) := SerializedRows.
(** Merging that keeps every row read, with no definitions of the program's own. *)
#[local] Instance every_row : DefinitionMerge := {| merge_cached := fun items _ => Ok items.*1; overlay_builtins := fun _ _ rows _ => Ok rows |}.
Definition shown_rows (q : StoreQuery) : option (list (string * option NodeId)) :=
  match query_decoded_rows both fleet "ns" fleets q with
  | Ok (_, items, _) => Some (map (fun i => (row_name i.1, match i.2 with Local => None | Replica origin _ => Some origin end)) items)
  | Err _ => None
  end.
(** The copy of this root's own convoy is shadowed; its other one is shown. *)
Example releasing_rows : shown_rows releasing = Some [("a", None); ("c", Some "kiwi"); ("e", Some "feta")].
Proof. vm_compute. reflexivity. Qed.
Example undeclared_refused : shown_rows (ask [("spec.flow", "release")] [] [] true) = None.
Proof. vm_compute. reflexivity. Qed.

(** A convoy has the tag red, and a tag that is the name of a convoy of apollo
    (blue): each is met on its own. Asked together of the one field, the values
    are intersected before they are matched, and no value is both. *)
Definition tagged (tag : string) : StoreQuery := ask [] [("spec.tags.*", [tag])] [] false.
Definition shares_tag (values : list (string * list string)) : StoreQuery := ask [] values [("spec.tags.*", (None, "metadata.name", ask [("spec.project", "apollo")] [] [] false))] false.
Definition named_blue : list BackendOp :=
  [BLocal fleets "ns" (OCreate (named "blue" []) (with_tags "apollo" []) None 1); BLocal fleets "ns" (OCreate (named "a" []) (with_tags "gemini" ["red"; "blue"]) None 2)].
Definition names_in (q : StoreQuery) : option (list string) :=
  match query_decoded_rows both (perform_backends both named_blue (backend_default 4 None None)) "ns" fleets q with Ok (_, items, _) => Some (map (fun i => row_name i.1) items) | Err _ => None end.
Example values_intersected : names_in (tagged "red") = Some ["a"] /\ names_in (shares_tag []) = Some ["a"] /\ names_in (shares_tag [("spec.tags.*", ["red"])]) = Some [].
Proof. vm_compute. auto. Qed.

Lemma fleet_ops_ok : Forall (op_ok both) fleet_ops.
Proof. unfold both. repeat constructor. Qed.
Lemma query_exact_witness : keyed_once releasing = true /\ joins_apart releasing = true /\ shown_rows releasing = Some [("a", None); ("c", Some "kiwi"); ("e", Some "feta")] /\
  exists items r position, query_rows both fleet "ns" fleets releasing = Ok (items, r, position) /\
    (exists found, NoDup found /\ (forall x, x ∈ found <-> answers both fleet "ns" fleets releasing x.1.1 x.1.2 x.2) /\ Forall2 (reads_row fleet "ns" fleets) found items) /\
    exists shown, query_decoded_rows both fleet "ns" fleets releasing = Ok ("feta", shown, position) /\ shown ≡ₚ items /\ Sorted row_le shown.
Proof.
  split; [reflexivity|]. split; [reflexivity|]. split; [vm_compute; reflexivity|].
  pose proof (query_exact both both_apart 4 None (Some "feta") fleet_ops "ns" fleets releasing ltac:(lia) fleet_ops_ok eq_refl eq_refl) as H. cbv zeta in H.
  assert (validate both fleets releasing = Ok tt) as Hv by (vm_compute; reflexivity). rewrite Hv in H.
  destruct (query_rows both fleet "ns" fleets releasing) as [[[items r] position]|e] eqn:Hq.
  - exists items, r, position. split; [reflexivity|]. destruct H as [Hfound H]. split; [exact Hfound|]. revert H. lazymatch goal with |- match ?m with Ok _ => _ | Err _ => _ end -> _ => generalize m end. intros [answered|e]; [|intros [H _]; discriminate].
    intros [He (shown & H)]. rewrite (He eq_refl) in H. exists shown. exact H.
  - exfalso. vm_compute in Hq. discriminate.
Defined.
