(* ===== verification/Merge.v ===== *)
(** Definitions merged from every author's copy
    ([crates/flotilla-store/src/definition.rs]): causal dots and contexts, the
    fields that are causally maximal, their conflicts, and what an apply, a
    delete and a metadata update write. *)

From Stdlib Require Import Ascii.
From S2P Require Import Text Encoding Address Names.
From S2P Require Import Prelude Ordered Schema Effects Kinds Inverted MessageIndex QueryIndex Digest MemStore MemReplica.
#[local] Open Scope Z_scope.

(** * Causal metadata *)

Inductive WriterRole : Type := Operator | ReconcileLoop | Actuator.
#[export] Instance WriterRole_eq_dec : EqDecision WriterRole.
Proof. solve_decision. Defined.
Record WriterIdentity : Type := mkWriter { wi_role : WriterRole; wi_source : option string; wi_store_authority : option NodeId }.
#[export] Instance WriterIdentity_eq_dec : EqDecision WriterIdentity.
Proof. solve_decision. Defined.
Definition with_source (w : WriterIdentity) (source : string) : WriterIdentity := mkWriter (wi_role w) (Some source) (wi_store_authority w).
Definition operator : WriterIdentity := mkWriter Operator None None.

Record CausalDot : Type := mkDot { cd_author_root : NodeId; cd_author_counter : Z }.
#[export] Instance CausalDot_eq_dec : EqDecision CausalDot.
Proof. solve_decision. Defined.
(** The derived order: the root, then the counter. *)
Definition dot_pair (d : CausalDot) : string * Z := (cd_author_root d, cd_author_counter d).
Definition dot_le (a b : CausalDot) : bool := bool_decide (ord_le (dot_pair a) (dot_pair b)).

Record FieldMergeMetadata : Type := mkFieldMerge {
  fm_dot : CausalDot;
  fm_seen : gmap NodeId Z;
  fm_written_at : Timestamp;
  fm_writer : option WriterIdentity;
}.
#[export] Instance FieldMergeMetadata_eq_dec : EqDecision FieldMergeMetadata.
Proof. solve_decision. Defined.

Section metadata.
Context {JS : Json}.
Record MergeConflictSibling : Type := mkSibling { ms_value : JValue; ms_dot : CausalDot; ms_written_at : Timestamp }.
#[export] Instance MergeConflictSibling_eq_dec : EqDecision MergeConflictSibling.
Proof. solve_decision. Defined.
Record MergeMetadata : Type := mkMerge {
  mm_fields : gmap string FieldMergeMetadata;
  mm_seen : gmap NodeId Z;
  mm_conflicts : gmap string (list MergeConflictSibling);
}.
#[export] Instance MergeMetadata_eq_dec : EqDecision MergeMetadata.
Proof. solve_decision. Defined.
#[export] Instance definitions_carried : Carried := {| Kinds.WriterIdentity := WriterIdentity; Kinds.MergeMetadata := MergeMetadata |}.
End metadata.

Definition no_merge {JS : Json} : MergeMetadata := mkMerge ∅ ∅ ∅.
Definition DELETION_FIELD : string := "$deleted".

(** [serde_json]'s objects and booleans: an object has its fields in key order. *)
Class JsonBuild `{Json} := {
  json_object : gmap string JValue -> JValue;
  json_bool : bool -> JValue;
  as_bool : JValue -> option bool;
  as_object_object m : as_object (json_object m) = Some (map_iter m);
  as_bool_bool b : as_bool (json_bool b) = Some b;
}.
(** A definitions kind's spec and its derived serde: a spec is an object and
    reads back from its fields; a field is always written, or left out at its
    default, so that a spec read from an object with the fields that are always
    written has no fields but the object's. *)
Class DefinitionKind `{JS : Json, JB : !JsonBuild} := {
  Spec : Type;
  kind_name : string;
  spec_to_value : Spec -> result string JValue;
  spec_from_value : JValue -> result string Spec;
  spec_fields s : exists v fields, spec_to_value s = Ok v /\ as_object v = Some fields;
  spec_from_fields s v fields : spec_to_value s = Ok v -> as_object v = Some fields -> spec_from_value (json_object (list_to_map fields)) = Ok s;
  always_written : gset string;
  spec_always s v fields f : spec_to_value s = Ok v -> as_object v = Some fields -> f ∈ always_written -> is_Some ((list_to_map fields : gmap string JValue) !! f);
  spec_adds_nothing m s v fields f : always_written ⊆ dom m -> spec_from_value (json_object m) = Ok s -> spec_to_value s = Ok v -> as_object v = Some fields ->
    is_Some ((list_to_map fields : gmap string JValue) !! f) -> is_Some (m !! f);
}.

Section merge.
Context {JS : Json} {JT : JsonText} {JB : JsonBuild} {DK : DefinitionKind}.

(** [ResourceObject<T>], and a copy with the root that wrote it. *)
Record DefinitionObject : Type := mkDefinition { df_metadata : ObjectMeta; df_spec : Spec; df_status : option JValue }.
Record DefinitionSource : Type := mkSource { sr_object : DefinitionObject; sr_origin : NodeId; sr_synced_at : option Timestamp }.
Record FieldCandidate : Type := mkCandidate { fc_value : JValue; fc_metadata : FieldMergeMetadata }.
Definition candidate_dot (c : FieldCandidate) : CausalDot := fm_dot (fc_metadata c).

(** * Contexts *)

Definition merge_counter (target : gmap NodeId Z) (root : NodeId) (counter : Z) : gmap NodeId Z :=
  <[root := from_option (fun current => Z.max current counter) counter (target !! root)]> target.
Definition merge_vector (target source : gmap NodeId Z) : gmap NodeId Z := foldl (fun t p => merge_counter t p.1 p.2) target (map_iter source).
Definition legacy_counter (o : DefinitionObject) : Z := default 1 (parse_u64 (tx (om_resource_version (df_metadata o)))).
Definition source_context (context : gmap NodeId Z) (s : DefinitionSource) : gmap NodeId Z :=
  match om_merge (df_metadata (sr_object s)) with
  | Some merge =>
      foldl (fun c field => merge_counter c (cd_author_root (fm_dot field)) (cd_author_counter (fm_dot field)))
        (merge_vector context (mm_seen merge)) (map_iter (mm_fields merge)).*2
  | None => merge_counter context (sr_origin s) (legacy_counter (sr_object s))
  end.
Definition causal_context (sources : list DefinitionSource) : gmap NodeId Z := foldl source_context ∅ sources.
Definition covers (seen : gmap NodeId Z) (dot : CausalDot) : bool :=
  from_option (fun counter => bool_decide (cd_author_counter dot <= counter)) false (seen !! cd_author_root dot).

(** * Candidates *)

(** A field without metadata counts as written with the record. *)
Definition legacy_field (s : DefinitionSource) : FieldMergeMetadata :=
  mkFieldMerge (mkDot (sr_origin s) (legacy_counter (sr_object s))) ∅ (default (om_creation_timestamp (df_metadata (sr_object s))) (sr_synced_at s)) None.
Definition field_metadata (s : DefinitionSource) (path : string) : FieldMergeMetadata :=
  default (legacy_field s) (om_merge (df_metadata (sr_object s)) ≫= fun merge => mm_fields merge !! path).
Definition spec_path (field : string) : string := ("spec." +:+ field)%string.
Definition spec_object (spec : Spec) : result ResourceError (gmap string JValue) :=
  v ← map_err (fun e => decode_error ("encode definition spec: " +:+ e)%string) (spec_to_value spec);
  fields ← ok_or (as_object v) (decode_error "definition spec is not a JSON object");
  Ok (list_to_map fields).
(** What a source has to say on each path: its spec's fields and whether it is deleted. *)
Definition is_deleted (o : DefinitionObject) : bool := bool_decide (is_Some (om_deletion_timestamp (df_metadata o))).
Definition source_entries (s : DefinitionSource) : result ResourceError (list (string * FieldCandidate)) :=
  spec ← spec_object (df_spec (sr_object s));
  Ok (((fun p => (spec_path p.1, mkCandidate p.2 (field_metadata s (spec_path p.1)))) <$> map_iter spec) ++
      [(DELETION_FIELD, mkCandidate (json_bool (is_deleted (sr_object s))) (field_metadata s DELETION_FIELD))]).
Definition push_candidate (m : gmap string (list FieldCandidate)) (entry : string * FieldCandidate) : gmap string (list FieldCandidate) :=
  <[entry.1 := default [] (m !! entry.1) ++ [entry.2]]> m.
Definition field_candidates (sources : list DefinitionSource) : result ResourceError (gmap string (list FieldCandidate)) :=
  entries ← collect source_entries sources; Ok (foldl push_candidate ∅ (concat entries)).

(** [causally_maximal]: no other write saw it. (One candidate has one dot, so
    the source's test that the two are not the same one is not needed.) *)
Definition overwrites (other candidate : FieldCandidate) : bool :=
  bool_decide (candidate_dot other <> candidate_dot candidate) && covers (fm_seen (fc_metadata other)) (candidate_dot candidate).
Definition causally_maximal (candidates : list FieldCandidate) : list FieldCandidate :=
  filter (fun candidate => existsb (fun other => overwrites other candidate) candidates = false) candidates.

(** * Merging *)

(** The distinct maximal values of a field, by their dots. *)
Definition add_distinct (m : gmap string FieldCandidate) (c : FieldCandidate) : result ResourceError (gmap string FieldCandidate) :=
  key ← map_err (fun e => decode_error ("encode merged definition field: " +:+ e)%string) (json_text (fc_value c));
  Ok (match m !! key with Some _ => m | None => <[key := c]> m end).
Definition candidate_le (a b : FieldCandidate) : bool := dot_le (candidate_dot a) (candidate_dot b).
Definition field_values (candidates : list FieldCandidate) : result ResourceError (list FieldCandidate) :=
  distinct ← try_fold add_distinct ∅ (causally_maximal candidates); Ok (sort_by candidate_le (map_iter distinct).*2).
Definition merge_field (row : string * list FieldCandidate) : result ResourceError (string * (FieldCandidate * list FieldCandidate)) :=
  values ← field_values row.2;
  chosen ← ok_or (head values) (decode_error "definition field has no maximal value");
  Ok (row.1, (chosen, values)).
(** The chosen value and the distinct maximal ones of every path. *)
Definition merged_fields (sources : list DefinitionSource) : result ResourceError (gmap string (FieldCandidate * list FieldCandidate)) :=
  candidates ← field_candidates sources; rows ← collect merge_field (map_iter candidates); Ok (list_to_map rows).

Definition sibling_of (c : FieldCandidate) : MergeConflictSibling := mkSibling (fc_value c) (candidate_dot c) (fm_written_at (fc_metadata c)).
Definition conflicts_of (fields : gmap string (FieldCandidate * list FieldCandidate)) : gmap string (list MergeConflictSibling) :=
  omap (fun r => if bool_decide (1 < length r.2)%nat then Some (sibling_of <$> r.2) else None) fields.
Definition deleted_at (fields : gmap string (FieldCandidate * list FieldCandidate)) : option Timestamp :=
  r ← fields !! DELETION_FIELD; if default false (as_bool (fc_value r.1)) then Some (fm_written_at (fc_metadata r.1)) else None.
Definition field_of_path (path : string) : option string :=
  if bool_decide (path = DELETION_FIELD) then None else rest ← Text.strip_prefix (tx "spec.") (tx path); Some (str rest).
Definition merged_spec (fields : gmap string (FieldCandidate * list FieldCandidate)) : gmap string JValue :=
  list_to_map (omap (fun p => field ← field_of_path p.1; Some (field, fc_value p.2.1)) (map_iter fields)).
Definition origin_le (a b : DefinitionSource) : bool := bool_decide (ord_le (sr_origin a) (sr_origin b)).
Definition source_version (s : DefinitionSource) : string := (sr_origin s +:+ ":" +:+ om_resource_version (df_metadata (sr_object s)))%string.
Definition with_merge (m : ObjectMeta) (version : string) (deleted : option Timestamp) (merge : MergeMetadata) : ObjectMeta :=
  mkMeta (om_name m) (om_namespace m) version (om_labels m) (om_annotations m) (om_owner_references m) (om_finalizers m) deleted (om_creation_timestamp m) (Some merge).
Definition merge_sources (sources : list DefinitionSource) : result ResourceError DefinitionObject :=
  let context := causal_context sources in
  let sources := sort_by origin_le sources in
  fields ← merged_fields sources;
  source ← ok_or (head sources) (decode_error "cannot merge an empty definition source set");
  spec ← map_err (fun e => decode_error ("decode merged definition spec: " +:+ e)%string) (spec_from_value (json_object (merged_spec fields)));
  Ok (mkDefinition
    (with_merge (df_metadata (sr_object source)) (String.concat "," (source_version <$> sources)) (deleted_at fields)
      (mkMerge (fc_metadata ∘ fst <$> fields) context (conflicts_of fields)))
    spec (df_status (sr_object source))).
Definition merge_definition_copies (copies : list (DefinitionObject * NodeId)) : result ResourceError DefinitionObject :=
  merge_sources ((fun c => mkSource c.1 c.2 None) <$> copies).

(** A deleted definition is seen only while its deletion is in conflict. *)
Definition definition_is_visible (o : DefinitionObject) : bool :=
  let merge := om_merge (df_metadata o) in
  let deleted := bool_decide (is_Some (merge ≫= fun m => mm_fields m !! DELETION_FIELD)) && is_deleted o in
  negb deleted || bool_decide (is_Some (merge ≫= fun m => mm_conflicts m !! DELETION_FIELD)).

(** [merge_cached_definitions]: the sources by name, each merged. *)
Definition source_of_read (local_root : NodeId) (item : DefinitionObject * ResourceProvenance) : DefinitionSource :=
  match item.2 with
  | Local => mkSource item.1 local_root None
  | Replica origin last_synced_at => mkSource item.1 origin (Some last_synced_at)
  end.
Definition by_definition (sources : list DefinitionSource) : gmap (string * string) (list DefinitionSource) :=
  foldl (fun m s => let key := (om_namespace (df_metadata (sr_object s)), om_name (df_metadata (sr_object s))) in <[key := default [] (m !! key) ++ [s]]> m) ∅ sources.
Definition merge_cached_definitions (items : list (DefinitionObject * ResourceProvenance)) (local_root : NodeId) : result ResourceError (list DefinitionObject) :=
  objects ← collect (fun p => merge_sources p.2) (map_iter (by_definition (source_of_read local_root <$> items)));
  Ok (filter (fun o => definition_is_visible o = true) objects).

(** * Writing *)

(** What a write does to the store: nothing, or the local record it writes. *)
Record DefinitionWrite : Type := mkWrite { dw_meta : InputMeta; dw_spec : Spec; dw_merge : MergeMetadata }.
Definition with_deletion (m : InputMeta) (t : option Timestamp) : InputMeta :=
  mkInput (im_name m) (im_labels m) (im_annotations m) (im_owner_references m) (im_finalizers m) t.
#[export] Instance InputMeta_eq_dec : EqDecision InputMeta.
Proof. solve_decision. Defined.
Definition next_dot (context : gmap NodeId Z) (local_root : NodeId) : CausalDot := mkDot local_root (u64_saturating_add (default 0 (context !! local_root)) 1).
Definition merge_of (current : option DefinitionObject) : MergeMetadata := default no_merge (current ≫= fun o => om_merge (df_metadata o)).
(** The metadata a write leaves: the deletion field stamped, the write seen and
    the conflicts cleared. *)
Definition stamped_merge (context : gmap NodeId Z) (dot : CausalDot) (stamp : FieldMergeMetadata) (fields : gmap string FieldMergeMetadata) : MergeMetadata :=
  mkMerge (<[DELETION_FIELD := stamp]> fields) (<[cd_author_root dot := cd_author_counter dot]> context) ∅.

Section apply.
Context (current : option DefinitionObject) (current_spec : option (gmap string JValue)) (requested : gmap string JValue) (stamp : FieldMergeMetadata).
Definition value_changed (p : string * JValue) : bool := bool_decide ((current_spec ≫= fun spec => spec !! p.1) <> Some p.2).
(** Without a change, an apply settles the conflicts it reads. *)
Definition resolves_existing_view : bool := bool_decide (is_Some current) && negb (existsb value_changed (map_iter requested)).
Definition restamps (p : string * JValue) : bool :=
  value_changed p || (resolves_existing_view && bool_decide (is_Some (mm_conflicts (merge_of current) !! spec_path p.1))) || bool_decide (current = None).
Definition applied_fields : gmap string FieldMergeMetadata :=
  foldl (fun m p => if restamps p then <[spec_path p.1 := stamp]> m else m) (mm_fields (merge_of current)) (map_iter requested).
End apply.

(** [apply_as], from the sources it read to the record it writes. *)
Definition plan_apply (local_root : NodeId) (writer : WriterIdentity) (meta : InputMeta) (spec : Spec) (now : Timestamp) (sources : list DefinitionSource)
    : result ResourceError (DefinitionObject + DefinitionWrite) :=
  current ← match sources with [] => Ok None | _ => o ← merge_sources sources; Ok (Some o) end;
  let admitted := with_deletion meta None in
  requested ← spec_object spec;
  current_spec ← match current with None => Ok None | Some o => fields ← spec_object (df_spec o); Ok (Some fields) end;
  let metadata_changed := from_option (fun o => bool_decide (input_of (df_metadata o) <> admitted)) false current in
  let context := causal_context sources in
  let dot := next_dot context local_root in
  let stamp := mkFieldMerge dot context now (Some writer) in
  let changed := bool_decide (current_spec = None) || metadata_changed || existsb (restamps current current_spec requested) (map_iter requested) ||
    bool_decide (is_Some (mm_conflicts (merge_of current) !! DELETION_FIELD)) || from_option is_deleted false current in
  if changed then Ok (inr (mkWrite admitted spec (stamped_merge context dot stamp (applied_fields current current_spec requested stamp))))
  else o ← ok_or current (NotFound (im_name meta)); Ok (inl o).

(** [delete], from the sources it read; it reads the clock twice. *)
Definition plan_delete (local_root : NodeId) (name : string) (now marked : Timestamp) (sources : list DefinitionSource) : result ResourceError DefinitionWrite :=
  match sources with
  | [] => Err (NotFound name)
  | _ =>
      current ← merge_sources sources;
      let context := causal_context sources in
      let dot := next_dot context local_root in
      let stamp := mkFieldMerge dot context now (Some (with_source operator "definition-delete")) in
      Ok (mkWrite (with_deletion (input_of (df_metadata current)) (Some marked)) (df_spec current) (stamped_merge context dot stamp (mm_fields (merge_of (Some current)))))
  end.

(** [get], of a name that is not built in: merged, if it is to be seen. *)
Definition get_merged (name : string) (sources : list DefinitionSource) : result ResourceError DefinitionObject :=
  match sources with
  | [] => Err (NotFound name)
  | _ => o ← merge_sources sources; if definition_is_visible o then Ok o else Err (NotFound name)
  end.
(** [update_metadata], from the sources it read: the merged metadata again. *)
Definition plan_metadata (meta : InputMeta) (sources : list DefinitionSource) : result ResourceError DefinitionWrite :=
  current ← get_merged (im_name meta) sources; Ok (mkWrite meta (df_spec current) (merge_of (Some current))).
End merge.
