(* ===== verification/MergeFacts.v ===== *)
(** Merging definitions: contexts as maxima of what the sources know, the
    candidates of a path, the distinct maximal values, and what a merge gives. *)

From Stdlib Require Import Ascii.
From S2P Require Import Text Encoding Address Names.
From S2P Require Import Prelude Ordered Schema Effects Kinds Inverted MessageIndex QueryIndex Digest MemStore MemWatch MemReplica Merge.
#[local] Open Scope Z_scope.

(** * Counters *)

Section counters.
Definition known (v : gmap NodeId Z) (root : NodeId) : Z := default 0 (v !! root).
Definition count_all (facts : list (NodeId * Z)) (v : gmap NodeId Z) : gmap NodeId Z := foldl (fun t p => merge_counter t p.1 p.2) v facts.
Implicit Types (v : gmap NodeId Z) (facts : list (NodeId * Z)).

Lemma merge_counter_comm v r1 c1 r2 c2 : merge_counter (merge_counter v r1 c1) r2 c2 = merge_counter (merge_counter v r2 c2) r1 c1.
Proof.
  unfold merge_counter. destruct (decide (r1 = r2)) as [->|Hr].
  - rewrite !lookup_insert_eq, !insert_insert_eq. f_equal. destruct (v !! r2); cbn; lia.
  - rewrite !lookup_insert_ne by done. by rewrite insert_insert_ne.
Qed.
Lemma count_all_perm facts1 facts2 v : facts1 ≡ₚ facts2 -> count_all facts1 v = count_all facts2 v.
Proof.
  intros Hp. revert v. unfold count_all. induction Hp as [|x l1 l2 _ IH|x y l|l1 l2 l3 _ IH1 _ IH2]; intros v; cbn; [done|apply IH|by rewrite merge_counter_comm|by rewrite IH1].
Qed.
Lemma count_all_lookup facts v root c : count_all facts v !! root = Some c -> v !! root = Some c \/ (root, c) ∈ facts.
Proof.
  revert v. induction facts as [|[r n] facts IH]; intros v; cbn; [by left|]. intros [Hv|Hf]%IH; [|right; set_solver]. unfold merge_counter in Hv.
  destruct (decide (r = root)) as [->|Hr]; [|rewrite lookup_insert_ne in Hv by done; by left]. rewrite lookup_insert_eq in Hv. injection Hv as <-.
  destruct (v !! root) as [x|] eqn:Hx; cbn; [|right; set_solver]. destruct (Z.max_spec x n) as [[_ ->]|[_ ->]]; [right; set_solver|by left].
Qed.
Lemma count_all_grows facts v root c : v !! root = Some c -> exists c', count_all facts v !! root = Some c' /\ c <= c'.
Proof.
  revert v c. induction facts as [|[r n] facts IH]; intros v c Hv; cbn; [by exists c|]. destruct (decide (r = root)) as [->|Hr].
  - destruct (IH (merge_counter v root n) (Z.max c n)) as (c' & Hc' & Hle); [unfold merge_counter; rewrite Hv; cbn; by rewrite lookup_insert_eq|]. exists c'. split; [done|lia].
  - apply IH. unfold merge_counter. by rewrite lookup_insert_ne.
Qed.
Lemma count_all_fact facts v root c : (root, c) ∈ facts -> exists c', count_all facts v !! root = Some c' /\ c <= c'.
Proof.
  revert v. induction facts as [|[r n] facts IH]; intros v; [set_solver|]. intros [Heq|Hin]%elem_of_cons; cbn; [|by apply IH]. injection Heq as <- <-.
  destruct (count_all_grows facts (merge_counter v root c) root (from_option (fun x => Z.max x c) c (v !! root))) as (c' & Hc' & Hle); [unfold merge_counter; by rewrite lookup_insert_eq|].
  exists c'. split; [done|]. destruct (v !! root); cbn in Hle; lia.
Qed.
End counters.

Section facts.
Context {JS : Json} {JT : JsonText} {JB : JsonBuild} {DK : DefinitionKind}.
Implicit Types (s : DefinitionSource) (sources : list DefinitionSource) (c : FieldCandidate) (o : DefinitionObject).

(** What a source tells of the counters of roots. *)
Definition dot_fact (field : FieldMergeMetadata) : NodeId * Z := (cd_author_root (fm_dot field), cd_author_counter (fm_dot field)).
Definition source_facts s : list (NodeId * Z) :=
  match om_merge (df_metadata (sr_object s)) with
  | Some merge => map_iter (mm_seen merge) ++ (dot_fact <$> (map_iter (mm_fields merge)).*2)
  | None => [(sr_origin s, legacy_counter (sr_object s))]
  end.
Lemma causal_context_facts sources : causal_context sources = count_all (flat_map source_facts sources) ∅.
Proof.
  unfold causal_context. generalize (∅ : gmap NodeId Z). induction sources as [|s sources IH]; intros v; cbn; [done|]. rewrite IH. unfold count_all. rewrite foldl_app. f_equal.
  unfold source_context, source_facts. destruct (om_merge _) as [m|]; [|done]. rewrite foldl_app. unfold merge_vector. generalize ((map_iter (mm_fields m)).*2). intros l. by rewrite foldl_fmap.
Qed.
Lemma causal_context_perm sources1 sources2 : sources1 ≡ₚ sources2 -> causal_context sources1 = causal_context sources2.
Proof. intros Hp. rewrite !causal_context_facts. apply count_all_perm. by rewrite Hp. Qed.
Lemma elem_of_facts sources fact : fact ∈ flat_map source_facts sources <-> exists s, s ∈ sources /\ fact ∈ source_facts s.
Proof. rewrite list_elem_of_In, in_flat_map. setoid_rewrite <-list_elem_of_In. done. Qed.
Lemma context_fact sources s root n : s ∈ sources -> (root, n) ∈ source_facts s -> exists n', causal_context sources !! root = Some n' /\ n <= n'.
Proof. intros Hs Hf. rewrite causal_context_facts. apply count_all_fact, elem_of_facts. by exists s. Qed.
Lemma context_from sources root n : causal_context sources !! root = Some n -> exists s, s ∈ sources /\ (root, n) ∈ source_facts s.
Proof. rewrite causal_context_facts. intros [He|Hf]%count_all_lookup; [by rewrite lookup_empty in He|]. by apply elem_of_facts. Qed.

(** * Candidates *)

Lemma spec_object_Ok (spec : Spec) : exists fields, spec_object spec = Ok fields /\ spec_from_value (json_object fields) = Ok spec.
Proof.
  destruct (spec_fields spec) as (v & l & Hv & Hl). exists (list_to_map l). unfold spec_object. rewrite Hv. cbn. rewrite Hl. cbn. split; [done|]. by apply (spec_from_fields spec v).
Qed.
Definition fields_of (spec : Spec) : gmap string JValue := match spec_object spec with Ok fields => fields | Err _ => ∅ end.
Lemma spec_object_fields spec : spec_object spec = Ok (fields_of spec).
Proof. unfold fields_of. destruct (spec_object_Ok spec) as (fields & -> & _). done. Qed.
Lemma spec_of_fields spec : spec_from_value (json_object (fields_of spec)) = Ok spec.
Proof. unfold fields_of. destruct (spec_object_Ok spec) as (fields & -> & H). done. Qed.

Lemma fields_always spec f : f ∈ always_written -> is_Some (fields_of spec !! f).
Proof.
  intros Hf. destruct (spec_fields spec) as (v & l & Hv & Hl). unfold fields_of, spec_object. rewrite Hv. cbn. rewrite Hl. by apply (spec_always spec v).
Qed.
Lemma fields_from m spec f : always_written ⊆ dom m -> spec_from_value (json_object m) = Ok spec -> is_Some (fields_of spec !! f) -> is_Some (m !! f).
Proof.
  intros Ha Hs. destruct (spec_fields spec) as (v & l & Hv & Hl). unfold fields_of, spec_object. rewrite Hv. cbn. rewrite Hl. by apply (spec_adds_nothing m spec v).
Qed.

Lemma field_of_spec_path f : field_of_path (spec_path f) = Some f.
Proof.
  unfold field_of_path. rewrite bool_decide_false by done. assert (Text.strip_prefix (tx "spec.") (tx (spec_path f)) = Some (tx f)) as -> by reflexivity.
  cbn. unfold str, tx. by rewrite String.string_of_list_ascii_of_string.
Qed.
Lemma field_of_path_Some path f : field_of_path path = Some f -> path = spec_path f.
Proof.
  unfold field_of_path. case_bool_decide; [done|]. destruct (Text.strip_prefix _ _) as [rest|] eqn:Hs; [|done]. cbn. intros [= <-]. apply Text.strip_prefix_Some in Hs.
  rewrite <-(String.string_of_list_ascii_of_string path). unfold tx in Hs. rewrite Hs. done.
Qed.
#[export] Instance spec_path_inj : Inj (=) (=) spec_path.
Proof. intros f g Heq. pose proof (field_of_spec_path f) as H. rewrite Heq, field_of_spec_path in H. by injection H. Qed.
Lemma spec_path_not_deletion f : spec_path f <> DELETION_FIELD.
Proof. done. Qed.

(** What a source says on a path. *)
Definition said s (path : string) (c : FieldCandidate) : Prop :=
  (exists f v, fields_of (df_spec (sr_object s)) !! f = Some v /\ path = spec_path f /\ c = mkCandidate v (field_metadata s path)) \/
  (path = DELETION_FIELD /\ c = mkCandidate (json_bool (is_deleted (sr_object s))) (field_metadata s DELETION_FIELD)).
Definition entries_of s : list (string * FieldCandidate) :=
  ((fun p => (spec_path p.1, mkCandidate p.2 (field_metadata s (spec_path p.1)))) <$> map_iter (fields_of (df_spec (sr_object s)))) ++
  [(DELETION_FIELD, mkCandidate (json_bool (is_deleted (sr_object s))) (field_metadata s DELETION_FIELD))].
Lemma source_entries_Ok s : source_entries s = Ok (entries_of s).
Proof. unfold source_entries. by rewrite spec_object_fields. Qed.
Lemma elem_of_entries s path c : (path, c) ∈ entries_of s <-> said s path c.
Proof.
  unfold entries_of, said. rewrite elem_of_app, list_elem_of_singleton. split.
  - intros [([f v] & Heq & Hin%elem_of_map_iter)%list_elem_of_fmap|[= -> ->]]; [left|by right]. cbn in Heq. injection Heq as -> ->. by exists f, v.
  - intros [(f & v & Hv & -> & ->)|[-> ->]]; [left|by right]. apply list_elem_of_fmap. exists (f, v). split; [done|]. by apply elem_of_map_iter.
Qed.
Lemma said_metadata s path c : said s path c -> fc_metadata c = field_metadata s path.
Proof. intros [(f & v & _ & -> & ->)|[-> ->]]; done. Qed.
Lemma said_unique s path c c' : said s path c -> said s path c' -> c = c'.
Proof.
  intros [(f & v & Hv & -> & ->)|[-> ->]] [(f' & v' & Hv' & Hp & ->)|[Hp ->]]; try done. apply (inj spec_path) in Hp as <-. rewrite Hv in Hv'. by injection Hv' as <-.
Qed.

Definition at_path {A} (path : string) (l : list (string * A)) : list A := omap (fun e => if decide (e.1 = path) then Some e.2 else None) l.
Lemma elem_of_at_path {A} path (l : list (string * A)) a : a ∈ at_path path l <-> (path, a) ∈ l.
Proof.
  unfold at_path. rewrite list_elem_of_omap. split; [|intros Hin; exists (path, a); split; [done|]; cbn; by rewrite decide_True].
  intros ([p b] & Hin & Hb). cbn in Hb. case_decide; [|done]. by simplify_eq.
Qed.
Lemma push_lookup l m path : foldl push_candidate m l !! path = match at_path path l with [] => m !! path | cs => Some (default [] (m !! path) ++ cs) end.
Proof.
  revert m. induction l as [|[p c] l IH]; intros m; cbn; [done|]. rewrite IH. unfold push_candidate. cbn. destruct (decide (p = path)) as [->|Hp].
  - rewrite lookup_insert_eq. cbn. fold (at_path path l). destruct (at_path path l); [done|]. by rewrite <-app_assoc.
  - rewrite lookup_insert_ne by done. done.
Qed.
Lemma entries_once s : NoDup (entries_of s).*1.
Proof.
  unfold entries_of. rewrite fmap_app, <-list_fmap_compose. apply NoDup_app. split_and!.
  - assert ((fst ∘ (fun p : string * JValue => (spec_path p.1, mkCandidate p.2 (field_metadata s (spec_path p.1))))) <$> map_iter (fields_of (df_spec (sr_object s))) = spec_path <$> (map_iter (fields_of (df_spec (sr_object s)))).*1) as ->
      by (rewrite <-list_fmap_compose; done).
    apply NoDup_fmap; [apply _|]. apply NoDup_map_iter_fst.
  - intros path (p & -> & _)%list_elem_of_fmap [= He]%list_elem_of_singleton.
  - apply NoDup_singleton.
Qed.
Lemma at_path_once {A} path (l : list (string * A)) a : NoDup l.*1 -> (path, a) ∈ l -> at_path path l = [a].
Proof.
  unfold at_path. induction l as [|[p x] l IH]; cbn; [by intros _ ?%not_elem_of_nil|]. intros [Hn Hnd]%NoDup_cons [Heq|Hin]%elem_of_cons.
  - injection Heq as -> ->. rewrite decide_True by done. f_equal. destruct (omap _ l) as [|y rest] eqn:Ho; [done|]. assert (y ∈ at_path p l) as Hy by (unfold at_path; rewrite Ho; constructor).
    apply elem_of_at_path in Hy. destruct Hn. by apply (list_elem_of_fmap_2 fst) in Hy.
  - rewrite decide_False; [by apply IH|]. intros ->. apply Hn. by apply (list_elem_of_fmap_2 fst) in Hin.
Qed.
Definition candidates_at sources (path : string) : list FieldCandidate := at_path path (concat (entries_of <$> sources)).
Lemma elem_of_candidates sources path c : c ∈ candidates_at sources path <-> exists s, s ∈ sources /\ said s path c.
Proof.
  unfold candidates_at. rewrite elem_of_at_path, list_elem_of_In, in_concat. setoid_rewrite <-list_elem_of_In. split.
  - intros (l & (s & -> & Hs)%list_elem_of_fmap & Hin). exists s. split; [done|]. by apply elem_of_entries.
  - intros (s & Hs & Hc). exists (entries_of s). split; [by apply list_elem_of_fmap_2|]. by apply elem_of_entries.
Qed.
Lemma candidates_app sources1 sources2 path : candidates_at (sources1 ++ sources2) path = candidates_at sources1 path ++ candidates_at sources2 path.
Proof. unfold candidates_at, at_path. by rewrite fmap_app, concat_app, omap_app. Qed.
Lemma candidates_said s path c : said s path c -> candidates_at [s] path = [c].
Proof. intros Hc. unfold candidates_at. cbn. rewrite app_nil_r. apply at_path_once; [apply entries_once|by apply elem_of_entries]. Qed.
(** A candidate of a filtered list of sources' candidates comes from one of them,
    the ones before it from the sources before. *)
Lemma candidates_split sources path (P : FieldCandidate -> Prop) `{forall c, Decision (P c)} before c after : filter P (candidates_at sources path) = before ++ c :: after ->
  exists l1 s l2, sources = l1 ++ s :: l2 /\ said s path c /\ P c /\ filter P (candidates_at l1 path) = before.
Proof.
  revert before. induction sources as [|s sources IH]; intros before Heq; [by destruct before|]. change (s :: sources) with ([s] ++ sources) in Heq. rewrite candidates_app, filter_app in Heq.
  assert (filter P (candidates_at [s] path) = [] \/ exists x, said s path x /\ P x /\ filter P (candidates_at [s] path) = [x]) as [He|(x & Hx & HP & He)].
  { destruct (candidates_at [s] path) as [|x l] eqn:Hl; [by left|]. assert (said s path x) as Hx by (destruct (proj1 (elem_of_candidates [s] path x)) as (s' & ->%list_elem_of_singleton & ?); [rewrite Hl; constructor|done]).
    rewrite (candidates_said s path x Hx) in Hl. injection Hl as <-. destruct (decide (P x)); [right; exists x; by rewrite filter_cons_True|left; by rewrite filter_cons_False]. }
  - rewrite He in Heq. destruct (IH before Heq) as (l1 & s' & l2 & -> & H1 & H2 & H3). exists (s :: l1), s', l2. split_and!; [done|done|done|]. change (s :: l1) with ([s] ++ l1). by rewrite candidates_app, filter_app, He.
  - rewrite He in Heq. destruct before as [|b before]; cbn in Heq; injection Heq as -> Heq; [by exists [], s, sources|].
    destruct (IH before Heq) as (l1 & s' & l2 & -> & H1 & H2 & H3). exists (s :: l1), s', l2. split_and!; [done|done|done|]. change (s :: l1) with ([s] ++ l1). by rewrite candidates_app, filter_app, He, H3.
Qed.
Lemma field_candidates_Ok sources : exists m, field_candidates sources = Ok m /\
  forall path, m !! path = match candidates_at sources path with [] => None | cs => Some cs end.
Proof.
  assert (collect source_entries sources = Ok (entries_of <$> sources)) as He.
  { apply collect_Ok. induction sources; cbn; constructor; [apply source_entries_Ok|done]. }
  unfold field_candidates. rewrite He. cbn. eexists. split; [done|]. intros path. rewrite push_lookup. unfold candidates_at. by destruct (at_path _ _).
Qed.

(** * Maximal values *)

Lemma elem_of_maximal cs c : c ∈ causally_maximal cs <-> c ∈ cs /\ forall other, other ∈ cs -> overwrites other c = false.
Proof. unfold causally_maximal. rewrite list_elem_of_filter, existsb_false. naive_solver. Qed.
(** The first of its value in a list. *)
Definition first_of_value (l : list FieldCandidate) c : Prop := exists before after, l = before ++ c :: after /\ fc_value c ∉ (fc_value <$> before).
Lemma first_of_value_unique l c c' : first_of_value l c -> first_of_value l c' -> fc_value c = fc_value c' -> c = c'.
Proof.
  intros (b1 & a1 & -> & H1) (b2 & a2 & Heq & H2) Hv. revert b2 Heq H2. induction b1 as [|x b1 IH]; intros [|y b2] Heq H2; cbn in *; injection Heq as -> Heq; [done| | |].
  - destruct H2. rewrite <-Hv. constructor.
  - destruct H1. rewrite Hv. constructor.
  - apply not_elem_of_cons in H1 as [_ H1], H2 as [_ H2]. by apply (IH H1 b2).
Qed.
Lemma first_of_value_exists l c : c ∈ l -> exists c', first_of_value l c' /\ fc_value c' = fc_value c.
Proof.
  induction l as [|x l IH]; [by intros ?%not_elem_of_nil|]. intros Hc. destruct (decide (fc_value x = fc_value c)) as [He|Hne].
  - exists x. split; [|done]. exists [], l. split; [done|]. apply not_elem_of_nil.
  - apply elem_of_cons in Hc as [->|Hc]; [done|]. destruct (IH Hc) as (c' & (b & a & -> & Hb) & Hv). exists c'. split; [|done]. exists (x :: b), a. split; [done|]. cbn. apply not_elem_of_cons. split; [congruence|done].
Qed.
Lemma try_distinct l m : (forall key c, m !! key = Some c -> json_text (fc_value c) = Ok key) ->
  exists m', try_fold add_distinct m l = Ok m' /\
    (forall key c, m' !! key = Some c -> json_text (fc_value c) = Ok key /\ (m !! key = Some c \/ m !! key = None /\ first_of_value l c)) /\
    (forall c, c ∈ l -> exists key, json_text (fc_value c) = Ok key /\ is_Some (m' !! key)) /\ (forall key c, m !! key = Some c -> m' !! key = Some c).
Proof.
  revert m. induction l as [|c l IH]; intros m Hm; cbn.
  { exists m. split_and!; [done| |by intros c Hc%not_elem_of_nil|done]. intros key c Hc. split; [by apply Hm|by left]. }
  unfold add_distinct at 1. destruct (json_text_Ok (fc_value c)) as [key Hkey]. rewrite Hkey. cbn.
  assert (forall k x, json_text (fc_value x) = Ok k -> k <> key -> first_of_value l x -> first_of_value (c :: l) x) as Hfirst.
  { intros k x Hk Hne (b & a & -> & Hb). exists (c :: b), a. split; [done|]. cbn. apply not_elem_of_cons. split; [|done]. intros He. rewrite He in Hk. congruence. }
  destruct (m !! key) as [c0|] eqn:H0.
  - destruct (IH m Hm) as (m' & Hf & H1 & H2 & H3). exists m'. split_and!; [done| | |done].
    + intros k x Hx. apply H1 in Hx as [Ht [Hl|[Hl Hx]]]; (split; [done|]); [by left|right]. split; [done|]. apply (Hfirst k); [done|congruence|done].
    + intros x [->|Hx]%elem_of_cons; [|by apply H2]. exists key. split; [done|]. exists c0. by apply H3.
  - destruct (IH (<[key := c]> m)) as (m' & Hf & H1 & H2 & H3).
    { intros k x Hx. apply lookup_insert_Some in Hx as [[<- <-]|[_ Hx]]; [done|by apply Hm]. }
    exists m'. split_and!; [done| | |].
    + intros k x Hx. apply H1 in Hx as [Ht [[[<- <-]|[_ Hl]]%lookup_insert_Some|[[Hl Hne]%lookup_insert_None Hx]]]; (split; [done|]); [right|by left|right].
      * split; [done|]. exists [], l. split; [done|]. apply not_elem_of_nil.
      * split; [done|]. by apply (Hfirst k).
    + intros x [->|Hx]%elem_of_cons; [|by apply H2]. exists key. split; [done|]. exists c. apply H3. by rewrite lookup_insert_eq.
    + intros k x Hx. apply H3. rewrite lookup_insert_ne; [done|]. congruence.
Qed.
Lemma first_of_value_elem l c : first_of_value l c -> c ∈ l.
Proof. intros (b & a & -> & _). apply elem_of_app. right. constructor. Qed.
(** The distinct maximal values: each once, its first candidate, by its dot. *)
Lemma field_values_Ok cs : exists vs, field_values cs = Ok vs /\ (forall c, c ∈ vs <-> first_of_value (causally_maximal cs) c) /\
  (forall c, c ∈ causally_maximal cs -> exists c', c' ∈ vs /\ fc_value c' = fc_value c) /\ NoDup (fc_value <$> vs) /\ Sorted candidate_le vs.
Proof.
  unfold field_values. destruct (try_distinct (causally_maximal cs) ∅) as (m & Hf & H1 & H2 & _); [intros key c Hc; by rewrite lookup_empty in Hc|]. rewrite Hf. cbn.
  eexists. split; [done|]. assert (forall c, c ∈ sort_by candidate_le (map_iter m).*2 <-> exists key, m !! key = Some c) as Hin.
  { intros c. rewrite sort_by_perm, list_elem_of_fmap. split; [intros ([key c'] & -> & Hc%elem_of_map_iter); by exists key|]. intros [key Hc]. exists (key, c). split; [done|]. by apply elem_of_map_iter. }
  split_and!.
  - intros c. rewrite Hin. split; [intros [key Hc]; apply H1 in Hc as [_ [He|[_ Hc]]]; [by rewrite lookup_empty in He|done]|]. intros Hc.
    destruct (H2 c) as (key & Ht & c' & Hc'); [destruct Hc as (b & a & -> & _); apply elem_of_app; right; constructor|]. exists key. rewrite Hc'. f_equal.
    destruct (H1 key c' Hc') as [Ht' [He|[_ Hf']]]; [by rewrite lookup_empty in He|]. eapply first_of_value_unique; [exact Hf'|exact Hc|]. by apply (json_text_inj _ _ key).
  - intros c Hc. destruct (H2 c Hc) as (key & Ht & c' & Hc'). exists c'. split; [apply Hin; by exists key|]. destruct (H1 key c' Hc') as [Ht' _]. by apply (json_text_inj _ _ key).
  - rewrite sort_by_perm. apply (NoDup_fmap_1 json_text). assert (json_text <$> (fc_value <$> (map_iter m).*2) = Ok <$> (map_iter m).*1) as ->.
    { assert (forall p, p ∈ map_iter m -> json_text (fc_value p.2) = Ok p.1) as Hp by (intros [key c] Hc%elem_of_map_iter; by apply H1 in Hc as [? _]).
      clear -Hp. induction (map_iter m) as [|p l IH]; [done|]. cbn. f_equal; [apply Hp; constructor|]. apply IH. intros q Hq. apply Hp. by constructor. }
    apply NoDup_fmap_2; [by intros x y [= ->]|]. apply NoDup_map_iter_fst.
  - apply sort_by_sorted. intros x y. unfold candidate_le, dot_le. rewrite bool_decide_eq_false, bool_decide_eq_true. intros Hn. destruct (total ord_le (dot_pair (candidate_dot x)) (dot_pair (candidate_dot y))); [done|done].
Qed.

(** * Merged fields *)

(** What a merge says of a path: the least dot among the distinct maximal values. *)
Record field_ok (cs : list FieldCandidate) (chosen : FieldCandidate) (vs : list FieldCandidate) : Prop := {
  fo_values : field_values cs = Ok vs;
  fo_head : head vs = Some chosen;
}.
Lemma merged_fields_Ok sources : (forall path, candidates_at sources path <> [] -> causally_maximal (candidates_at sources path) <> []) ->
  exists fields, merged_fields sources = Ok fields /\
  (forall path r, fields !! path = Some r <-> candidates_at sources path <> [] /\ field_ok (candidates_at sources path) r.1 r.2).
Proof.
  intros Hmax. unfold merged_fields. destruct (field_candidates_Ok sources) as (m & -> & Hm). cbn.
  assert (forall path cs, m !! path = Some cs <-> candidates_at sources path <> [] /\ cs = candidates_at sources path) as Hm'.
  { intros path cs. rewrite Hm. destruct (candidates_at sources path); naive_solver. }
  assert (forall row, row ∈ map_iter m -> exists r, merge_field row = Ok (row.1, r) /\ field_ok row.2 r.1 r.2) as Hrow.
  { intros [path cs] Hrow%elem_of_map_iter. apply Hm' in Hrow as [Hne ->]. unfold merge_field. cbn [fst snd]. destruct (field_values_Ok (candidates_at sources path)) as (vs & Hvs & _ & H2 & _).
    rewrite Hvs. cbn. specialize (Hmax path Hne). destruct (causally_maximal _) as [|c cs] eqn:Hc; [done|]. destruct (H2 c) as (c' & Hc' & _); [constructor|].
    destruct vs as [|v vs]; [by apply not_elem_of_nil in Hc'|]. cbn. by exists (v, v :: vs). }
  assert (exists rows, collect merge_field (map_iter m) = Ok rows /\ Forall2 (fun row r => merge_field row = Ok r /\ r.1 = row.1 /\ field_ok row.2 r.2.1 r.2.2) (map_iter m) rows) as (rows & Hc & Hrows).
  { clear Hm Hm' Hmax. induction (map_iter m) as [|row l IH]; [by exists []|]. destruct (Hrow row) as (r & Hr & Hok); [constructor|]. destruct IH as (rows & Hc & Hrows); [intros row' Hr'; apply Hrow; by constructor|].
    exists ((row.1, r) :: rows). cbn. rewrite Hr. cbn. rewrite Hc. cbn. split; [done|]. by constructor. }
  rewrite Hc. cbn. eexists. split; [done|]. assert (rows.*1 = (map_iter m).*1) as Hfst by (clear -Hrows; induction Hrows as [|? ? ? ? (_ & ? & _)]; cbn; congruence).
  intros path r. rewrite <-elem_of_list_to_map by (rewrite Hfst; apply NoDup_map_iter_fst). split.
  - intros Hin. apply list_elem_of_lookup in Hin as [i Hi]. destruct (Forall2_lookup_r _ _ _ _ _ Hrows Hi) as ([p cs] & Hrow' & _ & Hp & Hok). cbn in *. subst p.
    apply list_elem_of_lookup_2 in Hrow'. apply elem_of_map_iter, Hm' in Hrow' as [Hne ->]. done.
  - intros [Hne Hok]. assert ((path, candidates_at sources path) ∈ map_iter m) as Hin by (apply elem_of_map_iter, Hm'; done).
    apply list_elem_of_lookup in Hin as [i Hi]. destruct (Forall2_lookup_l _ _ _ _ _ Hrows Hi) as ([p r'] & Hr' & _ & Hp & Hok'). cbn in *. subst p.
    apply list_elem_of_lookup_2 in Hr'. assert (r' = r) as <-; [|done]. destruct r as [c vs], r' as [c' vs']. destruct Hok as [Hv Hh], Hok' as [Hv' Hh']. cbn in *. congruence.
Qed.
Lemma merged_spec_lookup (fields : gmap string (FieldCandidate * list FieldCandidate)) f : merged_spec fields !! f = (fun r => fc_value r.1) <$> fields !! spec_path f.
Proof.
  unfold merged_spec. apply option_eq. intros v. rewrite <-elem_of_list_to_map.
  - rewrite list_elem_of_omap, fmap_Some. split.
    + intros ([path r] & Hin%elem_of_map_iter & Hf). cbn in Hf. destruct (field_of_path path) as [f'|] eqn:Hp; [|done]. cbn in Hf. injection Hf as -> <-.
      apply field_of_path_Some in Hp as ->. by exists r.
    + intros (r & Hr & ->). exists (spec_path f, r). split; [by apply elem_of_map_iter|]. cbn. by rewrite field_of_spec_path.
  - pose proof (NoDup_map_iter_fst fields) as Hnd. induction (map_iter fields) as [|[path r] l IH]; [constructor|]. cbn in Hnd. apply NoDup_cons in Hnd as [Hn Hnd]. cbn.
    destruct (field_of_path path) as [f'|] eqn:Hp; [|by apply IH]. cbn. constructor; [|by apply IH]. apply field_of_path_Some in Hp as ->.
    intros ([f2 v2] & Heq & Hin)%list_elem_of_fmap. cbn in Heq. subst f2. apply list_elem_of_omap in Hin as ([path2 r2] & Hin & Hf2). cbn in Hf2.
    destruct (field_of_path path2) as [f3|] eqn:Hp2; [|done]. cbn in Hf2. injection Hf2 as -> _. apply field_of_path_Some in Hp2 as ->. apply Hn. apply list_elem_of_fmap. by exists (spec_path f', r2).
Qed.

(** A merge that succeeds had a maximal value on every path. *)
Lemma merged_fields_maximal sources fields : merged_fields sources = Ok fields -> forall path, candidates_at sources path <> [] -> causally_maximal (candidates_at sources path) <> [].
Proof.
  unfold merged_fields. destruct (field_candidates_Ok sources) as (m & -> & Hm). cbn. destruct (collect merge_field (map_iter m)) as [rows|] eqn:Hc; [|done]. intros _ path Hne.
  apply collect_Ok in Hc. assert ((path, candidates_at sources path) ∈ map_iter m) as Hin.
  { apply elem_of_map_iter. rewrite Hm. by destruct (candidates_at sources path). }
  apply list_elem_of_lookup in Hin as [i Hi]. destruct (Forall2_lookup_l _ _ _ _ _ Hc Hi) as (r & _ & Hr). unfold merge_field in Hr. cbn [fst snd] in Hr.
  destruct (field_values_Ok (candidates_at sources path)) as (vs & Hvs & H1 & _). rewrite Hvs in Hr. cbn in Hr. destruct vs as [|v vs]; [done|].
  intros He. specialize (H1 v). rewrite He in H1. apply (not_elem_of_nil v), first_of_value_elem, H1. constructor.
Qed.
Lemma merged_fields_lookup sources fields : merged_fields sources = Ok fields ->
  forall path r, fields !! path = Some r <-> candidates_at sources path <> [] /\ field_ok (candidates_at sources path) r.1 r.2.
Proof.
  intros Hf. destruct (merged_fields_Ok sources (merged_fields_maximal sources fields Hf)) as (fields' & Hf' & Hl). rewrite Hf in Hf'. by injection Hf' as <-.
Qed.

(** * A merge *)

Definition sorted_sources sources : list DefinitionSource := sort_by origin_le sources.
Lemma elem_of_sorted_sources sources s : s ∈ sorted_sources sources <-> s ∈ sources.
Proof. unfold sorted_sources. by rewrite sort_by_perm. Qed.
Lemma sorted_sources_unique sources1 sources2 : sources1 ≡ₚ sources2 -> NoDup (sr_origin <$> sources1) -> sorted_sources sources1 = sorted_sources sources2.
Proof.
  intros Hp Hnd. assert (forall l, StronglySorted origin_le (sorted_sources l)) as Hs.
  { intros l. apply Sorted_StronglySorted; [intros a b c; unfold origin_le; rewrite !bool_decide_spec; apply transitivity|].
    apply sort_by_sorted. intros a b. unfold origin_le. rewrite bool_decide_eq_false, bool_decide_eq_true. intros Hn. by destruct (total ord_le (sr_origin a) (sr_origin b)). }
  apply (StronglySorted_unique_strong origin_le); [|apply Hs|apply Hs|unfold sorted_sources; by rewrite !sort_by_perm].
  intros a b Ha Hb Hab Hba. unfold origin_le in Hab, Hba. rewrite bool_decide_spec in Hab, Hba. pose proof (anti_symm ord_le _ _ Hab Hba) as Heq.
  assert (a ∈ sources1) as Ha1 by (unfold sorted_sources in Ha; by rewrite sort_by_perm in Ha). assert (b ∈ sources1) as Hb1 by (unfold sorted_sources in Hb; rewrite sort_by_perm in Hb; by rewrite Hp).
  clear -Hnd Ha1 Hb1 Heq. induction sources1 as [|x l IH]; [by apply not_elem_of_nil in Ha1|]. cbn in Hnd. apply NoDup_cons in Hnd as [Hn Hnd].
  apply elem_of_cons in Ha1 as [->|Ha1], Hb1 as [->|Hb1]; [done| | |by apply IH]; destruct Hn; [rewrite Heq|rewrite <-Heq]; by apply list_elem_of_fmap_2.
Qed.

(** [Merge.merge_sources], by its merged fields. *)
Lemma merge_sources_Ok sources o : merge_sources sources = Ok o <-> exists fields source, merged_fields (sorted_sources sources) = Ok fields /\ head (sorted_sources sources) = Some source /\
  spec_from_value (json_object (merged_spec fields)) = Ok (df_spec o) /\ df_status o = df_status (sr_object source) /\
  df_metadata o = with_merge (df_metadata (sr_object source)) (String.concat "," (source_version <$> sorted_sources sources)) (deleted_at fields)
    (mkMerge (fc_metadata ∘ fst <$> fields) (causal_context sources) (conflicts_of fields)).
Proof.
  unfold merge_sources. fold (sorted_sources sources). split.
  - destruct (merged_fields _) as [fields|] eqn:Hf; [|done]. cbn. destruct (head _) as [source|] eqn:Hh; [|done]. cbn. destruct (spec_from_value _) as [spec|] eqn:Hs; [|done]. cbn.
    intros [= <-]. by exists fields, source.
  - intros (fields & source & -> & Hh & Hs & H1 & H2). cbn. rewrite Hh. cbn. rewrite Hs. cbn. destruct o as [om os ost]. cbn in *. by subst.
Qed.

(** The values a path shows: those of the causally maximal candidates. *)
Definition shows sources (path : string) (c : FieldCandidate) : Prop :=
  (exists s, s ∈ sources /\ said s path c) /\ forall s other, s ∈ sources -> said s path other -> overwrites other c = false.
Lemma shows_maximal sources path c : c ∈ causally_maximal (candidates_at (sorted_sources sources) path) <-> shows sources path c.
Proof.
  rewrite elem_of_maximal. unfold shows. setoid_rewrite elem_of_candidates. setoid_rewrite elem_of_sorted_sources. split; intros [H1 H2]; (split; [done|]); [eauto|]. intros other (s & Hs & Ho). eauto.
Qed.
Lemma candidates_none sources path : candidates_at (sorted_sources sources) path = [] -> forall c, ~ shows sources path c.
Proof. intros He c Hc%shows_maximal. rewrite He in Hc. by apply not_elem_of_nil in Hc. Qed.

(** [merge_sources]: copies of a definition from distinct roots merge to the
    same object in whatever order they are read. *)
Theorem merge_order_free sources1 sources2 : sources1 ≡ₚ sources2 -> NoDup (sr_origin <$> sources1) -> merge_sources sources1 = merge_sources sources2.
Proof.
  intros Hp Hnd. pose proof (sorted_sources_unique sources1 sources2 Hp Hnd) as Hs. unfold merge_sources. rewrite (causal_context_perm sources1 sources2 Hp).
  unfold sorted_sources in Hs. by rewrite Hs.
Qed.

(** The candidate that stands for its value on a path: of the sources that show
    the value, the one of the first source in order of origin. *)
Definition stands sources (path : string) (c : FieldCandidate) : Prop :=
  shows sources path c /\ exists before s after, sorted_sources sources = before ++ s :: after /\ said s path c /\
    forall s' c', s' ∈ before -> said s' path c' -> shows sources path c' -> fc_value c' <> fc_value c.
Lemma filter_middle {A} (P : A -> Prop) `{forall x, Decision (P x)} l l1 x l2 : l = l1 ++ [x] ++ l2 -> P x -> filter P l = filter P l1 ++ x :: filter P l2.
Proof. intros -> HP. rewrite !filter_app. cbn [app]. by rewrite filter_cons_True. Qed.
Lemma stands_first sources path c : first_of_value (causally_maximal (candidates_at (sorted_sources sources) path)) c <-> stands sources path c.
Proof.
  pose proof (shows_maximal sources path) as Hs. unfold causally_maximal in *. set (P := fun candidate => _ = false) in *. split.
  - intros (b & a & Heq & Hb). split; [apply Hs; rewrite Heq; apply elem_of_app; right; constructor|].
    destruct (candidates_split _ _ P _ _ _ Heq) as (l1 & s & l2 & Hsrc & Hsaid & _ & Hl1). exists l1, s, l2. split_and!; [done|done|]. intros s' c' Hin Hc' Hshow Hv. apply Hb. rewrite <-Hv, <-Hl1.
    apply list_elem_of_fmap_2, list_elem_of_filter. split; [apply Hs in Hshow; by apply list_elem_of_filter in Hshow as [? _]|]. apply elem_of_candidates. by exists s'.
  - intros [Hshow (l1 & s & l2 & Hsrc & Hsaid & Hb)]. exists (filter P (candidates_at l1 path)), (filter P (candidates_at l2 path)). split.
    + apply filter_middle; [|apply Hs in Hshow; by apply list_elem_of_filter in Hshow as [? _]].
      rewrite Hsrc. change (s :: l2) with ([s] ++ l2). by rewrite !candidates_app, (candidates_said s path c Hsaid).
    + intros (c' & Hv & [HP (s' & Hin & Hc')%elem_of_candidates]%list_elem_of_filter)%list_elem_of_fmap. apply (Hb s' c' Hin Hc'); [|done]. apply Hs, list_elem_of_filter. split; [done|].
      rewrite Hsrc, candidates_app. apply elem_of_app. left. apply elem_of_candidates. by exists s'.
Qed.
(** Every value shown has one that stands for it. *)
Lemma shown_stands sources path c : shows sources path c -> exists c', stands sources path c' /\ fc_value c' = fc_value c.
Proof. intros Hc%shows_maximal. destruct (first_of_value_exists _ c Hc) as (c' & Hf%stands_first & Hv). by exists c'. Qed.

Lemma chosen_shown sources fields path r : merged_fields (sorted_sources sources) = Ok fields -> fields !! path = Some r ->
  (forall c, c ∈ r.2 <-> stands sources path c) /\ NoDup (fc_value <$> r.2) /\ Sorted candidate_le r.2 /\ head r.2 = Some r.1.
Proof.
  intros Hf Hr. apply (merged_fields_lookup _ _ Hf) in Hr as [Hne [Hv Hh]]. destruct (field_values_Ok (candidates_at (sorted_sources sources) path)) as (vs & Hvs & H1 & H2 & H3 & H4).
  rewrite Hv in Hvs. injection Hvs as <-. setoid_rewrite stands_first in H1. done.
Qed.
Lemma sorted_head (l : list FieldCandidate) c c' : Sorted candidate_le l -> head l = Some c -> c' ∈ l -> dot_le (candidate_dot c) (candidate_dot c') = true.
Proof.
  intros Hs Hh Hc'. destruct l as [|v vs]; [done|]. injection Hh as ->. apply Sorted_StronglySorted in Hs; [|intros x y z; unfold candidate_le, dot_le; rewrite !bool_decide_spec; apply transitivity].
  apply StronglySorted_cons in Hs as [Hall _]. rewrite Forall_forall in Hall. apply elem_of_cons in Hc' as [->|Hc']; [unfold dot_le; by apply bool_decide_eq_true|]. by apply Hall, Is_true_true in Hc'.
Qed.
Lemma chosen_shows sources fields path r : merged_fields (sorted_sources sources) = Ok fields -> fields !! path = Some r ->
  shows sources path r.1 /\ (forall c, c ∈ r.2 -> shows sources path c /\ dot_le (candidate_dot r.1) (candidate_dot c) = true) /\
  (forall c, shows sources path c -> exists c', c' ∈ r.2 /\ fc_value c' = fc_value c) /\ NoDup (fc_value <$> r.2) /\ r.1 ∈ r.2.
Proof.
  intros Hf Hr. destruct (chosen_shown sources fields path r Hf Hr) as (H1 & H2 & H3 & H4). assert (r.1 ∈ r.2) as Hin by (destruct r.2; [done|]; injection H4 as ->; constructor).
  split_and!; [by apply H1| | |done|done].
  - intros c Hc. split; [by apply H1|by eapply sorted_head].
  - intros c (c' & Hc'%H1 & Hv)%shown_stands. by exists c'.
Qed.
Lemma merged_none sources fields path : merged_fields (sorted_sources sources) = Ok fields -> fields !! path = None -> forall c, ~ shows sources path c.
Proof.
  intros Hf Hp c Hc. destruct (decide (candidates_at (sorted_sources sources) path = [])) as [He|Hne]; [by apply (candidates_none sources path He c)|].
  pose proof (merged_fields_maximal _ _ Hf path Hne) as Hmax. destruct (field_values_Ok (candidates_at (sorted_sources sources) path)) as (vs & Hvs & _ & H2 & _).
  destruct (causally_maximal _) as [|x l] eqn:Hx; [done|]. destruct (H2 x) as (x' & Hx' & _); [constructor|]. destruct vs as [|v vs]; [by apply not_elem_of_nil in Hx'|].
  assert (fields !! path = Some (v, v :: vs)) as Hr by (apply (merged_fields_lookup _ _ Hf); by split). congruence.
Qed.
(** C15: [merge_sources]: on each path of the sources' fields, and of whether the
    definition is deleted, the causally maximal values are found, and of the
    sources that have one the first in order of origin stands for it. Of those
    that stand for a value the merged object takes one with the least dot, its
    value, its metadata and, where it deletes, its time; the spec has no other
    fields. A path is in conflict exactly if more than one value is maximal, and
    the conflict lists each of them once, by the dots of those that stand for
    them. *)
Theorem merge_exact sources o : merge_sources sources = Ok o ->
  exists spec merge, spec_from_value (json_object spec) = Ok (df_spec o) /\ om_merge (df_metadata o) = Some merge /\
  (forall path,
    match mm_fields merge !! path with
    | Some written => exists chosen, stands sources path chosen /\ fc_metadata chosen = written /\
        (forall c, stands sources path c -> dot_le (candidate_dot chosen) (candidate_dot c) = true) /\
        (forall f, path = spec_path f -> spec !! f = Some (fc_value chosen)) /\
        (path = DELETION_FIELD -> om_deletion_timestamp (df_metadata o) = if default false (as_bool (fc_value chosen)) then Some (fm_written_at written) else None)
    | None => (forall c, ~ shows sources path c) /\ forall f, path = spec_path f -> spec !! f = None
    end) /\
  (forall path,
    match mm_conflicts merge !! path with
    | Some siblings => exists cs, siblings = sibling_of <$> cs /\ (1 < length cs)%nat /\ NoDup (fc_value <$> cs) /\ Sorted candidate_le cs /\ forall c, c ∈ cs <-> stands sources path c
    | None => forall c c', shows sources path c -> shows sources path c' -> fc_value c = fc_value c'
    end).
Proof.
  intros (fields & source & Hf & _ & Hs & _ & Hm)%merge_sources_Ok. exists (merged_spec fields). eexists. split; [done|]. rewrite Hm. cbn. split; [done|]. cbn. split.
  - intros path. rewrite lookup_fmap. destruct (fields !! path) as [r|] eqn:Hr; cbn [fmap option_fmap option_map].
    + destruct (chosen_shown sources fields _ r Hf Hr) as (H1 & H2 & H3 & H4). exists r.1. split_and!; [|done| | |].
      * apply H1. by apply (chosen_shows sources fields path r).
      * intros c Hc%H1. by eapply sorted_head.
      * intros f ->. by rewrite merged_spec_lookup, Hr.
      * intros ->. unfold deleted_at. by rewrite Hr.
    + split; [by apply (merged_none sources fields)|]. intros f ->. by rewrite merged_spec_lookup, Hr.
  - intros path. unfold conflicts_of. rewrite lookup_omap. destruct (fields !! path) as [r|] eqn:Hr; cbn [mbind option_bind]; [|intros c c' Hc; by destruct (merged_none sources fields path Hf Hr c)].
    destruct (chosen_shown sources fields _ r Hf Hr) as (H1 & H2 & H3 & H4). case_bool_decide as Hlen; [by exists r.2|]. intros c c' (x & Hx%H1 & <-)%shown_stands (y & Hy%H1 & <-)%shown_stands.
    destruct r as [r1 [|a [|b l]]]; cbn in *; [done| |lia]. apply list_elem_of_singleton in Hx as ->, Hy as ->. done.
Qed.
End facts.
