(* ===== verification/MergeFleet.v ===== *)
(** A fleet of roots that write one definition and receive each other's copies:
    every write has a dot of its own, and is what its root reads next. *)

From Stdlib Require Import Ascii.
From S2P Require Import Text Encoding Address Names.
From S2P Require Import Prelude Ordered Schema Effects Kinds Inverted MessageIndex QueryIndex Digest MemStore MemWatch MemReplica Merge MergeFacts.
#[local] Open Scope Z_scope.

Section fleet.
Context {JS : Json} {JT : JsonText} {JB : JsonBuild} {DK : DefinitionKind}.

(** * The fleet *)

(** What a root holds of a definition: its own record and copies of other roots'. *)
Record Root : Type := mkRoot { rt_local : option DefinitionObject; rt_replicas : gmap NodeId (DefinitionObject * Timestamp) }.
Definition root_of (f : gmap NodeId Root) (r : NodeId) : Root := default (mkRoot None ∅) (f !! r).
(** [sources_for_name]. *)
Definition sources_for_name (r : NodeId) (root : Root) : list DefinitionSource :=
  (match rt_local root with Some o => [mkSource o r None] | None => [] end) ++ ((fun p => mkSource p.2.1 p.1 (Some p.2.2)) <$> map_iter (rt_replicas root)).
(** The record a write leaves in the local store, numbered by the store: an
    update keeps what a caller cannot set, a create starts it. *)
Definition committed (local : option DefinitionObject) (namespace version : string) (now : Timestamp) (w : DefinitionWrite) : DefinitionObject :=
  let m := dw_meta w in
  match local with
  | Some o =>
      let old := df_metadata o in
      mkDefinition (mkMeta (om_name old) (om_namespace old) version (im_labels m) (im_annotations m) (im_owner_references m) (im_finalizers m) (im_deletion_timestamp m)
        (om_creation_timestamp old) (Some (dw_merge w))) (dw_spec w) (df_status o)
  | None =>
      mkDefinition (mkMeta (im_name m) namespace version (im_labels m) (im_annotations m) (im_owner_references m) (im_finalizers m) (im_deletion_timestamp m) now (Some (dw_merge w)))
        (dw_spec w) None
  end.
Definition commit (f : gmap NodeId Root) (r : NodeId) (namespace version : string) (now : Timestamp) (w : DefinitionWrite) : gmap NodeId Root :=
  let root := root_of f r in <[r := mkRoot (Some (committed (rt_local root) namespace version now w)) (rt_replicas root)]> f.

Inductive FleetOp : Type :=
| FApply (writer : WriterIdentity) (meta : InputMeta) (spec : Spec)
| FDelete (name : string) (marked : Timestamp)
| FMetadata (meta : InputMeta)
| FReceive (origin : NodeId).
(** One operation at a root, with the time, and the version its store gives. *)
Record FleetStep : Type := mkStep { fs_root : NodeId; fs_op : FleetOp; fs_now : Timestamp; fs_namespace : string; fs_version : string }.
Definition plan (f : gmap NodeId Root) (st : FleetStep) : option DefinitionWrite :=
  let sources := sources_for_name (fs_root st) (root_of f (fs_root st)) in
  match fs_op st with
  | FApply writer meta spec => match plan_apply (fs_root st) writer meta spec (fs_now st) sources with Ok (inr w) => Some w | _ => None end
  | FDelete name marked => match plan_delete (fs_root st) name (fs_now st) marked sources with Ok w => Some w | Err _ => None end
  | FMetadata meta => match plan_metadata meta sources with Ok w => Some w | Err _ => None end
  | FReceive _ => None
  end.
Definition fleet_step (f : gmap NodeId Root) (st : FleetStep) : gmap NodeId Root :=
  let r := fs_root st in
  match fs_op st with
  | FReceive origin =>
      match rt_local (root_of f origin) with
      | Some o => if bool_decide (origin = r) then f else <[r := mkRoot (rt_local (root_of f r)) (<[origin := (o, fs_now st)]> (rt_replicas (root_of f r)))]> f
      | None => f
      end
  | _ => match plan f st with Some w => commit f r (fs_namespace st) (fs_version st) (fs_now st) w | None => f end
  end.
Definition fleet_run (steps : list FleetStep) : gmap NodeId Root := foldl fleet_step ∅ steps.
Definition view (f : gmap NodeId Root) (r : NodeId) : result ResourceError DefinitionObject := merge_sources (sources_for_name r (root_of f r)).

(** * Dots in the order they were written *)

Definition count (r : NodeId) (hist : list NodeId) : Z := Z.of_nat (length (filter (fun x => x = r) hist)).
Lemma count_app r h1 h2 : count r (h1 ++ h2) = count r h1 + count r h2.
Proof. unfold count. rewrite filter_app, length_app. lia. Qed.
Lemma count_one r x : count r [x] = if decide (x = r) then 1 else 0.
Proof. unfold count. rewrite filter_cons. by case_decide. Qed.
Lemma count_nonneg r h : 0 <= count r h.
Proof. unfold count. lia. Qed.
Lemma count_length r h : count r h <= Z.of_nat (length h).
Proof. unfold count. pose proof (length_filter (fun x => x = r) h). lia. Qed.
Lemma count_take r n m h : (n <= m)%nat -> count r (take n h) <= count r (take m h).
Proof. intros Hle. assert (take m h = take n h ++ take (m - n) (drop n h)) as -> by (rewrite take_take_drop; f_equal; lia). rewrite count_app. pose proof (count_nonneg r (take (m - n) (drop n h))). lia. Qed.
Lemma count_take_all r n h : count r (take n h) <= count r h.
Proof. destruct (decide (n <= length h)%nat); [|by rewrite take_ge by lia]. rewrite <-(take_ge h (length h)) at 2 by done. by apply count_take. Qed.
Lemma count_take_S r j h : h !! j = Some r -> count r (take (S j) h) = count r (take j h) + 1.
Proof. intros Hj. rewrite (take_S_r _ _ _ Hj), count_app, count_one, decide_True by done. done. Qed.

(** A stamp of the write at a place: its root's next counter, and a context of
    writes before it. *)
Definition within (v : gmap NodeId Z) (hist : list NodeId) : Prop := forall r c, v !! r = Some c -> 1 <= c <= count r hist.
Definition stamped (hist : list NodeId) (md : FieldMergeMetadata) (j : nat) : Prop :=
  hist !! j = Some (cd_author_root (fm_dot md)) /\ cd_author_counter (fm_dot md) = count (cd_author_root (fm_dot md)) (take (S j) hist) /\ within (fm_seen md) (take j hist).
Lemma within_app v h1 h2 : within v h1 -> within v (h1 ++ h2).
Proof. intros Hv r c Hc. apply Hv in Hc. rewrite count_app. pose proof (count_nonneg r h2). lia. Qed.
Lemma within_take v j h : within v (take j h) -> within v h.
Proof. intros Hv r c Hc. apply Hv in Hc. pose proof (count_take_all r j h). lia. Qed.
Lemma stamped_app hist h2 md j : stamped hist md j -> stamped (hist ++ h2) md j.
Proof.
  intros (H1 & H2 & H3). pose proof (lookup_lt_Some _ _ _ H1). unfold stamped. rewrite lookup_app_l by done. rewrite !take_app_le by lia. done.
Qed.
Lemma stamped_counter hist md j : stamped hist md j -> 1 <= cd_author_counter (fm_dot md) <= count (cd_author_root (fm_dot md)) hist.
Proof.
  intros (H1 & H2 & _). rewrite H2, (count_take_S _ _ _ H1). pose proof (count_nonneg (cd_author_root (fm_dot md)) (take j hist)).
  pose proof (count_take_all (cd_author_root (fm_dot md)) (S j) hist). rewrite (count_take_S _ _ _ H1) in *. lia.
Qed.
(** A context covers only earlier writes, and a dot is of one write. *)
Lemma covers_earlier hist md md' j j' : stamped hist md j -> stamped hist md' j' -> covers (fm_seen md) (fm_dot md') = true -> (j' < j)%nat.
Proof.
  intros (_ & _ & H3) (H1' & H2' & _). unfold covers. destruct (fm_seen md !! _) as [c|] eqn:Hc; [|done]. cbn. rewrite bool_decide_eq_true, H2', (count_take_S _ _ _ H1'). intros Hle.
  apply H3 in Hc. destruct (decide (j' < j)%nat) as [|Hge]; [done|]. pose proof (count_take (cd_author_root (fm_dot md')) j j' hist). lia.
Qed.
Lemma dots_apart hist md md' j j' : stamped hist md j -> stamped hist md' j' -> fm_dot md = fm_dot md' -> j = j'.
Proof.
  assert (forall a b ma mb, stamped hist ma a -> stamped hist mb b -> fm_dot ma = fm_dot mb -> ~ (a < b)%nat) as Hlt.
  { intros a b ma mb (H1 & H2 & _) (H1' & H2' & _) Heq Hab. rewrite <-Heq in *. rewrite (count_take_S _ b) in H2' by done.
    pose proof (count_take (cd_author_root (fm_dot ma)) (S a) b hist ltac:(lia)). lia. }
  intros H H' Heq. pose proof (Hlt j j' md md' H H' Heq). pose proof (Hlt j' j md' md H' H (eq_sym Heq)). lia.
Qed.

(** * Records *)

(** A record's context and stamps are of the writes so far, and every path it
    speaks of has a stamp. *)
Definition recorded (hist : list NodeId) (o : DefinitionObject) (m : MergeMetadata) : Prop :=
  om_merge (df_metadata o) = Some m /\ within (mm_seen m) hist /\ (forall p md, mm_fields m !! p = Some md -> exists j, stamped hist md j) /\
  (forall f, is_Some (fields_of (df_spec o) !! f) -> is_Some (mm_fields m !! spec_path f)) /\ is_Some (mm_fields m !! DELETION_FIELD).
Definition all_recorded (hist : list NodeId) (sources : list DefinitionSource) : Prop := forall s, s ∈ sources -> exists m, recorded hist (sr_object s) m.
Lemma recorded_app hist h2 o m : recorded hist o m -> recorded (hist ++ h2) o m.
Proof.
  intros (H1 & H2 & H3 & H4 & H5). split_and!; [done|by apply within_app| |done|done]. intros p md Hp. destruct (H3 p md Hp) as [j Hj]. exists j. by apply stamped_app.
Qed.

Section recorded.
Context (hist : list NodeId) (sources : list DefinitionSource) (Hall : all_recorded hist sources).

Lemma said_stamped s path c : s ∈ sources -> said s path c -> exists j, stamped hist (fc_metadata c) j /\ dot_fact (fc_metadata c) ∈ source_facts s.
Proof.
  intros Hs Hc. destruct (Hall s Hs) as (m & Hm & _ & H3 & H4 & H5). assert (mm_fields m !! path = Some (fc_metadata c)) as Hp.
  { rewrite (said_metadata s path c Hc). unfold field_metadata. rewrite Hm. cbn. assert (is_Some (mm_fields m !! path)) as [md ->]; [|done].
    destruct Hc as [(f & v & Hv & -> & _)|[-> _]]; [|done]. apply H4. by exists v. }
  destruct (H3 _ _ Hp) as [j Hj]. exists j. split; [done|]. unfold source_facts. rewrite Hm. apply elem_of_app. right. apply list_elem_of_fmap_2.
  apply list_elem_of_fmap. exists (path, fc_metadata c). split; [done|]. by apply elem_of_map_iter.
Qed.
Lemma context_covers s path c : s ∈ sources -> said s path c -> covers (causal_context sources) (candidate_dot c) = true.
Proof.
  intros Hs Hc. destruct (said_stamped s path c Hs Hc) as (j & _ & Hf). destruct (context_fact sources s _ _ Hs Hf) as (n & Hn & Hle). unfold covers, candidate_dot. rewrite Hn. cbn. by apply bool_decide_eq_true.
Qed.
Lemma context_within : within (causal_context sources) hist.
Proof.
  intros r c Hc. apply context_from in Hc as (s & Hs & Hf). destruct (Hall s Hs) as (m & Hm & H2 & H3 & _). unfold source_facts in Hf. rewrite Hm in Hf.
  apply elem_of_app in Hf as [Hf|(md & Heq & Hmd)%list_elem_of_fmap]; [apply elem_of_map_iter in Hf; by apply H2|]. apply list_elem_of_fmap in Hmd as ([p md'] & -> & Hp%elem_of_map_iter).
  cbn in *. destruct (H3 p md' Hp) as [j Hj]. apply stamped_counter in Hj. unfold dot_fact in Heq. injection Heq as -> ->. done.
Qed.
(** Some candidate is the latest written. *)
Lemma latest (cs : list FieldCandidate) : cs <> [] -> (forall c, c ∈ cs -> exists j, stamped hist (fc_metadata c) j) ->
  exists c j, c ∈ cs /\ stamped hist (fc_metadata c) j /\ forall c' j', c' ∈ cs -> stamped hist (fc_metadata c') j' -> (j' <= j)%nat.
Proof.
  induction cs as [|c cs IH]; [done|]. intros _ Hst. destruct (Hst c) as [j Hj]; [constructor|].
  assert (forall j', stamped hist (fc_metadata c) j' -> j' = j) as Hj1 by (intros j' Hj'; by apply (dots_apart hist (fc_metadata c) (fc_metadata c))).
  destruct (decide (cs = [])) as [->|Hne].
  { exists c, j. split_and!; [constructor|done|]. intros c' j' ->%list_elem_of_singleton Hj'. by rewrite (Hj1 j'). }
  destruct IH as (c1 & j1 & Hc1 & Hs1 & Hmax); [done|intros c' Hc'; apply Hst; by constructor|]. destruct (decide (j <= j1)%nat).
  - exists c1, j1. split_and!; [by constructor|done|]. intros c' j' [->|Hc']%elem_of_cons Hj'; [by rewrite (Hj1 j')|by apply (Hmax c')].
  - exists c, j. split_and!; [constructor|done|]. intros c' j' [->|Hc']%elem_of_cons Hj'; [by rewrite (Hj1 j')|]. pose proof (Hmax c' j' Hc' Hj'). lia.
Qed.
Lemma recorded_merges : exists fields, merged_fields (sorted_sources sources) = Ok fields.
Proof.
  destruct (merged_fields_Ok (sorted_sources sources)) as (fields & Hf & _); [|by exists fields]. intros path Hne.
  destruct (latest (candidates_at (sorted_sources sources) path) Hne) as (c & j & Hc & Hj & Hmax).
  { intros c (s & Hs & Hc)%elem_of_candidates. rewrite elem_of_sorted_sources in Hs. destruct (said_stamped s path c Hs Hc) as (j & Hj & _). by exists j. }
  intros He. apply (not_elem_of_nil c). rewrite <-He. apply elem_of_maximal. split; [done|]. intros other Ho. unfold overwrites. apply andb_false_iff. right.
  destruct (covers _ _) eqn:Hcov; [|done]. pose proof Ho as (s & Hs & Hso)%elem_of_candidates. rewrite elem_of_sorted_sources in Hs. destruct (said_stamped s path other Hs Hso) as (j' & Hj' & _).
  pose proof (covers_earlier hist _ _ j' j Hj' Hj Hcov). pose proof (Hmax other j' Ho Hj'). lia.
Qed.
Lemma shown_stamped fields path r : merged_fields (sorted_sources sources) = Ok fields -> fields !! path = Some r -> exists j, stamped hist (fc_metadata r.1) j.
Proof.
  intros Hf Hr. destruct (chosen_shows sources fields path r Hf Hr) as ([(s & Hs & Hc) _] & _). destruct (said_stamped s path r.1 Hs Hc) as (j & Hj & _). by exists j.
Qed.
(** Every path some source speaks of is merged. *)
Lemma spoken_merged fields s path c : merged_fields (sorted_sources sources) = Ok fields -> s ∈ sources -> said s path c -> is_Some (fields !! path).
Proof.
  intros Hf Hs Hc. assert (candidates_at (sorted_sources sources) path <> []) as Hne.
  { intros He. apply (not_elem_of_nil c). rewrite <-He. apply elem_of_candidates. exists s. by rewrite elem_of_sorted_sources. }
  pose proof (merged_fields_maximal _ _ Hf path Hne) as Hmax. destruct (field_values_Ok (candidates_at (sorted_sources sources) path)) as (vs & Hvs & _ & H2 & _).
  destruct (causally_maximal _) as [|x l] eqn:Hx; [done|]. destruct (H2 x) as (x' & Hx' & _); [constructor|]. destruct vs as [|v vs]; [by apply not_elem_of_nil in Hx'|].
  exists (v, v :: vs). apply (merged_fields_lookup _ _ Hf). by split.
Qed.
Lemma merged_recorded o : merge_sources sources = Ok o -> exists m, recorded hist o m /\ mm_seen m = causal_context sources.
Proof.
  intros (fields & source & Hf & Hh & Hs & _ & Hm)%merge_sources_Ok. exists (mkMerge (fc_metadata ∘ fst <$> fields) (causal_context sources) (conflicts_of fields)).
  split; [|done]. unfold recorded. rewrite Hm. split; [done|].
  assert (source ∈ sources) as Hin by (apply elem_of_sorted_sources; destruct (sorted_sources sources); [done|]; injection Hh as ->; constructor).
  split_and!; [apply context_within| | |].
  - intros p md. cbn. rewrite lookup_fmap. destruct (fields !! p) as [r|] eqn:Hr; [|done]. cbn. intros [= <-]. by apply (shown_stamped fields p).
  - intros f Hf'. cbn. rewrite lookup_fmap, fmap_is_Some. assert (is_Some (merged_spec fields !! f)) as Hsp; [|by rewrite merged_spec_lookup, fmap_is_Some in Hsp].
    apply (fields_from (merged_spec fields) (df_spec o)); [|done|done]. intros f0 Hf0. apply elem_of_dom. rewrite merged_spec_lookup, fmap_is_Some.
    destruct (fields_always (df_spec (sr_object source)) f0 Hf0) as [v Hv]. apply (spoken_merged fields source _ (mkCandidate v (field_metadata source (spec_path f0))) Hf Hin). left. by exists f0, v.
  - cbn. rewrite lookup_fmap, fmap_is_Some. eapply (spoken_merged fields source); [done|done|]. right. done.
Qed.
End recorded.

(** * Writes *)

Lemma applied_fields_lookup current current_spec requested stamp path : applied_fields current current_spec requested stamp !! path =
  if existsb (fun p => restamps current current_spec requested p && bool_decide (spec_path p.1 = path)) (map_iter requested) then Some stamp else mm_fields (merge_of current) !! path.
Proof.
  unfold applied_fields. generalize (mm_fields (merge_of current)). induction (map_iter requested) as [|p l IH]; intros m; cbn; [done|]. rewrite IH. clear IH.
  destruct (restamps current current_spec requested p); cbn; [|done]. case_bool_decide as Hp; cbn; [|by rewrite lookup_insert_ne].
  subst path. rewrite lookup_insert_eq. by destruct (existsb _ l).
Qed.
Lemma applied_fields_stamped current current_spec requested stamp f v : requested !! f = Some v -> restamps current current_spec requested (f, v) = true ->
  applied_fields current current_spec requested stamp !! spec_path f = Some stamp.
Proof.
  intros Hf Hr. rewrite applied_fields_lookup. rewrite (proj2 (existsb_elem _ _)); [done|]. exists (f, v). split; [by apply elem_of_map_iter|]. rewrite Hr. by apply bool_decide_eq_true.
Qed.
Lemma applied_fields_from current current_spec requested stamp path md : applied_fields current current_spec requested stamp !! path = Some md ->
  md = stamp \/ mm_fields (merge_of current) !! path = Some md.
Proof. rewrite applied_fields_lookup. destruct (existsb _ _); [intros [= <-]; by left|by right]. Qed.

(** A write at the next dot: what it restamps, it does with everything read in
    its context; the other stamps are those it read. *)
Record dotted (hist : list NodeId) (r : NodeId) (sources : list DefinitionSource) (w : DefinitionWrite) (stamp : FieldMergeMetadata) : Prop := {
  dt_dot : fm_dot stamp = next_dot (causal_context sources) r;
  dt_seen : fm_seen stamp = causal_context sources;
  dt_merge : mm_seen (dw_merge w) = <[r := cd_author_counter (fm_dot stamp)]> (causal_context sources);
  dt_conflicts : mm_conflicts (dw_merge w) = ∅;
  dt_deletion : mm_fields (dw_merge w) !! DELETION_FIELD = Some stamp;
  dt_fields : forall p md, mm_fields (dw_merge w) !! p = Some md -> md = stamp \/ exists j, stamped hist md j;
  dt_spec : forall f, is_Some (fields_of (dw_spec w) !! f) -> is_Some (mm_fields (dw_merge w) !! spec_path f);
}.
Lemma plan_delete_dotted hist r name now marked sources w : all_recorded hist sources -> plan_delete r name now marked sources = Ok w ->
  exists stamp, dotted hist r sources w stamp /\ im_deletion_timestamp (dw_meta w) = Some marked /\ fm_written_at stamp = now.
Proof.
  intros Hall. unfold plan_delete. destruct sources as [|s0 l]; [done|]. destruct (merge_sources _) as [o|] eqn:Ho; [|done]. cbn -[next_dot causal_context]. intros [= <-].
  destruct (merged_recorded hist _ Hall o Ho) as (m & (Hm & _ & H3 & H4 & H5) & _). eexists (mkFieldMerge _ _ _ _). split_and!; [|done|reflexivity]. unfold merge_of. cbn -[next_dot causal_context]. rewrite Hm.
  split; cbn -[next_dot causal_context]; try done; [by rewrite lookup_insert_eq| |].
  - intros p md [[_ <-]|[_ Hp]]%lookup_insert_Some; [by left|]. right. by apply (H3 p).
  - intros f Hf. rewrite lookup_insert_ne by done. by apply H4.
Qed.
(** [plan_apply], by the view it read. *)
Definition read_current (sources : list DefinitionSource) (current : option DefinitionObject) : Prop :=
  match current with None => sources = [] | Some o => sources <> [] /\ merge_sources sources = Ok o end.
Definition applied_stamp (r : NodeId) (writer : WriterIdentity) (now : Timestamp) (sources : list DefinitionSource) : FieldMergeMetadata :=
  mkFieldMerge (next_dot (causal_context sources) r) (causal_context sources) now (Some writer).
Definition applied_write (r : NodeId) (writer : WriterIdentity) (meta : InputMeta) (spec : Spec) (now : Timestamp) (sources : list DefinitionSource) (current : option DefinitionObject) : DefinitionWrite :=
  let stamp := applied_stamp r writer now sources in
  mkWrite (with_deletion meta None) spec (stamped_merge (causal_context sources) (fm_dot stamp) stamp (applied_fields current (fields_of ∘ df_spec <$> current) (fields_of spec) stamp)).
Definition view_changes (meta : InputMeta) (spec : Spec) (current : option DefinitionObject) : bool :=
  bool_decide (fields_of ∘ df_spec <$> current = None) || from_option (fun o => bool_decide (input_of (df_metadata o) <> with_deletion meta None)) false current ||
  existsb (restamps current (fields_of ∘ df_spec <$> current) (fields_of spec)) (map_iter (fields_of spec)) ||
  bool_decide (is_Some (mm_conflicts (merge_of current) !! DELETION_FIELD)) || from_option is_deleted false current.
Lemma plan_apply_eq r writer meta spec now sources current : read_current sources current -> plan_apply r writer meta spec now sources =
  if view_changes meta spec current then Ok (inr (applied_write r writer meta spec now sources current)) else o ← ok_or current (NotFound (im_name meta)); Ok (inl o).
Proof.
  intros Hc. unfold plan_apply. assert ((match sources with [] => Ok None | _ => o ← merge_sources sources; Ok (Some o) end : result ResourceError (option DefinitionObject)) = Ok current) as ->.
  { destruct current as [o|]; cbn in Hc; [destruct Hc as [Hne Ho]|by subst]. destruct sources; [done|]. by rewrite Ho. }
  cbn -[next_dot causal_context]. rewrite spec_object_fields. cbn -[next_dot causal_context].
  assert ((match current with None => Ok None | Some o => fields ← spec_object (df_spec o); Ok (Some fields) end : result ResourceError (option (gmap string JValue))) =
    Ok (fields_of ∘ df_spec <$> current)) as -> by (destruct current; cbn; by rewrite ?spec_object_fields). done.
Qed.
Lemma plan_apply_current r writer meta spec now sources a : plan_apply r writer meta spec now sources = Ok a -> exists current, read_current sources current.
Proof.
  unfold plan_apply. destruct sources as [|s0 l]; [by exists None|]. destruct (merge_sources _) as [o|] eqn:Ho; [|done]. intros _. by exists (Some o).
Qed.
(** A field an apply does not restamp has the view's value. *)
Lemma not_restamped current requested f v : restamps current (fields_of ∘ df_spec <$> current) requested (f, v) = false -> exists o, current = Some o /\ fields_of (df_spec o) !! f = Some v.
Proof.
  unfold restamps, value_changed. cbn. rewrite !orb_false_iff, !bool_decide_eq_false. intros [[Hv _] Hn]. destruct current as [o|]; [|done]. exists o. split; [done|]. cbn in Hv. by apply dec_stable in Hv.
Qed.
Lemma plan_apply_dotted hist r writer meta spec now sources w : all_recorded hist sources -> plan_apply r writer meta spec now sources = Ok (inr w) ->
  exists stamp, dotted hist r sources w stamp /\ im_deletion_timestamp (dw_meta w) = None /\ dw_spec w = spec /\
  forall f v, fields_of spec !! f = Some v -> (forall o, merge_sources sources = Ok o -> sources <> [] -> fields_of (df_spec o) !! f <> Some v) -> mm_fields (dw_merge w) !! spec_path f = Some stamp.
Proof.
  intros Hall Hp. destruct (plan_apply_current _ _ _ _ _ _ _ Hp) as [current Hc]. rewrite (plan_apply_eq _ _ _ _ _ _ current Hc) in Hp.
  destruct (view_changes meta spec current); [|destruct current; cbn in Hp; congruence]. injection Hp as <-. exists (applied_stamp r writer now sources). split_and!; [|done|done|].
  - assert (forall o, current = Some o -> exists m, recorded hist o m /\ merge_of current = m) as Hcur.
    { intros o ->. destruct Hc as [_ Ho]. destruct (merged_recorded hist sources Hall o Ho) as (m & Hm & _). exists m. split; [done|]. unfold merge_of. cbn. by rewrite (proj1 Hm). }
    split; cbn -[next_dot causal_context]; try done; [by rewrite lookup_insert_eq| |].
    + intros p md [[_ <-]|[_ Hmd]]%lookup_insert_Some; [by left|]. apply applied_fields_from in Hmd as [->|Hmd]; [by left|]. right. destruct current as [o|]; [|unfold merge_of in Hmd; cbn in Hmd; by rewrite lookup_empty in Hmd].
      destruct (Hcur o eq_refl) as (m & (_ & _ & H3 & _) & Hm). rewrite Hm in Hmd. by apply (H3 p).
    + intros f [v Hv]. rewrite lookup_insert_ne by done. destruct (restamps current (fields_of ∘ df_spec <$> current) (fields_of spec) (f, v)) eqn:Hr.
      * rewrite (applied_fields_stamped _ _ _ _ f v) by done. done.
      * destruct (not_restamped _ _ _ _ Hr) as (o & Hco & Hf). destruct (Hcur o Hco) as (m & (_ & _ & _ & H4 & _) & Hm). rewrite applied_fields_lookup. destruct (existsb _ _); [done|]. rewrite Hm. apply H4. by exists v.
  - intros f v Hv Hch. cbn. rewrite lookup_insert_ne by done. apply (applied_fields_stamped _ _ _ _ f v Hv). unfold restamps, value_changed. cbn. destruct current as [o|]; [|done]. cbn.
    rewrite bool_decide_true; [done|]. destruct Hc as [Hne Ho]. by apply Hch.
Qed.

(** * Fleets *)

(** A root knows all its own writes, and holds copies of other roots'. *)
Record root_ok (hist : list NodeId) (r : NodeId) (root : Root) : Prop := {
  rk_local : match rt_local root with Some o => exists m, recorded hist o m /\ known (mm_seen m) r = count r hist | None => count r hist = 0 end;
  rk_replicas : forall origin o t, rt_replicas root !! origin = Some (o, t) -> origin <> r /\ exists m, recorded hist o m;
}.
Definition fleet_ok (hist : list NodeId) (f : gmap NodeId Root) : Prop := forall r, root_ok hist r (root_of f r).
Lemma fleet_ok_empty : fleet_ok [] ∅.
Proof. intros r. unfold root_of. rewrite lookup_empty. split; cbn; [done|]. intros origin o t Ho. by rewrite lookup_empty in Ho. Qed.
Lemma root_of_insert f r root r' : root_of (<[r := root]> f) r' = if decide (r = r') then root else root_of f r'.
Proof. unfold root_of. case_decide as Hr; [subst; by rewrite lookup_insert_eq|by rewrite lookup_insert_ne]. Qed.
Lemma elem_of_sources r root s : s ∈ sources_for_name r root <->
  (exists o, rt_local root = Some o /\ s = mkSource o r None) \/ exists origin o t, rt_replicas root !! origin = Some (o, t) /\ s = mkSource o origin (Some t).
Proof.
  unfold sources_for_name. rewrite elem_of_app, list_elem_of_fmap. split.
  - intros [Hs|([origin [o t]] & -> & Hin%elem_of_map_iter)]; [left|right; by exists origin, o, t]. destruct (rt_local root) as [o|]; [|by apply not_elem_of_nil in Hs].
    apply list_elem_of_singleton in Hs as ->. by exists o.
  - intros [(o & -> & ->)|(origin & o & t & Ho & ->)]; [left; constructor|]. right. exists (origin, (o, t)). split; [done|]. by apply elem_of_map_iter.
Qed.
Lemma sources_recorded hist r root : root_ok hist r root -> all_recorded hist (sources_for_name r root).
Proof.
  intros [Hl Hr] s [(o & Ho & ->)|(origin & o & t & Ho & ->)]%elem_of_sources; cbn; [|by destruct (Hr origin o t Ho)]. rewrite Ho in Hl. destruct Hl as (m & Hm & _). by exists m.
Qed.
(** A root's next dot is its next write. *)
Lemma root_context hist r root : root_ok hist r root -> known (causal_context (sources_for_name r root)) r = count r hist.
Proof.
  intros Hok. pose proof (context_within hist _ (sources_recorded hist r root Hok)) as Hw. unfold known. destruct Hok as [Hl _]. destruct (causal_context _ !! r) as [c|] eqn:Hc; cbn.
  - destruct (Hw r c Hc) as [H1 H2]. destruct (rt_local root) as [o|] eqn:Ho; [|lia]. destruct Hl as (m & (Hm & Hs & _) & Hk). unfold known in Hk.
    destruct (mm_seen m !! r) as [n|] eqn:Hn; cbn in Hk; [|lia]. destruct (context_fact (sources_for_name r root) (mkSource o r None) r n) as (n' & Hn' & Hle).
    + apply elem_of_sources. left. by exists o.
    + unfold source_facts. cbn. rewrite Hm. apply elem_of_app. left. by apply elem_of_map_iter.
    + rewrite Hc in Hn'. injection Hn' as <-. lia.
  - destruct (rt_local root) as [o|] eqn:Ho; [|done]. destruct Hl as (m & (Hm & Hs & _) & Hk). rewrite <-Hk. unfold known. destruct (mm_seen m !! r) as [n|] eqn:Hn; [|done].
    destruct (context_fact (sources_for_name r root) (mkSource o r None) r n) as (n' & Hn' & _); [apply elem_of_sources; left; by exists o| |congruence].
    unfold source_facts. cbn. rewrite Hm. apply elem_of_app. left. by apply elem_of_map_iter.
Qed.
Lemma next_dot_fresh hist r root : root_ok hist r root -> Z.of_nat (length hist) < u64_max -> next_dot (causal_context (sources_for_name r root)) r = mkDot r (count r hist + 1).
Proof.
  intros Hok Hlen. unfold next_dot. pose proof (root_context hist r root Hok) as Hk. unfold known in Hk. rewrite Hk. f_equal. pose proof (count_length r hist). unfold u64_saturating_add. lia.
Qed.
(** The record a dotted write leaves. *)
Lemma committed_spec local namespace version now w : df_spec (committed local namespace version now w) = dw_spec w.
Proof. by destruct local. Qed.
Lemma committed_merge local namespace version now w : om_merge (df_metadata (committed local namespace version now w)) = Some (dw_merge w).
Proof. by destruct local. Qed.
Lemma committed_deleted local namespace version now w : om_deletion_timestamp (df_metadata (committed local namespace version now w)) = im_deletion_timestamp (dw_meta w).
Proof. by destruct local. Qed.
Section dotted.
Context (hist : list NodeId) (r : NodeId) (root : Root) (w : DefinitionWrite) (stamp : FieldMergeMetadata) (namespace version : string) (now : Timestamp).
Context (Hok : root_ok hist r root) (Hlen : Z.of_nat (length hist) < u64_max) (Hw : dotted hist r (sources_for_name r root) w stamp).
#[local] Abbreviation record := (committed (rt_local root) namespace version now w).

Lemma stamp_dot : fm_dot stamp = mkDot r (count r hist + 1).
Proof. rewrite (dt_dot _ _ _ _ _ Hw). by apply next_dot_fresh. Qed.
Lemma stamp_stamped : stamped (hist ++ [r]) stamp (length hist).
Proof.
  unfold stamped. rewrite stamp_dot, (dt_seen _ _ _ _ _ Hw). cbn [cd_author_root cd_author_counter]. rewrite lookup_app_r, Nat.sub_diag by done. split_and!; [done| |].
  - rewrite take_ge by (rewrite length_app; cbn; lia). rewrite count_app, count_one, decide_True by done. done.
  - rewrite take_app_length. by apply context_within, sources_recorded.
Qed.
Lemma dotted_recorded : recorded (hist ++ [r]) record (dw_merge w) /\ known (mm_seen (dw_merge w)) r = count r (hist ++ [r]).
Proof.
  assert (count r (hist ++ [r]) = count r hist + 1) as Hc by (rewrite count_app, count_one, decide_True; done).
  split; [|unfold known; rewrite (dt_merge _ _ _ _ _ Hw), lookup_insert_eq, stamp_dot, Hc; done]. split_and!; [apply committed_merge| | | |rewrite (dt_deletion _ _ _ _ _ Hw); done].
  - intros x c. rewrite (dt_merge _ _ _ _ _ Hw), stamp_dot. cbn. intros [[<- <-]|[_ Hx]]%lookup_insert_Some; [rewrite Hc; pose proof (count_nonneg r hist); lia|].
    revert Hx. apply within_app. by apply context_within, sources_recorded.
  - intros p md Hp. destruct (dt_fields _ _ _ _ _ Hw p md Hp) as [->|[j Hj]]; [exists (length hist); apply stamp_stamped|]. exists j. by apply stamped_app.
  - intros f. rewrite committed_spec. apply (dt_spec _ _ _ _ _ Hw).
Qed.

(** What a path it restamped shows afterwards: the value written. *)
#[local] Abbreviation after := (sources_for_name r (mkRoot (Some record) (rt_replicas root))).
Lemma after_recorded : all_recorded (hist ++ [r]) after.
Proof.
  intros s [(o & Ho & ->)|(origin & o & t & Ho & ->)]%elem_of_sources; cbn in *; [injection Ho as <-; exists (dw_merge w); apply dotted_recorded|].
  destruct (rk_replicas _ _ _ Hok origin o t Ho) as [_ [m Hm]]. exists m. by apply recorded_app.
Qed.
Lemma restamped_shown path c : mm_fields (dw_merge w) !! path = Some stamp -> said (mkSource record r None) path c -> forall c', shows after path c' -> c' = c.
Proof.
  intros Hp Hc c' [(s & Hs & Hc') Hmax]. pose proof Hs as [(o & Ho & ->)|(origin & o & t & Ho & ->)]%elem_of_sources; cbn in Ho; [injection Ho as <-; by apply (said_unique (mkSource record r None) path)|].
  exfalso. assert (fc_metadata c = stamp) as Hmd.
  { rewrite (said_metadata _ _ _ Hc). unfold field_metadata. cbn [sr_object]. rewrite committed_merge. cbn. by rewrite Hp. }
  assert (mkSource o origin (Some t) ∈ sources_for_name r root) as Hs' by (apply elem_of_sources; right; by exists origin, o, t).
  pose proof (sources_recorded hist r root Hok) as Hall. destruct (said_stamped hist _ Hall _ path c' Hs' Hc') as (j & Hj & _).
  assert (overwrites c c' = true) as Hov.
  { unfold overwrites, candidate_dot. rewrite Hmd, (dt_seen _ _ _ _ _ Hw). apply andb_true_iff. split.
    - apply bool_decide_eq_true. intros Heq. apply stamped_counter in Hj. rewrite <-Heq, stamp_dot in Hj. cbn in Hj. lia.
    - apply (context_covers hist _ Hall _ path c' Hs' Hc'). }
  rewrite (Hmax (mkSource record r None) c) in Hov; [done| |done]. apply elem_of_sources. left. by exists record.
Qed.
Lemma restamped_merged path c fields : mm_fields (dw_merge w) !! path = Some stamp -> said (mkSource record r None) path c -> merged_fields (sorted_sources after) = Ok fields ->
  fields !! path = Some (c, [c]).
Proof.
  intros Hp Hc Hf. assert (mkSource record r None ∈ after) as Hin by (apply elem_of_sources; left; by exists record).
  destruct (spoken_merged after fields _ path c Hf Hin Hc) as [[c0 vs] Hr]. rewrite Hr. destruct (chosen_shows after fields path _ Hf Hr) as (H1 & H2 & _ & H4 & H5). cbn in *.
  pose proof (restamped_shown path c Hp Hc) as Hone. rewrite (Hone c0 H1) in *. f_equal. f_equal. destruct vs as [|a [|b vs]]; [by apply not_elem_of_nil in H5| |].
  - apply list_elem_of_singleton in H5. by rewrite H5.
  - rewrite (Hone a), (Hone b) in H4; [|apply H2; constructor; constructor|apply H2; constructor]. cbn in H4. apply NoDup_cons in H4 as [Hn _]. destruct Hn. constructor.
Qed.
End dotted.

(** * Every step *)

Lemma root_ok_app hist r r' root : root_ok hist r root -> r <> r' -> root_ok (hist ++ [r']) r root.
Proof.
  intros [Hl Hr] Hne. assert (count r (hist ++ [r']) = count r hist) as Hc by (rewrite count_app, count_one, decide_False by done; lia). split.
  - rewrite Hc. destruct (rt_local root) as [o|]; [|done]. destruct Hl as (m & Hm & Hk). exists m. split; [by apply recorded_app|done].
  - intros origin o t Ho. destruct (Hr origin o t Ho) as (Hn & m & Hm). split; [done|]. exists m. by apply recorded_app.
Qed.
Lemma dotted_step hist f r w stamp namespace version now : fleet_ok hist f -> Z.of_nat (length hist) < u64_max -> dotted hist r (sources_for_name r (root_of f r)) w stamp ->
  fleet_ok (hist ++ [r]) (commit f r namespace version now w).
Proof.
  intros Hf Hlen Hw r'. unfold commit. rewrite root_of_insert. case_decide as Hr; [subst r'|by apply root_ok_app]. split; cbn.
  - exists (dw_merge w). by apply (dotted_recorded hist r (root_of f r) w stamp).
  - intros origin o t Ho. destruct (rk_replicas _ _ _ (Hf r) origin o t Ho) as (Hn & m & Hm). split; [done|]. exists m. by apply recorded_app.
Qed.
Lemma metadata_step hist f r meta w namespace version now : fleet_ok hist f -> plan_metadata meta (sources_for_name r (root_of f r)) = Ok w ->
  fleet_ok hist (commit f r namespace version now w).
Proof.
  intros Hf. unfold plan_metadata, get_merged. destruct (sources_for_name r (root_of f r)) as [|s0 l] eqn:Hs; [done|]. rewrite <-Hs. destruct (merge_sources _) as [o|] eqn:Ho; [|done]. cbn [mbind result_bind].
  destruct (definition_is_visible o); [|done]. cbn [mbind result_bind]. intros [= <-] r'. unfold commit. rewrite root_of_insert. case_decide as Hr; [subst r'|done]. split; cbn [rt_local rt_replicas]; [|apply (rk_replicas _ _ _ (Hf r))].
  destruct (merged_recorded hist _ (sources_recorded hist r _ (Hf r)) o Ho) as (m & (Hm & H2 & H3 & H4 & H5) & Hseen). exists m.
  assert (merge_of (Some o) = m) as -> by (unfold merge_of; cbn; by rewrite Hm). split; [|rewrite Hseen; by apply root_context].
  split_and!; [apply committed_merge|done|done|by rewrite committed_spec|done].
Qed.
Lemma receive_step hist f r origin o now : fleet_ok hist f -> rt_local (root_of f origin) = Some o -> origin <> r ->
  fleet_ok hist (<[r := mkRoot (rt_local (root_of f r)) (<[origin := (o, now)]> (rt_replicas (root_of f r)))]> f).
Proof.
  intros Hf Ho Hne r'. rewrite root_of_insert. case_decide as Hr; [subst r'|done]. split; cbn; [apply (rk_local _ _ _ (Hf r))|].
  intros x y t [[<- [= <- <-]]|[_ Hx]]%lookup_insert_Some; [|by apply (rk_replicas _ _ _ (Hf r) x y t)]. split; [done|]. pose proof (rk_local _ _ _ (Hf origin)) as Hl. rewrite Ho in Hl.
  destruct Hl as (m & Hm & _). by exists m.
Qed.
Lemma fleet_step_ok hist f st : fleet_ok hist f -> Z.of_nat (length hist) < u64_max -> exists more, fleet_ok (hist ++ more) (fleet_step f st) /\ (length more <= 1)%nat.
Proof.
  intros Hf Hlen. assert (exists more, fleet_ok (hist ++ more) f /\ (length more <= 1)%nat) as Hsame by (exists []; rewrite app_nil_r; split; [done|cbn; lia]).
  destruct st as [r op now namespace version]. unfold fleet_step, plan. cbn. pose proof (sources_recorded hist r _ (Hf r)) as Hall. destruct op as [writer meta spec|name marked|meta|origin].
  - destruct (plan_apply _ _ _ _ _ _) as [[o|w]|] eqn:Hp; [done| |done]. destruct (plan_apply_dotted hist r writer meta spec now _ w Hall Hp) as (stamp & Hw & _). exists [r]. split; [by apply (dotted_step hist f r w stamp)|done].
  - destruct (plan_delete _ _ _ _ _) as [w|] eqn:Hp; [|done]. destruct (plan_delete_dotted hist r name now marked _ w Hall Hp) as (stamp & Hw & _). exists [r]. split; [by apply (dotted_step hist f r w stamp)|done].
  - destruct (plan_metadata _ _) as [w|] eqn:Hp; [|done]. exists []. rewrite app_nil_r. split; [by apply (metadata_step hist f r meta)|cbn; lia].
  - destruct (rt_local _) as [o|] eqn:Ho; [|done]. case_bool_decide as Hr; [done|]. exists []. rewrite app_nil_r. split; [by apply receive_step|cbn; lia].
Qed.
Lemma fleet_run_ok steps : Z.of_nat (length steps) <= u64_max -> exists hist, fleet_ok hist (fleet_run steps) /\ (length hist <= length steps)%nat.
Proof.
  unfold fleet_run. induction steps as [|st steps IH] using rev_ind; intros Hlen; [exists []; split; [apply fleet_ok_empty|done]|]. rewrite length_app in Hlen. cbn in Hlen.
  destruct IH as (hist & Hf & Hh); [lia|]. rewrite foldl_app. destruct (fleet_step_ok hist _ st Hf) as (more & Hf' & Hm); [lia|]. exists (hist ++ more). split; [done|]. rewrite !length_app. cbn. lia.
Qed.

(** * What a write leaves to read *)

Lemma dotted_reads hist r root w stamp namespace version now : root_ok hist r root -> Z.of_nat (length hist) < u64_max -> dotted hist r (sources_for_name r root) w stamp ->
  let after := sources_for_name r (mkRoot (Some (committed (rt_local root) namespace version now w)) (rt_replicas root)) in
  exists fields, merged_fields (sorted_sources after) = Ok fields /\
  deleted_at fields = (if bool_decide (is_Some (im_deletion_timestamp (dw_meta w))) then Some (fm_written_at stamp) else None) /\ conflicts_of fields !! DELETION_FIELD = None /\
  forall f v, fields_of (dw_spec w) !! f = Some v -> mm_fields (dw_merge w) !! spec_path f = Some stamp -> merged_spec fields !! f = Some v /\ conflicts_of fields !! spec_path f = None.
Proof.
  intros Hok Hlen Hw after. destruct (recorded_merges (hist ++ [r]) after) as [fields Hf]; [by apply (after_recorded hist r root w stamp)|]. exists fields. split; [done|].
  pose proof (restamped_merged hist r root w stamp namespace version now Hok Hlen Hw) as Hm. set (o := committed (rt_local root) namespace version now w) in *.
  pose proof (Hm DELETION_FIELD (mkCandidate (json_bool (is_deleted o)) (field_metadata (mkSource o r None) DELETION_FIELD)) fields (dt_deletion _ _ _ _ _ Hw) ltac:(right; done) Hf) as Hd.
  split_and!.
  - unfold deleted_at. rewrite Hd. cbn -[o]. rewrite as_bool_bool. cbn -[o]. unfold is_deleted. rewrite (committed_deleted (rt_local root) namespace version now w : om_deletion_timestamp (df_metadata o) = _).
    case_bool_decide; [|done]. unfold field_metadata. cbn [sr_object]. rewrite (committed_merge (rt_local root) namespace version now w : om_merge (df_metadata o) = _). cbn. by rewrite (dt_deletion _ _ _ _ _ Hw).
  - unfold conflicts_of. rewrite lookup_omap, Hd. done.
  - intros f v Hv Hst. pose proof (Hm (spec_path f) (mkCandidate v (field_metadata (mkSource o r None) (spec_path f))) fields Hst) as Hr.
    rewrite merged_spec_lookup. unfold conflicts_of. rewrite lookup_omap, Hr; [done| |done]. left. exists f, v. split; [|done]. cbn [sr_object]. unfold o. by rewrite committed_spec.
Qed.
Lemma sorted_head_Some sources : sources <> [] -> exists s, head (sorted_sources sources) = Some s.
Proof.
  destruct sources as [|x l]; [done|]. intros _. assert (x ∈ sorted_sources (x :: l)) as Hx by (apply elem_of_sorted_sources; constructor).
  destruct (sorted_sources (x :: l)) as [|s l']; [by apply not_elem_of_nil in Hx|by exists s].
Qed.
(** A field a caller asks for that the view does not already have: one its spec
    writes. A field the spec leaves out is not asked for. *)
Definition asks (f : gmap NodeId Root) (r : NodeId) (spec : Spec) (field : string) (v : JValue) : Prop :=
  fields_of spec !! field = Some v /\ forall o, view f r = Ok o -> fields_of (df_spec o) !! field <> Some v.
(** The fields a merge shows: on each, the value of one that stands for it. *)
Definition merged_of (sources : list DefinitionSource) (merged : gmap string JValue) : Prop :=
  forall field, match merged !! field with
                | Some v => exists c, stands sources (spec_path field) c /\ fc_value c = v
                | None => forall c, ~ shows sources (spec_path field) c
                end.
Lemma merged_spec_of sources fields : merged_fields (sorted_sources sources) = Ok fields -> merged_of sources (merged_spec fields).
Proof.
  intros Hf field. rewrite merged_spec_lookup. destruct (fields !! spec_path field) as [r|] eqn:Hr; cbn; [|by apply (merged_none sources fields)].
  exists r.1. split; [|done]. apply (chosen_shown sources fields _ r Hf Hr). by apply (chosen_shows sources fields (spec_path field) r).
Qed.
End fleet.
