(* ===== verification/MergeSerial.v ===== *)
(** Edits of a definition made one after the other, each at a root that has
    received every other root's record: the fleet is one register, which every
    root reads at some point of its past and an up-to-date root reads as it is. *)

From Stdlib Require Import Ascii.
From S2P Require Import Text Encoding Address Names.
From S2P Require Import Prelude Ordered Schema Effects Kinds Inverted MessageIndex QueryIndex Digest MemStore MemWatch MemReplica Merge MergeFacts MergeFleet.
#[local] Open Scope Z_scope.

Section serial.
Context {JS : Json} {JT : JsonText} {JB : JsonBuild} {DK : DefinitionKind}.

(** * The register *)

(** A definition's fields and whether it is deleted. *)
Definition Register : Type := option (gmap string JValue * bool).
Definition register_step (reg : Register) (st : FleetStep) : Register :=
  match fs_op st with
  | FApply _ _ spec => Some (fields_of spec, false)
  | FDelete _ _ => (fun s => (s.1, true)) <$> reg
  | FMetadata _ | FReceive _ => reg
  end.
Definition register_run (steps : list FleetStep) : Register := foldl register_step None steps.
(** What a reader of the register gets. *)
Definition reads (reg : Register) (name : string) (got : result ResourceError DefinitionObject) : Prop :=
  match reg with
  | Some (fields, false) => exists o m, got = Ok o /\ fields_of (df_spec o) = fields /\ om_merge (df_metadata o) = Some m /\ mm_conflicts m = ∅
  | _ => got = Err (NotFound name)
  end.

(** A root that has every other root's record; edits are made at such roots. *)
Definition up_to_date (f : gmap NodeId Root) (r : NodeId) : Prop := forall x, x <> r -> rt_local (root_of f x) = fst <$> rt_replicas (root_of f r) !! x.
Fixpoint serial (f : gmap NodeId Root) (steps : list FleetStep) : Prop :=
  match steps with
  | [] => True
  | st :: steps =>
      match fs_op st with
      | FReceive _ => True
      | FMetadata _ => False
      | FApply _ _ _ | FDelete _ _ => up_to_date f (fs_root st)
      end /\ serial (fleet_step f st) steps
  end.

(** No apply leaves out a field the definition has. (A field left out is not
    written at all: it is still there in the copies that have it.) *)
Fixpoint keeps_fields (reg : Register) (steps : list FleetStep) : Prop :=
  match steps with
  | [] => True
  | st :: steps =>
      match fs_op st, reg with FApply _ _ spec, Some (fields, _) => dom fields ⊆ dom (fields_of spec) | _, _ => True end /\ keeps_fields (register_step reg st) steps
  end.

(** * The writes so far *)

Definition exact (v : gmap NodeId Z) (hist : list NodeId) : Prop := forall r, v !! r = if decide (count r hist = 0) then None else Some (count r hist).
Lemma exact_covers v hist j d : exact v (take j hist) -> forall i, hist !! i = Some (cd_author_root d) -> cd_author_counter d = count (cd_author_root d) (take (S i) hist) ->
  (i < j)%nat -> covers v d = true.
Proof.
  intros Hv i Hi Hc Hij. unfold covers. rewrite Hv. pose proof (count_take (cd_author_root d) (S i) j hist ltac:(lia)). pose proof (count_take_S _ _ _ Hi).
  pose proof (count_nonneg (cd_author_root d) (take i hist)). rewrite decide_False by lia. cbn. apply bool_decide_eq_true. lia.
Qed.

(** What a record says on a path. *)
Definition value_at (o : DefinitionObject) (path : string) : option JValue :=
  if decide (path = DELETION_FIELD) then Some (json_bool (is_deleted o)) else f ← field_of_path path; fields_of (df_spec o) !! f.
Definition says (o : DefinitionObject) (path : string) : option FieldCandidate :=
  m ← om_merge (df_metadata o); md ← mm_fields m !! path; v ← value_at o path; Some (mkCandidate v md).
Lemma said_says hist s m path c : recorded hist (sr_object s) m -> said s path c <-> says (sr_object s) path = Some c.
Proof.
  intros (Hm & _ & _ & H4 & H5). unfold says. rewrite Hm. cbn. split.
  - intros Hc. pose proof (said_metadata s path c Hc) as Hmd. unfold field_metadata in Hmd. rewrite Hm in Hmd. cbn in Hmd. destruct Hc as [(f & v & Hv & -> & ->)|[-> ->]].
    + destruct (H4 f) as [md Hf]; [by exists v|]. rewrite Hf in Hmd |- *. cbn in *. unfold value_at. rewrite decide_False by done. rewrite field_of_spec_path. cbn. rewrite Hv. cbn. by rewrite Hmd.
    + destruct H5 as [md Hf]. rewrite Hf in Hmd |- *. cbn in *. by rewrite Hmd.
  - destruct (mm_fields m !! path) as [md|] eqn:Hmd; [|done]. cbn. unfold value_at. assert (field_metadata s path = md) as Hfm by (unfold field_metadata; rewrite Hm; cbn; by rewrite Hmd).
    case_decide as Hp; cbn; [intros [= <-]; right; subst path; by rewrite Hfm|]. destruct (field_of_path path) as [f|] eqn:Hf; [|done]. cbn. destruct (_ !! f) as [v|] eqn:Hv; [|done]. cbn. intros [= <-].
    left. exists f, v. apply field_of_path_Some in Hf as ->. by rewrite Hfm.
Qed.
(** The paths a record speaks of. *)
Definition field_names (o : DefinitionObject) : gset string := dom (fields_of (df_spec o)).
Definition is_path (o : DefinitionObject) (path : string) : Prop := path = DELETION_FIELD \/ exists f, f ∈ field_names o /\ path = spec_path f.
Lemma is_path_mono o o' path : field_names o ⊆ field_names o' -> is_path o path -> is_path o' path.
Proof. intros Hsub [->|(f & Hf & ->)]; [by left|right]. exists f. auto. Qed.
Lemma says_is_path o path c : says o path = Some c -> is_path o path.
Proof.
  unfold says. destruct (om_merge _) as [m|]; [|done]. cbn. destruct (mm_fields m !! path) as [md|]; [|done]. cbn. unfold value_at. case_decide as Hp; [by left|]. destruct (field_of_path path) as [f|] eqn:Hf; [|done]. cbn.
  destruct (fields_of (df_spec o) !! f) as [v|] eqn:Hv; [|done]. intros _. right. exists f. split; [apply elem_of_dom; by exists v|by apply field_of_path_Some].
Qed.

Section writes.
Context (ws : list (NodeId * DefinitionObject)).
#[local] Abbreviation hist := (ws.*1).
(** A candidate was written at a place with all before it in its context. *)
Definition written (c : FieldCandidate) (j : nat) : Prop := stamped hist (fc_metadata c) j /\ exact (fm_seen (fc_metadata c)) (take j hist).
(** On each path a record says what the last write of the path before it said. *)
Definition settled (i : nat) (o : DefinitionObject) : Prop :=
  (exists m, recorded hist o m /\ exact (mm_seen m) (take (S i) hist) /\ forall p, is_Some (mm_fields m !! p) -> is_path o p) /\
  forall path, is_path o path -> exists c j, written c j /\ (j <= i)%nat /\ forall k x, (j <= k <= i)%nat -> ws !! k = Some x -> says x.2 path = Some c.
Definition settled_all : Prop := forall i x, ws !! i = Some x -> settled i x.2.
End writes.

(** The fleet and its writes: roots hold records that were written, their own last. *)
Record serial_ok (ws : list (NodeId * DefinitionObject)) (f : gmap NodeId Root) : Prop := {
  se_fleet : fleet_ok ws.*1 f;
  se_settled : settled_all ws;
  se_fields : forall i k x y, ws !! i = Some x -> ws !! k = Some y -> (i <= k)%nat -> field_names x.2 ⊆ field_names y.2;
  se_local : forall r, match rt_local (root_of f r) with
    | Some o => exists i, ws !! i = Some (r, o) /\ forall k x, (i < k)%nat -> ws !! k = Some x -> x.1 <> r
    | None => forall k x, ws !! k = Some x -> x.1 <> r
    end;
  se_replicas : forall r x o t, rt_replicas (root_of f r) !! x = Some (o, t) -> exists i, ws !! i = Some (x, o);
}.
Lemma serial_ok_empty : serial_ok [] ∅.
Proof.
  split; [apply fleet_ok_empty|intros i x Hx; by rewrite lookup_nil in Hx|intros i k x y Hx; by rewrite lookup_nil in Hx| |].
  - intros r. unfold root_of. rewrite lookup_empty. cbn. intros k x Hx. by rewrite lookup_nil in Hx.
  - intros r x o t. unfold root_of. rewrite lookup_empty. cbn. by rewrite lookup_empty.
Qed.

(** * Merging records that were written in turn *)

Definition placed (ws : list (NodeId * DefinitionObject)) (sources : list DefinitionSource) : Prop := forall s, s ∈ sources -> exists i, ws !! i = Some (sr_origin s, sr_object s).
Lemma serial_placed ws f r : serial_ok ws f -> placed ws (sources_for_name r (root_of f r)).
Proof.
  intros Hf s [(o & Ho & ->)|(x & o & t & Ho & ->)]%elem_of_sources; cbn; [|by apply (se_replicas _ _ Hf r x o t)]. pose proof (se_local _ _ Hf r) as Hl. rewrite Ho in Hl. destruct Hl as (i & Hi & _). by exists i.
Qed.
Lemma place_unique ws i j x : settled_all ws -> ws !! i = Some x -> ws !! j = Some x -> i = j.
Proof.
  intros Hws. assert (forall a b, (a < b)%nat -> ws !! a = Some x -> ws !! b = Some x -> False) as Hlt.
  { intros a b Hab Ha Hb. destruct (Hws a x Ha) as [(m & (Hm & _) & Hea & _) _], (Hws b x Hb) as [(m' & (Hm' & _) & Heb & _) _]. rewrite Hm in Hm'. injection Hm' as <-.
    assert (ws.*1 !! b = Some x.1) as Hb1 by (by rewrite list_lookup_fmap, Hb). pose proof (count_take_S _ _ _ Hb1). pose proof (count_take x.1 (S a) b ws.*1 ltac:(lia)).
    pose proof (count_nonneg x.1 (take b ws.*1)). specialize (Hea x.1). rewrite Heb in Hea. rewrite decide_False in Hea by lia. case_decide; [done|]. injection Hea as Hea. lia. }
  intros Hi Hj. destruct (lt_eq_lt_dec i j) as [[Hij|Hij]|Hij]; [exfalso; eauto|done|exfalso; eauto].
Qed.
Lemma newest ws sources : placed ws sources -> settled_all ws -> sources <> [] -> exists I s, s ∈ sources /\ ws !! I = Some (sr_origin s, sr_object s) /\
  forall s' i, s' ∈ sources -> ws !! i = Some (sr_origin s', sr_object s') -> (i <= I)%nat.
Proof.
  intros Hp Hws. induction sources as [|s l IH]; [done|]. intros _. destruct (Hp s) as [i Hi]; [constructor|].
  assert (forall j, ws !! j = Some (sr_origin s, sr_object s) -> j = i) as Hi1 by (intros j Hj; by apply (place_unique ws _ _ _ Hws Hj)).
  destruct (decide (l = [])) as [->|Hne].
  { exists i, s. split_and!; [constructor|done|]. intros s' j ->%list_elem_of_singleton Hj. by rewrite (Hi1 j). }
  destruct IH as (I & s1 & Hs1 & HI & Hmax); [intros s' Hs'; apply Hp; by constructor|done|]. destruct (decide (i <= I)%nat).
  - exists I, s1. split_and!; [by constructor|done|]. intros s' j [->|Hs']%elem_of_cons Hj; [by rewrite (Hi1 j)|by apply (Hmax s')].
  - exists i, s. split_and!; [constructor|done|]. intros s' j [->|Hs']%elem_of_cons Hj; [by rewrite (Hi1 j)|]. pose proof (Hmax s' j Hs' Hj). lia.
Qed.

Section newest.
Context (ws : list (NodeId * DefinitionObject)) (sources : list DefinitionSource) (Hws : settled_all ws) (Hpl : placed ws sources).
Context (I : nat) (s : DefinitionSource) (Hs : s ∈ sources) (HI : ws !! I = Some (sr_origin s, sr_object s)).
Context (Hmax : forall s' i, s' ∈ sources -> ws !! i = Some (sr_origin s', sr_object s') -> (i <= I)%nat).
#[local] Abbreviation path_here := (is_path (sr_object s)).

Lemma placed_recorded : all_recorded ws.*1 sources.
Proof. intros s' Hs'. destruct (Hpl s' Hs') as [i Hi]. destruct (Hws i _ Hi) as [(m & Hm & _) _]. by exists m. Qed.
Lemma said_here s' path c : s' ∈ sources -> said s' path c <-> says (sr_object s') path = Some c.
Proof. intros Hs'. destruct (placed_recorded s' Hs') as [m Hm]. by apply (said_says ws.*1 s' m). Qed.
(** Another source says the same as the newest, or what was written before. *)
Lemma said_before s' path c c' : path_here path -> s' ∈ sources -> says (sr_object s) path = Some c -> says (sr_object s') path = Some c' ->
  exists j j', written ws c j /\ written ws c' j' /\ (c' = c \/ (j' < j)%nat).
Proof.
  intros Hpath Hs' Hc Hc'. pose proof (says_is_path _ _ _ Hc') as Hpath'. destruct (Hpl s' Hs') as [i Hi]. pose proof (Hmax s' i Hs' Hi) as Hle. destruct (Hws I _ HI) as [_ HA], (Hws i _ Hi) as [_ HB].
  destruct (HA path Hpath) as (c1 & j & Hj & Hj1 & Hj2). destruct (HB path Hpath') as (c2 & j' & Hj' & Hj1' & Hj2').
  pose proof (Hj2 I _ ltac:(lia) HI) as H1. cbn in H1. rewrite Hc in H1. injection H1 as <-. pose proof (Hj2' i _ ltac:(lia) Hi) as H2. cbn in H2. rewrite Hc' in H2. injection H2 as <-.
  exists j, j'. split_and!; [done|done|]. destruct (decide (j <= i)%nat) as [Hji|Hji]; [left|right; lia]. pose proof (Hj2 i _ ltac:(lia) Hi) as H3. cbn in H3. rewrite Hc' in H3. by injection H3.
Qed.
Lemma newest_shown path c : path_here path -> says (sr_object s) path = Some c -> forall c', shows sources path c' <-> c' = c.
Proof.
  intros Hpath Hc. assert (forall s' c', s' ∈ sources -> said s' path c' -> overwrites c' c = false /\ (c' <> c -> overwrites c c' = true)) as Hover.
  { intros s' c' Hs' Hc'. rewrite (said_here s' path c' Hs') in Hc'. destruct (said_before s' path c c' Hpath Hs' Hc Hc') as (j & j' & [Hj He] & [Hj' He'] & Hor). unfold overwrites, candidate_dot. split.
    - apply andb_false_iff. destruct Hor as [->|Hlt]; [left; apply bool_decide_eq_false; intros Hn; by apply Hn|right]. destruct (covers _ _) eqn:Hcov; [|done]. pose proof (covers_earlier _ _ _ j' j Hj' Hj Hcov). lia.
    - intros Hne. destruct Hor as [Heq|Hlt]; [done|]. apply andb_true_iff. split; [apply bool_decide_eq_true; intros Heq; pose proof (dots_apart _ _ _ j j' Hj Hj' Heq); lia|].
      destruct Hj' as (H1 & H2 & _). by apply (exact_covers _ _ j _ He j'). }
  intros c'. split.
  - intros [(s' & Hs' & Hc') Hm]. destruct (decide (candidate_dot c' = candidate_dot c)) as [Hd|Hd].
    + rewrite (said_here s' path c' Hs') in Hc'. destruct (said_before s' path c c' Hpath Hs' Hc Hc') as (j & j' & [Hj _] & [Hj' _] & [->|Hlt]); [done|].
      pose proof (dots_apart _ _ _ j j' Hj Hj' (eq_sym Hd)). lia.
    + exfalso. destruct (Hover s' c' Hs' Hc') as [_ Ho]. rewrite (Hm s c Hs) in Ho; [|by apply said_here]. assert (c' <> c) as Hne by congruence. by specialize (Ho Hne).
  - intros ->. split; [exists s; split; [done|by apply said_here]|]. intros s' other Hs' Ho. by apply (Hover s' other Hs').
Qed.
Lemma newest_context : exact (causal_context sources) (take (S I) ws.*1).
Proof.
  intros r. destruct (Hws I _ HI) as [(m & (Hm & _) & He & _) _]. cbn in Hm.
  assert (forall n, causal_context sources !! r = Some n -> 1 <= n <= count r (take (S I) ws.*1)) as Hup.
  { intros n Hn. apply context_from in Hn as (s' & Hs' & Hf). destruct (Hpl s' Hs') as [i Hi]. pose proof (Hmax s' i Hs' Hi) as Hle. destruct (Hws i _ Hi) as [(m' & (Hm' & Hw' & H3 & _) & He' & Hpaths) Hset]. cbn in Hm'.
    pose proof (count_take r (S i) (S I) ws.*1 ltac:(lia)). unfold source_facts in Hf. rewrite Hm' in Hf. apply elem_of_app in Hf as [Hf%elem_of_map_iter|(md & Heq & Hmd)%list_elem_of_fmap].
    - specialize (He' r). rewrite Hf in He'. case_decide; [done|]. injection He' as ->. pose proof (count_nonneg r (take (S i) ws.*1)). lia.
    - apply list_elem_of_fmap in Hmd as ([p md'] & -> & Hp%elem_of_map_iter). cbn in *. destruct (H3 p md' Hp) as [j Hj]. unfold dot_fact in Heq. injection Heq as -> ->.
      pose proof (stamped_counter _ _ _ Hj) as Hge. split; [lia|]. destruct (Hset p (Hpaths p ltac:(by exists md'))) as (c & j' & [Hj' _] & Hle' & Hc). specialize (Hc i _ ltac:(lia) Hi). cbn in Hc.
      unfold says in Hc. rewrite Hm' in Hc. cbn in Hc. rewrite Hp in Hc. cbn in Hc. destruct (value_at _ p); [|done]. injection Hc as <-. destruct Hj' as (_ & Hcnt & _). cbn in Hcnt. rewrite Hcnt.
      apply count_take. lia. }
  destruct (decide (count r (take (S I) ws.*1) = 0)) as [H0|H0].
  - destruct (causal_context sources !! r) as [n|] eqn:Hn; [|done]. pose proof (Hup n eq_refl). lia.
  - pose proof (He r) as Her. rewrite decide_False in Her by done. destruct (context_fact sources s r (count r (take (S I) ws.*1)) Hs) as (n & Hn & Hle).
    + unfold source_facts. rewrite Hm. apply elem_of_app. left. by apply elem_of_map_iter.
    + pose proof (Hup n Hn). rewrite Hn. f_equal. lia.
Qed.

Hypothesis fields_grow : forall i k x y, ws !! i = Some x -> ws !! k = Some y -> (i <= k)%nat -> field_names x.2 ⊆ field_names y.2.
Lemma said_is_path s' path c : s' ∈ sources -> said s' path c -> path_here path.
Proof.
  intros Hs' Hc%said_here; [|done]. apply says_is_path in Hc. destruct (Hpl s' Hs') as [i Hi]. revert Hc. apply is_path_mono.
  exact (fields_grow i I (sr_origin s', sr_object s') (sr_origin s, sr_object s) Hi HI (Hmax s' i Hs' Hi)).
Qed.
Lemma newest_says path : path_here path -> exists c, says (sr_object s) path = Some c.
Proof. intros Hp. destruct (Hws I _ HI) as [_ HA]. destruct (HA path Hp) as (c & j & _ & Hj & Hc). exists c. apply (Hc I (sr_origin s, sr_object s)); [lia|done]. Qed.
Lemma newest_value path c : says (sr_object s) path = Some c -> value_at (sr_object s) path = Some (fc_value c).
Proof. unfold says. destruct (om_merge _) as [m|]; [|done]. cbn. destruct (mm_fields m !! path); [|done]. cbn. destruct (value_at _ path); [|done]. by intros [= <-]. Qed.
(** The merged fields are what the newest record says. *)
Lemma newest_fields : exists fields, merged_fields (sorted_sources sources) = Ok fields /\ forall path, fields !! path = (fun c => (c, [c])) <$> (if decide (is_Some (fields !! path)) then says (sr_object s) path else None) /\
  (path_here path -> is_Some (fields !! path)) /\ (is_Some (fields !! path) -> path_here path).
Proof.
  destruct (recorded_merges ws.*1 sources placed_recorded) as [fields Hf]. exists fields. split; [done|]. intros path.
  assert (path_here path -> is_Some (fields !! path)) as Hin.
  { intros Hp. destruct (newest_says path Hp) as [c Hc]. apply (spoken_merged sources fields s path c Hf Hs). by apply said_here. }
  assert (forall r, fields !! path = Some r -> path_here path) as Hout.
  { intros r Hr. destruct (chosen_shows sources fields path r Hf Hr) as ([(s' & Hs' & Hc) _] & _). by apply (said_is_path s' path r.1). }
  split_and!; [|done|intros [r Hr]; by apply (Hout r)]. destruct (fields !! path) as [[c0 vs]|] eqn:Hr; [|done]. rewrite decide_True by done.
  pose proof (Hout _ eq_refl) as Hp. destruct (newest_says path Hp) as [c Hc]. rewrite Hc. cbn. destruct (chosen_shows sources fields path _ Hf Hr) as (H1 & H2 & _ & H4 & H5). cbn in *.
  pose proof (newest_shown path c Hp Hc) as Hone. apply Hone in H1 as ->. f_equal. f_equal. destruct vs as [|a [|b vs]]; [by apply not_elem_of_nil in H5| |].
  - apply list_elem_of_singleton in H5. by rewrite H5.
  - assert (a = c) as -> by (apply Hone, H2; constructor). assert (b = c) as -> by (apply Hone, H2; constructor; constructor). cbn in H4. apply NoDup_cons in H4 as [Hn _]. destruct Hn. constructor.
Qed.
Lemma newest_merge : exists o m, merge_sources sources = Ok o /\ df_spec o = df_spec (sr_object s) /\ is_deleted o = is_deleted (sr_object s) /\ om_merge (df_metadata o) = Some m /\
  mm_conflicts m = ∅ /\ mm_seen m = causal_context sources /\ (forall path, path_here path -> mm_fields m !! path = fc_metadata <$> says (sr_object s) path) /\ (forall path, is_Some (mm_fields m !! path) -> path_here path).
Proof.
  destruct newest_fields as (fields & Hf & Hl). assert (forall path c, path_here path -> says (sr_object s) path = Some c -> fields !! path = Some (c, [c])) as Hone.
  { intros path c Hp Hc. destruct (Hl path) as (H1 & H2 & _). rewrite H1. rewrite decide_True by by apply H2. by rewrite Hc. }
  assert (merged_spec fields = fields_of (df_spec (sr_object s))) as Hspec.
  { apply map_eq. intros f. rewrite merged_spec_lookup. destruct (decide (f ∈ field_names (sr_object s))) as [Hin|Hout].
    - assert (path_here (spec_path f)) as Hp by (right; by exists f). destruct (newest_says _ Hp) as [c Hc]. rewrite (Hone _ c Hp Hc). cbn. apply newest_value in Hc. unfold value_at in Hc.
      rewrite decide_False in Hc by done. rewrite field_of_spec_path in Hc. cbn in Hc. by rewrite Hc.
    - assert (fields !! spec_path f = None) as ->.
      { destruct (Hl (spec_path f)) as (_ & _ & H3). destruct (fields !! spec_path f) as [x|]; [|done]. destruct H3 as [Hd|(f' & Hf' & Heq)]; [by exists x|done|]. apply (inj spec_path) in Heq as <-. done. }
      cbn. symmetry. by apply not_elem_of_dom. }
  destruct (head (sorted_sources sources)) as [source|] eqn:Hh.
  2: { assert (s ∈ sorted_sources sources) as Hin by by apply elem_of_sorted_sources. destruct (sorted_sources sources); [by apply not_elem_of_nil in Hin|done]. }
  set (m := mkMerge (fc_metadata ∘ fst <$> fields) (causal_context sources) (conflicts_of fields)).
  set (o := mkDefinition (with_merge (df_metadata (sr_object source)) (String.concat "," (source_version <$> sorted_sources sources)) (deleted_at fields) m) (df_spec (sr_object s)) (df_status (sr_object source))).
  exists o, m. split_and!; [| |  |done| |done| |].
  - apply merge_sources_Ok. exists fields, source. rewrite Hspec. split_and!; [done|done|apply spec_of_fields|done|done].
  - done.
  - unfold is_deleted at 1. cbn. assert (path_here DELETION_FIELD) as Hp by by left. destruct (newest_says _ Hp) as [c Hc]. unfold deleted_at. rewrite (Hone _ c Hp Hc). cbn.
    apply newest_value in Hc. unfold value_at in Hc. rewrite decide_True in Hc by done. injection Hc as <-. rewrite as_bool_bool. cbn. by destruct (is_deleted _).
  - apply map_eq. intros path. cbn. unfold conflicts_of. rewrite lookup_omap, lookup_empty. destruct (Hl path) as (H1 & _). destruct (fields !! path) as [r|]; [|done]. cbn.
    destruct (if decide _ then _ else _) as [c|]; [|done]. cbn in H1. injection H1 as ->. done.
  - intros path Hp. cbn. rewrite lookup_fmap. destruct (newest_says path Hp) as [c Hc]. rewrite (Hone path c Hp Hc), Hc. done.
  - intros path. cbn. rewrite lookup_fmap, fmap_is_Some. apply Hl.
Qed.
End newest.

(** * Writing in turn *)

Lemma written_app ws l c j : written ws c j -> written (ws ++ l) c j.
Proof.
  intros [Hj He]. pose proof (lookup_lt_Some _ _ _ (proj1 Hj)). unfold written. rewrite fmap_app. split; [by apply stamped_app|]. by rewrite take_app_le by lia.
Qed.
Lemma settled_app ws l i x : ws !! i = Some x -> settled ws i x.2 -> settled (ws ++ l) i x.2.
Proof.
  intros Hx [(m & Hm & He & Hp) Hs]. pose proof (lookup_lt_Some _ _ _ Hx). split.
  - exists m. rewrite fmap_app. split_and!; [by apply recorded_app| |done]. rewrite take_app_le; [done|]. rewrite length_fmap. lia.
  - intros path Hpath. destruct (Hs path Hpath) as (c & j & Hc & Hj & Hk). exists c, j. split_and!; [by apply written_app|done|]. intros k y Hky Hy. rewrite lookup_app_l in Hy by lia. by apply (Hk k).
Qed.
Lemma settle_write ws r o m : settled_all ws -> recorded (ws.*1 ++ [r]) o m -> exact (mm_seen m) (ws.*1 ++ [r]) -> (forall p, is_Some (mm_fields m !! p) -> is_path o p) ->
  (forall path, is_path o path -> exists c, says o path = Some c /\ (stamped (ws.*1 ++ [r]) (fc_metadata c) (length ws) /\ exact (fm_seen (fc_metadata c)) ws.*1 \/ exists x, last ws = Some x /\ says x.2 path = Some c)) ->
  settled_all (ws ++ [(r, o)]).
Proof.
  intros Hws Hrec He Hfp Hsays i x Hx. apply lookup_app_Some in Hx as [Hx|[Hge Hx]]; [by apply settled_app, Hws|]. apply list_lookup_singleton_Some in Hx as [Hi <-]. assert (i = length ws) as -> by lia. split.
  - exists m. rewrite fmap_app. cbn. split_and!; [done| |done]. rewrite take_ge; [done|]. rewrite length_app, length_fmap. cbn. lia.
  - intros path Hpath. destruct (Hsays path Hpath) as (c & Hc & [[Hst Hex]|(y & Hy & Hsy)]).
    + exists c, (length ws). split_and!; [|done|].
      * unfold written. rewrite fmap_app. cbn. split; [done|]. rewrite take_app_le by (rewrite length_fmap; lia). rewrite take_ge by (rewrite length_fmap; lia). done.
      * intros k z Hk Hz. assert (k = length ws) as -> by lia. rewrite lookup_app_r, Nat.sub_diag in Hz by done. by injection Hz as <-.
    + rewrite last_lookup in Hy. pose proof (lookup_lt_Some _ _ _ Hy) as Hlt. destruct (Hws _ _ Hy) as [_ Hold]. destruct (Hold path (says_is_path _ _ _ Hsy)) as (c' & j & Hw & Hj & Hk). pose proof (Hk (pred (length ws)) y ltac:(lia) Hy) as Hyc. rewrite Hsy in Hyc.
      injection Hyc as <-. exists c, j. split_and!; [by apply written_app|cbn in *; lia|]. intros k z Hkz Hz. apply lookup_app_Some in Hz as [Hz|[Hge' Hz]]; [apply (Hk k); [|done]; pose proof (lookup_lt_Some _ _ _ Hz); lia|].
      apply list_lookup_singleton_Some in Hz as [_ <-]. done.
Qed.
(** What an up-to-date root reads from is the last write. *)
Lemma up_to_date_sources ws f r : serial_ok ws f -> up_to_date f r ->
  match last ws with
  | None => sources_for_name r (root_of f r) = []
  | Some x => exists s, s ∈ sources_for_name r (root_of f r) /\ x = (sr_origin s, sr_object s)
  end.
Proof.
  intros Hf Hup. destruct (last ws) as [[x o]|] eqn:Hlast.
  - rewrite last_lookup in Hlast. pose proof (lookup_lt_Some _ _ _ Hlast) as Hlt. pose proof (se_local _ _ Hf x) as Hl. destruct (rt_local (root_of f x)) as [o'|] eqn:Ho; [|by destruct (Hl _ _ Hlast)].
    destruct Hl as (i & Hi & Hlater). assert (i = pred (length ws)) as ->.
    { pose proof (lookup_lt_Some _ _ _ Hi). destruct (decide (i = pred (length ws))) as [|Hne]; [done|]. by destruct (Hlater (pred (length ws)) (x, o) ltac:(lia) Hlast). }
    rewrite Hlast in Hi. injection Hi as ->. destruct (decide (x = r)) as [->|Hne].
    + exists (mkSource o' r None). split; [|done]. apply elem_of_sources. left. by exists o'.
    + specialize (Hup x Hne). rewrite Ho in Hup. destruct (rt_replicas (root_of f r) !! x) as [[o2 t]|] eqn:Hrep; [|done]. injection Hup as ->. exists (mkSource o2 x (Some t)). split; [|done]. apply elem_of_sources. right. by exists x, o2, t.
  - apply last_None in Hlast as ->. pose proof (serial_placed [] f r Hf) as Hp. destruct (sources_for_name r (root_of f r)) as [|s l]; [done|]. destruct (Hp s) as [i Hi]; [constructor|by rewrite lookup_nil in Hi].
Qed.
Lemma last_newest ws f r s : serial_ok ws f -> last ws = Some (sr_origin s, sr_object s) ->
  ws !! pred (length ws) = Some (sr_origin s, sr_object s) /\ forall s' i, s' ∈ sources_for_name r (root_of f r) -> ws !! i = Some (sr_origin s', sr_object s') -> (i <= pred (length ws))%nat.
Proof. intros Hf Hl. rewrite last_lookup in Hl. split; [done|]. intros s' i _ Hi%lookup_lt_Some. lia. Qed.
Lemma up_to_date_context ws f r : serial_ok ws f -> up_to_date f r -> exact (causal_context (sources_for_name r (root_of f r))) ws.*1.
Proof.
  intros Hf Hup. pose proof (up_to_date_sources ws f r Hf Hup) as Hs. destruct (last ws) as [x|] eqn:Hlast.
  - destruct Hs as (s & Hin & ->). destruct (last_newest ws f r s Hf Hlast) as [HI Hmax]. pose proof (lookup_lt_Some _ _ _ HI) as Hlt.
    pose proof (newest_context ws _ (se_settled _ _ Hf) (serial_placed ws f r Hf) _ s Hin HI Hmax) as He. rewrite take_ge in He; [done|]. rewrite length_fmap. lia.
  - apply last_None in Hlast as ->. rewrite Hs. intros x. done.
Qed.

Section register.

Lemma says_committed local namespace version now w path md v : mm_fields (dw_merge w) !! path = Some md -> value_at (committed local namespace version now w) path = Some v ->
  says (committed local namespace version now w) path = Some (mkCandidate v md).
Proof. intros Hmd Hv. unfold says. rewrite committed_merge. cbn. rewrite Hmd. cbn. by rewrite Hv. Qed.
Lemma value_committed local namespace version now w f : value_at (committed local namespace version now w) (spec_path f) = fields_of (dw_spec w) !! f.
Proof. unfold value_at. rewrite decide_False by done. rewrite field_of_spec_path. cbn. by rewrite committed_spec. Qed.
Lemma commit_serial ws f r w stamp namespace version now : serial_ok ws f -> up_to_date f r -> Z.of_nat (length ws) < u64_max -> dotted ws.*1 r (sources_for_name r (root_of f r)) w stamp ->
  (forall x, last ws = Some x -> field_names x.2 ⊆ dom (fields_of (dw_spec w))) ->
  (forall p, is_Some (mm_fields (dw_merge w) !! p) -> p = DELETION_FIELD \/ exists field, field ∈ dom (fields_of (dw_spec w)) /\ p = spec_path field) ->
  (forall field, field ∈ dom (fields_of (dw_spec w)) -> mm_fields (dw_merge w) !! spec_path field = Some stamp \/
    exists x c, last ws = Some x /\ says x.2 (spec_path field) = Some c /\ fields_of (dw_spec w) !! field = Some (fc_value c) /\ mm_fields (dw_merge w) !! spec_path field = Some (fc_metadata c)) ->
  serial_ok (ws ++ [(r, committed (rt_local (root_of f r)) namespace version now w)]) (commit f r namespace version now w).
Proof.
  intros Hf Hup Hlen Hw Hgrow Hpaths Hfields. assert (field_names (committed (rt_local (root_of f r)) namespace version now w) = dom (fields_of (dw_spec w))) as Hnames by (unfold field_names; by rewrite committed_spec). pose proof (se_fleet _ _ Hf r) as Hok. assert (Z.of_nat (length ws.*1) < u64_max) as Hlen' by by rewrite length_fmap.
  pose proof (up_to_date_context ws f r Hf Hup) as Hctx. pose proof (dotted_recorded ws.*1 r _ w stamp namespace version now Hok Hlen' Hw) as [Hrec _].
  pose proof (stamp_stamped ws.*1 r _ w stamp Hok Hlen' Hw) as Hst. rewrite length_fmap in Hst.
  assert (exact (fm_seen stamp) ws.*1) as Hex by (by rewrite (dt_seen _ _ _ _ _ Hw)). split.
  - rewrite fmap_app. by apply (dotted_step ws.*1 f r w stamp); [apply (se_fleet _ _ Hf)|..].
  - apply (settle_write ws r _ (dw_merge w)); [apply (se_settled _ _ Hf)|done| |intros p Hp; unfold is_path; rewrite Hnames; by apply Hpaths|].
    + intros x. rewrite (dt_merge _ _ _ _ _ Hw), (stamp_dot ws.*1 r _ w stamp Hok Hlen' Hw). cbn. rewrite count_app, count_one. pose proof (count_nonneg x ws.*1). destruct (decide (r = x)) as [->|Hne].
      * rewrite lookup_insert_eq, decide_False by lia. done.
      * rewrite lookup_insert_ne by done. rewrite Z.add_0_r. apply Hctx.
    + unfold is_path. rewrite Hnames. intros path [->|(field & Hin & ->)].
      * eexists. split; [apply says_committed; [apply (dt_deletion _ _ _ _ _ Hw)|done]|]. by left.
      * pose proof Hin as [v Hv]%elem_of_dom. destruct (Hfields field Hin) as [Hmd|(x & c & Hx & Hc & Hval & Hmd)].
        -- exists (mkCandidate v stamp). split; [apply says_committed; [done|by rewrite value_committed]|by left].
        -- exists c. split; [|right; by exists x]. destruct c as [cv cm]. apply says_committed; [done|by rewrite value_committed].
  - assert (forall i x, ws !! i = Some x -> field_names x.2 ⊆ dom (fields_of (dw_spec w))) as Hall.
    { intros i x Hx. destruct (last ws) as [y|] eqn:Hl; [|apply last_None in Hl; subst ws; by rewrite lookup_nil in Hx]. etrans; [|by apply (Hgrow y)]. rewrite last_lookup in Hl.
      apply (se_fields _ _ Hf i (pred (length ws)) x y Hx Hl). apply lookup_lt_Some in Hx. lia. }
    intros i k x y Hx Hy Hle. apply lookup_app_Some in Hy as [Hy|[Hge Hy]].
    + pose proof (lookup_lt_Some _ _ _ Hy). rewrite lookup_app_l in Hx by lia. by apply (se_fields _ _ Hf i k).
    + apply list_lookup_singleton_Some in Hy as [_ <-]. cbn [snd]. rewrite Hnames. apply lookup_app_Some in Hx as [Hx|[_ Hx]]; [by apply (Hall i)|]. apply list_lookup_singleton_Some in Hx as [_ <-]. cbn [snd]. by rewrite Hnames.
  - intros x. unfold commit. rewrite root_of_insert. case_decide as Hx; [subst x; cbn|].
    + exists (length ws). split; [by rewrite lookup_app_r, Nat.sub_diag|]. intros k y Hk Hy%lookup_lt_Some. rewrite length_app in Hy. cbn in Hy. lia.
    + assert (forall k y, (ws ++ [(r, committed (rt_local (root_of f r)) namespace version now w)]) !! k = Some y -> ws !! k = Some y \/ y.1 = r) as Hy.
      { intros k y Hy. apply lookup_app_Some in Hy as [Hy|[_ Hy]]; [by left|right]. by apply list_lookup_singleton_Some in Hy as [_ <-]. }
      pose proof (se_local _ _ Hf x) as Hl. destruct (rt_local (root_of f x)) as [o|].
      * destruct Hl as (i & Hi & Hlater). exists i. split; [by apply lookup_app_l_Some|]. intros k y Hk [Hky|Heq]%Hy; [by apply (Hlater k)|congruence].
      * intros k y [Hky|Heq]%Hy; [by apply (Hl k)|congruence].
  - intros x y o t. unfold commit. rewrite root_of_insert. assert (rt_replicas (if decide (r = x) then mkRoot (Some (committed (rt_local (root_of f r)) namespace version now w)) (rt_replicas (root_of f r)) else root_of f x) =
      rt_replicas (root_of f x)) as -> by (case_decide; [by subst|done]). intros Ho. destruct (se_replicas _ _ Hf x y o t Ho) as [i Hi]. exists i. by apply lookup_app_l_Some.
Qed.
(** The state a record stands for. *)
Definition state_of (o : DefinitionObject) : gmap string JValue * bool := (fields_of (df_spec o), is_deleted o).
Lemma newest_reads ws f r I s name : serial_ok ws f -> s ∈ sources_for_name r (root_of f r) -> ws !! I = Some (sr_origin s, sr_object s) ->
  (forall s' i, s' ∈ sources_for_name r (root_of f r) -> ws !! i = Some (sr_origin s', sr_object s') -> (i <= I)%nat) ->
  reads (Some (state_of (sr_object s))) name (get_merged name (sources_for_name r (root_of f r))).
Proof.
  intros Hf Hin HI Hmax. destruct (newest_merge ws _ (se_settled _ _ Hf) (serial_placed ws f r Hf) I s Hin HI Hmax (se_fields _ _ Hf)) as (o & m & Ho & Hspec & Hdel & Hm & Hc & _ & Hp & _).
  unfold reads, state_of, get_merged. destruct (sources_for_name r (root_of f r)) as [|s0 l] eqn:Hs; [by apply not_elem_of_nil in Hin|]. rewrite Ho. cbn.
  assert (definition_is_visible o = negb (is_deleted o)) as ->.
  { unfold definition_is_visible. rewrite Hm. cbn. rewrite Hc, lookup_empty. rewrite (bool_decide_false (is_Some None)) by by intros []. rewrite orb_false_r.
    assert (is_path (sr_object s) DELETION_FIELD) as Hpd by by left. rewrite (Hp _ Hpd). destruct (newest_says ws (se_settled _ _ Hf) I s HI DELETION_FIELD Hpd) as [c ->]. done. }
  rewrite Hdel. destruct (is_deleted (sr_object s)); [done|]. cbn. exists o, m. by rewrite Hspec.
Qed.

(** * The fleet as a register *)

Lemma serial_app f steps st : serial f (steps ++ [st]) <-> serial f steps /\
  match fs_op st with FReceive _ => True | FMetadata _ => False | FApply _ _ _ | FDelete _ _ => up_to_date (foldl fleet_step f steps) (fs_root st) end.
Proof. revert f. induction steps as [|x steps IH]; intros f; cbn; [tauto|]. rewrite IH. tauto. Qed.
(** What an edit at an up-to-date root finds: nothing, or the last state. *)
Lemma edit_current ws f r : serial_ok ws f -> up_to_date f r -> exists current, read_current (sources_for_name r (root_of f r)) current /\
  match last ws, current with
  | None, None => True
  | Some x, Some o => df_spec o = df_spec x.2 /\ is_deleted o = is_deleted x.2 /\ exists m, om_merge (df_metadata o) = Some m /\ mm_conflicts m = ∅ /\
      (forall path, is_path x.2 path -> mm_fields m !! path = fc_metadata <$> says x.2 path) /\ (forall path, is_Some (mm_fields m !! path) -> is_path x.2 path)
  | _, _ => False
  end.
Proof.
  intros Hf Hup. pose proof (up_to_date_sources ws f r Hf Hup) as Hs. destruct (last ws) as [x|] eqn:Hl; [|by exists None]. destruct Hs as (s & Hin & ->).
  destruct (last_newest ws f r s Hf Hl) as [HI Hmax]. destruct (newest_merge ws _ (se_settled _ _ Hf) (serial_placed ws f r Hf) _ s Hin HI Hmax (se_fields _ _ Hf)) as (o & m & Ho & H1 & H2 & H3 & H4 & _ & H5 & H6).
  exists (Some o). split; [|split_and!; [done|done|by exists m]]. split; [|done]. intros He. rewrite He in Hin. by apply not_elem_of_nil in Hin.
Qed.
Lemma last_says ws f x path : serial_ok ws f -> last ws = Some x -> is_path x.2 path -> exists c, says x.2 path = Some c /\ value_at x.2 path = Some (fc_value c).
Proof.
  intros Hf Hl Hp. rewrite last_lookup in Hl. destruct (se_settled _ _ Hf _ _ Hl) as [_ HA]. destruct (HA path Hp) as (c & j & _ & Hj & Hc). exists c.
  assert (says x.2 path = Some c) as Hs by (apply (Hc (pred (length ws))); [lia|done]). split; [done|]. unfold says in Hs. destruct (om_merge _) as [m|]; [|done]. cbn in Hs. destruct (mm_fields m !! path); [|done]. cbn in Hs.
  destruct (value_at _ path); [|done]. by injection Hs as <-.
Qed.
(** An edit writes the register's next state, or finds it there. *)
Definition edited ws (f f' : gmap NodeId Root) (reg : Register) : Prop :=
  (f' = f /\ reg = state_of ∘ snd <$> last ws) \/ exists x, serial_ok (ws ++ [x]) f' /\ reg = Some (state_of x.2).
Lemma apply_serial ws f r writer meta spec now namespace version : serial_ok ws f -> up_to_date f r -> Z.of_nat (length ws) < u64_max ->
  (forall x, last ws = Some x -> field_names x.2 ⊆ dom (fields_of spec)) ->
  edited ws f (fleet_step f (mkStep r (FApply writer meta spec) now namespace version)) (Some (fields_of spec, false)).
Proof.
  intros Hf Hup Hlen Hgrow. destruct (edit_current ws f r Hf Hup) as (current & Hcur & Hlast). unfold fleet_step, plan. cbn [fs_root fs_op fs_now fs_namespace fs_version].
  pose proof (plan_apply_eq r writer meta spec now _ current Hcur) as Hp. destruct (view_changes meta spec current) eqn:Hch.
  - rewrite Hp. right. exists (r, committed (rt_local (root_of f r)) namespace version now (applied_write r writer meta spec now (sources_for_name r (root_of f r)) current)). split.
    + destruct (plan_apply_dotted _ _ _ _ _ _ _ _ (sources_recorded _ _ _ (se_fleet _ _ Hf r)) Hp) as (stamp & Hw & _).
      assert (stamp = applied_stamp r writer now (sources_for_name r (root_of f r))) as -> by (pose proof (dt_deletion _ _ _ _ _ Hw) as Hd; cbn in Hd; rewrite lookup_insert_eq in Hd; by injection Hd).
      eapply (commit_serial ws f r); [done|done|done|exact Hw|exact Hgrow| |].
      * intros p. cbn. rewrite lookup_insert_is_Some'. intros [<-|Hp']; [by left|]. rewrite applied_fields_lookup in Hp'. destruct (existsb _ _) eqn:He.
        -- apply existsb_elem in He as ([field v] & Hin%elem_of_map_iter & Hr). apply andb_true_iff in Hr as [_ Heq%bool_decide_eq_true]. right. exists field. split; [|exact (eq_sym Heq)].
           apply elem_of_dom. by exists v.
        -- destruct current as [o|], (last ws) as [x|]; try done; [|unfold merge_of in Hp'; cbn in Hp'; rewrite lookup_empty in Hp'; by destruct Hp'].
           destruct Hlast as (_ & _ & m & Hm & _ & _ & H6). unfold merge_of in Hp'. cbn in Hp'. rewrite Hm in Hp'. apply H6 in Hp' as [->|(field & Hin & ->)]; [by left|right]. exists field. split; [by apply (Hgrow x eq_refl)|done].
      * intros field Hin. cbn. rewrite lookup_insert_ne by done. pose proof Hin as [v Hv]%elem_of_dom. cbn in Hv.
        destruct (restamps current (fields_of ∘ df_spec <$> current) (fields_of spec) (field, v)) eqn:Hr; [left; by apply (applied_fields_stamped _ _ _ _ field v)|].
        destruct (not_restamped _ _ _ _ Hr) as (o & -> & Ho). rewrite applied_fields_lookup. destruct (existsb _ _); [by left|right]. destruct (last ws) as [x|] eqn:Hl; [|done].
        destruct Hlast as (Hsp & _ & m & Hm & _ & H5 & _). assert (is_path x.2 (spec_path field)) as Hpath by (right; exists field; split; [|done]; apply elem_of_dom; rewrite <-Hsp; by exists v). destruct (last_says ws f x _ Hf Hl Hpath) as (c & Hc & Hval).
        exists x, c. split_and!; [done|done| |unfold merge_of; cbn; rewrite Hm; cbn; by rewrite (H5 _ Hpath), Hc]. unfold value_at in Hval. rewrite decide_False in Hval by done. rewrite field_of_spec_path in Hval. cbn in Hval.
        rewrite <-Hsp, Ho in Hval. by injection Hval as <-.
    + unfold state_of. cbn [snd]. rewrite committed_spec. unfold is_deleted. rewrite committed_deleted. done.
  - left. destruct current as [o|]; [|done]. rewrite Hp. cbn. split; [done|]. destruct (last ws) as [x|] eqn:Hl; [|done]. destruct Hlast as (Hsp & Hdel & _). cbn. unfold state_of. rewrite <-Hsp, <-Hdel.
    unfold view_changes in Hch. rewrite !orb_false_iff in Hch. destruct Hch as [[[_ Hr] _] Hd]. cbn in Hd. rewrite Hd. f_equal. f_equal. apply map_eq. intros field.
    destruct (fields_of spec !! field) as [v|] eqn:Hv.
    + apply existsb_false with (x := (field, v)) in Hr; [|by apply elem_of_map_iter]. destruct (not_restamped _ _ _ _ Hr) as (o' & [= <-] & Ho). by rewrite Ho.
    + symmetry. apply not_elem_of_dom. apply not_elem_of_dom in Hv. intros Hin. apply Hv, (Hgrow x eq_refl). unfold field_names. by rewrite <-Hsp.
Qed.
Lemma delete_serial ws f r name marked now namespace version : serial_ok ws f -> up_to_date f r -> Z.of_nat (length ws) < u64_max ->
  edited ws f (fleet_step f (mkStep r (FDelete name marked) now namespace version)) ((fun s => (s.1, true)) <$> (state_of ∘ snd <$> last ws)).
Proof.
  intros Hf Hup Hlen. destruct (edit_current ws f r Hf Hup) as (current & Hcur & Hlast). unfold fleet_step, plan. cbn [fs_root fs_op fs_now fs_namespace fs_version].
  destruct current as [o|], (last ws) as [x|] eqn:Hl; try done; [|cbn in Hcur; rewrite Hcur; left; by rewrite Hl]. destruct Hcur as [Hne Ho]. destruct Hlast as (Hsp & _ & m & Hm & _ & H5 & H6).
  destruct (plan_delete r name now marked (sources_for_name r (root_of f r))) as [w|] eqn:Hp.
  2: { unfold plan_delete in Hp. destruct (sources_for_name r (root_of f r)); [done|]. by rewrite Ho in Hp. }
  destruct (plan_delete_dotted _ _ _ _ _ _ _ (sources_recorded _ _ _ (se_fleet _ _ Hf r)) Hp) as (stamp & Hw & Hdel & _).
  assert (dw_spec w = df_spec o /\ forall p, p <> DELETION_FIELD -> mm_fields (dw_merge w) !! p = mm_fields m !! p) as [Hws Hwm].
  { unfold plan_delete in Hp. destruct (sources_for_name r (root_of f r)); [done|]. rewrite Ho in Hp. cbn [mbind result_bind] in Hp. injection Hp as <-. split; [done|]. intros p Hpn. cbn. rewrite lookup_insert_ne by done. by rewrite Hm. }
  right. exists (r, committed (rt_local (root_of f r)) namespace version now w). split.
  - apply (commit_serial ws f r w stamp); [done|done|done|done| | |].
    + rewrite Hl. intros y [= <-]. unfold field_names. by rewrite Hws, Hsp.
    + intros p Hp'. destruct (decide (p = DELETION_FIELD)) as [->|Hpn]; [by left|]. rewrite (Hwm p Hpn) in Hp'. unfold is_path, field_names in H6. rewrite Hws, Hsp. by apply H6.
    + intros field Hin. right. rewrite Hws, Hsp in Hin. assert (is_path x.2 (spec_path field)) as Hpath by (right; by exists field). destruct (last_says ws f x _ Hf Hl Hpath) as (c & Hc & Hval). exists x, c.
      split_and!; [done|done| |rewrite (Hwm _ (spec_path_not_deletion field)), (H5 _ Hpath), Hc; done]. unfold value_at in Hval. rewrite decide_False in Hval by done. rewrite field_of_spec_path in Hval. cbn in Hval. by rewrite Hws, Hsp.
  - cbn. unfold state_of. rewrite committed_spec, Hws, Hsp. unfold is_deleted. rewrite committed_deleted, Hdel. done.
Qed.
Lemma receive_serial ws f r origin now namespace version : serial_ok ws f -> serial_ok ws (fleet_step f (mkStep r (FReceive origin) now namespace version)).
Proof.
  intros Hf. unfold fleet_step. cbn. destruct (rt_local (root_of f origin)) as [o|] eqn:Ho; [|done]. case_bool_decide as Hr; [done|]. split; [by apply receive_step; [apply (se_fleet _ _ Hf)|..]|apply (se_settled _ _ Hf)|apply (se_fields _ _ Hf)| |].
  - intros x. rewrite root_of_insert. case_decide as Hx; [subst x; cbn; apply (se_local _ _ Hf)|apply (se_local _ _ Hf)].
  - intros x y o' t. rewrite root_of_insert. case_decide as Hx; [subst x; cbn|apply (se_replicas _ _ Hf)]. intros [[<- [= <- <-]]|[_ Hy]]%lookup_insert_Some; [|by apply (se_replicas _ _ Hf r y o' t)].
    pose proof (se_local _ _ Hf origin) as Hl. rewrite Ho in Hl. destruct Hl as (i & Hi & _). by exists i.
Qed.
Lemma keeps_fields_app reg steps st : keeps_fields reg (steps ++ [st]) <-> keeps_fields reg steps /\
  match fs_op st, foldl register_step reg steps with FApply _ _ spec, Some (fields, _) => dom fields ⊆ dom (fields_of spec) | _, _ => True end.
Proof. revert reg. induction steps as [|x steps IH]; intros reg; cbn; [tauto|]. rewrite IH. tauto. Qed.
Lemma serial_run steps : serial ∅ steps -> keeps_fields None steps -> Z.of_nat (length steps) <= u64_max -> exists ws, serial_ok ws (fleet_run steps) /\ (length ws <= length steps)%nat /\
  register_run steps = state_of ∘ snd <$> last ws /\ forall i x, ws !! i = Some x -> exists n, register_run (take n steps) = Some (state_of x.2).
Proof.
  unfold fleet_run, register_run. induction steps as [|st steps IH] using rev_ind; intros Hser Hkeep Hlen.
  { exists []. split_and!; [apply serial_ok_empty|done|done|]. intros i x Hx. by rewrite lookup_nil in Hx. }
  apply serial_app in Hser as [Hser Hst]. apply keeps_fields_app in Hkeep as [Hkeep Hgrow]. rewrite length_app in Hlen. cbn in Hlen. destruct (IH Hser Hkeep ltac:(lia)) as (ws & Hf & Hle & Hreg & Hpast). clear IH. rewrite !foldl_app, length_app. cbn.
  assert (forall n, (n <= length steps)%nat -> take n (steps ++ [st]) = take n steps) as Htake by (intros n Hn; by apply take_app_le).
  assert (forall i x, ws !! i = Some x -> exists n, foldl register_step None (take n (steps ++ [st])) = Some (state_of x.2)) as Hpast'.
  { intros i x Hx. destruct (Hpast i x Hx) as [n Hn]. destruct (decide (n <= length steps)%nat) as [Hle'|Hgt]; [exists n; by rewrite Htake|].
    exists (length steps). rewrite Htake by done. rewrite take_ge in Hn by lia. by rewrite firstn_all. }
  assert (edited ws (foldl fleet_step ∅ steps) (fleet_step (foldl fleet_step ∅ steps) st) (register_step (foldl register_step None steps) st) \/
    serial_ok ws (fleet_step (foldl fleet_step ∅ steps) st) /\ register_step (foldl register_step None steps) st = foldl register_step None steps) as [[[Hsame Hr]|(x & Hx & Hr)]|[Hok Hr]].
  { destruct st as [r [writer meta spec|name marked|meta|origin] now namespace version]; cbn in Hst; [| |done|right; split; [by apply receive_serial|done]]; left.
    - apply apply_serial; [done|done|lia|]. intros x Hx. cbn in Hgrow. by rewrite Hreg, Hx in Hgrow.
    - rewrite Hreg. apply delete_serial; [done|done|lia]. }
  - exists ws. rewrite Hsame. split_and!; [done|lia|done|done].
  - exists (ws ++ [x]). split_and!; [done|rewrite length_app; cbn; lia|by rewrite last_snoc|]. intros i y Hy. apply lookup_app_Some in Hy as [Hy|[_ Hy]]; [by apply (Hpast' i)|].
    apply list_lookup_singleton_Some in Hy as [_ <-]. exists (S (length steps)). rewrite take_ge by (rewrite length_app; cbn; lia). by rewrite foldl_app.
  - exists ws. rewrite Hr. split_and!; [done|lia|done|done].
Qed.
(** C13: [DefinitionResolver]: when each apply and delete is made at a root that
    has received every other root's record, and no apply leaves out a field the
    definition has, the fleet is one register: a root that is up to date reads
    its state, and every other root, having received what it has in any order, a
    state it had before, without a conflict. (A field left out is not cleared
    everywhere: [clear_ignored] and [clear_undone] in [MergeExamples].) *)
Theorem serial_edits_are_a_register steps r name : serial ∅ steps -> keeps_fields None steps -> Z.of_nat (length steps) <= u64_max ->
  let got := get_merged name (sources_for_name r (root_of (fleet_run steps) r)) in
  (exists n, reads (register_run (take n steps)) name got) /\ (up_to_date (fleet_run steps) r -> reads (register_run steps) name got).
Proof.
  intros Hser Hkeep Hlen got. destruct (serial_run steps Hser Hkeep Hlen) as (ws & Hf & _ & Hreg & Hpast). split.
  - destruct (decide (sources_for_name r (root_of (fleet_run steps) r) = [])) as [He|Hne]; [exists 0%nat; unfold got; by rewrite He|].
    destruct (newest ws _ (serial_placed ws _ r Hf) (se_settled _ _ Hf) Hne) as (I & s & Hin & HI & Hmax). destruct (Hpast I _ HI) as [n Hn]. exists n. rewrite Hn. by apply (newest_reads ws _ r I s).
  - intros Hup. pose proof (up_to_date_sources ws _ r Hf Hup) as Hs. rewrite Hreg. unfold got. destruct (last ws) as [x|] eqn:Hl; [|by rewrite Hs]. destruct Hs as (s & Hin & ->).
    destruct (last_newest ws _ r s Hf Hl) as [HI Hmax]. by apply (newest_reads ws _ r (pred (length ws)) s).
Qed.
End register.
End serial.
