(* ===== verification/MergeExamples.v ===== *)
(** Definitions merged on small inputs, with the JSON trees of [MemExamples]: a
    kind with two fields, and one with a field it leaves out when it is empty. *)

From Stdlib Require Import Ascii.
From S2P Require Import Text Encoding Address Names.
From S2P Require Import Prelude Ordered Schema Effects Kinds Inverted MessageIndex QueryIndex Digest MemStore MemWatch MemReplica MemExamples Merge MergeFacts MergeFleet MergeSerial.
#[local] Open Scope Z_scope.
#[local] Open Scope string_scope.

Definition tree_bool (t : tree) : option bool := match t with TBool b => Some b | _ => None end.
#[export] Program Instance toy_build : JsonBuild := {| json_object := fun m => of_object (map_iter m); json_bool := TBool; as_bool := tree_bool |}.
Next Obligation. intros m. apply tree_object_of. Qed.
Next Obligation. done. Qed.

Lemma tree_get_object (m : gmap string tree) key : tree_get (of_object (map_iter m)) key = m !! key.
Proof.
  transitivity ((list_to_map (map_iter m) : gmap string tree) !! key).
  - induction (map_iter m) as [|[k t] l IH]; [done|]. cbn. destruct (String.eqb_spec k key) as [->|Hk]; [by rewrite lookup_insert_eq|]. by rewrite lookup_insert_ne.
  - apply option_eq. intros t. rewrite <-elem_of_list_to_map by apply NoDup_map_iter_fst. by rewrite elem_of_map_iter.
Qed.

(** Only the roots of the fleet and those received from need a look. *)
Lemma up_to_date_by {DK : DefinitionKind} (f : gmap NodeId Root) r : Forall (fun x => x <> r -> rt_local (root_of f x) = fst <$> rt_replicas (root_of f r) !! x) (elements (dom f ∪ dom (rt_replicas (root_of f r)))) -> up_to_date f r.
Proof.
  rewrite Forall_forall. intros Hall x Hx. destruct (decide (x ∈ dom f ∪ dom (rt_replicas (root_of f r)))) as [Hin|Hout]; [apply Hall; [by apply elem_of_elements|done]|].
  apply not_elem_of_union in Hout as [Hf Hr]. apply not_elem_of_dom in Hf, Hr. rewrite Hr. unfold root_of. by rewrite Hf.
Qed.

(** * A kind that writes all its fields *)

Module Charter.
Definition spec_tree (s : string * string) : tree := of_object [("flow", TStr s.2); ("title", TStr s.1)].
Definition spec_of_tree (t : tree) : result string (string * string) :=
  ok_or (title ← tree_get t "title" ≫= as_text; flow ← tree_get t "flow" ≫= as_text; Some (title, flow)) "missing field".
#[export] Program Instance charter : DefinitionKind := {|
  Spec := string * string; kind_name := "Charter"; spec_to_value := fun s => Ok (spec_tree s); spec_from_value := spec_of_tree; always_written := {["flow"; "title"]} |}.
Next Obligation. intros s. by eexists _, _. Qed.
Next Obligation. intros [title flow] v fields [= <-] [= <-]. vm_compute. reflexivity. Qed.
Next Obligation. intros [title flow] v fields f [= <-] [= <-]. rewrite elem_of_union, !elem_of_singleton. intros [->| ->]; eexists; vm_compute; reflexivity. Qed.
Next Obligation.
  intros m [title flow] v fields f Hm _ [= <-] [= <-] [x Hx]. apply elem_of_list_to_map_2 in Hx. rewrite !elem_of_cons, elem_of_nil in Hx. apply elem_of_dom, Hm.
  destruct Hx as [[= -> _]|[[= -> _]|[]]]; set_solver.
Qed.
Definition named_meta : InputMeta := mkInput "widgets" ∅ ∅ [] [] None.
Definition by_operator : WriterIdentity := with_source operator "definition-apply".
Definition applies (r title flow : string) (now : Timestamp) : FleetStep := mkStep r (FApply by_operator named_meta (title, flow)) now "flotilla" "1".
Definition receives (r origin : string) (now : Timestamp) : FleetStep := mkStep r (FReceive origin) now "flotilla" "1".
Definition deletes (r : string) (now : Timestamp) : FleetStep := mkStep r (FDelete "widgets" now) now "flotilla" "1".
(** What a root reads, and the paths in conflict. *)
Definition shown (steps : list FleetStep) (r : string) : option (string * string * list string) :=
  match get_merged "widgets" (sources_for_name r (root_of (fleet_run steps) r)) with
  | Ok o => Some (df_spec o, match om_merge (df_metadata o) with Some m => (map_iter (mm_conflicts m)).*1 | None => [] end)
  | Err _ => None
  end.

Definition baseline : list FleetStep := [applies "kiwi" "Widgets" "default" 1; receives "feta" "kiwi" 2].
(** One edit after the other: the last is read everywhere. *)
Definition in_turn : list FleetStep := baseline ++ [applies "feta" "Better widgets" "default" 3; receives "kiwi" "feta" 4].
Example in_turn_shown : shown in_turn "kiwi" = Some ("Better widgets", "default", []) /\ shown in_turn "feta" = Some ("Better widgets", "default", []) /\ shown in_turn "brie" = None.
Proof. vm_compute. auto. Qed.
(** Two edits at once: both fields are in conflict at both roots, and the value
    with the lesser dot is read. *)
Definition at_once : list FleetStep :=
  baseline ++ [applies "kiwi" "Kiwi widgets" "kiwi-flow" 3; applies "feta" "Feta widgets" "feta-flow" 4; receives "kiwi" "feta" 5; receives "feta" "kiwi" 6].
Example at_once_shown : shown at_once "kiwi" = Some ("Feta widgets", "feta-flow", ["spec.flow"; "spec.title"]) /\ shown at_once "feta" = shown at_once "kiwi".
Proof. vm_compute. auto. Qed.
(** The root whose value is read settles one field, and the other stays in conflict. *)
Example kept_conflict : shown (at_once ++ [applies "feta" "Resolved widgets" "feta-flow" 7; receives "kiwi" "feta" 8]) "kiwi" = Some ("Resolved widgets", "feta-flow", ["spec.flow"]).
Proof. vm_compute. reflexivity. Qed.
(** The same edit at the other root: its record now has the value it read in
    place of the one it wrote, and the other conflict is gone everywhere. *)
Example lost_conflict : let steps := (at_once ++ [applies "kiwi" "Resolved widgets" "feta-flow" 7; receives "feta" "kiwi" 8])%list in
  shown steps "kiwi" = Some ("Resolved widgets", "feta-flow", []) /\ shown steps "feta" = Some ("Resolved widgets", "feta-flow", []).
Proof. vm_compute. auto. Qed.
(** With a third root, a value that was overwritten comes back, and is read: feta
    replaced brie's flow, and gives up its own for the one it reads when it edits
    the title. *)
Definition third : list FleetStep :=
  [applies "brie" "Widgets" "old-flow" 1; receives "feta" "brie" 2; applies "feta" "Widgets" "feta-flow" 3; applies "edam" "Widgets" "edam-flow" 4; receives "feta" "edam" 5].
Example overwritten_returns : shown third "feta" = Some ("Widgets", "edam-flow", ["spec.flow"]) /\
  shown (third ++ [applies "feta" "Better widgets" "edam-flow" 6]) "feta" = Some ("Better widgets", "old-flow", ["spec.flow"]).
Proof. vm_compute. auto. Qed.
(** A delete against an edit stays to be seen. *)
Example delete_conflict : shown (baseline ++ [deletes "kiwi" 3; applies "feta" "Edited" "default" 4; receives "kiwi" "feta" 5]) "kiwi" = Some ("Edited", "default", ["$deleted"]) /\
  shown (baseline ++ [deletes "kiwi" 3]) "kiwi" = None.
Proof. vm_compute. auto. Qed.

(** * The theorems at these inputs *)

Definition sources_at (steps : list FleetStep) (r : string) : list DefinitionSource := sources_for_name r (root_of (fleet_run steps) r).
Lemma merge_order_free_witness : NoDup (sr_origin <$> sources_at at_once "feta") /\ merge_sources (sources_at at_once "feta") = merge_sources (reverse (sources_at at_once "feta")).
Proof.
  assert (NoDup (sr_origin <$> sources_at at_once "feta")) as Hn by (apply (bool_decide_unpack _); vm_compute; exact I). split; [exact Hn|].
  apply (merge_order_free (sources_at at_once "feta")); [symmetry; apply reverse_Permutation|exact Hn].
Defined.
Definition merged_at (steps : list FleetStep) (r : string) : DefinitionObject :=
  match merge_sources (sources_at steps r) with Ok o => o | Err _ => mkDefinition (mkMeta EmptyString EmptyString EmptyString ∅ ∅ [] [] None 0 None) (EmptyString, EmptyString) None end.
Lemma merge_exact_witness : merge_sources (sources_at at_once "feta") = Ok (merged_at at_once "feta") /\ exists merge, om_merge (df_metadata (merged_at at_once "feta")) = Some merge /\
  forall path siblings, mm_conflicts merge !! path = Some siblings -> exists cs, siblings = sibling_of <$> cs /\ forall c, c ∈ cs <-> stands (sources_at at_once "feta") path c.
Proof.
  assert (merge_sources (sources_at at_once "feta") = Ok (merged_at at_once "feta")) as Hm.
  { assert (is_ok (merge_sources (sources_at at_once "feta")) = true) as Hok by (vm_compute; reflexivity). unfold merged_at. by destruct (merge_sources (sources_at at_once "feta")). }
  split; [exact Hm|].
  destruct (merge_exact (sources_at at_once "feta") (merged_at at_once "feta") Hm) as (spec & merge & _ & H1 & _ & H2). exists merge. split; [exact H1|]. intros path siblings Hp.
  specialize (H2 path). rewrite Hp in H2. destruct H2 as (cs & H3 & _ & _ & _ & H4). exists cs. split; [exact H3|exact H4].
Defined.
Definition settling : FleetStep := applies "feta" "Resolved widgets" "feta-flow" 7.
Definition planned (steps : list FleetStep) (st : FleetStep) : DefinitionWrite :=
  match plan (fleet_run steps) st with Some w => w | None => mkWrite named_meta (EmptyString, EmptyString) no_merge end.
End Charter.

(** * A kind with a field it leaves out *)

Module Layer.
Definition spec_tree (s : string * option string) : tree := of_object (match s.2 with Some image => [("image", TStr image)] | None => [] end ++ [("title", TStr s.1)]).
Definition spec_of_tree (t : tree) : result string (string * option string) := ok_or (title ← tree_get t "title" ≫= as_text; Some (title, tree_get t "image" ≫= as_text)) "missing field".
Lemma image_read (m : gmap string tree) title image : spec_of_tree (of_object (map_iter m)) = Ok (title, Some image) -> is_Some (m !! "image").
Proof.
  unfold spec_of_tree. rewrite !tree_get_object. destruct (m !! "image") as [t|]; [by eexists|]. destruct (m !! "title") as [t|]; cbn; [|discriminate]. destruct (as_text t); discriminate.
Qed.
#[export] Program Instance layer : DefinitionKind := {|
  Spec := string * option string; kind_name := "Layer"; spec_to_value := fun s => Ok (spec_tree s); spec_from_value := spec_of_tree; always_written := {["title"]} |}.
Next Obligation. intros [title [image|]]; by eexists _, _. Qed.
Next Obligation. intros [title [image|]] v fields [= <-] [= <-]; vm_compute; reflexivity. Qed.
Next Obligation. intros [title [image|]] v fields f [= <-] [= <-]; rewrite elem_of_singleton; intros ->; eexists; vm_compute; reflexivity. Qed.
Next Obligation.
  intros m [title [image|]] v fields f Hm Hs [= <-] [= <-] [x Hx]; apply elem_of_list_to_map_2 in Hx; rewrite !elem_of_cons, elem_of_nil in Hx.
  - destruct Hx as [[= -> _]|[[= -> _]|[]]]; [exact (image_read m title image Hs)|apply elem_of_dom, Hm; set_solver].
  - destruct Hx as [[= -> _]|[]]. apply elem_of_dom, Hm. set_solver.
Qed.
Definition layer_meta : InputMeta := mkInput "tools" ∅ ∅ [] [] None.
Definition sets (title : string) (image : option string) (now : Timestamp) : FleetStep := mkStep "kiwi" (FApply (with_source operator "definition-apply") layer_meta (title, image)) now "flotilla" "1".
(** Clearing the field alone writes nothing: the fields asked for are all there. *)
Example clear_ignored : match plan (fleet_run [sets "Tools" (Some "base") 1]) (sets "Tools" None 2) with Some _ => true | None => false end = false.
Proof. vm_compute. reflexivity. Qed.
(** Cleared with another change, it comes back with any copy that has it. *)
Definition shown_spec (steps : list FleetStep) (r : string) : option (string * option string) :=
  match get_merged "tools" (sources_for_name r (root_of (fleet_run steps) r)) with Ok o => Some (df_spec o) | Err _ => None end.
Example clear_undone : let steps := [sets "Tools" (Some "base") 1; mkStep "feta" (FReceive "kiwi") 2 "flotilla" "1";
    mkStep "feta" (FApply (with_source operator "definition-apply") layer_meta ("Feta tools", Some "base")) 3 "flotilla" "1"; mkStep "kiwi" (FReceive "feta") 4 "flotilla" "1"] in
  shown_spec steps "kiwi" = Some ("Feta tools", Some "base") /\ shown_spec (steps ++ [sets "Kiwi tools" None 5]) "kiwi" = Some ("Kiwi tools", Some "base").
Proof. vm_compute. auto. Qed.

(** Edits in turn, one of which adds the field: the last is read everywhere. *)
Definition feta_sets (title : string) (image : option string) (now : Timestamp) : FleetStep :=
  mkStep "feta" (FApply (with_source operator "definition-apply") layer_meta (title, image)) now "flotilla" "1".
Definition added : list FleetStep := [sets "Tools" None 1; mkStep "feta" (FReceive "kiwi") 2 "flotilla" "1"; feta_sets "Tools" (Some "base") 3; mkStep "kiwi" (FReceive "feta") 4 "flotilla" "1"].
Example added_shown : shown_spec added "kiwi" = Some ("Tools", Some "base") /\ shown_spec (take 3 added) "kiwi" = Some ("Tools", None) /\ shown_spec added "brie" = None.
Proof. vm_compute. auto. Qed.
Ltac each_root := apply up_to_date_by; match goal with |- Forall _ ?l => let l' := eval vm_compute in l in replace l with l' by (vm_compute; reflexivity) end;
  repeat constructor; intros Hn; first [by destruct Hn|vm_compute; reflexivity].
Lemma added_serial : serial ∅ added /\ keeps_fields None added.
Proof.
  unfold added. cbn [serial keeps_fields app fs_op fs_root sets feta_sets register_step fmap option_fmap option_map]. split.
  - split; [|split; [exact I|split; [|split; exact I]]].
    + intros x Hx. unfold root_of. by rewrite !lookup_empty.
    + each_root.
  - split; [exact I|]. split; [exact I|]. split; [|split; exact I]. intros x Hx. apply elem_of_dom in Hx as [v Hv]. apply elem_of_list_to_map_2 in Hv. rewrite !elem_of_cons, elem_of_nil in Hv.
    destruct Hv as [[= -> _]|[]]. apply elem_of_dom. eexists. vm_compute. reflexivity.
Qed.
Lemma serial_edits_are_a_register_witness : serial ∅ added /\ keeps_fields None added /\
  reads (Some (fields_of ("Tools", Some "base"), false)) "tools" (get_merged "tools" (sources_for_name "kiwi" (root_of (fleet_run added) "kiwi"))).
Proof.
  destruct added_serial as [Hs Hk]. split; [exact Hs|]. split; [exact Hk|]. refine (proj2 (serial_edits_are_a_register added "kiwi" "tools" Hs Hk _) _); [vm_compute; discriminate|]. each_root.
Defined.
End Layer.
